(* ===== verification/_CoqProject ===== *)
-Q . S2P
Prelude.v
GoStr.v
GoTime.v
GoPath.v
GoErr.v
Config.v
Schedule.v
Playbook.v
Gate.v
GateSafe.v
GoJson.v
GoRunes.v
Values.v
Loader.v
Parse.v
Redact.v
Logging.v
GoMarshal.v
AgentStage.v
GuardConfig.v
Records.v
Store.v
Contract.v
FileLock.v
Eff.v
Fake.v
Migrate.v
Guard.v
GuardSafe.v
Instance.v
Holder.v
Deliveries.v
DeliveryOnce.v
Sha256.v
Sources.v
Ingress.v
RunRecords.v
Host.v
AgentRun.v
AgentSafe.v
Gather.v
McpCatalog.v
Collections.v
Sinks.v
GitHubSink.v
Retrieve.v
Executor.v
ExecutorCalls.v
ExecutorSafe.v
ExecutorDone.v
ExecutorWhole.v
ExecutorWorld.v
ExecutorReplay.v
IndexPassage.v
GoJsonRead.v
GoJsonTokens.v
ConfigFile.v
IndexReports.v
Index.v
IndexSafe.v
IndexSearch.v
IndexWhole.v
IndexFile.v
GoNum.v
Etcd.v
EtcdStore.v
EtcdSafe.v
EtcdWorld.v
EtcdRef.v
EtcdJson.v
EtcdCalls.v
EtcdScene.v
Api.v
Cli.v
Serve.v
Commands.v
CollectionsCmd.v
CliSafe.v
CliScene.v
Rows.v
