(* ===== verification/Prelude.v ===== *)
(** * A verification library of the Gronin runtime

    Gronin, the Go module under [src/runtime], turns signals of an infrastructure (a schedule, an
    operator's command, a signed webhook) into runs of an agent whose tools, sources, cost and effects
    a playbook bounds.  This library models the packages under [src/runtime/internal] and the commands
    of [src/runtime/cmd/gronin] as executable definitions, and proves of them what makes each correct.

    ** The program and its model

    A deployment is a state directory and what is configured in it.

    - Configuration, [internal/config]: [Config] (keys, values, references and their binding into a
      shell line), [ConfigFile] (the JSON file, as the text [save] writes and [Load] reads).
    - Playbooks, [internal/playbook]: [Playbook] (playbook.go), [Gate] (validate.go, whole; [GateSafe]
      its theorems), [Values] (values.go), [Parse] (parse.go), [Loader] (load.go).
    - Catalogues: [McpCatalog], [Collections], [Sources], one for each package of that name.
    - The record, [internal/record]: [Records] (rows and tables), [Store] (waits, refusals, ticks, rate
      starts, run rows), [Rows] (the columns SQLite keeps of those: nulls, texts of time and the order they
      give), [RunRecords] (what a run leaves behind, and blobs), [Deliveries] with
      [DeliveryOnce] (accept.go, deliveries.go, delivery_refusals.go), [Migrate] (opening, schema.go), [Redact]
      (redact.go).  [Logging] is [internal/logging], over the same redactor.
    - Coordination, [internal/guard]: [GuardConfig] (config.go, the requests of coordinator.go, clock.go),
      [GoErr] (its errors), [Guard] with [GuardSafe] (guard.go, wait.go, stamp.go: the decision to run and the
      wait for a claim), [Instance] (which processes are alive, and Reconcile), [Holder] (holder.go: renewing a
      claim and stopping in time).  What every coordinator promises is [Contract]; the three that keep claims
      are [FileLock] (internal/run/filelock.go: one host), [Etcd] with [EtcdStore], [EtcdSafe], [EtcdWorld],
      [EtcdCalls], [EtcdJson], [EtcdRef] and [EtcdScene] (internal/guard/etcd: any number of hosts), and [Fake]
      (guardtest/fake.go: the backend kept in memory that the tests run against, and clock.go).  The suite of
      guardtest/contract.go is in [Contract], clause by clause, and is run on [Fake] and on [FileLock].
    - Running, [internal/run] and [internal/stage]: [Host] (what a run asks of its host), [Gather], [Retrieve],
      [AgentStage] with [AgentRun] and [AgentSafe] (the bounds as arguments, the child, its stream and the receipt),
      [Sinks] and [GitHubSink] (internal/sink), [Executor] (execute.go, replay.go, run.go, and validate.go of the
      agent stage) with [ExecutorCalls], [ExecutorSafe], [ExecutorDone], [ExecutorWhole], [ExecutorReplay] and
      [ExecutorWorld].
    - Search, [internal/index]: [IndexPassage] and [IndexReports] (how documents are cut), [Index] (walks,
      generations, the transaction of an update), [IndexSafe], [IndexSearch], [IndexWhole], [IndexFile].
    - Triggers: [Schedule] (internal/schedule), [Ingress] (internal/ingress), with [Sha256].  [Api] is
      [internal/api].
    - The commands: [Cli] (deployment.go, coordination.go), [Commands], [CollectionsCmd], [Serve], and their
      theorems [CliSafe] and [CliScene].
    - Go's standard library, as far as the runtime calls it: [GoStr], [GoTime], [GoPath], [GoErr], [GoJson],
      [GoRunes], [GoMarshal], [GoJsonRead], [GoJsonTokens], [GoNum].

    A trigger is one playbook's name and a kind.  [Serve] loads the playbooks ([Loader], [Parse], [Gate]), arms their
    schedules ([Schedule]) and listens ([Ingress], whose deliveries [Deliveries] records once); every trigger
    then asks the guard ([Guard]) for a claim, which a coordinator grants together with the schedule's tick
    and a slot of the playbook's rate, or refuses; a manual or a webhook trigger may wait for one, its wait kept in
    the record ([Store]) and dropped when its process dies ([Instance]).  An admitted run ([Executor]) gathers,
    retrieves ([Retrieve] over [IndexSearch]), runs the agent, judges its report and delivers it to its sinks,
    asking before each stage whether its claim still stands ([Holder]), and leaves its rows and blobs ([RunRecords]).

    ** How it is modelled

    Code that only computes is a function.  Code that changes a store it owns is a function of that store's
    state ([Store], [Deliveries], [FileLock], [Index]).  Code that asks a world it does not control is a program of
    [Eff], a tree of calls and of what is done with each answer: its signature lists the calls, the source's own
    calls in the source's order, and every failure is one of their answers.  What is proved of such a program is
    proved of each trace any world could give it, ended ([runs]) or on its way ([reaches]), by what its calls are ([only]), by a monitor that
    follows them ([monitored]), or, for programs side by side over one world, of every interleaving
    ([reach], [guarded]).  Errors are values ([GoErr]), an [int64] wraps ([i64]), a string is its bytes, and a time is
    the nanoseconds since the zero time.  A deferred call runs where the function that defers it returns.

    Interfaces: [Cron] of [Schedule] is what the cron parser documents of a schedule, with an instance;
    [Codec] of [Etcd] is what the JSON of two values gives back, with [json_codec] of [EtcdJson]; [Store] and [StoreLaws] of
    [EtcdStore] are what etcd documents of transactions, revisions and leases, with the instance of [EtcdRef]; a
    [Signature] of [Eff] is what a program may call.  Third-party code is an argument of the definitions that use it.

    ** What the theorems show

    - A run: one reported as succeeded is whole ([ExecutorWhole]), every run begun is concluded once ([ExecutorDone]),
      nothing is spent after a failed fence or before what should precede it ([ExecutorSafe]), a replay asks what
      was asked ([ExecutorReplay]); the agent is bounded as its playbook declares and its arguments read back
      ([AgentSafe]); a sink stays within its cap ([GitHubSink]).
    - Who runs: every claim is accounted for, one refusal is recorded, a waiting trigger runs the file as it stands,
      and a wait ends ([GuardSafe]); a hold stops in time but for what is found below ([Holder]); only the dead are
      dropped ([Instance]).
    - Coordination: claims exclude each other, a tick is taken once, the rate holds: of the file lock ([FileLock]), of
      etcd ([EtcdWorld]) and of the backend in memory ([Fake]), which also refines the contract's ledger ([Contract]) in
      every interleaving; an acquisition comes to one accounted end ([EtcdCalls]).
    - What is armed: an armed playbook passed the shape layer and the gate ([Parse], [GateSafe]); what its references
      bind reads to a shell as the values in their words ([Config], whose [Posix] is the shell's lexer); serve arms
      nothing before all is loaded ([Serve]); every occurrence of a schedule is handled once, and one that runs out is
      never done with ([Schedule]); a loaded collection is searchable ([Collections]).
    - What comes in: only a signed request is served and an accepted one is recorded ([Ingress]), and handed
      to a playbook once ([DeliveryOnce]); the API answers who may ask ([Api]).
    - What is kept: a record is migrated whole ([Migrate]), its columns hold the values the operations compute ([Rows]), a saved configuration loads back ([ConfigFile]), no line of the
      log holds a secret ([Logging]); an index is always one whole walk, an update builds what a rebuild builds, an
      unbounded update ends, a document is cut whole ([IndexWhole], [IndexSafe], [IndexPassage]).
    - The commands: their exit status tells the run, and each closes what it opened ([CliSafe]).

    Where the code does not do what it says, the definitions follow the code, and an example or a theorem beside
    them shows it ([a_rate_limited_tick_is_spent], [a_lost_claim_resumed], [other_files] and the like).

    ** Fuel and bounds

    Functions that recurse on a shrinking text take its length, or one more, as fuel: [split], the readers of JSON
    and of characters, the cut of [IndexPassage].  [Token] of [GoJsonTokens] looks twice, the most its separators need;
    reading an IPv6 address takes nine rounds for its eight groups.  [tickOne] is given the occurrences of a window,
    and is shown to need no more where the schedule goes on past the clock, and never to end where it does not.  [Guard]'s rounds are
    enough for the wait's own time, by [a_wait_ends]; [decidedInChain] takes the number of deliveries there are, which
    [Accept_always_answers] shows enough.  Loops whose rounds the world decides take as many as are given and give
    nothing beyond: [rounds] of [Etcd], [acquiring] and [waiting] of [Fake], where [left_alone_it_takes] shows that a
    round lost is one another host's call came between.  Retries and renewals follow the list of what the world
    answered.  [maxLogValues] of [Logging] is [slog]'s own hundred.

    ** What is not modelled, and why

    The no-echo prompt of a terminal, process groups and signals ([internal/proc]), the flags of cobra and the
    aligned columns of [tabwriter] are effects or text of the system and of libraries.  YAML, JSON Schema, cron
    expressions, regular expressions, SQLite's own execution and ranking, the etcd client and its servers, and Go's
    Unicode tables are third-party: parameters, with what is documented of them where something rests on it.  Folding a
    JSON field's name covers ASCII.  The other test doubles ([bintest], [fakeagent], [ingresstest] and
    the servers, proxy and credentials of [guardtest]) start processes and sockets for the tests and are not part of
    the program; of the contract's suite, C4 and C10 need calls that overlap and are left to the calls' own theorems. *)
From Stdlib Require Export ZArith Lia Ascii String.
From stdpp Require Export base tactics list strings gmap sorting.
#[export] Set Default Goal Selector "!".

(** ** Notations of the library *)
Declare Scope gronin_scope.
Delimit Scope gronin_scope with gronin.
Open Scope string_scope.
Open Scope list_scope.
Open Scope Z_scope.

(** A Go function that fails returns [inl] of its error and otherwise [inr] of its value;
    [let*] is the [if err != nil { return ... err }] that follows the call. *)
Notation "'let*' x ':=' c 'in' k" :=
  (match c with inl e => inl e | inr x => k end)
  (at level 10, x pattern, c at level 100, k at level 200) : gronin_scope.
Open Scope gronin_scope.

(** Appending to a constructor computes. *)
#[global] Arguments String.append !s1 s2 : simpl nomatch, rename.

(** ** Tactics *)

(** Split every [match] the goal or a hypothesis is stuck on, one at a time. *)
Ltac split_match :=
  match goal with
  | |- context [match ?x with _ => _ end] => destruct x eqn:?
  | H : context [match ?x with _ => _ end] |- _ => destruct x eqn:?
  end.

(** Case analysis on boolean tests of integers and strings, keeping the fact proved. *)
Ltac bool_facts :=
  repeat match goal with
  | H : (_ && _)%bool = true |- _ => apply andb_prop in H as [? ?]
  | H : (_ || _)%bool = false |- _ => apply orb_false_elim in H as [? ?]
  | H : negb _ = true |- _ => apply negb_true_iff in H
  | H : negb _ = false |- _ => apply negb_false_iff in H
  | H : (_ =? _)%Z = true |- _ => apply Z.eqb_eq in H
  | H : (_ =? _)%Z = false |- _ => apply Z.eqb_neq in H
  | H : (_ <? _)%Z = true |- _ => apply Z.ltb_lt in H
  | H : (_ <? _)%Z = false |- _ => apply Z.ltb_ge in H
  | H : (_ <=? _)%Z = true |- _ => apply Z.leb_le in H
  | H : (_ <=? _)%Z = false |- _ => apply Z.leb_gt in H
  | H : (_ =? _)%string = true |- _ => apply String.eqb_eq in H
  | H : (_ =? _)%string = false |- _ => apply String.eqb_neq in H
  | H : bool_decide _ = true |- _ => apply bool_decide_eq_true in H
  | H : bool_decide _ = false |- _ => apply bool_decide_eq_false in H
  end.

(** ** Machine integers *)

(** A Go [int64] (and [int], on the platforms the runtime is built for) is a [Z] kept in
    this range; [i64] is the wrap-around every arithmetic operation ends with. *)
Definition i64_min : Z := - 2 ^ 63.
Definition i64_max : Z := 2 ^ 63 - 1.
Definition i64 (z : Z) : Z := (z + 2 ^ 63) mod 2 ^ 64 - 2 ^ 63.
Definition in_i64 (z : Z) : Prop := i64_min <= z <= i64_max.

Lemma i64_range z : in_i64 (i64 z).
Proof.
  unfold in_i64, i64, i64_min, i64_max.
  pose proof (Z.mod_pos_bound (z + 2 ^ 63) (2 ^ 64) eq_refl). lia.
Qed.

Lemma i64_id z : in_i64 z → i64 z = z.
Proof.
  unfold in_i64, i64, i64_min, i64_max. intros H.
  rewrite Z.mod_small; lia.
Qed.

Create HintDb gronin discriminated.
#[export] Hint Resolve i64_range : gronin.
Create Rewrite HintDb gronin.
#[export] Hint Rewrite @length_app @length_map : gronin.

(** ** Lists *)

(** [sort.Strings]: byte order, which is [String.leb]'s. *)
Fixpoint insert_string (x : string) (l : list string) : list string :=
  match l with
  | [] => [x]
  | y :: ys => if String.leb x y then x :: y :: ys else y :: insert_string x ys
  end.

Definition sort_strings (l : list string) : list string := foldr insert_string [] l.

Lemma insert_string_perm x l : insert_string x l ≡ₚ x :: l.
Proof.
  induction l as [|y l IH]; simpl; [done|].
  destruct (String.leb x y); [done|]. rewrite IH. apply Permutation_swap.
Qed.

Lemma sort_strings_perm l : sort_strings l ≡ₚ l.
Proof. induction l as [|x l IH]; simpl; [done|]. rewrite insert_string_perm. by constructor. Qed.

Lemma elem_of_sort_strings x l : x ∈ sort_strings l ↔ x ∈ l.
Proof. by rewrite sort_strings_perm. Qed.

Lemma sort_strings_NoDup l : NoDup l → NoDup (sort_strings l).
Proof. by rewrite sort_strings_perm. Qed.

(** The keys of a map collected and sorted, the loop the code writes before it walks a map in
    an order a reader can predict. *)
Definition sorted_keys {A} (m : gmap string A) : list string :=
  sort_strings (map fst (map_to_list m)).

Lemma elem_of_sorted_keys {A} (m : gmap string A) k : k ∈ sorted_keys m ↔ is_Some (m !! k).
Proof.
  unfold sorted_keys. rewrite elem_of_sort_strings, list_elem_of_fmap. split.
  - intros ([k' v] & -> & H%elem_of_map_to_list). eauto.
  - intros [v Hv]. exists (k, v). split; [done|]. by apply elem_of_map_to_list.
Qed.

Lemma sorted_keys_NoDup {A} (m : gmap string A) : NoDup (sorted_keys m).
Proof. apply sort_strings_NoDup, NoDup_fst_map_to_list. Qed.

(** Numbered elements, as [for at, x := range xs] sees them. *)
Fixpoint enumerate_from {A} (n : nat) (l : list A) : list (nat * A) :=
  match l with [] => [] | x :: l => (n, x) :: enumerate_from (S n) l end.
Definition enumerate {A} (l : list A) : list (nat * A) := enumerate_from 0 l.

Lemma elem_of_enumerate_from {A} (l : list A) n i x :
  (i, x) ∈ enumerate_from n l ↔ ∃ j, i = (n + j)%nat ∧ l !! j = Some x.
Proof.
  revert n. induction l as [|y l IH]; intros n; simpl.
  { split; [set_solver|]. intros (j & _ & [=]). }
  rewrite elem_of_cons, IH. split.
  - intros [[= -> ->]|(j & -> & Hj)]; [exists 0%nat|exists (S j)]; simpl; split; auto; lia.
  - intros ([|j] & -> & Hj); simpl in Hj; [left|right].
    + rewrite Nat.add_0_r. congruence.
    + exists j. split; [lia|done].
Qed.

Lemma elem_of_enumerate {A} (l : list A) i x : (i, x) ∈ enumerate l ↔ l !! i = Some x.
Proof.
  unfold enumerate. rewrite elem_of_enumerate_from. split; [by intros (? & -> & ?)|eauto].
Qed.
#[export] Hint Rewrite @elem_of_enumerate elem_of_sort_strings : gronin.
