(* ===== verification/GoStr.v ===== *)
(** Go's [strings], [strconv], [fmt] and [unicode/utf8] functions that the runtime calls, on
    strings taken as byte sequences ([string] is a list of 8-bit [ascii], as a Go string
    is). *)
From S2P Require Import Prelude.

Definition byte_of (c : ascii) : Z := Z.of_N (N_of_ascii c).
Definition chr (n : nat) : ascii := ascii_of_nat n.
Definition str (c : ascii) : string := String c EmptyString.

(** The characters a Coq string literal cannot hold. *)
Definition DQ : ascii := "034"%char.
Definition SQ : ascii := "039"%char.
Definition BS : ascii := "092"%char.
Definition NL : ascii := "010"%char.
Definition dq : string := str DQ.
Definition nl : string := str NL.

(** ** Slicing *)
Fixpoint str_drop (n : nat) (s : string) : string :=
  match n, s with
  | O, _ => s
  | S n, String _ s => str_drop n s
  | S _, EmptyString => EmptyString
  end.

Fixpoint str_take (n : nat) (s : string) : string :=
  match n, s with
  | O, _ => EmptyString
  | S n, String c s => String c (str_take n s)
  | S _, EmptyString => EmptyString
  end.

(** [s[a:b]] *)
Definition slice (s : string) (a b : nat) : string := str_take (b - a) (str_drop a s).

(** ** Prefixes, search, replacement *)
Fixpoint has_prefix (s prefix : string) {struct prefix} : bool :=
  match prefix, s with
  | EmptyString, _ => true
  | String p prefix, String c s => Ascii.eqb c p && has_prefix s prefix
  | String _ _, EmptyString => false
  end.

Definition cut_prefix (s prefix : string) : option string :=
  if has_prefix s prefix then Some (str_drop (String.length prefix) s) else None.

Definition trim_prefix (s prefix : string) : string := default s (cut_prefix s prefix).

(** [strings.Index(s, sub)] *)
Fixpoint index_of (s sub : string) : option nat :=
  if has_prefix s sub then Some 0%nat
  else match s with
       | EmptyString => None
       | String _ s => S <$> index_of s sub
       end.

Definition contains_str (s sub : string) : bool :=
  match index_of s sub with Some _ => true | None => false end.

(** [strings.Cut(s, sep)] *)
Definition cut (s sep : string) : option (string * string) :=
  match index_of s sep with
  | Some i => Some (str_take i s, str_drop (i + String.length sep) s)
  | None => None
  end.

(** [strings.Split(s, sep)] for a non-empty [sep]; fuel is [String.length s + 1]. *)
Fixpoint split_fuel (fuel : nat) (s sep : string) : list string :=
  match fuel with
  | O => [s]
  | S fuel =>
      match cut s sep with
      | Some (before, after) => before :: split_fuel fuel after sep
      | None => [s]
      end
  end.
Definition split (s sep : string) : list string := split_fuel (String.length s) s sep.

(** [strings.Join] *)
Definition join (l : list string) (sep : string) : string := String.concat sep l.

(** [strings.ReplaceAll(s, old, new)] for a non-empty [old]: left to right, non overlapping. *)
Fixpoint replace_fuel (fuel : nat) (s old new : string) : string :=
  match fuel with
  | O => s
  | S fuel =>
      match cut s old with
      | Some (before, after) => before +:+ new +:+ replace_fuel fuel after old new
      | None => s
      end
  end.
Definition replace_all (s old new : string) : string :=
  replace_fuel (S (String.length s)) s old new.

(** ASCII white space, which is what [strings.TrimSpace] removes from ASCII text. *)
Definition is_space (c : ascii) : bool :=
  let n := N_of_ascii c in ((n =? 32) || ((9 <=? n) && (n <=? 13)))%N.

Fixpoint trim_left (s : string) : string :=
  match s with
  | String c s' => if is_space c then trim_left s' else s
  | EmptyString => EmptyString
  end.

Fixpoint trim_right (s : string) : string :=
  match s with
  | EmptyString => EmptyString
  | String c s' =>
      match trim_right s' with
      | EmptyString => if is_space c then EmptyString else str c
      | t => String c t
      end
  end.
Definition trim_space (s : string) : string := trim_right (trim_left s).

Definition upper_char (c : ascii) : ascii :=
  let n := nat_of_ascii c in
  if ((97 <=? n) && (n <=? 122))%nat then ascii_of_nat (n - 32) else c.
Fixpoint str_map (f : ascii → ascii) (s : string) : string :=
  match s with EmptyString => EmptyString | String c s => String (f c) (str_map f s) end.
(** [strings.ToUpper] on ASCII text. *)
Definition to_upper : string → string := str_map upper_char.

Fixpoint str_all (p : ascii → bool) (s : string) : bool :=
  match s with EmptyString => true | String c s => p c && str_all p s end.

Definition is_digit (c : ascii) : bool :=
  let n := nat_of_ascii c in ((48 <=? n) && (n <=? 57))%nat.
Definition is_lower (c : ascii) : bool :=
  let n := nat_of_ascii c in ((97 <=? n) && (n <=? 122))%nat.
Definition is_upper (c : ascii) : bool :=
  let n := nat_of_ascii c in ((65 <=? n) && (n <=? 90))%nat.
Definition is_alnum (c : ascii) : bool := is_digit c || is_lower c || is_upper c.

(** ** Numbers *)
Fixpoint digits_fuel (fuel : nat) (n : N) (acc : string) : string :=
  match fuel with
  | O => acc
  | S fuel =>
      let acc := String (ascii_of_N (48 + n mod 10)) acc in
      if (n <? 10)%N then acc else digits_fuel fuel (n / 10) acc
  end.
Definition show_N (n : N) : string := digits_fuel (S (N.to_nat (N.log2 n))) n "".
(** [strconv.Itoa], [%d] *)
Definition show_Z (z : Z) : string :=
  if z <? 0 then "-" +:+ show_N (Z.to_N (- z)) else show_N (Z.to_N z).
Definition show_nat (n : nat) : string := show_N (N.of_nat n).

(** ** [%q]: [strconv.Quote].  A byte above 0x7f is passed through, which is what Quote does
    with the bytes of a printable rune. *)
Definition hex_digit (n : N) : ascii :=
  ascii_of_N (if (n <? 10)%N then 48 + n else 87 + n)%N.

Definition quote_char (c : ascii) : string :=
  let n := N_of_ascii c in
  if Ascii.eqb c DQ then str BS +:+ dq
  else if Ascii.eqb c BS then str BS +:+ str BS
  else if (n =? 7)%N then str BS +:+ "a"
  else if (n =? 8)%N then str BS +:+ "b"
  else if (n =? 12)%N then str BS +:+ "f"
  else if (n =? 10)%N then str BS +:+ "n"
  else if (n =? 13)%N then str BS +:+ "r"
  else if (n =? 9)%N then str BS +:+ "t"
  else if (n =? 11)%N then str BS +:+ "v"
  else if ((n <? 32) || (n =? 127))%N
  then str BS +:+ "x" +:+ str (hex_digit (n / 16)) +:+ str (hex_digit (n mod 16))
  else str c.

Fixpoint quote_body (s : string) : string :=
  match s with EmptyString => EmptyString | String c s => quote_char c +:+ quote_body s end.
Definition quote (s : string) : string := dq +:+ quote_body s +:+ dq.

(** ** Lemmas *)
Lemma str_app_nil_r s : s +:+ EmptyString = s.
Proof. induction s as [|c s IH]; simpl; [done|by rewrite IH]. Qed.

Lemma str_app_assoc s t u : s +:+ (t +:+ u) = (s +:+ t) +:+ u.
Proof. induction s as [|c s IH]; simpl; [done|by rewrite IH]. Qed.

Lemma str_app_assoc3 s t u v : (s +:+ t +:+ u) +:+ v = s +:+ t +:+ u +:+ v.
Proof. by rewrite !str_app_assoc. Qed.

Lemma str_length_app s t : String.length (s +:+ t) = (String.length s + String.length t)%nat.
Proof. induction s as [|c s IH]; simpl; [done|by rewrite IH]. Qed.

Lemma str_take_drop n s : str_take n s +:+ str_drop n s = s.
Proof. revert n. induction s as [|c s IH]; intros [|n]; simpl; [done..|]. by rewrite IH. Qed.

Lemma str_drop_drop a b s : str_drop a (str_drop b s) = str_drop (b + a) s.
Proof. revert b. induction s as [|c s IH]; intros [|b]; simpl; [done|by destruct a|done|done]. Qed.

Lemma str_take_add a b s : str_take (a + b) s = str_take a s +:+ str_take b (str_drop a s).
Proof.
  revert a. induction s as [|c s IH]; intros [|a]; simpl; [by destruct b|by destruct b|done|].
  by rewrite IH.
Qed.

Lemma str_take_all n s : (String.length s <= n)%nat → str_take n s = s.
Proof.
  revert n. induction s as [|c s IH]; intros [|n]; simpl; intros H; [done|done|lia|].
  rewrite IH; [done|lia].
Qed.

Lemma slice_split s a b c :
  (a <= b)%nat → (b <= c)%nat → slice s a c = slice s a b +:+ slice s b c.
Proof.
  intros Hab Hbc. unfold slice.
  replace (c - a)%nat with ((b - a) + (c - b))%nat by lia.
  rewrite str_take_add, str_drop_drop. do 4 f_equal. lia.
Qed.

Lemma take_slice s a b : (a <= b)%nat → str_take b s = str_take a s +:+ slice s a b.
Proof. intros Hab. unfold slice. rewrite <- str_take_add. f_equal. lia. Qed.

Lemma str_app_inj_l s t u : s +:+ t = s +:+ u → t = u.
Proof. induction s as [|c s IH]; simpl; [done|]. intros [= H]. auto. Qed.

Lemma str_drop_app s t : str_drop (String.length s) (s +:+ t) = t.
Proof. induction s as [|c s IH]; simpl; auto. Qed.

Lemma str_take_app s t : str_take (String.length s) (s +:+ t) = s.
Proof. induction s as [|c s IH]; simpl; [done|by rewrite IH]. Qed.

Lemma has_prefix_spec s p : has_prefix s p = true ↔ ∃ t, s = p +:+ t.
Proof.
  revert s. induction p as [|a p IH]; intros s; simpl.
  { split; [intros _; by exists s|done]. }
  destruct s as [|c s]; simpl.
  { split; [done|intros (t & [=])]. }
  rewrite andb_true_iff, Ascii.eqb_eq, IH. split.
  - intros (-> & t & ->). by exists t.
  - intros (t & [= -> ->]). split; [done|by exists t].
Qed.

Lemma has_prefix_drop s p :
  has_prefix s p = true → s = p +:+ str_drop (String.length p) s.
Proof. intros (t & ->)%has_prefix_spec. by rewrite str_drop_app. Qed.

(** [strings.Index] finds the leftmost occurrence. *)
Lemma index_of_Some s sub i :
  index_of s sub = Some i →
  s = str_take i s +:+ sub +:+ str_drop (i + String.length sub) s.
Proof.
  revert i. induction s as [|c s IH]; intros i; simpl.
  - destruct (has_prefix "" sub) eqn:E; [|done]. intros [= <-].
    apply has_prefix_spec in E as (t & E). destruct sub; [done|]. inversion E.
  - destruct (has_prefix (String c s) sub) eqn:E.
    + intros [= <-]. simpl. by apply (has_prefix_drop (String c s)).
    + destruct (index_of s sub) as [j|]; simpl; [|done]. intros [= <-]. simpl.
      f_equal. auto.
Qed.

Lemma cut_Some s sep a b : cut s sep = Some (a, b) → s = a +:+ sep +:+ b.
Proof.
  unfold cut. destruct (index_of s sep) as [i|] eqn:E; [|done]. intros [= <- <-].
  by apply index_of_Some.
Qed.

Lemma str_drop_cons n s c s' :
  str_drop n s = String c s' →
  (n < String.length s)%nat ∧ str_drop (S n) s = s' ∧ slice s n (S n) = str c.
Proof.
  intros H. split_and!.
  - revert n H. induction s as [|d s IH]; intros [|n] H; simpl in *; try done; [lia|].
    apply IH in H. lia.
  - replace (S n) with (n + 1)%nat by lia. by rewrite <- str_drop_drop, H.
  - unfold slice. replace (S n - n)%nat with 1%nat by lia. by rewrite H.
Qed.

Lemma str_all_app p s t : str_all p (s +:+ t) = str_all p s && str_all p t.
Proof. induction s as [|c s IH]; simpl; [done|]. by rewrite IH, andb_assoc. Qed.

Lemma str_all_impl (p q : ascii → bool) s :
  (∀ c, p c = true → q c = true) → str_all p s = true → str_all q s = true.
Proof.
  intros Hpq. induction s as [|c s IH]; simpl; [done|].
  intros [Hc Hs]%andb_prop. by rewrite Hpq, IH.
Qed.

Lemma str_all_map (p : ascii → bool) f s : str_all p (str_map f s) = str_all (λ c, p (f c)) s.
Proof. induction s as [|c s IH]; simpl; [done|]. by rewrite IH. Qed.

(** A property of every character is decided by trying the 256 of them. *)
Definition ascii_forall (p : ascii → bool) : bool :=
  forallb (λ n, p (ascii_of_nat n)) (seq 0 256).

Lemma ascii_forall_spec p c : ascii_forall p = true → p c = true.
Proof.
  unfold ascii_forall. rewrite forallb_forall. intros H.
  rewrite <- (ascii_nat_embedding c). apply H, in_seq.
  pose proof (nat_ascii_bounded c). lia.
Qed.

(** ** Splitting at one character *)
Fixpoint split_on (c : ascii) (s : string) : list string :=
  match s with
  | EmptyString => [EmptyString]
  | String d s =>
      if Ascii.eqb d c then EmptyString :: split_on c s
      else match split_on c s with
           | h :: t => String d h :: t
           | [] => []
           end
  end.

Lemma split_on_ne c s : split_on c s ≠ [].
Proof.
  induction s as [|d s IH]; simpl; [done|]. destruct (Ascii.eqb d c); [done|].
  by destruct (split_on c s).
Qed.

Lemma split_on_app_sep c a b : split_on c (a +:+ String c b) = split_on c a ++ split_on c b.
Proof.
  induction a as [|d a IH]; simpl; [by rewrite Ascii.eqb_refl|].
  destruct (Ascii.eqb d c); [by rewrite IH|]. rewrite IH.
  pose proof (split_on_ne c a). by destruct (split_on c a).
Qed.

Lemma cut_str c s :
  match cut s (str c) with
  | None => str_all (λ d, negb (Ascii.eqb d c)) s = true
  | Some (a, b) => s = a +:+ String c b ∧ str_all (λ d, negb (Ascii.eqb d c)) a = true
  end.
Proof.
  unfold cut. induction s as [|d s IH]; simpl; [done|]. unfold has_prefix; fold has_prefix.
  destruct (Ascii.eqb d c) eqn:E; simpl.
  - by apply Ascii.eqb_eq in E as ->.
  - destruct (index_of s (str c)) as [i|]; simpl in *; [|done].
    destruct IH as [IH1 IH2]. split; [by f_equal|by rewrite E].
Qed.

Lemma split_on_app c a b :
  str_all (λ d, negb (Ascii.eqb d c)) a = true →
  split_on c (a +:+ String c b) = a :: split_on c b.
Proof.
  induction a as [|d a IH]; simpl.
  - intros _. by rewrite Ascii.eqb_refl.
  - intros [Hd Ha]%andb_prop. apply negb_true_iff in Hd. by rewrite Hd, IH.
Qed.

Lemma split_on_none c s :
  str_all (λ d, negb (Ascii.eqb d c)) s = true → split_on c s = [s].
Proof.
  induction s as [|d s IH]; simpl; [done|].
  intros [Hd Ha]%andb_prop. apply negb_true_iff in Hd. by rewrite Hd, IH.
Qed.

Lemma split_fuel_on c n s : (String.length s <= n)%nat → split_fuel n s (str c) = split_on c s.
Proof.
  revert s. induction n as [|n IH]; intros s Hn.
  { by destruct s; simpl in *; [|lia]. }
  simpl. pose proof (cut_str c s) as Hc. destruct (cut s (str c)) as [[a b]|].
  - destruct Hc as [-> Ha]. rewrite split_on_app by done. rewrite IH; [done|].
    rewrite str_length_app in Hn. simpl in Hn. lia.
  - by rewrite split_on_none.
Qed.

Lemma split_str c s : split s (str c) = split_on c s.
Proof. by apply split_fuel_on. Qed.

Lemma join_cons x y l sep : join (x :: y :: l) sep = x +:+ sep +:+ join (y :: l) sep.
Proof. done. Qed.

Lemma split_on_join c l :
  l ≠ [] → Forall (λ s, str_all (λ d, negb (Ascii.eqb d c)) s = true) l →
  split_on c (join l (str c)) = l.
Proof.
  intros Hne H. induction H as [|x l Hx Hl IH]; [done|].
  destruct l as [|y l]; [by apply split_on_none|].
  rewrite join_cons. cbn [str String.append]. rewrite split_on_app by done. by rewrite IH.
Qed.

Lemma split_on_all c s :
  Forall (λ t, str_all (λ d, negb (Ascii.eqb d c)) t = true) (split_on c s).
Proof.
  induction s as [|d s IH]; simpl; [by repeat constructor|].
  destruct (Ascii.eqb d c) eqn:E; [by constructor|].
  destruct IH as [|h t Hh Ht]; constructor; [|done]. simpl. by rewrite E, Hh.
Qed.
