(* ===== verification/GoTime.v ===== *)
(** Go's [time]: a Duration is a count of nanoseconds kept in an [int64]; a Time is the
    number of nanoseconds since the zero Time, so that [IsZero] is equality with 0, and
    [Before], [After] are the order of [Z]. *)
From S2P Require Import Prelude GoStr.

Definition Nanosecond : Z := 1.
Definition Millisecond : Z := 1000000.
Definition Second : Z := 1000000000.
Definition Minute : Z := 60 * Second.
Definition Hour : Z := 60 * Minute.

(** Duration arithmetic wraps as [int64] does. *)
Definition dur_add (a b : Z) : Z := i64 (a + b).
Definition dur_sub (a b : Z) : Z := i64 (a - b).

Definition IsZero (t : Z) : bool := t =? 0.
Definition Before (t u : Z) : bool := t <? u.
Definition After (t u : Z) : bool := u <? t.

(** [t.Sub(u)] saturates at the ends of Duration. *)
Definition time_sub (t u : Z) : Z := Z.max i64_min (Z.min i64_max (t - u)).

(** [d.Round(m)] for a positive [m]: to the nearest multiple, halves away from zero. *)
Definition round_to (d m : Z) : Z :=
  let r := Z.rem d m in
  if d <? 0 then
    let r := - r in
    if r + r <? m then d + r
    else let d1 := i64 (d - m + r) in if d1 <? d then d1 else i64_min
  else
    if r + r <? m then d - r
    else let d1 := i64 (d + m - r) in if d <? d1 then d1 else i64_max.

(** [t.UTC().Format(time.RFC3339)], from the days since 0001-01-01 of the proleptic
    Gregorian calendar. *)
Definition civil (days : Z) : Z * Z * Z :=
  let z := days + 306 in
  let era := z / 146097 in
  let doe := z mod 146097 in
  let yoe := (doe - doe / 1460 + doe / 36524 - doe / 146096) / 365 in
  let doy := doe - (365 * yoe + yoe / 4 - yoe / 100) in
  let mp := (5 * doy + 2) / 153 in
  let d := doy - (153 * mp + 2) / 5 + 1 in
  let m := if mp <? 10 then mp + 3 else mp - 9 in
  (yoe + era * 400 + (if m <=? 2 then 1 else 0), m, d).

Fixpoint pad_zeros (n : nat) (s : string) : string :=
  match n with O => s | S n => if (String.length s <=? n)%nat then "0" +:+ pad_zeros n s else s end.
Definition two (z : Z) : string := pad_zeros 2 (show_Z z).

Definition rfc3339 (t : Z) : string :=
  let s := t / Second in
  let '(y, m, d) := civil (s / 86400) in
  pad_zeros 4 (show_Z y) +:+ "-" +:+ two m +:+ "-" +:+ two d +:+ "T" +:+ two (s / 3600 mod 24)
  +:+ ":" +:+ two (s / 60 mod 60) +:+ ":" +:+ two (s mod 60) +:+ "Z".

Example rfc3339_epoch : rfc3339 (62135596800 * Second) = "1970-01-01T00:00:00Z".
Proof. reflexivity. Qed.
Example rfc3339_leap : rfc3339 ((62135596800 + 951782400) * Second) = "2000-02-29T00:00:00Z".
Proof. reflexivity. Qed.

(** ** [time.ParseDuration] *)

(** [leadingInt]: the value, what is left, and whether it stayed within 1<<63. *)
Fixpoint leading_int (s : string) (x : Z) : option (Z * string) :=
  match s with
  | String c s' =>
      if is_digit c then
        if 2 ^ 63 / 10 <? x then None
        else let x := 10 * x + (byte_of c - 48) in
             if 2 ^ 63 <? x then None else leading_int s' x
      else Some (x, s)
  | EmptyString => Some (x, s)
  end.

(** [leadingFraction]: digits beyond what 1<<63 holds are read and dropped. *)
Fixpoint leading_fraction (s : string) (x scale : Z) (overflow : bool) : Z * Z * string :=
  match s with
  | String c s' =>
      if is_digit c then
        if overflow then leading_fraction s' x scale true
        else if (2 ^ 63 - 1) / 10 <? x then leading_fraction s' x scale true
        else let y := 10 * x + (byte_of c - 48) in
             if 2 ^ 63 <? y then leading_fraction s' x scale true
             else leading_fraction s' y (scale * 10) false
      else (x, scale, s)
  | EmptyString => (x, scale, s)
  end.

Fixpoint span_str (p : ascii → bool) (s : string) : string * string :=
  match s with
  | String c s' =>
      if p c then let '(a, b) := span_str p s' in (String c a, b) else (EmptyString, s)
  | EmptyString => (EmptyString, EmptyString)
  end.

Definition starts_digit (s : string) : bool :=
  match s with String c _ => is_digit c | EmptyString => false end.

Definition unit_of (u : string) : option Z :=
  if String.eqb u "ns" then Some Nanosecond
  else if String.eqb u "us" || String.eqb u "µs" || String.eqb u "μs" then Some 1000
  else if String.eqb u "ms" then Some Millisecond
  else if String.eqb u "s" then Some Second
  else if String.eqb u "m" then Some Minute
  else if String.eqb u "h" then Some Hour
  else None.

Definition invalid_duration (orig : string) : string := "time: invalid duration " +:+ quote orig.
Definition unit_char (c : ascii) : bool := negb (Ascii.eqb c ".") && negb (is_digit c).

(** The loop over [number unit] groups, one per unit of fuel.  The fraction of a unit is
    counted exactly and then truncated; Go computes it in a [float64]. *)
Fixpoint parse_groups (fuel : nat) (orig s : string) (d : Z) : string + Z :=
  match fuel, s with
  | O, _ | _, EmptyString => inr d
  | S fuel, String c _ =>
      if negb (Ascii.eqb c "." || is_digit c) then inl (invalid_duration orig)
      else
        match leading_int s 0 with
        | None => inl (invalid_duration orig)
        | Some (v, rest) =>
            let pre := starts_digit s in
            let '(f, scale, rest', post) :=
              match rest with
              | String "." r => let '(f, scale, r') := leading_fraction r 0 1 false in
                                (f, scale, r', starts_digit r)
              | _ => (0, 1, rest, false)
              end in
            if negb pre && negb post then inl (invalid_duration orig)
            else
              let '(u, rest'') := span_str unit_char rest' in
              if String.eqb u "" then inl ("time: missing unit in duration " +:+ quote orig)
              else
                match unit_of u with
                | None => inl ("time: unknown unit " +:+ quote u +:+ " in duration " +:+ quote orig)
                | Some unit =>
                    if 2 ^ 63 / unit <? v then inl (invalid_duration orig)
                    else
                      let v := v * unit + f * unit / scale in
                      if 2 ^ 63 <? v then inl (invalid_duration orig)
                      else
                        let d := (d + v) mod 2 ^ 64 in
                        if 2 ^ 63 <? d then inl (invalid_duration orig)
                        else parse_groups fuel orig rest'' d
                end
        end
  end.

Definition ParseDuration (orig : string) : string + Z :=
  let '(neg, s) :=
    match orig with
    | String c s => if Ascii.eqb c "-" then (true, s) else if Ascii.eqb c "+" then (false, s)
                    else (false, orig)
    | EmptyString => (false, orig)
    end in
  if String.eqb s "0" then inr 0
  else if String.eqb s "" then inl (invalid_duration orig)
  else
    let* d := parse_groups (String.length s) orig s 0 in
    if neg then inr (- d)
    else if 2 ^ 63 - 1 <? d then inl (invalid_duration orig) else inr d.

Example parse_durations : map ParseDuration ["30m"; "1h30m"; "-1.5h"; "0"; ".5s"; "2"; "10d"; ""] =
  [inr (30 * Minute); inr (90 * Minute); inr (- (90 * Minute)); inr 0; inr (500 * Millisecond);
   inl ("time: missing unit in duration " +:+ quote "2");
   inl ("time: unknown unit " +:+ quote "d" +:+ " in duration " +:+ quote "10d");
   inl (invalid_duration "")].
Proof. vm_compute. reflexivity. Qed.

(** ** [Duration.String] *)

(** The decimal fraction of the last [prec] digits of [v], without trailing zeros, a dot
    before it when there is any. *)
Fixpoint fmt_frac (prec : nat) (v : Z) (acc : string) (seen : bool) : string :=
  match prec with
  | O => if seen then "." +:+ acc else acc
  | S prec =>
      let d := v mod 10 in
      if seen || negb (d =? 0)
      then fmt_frac prec (v / 10) (show_Z d +:+ acc) true
      else fmt_frac prec (v / 10) acc false
  end.

Definition with_frac (u unit : Z) (prec : nat) (name : string) : string :=
  show_Z (u / unit) +:+ fmt_frac prec u "" false +:+ name.

Definition Duration_String (d : Z) : string :=
  let u := Z.abs d in
  let text :=
    if u =? 0 then "0s"
    else if u <? 1000 then show_Z u +:+ "ns"
    else if u <? Millisecond then with_frac u 1000 3 "µs"
    else if u <? Second then with_frac u Millisecond 6 "ms"
    else
      let secs := u / Second in
      (if 3600 <=? secs then show_Z (secs / 3600) +:+ "h" else "")
      +:+ (if 60 <=? secs then show_Z (secs / 60 mod 60) +:+ "m" else "")
      +:+ show_Z (secs mod 60) +:+ fmt_frac 9 (u mod Second) "" false +:+ "s" in
  if d <? 0 then "-" +:+ text else text.

Example duration_strings : map Duration_String
    [0; 1; 1500; 2 * Millisecond; 30 * Second; 90 * Second + 500 * Millisecond; - Hour] =
  ["0s"; "1ns"; "1.5µs"; "2ms"; "30s"; "1m30.5s"; "-1h0m0s"].
Proof. vm_compute. reflexivity. Qed.

(** [t.UTC().Format(time.RFC3339Nano)]: the fraction without its trailing zeros. *)
Fixpoint drop_last_char (s : string) : string :=
  match s with
  | EmptyString => EmptyString
  | String c EmptyString => EmptyString
  | String c s => String c (drop_last_char s)
  end.

Definition rfc3339_nano (t : Z) : string :=
  drop_last_char (rfc3339 t) +:+ fmt_frac 9 (t mod Second) "" false +:+ "Z".

Example rfc3339_nano_drops_zeros :
  rfc3339_nano (62135596800 * Second + 500 * Millisecond) = "1970-01-01T00:00:00.5Z" ∧
  rfc3339_nano (62135596800 * Second) = "1970-01-01T00:00:00Z".
Proof. vm_compute. done. Qed.
