(* ===== verification/GoPath.v ===== *)
(** Go's [path/filepath] on a Unix system, lexically, as the runtime uses it: [Clean],
    [Join], [Dir], [Base], [Ext] and [IsAbs]. *)
From S2P Require Import Prelude GoStr.

Definition IsAbs (p : string) : bool := has_prefix p "/".

(** One element of a path against what is resolved so far, innermost element first. *)
Definition clean_step (rooted : bool) (st : list string) (c : string) : list string :=
  if String.eqb c "" || String.eqb c "." then st
  else if String.eqb c ".." then
    match st with
    | [] => if rooted then [] else [".."]
    | top :: st' => if String.eqb top ".." then ".." :: st else st'
    end
  else c :: st.

Definition clean_elements (rooted : bool) (p : string) : list string :=
  rev (foldl (clean_step rooted) [] (split p "/")).

Definition Clean (p : string) : string :=
  let body := join (clean_elements (IsAbs p) p) "/" in
  if IsAbs p then "/" +:+ body else if String.eqb body "" then "." else body.

(** [Join] skips the empty elements it starts with, and is [""] when there are no others. *)
Fixpoint Join (elems : list string) : string :=
  match elems with
  | [] => ""
  | e :: rest => if String.eqb e "" then Join rest else Clean (join elems "/")
  end.

(** Everything up to and including the last slash, and what follows it. *)
Fixpoint split_last (s : string) : option (string * string) :=
  match s with
  | EmptyString => None
  | String c s' =>
      match split_last s' with
      | Some (before, after) => Some (String c before, after)
      | None => if Ascii.eqb c "/" then Some (str c, s') else None
      end
  end.

Definition Dir (p : string) : string :=
  match split_last p with Some (before, _) => Clean before | None => "." end.

Fixpoint trim_slashes (s : string) : string :=
  match s with
  | EmptyString => EmptyString
  | String c s' =>
      match trim_slashes s' with
      | EmptyString => if Ascii.eqb c "/" then EmptyString else str c
      | t => String c t
      end
  end.

Definition Base (p : string) : string :=
  if String.eqb p "" then "."
  else
    let p := trim_slashes p in
    let p := match split_last p with Some (_, after) => after | None => p end in
    if String.eqb p "" then "/" else p.

(** The suffix from the last dot of the last element, which has no slash after it. *)
Fixpoint ext_of (s : string) : option string :=
  match s with
  | EmptyString => None
  | String c s' =>
      match ext_of s' with
      | Some e => Some e
      | None => if Ascii.eqb c "." then Some s else None
      end
  end.
Definition Ext (p : string) : string :=
  let last := match split_last p with Some (_, after) => after | None => p end in
  default "" (ext_of last).

Example clean_dots : map Clean ["a/../../b"; "/../a//b/./c/.."; ""; "a/.."; "../.."] =
  ["../b"; "/a/b"; "."; "."; "../.."].
Proof. reflexivity. Qed.
Example join_run : Join ["/run"; "./a/../../etc"] = "/etc" ∧ Join [""; "a"] = "a".
Proof. done. Qed.
Example dir_base : Dir "p/a.yaml" = "p" ∧ Dir "a.yaml" = "." ∧ Dir "/a" = "/" ∧
  Base "p/a.yaml" = "a.yaml" ∧ Base "/" = "/" ∧ Ext "p.d/a" = "" ∧ Ext "p/a.b.yml" = ".yml".
Proof. done. Qed.

(** ** Walking a path one directory at a time

    The meaning of a rooted path that [Clean] is measured against: the directories entered
    and not left, innermost first. *)
Definition cd (dir : list string) (c : string) : list string :=
  if String.eqb c "" || String.eqb c "." then dir
  else if String.eqb c ".." then tail dir
  else c :: dir.

Definition walk (dir : list string) (p : string) : list string := foldl cd dir (split p "/").

Definition normal (c : string) : Prop :=
  c ≠ "" ∧ c ≠ "." ∧ c ≠ ".." ∧ str_all (λ d, negb (Ascii.eqb d "/")) c = true.

Lemma clean_step_cd st c : Forall normal st → clean_step true st c = cd st c.
Proof.
  intros H. unfold clean_step, cd. destruct (_ || _); [done|]. destruct (String.eqb c ".."); [|done].
  destruct H as [|top st (_ & _ & H & _) _]; [done|]. simpl.
  by rewrite (proj2 (String.eqb_neq _ _) H).
Qed.

Lemma cd_normal st c :
  str_all (λ d, negb (Ascii.eqb d "/")) c = true → Forall normal st → Forall normal (cd st c).
Proof.
  intros Hc H. unfold cd. destruct (_ || _) eqn:E; [done|]. destruct (String.eqb c "..") eqn:E2.
  - by destruct H.
  - bool_facts. by constructor.
Qed.

Lemma walk_normal l st :
  Forall (λ s, str_all (λ d, negb (Ascii.eqb d "/")) s = true) l → Forall normal st →
  foldl (clean_step true) st l = foldl cd st l ∧ Forall normal (foldl cd st l).
Proof.
  revert st. induction l as [|c l IH]; intros st Hl Hst; simpl; [done|].
  inversion_clear Hl. rewrite clean_step_cd by done. by apply IH, cd_normal.
Qed.

Lemma split_slash s : split s "/" = split_on "/" s.
Proof. apply (split_str "/"). Qed.

Lemma clean_elements_rooted p : clean_elements true p = rev (walk [] p).
Proof.
  unfold clean_elements, walk. f_equal. rewrite split_slash.
  by apply walk_normal; [apply split_on_all|].
Qed.

Lemma walk_rooted_normal p : Forall normal (walk [] p).
Proof. unfold walk. rewrite split_slash. by apply walk_normal; [apply split_on_all|]. Qed.

Lemma foldl_cd_normal l st : Forall normal l → foldl cd st l = rev l ++ st.
Proof.
  intros H. revert st. induction H as [|c l Hc Hl IH]; intros st; simpl; [done|].
  destruct Hc as (H1 & H2 & H3 & _). unfold cd at 2.
  rewrite (proj2 (String.eqb_neq _ _) H1), (proj2 (String.eqb_neq _ _) H2),
    (proj2 (String.eqb_neq _ _) H3). simpl. rewrite IH. by rewrite <- app_assoc.
Qed.

Lemma rooted_join_walk l : Forall normal l → walk [] ("/" +:+ join l "/") = rev l.
Proof.
  intros H. unfold walk. rewrite split_slash. simpl.
  destruct l as [|c l]; [done|].
  change "/" with (str "/"). rewrite split_on_join; [|done|].
  - rewrite (foldl_cd_normal (c :: l)) by done. by rewrite app_nil_r.
  - eapply Forall_impl; [done|]. by intros ? (? & ? & ? & ?).
Qed.

(** A rooted path cleans to its walk written down, and cleaning it again changes nothing. *)
Lemma Clean_rooted p : IsAbs p = true → Clean p = "/" +:+ join (rev (walk [] p)) "/".
Proof. intros H. unfold Clean. by rewrite H, clean_elements_rooted. Qed.

Lemma Clean_idempotent_rooted p : IsAbs p = true → Clean (Clean p) = Clean p.
Proof.
  intros H. rewrite (Clean_rooted p H), Clean_rooted by done.
  rewrite rooted_join_walk; [by rewrite rev_involutive|].
  apply Forall_rev, walk_rooted_normal.
Qed.

Lemma walk_under dir p q : walk dir (p +:+ "/" +:+ q) = walk (walk dir p) q.
Proof.
  unfold walk. rewrite !split_slash. simpl. by rewrite split_on_app_sep, foldl_app.
Qed.
