(* ===== verification/GoErr.v ===== *)
(** Go's error values as the runtime makes, wraps and inspects them, and who holds a claim,
    which one of those errors carries: [errors] and [fmt.Errorf], and the errors of
    [src/runtime/internal/guard/coordinator.go]. *)
From S2P Require Import Prelude GoStr GoTime.

(** [Holder] of coordinator.go: who holds a claim, what a refusal names. *)
Record Holder := mkHolder { h_Host : string; h_Instance : string; h_RunID : string }.

Definition Holder_String (h : Holder) : string :=
  "run " +:+ h_RunID h +:+ " on " +:+ h_Host h +:+ ", process " +:+ h_Instance h.

(** A sentinel is a package variable made by [errors.New], one value told apart by identity,
    which its text stands for here; [Text] is any other value that unwraps to nothing;
    [Wrap] is [fmt.Errorf] with one or more [%w]: the whole text and the errors it wraps;
    [HeldError] and [waitEnded] are the guard's own error types. *)
Inductive gerror :=
| Sentinel (text : string)
| Text (text : string)
| Wrap (text : string) (causes : list gerror)
| HeldError (holder : Holder)
| WaitEnded (mechanism detail : string)
| RefusedError (mechanism detail : string).

Definition ErrHeld : gerror := Sentinel "claim held".
Definition ErrRateLimited : gerror := Sentinel "rate limit reached".
Definition ErrUnavailable : gerror := Sentinel "backend unavailable".
Definition ErrLost : gerror := Sentinel "claim lost".
Definition ErrTickRan : gerror := Sentinel "tick already ran".

Definition Error (e : gerror) : string :=
  match e with
  | Sentinel text | Text text | Wrap text _ => text
  | HeldError holder => "held by " +:+ Holder_String holder
  | WaitEnded mechanism detail | RefusedError mechanism detail => mechanism +:+ ": " +:+ detail
  end.

(** [errors.Is(err, Sentinel text)]: the tree of wrapped errors searched; a [HeldError]
    unwraps to [ErrHeld]. *)
Fixpoint is_sentinel (text : string) (e : gerror) : bool :=
  match e with
  | Sentinel t => String.eqb t text
  | Wrap _ causes => existsb (is_sentinel text) causes
  | HeldError _ => String.eqb "claim held" text
  | Text _ | WaitEnded _ _ | RefusedError _ _ => false
  end.

Definition errors_is (e target : gerror) : bool :=
  match target with Sentinel text => is_sentinel text e | _ => false end.

(** [errors.As] for the two types the guard asks for. *)
Fixpoint as_held (e : gerror) : option Holder :=
  match e with
  | HeldError holder => Some holder
  | Wrap _ causes =>
      (fix go (l : list gerror) :=
         match l with
         | [] => None
         | c :: l => match as_held c with Some h => Some h | None => go l end
         end) causes
  | _ => None
  end.

Fixpoint as_wait_ended (e : gerror) : option (string * string) :=
  match e with
  | WaitEnded mechanism detail => Some (mechanism, detail)
  | Wrap _ causes =>
      (fix go (l : list gerror) :=
         match l with
         | [] => None
         | c :: l => match as_wait_ended c with Some r => Some r | None => go l end
         end) causes
  | _ => None
  end.

(** [fmt.Errorf(prefix + ": %w", err)] and [fmt.Errorf("%w" + suffix, err)]. *)
Definition wrap_before (prefix : string) (e : gerror) : gerror :=
  Wrap (prefix +:+ ": " +:+ Error e) [e].
Definition wrap_after (e : gerror) (suffix : string) : gerror := Wrap (Error e +:+ suffix) [e].

(** [errors.Join], [None] when there is nothing to join. *)
Definition errors_join (es : list gerror) : option gerror :=
  match es with [] => None | _ => Some (Wrap (join (map Error es) nl) es) end.

(** ** The errors of coordinator.go *)

Definition HumanDuration (d : Z) : string :=
  let d := round_to d Second in
  if d <=? 0 then "0s"
  else
    String.concat "" (map (λ '(count, unit),
      if 0 <? count then show_Z count +:+ unit else "")
      [(d / Hour, "h"); (d mod Hour / Minute, "m"); (d mod Minute / Second, "s")]).

Record RateLimit := mkRateLimit { l_Runs : Z; l_Per : Z }.

Definition HeldBy (holder : Holder) : gerror := HeldError holder.

Definition TickRanAs (tick : Z) (holder : Holder) : gerror :=
  wrap_after ErrTickRan (": tick " +:+ rfc3339 tick +:+ " ran as " +:+ Holder_String holder).

Definition RateLimitedBy (limit : RateLimit) : gerror :=
  wrap_after ErrRateLimited
    (": " +:+ show_Z (l_Runs limit) +:+ " runs per " +:+ HumanDuration (l_Per limit)).

Example human_durations : map HumanDuration
    [30 * Minute; 12 * Minute + 14 * Second; 2 * Hour + 5 * Second; 499 * Millisecond;
     500 * Millisecond; - Hour] =
  ["30m"; "12m14s"; "2h5s"; "0s"; "1s"; "0s"].
Proof. vm_compute. reflexivity. Qed.

Example wrapped_sentinels :
  errors_is (RateLimitedBy (mkRateLimit 2 Hour)) ErrRateLimited = true ∧
  errors_is (wrap_before "asking" (HeldBy (mkHolder "h" "i" "r"))) ErrHeld = true ∧
  errors_is (HeldBy (mkHolder "h" "i" "r")) ErrLost = false ∧
  Error (RateLimitedBy (mkRateLimit 2 Hour)) = "rate limit reached: 2 runs per 1h".
Proof. vm_compute. done. Qed.
