(* ===== verification/Config.v ===== *)
(** The deployment's configuration and the two places that resolve references against it:
    [config.go], [interpolate.go] and [shell.go] of [src/runtime/internal/config]. *)
From S2P Require Import Prelude GoStr.

(** ** [config.go] *)

Record Value := mkValue { value_text : string; Secret : bool }.

Record Config := mkConfig { stateDir : string; values : gmap string Value }.

Definition Keys (c : Config) : list string := sort_strings (map fst (map_to_list (values c))).

Definition Get (c : Config) (key : string) : option Value := values c !! key.

Fixpoint secrets_of (c : Config) (keys : list string) : list string :=
  match keys with
  | [] => []
  | key :: keys =>
      match values c !! key with
      | Some value =>
          if Secret value && negb (String.eqb (value_text value) "")
          then value_text value :: secrets_of c keys
          else secrets_of c keys
      | None => secrets_of c keys
      end
  end.

Definition Secrets (c : Config) : list string := secrets_of c (Keys c).

(** ** [interpolate.go] *)

(** What [reference.FindAllStringSubmatchIndex] reports of one match (a dollar sign and an
    opening brace, any bytes but a closing brace, a closing brace): where it starts, where it
    ends, and its submatch. *)
Record span := mkSpan { sp_at : nat; sp_end : nat; sp_name : string }.

(** The leftmost, non-overlapping matches: a match opens at the first [${] and runs to the
    next closing brace.  [opened] is where the match being read opened, and what it has of
    its name. *)
Fixpoint references_go (s : string) (off : nat) (opened : option (nat * string)) : list span :=
  match s with
  | EmptyString => []
  | String c s' =>
      match opened with
      | Some (start, name) =>
          if Ascii.eqb c "}" then mkSpan start (S off) name :: references_go s' (S off) None
          else references_go s' (S off) (Some (start, name +:+ str c))
      | None =>
          match s' with
          | String d s'' =>
              if Ascii.eqb c "$" && Ascii.eqb d "{"
              then references_go s'' (S (S off)) (Some (off, ""))
              else references_go s' (S off) None
          | EmptyString => []
          end
      end
  end.

Definition references (text : string) : list span := references_go text 0 None.

(** [validKey.MatchString]: [^[A-Za-z0-9_-]+$]. *)
Definition key_char (c : ascii) : bool := is_alnum c || Ascii.eqb c "_" || Ascii.eqb c "-".
Definition valid_key_match (key : string) : bool :=
  match key with EmptyString => false | _ => str_all key_char key end.

Definition ValidKey (key : string) : option string :=
  if String.eqb key "" then Some "a configuration key cannot be empty"
  else if negb (valid_key_match key) then
    Some (quote key +:+ " is not a valid configuration key; accepted: letters, digits, "
          +:+ "underscore and dash, e.g. discord_webhook")
  else None.

(** [Set] of config.go, with what [save] answers about writing the file: the value is in the
    map of the process even when saving it failed. *)
Definition Set_ (c : Config) (key : string) (value : Value)
    (save : gmap string Value → option string) : Config * option string :=
  match ValidKey key with
  | Some problem => (c, Some problem)
  | None =>
      let c := mkConfig (stateDir c) (<[key := value]> (values c)) in
      (c, save (values c))
  end.

Definition around (text : string) (at_ : nat) : string :=
  let window := 24%nat in
  let end_ := Nat.min (at_ + window) (String.length text) in
  let snippet := slice text at_ end_ in
  if (end_ <? String.length text)%nat then snippet +:+ "…" else snippet.

(** One round of the loop of [unterminated] per unit of fuel; every round moves [offset] at
    least two bytes on, so the length of the text is fuel enough. *)
Fixpoint unterminated_go (fuel : nat) (text : string) (matched : list span) (offset : nat)
    (problems : list string) : list string :=
  match fuel with
  | O => problems
  | S fuel =>
      match index_of (str_drop offset text) "${" with
      | None => problems
      | Some i =>
          let start := (i + offset)%nat in
          match find (λ sp, (sp_at sp =? start)%nat) matched with
          | Some sp => unterminated_go fuel text matched (sp_end sp) problems
          | None =>
              unterminated_go fuel text matched (start + 2)
                (problems ++ ["a reference opens and never closes, at "
                              +:+ quote (around text start)
                              +:+ "; accepted: ${config.x} or " +:+ "${trigger.x}"])
          end
      end
  end.

Definition unterminated (text : string) : list string :=
  unterminated_go (S (String.length text)) text (references text) 0 [].

Definition not_configured (key : string) : string :=
  "${config." +:+ key +:+ "} is not configured; set it with `printf '%s' " +:+ dq +:+ "$VALUE"
  +:+ dq +:+ " | gronin config set " +:+ key +:+ "`".
Definition no_source (name : string) : string :=
  "${" +:+ name +:+ "} does not name its source; accepted: ${config." +:+ name
  +:+ "} or ${trigger." +:+ name +:+ "}".
Definition unknown_source (name namespace : string) : string :=
  "${" +:+ name +:+ "} names " +:+ quote namespace
  +:+ ", which is not a source; accepted: config, trigger".
Definition not_in_payload (key : string) : string :=
  "${trigger." +:+ key +:+ "} is not in the trigger payload".

(** The callback of [ReplaceAllStringFunc] on one match: what replaces it, or the problem it
    appends, the match being kept. *)
Definition interpolate_one (c : Config) (trigger : gmap string string) (name : string)
  : string + string :=
  if contains_str name "${" then
    inl ("${" +:+ name +:+ "} nests a reference inside another; accepted: one ${config.x} or "
         +:+ "${trigger.x} at a time")
  else
    match cut name "." with
    | None => inl (no_source name)
    | Some (namespace, key) =>
        if String.eqb namespace "config" then
          match values c !! key with
          | Some value => inr (value_text value)
          | None => inl (not_configured key)
          end
        else if String.eqb namespace "trigger" then
          match trigger !! key with
          | Some value => inr value
          | None => inl (not_in_payload key)
          end
        else inl (unknown_source name namespace)
    end.

(** [ReplaceAllStringFunc] over the matches: the text between them copied, each match
    replaced, the problems accumulated in order. *)
Fixpoint interpolate_spans (c : Config) (trigger : gmap string string) (text : string)
    (spans : list span) (last : nat) (out : string) (problems : list string)
  : string * list string :=
  match spans with
  | [] => (out +:+ slice text last (String.length text), problems)
  | sp :: spans =>
      let out := out +:+ slice text last (sp_at sp) in
      match interpolate_one c trigger (sp_name sp) with
      | inr value =>
          interpolate_spans c trigger text spans (sp_end sp) (out +:+ value) problems
      | inl problem =>
          interpolate_spans c trigger text spans (sp_end sp)
            (out +:+ slice text (sp_at sp) (sp_end sp)) (problems ++ [problem])
      end
  end.

Definition Interpolate (c : Config) (text : string) (trigger : gmap string string)
  : list string + string :=
  let '(resolved, problems) :=
    interpolate_spans c trigger text (references text) 0 "" (unterminated text) in
  match problems with
  | [] => inr resolved
  | _ => inl problems
  end.

(** ** [shell.go] *)

Definition EnvPrefix : string := "GRONIN_".

Record Bound := mkBound { Line : string; Env : list string }.

Definition resolve (c : Config) (namespace key name : string) (trigger : gmap string string)
  : string + string :=
  if String.eqb namespace "config" then
    match values c !! key with
    | Some value => inr (value_text value)
    | None => inl (not_configured key)
    end
  else if String.eqb namespace "trigger" then
    match trigger !! key with
    | Some value => inr value
    | None => inl (not_in_payload key)
    end
  else inl (unknown_source name namespace).

Definition dash_to_underscore (c : ascii) : ascii := if Ascii.eqb c "-" then "_"%char else c.
Definition envSafe (key : string) : string := to_upper (str_map dash_to_underscore key).

(** [quoted(line, at)]: the loop over [i] and its two flags; a backslash outside single
    quotes skips the byte after it. *)
Fixpoint quoted_go (line : string) (at_ : nat) (single double : bool) : bool :=
  match at_, line with
  | O, _ | _, EmptyString => single || double
  | S at', String c line' =>
      if Ascii.eqb c BS then
        if single then quoted_go line' at' single double
        else match at', line' with
             | S at'', String _ line'' => quoted_go line'' at'' single double
             | _, _ => single || double
             end
      else if Ascii.eqb c SQ then
        quoted_go line' at' (if double then single else negb single) double
      else if Ascii.eqb c DQ then
        quoted_go line' at' single (if single then double else negb double)
      else quoted_go line' at' single double
  end.
Definition quoted (line : string) (at_ : nat) : bool := quoted_go line at_ false false.

(** What the loop of [BindShell] carries from one reference to the next. *)
Record binding := mkBinding {
  b_problems : list string;
  b_names : gmap string string;
  b_values : gmap string string;
  b_out : string
}.

Definition variable_of (namespace key : string) : string :=
  EnvPrefix +:+ to_upper namespace +:+ "_" +:+ envSafe key.

Definition expansion (variable : string) : string := dq +:+ "$" +:+ variable +:+ dq.
#[global] Arguments variable_of : simpl never.
#[global] Arguments expansion : simpl never.

(** One iteration over [FindAllStringSubmatchIndex]; [last] is where the previous one ended. *)
Definition bind_one (c : Config) (line : string) (trigger : gmap string string)
    (last : nat) (sp : span) (st : binding) : binding :=
  let name := sp_name sp in
  let out := b_out st +:+ slice line last (sp_at sp) in
  let refused problem :=
    mkBinding (b_problems st ++ [problem]) (b_names st) (b_values st)
      (out +:+ slice line (sp_at sp) (sp_end sp)) in
  if quoted line (sp_at sp) then
    refused ("${" +:+ name +:+ "} sits inside quotes; accepted: the reference on its own, as in "
             +:+ "`git -C ${config.checkout} log` — it is substituted as one quoted "
             +:+ "word and cannot be nested in another")
  else
    match cut name "." with
    | None => refused (no_source name)
    | Some (namespace, key) =>
        match resolve c namespace key name trigger with
        | inl problem => refused problem
        | inr value =>
            let variable := variable_of namespace key in
            let taken :=
              match b_names st !! variable with
              | Some first => negb (String.eqb first name)
              | None => false
              end in
            if taken then
              refused ("${" +:+ default "" (b_names st !! variable) +:+ "} and ${" +:+ name
                       +:+ "} both bind to " +:+ variable
                       +:+ "; accepted: keys that differ by more "
                       +:+ "than a dash or an underscore")
            else
              mkBinding (b_problems st) (<[variable := name]> (b_names st))
                (<[variable := value]> (b_values st)) (out +:+ expansion variable)
        end
    end.

Fixpoint bind_all (c : Config) (line : string) (trigger : gmap string string)
    (last : nat) (spans : list span) (st : binding) : binding * nat :=
  match spans with
  | [] => (st, last)
  | sp :: spans => bind_all c line trigger (sp_end sp) spans (bind_one c line trigger last sp st)
  end.

Definition env_entry (kv : string * string) : string := fst kv +:+ "=" +:+ snd kv.

Definition BindShell (c : Config) (line : string) (trigger : gmap string string)
  : list string + Bound :=
  let '(st, last) :=
    bind_all c line trigger 0 (references line) (mkBinding (unterminated line) ∅ ∅ "") in
  let bound := b_out st +:+ slice line last (String.length line) in
  match b_problems st with
  | [] => inr (mkBound bound (sort_strings (map env_entry (map_to_list (b_values st)))))
  | problems => inl problems
  end.

Definition QuotedReferences (line : string) : list string :=
  map sp_name (List.filter (λ sp, quoted line (sp_at sp)) (references line)).

Definition trigger_reference (sp : span) : option string :=
  match cut (sp_name sp) "." with
  | Some (namespace, key) => if String.eqb namespace "trigger" then Some key else None
  | None => None
  end.
Definition TriggerReferences (line : string) : list string :=
  omap trigger_reference (references line).

(** ** The references of a text tile it *)

(** [tiled line last spans]: the spans lie in order after [last], and each one's text is its
    name between the braces. *)
Inductive tiled (line : string) : nat → list span → Prop :=
| tiled_nil last : (last <= String.length line)%nat → tiled line last []
| tiled_cons last sp spans :
    (last <= sp_at sp)%nat → (sp_at sp <= sp_end sp)%nat →
    slice line (sp_at sp) (sp_end sp) = "${" +:+ sp_name sp +:+ "}" →
    tiled line (sp_end sp) spans →
    tiled line last (sp :: spans).

Lemma tiled_weaken line a b spans : (a <= b)%nat → tiled line b spans → tiled line a spans.
Proof. intros Hab H. destruct H; constructor; auto; lia. Qed.

Definition opened_ok (line : string) (off last : nat) (opened : option (nat * string)) : Prop :=
  match opened with
  | None => (last <= off)%nat
  | Some (start, name) =>
      (last <= start)%nat ∧ (start <= off)%nat ∧ slice line start off = "${" +:+ name
  end.

Lemma opened_ok_last line off last opened :
  opened_ok line off last opened → (last <= off)%nat.
Proof. destruct opened as [[start name]|]; simpl; lia. Qed.

Lemma references_go_tiled line n s off last opened :
  (String.length s <= n)%nat → str_drop off line = s → (off <= String.length line)%nat →
  opened_ok line off last opened → tiled line last (references_go s off opened).
Proof.
  revert s off last opened.
  induction n as [|n IH]; intros s off last opened Hn Hs Hoff Hop.
  { destruct s; simpl in *; [|lia]. constructor. apply opened_ok_last in Hop. lia. }
  destruct s as [|c s]; simpl in *.
  { constructor. apply opened_ok_last in Hop. lia. }
  destruct (str_drop_cons _ _ _ _ Hs) as (Hlt & Hs' & Hc).
  destruct opened as [[start name]|]; simpl in Hop.
  - destruct Hop as (Hlast & Hstart & Hsl).
    assert (slice line start (S off) = "${" +:+ name +:+ str c) as Hsl'.
    { rewrite (slice_split line start off (S off)), Hsl, Hc by lia. done. }
    destruct (Ascii.eqb c "}") eqn:Ec.
    + apply Ascii.eqb_eq in Ec as ->.
      constructor; simpl; [lia|lia|done|]. apply IH; simpl; [lia|done|lia|lia].
    + apply IH; simpl; [lia|done|lia|]. split_and!; [lia|lia|done].
  - destruct s as [|d s]; [constructor; lia|].
    destruct (str_drop_cons _ _ _ _ Hs') as (Hlt' & Hs'' & Hd).
    destruct (Ascii.eqb c "$" && Ascii.eqb d "{") eqn:E.
    + apply andb_prop in E as [->%Ascii.eqb_eq ->%Ascii.eqb_eq].
      apply IH; simpl in *; [lia|done|lia|]. split_and!; [lia|lia|].
      rewrite (slice_split line off (S off) (S (S off))), Hc, Hd by lia. done.
    + apply IH; simpl in *; [lia|done|lia|lia].
Qed.

Lemma references_tiled text : tiled text 0 (references text).
Proof. apply (references_go_tiled text (String.length text)); simpl; auto; lia. Qed.

(** ** The scanner's state

    The two flags of [quoted], and whether the byte before was a backslash that counts: the state
    the code's own scanner is in, which the shell's need not be. *)

Record scan_state := mkScan { in_single : bool; in_double : bool; escaped : bool }.
Definition outside : scan_state := mkScan false false false.

Definition scan_step (st : scan_state) (c : ascii) : scan_state :=
  let '(mkScan s d e) := st in
  if e then mkScan s d false
  else if Ascii.eqb c BS then mkScan s d (negb s)
  else if Ascii.eqb c SQ then mkScan (if d then s else negb s) d false
  else if Ascii.eqb c DQ then mkScan s (if s then d else negb d) false
  else st.

Fixpoint scan_from (st : scan_state) (s : string) : scan_state :=
  match s with EmptyString => st | String c s => scan_from (scan_step st c) s end.
Definition scan_at (s : string) : scan_state := scan_from outside s.

Lemma scan_from_app st s t : scan_from st (s +:+ t) = scan_from (scan_from st s) t.
Proof. revert st. induction s as [|c s IH]; simpl; auto. Qed.

Lemma scan_at_app s t : scan_at (s +:+ t) = scan_from (scan_at s) t.
Proof. apply scan_from_app. Qed.

(** [quoted] reports the two flags. *)
Lemma quoted_go_scan n line at_ s d :
  (String.length line <= n)%nat →
  quoted_go line at_ s d =
    in_single (scan_from (mkScan s d false) (str_take at_ line))
    || in_double (scan_from (mkScan s d false) (str_take at_ line)).
Proof.
  revert line at_ s d. induction n as [|n IH]; intros line at_ s d Hn.
  { destruct line; simpl in *; [|lia]. by destruct at_. }
  destruct line as [|c line], at_ as [|at_]; simpl in *; try done.
  destruct (Ascii.eqb c BS) eqn:EB; simpl.
  - destruct s; simpl; [apply IH; lia|].
    destruct at_ as [|at_], line as [|c' line]; simpl; try done.
    rewrite IH; [done|simpl in Hn; lia].
  - destruct (Ascii.eqb c SQ) eqn:ES; [apply IH; lia|].
    destruct (Ascii.eqb c DQ) eqn:ED; apply IH; lia.
Qed.

Lemma quoted_scan line at_ :
  quoted line at_ = in_single (scan_at (str_take at_ line))
                    || in_double (scan_at (str_take at_ line)).
Proof. by apply (quoted_go_scan (String.length line)). Qed.

(** Bytes that mean nothing to the quoting state. *)
Definition neutral (c : ascii) : bool :=
  negb (Ascii.eqb c BS) && negb (Ascii.eqb c SQ) && negb (Ascii.eqb c DQ).

Lemma scan_step_neutral st c : escaped st = false → neutral c = true → scan_step st c = st.
Proof.
  destruct st as [s d e]; simpl. intros -> H. unfold neutral in H. bool_facts.
  by rewrite H, H1, H0.
Qed.

Lemma scan_from_neutral st s :
  escaped st = false → str_all neutral s = true → scan_from st s = st.
Proof.
  revert st. induction s as [|c s IH]; simpl; intros st He; [done|].
  intros [Hc Hs]%andb_prop. rewrite scan_step_neutral by done. auto.
Qed.

Lemma key_char_neutral c : key_char c = true → neutral c = true.
Proof.
  intros H.
  pose proof (ascii_forall_spec (λ c, implb (key_char c) (neutral c)) c eq_refl) as Hc.
  simpl in Hc. by rewrite H in Hc.
Qed.

Lemma env_char_neutral c :
  key_char c = true → neutral (upper_char (dash_to_underscore c)) = true.
Proof.
  intros H.
  pose proof (ascii_forall_spec
    (λ c, implb (key_char c) (neutral (upper_char (dash_to_underscore c)))) c eq_refl) as Hc.
  simpl in Hc. by rewrite H in Hc.
Qed.

Lemma envSafe_neutral key : str_all key_char key = true → str_all neutral (envSafe key) = true.
Proof.
  unfold envSafe, to_upper. rewrite !str_all_map. apply str_all_impl, env_char_neutral.
Qed.

(** ** One bound reference *)

(** A reference the binder substitutes: its two halves and the value it resolves to. *)
Definition resolves (c : Config) (trigger : gmap string string) (name ns key value : string)
  : Prop := cut name "." = Some (ns, key) ∧ resolve c ns key name trigger = inr value.

Lemma resolves_source c trigger name ns key value :
  resolves c trigger name ns key value → ns = "config" ∨ ns = "trigger".
Proof.
  intros [_ H]. unfold resolve in H.
  destruct (String.eqb ns "config") eqn:E1; bool_facts; [by left|].
  destruct (String.eqb ns "trigger") eqn:E2; bool_facts; [by right|done].
Qed.

Lemma bind_one_ok c line trigger last sp st :
  b_problems (bind_one c line trigger last sp st) = [] →
  b_problems st = [] ∧ quoted line (sp_at sp) = false ∧
  ∃ ns key value, resolves c trigger (sp_name sp) ns key value ∧
    (∀ first, b_names st !! variable_of ns key = Some first → first = sp_name sp) ∧
    bind_one c line trigger last sp st =
      mkBinding [] (<[variable_of ns key := sp_name sp]> (b_names st))
        (<[variable_of ns key := value]> (b_values st))
        (b_out st +:+ slice line last (sp_at sp) +:+ expansion (variable_of ns key)).
Proof.
  unfold bind_one, resolves. intros H.
  destruct (quoted line (sp_at sp)); [by apply app_nil in H as [_ ?]|].
  destruct (cut (sp_name sp) ".") as [[ns key]|]; [|by apply app_nil in H as [_ ?]].
  destruct (resolve c ns key (sp_name sp) trigger) as [|value] eqn:Er;
    [by apply app_nil in H as [_ ?]|].
  destruct (b_names st !! variable_of ns key) as [first|] eqn:En.
  - destruct (String.eqb first (sp_name sp)) eqn:Ef; simpl in *;
      [|by apply app_nil in H as [_ ?]].
    apply String.eqb_eq in Ef. subst first. split_and!; [done..|].
    exists ns, key, value. split_and!; [done|done|naive_solver|].
    by rewrite H, <- !str_app_assoc.
  - simpl in *. split_and!; [done..|].
    exists ns, key, value. split_and!; [done|done|naive_solver|].
    by rewrite H, <- !str_app_assoc.
Qed.

Lemma bind_one_problems c line trigger last sp st :
  ∃ l, b_problems (bind_one c line trigger last sp st) = b_problems st ++ l.
Proof.
  unfold bind_one. repeat (split_match; simpl; eauto).
  all: by exists []; rewrite app_nil_r.
Qed.

Lemma bind_all_problems c line trigger spans last st :
  ∃ l, b_problems (fst (bind_all c line trigger last spans st)) = b_problems st ++ l.
Proof.
  revert last st. induction spans as [|sp spans IH]; intros last st; simpl.
  { exists []. by rewrite app_nil_r. }
  destruct (IH (sp_end sp) (bind_one c line trigger last sp st)) as [l ->].
  destruct (bind_one_problems c line trigger last sp st) as [l' ->].
  exists (l' ++ l). by rewrite app_assoc.
Qed.

(** ** The bound line *)

(** What the binder knows of a variable it has bound: the reference it stands for and the
    value that reference resolves to. *)
Definition consistent (c : Config) (trigger : gmap string string) (st : binding) : Prop :=
  ∀ variable first, b_names st !! variable = Some first →
    ∃ ns key value, resolves c trigger first ns key value ∧
      b_values st !! variable = Some value.

(** The keys a reference may have: those [ValidKey] accepts. *)
Definition keyed (sp : span) : Prop := ∀ ns key, cut (sp_name sp) "." = Some (ns, key) → str_all key_char key = true.

Lemma resolves_inj c trigger name ns key v ns' key' v' :
  resolves c trigger name ns key v → resolves c trigger name ns' key' v' →
  ns = ns' ∧ key = key' ∧ v = v'.
Proof. intros [H1 H2] [H3 H4]. split_and!; congruence. Qed.

Lemma bind_one_consistent c line trigger last sp st :
  consistent c trigger st → b_problems (bind_one c line trigger last sp st) = [] →
  consistent c trigger (bind_one c line trigger last sp st) ∧
  ∀ k first v, b_names st !! k = Some first → b_values st !! k = Some v →
    b_values (bind_one c line trigger last sp st) !! k = Some v.
Proof.
  intros Hc (_ & _ & ns & key & value & Hr & Hf & ->)%bind_one_ok. simpl. split.
  - intros var first Hl. destruct (decide (variable_of ns key = var)) as [<-|Hne].
    + simplify_map_eq. naive_solver.
    + simplify_map_eq. naive_solver.
  - intros var first v Hn Hv. destruct (decide (variable_of ns key = var)) as [<-|Hne];
      simplify_map_eq; [|done].
    pose proof (Hf _ Hn). subst first. destruct (Hc _ _ Hn) as (? & ? & v' & Hr' & Hv').
    simplify_eq. f_equal. by destruct (resolves_inj _ _ _ _ _ _ _ _ _ Hr Hr') as (_ & _ & ?).
Qed.

Lemma expansion_scan st ns key :
  st = outside → ns = "config" ∨ ns = "trigger" → str_all key_char key = true →
  scan_from st (expansion (variable_of ns key)) = outside.
Proof.
  intros -> Hns Hkey. unfold expansion, variable_of.
  rewrite !scan_from_app, (scan_from_neutral _ (envSafe key)).
  - by destruct Hns as [-> | ->].
  - by destruct Hns as [-> | ->].
  - by apply envSafe_neutral.
Qed.

Lemma reference_scan st name ns key :
  st = outside → cut name "." = Some (ns, key) → ns = "config" ∨ ns = "trigger" →
  str_all key_char key = true → scan_from st ("${" +:+ name +:+ "}") = outside.
Proof.
  intros -> Hcut%cut_Some Hns Hkey. subst name.
  apply scan_from_neutral; [done|].
  rewrite !str_all_app. rewrite (str_all_impl key_char neutral key key_char_neutral Hkey).
  by destruct Hns as [-> | ->].
Qed.

(** ** A POSIX shell's tokens

    What a shell makes of a line before it parses it: words with their quotes removed and their
    double-quoted parameters expanded, blanks, and the characters of operators.  The lexer gives up
    ([None]) on what it would take more than a lexer to read — an expansion outside double quotes or
    other than a name's, a command substitution, a here-document, a comment — and on what would be
    expanded further once it is a word (patterns, tildes). *)

Module Posix.

Inductive token := Word (text : string) | Blank | Operator (c : ascii).
Inductive mode := Plain | Redirecting | Escaping | InSingle | InDouble | EscapingDouble | Expanding (name : string).
Record lexer := mkLexer { x_tokens : list token; x_word : option string; x_mode : mode }.
Definition lexer_start : lexer := mkLexer [] None Plain.

Definition add (text : string) (m : mode) (x : lexer) : lexer :=
  mkLexer (x_tokens x) (Some (default "" (x_word x) +:+ text)) m.
Definition flush (x : lexer) : list token :=
  x_tokens x ++ match x_word x with Some text => [Word text] | None => [] end.
Definition into (m : mode) (x : lexer) : lexer := mkLexer (x_tokens x) (x_word x) m.

Definition tab_char : ascii := "009".
Definition newline_char : ascii := "010".
Definition among (c : ascii) (s : string) : bool := negb (str_all (λ d, negb (Ascii.eqb d c)) s).

Definition plain_step (x : lexer) (c : ascii) : option lexer :=
  if Ascii.eqb c BS then Some (into Escaping x)
  else if Ascii.eqb c SQ then Some (add "" InSingle x)
  else if Ascii.eqb c DQ then Some (add "" InDouble x)
  else if Ascii.eqb c " " || Ascii.eqb c tab_char then Some (mkLexer (flush x ++ [Blank]) None Plain)
  else if among c ";&|<>()" || Ascii.eqb c newline_char then
    Some (mkLexer (flush x ++ [Operator c]) None (if Ascii.eqb c "<" then Redirecting else Plain))
  else if among c "$`*?[~" then None
  else if Ascii.eqb c "#" && bool_decide (x_word x = None) then None
  else Some (add (str c) Plain x).

Definition double_step (x : lexer) (c : ascii) : option lexer :=
  if Ascii.eqb c BS then Some (into EscapingDouble x)
  else if Ascii.eqb c DQ then Some (into Plain x)
  else if Ascii.eqb c "`" then None
  else if Ascii.eqb c "$" then Some (into (Expanding "") x)
  else Some (add (str c) InDouble x).

Definition name_char (c : ascii) : bool := is_alnum c || Ascii.eqb c "_".
Definition in_name (name : string) (c : ascii) : bool := name_char c && (negb (String.eqb name "") || negb (is_digit c)).

Definition lex_step (env : string → string) (x : lexer) (c : ascii) : option lexer :=
  match x_mode x with
  | Plain => plain_step x c
  | Redirecting => if Ascii.eqb c "<" then None else plain_step x c
  | Escaping => Some (if Ascii.eqb c newline_char then into Plain x else add (str c) Plain x)
  | InSingle => Some (if Ascii.eqb c SQ then into Plain x else add (str c) InSingle x)
  | InDouble => double_step x c
  | EscapingDouble =>
      Some (if Ascii.eqb c newline_char then into InDouble x
            else add ((if Ascii.eqb c BS || Ascii.eqb c DQ || among c "$`" then "" else str BS) +:+ str c) InDouble x)
  | Expanding name =>
      if in_name name c then Some (into (Expanding (name +:+ str c)) x)
      else if String.eqb name "" then None else double_step (add (env name) InDouble x) c
  end.

Fixpoint lex (env : string → string) (x : lexer) (s : string) : option lexer :=
  match s with EmptyString => Some x | String c s => x ← lex_step env x c; lex env x s end.

Definition ended (x : lexer) : option (list token) :=
  match x_mode x with Plain | Redirecting => Some (flush x) | _ => None end.

(** The tokens of a line under an environment. *)
Definition tokens (env : string → string) (line : string) : option (list token) := lex env lexer_start line ≫= ended.

(** *** A line whose references are values

    The same lexer over a line of which some pieces are given as values: a value is no text for the
    shell to read, it is part of the word it stands in, byte for byte, whatever it holds. *)

Inductive piece := Said (text : string) | Given (value : string).

Definition give (x : lexer) (value : string) : option lexer :=
  match x_mode x with
  | Plain | Redirecting => Some (add value Plain x)
  | InSingle => Some (add value InSingle x)
  | InDouble => Some (add value InDouble x)
  | Escaping | EscapingDouble | Expanding _ => None
  end.

Fixpoint lex_pieces (env : string → string) (x : lexer) (ps : list piece) : option lexer :=
  match ps with
  | [] => Some x
  | Said text :: ps => x ← lex env x text; lex_pieces env x ps
  | Given value :: ps => x ← give x value; lex_pieces env x ps
  end.

(** What a reference names. *)
Definition value_of (c : Config) (trigger : gmap string string) (name : string) : string :=
  match cut name "." with
  | Some ("config", key) => match values c !! key with Some v => value_text v | None => "" end
  | Some ("trigger", key) => default "" (trigger !! key)
  | _ => ""
  end.

Fixpoint pieces_of (c : Config) (trigger : gmap string string) (line : string) (last : nat) (spans : list span) : list piece :=
  match spans with
  | [] => [Said (slice line last (String.length line))]
  | sp :: spans =>
      Said (slice line last (sp_at sp)) :: Given (value_of c trigger (sp_name sp)) :: pieces_of c trigger line (sp_end sp) spans
  end.

(** The tokens the line means: every reference of it a value. *)
Definition meant (env : string → string) (c : Config) (trigger : gmap string string) (line : string) : option (list token) :=
  lex_pieces env lexer_start (pieces_of c trigger line 0 (references line)) ≫= ended.

Lemma lex_app env s t : ∀ x, lex env x (s +:+ t) = (x ← lex env x s; lex env x t).
Proof. induction s as [|c s IH]; intros x; simpl; [done|]. destruct (lex_step env x c); simpl; [apply IH|done]. Qed.

(** Where the lexer goes on, the code's scanner agrees with it on quotes. *)
Definition scan_of (m : mode) : scan_state :=
  match m with
  | Plain | Redirecting => outside
  | Escaping => mkScan false false true
  | InSingle => mkScan true false false
  | InDouble | Expanding _ => mkScan false true false
  | EscapingDouble => mkScan false true true
  end.

Ltac split_chars := repeat match goal with
  | H : (if ?b then _ else _) = Some _ |- _ => destruct b eqn:?
  | H : None = Some _ |- _ => discriminate H
  | H : Some _ = Some _ |- _ => injection H as <-
  end.

Lemma plain_step_scan x c x' : plain_step x c = Some x' → scan_step outside c = scan_of (x_mode x').
Proof.
  unfold plain_step. intros H. unfold scan_step, outside. cbn.
  destruct (Ascii.eqb c BS); [by simplify_eq|]. destruct (Ascii.eqb c SQ); [by simplify_eq|].
  destruct (Ascii.eqb c DQ); [by simplify_eq|]. split_chars; simpl; by try case_match.
Qed.

Lemma double_step_scan x c x' : double_step x c = Some x' → scan_step (mkScan false true false) c = scan_of (x_mode x').
Proof.
  unfold double_step. intros H. unfold scan_step. cbn.
  destruct (Ascii.eqb c BS) eqn:EB; [by simplify_eq|]. destruct (Ascii.eqb c DQ) eqn:ED; [|].
  - apply Ascii.eqb_eq in ED as ->. by simplify_eq.
  - destruct (Ascii.eqb c SQ) eqn:ES; split_chars; simpl; done.
Qed.

Lemma name_char_neutral c : name_char c = true → neutral c = true.
Proof. intros H. apply key_char_neutral. unfold key_char. unfold name_char in H. by rewrite H. Qed.

Lemma lex_step_scan env x c x' : lex_step env x c = Some x' → scan_step (scan_of (x_mode x)) c = scan_of (x_mode x').
Proof.
  unfold lex_step. destruct (x_mode x) as [| | | | | |name]; simpl.
  - apply plain_step_scan.
  - destruct (Ascii.eqb c "<"); [done|]. apply plain_step_scan.
  - intros [= <-]. by destruct (Ascii.eqb c newline_char).
  - intros [= <-]. destruct (Ascii.eqb c SQ) eqn:ES; [by apply Ascii.eqb_eq in ES as ->|].
    destruct (Ascii.eqb c BS); [done|]. by destruct (Ascii.eqb c DQ).
  - apply double_step_scan.
  - intros [= <-]. by destruct (Ascii.eqb c newline_char).
  - destruct (in_name name c) eqn:En.
    + intros [= <-]. apply andb_prop in En as [Hc _]. by apply (scan_step_neutral (mkScan false true false)), name_char_neutral.
    + destruct (String.eqb name ""); [done|]. intros H. by apply double_step_scan in H.
Qed.

Lemma lex_scan env s : ∀ x x', lex env x s = Some x' → scan_from (scan_of (x_mode x)) s = scan_of (x_mode x').
Proof.
  induction s as [|c s IH]; intros x x'; simpl; [by intros [= <-]|].
  destruct (lex_step env x c) as [x1|] eqn:E; simpl; [|done]. intros H. rewrite (lex_step_scan _ _ _ _ E). by apply IH.
Qed.

Lemma in_name_all env x t : ∀ name, str_all name_char t = true → name ≠ "" → x_mode x = Expanding name →
  lex env x t = Some (into (Expanding (name +:+ t)) x).
Proof.
  revert x. induction t as [|c t IH]; intros x name Ht Hn Hm; simpl.
  { rewrite str_app_nil_r, <- Hm. by destruct x. }
  simpl in Ht. apply andb_prop in Ht as [Hc Ht]. unfold lex_step. rewrite Hm. unfold in_name.
  rewrite Hc, (proj2 (String.eqb_neq _ _) Hn). simpl.
  rewrite (IH _ (name +:+ str c)); [|done|by destruct name|done]. by rewrite <- str_app_assoc.
Qed.

Lemma variable_name ns key : ns = "config" ∨ ns = "trigger" → str_all key_char key = true →
  ∃ t, variable_of ns key = "G" +:+ t ∧ str_all name_char t = true.
Proof.
  intros Hns Hkey. unfold variable_of, EnvPrefix.
  assert (str_all name_char (envSafe key) = true) as Hs.
  { unfold envSafe, to_upper. rewrite !str_all_map. revert Hkey. apply str_all_impl. intros c H.
    pose proof (ascii_forall_spec (λ c, implb (key_char c) (name_char (upper_char (dash_to_underscore c)))) c eq_refl) as Hc.
    simpl in Hc. by rewrite H in Hc. }
  exists ("RONIN_" +:+ to_upper ns +:+ "_" +:+ envSafe key). split; [done|].
  rewrite !str_all_app, Hs. by destruct Hns as [-> | ->].
Qed.

(** A bound variable where the lexer is outside quotes is its value, one part of one word. *)
Lemma lex_expansion env x ns key : ns = "config" ∨ ns = "trigger" → str_all key_char key = true →
  scan_of (x_mode x) = outside → lex env x (expansion (variable_of ns key)) = Some (add (env (variable_of ns key)) Plain x).
Proof.
  intros Hns Hkey Hm. destruct (variable_name ns key Hns Hkey) as (t & -> & Ht). unfold expansion, dq.
  assert (lex env x (str DQ +:+ "$G") = Some (add "" (Expanding "G") x)) as H1.
  { destruct x as [tk w []]; try discriminate Hm; reflexivity. }
  change (str DQ +:+ "$" +:+ ("G" +:+ t) +:+ str DQ) with ((str DQ +:+ "$G") +:+ (t +:+ str DQ)).
  rewrite lex_app, H1. simpl. rewrite lex_app, (in_name_all env _ t "G") by done. simpl.
  unfold add, into. simpl. by rewrite str_app_nil_r.
Qed.

End Posix.
Import Posix.

(** ** The bound line *)

Lemma resolves_value c trigger name ns key value : resolves c trigger name ns key value → value_of c trigger name = value.
Proof.
  intros [Hc Hr]. unfold value_of. rewrite Hc. unfold resolve in Hr.
  destruct (String.eqb_spec ns "config") as [->|]; [destruct (values c !! key); [by injection Hr|done]|].
  destruct (String.eqb_spec ns "trigger") as [->|]; [destruct (trigger !! key); [by injection Hr|done]|done].
Qed.

Lemma cut_entry k v : str_all name_char k = true → cut (env_entry (k, v)) "=" = Some (k, v).
Proof.
  intros Hk. unfold env_entry, cut. cbn [fst snd].
  assert (index_of (k +:+ "=" +:+ v) "=" = Some (String.length k)) as ->.
  { induction k as [|c k IH]; cbn; [done|]. simpl in Hk. apply andb_prop in Hk as [Hc Hk].
    destruct (Ascii.eqb "=" c) eqn:E; [apply Ascii.eqb_eq in E; by rewrite <- E in Hc|].
    simpl in IH |- *. by rewrite (IH Hk), Ascii.eqb_sym, E. }
  rewrite str_take_app. rewrite <- str_length_app, str_app_assoc, str_drop_app. done.
Qed.

Section bound.
Context (c : Config) (line : string) (trigger : gmap string string) (env : string → string).

Lemma bind_all_values spans : ∀ last st, consistent c trigger st → dom (b_values st) = dom (b_names st) →
  b_problems (fst (bind_all c line trigger last spans st)) = [] →
  ∀ k v, b_values st !! k = Some v → b_values (fst (bind_all c line trigger last spans st)) !! k = Some v.
Proof.
  induction spans as [|sp spans IH]; intros last st Hc Hdom Hp k v Hv; simpl in *; [done|].
  assert (b_problems (bind_one c line trigger last sp st) = []) as Hp1.
  { destruct (bind_all_problems c line trigger spans (sp_end sp) (bind_one c line trigger last sp st)) as [l Hl].
    rewrite Hp in Hl. symmetry in Hl. by apply app_nil in Hl as [? _]. }
  destruct (bind_one_consistent _ _ _ _ _ _ Hc Hp1) as [Hc1 Hkeep].
  destruct (bind_one_ok _ _ _ _ _ _ Hp1) as (_ & _ & ns & key & value & _ & _ & Hst1).
  apply IH; [done| |done|].
  - rewrite Hst1. simpl. by rewrite !dom_insert_L, Hdom.
  - assert (is_Some (b_names st !! k)) as [first Hn] by (apply elem_of_dom; rewrite <- Hdom; by apply elem_of_dom).
    by eapply Hkeep.
Qed.

Lemma bind_all_names spans : (∀ sp, sp ∈ spans → keyed sp) → ∀ last st, (∀ k v, b_values st !! k = Some v → str_all name_char k = true) →
  let st' := fst (bind_all c line trigger last spans st) in
  b_problems st' = [] → ∀ k v, b_values st' !! k = Some v → str_all name_char k = true.
Proof.
  induction spans as [|sp spans IH]; intros Hkeys last st Hst; simpl; [done|]. intros Hp.
  assert (b_problems (bind_one c line trigger last sp st) = []) as Hp1.
  { destruct (bind_all_problems c line trigger spans (sp_end sp) (bind_one c line trigger last sp st)) as [l Hl].
    rewrite Hp in Hl. symmetry in Hl. by apply app_nil in Hl as [? _]. }
  apply IH; [by intros ? ?; apply Hkeys; right| |done].
  destruct (bind_one_ok _ _ _ _ _ _ Hp1) as (_ & _ & ns & key & value & Hr & _ & ->). simpl. intros k v.
  rewrite lookup_insert_Some. intros [[<- _]|[_ Hk]]; [|by eapply Hst].
  destruct (variable_name ns key) as (t & -> & Ht);
    [by eapply resolves_source|by apply (Hkeys sp ltac:(by left) ns key), (proj1 Hr)|done].
Qed.

Lemma bind_all_lexes spans last : tiled line last spans → ∀ st x, consistent c trigger st → dom (b_values st) = dom (b_names st) →
  let '(st', last') := bind_all c line trigger last spans st in
  b_problems st' = [] → (∀ k v, b_values st' !! k = Some v → env k = v) → (∀ sp, sp ∈ spans → keyed sp) →
  lex env lexer_start (b_out st) = Some x → scan_of (x_mode x) = scan_at (str_take last line) →
  ∀ x', lex_pieces env x (pieces_of c trigger line last spans) = Some x' →
  lex env lexer_start (b_out st' +:+ slice line last' (String.length line)) = Some x'.
Proof.
  induction 1 as [last Hlast|last sp spans Hlast Hend Hsl Ht IH]; intros st x Hc Hdom; simpl.
  { intros _ _ _ Hx _ x'. rewrite lex_app, Hx. simpl. by destruct (lex env x _); simpl. }
  specialize (IH (bind_one c line trigger last sp st)).
  pose proof (bind_all_problems c line trigger spans (sp_end sp) (bind_one c line trigger last sp st)) as [l Hl].
  pose proof (bind_all_values spans (sp_end sp) (bind_one c line trigger last sp st)) as Hvals.
  destruct (bind_all c line trigger (sp_end sp) spans _) as [st' last'] eqn:Eb. simpl in Hl, Hvals.
  intros Hp Henv Hkeys Hx Hscan x' Hx'. rewrite Hp in Hl. symmetry in Hl. apply app_nil in Hl as [Hp1 _].
  destruct (bind_one_consistent _ _ _ _ _ _ Hc Hp1) as [Hc1 _].
  destruct (bind_one_ok _ _ _ _ _ _ Hp1) as (_ & Hq & ns & key & value & Hr & _ & Hst1).
  assert (dom (b_values (bind_one c line trigger last sp st)) = dom (b_names (bind_one c line trigger last sp st))) as Hdom1
    by (rewrite Hst1; simpl; by rewrite !dom_insert_L, Hdom).
  destruct (lex env x (slice line last (sp_at sp))) as [x1|] eqn:E1; [|done]. simpl in Hx'.
  rewrite (resolves_value _ _ _ _ _ _ Hr) in Hx'. destruct (give x1 value) as [x2|] eqn:E2; [|done]. simpl in Hx'.
  assert (scan_of (x_mode x1) = scan_at (str_take (sp_at sp) line)) as Hs1.
  { rewrite (take_slice line last (sp_at sp)), scan_at_app, <- Hscan by done. symmetry. by eapply lex_scan. }
  assert (scan_of (x_mode x1) = outside) as Hout.
  { rewrite quoted_scan, <- Hs1 in Hq. unfold give in E2. by destruct (x_mode x1). }
  pose proof (resolves_source _ _ _ _ _ _ Hr) as Hns. pose proof (Hkeys sp ltac:(by left) ns key (proj1 Hr)) as Hkey.
  assert (x2 = add value Plain x1) as -> by (unfold give in E2; by destruct (x_mode x1); simplify_eq).
  assert (env (variable_of ns key) = value) as He.
  { apply Henv, Hvals; [done..|]. rewrite Hst1. simpl. apply lookup_insert_eq. }
  apply (IH (add value Plain x1)); [done|done|done|done|by intros ? ?; apply Hkeys; right| | |done].
  - rewrite Hst1. cbn [b_out]. rewrite lex_app, Hx. cbn [mbind option_bind]. rewrite lex_app, E1. cbn [mbind option_bind]. by rewrite lex_expansion, He.
  - rewrite (take_slice line (sp_at sp) (sp_end sp)), scan_at_app, Hsl, <- Hs1, Hout by done.
    symmetry. apply (reference_scan outside (sp_name sp) ns key); [done|exact (proj1 Hr)|done|done].
Qed.
End bound.

(** C35: What BindShell hands to the shell is what the line means with its references as values: when it
    binds a line whose references have valid keys, then under every environment that holds the
    variables it gives, the line it writes reads as exactly the tokens of the given line in which
    every reference stands for the value it names — each value byte for byte in the one word its
    reference stands in, however many blanks, quotes, operators or expansions it holds, and an empty
    one still a word.  This is of the lines a shell's lexer can read by itself, with no expansion
    outside double quotes, no command substitution, no here-document, no comment, no pattern and no
    backslash before a reference: of nested lines the code's own scanner accepts more than it
    contains. *)
Theorem BindShell_contains_values c line trigger b env toks :
  BindShell c line trigger = inr b → (∀ sp, sp ∈ references line → keyed sp) →
  (∀ entry variable value, entry ∈ Env b → cut entry "=" = Some (variable, value) → env variable = value) →
  meant env c trigger line = Some toks → tokens env (Line b) = Some toks.
Proof.
  unfold BindShell, meant, tokens. intros Hb Hkeys Henv Hm.
  pose proof (bind_all_lexes c line trigger env (references line) 0 (references_tiled line)
    (mkBinding (unterminated line) ∅ ∅ "") lexer_start) as H.
  destruct (bind_all c line trigger 0 (references line) _) as [st last] eqn:Est.
  destruct (b_problems st) eqn:Ep; [|done]. injection Hb as <-. simpl in Henv |- *.
  destruct (lex_pieces env lexer_start _) as [x'|] eqn:Ex; [|done]. simpl in Hm.
  rewrite (H) with (x' := x'); [done|by intros ? ? ?; simplify_map_eq|done|done| |done|done|done|done].
  intros k v Hk. apply (Henv (env_entry (k, v))).
  - apply elem_of_sort_strings, list_elem_of_fmap. exists (k, v). split; [done|]. by apply elem_of_map_to_list.
  - apply cut_entry. pose proof (bind_all_names c line trigger (references line) Hkeys 0 (mkBinding (unterminated line) ∅ ∅ "")) as Hn.
    rewrite Est in Hn. simpl in Hn. eapply Hn; [|done|exact Hk]. intros ? ?. by rewrite lookup_empty.
Qed.

Lemma bind_all_line c1 t1 c2 t2 line spans last st1 st2 :
  b_out st1 = b_out st2 →
  b_problems (fst (bind_all c1 line t1 last spans st1)) = [] →
  b_problems (fst (bind_all c2 line t2 last spans st2)) = [] →
  b_out (fst (bind_all c1 line t1 last spans st1)) =
    b_out (fst (bind_all c2 line t2 last spans st2)) ∧
  snd (bind_all c1 line t1 last spans st1) = snd (bind_all c2 line t2 last spans st2).
Proof.
  revert last st1 st2. induction spans as [|sp spans IH]; intros last st1 st2 Ho H1 H2;
    simpl in *; [done|].
  apply IH; [|done|done].
  assert (b_problems (bind_one c1 line t1 last sp st1) = []) as P1.
  { destruct (bind_all_problems c1 line t1 spans (sp_end sp) (bind_one c1 line t1 last sp st1))
      as [l Hl]. rewrite H1 in Hl. symmetry in Hl. by apply app_nil in Hl as [? _]. }
  assert (b_problems (bind_one c2 line t2 last sp st2) = []) as P2.
  { destruct (bind_all_problems c2 line t2 spans (sp_end sp) (bind_one c2 line t2 last sp st2))
      as [l Hl]. rewrite H2 in Hl. symmetry in Hl. by apply app_nil in Hl as [? _]. }
  destruct (bind_one_ok _ _ _ _ _ _ P1) as (_ & _ & ns1 & k1 & v1 & [C1 _] & _ & ->).
  destruct (bind_one_ok _ _ _ _ _ _ P2) as (_ & _ & ns2 & k2 & v2 & [C2 _] & _ & ->).
  simpl. rewrite Ho. congruence.
Qed.

(** The line BindShell produces does not depend on the values: two bindings of one line,
    under any configurations and any payloads, give the same text to the shell, so a value
    never decides what the shell parses. *)
Theorem BindShell_line_independent_of_values c1 t1 c2 t2 line b1 b2 :
  BindShell c1 line t1 = inr b1 → BindShell c2 line t2 = inr b2 → Line b1 = Line b2.
Proof.
  unfold BindShell. intros H1 H2.
  destruct (bind_all c1 line t1 0 (references line) _) as [st1 last1] eqn:E1.
  destruct (bind_all c2 line t2 0 (references line) _) as [st2 last2] eqn:E2.
  destruct (b_problems st1) eqn:P1; [|done]. destruct (b_problems st2) eqn:P2; [|done].
  injection H1 as <-. injection H2 as <-. simpl.
  destruct (bind_all_line c1 t1 c2 t2 line (references line) 0
    (mkBinding (unterminated line) ∅ ∅ "") (mkBinding (unterminated line) ∅ ∅ "")) as [Ho Hl];
    rewrite ?E1, ?E2; simpl; auto.
  rewrite E1, E2 in Ho, Hl. simpl in *. congruence.
Qed.

(** The binder's containment at a concrete step: a value that is a second command. *)
Definition example_config : Config :=
  mkConfig "/data" {[ "checkout" := mkValue "x; rm -rf ~" false; "repo" := mkValue "o/r" true ]}.

Definition keyed_b (sp : span) : bool :=
  match cut (sp_name sp) "." with Some (_, key) => str_all key_char key | None => true end.

Lemma keyed_b_sound line : forallb keyed_b (references line) = true → ∀ sp, sp ∈ references line → keyed sp.
Proof.
  rewrite forallb_forall. intros H sp Hsp%list_elem_of_In%H ns key Hc. unfold keyed_b in Hsp. by rewrite Hc in Hsp.
Qed.

Definition example_line : string := "git -C ${config.checkout} log -- src/${trigger.path}" +:+ dq +:+ ":$HOME" +:+ dq.
Definition example_trigger : gmap string string := {[ "path" := "$(id) 'a" ]}.

(** An environment that holds what a list of entries says. *)
Fixpoint environment (entries : list string) (name : string) : string :=
  match entries with
  | [] => ""
  | entry :: entries =>
      match cut entry "=" with
      | Some (variable, value) => if String.eqb variable name then value else environment entries name
      | None => environment entries name
      end
  end.

Definition example_env : string → string :=
  environment ["GRONIN_CONFIG_CHECKOUT=x; rm -rf ~"; "GRONIN_TRIGGER_PATH=$(id) 'a"; "HOME=/root"].

Lemma BindShell_contains_values_witness :
  ∃ b, BindShell example_config example_line example_trigger = inr b ∧
    tokens example_env (Line b) =
      Some [Word "git"; Blank; Word "-C"; Blank; Word "x; rm -rf ~"; Blank; Word "log"; Blank; Word "--"; Blank; Word "src/$(id) 'a:/root"].
Proof.
  eexists. split; [vm_compute; reflexivity|].
  apply (BindShell_contains_values example_config example_line example_trigger);
    [vm_compute; reflexivity|apply keyed_b_sound; vm_compute; reflexivity| |vm_compute; reflexivity].
  intros entry variable value He Hc. cbn [Env] in He.
  apply elem_of_cons in He as [->|[->|[]%elem_of_nil]%elem_of_cons];
    vm_compute in Hc; injection Hc as <- <-; vm_compute; reflexivity.
Defined.

Lemma BindShell_line_independent_of_values_witness :
  ∃ b1 b2, BindShell example_config example_line example_trigger = inr b1 ∧
    BindShell example_config example_line {[ "path" := "README" ]} = inr b2 ∧ Line b1 = Line b2.
Proof.
  eexists _, _. split; [vm_compute; reflexivity|]. split; [vm_compute; reflexivity|].
  apply (BindShell_line_independent_of_values example_config example_trigger example_config
    {[ "path" := "README" ]} example_line); vm_compute; reflexivity.
Defined.

(** ** What the scanner accepts and does not contain *)

Definition escaped_line : string := "echo " +:+ str BS +:+ "${config.checkout}".
Definition nested_line : string := "echo " +:+ dq +:+ "$(printf '[%s]' " +:+ dq +:+ "${config.checkout}" +:+ dq +:+ ")" +:+ dq.

(** A reference behind a backslash, and one inside the quotes of a command substitution that is itself
    inside quotes: neither is refused when the line is bound or by the gate, and in neither do the
    double quotes that are written hold the variable.  In the first the backslash escapes the opening
    one; in the second the scanner takes the inner quote for the end of the outer one, and the shell
    reads an empty quoted string, the variable without quotes, and another empty string. *)
Theorem BindShell_accepts_what_it_does_not_contain :
  (∃ b, BindShell example_config escaped_line ∅ = inr b ∧ QuotedReferences escaped_line = [] ∧
     Line b = "echo " +:+ str BS +:+ dq +:+ "$" +:+ variable_of "config" "checkout" +:+ dq ∧
     ∀ env, tokens env (Line b) = None) ∧
  (∃ b, BindShell example_config nested_line ∅ = inr b ∧ QuotedReferences nested_line = [] ∧
     Line b = "echo " +:+ dq +:+ "$(printf '[%s]' " +:+ dq +:+ expansion (variable_of "config" "checkout") +:+ dq +:+ ")" +:+ dq ∧
     ∀ env, tokens env (Line b) = None).
Proof. by split; eexists; (split; [vm_compute; reflexivity|]); split_and!; intros; vm_compute; reflexivity. Qed.

(** ** Interpolation *)

(** What a reference contributes: its value, or itself when it resolves to nothing. *)
Definition replacement (c : Config) (trigger : gmap string string) (text : string) (sp : span)
  : string :=
  match interpolate_one c trigger (sp_name sp) with
  | inr value => value
  | inl _ => slice text (sp_at sp) (sp_end sp)
  end.

Definition problem_of (c : Config) (trigger : gmap string string) (sp : span) : option string :=
  match interpolate_one c trigger (sp_name sp) with inr _ => None | inl p => Some p end.

(** The text with each reference replaced once, the values never read again. *)
Fixpoint weave (text : string) (last : nat) (spans : list span) (f : span → string) : string :=
  match spans with
  | [] => slice text last (String.length text)
  | sp :: spans => slice text last (sp_at sp) +:+ f sp +:+ weave text (sp_end sp) spans f
  end.

Lemma interpolate_spans_weave c trigger text spans last out problems :
  interpolate_spans c trigger text spans last out problems =
    (out +:+ weave text last spans (replacement c trigger text),
     problems ++ omap (problem_of c trigger) spans).
Proof.
  revert last out problems. induction spans as [|sp spans IH]; intros last out problems; simpl.
  { by rewrite app_nil_r. }
  unfold replacement at 1, problem_of at 1.
  destruct (interpolate_one c trigger (sp_name sp)); rewrite IH, <- !str_app_assoc;
    [by rewrite <- app_assoc|done].
Qed.

(** Interpolate is one pass over the matches of the reference pattern: the result is the
    text with each match replaced once by its own value (a value that itself looks like a
    reference is never read again), and it is given only when no brace is left open and every
    match resolves; otherwise the problems are returned, the open references first and then
    the unresolved ones in the order of the text. *)
Theorem Interpolate_resolves_each_reference_once c text trigger :
  Interpolate c text trigger =
    match unterminated text ++ omap (problem_of c trigger) (references text) with
    | [] => inr (weave text 0 (references text) (replacement c trigger text))
    | problems => inl problems
    end.
Proof. unfold Interpolate. rewrite interpolate_spans_weave. by destruct (_ ++ _). Qed.

(** Nothing but the two declared sources is ever read: when Interpolate succeeds, every
    reference of the text names config or trigger, and the key after the dot is configured,
    or is in the payload, respectively. *)
Theorem Interpolate_two_sources c text trigger out sp :
  Interpolate c text trigger = inr out → sp ∈ references text →
  ∃ ns key, cut (sp_name sp) "." = Some (ns, key) ∧
    (ns = "config" ∧ is_Some (values c !! key) ∨ ns = "trigger" ∧ is_Some (trigger !! key)).
Proof.
  unfold Interpolate. rewrite interpolate_spans_weave. intros H Hsp.
  destruct (unterminated text ++ _) eqn:E; [|done].
  apply app_nil in E as [_ E].
  assert (problem_of c trigger sp = None) as Hp.
  { destruct (problem_of c trigger sp) as [p|] eqn:Ep; [|done]. exfalso.
    assert (p ∈ omap (problem_of c trigger) (references text)) as Hin
      by (apply list_elem_of_omap; eauto). rewrite E in Hin. by apply elem_of_nil in Hin. }
  unfold problem_of, interpolate_one in Hp.
  repeat split_match; try done; bool_facts; subst; eauto 10.
Qed.

Lemma Interpolate_two_sources_witness :
  ∃ out, Interpolate example_config "in ${config.repo}" ∅ = inr out ∧
    ∃ ns key, cut "config.repo" "." = Some (ns, key) ∧
      (ns = "config" ∧ is_Some (values example_config !! key)
       ∨ ns = "trigger" ∧ is_Some ((∅ : gmap string string) !! key)).
Proof.
  eexists. split; [vm_compute; reflexivity|].
  apply (Interpolate_two_sources example_config "in ${config.repo}" ∅ "in o/r"
    (mkSpan 3 17 "config.repo")); [vm_compute; reflexivity|].
  apply list_elem_of_In. vm_compute. by left.
Defined.
