(* ===== verification/Schedule.v ===== *)
(** The scheduler: [src/runtime/internal/schedule/schedule.go].

    The cron expression's [Next] comes from a third-party parser and is a parameter; what its
    documentation promises of it is the class [Cron] below.  The callbacks [fire] and [missed]
    act on a world [W] the scheduler never looks into. *)
From S2P Require Import Prelude GoStr GoTime.
From S2P Require Import GoErr.

Definition catchUpLimit : nat := 50.

Record entry := mkEntry { e_name : string; e_next : Z → Z; seenTo : Z }.

Section scheduler.
Context {W : Type}.
(** Each callback returns its error's text, or nothing. *)
Variable fire : string → Z → W → option string * W.
Variable missed : option (string → Z → string → W → option string * W).

(** [due[len(due)-1] = at] *)
Definition set_last (due : list Z) (at_ : Z) : list Z := <[pred (length due) := at_]> due.

(** The loop of [tickOne] from the instant [at_]; [None] is a loop still going when the fuel
    ran out. *)
Fixpoint collect (fuel : nat) (next : Z → Z) (now at_ : Z) (due : list Z) (overflow : nat)
  : option (list Z * nat) :=
  match fuel with
  | O => None
  | S fuel =>
      if negb (After at_ now) then
        if (length due =? catchUpLimit)%nat
        then collect fuel next now (next at_) (set_last due at_) (S overflow)
        else collect fuel next now (next at_) (due ++ [at_]) overflow
      else Some (due, overflow)
  end.

Definition record_missed (name : string) (at_ : Z) (reason : string) (w : W)
  : option string * W :=
  match missed with
  | None => (None, w)
  | Some missed => missed name at_ reason w
  end.

Definition not_running : string := "the runtime was not running when this occurrence was due".
Definition further (overflow : nat) : string :=
  show_nat overflow +:+ " further occurrences were missed and not recorded individually".

Fixpoint record_each (name : string) (ats : list Z) (w : W) (problems : list string)
  : list string * W :=
  match ats with
  | [] => (problems, w)
  | at_ :: ats =>
      let '(err, w) := record_missed name at_ not_running w in
      record_each name ats w (problems ++ option_list err)
  end.

(** What follows the loop, on a list of due occurrences that is not empty. *)
Definition fire_due (name : string) (due : list Z) (last : Z) (overflow : nat) (w : W)
  : list string * W :=
  let '(problems, w) := record_each name (removelast due) w [] in
  let '(problems, w) :=
    if (0 <? overflow)%nat then
      let '(err, w) := record_missed name (last - Nanosecond) (further overflow) w in
      (problems ++ option_list err, w)
    else (problems, w) in
  let '(err, w) := fire name last w in
  match err with
  | None => (problems, w)
  | Some reason =>
      let '(record_err, w) := record_missed name last reason w in
      (problems ++ option_list record_err, w)
  end.

Definition tickOne (fuel : nat) (e : entry) (now : Z) (w : W)
  : option (entry * list string * W) :=
  match collect fuel (e_next e) now (e_next e (seenTo e)) [] 0 with
  | None => None
  | Some (due, overflow) =>
      match last due with
      | None => Some (e, [], w)
      | Some last_ =>
          let '(problems, w) := fire_due (e_name e) due last_ overflow w in
          Some (mkEntry (e_name e) (e_next e) now, problems, w)
      end
  end.

(** [Tick] over the entries already sorted by name. *)
Fixpoint tick_entries (fuel : nat) (entries : list entry) (now : Z) (w : W)
  : option (list entry * list string * W) :=
  match entries with
  | [] => Some ([], [], w)
  | e :: entries =>
      match tickOne fuel e now w with
      | None => None
      | Some (e, problems, w) =>
          match tick_entries fuel entries now w with
          | None => None
          | Some (entries, more, w) => Some (e :: entries, problems ++ more, w)
          end
      end
  end.

(** The scheduler's own state: its armed entries, by name. *)
Definition Add (name : string) (next : Z → Z) (from : Z) (s : gmap string entry)
  : gmap string entry := <[name := mkEntry name next from]> s.

Definition Names (s : gmap string entry) : list string :=
  sort_strings (map fst (map_to_list s)).

(** [Tick]: the entries in the order of their names, each one's [seenTo] written back. *)
Definition Tick (fuel : nat) (now : Z) (s : gmap string entry) (w : W)
  : option (gmap string entry * list string * W) :=
  match tick_entries fuel (omap (λ name, s !! name) (Names s)) now w with
  | None => None
  | Some (entries, problems, w) =>
      Some (foldl (λ s e, <[e_name e := e]> s) s entries, problems, w)
  end.
End scheduler.

(** [NextDue]: the entries in whatever order the map is walked. *)
Fixpoint next_due (entries : list entry) (now earliest : Z) : Z :=
  match entries with
  | [] => earliest
  | e :: entries =>
      let next := e_next e now in
      next_due entries now
        (if IsZero earliest || Before next earliest then next else earliest)
  end.
Definition NextDue (entries : list entry) (now : Z) : Z := next_due entries now 0.

(** How long [Run] sleeps after a tick that covered [ticked], read again at [now]. *)
Definition run_wait (entries : list entry) (ticked now : Z) : Z :=
  let next := NextDue entries ticked in
  let wait := if IsZero next then Minute else time_sub next now in
  if wait <? Second then Second else wait.

(** ** What the cron parser documents of [Next] *)

(** [Next(t)] is the first occurrence strictly after [t], and the zero time when the
    expression has none. *)
Class Cron (occurs : Z → Prop) (next : Z → Z) : Prop := {
  cron_after t : next t ≠ 0 → t < next t;
  cron_occurs t : next t ≠ 0 → occurs (next t);
  cron_first t u : occurs u → t < u → next t ≠ 0 ∧ next t <= u;
}.

(** All the occurrences the loop meets, in order. *)
Inductive due_from (next : Z → Z) (now : Z) : Z → list Z → Prop :=
| due_done at_ : now < at_ → due_from next now at_ []
| due_step at_ ats :
    at_ <= now → due_from next now (next at_) ats → due_from next now at_ (at_ :: ats).

(** The list the loop keeps of all the occurrences it met: all of them up to the limit, and
    beyond it the first ones and the last. *)
Definition kept (all : list Z) : list Z :=
  if (length all <=? catchUpLimit)%nat then all
  else take (pred catchUpLimit) all ++ option_list (last all).

Lemma catchUp_pos : (0 < catchUpLimit)%nat.
Proof. unfold catchUpLimit. lia. Qed.
#[local] Opaque catchUpLimit.
Ltac limit_lia := pose proof catchUp_pos; lia.

Lemma length_kept all : length (kept all) = Nat.min (length all) catchUpLimit.
Proof.
  unfold kept. destruct (Nat.leb_spec (length all) catchUpLimit); [lia|].
  rewrite length_app, length_take. destruct (last all) eqn:E; simpl.
  - limit_lia.
  - apply last_None in E as ->. simpl in *. limit_lia.
Qed.

Lemma insert_after_take {A} (l r : list A) (n : nat) x y :
  (n <= length l)%nat → <[n := x]> (take n l ++ y :: r) = take n l ++ x :: r.
Proof.
  intros Hn. rewrite insert_app_r_alt; rewrite length_take; [|lia].
  by replace (n - Nat.min n (length l))%nat with 0%nat by lia.
Qed.

Lemma set_last_kept all at_ :
  (catchUpLimit <= length all)%nat →
  set_last (kept all) at_ = take (pred catchUpLimit) all ++ [at_].
Proof.
  intros Hlen. unfold set_last. rewrite length_kept.
  replace (Nat.min _ _) with catchUpLimit by lia.
  unfold kept. destruct (Nat.leb_spec (length all) catchUpLimit) as [Hle|Hgt].
  - assert (∃ x, drop (pred catchUpLimit) all = [x]) as [x Hx].
    { pose proof (length_drop all (pred catchUpLimit)) as Hd.
      destruct (drop (pred catchUpLimit) all) as [|x [|y l]]; simpl in Hd;
        [limit_lia|eauto|limit_lia]. }
    rewrite <- (take_drop (pred catchUpLimit) all) at 1. rewrite Hx.
    apply insert_after_take. limit_lia.
  - destruct (last all) as [x|] eqn:El.
    + apply insert_after_take. limit_lia.
    + apply last_None in El as ->. simpl in *. limit_lia.
Qed.

Lemma kept_snoc all at_ :
  kept (all ++ [at_]) =
    if (length (kept all) =? catchUpLimit)%nat then set_last (kept all) at_
    else kept all ++ [at_].
Proof.
  rewrite length_kept.
  destruct (Nat.eqb_spec (Nat.min (length all) catchUpLimit) catchUpLimit) as [E|E].
  - rewrite set_last_kept by lia. unfold kept at 1.
    rewrite length_app, last_snoc. simpl.
    destruct (Nat.leb_spec (length all + 1) catchUpLimit); [limit_lia|].
    by rewrite take_app_le by limit_lia.
  - unfold kept. rewrite length_app. simpl.
    destruct (Nat.leb_spec (length all + 1) catchUpLimit); [|limit_lia].
    by destruct (Nat.leb_spec (length all) catchUpLimit); [|limit_lia].
Qed.

Lemma length_snoc_overflow (all : list Z) :
  (length all + 1 - catchUpLimit =
     if (length (kept all) =? catchUpLimit)%nat then S (length all - catchUpLimit)
     else length all - catchUpLimit)%nat.
Proof.
  rewrite length_kept.
  destruct (Nat.eqb_spec (Nat.min (length all) catchUpLimit) catchUpLimit); limit_lia.
Qed.

(** The loop, run on occurrences [ats] after having met [all], keeps what [kept] says. *)
Lemma collect_due next now at_ ats all :
  due_from next now at_ ats →
  collect (S (length ats)) next now at_ (kept all) (length all - catchUpLimit) =
    Some (kept (all ++ ats), (length (all ++ ats) - catchUpLimit)%nat).
Proof.
  intros H. revert all. induction H as [at_ Hlt|at_ ats Hle H IH]; intros all.
  - simpl. unfold After. replace (now <? at_) with true by (symmetry; by apply Z.ltb_lt). simpl.
    by rewrite app_nil_r.
  - cbn [collect length]. unfold After.
    replace (now <? at_) with false by (symmetry; by apply Z.ltb_ge). cbn [negb].
    replace (all ++ at_ :: ats) with ((all ++ [at_]) ++ ats) by by rewrite <- app_assoc.
    rewrite <- IH, kept_snoc.
    replace (length (all ++ [at_])) with (length all + 1)%nat by by rewrite length_app.
    rewrite length_snoc_overflow.
    by destruct (length (kept all) =? catchUpLimit)%nat.
Qed.

Lemma collect_more_fuel next now at_ due o fuel fuel' r :
  collect fuel next now at_ due o = Some r → (fuel <= fuel')%nat →
  collect fuel' next now at_ due o = Some r.
Proof.
  revert fuel' at_ due o. induction fuel as [|fuel IH]; intros [|fuel'] at_ due o; simpl;
    [done|done|lia|].
  intros H Hle. repeat split_match; try done; by apply IH; [|lia].
Qed.

(** ** The occurrences of a window *)

Section window.
Context (occurs : Z → Prop) (next : Z → Z) `{!Cron occurs next} (seen now : Z).
(** The schedule goes on past [now]. *)
Hypothesis Hlive : ∀ t, seen <= t → t <= now → next t ≠ 0.

Lemma due_from_window from at_ ats :
  at_ = next from → seen <= from → from <= now → due_from next now at_ ats →
  ∀ u, u ∈ ats ↔ occurs u ∧ from < u ∧ u <= now.
Proof.
  intros Hat Hseen Hfrom H. revert from Hat Hseen Hfrom.
  induction H as [at_ Hlt|at_ ats Hle H IH]; intros from Hat Hseen Hfrom u.
  - split; [by intros ?%elem_of_nil|]. intros (Ho & Hu & Hun). exfalso.
    destruct (cron_first (next := next) from u Ho Hu). lia.
  - assert (at_ ≠ 0) as Hne by (subst at_; auto).
    assert (from < at_) as Hbefore by (subst at_; by apply cron_after).
    rewrite elem_of_cons, (IH at_ eq_refl ltac:(lia) Hle u). split.
    + intros [-> | (Ho & Hu & Hun)]; [|split_and!; [done|lia|done]].
      split_and!; [subst at_; by apply cron_occurs|done|done].
    + intros (Ho & Hu & Hun). destruct (decide (u = at_)) as [|Hneq]; [by left|right].
      destruct (cron_first (next := next) from u Ho Hu). split_and!; [done|lia|done].
Qed.

Lemma due_from_exists at_ : seen <= at_ → ∃ ats, due_from next now at_ ats.
Proof.
  remember (Z.to_nat (now - at_ + 1)) as n eqn:Hn.
  revert at_ Hn. induction n as [n IH] using lt_wf_ind. intros at_ Hn Hseen.
  destruct (decide (now < at_)) as [Hlt|Hge]; [exists []; by constructor|].
  assert (at_ < next at_) by (apply cron_after, Hlive; lia).
  destruct (IH (Z.to_nat (now - next at_ + 1)) ltac:(lia) (next at_) eq_refl ltac:(lia))
    as [ats Hats].
  exists (at_ :: ats). constructor; [lia|done].
Qed.

Lemma due_from_increasing at_ ats :
  seen <= at_ → due_from next now at_ ats →
  StronglySorted Z.lt ats ∧ Forall (λ u, at_ <= u) ats.
Proof.
  intros Hseen H. induction H as [at_ Hlt|at_ ats Hle H IH]; [split; constructor|].
  assert (at_ < next at_) as Hn by (apply cron_after, Hlive; lia).
  destruct IH as [IHs IHf]; [lia|].
  split; constructor; [done| |lia|]; (eapply Forall_impl; [done|]; simpl; lia).
Qed.
End window.

(** ** What a tick does, as a trace *)

Inductive event := Fired (name : string) (at_ : Z) | Missed (name : string) (at_ : Z) (reason : string).

(** Callbacks that keep the trace; [refuses] is what firing returns. *)
Definition trace_fire (refuses : string → Z → option string) (name : string) (at_ : Z)
    (w : list event) : option string * list event :=
  (refuses name at_, w ++ [Fired name at_]).
Definition trace_missed (name : string) (at_ : Z) (reason : string) (w : list event)
  : option string * list event := (None, w ++ [Missed name at_ reason]).

Lemma record_each_trace name ats w problems :
  record_each (Some trace_missed) name ats w problems =
    (problems, w ++ map (λ at_, Missed name at_ not_running) ats).
Proof.
  revert w problems. induction ats as [|at_ ats IH]; intros w problems; simpl.
  { by rewrite app_nil_r. }
  rewrite IH. simpl. by rewrite app_nil_r, <- app_assoc.
Qed.

(** The trace of a tick over the occurrences [all]. *)
Definition tick_trace (refuses : string → Z → option string) (name : string) (all : list Z)
    (last_ : Z) : list event :=
  map (λ at_, Missed name at_ not_running) (removelast (kept all))
  ++ (if (catchUpLimit <? length all)%nat
      then [Missed name (last_ - 1) (further (length all - catchUpLimit))] else [])
  ++ [Fired name last_]
  ++ (match refuses name last_ with Some reason => [Missed name last_ reason] | None => [] end).

Lemma fire_due_trace refuses name all last_ w :
  fire_due (trace_fire refuses) (Some trace_missed) name (kept all) last_
    (length all - catchUpLimit) w = ([], w ++ tick_trace refuses name all last_).
Proof.
  unfold fire_due, tick_trace. rewrite record_each_trace.
  replace (0 <? length all - catchUpLimit)%nat with (catchUpLimit <? length all)%nat
    by (apply eq_true_iff_eq; rewrite !Nat.ltb_lt; lia).
  destruct (catchUpLimit <? length all)%nat; unfold trace_fire, record_missed, trace_missed;
    destruct (refuses name last_); simpl; by rewrite <- ?app_assoc.
Qed.

Lemma last_kept all : last (kept all) = last all.
Proof.
  unfold kept. destruct (Nat.leb_spec (length all) catchUpLimit); [done|].
  destruct (last all) eqn:E; simpl; [apply last_snoc|].
  apply last_None in E as ->. by rewrite take_nil.
Qed.

(** Every occurrence due is recorded on its own, counted among the further ones, or fired;
    the ones recorded are the earliest. *)
Lemma kept_accounts all last_ :
  last all = Some last_ →
  (length (removelast (kept all)) + (length all - catchUpLimit) + 1 = length all)%nat ∧
  removelast (kept all) `prefix_of` all.
Proof.
  intros Hl. apply last_Some in Hl as [l ->]. unfold kept.
  destruct (Nat.leb_spec (length (l ++ [last_])) catchUpLimit) as [Hle|Hgt].
  - rewrite removelast_last, length_app in *. simpl in *. split; [lia|by exists [last_]].
  - rewrite last_snoc. simpl. rewrite removelast_last, length_take, length_app in *. simpl in *.
    split; [limit_lia|]. apply prefix_take.
Qed.

(** A tick handles a playbook's whole window at once: of the occurrences after seenTo and
    not after now, in order, the callbacks see the trace tick_trace: every one but the last is
    recorded missed, individually up to the catch-up limit and beyond it as one count, and the
    last one alone is fired, and recorded missed too when firing refused it.  seenTo moves to
    now, and stays where it is when the window is empty. *)
Theorem tickOne_handles_the_window_once refuses name next seen now w
    (occurs : Z → Prop) `{!Cron occurs next} :
  seen <= now → (∀ t, seen <= t → t <= now → next t ≠ 0) →
  ∃ all fuel,
    StronglySorted Z.lt all ∧ (∀ u, u ∈ all ↔ occurs u ∧ seen < u ∧ u <= now) ∧
    match last all with
    | None =>
        tickOne (trace_fire refuses) (Some trace_missed) fuel (mkEntry name next seen) now w =
          Some (mkEntry name next seen, [], w)
    | Some last_ =>
        tickOne (trace_fire refuses) (Some trace_missed) fuel (mkEntry name next seen) now w =
          Some (mkEntry name next now, [], w ++ tick_trace refuses name all last_) ∧
        (length (removelast (kept all)) + (length all - catchUpLimit) + 1 = length all)%nat ∧
        removelast (kept all) `prefix_of` all
    end.
Proof.
  intros Hseen Hlive.
  assert (seen < next seen) as Hnext by (apply cron_after, Hlive; lia).
  destruct (due_from_exists occurs next seen now Hlive (next seen)) as [all Hall]; [lia|].
  exists all, (S (length all)). split_and!.
  - apply (due_from_increasing occurs next seen now Hlive (next seen) all); [lia|done].
  - apply (due_from_window occurs next seen now Hlive seen (next seen) all); [done|lia|done|done].
  - pose proof (collect_due next now (next seen) all [] Hall) as Hc.
    change (kept []) with (@nil Z) in Hc. rewrite Nat.sub_0_l in Hc. cbn [app] in Hc.
    destruct (last all) as [last_|] eqn:El; unfold tickOne; cbn [e_next seenTo e_name];
      rewrite Hc, last_kept, El.
    + rewrite fire_due_trace. split; [done|]. by apply (kept_accounts all last_).
    + done.
Qed.

(** A schedule every [p] instants, and the loop over 125 of its occurrences. *)
Definition every (p t : Z) : Z := if t <? 0 then p else (t / p + 1) * p.

#[export] Instance every_cron p `{!TCEq (0 <? p) true} :
  Cron (λ u, u mod p = 0 ∧ 0 < u) (every p).
Proof.
  assert (0 < p) as Hp by (apply Z.ltb_lt; by apply TCEq_eq).
  split; unfold every; intros t.
  - destruct (Z.ltb_spec t 0); [lia|]. intros _.
    pose proof (Z.mul_succ_div_gt t p Hp). lia.
  - destruct (Z.ltb_spec t 0); [rewrite Z.mod_same by lia; lia|]. intros _.
    rewrite Z.mod_mul by lia. pose proof (Z.div_pos t p ltac:(lia) Hp). nia.
  - intros u [Hu Hpos] Hlt. apply Z.mod_divide in Hu as [k ->]; [|lia].
    assert (0 < k) by nia. destruct (Z.ltb_spec t 0); [split; nia|].
    assert (t / p < k) by (apply Z.div_lt_upper_bound; lia).
    pose proof (Z.div_pos t p ltac:(lia) Hp). split; nia.
Qed.

Lemma tickOne_handles_the_window_once_witness :
  ∃ all fuel,
    StronglySorted Z.lt all ∧
    (∀ u, u ∈ all ↔ (u mod 60 = 0 ∧ 0 < u) ∧ 120 < u ∧ u <= 7630) ∧
    match last all with
    | None =>
        tickOne (trace_fire (λ _ _, None)) (Some trace_missed) fuel
          (mkEntry "nightly" (every 60) 120) 7630 [] =
          Some (mkEntry "nightly" (every 60) 120, [], [])
    | Some last_ =>
        tickOne (trace_fire (λ _ _, None)) (Some trace_missed) fuel
          (mkEntry "nightly" (every 60) 120) 7630 [] =
          Some (mkEntry "nightly" (every 60) 7630, [],
                [] ++ tick_trace (λ _ _, None) "nightly" all last_) ∧
        (length (removelast (kept all)) + (length all - catchUpLimit) + 1 = length all)%nat ∧
        removelast (kept all) `prefix_of` all
    end.
Proof.
  apply (tickOne_handles_the_window_once (λ _ _, None) "nightly" (every 60) 120 7630 []
    (λ u, u mod 60 = 0 ∧ 0 < u)); [lia|].
  intros t Ht _. unfold every. destruct (Z.ltb_spec t 0); [lia|].
  pose proof (Z.div_pos t 60 ltac:(lia) ltac:(lia)). lia.
Defined.

(** ** A schedule with no occurrence *)

(** The expression of February 30th parses and has no occurrence: its [Next] is the zero time
    at every instant, which is not after [now]. *)
#[export] Instance never_cron : Cron (λ _, False) (λ _, 0).
Proof. by split. Qed.

Lemma collect_never fuel now due overflow : 0 <= now → collect fuel (λ _, 0) now 0 due overflow = None.
Proof.
  intros Hnow. revert due overflow. induction fuel as [|fuel IH]; intros due overflow; [done|].
  cbn [collect]. unfold After. replace (now <? 0) with false by (symmetry; by apply Z.ltb_ge).
  cbn [negb]. by destruct (_ =? _)%nat.
Qed.

(** An expression with no occurrence at all, whose Next is the zero time, never lets a
    tick return: the zero time is not after any present instant, so the loop of tickOne has
    no bound it can reach, whatever the callbacks do. *)
Theorem tickOne_never_returns_without_an_occurrence {W} fire missed fuel name seen now (w : W) :
  0 <= now → tickOne fire missed fuel (mkEntry name (λ _, 0) seen) now w = None.
Proof. intros Hnow. unfold tickOne. cbn [e_next seenTo]. by rewrite collect_never. Qed.

Lemma tickOne_never_returns_without_an_occurrence_witness :
  tickOne (trace_fire (λ _ _, None)) (Some trace_missed) 1000 (mkEntry "feb-30" (λ _, 0) 0)
    (2025 * 365 * 24 * Hour) [] = None.
Proof.
  apply (tickOne_never_returns_without_an_occurrence (trace_fire (λ _ _, None))
    (Some trace_missed) 1000 "feb-30" 0 (2025 * 365 * 24 * Hour) []).
  unfold Hour, Minute, Second. lia.
Defined.

(** ** The next armed occurrence *)

Lemma next_due_min entries now earliest :
  0 <= now → earliest ≠ 0 → Forall (λ e, e_next e now ≠ 0) entries →
  next_due entries now earliest = foldr Z.min earliest (map (λ e, e_next e now) entries).
Proof.
  intros Hnow He H. revert earliest He.
  induction H as [|e entries Hne H IH]; intros earliest He; simpl; [done|].
  assert (∀ a b l, foldr Z.min (Z.min a b) l = Z.min a (foldr Z.min b l)) as Hmin.
  { clear. intros a b l. induction l as [|x l IHl]; simpl; [done|]. rewrite IHl. lia. }
  unfold IsZero, Before. replace (earliest =? 0) with false by (symmetry; by apply Z.eqb_neq).
  simpl. destruct (Z.ltb_spec (e_next e now) earliest) as [Hlt|Hge].
  - rewrite IH by done. replace (e_next e now) with (Z.min (e_next e now) earliest) at 1 by lia.
    apply Hmin.
  - rewrite IH by done. replace earliest with (Z.min (e_next e now) earliest) at 1 by lia.
    apply Hmin.
Qed.

(** NextDue does not depend on the order the map of entries is walked in, and with at
    least one entry it is the next occurrence of one of them and not later than any other's,
    provided every armed expression has a next occurrence. *)
Theorem NextDue_is_the_earliest entries entries' now :
  0 <= now → Forall (λ e, e_next e now ≠ 0) entries → entries ≡ₚ entries' →
  NextDue entries now = NextDue entries' now ∧
  (entries ≠ [] → (∃ e, e ∈ entries ∧ e_next e now = NextDue entries now) ∧
     ∀ e, e ∈ entries → NextDue entries now <= e_next e now).
Proof.
  intros Hnow Hall Hperm.
  assert (∀ l x, foldr Z.min x l ∈ x :: l ∧ ∀ y, y ∈ x :: l → foldr Z.min x l <= y) as Hf.
  { clear. intros l x. induction l as [|z l [IHin IHle]]; simpl.
    - split; [by left|]. intros y [->|[]%elem_of_nil]%elem_of_cons. done.
    - split.
      + destruct (Z.min_spec z (foldr Z.min x l)) as [[_ ->]|[_ ->]]; [set_solver|].
        set_solver.
      + intros y Hy. assert (y = z ∨ y ∈ x :: l) as [->|Hy'] by set_solver; [lia|].
        specialize (IHle y Hy'). lia. }
  assert (∀ es, Forall (λ e, e_next e now ≠ 0) es → es ≠ [] →
     NextDue es now ∈ map (λ e, e_next e now) es ∧
     ∀ y, y ∈ map (λ e, e_next e now) es → NextDue es now <= y) as Hmin.
  { intros [|e es] Hes Hne; [done|]. unfold NextDue. simpl.
    inversion_clear Hes. rewrite next_due_min by done. apply Hf. }
  split.
  - destruct entries as [|e es], entries' as [|e' es'];
      [done|by apply Permutation_nil_cons in Hperm|
       symmetry in Hperm; by apply Permutation_nil_cons in Hperm|].
    destruct (Hmin (e :: es) Hall) as [Hin Hle]; [done|].
    destruct (Hmin (e' :: es')) as [Hin' Hle']; [by rewrite <- Hperm|done|].
    assert (map (λ e, e_next e now) (e :: es) ≡ₚ map (λ e, e_next e now) (e' :: es')) as Hm
      by (by apply Permutation_map).
    revert Hin' Hle'. generalize (NextDue (e' :: es') now). intros d' Hin' Hle'.
    apply (elem_of_Permutation_proper d' _ _ Hm) in Hin'.
    apply (elem_of_Permutation_proper _ _ _ Hm) in Hin.
    specialize (Hle _ Hin'). specialize (Hle' _ Hin). lia.
  - intros Hne. destruct (Hmin entries Hall Hne) as [Hin Hle]. split.
    + apply list_elem_of_fmap in Hin as (e & -> & He). eauto.
    + intros e He. apply Hle, list_elem_of_fmap. eauto.
Qed.

Lemma NextDue_is_the_earliest_witness :
  NextDue [mkEntry "a" (every 60) 0; mkEntry "b" (every 45) 0] 130 =
    NextDue [mkEntry "b" (every 45) 0; mkEntry "a" (every 60) 0] 130 ∧
  ([mkEntry "a" (every 60) 0; mkEntry "b" (every 45) 0] ≠ [] →
   (∃ e, e ∈ [mkEntry "a" (every 60) 0; mkEntry "b" (every 45) 0] ∧
      e_next e 130 = NextDue [mkEntry "a" (every 60) 0; mkEntry "b" (every 45) 0] 130) ∧
   ∀ e, e ∈ [mkEntry "a" (every 60) 0; mkEntry "b" (every 45) 0] →
     NextDue [mkEntry "a" (every 60) 0; mkEntry "b" (every 45) 0] 130 <= e_next e 130).
Proof.
  apply (NextDue_is_the_earliest [mkEntry "a" (every 60) 0; mkEntry "b" (every 45) 0]
    [mkEntry "b" (every 45) 0; mkEntry "a" (every 60) 0] 130); [lia| |apply perm_swap].
  repeat constructor; done.
Defined.

(** ** The scheduler's loop: [Run] of [src/runtime/internal/schedule/schedule.go], over the clock's
    readings and the way each wait ends. *)

(** One turn of the loop: the reading the tick covers, the reading the wait is measured from, and
    the context's error when the wait ended with the context and not with its timer. *)
Record round := mkRound { r_ticked : Z; r_now : Z; r_done : option gerror }.

(** What the loop leaves: the error it returned, or [None] when the readings end first; the
    errors it logged; how long it waited each time; the entries; the callbacks' world. *)
Record ran (W : Type) := mkRan {
  n_returned : option gerror; n_logged : list (list string); n_waits : list Z;
  n_entries : gmap string entry; n_world : W }.
Arguments mkRan {W}.
Arguments n_returned {W}.
Arguments n_logged {W}.
Arguments n_waits {W}.
Arguments n_entries {W}.
Arguments n_world {W}.

Section run.
Context {W : Type}.
Variable fire : string → Z → W → option string * W.
Variable missed : option (string → Z → string → W → option string * W).

Fixpoint Run (fuel : nat) (rounds : list round) (s : gmap string entry) (w : W) : option (ran W) :=
  match rounds with
  | [] => Some (mkRan None [] [] s w)
  | r :: rounds =>
      match Tick fire missed fuel (r_ticked r) s w with
      | None => None
      | Some (s, problems, w) =>
          let log := match problems with [] => [] | _ => [problems] end in
          let wait := run_wait (map snd (map_to_list s)) (r_ticked r) (r_now r) in
          match r_done r with
          | Some err => Some (mkRan (Some err) log [wait] s w)
          | None =>
              (λ n, mkRan (n_returned n) (log ++ n_logged n) (wait :: n_waits n) (n_entries n) (n_world n))
                <$> Run fuel rounds s w
          end
      end
  end.
End run.

(** The turns up to the one whose wait the context ended. *)
Fixpoint played (rounds : list round) : list round :=
  match rounds with
  | [] => []
  | r :: rounds => r :: match r_done r with Some _ => [] | None => played rounds end
  end.

Lemma played_in rounds r : r ∈ played rounds → r ∈ rounds.
Proof.
  induction rounds as [|r0 rounds IH]; simpl; [done|]. intros [->|H]%elem_of_cons; [by left|right].
  destruct (r_done r0); [by apply elem_of_nil in H|by apply IH].
Qed.

(** ** The window of one tick *)

Fixpoint occurrences (fuel : nat) (next : Z → Z) (now at_ : Z) : list Z :=
  match fuel with
  | O => []
  | S fuel => if at_ <=? now then at_ :: occurrences fuel next now (next at_) else []
  end.

(** The occurrences a tick at [now] meets: each is later than the one before, so that as many
    steps as the window is long are enough. *)
Definition window (e : entry) (now : Z) : list Z :=
  occurrences (Z.to_nat (now - seenTo e)) (e_next e) now (e_next e (seenTo e)).

Definition window_trace (refuses : string → Z → option string) (name : string) (all : list Z) : list event :=
  match last all with None => [] | Some last_ => tick_trace refuses name all last_ end.

Definition advance (now : Z) (e : entry) : entry :=
  mkEntry (e_name e) (e_next e) (match last (window e now) with None => seenTo e | Some _ => now end).

Definition event_name (ev : event) : string := match ev with Fired name _ | Missed name _ _ => name end.

Section entry.
Context (occurs : Z → Prop) (e : entry) `{!Cron occurs (e_next e)}.
(** It occurs again after the instant it was seen to and after the readings up to [top]. *)
Context (top u0 : Z) (Hu0 : occurs u0) (Hseen0 : seenTo e < u0) (Htop0 : top < u0).

Lemma live t : t < u0 → e_next e t ≠ 0.
Proof. intros Ht. by destruct (cron_first (next := e_next e) t u0 Hu0 Ht). Qed.

Lemma occurrences_due fuel now at_ : now <= top → now - at_ < Z.of_nat fuel → due_from (e_next e) now at_ (occurrences fuel (e_next e) now at_).
Proof.
  intros Hnow. revert at_. induction fuel as [|fuel IH]; intros at_ Hf; simpl; [constructor; lia|].
  destruct (Z.leb_spec at_ now); [|by constructor]. constructor; [done|]. apply IH.
  pose proof (cron_after (next := e_next e) at_ (live at_ ltac:(lia))). lia.
Qed.

Lemma window_due now : now <= top → due_from (e_next e) now (e_next e (seenTo e)) (window e now).
Proof.
  intros Hnow. apply occurrences_due; [done|]. pose proof (cron_after (next := e_next e) (seenTo e) (live _ Hseen0)). lia.
Qed.

Lemma elem_of_window now u : now <= top → u ∈ window e now ↔ occurs u ∧ seenTo e < u ∧ u <= now.
Proof.
  intros Hnow. destruct (decide (seenTo e <= now)) as [Hle|Hgt].
  - apply (due_from_window occurs (e_next e) (seenTo e) now (λ t _ Ht, live t ltac:(lia)) (seenTo e) (e_next e (seenTo e)));
      [done|lia|done|by apply window_due].
  - unfold window. replace (Z.to_nat (now - seenTo e)) with 0%nat by lia. simpl.
    split; [by intros ?%elem_of_nil|lia].
Qed.

Lemma window_sorted now : now <= top → StronglySorted Z.lt (window e now).
Proof.
  intros Hnow. destruct (decide (seenTo e <= now)) as [Hle|Hgt].
  - apply (due_from_increasing occurs (e_next e) (seenTo e) now (λ t _ Ht, live t ltac:(lia)) (e_next e (seenTo e))); [|by apply window_due].
    pose proof (cron_after (next := e_next e) (seenTo e) (live _ Hseen0)). lia.
  - unfold window. replace (Z.to_nat (now - seenTo e)) with 0%nat by lia. constructor.
Qed.

Lemma tickOne_window refuses now w fuel : now <= top → (length (window e now) < fuel)%nat →
  tickOne (trace_fire refuses) (Some trace_missed) fuel e now w =
    Some (advance now e, [], w ++ window_trace refuses (e_name e) (window e now)).
Proof.
  intros Hnow Hf. pose proof (collect_due (e_next e) now _ _ [] (window_due now Hnow)) as Hc.
  change (kept []) with (@nil Z) in Hc. rewrite Nat.sub_0_l in Hc. cbn [app] in Hc.
  apply collect_more_fuel with (fuel' := fuel) in Hc; [|lia].
  unfold tickOne. rewrite Hc, last_kept. unfold advance, window_trace.
  destruct (last (window e now)) as [last_|]; [by rewrite fire_due_trace|].
  rewrite app_nil_r. by destruct e.
Qed.

(** What follows a tick's window is the window of what is left. *)
Lemma elem_of_later now last u : now <= top →
  occurs u ∧ seenTo e < u ∧ u <= Z.max now last ↔
    u ∈ window e now ∨ occurs u ∧ seenTo (advance now e) < u ∧ u <= Z.max (seenTo (advance now e)) last.
Proof.
  intros Hnow. rewrite elem_of_window by done. unfold advance. cbn [seenTo]. destruct (list.last (window e now)) as [last_|] eqn:El.
  - apply last_Some in El as [l Hl]. assert (last_ ∈ window e now) as Hin by (rewrite Hl; set_solver).
    apply elem_of_window in Hin; [|done]. split.
    + intros (Ho & ? & ?). destruct (decide (u <= now)); [left|right]; split_and!; done || lia.
    + intros [(Ho & ? & ?)|(Ho & ? & ?)]; split_and!; done || lia.
  - split.
    + intros (Ho & ? & ?). destruct (decide (u <= now)); [left|right]; split_and!; done || lia.
    + intros [(Ho & ? & ?)|(Ho & ? & ?)]; split_and!; done || lia.
Qed.
End entry.

(** It occurs again, after the instant it was seen to and after the instant [top]. *)
Definition recurs (occurs : Z → Prop) (e : entry) (top : Z) : Prop := ∃ u, occurs u ∧ seenTo e < u ∧ top < u.

(** ** A tick of the whole scheduler *)

Definition well_named (s : gmap string entry) : Prop := map_Forall (λ name e, e_name e = name) s.

(** Every schedule's [Next] is what the parser documents. *)
Definition scheduled (occurs : string → Z → Prop) (s : gmap string entry) : Prop :=
  map_Forall (λ name e, Cron (occurs name) (e_next e)) s.

(** Every schedule occurs again after [top]. *)
Definition recurring (occurs : string → Z → Prop) (s : gmap string entry) (top : Z) : Prop :=
  map_Forall (λ name e, recurs (occurs name) e top) s.

Definition in_order (s : gmap string entry) : list entry := omap (λ name, s !! name) (Names s).

Lemma elem_of_in_order s e : well_named s → e ∈ in_order s ↔ s !! e_name e = Some e.
Proof.
  intros Hw. unfold in_order, Names. rewrite list_elem_of_omap. split.
  - intros (name & _ & He). by rewrite (Hw _ _ He).
  - intros He. exists (e_name e). split; [|done]. apply elem_of_sort_strings, list_elem_of_fmap.
    exists (e_name e, e). split; [done|]. by apply elem_of_map_to_list.
Qed.

Lemma in_order_names s : well_named s → map e_name (in_order s) = Names s.
Proof.
  intros Hw. unfold in_order. assert (∀ name, name ∈ Names s → ∃ e, s !! name = Some e) as Hin.
  { intros name. unfold Names. rewrite elem_of_sort_strings, list_elem_of_fmap. intros ([n e] & -> & H).
    exists e. by apply elem_of_map_to_list. }
  induction (Names s) as [|name names IH]; [done|]. destruct (Hin name) as [e He]; [by left|].
  cbn [omap list_omap]. rewrite He. cbn [map]. f_equal; [by apply Hw|]. apply IH. intros n Hn. apply Hin. by right.
Qed.

Lemma in_order_NoDup s : well_named s → NoDup (map e_name (in_order s)).
Proof.
  intros Hw. rewrite in_order_names by done. apply sort_strings_NoDup. apply (NoDup_fst_map_to_list s).
Qed.

Lemma written_back (es : list entry) : NoDup (map e_name es) → ∀ (s : gmap string entry) name,
  (∀ e, e ∈ es → e_name e = name → foldl (λ s e, <[e_name e := e]> s) s es !! name = Some e) ∧
  (name ∉ map e_name es → foldl (λ s e, <[e_name e := e]> s) s es !! name = s !! name).
Proof.
  induction es as [|e es IH]; intros Hnd s name; cbn [map foldl]; [split; [by intros e ?%elem_of_nil|done]|].
  cbn [map] in Hnd. apply NoDup_cons in Hnd as [Hne Hnd]. destruct (IH Hnd (<[e_name e:=e]> s) name) as [H1 H2]. split.
  - intros e' [->|He]%elem_of_cons Hn; [|by apply H1]. subst. rewrite H2 by done. by rewrite lookup_insert_eq.
  - intros [Hn Hnot]%not_elem_of_cons. rewrite H2 by done. by rewrite lookup_insert_ne.
Qed.

Lemma list_filter_all {A} (P : A → Prop) `{!∀ x, Decision (P x)} l : Forall P l → filter P l = l.
Proof. induction 1 as [|x l Hx _ IH]; [done|]. rewrite filter_cons_True by done. by rewrite IH. Qed.

Lemma list_filter_none {A} (P : A → Prop) `{!∀ x, Decision (P x)} l : Forall (λ x, ¬ P x) l → filter P l = [].
Proof. induction 1 as [|x l Hx _ IH]; [done|]. by rewrite filter_cons_False. Qed.

Section tick.
Context (refuses : string → Z → option string) (occurs : string → Z → Prop).

Definition trace_of_entry (now : Z) (e : entry) : list event := window_trace refuses (e_name e) (window e now).

Lemma tick_entries_trace now fuel es : ∀ w,
  Forall (λ e, (∃ occurs, Cron occurs (e_next e) ∧ recurs occurs e now) ∧ (length (window e now) < fuel)%nat) es →
  tick_entries (trace_fire refuses) (Some trace_missed) fuel es now w =
    Some (map (advance now) es, [], w ++ concat (map (trace_of_entry now) es)).
Proof.
  induction es as [|e es IH]; intros w H; simpl; [by rewrite app_nil_r|].
  apply Forall_cons in H as [[(o & Ho & u & Hu & Hs & Ht) Hf] H].
  rewrite (tickOne_window o e now u) by done. rewrite IH by done. simpl. by rewrite app_assoc.
Qed.

Lemma window_trace_named name all : Forall (λ ev, event_name ev = name) (window_trace refuses name all).
Proof.
  unfold window_trace. destruct (last all) as [last_|]; [|constructor]. unfold tick_trace.
  repeat (apply Forall_app; split).
  - by apply Forall_fmap, Forall_true.
  - by case_match; repeat constructor.
  - by repeat constructor.
  - by case_match; repeat constructor.
Qed.

Definition of_name (name : string) (tr : list event) : list event := filter (λ ev, event_name ev = name) tr.

Lemma of_name_traces now name es : NoDup (map e_name es) →
  (∀ e, e ∈ es → e_name e = name → of_name name (concat (map (trace_of_entry now) es)) = trace_of_entry now e) ∧
  (name ∉ map e_name es → of_name name (concat (map (trace_of_entry now) es)) = []).
Proof.
  unfold of_name. induction es as [|e es IH]; intros Hnd; cbn [map concat].
  { split; [by intros e ?%elem_of_nil|done]. }
  cbn [map] in Hnd. apply NoDup_cons in Hnd as [Hne Hnd]. destruct (IH Hnd) as [H1 H2]. rewrite filter_app.
  pose proof (window_trace_named (e_name e) (window e now)) as Hw. fold (trace_of_entry now e) in Hw. split.
  - intros e' [->|He]%elem_of_cons Hn.
    + subst. rewrite H2, app_nil_r by done. by apply list_filter_all.
    + rewrite (H1 _ He Hn). rewrite (list_filter_none _ (trace_of_entry now e)); [done|].
      eapply Forall_impl; [done|]. simpl. intros ev -> Heq. apply Hne. rewrite Heq, <- Hn.
      apply list_elem_of_fmap. eauto.
  - intros [Hn Hnot]%not_elem_of_cons. rewrite H2, app_nil_r by done. apply list_filter_none.
    eapply Forall_impl; [done|]. simpl. congruence.
Qed.

Lemma Tick_trace s now fuel w : well_named s → scheduled occurs s → recurring occurs s now →
  map_Forall (λ _ e, (length (window e now) < fuel)%nat) s →
  ∃ tr, Tick (trace_fire refuses) (Some trace_missed) fuel now s w = Some (advance now <$> s, [], w ++ tr) ∧
    (∀ name e, s !! name = Some e → of_name name tr = trace_of_entry now e).
Proof.
  intros Hw Hs Hrec Hf. unfold Tick. fold (in_order s). rewrite tick_entries_trace.
  2: { apply Forall_forall. intros e He%elem_of_in_order; [|done]. split; [|by apply (Hf _ _ He)].
       exists (occurs (e_name e)). split; [by apply Hs|by apply Hrec]. }
  eexists. split; [|].
  2: { intros name e He. apply (of_name_traces now name _ (in_order_NoDup s Hw)); [|by apply Hw].
       apply elem_of_in_order; [done|]. by rewrite (Hw _ _ He). }
  f_equal. f_equal. f_equal. apply map_eq. intros name. rewrite lookup_fmap.
  assert (map e_name (map (advance now) (in_order s)) = map e_name (in_order s)) as Hn by (by rewrite map_map).
  assert (NoDup (map e_name (map (advance now) (in_order s)))) as Hnd by (rewrite Hn; by apply in_order_NoDup).
  destruct (written_back _ Hnd s name) as [H1 H2]. destruct (s !! name) as [e|] eqn:E.
  - rewrite (H1 (advance now e)); [done| |simpl; by apply Hw].
    apply list_elem_of_fmap. exists e. split; [done|]. apply elem_of_in_order; [done|]. by rewrite (Hw _ _ E).
  - rewrite H2; [done|]. rewrite Hn. intros (e & -> & He)%list_elem_of_fmap.
    apply elem_of_in_order in He; [|done]. congruence.
Qed.
End tick.

(** ** The loop *)

Lemma window_bound now (s : gmap string entry) : ∃ b, map_Forall (λ _ e, (length (window e now) < b)%nat) s.
Proof.
  induction s as [|name e s Hn [b Hb]] using map_ind; [exists 0%nat; by apply map_Forall_empty|].
  exists (S (Nat.max b (length (window e now)))). apply map_Forall_insert_2; [lia|].
  eapply map_Forall_impl; [done|]. simpl. lia.
Qed.

Lemma well_named_advance now s : well_named s → well_named (advance now <$> s).
Proof. intros Hw name e. rewrite lookup_fmap. destruct (s !! name) eqn:E; [|done]. intros [= <-]. exact (Hw _ _ E). Qed.

Lemma scheduled_advance occurs now s : scheduled occurs s → scheduled occurs (advance now <$> s).
Proof. intros Hw name e. rewrite lookup_fmap. destruct (s !! name) eqn:E; [|done]. intros [= <-]. exact (Hw _ _ E). Qed.

(** The wait is at least a second, and otherwise ends by the next occurrence of any schedule. *)
Definition waits_in_time (occurs : string → Z → Prop) (s : gmap string entry) (r : round) (wait : Z) : Prop :=
  Second <= wait ∧
  ∀ name e u, s !! name = Some e → occurs name u → r_ticked r < u → wait <= Z.max Second (u - r_now r).

Lemma recurring_next occurs s top name e : scheduled occurs s → recurring occurs s top → s !! name = Some e → e_next e top ≠ 0.
Proof.
  intros Hs Hrec He. destruct (Hrec _ _ He) as (u & Ho & _ & Hu). pose proof (Hs _ _ He : Cron _ _) as Hc.
  by destruct (cron_first (next := e_next e) top u Ho Hu).
Qed.

Lemma run_wait_in_time occurs s r : scheduled occurs s → recurring occurs s (r_ticked r) → 0 <= r_ticked r →
  waits_in_time occurs s r (run_wait (map snd (map_to_list s)) (r_ticked r) (r_now r)).
Proof.
  intros Hs Hrec Ht. set (es := map snd (map_to_list s)).
  assert (∀ e, e ∈ es → ∃ name, s !! name = Some e) as Hes.
  { intros e ([name e'] & -> & H)%list_elem_of_fmap. exists name. by apply elem_of_map_to_list. }
  destruct (NextDue_is_the_earliest es es (r_ticked r) Ht) as [_ Hmin]; [|done|].
  { apply Forall_forall. intros e He. destruct (Hes e He) as [name Hn]. by eapply recurring_next. }
  split.
  - unfold run_wait. destruct (Z.ltb_spec (if IsZero (NextDue es (r_ticked r)) then Minute else
      time_sub (NextDue es (r_ticked r)) (r_now r)) Second); lia.
  - intros name e u He Ho Hu. pose proof (Hs _ _ He : Cron _ _) as Hc.
    assert (e ∈ es) as Hin by (apply list_elem_of_fmap; exists (name, e); split; [done|]; by apply elem_of_map_to_list).
    destruct Hmin as [(e0 & He0 & Heq) Hle]; [by intros Hnil; rewrite Hnil in Hin; apply elem_of_nil in Hin|].
    destruct (Hes e0 He0) as [name0 Hn0]. pose proof (recurring_next occurs s (r_ticked r) name0 e0 Hs Hrec Hn0) as Hne. rewrite Heq in Hne.
    specialize (Hle e Hin). destruct (cron_first (next := e_next e) (r_ticked r) u Ho Hu) as [_ Hfirst].
    unfold run_wait, IsZero. replace (NextDue es (r_ticked r) =? 0) with false by (symmetry; by apply Z.eqb_neq).
    unfold time_sub. destruct (Z.ltb_spec (Z.max i64_min (Z.min i64_max (NextDue es (r_ticked r) - r_now r))) Second); [lia|].
    unfold i64_min, i64_max, Second in *. lia.
Qed.

Definition latest (from : Z) (rounds : list round) : Z := foldr Z.max from (map r_ticked rounds).

Lemma latest_ge from rounds : from <= latest from rounds.
Proof. unfold latest. induction rounds; simpl; lia. Qed.

Lemma latest_max from from' rounds : Z.max from' (latest from rounds) = Z.max from (Z.max from' (latest from' rounds)).
Proof. unfold latest. induction rounds; simpl; lia. Qed.

(** What the loop does of one schedule: a window to each turn. *)
Definition handled (refuses : string → Z → option string) (occurs : Z → Prop) (e : entry) (rounds : list round) (tr : list event) : Prop :=
  ∃ windows : list (list Z), length windows = length rounds ∧
    tr = concat (map (window_trace refuses (e_name e)) windows) ∧
    StronglySorted Z.lt (concat windows) ∧
    ∀ u, u ∈ concat windows ↔ occurs u ∧ seenTo e < u ∧ u <= latest (seenTo e) rounds.

Lemma handled_step refuses occurs e `{!Cron occurs (e_next e)} r rounds tr : recurs occurs e (r_ticked r) →
  handled refuses occurs (advance (r_ticked r) e) rounds tr →
  handled refuses occurs e (r :: rounds) (trace_of_entry refuses (r_ticked r) e ++ tr).
Proof.
  intros (v & Ho & Hsv & Htv) (windows & Hlen & -> & Hsort & Hin). exists (window e (r_ticked r) :: windows).
  assert (latest (seenTo e) (r :: rounds) = Z.max (r_ticked r) (latest (seenTo e) rounds)) as Hlat by done.
  assert (∀ u, u ∈ window e (r_ticked r) ++ concat windows ↔ occurs u ∧ seenTo e < u ∧ u <= latest (seenTo e) (r :: rounds)) as Hall.
  { intros u. rewrite elem_of_app, Hin, Hlat, (elem_of_later occurs e (r_ticked r) v) by done. unfold advance. cbn [seenTo].
    assert (seenTo e <= r_ticked r ∨ window e (r_ticked r) = []) as Hcase.
    { destruct (window e (r_ticked r)) as [|x l] eqn:E; [by right|left].
      assert (x ∈ window e (r_ticked r)) as Hx by (rewrite E; by left). apply (elem_of_window occurs e (r_ticked r) v) in Hx; [lia|done..]. }
    pose proof (latest_max (seenTo e) (r_ticked r) rounds) as Hm. pose proof (latest_ge (seenTo e) rounds) as Hg.
    pose proof (latest_ge (r_ticked r) rounds) as Hg'.
    destruct (last (window e (r_ticked r))) as [x|] eqn:El.
    - destruct Hcase as [Hle|Hnil]; [|rewrite Hnil in El; done].
      replace (Z.max (r_ticked r) (latest (seenTo e) rounds)) with (latest (r_ticked r) rounds) by lia. done.
    - replace (Z.max (seenTo e) (latest (seenTo e) rounds)) with (latest (seenTo e) rounds) by lia. done. }
  split; [simpl; lia|]. split; [done|]. split; [|exact Hall]. cbn [concat]. apply StronglySorted_app_2; [|by apply (window_sorted occurs e (r_ticked r) v)|done].
  intros x y Hx Hy. apply (elem_of_window occurs e (r_ticked r) v) in Hx as Hx'; [|done..]. apply Hin in Hy. revert Hy. unfold advance. cbn [seenTo].
  destruct (last (window e (r_ticked r))) as [z|] eqn:El; [lia|]. apply last_None in El. rewrite El in Hx. by apply elem_of_nil in Hx.
Qed.

(** What the loop leaves of its turns, the callbacks having been called as [tr] says. *)
Definition well_run (refuses : string → Z → option string) (occurs : string → Z → Prop) (s : gmap string entry)
    (turns : list round) (n : ran (list event)) (tr : list event) : Prop :=
  n_returned n = (last turns ≫= r_done) ∧ n_logged n = [] ∧
  (∀ name e, s !! name = Some e → handled refuses (occurs name) e turns (of_name name tr)) ∧
  Forall2 (waits_in_time occurs s) turns (n_waits n).

Lemma handled_nothing refuses occurs e : handled refuses occurs e [] [].
Proof.
  exists []. split_and!; [done|done|constructor|]. intros u. unfold latest. simpl. split; [by intros ?%elem_of_nil|lia].
Qed.

Lemma well_run_nothing refuses occurs s s' (w : list event) : well_run refuses occurs s [] (mkRan None [] [] s' w) [].
Proof. split; [done|]. split; [done|]. split; [|constructor]. intros name e _. apply handled_nothing. Qed.

(** A turn before the turns of what its tick leaves. *)
Lemma well_run_turn refuses occurs s r turns n tr wait tr' :
  scheduled occurs s → recurring occurs s (r_ticked r) → (∀ name e, s !! name = Some e → of_name name tr = trace_of_entry refuses (r_ticked r) e) →
  waits_in_time occurs (advance (r_ticked r) <$> s) r wait → (turns = [] ∨ r_done r = None) →
  well_run refuses occurs (advance (r_ticked r) <$> s) turns n tr' →
  well_run refuses occurs s (r :: turns)
    (mkRan (match turns with [] => r_done r | _ => n_returned n end) [] (wait :: n_waits n) (n_entries n) (n_world n)) (tr ++ tr').
Proof.
  intros Hs Hrec Htr Hwait Hdone (Hret & _ & Hh & Hws).
  assert (∀ r' wait, waits_in_time occurs (advance (r_ticked r) <$> s) r' wait → waits_in_time occurs s r' wait) as Hin.
  { intros r' x [H1 H2]. split; [done|]. intros name e u He. apply (H2 name (advance (r_ticked r) e)). by rewrite lookup_fmap, He. }
  split; [|split; [done|split]]; cbn [n_returned n_logged n_waits].
  - rewrite Hret. by destruct turns.
  - intros name e He. unfold of_name. rewrite filter_app. fold (of_name name tr). rewrite (Htr _ _ He).
    apply (handled_step refuses (occurs name)); [by apply Hs|by apply Hrec|]. apply Hh. by rewrite lookup_fmap, He.
  - constructor; [by apply Hin|]. eapply Forall2_impl; [done|]. exact Hin.
Qed.

Lemma recurring_turn occurs s r rounds :
  map_Forall (λ name e, ∃ u, occurs name u ∧ latest (seenTo e) (r :: rounds) < u) s →
  recurring occurs s (r_ticked r) ∧ recurring occurs (advance (r_ticked r) <$> s) (r_ticked r) ∧
  map_Forall (λ name e, ∃ u, occurs name u ∧ latest (seenTo e) rounds < u) (advance (r_ticked r) <$> s).
Proof.
  intros Hu. assert (∀ name e, s !! name = Some e → ∃ u, occurs name u ∧ seenTo e < u ∧ r_ticked r < u ∧
    seenTo (advance (r_ticked r) e) < u ∧ latest (seenTo (advance (r_ticked r) e)) rounds < u) as Hall.
  { intros name e He. destruct (Hu _ _ He) as (u & Ho & Hl). exists u.
    change (latest (seenTo e) (r :: rounds)) with (Z.max (r_ticked r) (latest (seenTo e) rounds)) in Hl.
    pose proof (latest_ge (seenTo e) rounds). pose proof (latest_max (seenTo e) (r_ticked r) rounds).
    unfold advance. cbn [seenTo]. destruct (last _); split_and!; done || lia. }
  split_and!; intros name e; rewrite ?lookup_fmap.
  - intros He. destruct (Hall _ _ He) as (u & ? & ? & ? & _). by exists u.
  - destruct (s !! name) as [e0|] eqn:He; intros [= <-]. destruct (Hall _ _ He) as (u & ? & _ & ? & ? & _). by exists u.
  - destruct (s !! name) as [e0|] eqn:He; intros [= <-]. destruct (Hall _ _ He) as (u & ? & _ & _ & _ & ?). by exists u.
Qed.

Lemma Run_trace refuses occurs rounds : ∀ s, well_named s → scheduled occurs s →
  map_Forall (λ name e, ∃ u, occurs name u ∧ latest (seenTo e) rounds < u) s → Forall (λ r, 0 <= r_ticked r) rounds →
  ∃ fuel0, ∀ fuel w, (fuel0 <= fuel)%nat → ∃ n tr,
    Run (trace_fire refuses) (Some trace_missed) fuel rounds s w = Some n ∧ n_world n = w ++ tr ∧
    well_run refuses occurs s (played rounds) n tr.
Proof.
  induction rounds as [|r rounds IH]; intros s Hw Hs Hu Hr; cbn [Run played].
  { exists 0%nat. intros fuel w _. exists (mkRan None [] [] s w), []. rewrite app_nil_r.
    split; [done|]. split; [done|]. apply well_run_nothing. }
  apply Forall_cons in Hr as [Hr0 Hr]. destruct (window_bound (r_ticked r) s) as [b Hb].
  set (s' := advance (r_ticked r) <$> s).
  assert (scheduled occurs s') as Hs' by by apply scheduled_advance.
  destruct (recurring_turn occurs s r rounds Hu) as (Hrec & Hrec' & Hu').
  destruct (IH s') as [fuel0 Hrest]; [by apply well_named_advance|done..|].
  exists (Nat.max b fuel0). intros fuel w Hf.
  destruct (Tick_trace refuses occurs s (r_ticked r) fuel w Hw Hs Hrec) as (tr & HT & Hn).
  { eapply map_Forall_impl; [exact Hb|]. simpl. lia. }
  fold s' in HT. rewrite HT. cbv zeta beta iota. pose proof (run_wait_in_time occurs s' r Hs' Hrec' Hr0) as Hwait.
  destruct (r_done r) as [err|] eqn:Hd.
  - eexists _, tr. split; [reflexivity|]. split; [done|]. rewrite <- (app_nil_r tr), <- Hd.
    apply (well_run_turn refuses occurs s r [] (mkRan None [] [] s' (w ++ tr))); [done|done|exact Hn|done|by left|].
    apply well_run_nothing.
  - destruct (Hrest fuel (w ++ tr)) as (n & tr' & HR & Hnw & Hwell); [lia|].
    rewrite HR. eexists _, (tr ++ tr'). split; [reflexivity|]. split; [cbn [n_world]; by rewrite Hnw, app_assoc|].
    replace (n_returned n) with (match played rounds with [] => r_done r | _ => n_returned n end).
    + destruct Hwell as (H1 & H2 & H3). cbn [app]. rewrite H2. apply (well_run_turn refuses occurs s r (played rounds) n); [done|done|exact Hn|done|by right|exact (conj H1 (conj H2 H3))].
    + destruct Hwell as (H1 & _). rewrite Hd, H1. by destruct (played rounds).
Qed.

(** ** A schedule that has run out *)

Section exhausted.
Context {W : Type} (fire : string → Z → W → option string * W).
Context (missed : option (string → Z → string → W → option string * W)).

Lemma collect_exhausted occurs next `{!Cron occurs next} now : 0 <= now → (∀ u, occurs u → u <= now) →
  ∀ fuel t due overflow, collect fuel next now (next t) due overflow = None.
Proof.
  intros Hnow Hout. induction fuel as [|fuel IH]; intros t due overflow; [done|]. cbn [collect].
  assert (next t <= now) as Hle.
  { destruct (decide (next t = 0)) as [->|Hne]; [done|]. by apply Hout, cron_occurs. }
  unfold After. replace (now <? next t) with false by (symmetry; by apply Z.ltb_ge). cbn [negb].
  destruct (_ =? _)%nat; apply IH.
Qed.

Lemma tick_entries_exhausted fuel e now es : e ∈ es → (∀ w, tickOne fire missed fuel e now w = None) →
  ∀ w, tick_entries fire missed fuel es now w = None.
Proof.
  intros He Hout. induction He as [e es|e e' es He IH]; intros w; simpl; [by rewrite Hout|].
  destruct (tickOne _ _ _ e' _ _) as [[[? ?] w']|]; [|done]. by rewrite IH.
Qed.

Lemma tickOne_same fuel e now w e' problems w' : tickOne fire missed fuel e now w = Some (e', problems, w') →
  e_name e' = e_name e ∧ e_next e' = e_next e.
Proof.
  unfold tickOne. destruct (collect _ _ _ _ _ _) as [[due o]|]; [|done]. destruct (last due); [|by intros [= <- _ _]].
  destruct (fire_due _ _ _ _ _ _ _) as [? ?]. by intros [= <- _ _].
Qed.

Lemma tick_entries_same fuel now es : ∀ w es' problems w', tick_entries fire missed fuel es now w = Some (es', problems, w') →
  Forall2 (λ e e', e_name e' = e_name e ∧ e_next e' = e_next e) es es'.
Proof.
  induction es as [|e es IH]; intros w es' problems w'; simpl; [by intros [= <- _ _]|].
  destruct (tickOne _ _ _ _ _ _) as [[[e' ?] w1]|] eqn:E; [|done]. apply tickOne_same in E.
  destruct (tick_entries _ _ _ _ _ _) as [[[es1 ?] w2]|] eqn:Es; [|done]. intros [= <- _ _]. constructor; [done|by eapply IH].
Qed.

Lemma Tick_same fuel now s w s' problems w' name e : well_named s → Tick fire missed fuel now s w = Some (s', problems, w') →
  s !! name = Some e → well_named s' ∧ ∃ e', s' !! name = Some e' ∧ e_next e' = e_next e.
Proof.
  intros Hw. unfold Tick. fold (in_order s). destruct (tick_entries _ _ _ _ _ _) as [[[es ?] w1]|] eqn:Es; [|done].
  intros [= <- _ _] He. apply tick_entries_same in Es.
  assert (map e_name es = map e_name (in_order s)) as Hn.
  { clear -Es. induction Es as [|x y l k [Hxy _] _ IH]; [done|]. simpl. by rewrite Hxy, IH. }
  assert (NoDup (map e_name es)) as Hnd by (rewrite Hn; by apply in_order_NoDup). split.
  - intros n x Hx. destruct (written_back es Hnd s n) as [H1 H2]. destruct (decide (n ∈ map e_name es)) as [Hin|Hout].
    + apply list_elem_of_fmap in Hin as (y & -> & Hy). rewrite (H1 y Hy eq_refl) in Hx. by injection Hx as ->.
    + rewrite H2 in Hx by done. by apply Hw.
  - assert (e ∈ in_order s) as Hin by (apply elem_of_in_order; [done|]; by rewrite (Hw _ _ He)).
    apply list_elem_of_lookup in Hin as [i Hi]. destruct (Forall2_lookup_l _ _ _ _ _ Es Hi) as (e' & Hi' & Hne & Hnx).
    exists e'. split; [|done]. apply (proj1 (written_back es Hnd s name)); [by eapply list_elem_of_lookup_2|].
    by rewrite Hne, (Hw _ _ He).
Qed.

Lemma Run_exhausted occurs name r fuel rounds : r ∈ played rounds → 0 <= r_ticked r → (∀ u, occurs u → u <= r_ticked r) →
  ∀ s w e, well_named s → s !! name = Some e → Cron occurs (e_next e) → Run fire missed fuel rounds s w = None.
Proof.
  intros Hr Hr0 Hout. induction rounds as [|r0 rounds IH]; intros s w e Hw He Hc; cbn [played] in Hr; [by apply elem_of_nil in Hr|].
  cbn [Run]. apply elem_of_cons in Hr as [<-|Hr].
  - unfold Tick. fold (in_order s). rewrite (tick_entries_exhausted fuel e); [done| |].
    + apply elem_of_in_order; [done|]. by rewrite (Hw _ _ He).
    + intros w'. unfold tickOne. by rewrite (collect_exhausted occurs).
  - destruct (Tick _ _ _ _ _ _) as [[[s' problems] w']|] eqn:E; [|done].
    destruct (Tick_same _ _ _ _ _ _ _ _ _ Hw E He) as (Hw' & e' & He' & Hn). cbv zeta beta iota.
    destruct (r_done r0); [by apply elem_of_nil in Hr|]. rewrite (IH Hr s' w' e'); [done..|by rewrite Hn].
Qed.
End exhausted.

(** C31: Over the whole life of the loop every occurrence of every armed schedule is handled once,
    as long as no schedule runs out: where every armed expression occurs again after the instant
    it was armed from and after every reading of the clock, however the waits end, the
    occurrences the callbacks are told of one playbook are cut into one window per turn, whose
    concatenation is, in order and without repetition, every occurrence after the instant it was
    armed from and not after the latest reading; of each window the last is fired and the others
    are recorded missed, up to the catch-up limit one by one.  The loop returns the error of the
    context that ends it, logs nothing while the record takes what it is given, and after each
    tick it waits a second, or longer but never past the next occurrence of any schedule.  And
    where one armed expression has no occurrence after a turn's reading (a 30 February), that turn
    never ends, whatever the others are. *)
Theorem Run_handles_every_occurrence_once refuses occurs s rounds :
  well_named s → scheduled occurs s → Forall (λ r, 0 <= r_ticked r) rounds →
  (map_Forall (λ name e, ∃ u, occurs name u ∧ latest (seenTo e) rounds < u) s →
   ∃ fuel0, ∀ fuel, (fuel0 <= fuel)%nat → ∃ n,
    Run (trace_fire refuses) (Some trace_missed) fuel rounds s [] = Some n ∧
    n_returned n = (last (played rounds) ≫= r_done) ∧ n_logged n = [] ∧
    (∀ name e, s !! name = Some e → ∃ windows : list (list Z), length windows = length (played rounds) ∧
       filter (λ ev, event_name ev = name) (n_world n) = concat (map (window_trace refuses name) windows) ∧
       StronglySorted Z.lt (concat windows) ∧
       ∀ u, u ∈ concat windows ↔ occurs name u ∧ seenTo e < u ∧ u <= latest (seenTo e) (played rounds)) ∧
    Forall2 (waits_in_time occurs s) (played rounds) (n_waits n)) ∧
  (∀ name e r, s !! name = Some e → r ∈ played rounds → (∀ u, occurs name u → u <= r_ticked r) →
   ∀ fuel, Run (trace_fire refuses) (Some trace_missed) fuel rounds s [] = None).
Proof.
  intros Hw Hs Hr. split.
  - intros Hu. destruct (Run_trace refuses occurs rounds s Hw Hs Hu Hr) as [fuel0 H]. exists fuel0. intros fuel Hf.
    destruct (H fuel [] Hf) as (n & tr & HR & Hnw & Hret & Hlog & Hh & Hws). exists n. do 3 (split; [done|]). split; [|done].
    intros name e He. rewrite Hnw. destruct (Hh name e He) as (windows & Hl & Htr & Hrest). exists windows.
    split; [done|]. split; [|done]. rewrite (Hw _ _ He) in Htr. exact Htr.
  - intros name e r He Hin Hout fuel. eapply (Run_exhausted _ _ (occurs name)); [done| |done|done|done|by apply Hs].
    rewrite Forall_forall in Hr. apply Hr. by apply played_in.
Qed.

(** Two schedules over three turns of the loop; the second tick comes late. *)
Definition two_schedules : gmap string entry :=
  Add "backup" (every 60) 0 (Add "nightly" (every 45) 0 ∅).
Definition three_turns : list round :=
  [mkRound 60 61 None; mkRound 200 200 None; mkRound 225 226 (Some (Sentinel "context canceled"))].

Definition armed_at (name : string) (u : Z) : Prop :=
  if String.eqb name "backup" then u mod 60 = 0 ∧ 0 < u else if String.eqb name "nightly" then u mod 45 = 0 ∧ 0 < u else False.

(** And the same two beside an expression that never occurs. *)
Lemma Run_handles_every_occurrence_once_witness :
  (∃ fuel n, Run (trace_fire (λ _ _, None)) (Some trace_missed) fuel three_turns two_schedules [] = Some n ∧
    n_returned n = Some (Sentinel "context canceled") ∧
    ∃ windows : list (list Z), length windows = 3%nat ∧
      filter (λ ev, event_name ev = "backup") (n_world n) = concat (map (window_trace (λ _ _, None) "backup") windows) ∧
      ∀ u, u ∈ concat windows ↔ (u mod 60 = 0 ∧ 0 < u) ∧ 0 < u ∧ u <= 225) ∧
  (∀ fuel, Run (trace_fire (λ _ _, None)) (Some trace_missed) fuel three_turns (Add "yearly" (λ _, 0) 0 two_schedules) [] = None).
Proof.
  assert (Forall (λ r, 0 <= r_ticked r) three_turns) as Hr by (repeat constructor; simpl; lia). split.
  - destruct (Run_handles_every_occurrence_once (λ _ _, None) armed_at two_schedules three_turns) as [H _]; [..|exact Hr|].
    + intros name e. unfold two_schedules, Add. rewrite !lookup_insert_Some, lookup_empty. by intros [[<- <-]|[_ [[<- <-]|[_ [=]]]]].
    + intros name e. unfold two_schedules, Add. rewrite !lookup_insert_Some, lookup_empty.
      intros [[<- <-]|[_ [[<- <-]|[_ [=]]]]]; apply every_cron; by constructor.
    + destruct H as [fuel0 H].
      { intros name e. unfold two_schedules, Add. rewrite !lookup_insert_Some, lookup_empty.
        intros [[<- <-]|[_ [[<- <-]|[_ [=]]]]]; [exists 240|exists 270]; by split. }
      destruct (H fuel0 (le_n _)) as (n & HR & Hret & _ & Hh & _). exists fuel0, n. split; [exact HR|]. split; [exact Hret|].
      destruct (Hh "backup" (mkEntry "backup" (every 60) 0)) as (windows & Hl & Htr & _ & Hin); [reflexivity|].
      exists windows. split; [exact Hl|]. split; [exact Htr|]. exact Hin.
  - destruct (Run_handles_every_occurrence_once (λ _ _, None) armed_at (Add "yearly" (λ _, 0) 0 two_schedules) three_turns)
      as [_ H]; [..|exact Hr|].
    + intros name e. unfold two_schedules, Add. rewrite !lookup_insert_Some, lookup_empty. by intros [[<- <-]|[_ [[<- <-]|[_ [[<- <-]|[_ [=]]]]]]].
    + intros name e. unfold two_schedules, Add. rewrite !lookup_insert_Some, lookup_empty.
      intros [[<- <-]|[_ [[<- <-]|[_ [[<- <-]|[_ [=]]]]]]]; [exact never_cron|apply every_cron; by constructor..].
    + apply (H "yearly" (mkEntry "yearly" (λ _, 0) 0) (mkRound 60 61 None)); [reflexivity|by left|by intros u []].
Defined.
