(* ===== verification/Playbook.v ===== *)
(** The playbook's typed shape and what its fields mean:
    [playbook.go] of [src/runtime/internal/playbook]. *)
From S2P Require Import Prelude GoStr GoTime GoPath.

(** ** Values of the type [any]

    The dynamic types the decoders produce: [json.Number] keeps the literal the sender wrote,
    [AInt] is a YAML integer, and a YAML mapping below a sink decodes into the named map type
    [Sink], which a type switch tells from a plain map.  A map is its entries, each key
    once. *)
Inductive any :=
| ANil
| ABool (b : bool)
| ANumber (literal : string)
| AInt (z : Z)
| AString (s : string)
| AList (items : list any)
| AMap (entries : list (string * any))
| ASink (entries : list (string * any)).

Fixpoint assoc {A} (key : string) (l : list (string * A)) : option A :=
  match l with
  | [] => None
  | (k, v) :: l => if String.eqb k key then Some v else assoc key l
  end.

Lemma assoc_elem_of {A} key (l : list (string * A)) v : assoc key l = Some v → (key, v) ∈ l.
Proof.
  induction l as [|[k w] l IH]; simpl; [done|].
  destruct (String.eqb k key) eqn:E; bool_facts; intros H; [|right; auto].
  simplify_eq. left.
Qed.

(** [%T] *)
Definition type_name (v : any) : string :=
  match v with
  | ANil => "<nil>"
  | ABool _ => "bool"
  | ANumber _ => "json.Number"
  | AInt _ => "int"
  | AString _ => "string"
  | AList _ => "[]interface {}"
  | AMap _ => "map[string]interface {}"
  | ASink _ => "playbook.Sink"
  end.

(** ** The document *)

Record TriggerValue := mkTriggerValue { At : string; Pattern : string; MaxLength : Z }.

Record Trigger := mkTrigger {
  t_Type : string; t_Schedule : string; t_Source : string; t_Values : gmap string TriggerValue }.

Record Step := mkStep { Run : string; As : string }.

Record Agent := mkAgent {
  Model : string; PromptFile : string; Restricted : option bool; Tools : list string;
  MCP : list string; Allow : list string; OutputSchema : any; Timeout : string }.

Definition Sink := list (string * any).

Record Rate := mkRate { Runs : Z; Per : string }.

Record Guard := mkGuard { g_Rate : option Rate; g_Wait : string }.

Record Retrieval := mkRetrieval {
  Collection : string; Query : string; QueryFrom : string; r_As : string;
  MaxResults : Z; MaxBytes : Z }.

Record Playbook := mkPlaybook {
  Name : string; Description : string; p_Trigger : Trigger; Gather : list Step;
  p_Agent : Agent; Sinks : list Sink; p_Guard : option Guard; Retrieve : list Retrieval;
  p_Path : string }.

(** ** What the fields mean *)

Definition DefaultWait : Z := 30 * Minute.

Definition WaitFor (p : Playbook) : string + Z :=
  match p_Guard p with
  | None => inr DefaultWait
  | Some guard =>
      if String.eqb (g_Wait guard) "" then inr DefaultWait
      else match ParseDuration (g_Wait guard) with
           | inl err => inl ("guard.wait " +:+ quote (g_Wait guard) +:+ " is not a duration: "
                             +:+ err)
           | inr wait => inr wait
           end
  end.

Definition PerDuration (r : Rate) : string + Z :=
  match ParseDuration (Per r) with
  | inl err => inl ("guard.rate.per " +:+ quote (Per r) +:+ " is not a duration: " +:+ err)
  | inr per => inr per
  end.

Definition DefaultMaxResults : Z := 10.
Definition MaxResultsCeiling : Z := 50.
Definition DefaultMaxBytes : Z := 16384.
Definition MaxBytesCeiling : Z := 65536.

Definition ResultCount (r : Retrieval) : Z :=
  if MaxResults r =? 0 then DefaultMaxResults else MaxResults r.

Definition ByteBound (r : Retrieval) : Z :=
  if MaxBytes r =? 0 then DefaultMaxBytes else MaxBytes r.

Definition DefaultTimeout : Z := 30 * Minute.

Definition IsRestricted (a : Agent) : bool :=
  match Restricted a with None => true | Some b => b end.

Definition StageTimeout (a : Agent) : string + Z :=
  if String.eqb (Timeout a) "" then inr DefaultTimeout else ParseDuration (Timeout a).

(** [Sink.Type]: the name, the configuration, and whether there is one.  A Go map of one
    entry is walked in the only order there is. *)
Definition SinkType (s : Sink) : string * list (string * any) * bool :=
  match s with
  | [(name, value)] =>
      match value with
      | ASink typed => (name, typed, true)
      | AMap typed => (name, typed, true)
      | ANil => (name, [], true)
      | _ => (name, [], false)
      end
  | _ => ("", [], false)
  end.

(** [PromptPath] of parse.go *)
Definition PromptPath (p : Playbook) : string :=
  if IsAbs (PromptFile (p_Agent p)) then PromptFile (p_Agent p)
  else Join [Dir (p_Path p); PromptFile (p_Agent p)].

(** Induction that reaches the values inside lists and maps. *)
Section any_nested.
Context (P : any → Prop).
Context (Pnil : P ANil) (Pbool : ∀ b, P (ABool b)) (Pnumber : ∀ s, P (ANumber s))
  (Pint : ∀ z, P (AInt z)) (Pstring : ∀ s, P (AString s))
  (Plist : ∀ items, Forall P items → P (AList items))
  (Pmap : ∀ entries, Forall (λ kv, P (snd kv)) entries → P (AMap entries))
  (Psink : ∀ entries, Forall (λ kv, P (snd kv)) entries → P (ASink entries)).

Fixpoint any_nested_ind (v : any) : P v :=
  let entries_ind :=
    fix go (entries : list (string * any)) : Forall (λ kv, P (snd kv)) entries :=
      match entries with
      | [] => List.Forall_nil _
      | kv :: entries => List.Forall_cons _ kv entries (any_nested_ind (snd kv)) (go entries)
      end in
  match v with
  | ANil => Pnil
  | ABool b => Pbool b
  | ANumber s => Pnumber s
  | AInt z => Pint z
  | AString s => Pstring s
  | AList items =>
      Plist items
        ((fix go (items : list any) : Forall P items :=
            match items with
            | [] => List.Forall_nil _
            | x :: items => List.Forall_cons _ x items (any_nested_ind x) (go items)
            end) items)
  | AMap entries => Pmap entries (entries_ind entries)
  | ASink entries => Psink entries (entries_ind entries)
  end.
End any_nested.
