(* ===== verification/Gate.v ===== *)
(** The gate a playbook passes before anything is armed:
    [src/runtime/internal/playbook/validate.go], every rule, with the texts it refuses with.

    What the file system answers about a prompt and whether Go's [regexp.Compile] accepts a
    declared pattern are arguments of the definitions that use them. *)
From S2P Require Import Prelude GoStr GoTime GoPath Config Playbook.

(** ** What the deployment can do, and a refusal *)

Record Deployment := mkDeployment {
  MCPServers : list string; SinkTypes : list string; CreatingSinks : list string;
  Collections : list string; ConfigKeys : list string; Sources : list string }.

Record Problem := mkProblem { Field : string; Found : string; Accepted : string }.

Definition Problem_Error (p : Problem) : string :=
  if String.eqb (Accepted p) "" then Field p +:+ ": " +:+ Found p
  else Field p +:+ ": " +:+ Found p +:+ nl +:+ "    accepted: " +:+ Accepted p.

Definition readOnlyTools : gmap string string :=
  {[ "Read" := "reads files"; "Grep" := "searches files"; "Glob" := "lists files";
     "WebFetch" := "fetches a URL"; "WebSearch" := "searches the web" ]}.

Definition shells : gset string :=
  {[ "Bash"; "Shell"; "PowerShell"; "Zsh"; "Sh"; "BashOutput"; "KillShell" ]}.

Definition writingTools : gset string :=
  {[ "Write"; "Edit"; "MultiEdit"; "NotebookEdit"; "Task"; "Agent" ]}.

Definition is_read_only (tool : string) : bool := bool_decide (is_Some (readOnlyTools !! tool)).

(** [fmt.Sprintf("%s[%d]", name, at)] *)
Definition at_index (name : string) (at_ : nat) : string :=
  name +:+ "[" +:+ show_nat at_ +:+ "]".

Definition contains (l : list string) (want : string) : bool :=
  existsb (λ item, String.eqb item want) l.

Definition provided (names : list string) : string :=
  match names with
  | [] => "nothing; this deployment provides none"
  | _ => join (sort_strings names) ", "
  end.

Definition acceptedTools : string :=
  join (sorted_keys readOnlyTools) ", " +:+ ", or an MCP tool named in full (mcp__server__tool)".

(** ** The patterns *)

Definition name_char (c : ascii) : bool := is_alnum c || Ascii.eqb c "_" || Ascii.eqb c "-".
Definition ident_char (c : ascii) : bool := is_alnum c || Ascii.eqb c "_".

(** A letter or digit, then letters, digits, underscores and dashes. *)
Definition toolName (s : string) : bool :=
  match s with String c s => is_alnum c && str_all name_char s | EmptyString => false end.

(** The last byte and what precedes it. *)
Fixpoint unsnoc_str (s : string) : option (string * ascii) :=
  match s with
  | EmptyString => None
  | String c s' =>
      match unsnoc_str s' with
      | None => Some (EmptyString, c)
      | Some (init, l) => Some (String c init, l)
      end
  end.

(** The pattern of a scoped tool: an identifier that starts with a letter, then anything but a
    newline between an opening parenthesis and a final closing one; its two submatches. *)
Definition scopedTool (s : string) : option (string * string) :=
  match s with
  | String c _ =>
      if is_lower c || is_upper c then
        let '(tool, rest) := span_str ident_char s in
        match rest with
        | String p inner =>
            if Ascii.eqb p "(" then
              match unsnoc_str inner with
              | Some (scope, l) =>
                  if Ascii.eqb l ")" && str_all (λ c, negb (Ascii.eqb c NL)) scope
                  then Some (tool, scope) else None
              | None => None
              end
            else None
        | EmptyString => None
        end
      else None
  | EmptyString => None
  end.

(** The submatches of a prefix, a run of bytes outside [stop] and a closing brace, leftmost
    and not overlapping; [stop] includes the closing brace. *)
Definition match_here (prefix : string) (stop : ascii → bool) (s : string)
  : option (string * string) :=
  match cut_prefix s prefix with
  | None => None
  | Some rest =>
      let '(name, rest) := span_str (λ c, negb (stop c)) rest in
      match rest with
      | String c rest => if Ascii.eqb c "}" then Some (name, rest) else None
      | EmptyString => None
      end
  end.

Fixpoint find_fuel (fuel : nat) (prefix : string) (stop : ascii → bool) (s : string)
  : list string :=
  match fuel, s with
  | O, _ | _, EmptyString => []
  | S fuel, String _ s' =>
      match match_here prefix stop s with
      | Some (name, rest) => name :: find_fuel fuel prefix stop rest
      | None => find_fuel fuel prefix stop s'
      end
  end.
Definition find_all (prefix : string) (stop : ascii → bool) (s : string) : list string :=
  find_fuel (String.length s) prefix stop s.

Definition is_brace (c : ascii) : bool := Ascii.eqb c "}".
Definition bareReference : string → list string :=
  find_all "${" (λ c, is_brace c || Ascii.eqb c ".").
Definition triggerReferencesIn : string → list string := find_all "${trigger." is_brace.
Definition configReference : string → list string := find_all "${config." is_brace.

(** ** MCP entries *)

(** The server, whether the entry names the whole of it, and whether it is an MCP entry. *)
Definition mcpShape (entry : string) : string * bool * bool :=
  match split entry "__" with
  | first :: server :: tool =>
      if negb (String.eqb first "mcp") || String.eqb server "" then ("", false, false)
      else if negb (toolName (join tool "__")) then (server, true, true)
      else (server, false, true)
  | _ => ("", false, false)
  end.

Definition isMCPEntry (entry : string) : bool := let '(_, _, isMCP) := mcpShape entry in isMCP.

Definition mcpProblems (field entry : string) (dep : Deployment) : list Problem :=
  let '(server, wholeServer, _) := mcpShape entry in
  if wholeServer then
    [mkProblem field (quote entry +:+ " names a whole MCP server")
       ("an individual tool, e.g. " +:+ entry +:+ "__query_prometheus")]
  else if negb (contains (MCPServers dep) server) then
    [mkProblem field (quote entry +:+ " names the server " +:+ quote server
                      +:+ ", which this deployment does not provide")
       (provided (MCPServers dep))]
  else [].

(** ** Path scopes *)

Definition run_root : string := "/run".

Definition insideWorkingDirectory (scope : string) : bool :=
  if IsAbs scope then false
  else if has_prefix scope "~" then false
  else
    let resolved := Clean (Join [run_root; scope]) in
    String.eqb resolved run_root || has_prefix resolved (run_root +:+ "/").

Definition scopeProblems (field entry : string) : list Problem :=
  match scopedTool entry with
  | None =>
      if is_read_only entry then []
      else [mkProblem field (quote entry +:+ " is not a form this runtime accepts")
              "a scoped file tool such as Read(./**), or an MCP tool named in full"]
  | Some (tool, scope) =>
      if negb (is_read_only tool) then
        [mkProblem field (quote entry +:+ " scopes " +:+ quote tool
                          +:+ ", which is not a tool this runtime accepts") acceptedTools]
      else if String.eqb scope "" then
        [mkProblem field (quote entry +:+ " scopes nothing")
           ("a path inside the run's working directory, e.g. " +:+ tool +:+ "(./**)")]
      else if negb (insideWorkingDirectory scope) then
        [mkProblem field (quote scope +:+ " resolves outside the run's working directory")
           ("a path inside it, e.g. " +:+ tool +:+ "(./**) or " +:+ tool +:+ "(./inputs/**)")]
      else []
  end.

(** ** References in a text *)

Definition configured (dep : Deployment) : gset string := list_to_set (ConfigKeys dep).

Definition unconfigured (field text : string) (known : gset string) : list Problem :=
  omap (λ key,
    if bool_decide (key ∈ known) then None
    else Some (mkProblem field ("${config." +:+ key +:+ "} is not configured")
                 ("set it with `printf '%s' " +:+ dq +:+ "$VALUE" +:+ dq
                  +:+ " | gronin config set " +:+ key +:+ "`")))
    (configReference text).

Definition bareReferences (field text : string) : list Problem :=
  map (λ name,
    mkProblem field ("${" +:+ name +:+ "} does not name its source")
      ("${config." +:+ name +:+ "} or ${trigger." +:+ name +:+ "}"))
    (bareReference text).

Record held := mkHeld { h_field : string; h_text : string }.

Fixpoint insert_entry {A} (x : string * A) (l : list (string * A)) : list (string * A) :=
  match l with
  | [] => [x]
  | y :: ys => if String.leb (fst x) (fst y) then x :: y :: ys else y :: insert_entry x ys
  end.
(** The entries of a map in the order of their keys. *)
Definition sort_entries {A} (l : list (string * A)) : list (string * A) :=
  foldr insert_entry [] l.

(** [for at, x := range xs] around a body that appends. *)
Definition each {A B} (f : nat → A → list B) (l : list A) : list B :=
  concat (map (λ '(at_, x), f at_ x) (enumerate l)).

Fixpoint walkValue (field : string) (value : any) {struct value} : list held :=
  match value with
  | AString text => [mkHeld field text]
  | AMap entries | ASink entries =>
      concat (map snd (sort_entries
        (map (λ '(key, v), (key, walkValue (field +:+ "." +:+ key) v)) entries)))
  | AList items =>
      concat (map (λ '(at_, held_at), held_at (at_index field at_))
        (enumerate (map (λ item field, walkValue field item) items)))
  | _ => []
  end.

Definition sink_held (at_ : nat) (one : Sink) : list held :=
  let '(name, config, ok) := SinkType one in
  if ok then walkValue (at_index "sinks" at_ +:+ "." +:+ name) (AMap config) else [].

Definition interpolatable (book : Playbook) : list held :=
  [mkHeld "description" (Description book);
   mkHeld "trigger.schedule" (t_Schedule (p_Trigger book));
   mkHeld "agent.model" (Model (p_Agent book));
   mkHeld "agent.prompt_file" (PromptFile (p_Agent book))]
  ++ each (λ at_ step, [mkHeld (at_index "gather" at_ +:+ ".run") (Run step);
                        mkHeld (at_index "gather" at_ +:+ ".as") (As step)]) (Gather book)
  ++ each (λ at_ r, [mkHeld (at_index "retrieve" at_ +:+ ".query") (Query r)]) (Retrieve book)
  ++ each (λ at_ tool, [mkHeld (at_index "agent.tools" at_) tool]) (Tools (p_Agent book))
  ++ each (λ at_ entry, [mkHeld (at_index "agent.allow" at_) entry]) (Allow (p_Agent book))
  ++ each (λ at_ name, [mkHeld (at_index "agent.mcp" at_) name]) (MCP (p_Agent book))
  ++ each sink_held (Sinks book).

(** [fieldKind] *)
Definition fieldKind (field : string) : string :=
  let field :=
    match index_of field "[" with
    | Some at_ =>
        let rest := str_drop at_ field in
        match index_of rest "]" with
        | Some end_ => str_take at_ field +:+ str_drop (end_ + 1) rest
        | None => field
        end
    | None => field
    end in
  match cut field "." with
  | Some (before, _) => if String.eqb before "sinks" then "sinks" else trim_prefix field "."
  | None => trim_prefix field "."
  end.

Definition resolvedHere (kind : string) : bool :=
  String.eqb kind "gather.run" || String.eqb kind "sinks" || String.eqb kind "retrieve.query".

Definition quoted_problem (at_ : nat) (name : string) : Problem :=
  mkProblem (at_index "gather" at_ +:+ ".run") ("${" +:+ name +:+ "} sits inside quotes")
    ("the reference on its own, as in `git -C ${config.checkout} log` — "
     +:+ "it is substituted as one quoted word and cannot be nested in another").

Definition validateInterpolation (book : Playbook) (dep : Deployment) : list Problem :=
  let known := configured dep in
  concat (map (λ h,
    bareReferences (h_field h) (h_text h)
    ++ (if resolvedHere (fieldKind (h_field h)) then unconfigured (h_field h) (h_text h) known
        else [])) (interpolatable book))
  ++ each (λ at_ step, map (quoted_problem at_) (QuotedReferences (Run step))) (Gather book).

(** ** The agent *)

Definition MaxPromptBytes : Z := 2 ^ 20.

(** What the operating system answers about a path, in the order [readPrompt] asks; an error
    is its text and whether it is [os.ErrNotExist]. *)
Definition os_error : Type := bool * string.
Record file := mkFile {
  f_open : option os_error; f_stat : option os_error; f_regular : bool; f_size : Z;
  f_read : option os_error; f_content : string }.

Definition limit_reader (limit : Z) (content : string) : string :=
  if Z.of_nat (String.length content) <=? limit then content
  else str_take (Z.to_nat limit) content.

Definition readPrompt (f : file) : os_error + string :=
  match f_open f with
  | Some err => inl err
  | None =>
      match f_stat f with
      | Some err => inl err
      | None =>
          if negb (f_regular f) then inl (false, "is not a regular file")
          else if MaxPromptBytes <? f_size f then
            inl (false, "is " +:+ show_Z (f_size f) +:+ " bytes, and a prompt may be at most "
                        +:+ show_Z MaxPromptBytes)
          else match f_read f with
               | Some err => inl err
               | None => inr (limit_reader MaxPromptBytes (f_content f))
               end
      end
  end.

Definition promptReason (err : os_error) : string :=
  if fst err then "is not there" else snd err.

Definition toolProblems (dep : Deployment) (at_ : nat) (tool : string) : list Problem :=
  let field := at_index "agent.tools" at_ in
  if bool_decide (tool ∈ shells) then
    [mkProblem field (quote tool +:+ " is an unrestricted shell") acceptedTools]
  else if bool_decide (tool ∈ writingTools) then
    [mkProblem field (quote tool +:+ " can write outside the run's working directory")
       acceptedTools]
  else if isMCPEntry tool then mcpProblems field tool dep
  else if negb (is_read_only tool) then
    [mkProblem field (quote tool +:+ " is not a tool this runtime accepts") acceptedTools]
  else [].

Definition allowProblems (dep : Deployment) (at_ : nat) (entry : string) : list Problem :=
  let field := at_index "agent.allow" at_ in
  if isMCPEntry entry then mcpProblems field entry dep else scopeProblems field entry.

Definition serverProblems (dep : Deployment) (at_ : nat) (name : string) : list Problem :=
  if negb (contains (MCPServers dep) name) then
    [mkProblem (at_index "agent.mcp" at_)
       (quote name +:+ " is not a server this deployment provides") (provided (MCPServers dep))]
  else [].

Definition is_webhook (book : Playbook) : bool := String.eqb (t_Type (p_Trigger book)) "webhook".

Definition promptProblems (fs : string → file) (book : Playbook) (dep : Deployment)
  : list Problem :=
  let agent := p_Agent book in
  if String.eqb (PromptFile agent) "" || String.eqb (p_Path book) "" then []
  else
    match readPrompt (fs (PromptPath book)) with
    | inl err =>
        [mkProblem "agent.prompt_file" (quote (PromptFile agent) +:+ " " +:+ promptReason err)
           "a readable file beside the playbook, under 1 MiB"]
    | inr body =>
        let where_ := "agent.prompt_file (" +:+ PromptFile agent +:+ ")" in
        bareReferences where_ body ++ unconfigured where_ body (configured dep)
        ++ (if is_webhook book then
              map (λ name, mkProblem "agent.prompt_file"
                             ("references ${trigger." +:+ name +:+ "}")
                             ("no payload reference; declared values reach the agent only "
                              +:+ "through the data file"))
                (triggerReferencesIn body)
            else [])
    end.

Definition validateAgent (fs : string → file) (book : Playbook) (dep : Deployment)
  : list Problem :=
  let agent := p_Agent book in
  (if negb (IsRestricted agent) && String.eqb (trim_space (Description book)) "" then
     [mkProblem "agent.restricted" "false, with no description saying why"
        ("a description stating why this playbook needs the command- and "
         +:+ "code-running tools")]
   else [])
  ++ each (toolProblems dep) (Tools agent)
  ++ each (allowProblems dep) (Allow agent)
  ++ each (serverProblems dep) (MCP agent)
  ++ promptProblems fs book dep
  ++ (if String.eqb (Timeout agent) "" then []
      else match StageTimeout agent with
           | inr _ => []
           | inl _ => [mkProblem "agent.timeout" (quote (Timeout agent) +:+ " is not a duration")
                         "a duration such as 10m, 45m or 2h"]
           end).

(** ** Sinks *)

Definition labelProblems (field : string) (config : list (string * any)) : list Problem :=
  match assoc "label" config with
  | None => []
  | Some (AString text) =>
      if negb (contains_str text "${") && String.eqb (trim_space text) "" then
        [mkProblem field "is empty, which counts every open issue in the repository"
           "a label name, or remove the field to use the default"]
      else if contains_str text "," then
        [mkProblem field (quote text +:+ " holds a comma, which GitHub reads as two labels")
           ("one label name; the cap counts the issues carrying it, and a list "
            +:+ "would count issues the sink never creates")]
      else if contains_str text "${trigger." then
        [mkProblem field
           ("resolves through the trigger, which would let what fires the run choose "
            +:+ "the bucket its cap is counted against")
           "a label name, or ${config.x}; the deployment names it, not the trigger"]
      else []
  | Some _ => [mkProblem field "is not a string" "a label name, e.g. doc-drift"]
  end.

Definition sinkProblems (dep : Deployment) (at_ : nat) (one : Sink) : list Problem :=
  let field := at_index "sinks" at_ in
  let '(name, config, ok) := SinkType one in
  if negb ok then
    [mkProblem field
       (if negb (String.eqb name "") then quote name +:+ " does not carry a mapping of settings"
        else "is not one key naming a sink type with its settings")
       "one key naming the sink, e.g. discord: {webhook: ${config.ops_webhook}}"]
  else if negb (contains (SinkTypes dep) name) then
    [mkProblem (field +:+ "." +:+ name)
       (quote name +:+ " is not a sink this deployment implements") (provided (SinkTypes dep))]
  else if contains (CreatingSinks dep) name then
    (match assoc "cap" config with
     | None => [mkProblem (field +:+ "." +:+ name +:+ ".cap") "missing"
                  "an integer; a sink that creates things must declare its ceiling"]
     | Some _ => []
     end)
    ++ labelProblems (field +:+ "." +:+ name +:+ ".label") config
  else [].

Definition validateSinks (book : Playbook) (dep : Deployment) : list Problem :=
  each (sinkProblems dep) (Sinks book).

(** ** Retrievals *)

Definition gatherNames (book : Playbook) : string :=
  match map As (Gather book) with
  | [] => "nothing; this playbook gathers nothing, so use `query` instead"
  | names => join (sort_strings names) ", "
  end.

Definition byAGatherStep : string := "a gather step".

(** One iteration, on what is written so far. *)
Definition retrievalProblems (book : Playbook) (dep : Deployment) (written : gmap string string)
    (at_ : nat) (r : Retrieval) : list Problem :=
  let field := at_index "retrieve" at_ in
  (if negb (contains (Collections dep) (Collection r)) then
     [mkProblem (field +:+ ".collection")
        (quote (Collection r) +:+ " is not a collection this deployment declares")
        (provided (Collections dep))]
   else [])
  ++ (if negb (String.eqb (QueryFrom r) "")
         && negb (String.eqb (default "" (written !! QueryFrom r)) byAGatherStep) then
        [mkProblem (field +:+ ".query_from")
           (quote (QueryFrom r) +:+ " is not the name of a gather step's output")
           (gatherNames book)]
      else [])
  ++ (match written !! r_As r with
      | Some by_ => [mkProblem (field +:+ ".as")
                       (quote (r_As r) +:+ " is already written by " +:+ by_)
                       ("a name nothing else in this playbook writes into the working "
                        +:+ "directory")]
      | None => []
      end)
  ++ (if MaxResultsCeiling <? MaxResults r then
        [mkProblem (field +:+ ".max_results")
           (show_Z (MaxResults r) +:+ " results, and a retrieval returns at most "
            +:+ show_Z MaxResultsCeiling)
           ("1 to " +:+ show_Z MaxResultsCeiling
            +:+ "; a need for more is better met by two queries")]
      else [])
  ++ (if MaxBytesCeiling <? MaxBytes r then
        [mkProblem (field +:+ ".max_bytes")
           (show_Z (MaxBytes r) +:+ " bytes, and a results file is at most "
            +:+ show_Z MaxBytesCeiling)
           ("1 to " +:+ show_Z MaxBytesCeiling
            +:+ "; a need for more is better met by two queries")]
      else []).

Fixpoint retrieve_from (book : Playbook) (dep : Deployment) (written : gmap string string)
    (at_ : nat) (rs : list Retrieval) : list Problem :=
  match rs with
  | [] => []
  | r :: rs =>
      retrievalProblems book dep written at_ r
      ++ retrieve_from book dep (<[r_As r := at_index "retrieve" at_]> written) (S at_) rs
  end.

Definition validateRetrieve (book : Playbook) (dep : Deployment) : list Problem :=
  match Retrieve book with
  | [] => []
  | rs =>
      let written :=
        foldl (λ written step, <[As step := byAGatherStep]> written) ∅ (Gather book) in
      retrieve_from book dep written 0 rs
  end.

(** ** The guard block *)

Definition appliedGuardKeys (key : string) : bool :=
  String.eqb key "guard.rate" || String.eqb key "guard.wait".

(** The two fields are walked from a map and the problems then sorted by field. *)
Definition validateGuard (book : Playbook) : list Problem :=
  match p_Guard book with
  | None => []
  | Some guard =>
      omap (λ '(field, declared),
        if declared && negb (appliedGuardKeys field) then
          Some (mkProblem field "declared, and this runtime does not apply it yet"
                  ("remove the key; a declared bound nothing enforces reads as enforced in "
                   +:+ "review"))
        else None)
      [("guard.rate", bool_decide (is_Some (g_Rate guard)));
       ("guard.wait", negb (String.eqb (g_Wait guard) ""))]
  end.

(** ** The webhook trigger *)

Definition declaredValueNames (book : Playbook) : string :=
  match sorted_keys (t_Values (p_Trigger book)) with
  | [] => "nothing; this trigger declares no values"
  | names => join names ", "
  end.

(** [compiles] is [regexp.Compile]'s error, if it gives one. *)
Definition valueProblems (compiles : string → option string) (name : string)
    (declared : TriggerValue) : list Problem :=
  let field := "trigger.values." +:+ name in
  (if String.eqb (Pattern declared) "" then
     [mkProblem (field +:+ ".pattern") "missing" "an RE2 pattern the whole value must match"]
   else match compiles (Pattern declared) with
        | Some err =>
            [mkProblem (field +:+ ".pattern")
               (quote (Pattern declared) +:+ " does not compile: " +:+ err) "a valid RE2 pattern"]
        | None => []
        end)
  ++ (if MaxLength declared <=? 0 then
        [mkProblem (field +:+ ".max_length") "missing"
           "the most Unicode code points this value may hold"]
      else [])
  ++ (if negb (String.eqb (At declared) "") && negb (has_prefix (At declared) "/") then
        [mkProblem (field +:+ ".at") (quote (At declared) +:+ " is not a JSON Pointer")
           "a JSON Pointer such as /alertname"]
      else []).

Definition declaredProblems (compiles : string → option string)
    (values : gmap string TriggerValue) (name : string) : list Problem :=
  match values !! name with Some declared => valueProblems compiles name declared | None => [] end.

Definition sinkTriggerProblems (at_ : nat) (one : Sink) : list Problem :=
  concat (map (λ h,
    map (λ ref, mkProblem (h_field h) ("references ${trigger." +:+ ref +:+ "}")
                  ("a destination, credential or cap bucket the deployment names, "
                   +:+ "not the trigger"))
      (triggerReferencesIn (h_text h))) (sink_held at_ one)).

Definition gatherTriggerProblems (book : Playbook) (at_ : nat) (step : Step) : list Problem :=
  (if String.eqb (As step) "trigger.json" then
     [mkProblem (at_index "gather" at_ +:+ ".as")
        (dq +:+ "trigger.json" +:+ dq +:+ " is the data file FR-324 writes")
        "a name that does not collide with it"]
   else [])
  ++ omap (λ name,
       match t_Values (p_Trigger book) !! name with
       | Some _ => None
       | None => Some (mkProblem (at_index "gather" at_ +:+ ".run")
                         ("${trigger." +:+ name +:+ "} is not a declared value")
                         (declaredValueNames book))
       end) (TriggerReferences (Run step)).

Definition validateWebhook (compiles : string → option string) (book : Playbook)
    (dep : Deployment) : list Problem :=
  if negb (is_webhook book) then []
  else
    let trigger := p_Trigger book in
    (if negb (contains (Sources dep) (t_Source trigger)) then
       [mkProblem "trigger.source"
          (quote (t_Source trigger) +:+ " is not a source this deployment configures")
          (provided (Sources dep))]
     else [])
    ++ concat (map (declaredProblems compiles (t_Values trigger)) (sorted_keys (t_Values trigger)))
    ++ each sinkTriggerProblems (Sinks book)
    ++ each (gatherTriggerProblems book) (Gather book).

(** ** The whole gate *)

Definition Validate (compiles : string → option string) (fs : string → file)
    (book : Playbook) (dep : Deployment) : list Problem :=
  validateAgent fs book dep ++ validateSinks book dep ++ validateRetrieve book dep
  ++ validateGuard book ++ validateWebhook compiles book dep ++ validateInterpolation book dep.
