(* ===== verification/GateSafe.v ===== *)
(** What a playbook the gate accepts is known to satisfy: theorems about
    [validate.go]'s [Validate] returning no problem. *)
From S2P Require Import Prelude GoStr GoTime GoPath Config Playbook Gate.

(** ** Loops that only append *)

Lemma elem_of_each {A B} (f : nat → A → list B) l y :
  y ∈ each f l ↔ ∃ i x, l !! i = Some x ∧ y ∈ f i x.
Proof.
  unfold each. rewrite list_elem_of_In, in_concat. split.
  - intros (ys & Hys & Hy). apply in_map_iff in Hys as ([i x] & <- & Hin).
    exists i, x. apply list_elem_of_In in Hin, Hy. by apply elem_of_enumerate in Hin.
  - intros (i & x & Hl & Hy). exists (f i x). split; [|by apply list_elem_of_In].
    apply in_map_iff. exists (i, x). split; [done|]. by apply list_elem_of_In, elem_of_enumerate.
Qed.

Lemma each_nil_at {A B} (f : nat → A → list B) l i x :
  each f l = [] → l !! i = Some x → f i x = [].
Proof.
  intros H Hi. destruct (f i x) as [|y ys] eqn:E; [done|]. exfalso.
  assert (y ∈ each f l) as Hy by (apply elem_of_each; exists i, x; rewrite E; split; [done|left]).
  rewrite H in Hy. by apply elem_of_nil in Hy.
Qed.

Lemma each_nil {A B} (f : nat → A → list B) l :
  each f l = [] → ∀ x, x ∈ l → ∃ i, l !! i = Some x ∧ f i x = [].
Proof. intros H x (i & Hi)%list_elem_of_lookup. eauto using each_nil_at. Qed.

Lemma omap_nil {A B} (f : A → option B) l : omap f l = [] → ∀ x, x ∈ l → f x = None.
Proof.
  intros H x Hx. destruct (f x) as [y|] eqn:E; [|done]. exfalso.
  assert (y ∈ omap f l) as Hy by (apply list_elem_of_omap; eauto).
  rewrite H in Hy. by apply elem_of_nil in Hy.
Qed.

Lemma concat_nil {A} (l : list (list A)) : concat l = [] → ∀ x, x ∈ l → x = [].
Proof.
  induction l as [|y l IH]; simpl; intros H x Hx; [by apply elem_of_nil in Hx|].
  apply app_nil in H as [-> H]. apply elem_of_cons in Hx as [-> |?]; auto.
Qed.

Lemma contains_elem l want : contains l want = true ↔ want ∈ l.
Proof.
  unfold contains. rewrite existsb_exists. split.
  - intros (x & Hx & ->%String.eqb_eq). by apply list_elem_of_In.
  - intros H. exists want. split; [by apply list_elem_of_In|apply String.eqb_refl].
Qed.

(** Every branch of a refusal rule that gives no problem. *)
Ltac no_problem :=
  repeat match goal with
  | H : _ ++ _ = [] |- _ => apply app_nil in H as [? ?]
  | H : (if ?b then _ else _) = [] |- _ => destruct b eqn:?; try discriminate H
  | H : match ?x with _ => _ end = [] |- _ => destruct x eqn:?; try discriminate H
  end; bool_facts.

(** ** MCP entries *)

(** An individual tool of a server the deployment provides, named in full. *)
Definition named_mcp_tool (dep : Deployment) (entry : string) : Prop :=
  ∃ server name, entry = "mcp__" +:+ server +:+ "__" +:+ name ∧
    server ∈ MCPServers dep ∧ toolName name = true.

Lemma join_split_fuel n s sep : sep ≠ "" → join (split_fuel n s sep) sep = s.
Proof.
  intros Hsep. revert s. induction n as [|n IH]; intros s; simpl; [done|].
  destruct (cut s sep) as [[a b]|] eqn:E; [|done].
  apply cut_Some in E as ->. specialize (IH b).
  destruct (split_fuel n b sep) as [|x l] eqn:El.
  { by destruct n; simpl in El; repeat split_match. }
  by rewrite join_cons, IH.
Qed.

Lemma mcpProblems_nil field entry dep :
  isMCPEntry entry = true → mcpProblems field entry dep = [] → named_mcp_tool dep entry.
Proof.
  unfold isMCPEntry, mcpProblems, mcpShape. intros Hmcp H.
  pose proof (join_split_fuel (String.length entry) entry "__" ltac:(done)) as Hj.
  fold (split entry "__") in Hj.
  destruct (split entry "__") as [|first [|server tool]]; [done..|].
  destruct (negb (String.eqb first "mcp") || String.eqb server "") eqn:E; [done|].
  destruct (negb (toolName (join tool "__"))) eqn:Et; [done|]. bool_facts. subst first.
  destruct (negb (contains (MCPServers dep) server)) eqn:Ec; [done|]. bool_facts.
  exists server, (join tool "__"). split_and!; [|by apply contains_elem|done].
  destruct tool as [|t tool]; [done|]. by rewrite <- Hj, !join_cons.
Qed.

(** ** Path scopes *)

(** A scope that stays in the directory it is walked from, whichever it is: no step of the walk
    leaves it. *)
Definition stays (scope : string) : Prop :=
  ∀ dir steps, steps `prefix_of` split scope "/" → ∃ below, foldl cd dir steps = below ++ dir.

(** A scope that climbs out of the directory it is walked from and ends in one called [name], beside
    it or beside one it is in. *)
Definition reenters (name scope : string) : Prop :=
  ∃ below k, (0 < k)%nat ∧ ∀ dir, walk dir scope = below ++ name :: drop k dir.

(** What a scope the gate accepts does in the run's working directory, which it has not been shown
    the name of: it stays, or it goes where the directory the gate tries it in is called. *)
Definition scope_bounded (scope : string) : Prop :=
  IsAbs scope = false ∧ has_prefix scope "~" = false ∧ (stays scope ∨ reenters "run" scope).

(** A walk apart from where it starts: how many directories it climbs out of, and what it enters. *)
Definition rel_step (st : nat * list string) (c : string) : nat * list string :=
  let '(k, entered) := st in
  if String.eqb c "" || String.eqb c "." then st
  else if String.eqb c ".." then match entered with [] => (S k, []) | _ :: entered => (k, entered) end
  else (k, c :: entered).

Lemma foldl_cd_rel steps dir : ∀ k entered,
  foldl cd (entered ++ drop k dir) steps =
    (foldl rel_step (k, entered) steps).2 ++ drop (foldl rel_step (k, entered) steps).1 dir.
Proof.
  induction steps as [|c steps IH]; intros k entered; [done|]. cbn [foldl]. unfold cd at 2, rel_step at 2 4.
  destruct (_ || _); [apply IH|]. destruct (String.eqb c ".."); [|apply (IH k (c :: entered))].
  destruct entered as [|e entered]; [|apply IH]. rewrite <- (IH (S k) []). simpl. f_equal.
  clear. revert dir. induction k as [|k IHk]; intros [|d dir]; try done. apply (IHk dir).
Qed.

Lemma rel_climbs steps : ∀ k entered, (k <= (foldl rel_step (k, entered) steps).1)%nat.
Proof.
  induction steps as [|c steps IH]; intros k entered; [done|]. cbn [foldl]. unfold rel_step at 2.
  destruct (_ || _); [apply IH|]. destruct (String.eqb c ".."); [|apply IH].
  destruct entered; [|apply IH]. specialize (IH (S k) []). lia.
Qed.

(** The directories a scope leads to from the gate's notional root, still inside it. *)
Definition notionally_inside (scope : string) : Prop :=
  IsAbs scope = false ∧ has_prefix scope "~" = false ∧
  ∃ below, walk ["run"] scope = below ++ ["run"].

Lemma notionally_inside_bounded scope : notionally_inside scope → scope_bounded scope.
Proof.
  intros (Ha & Ht & below & Hb). split_and!; [done..|]. unfold walk in Hb.
  pose proof (foldl_cd_rel (split scope "/") ["run"] 0 []) as Hr. cbn [app] in Hr. rewrite drop_0 in Hr. rewrite Hb in Hr.
  destruct (foldl rel_step (0%nat, []) (split scope "/")) as [k entered] eqn:E. cbn [fst snd] in Hr.
  destruct k as [|k]; [left|right].
  - intros dir steps [rest Hp]. pose proof (foldl_cd_rel steps dir 0 []) as Hs. cbn [app] in Hs. rewrite drop_0 in Hs. rewrite Hs.
    rewrite Hp, foldl_app in E. destruct (foldl rel_step (0%nat, []) steps) as [k' e'].
    pose proof (rel_climbs rest k' e') as Hk. rewrite E in Hk. simpl in Hk. assert (k' = 0%nat) as -> by lia. by exists e'.
  - assert (drop (S k) ["run"] = []) as Hd by (by destruct k). rewrite Hd, app_nil_r in Hr. subst entered.
    exists below, (S k). split; [lia|]. intros dir.
    pose proof (foldl_cd_rel (split scope "/") dir 0 []) as Hs. cbn [app] in Hs. rewrite drop_0 in Hs. rewrite E in Hs. cbn [fst snd] in Hs.
    unfold walk. rewrite Hs, <- app_assoc. done.
Qed.

(** What is accepted and leaves the working directory: the gate's tests are made in a directory called
    run, and a run's own is called by the run's id. *)
Example a_scope_that_leaves :
  insideWorkingDirectory "../run/**" = true ∧ scopeProblems "agent.allow[0]" "Read(../run/**)" = [] ∧
  walk ["3f2a"; "work"; "data"] "../run/**" = ["**"; "run"; "work"; "data"] ∧
  insideWorkingDirectory "../../../../run/secrets/**" = true ∧
  walk ["3f2a"; "work"; "data"] "../../../../run/secrets/**" = ["**"; "secrets"; "run"].
Proof. vm_compute. done. Qed.

Lemma resolved_scope scope :
  Clean (Join [run_root; scope]) = "/" +:+ join (rev (walk ["run"] scope)) "/".
Proof.
  change (Join [run_root; scope]) with (Clean (run_root +:+ "/" +:+ scope)).
  rewrite Clean_idempotent_rooted, Clean_rooted by done. by rewrite walk_under.
Qed.

Lemma walk_run_normal scope : Forall normal (walk ["run"] scope).
Proof.
  change ["run"] with (walk [] run_root). rewrite <- walk_under. apply walk_rooted_normal.
Qed.

Lemma normal_split l :
  Forall normal l → split_on "/" ("/" +:+ join l "/") = "" :: match l with [] => [""] | _ => l end.
Proof.
  intros H. simpl. f_equal. destruct l as [|c l]; [done|].
  apply (split_on_join "/"); [done|]. eapply Forall_impl; [done|]. by intros ? (? & ? & ? & ?).
Qed.

Lemma insideWorkingDirectory_spec scope :
  insideWorkingDirectory scope = true ↔ notionally_inside scope.
Proof.
  unfold insideWorkingDirectory, notionally_inside.
  destruct (IsAbs scope); [naive_solver|]. destruct (has_prefix scope "~"); [naive_solver|].
  rewrite resolved_scope.
  pose proof (normal_split _ (Forall_rev (walk_run_normal scope))) as Hsp.
  set (es := rev (walk ["run"] scope)) in *.
  assert (walk ["run"] scope = rev es) as -> by (unfold es; by rewrite rev_involutive).
  rewrite orb_true_iff, String.eqb_eq, has_prefix_spec. split.
  - intros H. split_and!; [done..|].
    assert (∃ l, es = "run" :: l) as [l ->].
    { destruct H as [H|[t H]]; rewrite H in Hsp; simpl in Hsp; destruct es as [|e es];
        simplify_eq; eauto. }
    exists (rev l). done.
  - intros (_ & _ & below & Hb). apply (f_equal (@rev _)) in Hb.
    rewrite rev_involutive, rev_app_distr in Hb. simpl in Hb. rewrite Hb.
    destruct (rev below) as [|b l]; [by left|right].
    exists (join (b :: l) "/"). by rewrite join_cons.
Qed.

Lemma scopeProblems_nil field entry :
  scopeProblems field entry = [] →
  is_Some (readOnlyTools !! entry) ∨
  ∃ tool scope, scopedTool entry = Some (tool, scope) ∧ is_Some (readOnlyTools !! tool) ∧
    scope ≠ "" ∧ scope_bounded scope.
Proof.
  unfold scopeProblems, is_read_only. intros H. no_problem; subst; auto.
  right. eexists _, _. split_and!; [done..|]. by apply notionally_inside_bounded, insideWorkingDirectory_spec.
Qed.

(** What [scopedTool] reads is the entry itself. *)
Lemma unsnoc_str_spec s init l : unsnoc_str s = Some (init, l) → s = init +:+ str l.
Proof.
  revert init. induction s as [|c s IH]; intros init; simpl; [done|].
  destruct (unsnoc_str s) as [[i d]|] eqn:E.
  - intros [= <- ->]. simpl. f_equal. auto.
  - intros [= <- ->]. destruct s; [done|]. simpl in E. by repeat split_match.
Qed.

Lemma span_str_app p s a b : span_str p s = (a, b) → s = a +:+ b.
Proof.
  revert a. induction s as [|c s IH]; intros a; simpl; [by intros [= <- <-]|].
  destruct (p c); [|by intros [= <- <-]].
  destruct (span_str p s) as [a' b'] eqn:E. intros [= <- <-]. simpl. f_equal. auto.
Qed.

Lemma scopedTool_spec entry tool scope :
  scopedTool entry = Some (tool, scope) → entry = tool +:+ "(" +:+ scope +:+ ")".
Proof.
  unfold scopedTool. intros H. repeat split_match; try done; bool_facts.
  injection H as -> ->. repeat match goal with H : Ascii.eqb _ _ = true |- _ =>
    apply Ascii.eqb_eq in H; subst end.
  match goal with H : span_str _ _ = _ |- _ => apply span_str_app in H; rewrite H end.
  match goal with H : unsnoc_str _ = _ |- _ => apply unsnoc_str_spec in H; by subst end.
Qed.

(** C37: A playbook the gate accepts keeps its agent inside its bounds: every tool is a
    read-only built-in or one individual tool of an MCP server the deployment provides, and
    none is a shell or a writing tool; every entry of the allowlist is such a tool or a
    read-only tool scoped to a relative path that, walked one directory at a time from the run's
    working directory, wherever that is, never leaves it — or leaves it only to end inside a
    directory called run, beside it or beside one it is in, which the gate takes for the working
    directory and which is not; every MCP server is provided; and turning off the restriction
    comes with a description. *)
Theorem Validate_bounds_the_agent compiles fs book dep :
  Validate compiles fs book dep = [] →
  (∀ tool, tool ∈ Tools (p_Agent book) →
     (is_Some (readOnlyTools !! tool) ∨ named_mcp_tool dep tool) ∧
     tool ∉ shells ∧ tool ∉ writingTools) ∧
  (∀ entry, entry ∈ Allow (p_Agent book) →
     named_mcp_tool dep entry ∨ is_Some (readOnlyTools !! entry) ∨
     ∃ tool scope, entry = tool +:+ "(" +:+ scope +:+ ")" ∧
       is_Some (readOnlyTools !! tool) ∧ scope_bounded scope) ∧
  (∀ server, server ∈ MCP (p_Agent book) → server ∈ MCPServers dep) ∧
  (IsRestricted (p_Agent book) = false → trim_space (Description book) ≠ "").
Proof.
  unfold Validate, validateAgent. intros H.
  apply app_nil in H as [H _]. apply app_nil in H as [Hd H].
  apply app_nil in H as [Ht H]. apply app_nil in H as [Ha H]. apply app_nil in H as [Hm _].
  split_and!.
  - intros tool (i & _ & Hi)%(each_nil _ _ Ht). unfold toolProblems, is_read_only in Hi.
    no_problem; split_and!; auto. right. by eapply mcpProblems_nil.
  - intros entry (i & _ & Hi)%(each_nil _ _ Ha). unfold allowProblems in Hi. no_problem.
    + left. by eapply mcpProblems_nil.
    + right. apply scopeProblems_nil in Hi as [?|(tool & scope & Hs & Hr & _ & Hin)]; [by left|].
      right. exists tool, scope. split_and!; [by apply scopedTool_spec|done..].
  - intros server (i & _ & Hi)%(each_nil _ _ Hm). unfold serverProblems in Hi. no_problem.
    by apply contains_elem.
  - intros Hr Hdesc. by rewrite Hr, Hdesc in Hd.
Qed.

(** ** The gate's patterns against the interpolator's

    A reference the interpolator finds is found by the gate's patterns too: the names the
    gate collects are those of {references} with a given beginning. *)

Definition no_brace (s : string) : Prop := str_all (λ c, negb (is_brace c)) s = true.

Lemma span_str_stop p u c r :
  str_all p u = true → p c = false → span_str p (u +:+ String c r) = (u, String c r).
Proof.
  induction u as [|d u IH]; simpl; [by intros _ ->|].
  intros [Hd Hu]%andb_prop Hc. by rewrite Hd, IH.
Qed.

Lemma span_str_all p s a b : span_str p s = (a, b) → str_all p a = true.
Proof.
  revert a. induction s as [|c s IH]; intros a; simpl; [by intros [= <- <-]|].
  destruct (p c) eqn:E; [|by intros [= <- <-]].
  destruct (span_str p s) as [a' b'] eqn:E'. intros [= <- <-]. simpl. rewrite E. eauto.
Qed.

Lemma span_str_next p s a c b : span_str p s = (a, String c b) → p c = false.
Proof.
  revert a. induction s as [|d s IH]; intros a; simpl; [done|].
  destruct (p d) eqn:E; [|by intros [= <- <- <-]].
  destruct (span_str p s) as [a' b'] eqn:E'. intros [= <- ->]. eauto.
Qed.

Section find.
Context (prefix : string) (stop : ascii → bool).
Context (Hstop : stop "}"%char = true) (Hprefix : no_brace prefix).

Lemma match_here_rest s name rest :
  match_here prefix stop s = Some (name, rest) → (String.length rest < String.length s)%nat.
Proof.
  unfold match_here, cut_prefix. destruct (has_prefix s prefix) eqn:E; [|done].
  apply has_prefix_drop in E. destruct (span_str _ _) as [a b] eqn:Es.
  apply span_str_app in Es. destruct b as [|c b]; [done|].
  destruct (Ascii.eqb c "}"); [|done]. intros [= <- <-]. rewrite Es in E. rewrite E.
  rewrite !str_length_app. simpl. lia.
Qed.

Lemma find_fuel_more n m s :
  (String.length s <= n)%nat → (String.length s <= m)%nat →
  find_fuel n prefix stop s = find_fuel m prefix stop s.
Proof.
  revert m s. induction n as [|n IH]; intros [|m] [|c s]; simpl; intros Hn Hm; try done; try lia.
  destruct (match_here prefix stop (String c s)) as [[name rest]|] eqn:E.
  - apply match_here_rest in E. simpl in E. f_equal. apply IH; lia.
  - apply IH; lia.
Qed.

Lemma find_all_cons c s :
  find_all prefix stop (String c s) =
    match match_here prefix stop (String c s) with
    | Some (name, rest) => name :: find_all prefix stop rest
    | None => find_all prefix stop s
    end.
Proof.
  unfold find_all at 1. simpl.
  destruct (match_here prefix stop (String c s)) as [[name rest]|] eqn:E; [|done].
  apply match_here_rest in E. simpl in E. f_equal. apply find_fuel_more; lia.
Qed.

Lemma has_prefix_no_brace p u r :
  no_brace p → has_prefix (u +:+ String "}" r) p = true → ∃ u', u = p +:+ u'.
Proof.
  revert u. induction p as [|c p IH]; intros u Hp H; [by exists u|].
  apply andb_prop in Hp as [Hc Hp]. destruct u as [|d u]; cbn [String.append has_prefix] in H;
    apply andb_prop in H as [He H]; apply Ascii.eqb_eq in He; subst.
  - done.
  - destruct (IH u Hp H) as [u' ->]. by exists u'.
Qed.

(** A match that starts before a brace ends at the first one. *)
Lemma match_here_to_brace u r name rest :
  no_brace u → match_here prefix stop (u +:+ String "}" r) = Some (name, rest) → rest = r.
Proof.
  unfold match_here, cut_prefix. intros Hu.
  destruct (has_prefix _ prefix) eqn:E; [|done].
  destruct (has_prefix_no_brace _ _ _ Hprefix E) as [u' ->].
  rewrite <- str_app_assoc, str_drop_app.
  assert (no_brace u') as Hu'.
  { unfold no_brace in *. rewrite str_all_app in Hu. by apply andb_prop in Hu as [_ ?]. }
  clear E Hu. destruct (span_str _ _) as [a b] eqn:Es. intros H.
  assert (∀ u' a, no_brace u' →
    span_str (λ c, negb (stop c)) (u' +:+ String "}" r) = (a, b) →
    (∃ r', b = String "}" r') → b = String "}" r) as Hgen.
  { clear -Hstop. induction u' as [|d u' IH]; simpl; intros a Hu' Hs Hb.
    - rewrite Hstop in Hs. simpl in Hs. by injection Hs as <- <-.
    - apply andb_prop in Hu' as [Hd Hu']. destruct (negb (stop d)).
      + destruct (span_str _ (u' +:+ _)) as [a' b'] eqn:E. injection Hs as <- <-. eauto.
      + injection Hs as <- <-. destruct Hb as [r' [= -> _]]. done. }
  destruct b as [|c b]; [done|]. destruct (Ascii.eqb c "}") eqn:Ec; [|done].
  apply Ascii.eqb_eq in Ec as ->. injection H as <- <-.
  pose proof (Hgen u' a Hu' Es (ex_intro _ _ eq_refl)) as Hb. by injection Hb as ->.
Qed.

Lemma find_all_past u r :
  no_brace u → ∃ l, find_all prefix stop (u +:+ String "}" r) = l ++ find_all prefix stop r.
Proof.
  induction u as [|c u IH]; intros Hu; simpl; rewrite find_all_cons.
  - destruct (match_here prefix stop (String "}" r)) as [[name rest]|] eqn:E; [|by exists []].
    apply (match_here_to_brace "" r name rest) in E as ->; [by exists [name]|done].
  - destruct (match_here prefix stop _) as [[name rest]|] eqn:E.
    + apply (match_here_to_brace (String c u)) in E as ->; [by exists [name]|done].
    + apply andb_prop in Hu as [_ Hu]. auto.
Qed.
End find.

(** A reading of an open reference, all at once. *)
Lemma references_go_open s off start name :
  references_go s off (Some (start, name)) =
    match span_str (λ c, negb (is_brace c)) s with
    | (a, String _ rest) =>
        mkSpan start (off + String.length a + 1) (name +:+ a)
        :: references_go rest (off + String.length a + 1) None
    | (_, EmptyString) => []
    end.
Proof.
  revert off name. induction s as [|c s IH]; intros off name; simpl; [done|].
  unfold is_brace at 1. destruct (Ascii.eqb c "}"); simpl.
  - rewrite str_app_nil_r. by replace (off + 0 + 1)%nat with (S off) by lia.
  - rewrite IH. destruct (span_str _ s) as [a [|d rest]]; [done|]. simpl.
    rewrite <- str_app_assoc. simpl.
    by replace (S (off + String.length a + 1)) with (off + S (String.length a) + 1)%nat by lia.
Qed.

Lemma references_go_found stop q s off sp key :
  stop "}"%char = true → no_brace q →
  sp ∈ references_go s off None → sp_name sp = q +:+ key →
  str_all (λ c, negb (stop c)) key = true →
  key ∈ find_all ("${" +:+ q) stop s.
Proof.
  intros Hstop Hq. remember (String.length s) as n eqn:Hn.
  revert s off Hn. induction n as [n IH] using lt_wf_ind. intros s off Hn Hsp Hname Hkey.
  assert (no_brace ("${" +:+ q)) as Hp by (by apply andb_true_intro).
  destruct s as [|c [|d s]]; simpl in Hsp; [by apply elem_of_nil in Hsp..|].
  destruct (Ascii.eqb c "$" && Ascii.eqb d "{") eqn:E.
  - apply andb_prop in E as [->%Ascii.eqb_eq ->%Ascii.eqb_eq].
    rewrite references_go_open in Hsp. destruct (span_str _ s) as [a [|e rest]] eqn:Es;
      [by apply elem_of_nil in Hsp|].
    assert (e = "}"%char ∧ s = a +:+ String e rest ∧ no_brace a) as (-> & -> & Ha).
    { pose proof (span_str_app _ _ _ _ Es) as ->. pose proof (span_str_all _ _ _ _ Es) as Ha.
      split_and!; [|done|done]. destruct (is_brace e) eqn:He; [by apply Ascii.eqb_eq in He|].
      apply span_str_next in Es. by rewrite He in Es. }
    apply elem_of_cons in Hsp as [-> |Hsp].
    + simpl in Hname. subst a. simpl.
      rewrite find_all_cons by done. unfold match_here, cut_prefix.
      replace (String "$" (String "{" ((q +:+ key) +:+ String "}" rest)))
        with (("${" +:+ q) +:+ (key +:+ String "}" rest))
        by (simpl; by rewrite <- str_app_assoc).
      rewrite (proj2 (has_prefix_spec _ ("${" +:+ q))) by eauto.
      rewrite str_drop_app, span_str_stop by (by rewrite ?Hstop). simpl. left.
    + simpl in Hn. rewrite str_length_app in Hn. simpl in Hn.
      pose proof (IH (String.length rest) ltac:(lia) rest _ eq_refl Hsp Hname Hkey) as Hin.
      destruct (find_all_past ("${" +:+ q) stop Hstop Hp ("${" +:+ a) rest) as [l Hl].
      { by apply andb_true_intro. }
      simpl in Hl |- *. rewrite Hl. apply elem_of_app. by right.
  - pose proof (IH (String.length (String d s)) ltac:(simpl in *; lia) _ _ eq_refl Hsp Hname Hkey)
      as Hin.
    rewrite find_all_cons by done.
    replace (match_here ("${" +:+ q) stop (String c (String d s))) with (@None (string * string));
      [done|].
    unfold match_here, cut_prefix. simpl.
    destruct (Ascii.eqb c "$"), (Ascii.eqb d "{"); simpl in *; done.
Qed.

Lemma references_found stop q text sp key :
  stop "}"%char = true → no_brace q → sp ∈ references text → sp_name sp = q +:+ key →
  str_all (λ c, negb (stop c)) key = true → key ∈ find_all ("${" +:+ q) stop text.
Proof. intros. by eapply references_go_found. Qed.

Lemma references_go_no_brace n s off opened sp :
  (String.length s <= n)%nat →
  match opened with Some (_, name) => no_brace name | None => True end →
  sp ∈ references_go s off opened → no_brace (sp_name sp).
Proof.
  revert s off opened. induction n as [|n IH]; intros s off opened Hn Ho Hsp.
  { destruct s; simpl in *; [by apply elem_of_nil in Hsp|lia]. }
  destruct s as [|c s]; simpl in *; [by apply elem_of_nil in Hsp|].
  destruct opened as [[start name]|].
  - destruct (Ascii.eqb c "}") eqn:E.
    + apply elem_of_cons in Hsp as [-> |Hsp]; [done|]. eapply (IH s); [lia| |done]; done.
    + eapply (IH s); [lia| |done]. simpl. unfold no_brace in *. rewrite str_all_app, Ho.
      simpl. unfold is_brace. by rewrite E.
  - destruct s as [|d s]; [by apply elem_of_nil in Hsp|].
    destruct (_ && _); (eapply IH; [| |exact Hsp]); simpl in *; [lia|done|lia|done].
Qed.

Lemma references_no_brace text sp : sp ∈ references text → no_brace (sp_name sp).
Proof. by apply (references_go_no_brace (String.length text)). Qed.

(** ** The texts the runtime interpolates *)

Lemma elem_of_sort_entries {A} (l : list (string * A)) x : x ∈ sort_entries l ↔ x ∈ l.
Proof.
  assert (∀ y (l : list (string * A)), insert_entry y l ≡ₚ y :: l) as Hins.
  { intros y l'. induction l' as [|z l' IH]; simpl; [done|].
    destruct (String.leb _ _); [done|]. rewrite IH. apply Permutation_swap. }
  unfold sort_entries. induction l as [|y l IH]; simpl; [done|].
  by rewrite Hins, !elem_of_cons, IH.
Qed.

(** Every string a value holds is named by a field below the value's own. *)
Lemma walkValue_field v :
  ∀ field h, h ∈ walkValue field v → ∃ suffix, h_field h = field +:+ suffix.
Proof.
  assert (∀ entries field h,
    Forall (λ kv : string * any, ∀ field h, h ∈ walkValue field (snd kv) →
      ∃ suffix, h_field h = field +:+ suffix) entries →
    h ∈ walkValue field (AMap entries) → ∃ suffix, h_field h = field +:+ suffix) as Hmap.
  { intros entries field h Hall H. simpl in H. apply list_elem_of_In, in_concat in H as (hs & Hhs & Hh).
    apply in_map_iff in Hhs as ([k hs'] & [= <-] & Hin). apply list_elem_of_In in Hin, Hh.
    apply elem_of_sort_entries, list_elem_of_fmap in Hin as ([k' v'] & [= -> ->] & Hkv).
    rewrite Forall_forall in Hall. destruct (Hall _ Hkv _ _ Hh) as [sfx ->].
    exists ("." +:+ k' +:+ sfx). exact (eq_sym (str_app_assoc field (String "." k') sfx)). }
  induction v as [| | | |s|items IH|entries IH|entries IH] using any_nested_ind; intros field h;
    try (by intros []%elem_of_nil); [| |by apply Hmap..].
  - intros H. apply list_elem_of_singleton in H as ->. exists "". by rewrite str_app_nil_r.
  - simpl. intros H. apply list_elem_of_In, in_concat in H as (hs & Hhs & Hh).
    apply in_map_iff in Hhs as ([i held_at] & <- & Hin). apply list_elem_of_In in Hin, Hh.
    apply elem_of_enumerate in Hin.
    apply list_lookup_fmap_Some in Hin as (x & -> & Hx%list_elem_of_lookup_2).
    rewrite Forall_forall in IH. destruct (IH _ Hx _ _ Hh) as [sfx ->].
    exists (("[" +:+ show_nat i +:+ "]") +:+ sfx). unfold at_index. apply eq_sym, str_app_assoc.
Qed.

(** The digits of an index hold no bracket. *)
Lemma digits_fuel_plain n m acc :
  str_all is_digit acc = true → str_all is_digit (digits_fuel n m acc) = true.
Proof.
  revert m acc. induction n as [|n IH]; intros m acc Hacc; simpl; [done|].
  assert (is_digit (ascii_of_N (48 + m mod 10)) = true) as Hd.
  { pose proof (N.mod_upper_bound m 10 ltac:(done)) as Hm. unfold is_digit, nat_of_ascii.
    revert Hm. generalize (m mod 10)%N. intros d Hd.
    rewrite N_ascii_embedding by lia. apply andb_true_intro; split; apply Nat.leb_le; lia. }
  destruct (m <? 10)%N; [|apply IH]; simpl; by rewrite Hd.
Qed.

Lemma show_nat_plain n : str_all is_digit (show_nat n) = true.
Proof. by apply digits_fuel_plain. Qed.

Lemma index_of_digits d r :
  str_all is_digit d = true → index_of (d +:+ String "]" r) "]" = Some (String.length d).
Proof.
  induction d as [|c d IH]; simpl; [done|]. intros [Hc Hd]%andb_prop. simpl.
  replace (Ascii.eqb c "]") with false; [simpl; by rewrite IH|].
  symmetry. apply Ascii.eqb_neq. intros ->. done.
Qed.

Lemma str_drop_S n c s : str_drop (S n) (String c s) = str_drop n s.
Proof. done. Qed.

(** The kind of an indexed field, whatever the index. *)
Lemma fieldKind_index before n rest :
  index_of (before +:+ "[") "[" = Some (String.length before) →
  fieldKind (before +:+ "[" +:+ show_nat n +:+ "]" +:+ rest) =
    match cut (before +:+ rest) "." with
    | Some (b, _) => if String.eqb b "sinks" then "sinks" else trim_prefix (before +:+ rest) "."
    | None => trim_prefix (before +:+ rest) "."
    end.
Proof.
  intros Hb. unfold fieldKind.
  assert (∀ t, index_of (before +:+ String "[" t) "[" = Some (String.length before)) as Hi.
  { intros t. revert Hb. induction before as [|c b IH]; simpl; [done|].
    destruct (Ascii.eqb c "["); simpl; [done|].
    destruct (index_of (b +:+ "[") "[") as [i|]; simpl; [|done]. intros [= ->].
    by rewrite IH. }
  simpl (String.append "[" _). rewrite Hi.
  rewrite str_drop_app, str_take_app. cbn [index_of has_prefix Ascii.eqb Bool.eqb andb].
  simpl (String.append "]" _). rewrite index_of_digits by apply show_nat_plain. simpl.
  replace (str_drop (String.length (show_nat n) + 1) _) with rest; [done|].
  by rewrite <- str_drop_drop, str_drop_app.
Qed.

Lemma fieldKind_at before n rest :
  index_of (before +:+ "[") "[" = Some (String.length before) →
  fieldKind (at_index before n +:+ rest) =
    match cut (before +:+ rest) "." with
    | Some (b, _) => if String.eqb b "sinks" then "sinks" else trim_prefix (before +:+ rest) "."
    | None => trim_prefix (before +:+ rest) "."
    end.
Proof.
  intros H. rewrite <- (fieldKind_index before n rest H). unfold at_index.
  by rewrite <- !str_app_assoc.
Qed.

Definition prompt_body (fs : string → file) (book : Playbook) : list string :=
  if String.eqb (PromptFile (p_Agent book)) "" || String.eqb (p_Path book) "" then []
  else match readPrompt (fs (PromptPath book)) with inr body => [body] | inl _ => [] end.

Definition sink_texts (book : Playbook) : list string := map h_text (each sink_held (Sinks book)).

Definition query_texts (book : Playbook) : list string := map Query (Retrieve book).

(** Every text the runtime hands to [Interpolate]: the prompt's body, the strings of the sinks'
    configurations and the retrievals' queries. *)
Definition interpolated_texts (fs : string → file) (book : Playbook) : list string :=
  prompt_body fs book ++ sink_texts book ++ query_texts book.

Definition refs_checked (dep : Deployment) (text : string) : Prop :=
  bareReference text = [] ∧ ∀ key, key ∈ configReference text → key ∈ configured dep.

Lemma refs_checked_intro field field' text dep :
  bareReferences field text = [] → unconfigured field' text (configured dep) = [] →
  refs_checked dep text.
Proof.
  unfold bareReferences, unconfigured. intros Hb Hu. split.
  - by apply map_eq_nil in Hb.
  - intros key Hk. pose proof (omap_nil _ _ Hu key Hk) as H. simpl in H.
    destruct (bool_decide (key ∈ configured dep)) eqn:E; [|done]. by bool_facts.
Qed.

Lemma sink_held_kind at_ one h : h ∈ sink_held at_ one → fieldKind (h_field h) = "sinks".
Proof.
  unfold sink_held. destruct (SinkType one) as [[name config] ok]. destruct ok;
    [|by intros []%elem_of_nil].
  intros [sfx ->]%walkValue_field. rewrite <- str_app_assoc.
  by rewrite (fieldKind_at "sinks" at_ (("." +:+ name) +:+ sfx)).
Qed.

Lemma interpolation_checked book dep h :
  validateInterpolation book dep = [] → h ∈ interpolatable book →
  resolvedHere (fieldKind (h_field h)) = true → refs_checked dep (h_text h).
Proof.
  unfold validateInterpolation. intros [H _]%app_nil Hh Hk.
  pose proof (concat_nil _ H) as Hall. specialize (Hall _ (list_elem_of_fmap_2 _ _ _ Hh)).
  simpl in Hall. rewrite Hk in Hall. apply app_nil in Hall as [? ?].
  by eapply refs_checked_intro.
Qed.

Lemma Validate_refs_checked compiles fs book dep text :
  Validate compiles fs book dep = [] → text ∈ interpolated_texts fs book → refs_checked dep text.
Proof.
  unfold Validate. intros H Ht.
  apply app_nil in H as [Ha H]. do 4 apply app_nil in H as [_ H].
  unfold interpolated_texts in Ht. rewrite !elem_of_app in Ht. destruct Ht as [Ht|[Ht|Ht]].
  - unfold validateAgent in Ha. do 4 apply app_nil in Ha as [_ Ha]. apply app_nil in Ha as [Ha _].
    unfold promptProblems in Ha. unfold prompt_body in Ht.
    destruct (String.eqb _ "" || String.eqb _ ""); [by apply elem_of_nil in Ht|].
    destruct (readPrompt _) as [|body]; [by apply elem_of_nil in Ht|].
    apply list_elem_of_singleton in Ht as ->.
    apply app_nil in Ha as [Hb Ha]. apply app_nil in Ha as [Hu _]. by eapply refs_checked_intro.
  - apply list_elem_of_fmap in Ht as (h & -> & Hh). eapply interpolation_checked; [done| |].
    + unfold interpolatable. rewrite !elem_of_app. auto 10.
    + apply elem_of_each in Hh as (i & one & _ & Hh). by rewrite (sink_held_kind _ _ _ Hh).
  - apply list_elem_of_fmap in Ht as (r & -> & Hr). apply list_elem_of_lookup in Hr as [i Hi].
    apply (interpolation_checked book dep (mkHeld (at_index "retrieve" i +:+ ".query") (Query r)));
      [done| |].
    + unfold interpolatable. rewrite !elem_of_app. do 2 right. left.
      apply elem_of_each. exists i, r. split; [done|left].
    + cbn [h_field]. by rewrite (fieldKind_at "retrieve" i ".query").
Qed.

(** ** Interpolation of an accepted text *)

Lemma references_config text sp key :
  sp ∈ references text → sp_name sp = "config." +:+ key → key ∈ configReference text.
Proof.
  intros Hsp Hn. apply (references_found is_brace "config." text sp key); try done.
  pose proof (references_no_brace _ _ Hsp) as H. unfold no_brace in H.
  rewrite Hn, str_all_app in H. by apply andb_prop in H as [_ ?].
Qed.

Lemma references_trigger text sp key :
  sp ∈ references text → sp_name sp = "trigger." +:+ key → key ∈ triggerReferencesIn text.
Proof.
  intros Hsp Hn. apply (references_found is_brace "trigger." text sp key); try done.
  pose proof (references_no_brace _ _ Hsp) as H. unfold no_brace in H.
  rewrite Hn, str_all_app in H. by apply andb_prop in H as [_ ?].
Qed.

Lemma str_all_and p q s :
  str_all p s = true → str_all q s = true → str_all (λ c, p c && q c) s = true.
Proof.
  induction s as [|c s IH]; simpl; [done|].
  intros [Hp Hps]%andb_prop [Hq Hqs]%andb_prop. by rewrite Hp, Hq, IH.
Qed.

Lemma references_bare text sp :
  sp ∈ references text → cut (sp_name sp) "." = None → sp_name sp ∈ bareReference text.
Proof.
  intros Hsp Hc. apply (references_found _ "" text sp (sp_name sp)); try done.
  pose proof (references_no_brace _ _ Hsp) as Hb.
  pose proof (cut_str "." (sp_name sp)) as Hd. change (str ".") with "." in Hd. rewrite Hc in Hd.
  eapply str_all_impl; [|exact (str_all_and _ _ _ Hb Hd)].
  intros c H. by rewrite negb_orb.
Qed.

(** The problems a reference can still have once the gate has passed its text. *)
Definition left_to_the_run (trigger : gmap string string) (sp : span) : Prop :=
  contains_str (sp_name sp) "${" = true ∨
  (∃ key, sp_name sp = "trigger." +:+ key ∧ trigger !! key = None) ∨
  ∃ ns key, cut (sp_name sp) "." = Some (ns, key) ∧ ns ≠ "config" ∧ ns ≠ "trigger".

Lemma checked_reference_problem c trigger text sp p dep :
  refs_checked dep text → sp ∈ references text → configured dep ⊆ dom (values c) →
  interpolate_one c trigger (sp_name sp) = inl p → left_to_the_run trigger sp.
Proof.
  intros [Hb Hc] Hsp Hsub. unfold interpolate_one, left_to_the_run.
  destruct (contains_str _ _); [by left|].
  destruct (cut (sp_name sp) ".") as [[ns key]|] eqn:Ecut.
  - apply cut_Some in Ecut as Hn. destruct (String.eqb ns "config") eqn:E1; bool_facts.
    + subst ns. pose proof (references_config text sp key Hsp Hn) as Hk.
      apply Hc, Hsub, elem_of_dom in Hk as [v Hv]. by rewrite Hv.
    + destruct (String.eqb ns "trigger") eqn:E2; bool_facts; [subst ns|by eauto 10].
      destruct (trigger !! key) eqn:Et; [done|]. intros _. right. left. by exists key.
  - pose proof (references_bare text sp Hsp Ecut) as H. rewrite Hb in H.
    by apply elem_of_nil in H.
Qed.

(** References a deployment cannot resolve are refused at load, not at run time: for
    every text the runtime interpolates of a playbook the gate accepts (the prompt's body, a
    sink's strings, a retrieval's query), under a configuration that holds the keys the gate
    was given, a problem Interpolate reports is an unterminated or nested reference, a source
    that is neither config nor trigger, or a name the payload does not carry; never a key
    that is not configured and never a reference that names no source. *)
Theorem Validate_references_resolve compiles fs book dep c trigger text problems p :
  Validate compiles fs book dep = [] → text ∈ interpolated_texts fs book →
  configured dep ⊆ dom (values c) →
  Interpolate c text trigger = inl problems → p ∈ problems →
  p ∈ unterminated text ∨
  ∃ sp, sp ∈ references text ∧ interpolate_one c trigger (sp_name sp) = inl p ∧
    left_to_the_run trigger sp.
Proof.
  intros HV Ht Hsub HI Hp. pose proof (Validate_refs_checked _ _ _ _ _ HV Ht) as Hck.
  unfold Interpolate in HI. rewrite interpolate_spans_weave in HI.
  assert (problems = unterminated text ++ omap (problem_of c trigger) (references text)) as ->
    by (by destruct (_ ++ _); simplify_eq).
  apply elem_of_app in Hp as [Hp|Hp]; [by left|right].
  apply list_elem_of_omap in Hp as (sp & Hsp & Hpr). exists sp.
  unfold problem_of in Hpr. destruct (interpolate_one c trigger (sp_name sp)) eqn:Ei; [|done].
  injection Hpr as ->. split_and!; [done|done|]. by eapply checked_reference_problem.
Qed.

Lemma weave_ext_in text last spans f g :
  (∀ sp, sp ∈ spans → f sp = g sp) → weave text last spans f = weave text last spans g.
Proof.
  revert last. induction spans as [|sp spans IH]; intros last H; simpl; [done|].
  rewrite (H sp), IH; [done| |left]. intros sp' H'. apply H. by right.
Qed.

Lemma omap_ext_in {A B} (f g : A → option B) (l : list A) :
  (∀ x, x ∈ l → f x = g x) → omap f l = omap g l.
Proof.
  induction l as [|x l IH]; intros H; simpl; [done|].
  assert (omap f l = omap g l) as Hl by (apply IH; intros y Hy; apply H; by right).
  rewrite (H x) by left. destruct (g x); [f_equal|]; exact Hl.
Qed.

Lemma Interpolate_untriggered c text t1 t2 :
  triggerReferencesIn text = [] → Interpolate c text t1 = Interpolate c text t2.
Proof.
  intros H. unfold Interpolate. rewrite !interpolate_spans_weave.
  assert (∀ sp, sp ∈ references text →
    interpolate_one c t1 (sp_name sp) = interpolate_one c t2 (sp_name sp)) as Hone.
  { intros sp Hsp. unfold interpolate_one. destruct (contains_str _ _); [done|].
    destruct (cut (sp_name sp) ".") as [[ns key]|] eqn:Ecut; [|done].
    destruct (String.eqb ns "config"); [done|].
    destruct (String.eqb ns "trigger") eqn:E2; [|done]. bool_facts. subst ns. exfalso.
    apply cut_Some in Ecut. pose proof (references_trigger text sp key Hsp Ecut) as Hin.
    rewrite H in Hin. by apply elem_of_nil in Hin. }
  assert (∀ sp, sp ∈ references text → replacement c t1 text sp = replacement c t2 text sp) as Hr
    by (intros sp Hsp; unfold replacement; by rewrite (Hone sp Hsp)).
  assert (∀ sp, sp ∈ references text → problem_of c t1 sp = problem_of c t2 sp) as Hp
    by (intros sp Hsp; unfold problem_of; by rewrite (Hone sp Hsp)).
  by rewrite (weave_ext_in _ _ _ _ _ Hr), (omap_ext_in _ _ _ Hp).
Qed.

(** A delivery never chooses what the prompt or a sink says: for a webhook playbook the
    gate accepts, interpolating the prompt's body or any string of any sink's configuration
    gives the same text, or the same refusal, under any two trigger payloads, so no value of
    the request's body reaches the agent's instructions, a destination, a credential or a
    cap's bucket. *)
Theorem Validate_webhook_payload_unread compiles fs book dep c text t1 t2 :
  Validate compiles fs book dep = [] → is_webhook book = true →
  text ∈ prompt_body fs book ++ sink_texts book →
  Interpolate c text t1 = Interpolate c text t2.
Proof.
  unfold Validate. intros H Hw Ht. apply Interpolate_untriggered.
  apply app_nil in H as [Ha H]. do 3 apply app_nil in H as [_ H]. apply app_nil in H as [H _].
  apply elem_of_app in Ht as [Ht|Ht].
  - unfold validateAgent in Ha. do 4 apply app_nil in Ha as [_ Ha]. apply app_nil in Ha as [Ha _].
    unfold promptProblems in Ha. unfold prompt_body in Ht.
    destruct (String.eqb _ "" || String.eqb _ ""); [by apply elem_of_nil in Ht|].
    destruct (readPrompt _) as [|body]; [by apply elem_of_nil in Ht|].
    apply list_elem_of_singleton in Ht as ->. rewrite Hw in Ha.
    do 2 apply app_nil in Ha as [_ Ha]. by apply map_eq_nil in Ha.
  - unfold validateWebhook in H. rewrite Hw in H. simpl in H.
    do 2 apply app_nil in H as [_ H]. apply app_nil in H as [H _].
    apply list_elem_of_fmap in Ht as (h & -> & (i & one & Hi & Hh)%elem_of_each).
    pose proof (each_nil_at _ _ _ _ H Hi) as Hj. unfold sinkTriggerProblems in Hj.
    pose proof (concat_nil _ Hj _ (list_elem_of_fmap_2 _ _ _ Hh)) as Hz. simpl in Hz.
    by apply map_eq_nil in Hz.
Qed.

(** ** Retrievals *)

Definition written_by (steps : list Step) : gmap string string :=
  foldl (λ written step, <[As step := byAGatherStep]> written) ∅ steps.

Lemma written_by_spec steps k v :
  written_by steps !! k = Some v → v = byAGatherStep ∧ ∃ step, step ∈ steps ∧ As step = k.
Proof.
  unfold written_by. assert (∀ w : gmap string string,
    foldl (λ written step, <[As step := byAGatherStep]> written) w steps !! k = Some v →
    w !! k = Some v ∨ v = byAGatherStep ∧ ∃ step, step ∈ steps ∧ As step = k) as H.
  { induction steps as [|s steps IH]; intros w; simpl; [by left|].
    intros [Hw|(-> & step & Hs & <-)]%IH.
    - destruct (decide (As s = k)) as [<-|Hne]; simplify_map_eq; [|by left].
      right. split; [done|]. exists s. split; [left|done].
    - right. split; [done|]. exists step. split; [by right|done]. }
  intros [Hw|?]%H; [|done]. by rewrite lookup_empty in Hw.
Qed.

Lemma written_by_dom steps step : step ∈ steps → is_Some (written_by steps !! As step).
Proof.
  unfold written_by. generalize (∅ : gmap string string).
  induction steps as [|s steps IH]; intros w Hs; [by apply elem_of_nil in Hs|]. simpl.
  apply elem_of_cons in Hs as [-> |Hs]; [|by apply IH]. clear IH.
  assert (is_Some (<[As s:=byAGatherStep]> w !! As s)) as H by (by simplify_map_eq).
  revert H. generalize (<[As s:=byAGatherStep]> w). induction steps as [|s' steps IH];
    intros w' H; simpl; [done|].
  apply IH. destruct (decide (As s' = As s)) as [->|]; simplify_map_eq; eauto.
Qed.

Definition retrieval_ok (book : Playbook) (dep : Deployment) (r : Retrieval) : Prop :=
  Collection r ∈ Collections dep ∧
  (QueryFrom r ≠ "" → ∃ step, step ∈ Gather book ∧ As step = QueryFrom r) ∧
  ResultCount r <= MaxResultsCeiling ∧ ByteBound r <= MaxBytesCeiling.

Lemma retrieve_from_nil book dep written at_ rs :
  retrieve_from book dep written at_ rs = [] →
  (∀ k, written !! k = Some byAGatherStep → ∃ step, step ∈ Gather book ∧ As step = k) →
  NoDup (map r_As rs) ∧ (∀ r, r ∈ rs → retrieval_ok book dep r ∧ written !! r_As r = None).
Proof.
  revert written at_. induction rs as [|r rs IH]; intros written at_ H Hw; simpl in H.
  { split; [constructor|by intros r []%elem_of_nil]. }
  apply app_nil in H as [Hr H]. apply IH in H as [Hnd Hall].
  2:{ intros k Hk. destruct (decide (r_As r = k)) as [<-|]; simplify_map_eq; eauto. }
  assert (retrieval_ok book dep r ∧ written !! r_As r = None) as [Hok Hnone].
  { unfold retrievalProblems in Hr. repeat (apply app_nil in Hr as [? Hr]).
    destruct (written !! r_As r); [done|]. split; [|done].
    unfold retrieval_ok, ResultCount, ByteBound, DefaultMaxResults, DefaultMaxBytes.
    split_and!.
    - destruct (negb (contains (Collections dep) (Collection r))) eqn:E; [done|].
      bool_facts. by apply contains_elem.
    - intros Hq. destruct (String.eqb (QueryFrom r) "") eqn:E1; bool_facts; [done|].
      simpl in *. destruct (String.eqb (default "" (written !! QueryFrom r)) byAGatherStep) eqn:E2;
        [|done]. bool_facts. apply Hw.
      destruct (written !! QueryFrom r); simpl in E2; by subst.
    - destruct (MaxResultsCeiling <? MaxResults r) eqn:E; [done|]. bool_facts.
      unfold MaxResultsCeiling in *. destruct (MaxResults r =? 0); lia.
    - destruct (MaxBytesCeiling <? MaxBytes r) eqn:E; [done|]. bool_facts.
      unfold MaxBytesCeiling in *. destruct (MaxBytes r =? 0); lia. }
  split.
  - simpl. constructor; [|done]. intros (r' & Heq & Hr')%list_elem_of_fmap.
    destruct (Hall r' Hr') as [_ Hn]. rewrite <- Heq in Hn. by simplify_map_eq.
  - intros r' [-> |Hr']%elem_of_cons; [done|]. destruct (Hall r' Hr') as [Hok' Hn].
    split; [done|]. by apply lookup_insert_None in Hn as [? _].
Qed.

(** The retrievals of a playbook the gate accepts are within their bounds and write to
    names of their own: each names a collection the deployment declares, returns at most the
    ceiling of results and bytes after defaults, takes its query only from an output a gather
    step writes, and its results file is written by no gather step and by no other retrieval
    of the playbook. *)
Theorem Validate_retrievals compiles fs book dep :
  Validate compiles fs book dep = [] →
  NoDup (map r_As (Retrieve book)) ∧
  ∀ r, r ∈ Retrieve book → retrieval_ok book dep r ∧
    ∀ step, step ∈ Gather book → As step ≠ r_As r.
Proof.
  unfold Validate. intros H. do 2 apply app_nil in H as [_ H]. apply app_nil in H as [H _].
  unfold validateRetrieve in H. destruct (Retrieve book) as [|r0 rs] eqn:Er.
  { split; [constructor|by intros r []%elem_of_nil]. }
  rewrite <- Er in *. apply retrieve_from_nil in H as [Hnd Hall].
  - split; [done|]. intros r Hr. destruct (Hall r Hr) as [Hok Hn]. split; [done|].
    intros step Hs Heq. pose proof (written_by_dom _ _ Hs) as [v Hv].
    rewrite Heq in Hv. unfold written_by in Hv. by rewrite Hn in Hv.
  - intros k Hk. by apply written_by_spec in Hk as [_ ?].
Qed.

(** ** Sinks *)

Definition label_ok (config : list (string * any)) : Prop :=
  ∀ v, assoc "label" config = Some v → ∃ text, v = AString text ∧
    contains_str text "," = false ∧ contains_str text "${trigger." = false ∧
    (contains_str text "${" = false → trim_space text ≠ "").

(** Every sink of a playbook the gate accepts is one key naming a type the deployment
    implements, with a mapping of settings; and a sink of a type that creates things declares
    a cap, and a label it can be counted against: a string with no comma, that does not
    resolve through the trigger and is not blank. *)
Theorem Validate_sinks compiles fs book dep one :
  Validate compiles fs book dep = [] → one ∈ Sinks book →
  ∃ name config, SinkType one = (name, config, true) ∧ name ∈ SinkTypes dep ∧
    (name ∈ CreatingSinks dep → is_Some (assoc "cap" config) ∧ label_ok config).
Proof.
  unfold Validate. intros H Hone. apply app_nil in H as [_ H]. apply app_nil in H as [H _].
  destruct (each_nil _ _ H one Hone) as (i & _ & Hi). unfold sinkProblems in Hi.
  destruct (SinkType one) as [[name config] ok]. exists name, config.
  destruct ok; [|done]. simpl in Hi. split; [done|].
  destruct (contains (SinkTypes dep) name) eqn:E1; [|done]. split; [by apply contains_elem|].
  intros Hc%contains_elem. simpl in Hi. rewrite Hc in Hi. apply app_nil in Hi as [Hcap Hl].
  split; [by destruct (assoc "cap" config)|].
  unfold labelProblems in Hl. intros v Hv. rewrite Hv in Hl.
  destruct v as [| | | |text| | |]; try done. exists text. split; [done|].
  destruct (contains_str text "${") eqn:Ed, (String.eqb (trim_space text) "") eqn:Et,
    (contains_str text ",") eqn:Ec, (contains_str text "${trigger.") eqn:Etr;
    simpl in Hl; try done; bool_facts; done.
Qed.

(** ** The webhook trigger *)

(** A webhook playbook the gate accepts declares what its trigger may carry: its source
    is configured, every declared value has a pattern that compiles, a positive maximum
    length and a pointer that is empty or begins with a slash, every payload value a gather
    step references is declared, no gather step writes the data file, and no reference of a
    gather step sits inside quotes. *)
Theorem Validate_webhook_values compiles fs book dep :
  Validate compiles fs book dep = [] → is_webhook book = true →
  t_Source (p_Trigger book) ∈ Sources dep ∧
  (∀ name declared, t_Values (p_Trigger book) !! name = Some declared →
     Pattern declared ≠ "" ∧ compiles (Pattern declared) = None ∧ 0 < MaxLength declared ∧
     (At declared = "" ∨ has_prefix (At declared) "/" = true)) ∧
  (∀ step, step ∈ Gather book → As step ≠ "trigger.json" ∧ QuotedReferences (Run step) = [] ∧
     ∀ name, name ∈ TriggerReferences (Run step) →
       is_Some (t_Values (p_Trigger book) !! name)).
Proof.
  unfold Validate. intros H Hw. do 4 apply app_nil in H as [_ H]. apply app_nil in H as [H Hq].
  unfold validateWebhook in H. rewrite Hw in H. simpl in H.
  apply app_nil in H as [Hs H]. apply app_nil in H as [Hv H]. apply app_nil in H as [_ Hg].
  split_and!.
  - destruct (contains (Sources dep) _) eqn:E; [|done]. by apply contains_elem.
  - intros name declared Hd.
    assert (name ∈ sorted_keys (t_Values (p_Trigger book))) as Hk
      by (by apply elem_of_sorted_keys).
    pose proof (concat_nil _ Hv _ (list_elem_of_fmap_2 _ _ _ Hk)) as Hp.
    unfold declaredProblems in Hp. rewrite Hd in Hp. unfold valueProblems in Hp.
    apply app_nil in Hp as [Hp Hp2]. apply app_nil in Hp2 as [Hm Ha].
    destruct (String.eqb (Pattern declared) "") eqn:E1; [done|].
    destruct (compiles (Pattern declared)) eqn:E2; [done|].
    destruct (MaxLength declared <=? 0) eqn:E3; [done|]. bool_facts. split_and!; [done|done|done|].
    destruct (String.eqb (At declared) "") eqn:E4; bool_facts; [by left|right].
    cbn [negb andb] in Ha. destruct (has_prefix (At declared) "/"); [done|discriminate Ha].
  - intros step Hstep. destruct (each_nil _ _ Hg step Hstep) as (i & Hi & Hp).
    unfold gatherTriggerProblems in Hp. apply app_nil in Hp as [Ht Hr]. split_and!.
    + intros E. rewrite E in Ht. discriminate Ht.
    + apply app_nil in Hq as [_ Hq]. pose proof (each_nil_at _ _ _ _ Hq Hi) as Hj.
      by apply map_eq_nil in Hj.
    + intros name Hn. pose proof (omap_nil _ _ Hr _ Hn) as Hx. simpl in Hx.
      by destruct (t_Values (p_Trigger book) !! name).
Qed.

(** ** A playbook the gate accepts *)

Definition alert_prompt : string := "Look into the alert of ${config.repo}.".

Definition alert_fs (path : string) : file :=
  if String.eqb path "playbooks/alert.md" then
    mkFile None None true (Z.of_nat (String.length alert_prompt)) None alert_prompt
  else mkFile (Some (true, "open " +:+ path +:+ ": no such file or directory")) None true 0 None "".

Definition alert_dep : Deployment :=
  mkDeployment ["grafana"] ["discord"; "github"] ["github"] ["runbooks"] ["repo"; "hook"]
    ["alertmanager"].

Definition alert_book : Playbook :=
  mkPlaybook "alert" "An alert becomes an issue."
    (mkTrigger "webhook" "" "alertmanager"
       {[ "name" := mkTriggerValue "/alerts/0/labels/alertname" "[A-Za-z]+" 64 ]})
    [mkStep "runbook --repo ${config.repo} ${trigger.name}" "alert.txt"]
    (mkAgent "sonnet" "alert.md" None ["Read"; "mcp__grafana__query"] ["grafana"]
       ["Read(./inputs/../inputs/**)"; "mcp__grafana__query"] ANil "10m")
    [[("github", ASink [("repo", AString "${config.repo}"); ("cap", AInt 3)])];
     [("discord", ASink [("webhook", AString "${config.hook}")])]]
    (Some (mkGuard (Some (mkRate 4 "1h")) "10m"))
    [mkRetrieval "runbooks" "${config.repo} alerts" "" "runbooks.md" 5 0]
    "playbooks/alert.yaml".

Definition any_pattern (_ : string) : option string := None.

Lemma alert_book_accepted : Validate any_pattern alert_fs alert_book alert_dep = [].
Proof. vm_compute. reflexivity. Qed.

Lemma Validate_bounds_the_agent_witness :
  named_mcp_tool alert_dep "Read(./inputs/../inputs/**)" ∨
  is_Some (readOnlyTools !! "Read(./inputs/../inputs/**)") ∨
  ∃ tool scope, "Read(./inputs/../inputs/**)" = tool +:+ "(" +:+ scope +:+ ")" ∧
    is_Some (readOnlyTools !! tool) ∧ scope_bounded scope.
Proof.
  apply (Validate_bounds_the_agent _ _ _ _ alert_book_accepted). left.
Defined.

Definition alert_config : Config :=
  mkConfig "/data" {[ "repo" := mkValue "o/r" false; "hook" := mkValue "https://h" true ]}.

Definition odd_fs (path : string) : file :=
  let prompt := "In ${config.repo}: ${env.HOME}" in
  mkFile None None true (Z.of_nat (String.length prompt)) None prompt.

Lemma Validate_references_resolve_witness :
  ∃ problems p, Interpolate alert_config "In ${config.repo}: ${env.HOME}" ∅ = inl problems ∧
    p ∈ problems ∧
    (p ∈ unterminated "In ${config.repo}: ${env.HOME}" ∨
     ∃ sp, sp ∈ references "In ${config.repo}: ${env.HOME}" ∧
       interpolate_one alert_config ∅ (sp_name sp) = inl p ∧ left_to_the_run ∅ sp).
Proof.
  eexists _, _. split; [vm_compute; reflexivity|]. split; [left|].
  apply (Validate_references_resolve any_pattern odd_fs alert_book alert_dep alert_config ∅
    "In ${config.repo}: ${env.HOME}" [unknown_source "env.HOME" "env"]).
  - vm_compute. reflexivity.
  - vm_compute. left.
  - apply (bool_decide_unpack _). vm_compute. exact I.
  - vm_compute. reflexivity.
  - left.
Defined.

Lemma Validate_webhook_payload_unread_witness :
  Interpolate alert_config alert_prompt {[ "name" := "x" ]} =
    Interpolate alert_config alert_prompt ∅.
Proof.
  apply (Validate_webhook_payload_unread any_pattern alert_fs alert_book alert_dep).
  - exact alert_book_accepted.
  - reflexivity.
  - vm_compute. left.
Defined.

Lemma Validate_retrievals_witness :
  NoDup (map r_As (Retrieve alert_book)) ∧
  ∀ r, r ∈ Retrieve alert_book → retrieval_ok alert_book alert_dep r ∧
    ∀ step, step ∈ Gather alert_book → As step ≠ r_As r.
Proof. apply (Validate_retrievals any_pattern alert_fs). exact alert_book_accepted. Defined.

Lemma Validate_sinks_witness :
  ∃ name config, SinkType [("github", ASink [("repo", AString "${config.repo}"); ("cap", AInt 3)])]
      = (name, config, true) ∧ name ∈ SinkTypes alert_dep ∧
    (name ∈ CreatingSinks alert_dep → is_Some (assoc "cap" config) ∧ label_ok config).
Proof.
  apply (Validate_sinks any_pattern alert_fs alert_book alert_dep);
    [exact alert_book_accepted|left].
Defined.

Lemma Validate_webhook_values_witness :
  "alertmanager" ∈ Sources alert_dep ∧
  (∀ name declared, t_Values (p_Trigger alert_book) !! name = Some declared →
     Pattern declared ≠ "" ∧ any_pattern (Pattern declared) = None ∧ 0 < MaxLength declared ∧
     (At declared = "" ∨ has_prefix (At declared) "/" = true)) ∧
  (∀ step, step ∈ Gather alert_book → As step ≠ "trigger.json" ∧
     QuotedReferences (Run step) = [] ∧
     ∀ name, name ∈ TriggerReferences (Run step) →
       is_Some (t_Values (p_Trigger alert_book) !! name)).
Proof.
  apply (Validate_webhook_values any_pattern alert_fs alert_book alert_dep);
    [exact alert_book_accepted|reflexivity].
Defined.

(** Refusals, with their texts. *)
Example refused_tool :
  toolProblems alert_dep 2 "Bash" =
    [mkProblem "agent.tools[2]" (dq +:+ "Bash" +:+ dq +:+ " is an unrestricted shell")
       acceptedTools] ∧
  scopeProblems "f" "Read(./a/../../etc)" ≠ [] ∧ scopeProblems "f" "Read(./a/../b/**)" = [] ∧
  mcpProblems "f" "mcp__grafana____" alert_dep ≠ [] ∧ isMCPEntry "mcp__grafana" = true.
Proof. split_and!; vm_compute; done. Qed.
