(* ===== verification/GoJson.v ===== *)
(** Go's [unicode/utf8] and [encoding/json] as the runtime calls them: counting the code
    points of a string, and [Decoder.Decode] into an [any] with [UseNumber]. *)
From S2P Require Import Prelude GoStr GoTime Playbook.

(** ** UTF-8 *)

Definition in_range (lo hi : Z) (c : ascii) : bool :=
  (lo <=? byte_of c) && (byte_of c <=? hi).

(** The bytes the first code point of a non-empty string takes; [None] is an invalid
    encoding, which Go reads as one byte. *)
Definition rune_width (s : string) : option nat :=
  match s with
  | EmptyString => None
  | String a rest =>
      if byte_of a <? 128 then Some 1%nat
      else
        let cont := in_range 128 191 in
        match rest with
        | String b rest =>
            if in_range 194 223 a then if cont b then Some 2%nat else None
            else
              match rest with
              | String c rest =>
                  if in_range 224 239 a then
                    let lo := if byte_of a =? 224 then 160 else 128 in
                    let hi := if byte_of a =? 237 then 159 else 191 in
                    if in_range lo hi b && cont c then Some 3%nat else None
                  else if in_range 240 244 a then
                    let lo := if byte_of a =? 240 then 144 else 128 in
                    let hi := if byte_of a =? 244 then 143 else 191 in
                    match rest with
                    | String d _ =>
                        if in_range lo hi b && cont c && cont d then Some 4%nat else None
                    | EmptyString => None
                    end
                  else None
              | EmptyString => None
              end
        | EmptyString => None
        end
  end.

(** [utf8.RuneCountInString]; the length of the string is fuel enough. *)
Fixpoint rune_count_fuel (fuel : nat) (s : string) : Z :=
  match fuel, s with
  | O, _ | _, EmptyString => 0
  | S fuel, String _ _ => 1 + rune_count_fuel fuel (str_drop (default 1%nat (rune_width s)) s)
  end.
Definition rune_count (s : string) : Z := rune_count_fuel (String.length s) s.

Definition byte_chr (z : Z) : ascii := ascii_of_N (Z.to_N z).

(** [utf8.AppendRune] *)
Definition encode_rune (r : Z) : string :=
  let cont k := byte_chr (128 + Z.land (Z.shiftr r k) 63) in
  if r <? 128 then str (byte_chr r)
  else if r <? 2048 then String (byte_chr (192 + Z.shiftr r 6)) (str (cont 0))
  else if r <? 65536 then String (byte_chr (224 + Z.shiftr r 12)) (String (cont 6) (str (cont 0)))
  else String (byte_chr (240 + Z.shiftr r 18))
         (String (cont 12) (String (cont 6) (str (cont 0)))).

Definition replacement_char : Z := 65533.

(** ** JSON *)

Definition json_space (c : ascii) : bool :=
  (byte_of c =? 32) || (byte_of c =? 9) || (byte_of c =? 10) || (byte_of c =? 13).
Definition skip_space (s : string) : string := snd (span_str json_space s).

Definition hex_value (c : ascii) : option Z :=
  if is_digit c then Some (byte_of c - 48)
  else if in_range 97 102 c then Some (byte_of c - 87)
  else if in_range 65 70 c then Some (byte_of c - 55)
  else None.

Definition hex4 (s : string) : option (Z * string) :=
  match s with
  | String a (String b (String c (String d rest))) =>
      match hex_value a, hex_value b, hex_value c, hex_value d with
      | Some a, Some b, Some c, Some d => Some (((a * 16 + b) * 16 + c) * 16 + d, rest)
      | _, _, _, _ => None
      end
  | _ => None
  end.

(** The code unit of an escape whose backslash and [u] are read, and a low surrogate after
    a high one; a surrogate alone is the replacement character. *)
Definition unicode_escape (s : string) : option (string * string) :=
  match hex4 s with
  | None => None
  | Some (r, rest) =>
      if (55296 <=? r) && (r <? 57344) then
        match rest with
        | String "092" (String "u" rest') =>
            match hex4 rest' with
            | Some (r', rest'') =>
                if (r <? 56320) && (56320 <=? r') && (r' <? 57344)
                then Some (encode_rune ((r - 55296) * 1024 + (r' - 56320) + 65536), rest'')
                else Some (encode_rune replacement_char, rest)
            | None => Some (encode_rune replacement_char, rest)
            end
        | _ => Some (encode_rune replacement_char, rest)
        end
      else Some (encode_rune r, rest)
  end.

Definition simple_escape (c : ascii) : option ascii :=
  if Ascii.eqb c DQ then Some DQ
  else if Ascii.eqb c BS then Some BS
  else if Ascii.eqb c "/" then Some "/"%char
  else if Ascii.eqb c "b" then Some (chr 8)
  else if Ascii.eqb c "f" then Some (chr 12)
  else if Ascii.eqb c "n" then Some NL
  else if Ascii.eqb c "r" then Some (chr 13)
  else if Ascii.eqb c "t" then Some (chr 9)
  else None.

(** A string whose opening quote is read. *)
Fixpoint json_string (fuel : nat) (s : string) : option (string * string) :=
  match fuel, s with
  | O, _ | _, EmptyString => None
  | S fuel, String c rest =>
      let more prefix rest :=
        match json_string fuel rest with
        | Some (t, rest) => Some (prefix +:+ t, rest)
        | None => None
        end in
      if Ascii.eqb c DQ then Some ("", rest)
      else if Ascii.eqb c BS then
        match rest with
        | String e rest =>
            if Ascii.eqb e "u" then
              match unicode_escape rest with Some (t, rest) => more t rest | None => None end
            else match simple_escape e with Some d => more (str d) rest | None => None end
        | EmptyString => None
        end
      else if byte_of c <? 32 then None
      else
        match rune_width s with
        | Some n => more (str_take n s) (str_drop n s)
        | None => more (encode_rune replacement_char) rest
        end
  end.

(** A run of at least one digit. *)
Definition digits1 (s : string) : option (string * string) :=
  match span_str is_digit s with
  | (EmptyString, _) => None
  | (ds, rest) => Some (ds, rest)
  end.

Definition json_number (s : string) : option (string * string) :=
  let '(sign, s) := match s with String "-" s => ("-", s) | _ => ("", s) end in
  let int :=
    match s with
    | String "0" rest => Some ("0", rest)
    | _ => digits1 s
    end in
  match int with
  | None => None
  | Some (i, s) =>
      let frac :=
        match s with
        | String "." rest =>
            match digits1 rest with Some (d, rest) => Some ("." +:+ d, rest) | None => None end
        | _ => Some ("", s)
        end in
      match frac with
      | None => None
      | Some (f, s) =>
          let exp :=
            match s with
            | String e rest =>
                if Ascii.eqb e "e" || Ascii.eqb e "E" then
                  let '(sg, rest) :=
                    match rest with
                    | String "+" r => ("+", r)
                    | String "-" r => ("-", r)
                    | _ => ("", rest)
                    end in
                  match digits1 rest with
                  | Some (d, rest) => Some (str e +:+ sg +:+ d, rest)
                  | None => None
                  end
                else Some ("", s)
            | EmptyString => Some ("", s)
            end in
          match exp with
          | None => None
          | Some (e, s) => Some (sign +:+ i +:+ f +:+ e, s)
          end
      end
  end.

(** A key met again replaces the value it had. *)
Fixpoint assoc_set {A} (key : string) (v : A) (l : list (string * A)) : list (string * A) :=
  match l with
  | [] => [(key, v)]
  | (k, w) :: l => if String.eqb k key then (k, v) :: l else (k, w) :: assoc_set key v l
  end.

Definition maxNestingDepth : Z := 10000.

(** One value and what follows it; every call reads at least one byte, so the length of the
    text is fuel enough.  [depth] is how many arrays and objects are open. *)
Fixpoint json_value (fuel : nat) (depth : Z) (s : string) : option (any * string) :=
  match fuel with
  | O => None
  | S fuel =>
      let items :=
        fix items (n : nat) (acc : list any) (s : string) : option (any * string) :=
          match n with
          | O => None
          | S n =>
              match json_value fuel (depth + 1) s with
              | None => None
              | Some (v, rest) =>
                  match skip_space rest with
                  | String "," rest => items n (acc ++ [v]) rest
                  | String "]" rest => Some (AList (acc ++ [v]), rest)
                  | _ => None
                  end
              end
          end in
      let members :=
        fix members (n : nat) (acc : list (string * any)) (s : string) : option (any * string) :=
          match n, skip_space s with
          | S n, String "034" rest =>
              match json_string fuel rest with
              | None => None
              | Some (key, rest) =>
                  match skip_space rest with
                  | String ":" rest =>
                      match json_value fuel (depth + 1) rest with
                      | None => None
                      | Some (v, rest) =>
                          match skip_space rest with
                          | String "," rest => members n (assoc_set key v acc) rest
                          | String "}" rest => Some (AMap (assoc_set key v acc), rest)
                          | _ => None
                          end
                      end
                  | _ => None
                  end
              end
          | _, _ => None
          end in
      match skip_space s with
      | String "034" rest =>
          match json_string fuel rest with
          | Some (t, rest) => Some (AString t, rest)
          | None => None
          end
      | String "[" rest =>
          if maxNestingDepth <? depth + 1 then None
          else match skip_space rest with
               | String "]" rest' => Some (AList [], rest')
               | _ => items fuel [] rest
               end
      | String "{" rest =>
          if maxNestingDepth <? depth + 1 then None
          else match skip_space rest with
               | String "}" rest' => Some (AMap [], rest')
               | _ => members fuel [] rest
               end
      | s =>
          match cut_prefix s "true", cut_prefix s "false", cut_prefix s "null" with
          | Some rest, _, _ => Some (ABool true, rest)
          | _, Some rest, _ => Some (ABool false, rest)
          | _, _, Some rest => Some (ANil, rest)
          | _, _, _ =>
              match json_number s with
              | Some (n, rest) => Some (ANumber n, rest)
              | None => None
              end
          end
      end
  end.

(** [Decode] reads the first value of the text and leaves what follows it unread; on an error
    the variable it decodes into stays nil. *)
Definition json_decode (text : string) : any :=
  match json_value (S (String.length text)) 0 text with Some (v, _) => v | None => ANil end.

Definition json_quote (s : string) : string := dq +:+ s +:+ dq.

Example decode_object :
  json_decode ("{ " +:+ json_quote "a" +:+ ": [1.50, -2e+3, true, null], "
               +:+ json_quote "a\u00e9\ud83d\ude00\\" +:+ ":" +:+ json_quote "x" +:+ "} junk") =
    AMap [("a", AList [ANumber "1.50"; ANumber "-2e+3"; ABool true; ANil]);
          ("aé😀\", AString "x")].
Proof. vm_compute. reflexivity. Qed.

Example decode_errors : map json_decode [""; "{"; "[1,]"; "01x"; "nul"] =
  [ANil; ANil; ANil; ANumber "0"; ANil].
Proof. vm_compute. reflexivity. Qed.

Example rune_counts : map rune_count [""; "abc"; "é😀"; String "200" (str "065")] =
  [0; 3; 2; 2].
Proof. vm_compute. reflexivity. Qed.
