(* ===== verification/GoRunes.v ===== *)
(** Go's [unicode] and [strings] functions that go by characters: the characters of a string,
    white space, [TrimSpace], [TrimRightFunc], [LastIndexFunc] and [Fields]. *)
From S2P Require Import Prelude GoStr GoTime GoJson.

(** The characters of a string, each as its bytes; a byte that begins none stands alone, which
    no character above 127 does. *)
Fixpoint runes_fuel (fuel : nat) (s : string) : list string :=
  match fuel, s with
  | O, _ | _, EmptyString => []
  | S fuel, _ =>
      let width := default 1%nat (rune_width s) in
      str_take width s :: runes_fuel fuel (str_drop width s)
  end.
Definition runes (s : string) : list string := runes_fuel (String.length s) s.

Definition unrunes (l : list string) : string := String.concat "" l.

(** The code points of white space. *)
Definition space_points : list Z :=
  [9; 10; 11; 12; 13; 32; 133; 160; 5760; 8232; 8233; 8239; 8287; 12288] ++ seqZ 8192 11.
Definition spaces : list string := map encode_rune space_points.
Definition IsSpace (r : string) : bool := existsb (String.eqb r) spaces.

Fixpoint drop_while (p : string → bool) (l : list string) : list string :=
  match l with
  | [] => []
  | r :: l' => if p r then drop_while p l' else l
  end.

Definition TrimSpace (s : string) : string :=
  unrunes (rev (drop_while IsSpace (rev (drop_while IsSpace (runes s))))).
Definition TrimRightSpace (s : string) : string := unrunes (rev (drop_while IsSpace (rev (runes s)))).

(** The byte the last white space of [s] begins at. *)
Fixpoint last_space_go (l : list string) (at_ : nat) (found : option nat) : option nat :=
  match l with
  | [] => found
  | r :: l => last_space_go l (at_ + String.length r) (if IsSpace r then Some at_ else found)
  end.
Definition LastSpace (s : string) : option nat := last_space_go (runes s) 0 None.

Fixpoint fields_go (l : list string) (current : string) : list string :=
  let flush := if String.eqb current "" then [] else [current] in
  match l with
  | [] => flush
  | r :: l => if IsSpace r then flush ++ fields_go l "" else fields_go l (current +:+ r)
  end.
Definition Fields (s : string) : list string := fields_go (runes s) "".

(** [utf8.RuneStart] *)
Definition RuneStart (c : ascii) : bool := negb (Z.land (byte_of c) 192 =? 128).

(** The greatest position at or below one where a character begins, or zero. *)
Fixpoint rune_start_before (text : string) (limit : nat) : nat :=
  match limit with
  | O => O
  | S before =>
      match str_drop limit text with
      | String c _ => if RuneStart c then limit else rune_start_before text before
      | EmptyString => limit
      end
  end.

(** [utf8.Valid]; the length of the text is fuel enough. *)
Fixpoint valid_fuel (fuel : nat) (s : string) : bool :=
  match fuel, s with
  | _, EmptyString => true
  | O, _ => false
  | S fuel, _ => match rune_width s with Some width => valid_fuel fuel (str_drop width s) | None => false end
  end.
Definition Valid (s : string) : bool := valid_fuel (String.length s) s.

(** ** Lemmas *)

Lemma rune_width_pos s n : rune_width s = Some n → (1 <= n)%nat.
Proof.
  unfold rune_width. intros H.
  repeat match type of H with
  | (if ?b then _ else _) = _ => destruct b
  | (match ?x with _ => _ end) = _ => destruct x
  end; simplify_eq; lia.
Qed.

Lemma unrunes_cons r l : unrunes (r :: l) = r +:+ unrunes l.
Proof. unfold unrunes. simpl. destruct l; [by rewrite str_app_nil_r|done]. Qed.

Lemma unrunes_app l l' : unrunes (l ++ l') = unrunes l +:+ unrunes l'.
Proof. induction l as [|r l IH]; [done|]. cbn [app]. by rewrite !unrunes_cons, IH, str_app_assoc. Qed.

Lemma str_drop_length n s : String.length (str_drop n s) = (String.length s - n)%nat.
Proof. revert n. induction s as [|c s IH]; intros [|n]; simpl; [done..|]. by rewrite IH. Qed.

Lemma runes_fuel_concat fuel s : (String.length s <= fuel)%nat → unrunes (runes_fuel fuel s) = s.
Proof.
  revert s. induction fuel as [|fuel IH]; intros s H; [by destruct s; simpl in *; [|lia]|].
  destruct s as [|c s]; [done|]. cbn [runes_fuel]. set (w := default 1%nat (rune_width (String c s))).
  assert (1 <= w)%nat as Hw.
  { unfold w. destruct (rune_width (String c s)) eqn:E; simpl; [by eapply rune_width_pos|lia]. }
  rewrite unrunes_cons, IH; [apply str_take_drop|]. rewrite str_drop_length. simpl in *. lia.
Qed.

Lemma runes_concat s : unrunes (runes s) = s.
Proof. by apply runes_fuel_concat. Qed.

Lemma drop_while_suffix p l : ∃ dropped, l = dropped ++ drop_while p l ∧ Forall (λ r, p r = true) dropped.
Proof.
  induction l as [|r l IH]; simpl; [by exists []|]. destruct (p r) eqn:E; [|by exists []].
  destruct IH as (d & H & Hd). exists (r :: d). split; [by simpl; f_equal|by constructor].
Qed.

(** What [TrimSpace] leaves stands in the text between white space. *)
Lemma TrimSpace_inside s :
  ∃ a b, s = a +:+ TrimSpace s +:+ b ∧ (String.length (TrimSpace s) <= String.length s)%nat.
Proof.
  unfold TrimSpace. destruct (drop_while_suffix IsSpace (runes s)) as (d & Hd & _).
  set (l := drop_while IsSpace (runes s)) in *.
  destruct (drop_while_suffix IsSpace (rev l)) as (e & He & _).
  apply (f_equal (@rev string)) in He. rewrite rev_involutive, rev_app_distr in He.
  exists (unrunes d), (unrunes (rev e)).
  assert (s = unrunes d +:+ unrunes (rev (drop_while IsSpace (rev l))) +:+ unrunes (rev e)) as H.
  { rewrite <- (runes_concat s) at 1. rewrite Hd, He at 1. by rewrite !unrunes_app. }
  split; [exact H|]. apply (f_equal String.length) in H. rewrite !str_length_app in H. lia.
Qed.

Lemma TrimRightSpace_prefix s : ∃ b, s = TrimRightSpace s +:+ b.
Proof.
  unfold TrimRightSpace. destruct (drop_while_suffix IsSpace (rev (runes s))) as (e & He & _).
  apply (f_equal (@rev string)) in He. rewrite rev_involutive, rev_app_distr in He.
  exists (unrunes (rev e)). rewrite <- (runes_concat s) at 1. rewrite He at 1. by rewrite unrunes_app.
Qed.

Lemma rune_start_before_le text limit : (rune_start_before text limit <= limit)%nat.
Proof.
  induction limit as [|limit IH]; [done|]. cbn [rune_start_before].
  destruct (str_drop _ _) as [|c r]; [done|]. destruct (RuneStart c); lia.
Qed.

Lemma rune_start_before_spec text limit c r :
  str_drop (rune_start_before text limit) text = String c r →
  RuneStart c = true ∨ rune_start_before text limit = 0%nat.
Proof.
  induction limit as [|limit IH]; [by right|]. cbn [rune_start_before].
  destruct (str_drop (S limit) text) as [|d t] eqn:E; [congruence|].
  destruct (RuneStart d) eqn:Ed; [|done]. intros H. left. congruence.
Qed.

Example trimmed : TrimSpace (" " +:+ encode_rune 8232 +:+ "a b" +:+ nl +:+ encode_rune 160) = "a b" ∧
  Fields ("a" +:+ encode_rune 8195 +:+ " bc ") = ["a"; "bc"] ∧ LastSpace "ab cé f" = Some 6%nat.
Proof. vm_compute. done. Qed.
