(* ===== verification/Values.v ===== *)
(** The values a webhook trigger declares, taken from a delivery's body and checked:
    [src/runtime/internal/playbook/values.go]. *)
From S2P Require Import Prelude GoStr GoTime Config Playbook Gate GoJson.

(** ** [strconv.Atoi] *)

Fixpoint digits_value (s : string) (acc : Z) : Z :=
  match s with EmptyString => acc | String c s => digits_value s (10 * acc + (byte_of c - 48)) end.

Definition Atoi (s : string) : option Z :=
  let '(neg, ds) :=
    match s with
    | String c r => if Ascii.eqb c "-" then (true, r) else if Ascii.eqb c "+" then (false, r)
                    else (false, s)
    | EmptyString => (false, s)
    end in
  if String.eqb ds "" || negb (str_all is_digit ds) then None
  else
    let v := digits_value ds 0 in
    let v := if neg then - v else v in
    if (i64_min <=? v) && (v <=? i64_max) then Some v else None.

(** ** JSON Pointer *)

Definition unescape_segment (segment : string) : string :=
  replace_all (replace_all segment "~1" "/") "~0" "~".

Definition at_segment (node : any) (segment : string) : any :=
  match node with
  | AMap entries => default ANil (assoc segment entries)
  | AList items =>
      match Atoi segment with
      | Some index =>
          if (index <? 0) || (Z.of_nat (length items) <=? index) then ANil
          else default ANil (items !! Z.to_nat index)
      | None => ANil
      end
  | _ => ANil
  end.

(** The loop returns nil at the first segment that does not resolve; nil resolves no further
    segment, so folding over the rest returns the same. *)
Definition AtPointer (document : any) (pointer : string) : any :=
  if String.eqb pointer "" then document
  else foldl (λ node segment, at_segment node (unescape_segment segment)) document
         (tail (split pointer "/")).

Definition Extract (trigger : Trigger) (body : string) : gmap string any :=
  let decoded := json_decode body in
  (λ declared, AtPointer decoded (At declared)) <$> t_Values trigger.

(** ** Checking *)

Definition ValueAbsent : string := "absent".
Definition ValueNotSingle : string := "not_single".
Definition ValueTooLong : string := "too_long".
Definition ValueNoMatch : string := "no_match".
Definition ValueLeadingDash : string := "leading_dash".

Record ValueRefusal := mkValueRefusal { v_Name : string; Kind : string; v_Problem : Problem }.

Definition SingleValue (raw : any) : option string :=
  match raw with
  | AString typed => Some typed
  | ANumber typed => Some typed
  | ABool typed => Some (if typed then "true" else "false")
  | _ => None
  end.

Section check.
(** [regexp.Compile]: its error, or the compiled pattern's [MatchString]. *)
Context (regexp : string → string + (string → bool)).

Definition anchoredMatch (pattern text : string) : string + bool :=
  match regexp ("^(?:" +:+ pattern +:+ ")$") with
  | inl err => inl err
  | inr matches => inr (matches text)
  end.

Definition gatherReferenced (book : Playbook) : gset string :=
  list_to_set (concat (map (λ step, TriggerReferences (Run step)) (Gather book))).

(** One iteration of the loop of [Check]. *)
Definition check_one (book : Playbook) (referenced : gset string) (values : gmap string any)
    (name : string) (declared : TriggerValue) : ValueRefusal + string :=
  let field := Name book +:+ ": trigger.values." +:+ name in
  let refuse kind found accepted := inl (mkValueRefusal name kind (mkProblem field found accepted)) in
  match default ANil (values !! name) with
  | ANil => refuse ValueAbsent "absent" ("a single value at " +:+ At declared)
  | raw =>
      match SingleValue raw with
      | None =>
          refuse ValueNotSingle
            (quote name +:+ " is not a single value (" +:+ type_name raw +:+ ")")
            "a JSON string, number or boolean"
      | Some text =>
          let length := rune_count text in
          if MaxLength declared <? length then
            refuse ValueTooLong
              (show_Z length +:+ " Unicode code points, and the declared limit is "
               +:+ show_Z (MaxLength declared))
              ("at most " +:+ show_Z (MaxLength declared) +:+ " Unicode code points")
          else
            match anchoredMatch (Pattern declared) text with
            | inl err =>
                refuse ValueNoMatch
                  ("its pattern " +:+ quote (Pattern declared) +:+ " does not compile: " +:+ err)
                  "a valid RE2 pattern"
            | inr false =>
                refuse ValueNoMatch
                  (quote text +:+ " does not wholly match its declared pattern "
                   +:+ quote (Pattern declared))
                  ("a value wholly matching " +:+ Pattern declared)
            | inr true =>
                if bool_decide (name ∈ referenced) && has_prefix text "-" then
                  refuse ValueLeadingDash
                    (quote text +:+ " begins with a dash and is bound into a gather step")
                    ("a value that does not begin with -; a gather step would read it as an "
                     +:+ "option")
                else inr text
            end
      end
  end.

Fixpoint check_all (book : Playbook) (referenced : gset string) (values : gmap string any)
    (names : list string) (refusals : list ValueRefusal) (checked : gmap string string)
  : list ValueRefusal * gmap string string :=
  match names with
  | [] => (refusals, checked)
  | name :: names =>
      match t_Values (p_Trigger book) !! name with
      | None => check_all book referenced values names refusals checked
      | Some declared =>
          match check_one book referenced values name declared with
          | inl refusal =>
              check_all book referenced values names (refusals ++ [refusal]) checked
          | inr text =>
              check_all book referenced values names refusals (<[name := text]> checked)
          end
      end
  end.

Definition Check_ (book : Playbook) (values : gmap string any)
  : list ValueRefusal + gmap string string :=
  let '(refusals, checked) :=
    check_all book (gatherReferenced book) values (sorted_keys (t_Values (p_Trigger book))) [] ∅ in
  match refusals with
  | [] => inr checked
  | _ => inl refusals
  end.

(** ** What a checked value is *)

Definition value_ok (book : Playbook) (declared : TriggerValue) (name : string) (raw : any)
    (text : string) : Prop :=
  SingleValue raw = Some text ∧ rune_count text <= MaxLength declared ∧
  (∃ matches, regexp ("^(?:" +:+ Pattern declared +:+ ")$") = inr matches ∧
     matches text = true) ∧
  ((∃ step, step ∈ Gather book ∧ name ∈ TriggerReferences (Run step)) →
     has_prefix text "-" = false).

Lemma elem_of_gatherReferenced book name :
  name ∈ gatherReferenced book ↔
  ∃ step, step ∈ Gather book ∧ name ∈ TriggerReferences (Run step).
Proof.
  unfold gatherReferenced. rewrite elem_of_list_to_set, list_elem_of_In, in_concat. split.
  - intros (l & Hl & Hn). apply in_map_iff in Hl as (step & <- & Hs).
    exists step. by rewrite <- !list_elem_of_In in *.
  - intros (step & Hs & Hn). exists (TriggerReferences (Run step)).
    rewrite in_map_iff, <- list_elem_of_In. split; [|done]. exists step.
    by rewrite <- list_elem_of_In.
Qed.

Lemma check_one_ok book values name declared text :
  check_one book (gatherReferenced book) values name declared = inr text ↔
  value_ok book declared name (default ANil (values !! name)) text.
Proof.
  unfold check_one, value_ok, anchoredMatch. rewrite <- elem_of_gatherReferenced.
  split.
  - intros H. repeat split_match; try done; simplify_eq; bool_facts; split_and!; try done;
      eauto; intros ?; case_bool_decide; simpl in *; done.
  - intros (Hs & Hl & (m & Hm & Hmt) & Hd).
    destruct (default ANil (values !! name)) as [|b|n|z|s|l|e|e]; try done; simpl in *;
      injection Hs as ->; rewrite (proj2 (Z.ltb_ge _ _) Hl), Hm, Hmt;
      case_bool_decide; simpl; rewrite ?Hd by done; done.
Qed.

Lemma check_one_refuses book values name declared refusal :
  check_one book (gatherReferenced book) values name declared = inl refusal →
  v_Name refusal = name ∧ ∀ text, ¬ value_ok book declared name (default ANil (values !! name)) text.
Proof.
  intros H. split.
  - unfold check_one in H. repeat split_match; by simplify_eq.
  - intros text Hok%check_one_ok. congruence.
Qed.

Definition judge (book : Playbook) (values : gmap string any) (name : string)
  : option (ValueRefusal + string) :=
  check_one book (gatherReferenced book) values name <$> t_Values (p_Trigger book) !! name.

Definition refused (book : Playbook) (values : gmap string any) (name : string)
  : option ValueRefusal :=
  match judge book values name with Some (inl refusal) => Some refusal | _ => None end.

Lemma check_all_refusals book values names refusals checked :
  fst (check_all book (gatherReferenced book) values names refusals checked) =
    refusals ++ omap (refused book values) names.
Proof.
  revert refusals checked. induction names as [|name names IH]; intros refusals checked; simpl.
  { by rewrite app_nil_r. }
  unfold refused at 1, judge. destruct (t_Values (p_Trigger book) !! name); simpl; [|apply IH].
  destruct (check_one _ _ _ _ _); rewrite IH; [by rewrite <- app_assoc|done].
Qed.

Lemma check_all_checked book values names refusals checked n text :
  omap (refused book values) names = [] →
  snd (check_all book (gatherReferenced book) values names refusals checked) !! n = Some text ↔
    (n ∈ names ∧ judge book values n = Some (inr text)) ∨
    ((n ∉ names ∨ judge book values n = None) ∧ checked !! n = Some text).
Proof.
  revert refusals checked. induction names as [|name names IH]; intros refusals checked H; simpl.
  { set_solver. }
  simpl in H. unfold refused at 1 in H. unfold judge in H at 1.
  rewrite elem_of_cons. destruct (t_Values (p_Trigger book) !! name) as [d|] eqn:Ed; simpl in *.
  - destruct (check_one _ _ _ _ _) as [r|t] eqn:Ec; [done|].
    rewrite (IH _ _ H).
    assert (judge book values name = Some (inr t)) as Hj by (unfold judge; rewrite Ed; simpl; congruence).
    destruct (decide (n = name)) as [->|Hne];
      [rewrite lookup_insert_eq, Hj|rewrite lookup_insert_ne by done];
      destruct (decide (name ∈ names)); naive_solver.
  - rewrite (IH _ _ H).
    assert (judge book values name = None) as Hj by (unfold judge; by rewrite Ed).
    destruct (decide (n = name)) as [->|Hne]; naive_solver.
Qed.

Lemma judge_declared book values n j :
  judge book values n = Some j → ∃ d, t_Values (p_Trigger book) !! n = Some d ∧
    check_one book (gatherReferenced book) values n d = j.
Proof. unfold judge. destruct (_ !! n) as [d|]; simpl; [|done]. intros [= <-]. eauto. Qed.

Lemma judge_intro book values n d :
  t_Values (p_Trigger book) !! n = Some d →
  n ∈ sorted_keys (t_Values (p_Trigger book)) ∧
  judge book values n = Some (check_one book (gatherReferenced book) values n d).
Proof. intros H. unfold judge. rewrite H. split; [apply elem_of_sorted_keys; eauto|done]. Qed.

Lemma refused_judge book values n r :
  refused book values n = Some r ↔ judge book values n = Some (inl r).
Proof. unfold refused. destruct (judge book values n) as [[]|]; naive_solver. Qed.

Lemma refused_name book values n r : refused book values n = Some r → v_Name r = n.
Proof.
  intros (d & _ & H)%refused_judge%judge_declared. by apply check_one_refuses in H as [? _].
Qed.

Lemma refused_names book values :
  let names := sorted_keys (t_Values (p_Trigger book)) in
  let refusals := omap (refused book values) names in
  NoDup (map v_Name refusals) ∧
  ∀ name, name ∈ map v_Name refusals ↔ ∃ declared,
    t_Values (p_Trigger book) !! name = Some declared ∧
    ∀ text, ¬ value_ok book declared name (default ANil (values !! name)) text.
Proof.
  intros names refusals. split.
  - pose proof (sorted_keys_NoDup (t_Values (p_Trigger book))) as Hnd. fold names in Hnd.
    unfold refusals. induction Hnd as [|n l Hn Hnd IH]; simpl; [constructor|].
    destruct (refused book values n) as [x|] eqn:Ex; [|done]. simpl.
    constructor; [|done]. rewrite (refused_name _ _ _ _ Ex).
    intros (y & -> & (m & Hm & Hy)%list_elem_of_omap)%list_elem_of_fmap.
    by rewrite (refused_name _ _ _ _ Hy) in Hn.
  - intros n. rewrite list_elem_of_fmap. split.
    + intros (x & -> & (m & Hm & Hx)%list_elem_of_omap). rewrite (refused_name _ _ _ _ Hx).
      apply refused_judge, judge_declared in Hx as (d & Hd & [_ Hno]%check_one_refuses). eauto.
    + intros (d & Hd & Hno). destruct (judge_intro book values n d Hd) as [Hn Hj].
      destruct (check_one _ _ _ n d) as [x|t] eqn:E.
      * exists x. apply refused_judge in Hj. split; [by rewrite (refused_name _ _ _ _ Hj)|].
        apply list_elem_of_omap. eauto.
      * apply check_one_ok in E. by destruct (Hno t).
Qed.

Lemma checked_names book values (checked : gmap string string) :
  omap (refused book values) (sorted_keys (t_Values (p_Trigger book))) = [] →
  (∀ n text, checked !! n = Some text ↔
     n ∈ sorted_keys (t_Values (p_Trigger book)) ∧ judge book values n = Some (inr text)) →
  (∀ name, is_Some (checked !! name) ↔ is_Some (t_Values (p_Trigger book) !! name)) ∧
  ∀ name text, checked !! name = Some text → ∃ declared,
    t_Values (p_Trigger book) !! name = Some declared ∧
    value_ok book declared name (default ANil (values !! name)) text.
Proof.
  intros Ho Hc. split.
  - intros n. split.
    + intros [t [_ (d & Hd & _)%judge_declared]%Hc]. eauto.
    + intros [d Hd]. destruct (judge_intro book values n d Hd) as [Hn Hj].
      destruct (check_one _ _ _ n d) as [x|t]; [|exists t; by apply Hc].
      apply refused_judge in Hj. assert (x ∈ []) as []%elem_of_nil.
      rewrite <- Ho. apply list_elem_of_omap. eauto.
  - intros n t [_ (d & Hd & Hok)%judge_declared]%Hc. exists d. split; [done|].
    by apply check_one_ok.
Qed.

(** Check accepts a delivery's values exactly when every declared one is sound, and says
    so of each: on success the result holds every declared name and nothing else, each with
    the text of its single JSON value, no longer than declared, wholly matching its anchored
    pattern and not beginning with a dash when a gather step references it; otherwise it
    refuses, once each, exactly the declared names that are not sound, never stopping at the
    first. *)
Theorem Check_exact book values :
  match Check_ book values with
  | inr checked =>
      (∀ name, is_Some (checked !! name) ↔ is_Some (t_Values (p_Trigger book) !! name)) ∧
      ∀ name text, checked !! name = Some text → ∃ declared,
        t_Values (p_Trigger book) !! name = Some declared ∧
        value_ok book declared name (default ANil (values !! name)) text
  | inl refusals =>
      refusals ≠ [] ∧ NoDup (map v_Name refusals) ∧
      ∀ name, name ∈ map v_Name refusals ↔ ∃ declared,
        t_Values (p_Trigger book) !! name = Some declared ∧
        ∀ text, ¬ value_ok book declared name (default ANil (values !! name)) text
  end.
Proof.
  unfold Check_. set (names := sorted_keys _).
  pose proof (check_all_refusals book values names [] ∅) as Hr.
  pose proof (λ n text, check_all_checked book values names [] ∅ n text) as Hc.
  destruct (check_all _ _ _ _ _ _) as [refusals checked]. simpl in Hr, Hc. subst refusals.
  pose proof (refused_names book values) as Hrefused. simpl in Hrefused.
  destruct (omap (refused book values) names) as [|r rs] eqn:Eo.
  - apply checked_names; [done|]. intros n t. rewrite Hc by done. rewrite lookup_empty. naive_solver.
  - rewrite <- Eo. split; [by rewrite Eo|]. done.
Qed.
End check.

(** ** The code on concrete deliveries *)

Example pointer_examples :
  let doc := json_decode ("{" +:+ json_quote "a/b" +:+ ": [10, {" +:+ json_quote "~" +:+ ": true}]}") in
  AtPointer doc "/a~1b/0" = ANumber "10" ∧ AtPointer doc "/a~1b/1/~0" = ABool true ∧
  AtPointer doc "/a~1b/2" = ANil ∧ AtPointer doc "/a/b" = ANil ∧
  (* an index RFC 6901 does not allow *)
  AtPointer doc "/a~1b/+00" = ANumber "10" ∧
  (* a pointer with no slash at all names the whole document *)
  AtPointer doc "a" = doc.
Proof. vm_compute. done. Qed.
