(* ===== verification/Loader.v ===== *)
(** Reading a directory of playbooks: [src/runtime/internal/playbook/load.go].

    What [os.ReadDir] lists and what reading and parsing one file gives (the YAML decoder and
    the schema are third-party) are arguments; the gate is the one of [Gate]. *)
From S2P Require Import Prelude GoStr GoTime GoPath Config Playbook Gate.

Record Refusal := mkRefusal { r_Path : string; Reason : option string; Problems : list Problem }.

Definition Refusal_Error (r : Refusal) : string :=
  r_Path r +:+ match Reason r with Some reason => ": " +:+ reason | None => "" end
  +:+ String.concat "" (map (λ p, nl +:+ "  " +:+ Problem_Error p) (Problems r)).

Record Loaded := mkLoaded { Playbooks : list Playbook; Refusals : list Refusal }.

Definition OK (l : Loaded) : bool := (length (Refusals l) =? 0)%nat.

(** [errors.Join]: one refusal to a line. *)
Definition Err (l : Loaded) : option string :=
  match Refusals l with
  | [] => None
  | refusals => Some (join (map Refusal_Error refusals) nl)
  end.

Section load.
Context (compiles : string → option string) (fs : string → file).
Context (ReadDir : string → string + list (string * bool)).
Context (ParseFile : string → string + Playbook).

Definition is_playbook_file (entry : string * bool) : bool :=
  let '(name, is_dir) := entry in
  negb is_dir && (String.eqb (Ext name) ".yaml" || String.eqb (Ext name) ".yml").

Definition playbook_paths (dir : string) (entries : list (string * bool)) : list string :=
  sort_strings (map (λ entry, Join [dir; fst entry]) (List.filter is_playbook_file entries)).

(** One iteration; [seen] maps a name to the base of the path that declared it first. *)
Definition load_one (dep : Deployment) (path : string) (loaded : Loaded)
    (seen : gmap string string) : Loaded * gmap string string :=
  let refuse r := (mkLoaded (Playbooks loaded) (Refusals loaded ++ [r]), seen) in
  match ParseFile path with
  | inl err => refuse (mkRefusal path (Some err) [])
  | inr book =>
      match seen !! Name book with
      | Some first =>
          refuse (mkRefusal path
            (Some ("name: " +:+ quote (Name book) +:+ " is already declared by " +:+ first)) [])
      | None =>
          match Validate compiles fs book dep with
          | [] => (mkLoaded (Playbooks loaded ++ [book]) (Refusals loaded),
                   <[Name book := Base path]> seen)
          | problems => refuse (mkRefusal path None problems)
          end
      end
  end.

Fixpoint load_all (dep : Deployment) (paths : list string) (loaded : Loaded)
    (seen : gmap string string) : Loaded :=
  match paths with
  | [] => loaded
  | path :: paths =>
      let '(loaded, seen) := load_one dep path loaded seen in load_all dep paths loaded seen
  end.

Definition Load (dir : string) (dep : Deployment) : string + Loaded :=
  match ReadDir dir with
  | inl err => inl ("reading the playbook directory: " +:+ err)
  | inr entries => inr (load_all dep (playbook_paths dir entries) (mkLoaded [] []) ∅)
  end.

Definition LoadFile (path : string) (dep : Deployment) : string + Playbook :=
  let* loaded := Load (Dir path) dep in
  if negb (OK loaded) then inl (default "" (Err loaded))
  else
    match List.find (λ book, String.eqb (Clean (p_Path book)) (Clean path)) (Playbooks loaded) with
    | Some book => inr book
    | None => inl (Base path +:+ " is not among the playbooks in " +:+ Dir path)
    end.

Definition Find (l : Loaded) (name : string) : option Playbook :=
  List.find (λ book, String.eqb (Name book) name) (Playbooks l).

Definition Names (l : Loaded) : list string := sort_strings (map Name (Playbooks l)).

(** ** What is loaded *)

(** The loader's invariant: the accepted playbooks pass the gate and have names of their own,
    which are the names seen. *)
Definition sound (dep : Deployment) (loaded : Loaded) (seen : gmap string string) : Prop :=
  NoDup (map Name (Playbooks loaded)) ∧
  (∀ name, is_Some (seen !! name) ↔ name ∈ map Name (Playbooks loaded)) ∧
  ∀ book, book ∈ Playbooks loaded → Validate compiles fs book dep = [].

Ltac refused := eexists; split; [|split; reflexivity]; reflexivity.

Lemma load_one_sound dep path loaded seen :
  sound dep loaded seen →
  let '(loaded', seen') := load_one dep path loaded seen in
  sound dep loaded' seen' ∧
  ((∃ book, ParseFile path = inr book ∧ Playbooks loaded' = Playbooks loaded ++ [book] ∧
      Refusals loaded' = Refusals loaded) ∨
   (∃ r, r_Path r = path ∧ Playbooks loaded' = Playbooks loaded ∧
      Refusals loaded' = Refusals loaded ++ [r])).
Proof.
  intros (Hnd & Hseen & Hval). unfold load_one.
  destruct (ParseFile path) as [err|book] eqn:Ep; [split; [done|right; refused]|].
  destruct (seen !! Name book) as [first|] eqn:Es; [split; [done|right; refused]|].
  destruct (Validate compiles fs book dep) eqn:Ev; [|split; [done|right; refused]].
  split; [|left; by eexists]. unfold sound; simpl. rewrite map_app. simpl. split_and!.
  - apply NoDup_app. split_and!; [done| |apply NoDup_singleton].
    intros name Hn%Hseen ->%list_elem_of_singleton. rewrite Es in Hn. by destruct Hn.
  - intros name. rewrite elem_of_app, list_elem_of_singleton, <- Hseen.
    destruct (decide (Name book = name)) as [<-|Hne]; simplify_map_eq; naive_solver.
  - intros b [Hb| ->%list_elem_of_singleton]%elem_of_app; [auto|done].
Qed.

Lemma load_all_sound dep paths loaded seen :
  sound dep loaded seen →
  let loaded' := load_all dep paths loaded seen in
  (∃ seen', sound dep loaded' seen') ∧
  ∃ books refusals,
    Playbooks loaded' = Playbooks loaded ++ books ∧
    Refusals loaded' = Refusals loaded ++ refusals ∧
    (∀ path, path ∈ paths → (∃ book, book ∈ books ∧ ParseFile path = inr book) ∨
                            path ∈ map r_Path refusals) ∧
    (length books + length refusals = length paths)%nat.
Proof.
  revert loaded seen. induction paths as [|path paths IH]; intros loaded seen H; simpl.
  { split; [eauto|]. exists [], []. rewrite !app_nil_r.
    split_and!; [done|done|by intros ? []%elem_of_nil|done]. }
  pose proof (load_one_sound dep path loaded seen H) as H1.
  destruct (load_one dep path loaded seen) as [l1 s1]. destruct H1 as [Hs Hcase].
  destruct (IH l1 s1 Hs) as (Hs' & books & refusals & Hb & Hr & Hall & Hlen).
  split; [done|].
  destruct Hcase as [(book & Hp & Hb1 & Hr1)|(r & Hp & Hb1 & Hr1)].
  - exists (book :: books), refusals. rewrite Hb, Hr, Hb1, Hr1, <- app_assoc. simpl.
    split_and!; [done|done| |lia].
    intros p [-> |Hin]%elem_of_cons; [left; exists book; split; [left|done]|].
    destruct (Hall p Hin) as [(b & ? & ?)|?]; [left; exists b; split; [by right|done]|by right].
  - exists books, (r :: refusals). rewrite Hb, Hr, Hb1, Hr1, <- app_assoc. simpl.
    split_and!; [done|done| |lia].
    intros p [-> |Hin]%elem_of_cons; [right; simpl; rewrite Hp; left|].
    destruct (Hall p Hin) as [?|?]; [by left|right; by right].
Qed.

Lemma sound_nothing dep : sound dep (mkLoaded [] []) ∅.
Proof.
  unfold sound; simpl. split_and!; [constructor| |by intros ? []%elem_of_nil].
  intros name. rewrite lookup_empty. split; [by intros []|by intros []%elem_of_nil].
Qed.

Lemma Load_sound dir dep loaded :
  Load dir dep = inr loaded → ∃ seen, sound dep loaded seen.
Proof.
  unfold Load. destruct (ReadDir dir) as [|entries]; [done|]. intros [= <-].
  apply load_all_sound, sound_nothing.
Qed.

(** Loading a directory accounts for every playbook file of it, once: each .yaml or .yml
    entry that is not a directory is parsed into an accepted playbook or refused under its own
    path, none stops the reading of the others, and the accepted playbooks pass the gate and
    have pairwise different names. *)
Theorem Load_accounts_for_every_file dir dep entries :
  ReadDir dir = inr entries →
  ∃ loaded, Load dir dep = inr loaded ∧
    NoDup (map Name (Playbooks loaded)) ∧
    (∀ book, book ∈ Playbooks loaded → Validate compiles fs book dep = []) ∧
    (∀ name, (name, false) ∈ entries → Ext name = ".yaml" ∨ Ext name = ".yml" →
       (∃ book, book ∈ Playbooks loaded ∧ ParseFile (Join [dir; name]) = inr book) ∨
       Join [dir; name] ∈ map r_Path (Refusals loaded)) ∧
    (length (Playbooks loaded) + length (Refusals loaded) =
       length (List.filter is_playbook_file entries))%nat.
Proof.
  intros Hdir. unfold Load. rewrite Hdir. eexists. split; [done|].
  destruct (Load_sound dir dep (load_all dep (playbook_paths dir entries) (mkLoaded [] []) ∅))
    as (seen & Hnd & _ & Hval); [unfold Load; by rewrite Hdir|].
  destruct (load_all_sound dep (playbook_paths dir entries) (mkLoaded [] []) ∅)
    as (_ & books & refusals & Hb & Hr & Hall & Hlen); [apply sound_nothing|].
  simpl in Hb, Hr. rewrite Hb, Hr in *. split_and!; [done|done| |].
  - intros name Hn He. apply Hall. unfold playbook_paths. apply elem_of_sort_strings.
    apply list_elem_of_fmap. exists (name, false). split; [done|].
    apply list_elem_of_In, filter_In. split; [by apply list_elem_of_In|].
    unfold is_playbook_file. by destruct He as [-> | ->].
  - rewrite Hlen. unfold playbook_paths. rewrite sort_strings_perm. by rewrite length_map.
Qed.

Lemma find_by_name l b :
  NoDup (map Name (Playbooks l)) → b ∈ Playbooks l → Find l (Name b) = Some b.
Proof.
  unfold Find. induction (Playbooks l) as [|x books IH]; simpl; intros Hnd Hb;
    [by apply elem_of_nil in Hb|].
  inversion_clear Hnd. apply elem_of_cons in Hb as [-> |Hb]; [by rewrite String.eqb_refl|].
  destruct (String.eqb (Name x) (Name b)) eqn:E; [|auto]. bool_facts.
  exfalso. match goal with H : _ ∉ _ |- _ => apply H end.
  rewrite E. apply list_elem_of_fmap. eauto.
Qed.

Lemma LoadFile_gives path dep book : LoadFile path dep = inr book →
  ∃ loaded, Load (Dir path) dep = inr loaded ∧ book ∈ Playbooks loaded ∧ Validate compiles fs book dep = [] ∧
    Clean (p_Path book) = Clean path.
Proof.
  unfold LoadFile. destruct (Load (Dir path) dep) as [err|loaded] eqn:El; [done|].
  destruct (OK loaded) eqn:Eok; [|done]. simpl.
  destruct (List.find _ (Playbooks loaded)) as [b|] eqn:Ef; [|done]. intros [= ->].
  apply find_some in Ef as [Hin%list_elem_of_In Hp%String.eqb_eq].
  destruct (Load_sound _ _ _ El) as (seen & Hnd & _ & Hval). exists loaded. split_and!; auto.
Qed.

(** Re-reading one playbook accepts only what a start would arm: when LoadFile gives a
    playbook, the whole directory loaded with no refusal, the playbook is one of those loaded
    and passes the gate, its path is the one asked for, and its name is that of no other
    playbook of the directory. *)
Theorem LoadFile_is_a_start path dep book :
  LoadFile path dep = inr book →
  ∃ loaded, Load (Dir path) dep = inr loaded ∧ Refusals loaded = [] ∧
    book ∈ Playbooks loaded ∧ Validate compiles fs book dep = [] ∧
    Clean (p_Path book) = Clean path ∧ Find loaded (Name book) = Some book ∧
    NoDup (map Name (Playbooks loaded)).
Proof.
  unfold LoadFile. destruct (Load (Dir path) dep) as [err|loaded] eqn:El; [done|].
  destruct (OK loaded) eqn:Eok; [|done]. simpl.
  destruct (List.find _ (Playbooks loaded)) as [b|] eqn:Ef; [|done]. intros [= ->].
  apply find_some in Ef as [Hin%list_elem_of_In Hp%String.eqb_eq].
  destruct (Load_sound _ _ _ El) as (seen & Hnd & _ & Hval).
  unfold OK in Eok. apply Nat.eqb_eq, nil_length_inv in Eok.
  exists loaded. split_and!; auto. by apply find_by_name.
Qed.
End load.

(** ** A directory of two playbooks *)

Definition plain_book (name path : string) : Playbook :=
  mkPlaybook name "" (mkTrigger "manual" "" "" ∅) []
    (mkAgent "sonnet" "" None ["Read"] [] [] ANil "") [] None [] path.

Definition two_dir (dir : string) : string + list (string * bool) :=
  if String.eqb dir "p" then
    inr [("b.yml", false); ("notes.md", false); ("a.yaml", false); ("old.yaml", true)]
  else inl ("open " +:+ dir +:+ ": no such file or directory").

Definition two_files (path : string) : string + Playbook :=
  if String.eqb path "p/a.yaml" then inr (plain_book "a" path)
  else if String.eqb path "p/b.yml" then inr (plain_book "b" path)
  else inl (path +:+ ": the document is empty").

Definition no_dep : Deployment := mkDeployment [] [] [] [] [] [].
Definition any_pattern (_ : string) : option string := None.
Definition no_files (_ : string) : file := mkFile None None true 0 None "".

Lemma Load_accounts_for_every_file_witness :
  ∃ loaded, Load any_pattern no_files two_dir two_files "p" no_dep = inr loaded ∧
    NoDup (map Name (Playbooks loaded)) ∧
    (∀ book, book ∈ Playbooks loaded → Validate any_pattern no_files book no_dep = []) ∧
    (∀ name, (name, false) ∈ [("b.yml", false); ("notes.md", false); ("a.yaml", false); ("old.yaml", true)] →
       Ext name = ".yaml" ∨ Ext name = ".yml" →
       (∃ book, book ∈ Playbooks loaded ∧ two_files (Join ["p"; name]) = inr book) ∨
       Join ["p"; name] ∈ map r_Path (Refusals loaded)) ∧
    (length (Playbooks loaded) + length (Refusals loaded) = 2)%nat.
Proof. apply (Load_accounts_for_every_file any_pattern no_files two_dir two_files "p" no_dep).
  reflexivity.
Defined.

Lemma LoadFile_is_a_start_witness :
  ∃ loaded, Load any_pattern no_files two_dir two_files (Dir "./p/b.yml") no_dep = inr loaded ∧
    Refusals loaded = [] ∧ plain_book "b" "p/b.yml" ∈ Playbooks loaded ∧
    Validate any_pattern no_files (plain_book "b" "p/b.yml") no_dep = [] ∧
    Clean "p/b.yml" = Clean "./p/b.yml" ∧
    Find loaded "b" = Some (plain_book "b" "p/b.yml") ∧
    NoDup (map Name (Playbooks loaded)).
Proof.
  apply (LoadFile_is_a_start any_pattern no_files two_dir two_files "./p/b.yml" no_dep
    (plain_book "b" "p/b.yml")).
  vm_compute. reflexivity.
Defined.
