(* ===== verification/Parse.v ===== *)
(** The shape layer: [src/runtime/internal/playbook/parse.go].

    Decoding YAML and judging a document by the JSON schema are third-party, and arguments: what the
    decoder makes of a document, as a value and as a playbook, and what the compiled schema says of
    a value. *)
From S2P Require Import Prelude GoStr GoPath GoErr GoTime Playbook Config Gate Loader.

(** What the YAML decoder makes of a document it was given no type for: a mapping is a map of strings
    when every one of its keys is text, and otherwise a map of anything, whose keys are a type and a
    print.  A map is its entries in the order a loop meets them. *)
Inductive yaml :=
| YNull
| YScalar (type text : string)
| YList (items : list yaml)
| YMap (entries : list (string * yaml))
| YAnyMap (entries : list ((string * string) * yaml)).

Section yaml_ind.
Context (P : yaml → Prop) (Hnull : P YNull) (Hscalar : ∀ type text, P (YScalar type text)) (Hlist : ∀ items, Forall P items → P (YList items))
  (Hmap : ∀ entries, Forall (λ e, P (snd e)) entries → P (YMap entries)) (Hany : ∀ entries, Forall (λ e, P (snd e)) entries → P (YAnyMap entries)).
Fixpoint yaml_nested_ind (v : yaml) : P v :=
  let each {K} := fix go (l : list (K * yaml)) : Forall (λ e, P (snd e)) l :=
    match l with [] => Forall_nil_2 _ | e :: l => Forall_cons_2 _ e l (yaml_nested_ind (snd e)) (go l) end in
  match v with
  | YNull => Hnull
  | YScalar type text => Hscalar type text
  | YList items =>
      Hlist items ((fix go l : Forall P l := match l with [] => Forall_nil_2 _ | v :: l => Forall_cons_2 _ v l (yaml_nested_ind v) (go l) end) items)
  | YMap entries => Hmap entries (each entries)
  | YAnyMap entries => Hany entries (each entries)
  end.
End yaml_ind.

(** ** [normalise] *)

Definition not_text (type : string) : gerror := Text ("a key is " +:+ type +:+ ", and a playbook's keys are strings").

(** Every one of a list, or the first error. *)
Fixpoint each_of {A B} (f : A → gerror + B) (l : list A) : gerror + list B :=
  match l with
  | [] => inr []
  | x :: l => let* y := f x in let* ys := each_of f l in inr (y :: ys)
  end.

Fixpoint normalise (value : yaml) : gerror + yaml :=
  match value with
  | YMap entries => let* out := each_of (λ e, let* item := normalise (snd e) in inr (fst e, item)) entries in inr (YMap out)
  | YAnyMap entries =>
      let* out := each_of (λ e, if negb (String.eqb (fst (fst e)) "string") then inl (not_text (fst (fst e)))
                                else let* item := normalise (snd e) in inr (snd (fst e), item)) entries in
      inr (YMap out)
  | YList items => let* out := each_of normalise items in inr (YList out)
  | YNull | YScalar _ _ => inr value
  end.

(** ** [ValidateShape] *)

Record ShapeProblem := mkShapeProblem { Location : string; Message : string }.

Definition ShapeError_Error (problems : list ShapeProblem) : string :=
  "does not match the playbook schema:" +:+ nl +:+ "  " +:+
  join (map (λ p, (if String.eqb (Location p) "" then "the document" else Location p) +:+ ": " +:+ Message p) problems) (nl +:+ "  ").

(** What the schema says of a value: nothing against it, the error that says it is invalid with what its
    basic output lists, each a message and where in the value, or another error. *)
Inductive validation := Valid | Invalid (error : string) (units : list (string * string)) | Unusable (err : gerror).

(** What the shape layer says. *)
Inductive shape := Fits | ShapeError (problems : list ShapeProblem) | NoShape (err : gerror).
Definition shape_error (s : shape) : option gerror :=
  match s with Fits => None | ShapeError problems => Some (Text (ShapeError_Error problems)) | NoShape err => Some err end.

Definition restates (message : string) : bool := String.eqb message "" || has_prefix message "doesn't validate with".

Section parse.
Context (Validate_ : yaml → validation) (Unmarshal_any : string → gerror + yaml) (Unmarshal_playbook : string → gerror + Playbook).
Context (ReadFile : string → gerror + string).

Definition shape_problems (error : string) (units : list (string * string)) : list ShapeProblem :=
  match map (λ u, mkShapeProblem (trim_prefix (snd u) "/") (fst u)) (List.filter (λ u, negb (restates (fst u))) units) with
  | [] => [mkShapeProblem "" error]
  | problems => problems
  end.

Definition ValidateShape (document : yaml) : shape :=
  match normalise document with
  | inl err => NoShape err
  | inr normalised =>
      match Validate_ normalised with
      | Valid => Fits
      | Unusable err => NoShape err
      | Invalid error units => ShapeError (shape_problems error units)
      end
  end.

(** ** [Parse] *)

Definition with_Path (path : string) (p : Playbook) : Playbook :=
  mkPlaybook (Name p) (Description p) (p_Trigger p) (Gather p) (p_Agent p) (Sinks p) (p_Guard p) (Retrieve p) path.

Definition Parse (path document : string) : gerror + Playbook :=
  match Unmarshal_any document with
  | inl err => inl (wrap_before path err)
  | inr YNull => inl (Text (path +:+ ": the document is empty"))
  | inr raw =>
      match shape_error (ValidateShape raw) with
      | Some err => inl (wrap_before path err)
      | None =>
          match Unmarshal_playbook document with
          | inl err => inl (wrap_before path err)
          | inr playbook => inr (with_Path path playbook)
          end
      end
  end.

Definition ParseFile (path : string) : gerror + Playbook := let* document := ReadFile path in Parse path document.

(** ** What the shape layer lets through *)

(** Every key of every mapping is text. *)
Fixpoint stringly (v : yaml) : bool :=
  match v with
  | YMap entries => forallb (λ e, stringly (snd e)) entries
  | YAnyMap entries => forallb (λ e, String.eqb (fst (fst e)) "string" && stringly (snd e)) entries
  | YList items => forallb stringly items
  | YNull | YScalar _ _ => true
  end.
(** The same document with every mapping a map of strings. *)
Fixpoint flatten (v : yaml) : yaml :=
  match v with
  | YMap entries => YMap (map (λ e, (fst e, flatten (snd e))) entries)
  | YAnyMap entries => YMap (map (λ e, (snd (fst e), flatten (snd e))) entries)
  | YList items => YList (map flatten items)
  | YNull | YScalar _ _ => v
  end.

Lemma each_of_spec {A B} (f : A → gerror + B) (ok : A → bool) (g : A → B) (bad : gerror → Prop) l :
  Forall (λ x, if ok x then f x = inr (g x) else ∃ err, f x = inl err ∧ bad err) l →
  if forallb ok l then each_of f l = inr (map g l) else ∃ err, each_of f l = inl err ∧ bad err.
Proof.
  induction 1 as [|x l Hx _ IH]; [done|]. cbn [forallb each_of map]. destruct (ok x); cbn.
  - rewrite Hx. destruct (forallb ok l); [by rewrite IH|]. destruct IH as (err & -> & Hb). by exists err.
  - destruct Hx as (err & -> & Hb). by exists err.
Qed.

(** Normalising is flattening where it succeeds, and fails only for a key that is not text. *)
Definition of_a_key (err : gerror) : Prop := ∃ type, err = not_text type ∧ type ≠ "string".
Lemma normalise_spec v : if stringly v then normalise v = inr (flatten v) else ∃ err, normalise v = inl err ∧ of_a_key err.
Proof.
  induction v as [|type text|items IH|entries IH|entries IH] using yaml_nested_ind; [done|done|..]; cbn [stringly normalise flatten].
  - apply (each_of_spec normalise stringly flatten of_a_key) in IH. destruct (forallb stringly items); [by rewrite IH|].
    destruct IH as (err & -> & Hb). by exists err.
  - pose proof (each_of_spec (λ e, let* item := normalise (snd e) in inr (fst e, item)) (λ e : string * yaml, stringly (snd e)) (λ e, (fst e, flatten (snd e))) of_a_key entries) as H.
    destruct (forallb _ entries); [rewrite H; [done|]|destruct H as (err & -> & Hb); [|by exists err]];
      (eapply Forall_impl; [exact IH|]; intros [k v]; cbn; destruct (stringly v); [by intros ->|intros (err & -> & Hb); by exists err]).
  - pose proof (each_of_spec (λ e, if negb (String.eqb (fst (fst e)) "string") then inl (not_text (fst (fst e))) else let* item := normalise (snd e) in inr (snd (fst e), item))
      (λ e : (string * string) * yaml, String.eqb (fst (fst e)) "string" && stringly (snd e)) (λ e, (snd (fst e), flatten (snd e))) of_a_key entries) as H.
    destruct (forallb _ entries); [rewrite H; [done|]|destruct H as (err & -> & Hb); [|by exists err]];
      (eapply Forall_impl; [exact IH|]; intros [[type k] v]; cbn; destruct (String.eqb type "string") eqn:E; cbn;
        [destruct (stringly v); [by intros ->|intros (err & -> & Hb); by exists err]|intros _; exists (not_text type); split; [done|]; exists type; split; [done|by apply String.eqb_neq]]).
Qed.

(** A document the schema is asked about holds maps of strings only. *)
Fixpoint plain (v : yaml) : bool :=
  match v with
  | YMap entries => forallb (λ e, plain (snd e)) entries
  | YAnyMap _ => false
  | YList items => forallb plain items
  | YNull | YScalar _ _ => true
  end.
Lemma flatten_plain v : plain (flatten v) = true.
Proof.
  induction v as [|type text|items IH|entries IH|entries IH] using yaml_nested_ind; [done|done|..]; cbn [flatten plain];
    apply forallb_forall; intros x [y [<- Hy]]%in_map_iff; rewrite Forall_forall in IH; by apply IH, list_elem_of_In.
Qed.

Lemma ValidateShape_fits raw : ValidateShape raw = Fits ↔ stringly raw = true ∧ Validate_ (flatten raw) = Valid.
Proof.
  unfold ValidateShape. pose proof (normalise_spec raw) as H. destruct (stringly raw).
  - rewrite H. split; [intros Hv; split; [done|]; by destruct (Validate_ (flatten raw))|by intros [_ ->]].
  - destruct H as (err & -> & _). split; [done|by intros []].
Qed.

(** A refusal by the schema names at least one thing, each with a place and a message, and leaves out
    what only says that something below is wrong, unless that is all there is. *)
Lemma a_shape_refusal_says_where raw problems : ValidateShape raw = ShapeError problems →
  problems ≠ [] ∧ ∃ error units, Validate_ (flatten raw) = Invalid error units ∧
    ∀ message location, (message, location) ∈ units → restates message = false → mkShapeProblem (trim_prefix location "/") message ∈ problems.
Proof.
  unfold ValidateShape. pose proof (normalise_spec raw) as H. destruct (stringly raw); [rewrite H|by destruct H as (? & -> & _)].
  destruct (Validate_ (flatten raw)) as [|error units|]; [done| |done]. intros [= <-].
  assert (shape_problems error units ≠ [] ∧ ∀ p, p ∈ map (λ u, mkShapeProblem (trim_prefix (snd u) "/") (fst u)) (List.filter (λ u, negb (restates (fst u))) units) →
    p ∈ shape_problems error units) as [H1 H2].
  { unfold shape_problems. destruct (map _ _); [split; [done|by intros ? ?%elem_of_nil]|by split]. }
  split; [done|]. exists error, units. split; [done|]. intros message location Hin Hr. apply H2, list_elem_of_fmap. exists (message, location).
  split; [done|]. apply list_elem_of_In, filter_In. split; [by apply list_elem_of_In|]. cbn. by rewrite Hr.
Qed.

Lemma Parse_gives path document book : Parse path document = inr book →
  ∃ raw p, Unmarshal_any document = inr raw ∧ raw ≠ YNull ∧ stringly raw = true ∧ Validate_ (flatten raw) = Valid ∧
    Unmarshal_playbook document = inr p ∧ book = with_Path path p.
Proof.
  unfold Parse. destruct (Unmarshal_any document) as [|raw]; [done|].
  assert (∀ A (x y : A), raw ≠ YNull → (match raw with YNull => x | _ => y end) = y) as Hm by (intros A x y H; by destruct raw).
  destruct (match raw with YNull => true | _ => false end) eqn:En; [by destruct raw|]. assert (raw ≠ YNull) as Hn by (intros ->; done).
  rewrite Hm by done. destruct (ValidateShape raw) eqn:Ev; [|done|done]. cbn [shape_error]. apply ValidateShape_fits in Ev as [Hs Hv].
  destruct (Unmarshal_playbook document) as [|p]; [done|]. intros [= <-]. by exists raw, p.
Qed.

(** ** From a file to what is armed *)

Context (compiles : string → option string) (fs : string → file) (ReadDir : string → string + list (string * bool)).

Definition parsed (path : string) : string + Playbook := match ParseFile path with inl err => inl (Error err) | inr book => inr book end.

Lemma load_all_parsed ParseFile dep paths loaded seen book :
  sound compiles fs dep loaded seen → book ∈ Playbooks (load_all compiles fs ParseFile dep paths loaded seen) →
  book ∈ Playbooks loaded ∨ ∃ path, path ∈ paths ∧ ParseFile path = inr book.
Proof.
  revert loaded seen. induction paths as [|path paths IH]; intros loaded seen Hs; cbn [load_all]; [by left|].
  pose proof (load_one_sound compiles fs ReadDir ParseFile dep path loaded seen Hs) as H.
  destruct (load_one compiles fs ParseFile dep path loaded seen) as [l1 s1]. destruct H as [Hs1 Hc].
  intros Hin. destruct (IH _ _ Hs1 Hin) as [Hb|(p & Hp & He)]; [|right; exists p; split; [by right|done]].
  destruct Hc as [(b & Hb1 & Hpl & _)|(r & _ & Hpl & _)]; rewrite Hpl in Hb; [|by left].
  apply elem_of_app in Hb as [Hb| ->%list_elem_of_singleton]; [by left|]. right. exists path. split; [by left|done].
Qed.

(** What [file] held when it was read, and the playbook it is. *)
Definition armed_from (file : string) (dep : Deployment) (book : Playbook) : Prop :=
  ∃ document raw p, ReadFile file = inr document ∧
    Unmarshal_any document = inr raw ∧ raw ≠ YNull ∧ stringly raw = true ∧ Validate_ (flatten raw) = Valid ∧ plain (flatten raw) = true ∧
    Unmarshal_playbook document = inr p ∧ book = with_Path file p ∧ Validate compiles fs book dep = [].

Lemma Load_arms dir dep loaded book : Load compiles fs ReadDir parsed dir dep = inr loaded → book ∈ Playbooks loaded →
  ∃ entries name, ReadDir dir = inr entries ∧ (name, false) ∈ entries ∧ (Ext name = ".yaml" ∨ Ext name = ".yml") ∧
    armed_from (Join [dir; name]) dep book.
Proof.
  intros Hl Hin. destruct (Load_sound _ _ _ _ _ _ _ Hl) as (seen & _ & _ & Hval). specialize (Hval book Hin).
  unfold Load in Hl. destruct (ReadDir dir) as [|entries]; [done|]. simplify_eq. exists entries.
  apply load_all_parsed in Hin as [Hin|(file & Hf & Hp)]; [by apply elem_of_nil in Hin| |apply sound_nothing].
  unfold playbook_paths in Hf. apply elem_of_sort_strings, list_elem_of_fmap in Hf as ([name d] & -> & Hf).
  apply list_elem_of_In, filter_In in Hf as [Hf He]. apply list_elem_of_In in Hf. unfold is_playbook_file in He. simpl in *.
  destruct d; [done|]. exists name. do 2 (split; [done|]). split; [apply orb_true_iff in He as [He|He]; apply String.eqb_eq in He; auto|].
  unfold parsed, ParseFile in Hp. destruct (ReadFile _) as [|document] eqn:Ed; [done|].
  destruct (Parse _ document) as [|b] eqn:Ep; [done|]. simplify_eq.
  apply Parse_gives in Ep as (raw & p & H1 & H2 & H3 & H4 & H5 & ->).
  exists document, raw, p. split_and!; try done. apply flatten_plain.
Qed.

(** C36: A playbook that is armed was well shaped and passed the gate: every playbook the loading of a
    whole directory gives is that of a .yaml or .yml file of the directory, and is made of the bytes the
    file held then — the YAML decoder read them, the document was not empty, every key of every mapping
    in it is text, and the published schema found nothing wrong with it; it is what those bytes
    decode to and nothing else, with its path that file's, and is refused by nothing in the gate; and
    so it is with the playbook that reading one file again gives, whose file is the one asked for. *)
Theorem an_armed_playbook_is_well_shaped dep :
  (∀ dir loaded book, Load compiles fs ReadDir parsed dir dep = inr loaded → book ∈ Playbooks loaded →
     ∃ entries name, ReadDir dir = inr entries ∧ (name, false) ∈ entries ∧ (Ext name = ".yaml" ∨ Ext name = ".yml") ∧
       armed_from (Join [dir; name]) dep book) ∧
  (∀ path book, LoadFile compiles fs ReadDir parsed path dep = inr book →
     ∃ file, Clean file = Clean path ∧ armed_from file dep book).
Proof.
  split; [intros dir loaded book; apply Load_arms|]. intros path book H.
  apply LoadFile_gives in H as (loaded & Hl & Hin & _ & Hpath).
  destruct (Load_arms _ _ _ _ Hl Hin) as (entries & name & _ & _ & _ & Ha). exists (Join [Dir path; name]).
  split; [|done]. destruct Ha as (document & raw & p & _ & _ & _ & _ & _ & _ & _ & -> & _). exact Hpath.
Qed.
End parse.

(** ** One file *)

Definition a_document : yaml := YMap [("name", YScalar "string" "b"); ("trigger", YAnyMap [(("string", "type"), YScalar "string" "manual")])].
Definition reads_any (document : string) : gerror + yaml := if String.eqb document "name: b" then inr a_document else inl (Text "yaml: line 1: did not find expected node content").
Definition reads_book (document : string) : gerror + Playbook := inr (plain_book "b" "").
Definition one_schema (v : yaml) : validation :=
  match v with YMap (("name", _) :: _) => Valid | _ => Invalid "jsonschema validation failed" [("", ""); ("missing property 'name'", ""); ("got null, want object", "/agent")] end.
Definition one_file (path : string) : gerror + string := if String.eqb path "p/b.yml" then inr "name: b" else inl (Text ("open " +:+ path)).
Definition one_dir (dir : string) : string + list (string * bool) := inr [("b.yml", false)].

Definition parsed_one : string → string + Playbook := parsed one_schema reads_any reads_book one_file.

Lemma an_armed_playbook_is_well_shaped_witness :
  (Load any_pattern no_files one_dir parsed_one "p" no_dep = inr (mkLoaded [plain_book "b" "p/b.yml"] []) ∧
   ∃ name, (name, false) ∈ [("b.yml", false)] ∧ one_file (Join ["p"; name]) = inr "name: b") ∧
  (LoadFile any_pattern no_files one_dir parsed_one "p/b.yml" no_dep = inr (plain_book "b" "p/b.yml") ∧
   ∃ file, Clean file = "p/b.yml" ∧ one_file file = inr "name: b").
Proof.
  assert (∀ document raw, reads_any document = inr raw → document = "name: b") as Hread.
  { unfold reads_any. intros document raw. destruct (String.eqb document "name: b") eqn:E; [intros _; by apply String.eqb_eq|done]. }
  destruct (an_armed_playbook_is_well_shaped one_schema reads_any reads_book one_file any_pattern no_files one_dir no_dep) as [H1 H2].
  assert (Load any_pattern no_files one_dir parsed_one "p" no_dep = inr (mkLoaded [plain_book "b" "p/b.yml"] [])) as Hl by (vm_compute; reflexivity).
  assert (LoadFile any_pattern no_files one_dir parsed_one "p/b.yml" no_dep = inr (plain_book "b" "p/b.yml")) as Hf by (vm_compute; reflexivity).
  split.
  - split; [exact Hl|]. destruct (H1 _ _ (plain_book "b" "p/b.yml") Hl) as (entries & name & He & Hn & _ & document & raw & p & Hd & Hr & _).
    { by left. }
    exists name. injection He as <-. split; [exact Hn|]. by rewrite (Hread _ _ Hr) in Hd.
  - split; [exact Hf|]. destruct (H2 _ _ Hf) as (file & Hc & document & raw & p & Hd & Hr & _).
    exists file. split; [rewrite Hc; vm_compute; reflexivity|]. by rewrite (Hread _ _ Hr) in Hd.
Defined.

(** What is refused, and how it reads. *)
Example shape_refusals :
  map (λ v, Error <$> shape_error (ValidateShape one_schema v)) [a_document; YNull; YAnyMap [(("int", "1"), YNull)]] =
  [None;
   Some ("does not match the playbook schema:" +:+ nl +:+ "  the document: missing property 'name'" +:+ nl +:+ "  agent: got null, want object");
   Some "a key is int, and a playbook's keys are strings"].
Proof. vm_compute. reflexivity. Qed.
