(* ===== verification/Redact.v ===== *)
(** The redactor every record and log line passes: [src/runtime/internal/record/redact.go]. *)
From S2P Require Import Prelude GoStr.

Definition Placeholder : string := "[redacted]".

(** [sort.Slice] by decreasing length.  It is not stable: among secrets of one length the
    order is the sort's, and this is one of the orders it may give. *)
Fixpoint insert_longest (x : string) (l : list string) : list string :=
  match l with
  | [] => [x]
  | y :: ys =>
      if (String.length y <=? String.length x)%nat then x :: y :: ys
      else y :: insert_longest x ys
  end.

Record Redactor := mkRedactor { secrets : list string }.

Definition NewRedactor (given : list string) : Redactor :=
  mkRedactor (foldr insert_longest []
    (List.filter (λ secret, negb (String.eqb secret "")) given)).

(** [None] is a nil redactor. *)
Definition Redact (r : option Redactor) (text : string) : string :=
  match r with
  | None => text
  | Some r => foldl (λ text secret, replace_all text secret Placeholder) text (secrets r)
  end.

Definition RedactBytes : option Redactor → string → string := Redact.

(** ** Occurrences *)

Definition occurs (s t : string) : Prop := ∃ u v, t = u +:+ s +:+ v.

Lemma has_prefix_app s t p : has_prefix s p = true → has_prefix (s +:+ t) p = true.
Proof.
  intros (r & ->)%has_prefix_spec. apply has_prefix_spec. exists (r +:+ t).
  by rewrite str_app_assoc.
Qed.

Lemma index_of_occurs t s : is_Some (index_of t s) ↔ occurs s t.
Proof.
  split.
  - intros [i H%index_of_Some]. eexists _, _. exact H.
  - intros (u & v & ->). induction u as [|c u IH]; simpl.
    + destruct (s +:+ v) as [|c t] eqn:E; simpl.
      * destruct s; [eauto|done].
      * rewrite <- E. rewrite (proj2 (has_prefix_spec _ _)); [eauto|by exists v].
    + destruct (has_prefix (String c (u +:+ s +:+ v)) s); [eauto|].
      destruct IH as [i ->]. simpl. eauto.
Qed.

(** The text before the first occurrence has none. *)
Lemma index_of_first t s i :
  index_of t s = Some i → s ≠ "" → ¬ occurs s (str_take i t).
Proof.
  intros Hi Hs Ho%index_of_occurs. revert i Hi Ho.
  induction t as [|c t IH]; intros i; simpl.
  - destruct (has_prefix "" s) eqn:E; [|done]. intros [= <-]. simpl. rewrite E.
    by destruct s.
  - destruct (has_prefix (String c t) s) eqn:E.
    + intros [= <-]. simpl. destruct s; [done|]. simpl. by intros [].
    + destruct (index_of t s) as [j|] eqn:Ej; [|done]. intros [= <-]. simpl.
      destruct (has_prefix (String c (str_take j t)) s) eqn:E'.
      * apply (has_prefix_app _ (str_drop j t)) in E'. simpl in E'.
        rewrite str_take_drop in E'. congruence.
      * intros [k Hk]. destruct (index_of (str_take j t) s) eqn:E2; [|done].
        by apply (IH j).
Qed.

(** A string without the character [c] occurs on one side of it. *)
Lemma occurs_split c s u v :
  s ≠ "" → str_all (λ d, negb (Ascii.eqb d c)) s = true →
  occurs s (u +:+ String c v) → occurs s u ∨ occurs s v.
Proof.
  intros Hne Hs. induction u as [|d u IH]; simpl; intros (a & b & H).
  - destruct a as [|x a]; simpl in H; simplify_eq; [|right; by exists a, b].
    destruct s as [|x s]; [done|]. simpl in *. injection H as <- _.
    by rewrite Ascii.eqb_refl in Hs.
  - destruct a as [|x a]; simpl in H.
    + left. clear IH. assert (∀ s u, str_all (λ d, negb (Ascii.eqb d c)) s = true →
        (∃ b, u +:+ String c v = s +:+ b) → ∃ b, u = s +:+ b) as Hpre.
      { clear. induction s as [|x s IH]; intros u Hs [b Hb]; [by exists u|].
        apply andb_prop in Hs as [Hx Hs]. destruct u as [|y u]; simpl in Hb; injection Hb as -> Hb.
        - by rewrite Ascii.eqb_refl in Hx.
        - destruct (IH u Hs) as [b' ->]; [by eexists|]. by exists b'. }
      destruct (Hpre s (String d u) Hs) as [b' ->]; [by exists b|]. by exists "", b'.
    + injection H as -> H. destruct IH as [(a' & b' & ->)|?]; [by exists a, b| |by right].
      left. by exists (String x a'), b'.
Qed.

(** A secret the placeholder can neither contain nor share an end with. *)
Definition ordinary (s : string) : Prop :=
  s ≠ "" ∧ str_all (λ d, negb (Ascii.eqb d "[")) s = true ∧
  str_all (λ d, negb (Ascii.eqb d "]")) s = true ∧ ¬ occurs s "redacted".

Lemma occurs_placeholder s u v :
  ordinary s → occurs s (u +:+ Placeholder +:+ v) → occurs s u ∨ occurs s v.
Proof.
  intros (Hne & Hl & Hr & Hno) H. unfold Placeholder in H. simpl in H.
  apply (occurs_split "[") in H as [H|H]; [by left| |done|done].
  change (String "r" _) with ("redacted" +:+ String "]" v) in H.
  apply (occurs_split "]") in H as [H|H]; [done|by right|done|done].
Qed.

Lemma occurs_app_l s u t : occurs s u → occurs s (u +:+ t).
Proof. intros (a & b & ->). exists a, (b +:+ t). by rewrite !str_app_assoc. Qed.
Lemma occurs_app_r s u t : occurs s t → occurs s (u +:+ t).
Proof. intros (a & b & ->). exists (u +:+ a), b. by rewrite <- !str_app_assoc. Qed.
#[local] Hint Resolve occurs_app_l occurs_app_r : gronin.

(** What occurs after a replacement occurred before it; what was replaced is gone. *)
Lemma replace_fuel_occurs n t s s' :
  ordinary s' → s ≠ "" → (String.length t < n)%nat →
  occurs s' (replace_fuel n t s Placeholder) → occurs s' t ∧ s' ≠ s.
Proof.
  intros Hord Hs. revert t. induction n as [|n IH]; intros t Hn; [lia|]. simpl.
  unfold cut. destruct (index_of t s) as [i|] eqn:Ei.
  - pose proof (index_of_Some _ _ _ Ei) as Ht. set (after := str_drop _ _) in *.
    intros H. apply occurs_placeholder in H as [H|H]; [| |done].
    + split; [rewrite Ht; auto with gronin|]. intros ->. by apply index_of_first in Ei.
    + apply IH in H as [H ?].
      * split; [rewrite Ht; auto with gronin|done].
      * assert (String.length t = String.length (str_take i t +:+ s +:+ after)) as Hl by by rewrite <- Ht.
        rewrite !str_length_app in Hl. destruct s; [done|]. simpl in Hl. lia.
  - intros H. split; [done|]. intros ->. apply index_of_occurs in H as [j Hj]. congruence.
Qed.

Lemma replace_all_occurs t s s' :
  ordinary s' → s ≠ "" → occurs s' (replace_all t s Placeholder) → occurs s' t ∧ s' ≠ s.
Proof. intros ? ? H. eapply replace_fuel_occurs; [done|done| |exact H]. lia. Qed.

Lemma replace_fold_occurs l t s' :
  ordinary s' → Forall (λ s, s ≠ "") l →
  occurs s' (foldl (λ text secret, replace_all text secret Placeholder) t l) →
  occurs s' t ∧ s' ∉ l.
Proof.
  intros Hord Hl. revert t. induction Hl as [|s l Hs Hl IH]; intros t H; simpl in *.
  { split; [done|]. by intros []%elem_of_nil. }
  apply IH in H as [H Hnot]. apply replace_all_occurs in H as [H Hne]; [|done|done].
  split; [done|]. intros [->|?]%elem_of_cons; done.
Qed.

Lemma elem_of_secrets given s : s ∈ secrets (NewRedactor given) ↔ s ∈ given ∧ s ≠ "".
Proof.
  unfold NewRedactor; simpl.
  assert (∀ x l, insert_longest x l ≡ₚ x :: l) as Hins.
  { intros x l. induction l as [|y l IH]; simpl; [done|].
    destruct (_ <=? _)%nat; [done|]. rewrite IH. apply Permutation_swap. }
  assert (∀ l : list string, foldr insert_longest [] l ≡ₚ l) as Hp.
  { induction l as [|x l IH]; simpl; [done|]. by rewrite Hins, IH. }
  rewrite Hp, list_elem_of_In, filter_In, <- list_elem_of_In, negb_true_iff, String.eqb_neq. done.
Qed.

Lemma redacted_lacks given text s : s ∈ given → ordinary s → ¬ occurs s (Redact (Some (NewRedactor given)) text).
Proof.
  intros Hin Hord H. unfold Redact in H. apply replace_fold_occurs in H as [_ H]; [|done|].
  - apply H, elem_of_secrets. by destruct Hord.
  - apply Forall_forall. by intros x [_ ?]%elem_of_secrets.
Qed.

(** Nothing the redactor lets through holds a secret it was seeded with: for every text
    and every non-empty secret that has no square bracket and is not part of the word the
    placeholder spells, the redacted text does not contain the secret, whatever the other
    secrets are and however they overlap it. *)
Theorem Redact_removes_every_secret given text s :
  s ∈ given → ordinary s → ¬ occurs s (Redact (Some (NewRedactor given)) text).
Proof. apply redacted_lacks. Qed.

(** [occurs] decided by search. *)
Definition occurs_b (s t : string) : bool := contains_str t s.
Lemma occurs_b_spec s t : occurs_b s t = false → ¬ occurs s t.
Proof.
  unfold occurs_b, contains_str. intros H [i Hi]%index_of_occurs. by rewrite Hi in H.
Qed.

Lemma Redact_removes_every_secret_witness :
  ¬ occurs "tok-1" (Redact (Some (NewRedactor ["tok-1"; "https://h/tok-1"; ""]))
                      "GET https://h/tok-1 with tok-1").
Proof.
  apply Redact_removes_every_secret; [left|].
  split_and!; [done|reflexivity|reflexivity|]. apply occurs_b_spec. reflexivity.
Defined.

(** A secret that is part of the placeholder's own word survives its redaction: the
    redacted text still holds it, and so does every text any other secret is redacted from. *)
Theorem Redact_leaves_placeholder_words :
  occurs "dact" (Redact (Some (NewRedactor ["dact"])) "the key is dact") ∧
  occurs "dact" (Redact (Some (NewRedactor ["dact"; "hunter2"])) "the key is hunter2").
Proof. split; apply index_of_occurs; vm_compute; eauto. Qed.

Example longest_first :
  Redact (Some (NewRedactor ["tok"; "https://h/tok"])) "see https://h/tok" = "see [redacted]".
Proof. vm_compute. reflexivity. Qed.
