(* ===== verification/Logging.v ===== *)
(** The deployment's log: [src/runtime/internal/logging/logging.go], over what it uses of [log/slog].

    A handler is what it was made with and what it passes on; the text handler inside it, which
    writes a line, is the standard library's. *)
From S2P Require Import Prelude GoStr Redact.

(** ** [slog]'s values *)

(** [VAny]: a value of some other type, by the text it is printed as; [VOther]: a number, a boolean, a
    time or a duration; [VValuer]: a value that says itself what stands for it. *)
Inductive value :=
| VString (s : string)
| VGroup (attrs : list (string * value))
| VAny (printed : string)
| VOther (printed : string)
| VValuer (resolved : value).
Notation attr := (string * value)%type.

Section value_ind.
Context (P : value → Prop) (Hstring : ∀ s, P (VString s)) (Hgroup : ∀ attrs, Forall (λ a, P (snd a)) attrs → P (VGroup attrs))
  (Hany : ∀ s, P (VAny s)) (Hother : ∀ s, P (VOther s)) (Hvaluer : ∀ v, P v → P (VValuer v)).
Fixpoint value_nested_ind (v : value) : P v :=
  match v with
  | VString s => Hstring s
  | VGroup attrs =>
      Hgroup attrs ((fix go l : Forall (λ a, P (snd a)) l :=
                       match l with [] => Forall_nil_2 _ | a :: l => Forall_cons_2 _ a l (value_nested_ind (snd a)) (go l) end) attrs)
  | VAny s => Hany s
  | VOther s => Hother s
  | VValuer v => Hvaluer v (value_nested_ind v)
  end.
End value_ind.

(** A group of nothing is left out of a group and of a record. *)
Definition empty_group (a : attr) : bool := match snd a with VGroup [] => true | _ => false end.
Definition kept_attrs (attrs : list attr) : list attr := List.filter (λ a, negb (empty_group a)) attrs.

(** [Resolve] gives a value up that still asks to be resolved once it was asked a hundred times; it
    looks before each, so that ninety-nine can be in the way.  An error of the text below stands
    for one given up. *)
Definition maxLogValues : nat := 100.
Definition called_too_many : string := "LogValue called too many times".

Record entry := mkEntry { e_Time : Z; e_Level : Z; e_Message : string; e_Attrs : list attr }.

(** ** The handler *)

Section handler.
Context (redactor : option Redactor).

Fixpoint redactValue (v : value) (asks : nat) : value :=
  match v with
  | VValuer v => match asks with O => VString (Redact redactor called_too_many) | S asks => redactValue v asks end
  | VString s => VString (Redact redactor s)
  | VGroup attrs => VGroup (kept_attrs (map (λ a, (fst a, redactValue (snd a) (pred maxLogValues))) attrs))
  | VAny printed => VString (Redact redactor printed)
  | VOther printed => VOther printed
  end.
Definition redactAttr (a : attr) : attr := (fst a, redactValue (snd a) (pred maxLogValues)).
End handler.

(** What the handler inside was told: attributes and groups, and then an entry. *)
Inductive told := Attrs (attrs : list attr) | Group (name : string).
Record redacting := mkRedacting { inner : list told; redactor : option Redactor }.

Definition New (redactor : option Redactor) : redacting := mkRedacting [] redactor.

Definition WithAttrs (h : redacting) (attrs : list attr) : redacting :=
  mkRedacting (inner h ++ [Attrs (map (redactAttr (redactor h)) attrs)]) (redactor h).
Definition WithGroup (h : redacting) (name : string) : redacting := mkRedacting (inner h ++ [Group name]) (redactor h).

Definition Enabled (level : Z) (h : redacting) (asked : Z) : bool := level <=? asked.

(** A fresh record, the one that was given left as it is. *)
Definition Handle (h : redacting) (e : entry) : list told * entry :=
  (inner h, mkEntry (e_Time e) (e_Level e) (Redact (redactor h) (e_Message e)) (kept_attrs (map (redactAttr (redactor h)) (e_Attrs e)))).

(** ** What is written *)

(** Every text a value is written with, those of numbers and of times apart. *)
Fixpoint texts (v : value) : list string :=
  match v with
  | VString s => [s]
  | VGroup attrs => concat (map (λ a, texts (snd a)) attrs)
  | VAny printed => [printed]
  | VOther _ => []
  | VValuer v => texts v
  end.
Definition attr_texts (attrs : list attr) : list string := concat (map (λ a, texts (snd a)) attrs).
Definition told_texts (t : told) : list string := match t with Attrs attrs => attr_texts attrs | Group _ => [] end.
Definition line_texts (line : list told * entry) : list string :=
  concat (map told_texts (fst line)) ++ e_Message (snd line) :: attr_texts (e_Attrs (snd line)).

(** A logger is a handler and what [With] and [WithGroup] made of it. *)
Inductive logger (r : option Redactor) : redacting → Prop :=
| logger_new : logger r (New r)
| logger_attrs h attrs : logger r h → logger r (WithAttrs h attrs)
| logger_group h name : logger r h → logger r (WithGroup h name).

Section written.
Context (r : option Redactor).

Definition redacted (s : string) : Prop := ∃ text, s = Redact r text.

Lemma elem_of_attr_texts attrs s : s ∈ attr_texts attrs ↔ ∃ a, a ∈ attrs ∧ s ∈ texts (snd a).
Proof.
  unfold attr_texts. rewrite list_elem_of_In, in_concat. split.
  - intros (l & Hl & Hs). apply list_elem_of_In, list_elem_of_fmap in Hl as (a & -> & Ha). exists a. split; [done|by apply list_elem_of_In].
  - intros (a & Ha & Hs). exists (texts (snd a)). split; [|by apply list_elem_of_In]. apply list_elem_of_In, list_elem_of_fmap. eauto.
Qed.

Lemma elem_of_kept a attrs : a ∈ kept_attrs attrs → a ∈ attrs.
Proof. unfold kept_attrs. rewrite !list_elem_of_In, filter_In. by intros []. Qed.

Lemma kept_attrs_texts attrs s : s ∈ attr_texts (kept_attrs attrs) → s ∈ attr_texts attrs.
Proof.
  rewrite !elem_of_attr_texts. intros (a & Ha%elem_of_kept & Hs). eauto.
Qed.

Lemma redactValue_redacted v : ∀ asks s, s ∈ texts (redactValue r v asks) → redacted s.
Proof.
  induction v as [t|attrs IH|t|t|v IH] using value_nested_ind; intros asks s; cbn [redactValue texts].
  - intros ->%list_elem_of_singleton. by eexists.
  - intros (a & Ha & Hs)%kept_attrs_texts%elem_of_attr_texts. apply list_elem_of_fmap in Ha as (b & -> & Hb).
    rewrite Forall_forall in IH. by apply (IH b Hb) in Hs.
  - intros ->%list_elem_of_singleton. by eexists.
  - by intros ?%elem_of_nil.
  - destruct asks as [|asks]; [intros ->%list_elem_of_singleton; by eexists|apply IH].
Qed.

Lemma redactAttr_redacted attrs s : s ∈ attr_texts (map (redactAttr r) attrs) → redacted s.
Proof.
  intros (a & (b & -> & _)%list_elem_of_fmap & Hs)%elem_of_attr_texts. by apply redactValue_redacted in Hs.
Qed.

Lemma logger_redacted h : logger r h → redactor h = r ∧ ∀ s, s ∈ concat (map told_texts (inner h)) → redacted s.
Proof.
  assert (∀ told more s, s ∈ concat (map told_texts (told ++ [more])) → s ∈ concat (map told_texts told) ∨ s ∈ told_texts more) as Hsnoc.
  { intros told more s. rewrite map_app, concat_app. cbn [map concat]. rewrite app_nil_r. by intros [H|H]%elem_of_app; auto. }
  induction 1 as [|h attrs _ [Hr IH]|h name _ [Hr IH]]; cbn [New WithAttrs WithGroup redactor inner].
  - split; [done|]. by intros s ?%elem_of_nil.
  - split; [done|]. intros s [H|H]%Hsnoc; [by apply IH|]. rewrite Hr in H. by apply (redactAttr_redacted attrs).
  - split; [done|]. intros s [H|H]%Hsnoc; [by apply IH|by apply elem_of_nil in H].
Qed.

Lemma line_redacted h e s : logger r h → s ∈ line_texts (Handle h e) → redacted s.
Proof.
  intros [Hr Hl]%logger_redacted. unfold line_texts, Handle. cbn [fst snd e_Message e_Attrs].
  intros [H|[->|H]%elem_of_cons]%elem_of_app; [by apply Hl|rewrite Hr; by eexists|].
  rewrite Hr in H. by apply kept_attrs_texts, redactAttr_redacted in H.
Qed.
End written.

(** C39: Nothing the log writes holds a configured secret: whatever the message, whatever attributes a
    line or the logger it is written by carries, however deep in groups and whether they are
    text, errors or values that say what stands for them, no text of the line holds any of the secrets
    the deployment is configured with, when that secret has no square bracket and is not part of
    the placeholder's word; only the names of attributes and groups, numbers, booleans and times are written as they are. *)
Theorem no_line_holds_a_secret given h e s secret :
  logger (Some (NewRedactor given)) h → s ∈ line_texts (Handle h e) → secret ∈ given → ordinary secret → ¬ occurs secret s.
Proof. intros Hh Hs Hin Ho. destruct (line_redacted _ _ _ _ Hh Hs) as [text ->]. by apply redacted_lacks. Qed.

(** An error and a nested header, by a logger that carries one more. *)
Definition a_logger : redacting := WithGroup (WithAttrs (New (Some (NewRedactor ["tok-1"]))) [("url", VAny "https://h/tok-1")]) "run".
Definition a_line : entry :=
  mkEntry 0 8 "calling https://h/tok-1" [("err", VAny "401 for tok-1"); ("request", VGroup [("headers", VGroup [("auth", VValuer (VString "Bearer tok-1"))])])].

Lemma no_line_holds_a_secret_witness :
  (logger (Some (NewRedactor ["tok-1"])) a_logger ∧ "Bearer [redacted]" ∈ line_texts (Handle a_logger a_line) ∧ "tok-1" ∈ ["tok-1"] ∧
   ordinary "tok-1") ∧ ¬ occurs "tok-1" "Bearer [redacted]".
Proof.
  assert (logger (Some (NewRedactor ["tok-1"])) a_logger) as Hl by apply logger_group, logger_attrs, logger_new.
  assert ("Bearer [redacted]" ∈ line_texts (Handle a_logger a_line)) as Hs by (vm_compute; set_solver).
  assert ("tok-1" ∈ ["tok-1"]) as Hi by left.
  assert (ordinary "tok-1") as Ho by (split_and!; [done|reflexivity|reflexivity|apply occurs_b_spec; reflexivity]).
  split; [by split_and!|]. exact (no_line_holds_a_secret ["tok-1"] a_logger a_line "Bearer [redacted]" "tok-1" Hl Hs Hi Ho).
Defined.

Example what_is_written : line_texts (Handle a_logger a_line) =
  ["https://h/[redacted]"; "calling https://h/[redacted]"; "401 for [redacted]"; "Bearer [redacted]"].
Proof. vm_compute. reflexivity. Qed.
