(* ===== verification/GoMarshal.v ===== *)
(** [encoding/json]'s [Marshal] and [Unmarshal] as the agent stage and the sinks call them: a
    value's text, and the members of an object with the text of each left as it was sent. *)
From S2P Require Import Prelude GoStr GoTime Playbook Gate GoJson.

(** ** Writing *)

Definition hex2 (n : Z) : string :=
  let digit z := byte_chr (if z <? 10 then 48 + z else 87 + z) in
  String (digit (n / 16)) (str (digit (n mod 16))).

(** One byte below 128, escaped for HTML as [Marshal] does. *)
Definition marshal_char (c : ascii) : string :=
  let n := byte_of c in
  if Ascii.eqb c DQ || Ascii.eqb c BS then String BS (str c)
  else if n =? 8 then String BS "b" else if n =? 12 then String BS "f"
  else if n =? 10 then String BS "n" else if n =? 13 then String BS "r"
  else if n =? 9 then String BS "t"
  else if (n <? 32) || Ascii.eqb c "<" || Ascii.eqb c ">" || Ascii.eqb c "&"
  then String BS "u00" +:+ hex2 n
  else str c.

Definition line_separator : string := encode_rune 8232.
Definition paragraph_separator : string := encode_rune 8233.

Fixpoint marshal_text (fuel : nat) (s : string) : string :=
  match fuel, s with
  | O, _ | _, EmptyString => ""
  | S fuel, String c rest =>
      if byte_of c <? 128 then marshal_char c +:+ marshal_text fuel rest
      else
        match rune_width s with
        | None => String BS "ufffd" +:+ marshal_text fuel rest
        | Some n =>
            let rune := str_take n s in
            (if String.eqb rune line_separator then String BS "u2028"
             else if String.eqb rune paragraph_separator then String BS "u2029"
             else rune) +:+ marshal_text fuel (str_drop n s)
        end
  end.
Definition marshal_string (s : string) : string := dq +:+ marshal_text (String.length s) s +:+ dq.

(** A value; a map's members in the order of their keys. *)
Fixpoint Marshal (v : any) : string :=
  let members (entries : list (string * any)) : string :=
    let texts := (fix go (l : list (string * any)) : list (string * string) :=
                    match l with
                    | [] => []
                    | (k, v) :: l => (k, marshal_string k +:+ ":" +:+ Marshal v) :: go l
                    end) entries in
    "{" +:+ join (map snd (sort_entries texts)) "," +:+ "}" in
  match v with
  | ANil => "null"
  | ABool b => if b then "true" else "false"
  | ANumber literal => if String.eqb literal "" then "0" else literal
  | AInt z => show_Z z
  | AString s => marshal_string s
  | AList items =>
      "[" +:+ join ((fix go (l : list any) : list string :=
                       match l with [] => [] | v :: l => Marshal v :: go l end) items) "," +:+ "]"
  | AMap entries | ASink entries => members entries
  end.

(** ** Reading *)

(** [Unmarshal]: one value and nothing after it. *)
Definition Unmarshal (text : string) : option any :=
  match json_value (S (String.length text)) 0 text with
  | Some (v, rest) => if String.eqb (skip_space rest) "" then Some v else None
  | None => None
  end.

(** The text of the first value of [s], and what follows it. *)
Definition raw_value (s : string) : option (string * string) :=
  let s := skip_space s in
  match json_value (S (String.length s)) 1 s with
  | Some (_, rest) => Some (str_take (String.length s - String.length rest) s, rest)
  | None => None
  end.

Fixpoint raw_members_go (fuel : nat) (s : string) : option (list (string * string) * string) :=
  match fuel, skip_space s with
  | S fuel, String "034" rest =>
      match json_string (S (String.length rest)) rest with
      | None => None
      | Some (key, rest) =>
          match skip_space rest with
          | String ":" rest =>
              match raw_value rest with
              | None => None
              | Some (raw, rest) =>
                  match skip_space rest with
                  | String "," rest =>
                      match raw_members_go fuel rest with
                      | Some (more, rest) => Some ((key, raw) :: more, rest)
                      | None => None
                      end
                  | String "}" rest => Some ([(key, raw)], rest)
                  | _ => None
                  end
              end
          | _ => None
          end
      end
  | _, _ => None
  end.

(** The members of an object, in the order they were sent, a key perhaps more than once. *)
Definition raw_members (text : string) : option (list (string * string)) :=
  match skip_space text with
  | String "{" rest =>
      match skip_space rest with
      | String "}" _ => Some []
      | _ => fst <$> raw_members_go (String.length text) rest
      end
  | _ => None
  end.

Fixpoint raw_items_go (fuel : nat) (s : string) : option (list string) :=
  match fuel with
  | O => None
  | S fuel =>
      match raw_value s with
      | None => None
      | Some (raw, rest) =>
          match skip_space rest with
          | String "," rest => cons raw <$> raw_items_go fuel rest
          | String "]" _ => Some [raw]
          | _ => None
          end
      end
  end.
Definition raw_items (text : string) : option (list string) :=
  match skip_space text with
  | String "[" rest =>
      match skip_space rest with
      | String "]" _ => Some []
      | _ => raw_items_go (String.length text) rest
      end
  | _ => None
  end.

(** A struct's field is set by every member whose key is its name, whatever the case; each is
    decoded in turn and the last one stays.  [None] is a member the field's type refuses. *)
Definition lower_string (s : string) : string :=
  str_map (λ c, if is_upper c then byte_chr (byte_of c + 32) else c) s.

Fixpoint field {A} (decode : string → A → option A) (name : string)
    (members : list (string * string)) (value : A) : option A :=
  match members with
  | [] => Some value
  | (key, raw) :: members =>
      if String.eqb (lower_string key) (lower_string name) then
        match decode raw value with
        | Some value => field decode name members value
        | None => None
        end
      else field decode name members value
  end.

(** A null leaves a string, a number or a boolean as it was. *)
Definition decode_string (raw old : string) : option string :=
  match Unmarshal raw with Some (AString s) => Some s | Some ANil => Some old | _ => None end.
Definition decode_bool (raw : string) (old : bool) : option bool :=
  match Unmarshal raw with Some (ABool b) => Some b | Some ANil => Some old | _ => None end.
Definition decode_raw (raw old : string) : option string := Some raw.

Fixpoint all_some {A} (l : list (option A)) : option (list A) :=
  match l with
  | [] => Some []
  | Some x :: l => cons x <$> all_some l
  | None :: l => None
  end.

(** A slice is made afresh, and a null makes it nil. *)
Definition decode_list {A} (one : string → option A) (raw : string) (old : list A) : option (list A) :=
  match raw_items raw with
  | Some items => all_some (map one items)
  | None => match Unmarshal raw with Some ANil => Some [] | _ => None end
  end.

Example marshal_examples :
  map Marshal [AMap [("b", AList [AInt (-3); ABool true; ANil]); ("a", AString ("<x>" +:+ nl +:+ dq +:+ "é"))]; AMap []] =
  [replace_all "{'a':'\u003cx\u003e\n\'é','b':[-3,true,null]}" "'" dq; "{}"].
Proof. vm_compute. reflexivity. Qed.

Example raw_examples :
  raw_members (replace_all " { 'a' : {'b' : [1, 2]} , 'A':'x'} " "'" dq) =
  Some [("a", replace_all "{'b' : [1, 2]}" "'" dq); ("A", json_quote "x")].
Proof. vm_compute. reflexivity. Qed.
