(* ===== verification/AgentStage.v ===== *)
(** The agent stage: [src/runtime/internal/stage/agent].

    The argument vector that carries the bounds, the check of what the child says it received,
    the decoding of its stream and its tool calls, what the stage makes of how the child ended,
    and the version floor.  Starting the child and reading its pipes is the host's: what a
    child did is a [process]. *)
From S2P Require Import Prelude GoStr GoTime GoPath GoErr Config Playbook GoJson Values GoMarshal.
From Stdlib Require Import QArith.
Open Scope Z_scope.

(** ** [argv.go] *)

Record Declaration := mkDeclaration {
  c_Model : string; c_Restricted : bool; c_Tools : list string; c_MCPServers : list string;
  c_Allow : list string; c_OutputSchema : any }.

Definition flagPrint : string := "--print".
Definition flagVerbose : string := "--verbose".
Definition flagOutputFormat : string := "--output-format".
Definition flagRestricted : string := "--restricted".
Definition flagTools : string := "--tools".
Definition flagAllowedTools : string := "--allowedTools".
Definition flagMCPConfig : string := "--mcp-config".
Definition flagStrictMCP : string := "--strict-mcp-config".
Definition flagSettingSources : string := "--setting-sources".
Definition flagJSONSchema : string := "--json-schema".
Definition flagModel : string := "--model".

Definition ErrSeparatorInEntry : gerror :=
  Sentinel "a declared entry contains a comma, which the flag's parser may split".
Definition ErrEntryLooksLikeAFlag : gerror :=
  Sentinel "a declared entry begins with a dash and would be read as a flag".

Fixpoint check_entries (entries : list string) : option gerror :=
  match entries with
  | [] => None
  | entry :: entries =>
      if contains_str entry "," then Some (wrap_after ErrSeparatorInEntry (": " +:+ quote entry))
      else if has_prefix entry "-" then Some (wrap_after ErrEntryLooksLikeAFlag (": " +:+ quote entry))
      else check_entries entries
  end.

(** The schema is [nil] or something [Marshal] encodes, as everything the decoders produce is. *)
Definition BuildArgs (decl : Declaration) (mcpConfigPath : string) : gerror + list string :=
  match check_entries (c_Tools decl ++ c_Allow decl) with
  | Some err => inl err
  | None =>
      inr ([flagPrint; flagVerbose; flagOutputFormat; "stream-json"; flagSettingSources; "";
            flagStrictMCP; flagMCPConfig; mcpConfigPath]
           ++ [flagTools] ++ (match c_Tools decl with [] => [""] | tools => tools end)
           ++ (if c_Restricted decl then [flagRestricted] else [])
           ++ (match c_Allow decl with [] => [] | allow => flagAllowedTools :: allow end)
           ++ (if String.eqb (c_Model decl) "" then [] else [flagModel; c_Model decl])
           ++ (match c_OutputSchema decl with ANil => [] | schema => [flagJSONSchema; Marshal schema] end))
  end.

(** The MCP configuration: the file in the working directory, and its content. *)
Definition mcpConfigPath (dir : string) : string := Join [dir; "mcp.json"].
Definition mcpDocument (servers : list (string * any)) : string := Marshal (AMap [("mcpServers", AMap servers)]).

(** ** [stream.go] *)

Record MCPServer := mkMCPServer { m_Name : string; m_Status : string }.
Record Usage := mkUsage {
  InputTokens : Z; OutputTokens : Z; CacheReadInputTokens : Z; CacheCreationInputTokens : Z }.
Definition Total (u : Usage) : Z :=
  i64 (i64 (i64 (InputTokens u + OutputTokens u) + CacheReadInputTokens u) + CacheCreationInputTokens u).
Record PermissionDenial := mkPermissionDenial { n_Tool : string; n_Input : string }.

Record Event := mkEvent {
  e_Type : string; e_Subtype : string; e_SessionID : string; e_Model : string;
  e_PermissionMode : string; e_APIKeySource : string; e_MCPServers : list MCPServer;
  e_ClaudeCodeVersion : string; e_Tools : list string; e_TotalCostUSD : Q; e_Usage : Usage;
  e_NumTurns : Z; e_DurationMS : Z; e_IsError : bool; e_APIErrorStatus : string;
  e_StopReason : string; e_TerminalReason : string; e_Result : string; e_StructuredOutput : string;
  e_Message : string; e_PermissionDenials : list PermissionDenial }.

Definition no_usage : Usage := mkUsage 0 0 0 0.

(** A number literal as a fraction; its rounding to a float is not modelled. *)
Definition Q_of_literal (s : string) : Q :=
  let '(neg, s) := match s with String "-" s => (true, s) | _ => (false, s) end in
  let '(int, s) := span_str is_digit s in
  let '(frac, s) := match s with String "." r => span_str is_digit r | _ => ("", s) end in
  let exp := match s with String _ r => default 0 (Atoi r) | EmptyString => 0 end in
  let digits := digits_value (int +:+ frac) 0 in
  let scale := exp - Z.of_nat (String.length frac) in
  let num := if neg then - digits else digits in
  if 0 <=? scale then inject_Z (num * 10 ^ scale) else Qmake num (Z.to_pos (10 ^ (- scale))).

Definition decode_int (raw : string) (old : Z) : option Z :=
  match Unmarshal raw with Some (ANumber n) => Atoi n | Some ANil => Some old | _ => None end.
Definition decode_float (raw : string) (old : Q) : option Q :=
  match Unmarshal raw with Some (ANumber n) => Some (Q_of_literal n) | Some ANil => Some old | _ => None end.

(** A struct: an object's members, or a null that leaves it as it was. *)
Definition decode_struct {A} (fields : list (string * string) → A → option A) (raw : string) (old : A)
  : option A :=
  match Unmarshal raw with
  | Some (AMap _) => match raw_members raw with Some members => fields members old | None => None end
  | Some ANil => Some old
  | _ => None
  end.

Notation "'let?' x ':=' c 'in' k" := (match c with Some x => k | None => None end)
  (at level 10, x pattern, c at level 100, k at level 200) : gronin_scope.

Definition server_fields (ms : list (string * string)) (old : MCPServer) : option MCPServer :=
  let? name := field decode_string "name" ms (m_Name old) in
  let? status := field decode_string "status" ms (m_Status old) in
  Some (mkMCPServer name status).

Definition usage_fields (ms : list (string * string)) (old : Usage) : option Usage :=
  let? input := field decode_int "input_tokens" ms (InputTokens old) in
  let? output := field decode_int "output_tokens" ms (OutputTokens old) in
  let? read := field decode_int "cache_read_input_tokens" ms (CacheReadInputTokens old) in
  let? creation := field decode_int "cache_creation_input_tokens" ms (CacheCreationInputTokens old) in
  Some (mkUsage input output read creation).

Definition denial_fields (ms : list (string * string)) (old : PermissionDenial) : option PermissionDenial :=
  let? tool := field decode_string "tool_name" ms (n_Tool old) in
  let? input := field decode_raw "tool_input" ms (n_Input old) in
  Some (mkPermissionDenial tool input).

Definition event_fields (ms : list (string * string)) : option Event :=
  let? type := field decode_string "type" ms "" in
  let? subtype := field decode_string "subtype" ms "" in
  let? session := field decode_string "session_id" ms "" in
  let? model := field decode_string "model" ms "" in
  let? mode := field decode_string "permissionMode" ms "" in
  let? key := field decode_string "apiKeySource" ms "" in
  let? servers := field (decode_list (λ raw, decode_struct server_fields raw (mkMCPServer "" "")))
                    "mcp_servers" ms [] in
  let? version := field decode_string "claude_code_version" ms "" in
  let? tools := field (decode_list (λ raw, decode_string raw "")) "tools" ms [] in
  let? cost := field decode_float "total_cost_usd" ms 0%Q in
  let? usage := field (decode_struct usage_fields) "usage" ms no_usage in
  let? turns := field decode_int "num_turns" ms 0 in
  let? duration := field decode_int "duration_ms" ms 0 in
  let? is_error := field decode_bool "is_error" ms false in
  let? api := field decode_raw "api_error_status" ms "" in
  let? stop := field decode_string "stop_reason" ms "" in
  let? terminal := field decode_string "terminal_reason" ms "" in
  let? result := field decode_raw "result" ms "" in
  let? structured := field decode_raw "structured_output" ms "" in
  let? message := field decode_raw "message" ms "" in
  let? denials := field (decode_list (λ raw, decode_struct denial_fields raw (mkPermissionDenial "" "")))
                    "permission_denials" ms [] in
  Some (mkEvent type subtype session model mode key servers version tools cost usage turns duration
          is_error api stop terminal result structured message denials).

Definition empty_event : Event :=
  mkEvent "" "" "" "" "" "" [] "" [] 0 no_usage 0 0 false "" "" "" "" "" "" [].

(** One line of the stream; [None] is a line that does not decode. *)
Definition event_of (line : string) : option Event :=
  match Unmarshal line with
  | Some (AMap _) => let? ms := raw_members line in event_fields ms
  | Some ANil => Some empty_event
  | _ => None
  end.

(** ** [toolcalls.go] *)

Record ToolCall := mkToolCall {
  l_ID : string; l_Name : string; l_Input : string; l_Output : string; l_StartedAt : Z; l_Outcome : string }.

Record contentBlock := mkContentBlock {
  b_Type : string; b_ID : string; b_Name : string; b_Input : string; b_ToolUseID : string;
  b_Content : string; b_IsError : bool }.

Definition block_fields (ms : list (string * string)) (old : contentBlock) : option contentBlock :=
  let? type := field decode_string "type" ms (b_Type old) in
  let? id := field decode_string "id" ms (b_ID old) in
  let? name := field decode_string "name" ms (b_Name old) in
  let? input := field decode_raw "input" ms (b_Input old) in
  let? use_id := field decode_string "tool_use_id" ms (b_ToolUseID old) in
  let? content := field decode_raw "content" ms (b_Content old) in
  let? is_error := field decode_bool "is_error" ms (b_IsError old) in
  Some (mkContentBlock type id name input use_id content is_error).
Definition no_block : contentBlock := mkContentBlock "" "" "" "" "" "" false.

Definition message_fields (ms : list (string * string)) (old : list contentBlock) : option (list contentBlock) :=
  field (decode_list (λ raw, decode_struct block_fields raw no_block)) "content" ms old.

Record collector := mkCollector { calls : list ToolCall; byID : gmap string nat }.
Definition newCollector : collector := mkCollector [] ∅.

Definition answer_call (block : contentBlock) (call : ToolCall) : ToolCall :=
  mkToolCall (l_ID call) (l_Name call) (l_Input call) (b_Content block) (l_StartedAt call)
    (if b_IsError block then "error" else l_Outcome call).

Definition observe_block (at_ : Z) (c : collector) (block : contentBlock) : collector :=
  if String.eqb (b_Type block) "tool_use" then
    mkCollector (calls c ++ [mkToolCall (b_ID block) (b_Name block) (b_Input block) "" at_ "ok"])
      (<[b_ID block := length (calls c)]> (byID c))
  else if String.eqb (b_Type block) "tool_result" then
    match byID c !! b_ToolUseID block with
    | None => c
    | Some i => mkCollector (alter (answer_call block) i (calls c)) (byID c)
    end
  else c.

Definition observe (raw : string) (at_ : Z) (c : collector) : collector :=
  if String.eqb raw "" then c
  else match decode_struct message_fields raw [] with
       | None => c
       | Some content => foldl (observe_block at_) c content
       end.
