(* ===== verification/GuardConfig.v ===== *)
(** What a deployment declares about coordination, and what a coordinator is asked for:
    [config.go], the request types of [coordinator.go], the monotonic readings of [clock.go]
    and the stop deadline of [holder.go], all of [src/runtime/internal/guard].

    Reading [coordination.json] and decoding it are the operating system's and the JSON
    decoder's, and arguments of [LoadConfig]. *)
From S2P Require Import Prelude GoStr GoTime GoErr.

(** ** Monotonic readings *)

(** An [Instant] is the duration since its clock's origin. *)
Definition Instant := Z.
Definition instant_add (i : Instant) (d : Z) : Instant := dur_add i d.
Definition instant_sub (i j : Instant) : Z := dur_sub i j.

(** ** Requests *)

Definition KindSchedule : string := "schedule".
Definition KindManual : string := "manual".
Definition ReachCrossHost : string := "cross-host".
Definition ReachSingleHost : string := "single-host".

Record TriggerRef := mkTriggerRef { t_Kind : string; t_DueAt : Z }.

Record AcquireRequest := mkAcquireRequest {
  a_Name : string; a_Holder : Holder; a_Expiry : Z; a_Rate : option RateLimit;
  a_Trigger : TriggerRef }.

Definition AcquireRequest_Check (r : AcquireRequest) : option gerror :=
  if String.eqb (a_Name r) "" then Some (Text "a claim was asked for with no name")
  else if String.eqb (t_Kind (a_Trigger r)) KindSchedule && IsZero (t_DueAt (a_Trigger r)) then
    Some (Text ("a scheduled trigger of " +:+ a_Name r +:+ " carries no due instant"))
  else None.

(** ** The configuration *)

Definition MarginFloor : Z := 2 * Second.
Definition CoordinationFile : string := "coordination.json".

Record TLSFiles := mkTLSFiles { CA : string; Cert : string; Key : string }.

Record EtcdConfig := mkEtcdConfig {
  Endpoints : list string; Prefix : string; Username : string; Password : string;
  e_TLS : option TLSFiles }.

Record Config := mkConfig {
  Etcd : option EtcdConfig; ClaimExpiry : Z; RenewEvery : Z; RenewBound : Z; StopBound : Z;
  DecisionBound : Z }.

Definition DefaultConfig : Config :=
  mkConfig None (30 * Second) (5 * Second) (4 * Second) (10 * Second) (5 * Second).

Record etcdDocument := mkEtcdDocument {
  d_Endpoints : list string; d_Prefix : string; d_Username : string; d_Password : string;
  d_TLS : option TLSFiles }.

Record document := mkDocument {
  d_Etcd : option etcdDocument; d_ClaimExpiry : string; d_RenewEvery : string;
  d_RenewBound : string; d_StopBound : string; d_DecisionBound : string }.

(** One field of the document: the duration it sets, the default kept when it is not
    declared or is refused. *)
Definition declared_duration (field text : string) (default_ : Z) : option gerror * Z :=
  if String.eqb text "" then (None, default_)
  else
    match ParseDuration text with
    | inl _ =>
        (Some (Text ("  " +:+ field +:+ " " +:+ quote text +:+ " is not a duration" +:+ nl
                     +:+ "    accepted: a duration such as 30s or 2m")), default_)
    | inr value =>
        if value <=? 0 then
          (Some (Text ("  " +:+ field +:+ " " +:+ Duration_String value +:+ " is not positive"
                       +:+ nl +:+ "    accepted: a duration above zero")), default_)
        else (None, value)
    end.

(** The pattern of a reference to a configuration key and nothing else. *)
Definition reference_match (text : string) : bool :=
  match cut_prefix text "${config." with
  | None => false
  | Some rest =>
      let '(key, rest) :=
        span_str (λ c, is_alnum c || Ascii.eqb c "_" || Ascii.eqb c "-") rest in
      negb (String.eqb key "") && String.eqb rest "}"
  end.

Definition credential (resolve : string → gerror + string) (field text : string)
  : option gerror * string :=
  if String.eqb text "" then (None, "")
  else if negb (reference_match text) then
    (Some (Text ("  " +:+ field +:+ " is a literal" +:+ nl
                 +:+ "    accepted: a ${config.…} reference, so the value "
                 +:+ "lives in the configuration and the redactor knows it")), "")
  else match resolve text with
       | inl err => (Some (wrap_before ("  " +:+ field) err), "")
       | inr value => (None, value)
       end.

Definition etcd_config (resolve : string → gerror + string) (d : etcdDocument)
  : EtcdConfig * option gerror :=
  let no_endpoint :=
    match d_Endpoints d with
    | [] => Some (Text ("  etcd.endpoints is empty" +:+ nl
                        +:+ "    accepted: at least one endpoint, such as "
                        +:+ "https://etcd-1.example.com:2379"))
    | _ => None
    end in
  let '(e1, username) := credential resolve "etcd.username" (d_Username d) in
  let '(e2, password) := credential resolve "etcd.password" (d_Password d) in
  (mkEtcdConfig (d_Endpoints d) (d_Prefix d) username password (d_TLS d),
   errors_join (option_list no_endpoint ++ option_list e1 ++ option_list e2)).

Definition document_config (resolve : string → gerror + string) (d : document)
  : Config * option gerror :=
  let cfg := DefaultConfig in
  let '(e1, claim_expiry) := declared_duration "claim_expiry" (d_ClaimExpiry d) (ClaimExpiry cfg) in
  let '(e2, renew_every) := declared_duration "renew_every" (d_RenewEvery d) (RenewEvery cfg) in
  let '(e3, renew_bound) := declared_duration "renew_bound" (d_RenewBound d) (RenewBound cfg) in
  let '(e4, stop_bound) := declared_duration "stop_bound" (d_StopBound d) (StopBound cfg) in
  let '(e5, decision_bound) :=
    declared_duration "decision_bound" (d_DecisionBound d) (DecisionBound cfg) in
  let '(etcd, e6) :=
    match d_Etcd d with
    | None => (None, None)
    | Some e => let '(etcd, err) := etcd_config resolve e in (Some etcd, err)
    end in
  (mkConfig etcd claim_expiry renew_every renew_bound stop_bound decision_bound,
   errors_join (concat (map option_list [e1; e2; e3; e4; e5; e6]))).

(** R5: the durations that cannot hold. *)
Definition Config_Check (c : Config) : option gerror :=
  let sum := dur_add (dur_add (dur_add (RenewEvery c) (RenewBound c)) (StopBound c)) MarginFloor in
  errors_join
    ((if ClaimExpiry c <? sum then
        [Text ("  renew_every " +:+ Duration_String (RenewEvery c) +:+ " + renew_bound "
               +:+ Duration_String (RenewBound c) +:+ " + stop_bound "
               +:+ Duration_String (StopBound c) +:+ " + margin " +:+ Duration_String MarginFloor
               +:+ " = " +:+ Duration_String sum +:+ " exceeds claim_expiry "
               +:+ Duration_String (ClaimExpiry c) +:+ nl
               +:+ "    accepted: durations whose sum, with the " +:+ Duration_String MarginFloor
               +:+ " margin, fits within claim_expiry")]
      else [])
     ++ (if RenewEvery c <=? RenewBound c then
           [Text ("  renew_bound " +:+ Duration_String (RenewBound c)
                  +:+ " is not below renew_every " +:+ Duration_String (RenewEvery c) +:+ nl
                  +:+ "    accepted: a bound below the interval, so at most one attempt is ever "
                  +:+ "in flight")]
         else [])
     ++ (if negb (Z.rem (ClaimExpiry c) Second =? 0) then
           [Text ("  claim_expiry " +:+ Duration_String (ClaimExpiry c)
                  +:+ " is not a whole number of seconds" +:+ nl
                  +:+ "    accepted: a whole number of seconds, the unit of the backend's own "
                  +:+ "lease")]
         else [])).

Definition refused_file (sep : string) (err : gerror) : gerror :=
  Wrap ("refused: " +:+ CoordinationFile +:+ sep +:+ Error err) [err].

(** [LoadConfig]: [read] is reading the file, [None] when there is none; [decode] the decoder
    with unknown fields disallowed. *)
Definition LoadConfig (read : option (gerror + string)) (decode : string → gerror + document)
    (resolve : string → gerror + string) : gerror + Config * bool :=
  match read with
  | None => inr (DefaultConfig, false)
  | Some (inl err) => inl (wrap_before ("reading " +:+ CoordinationFile) err)
  | Some (inr data) =>
      match decode data with
      | inl err => inl (refused_file (nl +:+ "  ") err)
      | inr declared =>
          match document_config resolve declared with
          | (_, Some err) => inl (refused_file nl err)
          | (cfg, None) =>
              match Config_Check cfg with
              | Some err => inl (refused_file nl err)
              | None => inr (cfg, true)
              end
          end
      end
  end.

(** [StopDeadline] of holder.go *)
Definition StopDeadline (c : Config) (sent : Instant) (expiry : Z) : Instant :=
  instant_add sent (dur_sub (dur_sub expiry (StopBound c)) MarginFloor).

(** ** What an accepted configuration guarantees *)

(** Durations a deployment can mean: positive, and small enough that no sum of them wraps. *)
Definition moderate (c : Config) : Prop :=
  let small z := 0 < z ∧ z <= 2 ^ 58 in
  small (ClaimExpiry c) ∧ small (RenewEvery c) ∧ small (RenewBound c) ∧ small (StopBound c) ∧
  small (DecisionBound c).

Lemma errors_join_None es : errors_join es = None ↔ es = [].
Proof. by destruct es. Qed.

(** On moderate durations the wrap-around of every sum in the file is the identity. *)
Ltac no_wrap :=
  unfold dur_add, dur_sub, instant_add, instant_sub, MarginFloor, Second, dur_add, dur_sub in *;
  repeat match goal with
  | |- context [i64 ?z] => rewrite (i64_id z) by (unfold in_i64, i64_min, i64_max; lia)
  end.

Lemma Config_Check_iff c :
  moderate c →
  (Config_Check c = None ↔
     RenewEvery c + RenewBound c + StopBound c + MarginFloor <= ClaimExpiry c ∧
     RenewBound c < RenewEvery c ∧ ClaimExpiry c mod Second = 0).
Proof.
  unfold moderate. intros Hm.
  unfold Config_Check. rewrite errors_join_None. no_wrap.
    rewrite Z.rem_mod_nonneg by lia.
    destruct (ClaimExpiry c <? _) eqn:E1, (RenewEvery c <=? RenewBound c) eqn:E2,
      (ClaimExpiry c mod 1000000000 =? 0) eqn:E3; simpl; bool_facts;
      (split; [intros Hc; try discriminate Hc; split_and!; lia
              |intros (? & ? & ?); try done; lia]).
Qed.

(** A configuration Check accepts makes the claim's deadlines hold: for moderate positive
    durations, Check accepts exactly when the renewal interval, the renewal bound, the stop
    bound and the margin floor fit within the claim's expiry, the bound is below the interval
    and the expiry is a whole number of seconds; and then, from the instant a grant was sent,
    a whole renewal attempt begins and is answered no later than the stop deadline, and a run
    stopped at that deadline has its whole stop bound and the margin before the claim can
    lapse. *)
Theorem Check_makes_deadlines_hold c sent :
  moderate c → 0 <= sent <= 2 ^ 60 →
  (Config_Check c = None ↔
     RenewEvery c + RenewBound c + StopBound c + MarginFloor <= ClaimExpiry c ∧
     RenewBound c < RenewEvery c ∧ ClaimExpiry c mod Second = 0) ∧
  (Config_Check c = None →
     let deadline := StopDeadline c sent (ClaimExpiry c) in
     sent + RenewEvery c + RenewBound c <= deadline ∧
     deadline + StopBound c + MarginFloor = sent + ClaimExpiry c).
Proof.
  intros Hm Hs.
  pose proof (Config_Check_iff c Hm) as Hiff. unfold moderate in Hm.
  split; [done|]. intros (H & _)%Hiff. unfold StopDeadline. no_wrap. lia.
Qed.

Lemma Check_makes_deadlines_hold_witness :
  let deadline := StopDeadline DefaultConfig (100 * Second) (ClaimExpiry DefaultConfig) in
  100 * Second + RenewEvery DefaultConfig + RenewBound DefaultConfig <= deadline ∧
  deadline + StopBound DefaultConfig + MarginFloor =
    100 * Second + ClaimExpiry DefaultConfig.
Proof.
  apply (Check_makes_deadlines_hold DefaultConfig (100 * Second)).
  - unfold moderate, DefaultConfig, Second; simpl. lia.
  - unfold Second. lia.
  - vm_compute. reflexivity.
Defined.

(** The duration of a document that declares a stop bound of 292 years. *)
Definition long_document : document :=
  mkDocument None "" "" "" "2562047h47m16s" "".

(** The sum Check compares with the expiry is an int64 and wraps: a stop bound near the
    largest duration makes the sum negative, so a configuration whose stop bound exceeds its
    claim expiry by centuries is accepted, and its stop deadline falls before the grant was
    even sent. *)
Theorem Check_accepts_a_wrapping_sum :
  ∃ cfg, document_config (λ _, inl (Text "")) long_document = (cfg, None) ∧
    Config_Check cfg = None ∧ ClaimExpiry cfg < StopBound cfg ∧
    ∀ sent, 0 <= sent <= 2 ^ 60 → StopDeadline cfg sent (ClaimExpiry cfg) < sent.
Proof.
  eexists. split; [vm_compute; reflexivity|]. split; [vm_compute; reflexivity|].
  split; [vm_compute; reflexivity|].
  intros sent Hs. unfold StopDeadline; cbn [ClaimExpiry StopBound]. no_wrap. lia.
Qed.
