(* ===== verification/Records.v ===== *)
(** The rows of the run record and the database that holds them: the types of
    [src/runtime/internal/record] (store.go, waiting.go, refusals.go, ticks.go, deliveries.go,
    delivery_refusals.go) and its migrations' tables.

    A table is the list of its rows in the order they were inserted (the [rowid]); a column
    of fixed-width time text is the instant itself, whose order the text keeps; a null
    text is the empty string, which is how the code reads one back. *)
From S2P Require Import Prelude GoStr GoTime.
From Stdlib Require Import QArith.
Open Scope Z_scope.

(** ** Names the records use *)

Definition StatusRunning : string := "running".
Definition StatusSucceeded : string := "succeeded".
Definition StatusFailed : string := "failed".
Definition StatusTimedOut : string := "timed_out".
Definition StatusCapped : string := "capped".
Definition StatusInterrupted : string := "interrupted".
Definition StatusRefused : string := "refused".
Definition StatusClaimLost : string := "claim_lost".

Definition MechanismClaimHeld : string := "claim_held".
Definition MechanismTickAlreadyRan : string := "tick_already_ran".
Definition MechanismWaitingSlotFull : string := "waiting_slot_full".
Definition MechanismWaitExpired : string := "wait_expired".
Definition MechanismRateLimited : string := "rate_limited".
Definition MechanismBackendUnavailable : string := "backend_unavailable".
Definition MechanismPlaybookChanged : string := "playbook_changed".
Definition MechanismDropped : string := "dropped".

Definition TriggerSchedule : string := "schedule".
Definition TriggerManual : string := "manual".
Definition TriggerReplay : string := "replay".
Definition TriggerResume : string := "resume".
Definition TriggerWebhook : string := "webhook".

Definition WaitWaiting : string := "waiting".
Definition WaitRan : string := "ran".
Definition WaitDropped : string := "dropped".

Definition DeliveryAccepted : string := "accepted".
Definition DeliveryWaiting : string := "waiting".
Definition DeliveryHandedOff : string := "handed_off".
Definition DeliveryDropped : string := "dropped".
Definition DeliveryUnbound : string := "unbound".

Definition IdentityDeclared : string := "declared".
Definition IdentityDigest : string := "digest".

Definition HandOffPending : string := "pending".
Definition HandOffWaiting : string := "waiting".
Definition HandOffHandedOff : string := "handed_off".
Definition HandOffRefused : string := "refused".
Definition HandOffDropped : string := "dropped".

(** ** Rows *)

Record Run := mkRun {
  u_ID : string; u_PlaybookName : string; u_ResolvedPlaybookRef : string; u_ReportRef : string;
  u_PromptRef : string; u_TriggerKind : string; u_ParentRunID : string; u_Status : string;
  u_StartedAt : Z; u_EndedAt : Z; u_CostUSD : Q; u_Tokens : Z; u_AgentSessionID : string;
  u_CredentialSource : string; u_Error : string; u_WaitingTriggerID : string; u_WaitedMS : Z;
  u_ClaimReach : string; u_ClaimToken : Z; u_DeliveryID : string }.

Record WaitingTrigger := mkWaitingTrigger {
  w_ID : string; w_PlaybookName : string; w_PlaybookPath : string; w_TriggerKind : string;
  w_TriggerRef : string; w_AcceptedAt : Z; w_ExpiresAt : Z; w_Instance : string;
  w_Outcome : string; w_OutcomeAt : Z; w_RunID : string; w_DeliveryID : string }.

Record Refusal := mkRefusal {
  f_ID : string; f_PlaybookName : string; f_TriggerKind : string; f_DueAt : Z;
  f_WaitingTriggerID : string; f_Mechanism : string; f_Detail : string; f_RefusedAt : Z;
  f_DeliveryID : string }.

Record WaitEnd := mkWaitEnd {
  n_Outcome : string; n_At : Z; n_RunID : string; n_Refusal : option Refusal }.

Record Tick := mkTick { k_DueAt : Z; k_Host : string; k_Instance : string; k_RunID : string }.

Record RateStart := mkRateStart { s_PlaybookName : string; s_RunID : string; s_StartedAt : Z }.

Record Delivery := mkDelivery {
  d_ID : string; d_Source : string; d_Identity : string; d_IdentityKind : string;
  d_ReceivedAt : Z; d_Peer : string; d_BodyRef : string; d_BodySHA256 : string;
  d_Repeats : Z; d_Instance : string; d_Supersedes : string; d_State : string }.

Record HandOff := mkHandOff {
  o_DeliveryID : string; o_PlaybookName : string; o_State : string; o_DecidedAt : Z }.

Record DeliveryRefusal := mkDeliveryRefusal {
  y_ID : string; y_Source : string; y_Reason : string; y_ValueName : string;
  y_PlaybookName : string; y_DeliveryID : string; y_ReceivedAt : Z; y_Peer : string;
  y_BodyRef : string }.

Record UnauthenticatedRefusalCount := mkCount {
  c_Count : Z; c_LastPeer : string; c_LastAt : Z }.

(** ** The database *)

Record db := mkDb {
  runs : list Run;
  refusals : list Refusal;
  waiting_triggers : list WaitingTrigger;
  last_ticks : gmap string Tick;
  rate_starts : list RateStart;
  missed_occurrences : gmap (string * Z) (Z * string);
  deliveries : list Delivery;
  delivery_identities : gmap (string * string) (string * Z);
  handoffs : list HandOff;
  delivery_refusals : list DeliveryRefusal;
  ingress_refusal_counts : gmap (Z * string * string) UnauthenticatedRefusalCount }.

Definition empty_db : db := mkDb [] [] [] ∅ [] ∅ [] ∅ [] [] ∅.

Definition set_runs (x : list Run) (s : db) : db :=
  mkDb x (refusals s) (waiting_triggers s) (last_ticks s) (rate_starts s)
    (missed_occurrences s) (deliveries s) (delivery_identities s) (handoffs s)
    (delivery_refusals s) (ingress_refusal_counts s).
Definition set_refusals (x : list Refusal) (s : db) : db :=
  mkDb (runs s) x (waiting_triggers s) (last_ticks s) (rate_starts s)
    (missed_occurrences s) (deliveries s) (delivery_identities s) (handoffs s)
    (delivery_refusals s) (ingress_refusal_counts s).
Definition set_waiting (x : list WaitingTrigger) (s : db) : db :=
  mkDb (runs s) (refusals s) x (last_ticks s) (rate_starts s)
    (missed_occurrences s) (deliveries s) (delivery_identities s) (handoffs s)
    (delivery_refusals s) (ingress_refusal_counts s).
Definition set_ticks (x : gmap string Tick) (s : db) : db :=
  mkDb (runs s) (refusals s) (waiting_triggers s) x (rate_starts s)
    (missed_occurrences s) (deliveries s) (delivery_identities s) (handoffs s)
    (delivery_refusals s) (ingress_refusal_counts s).
Definition set_rate_starts (x : list RateStart) (s : db) : db :=
  mkDb (runs s) (refusals s) (waiting_triggers s) (last_ticks s) x
    (missed_occurrences s) (deliveries s) (delivery_identities s) (handoffs s)
    (delivery_refusals s) (ingress_refusal_counts s).
Definition set_missed (x : gmap (string * Z) (Z * string)) (s : db) : db :=
  mkDb (runs s) (refusals s) (waiting_triggers s) (last_ticks s) (rate_starts s)
    x (deliveries s) (delivery_identities s) (handoffs s)
    (delivery_refusals s) (ingress_refusal_counts s).
Definition set_deliveries (x : list Delivery) (s : db) : db :=
  mkDb (runs s) (refusals s) (waiting_triggers s) (last_ticks s) (rate_starts s)
    (missed_occurrences s) x (delivery_identities s) (handoffs s)
    (delivery_refusals s) (ingress_refusal_counts s).
Definition set_identities (x : gmap (string * string) (string * Z)) (s : db) : db :=
  mkDb (runs s) (refusals s) (waiting_triggers s) (last_ticks s) (rate_starts s)
    (missed_occurrences s) (deliveries s) x (handoffs s)
    (delivery_refusals s) (ingress_refusal_counts s).
Definition set_handoffs (x : list HandOff) (s : db) : db :=
  mkDb (runs s) (refusals s) (waiting_triggers s) (last_ticks s) (rate_starts s)
    (missed_occurrences s) (deliveries s) (delivery_identities s) x
    (delivery_refusals s) (ingress_refusal_counts s).
Definition set_delivery_refusals (x : list DeliveryRefusal) (s : db) : db :=
  mkDb (runs s) (refusals s) (waiting_triggers s) (last_ticks s) (rate_starts s)
    (missed_occurrences s) (deliveries s) (delivery_identities s) (handoffs s)
    x (ingress_refusal_counts s).
Definition set_counts (x : gmap (Z * string * string) UnauthenticatedRefusalCount) (s : db) : db :=
  mkDb (runs s) (refusals s) (waiting_triggers s) (last_ticks s) (rate_starts s)
    (missed_occurrences s) (deliveries s) (delivery_identities s) (handoffs s)
    (delivery_refusals s) x.

(** ** Queries and statements *)

(** [UPDATE t SET ... WHERE p]: the rows after it, and how many changed. *)
Definition update_where {A} (p : A → bool) (f : A → A) (l : list A) : list A * nat :=
  (map (λ x, if p x then f x else x) l, length (List.filter p l)).

(** [ORDER BY key], rows of one key in the order they were inserted. *)
Fixpoint insert_by {A} (le : A → A → bool) (x : A) (l : list A) : list A :=
  match l with
  | [] => [x]
  | y :: ys => if le x y then x :: y :: ys else y :: insert_by le x ys
  end.
Definition order_by {A} (le : A → A → bool) (l : list A) : list A := foldr (insert_by le) [] l.

Lemma order_by_perm {A} (le : A → A → bool) (l : list A) : order_by le l ≡ₚ l.
Proof.
  assert (∀ x l, insert_by le x l ≡ₚ x :: l) as Hi.
  { intros x l'. induction l' as [|y l' IH]; simpl; [done|].
    destruct (le x y); [done|]. rewrite IH. apply Permutation_swap. }
  unfold order_by. induction l as [|x l IH]; simpl; [done|]. by rewrite Hi, IH.
Qed.

(** It is sorted by a total order. *)
Section order_by.
Context {A} (le : A → A → bool).
Let R (a b : A) : Prop := le a b = true.

Lemma order_by_sorted `{!Transitive R} l : (∀ a b, R a b ∨ R b a) → StronglySorted R (order_by le l).
Proof.
  intros Ht. unfold order_by. induction l as [|x l IH]; simpl; [constructor|].
  induction IH as [|y m Hs IHm Hy]; simpl; [by repeat constructor|].
  destruct (le x y) eqn:E.
  - constructor; [by constructor|]. constructor; [done|].
    eapply Forall_impl; [exact Hy|]. intros z Hz. simpl in Hz. transitivity y; [exact E|exact Hz].
  - constructor; [done|]. assert (R y x) as Hx by (destruct (Ht x y) as [H|H]; [unfold R in H; congruence|done]).
    clear -Hy Hx. induction m as [|z m IH]; simpl; [by constructor|].
    apply Forall_cons in Hy as [Hz Hy]. destruct (le x z); [by repeat constructor|]. constructor; auto.
Qed.

(** Rows put in order come out the same whatever order they came in, when no two tie. *)
Lemma order_by_unique `{!Transitive R} l l' :
  (∀ a b, R a b ∨ R b a) → (∀ a b, a ∈ l → b ∈ l → R a b → R b a → a = b) → l ≡ₚ l' →
  order_by le l = order_by le l'.
Proof.
  intros Ht Hu Hp. apply (StronglySorted_unique_strong R); [|by apply order_by_sorted..|by rewrite !order_by_perm].
  intros a b Ha Hb. rewrite order_by_perm in Ha, Hb. rewrite <- Hp in Hb. by apply Hu.
Qed.
End order_by.

(** [LIMIT ?] as every listing computes it. *)
Definition page {A} (limit : Z) (l : list A) : list A :=
  take (Z.to_nat (if limit <=? 0 then 50 else limit)) l.
