(* ===== verification/Store.v ===== *)
(** The run record's operations for the guard and for runs: [waiting.go], [refusals.go],
    [ticks.go], [rate.go] and the run rows of [runs.go], in [src/runtime/internal/record].

    Each operation takes the database and gives its result and the database after it; a
    transaction that fails gives the database it began with.  The redactor is a function, a
    random identifier and a blob's reference are arguments, and SQLite executes every
    statement: its own failures (a full disk, a lost lock) are not modelled, what its
    declared keys refuse is. *)
From S2P Require Import Prelude GoStr GoTime GoErr Records.
From Stdlib Require Import QArith.
Open Scope Z_scope.

Section store.
Context (redact : string → string).

Definition unique_failed (table : string) : gerror :=
  Text ("constraint failed: UNIQUE constraint failed: " +:+ table +:+ ".id").
Definition foreign_failed : gerror := Text "constraint failed: FOREIGN KEY constraint failed".

Definition has_id {A} (id_of : A → string) (id : string) (l : list A) : bool :=
  existsb (λ x, String.eqb (id_of x) id) l.

(** A nullable reference: empty is null, which every foreign key allows. *)
Definition refers {A} (id_of : A → string) (id : string) (l : list A) : bool :=
  String.eqb id "" || has_id id_of id l.

(** ** Refusals *)

Definition redacted_refusal (r : Refusal) (id : string) : Refusal :=
  mkRefusal id (redact (f_PlaybookName r)) (f_TriggerKind r) (f_DueAt r) (f_WaitingTriggerID r)
    (f_Mechanism r) (redact (f_Detail r)) (f_RefusedAt r) (f_DeliveryID r).

Definition insertRefusal (new_id : gerror + string) (refusal : Refusal) (s : db)
  : option gerror * db :=
  match (if String.eqb (f_ID refusal) "" then new_id else inr (f_ID refusal)) with
  | inl err => (Some err, s)
  | inr id =>
      if IsZero (f_RefusedAt refusal) then
        (Some (Text ("refusal " +:+ id +:+ ": no time it was refused at")), s)
      else if has_id f_ID id (refusals s) then
        (Some (wrap_before ("recording refusal " +:+ id) (unique_failed "refusals")), s)
      else if negb (refers d_ID (f_DeliveryID refusal) (deliveries s)) then
        (Some (wrap_before ("recording refusal " +:+ id) foreign_failed), s)
      else (None, set_refusals (refusals s ++ [redacted_refusal refusal id]) s)
  end.

Definition RecordRefusal := insertRefusal.

Definition ListRefusals (limit : Z) (s : db) : list Refusal :=
  page limit (order_by (λ a b, f_RefusedAt b <=? f_RefusedAt a) (rev (refusals s))).

(** ** Waiting triggers *)

Definition ErrWaitingSlotFull : gerror := Sentinel "a trigger is already waiting for this playbook".

Definition is_waiting (w : WaitingTrigger) : bool := String.eqb (w_Outcome w) WaitWaiting.

(** [waitingColumns]: the run of a row is the run it names, or else the run that names it. *)
Definition waiting_columns (s : db) (w : WaitingTrigger) : WaitingTrigger :=
  let run_id :=
    if negb (String.eqb (w_RunID w) "") then w_RunID w
    else match List.find (λ r, String.eqb (u_WaitingTriggerID r) (w_ID w)) (runs s) with
         | Some r => u_ID r
         | None => ""
         end in
  mkWaitingTrigger (w_ID w) (w_PlaybookName w) (w_PlaybookPath w) (w_TriggerKind w)
    (w_TriggerRef w) (w_AcceptedAt w) (w_ExpiresAt w) (w_Instance w) (w_Outcome w)
    (w_OutcomeAt w) run_id (w_DeliveryID w).

Definition live_for (name : string) (w : WaitingTrigger) : bool :=
  String.eqb (w_PlaybookName w) name && is_waiting w.

Definition waitingFor (name : string) (s : db) : gerror + WaitingTrigger :=
  match List.find (live_for name) (waiting_triggers s) with
  | Some w => inr (waiting_columns s w)
  | None => inl (Sentinel "sql: no rows in result set")
  end.

Definition no_waiting : WaitingTrigger := mkWaitingTrigger "" "" "" "" "" 0 0 "" "" 0 "" "".

(** [AcceptWaiting]; [put] is what the blob store answers when the trigger carries values. *)
Definition AcceptWaiting (new_id : gerror + string) (put : string → gerror + string)
    (trigger : WaitingTrigger) (values : gmap string string) (s : db)
  : WaitingTrigger * option gerror * db :=
  if IsZero (w_AcceptedAt trigger) || IsZero (w_ExpiresAt trigger) then
    (no_waiting, Some (Text "a waiting trigger with no acceptance or expiry time"), s)
  else
    match new_id with
    | inl err => (no_waiting, Some err, s)
    | inr id =>
        match (if decide (values = ∅) then inr (w_TriggerRef trigger) else put id) with
        | inl err => (no_waiting, Some err, s)
        | inr ref =>
            let name := redact (w_PlaybookName trigger) in
            let accepted path instance outcome_at run_id :=
              mkWaitingTrigger id name path (w_TriggerKind trigger) ref (w_AcceptedAt trigger)
                (w_ExpiresAt trigger) instance WaitWaiting outcome_at run_id
                (w_DeliveryID trigger) in
            if existsb (live_for name) (waiting_triggers s) then
              match waitingFor name s with
              | inl err =>
                  (no_waiting,
                   Some (Wrap (Error ErrWaitingSlotFull +:+ "; and reading which one: "
                               +:+ Error err) [ErrWaitingSlotFull; err]), s)
              | inr occupant =>
                  (occupant, Some (wrap_after ErrWaitingSlotFull (": " +:+ w_ID occupant)), s)
              end
            else if has_id w_ID id (waiting_triggers s) then
              (no_waiting, Some (wrap_before ("accepting a waiting trigger of " +:+ name)
                                   (unique_failed "waiting_triggers")), s)
            else if negb (refers d_ID (w_DeliveryID trigger) (deliveries s)) then
              (no_waiting, Some (wrap_before ("accepting a waiting trigger of " +:+ name)
                                   foreign_failed), s)
            else
              let row :=
                accepted (redact (w_PlaybookPath trigger)) (redact (w_Instance trigger)) 0 "" in
              (accepted (w_PlaybookPath trigger) (w_Instance trigger) (w_OutcomeAt trigger)
                 (w_RunID trigger), None,
               set_waiting (waiting_triggers s ++ [row]) s)
        end
    end.

Definition end_row (outcome : string) (at_ : Z) (run_id : string) (w : WaitingTrigger)
  : WaitingTrigger :=
  mkWaitingTrigger (w_ID w) (w_PlaybookName w) (w_PlaybookPath w) (w_TriggerKind w)
    (w_TriggerRef w) (w_AcceptedAt w) (w_ExpiresAt w) (w_Instance w) outcome at_ run_id
    (w_DeliveryID w).

Definition waiting_row (id : string) (w : WaitingTrigger) : bool :=
  String.eqb (w_ID w) id && is_waiting w.

Definition EndWait (new_id : gerror + string) (id : string) (end_ : WaitEnd) (s : db)
  : (gerror + bool) * db :=
  if String.eqb (n_Outcome end_) WaitWaiting || IsZero (n_At end_) then
    (inl (Text ("waiting trigger " +:+ id +:+ ": an end with no outcome or no time")), s)
  else
    let '(rows, changed) :=
      update_where (waiting_row id) (end_row (n_Outcome end_) (n_At end_) (n_RunID end_))
        (waiting_triggers s) in
    if (0 <? changed)%nat && negb (refers u_ID (n_RunID end_) (runs s)) then
      (inl (wrap_before ("ending waiting trigger " +:+ id) foreign_failed), s)
    else if (changed =? 0)%nat then (inr false, s)
    else
      let s' := set_waiting rows s in
      match n_Refusal end_ with
      | None => (inr true, s')
      | Some refusal =>
          match insertRefusal new_id refusal s' with
          | (Some err, _) => (inl err, s)
          | (None, s'') => (inr true, s'')
          end
      end.

Definition StillWaiting (s : db) : list WaitingTrigger :=
  map (waiting_columns s)
    (order_by (λ a b, w_AcceptedAt a <=? w_AcceptedAt b)
       (List.filter is_waiting (waiting_triggers s))).

Definition GetWaitingTrigger (id : string) (s : db) : gerror + WaitingTrigger :=
  match List.find (λ w, String.eqb (w_ID w) id) (waiting_triggers s) with
  | Some w => inr (waiting_columns s w)
  | None => inl (Text ("no waiting trigger " +:+ id))
  end.

(** ** Ticks and rate windows *)

Definition LastTick (name : string) (s : db) : gerror + option Tick :=
  match last_ticks s !! name with
  | None => inr None
  | Some tick =>
      if IsZero (k_DueAt tick) then inl (Text ("the last tick of " +:+ name +:+ " is not a time: "
                  +:+ quote "0001-01-01T00:00:00.000000000Z"))
      else inr (Some tick)
  end.

Definition SetLastTick (name : string) (tick : Tick) (s : db) : option gerror * db :=
  if IsZero (k_DueAt tick) then
    (Some (Text ("the last tick of " +:+ name +:+ ": no due instant")), s)
  else
    (None, set_ticks (<[name := mkTick (k_DueAt tick) (redact (k_Host tick))
                                 (redact (k_Instance tick)) (k_RunID tick)]> (last_ticks s)) s).

Definition CountRateStarts (name : string) (since : Z) (s : db) : Z :=
  Z.of_nat (length (List.filter
    (λ r, String.eqb (s_PlaybookName r) (redact name) && (since <=? s_StartedAt r))
    (rate_starts s))).

Definition RecordRateStart (name run_id : string) (started_at : Z) (s : db) : db :=
  set_rate_starts (rate_starts s ++ [mkRateStart (redact name) run_id started_at]) s.

(** ** Runs *)

Definition ErrNotFound : gerror := Sentinel "no such run".

Definition waited (run : Run) : Z :=
  if String.eqb (u_WaitingTriggerID run) "" then 0 else u_WaitedMS run.

Definition CreateRun (now : Z) (run : Run) (s : db) : option gerror * db :=
  let started := if IsZero (u_StartedAt run) then now else u_StartedAt run in
  let row :=
    mkRun (u_ID run) (redact (u_PlaybookName run)) (u_ResolvedPlaybookRef run) (u_ReportRef run)
      (u_PromptRef run) (u_TriggerKind run) (u_ParentRunID run) (u_Status run) started 0 0%Q 0 "" ""
      "" (u_WaitingTriggerID run) (waited run) (u_ClaimReach run) (u_ClaimToken run)
      (u_DeliveryID run) in
  if has_id u_ID (u_ID run) (runs s) then
    (Some (wrap_before ("recording run " +:+ u_ID run) (unique_failed "runs")), s)
  else if negb (refers u_ID (u_ParentRunID run) (runs s)
                && refers w_ID (u_WaitingTriggerID run) (waiting_triggers s)
                && refers d_ID (u_DeliveryID run) (deliveries s)) then
    (Some (wrap_before ("recording run " +:+ u_ID run) foreign_failed), s)
  else
    let s' := set_runs (runs s ++ [row]) s in
    if String.eqb (u_WaitingTriggerID run) "" then (None, s')
    else
      let '(rows, ended) :=
        update_where (waiting_row (u_WaitingTriggerID run)) (end_row WaitRan started (u_ID run))
          (waiting_triggers s) in
      if (ended =? 0)%nat then
        (Some (Text ("run " +:+ u_ID run +:+ ": its wait had already ended (waiting trigger "
                     +:+ u_WaitingTriggerID run +:+ ")")), s)
      else (None, set_waiting rows s').

(** [coalesce(?, column)]: a null keeps what is there. *)
Definition coalesce (value old : string) : string := if String.eqb value "" then old else value.
Definition coalesce_int (value old : Z) : Z := if value =? 0 then old else value.

Definition finish_row (run row : Run) : Run :=
  mkRun (u_ID row) (u_PlaybookName row)
    (coalesce (u_ResolvedPlaybookRef run) (u_ResolvedPlaybookRef row))
    (coalesce (u_ReportRef run) (u_ReportRef row)) (coalesce (u_PromptRef run) (u_PromptRef row))
    (u_TriggerKind row) (u_ParentRunID row) (u_Status run) (u_StartedAt row) (u_EndedAt run)
    (if Qeq_bool (u_CostUSD run) 0 then u_CostUSD row else u_CostUSD run)
    (coalesce_int (u_Tokens run) (u_Tokens row))
    (coalesce (u_AgentSessionID run) (u_AgentSessionID row))
    (coalesce (u_CredentialSource run) (u_CredentialSource row)) (redact (u_Error run))
    (coalesce (u_WaitingTriggerID run) (u_WaitingTriggerID row))
    (if String.eqb (u_WaitingTriggerID run) "" then u_WaitedMS row else u_WaitedMS run)
    (coalesce (u_ClaimReach run) (u_ClaimReach row))
    (coalesce_int (u_ClaimToken run) (u_ClaimToken row)) (u_DeliveryID row).

Definition FinishRun (run : Run) (s : db) : option gerror * db :=
  let '(rows, changed) := update_where (λ r, String.eqb (u_ID r) (u_ID run)) (finish_row run) (runs s) in
  if (0 <? changed)%nat && negb (refers w_ID (u_WaitingTriggerID run) (waiting_triggers s)) then
    (Some (wrap_before ("finishing run " +:+ u_ID run) foreign_failed), s)
  else if (changed =? 0)%nat then (Some (wrap_after ErrNotFound (": " +:+ u_ID run)), s)
  else (None, set_runs rows s).

Definition GetRun (id : string) (s : db) : gerror + Run :=
  match List.find (λ r, String.eqb (u_ID r) id) (runs s) with
  | Some run => inr run
  | None => inl (wrap_after ErrNotFound (": " +:+ id))
  end.

(** Runs are listed by the text of the time they started at, in RFC 3339 with the fraction's
    trailing zeros dropped, and then by identifier, both descending. *)
Definition run_before (a b : Run) : bool :=
  let ka := rfc3339_nano (u_StartedAt a) in
  let kb := rfc3339_nano (u_StartedAt b) in
  if String.eqb ka kb then String.leb (u_ID b) (u_ID a) else String.leb kb ka.

Definition ListRuns (limit : Z) (s : db) : list Run := page limit (order_by run_before (runs s)).

Definition RecordMissedOccurrence (name : string) (due_at : Z) (reason : string) (now : Z) (s : db)
  : db := set_missed (<[(redact name, due_at) := (now, redact reason)]> (missed_occurrences s)) s.

Definition interrupt_row (now : Z) (r : Run) : Run :=
  mkRun (u_ID r) (u_PlaybookName r) (u_ResolvedPlaybookRef r) (u_ReportRef r) (u_PromptRef r)
    (u_TriggerKind r) (u_ParentRunID r) StatusInterrupted (u_StartedAt r) now (u_CostUSD r)
    (u_Tokens r) (u_AgentSessionID r) (u_CredentialSource r)
    "the runtime stopped while this run was in flight" (u_WaitingTriggerID r) (u_WaitedMS r)
    (u_ClaimReach r) (u_ClaimToken r) (u_DeliveryID r).

Definition MarkRunningAsInterrupted (now : Z) (s : db) : Z * db :=
  let '(rows, changed) :=
    update_where (λ r, String.eqb (u_Status r) StatusRunning) (interrupt_row now) (runs s) in
  (Z.of_nat changed, set_runs rows s).

(** ** Steps of the record *)

(** Everything the runtime does to the tables of this file, one operation at a time; the
    identifiers, blobs and clock readings are whatever they are.  A run is finished under
    the waiting trigger it was created with. *)
Inductive step (s : db) : db → Prop :=
| step_accept new_id put trigger values row err s' :
    AcceptWaiting new_id put trigger values s = (row, err, s') → step s s'
| step_end new_id id end_ r s' : EndWait new_id id end_ s = (r, s') → step s s'
| step_create now run err s' : CreateRun now run s = (err, s') → step s s'
| step_finish run err s' :
    (∀ row, row ∈ runs s → u_ID row = u_ID run →
       u_WaitingTriggerID run = "" ∨ u_WaitingTriggerID run = u_WaitingTriggerID row) →
    FinishRun run s = (err, s') → step s s'
| step_refusal new_id refusal err s' : RecordRefusal new_id refusal s = (err, s') → step s s'
| step_tick name tick err s' : SetLastTick name tick s = (err, s') → step s s'
| step_rate name run_id at_ : step s (RecordRateStart name run_id at_ s)
| step_missed name due reason now : step s (RecordMissedOccurrence name due reason now s)
| step_interrupt now n s' : MarkRunningAsInterrupted now s = (n, s') → step s s'.

(** What holds of the waiting triggers and the runs they became. *)
Record waits_ok (s : db) : Prop := {
  wo_ids : NoDup (map w_ID (waiting_triggers s));
  wo_run_ids : NoDup (map u_ID (runs s));
  wo_one_live w1 w2 : w1 ∈ waiting_triggers s → w2 ∈ waiting_triggers s →
    is_waiting w1 = true → is_waiting w2 = true → w_PlaybookName w1 = w_PlaybookName w2 →
    w_ID w1 = w_ID w2;
  wo_ran r : r ∈ runs s → u_WaitingTriggerID r ≠ "" →
    ∃ w, w ∈ waiting_triggers s ∧ w_ID w = u_WaitingTriggerID r ∧ w_Outcome w = WaitRan ∧
      w_RunID w = u_ID r }.

(** The wait [id] has ended, and its row says how. *)
Definition ended (id : string) (s : db) : Prop :=
  ∃ w, w ∈ waiting_triggers s ∧ w_ID w = id ∧ is_waiting w = false.

Lemma has_id_false {A} (id_of : A → string) id (l : list A) :
  has_id id_of id l = false ↔ id ∉ map id_of l.
Proof.
  unfold has_id. rewrite <- not_true_iff_false, existsb_exists, list_elem_of_fmap.
  split.
  - intros H (x & -> & Hx%list_elem_of_In). apply H. exists x. split; [done|apply String.eqb_refl].
  - intros H (x & Hx%list_elem_of_In & <-%String.eqb_eq). eauto.
Qed.

Lemma map_update {A B} (p : A → bool) (f : A → A) (g : A → B) (l : list A) :
  (∀ x, g (f x) = g x) → map g (fst (update_where p f l)) = map g l.
Proof.
  intros H. simpl. rewrite map_map. apply map_ext. intros x. by destruct (p x).
Qed.

Lemma elem_of_update {A} (p : A → bool) (f : A → A) (l : list A) y :
  y ∈ fst (update_where p f l) ↔
    ∃ x, x ∈ l ∧ ((p x = true ∧ y = f x) ∨ (p x = false ∧ y = x)).
Proof.
  simpl. rewrite list_elem_of_fmap. split.
  - intros (x & -> & Hx). exists x. split; [done|]. destruct (p x) eqn:E; auto.
  - intros (x & Hx & [[E ->]|[E ->]]); exists x; by rewrite E.
Qed.

Lemma update_none {A} (p : A → bool) (f : A → A) (l : list A) :
  snd (update_where p f l) = 0%nat ↔ ∀ x, x ∈ l → p x = false.
Proof.
  simpl. induction l as [|x l IH]; simpl; [split; [by intros _ x []%elem_of_nil|done]|].
  destruct (p x) eqn:E; simpl.
  - split; [done|]. intros H. rewrite (H x) in E; [done|left].
  - rewrite IH. split; intros H y.
    + intros [-> |Hy]%elem_of_cons; auto.
    + intros Hy. apply H. by right.
Qed.

Lemma update_some {A} (p : A → bool) (f : A → A) (l : list A) :
  snd (update_where p f l) ≠ 0%nat → ∃ x, x ∈ l ∧ p x = true.
Proof.
  simpl. induction l as [|x l IH]; simpl; [done|]. destruct (p x) eqn:E.
  - intros _. exists x. split; [left|done].
  - intros (y & Hy & Hp)%IH. exists y. split; [by right|done].
Qed.

Lemma waiting_row_spec id w : waiting_row id w = true ↔ w_ID w = id ∧ is_waiting w = true.
Proof. unfold waiting_row. by rewrite andb_true_iff, String.eqb_eq. Qed.

Lemma elem_of_by_id {A B} (id_of : A → B) (l : list A) x y :
  NoDup (map id_of l) → x ∈ l → y ∈ l → id_of x = id_of y → x = y.
Proof.
  intros Hnd Hx Hy He. apply list_elem_of_lookup in Hx as [i Hi].
  apply list_elem_of_lookup in Hy as [j Hj].
  assert (map id_of l !! i = Some (id_of x)) as H1 by (by rewrite list_lookup_fmap, Hi).
  assert (map id_of l !! j = Some (id_of y)) as H2 by (by rewrite list_lookup_fmap, Hj).
  rewrite <- He in H2. pose proof (NoDup_lookup _ _ _ _ Hnd H1 H2). congruence.
Qed.

Lemma insertRefusal_tables new_id refusal s err s' :
  insertRefusal new_id refusal s = (err, s') →
  waiting_triggers s' = waiting_triggers s ∧ runs s' = runs s ∧
  match err with
  | Some _ => s' = s
  | None => ∃ id, refusals s' = refusals s ++ [redacted_refusal refusal id]
  end.
Proof. unfold insertRefusal. intros H. repeat split_match; simplify_eq; eauto. Qed.

Lemma waits_ok_ext s s' :
  waiting_triggers s' = waiting_triggers s → runs s' = runs s → waits_ok s → waits_ok s'.
Proof. intros Hw Hr [H1 H2 H3 H4]. constructor; rewrite ?Hw, ?Hr; auto. Qed.

Lemma AcceptWaiting_cases new_id put trigger values s row err s' :
  AcceptWaiting new_id put trigger values s = (row, err, s') →
  (s' = s ∧ is_Some err) ∨
  ∃ w, s' = set_waiting (waiting_triggers s ++ [w]) s ∧ err = None ∧ w_ID row = w_ID w ∧
    is_waiting w = true ∧ w_PlaybookName w = redact (w_PlaybookName trigger) ∧
    w_ID w ∉ map w_ID (waiting_triggers s) ∧
    existsb (live_for (w_PlaybookName w)) (waiting_triggers s) = false.
Proof.
  unfold AcceptWaiting. intros H.
  repeat split_match; simplify_eq; try (left; by eauto).
  all: right; eexists; split_and!; [reflexivity|done|done|done|done| |done];
    by apply has_id_false.
Qed.

Lemma EndWait_cases new_id id end_ s r s' :
  EndWait new_id id end_ s = (r, s') →
  (s' = s ∧ r ≠ inr true) ∨
  (r = inr true ∧ runs s' = runs s ∧ n_Outcome end_ ≠ WaitWaiting ∧
   (∃ w, w ∈ waiting_triggers s ∧ waiting_row id w = true) ∧
   waiting_triggers s' = fst (update_where (waiting_row id)
     (end_row (n_Outcome end_) (n_At end_) (n_RunID end_)) (waiting_triggers s)) ∧
   match n_Refusal end_ with
   | None => refusals s' = refusals s
   | Some refusal => ∃ rid, refusals s' = refusals s ++ [redacted_refusal refusal rid]
   end).
Proof.
  unfold EndWait. destruct (_ || _) eqn:E0; [intros; simplify_eq; by left|]. bool_facts.
  destruct (update_where _ _ _) as [rows changed] eqn:Eu.
  destruct ((0 <? changed)%nat && _); [intros; simplify_eq; by left|].
  destruct (changed =? 0)%nat eqn:Ec; [intros; simplify_eq; by left|].
  assert (∃ w, w ∈ waiting_triggers s ∧ waiting_row id w = true) as Hw
    by (eapply update_some; rewrite Eu; by apply Nat.eqb_neq).
  assert (rows = fst (update_where (waiting_row id)
     (end_row (n_Outcome end_) (n_At end_) (n_RunID end_)) (waiting_triggers s))) as Hrows
    by by rewrite Eu.
  destruct (n_Refusal end_) as [refusal|] eqn:Er.
  - destruct (insertRefusal new_id refusal _) as [err s1] eqn:Ei.
    apply insertRefusal_tables in Ei as (Hw1 & Hr1 & Hf1).
    destruct err; intros; simplify_eq; [by left|]. right. split_and!; auto.
  - intros; simplify_eq. right. by split_and!.
Qed.

Lemma CreateRun_cases now run s err s' :
  CreateRun now run s = (err, s') →
  (s' = s ∧ is_Some err) ∨
  ∃ row, err = None ∧ runs s' = runs s ++ [row] ∧ u_ID row = u_ID run ∧
    u_WaitingTriggerID row = u_WaitingTriggerID run ∧ u_ID run ∉ map u_ID (runs s) ∧
    if String.eqb (u_WaitingTriggerID run) "" then waiting_triggers s' = waiting_triggers s
    else (∃ w, w ∈ waiting_triggers s ∧ waiting_row (u_WaitingTriggerID run) w = true) ∧
      ∃ at_, waiting_triggers s' = fst (update_where (waiting_row (u_WaitingTriggerID run))
        (end_row WaitRan at_ (u_ID run)) (waiting_triggers s)).
Proof.
  unfold CreateRun. destruct (has_id u_ID _ _) eqn:Eid; [intros; simplify_eq; by left; eauto|].
  destruct (negb _); [intros; simplify_eq; by left; eauto|].
  apply has_id_false in Eid. destruct (String.eqb (u_WaitingTriggerID run) "") eqn:Ew.
  - intros; simplify_eq. right. eexists. by split_and!.
  - set (started := if IsZero (u_StartedAt run) then now else u_StartedAt run) in *.
    destruct (update_where _ _ _) as [rows ended_] eqn:Eu.
    destruct (ended_ =? 0)%nat eqn:Ee; intros; simplify_eq; [by left; eauto|].
    right. eexists. split_and!; [done|done|done|done|done| |].
    + eapply update_some. rewrite Eu. by apply Nat.eqb_neq.
    + exists started. by rewrite Eu.
Qed.

(** Ending rows keeps what tells them apart and ends nothing twice. *)
Lemma end_rows_ok id outcome at_ run_id s s' :
  waits_ok s → outcome ≠ WaitWaiting → runs s' = runs s →
  waiting_triggers s' =
    fst (update_where (waiting_row id) (end_row outcome at_ run_id) (waiting_triggers s)) →
  waits_ok s'.
Proof.
  intros [H1 H2 H3 H4] Ho Hr Hw.
  assert (∀ y, y ∈ waiting_triggers s' → is_waiting y = true → y ∈ waiting_triggers s) as Hlive.
  { rewrite Hw. intros y (x & Hx & [[_ ->]|[_ ->]])%elem_of_update Hy; [|done].
    exfalso. unfold is_waiting in Hy. simpl in Hy. by apply String.eqb_eq in Hy. }
  constructor.
  - rewrite Hw. by rewrite map_update.
  - by rewrite Hr.
  - intros w1 w2 Hw1 Hw2 L1 L2 Hn. by apply H3; auto.
  - rewrite Hr. intros r Hin Hne. destruct (H4 r Hin Hne) as (w & Hwin & Hid & Hran & Hrun).
    exists w. split; [|done]. rewrite Hw. apply elem_of_update. exists w. split; [done|right].
    split; [|done]. unfold waiting_row, is_waiting. rewrite Hran. apply andb_false_r.
Qed.

Lemma runs_rows_ok (p : Run → bool) (f : Run → Run) s s' :
  (∀ r, r ∈ runs s → p r = true →
     u_ID (f r) = u_ID r ∧ u_WaitingTriggerID (f r) = u_WaitingTriggerID r) →
  waits_ok s → waiting_triggers s' = waiting_triggers s →
  runs s' = fst (update_where p f (runs s)) → waits_ok s'.
Proof.
  intros Hf [H1 H2 H3 H4] Hw Hr. constructor; rewrite ?Hw; auto.
  - rewrite Hr. simpl. rewrite map_map. erewrite map_ext_in; [exact H2|].
    intros r Hin%list_elem_of_In. simpl. destruct (p r) eqn:E; [|done]. by apply Hf.
  - rewrite Hr. intros r (x & Hx & [[E ->]|[E ->]])%elem_of_update Hne; [|by apply H4].
    destruct (Hf x Hx E) as [Hid Hwt]. rewrite Hid, Hwt in *. by apply H4.
Qed.

Lemma step_waits_ok s s' : step s s' → waits_ok s → waits_ok s'.
Proof.
  intros Hstep Hok. destruct Hstep.
  - apply AcceptWaiting_cases in H as [[-> _]|(w & -> & _ & _ & Hlive & _ & Hid & Hno)]; [done|].
    destruct Hok as [H1 H2 H3 H4]. constructor; simpl.
    + rewrite map_app. apply NoDup_app. split_and!; [done| |apply NoDup_singleton].
      by intros x Hx ->%list_elem_of_singleton.
    + done.
    + assert (∀ y, y ∈ waiting_triggers s → is_waiting y = true →
        w_PlaybookName y ≠ w_PlaybookName w) as Hy.
      { intros y Hy Hl Hn. assert (existsb (live_for (w_PlaybookName w)) (waiting_triggers s) = true);
          [|congruence].
        apply existsb_exists. exists y. split; [by apply list_elem_of_In|]. unfold live_for.
        by rewrite Hn, String.eqb_refl, Hl. }
      intros w1 w2 [Hw1|Hw1]%elem_of_app [Hw2|Hw2]%elem_of_app L1 L2 Hn;
        rewrite ?list_elem_of_singleton in *; subst; auto; exfalso; by eapply Hy.
    + intros r Hr Hne. destruct (H4 r Hr Hne) as (x & Hx & ?). exists x. split; [|done].
      apply elem_of_app. by left.
  - apply EndWait_cases in H as [[-> _]|(_ & Hr & Ho & _ & Hw & _)]; [done|].
    by eapply end_rows_ok.
  - apply CreateRun_cases in H as [[-> _]|(row & _ & Hr & Hid & Hwt & Hfresh & Hw)]; [done|].
    assert (waits_ok (set_runs (runs s) s')) as [H1 _ H3 H4].
    { revert Hw. destruct (String.eqb (u_WaitingTriggerID run) ""); intros Hw;
        [by apply (waits_ok_ext s)|].
      destruct Hw as [_ [at_ Hw]]. by apply (end_rows_ok (u_WaitingTriggerID run) WaitRan at_ (u_ID run) s). }
    destruct Hok as [_ G2 _ _]. constructor; [done| |done|].
    + rewrite Hr, map_app. apply NoDup_app. split_and!; [done| |apply NoDup_singleton].
      simpl. rewrite Hid. by intros x Hx ->%list_elem_of_singleton.
    + rewrite Hr. intros r [Hin| ->%list_elem_of_singleton]%elem_of_app Hne; [by apply H4|].
      rewrite Hwt in Hne |- *. apply String.eqb_neq in Hne. rewrite Hne in Hw.
      destruct Hw as [(w & Hwin & Hlive) [at_ Hw]].
      exists (end_row WaitRan at_ (u_ID run) w). split; [|].
      * rewrite Hw. apply elem_of_update. exists w. split; [done|by left].
      * apply waiting_row_spec in Hlive as [? _]. by split_and!.
  - unfold FinishRun in H0. destruct (update_where _ _ _) as [rows changed] eqn:Eu.
    destruct (_ && _); [by simplify_eq|]. destruct (changed =? 0)%nat; [by simplify_eq|].
    simplify_eq. apply (runs_rows_ok (λ r, String.eqb (u_ID r) (u_ID run)) (finish_row run) s);
      [|done|done|by rewrite Eu].
    intros r Hr E%String.eqb_eq. split; [done|]. simpl. unfold coalesce.
    destruct (H r Hr E) as [-> | ->]; [done|by destruct (String.eqb _ _)].
  - apply insertRefusal_tables in H as (Hw & Hr & _). by apply (waits_ok_ext s).
  - unfold SetLastTick in H. destruct (IsZero _); simplify_eq; [done|by apply (waits_ok_ext s)].
  - by apply (waits_ok_ext s).
  - by apply (waits_ok_ext s).
  - unfold MarkRunningAsInterrupted, update_where in H. simplify_eq.
    apply (runs_rows_ok (λ r, String.eqb (u_Status r) StatusRunning) (interrupt_row now) s);
      [by intros|done|done|done].
Qed.

(** A wait that has ended stays ended, whatever happens next. *)
Lemma step_ended id s s' : step s s' → ended id s → ended id s'.
Proof.
  intros Hstep (w & Hw & Hid & Hout).
  assert (∀ id' outcome at_ run_id, waiting_triggers s' =
      fst (update_where (waiting_row id') (end_row outcome at_ run_id) (waiting_triggers s)) →
    ended id s') as Hupd.
  { intros id' outcome at_ run_id H. exists w. split; [|done]. rewrite H. apply elem_of_update.
    exists w. split; [done|right]. split; [|done]. unfold waiting_row. rewrite Hout.
    apply andb_false_r. }
  assert (waiting_triggers s' = waiting_triggers s → ended id s') as Hsame
    by (intros H; exists w; by rewrite H).
  destruct Hstep.
  - apply AcceptWaiting_cases in H as [[-> _]|(x & -> & _)]; [by apply Hsame|].
    exists w. split; [|done]. apply elem_of_app. by left.
  - apply EndWait_cases in H as [[-> _]|(_ & _ & _ & _ & H & _)]; eauto.
  - apply CreateRun_cases in H as [[-> _]|(row & _ & _ & _ & _ & _ & H)]; [by apply Hsame|].
    destruct (String.eqb (u_WaitingTriggerID run) ""); [by apply Hsame|].
    destruct H as [_ [at_ H]]. eauto.
  - apply Hsame. unfold FinishRun in H0. by repeat split_match; simplify_eq.
  - apply Hsame. by apply insertRefusal_tables in H as (? & _).
  - apply Hsame. unfold SetLastTick in H. by destruct (IsZero _); simplify_eq.
  - by apply Hsame.
  - by apply Hsame.
  - apply Hsame. unfold MarkRunningAsInterrupted, update_where in H. by simplify_eq.
Qed.

Lemma steps_keep id s s' : rtc step s s' → waits_ok s → waits_ok s' ∧ (ended id s → ended id s').
Proof.
  induction 1 as [s|s s1 s' H1 _ IH]; intros Hok; [done|].
  destruct IH as [? ?]; [by eapply step_waits_ok|]. eauto using step_ended.
Qed.

Lemma empty_waits_ok : waits_ok empty_db.
Proof.
  constructor; simpl; [constructor|constructor| |].
  - intros w1 w2 []%elem_of_nil.
  - intros r []%elem_of_nil.
Qed.

Lemma ended_not_waiting id s w :
  waits_ok s → ended id s → w ∈ waiting_triggers s → waiting_row id w = false.
Proof.
  intros Hok (x & Hx & Hid & Hout) Hw. destruct (waiting_row id w) eqn:E; [|done].
  apply waiting_row_spec in E as [Hwid Hl].
  assert (x = w) as -> by (eapply (elem_of_by_id w_ID); [apply Hok|done|done|congruence]).
  congruence.
Qed.

(** At most one trigger waits for a playbook, and a run that came from a waiting trigger
    ended that wait as its own: on every record reachable from an empty one by the runtime's
    operations, with any identifiers, clock readings and interleaving of the operations,
    live waiting rows of one playbook are one row, and a run that names a waiting trigger
    finds that row ended as ran with this very run, so no two runs come from one wait. *)
Theorem one_live_wait s :
  rtc step empty_db s →
  (∀ w1 w2, w1 ∈ waiting_triggers s → w2 ∈ waiting_triggers s →
     is_waiting w1 = true → is_waiting w2 = true →
     w_PlaybookName w1 = w_PlaybookName w2 → w1 = w2) ∧
  (∀ r, r ∈ runs s → u_WaitingTriggerID r ≠ "" →
     ∃ w, w ∈ waiting_triggers s ∧ w_ID w = u_WaitingTriggerID r ∧ w_Outcome w = WaitRan ∧
       w_RunID w = u_ID r) ∧
  (∀ r1 r2, r1 ∈ runs s → r2 ∈ runs s → u_WaitingTriggerID r1 ≠ "" →
     u_WaitingTriggerID r1 = u_WaitingTriggerID r2 → r1 = r2).
Proof.
  intros Hs. destruct (steps_keep "" _ _ Hs empty_waits_ok) as [[H1 H2 H3 H4] _].
  split_and!; [|done|].
  - intros w1 w2 Hw1 Hw2 L1 L2 Hn. eapply (elem_of_by_id w_ID); eauto.
  - intros r1 r2 Hr1 Hr2 Hne Heq.
    destruct (H4 r1 Hr1 Hne) as (w1 & Hw1 & Hid1 & _ & Hrun1).
    destruct (H4 r2 Hr2) as (w2 & Hw2 & Hid2 & _ & Hrun2); [congruence|].
    assert (w1 = w2) as -> by (eapply (elem_of_by_id w_ID); eauto; congruence).
    eapply (elem_of_by_id u_ID); eauto; congruence.
Qed.

(** A wait ends once: after a call of EndWait that reported ending it, or a run created
    from it, and whatever the runtime does to the record afterwards, no EndWait of that
    trigger ends it again or writes a refusal, and no run can be created from it. *)
Theorem a_wait_ends_once s s1 s2 id :
  rtc step empty_db s → id ≠ "" →
  (∃ new_id end_, EndWait new_id id end_ s = (inr true, s1)) ∨
  (∃ now run, u_WaitingTriggerID run = id ∧ CreateRun now run s = (None, s1)) →
  rtc step s1 s2 →
  (∀ new_id end_, ∃ r, EndWait new_id id end_ s2 = (r, s2) ∧ r ≠ inr true) ∧
  (∀ now run, u_WaitingTriggerID run = id → ∃ err, CreateRun now run s2 = (Some err, s2)).
Proof.
  intros Hs Hid Hend H2. destruct (steps_keep id _ _ Hs empty_waits_ok) as [Hok _].
  assert (step s s1 ∧ ended id s1) as [Hstep He].
  { destruct Hend as [(i & e & H)|(now & run & <- & H)].
    - split; [by econstructor|].
      apply EndWait_cases in H as [[_ ?]|(_ & _ & Ho & (w & Hw & Hlive) & Hs1 & _)]; [done|].
      apply waiting_row_spec in Hlive as Hw'. destruct Hw' as [Hwid _].
      exists (end_row (n_Outcome e) (n_At e) (n_RunID e) w). split_and!; [|done|].
      + rewrite Hs1. apply elem_of_update. exists w. split; [done|by left].
      + unfold is_waiting. simpl. by apply String.eqb_neq.
    - split; [by econstructor|].
      apply CreateRun_cases in H as [[_ [? ?]]|(row & _ & _ & _ & _ & _ & H)]; [done|].
      apply String.eqb_neq in Hid. rewrite Hid in H. destruct H as [(w & Hw & Hlive) [at_ Hs1]].
      apply waiting_row_spec in Hlive as Hw'. destruct Hw' as [Hwid _].
      exists (end_row WaitRan at_ (u_ID run) w). split_and!; [|done|done].
      rewrite Hs1. apply elem_of_update. exists w. split; [done|by left]. }
  destruct (steps_keep id _ _ H2 (step_waits_ok _ _ Hstep Hok)) as [Hok2 He2].
  pose proof (λ w, ended_not_waiting id s2 w Hok2 (He2 He)) as Hno. split.
  - intros i e. destruct (EndWait i id e s2) as [r s3] eqn:E.
    apply EndWait_cases in E as [[-> ?]|(_ & _ & _ & (w & Hw & Hl) & _)]; [eauto|].
    rewrite (Hno w Hw) in Hl. done.
  - intros now run Hrun. destruct (CreateRun now run s2) as [err s3] eqn:E.
    apply CreateRun_cases in E as [[-> [e ->]]|(row & _ & _ & _ & _ & _ & E)]; [eauto|].
    rewrite Hrun in E. apply String.eqb_neq in Hid. rewrite Hid in E.
    destruct E as [(w & Hw & Hl) _]. by rewrite (Hno w Hw) in Hl.
Qed.
End store.

(** ** The record on concrete operations *)

Definition plain (text : string) : string := text.

Definition waiting_alert : WaitingTrigger :=
  mkWaitingTrigger "" "alert" "p/alert.yaml" TriggerManual "" (10 * Second) (70 * Second) "i-1" ""
    0 "" "".
Definition no_put (_ : string) : gerror + string := inl (Text "no blobs").

Definition run_of (id wait : string) (at_ : Z) : Run :=
  mkRun id "alert" "" "" "" TriggerManual "" StatusRunning at_ 0 0%Q 0 "" "" "" wait 5
    "single-host" 0 "".

Definition after_accept : db :=
  snd (AcceptWaiting plain (inr "w1") no_put waiting_alert ∅ empty_db).
Definition after_run : db := snd (CreateRun plain 0 (run_of "r1" "w1" (20 * Second)) after_accept).

Lemma after_accept_reachable : rtc (step plain) empty_db after_accept.
Proof.
  apply rtc_once. unfold after_accept.
  destruct (AcceptWaiting _ _ _ _ _ _) as [[row err] s] eqn:E. by eapply step_accept.
Qed.

Lemma after_run_reachable : rtc (step plain) empty_db after_run.
Proof.
  eapply rtc_r; [exact after_accept_reachable|]. unfold after_run.
  destruct (CreateRun _ _ _ _) as [err s] eqn:E. by eapply step_create.
Qed.

Lemma one_live_wait_witness :
  runs after_run ≠ [] ∧ ∀ r, r ∈ runs after_run → u_WaitingTriggerID r ≠ "" →
    ∃ w, w ∈ waiting_triggers after_run ∧ w_ID w = u_WaitingTriggerID r ∧
      w_Outcome w = WaitRan ∧ w_RunID w = u_ID r.
Proof.
  split; [done|]. apply (one_live_wait plain after_run). exact after_run_reachable.
Defined.

Lemma a_wait_ends_once_witness :
  ∃ r, EndWait plain (inr "f1") "w1" (mkWaitEnd WaitDropped (30 * Second) "" None) after_run
         = (r, after_run) ∧ r ≠ inr true.
Proof.
  apply (a_wait_ends_once plain after_accept after_run after_run "w1").
  - exact after_accept_reachable.
  - done.
  - right. exists 0, (run_of "r1" "w1" (20 * Second)). split; reflexivity.
  - apply rtc_refl.
Defined.

(** A listing of runs is not most recent first: two runs of one second are ordered by
    the text of their times, and the text of the earlier one, whose fraction of a second is
    zero and so is dropped, sorts after the text of the later one. *)
Theorem ListRuns_not_most_recent_first :
  let early := run_of "early" "" (62135596800 * Second) in
  let late := run_of "late" "" (62135596800 * Second + 500 * Millisecond) in
  u_StartedAt early < u_StartedAt late ∧
  map u_ID (ListRuns 50 (set_runs [early; late] empty_db)) = ["early"; "late"].
Proof. vm_compute. done. Qed.
