(* ===== verification/Contract.v ===== *)
(** What every coordinator promises, whichever backend it stands on: the clauses of
    [src/runtime/internal/guard/coordinator.go], as one ledger and the notes it takes, and the suite of
    [guardtest/contract.go] every coordinator is run through.

    A ledger is what a backend that never failed and did one thing at a time would know; a note is
    one thing it did.  [heed] says which notes it may take and what each leaves; the laws below
    are those of every sequence of notes it takes. *)
From S2P Require Import Prelude GoStr GoTime GoErr GuardConfig.

(** ** The ledger *)

Record hold := mkHold { c_token : Z; c_holder : Holder; c_granted : Z; c_expires : Z }.
#[export] Instance Holder_eq_dec : EqDecision Holder.
Proof. solve_decision. Defined.
#[export] Instance RateLimit_eq_dec : EqDecision RateLimit.
Proof. solve_decision. Defined.

(** Time is the backend's own; [l_last] is the last token given; a slot is the instant it is free
    again. *)
Record ledger := mkLedger {
  l_now : Z; l_last : Z; l_holds : gmap string hold; l_ticks : gmap string (Z * Holder); l_slots : gmap string (list Z) }.
Definition empty_ledger (now : Z) : ledger := mkLedger now 0 ∅ ∅ ∅.

Definition scheduled (req : AcquireRequest) : bool := String.eqb (t_Kind (a_Trigger req)) KindSchedule.

Definition current (l : ledger) (name : string) : option hold :=
  match l_holds l !! name with Some c => if l_now l <? c_expires c then Some c else None | None => None end.
Definition slots_of (l : ledger) (name : string) : list Z := default [] (l_slots l !! name).
Definition taken_at (now : Z) (slots : list Z) : list Z := List.filter (λ free_at, now <? free_at) slots.

(** Why a claim is refused, and the error each reason is. *)
Inductive reason := AlreadyHeld (holder : Holder) | AlreadyRan (due : Z) (holder : Holder) | RateFull (limit : RateLimit).
#[export] Instance reason_eq_dec : EqDecision reason.
Proof. solve_decision. Defined.
Definition reason_error (r : reason) : gerror :=
  match r with
  | AlreadyHeld holder => HeldBy holder
  | AlreadyRan due holder => TickRanAs due holder
  | RateFull limit => RateLimitedBy limit
  end.

Definition tick_verdict (tick : option (Z * Holder)) (req : AcquireRequest) : option reason :=
  match tick with
  | Some (due, holder) => if scheduled req && negb (After (t_DueAt (a_Trigger req)) due) then Some (AlreadyRan due holder) else None
  | None => None
  end.
Definition rate_verdict (taken : list Z) (req : AcquireRequest) : option reason :=
  match a_Rate req with
  | Some limit => if l_Runs limit <=? Z.of_nat (length taken) then Some (RateFull limit) else None
  | None => None
  end.

(** A holder is named before a tick that ran, and that before the limit. *)
Definition verdict (l : ledger) (req : AcquireRequest) : option reason :=
  match current l (a_Name req) with
  | Some c => Some (AlreadyHeld (c_holder c))
  | None =>
      match tick_verdict (l_ticks l !! a_Name req) req with
      | Some reason => Some reason
      | None => rate_verdict (taken_at (l_now l) (slots_of l (a_Name req))) req
      end
  end.

(** ** What is noted *)

(** A claim taken for a request, refused, renewed, found current by a fence, found lost, and given back
    or ended; a name found free by one who waits for it; and time that passed. *)
Inductive note :=
| Took (req : AcquireRequest) (token granted : Z) | Refused (req : AcquireRequest) (why : reason)
| Renewed (name : string) (token : Z) | Passed (name : string) (token : Z) | Lost (name : string) (token : Z)
| Freed (name : string) (token : Z) | Seen (name : string) | Elapsed (d : Z).

Definition held_as (l : ledger) (name : string) (token : Z) : option hold :=
  match current l name with Some c => if c_token c =? token then Some c else None | None => None end.

Definition with_holds (f : gmap string hold → gmap string hold) (l : ledger) : ledger :=
  mkLedger (l_now l) (l_last l) (f (l_holds l)) (l_ticks l) (l_slots l).
Definition renewed (l : ledger) (c : hold) : hold := mkHold (c_token c) (c_holder c) (c_granted c) (l_now l + c_granted c).

(** The claim, the tick of a scheduled trigger and the slot of a declared limit, together. *)
Definition granted_to (req : AcquireRequest) (token granted : Z) (l : ledger) : ledger :=
  let name := a_Name req in
  mkLedger (l_now l) token (<[name := mkHold token (a_Holder req) granted (l_now l + granted)]> (l_holds l))
    (if scheduled req then <[name := (t_DueAt (a_Trigger req), a_Holder req)]> (l_ticks l) else l_ticks l)
    (match a_Rate req with Some limit => <[name := slots_of l name ++ [l_now l + l_Per limit]]> (l_slots l) | None => l_slots l end).

Definition heed (l : ledger) (n : note) : option ledger :=
  match n with
  | Took req token granted =>
      if decide (AcquireRequest_Check req = None ∧ verdict l req = None ∧ l_last l < token ∧ a_Expiry req <= granted)
      then Some (granted_to req token granted l) else None
  | Refused req why => if decide (verdict l req = Some why) then Some l else None
  | Renewed name token => (λ c, with_holds <[name := renewed l c]> l) <$> held_as l name token
  | Passed name token => match held_as l name token with Some _ => Some l | None => None end
  | Lost name token => match held_as l name token with Some _ => None | None => Some l end
  | Freed name token => match held_as l name token with Some _ => Some (with_holds (delete name) l) | None => None end
  | Seen name => match current l name with Some _ => None | None => Some l end
  | Elapsed d => if 0 <=? d then Some (mkLedger (l_now l + d) (l_last l) (l_holds l) (l_ticks l) (l_slots l)) else None
  end.

Fixpoint heeds (l : ledger) (ns : list note) : option ledger :=
  match ns with [] => Some l | n :: ns => match heed l n with Some l => heeds l ns | None => None end end.

(** ** The laws *)

Lemma heeds_app l ns ns' : heeds l (ns ++ ns') = heeds l ns ≫= λ l', heeds l' ns'.
Proof. revert l. induction ns as [|n ns IH]; intros l; [done|]. cbn [app heeds]. by destruct (heed l n). Qed.

Lemma heeds_snoc l ns n l' : heeds l (ns ++ [n]) = Some l' ↔ ∃ l1, heeds l ns = Some l1 ∧ heed l1 n = Some l'.
Proof.
  rewrite heeds_app. destruct (heeds l ns) as [l1|]; cbn.
  - split; [intros H; exists l1; split; [done|]; by destruct (heed l1 n)|intros (? & [= <-] & ->); done].
  - split; [done|by intros (? & ? & _)].
Qed.

Lemma heeds_at l ns l' i n : heeds l ns = Some l' → ns !! i = Some n →
  ∃ l1 l2, heeds l (take i ns) = Some l1 ∧ heed l1 n = Some l2 ∧ heeds l (take (S i) ns) = Some l2.
Proof.
  intros H Hi. rewrite <- (take_drop_middle ns i n Hi), heeds_app in H.
  destruct (heeds l (take i ns)) as [l1|] eqn:E1; cbn in H; [|done]. destruct (heed l1 n) as [l2|] eqn:E2; [|done].
  exists l1, l2. split_and!; [done..|]. rewrite (take_S_r _ _ _ Hi), heeds_app, E1. cbn. by rewrite E2.
Qed.

(** A proof about every note a ledger took: what holds of the empty one and is kept by each. *)
Lemma heeds_ind l0 (P : list note → ledger → Prop) :
  P [] l0 → (∀ ns l n l', heeds l0 ns = Some l → P ns l → heed l n = Some l' → P (ns ++ [n]) l') →
  ∀ ns l, heeds l0 ns = Some l → P ns l.
Proof.
  intros H0 Hs ns. induction ns as [|n ns IH] using rev_ind; intros l; [by intros [= <-]|].
  intros (l1 & H1 & Hn)%heeds_snoc. eapply Hs; [exact H1|by apply IH|exact Hn].
Qed.

Lemma held_as_holds l name token c : held_as l name token = Some c → current l name = Some c ∧ c_token c = token.
Proof. unfold held_as. destruct (current l name) as [c'|]; [|done]. destruct (_ =? _) eqn:E; [|done]. intros [= <-]. by apply Z.eqb_eq in E. Qed.
Lemma current_holds l name c : current l name = Some c → l_holds l !! name = Some c ∧ l_now l < c_expires c.
Proof. unfold current. destruct (l_holds l !! name) as [c'|]; [|done]. destruct (_ <? _) eqn:E; [|done]. intros [= <-]. split; [done|lia]. Qed.
Lemma current_none l name c : current l name = None → l_holds l !! name = Some c → c_expires c <= l_now l.
Proof. unfold current. intros H Hc. rewrite Hc in H. destruct (_ <? _) eqn:E; [done|lia]. Qed.

(** What each note does to a ledger. *)
Lemma heed_inv l n l' : heed l n = Some l' →
  match n with
  | Took req token granted =>
      AcquireRequest_Check req = None ∧ verdict l req = None ∧ l_last l < token ∧ a_Expiry req <= granted ∧ l' = granted_to req token granted l
  | Refused req why => verdict l req = Some why ∧ l' = l
  | Renewed name token => ∃ c, held_as l name token = Some c ∧ l' = with_holds <[name := renewed l c]> l
  | Passed name token => is_Some (held_as l name token) ∧ l' = l
  | Lost name token => held_as l name token = None ∧ l' = l
  | Freed name token => is_Some (held_as l name token) ∧ l' = with_holds (delete name) l
  | Seen name => current l name = None ∧ l' = l
  | Elapsed d => 0 <= d ∧ l' = mkLedger (l_now l + d) (l_last l) (l_holds l) (l_ticks l) (l_slots l)
  end.
Proof.
  destruct n as [req token granted|req why|name token|name token|name token|name token|name|d]; cbn [heed].
  - destruct (decide _) as [(? & ? & ? & ?)|]; [|done]. by intros [= <-].
  - destruct (decide _); [|done]. by intros [= <-].
  - intros (c & -> & [= ->])%fmap_Some. eauto.
  - destruct (held_as l name token); [|done]. intros [= <-]. eauto.
  - destruct (held_as l name token); [done|]. by intros [= <-].
  - destruct (held_as l name token); [|done]. intros [= <-]. eauto.
  - destruct (current l name); [done|]. by intros [= <-].
  - destruct (0 <=? d) eqn:E; [|done]. intros [= <-]. split; [lia|done].
Qed.

Lemma verdict_none l req : verdict l req = None →
  current l (a_Name req) = None ∧ tick_verdict (l_ticks l !! a_Name req) req = None ∧
  rate_verdict (taken_at (l_now l) (slots_of l (a_Name req))) req = None.
Proof. unfold verdict. destruct (current l _); [done|]. by destruct (tick_verdict _ _). Qed.

Definition elapsed (ns : list note) : Z := foldr (λ n z, match n with Elapsed d => d + z | _ => z end) 0 ns.
Lemma elapsed_app ns ns' : elapsed (ns ++ ns') = elapsed ns + elapsed ns'.
Proof. induction ns as [|n ns IH]; [done|]. cbn [app elapsed foldr]. unfold elapsed in IH. rewrite IH. destruct n; unfold elapsed; lia. Qed.

Section laws.
Context (now0 : Z).
Abbreviation kept ns l := (heeds (empty_ledger now0) ns = Some l).

Lemma kept_now ns l : kept ns l → l_now l = now0 + elapsed ns.
Proof.
  revert ns l. apply heeds_ind; [cbn; lia|]. intros ns l n l' _ IH Hn. rewrite elapsed_app.
  apply heed_inv in Hn. destruct n; destruct_and?; try destruct Hn as (? & ? & ->); subst; cbn in *; try lia.
Qed.

(** What a claim taken leaves behind for good: its token, and its tick. *)
Definition remembers (l : ledger) (req : AcquireRequest) (token : Z) : Prop :=
  token ≤ l_last l ∧ (∀ c, l_holds l !! a_Name req = Some c → token ≤ c_token c) ∧
  (scheduled req = true → ∃ due holder, l_ticks l !! a_Name req = Some (due, holder) ∧ t_DueAt (a_Trigger req) ≤ due).

Lemma holds_after l n l' name c : heed l n = Some l' → l_holds l' !! name = Some c →
  (∃ c', l_holds l !! name = Some c' ∧ c_token c = c_token c' ∧ c_granted c = c_granted c') ∨
  ∃ req, n = Took req (c_token c) (c_granted c) ∧ a_Name req = name.
Proof.
  intros Hn Hc. apply heed_inv in Hn. destruct n as [req token granted|req why|nm token|nm token|nm token|nm token|nm|d]; destruct_and?; subst.
  - cbn in Hc. apply lookup_insert_Some in Hc as [[<- <-]|[_ Hc]]; [right; by exists req|left; eauto].
  - left; eauto.
  - destruct Hn as (c0 & [[H0 _]%current_holds Ht]%held_as_holds & ->). cbn in Hc.
    apply lookup_insert_Some in Hc as [[<- <-]|[_ Hc]]; left; eauto.
  - left; eauto.
  - left; eauto.
  - cbn in Hc. apply lookup_delete_Some in Hc as [_ Hc]. left; eauto.
  - left; eauto.
  - left; eauto.
Qed.

Lemma last_after l n l' : heed l n = Some l' → l_last l ≤ l_last l' ∧ ∀ req token granted, n = Took req token granted → l_last l < token ∧ l_last l' = token.
Proof.
  intros Hn%heed_inv. destruct n; destruct_and?; try destruct Hn as (? & _ & ->); subst; cbn; (split; [lia|]); intros ??? ?; simplify_eq; done.
Qed.

Lemma tick_passes tick req : tick_verdict tick req = None → scheduled req = true → ∀ due holder, tick = Some (due, holder) → due < t_DueAt (a_Trigger req).
Proof.
  intros H Hs due holder ->. unfold tick_verdict in H. rewrite Hs in H. unfold After in H. cbn in H.
  destruct (_ <? _) eqn:E; [lia|done].
Qed.

Lemma ticks_after l n l' name due holder : heed l n = Some l' → l_ticks l !! name = Some (due, holder) →
  ∃ due' holder', l_ticks l' !! name = Some (due', holder') ∧ due ≤ due'.
Proof.
  intros Hn Hd. apply heed_inv in Hn.
  destruct n as [req token granted|req why|nm token|nm token|nm token|nm token|nm|d]; destruct_and?; try destruct Hn as (? & _ & ->); subst; eauto using Z.le_refl.
  unfold granted_to. cbn. destruct (scheduled req) eqn:Hs; [|eauto using Z.le_refl].
  destruct (decide (a_Name req = name)) as [<-|Hne]; [|rewrite lookup_insert_ne; eauto using Z.le_refl].
  rewrite lookup_insert_eq. eexists _, _. split; [done|]. apply verdict_none in H1 as (_ & Ht & _).
  pose proof (tick_passes _ _ Ht Hs _ _ Hd). lia.
Qed.

Lemma kept_tokens ns l : kept ns l → ∀ name c, l_holds l !! name = Some c → c_token c ≤ l_last l.
Proof.
  revert ns l. apply (heeds_ind _ (λ _ l, ∀ name c, l_holds l !! name = Some c → c_token c ≤ l_last l)); [done|]. intros ns l n l' _ IH Hn name c Hc.
  destruct (last_after _ _ _ Hn) as [Hl Ht].
  destruct (holds_after _ _ _ _ _ Hn Hc) as [(c' & Hc' & -> & _)|(req & -> & _)].
  - specialize (IH _ _ Hc'). lia.
  - destruct (Ht _ _ _ eq_refl). lia.
Qed.

Lemma kept_remembers ns l : kept ns l → ∀ req token granted, Took req token granted ∈ ns → remembers l req token.
Proof.
  revert ns l. apply (heeds_ind _ (λ ns l, ∀ req token granted, Took req token granted ∈ ns → remembers l req token)).
  { by intros ??? ?%elem_of_nil. }
  intros ns l n l' Hk IH Hn req token granted [Hin|<-%list_elem_of_singleton]%elem_of_app.
  - destruct (IH _ _ _ Hin) as (H1 & H2 & H3). destruct (last_after _ _ _ Hn) as [Hl Ht]. split; [lia|]. split.
    + intros c Hc. destruct (holds_after _ _ _ _ _ Hn Hc) as [(c' & Hc' & -> & _)|(req' & -> & _)]; [by apply H2|].
      destruct (Ht _ _ _ eq_refl). lia.
    + intros Hs. destruct (H3 Hs) as (due & holder & Hd & Hle). destruct (ticks_after _ _ _ _ _ _ Hn Hd) as (due' & holder' & Hd' & Hle').
      exists due', holder'. split; [done|lia].
  - pose proof (proj2 (last_after _ _ _ Hn) _ _ _ eq_refl) as [Hl Hl']. split; [lia|]. apply heed_inv in Hn. destruct_and!. subst l'. split.
    + intros c Hc. cbn in Hc. rewrite lookup_insert_eq in Hc. by simplify_eq.
    + intros Hs. exists (t_DueAt (a_Trigger req)), (a_Holder req). unfold granted_to. cbn. rewrite Hs, lookup_insert_eq. split; [done|lia].
Qed.

Lemma kept_came ns l : kept ns l → ∀ name c, l_holds l !! name = Some c →
  ∃ req, Took req (c_token c) (c_granted c) ∈ ns ∧ a_Name req = name.
Proof.
  revert ns l. apply (heeds_ind _ (λ ns l, ∀ name c, l_holds l !! name = Some c →
    ∃ req, Took req (c_token c) (c_granted c) ∈ ns ∧ a_Name req = name)); [done|].
  intros ns l n l' _ IH Hn name c Hc.
  destruct (holds_after _ _ _ _ _ Hn Hc) as [(c' & Hc' & -> & ->)|(req & -> & <-)].
  - destruct (IH _ _ Hc') as (req & Hin & <-). exists req. split; [apply elem_of_app; by left|done].
  - exists req. split; [apply elem_of_app; right; by left|done].
Qed.

(** *** One claim after another *)

Lemma earlier_took ns l i j req token granted n : kept ns l → (i < j)%nat → ns !! i = Some (Took req token granted) → ns !! j = Some n →
  ∃ l1 l2, remembers l1 req token ∧ kept (take j ns) l1 ∧ heed l1 n = Some l2.
Proof.
  intros Hk Hij Hi Hj. destruct (heeds_at _ _ _ _ _ Hk Hj) as (l1 & l2 & H1 & Hn & _). exists l1, l2. split_and!; [|done..].
  apply (kept_remembers _ _ H1 _ _ granted). apply list_elem_of_lookup. exists i. by rewrite lookup_take_lt.
Qed.

(** A later claim's token is greater, and its scheduled tick, on the same name, is later. *)
Lemma later_claims ns l i j req token granted req' token' granted' : kept ns l → (i < j)%nat →
  ns !! i = Some (Took req token granted) → ns !! j = Some (Took req' token' granted') →
  token < token' ∧ (a_Name req = a_Name req' → scheduled req = true → scheduled req' = true →
                    t_DueAt (a_Trigger req) < t_DueAt (a_Trigger req')).
Proof.
  intros Hk Hij Hi Hj. destruct (earlier_took _ _ _ _ _ _ _ _ Hk Hij Hi Hj) as (l1 & l2 & (H1 & _ & H3) & _ & Hn).
  destruct (last_after _ _ _ Hn) as [_ Ht]. destruct (Ht _ _ _ eq_refl) as [Hlt _]. split; [lia|].
  intros Hname Hs Hs'. destruct (H3 Hs) as (due & holder & Hd & Hle). rewrite Hname in Hd.
  apply heed_inv in Hn as (_ & Hv & _). apply verdict_none in Hv as (_ & Htick & _).
  pose proof (tick_passes _ _ Htick Hs' _ _ Hd). lia.
Qed.

(** A claim fenced or renewed after another was taken on its name is not an earlier one. *)
Lemma no_superseded_claim ns l i j req token granted token' : kept ns l → (i < j)%nat →
  ns !! i = Some (Took req token granted) → ns !! j = Some (Passed (a_Name req) token') ∨ ns !! j = Some (Renewed (a_Name req) token') →
  token ≤ token'.
Proof.
  intros Hk Hij Hi Hj.
  assert (∃ l1 c, remembers l1 req token ∧ held_as l1 (a_Name req) token' = Some c) as (l1 & c & (_ & H2 & _) & [[Hc _]%current_holds <-]%held_as_holds).
  { destruct Hj as [Hj|Hj]; destruct (earlier_took _ _ _ _ _ _ _ _ Hk Hij Hi Hj) as (l1 & l2 & H1 & _ & Hn); exists l1;
      apply heed_inv in Hn; [destruct Hn as [[c Hc] _]|destruct Hn as (c & Hc & _)]; by exists c. }
  by apply H2.
Qed.

Lemma took_once ns l i j req token granted req' granted' : kept ns l →
  ns !! i = Some (Took req token granted) → ns !! j = Some (Took req' token granted') → i = j.
Proof.
  intros Hk Hi Hj. destruct (Nat.lt_trichotomy i j) as [Hlt|[->|Hlt]]; [|done|].
  - pose proof (proj1 (later_claims _ _ _ _ _ _ _ _ _ _ Hk Hlt Hi Hj)). lia.
  - pose proof (proj1 (later_claims _ _ _ _ _ _ _ _ _ _ Hk Hlt Hj Hi)). lia.
Qed.

(** *** Expiry *)

Lemma elapsed_grows ns l i j : kept ns l → (i ≤ j)%nat → elapsed (take i ns) ≤ elapsed (take j ns).
Proof.
  intros Hk Hij. assert (∀ ns l, kept ns l → 0 ≤ elapsed ns ∧ ∀ d, Elapsed d ∈ ns → 0 ≤ d) as Hpos.
  { apply (heeds_ind _ (λ ns _, 0 ≤ elapsed ns ∧ ∀ d, Elapsed d ∈ ns → 0 ≤ d)); [split; [done|by intros ? ?%elem_of_nil]|].
    intros ns' l1 n l2 _ [IH1 IH2] Hn%heed_inv. rewrite elapsed_app. split.
    - destruct n; cbn in *; destruct_and?; lia.
    - intros d [Hd|<-%list_elem_of_singleton]%elem_of_app; [by apply IH2|by destruct Hn]. }
  destruct (Hpos _ _ Hk) as [_ Hd]. assert (take i ns = take i (take j ns)) as -> by (rewrite take_take; f_equal; lia).
  rewrite <- (take_drop i (take j ns)) at 2. rewrite elapsed_app. cut (0 ≤ elapsed (drop i (take j ns))); [lia|].
  assert (∀ d, Elapsed d ∈ drop i (take j ns) → 0 ≤ d) as H'.
  { intros d H. apply Hd. rewrite <- (take_drop j ns), <- (take_drop i (take j ns)), !elem_of_app. auto. }
  induction (drop i (take j ns)) as [|n r IH]; [done|]. cbn [elapsed foldr].
  assert (0 ≤ elapsed r) as Hr by (apply IH; intros d H; apply H'; by right). unfold elapsed in Hr.
  destruct n; try exact Hr. specialize (H' d (list_elem_of_here _ _)). lia.
Qed.

Definition still (name : string) (token granted until_ : Z) (l : ledger) : Prop :=
  ∃ c, l_holds l !! name = Some c ∧ c_token c = token ∧ c_granted c = granted ∧ until_ ≤ c_expires c.

(** A claim is no other's before it expires, unless it is freed. *)
Lemma still_after l n l' name token granted until_ : heed l n = Some l' → still name token granted until_ l → until_ ≤ l_now l + granted →
  n = Freed name token ∨ until_ ≤ l_now l ∨ still name token granted until_ l'.
Proof.
  intros Hn%heed_inv (c & Hc & Ht & Hg & Hu) Hlate.
  destruct n as [req tk gr|req why|nm tk|nm tk|nm tk|nm tk|nm|d]; cbn in Hn.
  - destruct Hn as (_ & (Hv & _)%verdict_none & _ & _ & ->). destruct (decide (a_Name req = name)) as [<-|Hne].
    + right; left. pose proof (current_none _ _ _ Hv Hc). lia.
    + right; right. exists c. unfold granted_to. cbn. by rewrite lookup_insert_ne.
  - destruct Hn as [_ ->]. right; right. by exists c.
  - destruct Hn as (c' & [[Hc' _]%current_holds <-]%held_as_holds & ->). right; right. unfold still, with_holds. cbn.
    destruct (decide (nm = name)) as [->|Hne].
    + rewrite Hc in Hc'. simplify_eq. rewrite lookup_insert_eq. eexists. split_and!; [done..|]. unfold renewed. cbn. lia.
    + exists c. by rewrite lookup_insert_ne.
  - destruct Hn as [_ ->]. right; right. by exists c.
  - destruct Hn as [_ ->]. right; right. by exists c.
  - destruct Hn as [[c' [[Hc' _]%current_holds <-]%held_as_holds] ->]. destruct (decide (nm = name)) as [->|Hne].
    + left. rewrite Hc in Hc'. by simplify_eq.
    + right; right. exists c. unfold with_holds. cbn. by rewrite lookup_delete_ne.
  - destruct Hn as [_ ->]. right; right. by exists c.
  - destruct Hn as [_ ->]. right; right. by exists c.
Qed.

Lemma hold_granted ns l i k req token granted l1 name c : kept ns l → ns !! i = Some (Took req token granted) →
  kept (take k ns) l1 → l_holds l1 !! name = Some c → c_token c = token → c_granted c = granted.
Proof.
  intros Hk Hi H1 Hc <-. destruct (kept_came _ _ H1 _ _ Hc) as (req1 & Hin & _). apply list_elem_of_lookup in Hin as [i' Hi'].
  apply lookup_take_Some in Hi' as [Hi' _]. pose proof (took_once _ _ _ _ _ _ _ _ _ Hk Hi Hi') as <-. congruence.
Qed.

Definition kept_as (n : note) (name : string) (token : Z) : Prop :=
  match n with Took req token' _ => a_Name req = name ∧ token' = token | Renewed name' token' => name' = name ∧ token' = token | _ => False end.

Lemma kept_until ns l i k j req token granted n req' token' granted' : kept ns l →
  (i ≤ k)%nat → (k < j)%nat → ns !! i = Some (Took req token granted) →
  ns !! k = Some n → kept_as n (a_Name req) token → ns !! j = Some (Took req' token' granted') → a_Name req' = a_Name req →
  (∃ f, (k < f)%nat ∧ (f < j)%nat ∧ ns !! f = Some (Freed (a_Name req) token)) ∨ elapsed (take k ns) + granted ≤ elapsed (take j ns).
Proof.
  intros Hk Hik Hkj Hi Hkn Hn Hj Hname.
  set (until_ := now0 + elapsed (take k ns) + granted).
  assert (∀ m, (k < m)%nat → (m ≤ j)%nat → (∃ f, (k < f)%nat ∧ (f < m)%nat ∧ ns !! f = Some (Freed (a_Name req) token)) ∨
            until_ ≤ now0 + elapsed (take m ns) ∨ ∃ lm, kept (take m ns) lm ∧ still (a_Name req) token granted until_ lm) as Hinv.
  { intros m Hm. induction Hm as [|m Hm IH]; intros Hmj.
    - right; right. destruct (heeds_at _ _ _ _ _ Hk Hkn) as (l1 & l2 & H1 & Hh & H2). exists l2. split; [done|].
      pose proof (kept_now _ _ H1) as Hnow. destruct n as [req1 tk gr| |nm tk| | | | |]; cbn in Hn; try done.
      + destruct Hn as [Hn1 ->]. pose proof (took_once _ _ _ _ _ _ _ _ _ Hk Hi Hkn) as <-. simplify_eq.
        apply heed_inv in Hh as (_ & _ & _ & _ & ->). unfold still, granted_to. cbn. rewrite lookup_insert_eq.
        eexists. split_and!; [done..|]. cbn. unfold until_. lia.
      + destruct Hn as [-> ->]. apply heed_inv in Hh as (c & [[Hc _]%current_holds Hct]%held_as_holds & ->).
        pose proof (hold_granted _ _ _ _ _ _ _ _ _ _ Hk Hi H1 Hc Hct) as Hg.
        unfold still, with_holds. cbn. rewrite lookup_insert_eq. eexists. split_and!; [done|done|exact Hg|].
        unfold renewed, until_. cbn. lia.
    - destruct IH as [(f & ? & ? & ?)|[Hlate|(lm & Hlm & Hst)]]; [lia|left; exists f; split_and!; [lia..|done]| |].
      + right; left. pose proof (elapsed_grows _ _ m (S m) Hk). lia.
      + assert (is_Some (ns !! m)) as [nm Hnm] by (apply lookup_lt_is_Some; apply lookup_lt_Some in Hj; lia).
        destruct (heeds_at _ _ _ _ _ Hk Hnm) as (l1 & l2 & H1 & Hh & H2). rewrite Hlm in H1. simplify_eq.
        pose proof (kept_now _ _ Hlm) as Hnow. pose proof (elapsed_grows _ _ k m Hk).
        destruct (still_after _ _ _ _ _ _ _ Hh Hst) as [->|[Hlate|Hst']]; [unfold until_; lia|..].
        * left. exists m. split_and!; [lia..|done].
        * right; left. pose proof (elapsed_grows _ _ m (S m) Hk). lia.
        * right; right. by exists l2. }
  destruct (Hinv j Hkj (Nat.le_refl _)) as [Hf|[Hlate|(lj & Hlj & c & Hc & _ & _ & Hu)]]; [by left|right; unfold until_ in Hlate; lia|].
  right. destruct (heeds_at _ _ _ _ _ Hk Hj) as (l1 & l2 & H1 & Hh & _). rewrite Hlj in H1. simplify_eq.
  apply heed_inv in Hh as (_ & (Hv & _)%verdict_none & _). rewrite Hname in Hv.
  pose proof (current_none _ _ _ Hv Hc). pose proof (kept_now _ _ Hlj). unfold until_ in Hu. lia.
Qed.

(** *** The rate *)

(** The instants the claims on a name were taken at, those of requests that declare a limit. *)
Fixpoint starts (now : Z) (name : string) (ns : list note) : list Z :=
  match ns with
  | [] => []
  | Took req _ _ :: ns =>
      (if decide (a_Name req = name ∧ is_Some (a_Rate req)) then [now] else []) ++ starts now name ns
  | Elapsed d :: ns => starts (now + d) name ns
  | _ :: ns => starts now name ns
  end.

Lemma starts_snoc now name ns n : starts now name (ns ++ [n]) = starts now name ns ++ starts (now + elapsed ns) name [n].
Proof.
  revert now. induction ns as [|m ns IH]; intros now; [cbn [app elapsed foldr]; by rewrite Z.add_0_r|].
  destruct m; cbn [app starts elapsed foldr]; rewrite IH; [by rewrite app_assoc|done..|]. unfold elapsed. by rewrite Z.add_assoc.
Qed.

(** Every request for the name that declares a limit declares this one. *)
Definition limited_by (name : string) (limit : RateLimit) (ns : list note) : Prop :=
  ∀ req token granted, Took req token granted ∈ ns → a_Name req = name → a_Rate req = None ∨ a_Rate req = Some limit.

Lemma kept_slots name limit ns l : kept ns l → limited_by name limit ns →
  slots_of l name = map (λ at_, at_ + l_Per limit) (starts now0 name ns).
Proof.
  revert ns l. apply (heeds_ind _ (λ ns l, limited_by name limit ns → slots_of l name = map (λ at_, at_ + l_Per limit) (starts now0 name ns))); [done|].
  intros ns l n l' Hk IH Hn Hlim. rewrite starts_snoc, map_app, <- IH by (intros ???? ?; eapply Hlim; [apply elem_of_app; by left|done]).
  pose proof (kept_now _ _ Hk) as Hnow. pose proof (Hlim) as Hlim'. apply heed_inv in Hn.
  destruct n as [req token granted|req why|nm token|nm token|nm token|nm token|nm|d]; cbn in Hn; cbn [starts]; rewrite ?app_nil_r;
    try (by destruct Hn as [_ ->]); [|by destruct Hn as (? & _ & ->)].
  destruct Hn as (_ & _ & _ & _ & ->). unfold granted_to, slots_of. cbn.
  destruct (decide (a_Name req = name ∧ _)) as [[<- [limit' Hl]]|Hno].
  - rewrite Hl, lookup_insert_eq. cbn. destruct (Hlim req token granted) as [H|H]; [apply elem_of_app; right; by left|done|congruence|].
    rewrite Hl in H. simplify_eq. by rewrite Hnow.
  - rewrite app_nil_r. destruct (a_Rate req) eqn:E; [|done]. rewrite lookup_insert_ne; [done|]. intros <-. by apply Hno.
Qed.

Lemma taken_at_later now now' slots : now ≤ now' → (length (taken_at now' slots) ≤ length (taken_at now slots))%nat.
Proof.
  intros Hle. unfold taken_at. induction slots as [|s slots IH]; [done|]. cbn [List.filter].
  destruct (now' <? s) eqn:E1, (now <? s) eqn:E2; cbn [length]; lia.
Qed.

(** At no time are more claims on a name than its limit younger than the limit's window. *)
Lemma kept_rate name limit ns l : kept ns l → limited_by name limit ns →
  Z.of_nat (length (List.filter (λ at_, l_now l <? at_ + l_Per limit) (starts now0 name ns))) ≤ Z.max 0 (l_Runs limit).
Proof.
  intros Hk Hlim.
  assert (Z.of_nat (length (taken_at (l_now l) (slots_of l name))) ≤ Z.max 0 (l_Runs limit)) as H.
  { revert ns l Hk Hlim. apply (heeds_ind _ (λ ns l, limited_by name limit ns → Z.of_nat (length (taken_at (l_now l) (slots_of l name))) ≤ Z.max 0 (l_Runs limit))).
    - intros _. unfold slots_of, empty_ledger. cbn [l_slots]. rewrite lookup_empty. cbn. lia.
    - intros ns l n l' Hk IH Hn Hlim.
      assert (Z.of_nat (length (taken_at (l_now l) (slots_of l name))) ≤ Z.max 0 (l_Runs limit)) as IH'.
      { apply IH. intros ???? ?. eapply Hlim; [apply elem_of_app; by left|done]. }
      apply heed_inv in Hn. destruct n as [req token granted|req why|nm token|nm token|nm token|nm token|nm|d]; cbn in Hn;
        try (by destruct Hn as [_ ->]); [|by destruct Hn as (? & _ & ->)|].
      + destruct Hn as (_ & (_ & _ & Hr)%verdict_none & _ & _ & ->). unfold granted_to, slots_of in *. cbn.
        unfold rate_verdict in Hr. destruct (a_Rate req) as [limit'|] eqn:E; [|done].
        destruct (decide (a_Name req = name)) as [<-|Hne]; [|by rewrite lookup_insert_ne].
        destruct (Hlim req token granted) as [H|H]; [apply elem_of_app; right; by left|done|congruence|]. rewrite E in H. simplify_eq.
        rewrite lookup_insert_eq. cbn. destruct (_ <=? _) eqn:Hle; [done|]. unfold taken_at in *. rewrite List.filter_app, length_app.
        cbn [List.filter length]. destruct (_ <? _); cbn [length]; lia.
      + destruct Hn as [Hd ->]. unfold slots_of in *. cbn. pose proof (taken_at_later (l_now l) (l_now l + d) (default [] (l_slots l !! name))). lia. }
  rewrite (kept_slots name limit ns l Hk Hlim) in H. unfold taken_at in H. revert H. generalize (starts now0 name ns). clear. intros s.
  assert (length (List.filter (λ free_at, l_now l <? free_at) (map (λ at_, at_ + l_Per limit) s)) =
          length (List.filter (λ at_, l_now l <? at_ + l_Per limit) s)) as ->; [|done].
  induction s as [|a s IH]; [done|]. cbn [map List.filter]. destruct (_ <? _); cbn [length]; lia.
Qed.

End laws.

(** A claim taken for a tick and renewed, a second refused, a third taken once the first lapsed. *)
Definition nightly (run : string) (due : Z) : AcquireRequest :=
  mkAcquireRequest "report" (mkHolder "h1" "i1" run) Second (Some (mkRateLimit 1 Second)) (mkTriggerRef KindSchedule due).
Example a_night :
  is_Some (heeds (empty_ledger 0)
    [Took (nightly "r1" Second) 1 Second; Elapsed (Second / 2); Renewed "report" 1; Refused (nightly "r2" (2 * Second)) (AlreadyHeld (mkHolder "h1" "i1" "r1"));
     Elapsed Second; Lost "report" 1; Refused (nightly "r2" Second) (AlreadyRan Second (mkHolder "h1" "i1" "r1")); Took (nightly "r2" (2 * Second)) 2 Second;
     Passed "report" 2]).
Proof. vm_compute. eauto. Qed.

(** ** The suite

    [contract.go] of [src/runtime/internal/guard/guardtest]: each clause a test of a coordinator, run one call at a
    time on a backend of state [S].  The two clauses about the instants calls return at, C4 and C10, need calls
    that overlap and are not here; C11's half about a held backend is. *)

(** [s_Acquire] is told the host that asks and what happens at its seam, once, if it has one. *)
Record Subject (S C : Type) := mkSubject {
  s_Acquire : nat → (S → S) → AcquireRequest → S → (gerror + C) * S;
  s_Token : C → Z; s_Granted : C → Z;
  s_Renew : C → S → option gerror * S; s_Fence : C → S → option gerror * S; s_Release : C → S → option gerror * S;
  s_Seams : bool;
  s_Unreachable : AcquireRequest → S → (gerror + C) * S;
  s_Held : option (AcquireRequest → S → (gerror + C) * S);
  s_Lapse : C → S → S; s_Elapse : Z → S → S; s_Backend : option (S → Z); s_StepRuntime : Z → S → S;
  s_ShortGrant : option (AcquireRequest → S → (gerror + C) * S);
  s_LongGrant : option ((AcquireRequest → S → (gerror + C) * S) * Z * Z);
  s_Expiry : Z; s_Slack : Z; s_NotApplicable : list string; s_Watches : bool; s_Polls : bool }.
Arguments s_Acquire {S C}. Arguments s_Token {S C}. Arguments s_Granted {S C}. Arguments s_Renew {S C}. Arguments s_Fence {S C}.
Arguments s_Release {S C}. Arguments s_Seams {S C}. Arguments s_Unreachable {S C}. Arguments s_Held {S C}. Arguments s_Lapse {S C}.
Arguments s_Elapse {S C}. Arguments s_Backend {S C}. Arguments s_StepRuntime {S C}. Arguments s_ShortGrant {S C}. Arguments s_LongGrant {S C}.
Arguments s_Expiry {S C}. Arguments s_Slack {S C}. Arguments s_NotApplicable {S C}. Arguments s_Watches {S C}. Arguments s_Polls {S C}.

(** A test fails with a message, or goes on. *)
Definition test (S A : Type) : Type := S → (string + A) * S.
#[export] Instance test_ret S : MRet (test S) := λ A a st, (inr a, st).
#[export] Instance test_bind S : MBind (test S) := λ A B f m st,
  match m st with (inl message, st) => (inl message, st) | (inr a, st) => f a st end.
Definition Fatal {S A} (message : string) : test S A := λ st, (inl message, st).
Definition unless {S} (fails : bool) (message : string) : test S unit := if fails then Fatal message else mret tt.

Definition manual (name run : string) : AcquireRequest :=
  mkAcquireRequest name (mkHolder ("host-" +:+ run +:+ ".example.com") ("instance-" +:+ run) run) 0 None (mkTriggerRef KindManual 0).
Definition with_trigger (due : Z) (req : AcquireRequest) : AcquireRequest :=
  mkAcquireRequest (a_Name req) (a_Holder req) (a_Expiry req) (a_Rate req) (mkTriggerRef KindSchedule due).
Definition scheduled_at (name run : string) (due : Z) : AcquireRequest := with_trigger due (manual name run).
Definition rated (req : AcquireRequest) (runs per : Z) : AcquireRequest :=
  mkAcquireRequest (a_Name req) (a_Holder req) (a_Expiry req) (Some (mkRateLimit runs per)) (a_Trigger req).
Definition asking_for (expiry : Z) (req : AcquireRequest) : AcquireRequest :=
  mkAcquireRequest (a_Name req) (a_Holder req) (if a_Expiry req =? 0 then expiry else a_Expiry req) (a_Rate req) (a_Trigger req).

Definition renewalAttempts : nat := 3.

Section suite.
Context {S C : Type} (s : Subject S C).

Definition seamed (host : nat) (seam : S → S) (req : AcquireRequest) : test S (gerror + C) := λ st,
  let '(r, st) := s_Acquire s host seam (asking_for (s_Expiry s) req) st in (inr r, st).
Definition try_ (host : nat) (req : AcquireRequest) : test S (gerror + C) := seamed host id req.
Definition acquired (req : AcquireRequest) (r : gerror + C) : test S C :=
  match r with
  | inl err => Fatal ("acquiring " +:+ a_Name req +:+ " for " +:+ h_RunID (a_Holder req) +:+ ": " +:+ Error err)
  | inr claim => mret claim
  end.
Definition acquire (host : nat) (req : AcquireRequest) : test S C := r ← try_ host req; acquired req r.

Definition does {A} (call : S → A * S) : test S A := λ st, let '(a, st) := call st in (inr a, st).
Definition doing (f : S → S) : test S unit := λ st, (inr tt, f st).

Definition releaseClaim (claim : C) : test S unit :=
  err ← does (s_Release s claim); match err with Some err => Fatal ("releasing: " +:+ Error err) | None => mret tt end.
Definition refusedAs (err : option gerror) (want : gerror) (what : string) : test S unit :=
  unless (negb match err with Some err => errors_is err want | None => false end) (what +:+ ": not refused as " +:+ Error want).
Definition err_of (r : gerror + C) : option gerror := match r with inl err => Some err | inr _ => None end.

(** *** C1 *)
Definition exclusion : test S unit :=
  held ← acquire 0 (manual "c1" "run-a");
  r ← try_ 1 (manual "c1" "run-b");
  refusedAs (err_of r) ErrHeld "a second acquisition of a held claim";;
  unless (match r with inl err => negb (contains_str (Error err) "run-a") | inr _ => false end) "the refusal does not name the run holding the claim";;
  other ← acquire 1 (manual "c1-other" "run-c");
  releaseClaim other;; releaseClaim held.

(** *** C2 and C3 *)
Definition backendJumpBound : Z := 10 * s_Expiry s.
Definition overdue (sent at_ expiry : Z) : Z * bool := let gap := at_ - sent in (gap, expiry <? gap).

(** The rounds of [renewing]: the claim still held; or nothing, when it was lost later than it could be
    renewed; or the error of one lost sooner. *)
Fixpoint renewing_rounds (backend : S → Z) (contender : nat) (name : string) (rounds : nat) (each : S → S) (claim : C) (sent : Z) : test S (string + option C) :=
  match rounds with
  | O => mret (inr (Some claim))
  | Datatypes.S rounds =>
      doing each;;
      renewal ← does (λ st, (backend st, st));
      let step := renewal - sent in
      if (step <? 0) || (backendJumpBound <? step) then
        err ← does (s_Release s claim);
        match err with
        | Some err => if errors_is err ErrLost then mret (inr None) else Fatal ("releasing an excused claim: " +:+ Error err)
        | None => mret (inr None)
        end
      else
        err ← does (s_Renew s claim);
        at_ ← does (λ st, (backend st, st));
        match err with
        | Some err =>
            if snd (overdue sent at_ (s_Granted s claim)) && errors_is err ErrLost then mret (inr None)
            else mret (inl ("renewing: " +:+ Error err))
        | None =>
            let sent := renewal in
            r ← try_ contender (manual name "run-b");
            at_ ← does (λ st, (backend st, st));
            match r with
            | inr took =>
                releaseClaim took;;
                if snd (overdue sent at_ (s_Granted s claim)) then mret (inr None)
                else mret (inl "a claim its holder keeps renewing was acquired by another")
            | inl err =>
                if errors_is err ErrHeld then renewing_rounds backend contender name rounds each claim sent
                else mret (inl ("acquiring a claim its holder keeps renewing: " +:+ Error err))
            end
        end
  end.
Definition renewing (backend : S → Z) (holder contender : nat) (name : string) (rounds : nat) (each : S → S) : test S (string + option C) :=
  sent ← does (λ st, (backend st, st));
  claim ← acquire holder (manual name "run-a");
  unless (s_Granted s claim <? s_Expiry s) "granted less than the expiry asked";;
  renewing_rounds backend contender name rounds each claim sent.

Fixpoint renewed_attempts (attempts : nat) (backend : S → Z) (holder contender : nat) (name : string) (rounds : nat) (each : S → S) : test S C :=
  match attempts with
  | O => Fatal "this host stalls too long for any renewal to be judged"
  | Datatypes.S attempts =>
      r ← renewing backend holder contender name rounds each;
      match r with
      | inl err => Fatal err
      | inr (Some claim) => mret claim
      | inr None => renewed_attempts attempts backend holder contender name rounds each
      end
  end.
Definition renewed_claim (holder contender : nat) (name : string) (rounds : nat) (each : S → S) : test S C :=
  match s_Backend s with
  | None => Fatal "a subject whose claims expire reads its backend's clock through Backend"
  | Some backend => renewed_attempts renewalAttempts backend holder contender name rounds each
  end.

Fixpoint lapsing (polls : nat) (poll waited : Z) : test S unit :=
  match polls with
  | O => Fatal "polled longer than the expiry and the slack allow"
  | Datatypes.S polls =>
      r ← try_ 1 (manual "c2" "run-b");
      match r with
      | inr took => releaseClaim took
      | inl err =>
          refusedAs (Some err) ErrHeld "acquiring a claim that is lapsing";;
          unless (s_Expiry s + s_Slack s <? waited) "the claim is still held after its last renewal";;
          doing (s_Elapse s poll);; lapsing polls poll (waited + poll)
      end
  end.
Definition expiryIsTheBackends : test S unit :=
  let step := s_Expiry s / 4 in
  _ ← renewed_claim 0 1 "c2" (Z.to_nat (3 * s_Expiry s / 2 / step)) (s_Elapse s step);
  let poll := s_Expiry s / 10 in
  lapsing (Z.to_nat ((s_Expiry s + s_Slack s) / poll + 3)) poll 0.

Definition noHostClockJudgesAClaim : test S unit :=
  claim ← renewed_claim 0 1 "c3" 4 (λ st, s_Elapse s (s_Expiry s / 4) (s_StepRuntime s Hour st));
  releaseClaim claim.

(** *** C5, C6 and C7 *)
Definition lossIsDefinitive : test S unit :=
  lapsed ← acquire 0 (manual "c5" "run-a");
  doing (s_Lapse s lapsed);;
  err ← does (s_Renew s lapsed); refusedAs err ErrLost "renewing a lapsed claim";;
  err ← does (s_Fence s lapsed); refusedAs err ErrLost "fencing on a lapsed claim";;
  superseded ← acquire 0 (manual "c5-superseded" "run-a");
  doing (s_Lapse s superseded);;
  successor ← acquire 1 (manual "c5-superseded" "run-b");
  err ← does (s_Renew s superseded); refusedAs err ErrLost "renewing a superseded claim";;
  err ← does (s_Fence s superseded); refusedAs err ErrLost "fencing on a superseded claim";;
  releaseClaim successor.

Definition passes (claim : C) : test S unit :=
  err ← does (s_Fence s claim);
  match err with Some err => Fatal ("fencing on the current claim: " +:+ Error err) | None => mret tt end.

Definition fencing : test S unit :=
  first ← acquire 0 (manual "c6" "run-a");
  passes first;;
  doing (s_Lapse s first);;
  second ← acquire 1 (manual "c6" "run-b");
  unless (s_Token s second <=? s_Token s first) "the later claim's token is not greater than the earlier one's";;
  err ← does (s_Fence s first); refusedAs err ErrLost "fencing on a claim taken over since";;
  passes second;;
  releaseClaim second.

Definition release : test S unit :=
  first ← acquire 0 (manual "c7" "run-a");
  releaseClaim first;;
  r ← try_ 1 (manual "c7" "run-b");
  match r with
  | inl err => Fatal ("a released claim was not acquirable at once: " +:+ Error err)
  | inr second =>
      releaseClaim first;;
      r ← try_ 0 (manual "c7" "run-c");
      refusedAs (err_of r) ErrHeld "acquiring after a stale release";;
      releaseClaim second
  end.

(** *** C8 and C9 *)
Definition limit_ : Z := 2.
Fixpoint filling (name : string) (i n : nat) : test S unit :=
  match n with
  | O => mret tt
  | Datatypes.S n =>
      claim ← acquire 0 (rated (manual name ("run-" +:+ show_nat i)) limit_ (s_Expiry s));
      releaseClaim claim;; filling name (Datatypes.S i) n
  end.
Definition theRateSlotAndTheClaimAreOneStep : test S unit :=
  filling "c8" 0 (Z.to_nat limit_);;
  r ← try_ 0 (rated (manual "c8" "run-refused") limit_ (s_Expiry s));
  refusedAs (err_of r) ErrRateLimited "acquiring when every rate slot is full";;
  after ← acquire 1 (manual "c8" "run-after");
  releaseClaim after.
Definition theRateWindowIsTheBackends : test S unit :=
  filling "c9" 0 (Z.to_nat limit_);;
  r ← try_ 0 (rated (manual "c9" "run-refused") limit_ (s_Expiry s));
  refusedAs (err_of r) ErrRateLimited "acquiring when the rate window is full though every claim was released".

(** *** C11 and C12 *)
Definition unavailable_not_held (r : gerror + C) (what : string) : test S unit :=
  unless (match r with inl err => errors_is err ErrHeld || negb (errors_is err ErrUnavailable) | inr _ => true end) what.
Definition unavailableIsNotHeld : test S unit :=
  let req := asking_for (s_Expiry s) (manual "c11" "run-a") in
  r ← does (s_Unreachable s req);
  unavailable_not_held r "acquiring from a backend that cannot be reached";;
  match s_Held s with
  | None => mret tt
  | Some held => r ← does (held req); unavailable_not_held r "acquiring from a backend that did not answer in time"
  end.

Definition theGrantedExpiry : test S unit :=
  match s_ShortGrant s with
  | None => mret tt
  | Some short =>
      r ← does (short (asking_for (s_Expiry s) (manual "c12" "run-a")));
      refusedAs (err_of r) ErrUnavailable "acquiring with a grant shorter than asked";;
      after ← acquire 1 (manual "c12" "run-b");
      releaseClaim after
  end;;
  match s_LongGrant s with
  | None => Fatal "no backend grants more than it is asked"
  | Some (coordinator, asked, granted) =>
      let req := asking_for asked (manual "c12-long" "run-c") in
      r ← does (coordinator req);
      claim ← acquired req r;
      unless (negb (s_Granted s claim =? granted)) "the claim does not report what was granted";;
      releaseClaim claim
  end.

(** *** C13 and C14 *)

(** What the other host does while one is at its seam: it takes the tick and lets it go. *)
Definition overtakes (name : string) (due : Z) : test S unit :=
  taken ← acquire 0 (scheduled_at name "run-a" due); releaseClaim taken.
Definition interleaved (name : string) (due : Z) : test S unit :=
  r ← seamed 1 (λ st, snd (overtakes name due st)) (scheduled_at name "run-b" due);
  match r with inr claim => _ ← does (s_Release s claim); mret tt | inl _ => mret tt end;;
  refusedAs (err_of r) ErrTickRan "a tick taken and let go while B was between its read and its transaction".

Definition oneTickOnce (tick : Z) : test S unit :=
  first ← acquire 0 (scheduled_at "c13" "run-a" tick);
  releaseClaim first;;
  r ← try_ 1 (scheduled_at "c13" "run-b" tick);
  refusedAs (err_of r) ErrTickRan "a tick that already ran";;
  unless (match r with inl err => negb (contains_str (Error err) "run-a") || negb (contains_str (Error err) "06:00:00Z") | inr _ => false end)
    "the refusal does not name the recorded tick and its holder";;
  r ← try_ 1 (scheduled_at "c13" "run-b" (tick - Minute));
  refusedAs (err_of r) ErrTickRan "a tick before the one that ran";;
  byHand ← acquire 1 (manual "c13" "run-m");
  r ← try_ 0 (scheduled_at "c13" "run-x" tick);
  refusedAs (err_of r) ErrHeld "a tick that already ran, while the claim is held";;
  releaseClaim byHand;;
  next ← acquire 1 (scheduled_at "c13" "run-b" (tick + Minute));
  releaseClaim next;;
  r ← try_ 0 (scheduled_at "c13" "run-a" (tick + Minute));
  refusedAs (err_of r) ErrTickRan "the next tick, once it ran";;
  if negb (s_Seams s) then mret tt
  else
    earlier ← acquire 0 (scheduled_at "c13-recorded" "run-a" tick);
    releaseClaim earlier;;
    interleaved "c13-recorded" (tick + Minute);;
    interleaved "c13-first" tick.

Definition theTickIsTheOneRequested (long : Z) : test S unit :=
  first ← acquire 0 (scheduled_at "c14" "run-a" long);
  releaseClaim first;;
  r ← try_ 1 (scheduled_at "c14" "run-b" (long + Minute));
  match r with
  | inl err => Fatal ("the tick after one decades old was refused: " +:+ Error err)
  | inr next =>
      releaseClaim next;;
      r ← try_ 0 (scheduled_at "c14" "run-c" (long + Minute));
      refusedAs (err_of r) ErrTickRan "a decades-old tick that already ran"
  end.

(** *** [Contract] *)

Definition excusable : list string := ["C2"; "C3"; "C5"; "C6"; "C12"].
(** 2026-09-10 06:00 and 1990-01-01 00:00, both UTC. *)
Definition a_tick : Z := (62135596800 + 1789020000) * Second.
Definition long_ago : Z := (62135596800 + 631152000) * Second.

Definition clauses : list (string * test S unit) :=
  [("C1", exclusion); ("C2", expiryIsTheBackends); ("C3", noHostClockJudgesAClaim); ("C5", lossIsDefinitive); ("C6", fencing); ("C7", release);
   ("C8", theRateSlotAndTheClaimAreOneStep); ("C9", theRateWindowIsTheBackends); ("C11", unavailableIsNotHeld); ("C12", theGrantedExpiry);
   ("C13", oneTickOnce a_tick); ("C14", theTickIsTheOneRequested long_ago)].

(** Each clause that applies, on what the one before it left; what each came to. *)
Fixpoint run_clauses (l : list (string * test S unit)) (st : S) : list (string * option string) :=
  match l with
  | [] => []
  | (id, clause) :: l =>
      if existsb (String.eqb id) (s_NotApplicable s) then run_clauses l st
      else let '(r, st) := clause st in (id, match r with inl message => Some message | inr _ => None end) :: run_clauses l st
  end.
Definition Contract (st : S) : string + list (string * option string) :=
  if negb (forallb (λ id, existsb (String.eqb id) excusable) (s_NotApplicable s)) then inl "not n/a for any subject in the contract's table"
  else if Bool.eqb (s_Watches s) (s_Polls s) then inl "a subject either watches a claim, or says why it polls"
  else inr (run_clauses clauses st).
End suite.
