(* ===== verification/FileLock.v ===== *)
(** The single-host coordinator: [filelock.go] and the locks of [run.go], in
    [src/runtime/internal/run].

    The operating system's part is a state and an argument: which open file description holds
    the advisory lock of each path, what each lock file carries, and for each call which of
    the system's own operations failed.  A lock file carries the holder last written to it,
    or nothing that decodes as one.  Claims are taken by several processes; the kernel drops
    a process's locks when it dies.  At the end the contract's suite is run on it. *)
From S2P Require Import Prelude GoStr GoTime GoPath GoErr GuardConfig Records Store.
From S2P Require Contract.

(** [ErrAlreadyRunning] is one value told apart by identity, and wraps [ErrHeld]. *)
Definition ErrAlreadyRunning : gerror :=
  Wrap "a run of this playbook is already in flight (claim held)"
    [Sentinel "a run of this playbook is already in flight"; ErrHeld].
Definition is_already_running (e : gerror) : bool :=
  is_sentinel "a run of this playbook is already in flight" e.

Definition lower_digit (c : ascii) : bool := is_digit c || is_lower c.

Definition playbookNamePattern (name : string) : bool :=
  match name with
  | "" => false
  | String c rest =>
      lower_digit c && str_all (λ c, lower_digit c || Ascii.eqb c "-") rest
      && (String.length rest <=? 62)%nat
  end.

(** What the system answered one call: each a failure, or none. *)
Record io := mkIo {
  io_mkdir : option gerror; io_open : option gerror; io_flock : option gerror;
  io_truncated : bool; io_wrote : bool; io_read : bool;
  io_last_tick : option gerror; io_set_tick : option gerror; io_count : option gerror;
  io_rate_start : option gerror; io_wall : Z }.

Definition good_io (wall : Z) : io := mkIo None None None true true true None None None None wall.

Record state := mkState {
  flocks : gmap string (nat * nat); (** path to the process and descriptor that hold it *)
  contents : gmap string (option Holder);
  next_fd : nat;
  store : db }.

Record held := mkHeld { path : string; process : nat; fd : nat }.
#[export] Instance held_eq_dec : EqDecision held.
Proof. solve_decision. Defined.

Section filelock.
Context (redact : string → string) (locksDir : string).

Definition lockPath (name : string) : string := Join [locksDir; name +:+ ".lock"].

Definition open_file (path : string) (s : state) : state :=
  mkState (flocks s) (if decide (is_Some (contents s !! path)) then contents s
                      else <[path := None]> (contents s)) (S (next_fd s)) (store s).

Definition acquireLock (p : nat) (e : io) (name : string) (s : state) : (gerror + held) * state :=
  let path := lockPath name in
  match io_mkdir e with
  | Some err => (inl (wrap_before "creating the locks directory" err), s)
  | None =>
      match io_open e with
      | Some err => (inl (wrap_before ("opening " +:+ path) err), s)
      | None =>
          let s' := open_file path s in
          match io_flock e with
          | Some err => (inl (wrap_before ("locking " +:+ path) err), s')
          | None =>
              match flocks s !! path with
              | Some _ => (inl (wrap_after ErrAlreadyRunning ": held by another process"), s')
              | None =>
                  (inr (mkHeld path p (next_fd s)),
                   mkState (<[path := (p, next_fd s)]> (flocks s)) (contents s') (next_fd s')
                     (store s'))
              end
          end
      end
  end.

Definition claim (p : nat) (e : io) (name : string) (s : state) : (gerror + held) * state :=
  if negb (playbookNamePattern name) then
    (inl (Text ("playbook name " +:+ quote name +:+
                " does not match ^[a-z0-9][a-z0-9-]{0,62}$")), s)
  else acquireLock p e name s.

(** [releaseLock]: unlocking a descriptor drops the lock it holds, and no other's. *)
Definition unclaim (h : held) (s : state) : state :=
  if decide (flocks s !! path h = Some (process h, fd h)) then
    mkState (delete (path h) (flocks s)) (contents s) (next_fd s) (store s)
  else s.

Definition InFlight (p : nat) (e : io) (name : string) (s : state) : bool * state :=
  match acquireLock p e name s with
  | (inl _, s') => (true, s')
  | (inr h, s') => (false, unclaim h s')
  end.

(** [FileLock.held]: the holder read back from the lock file. *)
Definition held_by (e : io) (name : string) (refusal : gerror) (s : state) : gerror :=
  if negb (io_read e) then refusal
  else
    match contents s !! lockPath name with
    | Some (Some holder) =>
        if String.eqb (h_RunID holder) "" then refusal
        else Wrap (Error ErrAlreadyRunning +:+ ": " +:+ Error (HeldBy holder))
               [ErrAlreadyRunning; HeldBy holder]
    | _ => refusal
    end.

Definition record_holder (e : io) (h : held) (holder : Holder) (s : state) : state :=
  if negb (io_truncated e) then s
  else mkState (flocks s) (<[path h := if io_wrote e then Some holder else None]> (contents s))
         (next_fd s) (store s).

Definition with_store (d : db) (s : state) : state :=
  mkState (flocks s) (contents s) (next_fd s) d.

Definition unavailable (err : gerror) : gerror :=
  Wrap (Error ErrUnavailable +:+ ": " +:+ Error err) [ErrUnavailable; err].

Definition tick (e : io) (req : AcquireRequest) (s : state) : option gerror * state :=
  match (match io_last_tick e with Some err => inl err | None => LastTick (a_Name req) (store s) end) with
  | inl err => (Some (unavailable err), s)
  | inr last =>
      let write :=
        match io_set_tick e with
        | Some err => (Some (unavailable err), s)
        | None =>
            match SetLastTick redact (a_Name req)
                    (mkTick (t_DueAt (a_Trigger req)) (h_Host (a_Holder req))
                       (h_Instance (a_Holder req)) (h_RunID (a_Holder req))) (store s) with
            | (Some err, _) => (Some (unavailable err), s)
            | (None, d) => (None, with_store d s)
            end
        end in
      match last with
      | Some last =>
          if negb (After (t_DueAt (a_Trigger req)) (k_DueAt last)) then
            (Some (TickRanAs (k_DueAt last) (mkHolder (k_Host last) (k_Instance last) (k_RunID last))), s)
          else write
      | None => write
      end
  end.

Definition rate (e : io) (req : AcquireRequest) (s : state) : option gerror * state :=
  match a_Rate req with
  | None => (None, s)
  | Some limit =>
      let now := io_wall e in
      match io_count e with
      | Some err => (Some (unavailable err), s)
      | None =>
          if l_Runs limit <=? CountRateStarts redact (a_Name req) (now - l_Per limit) (store s) then
            (Some (RateLimitedBy limit), s)
          else
            match io_rate_start e with
            | Some err => (Some (unavailable err), s)
            | None =>
                (None, with_store (RecordRateStart redact (a_Name req) (h_RunID (a_Holder req)) now
                                     (store s)) s)
            end
      end
  end.

(** [Acquire], by process [p]. *)
Definition Acquire (p : nat) (e : io) (req : AcquireRequest) (s : state) : (gerror + held) * state :=
  match AcquireRequest_Check req with
  | Some err => (inl err, s)
  | None =>
      match claim p e (a_Name req) s with
      | (inl err, s) =>
          (inl (if is_already_running err then held_by e (a_Name req) err s else unavailable err), s)
      | (inr taken, s) =>
          let s := record_holder e taken (a_Holder req) s in
          match (if String.eqb (t_Kind (a_Trigger req)) KindSchedule then tick e req s
                 else (None, s)) with
          | (Some err, s) => (inl err, unclaim taken s)
          | (None, s) =>
              match rate e req s with
              | (Some err, s) => (inl err, unclaim taken s)
              | (None, s) => (inr taken, s)
              end
          end
      end
  end.

(** *** The claim handed out, and waiting for one *)

(** [released] is the claim's own [sync.Once]. *)
Record fileClaim := mkFileClaim { fc_held : held; fc_released : bool }.

Definition Token (_ : fileClaim) : Z := 0.
Definition Expiry (_ : fileClaim) : Z := 0.
Definition Renew (_ : fileClaim) : option gerror := None.
Definition Fence (_ : fileClaim) : option gerror := None.
Definition Release (c : fileClaim) (s : state) : option gerror * fileClaim * state :=
  (None, mkFileClaim (fc_held c) true, if fc_released c then s else unclaim (fc_held c) s).

Definition Reach : string := ReachSingleHost.

(** [Released]: one poll's interval passes or the context ends, whichever is first; the boolean says the
    context did, with its error. *)
Definition releasedPoll : Z := 25 * Millisecond.
Definition Released_ (ended : option gerror) : option gerror := unavailable <$> ended.

End filelock.

(** ** Steps of one host *)

Section steps.
Context (redact : string → string) (locksDir : string).

(** What a step did, as someone outside sees it. *)
Inductive label :=
| Granted (p : nat) (req : AcquireRequest) (wall : Z) (c : held)
| RefusedAcquire (p : nat) (req : AcquireRequest) (err : gerror)
| Released (c : held)
| Died (p : nat)
| Elsewhere.

(** The kernel drops the locks of a process that ends, however it ends. *)
Definition die (p : nat) (s : state) : state :=
  mkState (filter (λ '(_, (q, _)), q ≠ p) (flocks s)) (contents s) (next_fd s) (store s).

(** Everything that touches the locks, the ticks and the rate starts of one state directory:
    an acquisition by any process, the release of any claim, however often, a process's end,
    [InFlight], and every other operation on the record, which leaves ticks and rate starts
    alone. *)
Inductive step (s : state) : label → state → Prop :=
| step_granted p e req c s' : Acquire redact locksDir p e req s = (inr c, s') → step s (Granted p req (io_wall e) c) s'
| step_refused p e req err s' : Acquire redact locksDir p e req s = (inl err, s') → step s (RefusedAcquire p req err) s'
| step_released c : step s (Released c) (unclaim c s)
| step_died p : step s (Died p) (die p s)
| step_in_flight p e name b s' : InFlight locksDir p e name s = (b, s') → step s Elsewhere s'
| step_record d : last_ticks d = last_ticks (store s) → rate_starts d = rate_starts (store s) →
    step s Elsewhere (with_store d s).

Inductive trace : state → list label → state → Prop :=
| trace_nil s : trace s [] s
| trace_cons s l s' ls s'' : step s l s' → trace s' ls s'' → trace s (l :: ls) s''.

(** *** One call *)

Definition scheduled (req : AcquireRequest) : bool :=
  String.eqb (t_Kind (a_Trigger req)) KindSchedule.

(** What a call leaves: the locks but for its own, and the record but for the tick and the
    rate start it took. *)
Lemma acquireLock_cases p e name s r s' :
  acquireLock locksDir p e name s = (r, s') →
  store s' = store s ∧
  match r with
  | inl err => flocks s' = flocks s ∧
      (io_mkdir e = None → io_open e = None → io_flock e = None →
       is_Some (flocks s !! lockPath locksDir name) ∧
       err = wrap_after ErrAlreadyRunning ": held by another process")
  | inr c => flocks s !! path c = None ∧ path c = lockPath locksDir name ∧ process c = p ∧
      flocks s' = <[path c := (process c, fd c)]> (flocks s)
  end.
Proof.
  unfold acquireLock. intros H.
  destruct (io_mkdir e); [by simplify_eq|].
  destruct (io_open e); [by simplify_eq|].
  destruct (io_flock e); [by simplify_eq|].
  destruct (flocks s !! lockPath locksDir name) eqn:E; simplify_eq; simpl; [|done].
  split; [done|]. split; [done|]. intros _ _ _. split; [by eexists|done].
Qed.

Lemma tick_cases e req s r s' :
  tick redact e req s = (r, s') →
  flocks s' = flocks s ∧ rate_starts (store s') = rate_starts (store s) ∧
  match r with
  | Some _ => last_ticks (store s') = last_ticks (store s)
  | None =>
      (∀ k, last_ticks (store s) !! a_Name req = Some k → k_DueAt k < t_DueAt (a_Trigger req)) ∧
      ∃ k, k_DueAt k = t_DueAt (a_Trigger req) ∧
           last_ticks (store s') = <[a_Name req := k]> (last_ticks (store s))
  end.
Proof.
  unfold tick, LastTick, SetLastTick, After. intros H.
  destruct (io_last_tick e); [by simplify_eq|].
  destruct (last_ticks (store s) !! a_Name req) as [k|] eqn:E.
  - destruct (IsZero (k_DueAt k)); [by simplify_eq|].
    destruct (negb _) eqn:Ha; [by simplify_eq|].
    destruct (io_set_tick e); [by simplify_eq|]. simpl in H.
    destruct (IsZero _); simplify_eq; simpl; [done|].
    repeat split; [|by eexists; split; [|done]].
    intros k' [= <-]. apply negb_false_iff in Ha. lia.
  - destruct (io_set_tick e); [by simplify_eq|]. simpl in H.
    destruct (IsZero _); simplify_eq; simpl; [done|].
    repeat split; [done|by eexists; split; [|done]].
Qed.

Lemma rate_cases e req s r s' :
  rate redact e req s = (r, s') →
  flocks s' = flocks s ∧ last_ticks (store s') = last_ticks (store s) ∧
  match r with
  | Some _ => s' = s
  | None =>
      match a_Rate req with
      | None => s' = s
      | Some limit =>
          CountRateStarts redact (a_Name req) (io_wall e - l_Per limit) (store s) < l_Runs limit ∧
          rate_starts (store s') = rate_starts (store s)
            ++ [mkRateStart (redact (a_Name req)) (h_RunID (a_Holder req)) (io_wall e)]
      end
  end.
Proof.
  unfold rate. intros H. destruct (a_Rate req) as [limit|]; [|by simplify_eq].
  destruct (io_count e); [by simplify_eq|].
  destruct (l_Runs limit <=? _) eqn:Hc; [by simplify_eq|].
  destruct (io_rate_start e); simplify_eq; [done|]. simpl. repeat split; lia.
Qed.

Definition later_tick (req : AcquireRequest) (s s' : state) : Prop :=
  (∀ k, last_ticks (store s) !! a_Name req = Some k → k_DueAt k < t_DueAt (a_Trigger req)) ∧
  ∃ k, k_DueAt k = t_DueAt (a_Trigger req) ∧
       last_ticks (store s') = <[a_Name req := k]> (last_ticks (store s)).

Definition one_more_start (req : AcquireRequest) (wall : Z) (s s' : state) : Prop :=
  match a_Rate req with
  | None => rate_starts (store s') = rate_starts (store s)
  | Some limit =>
      CountRateStarts redact (a_Name req) (wall - l_Per limit) (store s) < l_Runs limit ∧
      rate_starts (store s') = rate_starts (store s)
        ++ [mkRateStart (redact (a_Name req)) (h_RunID (a_Holder req)) wall]
  end.

Lemma unclaim_own c l s :
  l !! path c = None → flocks s = <[path c := (process c, fd c)]> l →
  flocks (unclaim c s) = l.
Proof.
  intros Hl Hs. unfold unclaim. rewrite Hs, lookup_insert_eq.
  destruct (decide _) as [_|Hn]; [|by destruct Hn]. simpl. by rewrite delete_insert_id.
Qed.

Lemma unclaim_store c s : store (unclaim c s) = store s.
Proof. unfold unclaim. by destruct (decide _). Qed.

Lemma record_holder_rest e c h s :
  flocks (record_holder e c h s) = flocks s ∧ store (record_holder e c h s) = store s.
Proof. unfold record_holder. by destruct (io_truncated e). Qed.

Lemma Acquire_cases p e req s r s' :
  Acquire redact locksDir p e req s = (r, s') →
  match r with
  | inl _ =>
      flocks s' = flocks s ∧ rate_starts (store s') = rate_starts (store s) ∧
      (last_ticks (store s') = last_ticks (store s) ∨
       scheduled req = true ∧ a_Rate req ≠ None ∧ later_tick req s s')
  | inr c =>
      playbookNamePattern (a_Name req) = true ∧ path c = lockPath locksDir (a_Name req) ∧
      process c = p ∧ flocks s !! path c = None ∧
      flocks s' = <[path c := (process c, fd c)]> (flocks s) ∧
      (if scheduled req then later_tick req s s' else last_ticks (store s') = last_ticks (store s)) ∧
      one_more_start req (io_wall e) s s'
  end.
Proof.
  unfold Acquire, claim, scheduled. intros H.
  destruct (AcquireRequest_Check req); [simplify_eq; auto|].
  destruct (playbookNamePattern (a_Name req)) eqn:Hn; simpl in H; [|simplify_eq; auto].
  destruct (acquireLock locksDir p e (a_Name req) s) as [[err|c] s1] eqn:E1.
  { destruct (acquireLock_cases _ _ _ _ _ _ E1) as (Hd & Hf & _). simplify_eq.
    by rewrite Hd; auto. }
  destruct (acquireLock_cases _ _ _ _ _ _ E1) as (Hd & Hfree & Hp & Hproc & Hf).
  destruct (record_holder_rest e c (a_Holder req) s1) as [Hf2 Hd2].
  set (s2 := record_holder e c (a_Holder req) s1) in *. clearbody s2.
  assert (∃ r3 s3, (if String.eqb (t_Kind (a_Trigger req)) KindSchedule
                    then tick redact e req s2 else (None, s2)) = (r3, s3)) as (r3 & s3 & E3)
    by (destruct (if String.eqb _ _ then _ else _) as [r3 s3]; eauto).
  rewrite E3 in H.
  assert (flocks s3 = flocks s2 ∧ rate_starts (store s3) = rate_starts (store s) ∧
    match r3 with
    | Some _ => last_ticks (store s3) = last_ticks (store s)
    | None => if String.eqb (t_Kind (a_Trigger req)) KindSchedule then later_tick req s s3
              else last_ticks (store s3) = last_ticks (store s)
    end) as (Hf3 & Hr3 & Ht3).
  { unfold later_tick. rewrite <-Hd, <-Hd2.
    destruct (String.eqb _ KindSchedule); [by eapply tick_cases|by simplify_eq]. }
  destruct r3 as [err|].
  { simplify_eq. rewrite unclaim_store. split; [|auto].
    apply unclaim_own; [done|]. congruence. }
  destruct (rate redact e req s3) as [r4 s4] eqn:E4.
  destruct (rate_cases _ _ _ _ _ E4) as (Hf4 & Ht4 & H4).
  destruct r4 as [err|]; simplify_eq.
  - rewrite unclaim_store. split; [apply unclaim_own; [done|congruence]|]. split; [done|].
    destruct (String.eqb _ KindSchedule); [right|by left].
    split; [done|]. split.
    + unfold rate in E4. by destruct (a_Rate req).
    + destruct Ht3 as (H1 & k & Hk & Hl). split; [done|]. exists k. by rewrite unclaim_store.
  - split_and!; [done|done|done|done|congruence|..].
    + destruct (String.eqb _ KindSchedule); [|congruence].
      destruct Ht3 as (H1 & k & Hk & Hl). split; [done|]. exists k. by rewrite Ht4.
    + unfold one_more_start. destruct (a_Rate req) as [limit|]; [|by subst].
      destruct H4 as [Hc Hs]. rewrite Hs, Hr3. split; [|done].
      unfold CountRateStarts in *. by rewrite <-Hr3.
Qed.

(** *** Exclusion *)

Definition locked_by (c : held) (s : state) : Prop := flocks s !! path c = Some (process c, fd c).

Lemma step_keeps_lock c s l s' :
  step s l s' → l ≠ Released c → l ≠ Died (process c) → locked_by c s → locked_by c s'.
Proof.
  unfold locked_by. intros Hs Hr Hd Hc. destruct Hs as [p e req c' s' H|p e req err s' H|c'|p|p e n b s' H|].
  - destruct (Acquire_cases _ _ _ _ _ _ H) as (_ & _ & _ & Hn & -> & _).
    rewrite lookup_insert_ne; [done|]. congruence.
  - by destruct (Acquire_cases _ _ _ _ _ _ H) as [-> _].
  - unfold unclaim. destruct (decide _) as [Hc'|]; [|done]. simpl.
    rewrite lookup_delete_ne; [done|]. intros Hp. apply Hr. f_equal.
    destruct c, c'; simpl in *. congruence.
  - simpl. apply map_lookup_filter_Some. split; [done|]. congruence.
  - unfold InFlight in H. destruct (acquireLock locksDir p e n s) as [[err|c'] s1] eqn:E;
      destruct (acquireLock_cases _ _ _ _ _ _ E) as (_ & H').
    + simplify_eq. by destruct H' as [-> _].
    + simplify_eq. destruct H' as (Hn & _ & _ & Hf). by rewrite (unclaim_own _ _ _ Hn Hf).
  - done.
Qed.

Lemma trace_keeps_lock c s ls s' :
  trace s ls s' → Released c ∉ ls → Died (process c) ∉ ls → locked_by c s → locked_by c s'.
Proof.
  induction 1 as [|s l s' ls s'' Hs _ IH]; [done|].
  rewrite !not_elem_of_cons. intros [Hr ?] [Hd ?] Hc.
  apply IH; [done..|]. by eapply step_keeps_lock.
Qed.

Lemma locked_refuses c s name p e req r s' :
  locked_by c s → path c = lockPath locksDir name → a_Name req = name →
  Acquire redact locksDir p e req s = (r, s') →
  ∃ err, r = inl err ∧
    (AcquireRequest_Check req = None → playbookNamePattern name = true →
     io_mkdir e = None → io_open e = None → io_flock e = None → errors_is err ErrHeld = true).
Proof.
  intros Hc Hp Hn H. destruct r as [err|c'].
  2:{ destruct (Acquire_cases _ _ _ _ _ _ H) as (_ & Hp' & _ & Hfree & _).
      unfold locked_by in Hc. congruence. }
  exists err. split; [done|]. intros Hk Hpat Hm Ho Hf.
  unfold Acquire, claim in H. rewrite Hk, Hn, Hpat in H. simpl in H.
  unfold acquireLock in H. rewrite Hm, Ho, Hf in H. unfold locked_by in Hc.
  rewrite <-Hp, Hc in H. simplify_eq. simpl. unfold held_by.
  by repeat case_match.
Qed.

(** C10: One claim at a time on this host: from the moment an acquisition of a playbook's
    claim is granted, until that claim is released or the process holding it dies, no other
    acquisition of the name is granted, whoever asks, in whatever process, and whatever else
    is released or dies; and where the system lets the lock be tried at all, the refusal is
    ErrHeld. *)
Theorem a_claim_excludes s p req wall c ls s' p' e' req' r s'' :
  trace s (Granted p req wall c :: ls) s' → Released c ∉ ls → Died p ∉ ls →
  a_Name req' = a_Name req → Acquire redact locksDir p' e' req' s' = (r, s'') →
  ∃ err, r = inl err ∧
    (AcquireRequest_Check req' = None → io_mkdir e' = None → io_open e' = None →
     io_flock e' = None → errors_is err ErrHeld = true).
Proof.
  intros Ht Hr Hd Hn H. inversion Ht as [|? ? s1 ? ? Hs Ht']; subst.
  inversion Hs as [? e ? ? ? HA| | | | |]; subst.
  destruct (Acquire_cases _ _ _ _ _ _ HA) as (Hpat & Hp & <- & _ & Hf & _).
  assert (locked_by c s1) as Hl by (unfold locked_by; by rewrite Hf, lookup_insert_eq).
  apply (trace_keeps_lock c) in Ht'; [|done..].
  destruct (locked_refuses _ _ _ _ _ _ _ _ Ht' Hp Hn H) as (err & -> & He). eauto 10.
Qed.

(** An acquisition that is refused takes nothing: whatever refused it, the locks and the
    rate starts are as they were, and so are the last ticks, unless the request is a
    scheduled one that declares a rate. *)
Theorem a_refused_acquire_takes_nothing s p e req err s' :
  Acquire redact locksDir p e req s = (inl err, s') →
  flocks s' = flocks s ∧ rate_starts (store s') = rate_starts (store s) ∧
  (scheduled req = false ∨ a_Rate req = None → last_ticks (store s') = last_ticks (store s)).
Proof.
  intros H. destruct (Acquire_cases _ _ _ _ _ _ H) as (Hf & Hr & [Ht|(Hs & Hn & _)]).
  - auto.
  - split; [done|]. split; [done|]. intros [?|?]; congruence.
Qed.

(** *** Ticks *)

Definition due_tick (name : string) (l : label) : option Z :=
  match l with
  | Granted _ req _ _ =>
      if scheduled req && String.eqb (a_Name req) name then Some (t_DueAt (a_Trigger req)) else None
  | _ => None
  end.

Definition tick_at (name : string) (s : state) : option Z := k_DueAt <$> last_ticks (store s) !! name.

Lemma later_tick_at name req s s' :
  later_tick req s s' →
  match decide (a_Name req = name) with
  | left _ => tick_at name s' = Some (t_DueAt (a_Trigger req)) ∧
              (∀ d, tick_at name s = Some d → d < t_DueAt (a_Trigger req))
  | right _ => tick_at name s' = tick_at name s
  end.
Proof.
  unfold tick_at. intros (H1 & k & Hk & Hl). rewrite Hl. destruct (decide _) as [<-|Hne].
  - rewrite lookup_insert_eq. simpl. split; [by rewrite Hk|].
    intros d Hd. destruct (last_ticks (store s) !! a_Name req) as [k'|] eqn:E; simplify_eq/=.
    by apply H1.
  - by rewrite lookup_insert_ne.
Qed.

Lemma step_tick name s l s' :
  step s l s' →
  match due_tick name l with
  | Some d => tick_at name s' = Some d ∧ (∀ d0, tick_at name s = Some d0 → d0 < d)
  | None => ∀ d0, tick_at name s = Some d0 → ∃ d1, tick_at name s' = Some d1 ∧ d0 <= d1
  end.
Proof.
  assert (∀ x y : state, last_ticks (store y) = last_ticks (store x) →
    ∀ d0, tick_at name x = Some d0 → ∃ d1, tick_at name y = Some d1 ∧ d0 <= d1) as Hsame.
  { unfold tick_at. intros x y -> d0 ->. exists d0. split; [done|lia]. }
  destruct 1 as [p e req c' s' H|p e req err s' H|c'|p|p e n b s' H|]; simpl.
  - destruct (Acquire_cases _ _ _ _ _ _ H) as (_ & _ & _ & _ & _ & Ht & _).
    destruct (scheduled req); simpl; [|by apply Hsame].
    pose proof (later_tick_at name _ _ _ Ht) as Hl. revert Hl.
    destruct (decide _) as [->|Hne].
    + by rewrite String.eqb_refl.
    + rewrite (proj2 (String.eqb_neq _ _) Hne). intros -> d0 ->. exists d0. split; [done|lia].
  - destruct (Acquire_cases _ _ _ _ _ _ H) as (_ & _ & [Ht|(_ & _ & Ht)]); [by apply Hsame|].
    pose proof (later_tick_at name _ _ _ Ht) as Hl. revert Hl. destruct (decide _).
    + intros [-> Hd] d0 Hd0. eexists. split; [done|]. apply Hd in Hd0. lia.
    + intros -> d0 ->. exists d0. split; [done|lia].
  - apply Hsame. by rewrite unclaim_store.
  - by apply Hsame.
  - apply Hsame. unfold InFlight in H.
    destruct (acquireLock locksDir p e n s) as [[?|?] ?] eqn:E;
      destruct (acquireLock_cases _ _ _ _ _ _ E) as [Hd _]; simplify_eq;
      rewrite ?unclaim_store; congruence.
  - by apply Hsame.
Qed.

(** C11: A tick runs at most once on this host: over any sequence of acquisitions, refusals,
    releases and deaths, the due instants of the scheduled acquisitions granted for a
    playbook strictly increase, each one past the last tick recorded before them. *)
Theorem a_tick_is_granted_once name s ls s' :
  trace s ls s' →
  StronglySorted Z.lt (omap (due_tick name) ls) ∧
  Forall (λ d, ∀ k, last_ticks (store s) !! name = Some k → k_DueAt k < d)
    (omap (due_tick name) ls).
Proof.
  intros Ht.
  assert (StronglySorted Z.lt (omap (due_tick name) ls) ∧
    Forall (λ d, ∀ d0, tick_at name s = Some d0 → d0 < d) (omap (due_tick name) ls)) as [HS HF].
  { induction Ht as [|s l s' ls s'' Hs _ [IHs IHf]]; [by repeat constructor|].
    apply (step_tick name) in Hs. simpl.
    destruct (due_tick name l) as [d|] eqn:E; simpl.
    - destruct Hs as [Hd Hlt]. split; constructor; [done| |done|].
      + eapply Forall_impl; [done|]. simpl. auto.
      + eapply Forall_impl; [done|]. simpl. intros d' Hd' d0 Hd0.
        apply Hlt in Hd0. apply Hd' in Hd. lia.
    - split; [done|]. eapply Forall_impl; [done|]. simpl. intros d' Hd' d0 Hd0.
      destruct (Hs _ Hd0) as (d1 & H1 & Hle). apply Hd' in H1. lia. }
  split; [done|]. eapply Forall_impl; [done|]. simpl. intros d Hd k Hk.
  apply Hd. unfold tick_at. by rewrite Hk.
Qed.
(** *** Rate windows *)

(** The starts of a playbook in a window of [per], both its ends included. *)
Definition started_in (name : string) (a per : Z) (r : RateStart) : bool :=
  String.eqb (s_PlaybookName r) (redact name) && (a <=? s_StartedAt r) && (s_StartedAt r <=? a + per).
Definition window_count (name : string) (a per : Z) (s : state) : Z :=
  Z.of_nat (length (List.filter (started_in name a per) (rate_starts (store s)))).

Definition limited_to (name : string) (limit : RateLimit) (l : label) : Prop :=
  match l with
  | Granted _ req _ _ =>
      redact (a_Name req) = redact name → a_Rate req = Some limit ∨ a_Rate req = None
  | _ => True
  end.

Lemma filter_length_le {A} (p q : A → bool) (l : list A) :
  (∀ x, p x = true → q x = true) → (length (List.filter p l) <= length (List.filter q l))%nat.
Proof.
  intros Hpq. induction l as [|x l IH]; simpl; [lia|].
  destruct (p x) eqn:E; [rewrite (Hpq _ E); simpl; lia|]. destruct (q x); simpl; lia.
Qed.

Lemma step_windows name limit s l s' :
  step s l s' → limited_to name limit l → (0 <= l_Runs limit) →
  (∀ a, window_count name a (l_Per limit) s <= l_Runs limit) →
  ∀ a, window_count name a (l_Per limit) s' <= l_Runs limit.
Proof.
  intros Hs Hlim H0 Hw a. unfold window_count in *.
  destruct Hs as [p e req c s' H|p e req err s' H|c|p|p e n b s' H|d _ Hd]; simpl in *.
  - destruct (Acquire_cases _ _ _ _ _ _ H) as (_ & _ & _ & _ & _ & _ & Hr).
    unfold one_more_start in Hr. destruct (a_Rate req) as [limit'|] eqn:E; [|by rewrite Hr].
    destruct Hr as [Hc ->]. rewrite List.filter_app, length_app. simpl.
    destruct (started_in name a (l_Per limit) _) eqn:Ein; simpl.
    2:{ specialize (Hw a). lia. }
    unfold started_in in Ein. simpl in Ein.
    apply andb_prop in Ein as [Ein ?]. apply andb_prop in Ein as [Hname ?].
    apply String.eqb_eq in Hname. destruct (Hlim Hname) as [[= ->]|?]; [|done].
    unfold CountRateStarts in Hc.
    enough (length (List.filter (started_in name a (l_Per limit)) (rate_starts (store s))) <=
      length (List.filter (λ r, String.eqb (s_PlaybookName r) (redact (a_Name req))
        && (io_wall e - l_Per limit <=? s_StartedAt r)%Z) (rate_starts (store s))))%nat by lia.
    apply filter_length_le. intros r Hr. unfold started_in in Hr. rewrite Hname.
    apply andb_prop in Hr as [Hr ?]. apply andb_prop in Hr as [-> ?]. simpl. lia.
  - destruct (Acquire_cases _ _ _ _ _ _ H) as (_ & -> & _). apply Hw.
  - rewrite unclaim_store. apply Hw.
  - apply Hw.
  - unfold InFlight in H. destruct (acquireLock locksDir p e n s) as [[?|?] ?] eqn:E;
      destruct (acquireLock_cases _ _ _ _ _ _ E) as [Hd _]; simplify_eq;
      rewrite ?unclaim_store, Hd; apply Hw.
  - rewrite Hd. apply Hw.
Qed.

(** The rate limit holds over every window, not only the one a grant looks at: where
    every acquisition of a playbook that declares a rate declares the same one, no window of
    its length, wherever it begins, ever holds more starts than it allows, whatever the
    clock reads, forwards or backwards, and whatever is released. *)
Theorem no_window_exceeds_the_rate name limit s ls s' :
  trace s ls s' → Forall (limited_to name limit) ls → 0 <= l_Runs limit →
  rate_starts (store s) = [] → ∀ a, window_count name a (l_Per limit) s' <= l_Runs limit.
Proof.
  intros Ht Hl H0 Hs.
  assert (∀ a, window_count name a (l_Per limit) s <= l_Runs limit) as Hw
    by (intros a; unfold window_count; by rewrite Hs).
  clear Hs. induction Ht as [|s l s' ls s'' Hstep _ IH]; [done|].
  inversion Hl; subst. apply IH; [done|]. by eapply step_windows.
Qed.

End steps.

(** ** Concrete runs *)

Definition plain (text : string) : string := text.
Definition no_locks : state := mkState ∅ ∅ 0 empty_db.

Definition asking (name run : string) (rate_ : option RateLimit) (trigger : TriggerRef)
  : AcquireRequest :=
  mkAcquireRequest name (mkHolder "host" "instance" run) (90 * Second) rate_ trigger.
Definition by_hand : TriggerRef := mkTriggerRef KindManual 0.
Definition due (d : Z) : TriggerRef := mkTriggerRef KindSchedule d.

Definition acquire (p : nat) (wall : Z) (req : AcquireRequest) (s : state) :=
  Acquire plain "/locks" p (good_io wall) req s.

Definition report_limit : RateLimit := mkRateLimit 1 Minute.
Definition first_req : AcquireRequest := asking "report" "r1" (Some report_limit) (due (10 * Second)).
Definition after_first : state := snd (acquire 1 (10 * Second) first_req no_locks).
Definition first_claim : held := mkHeld "/locks/report.lock" 1 0.

Lemma first_step :
  step plain "/locks" no_locks (Granted 1 first_req (10 * Second) first_claim) after_first.
Proof. apply (step_granted plain "/locks" no_locks 1 (good_io (10 * Second))). vm_compute. reflexivity. Qed.

Lemma first_trace :
  trace plain "/locks" no_locks [Granted 1 first_req (10 * Second) first_claim] after_first.
Proof. eapply trace_cons; [apply first_step|constructor]. Qed.

Lemma a_claim_excludes_witness :
  ∃ err, fst (acquire 2 (11 * Second) (asking "report" "r2" None by_hand) after_first) = inl err ∧
    errors_is err ErrHeld = true.
Proof.
  destruct (acquire 2 (11 * Second) (asking "report" "r2" None by_hand) after_first) as [r s''] eqn:E.
  destruct (a_claim_excludes plain "/locks" no_locks 1 first_req (10 * Second) first_claim []
    after_first 2 (good_io (11 * Second)) (asking "report" "r2" None by_hand) r s'' first_trace)
    as (err & Hr & He); [by intros ?%elem_of_nil..|reflexivity|exact E|].
  exists err. split; [exact Hr|]. by apply He.
Defined.

Lemma a_refused_acquire_takes_nothing_witness :
  ∃ err s', acquire 2 (11 * Second) (asking "report" "r2" None by_hand) after_first = (inl err, s') ∧
    last_ticks (store s') = last_ticks (store after_first).
Proof.
  destruct (acquire 2 (11 * Second) (asking "report" "r2" None by_hand) after_first)
    as [[err|c] s'] eqn:E; [|by vm_compute in E].
  exists err, s'. split; [done|].
  apply (a_refused_acquire_takes_nothing plain "/locks" _ _ _ _ _ _ E). by left.
Defined.

Lemma a_tick_is_granted_once_witness :
  StronglySorted Z.lt (omap (due_tick "report")
    [Granted 1 first_req (10 * Second) first_claim]).
Proof. apply (a_tick_is_granted_once plain "/locks" "report" _ _ _ first_trace). Defined.

Lemma no_window_exceeds_the_rate_witness :
  rate_starts (store after_first) ≠ [] ∧
  window_count plain "report" (5 * Second) Minute after_first <= 1.
Proof.
  split; [by vm_compute|].
  apply (no_window_exceeds_the_rate plain "/locks" "report" report_limit _ _ _ first_trace);
    [by repeat constructor|done|reflexivity].
Defined.

(** A scheduled tick refused for its rate is spent: with one run a minute, a tick due
    while the window is full is refused as rate limited and takes no claim, and is recorded
    as ran; asked for again after the window moved it is refused as already run, naming a
    run that never started. *)
Theorem a_rate_limited_tick_is_spent :
  let released := unclaim first_claim after_first in
  let second := asking "report" "r2" (Some report_limit) (due (20 * Second)) in
  let '(r2, s2) := acquire 1 (20 * Second) second released in
  let '(r3, s3) := acquire 1 (200 * Second) second s2 in
  (match r2 with inl err => errors_is err ErrRateLimited = true | inr _ => False end) ∧
  (match r3 with inl err => errors_is err ErrTickRan = true | inr _ => False end) ∧
  flocks s2 = ∅ ∧ k_RunID <$> (last_ticks (store s2) !! "report") = Some "r2".
Proof. vm_compute. done. Qed.

(** ** Giving a claim back *)

(** A claim given back twice frees nothing the second time, whoever has taken the lock since, and what
    it says of itself never changes: it has no token, does not expire, and passes every fence. *)
Lemma a_second_release_frees_nothing c s s' :
  let '(err, c', s1) := Release c s in
  err = None ∧ fc_held c' = fc_held c ∧ snd (Release c' s') = s' ∧
  (fc_released c = false → flocks s !! path (fc_held c) = Some (process (fc_held c), fd (fc_held c)) →
   flocks s1 !! path (fc_held c) = None) ∧
  Token c' = 0 ∧ Expiry c' = 0 ∧ Renew c' = None ∧ Fence c' = None.
Proof.
  unfold Release. cbn. split_and!; try done. intros -> Hl. unfold unclaim. rewrite decide_True by done. cbn. by rewrite lookup_delete_eq.
Qed.

(** What a waiter is told is never that the claim is held. *)
Lemma Released_is_unavailable_or_nothing ended err : Released_ ended = Some err → errors_is err ErrUnavailable = true.
Proof. unfold Released_. destruct ended; [|done]. by intros [= <-]. Qed.

(** ** The contract's suite

    As [filelock_contract_test.go] runs it: several managers of one locks directory and one record, a wall clock that
    stands still, and the claims already given back, whose [sync.Once] has run. *)
Record managers := mkManagers { on_disk : state; given_back : list held }.

Definition lock_Acquire (e : io) (req : AcquireRequest) (m : managers) : (gerror + held) * managers :=
  let '(r, s) := Acquire plain "/locks" 0 e req (on_disk m) in (r, mkManagers s (given_back m)).
Definition lock_Release (c : held) (m : managers) : option gerror * managers :=
  let '(err, _, s) := Release (mkFileClaim c (bool_decide (c ∈ given_back m))) (on_disk m) in (err, mkManagers s (c :: given_back m)).

(** A regular file where the locks directory has to be. *)
Definition blocked : io := mkIo (Some (Text "mkdir /locks: not a directory")) None None true true true None None None None Contract.a_tick.

Definition lock_subject : Contract.Subject managers held :=
  Contract.mkSubject managers held (λ _ _, lock_Acquire (good_io Contract.a_tick)) (λ c, Token (mkFileClaim c false)) (λ c, Expiry (mkFileClaim c false))
    (λ c m, (Renew (mkFileClaim c false), m)) (λ c m, (Fence (mkFileClaim c false), m)) lock_Release
    false (lock_Acquire blocked) None (λ _ m, m) (λ _ m, m) None (λ _ m, m) None None
    (30 * Second) 0 ["C2"; "C3"; "C5"; "C6"; "C12"] false true.

Example the_lock_passes : Contract.Contract lock_subject (mkManagers no_locks []) =
  inr (map (λ id, (id, None)) ["C1"; "C7"; "C8"; "C9"; "C11"; "C13"; "C14"]).
Proof. vm_compute. reflexivity. Qed.
