(* ===== verification/Eff.v ===== *)
(** Programs that act on a world they do not control: calls with answers.

    A [prog] is a tree of calls and of what the program does with each answer; a signature
    says which calls there are and what type each is answered with.  [runs] relates a program
    to the traces any world could give it, [reaches] to what it calls in the midst of one, and [exec] runs it in a world given by a handler;
    [exec_runs] says an execution is one of the traces, so what holds of every trace holds of
    every execution. *)
From S2P Require Import Prelude.

Class Signature := { cmd : Type; resp : cmd → Type }.

Section prog.
Context {Sg : Signature}.

Inductive prog (A : Type) :=
| Ret (a : A)
| Call (c : cmd) (k : resp c → prog A).
Arguments Ret {A} a.
Arguments Call {A} c k.

Definition call (c : cmd) : prog (resp c) := Call c Ret.

Fixpoint bind {A B} (p : prog A) (f : A → prog B) : prog B :=
  match p with
  | Ret a => f a
  | Call c k => Call c (λ x, bind (k x) f)
  end.

(** A call and its answer. *)
Definition event : Type := {c : cmd & resp c}.
Definition ev (c : cmd) (x : resp c) : event := existT c x.

(** [runs p tr a]: some world answers [p]'s calls as [tr] says, and [p] then gives [a]. *)
Fixpoint runs {A} (p : prog A) (tr : list event) (a : A) : Prop :=
  match p with
  | Ret b => tr = [] ∧ b = a
  | Call c k => ∃ x tr', tr = ev c x :: tr' ∧ runs (k x) tr' a
  end.

Lemma runs_ret {A} (a b : A) tr : runs (Ret a) tr b ↔ tr = [] ∧ a = b.
Proof. done. Qed.

Lemma runs_call c tr x : runs (call c) tr x ↔ tr = [ev c x].
Proof.
  simpl. split; [by intros (y & tr' & -> & -> & ->)|]. intros ->. by exists x, [].
Qed.

Lemma runs_bind {A B} (p : prog A) (f : A → prog B) tr b :
  runs (bind p f) tr b ↔ ∃ a tr1 tr2, tr = tr1 ++ tr2 ∧ runs p tr1 a ∧ runs (f a) tr2 b.
Proof.
  revert tr. induction p as [a|c k IH]; intros tr; simpl.
  - split; [by intros H; exists a, [], tr|]. by intros (a' & tr1 & tr2 & -> & [-> ->] & H).
  - split.
    + intros (x & tr' & -> & (a & tr1 & tr2 & -> & Hk & Hf)%IH).
      exists a, (ev c x :: tr1), tr2. split; [done|]. split; [|done]. by exists x, tr1.
    + intros (a & tr1 & tr2 & -> & (x & tr' & -> & Hk) & Hf).
      exists x, (tr' ++ tr2). split; [done|]. apply IH. by exists a, tr', tr2.
Qed.

(** [reaches p tr c]: some world answers [p]'s calls as [tr] says, and [p] then makes the call [c].  It
    follows a program that does not end, or ends at a call that is not answered. *)
Fixpoint reaches {A} (p : prog A) (tr : list event) (c : cmd) : Prop :=
  match p with
  | Ret _ => False
  | Call c' k => (tr = [] ∧ c' = c) ∨ ∃ x tr', tr = ev c' x :: tr' ∧ reaches (k x) tr' c
  end.

Lemma reaches_bind {A B} (p : prog A) (f : A → prog B) tr c : reaches (bind p f) tr c →
  reaches p tr c ∨ ∃ a tr1 tr2, tr = tr1 ++ tr2 ∧ runs p tr1 a ∧ reaches (f a) tr2 c.
Proof.
  revert tr. induction p as [a|c' k IH]; intros tr; simpl; [by right; exists a, [], tr|].
  intros [[-> ->]|(x & tr' & -> & [H|(a & tr1 & tr2 & -> & H1 & H2)]%IH)]; [by left; left|left; right; by exists x, tr'|].
  right. exists a, (ev c' x :: tr1), tr2. split; [done|]. split; [|done]. by exists x, tr1.
Qed.

(** Each call of a trace was reached. *)
Lemma runs_reaches {A} (p : prog A) tr1 c x tr2 a : runs p (tr1 ++ ev c x :: tr2) a → reaches p tr1 c.
Proof.
  revert tr1. induction p as [b|c' k IH]; intros tr1; simpl; [by intros [H _]; destruct tr1|].
  intros (y & tr' & Heq & H). destruct tr1 as [|e tr1]; cbn [app] in Heq.
  - left. split; [done|]. by apply (f_equal (λ l : list event, projT1 (default (ev c x) (head l)))) in Heq.
  - right. assert (e = ev c' y) as -> by (by apply (f_equal (λ l : list event, default (ev c x) (head l))) in Heq).
    exists y, tr1. split; [done|]. apply (f_equal (@tail event)) in Heq. cbn [tail] in Heq. subst tr'. by apply IH.
Qed.

(** *** Executions *)

Section exec.
Context {W : Type} (handle : ∀ c : cmd, W → resp c * W).

Fixpoint exec {A} (p : prog A) (w : W) : A * W :=
  match p with
  | Ret a => (a, w)
  | Call c k => let (x, w') := handle c w in exec (k x) w'
  end.

Fixpoint trace_of {A} (p : prog A) (w : W) : list event :=
  match p with
  | Ret _ => []
  | Call c k => let (x, w') := handle c w in ev c x :: trace_of (k x) w'
  end.

Lemma exec_bind {A B} (p : prog A) (f : A → prog B) w :
  exec (bind p f) w = let (a, w') := exec p w in exec (f a) w'.
Proof. revert w. induction p as [a|c k IH]; intros w; simpl; [done|]. by destruct (handle c w). Qed.

Lemma exec_runs {A} (p : prog A) w : runs p (trace_of p w) (fst (exec p w)).
Proof.
  revert w. induction p as [a|c k IH]; intros w; simpl; [done|].
  destruct (handle c w) as [x w']. eauto.
Qed.

(** What every call keeps, an execution keeps. *)
Lemma exec_preserves {A} (p : prog A) (P : W → Prop) w :
  (∀ c w, P w → P (snd (handle c w))) → P w → P (snd (exec p w)).
Proof.
  intros Hh. revert w. induction p as [a|c k IH]; intros w Hw; simpl; [done|].
  specialize (Hh c w Hw). destruct (handle c w) as [x w']. by apply IH.
Qed.

End exec.
(** A world that answers each call the same each time, and may have no answer to give. *)
Fixpoint play {A} (answer : ∀ c : cmd, option (resp c)) (p : prog A) : option (list event * A) :=
  match p with
  | Ret a => Some ([], a)
  | Call c k =>
      match answer c with
      | Some x => match play answer (k x) with Some (tr, a) => Some (ev c x :: tr, a) | None => None end
      | None => None
      end
  end.

Lemma play_runs {A} answer (p : prog A) tr a : play answer p = Some (tr, a) → runs p tr a.
Proof.
  revert tr. induction p as [b|c k IH]; intros tr; simpl; [by intros [= <- <-]|].
  destruct (answer c) as [x|]; [|done]. destruct (play answer (k x)) as [[tr' b]|] eqn:E; [|done].
  intros [= <- <-]. exists x, tr'. split; [done|]. by apply IH.
Qed.

(** As far as such a world answers. *)
Fixpoint halt {A} (answer : ∀ c : cmd, option (resp c)) (p : prog A) : option (list event * cmd) :=
  match p with
  | Ret _ => None
  | Call c k =>
      match answer c with
      | Some x => match halt answer (k x) with Some (tr, c') => Some (ev c x :: tr, c') | None => None end
      | None => Some ([], c)
      end
  end.

Lemma halt_reaches {A} answer (p : prog A) tr c : halt answer p = Some (tr, c) → reaches p tr c.
Proof.
  revert tr. induction p as [b|c' k IH]; intros tr; simpl; [done|].
  destruct (answer c') as [x|]; [|by intros [= <- <-]; left]. destruct (halt answer (k x)) as [[tr' c'']|] eqn:E; [|done].
  intros [= <- <-]. right. exists x, tr'. split; [done|]. by apply IH.
Qed.

(** *** Monitors *)

(** A monitor follows a program's calls: its state says which call may be made next, and each call
    with its answer moves it. *)
Section monitor.
Context {St : Type} (ok : St → cmd → Prop) (move : St → event → St).

Fixpoint monitored {A} (p : prog A) (st : St) (Q : A → St → Prop) : Prop :=
  match p with
  | Ret a => Q a st
  | Call c k => ok st c ∧ ∀ x, monitored (k x) (move st (ev c x)) Q
  end.

Lemma monitored_impl {A} (p : prog A) st (Q Q' : A → St → Prop) :
  monitored p st Q → (∀ a st, Q a st → Q' a st) → monitored p st Q'.
Proof.
  intros H HQ. revert st H. induction p as [a|c k IH]; intros st; simpl; [apply HQ|].
  intros [Hok H]. split; [done|]. intros x. by apply IH.
Qed.

Lemma monitored_bind {A B} (p : prog A) (f : A → prog B) st Q :
  monitored p st (λ a st, monitored (f a) st Q) → monitored (bind p f) st Q.
Proof.
  revert st. induction p as [a|c k IH]; intros st; simpl; [done|].
  intros [Hok H]. split; [done|]. intros x. by apply IH.
Qed.

Lemma monitored_call c st (Q : resp c → St → Prop) :
  ok st c → (∀ x, Q x (move st (ev c x))) → monitored (call c) st Q.
Proof. intros Hok H. by split. Qed.

(** What a monitored program may do is what it does: in each of its traces every call is made in a
    state that allows it. *)
Lemma monitored_runs {A} (p : prog A) st Q tr a : monitored p st Q → runs p tr a →
  Q a (foldl move st tr) ∧ ∀ tr1 c x tr2, tr = tr1 ++ ev c x :: tr2 → ok (foldl move st tr1) c.
Proof.
  revert st tr. induction p as [b|c k IH]; intros st tr; simpl.
  - intros HQ [-> ->]. split; [done|]. by intros [|? ?] ? ? ?.
  - intros [Hok H] (x & tr' & -> & Hr). destruct (IH x _ tr' (H x) Hr) as [HQ Hall]. split; [done|].
    intros tr1 c' x' tr2 Heq. destruct tr1 as [|e tr1]; cbn [app foldl] in *.
    + assert (c = c') as <- by (apply (f_equal (λ l : list event, projT1 (default (ev c x) (head l)))) in Heq; exact Heq). done.
    + assert (ev c x = e) as <- by (apply (f_equal (λ l : list event, default (ev c x) (head l))) in Heq; exact Heq).
      apply (Hall tr1 c' x' tr2). apply (f_equal (@tail event)) in Heq. exact Heq.
Qed.
(** And in each of its partial ones, whether or not it ends. *)
Lemma monitored_reaches {A} (p : prog A) st Q tr c : monitored p st Q → reaches p tr c → ok (foldl move st tr) c.
Proof.
  revert st tr. induction p as [b|c' k IH]; intros st tr; simpl; [done|].
  intros [Hok H] [[-> <-]|(x & tr' & -> & Hr)]; [done|]. by apply (IH x (move st (ev c' x)) tr' (H x)).
Qed.
End monitor.
End prog.

Arguments Ret {Sg A} a.
Arguments Call {Sg A} c k.
#[global] Arguments bind : simpl never.
#[global] Arguments runs : simpl never.
#[global] Arguments reaches : simpl never.
#[global] Arguments monitored : simpl never.
#[global] Arguments call : simpl never.

(** [let!] is a call, or a function that makes calls, followed by the rest. *)
Notation "'let!' x ':=' p 'in' k" := (bind p (λ x, k))
  (at level 10, x pattern, p at level 100, k at level 200) : gronin_scope.

(** Take a trace apart along its program. *)
Ltac take_runs :=
  repeat match goal with
  | H : runs (bind _ _) _ _ |- _ => apply runs_bind in H as (? & ? & ? & ? & ? & ?); subst
  | H : runs (call _) _ _ |- _ => apply runs_call in H; subst
  | H : runs (Ret _) _ _ |- _ => destruct H as [? ?]; simplify_eq
  | H : runs (Call _ _) _ _ |- _ => destruct H as (? & ? & ? & ?); subst
  end.

(** ** Programs side by side over one world: every interleaving of their calls, what happens of
    itself between them, and threads that end at any point.

    A thread is [guarded] when each of its calls keeps the world's invariant whatever the others
    did before it; a call must also leave every other thread what it relies on.  [reach_guarded]
    concludes from the threads one by one to all of their interleavings. *)

Section threads.
Context {Sg : Signature} {W A : Type}.
(** [served who w c x w']: thread [who]'s call [c] is answered [x] and takes [w] to [w'];
    [outside]: what happens of itself; [dies who]: what the end of a thread does. *)
Context (served : nat → W → ∀ c : cmd, resp c → W → Prop) (outside : W → W → Prop) (dies : nat → W → W → Prop).
Context (start : W → Prop) (operation : prog A → Prop).

Inductive reach : W → gmap nat (prog A) → Prop :=
| reach_start w : start w → reach w ∅
| reach_spawn w ps who p : reach w ps → ps !! who = None → operation p → reach w (<[who := p]> ps)
| reach_call w ps who c k x w' :
    reach w ps → ps !! who = Some (Call c k) → served who w c x w' → reach w' (<[who := k x]> ps)
| reach_outside w ps w' : reach w ps → outside w w' → reach w' ps
| reach_died w ps who w' : reach w ps → dies who w w' → reach w' (delete who ps).

(** A thread run to its end in a world given by a handler. *)
Lemma reach_exec who (handle : ∀ c : cmd, W → resp c * W) p : (∀ c w x w', handle c w = (x, w') → served who w c x w') →
  ∀ w ps, reach w ps → ps !! who = Some p →
  reach (snd (exec handle p w)) (<[who := Ret (fst (exec handle p w))]> ps).
Proof.
  intros Hh. induction p as [a|c k IH]; intros w ps Hr Hp; cbn [exec fst snd]; [by rewrite insert_id|].
  destruct (handle c w) as [x w'] eqn:E.
  specialize (IH x w' (<[who := k x]> ps)). rewrite insert_insert_eq in IH. apply IH; [|by rewrite lookup_insert_eq].
  eapply reach_call; [exact Hr|exact Hp|by apply Hh].
Qed.

(** What [who] relies on of the others, and what always holds of the world. *)
Context (rely : nat → W → W → Prop) (Inv : W → Prop).

(** [Q]'s worlds are those right after the last call. *)
Fixpoint guarded (who : nat) {B} (Q : B → W → Prop) (p : prog B) (w : W) : Prop :=
  match p with
  | Ret b => Q b w
  | Call c k =>
      ∀ w1 x w2, rely who w w1 → Inv w1 → served who w1 c x w2 →
        Inv w2 ∧ (∀ other, other ≠ who → rely other w1 w2) ∧ guarded who Q (k x) w2
  end.

Definition stable_for (who : nat) {B} (Q : B → W → Prop) : Prop := ∀ b w w', rely who w w' → Inv w → Inv w' → Q b w → Q b w'.

Context (rely_trans : ∀ who w1 w2 w3, rely who w1 w2 → rely who w2 w3 → rely who w1 w3).

Lemma guarded_rely who {B} (Q : B → W → Prop) p w w' :
  stable_for who Q → rely who w w' → Inv w → Inv w' → guarded who Q p w → guarded who Q p w'.
Proof.
  intros HQ Hr Hi Hi'. destruct p as [b|c k]; cbn [guarded]; [by apply HQ|].
  intros Hg w1 x w2 Hr1. apply Hg. by eapply rely_trans.
Qed.

Lemma guarded_bind who {B C} (Q : C → W → Prop) (p : prog B) (f : B → prog C) w :
  guarded who (λ b, guarded who Q (f b)) p w → guarded who Q (bind p f) w.
Proof.
  revert w. induction p as [b|c k IH]; intros w; [done|]. unfold bind. fold (@bind Sg B C). cbn [guarded].
  intros Hg w1 x w2 Hr Hi Hs. destruct (Hg w1 x w2 Hr Hi Hs) as (Hi' & Ho & Hg'). split_and!; [done..|]. by apply IH.
Qed.

Lemma guarded_impl who {B} (Q Q' : B → W → Prop) p w :
  guarded who Q p w → (∀ b w, Q b w → Q' b w) → guarded who Q' p w.
Proof.
  intros Hg HQ. revert w Hg. induction p as [b|c k IH]; intros w; cbn [guarded]; [apply HQ|].
  intros Hg w1 x w2 Hr Hi Hs. destruct (Hg w1 x w2 Hr Hi Hs) as (Hi' & Ho & Hg'). split_and!; [done..|]. by apply IH.
Qed.

(** *** Every interleaving *)

Context (Q : nat → A → W → Prop) (Q_stable : ∀ who, stable_for who (Q who)).
Context (rely_refl : ∀ who w, rely who w w).
Context (start_ok : ∀ w, start w → Inv w).
Context (outside_ok : ∀ w w', Inv w → outside w w' → Inv w' ∧ ∀ who, rely who w w').
Context (dies_ok : ∀ who w w', Inv w → dies who w w' → Inv w' ∧ ∀ other, other ≠ who → rely other w w').
Context (operation_ok : ∀ who p w, operation p → Inv w → guarded who (Q who) p w).

Theorem reach_guarded w ps : reach w ps → Inv w ∧ ∀ who p, ps !! who = Some p → guarded who (Q who) p w.
Proof.
  induction 1 as [w Hw|w ps who p _ [Hi Hp] Hn Ho|w ps who c k x w' _ [Hi Hp] Hw Hx|w ps w' _ [Hi Hp] Ho|w ps who w' _ [Hi Hp] Hd].
  - split; [by apply start_ok|]. intros who p Hp. by rewrite lookup_empty in Hp.
  - split; [done|]. intros who' q [[<- <-]|[_ Hq]]%lookup_insert_Some; [by apply operation_ok|by apply Hp].
  - destruct (Hp who _ Hw w x w' (rely_refl who w) Hi Hx) as (Hi' & Hothers & Hg). split; [done|].
    intros who' q [[<- <-]|[Hne Hq]]%lookup_insert_Some; [exact Hg|].
    eapply guarded_rely; [apply Q_stable|by apply Hothers|done..|by apply Hp].
  - destruct (outside_ok _ _ Hi Ho) as [Hi' Hr]. split; [done|]. intros who q Hq.
    eapply guarded_rely; [apply Q_stable|apply Hr|done..|by apply Hp].
  - destruct (dies_ok _ _ _ Hi Hd) as [Hi' Hr]. split; [done|]. intros who' q [Hne Hq]%lookup_delete_Some.
    eapply guarded_rely; [apply Q_stable|by apply Hr|done..|by apply Hp].
Qed.

(** What a finished thread gave. *)
Lemma reach_returned w ps who a : reach w ps → ps !! who = Some (Ret a) → Q who a w.
Proof. intros Hr Hw. exact (proj2 (reach_guarded w ps Hr) who (Ret a) Hw). Qed.
End threads.
