(* ===== verification/Fake.v ===== *)
(** The shared backend kept in memory, the contract it is held to, the suite run on it, and the clock a test
    moves: [fake.go] and [clock.go] of [src/runtime/internal/guard/guardtest].

    Several hosts reach one backend.  Each call is a program over the sections it runs under the
    backend's lock, one at a time, and over what its own host answers; the sections are functions
    of the backend, and every interleaving of them is followed. *)
From S2P Require Import Prelude GoStr GoTime GoErr GuardConfig Contract Eff.

(** ** The backend *)

Record fakeClaim := mkFakeClaim { f_token : Z; f_holder : Holder; f_taken : Z; f_granted : Z; f_expires : Instant }.
Record fakeTick := mkFakeTick { f_dueAt : Z; f_by : Holder; f_revision : Z }.

(** The readings of the two clocks are kept with the backend; [changed] counts the channels that
    were closed. *)
Record fake := mkFake {
  mono : Instant; wall : Z; revision : Z; claims : gmap string fakeClaim; ticks : gmap string fakeTick;
  slots : gmap string (list Instant); changed : nat }.

Definition NewFake (mono : Instant) (wall : Z) : fake := mkFake mono wall 0 ∅ ∅ ∅ 0.

Definition with_claims (c : gmap string fakeClaim) (f : fake) : fake :=
  mkFake (mono f) (wall f) (revision f) c (ticks f) (slots f) (changed f).
Definition with_slots (s : gmap string (list Instant)) (f : fake) : fake :=
  mkFake (mono f) (wall f) (revision f) (claims f) (ticks f) s (changed f).
Definition notifyLocked (f : fake) : fake :=
  mkFake (mono f) (wall f) (revision f) (claims f) (ticks f) (slots f) (S (changed f)).

(** The claim on a name; one that lapsed is dropped as it is found. *)
Definition liveLocked (name : string) (f : fake) : option fakeClaim * fake :=
  match claims f !! name with
  | None => (None, f)
  | Some claim =>
      if negb (mono f <? f_expires claim) then (None, notifyLocked (with_claims (delete name (claims f)) f))
      else (Some claim, f)
  end.

Definition slots_at (name : string) (f : fake) : list Instant := default [] (slots f !! name).
Definition pruneSlotsLocked (name : string) (f : fake) : fake :=
  with_slots (<[name := List.filter (λ expires, mono f <? expires) (slots_at name f)]> (slots f)) f.
Definition rateFullLocked (name : string) (limit : RateLimit) (f : fake) : bool * fake :=
  let f := pruneSlotsLocked name f in (l_Runs limit <=? Z.of_nat (length (slots_at name f)), f).
Definition takeRateSlotLocked (name : string) (limit : RateLimit) (f : fake) : fake :=
  with_slots (<[name := slots_at name f ++ [instant_add (mono f) (l_Per limit)]]> (slots f)) f.

Definition decide_ (live : option fakeClaim) (tick : option fakeTick) (req : AcquireRequest) : option gerror :=
  match live with
  | Some live => Some (HeldBy (f_holder live))
  | None =>
      match tick with
      | Some tick =>
          if String.eqb (t_Kind (a_Trigger req)) KindSchedule && negb (After (t_DueAt (a_Trigger req)) (f_dueAt tick))
          then Some (TickRanAs (f_dueAt tick) (f_by tick)) else None
      | None => None
      end
  end.

(** *** The locked sections *)

(** The first of [Acquire]: what was read, and the refusal decided from it. *)
Definition look (req : AcquireRequest) (f : fake) : option gerror * option fakeTick * fake :=
  let read := ticks f !! a_Name req in
  let '(live, f) := liveLocked (a_Name req) f in
  match decide_ live read req with
  | Some err => (Some err, read, f)
  | None =>
      match a_Rate req with
      | None => (None, read, f)
      | Some limit => let '(full, f) := rateFullLocked (a_Name req) limit f in (if full then Some (RateLimitedBy limit) else None, read, f)
      end
  end.

Definition revision_of (tick : option fakeTick) : Z := match tick with Some tick => f_revision tick | None => 0 end.

(** The second: nothing when it was overtaken, and else the claim's token. *)
Definition commit (req : AcquireRequest) (granted : Z) (read : option fakeTick) (f : fake) : option Z * fake :=
  let name := a_Name req in
  let current := ticks f !! name in
  let scheduled := String.eqb (t_Kind (a_Trigger req)) KindSchedule in
  let '(live, f) := liveLocked name f in
  match live with
  | Some _ => (None, f)
  | None =>
      if scheduled && negb (revision_of current =? revision_of read) then (None, f)
      else
        let '(full, f) := match a_Rate req with Some limit => rateFullLocked name limit f | None => (false, f) end in
        if (full : bool) then (None, f)
        else
          let token := revision f + 1 in
          let claim := mkFakeClaim token (a_Holder req) (wall f) granted (instant_add (mono f) granted) in
          let f := mkFake (mono f) (wall f) token (<[name := claim]> (claims f)) (ticks f) (slots f) (changed f) in
          let f := match a_Rate req with Some limit => takeRateSlotLocked name limit f | None => f end in
          let f := if scheduled
                   then mkFake (mono f) (wall f) (revision f) (claims f)
                          (<[name := mkFakeTick (t_DueAt (a_Trigger req)) (a_Holder req) token]> (ticks f)) (slots f) (changed f)
                   else f in
          (Some token, notifyLocked f)
  end.

(** The one of [Released]: whether the name is free, and which channel says it changed. *)
Definition notice (name : string) (f : fake) : bool * nat * fake :=
  let '(live, f) := liveLocked name f in (match live with None => true | Some _ => false end, changed f, f).

(** A claim handed out, its host apart. *)
Record fakeHeld := mkFakeHeld { h_name : string; h_token : Z; h_granted : Z }.
Definition Token (c : fakeHeld) : Z := h_token c.
Definition Expiry (c : fakeHeld) : Z := h_granted c.

Definition currentLocked (c : fakeHeld) (f : fake) : option fakeClaim * fake :=
  let '(live, f) := liveLocked (h_name c) f in
  match live with
  | Some claim => if f_token claim =? h_token c then (Some claim, f) else (None, f)
  | None => (None, f)
  end.

Definition renew (c : fakeHeld) (f : fake) : bool * fake :=
  match currentLocked c f with
  | (None, f) => (false, f)
  | (Some live, f) =>
      let live := mkFakeClaim (f_token live) (f_holder live) (f_taken live) (f_granted live) (instant_add (mono f) (f_granted live)) in
      (true, with_claims (<[h_name c := live]> (claims f)) f)
  end.
Definition fence (c : fakeHeld) (f : fake) : bool * fake :=
  let '(live, f) := currentLocked c f in (match live with Some _ => true | None => false end, f).
Definition release (c : fakeHeld) (f : fake) : bool * fake :=
  match currentLocked c f with
  | (None, f) => (false, f)
  | (Some _, f) => (true, notifyLocked (with_claims (delete (h_name c) (claims f)) f))
  end.

(** One claim of a token, ended as its expiry would. *)
Definition expire_one (token : Z) (name : string) (f : fake) : fake :=
  match claims f !! name with
  | Some live => if f_token live =? token then notifyLocked (with_claims (delete name (claims f)) f) else f
  | None => f
  end.
Definition Expire (token : Z) (f : fake) : fake := foldl (λ f name, expire_one token name f) f (sorted_keys (claims f)).

(** ** The calls *)

(** [Switches]: whether the host is held and whether it is severed; [CtxDone]: waiting for the caller's
    context to end; [GrantOf]: what the backend grants for what is asked; [RateHook]: whether the
    host has one, set by a test, to run between the two sections. *)
Inductive fake_cmd :=
| Switches | CtxDone | CtxErr | GrantOf (asked : Z)
| Look (req : AcquireRequest) | RunSeam (name : string) | RateHook | RunRateSeam (name : string)
| Commit (req : AcquireRequest) (granted : Z) (read : option fakeTick)
| Notice (name : string) | Watched (name : string) | AwaitChange (seen : nat)
| DoRenew (c : fakeHeld) | DoFence (c : fakeHeld) | DoRelease (c : fakeHeld).

Definition fake_resp (c : fake_cmd) : Type :=
  match c with
  | Switches => bool * bool
  | CtxDone => gerror
  | CtxErr => option gerror
  | GrantOf _ => Z
  | Look _ => option gerror * option fakeTick
  | RunSeam _ | RunRateSeam _ | Watched _ => unit
  | RateHook => bool
  | Commit _ _ _ => option Z
  | Notice _ => bool * nat
  | AwaitChange _ => option gerror
  | DoRenew _ | DoFence _ | DoRelease _ => bool
  end.
#[export] Instance fake_sig : Signature := {| cmd := fake_cmd; resp := fake_resp |}.
Definition Do (c : fake_cmd) : prog (Sg := fake_sig) (fake_resp c) := call (Sg := fake_sig) c.
#[global] Arguments Do : simpl never.
Abbreviation faking A := (prog (Sg := fake_sig) A).

Definition unavailable (err : gerror) : gerror := Wrap (Error ErrUnavailable +:+ ": " +:+ Error err) [ErrUnavailable; err].

(** The round trip every call makes. *)
Definition reach_backend : faking (option gerror) :=
  let! (held, severed) := Do Switches in
  if (severed : bool) then Ret (Some (wrap_after ErrUnavailable ": the fake is severed from this host"))
  else if (held : bool) then
    let! err := Do CtxDone in
    Ret (Some (Wrap (Error ErrUnavailable +:+ ": the fake held its answer: " +:+ Error err) [ErrUnavailable; err]))
  else let! err := Do CtxErr in Ret (unavailable <$> err).

(** The loop of [Acquire]; nothing once it was overtaken as many times as there are rounds. *)
Fixpoint acquiring (rounds : nat) (seam : bool) (req : AcquireRequest) (granted : Z) : faking (option (gerror + fakeHeld)) :=
  match rounds with
  | O => Ret None
  | S rounds =>
      let scheduled := String.eqb (t_Kind (a_Trigger req)) KindSchedule in
      let! (err, read) := Do (Look req) in
      match err with
      | Some err => Ret (Some (inl err))
      | None =>
          let! _ := if scheduled && seam then Do (RunSeam (a_Name req)) else Ret tt in
          let! rateSeam := Do RateHook in
          let! _ := match a_Rate req with Some _ => if (rateSeam : bool) then Do (RunRateSeam (a_Name req)) else Ret tt | None => Ret tt end in
          let! err := Do CtxErr in
          match err with
          | Some err => Ret (Some (inl (unavailable err)))
          | None =>
              let! token := Do (Commit req granted read) in
              match token with
              | None => acquiring rounds seam req granted
              | Some token => Ret (Some (inr (mkFakeHeld (a_Name req) token granted)))
              end
          end
      end
  end.

Definition Acquire (rounds : nat) (seam : bool) (req : AcquireRequest) : faking (option (gerror + fakeHeld)) :=
  match AcquireRequest_Check req with
  | Some err => Ret (Some (inl err))
  | None =>
      if (a_Expiry req <=? 0) || negb (Z.rem (a_Expiry req) Second =? 0)
      then Ret (Some (inl (Text ("claim expiry " +:+ Duration_String (a_Expiry req) +:+ " is not a whole number of seconds"))))
      else
        let! err := reach_backend in
        match err with
        | Some err => Ret (Some (inl err))
        | None =>
            let! granted := Do (GrantOf (a_Expiry req)) in
            if granted <? a_Expiry req
            then Ret (Some (inl (wrap_after ErrUnavailable
                   (": granted an expiry of " +:+ Duration_String granted +:+ ", asked for " +:+ Duration_String (a_Expiry req)))))
            else acquiring rounds seam req granted
        end
  end.

Fixpoint waiting (rounds : nat) (name : string) : faking (option (option gerror)) :=
  match rounds with
  | O => Ret None
  | S rounds =>
      let! (free, seen) := Do (Notice name) in
      if (free : bool) then Ret (Some None)
      else
        let! _ := Do (Watched name) in
        let! err := Do (AwaitChange seen) in
        match err with
        | Some err => Ret (Some (Some (unavailable err)))
        | None => waiting rounds name
        end
  end.

Definition Released (rounds : nat) (name : string) : faking (option (option gerror)) :=
  let! err := reach_backend in
  match err with Some err => Ret (Some (Some err)) | None => waiting rounds name end.

Definition Renew (c : fakeHeld) : faking (option gerror) :=
  let! err := reach_backend in
  match err with
  | Some err => Ret (Some err)
  | None =>
      let! held := Do (DoRenew c) in
      Ret (if (held : bool) then None else Some (wrap_after ErrLost (": " +:+ h_name c)))
  end.

Definition Fence (c : fakeHeld) : faking (option gerror) :=
  let! err := reach_backend in
  match err with
  | Some err => Ret (Some err)
  | None =>
      let! held := Do (DoFence c) in
      Ret (if (held : bool) then None
           else Some (wrap_after ErrLost (": " +:+ h_name c +:+ " is no longer held by token " +:+ show_Z (h_token c))))
  end.

Definition Release (c : fakeHeld) : faking (option gerror) :=
  let! err := reach_backend in
  match err with
  | Some err => Ret (Some err)
  | None => let! _ := Do (DoRelease c) in Ret None
  end.

(** ** The world: the backend, and what it is seen to do *)

(** [w_origin]: its clock when it was made. *)
Record world := mkWorld { w_fake : fake; w_notes : list note; w_origin : Z }.
Definition noting (ns : list note) (f : fake) (w : world) : world := mkWorld f (w_notes w ++ ns) (w_origin w).

(** Clocks and durations under half of what an [int64] holds, a hundred and forty-six years, so
    that no sum of two of them wraps. *)
Definition ages : Z := 2 ^ 62.

(** Why a request is refused, read from what the ledger's verdict is about. *)
Definition why_of (req : AcquireRequest) (f : fake) : option reason :=
  match fst (liveLocked (a_Name req) f) with
  | Some live => Some (AlreadyHeld (f_holder live))
  | None =>
      match tick_verdict ((λ tick, (f_dueAt tick, f_by tick)) <$> ticks f !! a_Name req) req with
      | Some why => Some why
      | None => rate_verdict (taken_at (mono f) (slots_at (a_Name req) f)) req
      end
  end.

(** What a call may be answered.  The sections answer what they are; a host answers as it likes, but for
    a grant, which is shorter than [ages]. *)
Inductive served (who : nat) (w : world) : ∀ c : fake_cmd, fake_resp c → world → Prop :=
| served_switches x : served who w Switches x w
| served_done err : served who w CtxDone err w
| served_err err : served who w CtxErr err w
| served_grant asked granted : granted < ages → served who w (GrantOf asked) granted w
| served_seam name : served who w (RunSeam name) tt w
| served_hook x : served who w RateHook x w
| served_rate_seam name : served who w (RunRateSeam name) tt w
| served_watched name : served who w (Watched name) tt w
| served_await seen err : served who w (AwaitChange seen) err w
| served_look req :
    served who w (Look req) (fst (look req (w_fake w)))
      (noting (match why_of req (w_fake w) with Some why => [Refused req why] | None => [] end) (snd (look req (w_fake w))) w)
| served_commit req granted read :
    served who w (Commit req granted read) (fst (commit req granted read (w_fake w)))
      (noting (match fst (commit req granted read (w_fake w)) with Some token => [Took req token granted] | None => [] end)
         (snd (commit req granted read (w_fake w))) w)
| served_notice name :
    served who w (Notice name) (fst (notice name (w_fake w)))
      (noting (if fst (fst (notice name (w_fake w))) then [Seen name] else []) (snd (notice name (w_fake w))) w)
| served_renew c :
    served who w (DoRenew c) (fst (renew c (w_fake w)))
      (noting [if fst (renew c (w_fake w)) then Renewed (h_name c) (h_token c) else Lost (h_name c) (h_token c)] (snd (renew c (w_fake w))) w)
| served_fence c :
    served who w (DoFence c) (fst (fence c (w_fake w)))
      (noting [if fst (fence c (w_fake w)) then Passed (h_name c) (h_token c) else Lost (h_name c) (h_token c)] (snd (fence c (w_fake w))) w)
| served_release c :
    served who w (DoRelease c) (fst (release c (w_fake w)))
      (noting [if fst (release c (w_fake w)) then Freed (h_name c) (h_token c) else Lost (h_name c) (h_token c)] (snd (release c (w_fake w))) w).

(** One claim ended by a test, noted when it had not lapsed. *)
Definition expire_noted (token : Z) (w : world) (name : string) : world :=
  noting (match fst (liveLocked name (w_fake w)) with Some live => if f_token live =? token then [Freed name token] else [] | None => [] end)
    (expire_one token name (w_fake w)) w.

(** Of itself, the backend's clock moves on, the runtime's moves either way, and a test ends a claim. *)
Inductive outside (w : world) : world → Prop :=
| outside_clock d : 0 ≤ d → mono (w_fake w) + d < ages →
    outside w (noting [Elapsed d]
      (mkFake (mono (w_fake w) + d) (wall (w_fake w)) (revision (w_fake w)) (claims (w_fake w)) (ticks (w_fake w)) (slots (w_fake w)) (changed (w_fake w))) w)
| outside_wall at_ :
    outside w (noting []
      (mkFake (mono (w_fake w)) at_ (revision (w_fake w)) (claims (w_fake w)) (ticks (w_fake w)) (slots (w_fake w)) (changed (w_fake w))) w)
| outside_expire token : outside w (foldl (expire_noted token) w (sorted_keys (claims (w_fake w)))).

(** What a host's call came to; nothing of one that ran out of rounds. *)
Inductive outcome :=
| DidAcquire (req : AcquireRequest) (r : option (gerror + fakeHeld)) | DidWait (name : string) (r : option (option gerror))
| DidRenew (c : fakeHeld) (r : option gerror) | DidFence (c : fakeHeld) (r : option gerror) | DidRelease (c : fakeHeld) (r : option gerror).

Inductive operation : faking outcome → Prop :=
| op_acquire rounds seam req : (∀ limit, a_Rate req = Some limit → 0 ≤ l_Per limit < ages) →
    operation (let! r := Acquire rounds seam req in Ret (DidAcquire req r))
| op_wait rounds name : operation (let! r := Released rounds name in Ret (DidWait name r))
| op_renew c : operation (let! r := Renew c in Ret (DidRenew c r))
| op_fence c : operation (let! r := Fence c in Ret (DidFence c r))
| op_release c : operation (let! r := Release c in Ret (DidRelease c r)).

(** Any number of calls by any number of hosts, on a backend that began empty; a host may end in the
    middle of any. *)
Definition hosts : world → gmap nat (faking outcome) → Prop :=
  reach (Sg := fake_sig) served outside (λ _ w w', w' = w)
    (λ w, ∃ now at_, 0 ≤ now < ages ∧ w = mkWorld (NewFake now at_) [] now) operation.

(** ** The backend and the ledger *)

Definition hold_of (c : fakeClaim) : hold := mkHold (f_token c) (f_holder c) (f_granted c) (f_expires c).
Definition tick_of (t : fakeTick) : Z * Holder := (f_dueAt t, f_by t).
Definition live (f : fake) (name : string) : option hold := hold_of <$> fst (liveLocked name f).

(** The same clock and the same last token, the same ticks, and the same claims and slots among those
    that did not lapse. *)
Record agrees (f : fake) (l : ledger) : Prop := {
  ag_now : l_now l = mono f; ag_last : l_last l = revision f;
  ag_live : ∀ name, current l name = live f name;
  ag_ticks : ∀ name, l_ticks l !! name = tick_of <$> ticks f !! name;
  ag_slots : ∀ name, taken_at (l_now l) (slots_of l name) = taken_at (mono f) (slots_at name f) }.

Record sound (f : fake) : Prop := {
  so_now : 0 ≤ mono f < ages; so_revision : 0 ≤ revision f;
  so_claims : ∀ name c, claims f !! name = Some c → 0 ≤ f_granted c < ages;
  so_ticks : ∀ name t, ticks f !! name = Some t → 0 < f_revision t ≤ revision f }.

Definition Inv (w : world) : Prop :=
  sound (w_fake w) ∧ ∃ l, heeds (empty_ledger (w_origin w)) (w_notes w) = Some l ∧ agrees (w_fake w) l.

(** A name's tick is either the one read or of a later revision, and what was noted stays so. *)
Definition rely (_ : nat) (w w' : world) : Prop :=
  revision (w_fake w) ≤ revision (w_fake w') ∧ (∃ more, w_notes w' = w_notes w ++ more) ∧
  ∀ name, ticks (w_fake w') !! name = ticks (w_fake w) !! name ∨
          ∃ t, ticks (w_fake w') !! name = Some t ∧ revision (w_fake w) < f_revision t.

Lemma relies_refl who w : rely who w w.
Proof. unfold rely. split; [lia|]. split; [|by left]. exists []. by rewrite app_nil_r. Qed.
Lemma relies_trans who w1 w2 w3 : rely who w1 w2 → rely who w2 w3 → rely who w1 w3.
Proof.
  intros (R1 & [n1 N1] & T1) (R2 & [n2 N2] & T2). split_and!; [lia| |].
  - exists (n1 ++ n2). by rewrite N2, N1, app_assoc.
  - intros name. destruct (T2 name) as [->|(t & Ht & Hr)]; [|right; exists t; split; [done|lia]].
    destruct (T1 name) as [->|(t & Ht & Hr)]; [by left|right; exists t; by split].
Qed.
#[local] Hint Resolve relies_refl : core.

(** *** Sections *)

Lemma liveLocked_cases name f :
  (∃ c, claims f !! name = Some c ∧ mono f < f_expires c ∧ liveLocked name f = (Some c, f)) ∨
  (claims f !! name = None ∧ liveLocked name f = (None, f)) ∨
  (∃ c, claims f !! name = Some c ∧ f_expires c ≤ mono f ∧ liveLocked name f = (None, notifyLocked (with_claims (delete name (claims f)) f))).
Proof.
  unfold liveLocked. destruct (claims f !! name) as [c|]; [|by right; left].
  destruct (mono f <? f_expires c) eqn:E; [left|right; right]; exists c; (split; [done|split; [lia|done]]).
Qed.

Lemma live_eq f name : live f name =
  match claims f !! name with Some c => if mono f <? f_expires c then Some (hold_of c) else None | None => None end.
Proof.
  unfold live. destruct (liveLocked_cases name f) as [(c & -> & H & ->)|[[-> ->]|(c & -> & H & ->)]]; cbn [fst fmap option_fmap option_map]; [|done|].
  - by destruct (mono f <? f_expires c) eqn:E; [|lia].
  - by destruct (mono f <? f_expires c) eqn:E; [lia|].
Qed.

Lemma liveLocked_some name f c : fst (liveLocked name f) = Some c → claims f !! name = Some c ∧ mono f < f_expires c.
Proof. destruct (liveLocked_cases name f) as [(c' & ? & ? & ->)|[[? ->]|(c' & ? & ? & ->)]]; cbn [fst]; [|done..]. by intros [= <-]. Qed.

(** The backend changed in nothing a ledger knows, or a thread relies on. *)
Record alike (f f' : fake) : Prop := {
  al_mono : mono f' = mono f; al_revision : revision f' = revision f; al_ticks : ticks f' = ticks f;
  al_live : ∀ name, live f' name = live f name; al_claims : ∀ name c, claims f' !! name = Some c → claims f !! name = Some c;
  al_slots : ∀ name, taken_at (mono f') (slots_at name f') = taken_at (mono f) (slots_at name f) }.

Lemma alike_refl f : alike f f.
Proof. by split. Qed.
Lemma alike_trans f1 f2 f3 : alike f1 f2 → alike f2 f3 → alike f1 f3.
Proof. intros [M1 R1 T1 L1 C1 S1] [M2 R2 T2 L2 C2 S2]. split; [congruence..| | |]; intros; [by rewrite L2|by apply C1, C2|by rewrite S2]. Qed.

Lemma liveLocked_alike name f : alike f (snd (liveLocked name f)).
Proof.
  destruct (liveLocked_cases name f) as [(c & ? & ? & ->)|[[? ->]|(c & Hc & Hle & ->)]]; cbn [snd]; [apply alike_refl..|].
  split; try done.
  - intros other. rewrite !live_eq. cbn. destruct (decide (name = other)) as [<-|Hne]; [|by rewrite lookup_delete_ne].
    rewrite lookup_delete_eq, Hc. by destruct (mono f <? f_expires c) eqn:E; [lia|].
  - intros other c'. cbn. by intros [_ H]%lookup_delete_Some.
Qed.

Lemma taken_at_idem now slots : taken_at now (taken_at now slots) = taken_at now slots.
Proof. unfold taken_at. induction slots as [|s l IH]; [done|]. cbn [List.filter]. destruct (now <? s) eqn:E; [|done]. cbn [List.filter]. by rewrite E, IH. Qed.

Lemma slots_at_pruned name f : slots_at name (pruneSlotsLocked name f) = taken_at (mono f) (slots_at name f).
Proof. unfold pruneSlotsLocked, slots_at at 1, with_slots. cbn. by rewrite lookup_insert_eq. Qed.

Lemma prune_alike name f : alike f (pruneSlotsLocked name f).
Proof.
  split; try done; intros other; [by rewrite !live_eq|]. destruct (decide (name = other)) as [<-|Hne].
  - rewrite slots_at_pruned. apply taken_at_idem.
  - unfold pruneSlotsLocked, slots_at, with_slots. cbn [slots mono]. by rewrite lookup_insert_ne.
Qed.

Lemma rateFull_alike name limit f : alike f (snd (rateFullLocked name limit f)).
Proof. apply prune_alike. Qed.
Lemma rateFull_says name limit f : fst (rateFullLocked name limit f) = (l_Runs limit <=? Z.of_nat (length (taken_at (mono f) (slots_at name f)))).
Proof. unfold rateFullLocked. cbn [fst]. by rewrite slots_at_pruned. Qed.

Lemma agrees_alike f f' l : agrees f l → alike f f' → agrees f' l.
Proof. intros [N La Li T S] [Am Ar At Al Ac As]. split; [congruence|congruence|intros; by rewrite Al|by rewrite At|intros; by rewrite As]. Qed.
Lemma sound_alike f f' : sound f → alike f f' → sound f'.
Proof. intros [N R C T] [Am Ar At Al Ac As]. split; [by rewrite Am|by rewrite Ar|intros ???; eapply C; by apply Ac|intros ??; rewrite At, Ar; apply T]. Qed.

(** *** Reading *)

Lemma why_is_verdict req f l : agrees f l → why_of req f = verdict l req.
Proof.
  intros [N La Li T S]. unfold why_of, verdict. specialize (Li (a_Name req)). rewrite Li. unfold live.
  destruct (fst (liveLocked (a_Name req) f)) as [c|]; cbn; [done|]. rewrite T, S. by destruct (ticks f !! a_Name req).
Qed.

Lemma decide_says l tick req : decide_ l tick req =
  match l with Some c => Some (HeldBy (f_holder c)) | None => reason_error <$> tick_verdict (tick_of <$> tick) req end.
Proof. unfold decide_, tick_verdict, scheduled. destruct l; [done|]. destruct tick as [t|]; [|done]. cbn. by destruct (_ && _). Qed.

Lemma look_says req f : fst (look req f) = (reason_error <$> why_of req f, ticks f !! a_Name req) ∧ alike f (snd (look req f)).
Proof.
  unfold look, why_of. pose proof (liveLocked_alike (a_Name req) f) as Ha. destruct (liveLocked (a_Name req) f) as [c f1]. cbn [fst snd] in *.
  rewrite decide_says. destruct c as [c|]; [by split|]. change (λ tick, (f_dueAt tick, f_by tick)) with tick_of.
  destruct (tick_verdict _ req) as [why|]; cbn [fmap option_fmap option_map]; [by split|]. unfold rate_verdict.
  destruct (a_Rate req) as [limit|]; [|by split]. pose proof (rateFull_says (a_Name req) limit f1) as Hs. pose proof (rateFull_alike (a_Name req) limit f1) as Hr.
  destruct (rateFullLocked (a_Name req) limit f1) as [full f2]. cbn [fst snd] in *. rewrite (al_slots _ _ Ha) in Hs. rewrite Hs.
  split; [by destruct (_ <=? _)|by eapply alike_trans].
Qed.

Lemma notice_says name f : fst (fst (notice name f)) = match live f name with Some _ => false | None => true end ∧ alike f (snd (notice name f)).
Proof.
  unfold notice, live. pose proof (liveLocked_alike name f) as Ha. destruct (liveLocked name f) as [c f1]. cbn [fst snd] in *. split; [by destruct c|done].
Qed.

Lemma currentLocked_says c f l : agrees f l → held_as l (h_name c) (h_token c) = hold_of <$> fst (currentLocked c f) ∧ alike f (snd (currentLocked c f)) ∧
  (∀ claim, fst (currentLocked c f) = Some claim → snd (currentLocked c f) = f ∧ claims f !! h_name c = Some claim ∧ mono f < f_expires claim).
Proof.
  intros [_ _ Li _ _]. unfold held_as. rewrite Li, live_eq. unfold currentLocked. pose proof (liveLocked_alike (h_name c) f) as Ha.
  destruct (liveLocked_cases (h_name c) f) as [(c' & Hc & H & E)|[[Hc E]|(c' & Hc & H & E)]]; rewrite E in Ha |- *; rewrite Hc; cbn [fst snd] in *.
  - destruct (mono f <? f_expires c') eqn:E1; [|lia]. cbn. destruct (f_token c' =? h_token c); cbn; split_and!; try done. by intros claim [= <-].
  - by split_and!.
  - destruct (mono f <? f_expires c') eqn:E1; [lia|]. by split_and!.
Qed.

(** *** Writing *)

Lemma live_insert f name c : live (with_claims (<[name := c]> (claims f)) f) name = if mono f <? f_expires c then Some (hold_of c) else None.
Proof. rewrite live_eq. cbn. by rewrite lookup_insert_eq. Qed.
Lemma live_insert_ne f name other c : name ≠ other → live (with_claims (<[name := c]> (claims f)) f) other = live f other.
Proof. intros Hne. rewrite !live_eq. cbn. by rewrite lookup_insert_ne. Qed.
Lemma live_delete f name : live (with_claims (delete name (claims f)) f) name = None.
Proof. rewrite live_eq. cbn. by rewrite lookup_delete_eq. Qed.
Lemma live_delete_ne f name other : name ≠ other → live (with_claims (delete name (claims f)) f) other = live f other.
Proof. intros Hne. rewrite !live_eq. cbn. by rewrite lookup_delete_ne. Qed.

Lemma current_with_holds l g name : current (with_holds g l) name =
  match g (l_holds l) !! name with Some c => if l_now l <? c_expires c then Some c else None | None => None end.
Proof. done. Qed.

Lemma no_wrap a b : 0 ≤ a < ages → 0 ≤ b < ages → instant_add a b = a + b.
Proof. intros Ha Hb. unfold instant_add, dur_add. apply i64_id. unfold in_i64, i64_min, i64_max, ages in *. lia. Qed.

Lemma notify_alike f : alike f (notifyLocked f).
Proof. split; try done. intros other. by rewrite !live_eq. Qed.

Lemma agrees_deleted f l name : agrees f l → agrees (with_claims (delete name (claims f)) f) (with_holds (delete name) l).
Proof.
  intros [N La Li T S]. split; [done|done| |done|done]. intros other. rewrite current_with_holds.
  destruct (decide (name = other)) as [<-|Hne].
  - by rewrite lookup_delete_eq, live_delete.
  - rewrite lookup_delete_ne, live_delete_ne by done. apply Li.
Qed.

Lemma sound_deleted f name : sound f → sound (with_claims (delete name (claims f)) f).
Proof. intros [N R C T]. split; [done|done| |done]. intros other c. cbn. intros [_ H]%lookup_delete_Some. by eapply C. Qed.

(** A claim taken with its slot and its tick: what [commit] writes, once it decided. *)
Definition taken (req : AcquireRequest) (granted : Z) (f : fake) : fake :=
  let name := a_Name req in
  let token := revision f + 1 in
  let claim := mkFakeClaim token (a_Holder req) (wall f) granted (instant_add (mono f) granted) in
  let f := mkFake (mono f) (wall f) token (<[name := claim]> (claims f)) (ticks f) (slots f) (changed f) in
  let f := match a_Rate req with Some limit => takeRateSlotLocked name limit f | None => f end in
  if scheduled req
  then mkFake (mono f) (wall f) (revision f) (claims f)
         (<[name := mkFakeTick (t_DueAt (a_Trigger req)) (a_Holder req) token]> (ticks f)) (slots f) (changed f)
  else f.

Lemma taken_fields req granted f : let f' := taken req granted f in
  mono f' = mono f ∧ revision f' = revision f + 1 ∧
  claims f' = <[a_Name req := mkFakeClaim (revision f + 1) (a_Holder req) (wall f) granted (instant_add (mono f) granted)]> (claims f) ∧
  ticks f' = (if scheduled req then <[a_Name req := mkFakeTick (t_DueAt (a_Trigger req)) (a_Holder req) (revision f + 1)]> (ticks f) else ticks f) ∧
  slots f' = (match a_Rate req with
              | Some limit => <[a_Name req := slots_at (a_Name req) f ++ [instant_add (mono f) (l_Per limit)]]> (slots f) | None => slots f end).
Proof. unfold taken, takeRateSlotLocked. by destruct (a_Rate req), (scheduled req). Qed.

Definition reasonable (req : AcquireRequest) : Prop := ∀ limit, a_Rate req = Some limit → 0 ≤ l_Per limit < ages.

Lemma agrees_taken req granted f l : agrees f l → sound f → reasonable req → 0 ≤ granted < ages →
  agrees (taken req granted f) (granted_to req (revision f + 1) granted l).
Proof.
  intros [N La Li T S] [Hn _ _ _] Hr Hg. destruct (taken_fields req granted f) as (Fm & Fr & Fc & Ft & Fs). split.
  - by rewrite Fm.
  - by rewrite Fr.
  - intros other. rewrite live_eq, Fc, Fm. unfold current, granted_to. cbn. destruct (decide (a_Name req = other)) as [<-|Hne].
    + rewrite !lookup_insert_eq. cbn. by rewrite no_wrap, N.
    + rewrite !lookup_insert_ne by done. pose proof (Li other) as H. by rewrite live_eq in H.
  - intros other. rewrite Ft. unfold granted_to. cbn. destruct (scheduled req); [|apply T].
    destruct (decide (a_Name req = other)) as [<-|Hne]; [by rewrite !lookup_insert_eq|by rewrite !lookup_insert_ne by done].
  - intros other. rewrite Fm. unfold slots_at. rewrite Fs. unfold granted_to, slots_of. cbn. specialize (S other) as So.
    destruct (a_Rate req) as [limit|] eqn:E; [|exact So].
    destruct (decide (a_Name req = other)) as [<-|Hne]; [|by rewrite !lookup_insert_ne by done].
    rewrite !lookup_insert_eq. cbn. unfold taken_at in *. rewrite !List.filter_app. unfold slots_of, slots_at in So. rewrite So.
    by rewrite no_wrap, N by (done || by apply Hr).
Qed.

Lemma sound_taken req granted f : sound f → 0 ≤ granted < ages → sound (taken req granted f).
Proof.
  intros [N R C T] Hg. destruct (taken_fields req granted f) as (Fm & Fr & Fc & Ft & Fs). split.
  - by rewrite Fm.
  - rewrite Fr. lia.
  - intros name c. rewrite Fc. intros [[<- <-]|[_ H]]%lookup_insert_Some; [done|by eapply C].
  - intros name t. rewrite Ft, Fr. assert (∀ name t, ticks f !! name = Some t → 0 < f_revision t ≤ revision f + 1) as HT by (intros ?? H; specialize (T _ _ H); lia).
    destruct (scheduled req); [|by apply HT]. intros [[<- <-]|[_ H]]%lookup_insert_Some; [|by eapply HT]. cbn. lia.
Qed.

Lemma commit_cases req granted read f :
  (fst (commit req granted read f) = None ∧ alike f (snd (commit req granted read f))) ∨
  ∃ f2, alike f f2 ∧ live f (a_Name req) = None ∧
    (scheduled req = true → revision_of (ticks f !! a_Name req) = revision_of read) ∧
    rate_verdict (taken_at (mono f) (slots_at (a_Name req) f)) req = None ∧
    commit req granted read f = (Some (revision f + 1), notifyLocked (taken req granted f2)).
Proof.
  unfold commit, live. change (String.eqb (t_Kind (a_Trigger req)) KindSchedule) with (scheduled req).
  pose proof (liveLocked_alike (a_Name req) f) as Ha. destruct (liveLocked (a_Name req) f) as [[c|] f1]; cbn [fst snd] in *; [by left|].
  destruct (scheduled req && _) eqn:Hs; [by left|].
  assert (scheduled req = true → revision_of (ticks f !! a_Name req) = revision_of read) as Hr.
  { intros E. rewrite E in Hs. cbn in Hs. apply negb_false_iff, Z.eqb_eq in Hs. done. }
  unfold rate_verdict. destruct (a_Rate req) as [limit|] eqn:El.
  - pose proof (rateFull_says (a_Name req) limit f1) as Hf. pose proof (rateFull_alike (a_Name req) limit f1) as Hfa.
    destruct (rateFullLocked (a_Name req) limit f1) as [full f2]. cbn [fst snd] in *. rewrite (al_slots _ _ Ha) in Hf. rewrite <- Hf.
    pose proof (alike_trans _ _ _ Ha Hfa) as Ha2. destruct full; [by left|]. right. exists f2. split_and!; try done.
    unfold taken. rewrite El, <- (al_revision _ _ Ha2). by destruct (scheduled req).
  - right. exists f1. split_and!; try done. unfold taken. rewrite El, <- (al_revision _ _ Ha). by destruct (scheduled req).
Qed.

(** What a thread knows when it commits: the request is one to act on, the grant long enough, and the
    tick it read, which is the recorded one or came before it, lets it run. *)
Definition may_commit (req : AcquireRequest) (granted : Z) (read : option fakeTick) (f : fake) : Prop :=
  AcquireRequest_Check req = None ∧ reasonable req ∧ 0 ≤ granted < ages ∧ a_Expiry req ≤ granted ∧
  tick_verdict (tick_of <$> read) req = None ∧
  (ticks f !! a_Name req = read ∨ ∃ t, ticks f !! a_Name req = Some t ∧ revision_of read < f_revision t).

Lemma commit_heeds req granted read f l token : sound f → agrees f l → may_commit req granted read f →
  fst (commit req granted read f) = Some token →
  ∃ l', heed l (Took req token granted) = Some l' ∧ agrees (snd (commit req granted read f)) l' ∧ sound (snd (commit req granted read f)).
Proof.
  intros Hs Ha (Hcheck & Hper & Hg & He & Ht & Hread) Hc.
  destruct (commit_cases req granted read f) as [[H _]|(f2 & Hf2 & Hlive & Hrev & Hrate & E)]; [congruence|].
  rewrite E in Hc |- *. cbn [fst snd] in *. simplify_eq. pose proof (agrees_alike _ _ _ Ha Hf2) as Ha2.
  exists (granted_to req (revision f + 1) granted l). split_and!.
  - cbn [heed]. rewrite decide_True; [done|]. split_and!; [done| |rewrite (ag_last _ _ Ha); lia|done].
    unfold verdict. rewrite (ag_live _ _ Ha), Hlive, (ag_ticks _ _ Ha), (ag_slots _ _ Ha), Hrate.
    assert (tick_verdict (tick_of <$> ticks f !! a_Name req) req = None) as ->; [|done].
    destruct (scheduled req) eqn:Hsch; [|unfold tick_verdict; rewrite Hsch; by destruct (ticks f !! a_Name req)].
    destruct Hread as [->|(t & Ht' & Hlt)]; [done|]. specialize (Hrev eq_refl). rewrite Ht' in Hrev. cbn in Hrev. lia.
  - eapply agrees_alike; [|apply notify_alike]. rewrite <- (al_revision _ _ Hf2). apply agrees_taken; try done. by eapply sound_alike.
  - eapply sound_alike; [|apply notify_alike]. apply sound_taken; [by eapply sound_alike|done].
Qed.

Lemma renew_heeds c f l : sound f → agrees f l →
  ∃ l', heed l (if fst (renew c f) then Renewed (h_name c) (h_token c) else Lost (h_name c) (h_token c)) = Some l' ∧
    agrees (snd (renew c f)) l' ∧ sound (snd (renew c f)).
Proof.
  intros Hs Ha. destruct (currentLocked_says c f l Ha) as (Hh & Hal & Hsome). unfold renew. destruct (currentLocked c f) as [[claim|] f']; cbn [fst snd fmap option_fmap option_map] in *.
  - destruct (Hsome claim eq_refl) as (-> & Hc & Hlt). cbn [heed]. rewrite Hh. cbn. eexists. split; [done|]. pose proof Ha as [N La Li T S].
    pose proof (so_claims _ Hs _ _ Hc) as Hg. split.
    + split; [done|done| |done|done]. intros other. rewrite current_with_holds. destruct (decide (h_name c = other)) as [<-|Hne].
      * rewrite lookup_insert_eq, live_insert, N. unfold renewed. cbn. rewrite N, no_wrap by (done || by apply Hs). done.
      * rewrite lookup_insert_ne, live_insert_ne by done. apply Li.
    + destruct Hs as [Hn Hr Hcl Ht]. split; [done|done| |done]. intros name c'. cbn. intros [[<- <-]|[_ H]]%lookup_insert_Some; [done|by eapply Hcl].
  - cbn [heed]. rewrite Hh. exists l. split_and!; [done|by eapply agrees_alike|by eapply sound_alike].
Qed.

Lemma fence_heeds c f l : sound f → agrees f l →
  ∃ l', heed l (if fst (fence c f) then Passed (h_name c) (h_token c) else Lost (h_name c) (h_token c)) = Some l' ∧
    agrees (snd (fence c f)) l' ∧ sound (snd (fence c f)).
Proof.
  intros Hs Ha. destruct (currentLocked_says c f l Ha) as (Hh & Hal & _). unfold fence. destruct (currentLocked c f) as [[claim|] f']; cbn [fst snd fmap option_fmap option_map] in *;
    cbn [heed]; rewrite Hh; cbn; exists l; (split_and!; [done|by eapply agrees_alike|by eapply sound_alike]).
Qed.

Lemma release_heeds c f l : sound f → agrees f l →
  ∃ l', heed l (if fst (release c f) then Freed (h_name c) (h_token c) else Lost (h_name c) (h_token c)) = Some l' ∧
    agrees (snd (release c f)) l' ∧ sound (snd (release c f)).
Proof.
  intros Hs Ha. destruct (currentLocked_says c f l Ha) as (Hh & Hal & Hsome). unfold release. destruct (currentLocked c f) as [[claim|] f']; cbn [fst snd fmap option_fmap option_map] in *.
  - destruct (Hsome claim eq_refl) as (-> & Hc & Hlt). cbn [heed]. rewrite Hh. cbn. eexists. split; [done|]. split.
    + eapply agrees_alike; [by apply agrees_deleted|apply notify_alike].
    + eapply sound_alike; [by apply sound_deleted|apply notify_alike].
  - cbn [heed]. rewrite Hh. exists l. split_and!; [done|by eapply agrees_alike|by eapply sound_alike].
Qed.

(** *** Steps *)

Lemma Inv_noting ns f' w l' : sound f' → (∀ l, heeds (empty_ledger (w_origin w)) (w_notes w) = Some l → agrees (w_fake w) l → heeds l ns = Some (l' l) ∧ agrees f' (l' l)) →
  Inv w → Inv (noting ns f' w).
Proof.
  intros Hs Hh (_ & l & Hl & Ha). split; [done|]. destruct (Hh l Hl Ha) as [Hn Ha']. exists (l' l). split; [|done].
  unfold noting. cbn. by rewrite heeds_app, Hl.
Qed.

(** One note taken, whatever ledger agrees with the backend. *)
Lemma Inv_note n f' w : (∀ l, agrees (w_fake w) l → ∃ l', heed l n = Some l' ∧ agrees f' l' ∧ sound f') → Inv w → Inv (noting [n] f' w).
Proof.
  intros Hh (_ & l & Hl & Ha). destruct (Hh l Ha) as (l' & Hn & Ha' & Hs'). split; [done|]. exists l'. split; [|done].
  unfold noting. cbn. rewrite heeds_snoc. eauto.
Qed.
Lemma Inv_quiet f' w : alike (w_fake w) f' → Inv w → Inv (noting [] f' w).
Proof.
  intros Hal (Hs & l & Hl & Ha). split; [by eapply sound_alike|]. exists l. unfold noting. cbn. rewrite app_nil_r. split; [done|by eapply agrees_alike].
Qed.

Lemma rely_noting who ns f' w : revision (w_fake w) ≤ revision f' → ticks f' = ticks (w_fake w) → rely who w (noting ns f' w).
Proof. intros Hr Ht. split; [done|]. split; [by exists ns|]. intros name. left. cbn. by rewrite Ht. Qed.
Lemma rely_alike who ns f' w : alike (w_fake w) f' → rely who w (noting ns f' w).
Proof. intros [_ Hr Ht _ _ _]. apply rely_noting; [lia|done]. Qed.

Lemma renew_keeps_ticks c f : revision (snd (renew c f)) = revision f ∧ ticks (snd (renew c f)) = ticks f.
Proof.
  unfold renew, currentLocked. pose proof (liveLocked_alike (h_name c) f) as [_ Hr Ht _ _ _].
  destruct (liveLocked (h_name c) f) as [[claim|] f']; cbn [snd] in *; [|done]. by destruct (_ =? _).
Qed.
Lemma fence_keeps_ticks c f : revision (snd (fence c f)) = revision f ∧ ticks (snd (fence c f)) = ticks f.
Proof.
  unfold fence, currentLocked. pose proof (liveLocked_alike (h_name c) f) as [_ Hr Ht _ _ _].
  destruct (liveLocked (h_name c) f) as [[claim|] f']; cbn [snd] in *; [|done]. by destruct (_ =? _).
Qed.
Lemma release_keeps_ticks c f : revision (snd (release c f)) = revision f ∧ ticks (snd (release c f)) = ticks f.
Proof.
  unfold release, currentLocked. pose proof (liveLocked_alike (h_name c) f) as [_ Hr Ht _ _ _].
  destruct (liveLocked (h_name c) f) as [[claim|] f']; cbn [snd] in *; [|done]. by destruct (_ =? _).
Qed.

Lemma commit_rely who req granted read w : rely who w (noting (match fst (commit req granted read (w_fake w)) with Some token => [Took req token granted] | None => [] end)
  (snd (commit req granted read (w_fake w))) w).
Proof.
  destruct (commit_cases req granted read (w_fake w)) as [[_ Hal]|(f2 & [_ Hr Ht _ _ _] & _ & _ & _ & E)]; [by apply rely_alike|]. rewrite E. cbn [fst snd].
  destruct (taken_fields req granted f2) as (_ & Fr & _ & Ft & _).
  unfold rely, noting. cbn [w_fake w_notes notifyLocked revision ticks]. rewrite Fr, Ft, Hr, Ht. split; [lia|]. split; [by eexists|].
  intros name. destruct (scheduled req); [|by left]. destruct (decide (a_Name req = name)) as [<-|Hne]; [|left; by rewrite lookup_insert_ne].
  right. rewrite lookup_insert_eq. eexists. split; [done|]. cbn. lia.
Qed.

(** A call keeps the world, and what the others rely on. *)
Lemma served_keeps who c w x w' : served who w c x w' → Inv w →
  (∀ req granted read, c = Commit req granted read → may_commit req granted read (w_fake w)) → Inv w' ∧ ∀ other, rely other w w'.
Proof.
  intros Hs Hi Hmay. pose proof Hi as (Hso & _ & _ & _). destruct Hs; try (by split).
  - destruct (look_says req (w_fake w)) as [_ Hal]. split; [|intros; by apply rely_alike].
    destruct (why_of req (w_fake w)) as [why|] eqn:E; [|by apply Inv_quiet]. apply Inv_note; [|done]. intros l Ha. exists l. split_and!; [|by eapply agrees_alike|by eapply sound_alike].
    cbn [heed]. rewrite decide_True; [done|]. by rewrite <- (why_is_verdict _ _ _ Ha).
  - split; [|intros; apply commit_rely]. specialize (Hmay _ _ _ eq_refl). destruct (fst (commit req granted read (w_fake w))) as [token|] eqn:E.
    + apply Inv_note; [|done]. intros l Ha. by apply commit_heeds.
    + destruct (commit_cases req granted read (w_fake w)) as [[_ Hal]|(f2 & _ & _ & _ & _ & E2)]; [by apply Inv_quiet|by rewrite E2 in E].
  - destruct (notice_says name (w_fake w)) as [Hf Hal]. split; [|intros; by apply rely_alike]. rewrite Hf.
    destruct (live (w_fake w) name) eqn:E; [by apply Inv_quiet|]. apply Inv_note; [|done]. intros l Ha. exists l. split_and!; [|by eapply agrees_alike|by eapply sound_alike].
    cbn [heed]. by rewrite (ag_live _ _ Ha), E.
  - destruct (renew_keeps_ticks c (w_fake w)) as [Hr Ht]. split; [|intros; apply rely_noting; [lia|done]]. apply Inv_note; [|done]. intros l Ha. by apply renew_heeds.
  - destruct (fence_keeps_ticks c (w_fake w)) as [Hr Ht]. split; [|intros; apply rely_noting; [lia|done]]. apply Inv_note; [|done]. intros l Ha. by apply fence_heeds.
  - destruct (release_keeps_ticks c (w_fake w)) as [Hr Ht]. split; [|intros; apply rely_noting; [lia|done]]. apply Inv_note; [|done]. intros l Ha. by apply release_heeds.
Qed.

(** What lapsed stays lapsed. *)
Definition unexpired (now : Z) (x : option hold) : option hold := match x with Some c => if now <? c_expires c then Some c else None | None => None end.
Lemma unexpired_later now now' x : now ≤ now' → unexpired now' (unexpired now x) = unexpired now' x.
Proof.
  intros Hle. destruct x as [c|]; [|done]. unfold unexpired. destruct (now <? c_expires c) eqn:E; [done|].
  destruct (now' <? c_expires c) eqn:E'; [lia|done].
Qed.
Lemma live_unexpired f name : live f name = unexpired (mono f) (hold_of <$> claims f !! name).
Proof. rewrite live_eq. by destruct (claims f !! name). Qed.
Lemma taken_at_twice now now' slots : now ≤ now' → taken_at now' (taken_at now slots) = taken_at now' slots.
Proof.
  intros Hle. unfold taken_at. induction slots as [|s l IH]; [done|]. cbn [List.filter].
  destruct (now <? s) eqn:E; cbn [List.filter]; destruct (now' <? s) eqn:E'; try lia; by rewrite IH.
Qed.

(** What happens of itself does too. *)
Lemma expire_keeps token name w : Inv w → Inv (expire_noted token w name) ∧ ∀ who, rely who w (expire_noted token w name).
Proof.
  intros Hi. unfold expire_noted, expire_one. split.
  2: { intros who. apply rely_noting; destruct (claims (w_fake w) !! name) as [c|]; try done; destruct (_ =? _); done. }
  pose proof Hi as (Hs & _ & _ & _).
  destruct (liveLocked_cases name (w_fake w)) as [(c & Hc & Hlt & ->)|[[Hc ->]|(c & Hc & Hle & ->)]]; cbn [fst]; rewrite Hc; [|by apply Inv_quiet, Hi|].
  - destruct (f_token c =? token) eqn:E; [|apply Inv_quiet; [apply alike_refl|done]]. apply Z.eqb_eq in E as <-. apply Inv_note; [|done]. intros l Ha.
    exists (with_holds (delete name) l). split_and!.
    + cbn [heed]. unfold held_as. rewrite (ag_live _ _ Ha), live_eq, Hc. destruct (_ <? _) eqn:E; [|lia]. cbn. by rewrite Z.eqb_refl.
    + eapply agrees_alike; [by apply agrees_deleted|apply notify_alike].
    + eapply sound_alike; [by apply sound_deleted|apply notify_alike].
  - apply Inv_quiet; [|done]. destruct (f_token c =? token); [|apply alike_refl].
    pose proof (liveLocked_alike name (w_fake w)) as H. unfold liveLocked in H. rewrite Hc in H. destruct (mono (w_fake w) <? f_expires c) eqn:E; [lia|exact H].
Qed.

Lemma outside_keeps w w' : Inv w → outside w w' → Inv w' ∧ ∀ who, rely who w w'.
Proof.
  intros Hi Ho. destruct Ho as [d Hd Hb|at_|token].
  - split; [|intros; by apply rely_noting]. apply Inv_note; [|done]. intros l [N La Li T S]. cbn [heed]. destruct (0 <=? d) eqn:E; [|lia]. eexists. split; [done|].
    pose proof Hi as ([Hn Hr Hc Ht] & _). split.
    + split; cbn; [lia|done| |done|].
      * intros name. specialize (Li name). rewrite live_unexpired in Li |- *. change (unexpired (l_now l + d) (l_holds l !! name) = unexpired (mono (w_fake w) + d) (hold_of <$> claims (w_fake w) !! name)).
        rewrite <- (unexpired_later (l_now l)), <- (unexpired_later (mono (w_fake w)) (mono (w_fake w) + d)) by lia.
        change (current l name) with (unexpired (l_now l) (l_holds l !! name)) in Li. by rewrite Li, N.
      * intros name. specialize (S name). change (slots_of _ name) with (slots_of l name). change (slots_at name _) with (slots_at name (w_fake w)).
        rewrite <- (taken_at_twice (l_now l)), S, N by lia. by rewrite taken_at_twice by lia.
    + split; cbn; [lia|done..].
  - split; [|intros; by apply rely_noting]. apply Inv_quiet; [|done]. split; try done. intros name. by rewrite !live_eq.
  - clear -Hi. generalize (sorted_keys (claims (w_fake w))). intros names. revert w Hi. induction names as [|name names IH]; intros w Hi; [by split|].
    cbn [foldl]. destruct (expire_keeps token name w Hi) as [H1 H2]. destruct (IH _ H1) as [H3 H4]. split; [done|].
    intros who. by eapply relies_trans.
Qed.

(** *** Threads *)

Abbreviation keeps who Q p w := (guarded (Sg := fake_sig) served rely Inv who Q p w).

Definition noted (w : world) (n : note) : Prop := n ∈ w_notes w.
Lemma noted_rely who w w' n : rely who w w' → noted w n → noted w' n.
Proof. intros (_ & [more Hm] & _) Hn. unfold noted. rewrite Hm. apply elem_of_app. by left. Qed.
Lemma noted_last n f w : noted (noting [n] f w) n.
Proof. unfold noted, noting. cbn. apply elem_of_app. right. by left. Qed.

Lemma calls_keep who {B} (Q : B → world → Prop) c (k : fake_resp c → faking B) w :
  (∀ w1, rely who w w1 → ∀ req granted read, c = Commit req granted read → may_commit req granted read (w_fake w1)) →
  (∀ w1 x w2, rely who w w1 → Inv w1 → served who w1 c x w2 → keeps who Q (k x) w2) → keeps who Q (bind (Do c) k) w.
Proof.
  intros Hmay Hk w1 x w2 Hr Hi Hs. destruct (served_keeps who c w1 x w2 Hs Hi (Hmay w1 Hr)) as [Hi' Ho].
  split; [exact Hi'|]. split; [intros; apply Ho|by eapply Hk].
Qed.

Lemma section_says who w c x w' : served who w c x w' →
  match c return fake_resp c → Prop with
  | Look req => λ x, x = fst (look req (w_fake w)) ∧
      w' = noting (match why_of req (w_fake w) with Some why => [Refused req why] | None => [] end) (snd (look req (w_fake w))) w
  | Commit req granted read => λ x, x = fst (commit req granted read (w_fake w)) ∧
      w' = noting (match fst (commit req granted read (w_fake w)) with Some token => [Took req token granted] | None => [] end)
             (snd (commit req granted read (w_fake w))) w
  | Notice name => λ x, x = fst (notice name (w_fake w)) ∧
      w' = noting (if fst (fst (notice name (w_fake w))) then [Seen name] else []) (snd (notice name (w_fake w))) w
  | DoRenew c => λ x, x = fst (renew c (w_fake w)) ∧
      w' = noting [if fst (renew c (w_fake w)) then Renewed (h_name c) (h_token c) else Lost (h_name c) (h_token c)] (snd (renew c (w_fake w))) w
  | DoFence c => λ x, x = fst (fence c (w_fake w)) ∧
      w' = noting [if fst (fence c (w_fake w)) then Passed (h_name c) (h_token c) else Lost (h_name c) (h_token c)] (snd (fence c (w_fake w))) w
  | DoRelease c => λ x, x = fst (release c (w_fake w)) ∧
      w' = noting [if fst (release c (w_fake w)) then Freed (h_name c) (h_token c) else Lost (h_name c) (h_token c)] (snd (release c (w_fake w))) w
  | GrantOf _ => λ granted, granted < ages ∧ w' = w
  | _ => λ _, w' = w
  end x.
Proof. by destruct 1. Qed.

(** What is answered by the host alone leaves everything as it was. *)
Definition hosts_own (c : fake_cmd) : Prop :=
  match c with Switches | CtxDone | CtxErr | GrantOf _ | RunSeam _ | RateHook | RunRateSeam _ | Watched _ | AwaitChange _ => True | _ => False end.
Lemma keeps_own who {B} (Q : B → world → Prop) c (k : fake_resp c → faking B) w : hosts_own c →
  (∀ x w', rely who w w' → served who w' c x w' → keeps who Q (k x) w') → keeps who Q (bind (Do c) k) w.
Proof.
  intros Hc Hk. apply calls_keep; [by intros ? _ ??? ->|]. intros w1 x w2 Hr _ Hs.
  assert (w2 = w1) as -> by (destruct Hs; done). by apply Hk.
Qed.

Lemma unavailable_is err : errors_is (unavailable err) ErrUnavailable = true.
Proof. done. Qed.

Definition out_of_reach (err : option gerror) : Prop := ∀ e, err = Some e → errors_is e ErrUnavailable = true.
Lemma reach_keeps who w : keeps who (λ err w', out_of_reach err ∧ rely who w w') reach_backend w.
Proof.
  unfold reach_backend. apply keeps_own; [done|]. intros [held severed] w1 H1 _. destruct severed; [split; [by intros e [= <-]|done]|].
  destruct held; (apply keeps_own; [done|]); intros err w2 H2 _; (split; [|by eapply relies_trans]).
  - by intros e [= <-].
  - destruct err as [err|]; [|done]. intros e [= <-]. apply unavailable_is.
Qed.

Lemma own_keeps who c w : hosts_own c → keeps who (λ _ w', rely who w w') (Do c) w.
Proof.
  intros Hc. change (keeps who (λ _ w', rely who w w') (bind (Do c) Ret) w). by apply keeps_own.
Qed.

(** What an operation's answer says of the notes. *)
Definition turned_away (req : AcquireRequest) (err : gerror) (w : world) : Prop :=
  (∃ why, noted w (Refused req why) ∧ err = reason_error why) ∨ errors_is err ErrUnavailable = true ∨
  AcquireRequest_Check req = Some err ∨ (a_Expiry req ≤ 0 ∨ Z.rem (a_Expiry req) Second ≠ 0).
Definition lost (name : string) (token : Z) (err : gerror) (w : world) : Prop :=
  (noted w (Lost name token) ∧ errors_is err ErrLost = true) ∨ errors_is err ErrUnavailable = true.

Definition answered (_ : nat) (o : outcome) (w : world) : Prop :=
  match o with
  | DidAcquire req (Some (inr c)) => h_name c = a_Name req ∧ noted w (Took req (Token c) (Expiry c))
  | DidAcquire req (Some (inl err)) => turned_away req err w
  | DidAcquire req None => True
  | DidWait name (Some None) => noted w (Seen name)
  | DidWait name (Some (Some err)) => errors_is err ErrUnavailable = true
  | DidWait name None => True
  | DidRenew c None => noted w (Renewed (h_name c) (h_token c))
  | DidRenew c (Some err) => lost (h_name c) (h_token c) err w
  | DidFence c None => noted w (Passed (h_name c) (h_token c))
  | DidFence c (Some err) => lost (h_name c) (h_token c) err w
  | DidRelease c None => noted w (Freed (h_name c) (h_token c)) ∨ noted w (Lost (h_name c) (h_token c))
  | DidRelease c (Some err) => errors_is err ErrUnavailable = true
  end.

Lemma answered_stable who : stable_for rely Inv who (answered who).
Proof.
  intros o w w' Hr _ _. pose proof (noted_rely who w w') as Hn.
  assert (∀ name token err, lost name token err w → lost name token err w') as Hl by (intros ??? [[]|]; [left|right]; eauto).
  destruct o as [req [[err|c]|]|name [[err|]|]|c [err|]|c [err|]|c [err|]]; cbn [answered]; eauto.
  - intros [(why & Hw & He)|H]; [left; eauto|by right].
  - intros [? ?]; eauto.
  - intros [?|?]; eauto.
Qed.

Lemma acquiring_keeps who seam req granted : AcquireRequest_Check req = None → reasonable req → 0 ≤ granted < ages → a_Expiry req ≤ granted →
  ∀ rounds w, keeps who (λ r, answered who (DidAcquire req r)) (acquiring rounds seam req granted) w.
Proof.
  intros Hcheck Hper Hg He rounds. induction rounds as [|rounds IH]; intros w; [done|]. cbn [acquiring].
  apply calls_keep; [done|]. intros w1 x w2 Hr Hi Hs. apply section_says in Hs as [-> ->].
  destruct (look_says req (w_fake w1)) as [-> Hal]. destruct (why_of req (w_fake w1)) as [why|] eqn:Hwhy; cbn [fmap option_fmap option_map].
  { left. exists why. split; [apply noted_last|done]. }
  pose proof Hi as ([_ _ _ Hticks] & l & _ & Ha).
  assert (tick_verdict (tick_of <$> ticks (w_fake w1) !! a_Name req) req = None) as Htick.
  { unfold why_of in Hwhy. change (λ tick, (f_dueAt tick, f_by tick)) with tick_of in Hwhy. destruct (fst (liveLocked _ _)); [done|].
    by destruct (tick_verdict _ _). }
  set (read := ticks (w_fake w1) !! a_Name req) in *. set (w2 := noting [] _ w1).
  assert (∀ w', rely who w2 w' → may_commit req granted read (w_fake w')) as Hmay.
  { intros w' (Hrev & _ & Ht). split_and!; try (done || lia). destruct (Ht (a_Name req)) as [->|(t & -> & Hlt)]; cbn; rewrite ?(al_ticks _ _ Hal); [by left|].
    right. exists t. split; [done|]. cbn in Hlt. rewrite (al_revision _ _ Hal) in Hlt.
    unfold read. destruct (ticks (w_fake w1) !! a_Name req) as [t'|] eqn:E; cbn; [specialize (Hticks _ _ E); lia|].
    pose proof (so_revision _ (proj1 Hi)). lia. }
  clearbody w2 read. apply guarded_bind.
  apply (guarded_impl (Sg := fake_sig) served rely Inv who (λ _ w', rely who w2 w')).
  { destruct (_ && seam); [by apply own_keeps|apply relies_refl]. }
  intros _ w3 H3. apply keeps_own; [done|]. intros hook w4 H4 _. apply guarded_bind.
  apply (guarded_impl (Sg := fake_sig) served rely Inv who (λ _ w', rely who w4 w')).
  { destruct (a_Rate req), hook; try apply relies_refl. by apply own_keeps. }
  intros _ w5 H5. apply keeps_own; [done|]. intros [err|] w6 H6 _; [right; left; apply unavailable_is|].
  assert (rely who w2 w6) as H26 by eauto using relies_trans.
  apply calls_keep; [intros w7 H7 ??? [= <- <- <-]; apply Hmay; by eapply relies_trans|].
  intros w7 x w8 H7 Hi7 Hs. apply section_says in Hs as [-> ->]. destruct (fst (commit _ _ _ _)) as [token|]; [|apply IH].
  split; [done|]. apply noted_last.
Qed.

Lemma Acquire_keeps who rounds seam req w : reasonable req → keeps who (λ r, answered who (DidAcquire req r)) (Acquire rounds seam req) w.
Proof.
  intros Hper. unfold Acquire. destruct (AcquireRequest_Check req) as [err|] eqn:Hcheck; [by do 2 right; left|].
  destruct (_ || _) eqn:Hexp.
  { do 3 right. apply orb_true_iff in Hexp as [Hexp|Hexp]; [left; lia|right]. apply negb_true_iff, Z.eqb_neq in Hexp. done. }
  bool_facts. apply guarded_bind. eapply guarded_impl; [apply reach_keeps|]. intros [err|] w1 [Herr _]; [right; left; by apply Herr|].
  apply keeps_own; [done|]. intros granted w2 _ Hs. apply section_says in Hs as [Hlt _].
  destruct (granted <? a_Expiry req) eqn:E; [right; left; done|]. apply acquiring_keeps; [done|done| |]; lia.
Qed.

Lemma Released_keeps who rounds name w : keeps who (λ r, answered who (DidWait name r)) (Released rounds name) w.
Proof.
  unfold Released. apply guarded_bind. eapply guarded_impl; [apply reach_keeps|]. intros [err|] w1 [Herr _]; [by apply Herr|]. clear Herr.
  revert w1. induction rounds as [|rounds IH]; intros w1; [done|]. cbn [waiting]. apply calls_keep; [done|].
  intros w2 x w3 _ _ Hs. apply section_says in Hs as [-> ->]. destruct (notice name (w_fake w2)) as [[free seen] f'] eqn:E. cbn [fst snd].
  destruct free; [apply noted_last|]. apply keeps_own; [done|]. intros _ w4 _ _. apply keeps_own; [done|].
  intros [err|] w5 _ _; [apply unavailable_is|apply IH].
Qed.

Lemma Renew_keeps who c w : keeps who (λ r, answered who (DidRenew c r)) (Renew c) w.
Proof.
  unfold Renew. apply guarded_bind. eapply guarded_impl; [apply reach_keeps|]. intros [err|] w1 [Herr _]; [right; by apply Herr|].
  apply calls_keep; [done|]. intros w2 x w3 _ _ Hs. apply section_says in Hs as [-> ->]. destruct (fst (renew c (w_fake w2))); [apply noted_last|left].
  split; [apply noted_last|done].
Qed.

Lemma Fence_keeps who c w : keeps who (λ r, answered who (DidFence c r)) (Fence c) w.
Proof.
  unfold Fence. apply guarded_bind. eapply guarded_impl; [apply reach_keeps|]. intros [err|] w1 [Herr _]; [right; by apply Herr|].
  apply calls_keep; [done|]. intros w2 x w3 _ _ Hs. apply section_says in Hs as [-> ->]. destruct (fst (fence c (w_fake w2))); [apply noted_last|left].
  split; [apply noted_last|done].
Qed.

Lemma Release_keeps who c w : keeps who (λ r, answered who (DidRelease c r)) (Release c) w.
Proof.
  unfold Release. apply guarded_bind. eapply guarded_impl; [apply reach_keeps|]. intros [err|] w1 [Herr _]; [by apply Herr|].
  apply calls_keep; [done|]. intros w2 x w3 _ _ Hs. apply section_says in Hs as [-> ->].
  destruct (fst (release c (w_fake w2))); [left|right]; apply noted_last.
Qed.

Lemma operation_keeps who p w : operation p → keeps who (answered who) p w.
Proof.
  intros Hp. destruct Hp; apply guarded_bind; [by apply Acquire_keeps|apply Released_keeps|apply Renew_keeps|apply Fence_keeps|apply Release_keeps].
Qed.

(** *** The refinement *)

Lemma why_none req f : why_of req f = None → live f (a_Name req) = None ∧ rate_verdict (taken_at (mono f) (slots_at (a_Name req) f)) req = None.
Proof. unfold why_of, live. destruct (fst (liveLocked _ _)); [done|]. by destruct (tick_verdict _ _). Qed.

(** An acquisition nobody overtakes is not turned back: what the first section lets through the second
    takes, so that a round that takes nothing is one another host's call came between. *)
Lemma left_alone_it_takes req granted f : fst (fst (look req f)) = None →
  fst (commit req granted (snd (fst (look req f))) (snd (look req f))) = Some (revision f + 1).
Proof.
  destruct (look_says req f) as [-> Hal]. cbn [fst snd]. intros Hwhy. destruct (why_of req f) eqn:E; [done|].
  apply why_none in E as [Hl Hr]. rewrite <- (al_live _ _ Hal) in Hl. rewrite <- (al_slots _ _ Hal) in Hr.
  rewrite <- (al_revision _ _ Hal), <- (al_ticks _ _ Hal). revert Hl Hr. generalize (snd (look req f)). clear. intros f Hl Hr.
  unfold commit. pose proof (liveLocked_alike (a_Name req) f) as Hal. unfold live in Hl.
  destruct (liveLocked (a_Name req) f) as [[c|] f1]; cbn [fst snd] in *; [done|]. rewrite Z.eqb_refl, andb_false_r.
  unfold rate_verdict in Hr. destruct (a_Rate req) as [limit|].
  - pose proof (rateFull_says (a_Name req) limit f1) as Hf. pose proof (al_revision _ _ (rateFull_alike (a_Name req) limit f1)) as Hrev.
    destruct (rateFullLocked (a_Name req) limit f1) as [full f2]. cbn [fst snd] in *. rewrite (al_slots _ _ Hal) in Hf.
    destruct (_ <=? _); [done|]. subst full. by rewrite Hrev, (al_revision _ _ Hal).
  - by rewrite (al_revision _ _ Hal).
Qed.

Lemma hosts_keep w ps : hosts w ps → Inv w ∧ ∀ who p, ps !! who = Some p → keeps who (answered who) p w.
Proof.
  apply reach_guarded.
  - apply relies_trans.
  - apply answered_stable.
  - apply relies_refl.
  - intros w0 (now & at_ & Hn & ->). split; [by split|]. exists (empty_ledger now). split; [done|]. by split.
  - intros w1 w2. apply outside_keeps.
  - intros who w1 w2 H ->. by split.
  - intros who p w0 Ho _. by apply operation_keeps.
Qed.

(** C13: The backend kept in memory keeps the contract: however many hosts call it and however their calls
    interleave, whatever its hosts cannot reach, whichever calls end in the middle, however the
    runtime's clock moves, and whichever claims a test ends, the notes of what it did are ones a ledger
    takes, and what it holds is what that ledger holds; and every answer is noted: a claim it handed out was
    taken with the grant it says, a refusal is the ledger's own verdict, a fence that passed and a
    renewal were of the current claim, and a call that could not be made is unavailable. *)
Theorem the_fake_keeps_the_contract w ps : hosts w ps →
  (∃ l, heeds (empty_ledger (w_origin w)) (w_notes w) = Some l ∧ agrees (w_fake w) l) ∧
  ∀ who o, ps !! who = Some (Ret o) → answered who o w.
Proof.
  intros Hr. destruct (hosts_keep w ps Hr) as [[_ Hi] Hp].
  split; [exact Hi|]. intros who o Ho. exact (Hp who _ Ho).
Qed.

(** C12: The claims the backend kept in memory gives exclude each other: of all it did, however many hosts
    called it and however their calls interleaved, in the order it did it, a later claim has a greater
    token and, on one name, a scheduled one a later tick, so that no tick is taken twice; a fence or a
    renewal that passes after a claim was taken is not an earlier one's; no claim on a name is taken
    before the last one, counted from when it was last renewed, has gone the whole expiry it was
    granted by the backend's own clock, unless that one was given back or ended; and no more claims of a
    name than its limit are ever younger than the limit's window, whether they were given back or not. *)
Theorem claims_exclude_each_other w ps : hosts w ps →
  (∀ i j req token granted req' token' granted', (i < j)%nat →
     w_notes w !! i = Some (Took req token granted) → w_notes w !! j = Some (Took req' token' granted') →
     token < token' ∧ (a_Name req = a_Name req' → scheduled req = true → scheduled req' = true → t_DueAt (a_Trigger req) < t_DueAt (a_Trigger req'))) ∧
  (∀ i j req token granted token', (i < j)%nat → w_notes w !! i = Some (Took req token granted) →
     w_notes w !! j = Some (Passed (a_Name req) token') ∨ w_notes w !! j = Some (Renewed (a_Name req) token') → token ≤ token') ∧
  (∀ i k j req token granted n req' token' granted', (i ≤ k)%nat → (k < j)%nat → w_notes w !! i = Some (Took req token granted) →
     w_notes w !! k = Some n → kept_as n (a_Name req) token → w_notes w !! j = Some (Took req' token' granted') → a_Name req' = a_Name req →
     (∃ f, (k < f)%nat ∧ (f < j)%nat ∧ w_notes w !! f = Some (Freed (a_Name req) token)) ∨
     elapsed (take k (w_notes w)) + granted ≤ elapsed (take j (w_notes w))) ∧
  (∀ name limit, limited_by name limit (w_notes w) →
     Z.of_nat (length (List.filter (λ at_, mono (w_fake w) <? at_ + l_Per limit) (starts (w_origin w) name (w_notes w)))) ≤ Z.max 0 (l_Runs limit)).
Proof.
  intros [[_ (l & Hl & Ha)] _]%hosts_keep. rewrite <- (ag_now _ _ Ha). split_and!.
  - intros i j req token granted req' token' granted'. by eapply later_claims.
  - intros i j req token granted token'. by eapply no_superseded_claim.
  - intros i k j req token granted n req' token' granted'. by eapply kept_until.
  - intros name limit. by eapply kept_rate.
Qed.

(** ** Two hosts *)

(** A host that reaches its backend, which grants what it is asked. *)
Definition answers (c : fake_cmd) (w : world) : fake_resp c * world :=
  match c return fake_resp c * world with
  | Switches => ((false, false), w)
  | CtxDone => (Text "context canceled", w)
  | CtxErr => (None, w)
  | GrantOf asked => (Z.min asked (ages - 1), w)
  | RunSeam _ | RunRateSeam _ | Watched _ => (tt, w)
  | RateHook => (false, w)
  | AwaitChange _ => (Some (Text "context deadline exceeded"), w)
  | Look req => (fst (look req (w_fake w)),
      noting (match why_of req (w_fake w) with Some why => [Refused req why] | None => [] end) (snd (look req (w_fake w))) w)
  | Commit req granted read => (fst (commit req granted read (w_fake w)),
      noting (match fst (commit req granted read (w_fake w)) with Some token => [Took req token granted] | None => [] end)
        (snd (commit req granted read (w_fake w))) w)
  | Notice name => (fst (notice name (w_fake w)),
      noting (if fst (fst (notice name (w_fake w))) then [Seen name] else []) (snd (notice name (w_fake w))) w)
  | DoRenew c => (fst (renew c (w_fake w)),
      noting [if fst (renew c (w_fake w)) then Renewed (h_name c) (h_token c) else Lost (h_name c) (h_token c)] (snd (renew c (w_fake w))) w)
  | DoFence c => (fst (fence c (w_fake w)),
      noting [if fst (fence c (w_fake w)) then Passed (h_name c) (h_token c) else Lost (h_name c) (h_token c)] (snd (fence c (w_fake w))) w)
  | DoRelease c => (fst (release c (w_fake w)),
      noting [if fst (release c (w_fake w)) then Freed (h_name c) (h_token c) else Lost (h_name c) (h_token c)] (snd (release c (w_fake w))) w)
  end.
Lemma answers_served who c w x w' : answers c w = (x, w') → served who w c x w'.
Proof. destruct c; cbn [answers]; intros [= <- <-]; constructor. unfold ages. lia. Qed.

Lemma called who o p w ps : hosts w ps → ps !! who = None → operation p → exec (Sg := fake_sig) answers p w = o →
  hosts (snd o) (<[who := Ret (fst o)]> ps).
Proof.
  intros Hr Hn Hp <-. rewrite <- (insert_insert_eq ps who (Ret (fst (exec (Sg := fake_sig) answers p w))) p).
  apply (reach_exec (Sg := fake_sig)); [by intros; apply answers_served| |by rewrite lookup_insert_eq].
  by apply reach_spawn.
Qed.

Definition acquires (req : AcquireRequest) : faking outcome := let! r := Acquire 2 true req in Ret (DidAcquire req r).
Definition started : world := mkWorld (NewFake 0 0) [] 0.
Definition taken_first : outcome * world := exec (Sg := fake_sig) answers (acquires (nightly "r1" Second)) started.
Definition refused_second : outcome * world := exec (Sg := fake_sig) answers (acquires (nightly "r2" (2 * Second))) (snd taken_first).

Lemma the_fake_keeps_the_contract_witness :
  hosts (snd refused_second) {[1%nat := Ret (fst refused_second); 0%nat := Ret (fst taken_first)]} ∧
  (∃ l, heeds (empty_ledger 0) [Took (nightly "r1" Second) 1 Second; Refused (nightly "r2" (2 * Second)) (AlreadyHeld (mkHolder "h1" "i1" "r1"))] = Some l) ∧
  noted (snd refused_second) (Took (nightly "r1" Second) 1 Second).
Proof.
  assert (hosts (snd refused_second) {[1%nat := Ret (fst refused_second); 0%nat := Ret (fst taken_first)]}) as Hr.
  { apply (called 1 refused_second (acquires (nightly "r2" (2 * Second))) (snd taken_first) {[0%nat := Ret (fst taken_first)]}); [|done| |done].
    - apply (called 0 taken_first (acquires (nightly "r1" Second)) started ∅); [|done| |done].
      + apply reach_start. exists 0, 0. split; [unfold ages; lia|done].
      + apply op_acquire. intros limit [= <-]. unfold ages. cbn. unfold Second. lia.
    - apply op_acquire. intros limit [= <-]. unfold ages. cbn. unfold Second. lia. }
  split; [exact Hr|]. destruct (the_fake_keeps_the_contract _ _ Hr) as [(l & Hl & _) Ha]. split.
  - exists l. exact Hl.
  - exact (proj2 (Ha 0%nat (DidAcquire (nightly "r1" Second) (Some (inr (mkFakeHeld "report" 1 Second)))) eq_refl)).
Defined.

(** The next night, once the first one's claim has lapsed. *)
Definition a_night_later : world :=
  let w := snd refused_second in
  noting [Elapsed (2 * Second)]
    (mkFake (mono (w_fake w) + 2 * Second) (wall (w_fake w)) (revision (w_fake w)) (claims (w_fake w)) (ticks (w_fake w)) (slots (w_fake w)) (changed (w_fake w))) w.
Definition taken_second : outcome * world := exec (Sg := fake_sig) answers (acquires (nightly "r2" (2 * Second))) a_night_later.
Definition two_nights : gmap nat (faking outcome) :=
  {[2%nat := Ret (fst taken_second); 1%nat := Ret (fst refused_second); 0%nat := Ret (fst taken_first)]}.

Lemma claims_exclude_each_other_witness :
  (hosts (snd taken_second) two_nights ∧
   w_notes (snd taken_second) =
     [Took (nightly "r1" Second) 1 Second; Refused (nightly "r2" (2 * Second)) (AlreadyHeld (mkHolder "h1" "i1" "r1"));
      Elapsed (2 * Second); Took (nightly "r2" (2 * Second)) 2 Second]) ∧
  1 < 2 ∧ Second < 2 * Second.
Proof.
  assert (hosts (snd taken_second) two_nights) as Hr.
  { apply (called 2 taken_second (acquires (nightly "r2" (2 * Second))) a_night_later
      {[1%nat := Ret (fst refused_second); 0%nat := Ret (fst taken_first)]}); [|done| |done].
    - eapply reach_outside; [|apply (outside_clock (snd refused_second) (2 * Second)); vm_compute; congruence].
      apply (called 1 refused_second (acquires (nightly "r2" (2 * Second))) (snd taken_first) {[0%nat := Ret (fst taken_first)]}); [|done| |done].
      + apply (called 0 taken_first (acquires (nightly "r1" Second)) started ∅); [|done| |done].
        * apply reach_start. exists 0, 0. split; [unfold ages; lia|done].
        * apply op_acquire. intros limit [= <-]. unfold ages. cbn. unfold Second. lia.
      + apply op_acquire. intros limit [= <-]. unfold ages. cbn. unfold Second. lia.
    - apply op_acquire. intros limit [= <-]. unfold ages. cbn. unfold Second. lia. }
  assert (w_notes (snd taken_second) =
     [Took (nightly "r1" Second) 1 Second; Refused (nightly "r2" (2 * Second)) (AlreadyHeld (mkHolder "h1" "i1" "r1"));
      Elapsed (2 * Second); Took (nightly "r2" (2 * Second)) 2 Second]) as Hn by (vm_compute; reflexivity).
  split; [by split|]. destruct (claims_exclude_each_other _ _ Hr) as [H _]. rewrite Hn in H.
  destruct (H 0%nat 3%nat _ _ _ _ _ _ ltac:(lia) eq_refl eq_refl) as [Hlt Hd]. split; [exact Hlt|]. by apply Hd.
Defined.

(** ** The suite, run

    As [fake_contract_test.go] runs it on this backend, and [filelock_contract_test.go] on the file lock. *)

(** A host with its switches, over a backend whose seam has something happen at it, once. *)
Record suite_host := mkSuiteHost { sh_held : bool; sh_severed : bool; sh_grant : Z → Z }.
Definition at_suite (h : suite_host) (seam : fake → fake) (c : fake_cmd) (w : fake * bool) : fake_resp c * (fake * bool) :=
  let '(f, done_) := w in
  match c return fake_resp c * (fake * bool) with
  | Switches => ((sh_held h, sh_severed h), w)
  | CtxDone => (Text "context deadline exceeded", w)
  | CtxErr => (None, w)
  | GrantOf asked => (sh_grant h asked, w)
  | RunSeam _ => (tt, (if (done_ : bool) then f else seam f, true))
  | RunRateSeam _ | Watched _ => (tt, w)
  | RateHook => (false, w)
  | AwaitChange _ => (Some (Text "context deadline exceeded"), w)
  | Look req => (fst (look req f), (snd (look req f), done_))
  | Commit req granted read => (fst (commit req granted read f), (snd (commit req granted read f), done_))
  | Notice name => (fst (notice name f), (snd (notice name f), done_))
  | DoRenew c => (fst (renew c f), (snd (renew c f), done_))
  | DoFence c => (fst (fence c f), (snd (fence c f), done_))
  | DoRelease c => (fst (release c f), (snd (release c f), done_))
  end.
Definition on_suite {A} (h : suite_host) (seam : fake → fake) (p : faking A) (f : fake) : A * fake :=
  let '(a, (f, _)) := exec (Sg := fake_sig) (at_suite h seam) p (f, false) in (a, f).

Definition reaching : suite_host := mkSuiteHost false false id.
Definition acquire_on (h : suite_host) (seam : fake → fake) (req : AcquireRequest) (f : fake) : (gerror + fakeHeld) * fake :=
  let '(r, f) := on_suite h seam (Acquire 3 true req) f in (default (inl (Text "overtaken three times")) r, f).

Definition fake_subject : Subject fake fakeHeld :=
  mkSubject fake fakeHeld (λ _, acquire_on reaching) Token Expiry
    (λ c, on_suite reaching id (Renew c)) (λ c, on_suite reaching id (Fence c)) (λ c, on_suite reaching id (Release c))
    true (acquire_on (mkSuiteHost false true id) id) (Some (acquire_on (mkSuiteHost true false id) id))
    (λ c, Expire (Token c))
    (λ d f, mkFake (instant_add (mono f) d) (wall f) (revision f) (claims f) (ticks f) (slots f) (changed f))
    (Some mono)
    (λ d f, mkFake (mono f) (wall f + d) (revision f) (claims f) (ticks f) (slots f) (changed f))
    (Some (acquire_on (mkSuiteHost false false (λ asked, asked - Second)) id))
    (Some (acquire_on (mkSuiteHost false false (λ asked, asked + Second)) id, 5 * Second, 6 * Second))
    (30 * Second) (3 * Second) [] true false.

(** The clauses hold of the backend, each of them. *)
Example the_fake_passes : Contract fake_subject (NewFake 0 0) =
  inr (map (λ id, (id, None)) ["C1"; "C2"; "C3"; "C5"; "C6"; "C7"; "C8"; "C9"; "C11"; "C12"; "C13"; "C14"]).
Proof. vm_compute. reflexivity. Qed.

(** ** The clock a test moves

    [clock.go] of [src/runtime/internal/guard/guardtest]: a monotonic reading and a wall reading, and the timers set
    on the first.  [changed] is how many times its channel was closed and made again; [fired] what the channels
    of the timers were sent, in order, with the wall reading each carries. *)
Record timer := mkTimer { timer_at : Z; timer_seq : Z }.
Record Clock := mkClock { clock_mono : Z; clock_wall : Z; timers : list timer; clock_set : Z; clock_changed : Z; clock_fired : list (timer * Z) }.

Definition NewClock (wall : Z) : Clock := mkClock 0 wall [] 0 0 [].
Definition notifyClock (c : Clock) : Clock :=
  mkClock (clock_mono c) (clock_wall c) (timers c) (clock_set c) (clock_changed c + 1) (clock_fired c).

Definition NewTimer (d : Z) (c : Clock) : timer * Clock :=
  let t := mkTimer (i64 (clock_mono c + d)) (clock_set c + 1) in
  if d <=? 0 then (t, mkClock (clock_mono c) (clock_wall c) (timers c) (clock_set c + 1) (clock_changed c) (clock_fired c ++ [(t, clock_wall c)]))
  else (t, notifyClock (mkClock (clock_mono c) (clock_wall c) (timers c ++ [t]) (clock_set c + 1) (clock_changed c) (clock_fired c))).

(** The place of the first of the earliest, from the place held so far. *)
Fixpoint earliest_from (i best : nat) (least : Z) (l : list timer) : nat :=
  match l with
  | [] => best
  | t :: l => if timer_at t <? least then earliest_from (S i) i (timer_at t) l else earliest_from (S i) best least l
  end.
Definition earliest (l : list timer) : nat := match l with [] => 0%nat | t :: _ => earliest_from 0 0 (timer_at t) l end.
(** [due] is left one shorter each time round. *)
Fixpoint fire (rounds : nat) (due : list timer) : list timer :=
  match rounds with
  | O => []
  | S rounds => match due !! earliest due with Some t => t :: fire rounds (delete (earliest due) due) | None => [] end
  end.

Definition Advance (d : Z) (c : Clock) : Clock :=
  let mono := i64 (clock_mono c + d) in
  let wall := clock_wall c + d in
  let due := List.filter (λ t, timer_at t <=? mono) (timers c) in
  let kept := List.filter (λ t, negb (timer_at t <=? mono)) (timers c) in
  notifyClock (mkClock mono wall kept (clock_set c) (clock_changed c) (clock_fired c ++ map (λ t, (t, wall)) (fire (length due) due))).
Definition StepWall (d : Z) (c : Clock) : Clock :=
  notifyClock (mkClock (clock_mono c) (clock_wall c + d) (timers c) (clock_set c) (clock_changed c) (clock_fired c)).

#[export] Instance timer_eq_dec : EqDecision timer.
Proof. solve_decision. Defined.
Definition Stop (t : timer) (c : Clock) : bool * Clock :=
  if existsb (λ f, bool_decide (fst f = t)) (clock_fired c) then (false, c)
  else if existsb (λ p, bool_decide (p = t)) (timers c) then
    (true, notifyClock (mkClock (clock_mono c) (clock_wall c) (List.filter (λ p, negb (bool_decide (p = t))) (timers c)) (clock_set c)
                         (clock_changed c) (clock_fired c)))
  else (false, c).

(** What [WaitForTimer] returns on without waiting. *)
Definition timer_is_set (at_ since : Z) (c : Clock) : bool :=
  existsb (λ t, (since <? timer_seq t) && (timer_at t =? at_)) (timers c).

(** *** What fires *)

Lemma earliest_from_spec l : ∀ i best least,
  (earliest_from i best least l = best ∧ Forall (λ t, least ≤ timer_at t) l) ∨
  (∃ k t, earliest_from i best least l = (i + k)%nat ∧ l !! k = Some t ∧ timer_at t < least ∧
     Forall (λ u, timer_at t < timer_at u) (take k l) ∧ Forall (λ u, timer_at t ≤ timer_at u) l).
Proof.
  induction l as [|t l IH]; intros i best least; [by left|]. cbn [earliest_from]. destruct (Z.ltb_spec (timer_at t) least) as [H|H].
  - right. destruct (IH (S i) i (timer_at t)) as [[-> Hl]|(k & u & -> & Hk & Hu & Hb & Hl)].
    + exists 0%nat, t. split; [lia|]. split; [done|]. split; [done|]. split; [constructor|]. by constructor.
    + exists (S k), u. split; [lia|]. split; [done|]. split; [lia|]. split; cbn; constructor; (done || lia).
  - destruct (IH (S i) best least) as [[-> Hl]|(k & u & -> & Hk & Hu & Hb & Hl)]; [left; split; [done|by constructor]|].
    right. exists (S k), u. split; [lia|]. split; [done|]. split; [done|]. split; cbn; constructor; (done || lia).
Qed.

(** The one found is the earliest, and of those due at one instant the one set first. *)
Lemma earliest_spec l : l ≠ [] → ∃ t, l !! earliest l = Some t ∧ Forall (λ u, timer_at t ≤ timer_at u) l ∧
  Forall (λ u, timer_at t < timer_at u) (take (earliest l) l).
Proof.
  destruct l as [|t l]; [done|]. intros _. unfold earliest.
  destruct (earliest_from_spec (t :: l) 0 0 (timer_at t)) as [[-> Hl]|(k & u & -> & Hk & Hu & Hb & Hl)]; [by exists t|]. by exists u.
Qed.

Definition sooner (t u : timer) : Prop := timer_at t < timer_at u ∨ (timer_at t = timer_at u ∧ timer_seq t < timer_seq u).
Definition set_in_order (l : list timer) : Prop := StronglySorted (λ t u, timer_seq t < timer_seq u) l.

Lemma delete_ordered i l : set_in_order l → set_in_order (delete i l).
Proof.
  unfold set_in_order. intros H. revert i. induction H as [|t l Hs IH Ht]; intros i; [by destruct i; constructor|].
  destruct i as [|i]; cbn; [done|]. constructor; [apply IH|].
  change (Forall (λ u, timer_seq t < timer_seq u) (delete i l)). rewrite delete_take_drop, Forall_app.
  split; [by apply Forall_take|by apply Forall_drop].
Qed.

Lemma ordered_after l i t u : set_in_order l → l !! i = Some t → u ∈ drop (S i) l → timer_seq t < timer_seq u.
Proof.
  intros H. revert i. induction H as [|v l Hs IH Hv]; intros i Ht Hu; [by destruct i|].
  destruct i as [|i]; cbn in *; [|by eapply IH]. simplify_eq. by apply (proj1 (Forall_forall _ _) Hv).
Qed.

(** [Advance] sends the timers that are due the earliest first, each once, and those due at one instant in the
    order they were set. *)
Lemma fire_sorts rounds : ∀ due, length due = rounds → set_in_order due → fire rounds due ≡ₚ due ∧ StronglySorted sooner (fire rounds due).
Proof.
  induction rounds as [|rounds IH]; intros due Hl Ho; [by apply nil_length_inv in Hl as ->; split; [|constructor]|].
  destruct (earliest_spec due) as (t & Ht & Hleast & Hbefore); [by destruct due|]. cbn [fire]. rewrite Ht.
  destruct (IH (delete (earliest due) due)) as [Hp Hs].
  { rewrite length_delete by (by eexists). lia. }
  { by apply delete_ordered. }
  split.
  - rewrite Hp. symmetry. by apply delete_Permutation.
  - constructor; [done|]. rewrite Hp. apply Forall_forall. intros u Hu.
    assert (timer_at t ≤ timer_at u) as Hle.
    { apply (proj1 (Forall_forall _ _) Hleast). rewrite (delete_Permutation due _ t Ht). by apply list_elem_of_further. }
    rewrite delete_take_drop in Hu. apply elem_of_app in Hu as [Hu|Hu].
    + left. by apply (proj1 (Forall_forall _ _) Hbefore).
    + pose proof (ordered_after _ _ _ _ Ho Ht Hu). unfold sooner. lia.
Qed.

(** *** What holds of a clock *)

(** A timer that is set is not due yet; those set are in the order they were, each under a number of its own;
    one that was sent was due. *)
Record clock_ok (c : Clock) : Prop := {
  ok_set : set_in_order (timers c);
  ok_pending : Forall (λ t, clock_mono c < timer_at t ∧ timer_seq t ≤ clock_set c) (timers c);
  ok_fired : Forall (λ f, timer_at (fst f) ≤ clock_mono c ∧ timer_seq (fst f) ≤ clock_set c) (clock_fired c);
  ok_once : NoDup (map timer_seq (timers c ++ map fst (clock_fired c))) }.

Inductive clock_step (c : Clock) : Clock → Prop :=
| clock_new d t c' : i64 (clock_mono c + d) = clock_mono c + d → NewTimer d c = (t, c') → clock_step c c'
| clock_advance d : 0 ≤ d → i64 (clock_mono c + d) = clock_mono c + d → clock_step c (Advance d c)
| clock_wall_step d : clock_step c (StepWall d c)
| clock_stop t b c' : Stop t c = (b, c') → clock_step c c'.

Lemma filter_ordered p l : set_in_order l → set_in_order (List.filter p l).
Proof.
  unfold set_in_order. induction 1 as [|t l Hs IH Ht]; [constructor|]. cbn. destruct (p t); [|done]. constructor; [done|].
  apply Forall_forall. intros u Hu%list_elem_of_In. apply filter_In in Hu as [Hu _]. apply list_elem_of_In in Hu. by apply (proj1 (Forall_forall _ _) Ht).
Qed.

Lemma filter_partition {A} (p : A → bool) l : List.filter (λ x, negb (p x)) l ++ List.filter p l ≡ₚ l.
Proof.
  induction l as [|x l IH]; [done|]. cbn. destruct (p x); cbn; [|by rewrite IH]. by rewrite <- Permutation_middle, IH.
Qed.

Lemma number_is_new c t : clock_ok c → timer_seq t = clock_set c + 1 → timer_seq t ∉ map timer_seq (timers c ++ map fst (clock_fired c)).
Proof.
  intros [_ Hp Hf _] Ht Hin. rewrite map_app, map_map in Hin. apply elem_of_app in Hin as [Hin|Hin].
  - apply list_elem_of_In, in_map_iff in Hin as (u & E & Hu%list_elem_of_In). pose proof (proj1 (Forall_forall _ _) Hp u Hu). cbn in *. lia.
  - apply list_elem_of_In, in_map_iff in Hin as (u & E & Hu%list_elem_of_In). pose proof (proj1 (Forall_forall _ _) Hf u Hu). cbn in *. lia.
Qed.

Lemma new_timer_ok d c t c' : clock_ok c → i64 (clock_mono c + d) = clock_mono c + d → NewTimer d c = (t, c') → clock_ok c'.
Proof.
  intros Hok Hd E. pose proof (number_is_new c t Hok) as Hnew. destruct Hok as [Hs Hp Hf Ho].
  unfold NewTimer in E. rewrite Hd in E. destruct (Z.leb_spec d 0); injection E as <- <-; cbn in Hnew; split; cbn; try done.
  - eapply Forall_impl; [exact Hp|]. cbn. lia.
  - apply Forall_app. split; [eapply Forall_impl; [exact Hf|]; cbn; lia|]. constructor; [cbn; lia|constructor].
  - rewrite (map_app fst), app_assoc, map_app. apply NoDup_app. split; [done|]. split; [|apply NoDup_singleton].
    intros x Hx Hin. cbn in Hin. apply list_elem_of_singleton in Hin as ->. exact (Hnew eq_refl Hx).
  - apply StronglySorted_app. split; [|split; [done|by repeat constructor]]. intros u v Hu ->%list_elem_of_singleton.
    pose proof (proj1 (Forall_forall _ _) Hp u Hu). cbn in *. lia.
  - apply Forall_app. split; [eapply Forall_impl; [exact Hp|]; cbn; lia|]. constructor; [cbn; lia|constructor].
  - eapply Forall_impl; [exact Hf|]. cbn. lia.
  - rewrite <- app_assoc. rewrite map_app. cbn. rewrite <- Permutation_middle. constructor; [|by rewrite <- map_app].
    rewrite <- map_app. by apply Hnew.
Qed.

Lemma Advance_fires d c : clock_ok c →
  let due := List.filter (λ t, timer_at t <=? i64 (clock_mono c + d)) (timers c) in
  ∃ sent, clock_fired (Advance d c) = clock_fired c ++ map (λ t, (t, clock_wall c + d)) sent ∧ sent ≡ₚ due ∧ StronglySorted sooner sent.
Proof.
  intros [Hs _ _ _] due. destruct (fire_sorts (length due) due) as [Hp Ho]; [done|by apply filter_ordered|].
  by exists (fire (length due) due).
Qed.

Lemma advance_ok d c : clock_ok c → 0 ≤ d → i64 (clock_mono c + d) = clock_mono c + d → clock_ok (Advance d c).
Proof.
  intros Hok Hd Hi. destruct (Advance_fires d c Hok) as (sent & Ef & Hsent & _). rewrite Hi in Hsent. destruct Hok as [Hs Hp Hf Ho].
  split; rewrite ?Ef; cbn; rewrite ?Hi.
  - by apply filter_ordered.
  - apply Forall_forall. intros t Ht%list_elem_of_In. apply filter_In in Ht as [Ht Hlate]. apply list_elem_of_In in Ht.
    pose proof (proj1 (Forall_forall _ _) Hp t Ht). cbn in *. lia.
  - apply Forall_app. split; [eapply Forall_impl; [exact Hf|]; cbn; lia|]. apply Forall_map. rewrite Hsent.
    apply Forall_forall. intros t Ht%list_elem_of_In. apply filter_In in Ht as [Ht Hdue]. apply list_elem_of_In in Ht.
    pose proof (proj1 (Forall_forall _ _) Hp t Ht). cbn in *. lia.
  - rewrite (map_app fst), (map_map _ fst). cbn [fst]. rewrite map_id, Hsent, (Permutation_app_comm (map fst _)), app_assoc, filter_partition. done.
Qed.

Lemma stop_ok t c b c' : clock_ok c → Stop t c = (b, c') → clock_ok c'.
Proof.
  intros [Hs Hp Hf Ho] E. unfold Stop in E. destruct (existsb _ (clock_fired c)); [by injection E as <- <-|].
  destruct (existsb _ (timers c)); injection E as <- <-; [|done]. split; cbn; try done.
  - by apply filter_ordered.
  - apply Forall_forall. intros u Hu%list_elem_of_In. apply filter_In in Hu as [Hu _]. apply list_elem_of_In in Hu.
    by apply (proj1 (Forall_forall _ _) Hp).
  - rewrite <- (filter_partition (λ p, bool_decide (p = t)) (timers c)) in Ho. rewrite !map_app in *.
    apply NoDup_app in Ho as (Ho & Hd & Hn). apply NoDup_app in Ho as (Ho & _ & _). apply NoDup_app. split; [done|]. split; [|done].
    intros x Hx. apply Hd. apply elem_of_app. by left.
Qed.

Lemma clock_step_ok c c' : clock_step c c' → clock_ok c → clock_ok c'.
Proof.
  intros Hst Hok. destruct Hst as [d t c' Hd E|d Hd Hi|d|t b c' E].
  - by eapply new_timer_ok.
  - by apply advance_ok.
  - by destruct Hok.
  - by eapply stop_ok.
Qed.

(** Whatever a test does with a clock, no timer is sent before it is due or twice, and one that was stopped is
    not sent; stepping the wall reading sends none. *)
Lemma a_timer_fires_once wall c : rtc clock_step (NewClock wall) c → clock_ok c.
Proof.
  intros H. assert (clock_ok (NewClock wall)) as H0 by (split; cbn; try constructor).
  revert H0. induction H as [c|c c1 c2 Hs _ IH]; [done|]. intros H0. by apply IH, (clock_step_ok c).
Qed.

Example a_clock_moves :
  let '(a, c) := NewTimer (3 * Second) (NewClock 0) in let '(b, c) := NewTimer (2 * Second) c in
  let '(z, c) := NewTimer 0 c in let '(e, c) := NewTimer (9 * Second) c in
  let '(stopped, c) := Stop e (Advance (5 * Second) (StepWall (- Hour) c)) in
  (map (λ f, (timer_seq (fst f), snd f)) (clock_fired c), stopped, fst (Stop a c), timers c, timer_is_set (2 * Second) 0 c)
  = ([(3, 0); (2, 5 * Second - Hour); (1, 5 * Second - Hour)], true, false, [], false).
Proof. vm_compute. reflexivity. Qed.
