(* ===== verification/Migrate.v ===== *)
(** Opening the record: [Open] of [store.go] and [migrate] of [schema.go], in
    [src/runtime/internal/record], by any number of processes at once.

    A process is a program over the calls it makes of the database; the database is SQLite's as it
    is documented: one transaction writes at a time, and what it wrote is kept whole or not at
    all.  The statements of a migration are the database's to run; a schema is what they leave. *)
From S2P Require Import Prelude GoStr GoErr GoPath Eff.

(** ** The calls *)

Inductive record_cmd :=
| MkdirAll (dir : string) | OpenDB (dsn : string) | Ping | CloseDB | OpenBlobs (dir : string)
| CreateMigrations | CountApplied (name : string)
| BeginTx | ExecStatements (statements : string) | NowUTC | InsertApplied (name at_ : string) | Rollback | CommitTx.

Definition record_resp (c : record_cmd) : Type :=
  match c with
  | CountApplied _ => gerror + Z
  | NowUTC => string
  | CloseDB | Rollback => unit
  | _ => option gerror
  end.
#[export] Instance record_sig : Signature := {| cmd := record_cmd; resp := record_resp |}.
Definition Do (c : record_cmd) : prog (Sg := record_sig) (record_resp c) := call (Sg := record_sig) c.
#[global] Arguments Do : simpl never.
Notation recording A := (prog (Sg := record_sig) A).

(** ** [schema.go] *)

(** One migration the database may not have seen, in its own transaction. *)
Definition migrate_one (name statements : string) : recording (option gerror) :=
  let! applied := Do (CountApplied name) in
  match applied with
  | inl err => Ret (Some err)
  | inr applied =>
      if 0 <? applied then Ret None
      else
        let! begun := Do BeginTx in
        match begun with
        | Some err => Ret (Some err)
        | None =>
            let! executed := Do (ExecStatements statements) in
            match executed with
            | Some err => let! _ := Do Rollback in Ret (Some (wrap_before ("applying " +:+ name) err))
            | None =>
                let! now := Do NowUTC in
                let! inserted := Do (InsertApplied name now) in
                match inserted with
                | Some err => let! _ := Do Rollback in Ret (Some (wrap_before ("recording " +:+ name) err))
                | None =>
                    let! committed := Do CommitTx in
                    Ret (wrap_before ("committing " +:+ name) <$> committed)
                end
            end
        end
  end.

Fixpoint migrate_all (migrations : gmap string string) (names : list string) : recording (option gerror) :=
  match names with
  | [] => Ret None
  | name :: names =>
      let! err := migrate_one name (default "" (migrations !! name)) in
      match err with Some err => Ret (Some err) | None => migrate_all migrations names end
  end.

(** [migrations] are the files built into the executable. *)
Definition migrate (migrations : gmap string string) : recording (option gerror) :=
  let! created := Do CreateMigrations in
  match created with
  | Some err => Ret (Some (wrap_before "creating the migration table" err))
  | None => migrate_all migrations (sorted_keys migrations)
  end.

(** ** [Open] of [store.go] *)

Definition dsn (dir : string) : string :=
  "file:" +:+ Join [dir; "record.db"] +:+ "?_pragma=journal_mode(WAL)&_pragma=busy_timeout(5000)&_pragma=foreign_keys(1)".

Definition Open (migrations : gmap string string) (dir : string) : recording (option gerror) :=
  let! made := Do (MkdirAll dir) in
  match made with
  | Some err => Ret (Some (wrap_before "creating the record directory" err))
  | None =>
      let! opened := Do (OpenDB (dsn dir)) in
      match opened with
      | Some err => Ret (Some (wrap_before "opening the record" err))
      | None =>
          let! answered := Do Ping in
          match answered with
          | Some err => let! _ := Do CloseDB in Ret (Some (wrap_before "opening the record" err))
          | None =>
              let! migrated := migrate migrations in
              match migrated with
              | Some err => let! _ := Do CloseDB in Ret (Some err)
              | None =>
                  let! blobs := Do (OpenBlobs (Join [dir; "blobs"])) in
                  match blobs with
                  | Some err => let! _ := Do CloseDB in Ret (Some err)
                  | None => Ret None
                  end
              end
          end
      end
  end.

(** ** The database *)

Section world.
(** A schema, and what running a file's statements makes of one. *)
Context {S_ : Type} (run_sql : string → S_ → gerror + S_) (empty : S_) (migrations : gmap string string).

Record database := mkDatabase { d_applied : list (string * string); d_schema : S_ }.
(** The database as committed, and the transaction being written, with whose it is. *)
Record world := mkWorld { w_db : database; w_writing : option (nat * database) }.

Definition dropped (who : nat) (w : world) : world :=
  match w_writing w with Some (other, _) => if decide (other = who) then mkWorld (w_db w) None else w | None => w end.

(** What a call of process [who] may be answered.  An error of the first write of a transaction may
    leave anything in it; nothing else an error leaves is changed. *)
Inductive served (who : nat) (w : world) : ∀ c : record_cmd, record_resp c → world → Prop :=
| served_mkdir dir err : served who w (MkdirAll dir) err w
| served_open dsn err : served who w (OpenDB dsn) err w
| served_ping err : served who w Ping err w
| served_blobs dir err : served who w (OpenBlobs dir) err w
| served_now at_ : served who w NowUTC at_ w
| served_close : served who w CloseDB tt (dropped who w)
| served_create err : served who w CreateMigrations err w
| served_count name : served who w (CountApplied name)
    (inr (Z.of_nat (length (filter (λ row, fst row = name) (d_applied (w_db w)))))) w
| served_count_failed name err : served who w (CountApplied name) (inl err) w
| served_begin err : served who w BeginTx err w
| served_exec statements schema : w_writing w = None → run_sql statements (d_schema (w_db w)) = inr schema →
    served who w (ExecStatements statements) None
      (mkWorld (w_db w) (Some (who, mkDatabase (d_applied (w_db w)) schema)))
| served_exec_refused statements err : served who w (ExecStatements statements) (Some err) w
| served_exec_failed statements err d : w_writing w = None →
    served who w (ExecStatements statements) (Some err) (mkWorld (w_db w) (Some (who, d)))
| served_insert name at_ d : w_writing w = Some (who, d) → name ∉ map fst (d_applied d) →
    served who w (InsertApplied name at_) None
      (mkWorld (w_db w) (Some (who, mkDatabase (d_applied d ++ [(name, at_)]) (d_schema d))))
| served_insert_failed name at_ err : served who w (InsertApplied name at_) (Some err) w
| served_rollback : served who w Rollback tt (dropped who w)
| served_rollback_failed : served who w Rollback tt w
| served_commit d : w_writing w = Some (who, d) → served who w CommitTx None (mkWorld d None)
| served_commit_failed err : served who w CommitTx (Some err) w
| served_commit_dropped err : served who w CommitTx (Some err) (dropped who w).

(** The schema the first of the migrations leave, one after another, on an empty record. *)
Fixpoint migrated_from (names : list string) (schema : S_) : option S_ :=
  match names with
  | [] => Some schema
  | name :: names =>
      match run_sql (default "" (migrations !! name)) schema with inr schema => migrated_from names schema | inl _ => None end
  end.

Definition whole (d : database) : Prop :=
  ∃ k, map fst (d_applied d) = take k (sorted_keys migrations) ∧
    migrated_from (take k (sorted_keys migrations)) empty = Some (d_schema d).

(** Any number of processes opening one record that began empty, any of which may end at any point. *)
Definition opens : world → gmap nat (recording (option gerror)) → Prop :=
  reach (Sg := record_sig) served (λ w w', w' = w) (λ who w w', w' = dropped who w)
    (λ w, w = mkWorld (mkDatabase [] empty) None) (λ p, ∃ dir, p = Open migrations dir).

(** ** What the processes leave *)

Notation names := (sorted_keys migrations).

(** The record only gains migrations, and keeps still while one writes. *)
Definition rely (who : nat) (w w' : world) : Prop :=
  (∃ more, d_applied (w_db w') = d_applied (w_db w) ++ more) ∧
  ∀ d, w_writing w = Some (who, d) → w' = w.

Definition Inv (w : world) : Prop := whole (w_db w).

Notation keeps who Q p w := (guarded (Sg := record_sig) served rely Inv who Q p w).

Lemma rely_refl who w : rely who w w.
Proof. split; [exists []; by rewrite app_nil_r|done]. Qed.

Lemma rely_trans who w1 w2 w3 : rely who w1 w2 → rely who w2 w3 → rely who w1 w3.
Proof.
  intros [[l1 H1] K1] [[l2 H2] K2]. split.
  - exists (l1 ++ l2). by rewrite H2, H1, app_assoc.
  - intros d Hd. pose proof (K1 d Hd) as ->. by apply (K2 d).
Qed.

Lemma rely_same_db who w w' : w_db w' = w_db w → (∀ d, w_writing w ≠ Some (who, d)) → rely who w w'.
Proof. intros Hd Hw. split; [exists []; by rewrite Hd, app_nil_r|]. intros d He. by destruct (Hw d). Qed.

Lemma dropped_db who w : w_db (dropped who w) = w_db w.
Proof. unfold dropped. destruct (w_writing w) as [[]|]; [|done]. by case_decide. Qed.

Lemma dropped_rely who w other : other ≠ who → rely other w (dropped who w).
Proof.
  intros Hne. unfold dropped. destruct (w_writing w) as [[o d]|] eqn:E; [|apply rely_refl]. case_decide; [|apply rely_refl].
  apply rely_same_db; [done|]. intros d' He. rewrite E in He. congruence.
Qed.

Lemma drop_keeps who w : Inv w → Inv (dropped who w) ∧ ∀ other, other ≠ who → rely other w (dropped who w).
Proof. intros Hi. split; [unfold Inv; by rewrite dropped_db|]. intros other. apply dropped_rely. Qed.

(** *** A call at a time *)

(** A call that changes nothing the record holds, or ends a transaction without keeping it. *)
Definition harmless (c : record_cmd) : Prop := match c with ExecStatements _ | InsertApplied _ _ | CommitTx => False | _ => True end.

Lemma keeps_call who {B} (Q : B → world → Prop) c (k : record_resp c → recording B) w :
  (∀ w1 x w2, rely who w w1 → Inv w1 → served who w1 c x w2 →
     Inv w2 ∧ (∀ other, other ≠ who → rely other w1 w2) ∧ keeps who Q (k x) w2) →
  keeps who Q (bind (Do c) k) w.
Proof. intros Hk. exact Hk. Qed.

(** The migrations before the [i]-th are applied. *)
Definition reached (i : nat) (w : world) : Prop := ∃ rest, map fst (d_applied (w_db w)) = take i names ++ rest.

Lemma reached_rely i who w w' : rely who w w' → reached i w → reached i w'.
Proof. intros [[l Hl] _] [rest Hr]. exists (rest ++ map fst l). by rewrite Hl, map_app, Hr, app_assoc. Qed.

Lemma reached_dropped i who w : reached i w → reached i (dropped who w).
Proof. unfold reached. by rewrite dropped_db. Qed.

(** A call of a harmless kind: what was reached stays so. *)
Lemma harmless_call who i {B} (Q : B → world → Prop) c (k : record_resp c → recording B) w : harmless c → reached i w →
  (∀ x w', reached i w' → keeps who Q (k x) w') → keeps who Q (bind (Do c) k) w.
Proof.
  intros Hc Hw Hk. apply keeps_call. intros w1 x w2 Hr Hi Hs. apply (reached_rely i who _ _ Hr) in Hw. destruct Hs; try done.
  all: try (split; [exact Hi|split; [intros; apply rely_refl|by apply Hk]]).
  all: pose proof (drop_keeps who w1 Hi) as [Hi' Ho]; split; [exact Hi'|split; [exact Ho|apply Hk; by apply reached_dropped]].
Qed.

(** What a process knows once it has read that a migration is applied. *)
Lemma counted_applied name (applied : list (string * string)) :
  0 < Z.of_nat (length (filter (λ row, fst row = name) applied)) → name ∈ map fst applied.
Proof.
  destruct (filter _ _) as [|row rows] eqn:E; [done|]. intros _.
  assert (row ∈ filter (λ row, fst row = name) applied) as [<- Hin]%list_elem_of_filter by (rewrite E; apply list_elem_of_here).
  by apply list_elem_of_fmap_2.
Qed.

Lemma take_at i name : names !! i = Some name → take (S i) names = take i names ++ [name].
Proof. apply take_S_r. Qed.

(** The applied migrations are the first of them, so that to hold the [i]-th is to hold those up to it,
    and not to hold it, when those before it are, is to hold just those. *)
Lemma whole_holds i name d : whole d → names !! i = Some name → name ∈ map fst (d_applied d) → ∃ rest, map fst (d_applied d) = take (S i) names ++ rest.
Proof.
  intros (k & Hk & _) Hn Hin. rewrite Hk in Hin |- *. apply list_elem_of_lookup in Hin as [j Hj].
  assert (j < k)%nat as Hjk by (apply lookup_lt_Some in Hj; rewrite length_take in Hj; lia).
  rewrite lookup_take_lt in Hj by done. assert (j = i) as -> by (exact (NoDup_lookup _ _ _ _ (sorted_keys_NoDup migrations) Hj Hn)).
  exists (drop (S i) (take k names)). rewrite <- (take_drop (S i) (take k names)) at 1. rewrite take_take. f_equal.
  f_equal. lia.
Qed.

Lemma whole_next i name d rest : whole d → names !! i = Some name → map fst (d_applied d) = take i names ++ rest →
  name ∉ map fst (d_applied d) → map fst (d_applied d) = take i names ∧ migrated_from (take i names) empty = Some (d_schema d).
Proof.
  intros (k & Hk & Hs) Hn Hi Hnot. assert (k ≤ i)%nat as Hki.
  { destruct (decide (k ≤ i)%nat) as [|Hki]; [done|]. destruct Hnot. rewrite Hk. apply list_elem_of_lookup. exists i.
    rewrite lookup_take_lt by lia. done. }
  assert (take k names = take i names) as He.
  { rewrite Hk in Hi. assert (length (take i names) ≤ length (take k names))%nat as Hl by (rewrite Hi, length_app; lia).
    pose proof (lookup_lt_Some _ _ _ Hn). rewrite !length_take in Hl. by replace k with i by lia. }
  rewrite He in Hk, Hs. done.
Qed.

Lemma migrated_snoc before name schema schema' s0 : migrated_from before s0 = Some schema →
  run_sql (default "" (migrations !! name)) schema = inr schema' → migrated_from (before ++ [name]) s0 = Some schema'.
Proof.
  revert s0. induction before as [|b before IH]; intros s0; cbn [migrated_from app].
  - intros [= ->] Hrun. by rewrite Hrun.
  - destruct (run_sql (default "" (migrations !! b)) s0) as [err|s1]; [done|]. apply IH.
Qed.

(** *** One migration *)

Definition rely_others (who : nat) (w w' : world) : Prop := ∀ other, other ≠ who → rely other w w'.

(** What an answer says of the calls of a transaction. *)
Lemma served_says who w c x w' : served who w c x w' →
  match c as c return record_resp c → Prop with
  | CountApplied name => λ x, w' = w ∧ match x with inl _ => True | inr n => 0 < n → name ∈ map fst (d_applied (w_db w)) end
  | ExecStatements statements => λ x,
      w_db w' = w_db w ∧ rely_others who w w' ∧
      (x = None → ∃ schema, run_sql statements (d_schema (w_db w)) = inr schema ∧
         w_writing w' = Some (who, mkDatabase (d_applied (w_db w)) schema))
  | InsertApplied name at_ => λ x,
      w_db w' = w_db w ∧ rely_others who w w' ∧
      (x = None → ∃ d, w_writing w = Some (who, d) ∧ name ∉ map fst (d_applied d) ∧
         w_writing w' = Some (who, mkDatabase (d_applied d ++ [(name, at_)]) (d_schema d)))
  | CommitTx => λ x,
      match x with
      | None => ∃ d, w_writing w = Some (who, d) ∧ w' = mkWorld d None
      | Some _ => w_db w' = w_db w ∧ rely_others who w w'
      end
  | _ => λ _, True
  end x.
Proof.
  assert (∀ who w, rely_others who w w) as Hsame by (intros ? ? ? _; apply rely_refl).
  destruct 1 as [| | | | | | |name|name err| |statements schema Hw Hs|statements err|statements err d Hw|name at_ d Hw Hn
                |name at_ err| | |d Hw|err|err]; try done.
  - split; [done|]. apply counted_applied.
  - split_and!; [done| |intros _; by exists schema]. intros other Ho. apply rely_same_db; [done|]. by rewrite Hw.
  - split_and!; [done| |done]. intros other Ho. apply rely_same_db; [done|]. by rewrite Hw.
  - split_and!; [done| |intros _; by exists d]. intros other Ho. apply rely_same_db; [done|]. rewrite Hw. intros ? [= ??]. congruence.
  - by exists d.
  - split; [apply dropped_db|]. intros other Ho. by apply dropped_rely.
Qed.

(** The last three calls of a migration: it is run, noted and kept, or not at all. *)
Lemma written_keeps who i name (Q : option gerror → world → Prop) schema w : names !! i = Some name → reached i w →
  run_sql (default "" (migrations !! name)) (d_schema (w_db w)) = inr schema →
  w_writing w = Some (who, mkDatabase (d_applied (w_db w)) schema) →
  (∀ err w', Q (Some err) w') → (∀ w', reached (S i) w' → Q None w') →
  keeps who Q (let! now := Do NowUTC in
               let! inserted := Do (InsertApplied name now) in
               match inserted with
               | Some err => let! _ := Do Rollback in Ret (Some (wrap_before ("recording " +:+ name) err))
               | None => let! committed := Do CommitTx in Ret (wrap_before ("committing " +:+ name) <$> committed)
               end) w.
Proof.
  intros Hn Hw Hrun Hwr Hl Hr. apply keeps_call. intros w1 now w2 [_ Hrel] Hi Hs. pose proof (Hrel _ Hwr) as ->. clear Hrel.
  assert (w2 = w) as -> by by inversion Hs.
  split; [exact Hi|]. split; [intros; apply rely_refl|].
  apply keeps_call. intros w1 x w2 [_ Hrel] _ Hins. pose proof (Hrel _ Hwr) as ->. clear Hrel Hs.
  apply served_says in Hins as (Hdb & Ho & Hins). split; [by unfold Inv; rewrite Hdb|]. split; [exact Ho|].
  destruct x as [err|].
  { apply (harmless_call who i); [done|unfold reached; by rewrite Hdb|]. intros _ w' _. apply Hl. }
  destruct (Hins eq_refl) as (d & Hd & Hnot & Hw2). rewrite Hwr in Hd. injection Hd as <-. clear Hins.
  apply keeps_call. intros w1 x w3 [_ Hrel] _ Hc. pose proof (Hrel _ Hw2) as ->. clear Hrel. apply served_says in Hc. cbn [d_applied d_schema] in *.
  destruct x as [err|].
  { destruct Hc as [Hdb' Ho']. split; [unfold Inv; by rewrite Hdb', Hdb|]. split; [exact Ho'|]. apply Hl. }
  destruct Hc as (d & Hd & ->). rewrite Hw2 in Hd. injection Hd as <-. destruct Hw as [rest Hrest].
  destruct (whole_next i name _ rest Hi Hn Hrest Hnot) as [Happ Hsch].
  assert (map fst (d_applied (w_db w) ++ [(name, now)]) = take (S i) names) as Hall.
  { rewrite map_app, Happ. cbn [map fst]. by rewrite (take_S_r _ _ _ Hn). }
  split_and!.
  - exists (S i). split; [exact Hall|]. rewrite (take_S_r _ _ _ Hn). by apply (migrated_snoc _ _ (d_schema (w_db w))).
  - intros other Hne. split; [exists [(name, now)]; cbn [w_db d_applied]; by rewrite Hdb|]. intros d Hd. rewrite Hw2 in Hd. congruence.
  - apply Hr. exists []. rewrite app_nil_r. exact Hall.
Qed.

Lemma migrate_one_keeps who i name (Q : option gerror → world → Prop) w : names !! i = Some name → reached i w →
  (∀ err w', Q (Some err) w') → (∀ w', reached (S i) w' → Q None w') →
  keeps who Q (migrate_one name (default "" (migrations !! name))) w.
Proof.
  intros Hn Hw Hl Hr. unfold migrate_one. apply keeps_call. intros w1 x w2 Hrel Hi Hs. apply (reached_rely i who _ _ Hrel) in Hw. clear Hrel.
  apply served_says in Hs as [-> Hx]. split; [exact Hi|]. split; [intros; apply rely_refl|]. destruct x as [err|n]; [apply Hl|].
  destruct (Z.ltb_spec 0 n) as [Hlt|_]; [apply Hr, (whole_holds i name); auto|].
  apply (harmless_call who i); [done..|]. intros [err|] w2 Hw'; [apply Hl|].
  apply keeps_call. intros w3 x w4 Hrel Hi' Hs. apply (reached_rely i who _ _ Hrel) in Hw'. clear Hrel Hx.
  apply served_says in Hs as (Hdb & Ho & Hs). split; [by unfold Inv; rewrite Hdb|]. split; [exact Ho|].
  assert (reached i w4) as Hw4 by (unfold reached; by rewrite Hdb). destruct x as [err|].
  - apply (harmless_call who i); [done..|]. intros _ w' _. apply Hl.
  - destruct (Hs eq_refl) as (schema & Hrun & Hwr). rewrite <- Hdb in Hrun, Hwr. by apply (written_keeps who i name Q schema).
Qed.

Lemma migrate_all_keeps who (Q : option gerror → world → Prop) : ∀ rest before w, names = before ++ rest → reached (length before) w →
  (∀ err w', Q (Some err) w') → (∀ w', reached (length names) w' → Q None w') →
  keeps who Q (migrate_all migrations rest) w.
Proof.
  induction rest as [|name rest IH]; intros before w He Hw Hl Hr; cbn [migrate_all].
  - apply Hr. by rewrite He, app_nil_r.
  - apply guarded_bind, (migrate_one_keeps who (length before) name); [|done| |].
    + rewrite He. by apply list_lookup_middle.
    + intros err w'. apply Hl.
    + intros w' Hw'. apply (IH (before ++ [name])); [by rewrite He, <- app_assoc| |done..].
      rewrite length_app. cbn [length]. by rewrite Nat.add_1_r.
Qed.

(** *** Opening *)

Definition opened_whole (who : nat) (ended : option gerror) (w : world) : Prop := ended = None → reached (length names) w.

Lemma Open_keeps who dir w : keeps who (opened_whole who) (Open migrations dir) w.
Proof.
  assert (reached 0 w) as H0 by by exists (map fst (d_applied (w_db w))).
  assert (∀ err w', keeps who (opened_whole who) (let! _ := Do CloseDB in Ret (Some err)) w') as Hclose.
  { intros err w'. apply (harmless_call who 0); [done|by exists (map fst (d_applied (w_db w')))|]. intros _ w'' _. by intros ?. }
  unfold Open. apply (harmless_call who 0); [done..|]. intros [err|] w1 H1; [by intros ?|].
  apply (harmless_call who 0); [done..|]. intros [err|] w2 H2; [by intros ?|].
  apply (harmless_call who 0); [done..|]. intros [err|] w3 H3; [by apply Hclose|].
  apply guarded_bind. unfold migrate. apply (harmless_call who 0); [done..|]. intros [err|] w4 H4; [by apply Hclose|].
  apply (migrate_all_keeps who _ _ []); [done..| |].
  - intros err w'. by apply Hclose.
  - intros w5 H5. apply (harmless_call who (length names)); [done..|]. intros [err|] w6 H6; [by apply Hclose|].
    by intros ?.
Qed.

(** C38: However many processes open a record at once, whatever fails and whichever of them ends in the
    middle, the record is always that of some version: the migrations noted as applied are the
    first ones in the order of their names, each noted once, and its schema is what exactly
    those, run one after another on an empty record, leave; and a process told that it opened the
    record has one every migration it was built with is applied to, from then on. *)
Theorem a_record_is_migrated_whole w ps : opens w ps →
  whole (w_db w) ∧
  ∀ who, ps !! who = Some (Ret None) →
    map fst (d_applied (w_db w)) = names ∧ migrated_from names empty = Some (d_schema (w_db w)).
Proof.
  intros Hr.
  assert (Inv w ∧ ∀ who p, ps !! who = Some p → keeps who (opened_whole who) p w) as [Hi Hp].
  { revert Hr. apply reach_guarded.
    - apply rely_trans.
    - intros who b w1 w2 Hrel _ _ H Hb. by eapply reached_rely, H.
    - apply rely_refl.
    - intros w0 ->. by exists 0%nat.
    - intros w1 w2 H ->. split; [done|]. intros who. apply rely_refl.
    - intros who w1 w2 H ->. by apply drop_keeps.
    - intros who p w0 [dir ->] _. apply Open_keeps. }
  split; [exact Hi|]. intros who Hw. destruct (Hp who _ Hw eq_refl) as [rest Hrest]. destruct Hi as (k & Hk & Hs).
  rewrite firstn_all in Hrest. assert (take k names = names) as He.
  { apply take_ge. rewrite Hk in Hrest. apply (f_equal length) in Hrest. rewrite length_app, length_take in Hrest. lia. }
  by rewrite He in Hk, Hs.
Qed.
End world.

(** ** Two processes, one after the other *)

(** A database that answers well; a schema is the files run. *)
Definition runs_any (statements : string) (schema : list string) : gerror + list string := inr (schema ++ [statements]).
Definition two_files : gmap string string := {["0001_initial.sql" := "CREATE TABLE runs"; "0002_guard.sql" := "CREATE TABLE refusals"]}.
Notation database' := (world (S_ := list string)).

Definition answers_well (who : nat) (c : record_cmd) (w : database') : record_resp c * database' :=
  match c with
  | CloseDB => (tt, dropped who w)
  | Rollback => (tt, dropped who w)
  | CountApplied name => (inr (Z.of_nat (length (filter (λ row, fst row = name) (d_applied (w_db w))))), w)
  | ExecStatements statements =>
      match w_writing w with
      | None => (None, mkWorld (w_db w) (Some (who, mkDatabase (d_applied (w_db w)) (d_schema (w_db w) ++ [statements]))))
      | Some _ => (Some (Text "database is locked"), w)
      end
  | InsertApplied name at_ =>
      match w_writing w with
      | Some (other, d) =>
          if decide (other = who ∧ name ∉ map fst (d_applied d))
          then (None, mkWorld (w_db w) (Some (who, mkDatabase (d_applied d ++ [(name, at_)]) (d_schema d))))
          else (Some (Text "constraint failed"), w)
      | None => (Some (Text "no transaction"), w)
      end
  | CommitTx =>
      match w_writing w with
      | Some (other, d) => if decide (other = who) then (None, mkWorld d None) else (Some (Text "no transaction"), w)
      | None => (Some (Text "no transaction"), w)
      end
  | NowUTC => ("2026-01-01T00:00:00Z", w)
  | MkdirAll _ | OpenDB _ | Ping | OpenBlobs _ | CreateMigrations | BeginTx => (None, w)
  end.

Lemma answers_well_served who c w x w' : answers_well who c w = (x, w') → served runs_any who w c x w'.
Proof.
  destruct c; cbn [answers_well]; try (intros [= <- <-]; constructor).
  - destruct (w_writing w) as [[]|] eqn:E; intros [= <- <-]; [constructor|by constructor].
  - destruct (w_writing w) as [[other d]|] eqn:E; [|intros [= <- <-]; constructor].
    case_decide as Hd; intros [= <- <-]; [|constructor]. destruct Hd as [-> Hn]. by constructor.
  - destruct (w_writing w) as [[other d]|] eqn:E; [|intros [= <- <-]; constructor].
    case_decide as Hd; intros [= <- <-]; [subst; by constructor|constructor].
Qed.

Definition new_record : database' := mkWorld (mkDatabase [] []) None.
Definition first_open := exec (Sg := record_sig) (answers_well 0) (Open two_files "/srv/record") new_record.
Definition second_open := exec (Sg := record_sig) (answers_well 1) (Open two_files "/srv/record") (snd first_open).

Lemma a_record_is_migrated_whole_witness :
  opens runs_any [] two_files (snd second_open) {[0%nat := Ret (fst first_open); 1%nat := Ret (fst second_open)]} ∧
  (whole runs_any [] two_files (w_db (snd second_open)) ∧
   ∀ who, ({[0%nat := Ret (fst first_open); 1%nat := Ret (fst second_open)]} : gmap nat (recording (option gerror))) !! who = Some (Ret None) →
     map fst (d_applied (w_db (snd second_open))) = sorted_keys two_files ∧
     migrated_from runs_any two_files (sorted_keys two_files) [] = Some (d_schema (w_db (snd second_open)))).
Proof.
  assert (opens runs_any [] two_files (snd second_open) {[0%nat := Ret (fst first_open); 1%nat := Ret (fst second_open)]}) as Hr.
  { rewrite insert_union_singleton_l, (map_union_comm _ _), <- insert_union_singleton_l by (by apply map_disjoint_singleton_l_2).
    unfold opens. rewrite <- (insert_insert_eq (M := gmap nat) _ 1%nat _ (Open two_files "/srv/record")).
    apply (reach_exec (Sg := record_sig)); [intros c w x w'; apply answers_well_served| |by rewrite lookup_insert_eq].
    apply reach_spawn; [|done|by eexists].
    rewrite <- insert_empty, <- (insert_insert_eq (M := gmap nat) ∅ 0%nat _ (Open two_files "/srv/record")).
    apply (reach_exec (Sg := record_sig)); [intros c w x w'; apply answers_well_served| |by rewrite lookup_insert_eq].
    apply reach_spawn; [|done|by eexists]. by apply reach_start. }
  split; [exact Hr|]. exact (a_record_is_migrated_whole runs_any [] two_files _ _ Hr).
Defined.

Example the_second_open_finds_it_migrated :
  fst first_open = None ∧ fst second_open = None ∧ d_schema (w_db (snd second_open)) = ["CREATE TABLE runs"; "CREATE TABLE refusals"].
Proof. vm_compute. done. Qed.
