(* ===== verification/Guard.v ===== *)
(** The decision to run: [guard.go], [wait.go], [stamp.go] and [Reconcile] of [instance.go],
    in [src/runtime/internal/guard].

    The guard decides over a coordinator, a store, a clock and a directory it does not
    control: every call it makes on them is a command of [guard_sig], and its functions are
    programs over it, with the code's calls in the code's order.  A context bounded by [d] is
    the duration [d] handed to the one call made under it; [Released] answers its error and
    whether that context had ended when it returned, [CtxErr] whether the caller's own had.
    The loop of [await] takes a number of rounds and gives [None] when they run out. *)
From S2P Require Import Prelude GoStr GoTime GoPath GoErr Playbook GuardConfig Records Store Eff.

Export Eff.

(** A claim, as its interface shows it: which one it is, its token and the expiry granted. *)
Record Claim := mkClaim { c_Ref : nat; Token : Z; Expiry : Z }.

(** [stamp.go]: what a file's metadata says about whether it changed. *)
Record fileStamp := mkStamp { modified : Z; size : Z; inode : Z }.
#[export] Instance fileStamp_eq_dec : EqDecision fileStamp.
Proof. solve_decision. Defined.

Definition directoryStamp := gmap string fileStamp.

(** An entry of a directory; its metadata, or why there is none and whether that is because
    the file is gone. *)
Record dirEntry := mkEntry { e_Name : string; e_IsDir : bool; e_Info : (bool * gerror) + fileStamp }.

Fixpoint stamp_entries (entries : list dirEntry) (stamp : directoryStamp) : gerror + directoryStamp :=
  match entries with
  | [] => inr stamp
  | entry :: entries =>
      let ext := Ext (e_Name entry) in
      if e_IsDir entry || (negb (String.eqb ext ".yaml") && negb (String.eqb ext ".yml")) then
        stamp_entries entries stamp
      else
        match e_Info entry with
        | inl (true, _) => stamp_entries entries stamp
        | inl (false, err) => inl err
        | inr info => stamp_entries entries (<[e_Name entry := info]> stamp)
        end
  end.

(** ** What the guard calls *)

(** What a trigger is told as it begins to wait. *)
Record Waiting := mkWaiting {
  i_TriggerID : string; i_Holder : option Holder; i_Held : string; i_UpTo : Z }.

Inductive guard_cmd :=
| Monotonic
| Wall
| Acquire (within : Z) (ask : AcquireRequest)
| Reach
| Released (within : Z) (name : string)
| Release (within : Z) (claim : Claim)
| CtxErr
| ReadDir (dir : string)
| Reload (path : string)
| MintRunID
| RecordRefusal (refusal : Records.Refusal)
| AcceptWaiting (trigger : WaitingTrigger) (values : gmap string string)
| EndWait (id : string) (end_ : WaitEnd)
| StillWaiting
| Alive (instance : string)
| OnWait (waiting : Waiting).

Definition guard_resp (c : guard_cmd) : Type :=
  match c with
  | Monotonic | Wall => Z
  | Acquire _ _ => gerror + Claim
  | Reach => string
  | Released _ _ => option gerror * bool
  | Release _ _ | CtxErr | RecordRefusal _ => option gerror
  | ReadDir _ => gerror + list dirEntry
  | Reload _ => gerror + Playbook.Playbook
  | MintRunID => gerror + string
  | AcceptWaiting _ _ => WaitingTrigger * option gerror
  | EndWait _ _ => gerror + bool
  | StillWaiting => gerror + list WaitingTrigger
  | Alive _ => bool
  | OnWait _ => unit
  end.

#[export] Instance guard_sig : Signature := {| cmd := guard_cmd; resp := guard_resp |}.

(** A call, with its answer's type computed. *)
Definition Do (c : guard_cmd) : prog (guard_resp c) := call (Sg := guard_sig) c.
#[global] Arguments Do : simpl never.

Lemma runs_Do c tr (x : guard_resp c) :
  runs (Do c) tr x ↔ tr = [ev (Sg := guard_sig) c x].
Proof. apply (runs_call (Sg := guard_sig)). Qed.

(** ** The guard *)

Record WaitSlot := mkSlot { l_Instance : string; l_Mints : bool }.

Record Guard := mkGuard {
  g_Config : Config; g_Host : string; g_Instance : string; g_Backend : string;
  g_Slot : option WaitSlot }.

Record Request := mkRequest {
  q_RunID : string; q_Kind : string; q_DueAt : Z; q_Values : gmap string string;
  q_OnWait : bool }.

Record Admission := mkAdmission {
  m_Claim : Claim; m_Reach : string; m_RunID : string; m_Book : Playbook.Playbook;
  m_WaitingTriggerID : string; m_Waited : Z; m_sent : Instant }.

Record waitingTrigger := mkWaitingTrigger {
  t_book : Playbook.Playbook; t_req : Request; t_expiry : Z; t_accepted : Instant;
  t_row : WaitingTrigger; t_edited : option (Playbook.Playbook * directoryStamp) }.

Definition rateOf (book : Playbook.Playbook) (kind : string) : option RateLimit :=
  if negb (String.eqb kind TriggerSchedule) && negb (String.eqb kind TriggerManual) then None
  else
    match p_Guard book with
    | Some (Playbook.mkGuard (Some rate) _) =>
        match PerDuration rate with
        | inl _ => None
        | inr per => Some (mkRateLimit (Playbook.Runs rate) per)
        end
    | _ => None
    end.

Definition kindOf (kind : string) : string :=
  if String.eqb kind TriggerSchedule then KindSchedule else KindManual.

Definition dueOf (req : Request) : Z :=
  if String.eqb (q_Kind req) TriggerSchedule then q_DueAt req else 0.

Definition ask (g : Guard) (book : Playbook.Playbook) (req : Request) : AcquireRequest :=
  mkAcquireRequest (Name book) (mkHolder (g_Host g) (g_Instance g) (q_RunID req))
    (ClaimExpiry (g_Config g)) (rateOf book (q_Kind req))
    (mkTriggerRef (kindOf (q_Kind req)) (dueOf req)).

Definition mechanismOf (err : gerror) : string :=
  if errors_is err ErrHeld then MechanismClaimHeld
  else if errors_is err ErrTickRan then MechanismTickAlreadyRan
  else if errors_is err ErrRateLimited then MechanismRateLimited
  else MechanismBackendUnavailable.

Definition detail (g : Guard) (err : gerror) : string :=
  if String.eqb (g_Backend g) "" || negb (String.eqb (mechanismOf err) MechanismBackendUnavailable)
  then Error err
  else g_Backend g +:+ ": " +:+ Error err.

Definition recordRefusal (refusal : Records.Refusal) : prog gerror :=
  let! _ := Do (RecordRefusal refusal) in
  Ret (RefusedError (f_Mechanism refusal) (f_Detail refusal)).

Definition refuse (g : Guard) (name : string) (req : Request) (err : gerror) : prog gerror :=
  let! at_ := Do Wall in
  recordRefusal (mkRefusal "" name (q_Kind req) (dueOf req) "" (mechanismOf err) (detail g err) at_ "").

Definition waits (kind : string) (err : gerror) : bool :=
  String.eqb kind TriggerManual && errors_is err ErrHeld.

(** ** Reconciling the rows of dead processes *)

Definition dropped_refusal (trigger : WaitingTrigger) (at_ : Z) : Records.Refusal :=
  mkRefusal "" (w_PlaybookName trigger) (w_TriggerKind trigger) 0 (w_ID trigger) MechanismDropped
    ("trigger " +:+ w_ID trigger +:+ " accepted at " +:+ rfc3339 (w_AcceptedAt trigger)
     +:+ "; process " +:+ w_Instance trigger +:+ " ended before it ran") at_ "".

Fixpoint reconcile_rows (rows : list WaitingTrigger) (dropped : Z) : prog (Z * option gerror) :=
  match rows with
  | [] => Ret (dropped, None)
  | trigger :: rows =>
      if negb (String.eqb (w_RunID trigger) "") then
        let! at_ := Do Wall in
        let! r := Do (EndWait (w_ID trigger) (mkWaitEnd WaitRan at_ (w_RunID trigger) None)) in
        match r with
        | inl err => Ret (dropped, Some err)
        | inr _ => reconcile_rows rows dropped
        end
      else
        let! is_alive := Do (Alive (w_Instance trigger)) in
        if (is_alive : bool) then reconcile_rows rows dropped
        else
          let! at_ := Do Wall in
          let! r := Do (EndWait (w_ID trigger)
                          (mkWaitEnd WaitDropped at_ "" (Some (dropped_refusal trigger at_)))) in
          match r with
          | inl err => Ret (dropped, Some err)
          | inr ended => reconcile_rows rows (if (ended : bool) then dropped + 1 else dropped)
          end
  end.

Definition Reconcile : prog (Z * option gerror) :=
  let! r := Do StillWaiting in
  match r with
  | inl err => Ret (0, Some (wrap_before "reading the waiting triggers" err))
  | inr waiting => reconcile_rows waiting 0
  end.

(** ** Waiting *)

Definition errStillHeld : gerror := Sentinel "the claim is still held".

Definition slot_full_detail (row : WaitingTrigger) : string :=
  if IsZero (w_AcceptedAt row) then "a trigger is already waiting"
  else "a trigger accepted at " +:+ rfc3339 (w_AcceptedAt row) +:+ " is already waiting".

(** [accept]: the wait begins, or why it does not. *)
Definition accept (slot : WaitSlot) (book : Playbook.Playbook) (req : Request) (expiry : Z)
  : prog (gerror + waitingTrigger) :=
  let! _ := Reconcile in
  let! accepted := Do Monotonic in
  let! acceptedAt := Do Wall in
  let! answer := Do (AcceptWaiting
    (Records.mkWaitingTrigger "" (Name book) (p_Path book) (q_Kind req) "" acceptedAt
       (acceptedAt + expiry) (l_Instance slot) "" 0 "" "") (q_Values req)) in
  match answer with
  | (row, None) => Ret (inr (mkWaitingTrigger book req expiry accepted row None))
  | (row, Some err) =>
      if errors_is err ErrWaitingSlotFull then
        let! at_ := Do Wall in
        let! refused := recordRefusal (mkRefusal "" (Name book) (q_Kind req) 0 ""
                          MechanismWaitingSlotFull (slot_full_detail row) at_ "") in
        Ret (inl refused)
      else
        Ret (inl (wrap_before ("accepting a trigger of " +:+ Name book +:+ " to wait") err))
  end.

Definition remaining (w : waitingTrigger) : prog Z :=
  let! now := Do Monotonic in
  Ret (dur_sub (t_expiry w) (instant_sub now (t_accepted w))).

Definition stampOf (path : string) : prog (gerror + directoryStamp) :=
  let! r := Do (ReadDir (Dir path)) in
  Ret (let* entries := r in stamp_entries entries ∅).

Definition oneLine (err : gerror) : string :=
  join (List.filter (λ line, negb (String.eqb line "")) (map trim_space (split (Error err) nl))) "; ".

Definition cannot_load (w : waitingTrigger) (err : gerror) : gerror :=
  WaitEnded MechanismPlaybookChanged
    (p_Path (t_book w) +:+ " cannot be loaded now: " +:+ oneLine err).

Definition set_edited (edited : Playbook.Playbook) (stamp : directoryStamp) (w : waitingTrigger)
  : waitingTrigger :=
  mkWaitingTrigger (t_book w) (t_req w) (t_expiry w) (t_accepted w) (t_row w) (Some (edited, stamp)).

(** [reread], and the trigger with what it read. *)
Definition reread (w : waitingTrigger) : prog ((gerror + Playbook.Playbook) * waitingTrigger) :=
  let! stamped := stampOf (p_Path (t_book w)) in
  match stamped with
  | inl err => Ret (inl (cannot_load w err), w)
  | inr stamp =>
      let again :=
        let! r := Do (Reload (p_Path (t_book w))) in
        match r with
        | inl err => Ret (inl (cannot_load w err), w)
        | inr edited =>
            if negb (String.eqb (Name edited) (Name (t_book w))) then
              Ret (inl (WaitEnded MechanismPlaybookChanged
                    (p_Path (t_book w) +:+ " now declares " +:+ quote (Name edited) +:+ ", not "
                     +:+ quote (Name (t_book w)))), w)
            else Ret (inr edited, set_edited edited stamp w)
        end in
      match t_edited w with
      | Some (edited, last) =>
          if decide (stamp = last) then Ret (inr edited, w) else again
      | None => again
      end
  end.

Definition changed (w : waitingTrigger) : prog bool :=
  let! stamped := stampOf (p_Path (t_book w)) in
  Ret (match stamped, t_edited w with
       | inr stamp, Some (_, last) => negb (bool_decide (stamp = last))
       | inr stamp, None => negb (bool_decide (stamp = ∅))
       | inl _, _ => true
       end).

Definition giveBack (g : Guard) (claim : Claim) : prog unit :=
  let! _ := Do (Release (DecisionBound (g_Config g)) claim) in Ret tt.

Definition readThenClaim (g : Guard) (w : waitingTrigger) (req : Request)
  : prog ((gerror + Claim * Playbook.Playbook) * waitingTrigger) :=
  let! (r, w) := reread w in
  match r with
  | inl err => Ret (inl err, w)
  | inr edited =>
      let! granted := Do (Acquire (DecisionBound (g_Config g)) (ask g edited req)) in
      Ret (let* claim := granted in inr (claim, edited), w)
  end.

Definition expired (w : waitingTrigger) : gerror :=
  WaitEnded MechanismWaitExpired
    ("waited the " +:+ HumanDuration (t_expiry w) +:+ " " +:+ Name (t_book w)
     +:+ " allows, and its claim was still held").

(** The request of one round: a fresh run identifier when the slot mints them. *)
Definition minted (slot : WaitSlot) (req : Request) : prog (gerror + Request) :=
  if l_Mints slot then
    let! r := Do MintRunID in
    Ret (let* id := r in
         inr (mkRequest id (q_Kind req) (q_DueAt req) (q_Values req) (q_OnWait req)))
  else Ret (inr req).

(** The claim asked for, and what comes of it: the second half of [try]. *)
Definition claim_now (g : Guard) (w : waitingTrigger) (req : Request)
  : prog ((gerror + Admission) * waitingTrigger) :=
  let! sent := Do Monotonic in
  let! (r, w) := readThenClaim g w req in
  match r with
  | inl err => Ret (inl (if errors_is err ErrHeld then errStillHeld else err), w)
  | inr (claim, edited) =>
      let! now := Do Monotonic in
      let waited := instant_sub now (t_accepted w) in
      let! moved := changed w in
      if (moved : bool) then
        let! _ := giveBack g claim in Ret (inl errStillHeld, w)
      else
        let! reach := Do Reach in
        Ret (inr (mkAdmission claim reach (q_RunID req) edited (w_ID (t_row w)) waited sent), w)
  end.

Definition try (g : Guard) (slot : WaitSlot) (w : waitingTrigger)
  : prog ((gerror + Admission) * waitingTrigger) :=
  let! remains := remaining w in
  if remains <=? 0 then Ret (inl (expired w), w)
  else
    let! (err, watched) := Do (Released remains (Name (t_book w))) in
    let! remains := remaining w in
    if remains <=? 0 then Ret (inl errStillHeld, w)
    else
      let! stopping := match err with
                       | Some _ => if (watched : bool) then Do CtxErr else Ret None
                       | None => Ret None
                       end in
      match err with
      | Some err =>
          match watched, stopping with
          | true, None => Ret (inl errStillHeld, w)
          | _, _ => Ret (inl err, w)
          end
      | None =>
          let! r := minted slot (t_req w) in
          match r with
          | inl err => Ret (inl err, w)
          | inr req => claim_now g w req
          end
      end.

Definition wait_refusal (g : Guard) (w : waitingTrigger) (err : gerror) (at_ : Z) : Records.Refusal :=
  let '(mechanism, detail) :=
    match as_wait_ended err with
    | Some ended => ended
    | None => (mechanismOf err, detail g err)
    end in
  mkRefusal "" (Name (t_book w)) (q_Kind (t_req w)) 0 (w_ID (t_row w)) mechanism detail at_ "".

Definition endWait (g : Guard) (w : waitingTrigger) (err : gerror) : prog gerror :=
  let! at_ := Do Wall in
  let refusal := wait_refusal g w err at_ in
  let! _ := Do (EndWait (w_ID (t_row w)) (mkWaitEnd (f_Mechanism refusal) at_ "" (Some refusal))) in
  Ret (RefusedError (f_Mechanism refusal) (f_Detail refusal)).

(** The rounds of [await], at most [fuel] of them. *)
Fixpoint rounds (fuel : nat) (g : Guard) (slot : WaitSlot) (w : waitingTrigger)
  : prog (option (gerror + Admission)) :=
  match fuel with
  | O => Ret None
  | S fuel =>
      let! (r, w) := try g slot w in
      match r with
      | inr admitted => Ret (Some (inr admitted))
      | inl err =>
          if errors_is err errStillHeld then rounds fuel g slot w
          else
            let! stopping := Do CtxErr in
            match stopping with
            | Some ctx_err => Ret (Some (inl ctx_err))
            | None => let! refused := endWait g w err in Ret (Some (inl refused))
            end
      end
  end.

Definition await (fuel : nat) (g : Guard) (slot : WaitSlot) (w : waitingTrigger) (held : gerror)
  : prog (option (gerror + Admission)) :=
  let! _ := (if q_OnWait (t_req w)
             then Do (OnWait (mkWaiting (w_ID (t_row w)) (as_held held) (Error held) (t_expiry w)))
             else Ret tt) in
  rounds fuel g slot w.

Definition wait (fuel : nat) (g : Guard) (slot : WaitSlot) (book : Playbook.Playbook) (req : Request)
    (held : gerror) : prog (option (gerror + Admission)) :=
  match WaitFor book with
  | inl err => Ret (Some (inl (Text err)))
  | inr expiry =>
      let! r := accept slot book req expiry in
      match r with
      | inl err => Ret (Some (inl err))
      | inr w => await fuel g slot w held
      end
  end.

Definition Admit (fuel : nat) (g : Guard) (book : Playbook.Playbook) (req : Request)
  : prog (option (gerror + Admission)) :=
  let! sent := Do Monotonic in
  let! r := Do (Acquire (DecisionBound (g_Config g)) (ask g book req)) in
  match r with
  | inl err =>
      match g_Slot g with
      | Some slot =>
          if waits (q_Kind req) err then wait fuel g slot book req err
          else let! refused := refuse g (Name book) req err in Ret (Some (inl refused))
      | None => let! refused := refuse g (Name book) req err in Ret (Some (inl refused))
      end
  | inr claim =>
      let! reach := Do Reach in
      Ret (Some (inr (mkAdmission claim reach (q_RunID req) book "" 0 sent)))
  end.

(** ** What the guard does, read off every trace it can have: the claims it takes and gives
    back, the refusals it writes, when it asks, and when it stops waiting.

    A statement about [runs] holds in every world; [Eff.exec_runs] carries it to any
    particular one. *)

(** ** Reading a trace *)

Definition trace : Type := list (event (Sg := guard_sig)).

Definition project {B} (f : ∀ c : guard_cmd, guard_resp c → option B) (tr : trace) : list B :=
  omap (λ e : event (Sg := guard_sig), f (projT1 e) (projT2 e)) tr.

Definition granted (c : guard_cmd) : guard_resp c → option Claim :=
  match c with
  | Acquire _ _ => λ r, match r with inr claim => Some claim | inl _ => None end
  | _ => λ _, None
  end.
Definition given_back (c : guard_cmd) : guard_resp c → option Claim :=
  match c with Release _ claim => λ _, Some claim | _ => λ _, None end.
Definition asked (c : guard_cmd) : guard_resp c → option AcquireRequest :=
  match c with Acquire _ ask => λ _, Some ask | _ => λ _, None end.

(** The refusals written about the trigger in hand: the ones written for another process's
    trigger say it was dropped. *)
Definition own (r : Records.Refusal) : option Records.Refusal :=
  if String.eqb (f_Mechanism r) MechanismDropped then None else Some r.
Definition refusal_of (c : guard_cmd) : guard_resp c → option Records.Refusal :=
  match c with
  | RecordRefusal r => λ _, own r
  | EndWait _ end_ => λ _, n_Refusal end_ ≫= own
  | _ => λ _, None
  end.

Definition grants : trace → list Claim := project granted.
Definition releases : trace → list Claim := project given_back.
Definition asks : trace → list AcquireRequest := project asked.
Definition own_refusals : trace → list Records.Refusal := project refusal_of.

Lemma project_app {B} (f : ∀ c : guard_cmd, guard_resp c → option B) tr1 tr2 :
  project f (tr1 ++ tr2) = project f tr1 ++ project f tr2.
Proof. apply omap_app. Qed.

Create Rewrite HintDb trace.
#[export] Hint Rewrite @project_app : trace.

(** Programs none of whose calls [f] reads. *)
Definition silent {B A} (f : ∀ c : guard_cmd, guard_resp c → option B) (p : prog A) : Prop :=
  ∀ tr a, runs p tr a → project f tr = [].

Lemma silent_ret {B A} (f : ∀ c, guard_resp c → option B) (a : A) : silent f (Ret a).
Proof. by intros tr b [-> _]. Qed.
Lemma silent_do {B} (f : ∀ c, guard_resp c → option B) c : (∀ x, f c x = None) → silent f (Do c).
Proof. intros Hf tr a ->%runs_Do. simpl. by rewrite Hf. Qed.
Lemma silent_bind {B A C} (f : ∀ c, guard_resp c → option B) (p : prog A) (q : A → prog C) :
  silent f p → (∀ a, silent f (q a)) → silent f (bind p q).
Proof.
  intros Hp Hq tr b (a & tr1 & tr2 & -> & H1 & H2)%runs_bind.
  rewrite project_app, (Hp _ _ H1), (Hq _ _ _ H2). done.
Qed.

(** Silence, by the shape of the program: what is left is what its calls are read as. *)
Ltac silence :=
  repeat (cbn beta; first
    [ apply silent_ret
    | match goal with
      | |- silent ?f (Do ?c) => refine (silent_do f c _); solve [by intros ?|intros ?; auto]
      | |- silent _ (bind _ _) => apply silent_bind; [|intros ?]
      | |- silent _ (match ?x with _ => _ end) => destruct x
      | |- silent _ (if ?x then _ else _) => destruct x
      end ]).

Lemma stampOf_silent {B} (f : ∀ c, guard_resp c → option B) path :
  (∀ dir x, f (ReadDir dir) x = None) → silent f (stampOf path).
Proof. intros Hf. unfold stampOf. silence. Qed.

Lemma reconcile_rows_silent {B} (f : ∀ c, guard_resp c → option B) rows n :
  (∀ x, f Wall x = None) → (∀ i x, f (Alive i) x = None) →
  (∀ id at_ run x, f (EndWait id (mkWaitEnd WaitRan at_ run None)) x = None) →
  (∀ id at_ w x, f (EndWait id (mkWaitEnd WaitDropped at_ "" (Some (dropped_refusal w at_)))) x = None) →
  silent f (reconcile_rows rows n).
Proof.
  intros Hw Ha Hr Hd. revert n.
  induction rows as [|trigger rows IH]; intros n; simpl; silence; apply IH.
Qed.

Lemma Reconcile_silent {B} (f : ∀ c, guard_resp c → option B) :
  (∀ x, f StillWaiting x = None) → (∀ x, f Wall x = None) → (∀ i x, f (Alive i) x = None) →
  (∀ id at_ run x, f (EndWait id (mkWaitEnd WaitRan at_ run None)) x = None) →
  (∀ id at_ w x, f (EndWait id (mkWaitEnd WaitDropped at_ "" (Some (dropped_refusal w at_)))) x = None) →
  silent f Reconcile.
Proof. intros Hs Hw Ha Hr Hd. unfold Reconcile. silence. by apply reconcile_rows_silent. Qed.

(** ** Taking a trace apart *)

Lemma runs_do_bind {B} (c : guard_cmd) (f : guard_resp c → prog B) tr b :
  runs (bind (Do c) f) tr b →
  ∃ (x : guard_resp c) tr', tr = ev (Sg := guard_sig) c x :: tr' ∧ runs (f x) tr' b.
Proof. intros (x & tr1 & tr2 & -> & ->%runs_Do & H)%runs_bind. by exists x, tr2. Qed.

(** One call or one branch at a time, answers named by what they are. *)
Ltac take :=
  match goal with
  | H : runs (bind (Do ?c) _) _ _ |- _ =>
      let x := fresh "x" in let tr := fresh "tr" in
      destruct (runs_do_bind c _ _ _ H) as (x & tr & -> & ?); clear H; cbn beta in *
  | H : runs (Do ?c) ?tr ?x |- _ =>
      let E := fresh in assert (tr = [ev (Sg := guard_sig) c x]) as E by exact (proj1 (runs_Do c tr x) H);
      clear H; subst tr
  | H : runs (bind _ _) _ _ |- _ =>
      apply runs_bind in H as (? & ? & ? & -> & ? & ?); cbn beta in *
  | H : runs (Ret _) _ _ |- _ => destruct H as [-> ?]; simplify_eq
  | H : runs (match ?x with _ => _ end) _ _ |- _ => destruct x eqn:?; simplify_eq
  end.

Definition claims_of (r : gerror + Admission) : list Claim :=
  match r with inl _ => [] | inr admitted => [m_Claim admitted] end.

(** Every claim taken is given back, but for the one handed to the caller. *)
Definition accounted (tr : trace) (r : gerror + Admission) : Prop :=
  grants tr = releases tr ++ claims_of r.

Lemma accounted_app tr1 tr2 err r : accounted tr1 (inl err) → accounted tr2 r → accounted (tr1 ++ tr2) r.
Proof.
  unfold accounted, grants, releases. simpl. rewrite app_nil_r, !project_app.
  intros -> ->. by rewrite app_assoc.
Qed.

Lemma accounted_silent tr err : grants tr = [] → releases tr = [] → accounted tr (inl err).
Proof. unfold accounted. intros -> ->. done. Qed.

Lemma reread_silent {B} (f : ∀ c, guard_resp c → option B) w :
  (∀ dir x, f (ReadDir dir) x = None) → (∀ path x, f (Reload path) x = None) → silent f (reread w).
Proof. intros Hd Hr. unfold reread. silence. by apply stampOf_silent. Qed.

Lemma changed_silent {B} (f : ∀ c, guard_resp c → option B) w :
  (∀ dir x, f (ReadDir dir) x = None) → silent f (changed w).
Proof. intros Hd. unfold changed. silence. by apply stampOf_silent. Qed.

(** What [reread] gives: the file as it is now, under the same name. *)
Lemma reread_cases w tr r w' :
  runs (reread w) tr (r, w') →
  ∃ ans tr', tr = ev (Sg := guard_sig) (ReadDir (Dir (p_Path (t_book w)))) ans :: tr' ∧
  (tr' = [] ∨ ∃ x, tr' = [ev (Sg := guard_sig) (Reload (p_Path (t_book w))) x]) ∧
  match r with
  | inl err => w' = w ∧ ∃ d, err = WaitEnded MechanismPlaybookChanged d
  | inr edited =>
      ∃ entries stamp, ans = inr entries ∧ stamp_entries entries ∅ = inr stamp ∧
        (t_edited w = Some (edited, stamp) ∧ tr' = [] ∧ w' = w ∨
         tr' = [ev (Sg := guard_sig) (Reload (p_Path (t_book w))) (inr edited)] ∧
         Name edited = Name (t_book w) ∧ w' = set_edited edited stamp w)
  end.
Proof.
  unfold reread, stampOf. intros H. repeat take.
  all: eexists _, _; split; [reflexivity|]; split; [by eauto|].
  all: try (split; [done|unfold cannot_load; eauto]).
  all: match goal with
       | H : (let* _ := ?ans in _) = inr _ |- _ => destruct ans as [|entries]; [done|]
       end; exists entries; eexists; split; [done|]; split; [done|].
  all: bool_facts; auto.
Qed.

(** *** The shapes of a round *)

#[local] Notation "c ⟶ x" := (ev (Sg := guard_sig) c x) (at level 50).

(** Time left on reading [z]. *)
Definition left_at (w : waitingTrigger) (z : Instant) : Z :=
  dur_sub (t_expiry w) (instant_sub z (t_accepted w)).

Definition held_or (err : gerror) : gerror := if errors_is err ErrHeld then errStillHeld else err.

(** The second half of a round: the file read again, the claim asked for under its name and
    once, and given back when the file moved meanwhile. *)
Inductive claimed (g : Guard) (w : waitingTrigger) (req : Request) (w' : waitingTrigger)
  : trace → gerror + Admission → Prop :=
| claimed_unread sent tr1 err :
    runs (reread w) tr1 (inl err, w') →
    claimed g w req w' (Monotonic ⟶ sent :: tr1) (inl (held_or err))
| claimed_refused sent tr1 edited err :
    runs (reread w) tr1 (inr edited, w') →
    claimed g w req w'
      (Monotonic ⟶ sent :: tr1
       ++ [Acquire (DecisionBound (g_Config g)) (ask g edited req) ⟶ inl err]) (inl (held_or err))
| claimed_moved sent tr1 edited claim now entries x :
    runs (reread w) tr1 (inr edited, w') →
    claimed g w req w'
      (Monotonic ⟶ sent :: tr1
       ++ [Acquire (DecisionBound (g_Config g)) (ask g edited req) ⟶ inr claim;
           Monotonic ⟶ now; ReadDir (Dir (p_Path (t_book w'))) ⟶ entries;
           Release (DecisionBound (g_Config g)) claim ⟶ x]) (inl errStillHeld)
| claimed_kept sent tr1 edited claim now entries stamp reach :
    runs (reread w) tr1 (inr edited, w') →
    stamp_entries entries ∅ = inr stamp →
    (∀ b last, t_edited w' = Some (b, last) → stamp = last) →
    claimed g w req w'
      (Monotonic ⟶ sent :: tr1
       ++ [Acquire (DecisionBound (g_Config g)) (ask g edited req) ⟶ inr claim;
           Monotonic ⟶ now; ReadDir (Dir (p_Path (t_book w'))) ⟶ inr entries; Reach ⟶ reach])
      (inr (mkAdmission claim reach (q_RunID req) edited (w_ID (t_row w'))
              (instant_sub now (t_accepted w')) sent)).

Lemma claim_now_cases g w req tr r w' :
  runs (claim_now g w req) tr (r, w') → claimed g w req w' tr r.
Proof.
  unfold claim_now, readThenClaim, changed, stampOf, giveBack. intros H. repeat take.
  all: rewrite ?app_nil_r, <-?app_assoc.
  all: repeat match goal with
       | H : (let* _ := ?x in _) = _ |- _ => destruct x; simplify_eq
       end.
  - by constructor.
  - by constructor.
  - by eapply claimed_moved.
  - match goal with H : (match _ with _ => _ end) = false |- _ => revert H end.
    destruct x2 as [|entries]; [done|]. destruct (stamp_entries entries ∅) as [|stamp] eqn:E; [done|].
    intros Hm. eapply claimed_kept; [done|done|].
    intros b last Hl. rewrite Hl in Hm. apply negb_false_iff in Hm. by apply bool_decide_eq_true in Hm.
Qed.

(** A round of the wait. *)
Inductive round (g : Guard) (slot : WaitSlot) (w : waitingTrigger)
  : waitingTrigger → trace → gerror + Admission → Prop :=
| round_expired z : left_at w z <= 0 → round g slot w w [Monotonic ⟶ z] (inl (expired w))
| round_late z ans z2 : 0 < left_at w z → left_at w z2 <= 0 →
    round g slot w w [Monotonic ⟶ z; Released (left_at w z) (Name (t_book w)) ⟶ ans;
                      Monotonic ⟶ z2] (inl errStillHeld)
| round_watched z err z2 : 0 < left_at w z → 0 < left_at w z2 →
    round g slot w w [Monotonic ⟶ z; Released (left_at w z) (Name (t_book w)) ⟶ (Some err, true);
                      Monotonic ⟶ z2; CtxErr ⟶ None] (inl errStillHeld)
| round_failed z err watched z2 tr : 0 < left_at w z → 0 < left_at w z2 →
    (watched = false ∧ tr = [] ∨ (watched = true ∧ ∃ stopping, tr = [CtxErr ⟶ Some stopping])) →
    round g slot w w ([Monotonic ⟶ z; Released (left_at w z) (Name (t_book w)) ⟶ (Some err, watched);
                      Monotonic ⟶ z2] ++ tr) (inl err)
| round_no_id z watched z2 err : 0 < left_at w z → 0 < left_at w z2 →
    round g slot w w [Monotonic ⟶ z; Released (left_at w z) (Name (t_book w)) ⟶ (None, watched);
                      Monotonic ⟶ z2; MintRunID ⟶ inl err] (inl err)
| round_asked z watched z2 tr1 req tr2 w' r : 0 < left_at w z → 0 < left_at w z2 →
    (tr1 = [] ∧ req = t_req w ∨
     ∃ id, tr1 = [MintRunID ⟶ inr id] ∧
       req = mkRequest id (q_Kind (t_req w)) (q_DueAt (t_req w)) (q_Values (t_req w))
               (q_OnWait (t_req w))) →
    claimed g w req w' tr2 r →
    round g slot w w' ([Monotonic ⟶ z; Released (left_at w z) (Name (t_book w)) ⟶ (None, watched);
                        Monotonic ⟶ z2] ++ tr1 ++ tr2) r.

Lemma try_cases g slot w tr r w' : runs (try g slot w) tr (r, w') → round g slot w w' tr r.
Proof.
  unfold try, remaining, minted. intros H. repeat take.
  all: bool_facts; rewrite ?app_nil_r; cbn [app].
  all: repeat match goal with
       | H : (let* _ := ?x in _) = _ |- _ => destruct x; simplify_eq
       end.
  - by apply round_expired.
  - by apply round_late.
  - eapply (round_failed _ _ _ _ _ true _ [_]); [done|done|]. right. eauto.
  - by apply round_watched.
  - eapply (round_failed _ _ _ _ _ false _ []); [done|done|]. by left.
  - by apply round_no_id.
  - match goal with H : runs (claim_now _ _ _) _ _ |- _ => apply claim_now_cases in H end.
    eapply (round_asked _ _ _ _ _ _ [_]); [done|done|right; eauto|done].
  - match goal with H : runs (claim_now _ _ _) _ _ |- _ => apply claim_now_cases in H end.
    eapply (round_asked _ _ _ _ _ _ []); [done|done|by left|done].
Qed.

(** Every claim a round takes and does not hand over it gives back. *)
Lemma round_accounted g slot w w' tr r : round g slot w w' tr r → accounted tr r.
Proof.
  assert (∀ w tr r w', runs (reread w) tr (r, w') → grants tr = [] ∧ releases tr = []) as Hread.
  { intros w0 tr0 r0 w0' H. split; eapply reread_silent; by try exact H. }
  destruct 1 as [|?????|?????|z err b z2 tr ?? Htr|?????|z b z2 tr1 req tr2 w' r ?? Htr Hc];
    unfold accounted, grants, releases; try done.
  - by destruct Htr as [[_ ->]|(_ & ? & ->)].
  - rewrite !project_app. assert (project granted tr1 = [] ∧ project given_back tr1 = []) as [-> ->]
      by (by destruct Htr as [[-> _]|(? & -> & _)]).
    destruct Hc as [sent tr err Hr|sent tr edited err Hr|sent tr edited claim now en x Hr
                   |sent tr edited claim now en st rc Hr _ _];
      destruct (Hread _ _ _ _ Hr) as [Hg Hb]; unfold grants, releases in *; simpl;
      rewrite ?project_app, ?Hg, ?Hb; done.
Qed.

(** *** The shapes of a wait *)

(** The rounds of a wait, at most [fuel]. *)
Inductive waited_out (g : Guard) (slot : WaitSlot)
  : nat → waitingTrigger → trace → option (gerror + Admission) → Prop :=
| out_of_rounds w : waited_out g slot 0 w [] None
| out_admitted fuel w w' tr admitted :
    round g slot w w' tr (inr admitted) → waited_out g slot (S fuel) w tr (Some (inr admitted))
| out_again fuel w w' tr tr' err r :
    round g slot w w' tr (inl err) → errors_is err errStillHeld = true →
    waited_out g slot fuel w' tr' r → waited_out g slot (S fuel) w (tr ++ tr') r
| out_stopped fuel w w' tr err stopping :
    round g slot w w' tr (inl err) →
    waited_out g slot (S fuel) w (tr ++ [CtxErr ⟶ Some stopping]) (Some (inl stopping))
| out_ended fuel w w' tr err at_ x refusal :
    round g slot w w' tr (inl err) → errors_is err errStillHeld = false →
    refusal = wait_refusal g w' err at_ →
    waited_out g slot (S fuel) w
      (tr ++ [CtxErr ⟶ None; Wall ⟶ at_;
              EndWait (w_ID (t_row w')) (mkWaitEnd (f_Mechanism refusal) at_ "" (Some refusal)) ⟶ x])
      (Some (inl (RefusedError (f_Mechanism refusal) (f_Detail refusal)))).

Lemma rounds_cases fuel g slot w tr r :
  runs (rounds fuel g slot w) tr r → waited_out g slot fuel w tr r.
Proof.
  revert w tr. induction fuel as [|fuel IH]; intros w tr H; simpl in H.
  { take. constructor. }
  unfold endWait in H. repeat take.
  all: rewrite ?app_nil_r; cbn [app].
  all: match goal with H : runs (try _ _ _) _ _ |- _ => apply try_cases in H end.
  - eapply out_again; eauto.
  - by eapply out_stopped.
  - by eapply out_ended.
  - by eapply out_admitted.
Qed.

(** A wait is about one trigger: only what was last read of its file changes. *)
Definition same_trigger (w w' : waitingTrigger) : Prop :=
  t_book w' = t_book w ∧ t_req w' = t_req w ∧ t_expiry w' = t_expiry w ∧
  t_accepted w' = t_accepted w ∧ t_row w' = t_row w.

Lemma reread_same w tr r w' : runs (reread w) tr (r, w') → same_trigger w w'.
Proof.
  intros (ans & tr' & _ & _ & H)%reread_cases. destruct r as [err|edited].
  - by destruct H as [-> _].
  - by destruct H as (? & ? & _ & _ & [(_ & _ & ->)|(_ & _ & ->)]).
Qed.

Lemma round_same g slot w w' tr r : round g slot w w' tr r → same_trigger w w'.
Proof.
  destruct 1 as [| | | | |z b z2 tr1 req tr2 w' r ??? Hc]; [done..|].
  destruct Hc as [? ? ? Hr|? ? ? ? Hr|? ? ? ? ? ? ? Hr|? ? ? ? ? ? ? ? Hr _ _]; by eapply reread_same.
Qed.

Lemma waited_accounted g slot fuel w tr r :
  waited_out g slot fuel w tr r → accounted tr (default (inl errStillHeld) r).
Proof.
  induction 1 as [|fuel w w' tr adm H|fuel w w' tr tr' err r H _ _ IH|fuel w w' tr err c H
                 |fuel w w' tr err at_ x refusal H _ _]; simpl in *; try apply round_accounted in H.
  - done.
  - done.
  - by eapply accounted_app.
  - eapply accounted_app; [done|]. done.
  - eapply accounted_app; [done|]. done.
Qed.
