(* ===== verification/GuardSafe.v ===== *)
(** What the guard promises, proved of every trace of [Admit]: claims accounted for, one
    refusal for one trigger, what a trigger that waited runs, when it asks, and that a wait
    ends. *)
From S2P Require Import Prelude GoStr GoTime GoPath GoErr Playbook GuardConfig Records Store.
From S2P Require Import Eff Guard.

#[local] Notation "c ⟶ x" := (ev (Sg := guard_sig) c x) (at level 50).

(** ** The shapes of an admission *)

Section admission.
Context (g : Guard) (book : Playbook.Playbook) (req : Request).

(** What the trigger is asked first, however it ends. *)
Definition first_ask (sent : Instant) (ans : gerror + Claim) : trace :=
  [Monotonic ⟶ sent; Acquire (DecisionBound (g_Config g)) (ask g book req) ⟶ ans].

Definition accepted_row (slot : WaitSlot) (expiry at_ : Z) : WaitingTrigger :=
  Records.mkWaitingTrigger "" (Name book) (p_Path book) (q_Kind req) "" at_ (at_ + expiry)
    (l_Instance slot) "" 0 "" "".

(** How a refused trigger comes to wait, up to the answer of [AcceptWaiting]. *)
Definition acceptance (slot : WaitSlot) (expiry : Z) (tr : trace) (accepted : Instant) (at_ : Z)
    (ans : WaitingTrigger * option gerror) (rest : trace) : trace :=
  tr ++ Monotonic ⟶ accepted :: Wall ⟶ at_
     :: AcceptWaiting (accepted_row slot expiry at_) (q_Values req) ⟶ ans :: rest.

Inductive admission (fuel : nat) : trace → option (gerror + Admission) → Prop :=
| admission_granted sent claim reach :
    admission fuel (first_ask sent (inr claim) ++ [Reach ⟶ reach])
      (Some (inr (mkAdmission claim reach (q_RunID req) book "" 0 sent)))
| admission_refused sent err at_ x refusal :
    (g_Slot g = None ∨ waits (q_Kind req) err = false) →
    refusal = mkRefusal "" (Name book) (q_Kind req) (dueOf req) "" (mechanismOf err)
                (detail g err) at_ "" →
    admission fuel (first_ask sent (inl err) ++ [Wall ⟶ at_; RecordRefusal refusal ⟶ x])
      (Some (inl (RefusedError (mechanismOf err) (detail g err))))
| admission_no_bound sent err slot text :
    g_Slot g = Some slot → waits (q_Kind req) err = true →
    WaitFor book = inl text →
    admission fuel (first_ask sent (inl err)) (Some (inl (Text text)))
| admission_slot_full sent err slot expiry tr1 r1 accepted at_ row err' at2 x refusal :
    g_Slot g = Some slot → waits (q_Kind req) err = true → WaitFor book = inr expiry → runs Reconcile tr1 r1 →
    errors_is err' ErrWaitingSlotFull = true →
    refusal = mkRefusal "" (Name book) (q_Kind req) 0 "" MechanismWaitingSlotFull
                (slot_full_detail row) at2 "" →
    admission fuel
      (first_ask sent (inl err) ++ acceptance slot expiry tr1 accepted at_ (row, Some err')
         [Wall ⟶ at2; RecordRefusal refusal ⟶ x])
      (Some (inl (RefusedError MechanismWaitingSlotFull (slot_full_detail row))))
| admission_not_accepted sent err slot expiry tr1 r1 accepted at_ row err' :
    g_Slot g = Some slot → waits (q_Kind req) err = true → WaitFor book = inr expiry → runs Reconcile tr1 r1 →
    errors_is err' ErrWaitingSlotFull = false →
    admission fuel
      (first_ask sent (inl err) ++ acceptance slot expiry tr1 accepted at_ (row, Some err') [])
      (Some (inl (wrap_before ("accepting a trigger of " +:+ Name book +:+ " to wait") err')))
| admission_waited sent err slot expiry tr1 r1 accepted at_ row told tr2 r :
    g_Slot g = Some slot → waits (q_Kind req) err = true → WaitFor book = inr expiry →
    runs Reconcile tr1 r1 → (told = [] ∨ ∃ w x, told = [OnWait w ⟶ x]) →
    waited_out g slot fuel (mkWaitingTrigger book req expiry accepted row None) tr2 r →
    admission fuel
      (first_ask sent (inl err) ++ acceptance slot expiry tr1 accepted at_ (row, None) (told ++ tr2)) r.

Lemma acceptance_rest slot expiry tr accepted at_ ans rest :
  acceptance slot expiry tr accepted at_ ans rest = acceptance slot expiry tr accepted at_ ans [] ++ rest.
Proof. unfold acceptance. by rewrite <-app_assoc. Qed.

Lemma Admit_cases fuel tr r : runs (Admit fuel g book req) tr r → admission fuel tr r.
Proof.
  unfold Admit, wait, accept, await, refuse, recordRefusal. intros H. repeat take.
  all: rewrite ?app_nil_r, <-?app_assoc; cbn [app].
  - by eapply admission_no_bound.
  - by eapply (admission_slot_full _ _ _ w).
  - by eapply (admission_not_accepted _ _ _ w).
  - eapply (admission_waited _ _ _ w _ _ _ _ _ _ [_]); eauto. by apply rounds_cases.
  - eapply (admission_waited _ _ _ w _ _ _ _ _ _ []); eauto. by apply rounds_cases.
  - eapply admission_refused; [by right|done].
  - eapply admission_refused; [by left|done].
  - apply admission_granted.
Qed.
End admission.

(** ** Claims *)

(** What was read of the file so far declares the trigger's own name. *)
Definition named (w : waitingTrigger) : Prop :=
  ∀ b st, t_edited w = Some (b, st) → Name b = Name (t_book w).

Lemma reread_named w tr r w' :
  named w → runs (reread w) tr (r, w') →
  named w' ∧ (∀ edited, r = inr edited →
                Name edited = Name (t_book w) ∧ ∃ st, t_edited w' = Some (edited, st)).
Proof.
  intros Hn (ans & tr' & _ & _ & H)%reread_cases. destruct r as [err|edited].
  - destruct H as [-> _]. split; [done|]. by intros ? [=].
  - destruct H as (en & st & _ & _ & [(Hed & _ & ->)|(_ & Heq & ->)]).
    + split; [done|]. intros ? [= <-]. split; [by eapply Hn|eauto].
    + split; [by intros ? ? [= <- _]|]. intros ? [= <-]. split; [done|]. simpl. eauto.
Qed.

Lemma round_named g slot w w' tr r : named w → round g slot w w' tr r → named w'.
Proof.
  intros Hn. destruct 1 as [| | | | |z b z2 tr1 req tr2 w' r ??? Hc]; [done..|].
  destruct Hc as [? ? ? Hr|? ? ? ? Hr|? ? ? ? ? ? ? Hr|? ? ? ? ? ? ? ? Hr _ _];
    by eapply reread_named.
Qed.

Lemma asks_reread w tr r : runs (reread w) tr r → asks tr = [].
Proof. intros H. by eapply (reread_silent asked); try exact H. Qed.

(** Who may be asked about: the trigger's playbook by its name, for its kind. *)
Definition about (name kind : string) (r : AcquireRequest) : Prop :=
  a_Name r = name ∧ t_Kind (a_Trigger r) = kindOf kind.

Lemma round_asks g slot w w' tr r :
  named w → round g slot w w' tr r →
  Forall (about (Name (t_book w)) (q_Kind (t_req w))) (asks tr).
Proof.
  intros Hn H. unfold asks.
  destruct H as [| | |z err b z2 tr ?? Htr| |z b z2 tr1 req tr2 w' r ?? Htr Hc];
    [by repeat constructor..|destruct Htr as [[_ ->]|(_ & ? & ->)]; by repeat constructor
    |by repeat constructor|].
  rewrite !project_app. apply Forall_app. split; [by repeat constructor|].
  assert (project asked tr1 = [] ∧ q_Kind req = q_Kind (t_req w)) as [-> Hk]
    by (by destruct Htr as [[-> ->]|(? & -> & ->)]).
  destruct Hc as [sent tr err Hr|sent tr edited err Hr|sent tr edited claim now en x Hr
                 |sent tr edited claim now en st rc Hr _ _];
    pose proof (asks_reread _ _ _ Hr) as Ha; unfold asks in Ha; simpl;
    rewrite ?project_app, Ha; simpl; [constructor|..];
    (constructor; [|constructor]); unfold about, ask; simpl; rewrite Hk;
    (split; [|done]); eapply reread_named; done.
Qed.

(** The round a trigger is admitted in, from the reading of its file on. *)
Lemma round_kept g slot w w' tr a :
  round g slot w w' tr (inr a) →
  ∃ tr1 tr2 req now reach entries stamp,
    tr = tr1 ++ tr2
      ++ [Acquire (DecisionBound (g_Config g)) (ask g (m_Book a) req) ⟶ inr (m_Claim a);
          Monotonic ⟶ now; ReadDir (Dir (p_Path (t_book w))) ⟶ inr entries; Reach ⟶ reach] ∧
    runs (reread w) tr2 (inr (m_Book a), w') ∧ stamp_entries entries ∅ = inr stamp ∧
    (∀ b last, t_edited w' = Some (b, last) → stamp = last) ∧
    q_RunID req = m_RunID a ∧ q_Kind req = q_Kind (t_req w) ∧
    m_WaitingTriggerID a = w_ID (t_row w).
Proof.
  inversion 1 as [| | | | |z b z2 tr1 req tr2 ? r ?? Htr Hc]; subst.
  assert (q_Kind req = q_Kind (t_req w)) as Hk by (by destruct Htr as [[_ ->]|(? & _ & ->)]).
  inversion Hc as [| | |sent tr edited claim now en st rc Hr Hs Hl]; subst. simpl.
  destruct (reread_same _ _ _ _ Hr) as (-> & _ & _ & _ & ->).
  exists (([Monotonic ⟶ z; Released (left_at w z) (Name (t_book w)) ⟶ (None, b); Monotonic ⟶ z2]
             ++ tr1) ++ [Monotonic ⟶ sent]), tr, req, now, rc, en, st.
  split; [by rewrite <-!app_assoc|]. by split; [exact Hr|split].
Qed.

Lemma asks_app tr1 tr2 : asks (tr1 ++ tr2) = asks tr1 ++ asks tr2.
Proof. apply project_app. Qed.

Lemma waited_asks g slot fuel w tr r :
  named w → waited_out g slot fuel w tr r →
  Forall (about (Name (t_book w)) (q_Kind (t_req w))) (asks tr).
Proof.
  intros Hn H. induction H as [|fuel w w' tr adm H|fuel w w' tr tr' err r H _ _ IH
    |fuel w w' tr err c H|fuel w w' tr err at_ x refusal H _ _].
  - constructor.
  - by eapply round_asks.
  - rewrite asks_app. apply Forall_app. split; [by eapply round_asks|].
    destruct (round_same _ _ _ _ _ _ H) as (<- & <- & _). apply IH. by eapply round_named.
  - rewrite asks_app. apply Forall_app. split; [by eapply round_asks|constructor].
  - rewrite asks_app. apply Forall_app. split; [by eapply round_asks|constructor].
Qed.

(** A trace in which the playbook's file was read as [b] when its directory was as [st]. *)
Definition read_in (path : string) (b : Playbook.Playbook) (st : directoryStamp) (tr : trace) : Prop :=
  ∃ tr1 entries tr2, tr = tr1 ++ [ReadDir (Dir path) ⟶ inr entries; Reload path ⟶ inr b] ++ tr2 ∧
    stamp_entries entries ∅ = inr st.

Lemma read_in_app path b st tr tr' : read_in path b st tr → read_in path b st (tr ++ tr').
Proof. intros (tr1 & en & tr2 & -> & H). exists tr1, en, (tr2 ++ tr'). by rewrite <-!app_assoc. Qed.

Definition known (past : trace) (w : waitingTrigger) : Prop :=
  ∀ b st, t_edited w = Some (b, st) → read_in (p_Path (t_book w)) b st past.

Lemma known_app past tr w : known past w → known (past ++ tr) w.
Proof. intros Hk b st Hb. apply read_in_app. by apply Hk. Qed.

Lemma reread_known past w tr r w' :
  known past w → runs (reread w) tr (r, w') → known (past ++ tr) w'.
Proof.
  intros Hk H. apply reread_cases in H as (ans & tr' & -> & _ & H). destruct r as [err|edited].
  - destruct H as [-> _]. by apply known_app.
  - destruct H as (en & st & -> & Hs & [(_ & _ & ->)|(-> & _ & ->)]); [by apply known_app|].
    intros b st' [= <- <-]. by exists past, en, [].
Qed.

(** A round reads the file at most once. *)
Lemma round_reads g slot w w' tr r :
  round g slot w w' tr r →
  w' = w ∨ ∃ pre tr' post read, tr = pre ++ tr' ++ post ∧ runs (reread w) tr' (read, w').
Proof.
  destruct 1 as [| | | | |z b z2 tr1 req tr2 w' r ??? Hc]; [by left..|right].
  assert (∃ sent tr' post read, tr2 = [Monotonic ⟶ sent] ++ tr' ++ post ∧ runs (reread w) tr' (read, w'))
    as (sent & tr' & post & read & -> & Hr).
  { destruct Hc as [sent tr3 ? Hr|sent tr3 ? ? Hr|sent tr3 ? ? ? ? ? Hr|sent tr3 ? ? ? ? ? ? Hr _ _].
    1: exists sent, tr3, []; rewrite app_nil_r. all: eauto 6. }
  rewrite !app_assoc, <-(app_assoc _ tr' post). eauto 6.
Qed.

Lemma round_known past g slot w w' tr r :
  known past w → round g slot w w' tr r → known (past ++ tr) w'.
Proof.
  intros Hk [->|(pre & tr' & post & read & -> & Hr)]%round_reads; [by apply known_app|].
  rewrite (app_assoc past), (app_assoc (past ++ pre)). apply known_app.
  eapply reread_known; [|done]. by apply known_app.
Qed.

(** How a wait that ends in an admission ends. *)
Lemma waited_admitted g slot fuel past w tr a :
  known past w → named w → waited_out g slot fuel w tr (Some (inr a)) →
  let path := p_Path (t_book w) in
  ∃ tr1 req now reach entries stamp,
    past ++ tr = tr1
      ++ [Acquire (DecisionBound (g_Config g)) (ask g (m_Book a) req) ⟶ inr (m_Claim a);
          Monotonic ⟶ now; ReadDir (Dir path) ⟶ inr entries; Reach ⟶ reach] ∧
    stamp_entries entries ∅ = inr stamp ∧ read_in path (m_Book a) stamp tr1 ∧
    Name (m_Book a) = Name (t_book w) ∧ q_RunID req = m_RunID a ∧ q_Kind req = q_Kind (t_req w) ∧
    m_WaitingTriggerID a = w_ID (t_row w).
Proof.
  intros Hk Hn H. remember (Some (inr a)) as r eqn:Er. revert past Hk.
  induction H as [|fuel w w' tr adm H|fuel w w' tr tr' err r H _ _ IH| |]; intros past Hk; simplify_eq.
  - destruct (round_kept _ _ _ _ _ _ H) as (tr1 & tr2 & req & now & reach & en & st & -> & Hr & Hs
      & Hl & Hid & Hkind & Hrow).
    exists ((past ++ tr1) ++ tr2), req, now, reach, en, st.
    destruct (reread_named _ _ _ _ Hn Hr) as [_ Hname].
    destruct (Hname _ eq_refl) as (Hb & st' & He).
    pose proof (Hl _ _ He) as <-. split; [by rewrite <-!app_assoc|]. split; [done|].
    split; [|done]. destruct (reread_same _ _ _ _ Hr) as [<- _].
    eapply (reread_known (past ++ tr1)); [by apply known_app|done|done].
  - destruct (round_same _ _ _ _ _ _ H) as (<- & <- & _ & _ & <-).
    rewrite app_assoc. apply IH; [by eapply round_named|done|by eapply round_known].
Qed.

(** ** Theorems *)

Lemma Reconcile_claims tr r : runs Reconcile tr r → grants tr = [] ∧ releases tr = [] ∧ asks tr = [].
Proof. intros H. split_and!; by eapply Reconcile_silent; try exact H. Qed.

Definition handed_over (r : option (gerror + Admission)) : list Claim :=
  match r with Some (inr admitted) => [m_Claim admitted] | _ => [] end.

(** C6: Admit loses no claim: in every trace it can have, whatever the coordinator, the store,
    the clock and the directory answer, every claim granted to it is released but for the
    one an admitted trigger is handed; and it asks for the trigger's own playbook by its
    name and for nothing else. *)
Theorem Admit_accounts_for_every_claim g book req fuel tr r :
  runs (Admit fuel g book req) tr r →
  grants tr = releases tr ++ handed_over r ∧
  Forall (about (Name book) (q_Kind req)) (asks tr).
Proof.
  intros H%Admit_cases. destruct H as [| | |sent err slot exp tr1 r1 ??????? Hs Hw He Hr|
      sent err slot exp tr1 r1 ???? Hs Hw He Hr _|
      sent err slot exp tr1 r1 acc at_ row told tr2 r Hs Hw He Hr Ht Hout]; unfold asks, grants, releases.
  1-3: split; [done|]; repeat constructor.
  all: destruct (Reconcile_claims _ _ Hr) as (Hg & Hb & Ha); unfold asks, grants, releases in *;
    unfold first_ask, acceptance; simpl; rewrite ?project_app; simpl; rewrite ?project_app, ?Hg, ?Hb, ?Ha.
  1-2: split; [done|]; repeat constructor.
  assert (∀ B (f : ∀ c, guard_resp c → option B), (∀ w x, f (OnWait w) x = None) → project f told = [])
    as Htold. { intros B f Hf. destruct Ht as [->|(w & x & ->)]; [done|]. simpl. by rewrite Hf. }
  rewrite !Htold; [|done..]. pose proof (waited_accounted _ _ _ _ _ _ Hout) as Hacc.
  assert (named (mkWaitingTrigger book req exp acc row None)) as Hn by (by intros ? ?).
  apply waited_asks in Hout; [|done]. unfold asks in Hout. simpl in *. split.
  - unfold accounted, grants, releases in Hacc. rewrite Hacc. by destruct r as [[|]|].
  - constructor; [done|done].
Qed.

(** *** Refusals *)

(** One error type is the guard's own: nothing it calls answers a [waitEnded], which is not exported. *)
Definition foreign (c : guard_cmd) : guard_resp c → Prop :=
  match c with
  | Acquire _ _ => λ r, match r with inl err => as_wait_ended err = None | inr _ => True end
  | Released _ _ => λ r, match r with (Some err, _) => as_wait_ended err = None | _ => True end
  | MintRunID => λ r, match r with inl err => as_wait_ended err = None | inr _ => True end
  | _ => λ _, True
  end.
Definition foreign_answers (tr : trace) : Prop :=
  Forall (λ e : event (Sg := guard_sig), foreign (projT1 e) (projT2 e)) tr.

Lemma mechanismOf_own err : String.eqb (mechanismOf err) MechanismDropped = false.
Proof. unfold mechanismOf. by repeat case_match. Qed.

Lemma as_wait_ended_held_or err : as_wait_ended err = None → as_wait_ended (held_or err) = None.
Proof. unfold held_or. by destruct (errors_is err ErrHeld). Qed.

(** What ends a wait is the guard's own expiry or re-read, or an error from elsewhere. *)
Lemma round_error g slot w w' tr err :
  foreign_answers tr → round g slot w w' tr (inl err) →
  as_wait_ended err = None ∨
  ∃ m d, as_wait_ended err = Some (m, d) ∧ (m = MechanismWaitExpired ∨ m = MechanismPlaybookChanged).
Proof.
  intros Hf. unfold foreign_answers in Hf.
  inversion 1 as [| | |z err' b z2 tr' ?? Htr| |z b z2 tr1 req tr2 ? r ?? Htr Hc]; subst.
  - right. eexists _, _. split; [reflexivity|by left].
  - by left.
  - by left.
  - left. by rewrite Forall_app, !Forall_cons in Hf; destruct Hf as [(_ & ? & _) _].
  - left. by rewrite !Forall_cons in Hf; destruct Hf as (_ & _ & _ & ? & _).
  - rewrite !Forall_app in Hf. destruct Hf as (_ & _ & Hf).
    inversion Hc as [sent tr3 err' Hr|sent tr3 edited err' Hr|sent tr3 edited claim now en x Hr|]; subst.
    + apply reread_cases in Hr as (? & ? & _ & _ & _ & d & ->). right. eexists _, _.
      split; [reflexivity|by right].
    + left. rewrite Forall_cons, Forall_app, Forall_cons in Hf.
      destruct Hf as (_ & _ & Herr & _). by apply as_wait_ended_held_or.
    + by left.
Qed.

Lemma round_refuses g slot w w' tr r : round g slot w w' tr r → own_refusals tr = [].
Proof.
  assert (∀ w tr r, runs (reread w) tr r → own_refusals tr = []) as Hread
    by (intros w0 tr0 r0 H; by eapply reread_silent; try exact H).
  unfold own_refusals in *.
  destruct 1 as [| | |z err b z2 tr ?? Htr| |z b z2 tr1 req tr2 w' r ?? Htr Hc]; [done..| |done|].
  - by destruct Htr as [[_ ->]|(_ & ? & ->)].
  - rewrite !project_app.
    assert (project refusal_of tr1 = []) as -> by (by destruct Htr as [[-> _]|(? & -> & _)]).
    destruct Hc as [? ? ? Hr|? ? ? ? Hr|? ? ? ? ? ? ? Hr|? ? ? ? ? ? ? ? Hr _ _];
      simpl; rewrite ?project_app, (Hread _ _ _ Hr); done.
Qed.

(** The one refusal a trigger leaves, and the error Admit answers it with. *)
Definition refused_once (name kind : string) (tr : trace) (err : gerror) : Prop :=
  ∃ refusal, own_refusals tr = [refusal] ∧ f_PlaybookName refusal = name ∧ f_TriggerKind refusal = kind ∧
    err = RefusedError (f_Mechanism refusal) (f_Detail refusal).

Lemma waited_refuses g slot fuel w tr r :
  foreign_answers tr → waited_out g slot fuel w tr r →
  match r with
  | Some (inl err) => refused_once (Name (t_book w)) (q_Kind (t_req w)) tr err ∨
      own_refusals tr = [] ∧ (CtxErr ⟶ Some err) ∈ tr
  | _ => own_refusals tr = []
  end.
Proof.
  intros Hf H. induction H as [|fuel w w' tr adm H|fuel w w' tr tr' err r H _ _ IH
    |fuel w w' tr err c H|fuel w w' tr err at_ x refusal H _ Href]; unfold refused_once, own_refusals in *;
    try pose proof (round_refuses _ _ _ _ _ _ H) as Ho; unfold own_refusals in *; rewrite ?project_app.
  - done.
  - done.
  - unfold foreign_answers in *. apply Forall_app in Hf as [_ Hf].
    rewrite Ho. simpl. destruct (round_same _ _ _ _ _ _ H) as (<- & <- & _). specialize (IH Hf).
    destruct r as [[err'|]|]; [|done..]. destruct IH as [IH|[IH Hin]]; [by left|right]. split; [done|set_solver].
  - right. rewrite Ho. split; [done|set_solver].
  - left. unfold foreign_answers in Hf. apply Forall_app in Hf as [Hf _].
    pose proof (round_error _ _ _ _ _ _ Hf H) as He. rewrite Ho. simpl.
    destruct (round_same _ _ _ _ _ _ H) as (Hb & Hq & _).
    assert (own refusal = Some refusal) as ->.
    { unfold own. subst refusal. unfold wait_refusal.
      destruct He as [->|(m & d & -> & [->| ->])]; simpl; [by rewrite mechanismOf_own|done..]. }
    exists refusal. split; [done|]. subst refusal. unfold wait_refusal. by destruct (as_wait_ended err) as [[]|];
      simpl; rewrite Hb, Hq.
Qed.

(** What keeps a trigger from a run without a refusal: its process is stopping, its playbook's wait
    cannot be read, or the store would not write that it waits. *)
Inductive unrefused (book : Playbook.Playbook) (tr : trace) : gerror → Prop :=
| stopping err : (CtxErr ⟶ Some err) ∈ tr → unrefused book tr err
| no_bound text : WaitFor book = inl text → unrefused book tr (Text text)
| not_written asked values row err : (AcceptWaiting asked values ⟶ (row, Some err)) ∈ tr → errors_is err ErrWaitingSlotFull = false →
    unrefused book tr (wrap_before ("accepting a trigger of " +:+ Name book +:+ " to wait") err).

(** C7: A trigger that does not become a run leaves exactly one refusal, and one that does leaves
    none: in every trace of Admit in which no answer is an error of the type the guard itself ends
    a wait with, which no other package can make, a trigger that is answered with an error has
    written exactly one refusal of its own, with its playbook and its kind, and the error is that
    refusal's mechanism and detail; or it has written none, and then the error is that of a process
    that is stopping, of a playbook whose wait cannot be read, or of a store that failed to write
    that the trigger waits.  A trigger that is admitted has written none. *)
Theorem Admit_records_one_refusal g book req fuel tr r :
  foreign_answers tr → runs (Admit fuel g book req) tr r →
  match r with
  | Some (inl err) => refused_once (Name book) (q_Kind req) tr err ∨ own_refusals tr = [] ∧ unrefused book tr err
  | _ => own_refusals tr = []
  end.
Proof.
  intros Hf H%Admit_cases.
  assert (∀ tr r, runs Reconcile tr r → own_refusals tr = []) as Hrec
    by (intros tr0 r0 H0; by eapply Reconcile_silent; try exact H0).
  unfold refused_once, own_refusals in *.
  destruct H as [|sent err at_ x refusal Hs Href|? ? ? ? ? ? Hno|sent err slot exp tr1 r1 ??????? Hslot Hw He Hr|
      sent err slot exp tr1 r1 ???? Hslot Hw He Hr Hfull|
      sent err slot exp tr1 r1 acc at_ row told tr2 r Hs Hw He Hr Ht Hout];
    unfold first_ask, acceptance; simpl; rewrite ?project_app, ?(Hrec _ _ Hr); simpl.
  - done.
  - left. assert (own refusal = Some refusal) as ->.
    { unfold own. subst refusal. simpl. by rewrite mechanismOf_own. }
    exists refusal. by subst refusal.
  - right. split; [done|by apply no_bound].
  - left. subst. eexists. split; [reflexivity|done].
  - right. split; [done|]. apply not_written with (accepted_row book req slot exp at_) (q_Values req) row; [|exact Hfull].
    do 2 right. apply elem_of_app. right. do 2 right. left.
  - rewrite project_app.
    assert (project refusal_of told = []) as -> by (by destruct Ht as [->|(? & ? & ->)]).
    eapply waited_refuses in Hout; unfold refused_once, own_refusals in *.
    + destruct r as [[err'|]|]; [|done..]. destruct Hout as [Hout|[Hout Hin]]; [by left|right].
      split; [done|]. apply stopping. set_solver.
    + unfold foreign_answers, first_ask, acceptance in *.
      rewrite !Forall_app, !Forall_cons, !Forall_app in Hf. tauto.
Qed.

(** *** Who waits *)

(** Only a manual trigger whose playbook is running waits: any other trigger, or any
    trigger in a process that accepts none to wait, is decided by one acquisition, admitted
    with the very claim it grants or refused with the mechanism of its error. *)
Theorem Admit_decides_at_once g book req fuel tr r :
  g_Slot g = None ∨ q_Kind req ≠ TriggerManual → runs (Admit fuel g book req) tr r →
  ∃ sent ans rest, tr = first_ask g book req sent ans ++ rest ∧ asks rest = [] ∧
    match ans with
    | inr claim => ∃ reach, r = Some (inr (mkAdmission claim reach (q_RunID req) book "" 0 sent))
    | inl err => r = Some (inl (RefusedError (mechanismOf err) (detail g err)))
    end.
Proof.
  intros Hno H%Admit_cases.
  assert (∀ err slot, g_Slot g = Some slot → waits (q_Kind req) err = true → False) as Hw.
  { unfold waits. intros err slot Hs Hk. bool_facts. destruct Hno; congruence. }
  destruct H as [sent claim reach|sent err at_ x refusal Hs ->|? ? ? ? H1 H2|? ? ? ? ? ? ? ? ? ? ? ? ? H1 H2
    |? ? ? ? ? ? ? ? ? ? H1 H2|? ? ? ? ? ? ? ? ? ? ? ? H1 H2];
    try (by destruct (Hw _ _ H1 H2)); eexists sent, _, _; (split; [reflexivity|]); eauto.
Qed.

(** C8: A trigger that waited runs its playbook's file as it stood when the claim was taken:
    an admission that names a waiting trigger is for the book its file was last loaded as,
    under the name it was accepted for, the claim was asked for with that book's own rate,
    and the directory read right after the claim was granted is as it was when the file was
    loaded. *)
Theorem a_wait_runs_the_file_as_it_stands g book req fuel tr a :
  runs (Admit fuel g book req) tr (Some (inr a)) → m_WaitingTriggerID a ≠ "" →
  let path := p_Path book in
  ∃ tr1 req' now reach entries stamp,
    tr = tr1 ++ [Acquire (DecisionBound (g_Config g)) (ask g (m_Book a) req') ⟶ inr (m_Claim a);
                 Monotonic ⟶ now; ReadDir (Dir path) ⟶ inr entries; Reach ⟶ reach] ∧
    stamp_entries entries ∅ = inr stamp ∧ read_in path (m_Book a) stamp tr1 ∧
    Name (m_Book a) = Name book ∧ q_RunID req' = m_RunID a ∧ q_Kind req' = q_Kind req.
Proof.
  intros H%Admit_cases Hid.
  inversion H as [| | | | |sent err slot exp tr1 r1 acc at_ row told tr2 r Hs Hw He Hr Ht Hout];
    subst; [done|].
  rewrite acceptance_rest, !app_assoc.
  destruct (waited_admitted g slot fuel
              ((first_ask g book req sent (inl err) ++ acceptance book req slot exp tr1 acc at_ (row, None) []) ++ told)
              (mkWaitingTrigger book req exp acc row None) tr2 a) as
    (tr3 & req' & now & reach & en & st & He1 & H1); [by intros ? ?..|done|].
  exists tr3, req', now, reach, en, st. split; [exact He1|]. simpl in H1. tauto.
Qed.

(** *** Time *)

(** Since the last watch of the claim ended, a reading with time left has been made. *)
Definition look (left : Instant → Z) (fresh : bool) (e : event (Sg := guard_sig)) : bool :=
  match projT1 e as c return guard_resp c → bool with
  | Monotonic => λ z, fresh || (0 <? left z)
  | Released _ _ => λ _, false
  | _ => λ _, fresh
  end (projT2 e).

Definition is_ask (e : event (Sg := guard_sig)) : bool :=
  match projT1 e with Acquire _ _ => true | _ => false end.

(** Every claim asked for is asked for after such a reading. *)
Fixpoint timely (left : Instant → Z) (fresh : bool) (tr : trace) : Prop :=
  match tr with
  | [] => True
  | e :: tr => (is_ask e = true → fresh = true) ∧ timely left (look left fresh e) tr
  end.

Lemma timely_app left fresh tr1 tr2 :
  timely left fresh (tr1 ++ tr2) ↔
  timely left fresh tr1 ∧ timely left (foldl (look left) fresh tr1) tr2.
Proof.
  revert fresh. induction tr1 as [|e tr1 IH]; intros fresh; simpl; [tauto|]. rewrite IH. tauto.
Qed.

Lemma timely_reread left fresh w tr r :
  runs (reread w) tr r → timely left fresh tr ∧ foldl (look left) fresh tr = fresh.
Proof. destruct r as [r w']. by intros (ans & tr' & -> & [->|(x & ->)] & _)%reread_cases. Qed.

Lemma round_timely g slot w w' tr r fresh : round g slot w w' tr r → timely (left_at w) fresh tr.
Proof.
  destruct 1 as [| | |z err b z2 tr ?? Htr| |z b z2 tr1 req tr2 w' r ? Hz Htr Hc]; [done..| |done|].
  - by destruct Htr as [[_ ->]|(_ & ? & ->)].
  - rewrite timely_app. split; [done|].
    assert (foldl (look (left_at w)) fresh
      [Monotonic ⟶ z; Released (left_at w z) (Name (t_book w)) ⟶ (None, b); Monotonic ⟶ z2] = true) as ->
      by (cbn; lia).
    rewrite timely_app.
    assert (timely (left_at w) true tr1 ∧ foldl (look (left_at w)) true tr1 = true) as [Ht ->]
      by (by destruct Htr as [[-> _]|(? & -> & _)]).
    split; [done|].
    destruct Hc as [? ? ? Hr|? ? ? ? Hr|? ? ? ? ? ? ? Hr|? ? ? ? ? ? ? ? Hr _ _];
      destruct (timely_reread (left_at w) true _ _ _ Hr) as [H1 H2]; simpl; rewrite ?timely_app, ?H2; done.
Qed.

Lemma waited_timely g slot fuel w tr r fresh : waited_out g slot fuel w tr r → timely (left_at w) fresh tr.
Proof.
  intros H. revert fresh. induction H as [|fuel w w' tr adm H|fuel w w' tr tr' err r H _ _ IH
    |fuel w w' tr err c H|fuel w w' tr err at_ x refusal H _ Href]; intros fresh; rewrite ?timely_app.
  - done.
  - by eapply round_timely.
  - split; [by eapply round_timely|]. destruct (round_same _ _ _ _ _ _ H) as (_ & _ & He & Ha & _).
    unfold left_at in *. rewrite <-He, <-Ha. apply IH.
  - split; [by eapply round_timely|done].
  - split; [by eapply round_timely|done].
Qed.

(** No run starts from a trigger whose wait has expired: in every trace of Admit, after
    the acquisition that makes the trigger wait, each claim asked for is asked for after a
    reading of the monotonic clock, made since the last watch of the claim ended, that
    leaves time of the playbook's own bound since the trigger was accepted. *)
Theorem a_wait_asks_in_time g book req fuel tr r :
  runs (Admit fuel g book req) tr r →
  ∃ tr1 tr2, tr = tr1 ++ tr2 ∧ length (asks tr1) = 1%nat ∧
    (asks tr2 = [] ∨
     ∃ expiry accepted rest, WaitFor book = inr expiry ∧ tr2 = Monotonic ⟶ accepted :: rest ∧
       timely (λ z, dur_sub expiry (instant_sub z accepted)) false rest).
Proof.
  intros H%Admit_cases. unfold asks.
  destruct H as [sent claim reach|sent err at_ x refusal Hs ->|sent err|
    sent err slot exp tr1 r1 ??????? Hs Hw He Hr|
    sent err slot exp tr1 r1 ???? Hs Hw He Hr|
    sent err slot exp tr1 r1 acc at_ row told tr2 r Hs Hw He Hr Ht Hout].
  1-2: eexists _, _; split; [reflexivity|]; split; [done|by left].
  1: exists (first_ask g book req sent (inl err)), []; rewrite app_nil_r;
       split; [done|]; split; [done|by left].
  all: unfold acceptance; rewrite app_assoc; eexists _, _; split; [reflexivity|];
    rewrite project_app; destruct (Reconcile_claims _ _ Hr) as (_ & _ & Ha); unfold asks in Ha;
    rewrite Ha; split; [done|].
  1-2: by left.
  right. exists exp, acc. eexists. split; [done|]. split; [reflexivity|].
  apply (waited_timely _ _ _ _ _ _ false) in Hout. unfold left_at in Hout. simpl in Hout.
  destruct Ht as [->|(? & ? & ->)]; simpl; by repeat split.
Qed.

(** A clock that does not go back, its next reading at least [lo], and watches of a claim that
    take their time: each lasts [delta], or all it was given. *)
Fixpoint clocked (delta lo : Z) (tr : trace) : Prop :=
  match tr with
  | [] => True
  | e :: tr =>
      match projT1 e as c return guard_resp c → Prop with
      | Monotonic => λ z, lo <= z <= 2 ^ 62 ∧ clocked delta z tr
      | Released within _ => λ _, clocked delta (lo + Z.min delta (Z.max 0 within)) tr
      | _ => λ _, clocked delta lo tr
      end (projT2 e)
  end.

Lemma clocked_app delta lo tr1 tr2 :
  0 < delta → clocked delta lo (tr1 ++ tr2) → ∃ lo', lo <= lo' ∧ clocked delta lo' tr2.
Proof.
  intros Hd. revert lo. induction tr1 as [|[c x] tr1 IH]; intros lo; simpl.
  { intros H. exists lo. split; [lia|done]. }
  destruct c; simpl; try apply IH.
  - intros [? (lo' & ? & ?)%IH]. exists lo'. split; [lia|done].
  - intros (lo' & ? & ?)%IH. exists lo'. split; [lia|done].
Qed.

Lemma left_at_elapsed w z :
  0 <= t_accepted w → 0 <= t_expiry w <= i64_max → t_accepted w <= z <= 2 ^ 62 →
  left_at w z = t_expiry w - (z - t_accepted w).
Proof.
  unfold left_at, dur_sub, instant_sub. intros Ha He Hz. unfold dur_sub.
  rewrite (i64_id (z - t_accepted w)).
  - apply i64_id. unfold in_i64, i64_min, i64_max in *. lia.
  - unfold in_i64, i64_min, i64_max in *. lia.
Qed.

Lemma round_progress g slot w w' tr err delta lo rest :
  round g slot w w' tr (inl err) → errors_is err errStillHeld = true →
  0 < delta → 0 <= t_accepted w <= lo → 0 <= t_expiry w <= i64_max →
  clocked delta lo (tr ++ rest) →
  lo < t_accepted w + t_expiry w ∧
  ∃ lo', clocked delta lo' rest ∧ (lo + delta <= lo' ∨ t_accepted w + t_expiry w <= lo').
Proof.
  intros H Herr Hd Ha He Hc.
  assert (∃ z ans tr', tr = Monotonic ⟶ z :: Released (left_at w z) (Name (t_book w)) ⟶ ans :: tr' ∧
            0 < left_at w z) as (z & ans & tr' & -> & Hz).
  { inversion H; subst; [done|..]; eauto 6. }
  simpl in Hc. destruct Hc as [Hlo Hc]. apply clocked_app in Hc as (lo' & Hlo' & Hc); [|done].
  rewrite left_at_elapsed in *; [|lia..]. split; [lia|]. exists lo'. split; [done|]. lia.
Qed.

Lemma waited_ends g slot fuel w tr r delta lo :
  waited_out g slot fuel w tr r → 0 < delta → 0 <= t_accepted w <= lo → 0 <= t_expiry w <= i64_max →
  clocked delta lo tr → t_accepted w + t_expiry w - lo <= delta * (Z.of_nat fuel - 1) →
  (0 < fuel)%nat → r ≠ None.
Proof.
  intros H Hd. revert lo. induction H as [|fuel w w' tr adm H|fuel w w' tr tr' err r H He _ IH| |];
    intros lo Ha Hexp Hc Hf Hpos; [lia|done| |done..].
  destruct (round_progress _ _ _ _ _ _ _ _ _ H He Hd Ha Hexp Hc) as (Hlo & lo' & Hc' & Hlo').
  destruct (round_same _ _ _ _ _ _ H) as (_ & _ & Hx & Hacc & _).
  assert (0 < Z.of_nat fuel) by nia.
  apply (IH lo'); rewrite ?Hx, ?Hacc; [lia|done|done|nia|lia].
Qed.

(** C9: A wait ends: for a playbook whose bound is [expiry], where the monotonic clock does not
    go back and every watch of the claim lasts [delta] or all it was given, as the file
    lock's poll does, Admit gives its result within expiry / delta + 2 rounds, whatever else
    the world answers. *)
Theorem a_wait_ends g book req fuel tr r delta expiry :
  runs (Admit fuel g book req) tr r → WaitFor book = inr expiry → 0 <= expiry <= i64_max →
  0 < delta → clocked delta 0 tr → expiry / delta + 2 <= Z.of_nat fuel → r ≠ None.
Proof.
  intros H%Admit_cases Hexp Hr Hd Hc Hf.
  destruct H as [| | | | |
    sent err slot exp tr1 r1 acc at_ row told tr2 r Hs Hw He Hrec Ht Hout]; [done..|].
  rewrite Hexp in He. simplify_eq.
  unfold first_ask, acceptance in Hc. simpl in Hc. destruct Hc as [Hsent Hc].
  apply clocked_app in Hc as (lo & Hlo & Hc); [|done]. simpl in Hc. destruct Hc as [Hacc Hc].
  apply clocked_app in Hc as (lo' & Hlo' & Hc); [|done].
  eapply (waited_ends _ _ _ _ _ _ delta lo'); [done|done|..]; simpl; [lia|done|done|..].
  - pose proof (Z.mul_succ_div_gt exp delta Hd). nia.
  - pose proof (Z.div_pos exp delta). lia.
Qed.

(** ** A concrete world *)

(** One host: the claim is held by another run when it is first asked for and free from the
    second time on; each watch takes 25 milliseconds; the directory holds one file. *)
Definition small_world (book : Playbook.Playbook) (c : guard_cmd) (w : Z * nat)
  : guard_resp c * (Z * nat) :=
  let '(now, asked) := w in
  match c as c return guard_resp c * (Z * nat) with
  | Monotonic => (now, w)
  | Wall => (1000 * Second + now, w)
  | Acquire _ _ =>
      (match asked with
       | O => inl (HeldBy (mkHolder "host" "p" "r0"))
       | S n => inr (mkClaim n 0 0)
       end, (now, S asked))
  | Reach => (ReachSingleHost, w)
  | Released _ _ => ((None, false), (now + 25 * Millisecond, asked))
  | Release _ _ => (None, w)
  | CtxErr => (None, w)
  | ReadDir _ => (inr [mkEntry "report.yaml" false (inr (mkStamp 1 2 3))], w)
  | Reload _ => (inr book, w)
  | MintRunID => (inr "r2", w)
  | RecordRefusal _ => (None, w)
  | AcceptWaiting t _ =>
      ((Records.mkWaitingTrigger "w1" (w_PlaybookName t) (w_PlaybookPath t) (w_TriggerKind t) ""
          (w_AcceptedAt t) (w_ExpiresAt t) (w_Instance t) WaitWaiting 0 "" "", None), w)
  | EndWait _ _ => (inr true, w)
  | StillWaiting => (inr [], w)
  | Alive _ => (true, w)
  | OnWait _ => (tt, w)
  end.

Definition report_book : Playbook.Playbook :=
  mkPlaybook "report" "" (mkTrigger "schedule" "" "" ∅) []
    (mkAgent "" "" None [] [] [] ANil "") []
    (Some (Playbook.mkGuard None "1s")) [] "/p/report.yaml".
Definition one_guard : Guard :=
  mkGuard DefaultConfig "host" "me" "" (Some (mkSlot "me" true)).
Definition by_hand_request : Request := mkRequest "r1" TriggerManual 0 ∅ false.
Definition by_schedule : Request := mkRequest "r1" TriggerSchedule (10 * Second) ∅ false.

Definition admission_trace (req : Request) : trace :=
  trace_of (Sg := guard_sig) (small_world report_book) (Admit 42 one_guard report_book req) (0, O).
Definition admission_result (req : Request) : option (gerror + Admission) :=
  fst (exec (Sg := guard_sig) (small_world report_book) (Admit 42 one_guard report_book req) (0, O)).

Lemma admission_runs req : runs (Admit 42 one_guard report_book req) (admission_trace req) (admission_result req).
Proof. apply (exec_runs (Sg := guard_sig)). Qed.

Lemma Admit_accounts_for_every_claim_witness :
  grants (admission_trace by_hand_request) =
    releases (admission_trace by_hand_request) ++ [mkClaim 0 0 0] ∧
  length (asks (admission_trace by_hand_request)) = 2%nat.
Proof.
  destruct (Admit_accounts_for_every_claim _ _ _ _ _ _ (admission_runs by_hand_request)) as [H _].
  split; [exact H|]. vm_compute. reflexivity.
Defined.

Lemma Admit_records_one_refusal_witness :
  ∃ refusal, own_refusals (admission_trace by_schedule) = [refusal] ∧
    f_Mechanism refusal = MechanismClaimHeld.
Proof.
  assert (foreign_answers (admission_trace by_schedule)) as Hf by (by repeat constructor).
  destruct (Admit_records_one_refusal _ _ _ _ _ _ Hf (admission_runs by_schedule))
    as [(refusal & H & _ & _ & Hm)|[Hno _]]; [|by vm_compute in Hno].
  exists refusal. split; [exact H|]. by injection Hm as <- _.
Defined.

Lemma Admit_decides_at_once_witness : length (asks (admission_trace by_schedule)) = 1%nat.
Proof.
  destruct (Admit_decides_at_once one_guard report_book by_schedule 42 (admission_trace by_schedule)
    (admission_result by_schedule)) as (sent & ans & rest & H & Hr & _);
    [by right|apply admission_runs|].
  rewrite H. unfold asks in *. by rewrite project_app, Hr.
Defined.

Lemma a_wait_runs_the_file_as_it_stands_witness :
  ∃ a, admission_result by_hand_request = Some (inr a) ∧ m_WaitingTriggerID a = "w1" ∧
    Name (m_Book a) = "report".
Proof.
  assert (∃ a, admission_result by_hand_request = Some (inr a) ∧ m_WaitingTriggerID a = "w1")
    as (a & Ha & Hid) by (vm_compute; eauto).
  pose proof (admission_runs by_hand_request) as Hr. rewrite Ha in Hr.
  destruct (a_wait_runs_the_file_as_it_stands _ _ _ _ _ _ Hr) as (? & ? & ? & ? & ? & ? & _ & _ & _ & Hn & _);
    [by rewrite Hid|].
  exists a. split; [done|]. split; [done|]. exact Hn.
Defined.

Lemma a_wait_asks_in_time_witness :
  ∃ tr1 tr2, admission_trace by_hand_request = tr1 ++ tr2 ∧ length (asks tr1) = 1%nat ∧
    length (asks tr2) = 1%nat.
Proof.
  destruct (a_wait_asks_in_time _ _ _ _ _ _ (admission_runs by_hand_request)) as (tr1 & tr2 & H & H1 & _).
  exists tr1, tr2. split; [done|]. split; [done|].
  assert (length (asks (admission_trace by_hand_request)) = 2%nat) as H2 by (vm_compute; reflexivity).
  rewrite H, asks_app, length_app, H1 in H2. lia.
Defined.

Lemma a_wait_ends_witness : admission_result by_hand_request ≠ None.
Proof.
  apply (a_wait_ends one_guard report_book by_hand_request 42 (admission_trace by_hand_request) _
    (25 * Millisecond) Second);
    [apply admission_runs|reflexivity|by vm_compute|by vm_compute| |by vm_compute].
  vm_compute. repeat split; discriminate.
Defined.
