(* ===== verification/Instance.v ===== *)
(** Which processes are alive, and the rows of those that are not: the instance locks of
    [instance.go] in [src/runtime/internal/guard], and its [Reconcile] run over the record's
    own operations.

    A lock file's path is its identifier; an advisory lock is held by a process or by no one,
    and the kernel drops it when the process ends.  Opening and trying the lock is one step,
    as is each of the two halves of [Close]. *)
From S2P Require Import Prelude GoStr GoTime GoErr Records Store Eff Guard.

(** ** Instance locks *)

Definition id_char (c : ascii) : bool := is_alnum c || Ascii.eqb c "_" || Ascii.eqb c "-".

Definition instancePattern (id : string) : bool :=
  match id with
  | "" => false
  | String c rest => is_alnum c && str_all id_char rest && (String.length rest <=? 63)%nat
  end.

Record instances := mkInstances {
  lock_files : gset string;   (** the files there are *)
  lock_held : gset string;    (** locked by the process that took it *)
  unreadable : gset string }. (** there, and cannot be examined *)

(** [HoldInstance], the directory made and the file opened. *)
Definition HoldInstance (id : string) (s : instances) : gerror + instances :=
  if negb (instancePattern id) then
    inl (Text ("instance " +:+ quote id +:+ " does not match ^[A-Za-z0-9][A-Za-z0-9_-]{0,63}$"))
  else if decide (id ∈ lock_held s) then
    inl (Text ("locking " +:+ id +:+ ".lock: resource temporarily unavailable"))
  else inr (mkInstances ({[id]} ∪ lock_files s) ({[id]} ∪ lock_held s) (unreadable s)).

(** [Close]: the file goes first, then the lock. *)
Definition close_file (id : string) (s : instances) : instances :=
  mkInstances (lock_files s ∖ {[id]}) (lock_held s) (unreadable s).
Definition close_lock (id : string) (s : instances) : instances :=
  mkInstances (lock_files s) (lock_held s ∖ {[id]}) (unreadable s).

Definition alive (id : string) (s : instances) : bool * instances :=
  if negb (instancePattern id) then (false, s)
  else if decide (id ∉ lock_files s) then (false, s)
  else if decide (id ∈ unreadable s) then (true, s)
  else if decide (id ∈ lock_held s) then (true, s)
  else (false, close_file id s).

(** The processes that took their lock and have neither ended nor begun to close it. *)
Inductive inst_step (s : instances) (live : gset string) : instances → gset string → Prop :=
| inst_hold id s' : HoldInstance id s = inr s' → inst_step s live s' ({[id]} ∪ live)
| inst_close id : id ∈ live → inst_step s live (close_file id s) (live ∖ {[id]})
| inst_unlock id : id ∉ live → inst_step s live (close_lock id s) live
| inst_die id : inst_step s live (close_lock id s) (live ∖ {[id]})
| inst_look id b s' : alive id s = (b, s') → inst_step s live s' live.

Inductive inst_reachable : instances → gset string → Prop :=
| inst_start unread : inst_reachable (mkInstances ∅ ∅ unread) ∅
| inst_next s live s' live' :
    inst_reachable s live → inst_step s live s' live' → inst_reachable s' live'.

Definition live_locked (s : instances) (live : gset string) : Prop :=
  ∀ id, id ∈ live → instancePattern id = true ∧ id ∈ lock_files s ∧ id ∈ lock_held s.

Lemma live_locked_step s live s' live' :
  inst_step s live s' live' → live_locked s live → live_locked s' live'.
Proof.
  unfold live_locked. intros H Hl. destruct H as [id s' H|id Hi|id Hi|id|id b s' H].
  - unfold HoldInstance in H. destruct (instancePattern id) eqn:E; [|done]. simpl in H.
    destruct (decide _); simplify_eq. intros id' Hi. simpl.
    apply elem_of_union in Hi as [->%elem_of_singleton|Hi]; [set_solver|].
    destruct (Hl _ Hi) as (? & ? & ?). set_solver.
  - intros id' Hi'. simpl. apply elem_of_difference in Hi' as [Hi' ?].
    destruct (Hl _ Hi') as (? & ? & ?). set_solver.
  - intros id' Hi'. simpl. destruct (Hl _ Hi') as (? & ? & ?). set_solver.
  - intros id' Hi'. simpl. apply elem_of_difference in Hi' as [Hi' ?].
    destruct (Hl _ Hi') as (? & ? & ?). set_solver.
  - unfold alive in H. intros id' Hi'. destruct (Hl _ Hi') as (? & ? & Hh).
    destruct (negb _); [by simplify_eq|]. destruct (decide (id ∉ _)); [by simplify_eq|].
    destruct (decide (id ∈ unreadable s)); [by simplify_eq|].
    destruct (decide (id ∈ lock_held s)); [by simplify_eq|]. simplify_eq. simpl. set_solver.
Qed.

Lemma reachable_live_locked s live : inst_reachable s live → live_locked s live.
Proof. induction 1; [by intros ? ?%elem_of_empty|by eapply live_locked_step]. Qed.

(** A process that is alive is never read as gone: in every state that taking, looking at,
    closing and dying lead to, an instance that took its lock and has neither ended nor
    begun to give it back is alive, however often and by whomever it is looked at. *)
Theorem the_living_are_alive s live id b s' :
  inst_reachable s live → id ∈ live → alive id s = (b, s') → b = true ∧ s' = s.
Proof.
  intros Hr Hi H. destruct (reachable_live_locked _ _ Hr _ Hi) as (Hp & Hf & Hh).
  unfold alive in H. rewrite Hp in H. simpl in H.
  destruct (decide (id ∉ _)); [done|]. destruct (decide _); [by simplify_eq|].
  destruct (decide _); by simplify_eq.
Qed.

(** Looking changes no answer. *)
Lemma alive_stable id s b s' id' : alive id s = (b, s') → fst (alive id' s') = fst (alive id' s).
Proof.
  unfold alive. intros H. destruct (negb (instancePattern id)); [by simplify_eq|].
  destruct (decide (id ∉ lock_files s)); [by simplify_eq|].
  destruct (decide (id ∈ unreadable s)); [by simplify_eq|].
  destruct (decide (id ∈ lock_held s)); [by simplify_eq|]. simplify_eq. simpl.
  destruct (negb _); [done|]. repeat case_decide; set_solver.
Qed.

(** ** Reconcile over the record *)

Section reconcile.
Context (redact : string → string) (new_id : nat → gerror + string) (wall : Z → Z).

(** The record, the locks, and how many identifiers and readings were taken. *)
Record world := mkWorld { w_db : db; w_locks : instances; w_ids : nat; w_time : Z }.

(** What [Reconcile] calls, over [Store] and the locks; it makes no other call. *)
Definition reconcile_world (c : guard_cmd) (w : world) : guard_resp c * world :=
  match c as c return guard_resp c * world with
  | Wall => (wall (w_time w), mkWorld (w_db w) (w_locks w) (w_ids w) (w_time w + 1))
  | Alive id =>
      let '(b, locks) := alive id (w_locks w) in (b, mkWorld (w_db w) locks (w_ids w) (w_time w))
  | StillWaiting => (inr (Store.StillWaiting (w_db w)), w)
  | EndWait id end_ =>
      let '(r, d) := Store.EndWait redact (new_id (w_ids w)) id end_ (w_db w) in
      (r, mkWorld d (w_locks w) (S (w_ids w)) (w_time w))
  | Monotonic => (0, w)
  | Acquire _ _ => (inl (Text ""), w)
  | Reach => ("", w)
  | Released _ _ => ((None, false), w)
  | Release _ _ => (None, w)
  | CtxErr => (None, w)
  | ReadDir _ => (inr [], w)
  | Reload _ => (inl (Text ""), w)
  | MintRunID => (inl (Text ""), w)
  | RecordRefusal _ => (None, w)
  | AcceptWaiting t _ => ((t, None), w)
  | OnWait _ => (tt, w)
  end.

Definition run_world {A} (p : prog (Sg := guard_sig) A) (w : world) : A * world :=
  exec (Sg := guard_sig) reconcile_world p w.

Definition is_live (id : string) (w : world) : bool := fst (alive id (w_locks w)).

Lemma run_do {A} c (f : guard_resp c → prog (Sg := guard_sig) A) w :
  run_world (bind (Do c) f) w = let (x, w') := reconcile_world c w in run_world (f x) w'.
Proof.
  unfold run_world. rewrite (exec_bind (Sg := guard_sig)). unfold Do, call. simpl.
  by destruct (reconcile_world c w).
Qed.

Ltac run_one H :=
  match type of H with
  | run_world (bind (Do ?c) ?f) ?w = _ => rewrite (run_do c f w) in H; cbn [reconcile_world] in H
  end.

(** A row whose process is alive and that no run names. *)
Definition still_due (w : world) (row : WaitingTrigger) : Prop :=
  is_live (w_Instance row) w = true ∧ w_RunID (waiting_columns (w_db w) row) = "".

(** The rows waiting now are due, or still to be looked at. *)
Definition settled (w : world) (rows : list WaitingTrigger) : Prop :=
  ∀ row, row ∈ waiting_triggers (w_db w) → is_waiting row = true →
    waiting_columns (w_db w) row ∈ rows ∨ still_due w row.

(** What reconciling keeps of the world it began with. *)
Record since (w0 w : world) (n : Z) : Prop := {
  sn_runs : Records.runs (w_db w) = Records.runs (w_db w0);
  sn_live : ∀ id, is_live id w = is_live id w0;
  sn_rows : ∀ row, row ∈ waiting_triggers (w_db w) → is_waiting row = true →
              row ∈ waiting_triggers (w_db w0);
  sn_due : ∀ row, row ∈ waiting_triggers (w_db w0) → is_waiting row = true → still_due w0 row →
              row ∈ waiting_triggers (w_db w);
  sn_refusals : Z.of_nat (length (refusals (w_db w))) = Z.of_nat (length (refusals (w_db w0))) + n }.

Lemma waiting_columns_ext d d' row : Records.runs d' = Records.runs d → waiting_columns d' row = waiting_columns d row.
Proof. unfold waiting_columns. by intros ->. Qed.

Lemma EndWait_settles rid id end_ s b s' :
  Store.EndWait redact rid id end_ s = (inr b, s') →
  Records.runs s' = Records.runs s ∧
  (∀ row, row ∈ waiting_triggers s' → is_waiting row = true →
     row ∈ waiting_triggers s ∧ w_ID row ≠ id) ∧
  (∀ row, row ∈ waiting_triggers s → w_ID row ≠ id → row ∈ waiting_triggers s') ∧
  length (refusals s') = (length (refusals s) +
    match b, n_Refusal end_ with true, Some _ => 1 | _, _ => 0 end)%nat.
Proof.
  intros H. destruct (EndWait_cases _ _ _ _ _ _ _ H) as [[-> Hb]|(Hb & Hr & Ho & _ & Hw & Hf)].
  - destruct b; [done|]. split; [done|]. split; [|split; [done|lia]].
    unfold Store.EndWait in H. destruct (_ || _); [done|].
    destruct (update_where _ _ _) as [rows changed] eqn:Eu.
    destruct ((0 <? changed)%nat && _); [done|].
    destruct (changed =? 0)%nat eqn:Ec.
    + apply Nat.eqb_eq in Ec. subst changed.
      assert (∀ x, x ∈ waiting_triggers s → waiting_row id x = false) as Hnone
        by (by eapply update_none; rewrite Eu).
      intros row Hrow Hl. split; [done|]. intros Hid.
      pose proof (proj2 (waiting_row_spec id row) (conj Hid Hl)). rewrite Hnone in *; done.
    + destruct (n_Refusal end_); [destruct (insertRefusal _ _ _ _) as [[]]|]; simplify_eq.
  - simplify_eq. split; [done|]. split; [|split].
    + rewrite Hw. intros row (x & Hx & [[Hp ->]|[Hp ->]])%elem_of_update Hl.
      * exfalso. unfold is_waiting in Hl. simpl in Hl. by apply String.eqb_eq in Hl.
      * split; [done|]. intros Hid. pose proof (proj2 (waiting_row_spec id x) (conj Hid Hl)). congruence.
    + rewrite Hw. intros row Hrow Hid. apply elem_of_update. exists row. split; [done|right].
      split; [|done]. destruct (waiting_row id row) eqn:E; [|done]. by apply waiting_row_spec in E as [? _].
    + destruct (n_Refusal end_); [destruct Hf as [? ->]; rewrite length_app; simpl; lia|].
      rewrite Hf. lia.
Qed.

(** Ending the row of a trigger that is not due goes on keeping it all. *)
Lemma end_one w0 w n trigger rows end_ b d' ids time :
  waits_ok (w_db w0) → since w0 w n → settled w (trigger :: rows) →
  (∃ row, row ∈ waiting_triggers (w_db w0) ∧ is_waiting row = true ∧
          trigger = waiting_columns (w_db w0) row ∧ ¬ still_due w0 row) →
  Store.EndWait redact (new_id (w_ids w)) (w_ID trigger) end_ (w_db w) = (inr b, d') →
  since w0 (mkWorld d' (w_locks w) ids time)
    (n + match b, n_Refusal end_ with true, Some _ => 1 | _, _ => 0 end) ∧
  settled (mkWorld d' (w_locks w) ids time) rows.
Proof.
  intros Hok [S1 S2 S3 S4 S5] Hs (r0 & Hr0 & Hw0 & -> & Hnd) H.
  destruct (EndWait_settles _ _ _ _ _ _ H) as (Hr & Hlive & Hkeep & Hf). simpl in *. split.
  - constructor; simpl.
    + congruence.
    + done.
    + intros row Hrow Hl. apply S3; [|done]. by apply Hlive.
    + intros row Hrow Hl Hdue. apply Hkeep; [by apply S4|].
      intros Hid. apply Hnd. enough (row = r0) by congruence.
      eapply elem_of_by_id; [apply Hok|done|done|done].
    + rewrite Hf. destruct b, (n_Refusal end_); lia.
  - intros row Hrow Hl. destruct (Hlive _ Hrow Hl) as [Hrow' Hid]. simpl.
    rewrite (waiting_columns_ext (w_db w) d' row Hr).
    destruct (Hs _ Hrow' Hl) as [[Heq|?]%elem_of_cons|[Hv Hrun]].
    + exfalso. apply Hid. by apply (f_equal w_ID) in Heq.
    + by left.
    + right. split; [done|]. rewrite <-Hrun. f_equal. by apply waiting_columns_ext.
Qed.

Lemma not_still_due w0 w n row :
  since w0 w n → negb (String.eqb (w_RunID (waiting_columns (w_db w0) row)) "") = true ∨
                 is_live (w_Instance row) w = false → ¬ still_due w0 row.
Proof.
  intros [_ S2 _ _ _] H [Hl Hr]. destruct H as [H|H].
  - rewrite Hr in H. done.
  - rewrite S2 in H. congruence.
Qed.

Lemma reconcile_rows_settles rows : ∀ w0 w n m k w',
  waits_ok (w_db w0) → since w0 w n → settled w rows →
  (∀ t, t ∈ rows → ∃ row, row ∈ waiting_triggers (w_db w0) ∧ is_waiting row = true ∧
          t = waiting_columns (w_db w0) row) →
  run_world (reconcile_rows rows k) w = ((m, None), w') →
  since w0 w' (n + (m - k)) ∧ settled w' [].
Proof.
  induction rows as [|t rows IH]; intros w0 w n m k w' Hok Hsince Hset Hrows H.
  { unfold run_world in H. simpl in H. simplify_eq. by replace (n + (m - m)) with n by lia. }
  assert (∀ t, t ∈ rows → ∃ row, row ∈ waiting_triggers (w_db w0) ∧ is_waiting row = true ∧
          t = waiting_columns (w_db w0) row) as Hrows' by (intros; apply Hrows; by right).
  destruct (Hrows t ltac:(left)) as (r0 & Hr0 & Hw0 & Ht). cbn [reconcile_rows] in H.
  assert (negb (String.eqb (w_RunID t) "") = true ∨ is_live (w_Instance t) w = false →
    ∃ row, row ∈ waiting_triggers (w_db w0) ∧ is_waiting row = true ∧
      t = waiting_columns (w_db w0) row ∧ ¬ still_due w0 row) as Hend.
  { intros Hn. exists r0. split; [done|]. split; [done|]. split; [done|].
    eapply not_still_due; [done|]. by rewrite Ht in Hn. }
  destruct (negb (String.eqb (w_RunID t) "")) eqn:Erun.
  - run_one H. run_one H.
    destruct (Store.EndWait _ _ _ _ _) as [[err|b] d'] eqn:E; [by unfold run_world in H; simplify_eq/=|].
    destruct (end_one _ _ _ _ _ _ _ _ (S (w_ids w)) (w_time w + 1) Hok Hsince Hset (Hend (or_introl eq_refl)) E)
      as [Hs1 Hs2].
    replace (n + (m - k)) with ((n + (if b then 0 else 0)) + (m - k)) by (destruct b; lia).
    eapply IH; [done| |done|done|done]. by destruct b.
  - run_one H. destruct (alive (w_Instance t) (w_locks w)) as [b locks] eqn:Ea.
    assert (since w0 (mkWorld (w_db w) locks (w_ids w) (w_time w)) n) as Hs1.
    { destruct Hsince as [S1 S2 S3 S4 S5]. constructor; try done. intros id.
      rewrite <-S2. unfold is_live. simpl. by eapply alive_stable. }
    assert (∀ l, settled w l → settled (mkWorld (w_db w) locks (w_ids w) (w_time w)) l) as Hs2.
    { intros l Hl row Hrow Hw. destruct (Hl row Hrow Hw) as [?|[Hv Hrun]]; [by left|right].
      split; [|done]. rewrite <-Hv. unfold is_live. simpl. by eapply alive_stable. }
    destruct b.
    + eapply IH; [done|done| |done|done]. intros row Hrow Hw.
      destruct (Hs2 _ Hset row Hrow Hw) as [[Heq|?]%elem_of_cons|?]; [right|by left|by right].
      split; [|by rewrite Heq; apply negb_false_iff, String.eqb_eq in Erun].
      assert (w_Instance row = w_Instance t) as -> by exact (f_equal w_Instance Heq).
      unfold is_live. simpl. rewrite (alive_stable _ _ _ _ (w_Instance t) Ea). by rewrite Ea.
    + run_one H. run_one H.
      destruct (Store.EndWait _ _ _ _ _) as [[err|ended] d'] eqn:E; [by unfold run_world in H; simplify_eq/=|].
      assert (is_live (w_Instance t) w = false) as Hdead by (unfold is_live; by rewrite Ea).
      destruct (end_one _ _ _ _ _ _ _ _ (S (w_ids w)) (w_time w + 1) Hok Hs1 (Hs2 _ Hset)
        (Hend (or_intror Hdead)) E) as [Hs3 Hs4].
      replace (n + (m - k)) with ((n + (if ended then 1 else 0)) + (m - (if ended then k + 1 else k)))
        by (destruct ended; lia).
      eapply IH; [done| |done|done|done]. by destruct ended.
Qed.

(** C27: Reconciling drops the triggers of the dead and of no one else: run over the record's own
    operations, Reconcile, when it reports no error, leaves waiting only rows whose process is
    alive and that no run names, keeps every such row it found, changes no run, and writes
    exactly as many refusals as it reports dropped. *)
Theorem Reconcile_drops_only_the_dead w n w' :
  waits_ok (w_db w) → run_world Reconcile w = ((n, None), w') →
  (∀ row, row ∈ waiting_triggers (w_db w') → is_waiting row = true → still_due w' row) ∧
  (∀ row, row ∈ waiting_triggers (w_db w) → is_waiting row = true → still_due w row →
     row ∈ waiting_triggers (w_db w')) ∧
  Records.runs (w_db w') = Records.runs (w_db w) ∧
  Z.of_nat (length (refusals (w_db w'))) = Z.of_nat (length (refusals (w_db w))) + n.
Proof.
  intros Hok H. unfold Reconcile in H. run_one H.
  assert (∀ t, t ∈ Store.StillWaiting (w_db w) ↔ ∃ row, row ∈ waiting_triggers (w_db w) ∧
    is_waiting row = true ∧ t = waiting_columns (w_db w) row) as Hwait.
  { intros t. unfold Store.StillWaiting. rewrite list_elem_of_fmap. split.
    - intros (row & -> & Hrow). rewrite order_by_perm, list_elem_of_In, filter_In, <-list_elem_of_In in Hrow.
      destruct Hrow. eauto.
    - intros (row & Hrow & Hw & ->). exists row. split; [done|].
      rewrite order_by_perm, list_elem_of_In, filter_In, <-list_elem_of_In. done. }
  destruct (reconcile_rows_settles (Store.StillWaiting (w_db w)) w w 0 n 0 w' Hok) as [[S1 S2 S3 S4 S5] Hs].
  - constructor; try done. lia.
  - intros row Hrow Hw. left. apply Hwait. eauto.
  - intros t Ht. by apply Hwait.
  - done.
  - split_and!; [|done|done|by rewrite S5; lia].
    intros row Hrow Hw. by destruct (Hs row Hrow Hw) as [?%elem_of_nil|].
Qed.

End reconcile.

(** ** Concrete runs *)

Definition nobody : instances := mkInstances ∅ ∅ ∅.
Definition one_process : instances := mkInstances {["p1"]} {["p1"]} ∅.

Lemma one_process_reachable : inst_reachable one_process {["p1"]}.
Proof.
  replace one_process with (mkInstances ({["p1"]} ∪ ∅) ({["p1"]} ∪ ∅) ∅)
    by (unfold one_process; f_equal; set_solver).
  replace ({["p1"]} : gset string) with ({["p1"]} ∪ ∅ : gset string) by set_solver.
  eapply inst_next; [apply (inst_start ∅)|]. apply inst_hold. by vm_compute.
Qed.

Lemma the_living_are_alive_witness : fst (alive "p1" one_process) = true.
Proof.
  destruct (alive "p1" one_process) as [b s'] eqn:E.
  by destruct (the_living_are_alive one_process {["p1"]} "p1" b s' one_process_reachable
    ltac:(by apply elem_of_singleton) E).
Defined.

Definition one_waiting : world := mkWorld after_accept nobody 0 (100 * Second).
Definition some_id (n : nat) : gerror + string := inr ("id" +:+ show_nat n).
Definition wall_now (t : Z) : Z := t.

Lemma after_accept_ok : waits_ok after_accept.
Proof.
  destruct (steps_keep Store.plain "" empty_db after_accept after_accept_reachable empty_waits_ok) as [H _].
  exact H.
Qed.

Lemma Reconcile_drops_only_the_dead_witness :
  ∃ w', run_world Store.plain some_id wall_now Reconcile one_waiting = ((1, None), w') ∧
    length (refusals (w_db w')) = 1%nat ∧
    ∀ row, row ∈ waiting_triggers (w_db w') → is_waiting row = true → still_due w' row.
Proof.
  destruct (run_world Store.plain some_id wall_now Reconcile one_waiting) as [[n [err|]] w'] eqn:E;
    [by vm_compute in E|].
  destruct (Reconcile_drops_only_the_dead Store.plain some_id wall_now one_waiting n w'
    after_accept_ok E) as (Hs & _ & _ & Hr).
  assert (n = 1) as ->.
  { pose proof (f_equal (λ r, fst (fst r)) E) as Hn. vm_compute in Hn. done. }
  exists w'. split; [done|]. split; [|exact Hs].
  assert (refusals (w_db one_waiting) = []) as H0 by reflexivity. rewrite H0 in Hr. simpl in Hr. lia.
Defined.
