(* ===== verification/Holder.v ===== *)
(** Holding a claim: [holder.go] in [src/runtime/internal/guard].

    The renewal loop runs against what its world answers each round: whether the run was over
    before the timer fired, how late the timer was, how long the renewal took and what it
    gave.  Readings are of the monotonic clock, and no time passes but in a timer and in a
    renewal.  The stop decision, which the loop and every fence may reach, is a state of its
    own and the interleaving of its callers a list. *)
From S2P Require Import Prelude GoStr GoTime GoErr GuardConfig.

(** ** The renewal loop *)

(** One round of the loop's world: [a_over] is how far into the wait the run was over. *)
Record answer := mkAnswer {
  a_over : option Z; a_late : Z; a_took : Z; a_err : option gerror }.

(** How the loop stands: it decided to stop at a reading, for a reason, the last renewal that
    succeeded sent when; the run was over; or its world has no more to say. *)
Inductive outcome :=
| Stopped (now : Instant) (why : string) (sent : Instant)
| Over (now : Instant)
| Holding (sent attempt now : Instant).

Definition late_reason : string :=
  "the claim could not be renewed in time to prove it is still held".

Definition wait_for (cfg : Config) (expiry : Z) (sent attempt now : Instant) : Z :=
  Z.min (instant_sub (instant_add attempt (RenewEvery cfg)) now)
        (instant_sub (StopDeadline cfg sent expiry) now).

(** A renewal the claim was asked, as the world has it: when it was sent, and what it gave. *)
Record sending := mkSending { d_At : Instant; d_Err : option gerror }.
Definition after_sending (d : sending) (r : outcome * list sending) : outcome * list sending := (fst r, d :: snd r).

(** The loop from an instant of the world's, and the renewals it sends. *)
Fixpoint renew (cfg : Config) (expiry : Z) (sent attempt clock : Instant) (env : list answer)
  : outcome * list sending :=
  let now := clock in
  if negb (now <? StopDeadline cfg sent expiry) then (Stopped now late_reason sent, [])
  else
    match env with
    | [] => (Holding sent attempt now, [])
    | a :: env =>
        let wait := wait_for cfg expiry sent attempt now in
        match a_over a with
        | Some d => (Over (clock + d), [])
        | None =>
            let clock := clock + Z.max 0 wait + a_late a in
            let attempt := clock in
            let renewal := mkSending clock (a_err a) in
            let clock := clock + a_took a in
            after_sending renewal
              match a_err a with
              | None => let sent := attempt in renew cfg expiry sent attempt clock env
              | Some err =>
                  if errors_is err ErrLost then (Stopped clock ("the claim is gone: " +:+ Error err) sent, [])
                  else renew cfg expiry sent attempt clock env
              end
        end
    end.

(** [Hold]: a claim that does not expire is not renewed. *)
Definition Hold (cfg : Config) (expiry : Z) (sent now : Instant) (env : list answer) : option (outcome * list sending) :=
  if expiry =? 0 then None else Some (renew cfg expiry sent sent now env).

(** When the last renewal that succeeded was sent, or the claim itself when none did. *)
Definition last_sent (sent : Instant) (renewals : list sending) : Instant :=
  foldl (λ sent d, match d_Err d with None => d_At d | Some _ => sent end) sent renewals.

(** A world whose timers are at most [late] late, on the renewal bound's too. *)
Definition prompt (cfg : Config) (late : Z) (a : answer) : Prop :=
  0 <= a_late a <= late ∧ 0 <= a_took a <= RenewBound cfg + late.

(** Durations of the loop, the granted expiry with them, that no sum of them wraps. *)
Definition loop_ok (cfg : Config) (expiry late : Z) : Prop :=
  moderate cfg ∧ ClaimExpiry cfg <= expiry <= 2 ^ 58 ∧ 0 <= late <= 2 ^ 58 ∧
  StopBound cfg + MarginFloor <= expiry.

Lemma StopDeadline_exact cfg expiry late sent :
  loop_ok cfg expiry late → 0 <= sent <= 2 ^ 61 →
  StopDeadline cfg sent expiry = sent + expiry - StopBound cfg - MarginFloor.
Proof.
  unfold loop_ok, moderate. intros Hok Hs. unfold StopDeadline. no_wrap. lia.
Qed.

Lemma wait_for_exact cfg expiry late sent attempt now :
  loop_ok cfg expiry late → 0 <= sent <= 2 ^ 61 → sent <= attempt <= now → now <= 2 ^ 61 + 2 ^ 60 →
  wait_for cfg expiry sent attempt now =
    Z.min (attempt + RenewEvery cfg - now) (sent + expiry - StopBound cfg - MarginFloor - now).
Proof.
  intros Hok Hs Ha Hn. unfold wait_for. rewrite (StopDeadline_exact _ _ late) by done.
  unfold loop_ok, moderate in Hok. no_wrap. lia.
Qed.

(** The last success the loop reports is at or after the one it had. *)
Lemma renew_sent_later cfg expiry late env : ∀ sent attempt now t why s,
  Forall (prompt cfg late) env → sent <= now →
  fst (renew cfg expiry sent attempt now env) = Stopped t why s →
  sent <= s ∧ s = last_sent sent (snd (renew cfg expiry sent attempt now env)).
Proof.
  induction env as [|a env IH]; intros sent attempt now t why s Hp Hn; simpl;
    destruct (negb _); cbn [fst snd]; intros H; simplify_eq; [done|done|].
  apply Forall_cons in Hp as [[Hl Ht] Hp].
  destruct (a_over a); [done|]. destruct (a_err a) as [err|]; unfold after_sending in *; cbn [fst snd] in *.
  - destruct (is_sentinel "claim lost" err); cbn [fst snd] in *; simplify_eq; [done|]. eapply IH; [done| |done]. lia.
  - apply IH in H as [H1 H2]; [|done|lia]. split; [|exact H2]. etrans; [|exact H1]. lia.
Qed.

Lemma renew_stops_by cfg expiry late env : ∀ sent attempt now t why s,
  loop_ok cfg expiry late → Forall (prompt cfg late) env →
  0 <= sent <= attempt → attempt <= now → s <= 2 ^ 61 →
  now <= sent + expiry - StopBound cfg - MarginFloor + RenewBound cfg + 2 * late →
  fst (renew cfg expiry sent attempt now env) = Stopped t why s →
  t <= s + expiry - StopBound cfg - MarginFloor + RenewBound cfg + 2 * late ∧
  (why = late_reason → s + expiry - StopBound cfg - MarginFloor <= t).
Proof.
  induction env as [|a env IH]; intros sent attempt now t why s Hok Hp Hs Ha Hbig Hn H;
    assert (sent <= now) as Hsn by lia;
    destruct (renew_sent_later _ _ late _ _ _ _ _ _ _ Hp Hsn H) as [Hss _]; simpl in H;
    rewrite (StopDeadline_exact _ _ late) in H by (done || lia).
  - destruct (negb _) eqn:E; cbn [fst] in H; simplify_eq. bool_facts. split; [lia|intros _; lia].
  - destruct (negb _) eqn:E; cbn [fst] in H; bool_facts; [simplify_eq; split; [lia|intros _; lia]|].
    apply Forall_cons in Hp as [[Hl Ht] Hp]. destruct (a_over a); [done|].
    assert (now <= 2 ^ 61 + 2 ^ 60) as Hnow by (unfold loop_ok, moderate, MarginFloor, Second in *; lia).
    rewrite (wait_for_exact _ _ late) in H by (done || lia).
    destruct (a_err a) as [err|]; unfold after_sending in H; cbn [fst] in H.
    + destruct (is_sentinel "claim lost" err); cbn [fst] in H; simplify_eq.
      * split; [lia|]. intros Hw. discriminate Hw.
      * eapply IH; [done|done| | | | |done]; lia.
    + eapply IH; [done|done| | | | |done]; unfold loop_ok, moderate, MarginFloor, Second in *; lia.
Qed.

(** C22: A run is stopped by the deadline its claim allows, and one renewal bound more: under durations
    whose sums do not wrap, a granted expiry of at least the one asked for and more than the stop bound
    and the margin floor, and a world whose timers, a renewal's bound with them, are at most so late,
    a loop that begins before its first deadline never decides for lateness before the deadline of the
    last renewal that succeeded, counted from the instant that renewal was sent and not from its
    answer, and decides never later than a renewal bound and the timers' lateness after it; so where
    the renewal bound fits in the margin floor, the run has its whole stop bound before the claim, in
    force from that sending for what it was granted, can lapse. *)
Theorem a_hold_stops_in_time cfg expiry late sent now env t why s renewals :
  loop_ok cfg expiry late → Forall (prompt cfg late) env →
  0 <= sent <= now → now <= StopDeadline cfg sent expiry → last_sent sent renewals <= 2 ^ 61 → sent <= 2 ^ 61 →
  Hold cfg expiry sent now env = Some (Stopped t why s, renewals) →
  let anchor := last_sent sent renewals in
  let deadline := anchor + expiry - StopBound cfg - MarginFloor in
  (why = late_reason → deadline <= t) ∧ t <= deadline + RenewBound cfg + 2 * late ∧
  (RenewBound cfg + 3 * late <= MarginFloor → t + StopBound cfg + late <= anchor + expiry).
Proof.
  unfold Hold. intros Hok Hp Hs Hn Hbig Hsent H. destruct (expiry =? 0); [done|]. apply (inj Some) in H.
  assert (fst (renew cfg expiry sent sent now env) = Stopped t why s ∧ snd (renew cfg expiry sent sent now env) = renewals) as [H1 <-]
    by by rewrite H.
  destruct (renew_sent_later _ _ late _ _ _ _ _ _ _ Hp (proj2 Hs) H1) as [Hss E]. rewrite <- E in *.
  rewrite (StopDeadline_exact _ _ late) in Hn by (done || lia).
  assert (0 <= RenewBound cfg + 2 * late) by (unfold loop_ok, moderate in Hok; lia).
  destruct (renew_stops_by cfg expiry late env sent sent now t why s) as [Hle Hge]; try done; try lia.
  simpl. split_and!; [exact Hge|lia|lia].
Qed.

(** The defaults let a run outlive its claim: granted thirty seconds at instant zero, its
    renewals at 5, 10 and 15 seconds refused at once and the one it then sends at the very
    deadline hanging for its whole bound, the loop decides four seconds past the deadline,
    and the stop bound it then has ends two seconds after the claim has lapsed. *)
Theorem the_defaults_can_outlive_a_claim :
  let refused := mkAnswer None 0 0 (Some ErrUnavailable) in
  let hung := mkAnswer None 0 (RenewBound DefaultConfig) (Some ErrUnavailable) in
  let expiry := ClaimExpiry DefaultConfig in
  Config_Check DefaultConfig = None ∧
  ∃ t, fst <$> Hold DefaultConfig expiry 0 0 [refused; refused; refused; hung] =
         Some (Stopped t late_reason 0) ∧
    t = StopDeadline DefaultConfig 0 expiry + 4 * Second ∧ t + StopBound DefaultConfig = expiry + 2 * Second.
Proof. split; [by vm_compute|]. eexists. split; [vm_compute; reflexivity|]. by vm_compute. Qed.

Lemma renew_healthy cfg expiry env : ∀ sent now t why s,
  loop_ok cfg expiry 0 → Config_Check cfg = None →
  Forall (λ a, prompt cfg 0 a ∧ a_err a = None) env →
  0 <= sent <= now → now <= sent + RenewBound cfg →
  fst (renew cfg expiry sent sent now env) = Stopped t why s → 2 ^ 61 < s.
Proof.
  intros sent now t why s Hok Hc. pose proof (proj1 (Config_Check_iff cfg (proj1 Hok)) Hc) as (Hsum & Hre & _).
  revert sent now. induction env as [|a env IH]; intros sent now Hp Hs Hn H;
    destruct (decide (2 ^ 61 < s)) as [|Hbig]; try done; exfalso.
  - simpl in H. rewrite (StopDeadline_exact _ _ 0) in H; [|done|].
    + destruct (negb _) eqn:E; cbn [fst] in H; simplify_eq. bool_facts. unfold loop_ok in Hok. lia.
    + destruct (negb _); cbn [fst] in H; simplify_eq. lia.
  - assert (sent <= s) as Hss.
    { apply proj1 with (s = last_sent sent (snd (renew cfg expiry sent sent now (a :: env)))).
      eapply (renew_sent_later _ _ 0); [|apply Hs|exact H]. eapply Forall_impl; [exact Hp|].
      simpl. tauto. }
    simpl in H. rewrite (StopDeadline_exact _ _ 0) in H by (done || lia).
    destruct (negb _) eqn:E; cbn [fst] in H; bool_facts; [unfold loop_ok in Hok; lia|].
    apply Forall_cons in Hp as [[[Hl Ht] Herr] Hp]. destruct (a_over a); [done|]. unfold after_sending in H. cbn [fst] in H. rewrite Herr in H.
    rewrite (wait_for_exact _ _ 0) in H;
      [|done|lia|lia|unfold loop_ok, moderate, MarginFloor, Second in *; lia].
    apply Hbig. eapply IH; [exact Hp| | |exact H]; unfold loop_ok, moderate in Hok; lia.
Qed.

(** A run whose renewals are answered is never stopped: under a configuration Check
    accepts, where every renewal succeeds within the renewal bound and no timer is late, the
    loop reaches no stop decision, short of a clock that has run for seventy years. *)
Theorem a_renewed_hold_is_kept cfg expiry env sent now :
  loop_ok cfg expiry 0 → Config_Check cfg = None →
  Forall (λ a, prompt cfg 0 a ∧ a_err a = None) env →
  0 <= sent <= now → now <= sent + RenewBound cfg →
  match fst <$> Hold cfg expiry sent now env with Some (Stopped _ _ s) => 2 ^ 61 < s | _ => True end.
Proof.
  unfold Hold. intros Hok Hc Hp Hs Hn. destruct (expiry =? 0); [done|]. cbn.
  destruct (fst (renew cfg expiry sent sent now env)) eqn:E; [|done..]. by eapply renew_healthy.
Qed.

Lemma renew_severed cfg expiry late env : ∀ sent attempt now,
  loop_ok cfg expiry late → Forall (λ a, prompt cfg late a ∧ a_err a ≠ None ∧ a_over a = None) env →
  0 <= sent <= 2 ^ 61 → sent <= attempt <= now → now <= 2 ^ 61 + 2 ^ 60 →
  (StopDeadline cfg sent expiry <= now ∨
   StopDeadline cfg sent expiry - attempt <= RenewEvery cfg * (Z.of_nat (length env) - 1)) →
  ∃ t why, fst (renew cfg expiry sent attempt now env) = Stopped t why sent.
Proof.
  induction env as [|a env IH]; intros sent attempt now Hok Hp Hs Ha Hn Hlen; simpl;
    rewrite (StopDeadline_exact _ _ late) in * by (done || lia).
  - destruct (negb _) eqn:E; [eauto|]. bool_facts. simpl in Hlen.
    destruct Hlen; [lia|]. exfalso. unfold loop_ok, moderate in Hok. nia.
  - destruct (negb _) eqn:E; [eauto|]. bool_facts. destruct Hlen as [?|Hlen]; [lia|].
    apply Forall_cons in Hp as [([Hl Ht] & Herr & ->) Hp].
    destruct (a_err a) as [err|]; [|done]. rewrite (wait_for_exact _ _ late) by (done || lia).
    unfold after_sending. cbn [fst]. destruct (is_sentinel "claim lost" err); [eauto|].
    cbn [length] in Hlen. rewrite Nat2Z.inj_succ in Hlen.
    apply IH; [done|done|done|lia|unfold loop_ok, moderate, MarginFloor, Second in *; lia|].
    rewrite (StopDeadline_exact _ _ late) by (done || lia).
    destruct (decide (sent + expiry - StopBound cfg - MarginFloor <= attempt + RenewEvery cfg)); [left|right]; nia.
Qed.

(** A hold that cannot renew stops its run: when no renewal succeeds and the run does not end
    first, the loop reaches a stop decision, anchored on the grant, within as many rounds as
    renewal intervals fit in the granted expiry, and two. *)
Theorem a_severed_hold_stops cfg expiry late env sent now :
  loop_ok cfg expiry late → Forall (λ a, prompt cfg late a ∧ a_err a ≠ None ∧ a_over a = None) env →
  0 <= sent <= 2 ^ 61 → sent <= now <= 2 ^ 61 + 2 ^ 60 →
  expiry / RenewEvery cfg + 2 <= Z.of_nat (length env) →
  ∃ t why, fst <$> Hold cfg expiry sent now env = Some (Stopped t why sent).
Proof.
  intros Hok Hp Hs Hn Hlen. unfold Hold.
  assert (0 < RenewEvery cfg ∧ 0 < expiry ∧ 0 < StopBound cfg) as (Hre & He & Hsb)
    by (unfold loop_ok, moderate in Hok; lia).
  destruct (expiry =? 0) eqn:E; [lia|].
  cbn. destruct (renew_severed cfg expiry late env sent sent now) as (t & why & ->); [done..|lia|lia| |eauto].
  right. rewrite (StopDeadline_exact _ _ late) by done. unfold MarginFloor, Second.
  pose proof (Z.mul_succ_div_gt expiry (RenewEvery cfg) Hre). nia.
Qed.

(** ** The stop decision *)

(** The decision's state: whether it was taken and why, how often the run was told to stop, and
    the process's exit code once it ended. *)
Record hold := mkHold { reason : option string; stops : nat; ended : bool; exit_code : option Z }.

Definition held_now : hold := mkHold None 0 false None.

Definition StopBoundExceeded : Z := 3.

Definition Stopped_ (h : hold) : bool := bool_decide (is_Some (reason h)).
Definition Reason (h : hold) : string := default "" (reason h).

(** What may happen to a hold, in any order: the loop or a fence decides, a fence is asked and
    answered, the run is over, the stop bound's timer fires. *)
Inductive action :=
| Decide (why : string)
| FenceAnswered (err : option gerror)
| Done
| TimerFired.

Definition decideToStop (why : string) (h : hold) : hold :=
  match reason h with
  | Some _ => h
  | None => mkHold (Some why) (S (stops h)) (ended h) (exit_code h)
  end.

Definition Fence (err : option gerror) (h : hold) : option gerror * hold :=
  match err with
  | None => (None, h)
  | Some err => (Some err, decideToStop ("the claim could not be fenced: " +:+ Error err) h)
  end.

(** [enforce]: once a decision was taken, a run not over when the bound has passed ends its
    process. *)
Definition enforce (h : hold) : hold :=
  if Stopped_ h && negb (ended h) && bool_decide (exit_code h = None)
  then mkHold (reason h) (stops h) (ended h) (Some StopBoundExceeded) else h.

Definition act (h : hold) (a : action) : hold :=
  match a with
  | Decide why => decideToStop why h
  | FenceAnswered err => snd (Fence err h)
  | Done => mkHold (reason h) (stops h) true (exit_code h)
  | TimerFired => enforce h
  end.

Definition decided_by (a : action) : option string :=
  match a with
  | Decide why => Some why
  | FenceAnswered (Some err) => Some ("the claim could not be fenced: " +:+ Error err)
  | _ => None
  end.

Lemma act_reason h a : reason (act h a) = match reason h with Some why => Some why | None => decided_by a end.
Proof.
  destruct a as [why|[err|]| |]; simpl; unfold decideToStop, enforce; repeat case_match; simplify_eq/=; congruence.
Qed.

(** The stop decision is taken once: whatever the renewal loop and however many fences decide,
    in any order, the run is told to stop exactly once when any of them did, the reason kept is
    the first one's, and the process exits only after a decision, on a run that was not over. *)
Theorem a_hold_decides_once actions :
  let h := foldl act held_now actions in
  reason h = head (omap decided_by actions) ∧
  stops h = (if Stopped_ h then 1 else 0)%nat ∧
  (exit_code h ≠ None → exit_code h = Some StopBoundExceeded ∧ Stopped_ h = true).
Proof.
  simpl. induction actions as [|a actions (Hr & Hs & He)] using rev_ind; [done|].
  rewrite foldl_app, omap_app. set (h := foldl act held_now actions) in *. cbn [foldl].
  assert (reason (act h a) = head (omap decided_by actions ++ omap decided_by [a])) as Hr'.
  { rewrite act_reason, Hr. destruct (omap decided_by actions); [|done]. simpl. by destruct (decided_by a). }
  split; [done|]. unfold Stopped_ in *. split.
  - destruct a as [why|[err|]| |]; simpl; unfold decideToStop, enforce, Stopped_;
      repeat case_match; simplify_eq/=; rewrite ?Hs; repeat case_match; bool_facts; try done; simplify_eq/=;
      try by (exfalso; eauto).
  - destruct a as [why|[err|]| |]; simpl; unfold decideToStop, enforce, Stopped_;
      repeat case_match; simplify_eq/=; rewrite ?bool_decide_eq_true in *; bool_facts; try naive_solver.
Qed.

(** ** Concrete holds *)

Definition short_bound : Config := mkConfig None (30 * Second) (5 * Second) (1 * Second) (10 * Second) (5 * Second).
Definition answered : answer := mkAnswer None 0 (Second / 2) None.
Definition refused : answer := mkAnswer None 0 0 (Some ErrUnavailable).

Lemma short_bound_ok : loop_ok short_bound (30 * Second) 0 ∧ loop_ok DefaultConfig (30 * Second) 0.
Proof. split; unfold loop_ok, moderate, short_bound, DefaultConfig, MarginFloor, Second, Minute; simpl; lia. Qed.

Definition one_answered : list answer := [answered; refused; refused; refused; refused].

(** The renewal sent at five seconds is answered half a second later, and the deadline is counted from
    its sending. *)
Definition one_sent : list sending :=
  map (λ d, mkSending (fst d * Second / 2) (snd d))
    [(10, None); (20, Some ErrUnavailable); (30, Some ErrUnavailable); (40, Some ErrUnavailable); (46, Some ErrUnavailable)].

Lemma a_hold_stops_in_time_witness :
  Hold short_bound (30 * Second) 0 Second one_answered =
    Some (Stopped (23 * Second) late_reason (5 * Second), one_sent) ∧ last_sent 0 one_sent = 5 * Second ∧
  23 * Second + StopBound short_bound + 0 <= last_sent 0 one_sent + 30 * Second.
Proof.
  assert (Hold short_bound (30 * Second) 0 Second one_answered =
    Some (Stopped (23 * Second) late_reason (5 * Second), one_sent)) as E by (vm_compute; reflexivity).
  split; [exact E|]. split; [vm_compute; reflexivity|].
  assert (Forall (prompt short_bound 0) one_answered) as Hp by (repeat constructor; by vm_compute).
  apply (a_hold_stops_in_time short_bound (30 * Second) 0 0 Second one_answered
    (23 * Second) late_reason (5 * Second) one_sent (proj1 short_bound_ok) Hp);
    [unfold Second; lia|discriminate|vm_compute; discriminate|unfold Second; lia|exact E|discriminate].
Defined.

Lemma a_renewed_hold_is_kept_witness :
  match fst <$> Hold DefaultConfig (30 * Second) 0 Second (replicate 20 answered) with
  | Some (Stopped _ _ s) => 2 ^ 61 < s
  | _ => True
  end.
Proof.
  apply a_renewed_hold_is_kept; [apply short_bound_ok|by vm_compute| |by vm_compute|by vm_compute].
  apply Forall_replicate. split; [|done]. by split; vm_compute.
Defined.

Lemma a_severed_hold_stops_witness :
  ∃ t why, fst <$> Hold DefaultConfig (30 * Second) 0 Second (replicate 8 refused) = Some (Stopped t why 0).
Proof.
  apply (a_severed_hold_stops DefaultConfig (30 * Second) 0);
    [apply short_bound_ok| |by vm_compute|by vm_compute|by vm_compute].
  apply Forall_replicate. split; [by split; vm_compute|done].
Defined.
