(* ===== verification/Deliveries.v ===== *)
(** Deliveries and their hand-offs: [accept.go], [deliveries.go] and [delivery_refusals.go] in
    [src/runtime/internal/record].

    Accept is one transaction: one that fails gives the database it began with.  The digest
    of a body, a fresh identifier, a blob's reference and whether a process is alive are
    arguments.  Walking a chain of deliveries takes a number of steps and gives [None] when
    they run out, which Accept's own number never does in a database it made. *)
From S2P Require Import Prelude GoStr GoTime GoErr Records Store.

Definition ReasonBodyNotJSON : string := "body_not_json".
Definition ReasonIdentityAbsent : string := "identity_absent".
Definition ReasonIdentityNotSingle : string := "identity_not_single".
Definition ReasonValueAbsent : string := "value_absent".
Definition ReasonValueNotSingle : string := "value_not_single".
Definition ReasonValueTooLong : string := "value_too_long".
Definition ReasonValueNoMatch : string := "value_no_match".
Definition ReasonValueLeadingDash : string := "value_leading_dash".

Definition ErrNoDelivery : gerror := Sentinel "no such delivery".
Definition no_rows : gerror := Sentinel "sql: no rows in result set".

Record AcceptParams := mkAcceptParams {
  p_Source : string; p_Identity : string; p_IdentityKind : string; p_Body : string;
  p_Peer : string; p_ReceivedAt : Z; p_Instance : string; p_ReplayWindow : Z;
  p_Playbooks : list string }.

(** ** Rows *)

Definition with_repeats (n : Z) (d : Delivery) : Delivery :=
  mkDelivery (d_ID d) (d_Source d) (d_Identity d) (d_IdentityKind d) (d_ReceivedAt d) (d_Peer d)
    (d_BodyRef d) (d_BodySHA256 d) n (d_Instance d) (d_Supersedes d) (d_State d).
Definition with_state (state : string) (d : Delivery) : Delivery :=
  mkDelivery (d_ID d) (d_Source d) (d_Identity d) (d_IdentityKind d) (d_ReceivedAt d) (d_Peer d)
    (d_BodyRef d) (d_BodySHA256 d) (d_Repeats d) (d_Instance d) (d_Supersedes d) state.
Definition with_received (at_ : Z) (d : Delivery) : Delivery :=
  mkDelivery (d_ID d) (d_Source d) (d_Identity d) (d_IdentityKind d) at_ (d_Peer d)
    (d_BodyRef d) (d_BodySHA256 d) (d_Repeats d) (d_Instance d) (d_Supersedes d) (d_State d).

Definition by_id (id : string) (d : Delivery) : bool := String.eqb (d_ID d) id.
Definition handoff_of (id name : string) (o : HandOff) : bool :=
  String.eqb (o_DeliveryID o) id && String.eqb (o_PlaybookName o) name.
Definition decide_handoff (state : string) (at_ : Z) (o : HandOff) : HandOff :=
  mkHandOff (o_DeliveryID o) (o_PlaybookName o) state at_.

Definition update_deliveries (p : Delivery → bool) (f : Delivery → Delivery) (s : db) : db :=
  set_deliveries (fst (update_where p f (deliveries s))) s.
Definition update_handoffs (p : HandOff → bool) (f : HandOff → HandOff) (s : db) : db :=
  set_handoffs (fst (update_where p f (handoffs s))) s.

(** ** Reading and setting *)

Definition GetDelivery (id : string) (s : db) : gerror + Delivery :=
  match List.find (by_id id) (deliveries s) with
  | Some d => inr d
  | None => inl (wrap_after ErrNoDelivery (": " +:+ id))
  end.

Definition ListDeliveries (limit : Z) (s : db) : list Delivery :=
  page limit (order_by (λ a b, d_ReceivedAt b <=? d_ReceivedAt a) (rev (deliveries s))).

Definition HandOffsOf (id : string) (s : db) : list HandOff :=
  order_by (λ a b, String.leb (o_PlaybookName a) (o_PlaybookName b))
    (List.filter (λ o, String.eqb (o_DeliveryID o) id) (handoffs s)).

Definition SetHandOffState (id name state : string) (at_ : Z) (s : db) : option gerror * db :=
  if existsb (handoff_of id name) (handoffs s)
  then (None, update_handoffs (handoff_of id name) (decide_handoff state at_) s)
  else (Some (wrap_after ErrNoDelivery (": hand-off " +:+ id +:+ "/" +:+ name)), s).

Definition SetDeliveryState (id state : string) (s : db) : option gerror * db :=
  if existsb (by_id id) (deliveries s)
  then (None, update_deliveries (by_id id) (with_state state) s)
  else (Some (wrap_after ErrNotFound (": " +:+ id)), s).

Section deliveries.
Context (redact : string → string) (digest : string → string).

Definition AddDeliveryRefusal (new_id : gerror + string) (put : string → gerror + string)
    (refusal : DeliveryRefusal) (body : string) (s : db) : (gerror + string) * db :=
  match (if String.eqb (y_ID refusal) "" then new_id else inr (y_ID refusal)) with
  | inl err => (inl err, s)
  | inr id =>
      if IsZero (y_ReceivedAt refusal) then
        (inl (Text ("delivery refusal " +:+ id +:+ ": no time it was received at")), s)
      else
        match (if String.eqb body "" then inr (y_BodyRef refusal) else put id) with
        | inl err => (inl err, s)
        | inr ref =>
            if has_id y_ID id (delivery_refusals s) then
              (inl (wrap_before ("recording delivery refusal " +:+ id)
                      (unique_failed "delivery_refusals")), s)
            else if negb (refers d_ID (y_DeliveryID refusal) (deliveries s)) then
              (inl (wrap_before ("recording delivery refusal " +:+ id) foreign_failed), s)
            else
              (inr id, set_delivery_refusals (delivery_refusals s ++
                 [mkDeliveryRefusal id (redact (y_Source refusal)) (y_Reason refusal)
                    (redact (y_ValueName refusal)) (redact (y_PlaybookName refusal))
                    (y_DeliveryID refusal) (y_ReceivedAt refusal) (y_Peer refusal) ref]) s)
        end
  end.

Definition CountUnauthenticated (interval : Z) (reason bucket peer : string) (at_ : Z) (s : db) : db :=
  let key := (interval, reason, bucket) in
  let n := match ingress_refusal_counts s !! key with Some c => c_Count c | None => 0 end in
  set_counts (<[key := mkCount (n + 1) peer at_]> (ingress_refusal_counts s)) s.

(** The two listings, most recent first; a limit that is not positive is fifty. *)
Definition ListDeliveryRefusals (limit : Z) (s : db) : list DeliveryRefusal :=
  page limit (order_by (λ a b, y_ReceivedAt b <=? y_ReceivedAt a) (rev (delivery_refusals s))).

(** By the interval, the latest first, and then by the reason and the bucket. *)
Definition count_before (a b : (Z * string * string) * UnauthenticatedRefusalCount) : bool :=
  let '(at_, reason, bucket) := fst a in
  let '(at_', reason', bucket') := fst b in
  if at_' <? at_ then true
  else if at_ <? at_' then false
  else if String.eqb reason reason' then String.leb bucket bucket' else String.leb reason reason'.
Definition ListUnauthenticatedCounts (limit : Z) (s : db) : list ((Z * string * string) * UnauthenticatedRefusalCount) :=
  page limit (order_by count_before (map_to_list (ingress_refusal_counts s))).

(** ** Reconciling one delivery *)

Definition undecided (state : string) : bool :=
  String.eqb state HandOffPending || String.eqb state HandOffWaiting.
Definition decided (state : string) : bool :=
  String.eqb state HandOffHandedOff || String.eqb state HandOffRefused.

Definition decidedElsewhere (id name : string) (s : db) : option string :=
  if existsb (λ r, String.eqb (u_DeliveryID r) id && String.eqb (u_PlaybookName r) name) (runs s)
  then Some HandOffHandedOff
  else if existsb (λ f, String.eqb (f_DeliveryID f) id && String.eqb (f_PlaybookName f) name
                        && negb (String.eqb (f_Mechanism f) MechanismDropped)) (refusals s)
  then Some HandOffRefused
  else if existsb (λ y, String.eqb (y_DeliveryID y) id && String.eqb (y_PlaybookName y) name)
            (delivery_refusals s)
  then Some HandOffRefused
  else None.

Definition waiting_for_delivery (id name : string) (w : WaitingTrigger) : bool :=
  String.eqb (w_DeliveryID w) id && String.eqb (w_PlaybookName w) name && is_waiting w.

Definition dropped_detail (id : string) : string :=
  "delivery " +:+ id +:+ ": accepting process ended before its wait resolved".

(** The waiting row of a hand-off, if it has one, ended with its own refusal. *)
Definition drop_wait (new_id : gerror + string) (id name : string) (at_ : Z) (s : db) : gerror + db :=
  match List.find (waiting_for_delivery id name) (waiting_triggers s) with
  | None => inr s
  | Some w =>
      let s' := set_waiting (fst (update_where (waiting_row (w_ID w)) (end_row WaitDropped at_ (w_RunID w))
                                    (waiting_triggers s))) s in
      let* rid := new_id in
      if has_id f_ID rid (refusals s') then inl (unique_failed "refusals")
      else inr (set_refusals (refusals s' ++
             [mkRefusal rid name TriggerWebhook 0 (w_ID w) MechanismDropped (dropped_detail id) at_ id]) s')
  end.

Fixpoint reconcile_handoffs (new_id : nat → gerror + string) (id : string) (at_ : Z)
    (pending : list string) (n : nat) (dropped : bool) (s : db) : gerror + bool * db :=
  match pending with
  | [] => inr (dropped, s)
  | name :: pending =>
      match decidedElsewhere id name s with
      | Some state =>
          reconcile_handoffs new_id id at_ pending n dropped
            (update_handoffs (handoff_of id name) (decide_handoff state at_) s)
      | None =>
          let* s := drop_wait (new_id n) id name at_ s in
          reconcile_handoffs new_id id at_ pending (S n) true
            (update_handoffs (handoff_of id name) (decide_handoff HandOffDropped at_) s)
      end
  end.

Definition pending_handoffs (id : string) (s : db) : list string :=
  map o_PlaybookName
    (List.filter (λ o, String.eqb (o_DeliveryID o) id && undecided (o_State o)) (handoffs s)).

Definition reconcileDelivery (new_id : nat → gerror + string) (id : string) (at_ : Z) (s : db)
  : gerror + db :=
  let* (dropped, s) := reconcile_handoffs new_id id at_ (pending_handoffs id s) 0 false s in
  inr (update_deliveries (by_id id)
         (with_state (if (dropped : bool) then DeliveryDropped else DeliveryHandedOff)) s).

(** ** Accepting *)

Definition existingDelivery (source identity : string) (s : db) : gerror + option Delivery :=
  match delivery_identities s !! (source, identity) with
  | None => inr None
  | Some (id, accepted_at) =>
      match List.find (by_id id) (deliveries s) with
      | None => inl no_rows
      | Some d => inr (Some (with_received accepted_at d))
      end
  end.

(** Whether an existing identity is new again, what the new delivery supersedes, and the
    database after a reconciliation that had to be made to tell. *)
Definition judge (new_id : nat → gerror + string) (alive : option (string → bool))
    (existing : Delivery) (params : AcceptParams) (s : db) : gerror + (bool * string) * db :=
  if p_ReplayWindow params <=? time_sub (p_ReceivedAt params) (d_ReceivedAt existing) then
    inr ((true, ""), s)
  else if String.eqb (d_State existing) DeliveryDropped then inr ((true, d_ID existing), s)
  else if negb (String.eqb (d_State existing) DeliveryAccepted)
          && negb (String.eqb (d_State existing) DeliveryWaiting) then inr ((false, ""), s)
  else
    let is_alive := match alive with None => true | Some probe => probe (d_Instance existing) end in
    if is_alive then inr ((false, ""), s)
    else
      let* s := reconcileDelivery new_id (d_ID existing) (p_ReceivedAt params) s in
      match List.find (by_id (d_ID existing)) (deliveries s) with
      | None => inl no_rows
      | Some d =>
          if String.eqb (d_State d) DeliveryDropped then inr ((true, d_ID existing), s)
          else inr ((false, ""), s)
      end.

(** The playbooks decided anywhere in the chain back from [id]. *)
Fixpoint decidedInChain (fuel : nat) (id : string) (s : db) : option (gerror + gset string) :=
  if String.eqb id "" then Some (inr ∅)
  else
    match fuel with
    | O => None
    | S fuel =>
        let here := list_to_set (map o_PlaybookName
          (List.filter (λ o, String.eqb (o_DeliveryID o) id && decided (o_State o)) (handoffs s))) in
        match List.find (by_id id) (deliveries s) with
        | None => Some (inl no_rows)
        | Some d =>
            match decidedInChain fuel (d_Supersedes d) s with
            | Some (inr rest) => Some (inr (here ∪ rest))
            | other => other
            end
        end
    end.

Fixpoint add_handoffs (id : string) (names : list string) (s : db) : gerror + db :=
  match names with
  | [] => inr s
  | name :: names =>
      if existsb (handoff_of id (redact name)) (handoffs s) then
        inl (wrap_before ("creating hand-off " +:+ id +:+ "/" +:+ name) (unique_failed "handoffs"))
      else add_handoffs id names
             (set_handoffs (handoffs s ++ [mkHandOff id (redact name) HandOffPending 0]) s)
  end.

(** What is recorded of a delivery the transaction finds new. *)
Definition record_new (mint : gerror + string) (put : string → gerror + string) (params : AcceptParams)
    (source identity kind supersedes : string) (playbooks : list string) (s : db)
  : gerror + Delivery * db :=
  let* id := mint in
  let* ref := put id in
  let d := mkDelivery id source identity kind (p_ReceivedAt params) (redact (p_Peer params)) ref
             (digest (p_Body params)) 0 (redact (p_Instance params)) supersedes DeliveryAccepted in
  if has_id d_ID id (deliveries s) then
    inl (wrap_before ("recording delivery " +:+ id) (unique_failed "deliveries"))
  else if negb (refers d_ID supersedes (deliveries s)) then
    inl (wrap_before ("recording delivery " +:+ id) foreign_failed)
  else
    let s := set_deliveries (deliveries s ++ [d]) s in
    let s := set_identities (<[(source, identity) := (id, p_ReceivedAt params)]> (delivery_identities s)) s in
    let* s := add_handoffs id playbooks s in
    inr (d, s).

(** [Accept]: the delivery and whether this call recorded it. *)
Definition Accept (mint : gerror + string) (put : string → gerror + string)
    (new_id : nat → gerror + string) (alive : option (string → bool)) (params : AcceptParams) (s : db)
  : option ((gerror + Delivery * bool) * db) :=
  if IsZero (p_ReceivedAt params) then
    Some (inl (Text ("accepting a delivery for " +:+ p_Source params
                     +:+ ": no time it was received at")), s)
  else
    let sha := digest (p_Body params) in
    let declared := negb (String.eqb (p_IdentityKind params) "") in
    let identity := if declared then redact (p_Identity params) else sha in
    let kind := if declared then p_IdentityKind params else IdentityDigest in
    let source := redact (p_Source params) in
    let fail err := Some (inl err, s) in
    match existingDelivery source identity s with
    | inl err => fail err
    | inr found =>
        match (match found with
               | None => inr ((true, ""), s)
               | Some existing => judge new_id alive existing params s
               end) with
        | inl err => fail err
        | inr ((false, _), s') =>
            match found with
            | None => fail no_rows
            | Some existing =>
                Some (inr (with_repeats (d_Repeats existing + 1) existing, false),
                      update_deliveries (by_id (d_ID existing))
                        (λ d, with_repeats (d_Repeats d + 1) d) s')
            end
        | inr ((true, supersedes), s') =>
            match (if String.eqb supersedes "" then Some (inr (p_Playbooks params))
                   else
                     match decidedInChain (S (length (deliveries s'))) supersedes s' with
                     | None => None
                     | Some (inl err) => Some (inl err)
                     | Some (inr done_) =>
                         Some (inr (List.filter (λ name, negb (bool_decide (name ∈ done_))) (p_Playbooks params)))
                     end) with
            | None => None
            | Some (inl err) => fail err
            | Some (inr playbooks) =>
                match record_new mint put params source identity kind supersedes playbooks s' with
                | inl err => fail err
                | inr (d, s'') => Some (inr (d, true), s'')
                end
            end
        end
    end.

End deliveries.

(** ** Lemmas about deliveries and their hand-offs: chains of deliveries that supersede each
    other end, walking one finds what is decided in it, and reconciling a delivery changes
    only its own undecided hand-offs. *)

(** ** Rows after an update *)

Lemma update_deliveries_fields p f (s : db) :
  (∀ d, d_ID (f d) = d_ID d) → map d_ID (deliveries (update_deliveries p f s)) = map d_ID (deliveries s).
Proof. intros Hf. by apply (map_update p f d_ID). Qed.

Definition no_decision (d d' : Delivery) : Prop :=
  d_ID d' = d_ID d ∧ d_Supersedes d' = d_Supersedes d ∧ d_Instance d' = d_Instance d.

(** Deliveries compared row by row: only their repeats and states may differ. *)
Definition same_chain (l l' : list Delivery) : Prop := Forall2 no_decision l l'.

Lemma same_chain_refl l : same_chain l l.
Proof. unfold same_chain. induction l; by constructor. Qed.

Lemma same_chain_trans l1 l2 l3 : same_chain l1 l2 → same_chain l2 l3 → same_chain l1 l3.
Proof.
  unfold same_chain. intros H. revert l3. induction H as [|? ? ? ? [? [? ?]] _ IH]; intros l3 H3;
    inversion H3 as [|? ? ? ? [? [? ?]]]; subst; constructor; [|by apply IH].
  unfold no_decision. intuition congruence.
Qed.

Lemma same_chain_update p f (s : db) :
  (∀ d, no_decision d (f d)) → same_chain (deliveries s) (deliveries (update_deliveries p f s)).
Proof.
  intros Hf. unfold update_deliveries, same_chain. simpl.
  induction (deliveries s) as [|d l IH]; simpl; constructor; [|done].
  by destruct (p d).
Qed.

(** ** Chains *)

(** The delivery a delivery supersedes, and what that one does, back to the first. *)
Inductive descends (s : db) : string → string → Prop :=
| descends_one d : d ∈ deliveries s → d_Supersedes d ≠ "" → descends s (d_ID d) (d_Supersedes d)
| descends_more d a : d ∈ deliveries s → d_Supersedes d ≠ "" → descends s (d_Supersedes d) a →
    descends s (d_ID d) a.

(** Every delivery supersedes one recorded before it, or none. *)
Fixpoint chained (seen : list string) (l : list Delivery) : Prop :=
  match l with
  | [] => True
  | d :: l => d_ID d ≠ "" ∧ d_ID d ∉ seen ∧ (d_Supersedes d = "" ∨ d_Supersedes d ∈ seen) ∧
              chained (d_ID d :: seen) l
  end.

Lemma chained_same l l' seen : same_chain l l' → chained seen l → chained seen l'.
Proof.
  intros H. revert seen. induction H as [|d d' l l' (Hi & Hs & _) _ IH]; intros seen; simpl; [done|].
  rewrite Hi, Hs. intros (? & ? & ? & ?). split_and!; auto.
Qed.

Lemma chained_app seen l d :
  chained seen l → d_ID d ≠ "" → d_ID d ∉ map d_ID l → d_ID d ∉ seen →
  (d_Supersedes d = "" ∨ d_Supersedes d ∈ map d_ID l ∨ d_Supersedes d ∈ seen) → chained seen (l ++ [d]).
Proof.
  revert seen. induction l as [|x l IH]; intros seen; simpl.
  - intros _ H1 _ H2 [H3|[H3|H3]]; split_and!; auto. by apply elem_of_nil in H3.
  - rewrite not_elem_of_cons, elem_of_cons. intros (? & ? & ? & ?) ? [? ?] ? Hd. split_and!; [done..|].
    apply IH; [done|done|done|set_solver|]. rewrite elem_of_cons. naive_solver.
Qed.

Lemma chained_ids seen l : chained seen l → NoDup (map d_ID l) ∧ ∀ d, d ∈ l → d_ID d ∉ seen ∧ d_ID d ≠ "".
Proof.
  revert seen. induction l as [|x l IH]; intros seen; simpl.
  { intros _. split; [constructor|]. by intros d ?%elem_of_nil. }
  intros (Hne & Hx & _ & Hc). destruct (IH _ Hc) as [Hnd Hseen]. split.
  - constructor; [|done]. rewrite list_elem_of_fmap. intros (d & Heq & Hd).
    destruct (Hseen d Hd) as [Hn _]. rewrite <-Heq in Hn. set_solver.
  - intros d [->|Hd]%elem_of_cons; [done|]. destruct (Hseen d Hd). set_solver.
Qed.

(** How far back a chain may go: the place of its delivery among the recorded ones. *)
Lemma find_by_id l id : match List.find (by_id id) l with
                        | Some d => d ∈ l ∧ d_ID d = id
                        | None => id ∉ map d_ID l
                        end.
Proof.
  destruct (List.find (by_id id) l) as [d|] eqn:E.
  - apply find_some in E as [H1 H2]. split; [by apply list_elem_of_In|]. by apply String.eqb_eq.
  - rewrite list_elem_of_fmap. intros (d & -> & Hd%list_elem_of_In).
    pose proof (find_none _ _ E d Hd) as Hn. unfold by_id in Hn. by rewrite String.eqb_refl in Hn.
Qed.

Lemma find_by_id_split l1 d l2 :
  d_ID d ∉ map d_ID l1 → List.find (by_id (d_ID d)) (l1 ++ d :: l2) = Some d.
Proof.
  induction l1 as [|x l1 IH]; simpl; [by unfold by_id; rewrite String.eqb_refl|].
  rewrite not_elem_of_cons. intros [Hx Hl]. unfold by_id at 1.
  rewrite (proj2 (String.eqb_neq _ _)); [by apply IH|]. congruence.
Qed.

Lemma chained_before seen l1 d l2 :
  chained seen (l1 ++ d :: l2) →
  d_ID d ∉ map d_ID l1 ∧ (d_Supersedes d = "" ∨ d_Supersedes d ∈ map d_ID l1 ∨ d_Supersedes d ∈ seen).
Proof.
  revert seen. induction l1 as [|x l1 IH]; intros seen; simpl.
  - intros (_ & _ & H & _). split; [set_solver|]. tauto.
  - intros (_ & Hx & _ & Hc). destruct (IH _ Hc) as [H1 H2].
    destruct (chained_ids _ _ Hc) as [_ Hseen].
    destruct (Hseen d) as [Hn _]; [set_solver|]. split; [set_solver|].
    rewrite !elem_of_cons in *. tauto.
Qed.

(** What is decided of a delivery, and anywhere in its chain. *)
Definition decided_of (s : db) (id name : string) : Prop :=
  ∃ o, o ∈ handoffs s ∧ o_DeliveryID o = id ∧ o_PlaybookName o = name ∧ decided (o_State o) = true.
Definition chain_decided (s : db) (id name : string) : Prop :=
  ∃ a, (a = id ∨ descends s id a) ∧ decided_of s a name.

Lemma elem_of_decided_here s id name :
  name ∈ (list_to_set (map o_PlaybookName
    (List.filter (λ o, String.eqb (o_DeliveryID o) id && decided (o_State o)) (handoffs s))) : gset string) ↔
  decided_of s id name.
Proof.
  rewrite elem_of_list_to_set, list_elem_of_fmap. unfold decided_of. split.
  - intros (o & -> & Ho). rewrite list_elem_of_In, filter_In, <-list_elem_of_In in Ho.
    destruct Ho as [Ho Hp]. bool_facts. eauto 6.
  - intros (o & Ho & <- & <- & Hd). exists o. split; [done|].
    rewrite list_elem_of_In, filter_In, <-list_elem_of_In. split; [done|].
    by rewrite String.eqb_refl.
Qed.

Lemma chain_decided_step s d name :
  chained [] (deliveries s) → d ∈ deliveries s →
  chain_decided s (d_ID d) name ↔
  decided_of s (d_ID d) name ∨ (d_Supersedes d ≠ "" ∧ chain_decided s (d_Supersedes d) name).
Proof.
  intros Hc Hd. destruct (chained_ids _ _ Hc) as [Hnd _]. split.
  - intros (a & [->|Ha] & Ho); [by left|right].
    assert (∀ d', d' ∈ deliveries s → d_ID d' = d_ID d → d' = d) as Huniq
      by (intros; by eapply elem_of_by_id).
    inversion Ha as [d' Hd' Hs Hi|d' a' Hd' Hs Hmore Hi]; subst;
      rewrite (Huniq d' Hd' Hi) in *; (split; [done|]); eexists; eauto.
  - intros [Ho|[Hs (a & Ha & Ho)]]; [by exists (d_ID d); auto|]. exists a. split; [right|done].
    destruct Ha as [->|Ha]; [by apply descends_one|by apply descends_more].
Qed.

(** Walking a chain ends, and finds exactly what is decided in it. *)
Lemma decidedInChain_total s fuel : ∀ l1 l2 id,
  chained [] (deliveries s) → deliveries s = l1 ++ l2 → (length l1 < fuel)%nat →
  id = "" ∨ id ∈ map d_ID l1 →
  ∃ names, decidedInChain fuel id s = Some (inr names) ∧
    ∀ name, name ∈ names ↔ id ≠ "" ∧ chain_decided s id name.
Proof.
  induction fuel as [|fuel IH]; intros l1 l2 id Hc Hl Hf Hid; [lia|]. cbn [decidedInChain].
  destruct (String.eqb id "") eqn:E; bool_facts.
  { exists ∅. split; [done|]. intros name. set_solver. }
  destruct Hid as [?|Hid]; [done|].
  apply list_elem_of_fmap in Hid as (d & -> & Hd).
  apply list_elem_of_split in Hd as (l11 & l12 & ->).
  rewrite <-app_assoc in Hl. simpl in Hl. pose proof Hc as Hc'. rewrite Hl in Hc'.
  destruct (chained_before _ _ _ _ Hc') as [Hn Hsup].
  assert (List.find (by_id (d_ID d)) (deliveries s) = Some d) as -> by (rewrite Hl; by apply find_by_id_split).
  assert (d ∈ deliveries s) as Hin by (rewrite Hl; set_solver).
  rewrite length_app in Hf. simpl in Hf.
  destruct (IH l11 (d :: l12 ++ l2) (d_Supersedes d)) as (rest & -> & Hrest); [done|done|lia| |].
  { destruct Hsup as [Hs|[Hs|Hs]]; [by left|by right|by apply elem_of_nil in Hs]. }
  eexists. split; [reflexivity|]. intros name.
  rewrite elem_of_union, elem_of_decided_here, Hrest, (chain_decided_step _ _ _ Hc Hin). tauto.
Qed.

(** ** Reconciling changes one delivery's undecided hand-offs *)

Definition ran (s : db) (id name : string) : Prop :=
  ∃ r, r ∈ runs s ∧ u_DeliveryID r = id ∧ u_PlaybookName r = name.

(** What reconciling does to a hand-off: nothing, unless it is of the delivery and named, and
    it is dropped only when no run of its delivery and playbook is recorded. *)
Definition reconciled (s : db) (id : string) (pending : list string) (o o' : HandOff) : Prop :=
  o_DeliveryID o' = o_DeliveryID o ∧ o_PlaybookName o' = o_PlaybookName o ∧
  (o_DeliveryID o = id ∧ o_PlaybookName o ∈ pending →
     undecided (o_State o') = false ∧
     (o_State o' = HandOffDropped → ¬ ran s id (o_PlaybookName o)) ∧
     (decided (o_State o') = false → o_State o' = HandOffDropped)) ∧
  (¬ (o_DeliveryID o = id ∧ o_PlaybookName o ∈ pending) → o' = o).

Lemma reconciled_none s id o : reconciled s id [] o o.
Proof. split_and!; try done. by intros [_ ?%elem_of_nil]. Qed.

(** The decision reconciling makes of one hand-off. *)
Definition fair (s : db) (id name state : string) : Prop :=
  undecided state = false ∧ (state = HandOffDropped → ¬ ran s id name) ∧
  (decided state = false → state = HandOffDropped).

Lemma reconciled_cons s id name pending state at_ o o' :
  fair s id name state →
  reconciled s id pending (if handoff_of id name o then decide_handoff state at_ o else o) o' →
  reconciled s id (name :: pending) o o'.
Proof.
  intros Hu (H1 & H2 & H3 & H4). unfold handoff_of in *.
  destruct (String.eqb (o_DeliveryID o) id && String.eqb (o_PlaybookName o) name) eqn:E; simpl in *.
  - bool_facts. split_and!; [done|done| |].
    + intros _. destruct (decide (o_PlaybookName o ∈ pending)); [by apply H3|].
      rewrite H4 by tauto. simpl. subst. exact Hu.
    + intros Hn. destruct Hn. split; [done|]. subst. left.
  - split_and!; [done|done| |].
    + intros [Hi [Hn|Hp]%elem_of_cons]; [|by apply H3]. by rewrite Hi, Hn, !String.eqb_refl in E.
    + intros Hn. apply H4. rewrite elem_of_cons in Hn. tauto.
Qed.

Lemma drop_wait_tables new_id id name at_ s s' :
  drop_wait new_id id name at_ s = inr s' →
  deliveries s' = deliveries s ∧ handoffs s' = handoffs s ∧
  delivery_identities s' = delivery_identities s ∧ runs s' = runs s.
Proof. unfold drop_wait. intros H. repeat case_match; simplify_eq; done. Qed.

Lemma decidedElsewhere_fair id name s state : decidedElsewhere id name s = Some state → fair s id name state.
Proof. unfold decidedElsewhere. intros H. by repeat case_match; simplify_eq. Qed.

Lemma undecided_elsewhere id name s : decidedElsewhere id name s = None → ¬ ran s id name.
Proof.
  unfold decidedElsewhere. intros H (r & Hr%list_elem_of_In & <- & <-).
  destruct (existsb _ (runs s)) eqn:E; [done|]. apply not_true_iff_false in E. apply E.
  apply existsb_exists. exists r. split; [done|]. by rewrite !String.eqb_refl.
Qed.

Lemma reconciled_row s id name pending state at_ l l2 :
  fair s id name state →
  Forall2 (reconciled s id pending) (fst (update_where (handoff_of id name) (decide_handoff state at_) l)) l2 →
  Forall2 (reconciled s id (name :: pending)) l l2.
Proof.
  intros Hu. revert l2. induction l as [|o l IH]; intros l2 H2; simpl in H2;
    inversion H2; subst; constructor; [by eapply reconciled_cons|by apply IH].
Qed.

Lemma reconciled_runs s s' id pending l l' :
  runs s' = runs s → Forall2 (reconciled s id pending) l l' → Forall2 (reconciled s' id pending) l l'.
Proof. intros Hr. unfold reconciled, ran. by rewrite Hr. Qed.

Lemma reconcile_handoffs_spec new_id id at_ pending : ∀ n dropped s b s',
  reconcile_handoffs new_id id at_ pending n dropped s = inr (b, s') →
  deliveries s' = deliveries s ∧ delivery_identities s' = delivery_identities s ∧ runs s' = runs s ∧
  Forall2 (reconciled s id pending) (handoffs s) (handoffs s').
Proof.
  induction pending as [|name pending IH]; intros n dropped s b s' H; simpl in H.
  { simplify_eq. split_and!; [done|done|done|]. induction (handoffs s'); constructor; [apply reconciled_none|done]. }
  destruct (decidedElsewhere id name s) as [state|] eqn:E.
  - apply IH in H as (H1 & H2 & H3 & H4). split_and!; [done|done|done|].
    apply (reconciled_row s _ _ _ state at_); [by apply decidedElsewhere_fair|exact H4].
  - destruct (drop_wait (new_id n) id name at_ s) as [err|s1] eqn:Ed; [done|].
    apply drop_wait_tables in Ed as (Hd & Hh & Hi & Hr).
    apply IH in H as (H1 & H2 & H3 & H4). rewrite H1, H2, H3. split_and!; [done|done|done|].
    apply (reconciled_row s _ _ _ HandOffDropped at_).
    { split_and!; [done| |done]. intros _. by apply undecided_elsewhere. }
    rewrite <-Hh. eapply reconciled_runs; [|exact H4]. simpl. by symmetry.
Qed.

Definition key (o : HandOff) : string * string := (o_DeliveryID o, o_PlaybookName o).

Lemma elem_of_pending id s name :
  name ∈ pending_handoffs id s ↔
  ∃ o, o ∈ handoffs s ∧ o_DeliveryID o = id ∧ o_PlaybookName o = name ∧ undecided (o_State o) = true.
Proof.
  unfold pending_handoffs. rewrite list_elem_of_fmap. split.
  - intros (o & -> & Ho). rewrite list_elem_of_In, filter_In, <-list_elem_of_In in Ho.
    destruct Ho as [Ho Hp]. bool_facts. eauto 6.
  - intros (o & Ho & <- & <- & Hu). exists o. split; [done|].
    rewrite list_elem_of_In, filter_In, <-list_elem_of_In. by rewrite String.eqb_refl.
Qed.

(** A hand-off after a reconciliation of [id]: the one it was, or an undecided one of [id]
    decided, or dropped when it did not run. *)
Definition settled_handoff (s : db) (id : string) (o o' : HandOff) : Prop :=
  key o' = key o ∧
  (o' = o ∨ o_DeliveryID o = id ∧ fair s id (o_PlaybookName o) (o_State o')) ∧
  (o_DeliveryID o = id → undecided (o_State o') = false).

Lemma reconcileDelivery_spec new_id id at_ s s' :
  NoDup (map key (handoffs s)) → reconcileDelivery new_id id at_ s = inr s' →
  delivery_identities s' = delivery_identities s ∧ runs s' = runs s ∧
  Forall2 (settled_handoff s id) (handoffs s) (handoffs s') ∧
  (∃ state, deliveries s' = deliveries (update_deliveries (by_id id) (with_state state) s)).
Proof.
  unfold reconcileDelivery. intros Hnd H.
  destruct (reconcile_handoffs _ _ _ _ _ _ _) as [err|[b s1]] eqn:E; [done|]. simplify_eq.
  apply reconcile_handoffs_spec in E as (Hd & Hi & Hr & Hh). split_and!; [done|done| |].
  - assert (∀ o, o ∈ handoffs s → o_DeliveryID o = id →
      (o_PlaybookName o ∈ pending_handoffs id s ↔ undecided (o_State o) = true)) as Hp.
    { intros o Ho Hid. rewrite elem_of_pending. split; [|eauto].
      intros (o2 & Ho2 & Hid2 & Hname & Hu). enough (o2 = o) by congruence.
      eapply (elem_of_by_id key); [done|done|done|]. unfold key. congruence. }
    change (handoffs (update_deliveries (by_id id) _ s1)) with (handoffs s1).
    apply Forall2_same_length_lookup_2; [by eapply Forall2_length|].
    intros i o o' Ho Ho'. pose proof (Forall2_lookup_lr _ _ _ _ _ _ Hh Ho Ho') as (H1 & H2 & H3 & H4).
    apply list_elem_of_lookup_2 in Ho.
    split; [by unfold key; rewrite H1, H2|].
    destruct (decide (o_DeliveryID o = id)) as [Hid|Hid].
    + destruct (undecided (o_State o)) eqn:Eu.
      * destruct H3 as (? & ? & ?); [split; [done|by apply Hp]|]. split; [|done]. right. by split_and!.
      * rewrite (H4 ltac:(rewrite Hp by done; rewrite Eu; by intros [_ ?])). by split; [left|].
    + rewrite (H4 ltac:(tauto)). split; [by left|]. done.
  - eexists. unfold update_deliveries. simpl. by rewrite Hd.
Qed.
