(* ===== verification/DeliveryOnce.v ===== *)
(** What the record promises of deliveries: chains of retries end, no playbook is handed one
    delivery twice however its processes die, and a repeat changes nothing but a count.

    The system of this file is one state directory and the processes that accept and hand off
    deliveries in it, and die.  Whether a process asked about is alive is as it is; only a live
    process writes to the deliveries it accepted, or starts their runs. *)
From S2P Require Import Prelude GoStr GoTime GoErr Records Store Deliveries.

Section once.
Context (redact digest : string → string).

(** A state directory, and the processes that are dead. *)
Record world := mkWorld { w_db : db; w_dead : gset string }.

Definition owed (s : db) (id name : string) : Prop := ∃ o, o ∈ handoffs s ∧ key o = (id, name).
Definition lost (s : db) (id : string) : Prop :=
  ∃ d, d ∈ deliveries s ∧ d_ID d = id ∧ d_State d = DeliveryDropped.
Definition dead_owner (s : db) (dead : gset string) (id : string) : Prop :=
  ∃ d, d ∈ deliveries s ∧ d_ID d = id ∧ d_Instance d ∈ dead.
Definition settled (s : db) (id : string) : Prop :=
  ∀ o, o ∈ handoffs s → o_DeliveryID o = id → undecided (o_State o) = false.
Definition known_state (o : HandOff) : Prop :=
  undecided (o_State o) = false → decided (o_State o) = false → o_State o = HandOffDropped.

(** A playbook's name that the redactor leaves alone, and makes of no other. *)
Definition plain (name : string) : Prop := ∀ n, redact n = name → n = name.

(** ** Steps

    Accepting, and the hand-offs and deliveries written by the process that accepted them, are the
    code's.  The dispatcher behind the ingress' interface is not under [src]: [step_run] is what is
    asked of it, that it starts a run of a delivery only for a hand-off the delivery owes and only in
    the process that accepted it, while that one lives. *)

(** What the rest of the runtime leaves alone: hand-offs, deliveries and which runs are of
    which delivery. *)
Definition elsewhere (s s' : db) : Prop :=
  deliveries s' = deliveries s ∧ handoffs s' = handoffs s ∧
  delivery_identities s' = delivery_identities s ∧
  map (λ r, (u_DeliveryID r, u_PlaybookName r)) (runs s') =
  map (λ r, (u_DeliveryID r, u_PlaybookName r)) (runs s).

(** What a probe says of a process that is dead. *)
Definition truthful (alive : option (string → bool)) (dead : gset string) : Prop :=
  ∀ probe i, alive = Some probe → probe i = false → i ∈ dead.

Inductive step : world → world → Prop :=
| step_accept mint put new_id alive params s dead r s' :
    Accept redact digest mint put new_id alive params s = Some (r, s') →
    (∀ id, mint = inr id → id ≠ "") →
    truthful alive dead →
    step (mkWorld s dead) (mkWorld s' dead)
| step_hand_off id name state at_ s dead r s' :
    SetHandOffState id name state at_ s = (r, s') →
    state ∈ [HandOffWaiting; HandOffHandedOff; HandOffRefused] →
    ¬ dead_owner s dead id →
    step (mkWorld s dead) (mkWorld s' dead)
| step_deliver id state s dead r s' :
    SetDeliveryState id state s = (r, s') → state ≠ DeliveryDropped →
    ¬ dead_owner s dead id →
    step (mkWorld s dead) (mkWorld s' dead)
| step_run now run s dead r s' :
    CreateRun redact now run s = (r, s') →
    (u_DeliveryID run ≠ "" → owed s (u_DeliveryID run) (redact (u_PlaybookName run)) ∧
                             ¬ dead_owner s dead (u_DeliveryID run)) →
    step (mkWorld s dead) (mkWorld s' dead)
| step_elsewhere s s' dead : elsewhere s s' → step (mkWorld s dead) (mkWorld s' dead)
| step_die i s dead : step (mkWorld s dead) (mkWorld s ({[i]} ∪ dead)).

Definition reachable (w : world) : Prop := rtc step (mkWorld empty_db ∅) w.

(** ** The invariant *)

Record deliveries_ok (w : world) : Prop := {
  k_chained : chained [] (deliveries (w_db w));
  k_identities k id at_ : delivery_identities (w_db w) !! k = Some (id, at_) →
    id ∈ map d_ID (deliveries (w_db w));
  k_keys : NoDup (map key (handoffs (w_db w)));
  k_states : Forall known_state (handoffs (w_db w));
  k_owned o : o ∈ handoffs (w_db w) → o_DeliveryID o ∈ map d_ID (deliveries (w_db w));
  k_dropped d : d ∈ deliveries (w_db w) → d_State d = DeliveryDropped →
    d_Instance d ∈ w_dead w ∧ settled (w_db w) (d_ID d);
  k_supersedes d : d ∈ deliveries (w_db w) → d_Supersedes d ≠ "" → lost (w_db w) (d_Supersedes d);
  k_runs id name : id ≠ "" → ran (w_db w) id name → owed (w_db w) id name;
  k_lost o : o ∈ handoffs (w_db w) → o_State o = HandOffDropped →
    dead_owner (w_db w) (w_dead w) (o_DeliveryID o) ∧
    ¬ ran (w_db w) (o_DeliveryID o) (o_PlaybookName o);
  k_once d a name : plain name → descends (w_db w) d a → decided_of (w_db w) a name ∨ ran (w_db w) a name →
    ¬ owed (w_db w) d name }.

(** How one step that accepts nothing new changes the tables. *)
Record evolves (s s' : db) (dead : gset string) : Prop := {
  e_deliveries : Forall2 (λ d d', no_decision d d' ∧
    (d_State d = DeliveryDropped → d_State d' = DeliveryDropped) ∧
    (d_State d' = DeliveryDropped →
       d_State d = DeliveryDropped ∨ d_Instance d ∈ dead ∧ settled s' (d_ID d)))
    (deliveries s) (deliveries s');
  e_handoffs : Forall2 (λ o o', key o' = key o ∧ known_state o' ∧
    (lost s (o_DeliveryID o) → o' = o) ∧
    (o_State o' = HandOffDropped → o' = o ∨
       dead_owner s dead (o_DeliveryID o) ∧ ¬ ran s' (o_DeliveryID o) (o_PlaybookName o)))
    (handoffs s) (handoffs s');
  e_identities : delivery_identities s' = delivery_identities s;
  e_runs id name : id ≠ "" → ran s' id name →
    ran s id name ∨ owed s id name ∧ ¬ dead_owner s dead id }.

Lemma descends_same s s' d a :
  same_chain (deliveries s) (deliveries s') → descends s' d a → descends s d a.
Proof.
  intros H. assert (∀ d', d' ∈ deliveries s' → ∃ d, d ∈ deliveries s ∧ no_decision d d') as Hback.
  { unfold same_chain in H. clear -H. induction H; [by intros ? ?%elem_of_nil|].
    intros d' [Heq|Hd]%elem_of_cons; [subst; exists x; split; [left|done]|].
    destruct (IHForall2 _ Hd) as (e & ? & ?). exists e. split; [by right|done]. }
  induction 1 as [d' Hd Hs|d' a Hd Hs _ IH]; destruct (Hback _ Hd) as (e & He & Hi & Hsup & _);
    rewrite Hi, Hsup in *; [by apply descends_one|by apply descends_more].
Qed.

Lemma descends_lost w d a : deliveries_ok w → descends (w_db w) d a → lost (w_db w) a.
Proof. intros Hok. induction 1; [by eapply k_supersedes|done]. Qed.

Lemma lost_dead w id : deliveries_ok w → lost (w_db w) id → dead_owner (w_db w) (w_dead w) id.
Proof. intros Hok (d & Hd & Hi & Hs). exists d. split_and!; [done|done|]. by apply (k_dropped w Hok). Qed.

Lemma owed_keys s s' id name :
  map key (handoffs s') = map key (handoffs s) → owed s' id name ↔ owed s id name.
Proof.
  intros H. assert (∀ s, owed s id name ↔ (id, name) ∈ map key (handoffs s)) as E.
  { intros s0. rewrite list_elem_of_fmap. unfold owed. naive_solver. }
  by rewrite !E, H.
Qed.

(** Every row has its counterpart after the step, and before it. *)
Lemma Forall2_in_r {A B} (P : A → B → Prop) l l' y :
  Forall2 P l l' → y ∈ l' → ∃ x, x ∈ l ∧ P x y.
Proof.
  induction 1 as [|x z l l' Hp _ IH]; [by intros ?%elem_of_nil|].
  rewrite elem_of_cons. intros [->|Hy]; [exists x; split; [left|done]|].
  destruct (IH Hy) as (w & ? & ?). exists w. split; [by right|done].
Qed.
Lemma Forall2_in_l {A B} (P : A → B → Prop) l l' x :
  Forall2 P l l' → x ∈ l → ∃ y, y ∈ l' ∧ P x y.
Proof. intros H Hx. apply Forall2_flip in H. by apply (Forall2_in_r _ _ _ _ H). Qed.

Section evolve.
Context (s s' : db) (dead dead' : gset string).
Context (Hok : deliveries_ok (mkWorld s dead)) (He : evolves s s' dead') (Hdead : dead ⊆ dead').

Lemma evolve_same : same_chain (deliveries s) (deliveries s').
Proof. eapply Forall2_impl; [apply (e_deliveries _ _ _ He)|]. by intros d d' [? _]. Qed.

Lemma evolve_ids : map d_ID (deliveries s') = map d_ID (deliveries s).
Proof.
  pose proof evolve_same as H. unfold same_chain in H. clear -H.
  induction H as [|? ? ? ? [? _] _ IH]; simpl; congruence.
Qed.

Lemma evolve_keys : map key (handoffs s') = map key (handoffs s).
Proof.
  pose proof (e_handoffs _ _ _ He) as H. clear -H.
  induction H as [|? ? ? ? [? _] _ IH]; simpl; congruence.
Qed.

Lemma evolve_lost id : lost s id → lost s' id.
Proof.
  intros (d & Hd & Hi & Hs).
  destruct (Forall2_in_l _ _ _ _ (e_deliveries _ _ _ He) Hd) as (d' & Hd' & (Hi' & _) & Hs' & _).
  exists d'. split_and!; [done|congruence|by apply Hs'].
Qed.

Lemma evolve_dead id : dead_owner s dead' id ↔ dead_owner s' dead' id.
Proof.
  split; intros (d & Hd & Hi & Hs).
  - destruct (Forall2_in_l _ _ _ _ evolve_same Hd) as (d' & Hd' & Hi' & _ & Hs').
    exists d'. split_and!; [done|congruence|by rewrite Hs'].
  - destruct (Forall2_in_r _ _ _ _ evolve_same Hd) as (d' & Hd' & Hi' & _ & Hs').
    exists d'. split_and!; [done|congruence|by rewrite <-Hs'].
Qed.

Lemma dead_more id : dead_owner s dead id → dead_owner s dead' id.
Proof. intros (d & ? & ? & ?). exists d. split_and!; [done|done|set_solver]. Qed.

Lemma evolve_owned_id o : o ∈ handoffs s' → o_DeliveryID o ∈ map d_ID (deliveries s').
Proof.
  intros Ho. destruct (Forall2_in_r _ _ _ _ (e_handoffs _ _ _ He) Ho) as (o0 & Ho0 & Hk & _).
  rewrite evolve_ids. injection Hk as -> _. by apply (k_owned _ Hok).
Qed.

(** The rows of a delivery already dropped stay as they are. *)
Lemma evolve_settled id : lost s id → settled s id → settled s' id.
Proof.
  intros Hl Hs o Ho Hid.
  destruct (Forall2_in_r _ _ _ _ (e_handoffs _ _ _ He) Ho) as (o0 & Ho0 & Hk & _ & Hsame & _).
  injection Hk as Hi _. rewrite Hi in Hid. rewrite (Hsame ltac:(by rewrite Hid)). by apply Hs.
Qed.

Lemma evolve_decided id name : lost s id → decided_of s' id name → decided_of s id name.
Proof.
  intros Hl (o & Ho & Hid & Hn & Hd).
  destruct (Forall2_in_r _ _ _ _ (e_handoffs _ _ _ He) Ho) as (o0 & Ho0 & Hk & _ & Hsame & _).
  injection Hk as Hi _. rewrite Hi in Hid. rewrite (Hsame ltac:(by rewrite Hid)) in *. by exists o0.
Qed.

Lemma evolve_ran id name : lost s id → id ≠ "" → ran s' id name → ran s id name.
Proof.
  intros Hl Hne Hr. destruct (e_runs _ _ _ He _ _ Hne Hr) as [?|[_ Hn]]; [done|].
  destruct Hn. apply dead_more. by apply (lost_dead _ _ Hok).
Qed.

Lemma id_not_empty id : id ∈ map d_ID (deliveries s) → id ≠ "".
Proof.
  rewrite list_elem_of_fmap. intros (d & -> & Hd).
  by destruct (proj2 (chained_ids _ _ (k_chained _ Hok)) d Hd).
Qed.

Lemma lost_not_empty id : lost s id → id ≠ "".
Proof. intros (d & Hd & <- & _). apply id_not_empty. apply list_elem_of_fmap. eauto. Qed.

Lemma evolve_ok : deliveries_ok (mkWorld s' dead').
Proof.
  split; simpl.
  - eapply chained_same; [exact evolve_same|apply (k_chained _ Hok)].
  - intros k id at_. rewrite (e_identities _ _ _ He), evolve_ids. apply (k_identities _ Hok).
  - rewrite evolve_keys. apply (k_keys _ Hok).
  - apply Forall_forall. intros o Ho.
    by destruct (Forall2_in_r _ _ _ _ (e_handoffs _ _ _ He) Ho) as (o0 & _ & _ & ? & _).
  - exact evolve_owned_id.
  - intros d' Hd' Hs.
    destruct (Forall2_in_r _ _ _ _ (e_deliveries _ _ _ He) Hd') as (d & Hd & (Hi & _ & Hn) & _ & Hlost).
    rewrite Hi, Hn. destruct (Hlost Hs) as [Hs0|[? ?]]; [|done].
    destruct (k_dropped _ Hok d Hd Hs0) as [Hx Hy]. simpl in Hx. split; [set_solver|].
    apply evolve_settled; [by exists d|done].
  - intros d' Hd' Hs.
    destruct (Forall2_in_r _ _ _ _ evolve_same Hd') as (d & Hd & _ & Hn & _).
    rewrite Hn in *. apply evolve_lost. by apply (k_supersedes _ Hok).
  - intros id name Hne Hr. apply (owed_keys s); [exact evolve_keys|].
    destruct (e_runs _ _ _ He _ _ Hne Hr) as [?|[? _]]; [by apply (k_runs _ Hok)|done].
  - intros o' Ho' Hs.
    destruct (Forall2_in_r _ _ _ _ (e_handoffs _ _ _ He) Ho') as (o & Ho & Hk & _ & _ & Hd).
    injection Hk as Hi Hp. rewrite <-evolve_dead, Hi, Hp. destruct (Hd Hs) as [->|?]; [|done].
    destruct (k_lost _ Hok o Ho Hs) as [Hx Hy]. split; [by apply dead_more|]. intros Hr.
    assert (o_DeliveryID o ≠ "") as Hne by (apply id_not_empty; by apply (k_owned _ Hok)).
    destruct (e_runs _ _ _ He _ _ Hne Hr) as [?|[_ Hn]]; [done|]. by apply Hn, dead_more.
  - intros d a name Hplain Hda Hsettled. rewrite (owed_keys s) by exact evolve_keys.
    assert (descends s d a) as Hda' by (eapply descends_same; [exact evolve_same|done]).
    pose proof (descends_lost _ _ _ Hok Hda') as Hl. simpl in Hl.
    apply (k_once _ Hok _ a); [done..|]. destruct Hsettled as [?|?]; [left; by apply evolve_decided|right].
    apply evolve_ran; [done| |done]. by apply lost_not_empty.
Qed.
End evolve.

(** ** Each step evolves *)

Lemma evolve_deliveries_refl (l : list Delivery) (dead : gset string) s' :
  Forall2 (λ d d', no_decision d d' ∧
    (d_State d = DeliveryDropped → d_State d' = DeliveryDropped) ∧
    (d_State d' = DeliveryDropped →
       d_State d = DeliveryDropped ∨ d_Instance d ∈ dead ∧ settled s' (d_ID d))) l l.
Proof. induction l; constructor; [|done]. split_and!; [done|done|by left]. Qed.

Lemma evolve_handoffs_refl w s' :
  deliveries_ok w →
  Forall2 (λ o o', key o' = key o ∧ known_state o' ∧ (lost (w_db w) (o_DeliveryID o) → o' = o) ∧
    (o_State o' = HandOffDropped → o' = o ∨
       dead_owner (w_db w) (w_dead w) (o_DeliveryID o) ∧ ¬ ran s' (o_DeliveryID o) (o_PlaybookName o)))
    (handoffs (w_db w)) (handoffs (w_db w)).
Proof.
  intros Hok. pose proof (k_states w Hok) as H. induction H; constructor; [|done].
  split_and!; [done|done|done|by left].
Qed.

Lemma elsewhere_ran s s' id name :
  map (λ r, (u_DeliveryID r, u_PlaybookName r)) (runs s') =
  map (λ r, (u_DeliveryID r, u_PlaybookName r)) (runs s) → ran s' id name → ran s id name.
Proof.
  intros H (r & Hr & <- & <-).
  assert ((u_DeliveryID r, u_PlaybookName r) ∈ map (λ r, (u_DeliveryID r, u_PlaybookName r)) (runs s)) as Hin
    by (rewrite <-H, list_elem_of_fmap; eauto).
  apply list_elem_of_fmap in Hin as (r0 & [= -> ->] & Hr0). by exists r0.
Qed.

Lemma elsewhere_evolves w s' : deliveries_ok w → elsewhere (w_db w) s' → evolves (w_db w) s' (w_dead w).
Proof.
  intros Hok (Hd & Hh & Hi & Hr). split; [|rewrite Hh; by apply evolve_handoffs_refl|done|].
  - rewrite Hd. apply evolve_deliveries_refl.
  - intros id name _ H. left. by eapply elsewhere_ran.
Qed.

Lemma elsewhere_refl s : elsewhere s s.
Proof. done. Qed.

Lemma hand_off_evolves w id name state at_ r s' :
  deliveries_ok w → SetHandOffState id name state at_ (w_db w) = (r, s') →
  state ∈ [HandOffWaiting; HandOffHandedOff; HandOffRefused] → ¬ dead_owner (w_db w) (w_dead w) id →
  evolves (w_db w) s' (w_dead w).
Proof.
  intros Hok H Hstate Howner. unfold SetHandOffState in H.
  destruct (existsb _ _); simplify_eq; [|by apply elsewhere_evolves].
  split; simpl; [apply evolve_deliveries_refl| |done|by left].
  pose proof (k_states w Hok) as Hall. induction Hall as [|o l Hk _ IH]; simpl; constructor; [|done].
  destruct (handoff_of id name o) eqn:E; [|split_and!; [done|done|done|by left]].
  unfold handoff_of in E. bool_facts. split_and!; [done| | |].
  - unfold known_state. simpl. clear -Hstate. set_solver.
  - intros Hl. destruct Howner. subst id. by apply lost_dead.
  - simpl. intros ->. clear -Hstate. set_solver.
Qed.

Lemma deliver_evolves w id state r s' :
  deliveries_ok w → SetDeliveryState id state (w_db w) = (r, s') → state ≠ DeliveryDropped →
  ¬ dead_owner (w_db w) (w_dead w) id → evolves (w_db w) s' (w_dead w).
Proof.
  intros Hok H Hstate Howner. unfold SetDeliveryState in H.
  destruct (existsb _ _); simplify_eq; [|by apply elsewhere_evolves].
  split; simpl; [|by apply evolve_handoffs_refl|done|by left].
  assert (∀ d, d ∈ deliveries (w_db w) → d_State d = DeliveryDropped → d_ID d ≠ id) as Hl.
  { intros d Hd Hs ->%symmetry. destruct Howner. apply lost_dead; [done|]. by exists d. }
  induction (deliveries (w_db w)) as [|d l IH]; simpl; constructor.
  - unfold by_id. destruct (String.eqb (d_ID d) id) eqn:E; bool_facts; [|split_and!; [done|done|by left]].
    split_and!; [done| |done]. intros Hs. by destruct (Hl d); [left|..].
  - apply IH. intros; apply Hl; [by right|done].
Qed.

Lemma create_run_evolves w now run r s' :
  deliveries_ok w → CreateRun redact now run (w_db w) = (r, s') →
  (u_DeliveryID run ≠ "" → owed (w_db w) (u_DeliveryID run) (redact (u_PlaybookName run)) ∧
                           ¬ dead_owner (w_db w) (w_dead w) (u_DeliveryID run)) →
  evolves (w_db w) s' (w_dead w).
Proof.
  intros Hok H Howner.
  assert (s' = w_db w ∨ deliveries s' = deliveries (w_db w) ∧ handoffs s' = handoffs (w_db w) ∧
    delivery_identities s' = delivery_identities (w_db w) ∧ ∃ row, runs s' = runs (w_db w) ++ [row] ∧
    u_DeliveryID row = u_DeliveryID run ∧ u_PlaybookName row = redact (u_PlaybookName run)) as Hs.
  { revert H. unfold CreateRun. simpl.
    repeat case_match; intros; simplify_eq; first [by left|right];
      (split_and!; [done|done|done|eexists; split; [reflexivity|done]]). }
  destruct Hs as [->|(Hd & Hh & Hi & row & Hr & Hid & Hp)]; [by apply elsewhere_evolves|].
  split; [rewrite Hd; apply evolve_deliveries_refl|rewrite Hh; by apply evolve_handoffs_refl|done|].
  intros id name Hne (x & Hx & <- & <-). rewrite Hr, elem_of_app, list_elem_of_singleton in Hx.
  destruct Hx as [Hx| ->]; [left; by exists x|right]. rewrite Hid, Hp in *. by apply Howner.
Qed.

Lemma repeat_evolves w id :
  deliveries_ok w →
  evolves (w_db w) (update_deliveries (by_id id) (λ d, with_repeats (d_Repeats d + 1) d) (w_db w)) (w_dead w).
Proof.
  intros Hok. split; simpl; [|by apply evolve_handoffs_refl|done|by left].
  induction (deliveries (w_db w)) as [|d l IH]; simpl; constructor; [|done].
  destruct (by_id id d); by split_and!; auto.
Qed.

Lemma reconcile_evolves w new_id id at_ s' :
  deliveries_ok w → dead_owner (w_db w) (w_dead w) id → ¬ lost (w_db w) id →
  reconcileDelivery new_id id at_ (w_db w) = inr s' → evolves (w_db w) s' (w_dead w).
Proof.
  intros Hok (d0 & Hd0 & Hid0 & Hgone) Hlost H. destruct (reconcileDelivery_spec _ _ _ _ _ (k_keys w Hok) H)
    as (Hi & Hr & Hh & state & Hd). split; [|clear Hd|done|].
  - rewrite Hd. simpl. assert (∀ d, d ∈ deliveries (w_db w) → d_ID d = id →
      d_Instance d ∈ w_dead w ∧ d_State d ≠ DeliveryDropped) as Hx.
    { intros d Hin Hdi. split; [|intros ?; destruct Hlost; by exists d].
      rewrite (elem_of_by_id d_ID _ d d0 (proj1 (chained_ids _ _ (k_chained w Hok)))); [done..|congruence]. }
    clear -Hx Hh. induction (deliveries (w_db w)) as [|d l IH]; simpl; constructor;
      [|by apply IH; intros; apply Hx; [right|]].
    unfold by_id. destruct (String.eqb (d_ID d) id) eqn:E; bool_facts; [|split_and!; [done|done|by left]].
    destruct (Hx d) as [Hin Hs]; [left|done|]. split_and!; [done|done|]. intros _. right. split; [done|].
    intros o Ho Hoi. destruct (Forall2_in_r _ _ _ _ Hh Ho) as (o0 & _ & [= Hk _] & _ & Hu).
    apply Hu. congruence.
  - apply Forall2_same_length_lookup_2; [by eapply Forall2_length|]. intros i o o' Ho Ho'.
    destruct (Forall2_lookup_lr _ _ _ _ _ _ Hh Ho Ho') as (Hk & Hx & _).
    apply list_elem_of_lookup_2 in Ho. pose proof (proj1 (Forall_forall _ _) (k_states w Hok) o Ho) as Hks.
    destruct Hx as [->|(Hoi & Hu & Hran & Hdec)]; [split_and!; [done|done|done|by left]|].
    split_and!; [done|intros _; exact Hdec|by rewrite Hoi|].
    intros Hs. right. rewrite Hoi. unfold ran. rewrite Hr. split; [by exists d0|]. by apply Hran.
  - intros id' name _. unfold ran. rewrite Hr. by left.
Qed.

(** ** Recording a new delivery *)

Definition pending_row (id name : string) : HandOff := mkHandOff id (redact name) HandOffPending 0.

Lemma existsb_handoff_of id name l : existsb (handoff_of id name) l = true ↔ (id, name) ∈ map key l.
Proof.
  rewrite existsb_exists, list_elem_of_fmap. unfold handoff_of, key. split.
  - intros (o & Ho%list_elem_of_In & Hp). bool_facts. exists o. split; [congruence|done].
  - intros (o & [= -> ->] & Ho%list_elem_of_In). exists o. split; [done|]. by rewrite !String.eqb_refl.
Qed.

Lemma add_handoffs_spec id names : ∀ s s',
  add_handoffs redact id names s = inr s' →
  s' = set_handoffs (handoffs s ++ map (pending_row id) names) s ∧
  (NoDup (map key (handoffs s)) → NoDup (map key (handoffs s'))).
Proof.
  induction names as [|name names IH]; intros s s' H; simpl in H.
  { simplify_eq. rewrite app_nil_r. by destruct s'. }
  destruct (existsb _ _) eqn:E; [done|]. apply not_true_iff_false in E. rewrite existsb_handoff_of in E.
  apply IH in H as [-> Hnd]. simpl in *. rewrite <-app_assoc. split; [done|]. intros Hs.
  rewrite <-app_assoc in Hnd. apply Hnd. rewrite map_app. simpl. apply NoDup_app.
  split_and!; [done| |apply NoDup_singleton]. intros x Hx ->%list_elem_of_singleton. done.
Qed.

Lemma record_new_spec mint put params source identity kind sup playbooks s d s' :
  record_new redact digest mint put params source identity kind sup playbooks s = inr (d, s') →
  mint = inr (d_ID d) ∧ d_State d = DeliveryAccepted ∧ d_Supersedes d = sup ∧
  d_ID d ∉ map d_ID (deliveries s) ∧
  deliveries s' = deliveries s ++ [d] ∧
  delivery_identities s' = <[(source, identity) := (d_ID d, p_ReceivedAt params)]> (delivery_identities s) ∧
  handoffs s' = handoffs s ++ map (pending_row (d_ID d)) playbooks ∧
  runs s' = runs s ∧ (NoDup (map key (handoffs s)) → NoDup (map key (handoffs s'))).
Proof.
  unfold record_new. intros H. destruct mint as [|id]; [done|]. destruct (put id) as [|ref]; [done|].
  destruct (has_id d_ID id (deliveries s)) eqn:Eid; [done|]. apply has_id_false in Eid.
  destruct (refers _ _ _); [|done]. simpl in H.
  destruct (add_handoffs _ _ _ _) as [|s1] eqn:Ea; [done|]. simplify_eq.
  apply add_handoffs_spec in Ea as [-> Hnd]. simpl in *. by split_and!.
Qed.

Lemma record_new_row mint put params source identity kind sup playbooks s d s' :
  record_new redact digest mint put params source identity kind sup playbooks s = inr (d, s') →
  d_Source d = source ∧ d_Identity d = identity ∧ d_ReceivedAt d = p_ReceivedAt params ∧
  put (d_ID d) = inr (d_BodyRef d) ∧ d_BodySHA256 d = digest (p_Body params).
Proof.
  unfold record_new. intros H. destruct mint as [|id]; [done|]. destruct (put id) eqn:Ep; [done|].
  destruct (has_id _ _ _); [done|]. destruct (negb _); [done|].
  by destruct (add_handoffs _ _ _ _); simplify_eq.
Qed.

Lemma descends_new s s' d x a :
  deliveries s' = deliveries s ++ [d] →
  (∀ y, y ∈ deliveries s' → d_Supersedes y ≠ d_ID d) →
  descends s' x a →
  descends s x a ∨
  (x = d_ID d ∧ d_Supersedes d ≠ "" ∧ (a = d_Supersedes d ∨ descends s (d_Supersedes d) a)).
Proof.
  intros Hd Hfresh. induction 1 as [y Hy Hs|y a Hy Hs _ IH]; pose proof (Hfresh y Hy) as Hne;
    rewrite Hd, elem_of_app, list_elem_of_singleton in Hy; destruct Hy as [Hy| ->].
  - left. by apply descends_one.
  - right. by split_and!; [..|left].
  - destruct IH as [IH|[? _]]; [|done]. left. by apply descends_more.
  - destruct IH as [IH|[? _]]; [|done]. right. by split_and!; [..|right].
Qed.

Section record_new.
Context (s s' : db) (dead : gset string) (d : Delivery) (playbooks : list string).
Context (Hok : deliveries_ok (mkWorld s dead)) (Hne : d_ID d ≠ "").
Context (Hstate : d_State d = DeliveryAccepted) (Hid : d_ID d ∉ map d_ID (deliveries s)).
Context (Hd : deliveries s' = deliveries s ++ [d]).
Context (Hh : handoffs s' = handoffs s ++ map (pending_row (d_ID d)) playbooks).
Context (Hr : runs s' = runs s) (Hkeys : NoDup (map key (handoffs s'))).
Context (Hsup : d_Supersedes d = "" ∨ lost s (d_Supersedes d)).
Context (Hnames : ∀ name, name ∈ playbooks → d_Supersedes d ≠ "" → ¬ chain_decided s (d_Supersedes d) name).

Lemma new_elem_deliveries x : x ∈ deliveries s' ↔ x ∈ deliveries s ∨ x = d.
Proof. rewrite Hd, elem_of_app. by rewrite list_elem_of_singleton. Qed.

Lemma lost_in id : lost s id → id ∈ map d_ID (deliveries s).
Proof. intros (x & Hx & <- & _). apply list_elem_of_fmap. eauto. Qed.

Lemma new_elem_handoffs o : o ∈ handoffs s' ↔
  o ∈ handoffs s ∨ ∃ name, name ∈ playbooks ∧ o = pending_row (d_ID d) name.
Proof using Hh.
  clear -Hh. rewrite Hh, elem_of_app, list_elem_of_fmap. split; intros [?|(x & ? & ?)]; eauto.
Qed.

Lemma new_fresh y : y ∈ deliveries s' → d_Supersedes y ≠ d_ID d.
Proof.
  intros Hy Heq. destruct (decide (d_Supersedes y = "")); [congruence|].
  assert (lost s (d_Supersedes y)) as Hl.
  { apply new_elem_deliveries in Hy as [Hy| ->]; [by apply (k_supersedes _ Hok)|by destruct Hsup]. }
  apply lost_in in Hl. congruence.
Qed.

Lemma new_settled id : id ≠ d_ID d → settled s id → settled s' id.
Proof using Hh.
  intros Hx Hs o Ho Hoi. apply new_elem_handoffs in Ho as [Ho|(name & _ & ->)]; [by apply Hs|].
  by destruct Hx.
Qed.

Lemma new_decided id name : id ≠ d_ID d → decided_of s' id name → decided_of s id name.
Proof using Hh.
  intros Hx (o & Ho & Hoi & Hn & Hdec). apply new_elem_handoffs in Ho as [Ho|(? & _ & ->)]; [by exists o|].
  by destruct Hx.
Qed.

Lemma new_owed id name : id ≠ d_ID d → owed s' id name → owed s id name.
Proof using Hh.
  intros Hx (o & Ho & Hk). apply new_elem_handoffs in Ho as [Ho|(? & _ & ->)]; [by exists o|].
  injection Hk as ? _. congruence.
Qed.

(** A run of a delivery that was dropped is of a playbook decided for it. *)
Lemma lost_ran_decided id name : lost s id → ran s id name → decided_of s id name.
Proof.
  intros Hl Hran. assert (id ≠ "") as Hn by (by eapply lost_not_empty).
  destruct (k_runs _ Hok _ _ Hn Hran) as (o & Ho & [= Hi Hp]). simpl in Ho.
  destruct Hl as (x & Hx & Hxi & Hxs). destruct (k_dropped _ Hok _ Hx Hxs) as [_ Hset].
  pose proof (Hset o Ho ltac:(congruence)) as Hu.
  destruct (decided (o_State o)) eqn:Edec; [by exists o|].
  pose proof (proj1 (Forall_forall _ _) (k_states _ Hok) o Ho Hu Edec) as Hdrop.
  destruct (k_lost _ Hok o Ho Hdrop) as [_ Hno]. simpl in Hno. destruct Hno. by rewrite Hi, Hp.
Qed.

Lemma new_once x a name : plain name →
  descends s' x a → decided_of s' a name ∨ ran s' a name → ¬ owed s' x name.
Proof.
  intros Hplain Hx Hdone Ho. apply descends_new with (s := s) (d := d) in Hx; [|done|exact new_fresh].
  assert (lost s a) as Hla.
  { destruct Hx as [Hx|(_ & Hn & [->|Hx])]; [by eapply (descends_lost _ _ _ Hok)| |by eapply (descends_lost _ _ _ Hok)].
    by destruct Hsup. }
  assert (decided_of s a name) as Hdec.
  { destruct Hdone as [H|H]; [|apply lost_ran_decided; [done|]; unfold ran in *; by rewrite Hr in H].
    apply new_decided; [|done]. intros ->. by apply Hid, lost_in. }
  destruct Hx as [Hx|(-> & Hn & Hx)].
  - apply (k_once _ Hok x a name); [done|done|by left|]. apply new_owed; [|done]. intros ->. apply Hid.
    inversion Hx; subst; apply list_elem_of_fmap; eauto.
  - destruct Ho as (o & Ho & Hk). apply new_elem_handoffs in Ho as [Ho|(p & Hp & ->)].
    + apply Hid. injection Hk as <- _. by apply (k_owned _ Hok).
    + apply (Hnames p Hp Hn). injection Hk as Hk. apply Hplain in Hk as ->. by exists a.
Qed.

Lemma new_ok k at_ : delivery_identities s' = <[k := (d_ID d, at_)]> (delivery_identities s) →
  deliveries_ok (mkWorld s' dead).
Proof.
  intros Hi. assert (∀ id, id ∈ map d_ID (deliveries s) → id ∈ map d_ID (deliveries s')) as Hmore.
  { intros id. rewrite Hd, map_app, elem_of_app. by left. }
  assert (d_ID d ∈ map d_ID (deliveries s')) as Hnew by (rewrite Hd, map_app, elem_of_app; right; left).
  assert (∀ id, lost s id → lost s' id) as Hlost.
  { intros id (x & ? & ? & ?). exists x. split_and!; [apply new_elem_deliveries; by left|done|done]. }
  split; simpl.
  - rewrite Hd. apply chained_app; [apply (k_chained _ Hok)|done|done|by intros ?%elem_of_nil|].
    destruct Hsup as [?|?%lost_in]; auto.
  - intros k' id at'. rewrite Hi. destruct (decide (k' = k)) as [->|].
    + rewrite lookup_insert_eq. by intros [= <- _].
    + rewrite lookup_insert_ne by done. intros ?. by eapply Hmore, (k_identities _ Hok).
  - done.
  - rewrite Hh. apply Forall_app. split; [apply (k_states _ Hok)|]. apply Forall_forall.
    intros o (name & -> & _)%list_elem_of_fmap. intros ?. done.
  - intros o Ho. apply new_elem_handoffs in Ho as [Ho|(? & _ & ->)]; [by apply Hmore, (k_owned _ Hok)|done].
  - intros x Hx Hs. apply new_elem_deliveries in Hx as [Hx| ->]; [|by rewrite Hstate in Hs].
    destruct (k_dropped _ Hok x Hx Hs) as [? ?]. split; [done|]. apply new_settled; [|done].
    intros Heq. apply Hid. rewrite <-Heq. apply list_elem_of_fmap. eauto.
  - intros x Hx Hs. apply Hlost. apply new_elem_deliveries in Hx as [Hx| ->]; [by apply (k_supersedes _ Hok)|].
    by destruct Hsup.
  - intros id name Hx Hran. unfold ran in Hran. rewrite Hr in Hran.
    destruct (k_runs _ Hok id name Hx Hran) as (o & ? & ?). exists o. split; [apply new_elem_handoffs; by left|done].
  - intros o Ho Hs. apply new_elem_handoffs in Ho as [Ho|(? & _ & ->)]; [|done].
    destruct (k_lost _ Hok o Ho Hs) as [(x & Hx & ? & ?) Hno]. unfold ran. rewrite Hr. split; [|done].
    exists x. split_and!; [apply new_elem_deliveries; by left|done|done].
  - exact new_once.
Qed.
End record_new.

(** ** Accepting *)

Lemma existingDelivery_spec source identity s e :
  existingDelivery source identity s = inr (Some e) →
  ∃ d at_, d ∈ deliveries s ∧ e = with_received at_ d.
Proof.
  unfold existingDelivery. intros H. repeat case_match; simplify_eq.
  match goal with E : List.find _ _ = Some ?d |- _ =>
    apply find_some in E as [? _]; exists d; eexists; split; [by apply list_elem_of_In|done] end.
Qed.

Lemma judge_ok s dead new_id alive params d at_ isnew sup s1 :
  deliveries_ok (mkWorld s dead) → d ∈ deliveries s → truthful alive dead →
  judge new_id alive (with_received at_ d) params s = inr ((isnew, sup), s1) →
  deliveries_ok (mkWorld s1 dead) ∧ (sup = "" ∨ lost s1 sup).
Proof.
  intros Hok Hd Halive H. unfold judge in H. simpl in H.
  destruct (_ <=? _); simplify_eq; [by split; [|left]|].
  destruct (String.eqb (d_State d) DeliveryDropped) eqn:Es; bool_facts; simplify_eq.
  { split; [done|right]. by exists d. }
  destruct (_ && _)%bool; simplify_eq; [by split; [|left]|].
  destruct (match alive with None => true | Some probe => probe (d_Instance d) end) eqn:Ea; simplify_eq;
    [by split; [|left]|].
  destruct alive as [probe|]; [|done].
  destruct (reconcileDelivery _ _ _ _) as [err|s2] eqn:Er; [done|].
  assert (deliveries_ok (mkWorld s2 dead)) as Hok2.
  { apply (evolve_ok s s2 dead dead); [done| |done].
    apply (reconcile_evolves (mkWorld s dead) _ _ _ _ Hok) in Er; [done| |].
    - exists d. split_and!; [done|done|]. by eapply Halive.
    - intros (d' & Hd' & Hi & Hs').
      rewrite (elem_of_by_id d_ID _ d d' (proj1 (chained_ids _ _ (k_chained _ Hok)))) in Es; done. }
  pose proof (find_by_id (deliveries s2) (d_ID d)) as Hf.
  destruct (List.find _ _) as [d2|]; [|done]. destruct Hf as [Hin Hi].
  destruct (String.eqb (d_State d2) DeliveryDropped) eqn:E2; bool_facts; simplify_eq;
    (split; [done|]); [right; by exists d2|by left].
Qed.

(** The chain a new delivery supersedes can be read to its end. *)
Lemma decidedInChain_lost s dead sup :
  deliveries_ok (mkWorld s dead) → lost s sup →
  ∃ names, decidedInChain (S (length (deliveries s))) sup s = Some (inr names) ∧
    ∀ name, name ∈ names ↔ sup ≠ "" ∧ chain_decided s sup name.
Proof.
  intros Hok Hl. apply (decidedInChain_total s _ (deliveries s) []); [apply (k_chained _ Hok)|..].
  - by rewrite app_nil_r.
  - lia.
  - right. by apply lost_in.
Qed.

(** The playbooks a new delivery is handed to: those its chain has not decided. *)
Definition still_owed (s : db) (sup : string) (playbooks names : list string) : Prop :=
  (sup = "" → names = playbooks) ∧
  (sup ≠ "" → ∀ name, name ∈ names ↔ name ∈ playbooks ∧ ¬ chain_decided s sup name).

Lemma still_owed_total s dead sup playbooks :
  deliveries_ok (mkWorld s dead) → sup = "" ∨ lost s sup →
  ∃ names,
    (if String.eqb sup "" then Some (inr playbooks)
     else
       match decidedInChain (S (length (deliveries s))) sup s with
       | None => None
       | Some (inl err) => Some (inl err)
       | Some (inr done_) => Some (inr (List.filter (λ name, negb (bool_decide (name ∈ done_))) playbooks))
       end) = Some (inr names : gerror + list string) ∧ still_owed s sup playbooks names.
Proof.
  intros Hok Hsup. destruct (String.eqb sup "") eqn:E; bool_facts.
  { exists playbooks. split; [done|]. by split. }
  destruct Hsup as [?|Hl]; [done|].
  destruct (decidedInChain_lost _ _ _ Hok Hl) as (names & -> & Hnames).
  eexists. split; [reflexivity|]. split; [done|]. intros _ name.
  rewrite list_elem_of_In, filter_In, <-list_elem_of_In, negb_true_iff, bool_decide_eq_false, Hnames. tauto.
Qed.

(** Every way Accept ends: a failure that changes nothing, a repeat counted, or a delivery
    recorded. *)
Inductive accepts mint put new_id alive params (s : db) : (gerror + Delivery * bool) → db → Prop :=
| accepts_fail err : accepts mint put new_id alive params s (inl err) s
| accepts_repeat d at_ sup s1 :
    d ∈ deliveries s → judge new_id alive (with_received at_ d) params s = inr ((false, sup), s1) →
    accepts mint put new_id alive params s
      (inr (with_repeats (d_Repeats d + 1) (with_received at_ d), false))
      (update_deliveries (by_id (d_ID d)) (λ d, with_repeats (d_Repeats d + 1) d) s1)
| accepts_new source identity kind sup s1 names d s2 :
    (s1 = s ∧ sup = "" ∨ ∃ e at_, e ∈ deliveries s ∧
       judge new_id alive (with_received at_ e) params s = inr ((true, sup), s1)) →
    still_owed s1 sup (p_Playbooks params) names →
    record_new redact digest mint put params source identity kind sup names s1 = inr (d, s2) →
    accepts mint put new_id alive params s (inr (d, true)) s2.

Lemma Accept_ends mint put new_id alive params s dead :
  deliveries_ok (mkWorld s dead) → truthful alive dead →
  ∃ r s', Accept redact digest mint put new_id alive params s = Some (r, s') ∧
    accepts mint put new_id alive params s r s'.
Proof.
  intros Hok Halive. unfold Accept.
  destruct (IsZero _); [eexists _, _; split; [reflexivity|constructor]|]. cbv zeta.
  destruct (existingDelivery _ _ s) as [err|[e|]] eqn:Ee; [eexists _, _; split; [reflexivity|constructor]|..].
  - apply existingDelivery_spec in Ee as (d & at_ & Hd & ->).
    destruct (judge _ _ _ _ _) as [err|[[[|] sup] s1]] eqn:Ej; [eexists _, _; split; [reflexivity|constructor]|..].
    + destruct (judge_ok _ _ _ _ _ _ _ _ _ _ Hok Hd Halive Ej) as [Hok1 Hsup].
      destruct (still_owed_total _ _ _ (p_Playbooks params) Hok1 Hsup) as (names & -> & Hnames).
      destruct (record_new _ _ _ _ _ _ _ _ _ _ _) as [err|[d' s2]] eqn:Er;
        eexists _, _; (split; [reflexivity|]); [constructor|]. eapply accepts_new; [right|done|exact Er]. eauto.
    + eexists _, _. split; [reflexivity|]. exact (accepts_repeat _ _ _ _ _ _ d at_ sup s1 Hd Ej).
  - destruct (still_owed_total _ _ "" (p_Playbooks params) Hok ltac:(by left)) as (names & -> & Hnames).
    destruct (record_new _ _ _ _ _ _ _ _ _ _ _) as [err|[d' s2]] eqn:Er;
      eexists _, _; (split; [reflexivity|]); [constructor|]. eapply accepts_new; [by left|done|exact Er].
Qed.

Lemma accepts_ok mint put new_id alive params s dead r s' :
  deliveries_ok (mkWorld s dead) → truthful alive dead → (∀ id, mint = inr id → id ≠ "") →
  accepts mint put new_id alive params s r s' → deliveries_ok (mkWorld s' dead).
Proof.
  intros Hok Halive Hmint H. destruct H as [err|d at_ sup s1 Hd Hj|source identity kind sup s1 names d s2 Hj Ho Hr].
  - done.
  - destruct (judge_ok _ _ _ _ _ _ _ _ _ _ Hok Hd Halive Hj) as [Hok1 _].
    apply (evolve_ok s1 _ dead dead); [done| |done]. exact (repeat_evolves (mkWorld s1 dead) _ Hok1).
  - assert (deliveries_ok (mkWorld s1 dead) ∧ (sup = "" ∨ lost s1 sup)) as [Hok1 Hsup].
    { destruct Hj as [[-> ->]|(e & at_ & He & Hj)]; [by split; [|left]|]. by eapply judge_ok. }
    apply record_new_spec in Hr as (Hm & Hs & <- & Hid & Hds & Hi & Hh & Hr & Hk).
    eapply (new_ok s1 s2 dead d names); try done; [by apply Hmint|apply Hk, (k_keys _ Hok1)|].
    intros name Hn Hsup0. destruct Ho as [_ Ho2]. by apply Ho2 in Hn as [_ Hn2].
Qed.

(** ** Every reachable state directory *)

Lemma empty_ok : deliveries_ok (mkWorld empty_db ∅).
Proof.
  split; simpl; try done.
  - constructor.
  - by intros o ?%elem_of_nil.
  - by intros d ?%elem_of_nil.
  - by intros d ?%elem_of_nil.
  - intros id name _ (r & Hr%elem_of_nil & _). done.
  - by intros o ?%elem_of_nil.
  - intros d a name _ H. by inversion H as [x Hx%elem_of_nil|x ? Hx%elem_of_nil].
Qed.

Lemma step_ok w w' : deliveries_ok w → step w w' → deliveries_ok w'.
Proof.
  intros Hok H. destruct H as [mint put new_id alive params s dead r s' H Hmint Halive| | | | |i s dead].
  - destruct (Accept_ends mint put new_id alive params s dead Hok Halive) as (r' & s'' & Heq & Ha).
    rewrite Heq in H. simplify_eq. by eapply accepts_ok.
  - eapply evolve_ok; [exact Hok| |done]. by eapply (hand_off_evolves (mkWorld s dead)).
  - eapply evolve_ok; [exact Hok| |done]. by eapply (deliver_evolves (mkWorld s dead)).
  - eapply evolve_ok; [exact Hok| |done]. by eapply (create_run_evolves (mkWorld s dead)).
  - eapply evolve_ok; [exact Hok| |done]. by eapply (elsewhere_evolves (mkWorld s dead)).
  - destruct Hok as []. split; simpl in *; try done.
    + intros d Hd Hs. destruct (k_dropped0 d Hd Hs). split; [set_solver|done].
    + intros o Ho Hs. destruct (k_lost0 o Ho Hs) as [(d & ? & ? & ?) ?]. split; [|done].
      exists d. split_and!; [done|done|set_solver].
Qed.

Lemma reachable_ok w : reachable w → deliveries_ok w.
Proof.
  unfold reachable. intros H. remember (mkWorld empty_db ∅) as w0 eqn:E.
  assert (deliveries_ok w0) as Hok by (subst; exact empty_ok). clear E.
  induction H; [done|]. eauto using step_ok.
Qed.

Lemma owed_in w id name : deliveries_ok w → owed (w_db w) id name → id ∈ map d_ID (deliveries (w_db w)).
Proof. intros Hok (o & Ho & [= <- _]). by apply (k_owned w Hok). Qed.

(** C28: However its processes die, no playbook whose name the redactor leaves alone, and makes of no
    other, is handed one delivery twice: when the retry of a delivery descends from one whose hand-off
    to the playbook was decided, or that the playbook ran for, the retry has no hand-off to it; and,
    where the dispatcher starts a run of a delivery only for a hand-off it owes and only in the
    process that accepted it, while that one lives, no run of it. *)
Theorem a_playbook_is_handed_a_delivery_once w d a name :
  plain name → reachable w → descends (w_db w) d a →
  decided_of (w_db w) a name ∨ ran (w_db w) a name →
  ¬ owed (w_db w) d name ∧ ¬ ran (w_db w) d name.
Proof.
  intros Hplain Hr%reachable_ok Hd Ha. pose proof (k_once w Hr d a name Hplain Hd Ha) as Hno. split; [done|].
  intros Hran. apply Hno, (k_runs w Hr); [|done].
  inversion Hd as [x Hx|x ? Hx]; subst; by apply (proj2 (chained_ids _ _ (k_chained w Hr)) x Hx).
Qed.

(** Accepting always answers: the chain of a retried delivery is finite and can be read to
    its end in as many steps as there are deliveries. *)
Theorem Accept_always_answers mint put new_id alive params s dead :
  reachable (mkWorld s dead) → truthful alive dead →
  ∃ r s', Accept redact digest mint put new_id alive params s = Some (r, s').
Proof.
  intros Hr%reachable_ok Ha. destruct (Accept_ends mint put new_id alive params s dead Hr Ha) as (r & s' & ? & _).
  eauto.
Qed.

(** A delivery seen again inside its window, by a process that takes its acceptor to be alive
    or finds it decided, is a repeat: its count grows by one and nothing else changes. *)
Theorem a_repeat_only_counts mint put new_id alive params s e :
  p_IdentityKind params ≠ "" → IsZero (p_ReceivedAt params) = false →
  existingDelivery (redact (p_Source params)) (redact (p_Identity params)) s = inr (Some e) →
  time_sub (p_ReceivedAt params) (d_ReceivedAt e) < p_ReplayWindow params →
  d_State e ≠ DeliveryDropped →
  d_State e = DeliveryHandedOff ∨ d_State e = DeliveryUnbound ∨
    match alive with None => True | Some probe => probe (d_Instance e) = true end →
  Accept redact digest mint put new_id alive params s =
  Some (inr (with_repeats (d_Repeats e + 1) e, false),
        update_deliveries (by_id (d_ID e)) (λ d, with_repeats (d_Repeats d + 1) d) s).
Proof.
  intros Hk Hz He Hw Hs Ha. unfold Accept. rewrite Hz. apply String.eqb_neq in Hk, Hs. rewrite Hk. simpl.
  rewrite He. enough (judge new_id alive e params s = inr ((false, ""), s)) as -> by done.
  unfold judge. rewrite (proj2 (Z.leb_gt _ _) Hw), Hs.
  destruct Ha as [->|[->|Ha]]; [done..|].
  destruct alive as [probe|]; [rewrite Ha|]; by destruct (_ && _)%bool.
Qed.

Lemma descends_grows s s' x a :
  (∀ y, y ∈ deliveries s → y ∈ deliveries s') → descends s x a → descends s' x a.
Proof. intros H. induction 1; [apply descends_one|eapply descends_more]; eauto. Qed.

(** The chain of the delivery just recorded is the chain it supersedes. *)
Lemma new_chain s s' dead d names name :
  deliveries_ok (mkWorld s dead) → d_ID d ≠ "" → d_ID d ∉ map d_ID (deliveries s) →
  d_Supersedes d = "" ∨ lost s (d_Supersedes d) →
  deliveries s' = deliveries s ++ [d] → handoffs s' = handoffs s ++ map (pending_row (d_ID d)) names →
  (∃ a, descends s' (d_ID d) a ∧ decided_of s' a name) ↔
  d_Supersedes d ≠ "" ∧ chain_decided s (d_Supersedes d) name.
Proof.
  intros Hok Hne Hid Hsup Hd Hh.
  assert (∀ y, y ∈ deliveries s' → d_Supersedes y ≠ d_ID d) as Hfresh by exact (new_fresh s s' dead d Hok Hne Hid Hd Hsup).
  assert (∀ x, x ∈ deliveries s → x ∈ deliveries s') as Hmore by (intros; rewrite Hd; set_solver).
  assert (d ∈ deliveries s') as Hin by (rewrite Hd; set_solver).
  split.
  - intros (a & Ha & Hdec). destruct (descends_new s s' d _ _ Hd Hfresh Ha) as [Hx|(_ & Hn & Hx)].
    { destruct Hid. inversion Hx; subst; apply list_elem_of_fmap; eauto. }
    split; [done|]. exists a. split; [done|]. apply (new_decided s s' d names Hh a name); [|exact Hdec].
    intros ->. destruct Hsup as [?|Hl]; [done|]. apply Hid, lost_in.
    destruct Hx as [->|Hx]; [done|]. by eapply (descends_lost _ _ _ Hok).
  - intros [Hn (a & Ha & (o & Ho & ? & ? & ?))]. exists a. split.
    + destruct Ha as [->|Ha]; [by apply descends_one|]. apply descends_more; [done..|].
      by eapply descends_grows.
    + exists o. split_and!; [rewrite Hh; set_solver|done..].
Qed.

(** A delivery found new is recorded whole: its row, the identity that now points to it, and
    a pending hand-off for exactly the bound playbooks that no delivery of its chain decided. *)
Theorem a_new_delivery_is_owed_what_its_chain_left mint put new_id alive params s dead d s' :
  reachable (mkWorld s dead) → truthful alive dead → (∀ id, mint = inr id → id ≠ "") →
  Forall (λ name, redact name = name) (p_Playbooks params) →
  Accept redact digest mint put new_id alive params s = Some (inr (d, true), s') →
  d ∈ deliveries s' ∧ d_State d = DeliveryAccepted ∧
  delivery_identities s' !! (d_Source d, d_Identity d) = Some (d_ID d, p_ReceivedAt params) ∧
  (∀ name, owed s' (d_ID d) name ↔
     name ∈ p_Playbooks params ∧ ¬ ∃ a, descends s' (d_ID d) a ∧ decided_of s' a name) ∧
  (∀ o, o ∈ handoffs s' → o_DeliveryID o = d_ID d → o_State o = HandOffPending).
Proof.
  intros Hok%reachable_ok Halive Hmint Hnames H.
  destruct (Accept_ends mint put new_id alive params s dead Hok Halive) as (r & s0 & Heq & Ha).
  rewrite H in Heq. injection Heq as <- <-. inversion Ha as [| |source identity kind sup s1 names d' s2 Hj Ho Hr]; subst.
  assert (deliveries_ok (mkWorld s1 dead) ∧ (sup = "" ∨ lost s1 sup)) as [Hok1 Hsup].
  { destruct Hj as [[-> ->]|(e & at_ & He & Hj)]; [by split; [|left]|]. by eapply judge_ok. }
  apply record_new_row in Hr as Hrow.
  apply record_new_spec in Hr as (Hm & Hs & <- & Hid & Hds & Hi & Hh & Hr & Hk).
  assert (∀ o, o ∈ handoffs s' → o_DeliveryID o = d_ID d → ∃ name, name ∈ names ∧ o = pending_row (d_ID d) name)
    as Hrows.
  { intros o Hin Hoi. apply (new_elem_handoffs s1 s' d names Hh) in Hin as [Hin|?]; [|done].
    destruct Hid. rewrite <-Hoi. by apply (k_owned _ Hok1). }
  split_and!; [rewrite Hds; set_solver|done| | |].
  - destruct Hrow as (<- & <- & _). rewrite Hi. apply lookup_insert_eq.
  - intros name. rewrite (new_chain s1 s' dead d names name Hok1 (Hmint _ Hm) Hid Hsup Hds Hh).
    assert (owed s' (d_ID d) name ↔ name ∈ names) as ->.
    { rewrite Forall_forall in Hnames. destruct Ho as [Ho1 Ho2].
      assert (∀ p, p ∈ names → redact p = p) as Hraw.
      { intros p Hp. apply Hnames. destruct (decide (d_Supersedes d = "")) as [He|He];
          [by rewrite (Ho1 He) in Hp|by apply Ho2]. }
      split.
      - intros (o & Hin & [= Hoi Hon]). destruct (Hrows o Hin Hoi) as (p & Hp & ->). simpl in Hon.
        rewrite Hraw in Hon by done. by subst.
      - intros Hn. exists (pending_row (d_ID d) name). split; [|unfold key; simpl; by rewrite Hraw].
        apply (new_elem_handoffs s1 s' d names Hh). eauto. }
    destruct Ho as [Ho1 Ho2]. destruct (decide (d_Supersedes d = "")) as [He|He].
    + rewrite (Ho1 He). tauto.
    + rewrite (Ho2 He). tauto.
  - intros o Hin Hoi. by destruct (Hrows o Hin Hoi) as (p & _ & ->).
Qed.

End once.

(** ** A retried delivery

    A process accepts a delivery for two playbooks, hands it to the first and dies.  The
    sender's retry is accepted by another process, and is owed to the second only. *)

Definition same (x : string) : string := x.
Definition delivered (instance : string) (at_ : Z) : AcceptParams :=
  mkAcceptParams "hook" "evt-1" "header" "{}" "10.0.0.1" at_ instance (3600 * Second) ["disk"; "mail"].
Definition no_id (n : nat) : gerror + string := inr "f1".
Definition put_blob (id : string) : gerror + string := inr ("blob/" +:+ id).

Definition accepted1 : db :=
  match Accept same same (inr "d1") put_blob no_id None (delivered "p1" Second) empty_db with
  | Some (_, s) => s | None => empty_db end.
Definition handed1 : db := snd (SetHandOffState "d1" "disk" HandOffHandedOff (2 * Second) accepted1).
Definition p1_gone : option (string → bool) := Some (λ i, negb (String.eqb i "p1")).
Definition retried : option ((gerror + Delivery * bool) * db) :=
  Accept same same (inr "d2") put_blob no_id p1_gone (delivered "p2" (3 * Second)) handed1.
Definition retried_delivery : Delivery :=
  mkDelivery "d2" "hook" "evt-1" "header" (3 * Second) "10.0.0.1" "blob/d2" "{}" 0 "p2" "d1" DeliveryAccepted.
Definition accepted2 : db := match retried with Some (_, s) => s | None => empty_db end.

Lemma minted_names_something (x : string) : x ≠ "" → ∀ id, inr x = (inr id : gerror + string) → id ≠ "".
Proof. by intros H id [= <-]. Qed.

Lemma handed1_reachable : reachable same same (mkWorld handed1 ({["p1"]} ∪ ∅)).
Proof.
  eapply rtc_l; [|eapply rtc_l; [|eapply rtc_l; [|apply rtc_refl]]].
  - eapply (step_accept same same (inr "d1") put_blob no_id None (delivered "p1" Second) _ ∅ _ accepted1).
    + reflexivity.
    + by apply minted_names_something.
    + by intros probe i [=].
  - eapply (step_hand_off _ _ "d1" "disk" HandOffHandedOff (2 * Second) accepted1 ∅ _ handed1).
    + reflexivity.
    + right. left.
    + by intros (d & _ & _ & ?%elem_of_empty).
  - apply (step_die _ _ "p1").
Qed.

Lemma p1_gone_truly : truthful p1_gone ({["p1"]} ∪ ∅).
Proof. intros probe i [= <-] H. bool_facts. set_solver. Qed.

Lemma accepted2_reachable : reachable same same (mkWorld accepted2 ({["p1"]} ∪ ∅)).
Proof.
  eapply rtc_r; [exact handed1_reachable|].
  eapply (step_accept same same (inr "d2") put_blob no_id p1_gone (delivered "p2" (3 * Second)) handed1 _ _ accepted2).
  - reflexivity.
  - by apply minted_names_something.
  - exact p1_gone_truly.
Qed.

Lemma a_playbook_is_handed_a_delivery_once_witness :
  owed accepted2 "d2" "mail" ∧ ¬ owed accepted2 "d2" "disk" ∧ ¬ ran accepted2 "d2" "disk".
Proof.
  split; [exists (mkHandOff "d2" "mail" HandOffPending 0); split; [right; right; left|done]|].
  apply (a_playbook_is_handed_a_delivery_once same same _ "d2" "d1" "disk" (λ n H, H) accepted2_reachable).
  - apply (descends_one accepted2 retried_delivery); [right; left|done].
  - left. exists (mkHandOff "d1" "disk" HandOffHandedOff (2 * Second)). split_and!; [left|done..].
Defined.

Lemma Accept_always_answers_witness :
  ∃ r s', Accept same same (inr "d2") put_blob no_id p1_gone (delivered "p2" (3 * Second)) handed1 = Some (r, s').
Proof.
  exact (Accept_always_answers same same (inr "d2") put_blob no_id p1_gone (delivered "p2" (3 * Second)) handed1 _
           handed1_reachable p1_gone_truly).
Defined.

Lemma a_repeat_only_counts_witness :
  ∃ d s', Accept same same (inr "d2") put_blob no_id None (delivered "p2" (3 * Second)) handed1 =
          Some (inr (d, false), s') ∧ d_Repeats d = 1 ∧ handoffs s' = handoffs handed1.
Proof.
  eexists _, _. split; [|shelve].
  apply (a_repeat_only_counts same same _ _ _ None (delivered "p2" (3 * Second)) handed1
           (mkDelivery "d1" "hook" "evt-1" "header" Second "10.0.0.1" "blob/d1" "{}" 0 "p1" "" DeliveryAccepted));
    [done|reflexivity|reflexivity|reflexivity|done|by right; right].
  Unshelve. by split.
Defined.

Lemma a_new_delivery_is_owed_what_its_chain_left_witness :
  owed accepted2 "d2" "mail" ↔
  "mail" ∈ ["disk"; "mail"] ∧ ¬ ∃ a, descends accepted2 "d2" a ∧ decided_of accepted2 a "mail".
Proof.
  destruct (a_new_delivery_is_owed_what_its_chain_left same same (inr "d2") put_blob no_id p1_gone
              (delivered "p2" (3 * Second)) handed1 _ retried_delivery accepted2
              handed1_reachable p1_gone_truly) as (_ & _ & _ & H & _);
    [by apply minted_names_something|by repeat constructor|reflexivity|]. apply H.
Defined.
