(* ===== verification/Sha256.v ===== *)
(** [crypto/sha256], [crypto/hmac] and [encoding/hex] of Go's standard library, as the ingress
    and the record call them: a text is its bytes.  With them, the identifiers of runs and
    deliveries: [src/runtime/internal/idgen/idgen.go]. *)
From S2P Require Import Prelude GoStr GoJson GoTime GoErr.

Definition bytes_of (s : string) : list Z := map byte_of (list_ascii_of_string s).
Definition text_of (l : list Z) : string := string_of_list_ascii (map byte_chr l).

(** ** FIPS 180-4 *)

Definition w32 (z : Z) : Z := z mod 2 ^ 32.
Definition rotr (n x : Z) : Z := Z.lor (Z.shiftr x n) (w32 (Z.shiftl x (32 - n))).
Definition ch (x y z : Z) : Z := Z.lxor (Z.land x y) (Z.land (Z.lxor x (2 ^ 32 - 1)) z).
Definition maj (x y z : Z) : Z := Z.lxor (Z.lxor (Z.land x y) (Z.land x z)) (Z.land y z).
Definition big_sigma0 (x : Z) : Z := Z.lxor (Z.lxor (rotr 2 x) (rotr 13 x)) (rotr 22 x).
Definition big_sigma1 (x : Z) : Z := Z.lxor (Z.lxor (rotr 6 x) (rotr 11 x)) (rotr 25 x).
Definition small_sigma0 (x : Z) : Z := Z.lxor (Z.lxor (rotr 7 x) (rotr 18 x)) (Z.shiftr x 3).
Definition small_sigma1 (x : Z) : Z := Z.lxor (Z.lxor (rotr 17 x) (rotr 19 x)) (Z.shiftr x 10).

(** The constants are the first 32 bits of the fractional parts of roots of primes. *)
Definition is_prime (n : Z) : bool := forallb (λ d, negb (n mod d =? 0)) (seqZ 2 (n - 2)).
Definition primes : list Z := Eval vm_compute in List.filter is_prime (seqZ 2 310).

(** The largest number of at most [bits] bits whose cube is at most [n]. *)
Fixpoint cube_root (bits : nat) (n r : Z) : Z :=
  match bits with
  | O => r
  | S bits =>
      let r' := r + 2 ^ Z.of_nat bits in
      cube_root bits n (if r' * r' * r' <=? n then r' else r)
  end.

Definition round_constants : list Z :=
  Eval vm_compute in map (λ p, w32 (cube_root 40 (p * 2 ^ 96) 0)) (take 64 primes).

Record sha_state := mkSha { ha : Z; hb : Z; hc : Z; hd : Z; he : Z; hf : Z; hg : Z; hh : Z }.

Definition initial_sha : sha_state :=
  let root n := w32 (Z.sqrt (nth n primes 0 * 2 ^ 64)) in
  mkSha (root 0%nat) (root 1%nat) (root 2%nat) (root 3%nat) (root 4%nat) (root 5%nat) (root 6%nat) (root 7%nat).

Definition sha_round (s : sha_state) (kw : Z * Z) : sha_state :=
  let t1 := hh s + big_sigma1 (he s) + ch (he s) (hf s) (hg s) + fst kw + snd kw in
  let t2 := big_sigma0 (ha s) + maj (ha s) (hb s) (hc s) in
  mkSha (w32 (t1 + t2)) (ha s) (hb s) (hc s) (w32 (hd s + t1)) (he s) (hf s) (hg s).

(** The message schedule, latest word first: the next one is made of the 2nd, 7th, 15th and
    16th before it. *)
Fixpoint schedule (n : nat) (ws : list Z) : list Z :=
  match n with
  | O => ws
  | S n =>
      let at_ i := nth i ws 0 in
      schedule n (w32 (small_sigma1 (at_ 1%nat) + at_ 6%nat + small_sigma0 (at_ 14%nat) + at_ 15%nat) :: ws)
  end.

Definition sha_block (s : sha_state) (words : list Z) : sha_state :=
  let r := foldl sha_round s (zip round_constants (rev (schedule 48 (rev words)))) in
  mkSha (w32 (ha s + ha r)) (w32 (hb s + hb r)) (w32 (hc s + hc r)) (w32 (hd s + hd r))
    (w32 (he s + he r)) (w32 (hf s + hf r)) (w32 (hg s + hg r)) (w32 (hh s + hh r)).

Fixpoint words_of (l : list Z) : list Z :=
  match l with
  | a :: b :: c :: d :: l => (((a * 256 + b) * 256 + c) * 256 + d) :: words_of l
  | _ => []
  end.

Fixpoint blocks (fuel : nat) (s : sha_state) (words : list Z) : sha_state :=
  match fuel, words with
  | O, _ | _, [] => s
  | S fuel, _ => blocks fuel (sha_block s (take 16 words)) (drop 16 words)
  end.

Definition be32 (w : Z) : list Z :=
  [Z.land (Z.shiftr w 24) 255; Z.land (Z.shiftr w 16) 255; Z.land (Z.shiftr w 8) 255; Z.land w 255].

(** The message, a one bit, zeros to eight short of a block, and its length in bits. *)
Definition padded (l : list Z) : list Z :=
  let n := Z.of_nat (length l) in
  l ++ [128] ++ repeat 0 (Z.to_nat ((55 - n) mod 64)) ++ be32 (w32 (Z.shiftr (8 * n) 32)) ++ be32 (w32 (8 * n)).

Definition sha256 (l : list Z) : list Z :=
  let words := words_of (padded l) in
  let s := blocks (length words) initial_sha words in
  concat (map be32 [ha s; hb s; hc s; hd s; he s; hf s; hg s; hh s]).

Lemma sha256_length l : length (sha256 l) = 32%nat.
Proof. reflexivity. Qed.

(** ** RFC 2104 *)

Definition hmac_key (key : list Z) : list Z :=
  let key := if (64 <? length key)%nat then sha256 key else key in
  key ++ repeat 0 (64 - length key).

Definition hmac_sha256 (key message : list Z) : list Z :=
  let k := hmac_key key in
  sha256 (map (Z.lxor 0x5c) k ++ sha256 (map (Z.lxor 0x36) k ++ message)).

Lemma hmac_sha256_length key message : length (hmac_sha256 key message) = 32%nat.
Proof. apply sha256_length. Qed.

(** ** Hexadecimal *)

Definition hex_char (z : Z) : ascii := byte_chr (if z <? 10 then 48 + z else 87 + z).

Fixpoint EncodeToString (l : list Z) : string :=
  match l with
  | [] => ""
  | b :: l => String (hex_char (b / 16)) (String (hex_char (b mod 16)) (EncodeToString l))
  end.

Fixpoint DecodeString (s : string) : option (list Z) :=
  match s with
  | EmptyString => Some []
  | String a (String b s) =>
      match hex_value a, hex_value b, DecodeString s with
      | Some a, Some b, Some l => Some (a * 16 + b :: l)
      | _, _, _ => None
      end
  | _ => None
  end.

Definition is_byte (z : Z) : Prop := 0 <= z < 256.

Lemma be32_bytes w : Forall is_byte (be32 w).
Proof.
  assert (∀ z, is_byte (Z.land z 255)) as H.
  { intros z. change 255 with (Z.ones 8). rewrite Z.land_ones by lia. by apply Z.mod_pos_bound. }
  unfold be32. repeat constructor; apply H.
Qed.

Lemma sha256_bytes l : Forall is_byte (sha256 l).
Proof.
  unfold sha256. generalize (blocks (length (words_of (padded l))) initial_sha (words_of (padded l))).
  intros s. cbn [map concat]. rewrite !Forall_app. repeat split; (apply be32_bytes || constructor).
Qed.

Lemma hex_value_char z : 0 <= z < 16 → hex_value (hex_char z) = Some z.
Proof.
  intros H. assert (z ∈ seqZ 0 16) as Hz by (apply elem_of_seqZ; lia).
  vm_compute seqZ in Hz. repeat (apply elem_of_cons in Hz as [->|Hz]; [reflexivity|]).
  by apply elem_of_nil in Hz.
Qed.

Lemma Decode_Encode l : Forall is_byte l → DecodeString (EncodeToString l) = Some l.
Proof.
  induction 1 as [|b l Hb _ IH]; [done|]. unfold is_byte in Hb. cbn [EncodeToString DecodeString].
  rewrite !hex_value_char, IH; [|apply Z.mod_pos_bound; lia|].
  - f_equal. f_equal. pose proof (Z.div_mod b 16). lia.
  - split; [apply Z.div_pos; lia|apply Z.div_lt_upper_bound; lia].
Qed.

(** ** Test vectors *)

Example sha256_abc : EncodeToString (sha256 (bytes_of "abc")) =
  "ba7816bf8f01cfea414140de5dae2223b00361a396177a9cb410ff61f20015ad".
Proof. vm_compute. reflexivity. Qed.

Example sha256_two_blocks :
  EncodeToString (sha256 (bytes_of "abcdbcdecdefdefgefghfghighijhijkijkljklmklmnlmnomnopnopq")) =
  "248d6a61d20638b8e5c026930c3e6039a33ce45964ff2167f6ecedd419db06c1".
Proof. vm_compute. reflexivity. Qed.

Example hmac_rfc4231_2 :
  EncodeToString (hmac_sha256 (bytes_of "Jefe") (bytes_of "what do ya want for nothing?")) =
  "5bdcc146bf60754e6a042426089575c75a003f089d2739839dec58b964ec3843".
Proof. vm_compute. reflexivity. Qed.

(** ** Identifiers *)

(** [t.UTC().Format("20060102T150405Z")], which is RFC 3339 without its separators. *)
Definition separator (c : ascii) : bool := Ascii.eqb c "-" || Ascii.eqb c ":".
Definition compact (t : Z) : string := string_of_list_ascii (List.filter (λ c, negb (separator c)) (list_ascii_of_string (rfc3339 t))).

(** [New]: [random] is what reading six random bytes gives. *)
Definition New (at_ : Z) (random : gerror + list Z) : gerror + string :=
  match random with
  | inl err => inl (wrap_before "generating an identifier" err)
  | inr suffix => inr (compact at_ +:+ "-" +:+ EncodeToString suffix)
  end.

Example an_identifier : New ((62135596800 + 951782400) * Second) (inr [0; 1; 2; 253; 254; 255]) = inr "20000229T000000Z-000102fdfeff".
Proof. vm_compute. reflexivity. Qed.

(** Two records of one instant whose bytes differ have different identifiers. *)
Lemma different_bytes_differ at_ l l' : Forall is_byte l → Forall is_byte l' → New at_ (inr l) = New at_ (inr l') → l = l'.
Proof.
  intros Hl Hl' H. unfold New in H. injection H as H. apply str_app_inj_l in H. injection H as H.
  apply (f_equal DecodeString) in H. rewrite !Decode_Encode in H by done. by simplify_eq.
Qed.
