(* ===== verification/Sources.v ===== *)
(** The deployment's source catalogue: [src/runtime/internal/sources/sources.go].

    Reading the file and decoding its JSON into entries is an argument of [Load]; everything
    the code decides about the entries is here. *)
From S2P Require Import Prelude GoStr GoTime GoErr Config.

Record Source := mkSource {
  s_Name : string; SignatureHeader : string; SignaturePrefix : string; s_Identity : string;
  ReplayWindow : Z; secretKey : string }.

Definition DefaultReplayWindow : Z := 10 * Minute.

Record Catalog := mkCatalog { entries : gmap string Source; cfg : Config }.

Record entry := mkEntry {
  e_Secret : string; e_SignatureHeader : string; e_SignaturePrefix : string;
  e_Identity : string; e_ReplayWindow : string }.

(** ** The four patterns *)

Definition slug_char (c : ascii) : bool := is_lower c || is_digit c.
Definition name_match (s : string) : bool :=
  match s with
  | String c s => slug_char c && str_all (λ c, slug_char c || Ascii.eqb c "-") s
  | EmptyString => false
  end.

Definition token_char (c : ascii) : bool :=
  is_alnum c || existsb (Ascii.eqb c) (list_ascii_of_string "!#$%&'*+.^_`|~-").
Definition header_match (s : string) : bool := negb (String.eqb s "") && str_all token_char s.

(** After a tilde comes a zero or a one. *)
Fixpoint tilde_escapes (s : string) : bool :=
  match s with
  | EmptyString => true
  | String c s =>
      if Ascii.eqb c "~" then
        match s with
        | String d s => (Ascii.eqb d "0" || Ascii.eqb d "1") && tilde_escapes s
        | EmptyString => false
        end
      else tilde_escapes s
  end.
Definition pointer_match (s : string) : bool :=
  String.eqb s "" || (has_prefix s "/" && tilde_escapes s).

Definition control (c : ascii) : bool := (byte_of c <? 32) || (byte_of c =? 127).

(** The key of a secret reference. *)
Definition secret_match (s : string) : option string :=
  match cut_prefix s "${config." with
  | None => None
  | Some rest =>
      let '(key, rest) :=
        span_str (λ c, negb (Ascii.eqb c "{" || Ascii.eqb c "}" || Ascii.eqb c ".")) rest in
      if negb (String.eqb key "") && String.eqb rest "}" then Some key else None
  end.

(** ** Resolving one entry *)

Definition refuse (sourceName field found accepted : string) : gerror :=
  Text ("source " +:+ quote sourceName +:+ ": " +:+ field +:+ " " +:+ found +:+ "; accepted: " +:+ accepted).

Definition name_problems (sourceName : string) : list gerror :=
  if name_match sourceName then []
  else [refuse sourceName "the name" "is not a lowercase slug"
          "letters, digits and hyphens, starting with a letter or digit"].

Definition header_of (e : entry) (sourceName : string) : list gerror * string :=
  let refuse := refuse sourceName "signature_header" in
  if String.eqb (e_SignatureHeader e) "" then
    ([refuse "is missing" "the header a sender's signature arrives in"], "")
  else if negb (header_match (e_SignatureHeader e)) then
    ([refuse (quote (e_SignatureHeader e) +:+ " is not a valid header field name")
        "a token such as X-Hub-Signature-256"], "")
  else ([], e_SignatureHeader e).

Definition key_of (c : Config) (e : entry) (sourceName : string) : list gerror * string :=
  let refuse := refuse sourceName "secret" in
  if String.eqb (e_Secret e) "" then
    ([refuse "is missing" "a ${config.x} reference to a value set with `gronin config set --secret`"], "")
  else
    match secret_match (e_Secret e) with
    | None =>
        ([refuse (quote (e_Secret e) +:+ " is not a single ${config.x} reference")
            "${config.x} naming a value marked secret, never a literal"], "")
    | Some key =>
        match Get c key with
        | None =>
            ([refuse ("names " +:+ quote key +:+ ", which is not configured")
                ("set it with `gronin config set --secret " +:+ key +:+ "`")], "")
        | Some value =>
            if negb (Secret value) then
              ([refuse ("names " +:+ quote key +:+ ", which is not marked secret")
                  ("a value set with `gronin config set --secret`, so `gronin config list` "
                   +:+ "never prints it")], "")
            else ([], key)
        end
    end.

Definition identity_problems (e : entry) (sourceName : string) : list gerror :=
  let refuse := refuse sourceName "identity" in
  if String.eqb (e_Identity e) "" then []
  else if negb (str_all (λ c, negb (control c)) (e_Identity e)) then
    [refuse (quote (e_Identity e) +:+ " holds a control character")
       "a JSON Pointer into the body, such as /delivery_uuid, with no control characters"]
  else if negb (pointer_match (e_Identity e)) then
    [refuse (quote (e_Identity e) +:+ " is not a JSON Pointer")
       "a JSON Pointer into the body, such as /delivery_uuid"]
  else [].

Definition window_of (e : entry) (sourceName : string) : list gerror * Z :=
  let refuse := refuse sourceName "replay_window" in
  if String.eqb (e_ReplayWindow e) "" then ([], DefaultReplayWindow)
  else
    match ParseDuration (e_ReplayWindow e) with
    | inl _ =>
        ([refuse (quote (e_ReplayWindow e) +:+ " is not a duration") "a duration such as 10m or 30m"],
         DefaultReplayWindow)
    | inr window =>
        if window <=? 0 then
          ([refuse (quote (e_ReplayWindow e) +:+ " is not positive")
              "a duration above zero; a window of nothing repeats detection cannot use"],
           DefaultReplayWindow)
        else ([], window)
    end.

Definition resolve (e : entry) (sourceName : string) (c : Config) : Source * list gerror :=
  let '(header_problems, header) := header_of e sourceName in
  let '(key_problems, key) := key_of c e sourceName in
  let '(window_problems, window) := window_of e sourceName in
  (mkSource sourceName header (e_SignaturePrefix e) (e_Identity e) window key,
   name_problems sourceName ++ header_problems ++ key_problems ++ identity_problems e sourceName
     ++ window_problems).

(** ** The catalogue *)

Fixpoint resolve_all (raw : gmap string entry) (c : Config) (names : list string)
    (problems : list gerror) (entries : gmap string Source) : list gerror * gmap string Source :=
  match names with
  | [] => (problems, entries)
  | sourceName :: names =>
      match raw !! sourceName with
      | None => resolve_all raw c names problems entries
      | Some e =>
          let '(resolved, found) := resolve e sourceName c in
          resolve_all raw c names (problems ++ found) (<[sourceName := resolved]> entries)
      end
  end.

(** [Load]: the file is absent, cannot be read, or holds bytes that decode or do not. *)
Definition Load (read : option (gerror + string)) (decode : string → gerror + gmap string entry)
    (c : Config) : gerror + Catalog :=
  match read with
  | None => inr (mkCatalog ∅ c)
  | Some (inl err) => inl (wrap_before "reading the source catalogue" err)
  | Some (inr data) =>
      match decode data with
      | inl err => inl (wrap_before "parsing the source catalogue" err)
      | inr raw =>
          let '(problems, entries) := resolve_all raw c (sorted_keys raw) [] ∅ in
          match errors_join problems with
          | Some err => inl err
          | None => inr (mkCatalog entries c)
          end
      end
  end.

Definition Names (c : Catalog) : list string := sorted_keys (entries c).
Definition Get_ (c : Catalog) (sourceName : string) : option Source := entries c !! sourceName.

(** The package's own copy of [HumanDuration]. *)
Definition humanDuration (d : Z) : string :=
  let d := round_to d Second in
  if d <=? 0 then "0s"
  else
    String.concat "" (map (λ '(count, unit), if 0 <? count then show_Z count +:+ unit else "")
      [(d / Hour, "h"); (d mod Hour / Minute, "m"); (d mod Minute / Second, "s")]).

Definition Cells (c : Catalog) (sourceName : string) : option (list string) :=
  match entries c !! sourceName with
  | None => None
  | Some source =>
      let identity := if String.eqb (s_Identity source) "" then "digest of the body" else s_Identity source in
      Some ["header " +:+ SignatureHeader source; "identity " +:+ identity;
            "window " +:+ humanDuration (ReplayWindow source)]
  end.

Definition Secret_ (c : Catalog) (sourceName : string) : gerror + string :=
  match entries c !! sourceName with
  | None => inl (Text ("source " +:+ quote sourceName +:+ " is not in the catalogue"))
  | Some source =>
      match Get (cfg c) (secretKey source) with
      | None => inl (Text ("source " +:+ quote sourceName +:+ ": " +:+ quote (secretKey source)
                           +:+ " is no longer configured"))
      | Some value => inr (value_text value)
      end
  end.

(** ** What is loaded *)

(** A source the deployment may hear from. *)
Definition sound (c : Config) (e : entry) (sourceName : string) (source : Source) : Prop :=
  name_match sourceName = true ∧ s_Name source = sourceName ∧
  SignatureHeader source = e_SignatureHeader e ∧ header_match (e_SignatureHeader e) = true ∧
  SignaturePrefix source = e_SignaturePrefix e ∧
  (secret_match (e_Secret e) = Some (secretKey source) ∧
   ∃ value, Get c (secretKey source) = Some value ∧ Secret value = true) ∧
  s_Identity source = e_Identity e ∧ pointer_match (e_Identity e) = true ∧
  str_all (λ c, negb (control c)) (e_Identity e) = true ∧
  (if String.eqb (e_ReplayWindow e) "" then ReplayWindow source = DefaultReplayWindow
   else ParseDuration (e_ReplayWindow e) = inr (ReplayWindow source) ∧ 0 < ReplayWindow source).

Lemma header_of_iff e n h : header_of e n = ([], h) ↔ h = e_SignatureHeader e ∧ header_match h = true.
Proof.
  unfold header_of, header_match. destruct (String.eqb (e_SignatureHeader e) "") eqn:E; simpl.
  { split; [done|]. intros [-> H]. by rewrite E in H. }
  destruct (str_all token_char (e_SignatureHeader e)) eqn:Et; simpl.
  - split; [intros [= <-]; by rewrite E, Et|by intros [-> _]].
  - split; [done|]. intros [-> H]. by rewrite E, Et in H.
Qed.

Lemma key_of_iff c e n k : key_of c e n = ([], k) ↔
  secret_match (e_Secret e) = Some k ∧ ∃ value, Get c k = Some value ∧ Secret value = true.
Proof.
  unfold key_of. destruct (String.eqb (e_Secret e) "") eqn:E; bool_facts.
  { rewrite E. split; [done|]. by intros [[=] _]. }
  destruct (secret_match (e_Secret e)) as [key|]; [|split; [done|by intros [[=] _]]].
  destruct (Get c key) as [value|] eqn:Eg.
  - destruct (Secret value) eqn:Es; simpl.
    + split; [intros [= <-]; eauto|by intros [[= <-] _]].
    + split; [done|]. intros [[= <-] (v & Hv & Hs)]. congruence.
  - split; [done|]. intros [[= <-] (v & Hv & _)]. congruence.
Qed.

Lemma identity_problems_iff e n : identity_problems e n = [] ↔
  pointer_match (e_Identity e) = true ∧ str_all (λ c, negb (control c)) (e_Identity e) = true.
Proof.
  unfold identity_problems, pointer_match. destruct (String.eqb (e_Identity e) "") eqn:E; bool_facts.
  { by rewrite E. }
  simpl. destruct (str_all _ _); simpl; [|split; [done|by intros [_ ?]]].
  destruct (_ && _)%bool; simpl; [done|]. split; [done|by intros [? _]].
Qed.

Lemma window_of_iff e n w : window_of e n = ([], w) ↔
  if String.eqb (e_ReplayWindow e) "" then w = DefaultReplayWindow
  else ParseDuration (e_ReplayWindow e) = inr w ∧ 0 < w.
Proof.
  unfold window_of. destruct (String.eqb _ _); [split; [by intros [= <-]|by intros ->]|].
  destruct (ParseDuration _) as [err|window]; [split; [done|by intros [[=] _]]|].
  destruct (window <=? 0) eqn:Ew; bool_facts.
  - split; [done|]. intros [[= ->] ?]. lia.
  - split; [by intros [= <-]|by intros [[= ->] _]].
Qed.

Lemma resolve_iff c e n source : resolve e n c = (source, []) ↔ sound c e n source.
Proof.
  pose proof (header_of_iff e n) as Hh. pose proof (key_of_iff c e n) as Hk.
  pose proof (window_of_iff e n) as Hw. pose proof (identity_problems_iff e n) as Hi.
  unfold resolve, sound. destruct (header_of e n) as [ph h], (key_of c e n) as [pk k], (window_of e n) as [pw w].
  unfold name_problems. split.
  - intros [= <- H]. simpl. apply app_eq_nil in H as [Hn H]. apply app_eq_nil in H as [-> H].
    apply app_eq_nil in H as [-> H]. apply app_eq_nil in H as [Hid ->].
    destruct (name_match n) eqn:En; [|done]. destruct (proj1 (Hh h) eq_refl) as [-> Hm].
    destruct (proj1 Hi Hid). pose proof (proj1 (Hk k) eq_refl) as [? ?]. pose proof (proj1 (Hw w) eq_refl).
    by split_and!.
  - destruct source as [sn sh sp si sw sk]. simpl.
    intros (Hn & -> & Hsh & Hm & -> & Hkey & -> & Hp & Hc & Hwin). rewrite Hn. simpl.
    rewrite <-Hsh in Hm. pose proof (proj2 (Hh sh) (conj Hsh Hm)) as [= -> ->].
    pose proof (proj2 (Hk sk) Hkey) as [= -> ->]. pose proof (proj2 (Hw sw) Hwin) as [= -> ->].
    by rewrite (proj2 Hi (conj Hp Hc)).
Qed.

Lemma resolve_all_problems raw c names : ∀ problems es,
  fst (resolve_all raw c names problems es) =
  problems ++ concat (map (λ n, match raw !! n with None => [] | Some e => snd (resolve e n c) end) names).
Proof.
  induction names as [|n names IH]; intros problems es; simpl; [by rewrite app_nil_r|].
  destruct (raw !! n) as [e|]; [|apply IH].
  destruct (resolve e n c) as [source found]. rewrite IH. simpl. by rewrite <-app_assoc.
Qed.

Lemma resolve_all_entries raw c names n : ∀ problems es,
  snd (resolve_all raw c names problems es) !! n =
  match raw !! n with
  | Some e => if decide (n ∈ names) then Some (fst (resolve e n c)) else es !! n
  | None => es !! n
  end.
Proof.
  induction names as [|m names IH]; intros problems es; simpl.
  { destruct (raw !! n); [|done]. by destruct (decide (n ∈ [])) as [?%elem_of_nil|]. }
  destruct (raw !! m) as [e|] eqn:Em.
  - destruct (resolve e m c) as [source found] eqn:Er. rewrite IH.
    destruct (decide (n = m)) as [->|Hne].
    + rewrite Em, lookup_insert_eq, Er. simpl.
      rewrite (decide_True (P := m ∈ m :: names)) by left. by destruct (decide _).
    + rewrite lookup_insert_ne by done. destruct (raw !! n); [|done].
      destruct (decide (n ∈ names)), (decide (n ∈ m :: names)); set_solver.
  - rewrite IH. destruct (raw !! n) eqn:En; [|done].
    destruct (decide (n ∈ names)), (decide (n ∈ m :: names)); set_solver.
Qed.

Lemma no_problems {A} (f : A → list gerror) l : concat (map f l) = [] ↔ ∀ x, x ∈ l → f x = [].
Proof.
  induction l as [|x l IH]; simpl; [split; [by intros _ x ?%elem_of_nil|done]|].
  split.
  - intros [Hx Hl]%app_eq_nil y [->|Hy]%elem_of_cons; [done|by apply IH].
  - intros H. rewrite (H x) by left. apply IH. intros y Hy. apply H. by right.
Qed.

Lemma errors_join_none es : errors_join es = None ↔ es = [].
Proof. by destruct es. Qed.

(** The gate of the source catalogue is exact: a file is loaded when every source it declares
    is sound, its secret a configured value marked secret, and refused otherwise; what is
    loaded is those sources and no other, and the secret resolved for one is that value. *)
Theorem Load_is_exact data decode raw c :
  decode data = inr raw →
  ((∃ cat, Load (Some (inr data)) decode c = inr cat) ↔
     ∀ n e, raw !! n = Some e → ∃ source, sound c e n source) ∧
  ∀ cat, Load (Some (inr data)) decode c = inr cat → ∀ n source,
    (Get_ cat n = Some source ↔ ∃ e, raw !! n = Some e ∧ sound c e n source) ∧
    (Get_ cat n = Some source → ∃ value, Get c (secretKey source) = Some value ∧
       Secret value = true ∧ Secret_ cat n = inr (value_text value)).
Proof.
  intros Hd. unfold Load. rewrite Hd.
  pose proof (resolve_all_problems raw c (sorted_keys raw) [] ∅) as Hp.
  pose proof (λ n, resolve_all_entries raw c (sorted_keys raw) n [] ∅) as He.
  destruct (resolve_all raw c (sorted_keys raw) [] ∅) as [problems es]. simpl in Hp, He.
  assert (problems = [] ↔ ∀ n e, raw !! n = Some e → ∃ source, sound c e n source) as Hnone.
  { rewrite Hp, no_problems. setoid_rewrite elem_of_sorted_keys. split.
    - intros H n e Hn. specialize (H n ltac:(eauto)). rewrite Hn in H. exists (fst (resolve e n c)).
      apply resolve_iff. by destruct (resolve e n c); simpl in *; subst.
    - intros H n [e Hn]. rewrite Hn. destruct (H n e Hn) as [source Hs%resolve_iff]. by rewrite Hs. }
  rewrite <-Hnone. destruct (errors_join problems) as [err|] eqn:Ej.
  { split; [|done]. split; [by intros [? ?]|]. intros H. apply errors_join_none in H. congruence. }
  apply errors_join_none in Ej. split; [split; eauto|].
  intros cat [= <-] n source. unfold Get_, Secret_. simpl. specialize (He n).
  assert (es !! n = Some source ↔ ∃ e, raw !! n = Some e ∧ sound c e n source) as Hes.
  { rewrite He. destruct (raw !! n) as [e|] eqn:En.
    - rewrite decide_True by (apply elem_of_sorted_keys; eauto).
      destruct (proj1 Hnone Ej n e En) as [s0 Hs0]. pose proof (proj2 (resolve_iff c e n s0) Hs0) as Hr.
      rewrite Hr. simpl. split; [intros [= <-]; eauto|]. intros (e' & [= <-] & Hs%resolve_iff). congruence.
    - rewrite lookup_empty. split; [done|by intros (e & [=] & _)]. }
  split; [exact Hes|]. intros Hs. destruct (proj1 Hes Hs) as (e & _ & (_ & _ & _ & _ & _ & (_ & v & Hv & Hvs) & _)).
  exists v. by rewrite Hs, Hv.
Qed.

Definition web_config : Config := mkConfig "/state" {[ "hook_key" := mkValue "s3cret" true; "plain" := mkValue "x" false ]}.
Definition web_entry (secret : string) : entry :=
  mkEntry secret "X-Hub-Signature-256" "sha256=" "/delivery/id" "30m".
Definition web_raw : gmap string entry := {[ "forge" := web_entry "${config.hook_key}" ]}.
Definition decoded (raw : gmap string entry) (_ : string) : gerror + gmap string entry := inr raw.

Lemma Load_is_exact_witness :
  (∃ cat, Load (Some (inr "")) (decoded web_raw) web_config = inr cat ∧ Secret_ cat "forge" = inr "s3cret") ∧
  ¬ ∃ cat, Load (Some (inr "")) (decoded {[ "forge" := web_entry "${config.plain}" ]}) web_config = inr cat.
Proof.
  split.
  - destruct (Load_is_exact "" (decoded web_raw) web_raw web_config eq_refl) as [_ H].
    destruct (Load (Some (inr "")) (decoded web_raw) web_config) as [err|cat] eqn:E; [by vm_compute in E|].
    exists cat. split; [done|].
    destruct (proj2 (H cat eq_refl "forge"
      (mkSource "forge" "X-Hub-Signature-256" "sha256=" "/delivery/id" (30 * Minute) "hook_key"))) as (v & Hv & _ & ->).
    + vm_compute in E. injection E as <-. reflexivity.
    + by injection Hv as <-.
  - intros Hcat. apply (proj1 (Load_is_exact "" (decoded {[ "forge" := web_entry "${config.plain}" ]}) _ web_config eq_refl))
      with (n := "forge") (e := web_entry "${config.plain}") in Hcat as (source & Hs); [|reflexivity].
    apply resolve_iff in Hs. by vm_compute in Hs.
Defined.
