(* ===== verification/Ingress.v ===== *)
(** The webhook listener: [src/runtime/internal/ingress].

    A request is what the handler reads of one.  The handler starts the acceptance and waits
    for it or for its timer, whichever is first; [late] says the timer was, and the acceptance
    and its hand-off then complete all the same.  The store, the blob directory, the clock,
    the identifiers and the dispatcher behind the package's interface are what the handler is
    given. *)
From S2P Require Import Prelude GoStr GoTime GoErr GoJson Playbook Loader Values Records Store.
From S2P Require Import Deliveries Sha256 Sources.
From S2P Require Import Deliveries DeliveryOnce.

(** ** Requests *)

(** A canonical header name: an upper-case letter first and after each dash, lower case
    elsewhere; a name that holds anything but token characters is left as it is. *)
Definition lower_char (c : ascii) : ascii := if is_upper c then byte_chr (byte_of c + 32) else c.
Fixpoint canonical_go (upper : bool) (s : string) : string :=
  match s with
  | EmptyString => EmptyString
  | String c s => String (if upper then upper_char c else lower_char c) (canonical_go (Ascii.eqb c "-") s)
  end.
Definition CanonicalHeaderKey (s : string) : string :=
  if str_all token_char s then canonical_go true s else s.

(** A header as [net/http] gives it: canonical names, each once, with their values in order. *)
Definition Header := gmap string (list string).
Definition Header_Values (h : Header) (name : string) : list string := default [] (h !! CanonicalHeaderKey name).

(** [net.SplitHostPort]'s host, [None] when it refuses the address. *)
Fixpoint last_colon (s : string) : option (string * string) :=
  match s with
  | EmptyString => None
  | String c s =>
      match last_colon s with
      | Some (host, port) => Some (String c host, port)
      | None => if Ascii.eqb c ":" then Some (EmptyString, s) else None
      end
  end.
Definition has_char (c : ascii) (s : string) : bool := negb (str_all (λ d, negb (Ascii.eqb d c)) s).

Definition SplitHost (hostport : string) : option string :=
  match last_colon hostport with
  | None => None
  | Some (before, port) =>
      if has_prefix hostport "[" then
        match cut (str_drop 1 hostport) "]" with
        | None => None
        | Some (host, rest) =>
            if negb (String.eqb rest (":" +:+ port)) then None
            else if has_char "[" (str_drop 1 hostport) || has_char "]" rest then None
            else Some host
        end
      else if has_char ":" before then None
      else if has_char "[" hostport || has_char "]" hostport then None
      else Some before
  end.

Record Request := mkRequest {
  q_Path : string; q_Method : string; q_Header : Header; q_Body : gerror + string; q_RemoteAddr : string }.

Definition peerOf (r : Request) : string := default (q_RemoteAddr r) (SplitHost (q_RemoteAddr r)).

Example hosts : map SplitHost ["10.0.0.1:443"; "[::1]:80"; "::1:80"; "host"; "[::1]"; "[a]b:1"; ":9"] =
  [Some "10.0.0.1"; Some "::1"; None; None; None; None; Some ""].
Proof. reflexivity. Qed.
Example canonical_names : map CanonicalHeaderKey ["x-hub-SIGNATURE-256"; "a b"] = ["X-Hub-Signature-256"; "a b"].
Proof. reflexivity. Qed.

(** ** Options *)

Definition DefaultHeaderTimeout : Z := 10 * Second.
Definition DefaultRequestTimeout : Z := 15 * Second.
Definition DefaultDurableStep : Z := 5 * Second.
Definition DefaultAnswerTimeout : Z := 25 * Second.
Definition DefaultMaxHeaderBytes : Z := 16 * 1024.

Record Options := mkOptions {
  HeaderTimeout : Z; RequestTimeout : Z; AnswerTimeout : Z; MaxHeaderBytes : Z; DurableStep : Z }.
Definition DefaultOptions : Options :=
  mkOptions DefaultHeaderTimeout DefaultRequestTimeout DefaultAnswerTimeout DefaultMaxHeaderBytes
    DefaultDurableStep.

(** [NewServer]: what of an [http.Server] is set. *)
Record server := mkServer {
  v_Addr : string; v_ReadHeaderTimeout : Z; v_ReadTimeout : Z; v_WriteTimeout : Z; v_MaxHeaderBytes : Z }.
Definition NewServer (addr : string) (opts : Options) : server :=
  mkServer addr (HeaderTimeout opts) (RequestTimeout opts) (AnswerTimeout opts) (MaxHeaderBytes opts).

(** By default a request read until its last moment still leaves its acceptance the time it may take, and
    the answer some to be written in. *)
Example an_answer_has_time :
  let server := NewServer "127.0.0.1:8080" DefaultOptions in
  v_ReadTimeout server + DurableStep DefaultOptions < v_WriteTimeout server ∧ 0 < v_ReadHeaderTimeout server <= v_ReadTimeout server.
Proof. vm_compute. repeat split; congruence. Qed.

(** ** The signature *)

Definition offeredSignature (header : Header) (source : Source) : list Z :=
  let buffer := repeat 0 32 in
  match Header_Values header (SignatureHeader source) with
  | [value] =>
      match cut_prefix value (SignaturePrefix source) with
      | None => buffer
      | Some value =>
          match DecodeString value with
          | None => buffer
          | Some decoded => if (length decoded =? 32)%nat then decoded else buffer
          end
      end
  | _ => buffer
  end.

Definition VerifySignature (header : Header) (source : Source) (secret body : string) : bool :=
  bool_decide (hmac_sha256 (bytes_of secret) (bytes_of body) = offeredSignature header source).

(** ** The identity *)

Definition digest (body : string) : string := EncodeToString (sha256 (bytes_of body)).

Inductive IdentityOutcome := IdentityFound | IdentityMissing | IdentityNotSingle.

Definition Identity (source : Source) (body : string) : string * string * IdentityOutcome :=
  if String.eqb (s_Identity source) "" then (digest body, IdentityDigest, IdentityFound)
  else
    match AtPointer (json_decode body) (s_Identity source) with
    | ANil => ("", "", IdentityMissing)
    | value =>
        match SingleValue value with
        | None => ("", "", IdentityNotSingle)
        | Some text => (text, IdentityDeclared, IdentityFound)
        end
    end.

(** ** Handing off *)

Definition reasonOf (kind : string) : string :=
  if String.eqb kind ValueAbsent then ReasonValueAbsent
  else if String.eqb kind ValueNotSingle then ReasonValueNotSingle
  else if String.eqb kind ValueTooLong then ReasonValueTooLong
  else if String.eqb kind ValueLeadingDash then ReasonValueLeadingDash
  else ReasonValueNoMatch.

Definition bound_to (sourceName : string) (book : Playbook) : bool :=
  String.eqb (t_Type (p_Trigger book)) "webhook" && String.eqb (t_Source (p_Trigger book)) sourceName.

Definition boundPlaybookNames (loaded : Loaded) (sourceName : string) : list string :=
  map Name (List.filter (bound_to sourceName) (Playbooks loaded)).

(** One state of the loop of [finishDelivery], which walks a map in any order. *)
Definition finish_one (state handoffState : string) : string :=
  if String.eqb handoffState HandOffDropped then DeliveryDropped
  else if String.eqb handoffState HandOffHandedOff || String.eqb handoffState HandOffRefused then state
  else if String.eqb state DeliveryDropped then state else DeliveryWaiting.

Definition finish_state (states : list string) : string :=
  match states with
  | [] => DeliveryUnbound
  | _ => foldl finish_one DeliveryHandedOff states
  end.

Definition finishDelivery (id : string) (states : gmap string string) (s : db) : option gerror * db :=
  SetDeliveryState id (finish_state (map snd (map_to_list states))) s.

Section ingress.
Context (redact : string → string) (regexp : string → string + (string → bool)).
(** What a dispatcher decides, and what it does to the record: its runs, waits and refusals. *)
Context (Dispatch : Playbook → Delivery → gmap string string → db → string * db).
(** The clock and the identifiers, by the number of readings before. *)
Context (now : nat → Z) (new_id : nat → gerror + string).

(** What the loop of [HandOff] decided so far, and what it handed to the dispatcher. *)
Record progress := mkProgress {
  g_states : gmap string string; g_dispatched : list (string * gmap string string); g_db : db }.

(** One playbook of the loop: nothing, when it is not bound or its hand-off is not pending.
    An error ends the loop and leaves what was written before it. *)
Definition hand_off_one (n : nat) (delivery : Delivery) (body : string) (pending : gset string)
    (book : Playbook) (g : progress) : option gerror * progress :=
  let at_db s := mkProgress (g_states g) (g_dispatched g) s in
  if negb (bound_to (d_Source delivery) book) || negb (bool_decide (Name book ∈ pending)) then (None, g)
  else
    match Check_ regexp book (Extract (p_Trigger book) body) with
    | inl (first :: _) =>
        let refusal := mkDeliveryRefusal "" (d_Source delivery) (reasonOf (Kind first)) (v_Name first)
                         (Name book) (d_ID delivery) (now (2 * n)) (d_Peer delivery) "" in
        match AddDeliveryRefusal redact (new_id n) (λ _, inr "") refusal "" (g_db g) with
        | (inl err, s) => (Some err, at_db s)
        | (inr _, s) =>
            match SetHandOffState (d_ID delivery) (Name book) HandOffRefused (now (2 * n + 1)) s with
            | (Some err, s) => (Some err, at_db s)
            | (None, s) => (None, mkProgress (<[Name book := HandOffRefused]> (g_states g)) (g_dispatched g) s)
            end
        end
    | found =>
        let checked := match found with inr checked => checked | inl _ => ∅ end in
        let '(state, s) := Dispatch book delivery checked (g_db g) in
        let sent := g_dispatched g ++ [(Name book, checked)] in
        let decidedAt := if String.eqb state HandOffWaiting then 0 else now (2 * n) in
        match SetHandOffState (d_ID delivery) (Name book) state decidedAt s with
        | (Some err, s) => (Some err, mkProgress (g_states g) sent s)
        | (None, s) => (None, mkProgress (<[Name book := state]> (g_states g)) sent s)
        end
    end.

Fixpoint hand_off_all (n : nat) (delivery : Delivery) (body : string) (pending : gset string)
    (books : list Playbook) (g : progress) : option gerror * progress :=
  match books with
  | [] => (None, g)
  | book :: books =>
      match hand_off_one n delivery body pending book g with
      | (Some err, g) => (Some err, g)
      | (None, g) => hand_off_all (S n) delivery body pending books g
      end
  end.

(** [HandOff]; [get] reads a body back from the blob directory. *)
Definition HandOff (get : string → gerror + string) (loaded : Loaded) (delivery : Delivery) (s : db)
  : option gerror * progress :=
  match get (d_BodyRef delivery) with
  | inl err => (Some err, mkProgress ∅ [] s)
  | inr body =>
      let rows := HandOffsOf (d_ID delivery) s in
      let states := list_to_map (rev (map (λ o, (o_PlaybookName o, o_State o)) rows)) in
      let pending := list_to_set (map o_PlaybookName
                       (List.filter (λ o, String.eqb (o_State o) HandOffPending) rows)) in
      match hand_off_all 0 delivery body pending (Playbooks loaded) (mkProgress states [] s) with
      | (Some err, g) => (Some err, g)
      | (None, g) =>
          let '(err, s) := finishDelivery (d_ID delivery) (g_states g) (g_db g) in
          (err, mkProgress (g_states g) (g_dispatched g) s)
      end
  end.

(** ** The handler *)

Record Answer := mkAnswer { a_Status : Z; a_Text : string }.
Definition notFound : Answer := mkAnswer 404 "not found".
Definition refused : Answer := mkAnswer 403 "refused".
Definition badRequest (reason : string) : Answer := mkAnswer 400 ("refused: " +:+ reason).
Definition accepted : Answer := mkAnswer 202 "accepted".
Definition notAccepted : Answer := mkAnswer 503 "not accepted; retry".

(** What a request came to: its answer, the record when the acceptance had completed, and
    what was handed off after it. *)
Record Served := mkServed {
  v_answer : Answer; v_committed : db; v_dispatched : list (string * gmap string string); v_db : db }.

Definition answered (a : Answer) (s : db) : option Served := Some (mkServed a s [] s).

(** What the handler is built with. *)
Record Handler := mkHandler {
  h_Sources : Catalog; h_Secret : string → gerror + string; h_Loaded : Loaded; h_Instance : string;
  h_Options : Options; h_Alive : option (string → bool) }.

Definition durableStep (h : Handler) : Z :=
  if 0 <? DurableStep (h_Options h) then DurableStep (h_Options h) else DefaultDurableStep.

Context (h : Handler) (put get : string → gerror + string) (mint : gerror + string).

(** [accept]; [took] is how long the acceptance took, and its answer is the acceptance's when
    it came within the durable step. *)
Definition accept (took : Z) (sourceName identity kind body peer : string) (at_ : Z) (source : Source)
    (s : db) : option Served :=
  let params := mkAcceptParams sourceName identity kind body peer at_ (h_Instance h) (ReplayWindow source)
                  (boundPlaybookNames (h_Loaded h) sourceName) in
  match Accept redact digest mint put new_id (h_Alive h) params s with
  | None => None
  | Some (result, s1) =>
      let '(sent, s2) :=
        match result with
        | inr (delivery, true) =>
            let '(_, g) := HandOff get (h_Loaded h) delivery s1 in (g_dispatched g, g_db g)
        | _ => ([], s1)
        end in
      let answer :=
        if durableStep h <? took then notAccepted
        else match result with inl _ => notAccepted | inr _ => accepted end in
      Some (mkServed answer s1 sent s2)
  end.

Definition routePrefix : string := "/hooks/".

Definition ServeHTTP (took : Z) (wall : Z) (r : Request) (s : db) : option Served :=
  match cut_prefix (q_Path r) routePrefix with
  | None => answered notFound s
  | Some sourceName =>
      if String.eqb sourceName "" || has_char "/" sourceName then answered notFound s
      else if negb (String.eqb (q_Method r) "POST") then answered notFound s
      else
        match Get_ (h_Sources h) sourceName with
        | None => answered refused s
        | Some source =>
            match h_Secret h sourceName with
            | inl _ => answered refused s
            | inr secret =>
                match q_Body r with
                | inl _ => answered refused s
                | inr body =>
                    if negb (VerifySignature (q_Header r) source secret body) then answered refused s
                    else
                      let '(identity, kind, outcome) := Identity source body in
                      match outcome with
                      | IdentityFound => accept took sourceName identity kind body (peerOf r) wall source s
                      | _ =>
                          let reason := match outcome with IdentityNotSingle => ReasonIdentityNotSingle
                                        | _ => ReasonIdentityAbsent end in
                          let refusal := mkDeliveryRefusal "" sourceName reason "" "" "" wall (peerOf r) "" in
                          match AddDeliveryRefusal redact (new_id 0) put refusal body s with
                          | (inl _, s) => answered notAccepted s
                          | (inr _, s) => answered (badRequest reason) s
                          end
                      end
                end
            end
        end
  end.
End ingress.

(** ** What the webhook listener promises: only a signed request has any effect, an accepted
    answer means the delivery is on record, every bound playbook is decided by its own values,
    and a delivery's state is its hand-offs'. *)

(** ** The signature *)

(** One signature, which is the prefix and the hexadecimal of the body's MAC. *)
Definition signed (header : Header) (source : Source) (secret body : string) : Prop :=
  ∃ hex, Header_Values header (SignatureHeader source) = [SignaturePrefix source +:+ hex] ∧
    DecodeString hex = Some (hmac_sha256 (bytes_of secret) (bytes_of body)).

Lemma cut_prefix_Some s p r : cut_prefix s p = Some r ↔ s = p +:+ r.
Proof.
  unfold cut_prefix. split.
  - destruct (has_prefix s p) eqn:E; [|done]. intros [= <-]. by apply has_prefix_drop.
  - intros ->. rewrite (proj2 (has_prefix_spec _ p)) by eauto. by rewrite str_drop_app.
Qed.

Lemma VerifySignature_signed header source secret body :
  hmac_sha256 (bytes_of secret) (bytes_of body) ≠ repeat 0 32 →
  VerifySignature header source secret body = true ↔ signed header source secret body.
Proof.
  intros Hz. unfold VerifySignature, signed, offeredSignature. rewrite bool_decide_eq_true. split.
  - destruct (Header_Values _ _) as [|value [|]]; try done.
    destruct (cut_prefix value _) as [hex|] eqn:Ec; [|done]. apply cut_prefix_Some in Ec as ->.
    destruct (DecodeString hex) as [decoded|] eqn:Ed; [|done]. destruct (_ =? _)%nat; [|done].
    intros ->. eauto.
  - intros (hex & -> & Hd). rewrite (proj2 (cut_prefix_Some _ _ hex) eq_refl), Hd.
    by rewrite hmac_sha256_length.
Qed.

(** ** One request *)

Section serve.
Context (redact : string → string) (regexp : string → string + (string → bool)).
Context (Dispatch : Playbook → Delivery → gmap string string → db → string * db).
Context (now : nat → Z) (new_id : nat → gerror + string).
Context (h : Handler) (put get : string → gerror + string) (mint : gerror + string).

Definition serve := ServeHTTP redact regexp Dispatch now new_id h put get mint.

(** A branch that answers at once. *)
Ltac nothing :=
  match goal with H : answered _ _ = Some _ |- _ =>
    left; injection H as <-; split; [by (left + right)|done] end.

(** C29: Only a request signed with its source's secret has any effect or any other answer than
    not found or refused: a POST to the one route of a configured source, whose one signature
    is the MAC of the exact bytes of its body. *)
Theorem only_a_signed_request_is_served took wall r s v :
  serve took wall r s = Some v →
  (∀ name secret body, h_Secret h name = inr secret → q_Body r = inr body →
     hmac_sha256 (bytes_of secret) (bytes_of body) ≠ repeat 0 32) →
  (v_answer v = notFound ∨ v_answer v = refused) ∧ v_db v = s ∧ v_dispatched v = [] ∨
  ∃ name source secret body,
    q_Path r = routePrefix +:+ name ∧ q_Method r = "POST" ∧ Get_ (h_Sources h) name = Some source ∧
    h_Secret h name = inr secret ∧ q_Body r = inr body ∧ signed (q_Header r) source secret body.
Proof.
  unfold serve, ServeHTTP. intros H Hz.
  destruct (cut_prefix (q_Path r) routePrefix) as [name|] eqn:Ep; [|nothing].
  apply cut_prefix_Some in Ep.
  destruct (String.eqb name "" || has_char "/" name)%bool; [nothing|].
  destruct (String.eqb (q_Method r) "POST") eqn:Em; simpl in H; [|nothing]. bool_facts.
  destruct (Get_ (h_Sources h) name) as [source|] eqn:Eg; [|nothing].
  destruct (h_Secret h name) as [err|secret] eqn:Es; [nothing|].
  destruct (q_Body r) as [err|body] eqn:Eb; [nothing|].
  destruct (VerifySignature (q_Header r) source secret body) eqn:Ev; simpl in H; [|nothing].
  right. exists name, source, secret, body. apply VerifySignature_signed in Ev; [by split_and!|by eapply Hz].
Qed.

(** ** The acceptance *)

Lemma judge_identities alive e params s fresh sup s1 :
  judge new_id alive e params s = inr ((fresh, sup), s1) →
  NoDup (map key (handoffs s)) →
  delivery_identities s1 = delivery_identities s ∧ map d_ID (deliveries s1) = map d_ID (deliveries s).
Proof.
  unfold judge. intros H Hnd. repeat (case_match; simplify_eq; try done);
    match goal with E : reconcileDelivery _ _ _ _ = inr _ |- _ =>
      apply reconcileDelivery_spec in E as (-> & _ & _ & state & ->); [|done];
      split; [done|]; by apply (map_update _ _ d_ID) end.
Qed.

(** What an accepted delivery leaves on record: it itself, a new row that its identity points to; *)
Definition recorded (params : AcceptParams) (identity : string) (s s' : db) : Prop :=
  ∃ d, d ∈ deliveries s' ∧ d_ID d ∉ map d_ID (deliveries s) ∧
    delivery_identities s' !! (redact (p_Source params), identity) = Some (d_ID d, p_ReceivedAt params) ∧
    d_Source d = redact (p_Source params) ∧ d_Identity d = identity ∧ d_ReceivedAt d = p_ReceivedAt params ∧
    put (d_ID d) = inr (d_BodyRef d) ∧ d_BodySHA256 d = digest (p_Body params) ∧ d_State d = DeliveryAccepted.

(** or a repeat counted of one its identity points to, accepted less than the source's window before
    and not dropped. *)
Definition repeated (params : AcceptParams) (identity : string) (s s' : db) : Prop :=
  ∃ d at_ d', d ∈ deliveries s ∧
    delivery_identities s !! (redact (p_Source params), identity) = Some (d_ID d, at_) ∧
    delivery_identities s' !! (redact (p_Source params), identity) = Some (d_ID d, at_) ∧
    time_sub (p_ReceivedAt params) at_ < p_ReplayWindow params ∧
    d' ∈ deliveries s' ∧ d_ID d' = d_ID d ∧ d_Repeats d' = d_Repeats d + 1 ∧ d_State d' ≠ DeliveryDropped.

Lemma judge_repeats alive d at_ params s sup s1 :
  d ∈ deliveries s → NoDup (map d_ID (deliveries s)) → NoDup (map key (handoffs s)) →
  judge new_id alive (with_received at_ d) params s = inr ((false, sup), s1) →
  time_sub (p_ReceivedAt params) at_ < p_ReplayWindow params ∧
  ∃ d1, d1 ∈ deliveries s1 ∧ d_ID d1 = d_ID d ∧ d_Repeats d1 = d_Repeats d ∧ d_State d1 ≠ DeliveryDropped.
Proof.
  intros Hd Hids Hkeys H. unfold judge in H. cbn [d_ReceivedAt d_State d_ID d_Instance with_received] in H.
  destruct (_ <=? _) eqn:Ew; [done|]. apply Z.leb_gt in Ew. split; [done|].
  destruct (String.eqb (d_State d) DeliveryDropped) eqn:Es; [done|]. bool_facts.
  destruct (_ && _)%bool; [simplify_eq; by exists d|].
  destruct (match alive with None => true | Some probe => probe (d_Instance d) end); [simplify_eq; by exists d|].
  destruct (reconcileDelivery _ _ _ _) as [err|s2] eqn:Er; [done|]. simpl in H.
  apply reconcileDelivery_spec in Er as (_ & _ & _ & state & Ed); [|done].
  pose proof (find_by_id (deliveries s2) (d_ID d)) as Hf.
  destruct (List.find _ _) as [d2|]; [|done]. destruct Hf as [Hin Hi].
  destruct (String.eqb (d_State d2) DeliveryDropped) eqn:E2; bool_facts; simplify_eq.
  exists d2. split_and!; [done|done| |done]. rewrite Ed in Hin. unfold update_deliveries in Hin. cbn [deliveries set_deliveries] in Hin.
  apply elem_of_update in Hin as (x & Hx & [[Hp ->]|[Hp ->]]); cbn in Hi |- *;
    by rewrite (elem_of_by_id d_ID (deliveries s) x d Hids Hx Hd Hi).
Qed.

(** An acceptance that returns no error has recorded the delivery or counted a repeat of one. *)
Lemma Accept_identity alive params s dead r s' :
  deliveries_ok redact (mkWorld s dead) →
  Accept redact digest mint put new_id alive params s = Some (inr r, s') →
  let identity := if String.eqb (p_IdentityKind params) "" then digest (p_Body params)
                  else redact (p_Identity params) in
  recorded params identity s s' ∨ repeated params identity s s'.
Proof.
  intros Hok H. unfold Accept in H. destruct (IsZero _); [done|]. cbv zeta in *.
  assert ((if negb (String.eqb (p_IdentityKind params) "") then redact (p_Identity params)
           else digest (p_Body params)) =
          (if String.eqb (p_IdentityKind params) "" then digest (p_Body params)
           else redact (p_Identity params))) as Ei by (by destruct (String.eqb _ _)).
  rewrite Ei in H. clear Ei. set (identity := if String.eqb _ _ then _ else _) in *. clearbody identity.
  assert (∀ kind sup names s1 d s2, map d_ID (deliveries s1) = map d_ID (deliveries s) →
    record_new redact digest mint put params (redact (p_Source params)) identity kind sup names s1 = inr (d, s2) →
    recorded params identity s s2) as Hnew.
  { intros kind sup names s1 d s2 Hsame Hr. pose proof (record_new_row _ _ _ _ _ _ _ _ _ _ _ _ _ Hr) as (? & ? & ? & ? & ?).
    apply record_new_spec in Hr as (_ & ? & _ & Hid & Hd & Hi & _).
    exists d. rewrite Hi, Hd, <- Hsame. split_and!; try done; [set_solver|apply lookup_insert_eq]. }
  destruct (existingDelivery _ _ s) as [err|found] eqn:Ee; [done|].
  destruct (match found with None => _ | Some e => _ end) as [err|[[[|] sup] s1]] eqn:Ej; [done|..].
  - destruct (if String.eqb sup "" then _ else _) as [[err|names]|]; [done| |done].
    destruct (record_new _ _ _ _ _ _ _ _ _ _ _) as [err|[d s2]] eqn:Er; simplify_eq. left. eapply Hnew; [|exact Er].
    destruct found as [e|]; [|by simplify_eq]. by destruct (judge_identities _ _ _ _ _ _ _ Ej (k_keys _ _ Hok)).
  - destruct found as [e|]; [|done]. simplify_eq. right.
    destruct (judge_identities _ _ _ _ _ _ _ Ej (k_keys _ _ Hok)) as [Hi Hd].
    unfold existingDelivery in Ee. destruct (_ !! _) as [[id at_]|] eqn:El; [|done].
    pose proof (find_by_id (deliveries s) id) as Hf. destruct (List.find _ _) as [d|]; [|done]. destruct Hf as [Hin <-].
    injection Ee as <-.
    destruct (judge_repeats alive d at_ params s sup s1 Hin) as (Hw & d1 & Hin1 & Hi1 & Hr1 & Hs1);
      [apply (chained_ids _ _ (k_chained _ _ Hok))|apply (k_keys _ _ Hok)|exact Ej|].
    exists d, at_, (with_repeats (d_Repeats d1 + 1) d1). split_and!; [done|done|cbn; by rewrite Hi|done| |done|cbn; by rewrite Hr1|done].
    unfold update_deliveries. cbn [deliveries set_deliveries]. apply elem_of_update. exists d1. split; [done|left].
    split; [|done]. unfold by_id. cbn. by apply String.eqb_eq.
Qed.

(** The one identity a source reads in a body: the digest of its bytes, or the one value its pointer
    finds there. *)
Definition identified (source : Source) (body identity : string) : Prop :=
  (s_Identity source = "" ∧ identity = digest body) ∨
  (s_Identity source ≠ "" ∧ ∃ value, AtPointer (json_decode body) (s_Identity source) = value ∧ value ≠ ANil ∧
     SingleValue value = Some identity).

Lemma Identity_found source body identity kind : Identity source body = (identity, kind, IdentityFound) →
  identified source body identity ∧ kind ≠ "".
Proof.
  unfold Identity, identified. destruct (String.eqb_spec (s_Identity source) "") as [E|E]; [intros [= <- <-]; by split; [left|]|].
  intros H. assert (∃ value, AtPointer (json_decode body) (s_Identity source) = value ∧ value ≠ ANil ∧
    SingleValue value = Some identity ∧ kind = IdentityDeclared) as (value & H1 & H2 & H3 & ->).
  { exists (AtPointer (json_decode body) (s_Identity source)). split; [done|].
    destruct (AtPointer _ _) eqn:Ea; [done|..];
      match type of H with context [SingleValue ?v] => destruct (SingleValue v) eqn:Es end; by simplify_eq. }
  split; [right; split; [done|]; by exists value|done].
Qed.

(** C30: Every request is answered, and an accepted answer means the delivery is on record: its
    acceptance came within the durable step, the request was for a configured source, its body has
    the one identity the source reads, and when the acceptance had completed either the delivery
    was recorded, a new row with its source, its identity, the digest of its body and the blob it
    was put in, which its identity points to, or it was counted as a repeat of the delivery its
    identity points to, which was accepted less than the source's window before and is not
    dropped. *)
Theorem accepted_means_recorded took wall r s dead :
  reachable redact digest (mkWorld s dead) → truthful (h_Alive h) dead →
  ∃ v, serve took wall r s = Some v ∧
    (v_answer v = accepted →
     took <= durableStep h ∧
     ∃ name source body identity params,
       q_Path r = routePrefix +:+ name ∧ Get_ (h_Sources h) name = Some source ∧ q_Body r = inr body ∧
       identified source body identity ∧
       p_Source params = name ∧ p_Body params = body ∧ p_ReceivedAt params = wall ∧ p_ReplayWindow params = ReplayWindow source ∧
       (recorded params (redact identity) s (v_committed v) ∨ repeated params (redact identity) s (v_committed v))).
Proof.
  intros Hok%reachable_ok Halive. unfold serve, ServeHTTP.
  destruct (cut_prefix (q_Path r) routePrefix) as [name|] eqn:Ep; [|by eexists].
  apply cut_prefix_Some in Ep.
  destruct (_ || _)%bool; [by eexists|]. destruct (negb (String.eqb _ _)); [by eexists|].
  destruct (Get_ (h_Sources h) name) as [source|] eqn:Eg; [|by eexists].
  destruct (h_Secret h name) as [err|secret]; [by eexists|].
  destruct (q_Body r) as [err|body] eqn:Eb; [by eexists|].
  destruct (negb (VerifySignature _ _ _ _)); [by eexists|].
  destruct (Identity source body) as [[identity kind] outcome] eqn:Ei.
  destruct outcome;
    [|destruct (AddDeliveryRefusal _ _ _ _ _ _) as [[err|id] s1]; by eexists..].
  unfold accept. set (params := mkAcceptParams _ _ _ _ _ _ _ _ _).
  destruct (Accept_ends redact digest mint put new_id (h_Alive h) params s dead Hok Halive)
    as (res & s1 & Ea & _).
  rewrite Ea. destruct (match res with inr (delivery, true) => _ | _ => _ end) as [sent s2].
  eexists. split; [reflexivity|]. simpl. destruct (durableStep h <? took) eqn:Et; [done|].
  destruct res as [err|res]; [done|]. intros _. bool_facts. split; [done|].
  apply Identity_found in Ei as [Hid Hkind].
  pose proof (Accept_identity _ _ _ _ _ _ Hok Ea) as Hon. simpl in Hon. rewrite (proj2 (String.eqb_neq _ _) Hkind) in Hon.
  by exists name, source, body, identity, params.
Qed.

(** ** The hand-off *)

(** What a playbook's own binding, hand-off and values come to. *)
Definition verdict (delivery : Delivery) (body : string) (pending : gset string) (book : Playbook)
  : option (list ValueRefusal + gmap string string) :=
  if bound_to (d_Source delivery) book && bool_decide (Name book ∈ pending)
  then Some (Check_ regexp book (Extract (p_Trigger book) body)) else None.
Definition sent_to (delivery : Delivery) (body : string) (pending : gset string) (book : Playbook)
  : option (string * gmap string string) :=
  match verdict delivery body pending book with
  | Some (inr checked) => Some (Name book, checked)
  | _ => None
  end.

Lemma Check_refuses_with_a_reason book values : Check_ regexp book values ≠ inl [].
Proof. unfold Check_. destruct (check_all _ _ _ _ _ _ _) as [[|refusal l] checked]; done. Qed.

Lemma hand_off_one_spec n delivery body pending book g g' :
  hand_off_one redact regexp Dispatch now new_id n delivery body pending book g = (None, g') →
  g_dispatched g' = g_dispatched g ++ option_list (sent_to delivery body pending book) ∧
  (∀ name, name ≠ Name book → g_states g' !! name = g_states g !! name) ∧
  (∀ refusals, verdict delivery body pending book = Some (inl refusals) →
     g_states g' !! Name book = Some HandOffRefused) ∧
  (verdict delivery body pending book = None → g' = g).
Proof.
  unfold hand_off_one, sent_to, verdict.
  destruct (bound_to _ book); simpl; [|intros [= <-]; by rewrite app_nil_r].
  destruct (bool_decide _); simpl; [|intros [= <-]; by rewrite app_nil_r].
  pose proof (Check_refuses_with_a_reason book (Extract (p_Trigger book) body)) as Hne.
  destruct (Check_ _ _ _) as [[|first rest]|checked]; [done|..].
  - destruct (AddDeliveryRefusal _ _ _ _ _ _) as [[err|id] s1]; [done|].
    destruct (SetHandOffState _ _ _ _ _) as [[err|] s2]; [done|]. intros [= <-]. simpl.
    split_and!; [by rewrite app_nil_r| |intros _ _; apply lookup_insert_eq|done].
    intros name Hn. by rewrite lookup_insert_ne.
  - destruct (Dispatch _ _ _ _) as [state s1].
    destruct (SetHandOffState _ _ _ _ _) as [[err|] s2]; [done|]. intros [= <-]. simpl.
    split_and!; [done| |done|done]. intros name Hn. by rewrite lookup_insert_ne.
Qed.

Lemma hand_off_all_spec delivery body pending books : ∀ n g g',
  hand_off_all redact regexp Dispatch now new_id n delivery body pending books g = (None, g') →
  g_dispatched g' = g_dispatched g ++ omap (sent_to delivery body pending) books ∧
  (∀ name, name ∉ map Name books → g_states g' !! name = g_states g !! name) ∧
  (NoDup (map Name books) → ∀ book refusals, book ∈ books →
     verdict delivery body pending book = Some (inl refusals) →
     g_states g' !! Name book = Some HandOffRefused).
Proof.
  induction books as [|book books IH]; intros n g g' H; simpl in H.
  { simplify_eq. rewrite app_nil_r. split_and!; [done|done|]. by intros _ b r ?%elem_of_nil. }
  destruct (hand_off_one _ _ _ _ _ _ _ _ _ _ _) as [[err|] g1] eqn:E1; [done|].
  apply hand_off_one_spec in E1 as (Hd1 & Hs1 & Hr1 & _). apply IH in H as (Hd & Hs & Hr).
  split_and!.
  - rewrite Hd, Hd1, <-app_assoc. simpl. by destruct (sent_to _ _ _ book).
  - intros name Hn. simpl in Hn. apply not_elem_of_cons in Hn as [Hn1 Hn2]. by rewrite Hs, Hs1.
  - intros [Hnot Hnd]%NoDup_cons b refusals [->|Hb]%elem_of_cons Hv; [|by eapply Hr].
    rewrite Hs by done. by eapply Hr1.
Qed.

(** A hand-off decides every bound playbook still pending by its own values and no other's:
    those whose values check are dispatched, once each, in the order they were loaded and with
    what was checked, and those whose values do not are refused. *)
Theorem every_playbook_is_decided_alone loaded delivery s g :
  HandOff redact regexp Dispatch now new_id get loaded delivery s = (None, g) →
  NoDup (map Name (Playbooks loaded)) →
  ∃ body pending,
    get (d_BodyRef delivery) = inr body ∧
    (∀ name, name ∈ pending ↔ ∃ o, o ∈ handoffs s ∧ o_DeliveryID o = d_ID delivery ∧
       o_PlaybookName o = name ∧ o_State o = HandOffPending) ∧
    g_dispatched g = omap (sent_to delivery body pending) (Playbooks loaded) ∧
    ∀ book refusals, book ∈ Playbooks loaded →
      verdict delivery body pending book = Some (inl refusals) →
      g_states g !! Name book = Some HandOffRefused.
Proof.
  unfold HandOff. intros H Hnd. destruct (get _) as [err|body]; [done|].
  set (pending := list_to_set _ : gset string) in H.
  destruct (hand_off_all _ _ _ _ _ _ _ _ _ _ _) as [[err|] g1] eqn:E; [done|].
  destruct (finishDelivery _ _ _) as [err s2]. injection H as -> <-. simpl.
  apply hand_off_all_spec in E as (Hd & _ & Hr). exists body, pending. split_and!; [done| |done|].
  - intros name. unfold pending. rewrite elem_of_list_to_set, list_elem_of_fmap. split.
    + intros (o & -> & Ho). rewrite list_elem_of_In, filter_In, <-list_elem_of_In in Ho.
      destruct Ho as [Ho Hp]. unfold HandOffsOf in Ho. rewrite order_by_perm in Ho.
      rewrite list_elem_of_In, filter_In, <-list_elem_of_In in Ho. destruct Ho as [Ho Hi].
      bool_facts. by exists o.
    + intros (o & Ho & Hi & Hn & Hs). exists o. split; [done|].
      rewrite list_elem_of_In, filter_In, <-list_elem_of_In. split; [|by rewrite Hs].
      unfold HandOffsOf. rewrite order_by_perm, list_elem_of_In, filter_In, <-list_elem_of_In.
      split; [done|]. by rewrite Hi, String.eqb_refl.
  - intros book refusals Hb Hv. by eapply Hr.
Qed.
End serve.

(** ** The delivery's state *)

Definition settled_state (state : string) : bool :=
  String.eqb state HandOffHandedOff || String.eqb state HandOffRefused.

Lemma finish_fold states : ∀ state, state ∈ [DeliveryHandedOff; DeliveryWaiting; DeliveryDropped] →
  foldl finish_one state states =
  if existsb (String.eqb HandOffDropped) states then DeliveryDropped
  else if String.eqb state DeliveryDropped then DeliveryDropped
  else if forallb settled_state states then state else DeliveryWaiting.
Proof.
  induction states as [|x states IH]; intros state Hs; cbn [foldl existsb forallb].
  { destruct (String.eqb state DeliveryDropped) eqn:E; bool_facts; done. }
  unfold finish_one at 2, settled_state at 1. rewrite (String.eqb_sym HandOffDropped x).
  destruct (String.eqb x HandOffDropped) eqn:Ex; simpl.
  { rewrite IH by set_solver. by destruct (existsb _ _). }
  destruct (String.eqb x HandOffHandedOff || String.eqb x HandOffRefused) eqn:Ey; simpl.
  { by rewrite IH. }
  destruct (String.eqb state DeliveryDropped) eqn:Ed.
  { rewrite IH, Ed by done. by destruct (existsb _ _). }
  rewrite IH by set_solver. simpl. destruct (existsb _ _); [done|]. by destruct (forallb _ _).
Qed.

(** A delivery's state is read from its hand-offs in any order: unbound when it has none,
    dropped when any was dropped, handed off when every one is decided, and waiting
    otherwise. *)
Theorem finish_reads_every_hand_off states :
  finish_state states =
    if bool_decide (states = []) then DeliveryUnbound
    else if bool_decide (HandOffDropped ∈ states) then DeliveryDropped
    else if bool_decide (Forall (λ state, state = HandOffHandedOff ∨ state = HandOffRefused) states)
    then DeliveryHandedOff else DeliveryWaiting.
Proof.
  unfold finish_state. destruct states as [|x states]; [done|].
  rewrite finish_fold by left. rewrite (bool_decide_eq_false_2 (x :: states = [])) by done.
  assert (existsb (String.eqb HandOffDropped) (x :: states) = bool_decide (HandOffDropped ∈ x :: states)) as ->.
  { apply eq_bool_prop_intro. rewrite !Is_true_true, bool_decide_eq_true, existsb_exists. split.
    - intros (y & Hy%list_elem_of_In & <-%String.eqb_eq). done.
    - intros Hin. exists HandOffDropped. by rewrite <-list_elem_of_In, String.eqb_refl. }
  assert (forallb settled_state (x :: states) =
    bool_decide (Forall (λ state, state = HandOffHandedOff ∨ state = HandOffRefused) (x :: states))) as ->; [|done].
  apply eq_bool_prop_intro. rewrite !Is_true_true, bool_decide_eq_true, forallb_forall, Forall_forall.
  unfold settled_state. setoid_rewrite orb_true_iff. setoid_rewrite String.eqb_eq.
  by setoid_rewrite list_elem_of_In.
Qed.

(** ** One signed delivery *)

Definition hook_body : string := replace_all "{'delivery':{'id':'evt-7'},'path':'/var/log'}" "'" dq.
Definition hook_source : Source :=
  mkSource "forge" "X-Hub-Signature-256" "sha256=" "/delivery/id" (30 * Minute) "hook_key".
Definition hook_signature : string := EncodeToString (hmac_sha256 (bytes_of "s3cret") (bytes_of hook_body)).
Definition hook_request : Request :=
  mkRequest "/hooks/forge" "POST" {[ "X-Hub-Signature-256" := ["sha256=" +:+ hook_signature] ]}
    (inr hook_body) "10.0.0.1:4711".

Definition hook_book (name pattern : string) : Playbook :=
  mkPlaybook name "" (mkTrigger "webhook" "" "forge" {[ "path" := mkTriggerValue "/path" pattern 64 ]}) []
    (mkAgent "" "" None [] [] [] ANil "") [] None [] (name +:+ ".yaml").
Definition hook_loaded : Loaded := mkLoaded [hook_book "disk" "any"; hook_book "mail" "none"] [].

(** A pattern that matches any text, and one that matches none. *)
Definition two_patterns (pattern : string) : string + (string → bool) :=
  inr (λ _, String.eqb pattern "^(?:any)$").
Definition starts (_ : Playbook) (_ : Delivery) (_ : gmap string string) (s : db) : string * db :=
  (HandOffHandedOff, s).
Definition hook_handler : Handler :=
  mkHandler (mkCatalog {[ "forge" := hook_source ]} web_config) (λ _, inr "s3cret") hook_loaded "p1"
    DefaultOptions None.
Definition hook_clock (n : nat) : Z := Hour + Z.of_nat n.
Definition hook_id (n : nat) : gerror + string := inr ("y" +:+ show_nat n).

Definition hook_serve (s : db) : option Served :=
  serve same two_patterns starts hook_clock hook_id hook_handler put_blob (λ _, inr hook_body) (inr "d1")
    Millisecond Hour hook_request s.

Definition hook_served : Served :=
  match hook_serve empty_db with Some v => v | None => mkServed notFound empty_db [] empty_db end.

Lemma hook_served_eq : hook_serve empty_db = Some hook_served.
Proof. vm_compute. reflexivity. Qed.

Lemma hook_answer : v_answer hook_served = accepted.
Proof. vm_compute. reflexivity. Qed.

Lemma hook_mac_not_zero :
  bool_decide (hmac_sha256 (bytes_of "s3cret") (bytes_of hook_body) = repeat 0 32) = false.
Proof. vm_compute. reflexivity. Qed.

Lemma only_a_signed_request_is_served_witness :
  ∃ name source secret body,
    q_Path hook_request = routePrefix +:+ name ∧ q_Method hook_request = "POST" ∧
    Get_ (h_Sources hook_handler) name = Some source ∧ h_Secret hook_handler name = inr secret ∧
    q_Body hook_request = inr body ∧ signed (q_Header hook_request) source secret body.
Proof.
  destruct (only_a_signed_request_is_served same two_patterns starts hook_clock hook_id hook_handler put_blob
              (λ _, inr hook_body) (inr "d1") Millisecond Hour hook_request empty_db hook_served hook_served_eq)
    as [[[H|H] _]|H].
  - intros name secret body [= <-] [= <-]. exact (proj1 (bool_decide_eq_false _) hook_mac_not_zero).
  - rewrite hook_answer in H. discriminate H.
  - rewrite hook_answer in H. discriminate H.
  - exact H.
Defined.

Lemma accepted_means_recorded_witness :
  ∃ v, hook_serve empty_db = Some v ∧ v_answer v = accepted ∧
    ∃ identity params, identified hook_source hook_body identity ∧ p_Source params = "forge" ∧
      p_Body params = hook_body ∧ recorded same put_blob params (same identity) empty_db (v_committed v).
Proof.
  destruct (accepted_means_recorded same two_patterns starts hook_clock hook_id hook_handler put_blob
              (λ _, inr hook_body) (inr "d1") Millisecond Hour hook_request empty_db ∅) as (v & Hv & H).
  - apply rtc_refl.
  - by intros probe i [=].
  - exists v. assert (v_answer v = accepted) as Ha.
    { change (hook_serve empty_db = Some v) in Hv. rewrite hook_served_eq in Hv. apply (inj Some) in Hv.
      rewrite <-Hv. exact hook_answer. }
    split; [exact Hv|]. split; [exact Ha|].
    destruct (H Ha) as (_ & name & source & body & identity & params & Hp & Hs & Hb & Hi & Hn & Hbody & _ & _ & Hr).
    exists identity, params. injection Hp as <-. apply (inj inr) in Hb. subst body.
    assert (Get_ (h_Sources hook_handler) "forge" = Some hook_source) as Hs2 by (vm_compute; reflexivity).
    rewrite Hs2 in Hs. apply (inj Some) in Hs. subst source. split; [exact Hi|]. split; [exact Hn|]. split; [exact Hbody|].
    destruct Hr as [Hr|(d & at_ & d' & Hd & _)]; [exact Hr|exact (False_ind _ (not_elem_of_nil d Hd))].
Defined.

(** The delivery as it was recorded, before its hand-off. *)
Definition hook_delivery : Delivery :=
  mkDelivery "d1" "forge" "evt-7" IdentityDeclared Hour "10.0.0.1" "blob/d1" (digest hook_body) 0 "p1" ""
    DeliveryAccepted.
Definition hook_committed : db :=
  set_handoffs [pending_row same "d1" "disk"; pending_row same "d1" "mail"] (set_deliveries [hook_delivery] empty_db).

Definition hook_handed : option gerror * progress :=
  HandOff same two_patterns starts hook_clock hook_id (λ _, inr hook_body) hook_loaded hook_delivery hook_committed.

Lemma hook_handed_eq : hook_handed = (None, snd hook_handed).
Proof. vm_compute. reflexivity. Qed.

Lemma hook_verdict book pending :
  bound_to "forge" book = true → Name book ∈ pending →
  verdict two_patterns hook_delivery hook_body pending book =
  Some (Check_ two_patterns book (Extract (p_Trigger book) hook_body)).
Proof. intros Hb Hp. unfold verdict. cbn [d_Source hook_delivery]. by rewrite Hb, bool_decide_eq_true_2. Qed.

Definition hook_values (book : Playbook) := Check_ two_patterns book (Extract (p_Trigger book) hook_body).

Lemma hook_disk : hook_values (hook_book "disk" "any") = inr {[ "path" := "/var/log" ]}.
Proof. vm_compute. reflexivity. Qed.

Lemma hook_mail : ∃ refusals, hook_values (hook_book "mail" "none") = inl refusals.
Proof. eexists. vm_compute. reflexivity. Qed.

Lemma hook_pending name : name ∈ ["disk"; "mail"] →
  ∃ o, o ∈ handoffs hook_committed ∧ o_DeliveryID o = d_ID hook_delivery ∧ o_PlaybookName o = name ∧
       o_State o = HandOffPending.
Proof.
  intros H. exists (pending_row same "d1" name). split; [|done].
  change (handoffs hook_committed) with (map (pending_row same "d1") ["disk"; "mail"]).
  apply list_elem_of_fmap. eauto.
Qed.

Lemma every_playbook_is_decided_alone_witness :
  g_dispatched (snd hook_handed) = [("disk", {[ "path" := "/var/log" ]})] ∧
  g_states (snd hook_handed) !! "mail" = Some HandOffRefused.
Proof.
  destruct (every_playbook_is_decided_alone same two_patterns starts hook_clock hook_id (λ _, inr hook_body)
              hook_loaded hook_delivery hook_committed _ hook_handed_eq) as (body & pending & Hb & Hp & Hd & Hr).
  { by apply (bool_decide_unpack _). }
  apply (inj inr) in Hb. subst body.
  assert ("disk" ∈ pending ∧ "mail" ∈ pending) as [Hdisk Hmail].
  { split; apply Hp; apply hook_pending; [left|right; left]. }
  pose proof (hook_verdict (hook_book "disk" "any") pending eq_refl Hdisk) as Hv1.
  pose proof (hook_verdict (hook_book "mail" "none") pending eq_refl Hmail) as Hv2.
  destruct hook_mail as [refusals Hno].
  fold (hook_values (hook_book "disk" "any")) in Hv1. rewrite hook_disk in Hv1.
  fold (hook_values (hook_book "mail" "none")) in Hv2. rewrite Hno in Hv2. split.
  - rewrite Hd. change (Playbooks hook_loaded) with [hook_book "disk" "any"; hook_book "mail" "none"].
    unfold omap, list_omap, sent_to. rewrite Hv1, Hv2. reflexivity.
  - specialize (Hr (hook_book "mail" "none") refusals ltac:(right; left) Hv2).
    change (Name (hook_book "mail" "none")) with "mail" in Hr. exact Hr.
Defined.
