(* ===== verification/RunRecords.v ===== *)
(** What a run leaves behind: the gathered inputs, tool calls, refused actions and sink outcomes
    of [runs.go], [retrievals.go], [reports.go] and [blobs.go], in
    [src/runtime/internal/record].

    Each table is a list of rows beside the run they belong to, with the key its migration
    declares; a statement its keys refuse changes nothing.  Blobs are files, by their path. *)
From S2P Require Import Prelude GoStr GoTime GoPath GoErr Records Store Sha256.
From Stdlib Require Import QArith.
Open Scope Z_scope.

(** ** Rows *)

Record GatheredInput := mkGatheredInput {
  i_Name : string; i_BlobRef : string; i_Bytes : Z; i_Truncated : bool; i_ExitCode : Z;
  i_StderrRef : string }.

Record ToolCallRow := mkToolCallRow {
  t_Sequence : Z; t_Name : string; t_InputRef : string; t_OutputRef : string; t_StartedAt : Z;
  t_DurationMS : Z; t_Outcome : string }.

Record RefusedAction := mkRefusedAction { a_Sequence : Z; a_Tool : string; a_Asked : string }.

Record SinkOutcome := mkSinkOutcome {
  k_Sink : string; k_Status : string; k_ItemsCreated : Z; k_ItemsSkipped : Z; k_Detail : string }.

Record RetrievedItem := mkRetrievedItem {
  j_Rank : Z; j_Score : Q; j_Source : string; j_Ordinal : Z; j_Offset : Z; j_ContentRef : string }.

Record Retrieval := mkRetrieval {
  v_Sequence : Z; v_AsName : string; v_Collection : string; v_Mode : string;
  v_Generation : string; v_GenerationBuiltAt : Z; v_Identity : string; v_Query : string;
  v_QueryTruncated : bool; v_Outcome : string; v_ResultsRef : string; v_ResultsBytes : Z;
  v_CountTruncated : bool; v_BytesTruncated : bool; v_Error : string; v_Items : list RetrievedItem }.

Definition RetrievalLexical : string := "lexical".
Definition RetrievalSemantic : string := "semantic".
Definition RetrievalFound : string := "found".
Definition RetrievalEmpty : string := "empty".
Definition RetrievalRefused : string := "refused".

Definition with_items (items : list RetrievedItem) (v : Retrieval) : Retrieval :=
  mkRetrieval (v_Sequence v) (v_AsName v) (v_Collection v) (v_Mode v) (v_Generation v)
    (v_GenerationBuiltAt v) (v_Identity v) (v_Query v) (v_QueryTruncated v) (v_Outcome v)
    (v_ResultsRef v) (v_ResultsBytes v) (v_CountTruncated v) (v_BytesTruncated v) (v_Error v) items.

(** The tables; a retrieval's row holds no items, which are rows of their own. *)
Record tables := mkTables {
  gathered_inputs : list (string * GatheredInput);
  tool_calls : list (string * ToolCallRow);
  refused_actions : list (string * RefusedAction);
  sink_outcomes : list (string * SinkOutcome);
  retrievals : list (string * Retrieval);
  retrieved_items : list ((string * Z) * RetrievedItem) }.
Definition empty_tables : tables := mkTables [] [] [] [] [] [].

(** [INSERT] into a table keyed by its owner and a column of the row. *)
Definition insert_row {O R K} `{EqDecision O, EqDecision K} (key : R → K) (name : string) (owned : bool)
    (owner : O) (row : R) (table : list (O * R)) : gerror + list (O * R) :=
  if existsb (λ r, bool_decide (fst r = owner) && bool_decide (key (snd r) = key row)) table then
    inl (Text ("constraint failed: UNIQUE constraint failed: " +:+ name))
  else if negb owned then inl foreign_failed
  else inr (table ++ [(owner, row)]).

(** [SELECT ... WHERE owner = ? ORDER BY key] *)
Definition rows_of {O R} `{EqDecision O} (le : R → R → bool) (owner : O) (table : list (O * R)) : list R :=
  order_by le (map snd (List.filter (λ r, bool_decide (fst r = owner)) table)).

Section run_records.
Context (redact : string → string) (known : string → bool).

(** What a statement that may be refused leaves: its error, and the tables after it. *)
Definition stored (t : tables) (r : gerror + tables) : option gerror * tables :=
  match r with inl err => (Some err, t) | inr t' => (None, t') end.

Definition AddGatheredInput (runID : string) (input : GatheredInput) (t : tables) : option gerror * tables :=
  let row := mkGatheredInput (redact (i_Name input)) (i_BlobRef input) (i_Bytes input)
               (i_Truncated input) (i_ExitCode input) (i_StderrRef input) in
  stored t (let* rows := insert_row i_Name "gathered_inputs.run_id, gathered_inputs.name" (known runID)
                           runID row (gathered_inputs t) in
            inr (mkTables rows (tool_calls t) (refused_actions t) (sink_outcomes t) (retrievals t)
                   (retrieved_items t))).

Definition GatheredInputs (runID : string) (t : tables) : list GatheredInput :=
  rows_of (λ a b, String.leb (i_Name a) (i_Name b)) runID (gathered_inputs t).

Definition AddToolCall (runID : string) (call : ToolCallRow) (t : tables) : option gerror * tables :=
  let row := mkToolCallRow (t_Sequence call) (redact (t_Name call)) (t_InputRef call)
               (t_OutputRef call) (t_StartedAt call) (t_DurationMS call) (redact (t_Outcome call)) in
  stored t (let* rows := insert_row t_Sequence "tool_calls.run_id, tool_calls.sequence" (known runID)
                           runID row (tool_calls t) in
            inr (mkTables (gathered_inputs t) rows (refused_actions t) (sink_outcomes t)
                   (retrievals t) (retrieved_items t))).

Definition ToolCalls (runID : string) (t : tables) : list ToolCallRow :=
  rows_of (λ a b, t_Sequence a <=? t_Sequence b) runID (tool_calls t).

Definition AddRefusedAction (runID : string) (action : RefusedAction) (t : tables)
  : option gerror * tables :=
  let row := mkRefusedAction (a_Sequence action) (redact (a_Tool action)) (redact (a_Asked action)) in
  stored t (let* rows := insert_row a_Sequence "refused_actions.run_id, refused_actions.sequence"
                           (known runID) runID row (refused_actions t) in
            inr (mkTables (gathered_inputs t) (tool_calls t) rows (sink_outcomes t) (retrievals t)
                   (retrieved_items t))).

Definition RefusedActions (runID : string) (t : tables) : list RefusedAction :=
  rows_of (λ a b, a_Sequence a <=? a_Sequence b) runID (refused_actions t).

Definition AddSinkOutcome (runID : string) (outcome : SinkOutcome) (t : tables) : option gerror * tables :=
  let row := mkSinkOutcome (redact (k_Sink outcome)) (k_Status outcome) (k_ItemsCreated outcome)
               (k_ItemsSkipped outcome) (redact (k_Detail outcome)) in
  stored t (let* rows := insert_row k_Sink "sink_outcomes.run_id, sink_outcomes.sink" (known runID)
                           runID row (sink_outcomes t) in
            inr (mkTables (gathered_inputs t) (tool_calls t) (refused_actions t) rows (retrievals t)
                   (retrieved_items t))).

Definition SinkOutcomes (runID : string) (t : tables) : list SinkOutcome :=
  rows_of (λ a b, String.leb (k_Sink a) (k_Sink b)) runID (sink_outcomes t).

(** *** [retrievals.go] *)

Fixpoint add_items (runID : string) (sequence : Z) (items : list RetrievedItem)
    (table : list ((string * Z) * RetrievedItem)) : gerror + list ((string * Z) * RetrievedItem) :=
  match items with
  | [] => inr table
  | item :: items =>
      let row := mkRetrievedItem (j_Rank item) (j_Score item) (redact (j_Source item))
                   (j_Ordinal item) (j_Offset item) (j_ContentRef item) in
      match insert_row j_Rank
              "retrieved_items.run_id, retrieved_items.sequence, retrieved_items.rank" (known runID)
              (runID, sequence) row table with
      | inl err => inl (wrap_before ("recording result " +:+ show_Z (j_Rank item) +:+ " of retrieval "
                                     +:+ show_Z sequence +:+ " of run " +:+ runID) err)
      | inr table => add_items runID sequence items table
      end
  end.

Definition redacted_retrieval (v : Retrieval) : Retrieval :=
  mkRetrieval (v_Sequence v) (redact (v_AsName v)) (redact (v_Collection v)) (v_Mode v)
    (v_Generation v) (v_GenerationBuiltAt v) (v_Identity v) (redact (v_Query v))
    (v_QueryTruncated v) (v_Outcome v) (v_ResultsRef v) (v_ResultsBytes v) (v_CountTruncated v)
    (v_BytesTruncated v) (redact (v_Error v)) [].

(** One transaction: a row its keys refuse leaves none of it. *)
Definition AddRetrieval (runID : string) (retrieval : Retrieval) (t : tables) : option gerror * tables :=
  stored t
    (match insert_row v_Sequence "retrievals.run_id, retrievals.sequence" (known runID) runID
             (redacted_retrieval retrieval) (retrievals t) with
     | inl err => inl (wrap_before ("recording retrieval " +:+ show_Z (v_Sequence retrieval)
                                    +:+ " of run " +:+ runID) err)
     | inr rows =>
         let* items := add_items runID (v_Sequence retrieval) (v_Items retrieval) (retrieved_items t) in
         inr (mkTables (gathered_inputs t) (tool_calls t) (refused_actions t) (sink_outcomes t) rows items)
     end).

Definition retrievedItems (runID : string) (sequence : Z) (t : tables) : list RetrievedItem :=
  rows_of (λ a b, j_Rank a <=? j_Rank b) (runID, sequence) (retrieved_items t).

Definition Retrievals (runID : string) (t : tables) : list Retrieval :=
  map (λ v, with_items (retrievedItems runID (v_Sequence v) t) v)
    (rows_of (λ a b, v_Sequence a <=? v_Sequence b) runID (retrievals t)).

(** *** [reports.go] *)

Record IndexableReport := mkIndexableReport { x_RunID : string; x_ReportRef : string }.

Definition indexable (names : list string) (run : Run) : bool :=
  existsb (String.eqb (u_PlaybookName run)) names
  && negb (String.eqb (u_ReportRef run) "") && String.eqb (u_ParentRunID run) "".

Definition IndexableReports (playbooks : list string) (rows : list Run) : list IndexableReport :=
  match playbooks with
  | [] => []
  | _ => map (λ run, mkIndexableReport (u_ID run) (u_ReportRef run))
           (order_by (λ a b, String.leb (u_ID a) (u_ID b))
              (List.filter (indexable (map redact playbooks)) rows))
  end.

End run_records.

(** ** Blobs *)

Definition safe_char (c : ascii) : bool :=
  is_alnum c || Ascii.eqb c "." || Ascii.eqb c "_" || Ascii.eqb c "-".

(** A pattern of one alphanumeric character and at most 127 safe ones. *)
Definition safeName (name : string) : bool :=
  match name with
  | EmptyString => false
  | String c rest => is_alnum c && str_all safe_char rest && (String.length rest <=? 127)%nat
  end.

Record Blobs := mkBlobs { b_dir : string; b_redact : string → string }.

Definition blob_name (name : string) : string :=
  if safeName name then name
  else "x-" +:+ EncodeToString (take 8 (sha256 (bytes_of name))).

(** [disk] is what making the directory and writing the file come to. *)
Definition Put (b : Blobs) (disk : option gerror * option gerror) (runID name data : string)
    (files : gmap string string) : (gerror + string) * gmap string string :=
  if negb (safeName runID) then
    (inl (Text ("run id " +:+ quote runID +:+ " cannot name a directory")), files)
  else
    let name := blob_name name in
    let dir := Join [b_dir b; runID] in
    match disk with
    | (Some err, _) => (inl (wrap_before "creating the run's blob directory" err), files)
    | (None, Some err) => (inl (wrap_before ("writing blob " +:+ name) err), files)
    | (None, None) => (inr (Join [runID; name]), <[Join [dir; name] := b_redact b data]> files)
    end.

(** [filepath.Abs], in the process's working directory. *)
Definition Abs (cwd path : string) : string := if IsAbs path then Clean path else Join [cwd; path].

Fixpoint rel_elements (base target : list string) : list string :=
  match base, target with
  | b :: base', t :: target' =>
      if String.eqb b t then rel_elements base' target' else map (λ _, "..") base ++ target
  | _, _ => map (λ _, "..") base ++ target
  end.

(** [filepath.Rel] of two absolute paths. *)
Definition Rel (base target : string) : string :=
  match rel_elements (clean_elements true base) (clean_elements true target) with
  | [] => "."
  | elements => join elements "/"
  end.

Definition resolve (cwd : string) (b : Blobs) (ref : string) : gerror + string :=
  let root := Abs cwd (b_dir b) in
  let path := Abs cwd (Join [root; ref]) in
  let inside := Rel root path in
  if String.eqb inside ".." || has_prefix inside "../" then
    inl (Text ("blob reference " +:+ quote ref +:+ " resolves outside the blob directory"))
  else inr path.

Definition no_such_file (path : string) : gerror :=
  Wrap ("open " +:+ path +:+ ": no such file or directory") [Sentinel "file does not exist"].

Definition Get (cwd : string) (b : Blobs) (ref : string) (files : gmap string string) : gerror + string :=
  let* path := resolve cwd b ref in
  match files !! path with Some data => inr data | None => inl (no_such_file path) end.

Definition Remove (b : Blobs) (runID : string) (files : gmap string string)
  : option gerror * gmap string string :=
  if negb (safeName runID) then
    (Some (Text ("run id " +:+ quote runID +:+ " cannot name a directory")), files)
  else (None, filter (λ kv, has_prefix (fst kv) (Join [b_dir b; runID] +:+ "/") = false) files).

(** ** Lemmas on paths *)

Definition rooted (l : list string) : string := "/" +:+ join (rev l) "/".

Lemma walk_rooted l : Forall normal l → walk [] (rooted l) = l.
Proof.
  intros H. unfold rooted. rewrite rooted_join_walk by by apply Forall_rev. apply rev_involutive.
Qed.

Lemma Clean_walk p : IsAbs p = true → Clean p = rooted (walk [] p).
Proof. intros H. by apply Clean_rooted. Qed.

Lemma walk_Clean p : IsAbs p = true → walk [] (Clean p) = walk [] p.
Proof. intros H. rewrite Clean_walk by done. apply walk_rooted, walk_rooted_normal. Qed.

Lemma IsAbs_rooted l : IsAbs (rooted l) = true.
Proof. done. Qed.

Lemma IsAbs_app p q : IsAbs p = true → IsAbs (p +:+ q) = true.
Proof. intros (t & ->)%has_prefix_spec. done. Qed.

Lemma Join_rooted p q : IsAbs p = true → Join [p; q] = rooted (walk (walk [] p) q).
Proof.
  intros H. unfold Join. destruct (String.eqb p "") eqn:E; [by bool_facts; subst|].
  change (join [p; q] "/") with (p +:+ "/" +:+ q).
  rewrite Clean_walk by by apply IsAbs_app. by rewrite walk_under.
Qed.

Lemma Clean_rooted_id l : Forall normal l → Clean (rooted l) = rooted l.
Proof. intros H. by rewrite Clean_walk, walk_rooted. Qed.

Lemma walk_stays_normal st p : Forall normal st → Forall normal (walk st p).
Proof. intros H. unfold walk. rewrite split_slash. by apply walk_normal; [apply split_on_all|]. Qed.

Lemma walk_one st c : normal c → walk st c = c :: st.
Proof.
  intros (H1 & H2 & H3 & H4). unfold walk. rewrite split_slash, split_on_none by done. simpl.
  unfold cd. by rewrite (proj2 (String.eqb_neq _ _) H1), (proj2 (String.eqb_neq _ _) H2),
    (proj2 (String.eqb_neq _ _) H3).
Qed.

Lemma walk_two st a b : normal a → normal b → walk st (a +:+ "/" +:+ b) = b :: a :: st.
Proof. intros Ha Hb. by rewrite walk_under, (walk_one st), walk_one. Qed.

Lemma safe_char_slash c : safe_char c = true → negb (Ascii.eqb c "/") = true.
Proof.
  intros H. apply negb_true_iff. destruct (Ascii.eqb c "/") eqn:E; [|done].
  apply Ascii.eqb_eq in E as ->. discriminate.
Qed.

Lemma alnum_safe c : is_alnum c = true → safe_char c = true.
Proof. intros H. unfold safe_char. by rewrite H. Qed.

Lemma safeName_normal name : safeName name = true → normal name.
Proof.
  destruct name as [|c rest]; [done|]. simpl. intros [[Hc Hr]%andb_prop _]%andb_prop.
  repeat split.
  - done.
  - intros [= -> ->]. discriminate.
  - intros [= -> ->]. discriminate.
  - simpl. rewrite (safe_char_slash c) by by apply alnum_safe. simpl.
    eapply str_all_impl; [|exact Hr]. apply safe_char_slash.
Qed.

Lemma hex_char_safe z : 0 <= z < 16 → safe_char (hex_char z) = true.
Proof.
  intros H. assert (z ∈ seqZ 0 16) as Hz by (apply elem_of_seqZ; lia).
  vm_compute seqZ in Hz. repeat (apply elem_of_cons in Hz as [->|Hz]; [reflexivity|]).
  by apply elem_of_nil in Hz.
Qed.

Lemma encoded_safe l : Forall is_byte l → str_all safe_char (EncodeToString l) = true.
Proof.
  induction 1 as [|b l Hb _ IH]; [done|]. unfold is_byte in Hb. cbn [EncodeToString str_all].
  rewrite !hex_char_safe, IH; [done|apply Z.mod_pos_bound; lia|].
  split; [apply Z.div_pos; lia|apply Z.div_lt_upper_bound; lia].
Qed.

Lemma encoded_normal l : Forall is_byte l → normal ("x-" +:+ EncodeToString l).
Proof.
  intros H. repeat split; [done..|]. simpl. eapply str_all_impl; [|by apply encoded_safe].
  apply safe_char_slash.
Qed.

Lemma blob_name_normal name : normal (blob_name name).
Proof.
  unfold blob_name. destruct (safeName name) eqn:E; [by apply safeName_normal|].
  apply encoded_normal, Forall_take, sha256_bytes.
Qed.

(** ** References resolve inside the directory *)

Lemma rel_elements_inside base target :
  Forall normal target → (∀ t, rel_elements base target ≠ ".." :: t) →
  ∃ rest, target = base ++ rest.
Proof.
  revert target. induction base as [|b base IH]; intros target Hn H; simpl in *.
  { by exists target. }
  destruct target as [|t target]; simpl in *; [by destruct (H _ eq_refl)|].
  destruct (String.eqb b t) eqn:E; [|by destruct (H _ eq_refl)]. bool_facts. subst.
  apply Forall_cons in Hn as [_ Hn]. destruct (IH target Hn H) as [rest ->]. by exists rest.
Qed.

Lemma Rel_inside base target :
  String.eqb (Rel base target) ".." || has_prefix (Rel base target) "../" = false →
  ∃ rest, clean_elements true target = clean_elements true base ++ rest.
Proof.
  intros H. apply rel_elements_inside.
  { rewrite clean_elements_rooted. apply Forall_rev, walk_rooted_normal. }
  intros t Ht. unfold Rel in H. rewrite Ht in H. destruct t as [|x t].
  - discriminate H.
  - rewrite join_cons in H. discriminate H.
Qed.

(** A reference never leaves the blob directory: what a reference resolves to, whatever its
    text, is a path whose directories begin with those of the blob directory. *)
Theorem resolve_stays_inside cwd b ref path :
  IsAbs (b_dir b) = true → resolve cwd b ref = inr path →
  path = rooted (walk [] path) ∧ ∃ below, walk [] path = below ++ walk [] (b_dir b).
Proof.
  unfold resolve, Abs. intros Hd. rewrite Hd.
  assert (IsAbs (Clean (b_dir b)) = true) as Hc by by rewrite Clean_walk.
  rewrite Join_rooted, IsAbs_rooted, walk_Clean by done.
  assert (Forall normal (walk (walk [] (b_dir b)) ref)) as Hn
    by apply walk_stays_normal, walk_rooted_normal.
  rewrite Clean_rooted_id by done. destruct (_ || _) eqn:E; [done|].
  intros H. apply (inj inr) in H. subst path.
  apply Rel_inside in E as [rest E]. rewrite !clean_elements_rooted, walk_Clean in E by done.
  rewrite walk_rooted in * by done. split; [done|]. exists (rev rest).
  apply (f_equal (@rev string)) in E. by rewrite rev_app_distr, !rev_involutive in E.
Qed.

Definition example_blobs : Blobs := mkBlobs "/var/gronin/blobs" (λ text, text).

Lemma resolve_stays_inside_witness :
  resolve "/" example_blobs "../../../etc/shadow" ≠ inr "/etc/shadow" ∧
  ∃ path, resolve "/" example_blobs "r1/../r2/./prompt.txt" = inr path ∧
    path = "/var/gronin/blobs/r2/prompt.txt" ∧
    ∃ below, walk [] path = below ++ walk [] (b_dir example_blobs).
Proof.
  split; [vm_compute; discriminate|]. exists "/var/gronin/blobs/r2/prompt.txt".
  assert (resolve "/" example_blobs "r1/../r2/./prompt.txt" = inr "/var/gronin/blobs/r2/prompt.txt") as E
    by (vm_compute; reflexivity).
  split; [exact E|]. split; [reflexivity|].
  exact (proj2 (resolve_stays_inside "/" example_blobs _ _ eq_refl E)).
Defined.

(** Where a blob is put, and what its reference resolves to. *)
Definition blob_path (b : Blobs) (runID name : string) : string :=
  rooted (blob_name name :: runID :: walk [] (b_dir b)).

Lemma Put_path b disk runID name data files ref files' :
  IsAbs (b_dir b) = true → Put b disk runID name data files = (inr ref, files') →
  normal runID ∧ ref = runID +:+ "/" +:+ blob_name name ∧
  files' = <[blob_path b runID name := b_redact b data]> files.
Proof.
  unfold Put. intros Hd. destruct (safeName runID) eqn:Es; [|done]. apply safeName_normal in Es.
  pose proof (blob_name_normal name) as Hn. simpl negb. cbn iota.
  destruct disk as [[|] [|]]; try done. intros H. apply (inj2 pair) in H as [Href <-].
  apply (inj inr) in Href. split; [done|]. split.
  - rewrite <- Href. unfold Join. destruct (String.eqb runID "") eqn:E; [by bool_facts; destruct Es|].
    change (join _ "/") with (runID +:+ "/" +:+ blob_name name). unfold Clean, clean_elements.
    assert (IsAbs (runID +:+ "/" +:+ blob_name name) = false) as ->.
    { destruct Es as (Es & _ & _ & Es'). destruct runID as [|c runID]; [done|].
      unfold IsAbs. simpl in *. apply andb_prop in Es' as [Es' _]. by apply negb_true_iff in Es' as ->. }
    change ("/" +:+ blob_name name) with (String "/" (blob_name name)).
    rewrite split_slash, split_on_app by apply Es. rewrite split_on_none by apply Hn. cbn [foldl].
    destruct Es as (E1 & E2 & E3 & _), Hn as (N1 & N2 & N3 & _). unfold clean_step.
    rewrite (proj2 (String.eqb_neq _ _) E1), (proj2 (String.eqb_neq _ _) E2),
      (proj2 (String.eqb_neq _ _) E3), (proj2 (String.eqb_neq _ _) N1),
      (proj2 (String.eqb_neq _ _) N2), (proj2 (String.eqb_neq _ _) N3). simpl.
    by destruct (String.eqb (runID +:+ _) "") eqn:E'; [bool_facts; destruct runID|].
  - unfold blob_path. f_equal. rewrite (Join_rooted (b_dir b)), (walk_one _ runID) by done.
    rewrite Join_rooted, walk_rooted, walk_one by (done || by constructor; [|apply walk_rooted_normal]).
    done.
Qed.

Lemma rel_elements_under base rest : rel_elements base (base ++ rest) = rest.
Proof. induction base as [|b base IH]; simpl; [done|]. by rewrite String.eqb_refl. Qed.

Lemma resolve_put cwd b runID name :
  IsAbs (b_dir b) = true → normal runID →
  resolve cwd b (runID +:+ "/" +:+ blob_name name) = inr (blob_path b runID name).
Proof.
  intros Hd Hr. pose proof (blob_name_normal name) as Hn. unfold resolve, Abs. rewrite Hd.
  assert (IsAbs (Clean (b_dir b)) = true) as Hc by by rewrite Clean_walk.
  rewrite Join_rooted, IsAbs_rooted, walk_Clean, walk_two by done. fold (blob_path b runID name).
  assert (Forall normal (blob_name name :: runID :: walk [] (b_dir b))) as Hl.
  { repeat constructor; try apply Hn; try apply Hr. apply walk_rooted_normal. }
  assert (Clean (blob_path b runID name) = blob_path b runID name) as ->.
  { unfold blob_path. by rewrite Clean_walk, walk_rooted. }
  unfold Rel. rewrite !clean_elements_rooted, walk_Clean by done. unfold blob_path at 1 2.
  rewrite walk_rooted by done. cbn [rev]. rewrite <- app_assoc, rel_elements_under.
  cbn [app]. rewrite join_cons. cbn [join String.concat].
  destruct Hr as (R1 & R2 & R3 & R4).
  destruct (String.eqb (runID +:+ "/" +:+ blob_name name) "..") eqn:E1.
  { exfalso. bool_facts. destruct runID as [|c [|d [|e r]]]; simpl in *; try done; by inversion E1; subst. }
  destruct (has_prefix (runID +:+ "/" +:+ blob_name name) "../") eqn:E2; [|done].
  exfalso. destruct runID as [|c [|d [|e r]]]; simpl in *; try done;
    repeat match goal with H : _ && _ = true |- _ => apply andb_prop in H as [? ?] end;
    repeat match goal with H : Ascii.eqb _ _ = true |- _ => apply Ascii.eqb_eq in H; subst end; done.
Qed.

Lemma rooted_inj l l' : Forall normal l → Forall normal l' → rooted l = rooted l' → l = l'.
Proof. intros Hl Hl' H. by rewrite <- (walk_rooted l), <- (walk_rooted l'), H. Qed.

(** A blob reads back as it was put: what a reference made for a run and a name gives is the
    data put there, redacted, until that run puts another under a name of the same file, and a
    name that cannot be a file is one by its digest. *)
Theorem a_blob_reads_back cwd b disk runID name data files ref files' :
  IsAbs (b_dir b) = true → Put b disk runID name data files = (inr ref, files') →
  Get cwd b ref files' = inr (b_redact b data) ∧
  ∀ disk' runID' name' data' result files'',
    (runID', blob_name name') ≠ (runID, blob_name name) →
    Put b disk' runID' name' data' files' = (result, files'') →
    Get cwd b ref files'' = inr (b_redact b data).
Proof.
  intros Hd Hp. pose proof (Put_path _ _ _ _ _ _ _ _ Hd Hp) as (Hr & -> & ->).
  unfold Get. rewrite resolve_put by done. split; [by rewrite lookup_insert_eq|].
  intros disk' runID' name' data' result files'' Hne Hp'.
  destruct result as [err|ref'].
  - unfold Put in Hp'. destruct (safeName runID'); simpl in Hp'; [|simplify_eq; by rewrite lookup_insert_eq].
    destruct disk' as [[|] [|]]; simplify_eq; by rewrite lookup_insert_eq.
  - apply Put_path in Hp' as (Hr' & _ & ->); [|done].
    rewrite lookup_insert_ne, lookup_insert_eq; [done|]. intros Heq. apply Hne.
    pose proof (blob_name_normal name) as Hn. pose proof (blob_name_normal name') as Hn'.
    apply rooted_inj in Heq; [congruence| |]; repeat constructor;
      (apply walk_rooted_normal || apply Hn || apply Hn' || apply Hr || apply Hr').
Qed.

Lemma a_blob_reads_back_witness :
  ∃ ref files, Put example_blobs (None, None) "r1" "trigger values.json" "{}" ∅ = (inr ref, files) ∧
    Get "/" example_blobs ref files = inr "{}".
Proof.
  destruct (Put example_blobs (None, None) "r1" "trigger values.json" "{}" ∅) as [[err|ref] files] eqn:E.
  - exfalso. unfold Put in E. change (negb (safeName "r1")) with false in E. cbv zeta iota in E.
    apply (f_equal fst) in E. cbn [fst] in E. inversion E.
  - exists ref, files. split; [done|].
    exact (proj1 (a_blob_reads_back "/" example_blobs (None, None) "r1" "trigger values.json" "{}" ∅ ref
                    files eq_refl E)).
Defined.
