(* ===== verification/Host.v ===== *)
(** What a run calls on its host: the commands the stages, the sinks and the executor are
    programs over, and what each is answered with.

    The guard's decision, its hold and the index are called here as they are by the executor
    and the retrieve stage; a child, a shell line and a request end in what the operating
    system said they did. *)
From S2P Require Import Prelude GoStr GoTime GoErr Playbook Records Store RunRecords AgentStage.
From S2P Require Import GuardConfig Guard.
From Stdlib Require Import QArith.
Open Scope Z_scope.

(** ** Processes *)

(** How waiting for a child ended: cleanly, with an exit status, or in an error of its own. *)
Inductive waited := WaitOK | WaitExit (code : Z) (err : gerror) | WaitFailed (err : gerror).

(** [Options] of agent.go. *)
Record Options := mkOptions {
  o_Executable : string; o_WorkDir : string; o_Prompt : string; o_Timeout : Z;
  o_Env : list string; o_MCPServers : list (string * any) }.

(** An agent child, as started with a vector of arguments under a timeout; [p_Clock] is the time
    at each line decoded. *)
Record process := mkProcess {
  p_Pipe : option gerror; p_Start : option gerror; p_Output : string; p_Read : option gerror;
  p_Stderr : string; p_Wait : waited; p_DeadlineExceeded : bool; p_Duration : Z;
  p_Clock : nat → Z }.

(** A shell line as a gather step runs it, and what came of it: each piece of its output with
    what writing as much of it as was kept came to. *)
Record command := mkCommand { x_Line : string; x_Dir : string; x_Env : list string; x_Timeout : Z }.
Record shellRun := mkShellRun {
  h_Stdout : list (string * (Z * option gerror)); h_Stderr : list string; h_Run : waited;
  h_Ctx : option gerror; h_Duration : Z }.

(** ** Requests *)

Record request := mkRequest {
  r_Method : string; r_URL : string; r_Headers : list (string * string); r_Body : string }.

(** A request that cannot be built, one that fails, and an answer: its status and its body, or
    why that could not be read. *)
Inductive answered :=
| Unbuilt (err : gerror)
| Failed (err : gerror)
| Answered (status : Z) (body : gerror + string).

(** ** Retrieval *)

(** [Hit] and [Found] of the index. *)
Record Hit := mkHit {
  h_Source : string; h_Ordinal : Z; h_Offset : Z; h_Text : string; h_Score : Q }.
Record Found := mkFound {
  f_Hits : list Hit; f_ID : string; f_Short : string; f_Identity : string; f_BuiltAt : Z }.

(** ** Triggers *)

(** [Trigger] of execute.go; [None] is a nil map of values. *)
Record Trigger := mkTrigger {
  t_Kind : string; t_DueAt : Z; t_Values : option (gmap string string); t_OnWait : bool }.

Definition values_of (trigger : option (gmap string string)) : gmap string string := default ∅ trigger.

(** ** Commands *)

Inductive host_cmd :=
| Now
| MkdirAll (path : string)
| RemoveAll (path : string)
| ReadFile (path : string)
| WriteFile (path data : string)
| CreateFile (path : string)
| Shell (c : command)
| Spawn (opts : Options) (args : list string)
| HTTP (r : request)
| Search (collection query : string) (limit within : Z)
| PutBlob (runID name data : string)
| GetBlob (ref : string)
| CreateRun (run : Records.Run)
| FinishRun (run : Records.Run)
| AddGatheredInput (runID : string) (input : GatheredInput)
| AddRetrieval (runID : string) (retrieval : RunRecords.Retrieval)
| AddToolCall (runID : string) (call : ToolCallRow)
| AddRefusedAction (runID : string) (action : RefusedAction)
| AddSinkOutcome (runID : string) (outcome : SinkOutcome)
| GetRun (id : string)
| GatheredInputs (runID : string)
| Retrievals (runID : string)
| Admit (book : Playbook.Playbook) (kind : string) (due : Z) (values : option (gmap string string)) (on_wait : bool)
| HoldClaim (admitted : Admission)
| Fence
| StoppedFor
| HoldDone
| Release (claim : Claim)
| LogError (text : string).

(** [CreateFile] says whether the file was already there; [Search] whether its own bound, and
    whether the run's context, had ended; [StoppedFor] is why the hold stopped the run. *)
Definition host_resp (c : host_cmd) : Type :=
  match c with
  | Now => Z
  | MkdirAll _ | RemoveAll _ | WriteFile _ _ => option gerror
  | CreateFile _ => option (bool * gerror)
  | ReadFile _ | GetBlob _ | PutBlob _ _ _ => gerror + string
  | Shell _ => shellRun
  | Spawn _ _ => process
  | HTTP _ => answered
  | Search _ _ _ _ => (gerror + Found) * (bool * bool)
  | CreateRun _ | FinishRun _ | AddGatheredInput _ _ | AddRetrieval _ _ | AddToolCall _ _
  | AddRefusedAction _ _ | AddSinkOutcome _ _ | Fence | Release _ => option gerror
  | GetRun _ => gerror + Records.Run
  | GatheredInputs _ => gerror + list GatheredInput
  | Retrievals _ => gerror + list RunRecords.Retrieval
  | Admit _ _ _ _ _ => gerror + Admission
  | HoldClaim _ | HoldDone | LogError _ => unit
  | StoppedFor => option string
  end.

#[export] Instance host_sig : Signature := {| cmd := host_cmd; resp := host_resp |}.

(** A call, with its answer's type computed, and the event it leaves. *)
Definition Do (c : host_cmd) : prog (Sg := host_sig) (host_resp c) := call (Sg := host_sig) c.
#[global] Arguments Do : simpl never.
Definition did (c : host_cmd) (x : host_resp c) : event (Sg := host_sig) := ev (Sg := host_sig) c x.
Definition cmd_of (e : event (Sg := host_sig)) : host_cmd := projT1 e.

Lemma runs_did c tr (x : host_resp c) : runs (Do c) tr x ↔ tr = [did c x].
Proof. apply (runs_call (Sg := host_sig)). Qed.

(** ** Traces *)

Definition trace : Type := list (event (Sg := host_sig)).

(** The commands of a trace. *)
Definition cmds (tr : trace) : list host_cmd := map cmd_of tr.

Lemma cmds_app tr1 tr2 : cmds (tr1 ++ tr2) = cmds tr1 ++ cmds tr2.
Proof. apply map_app. Qed.

(** Every command a program may make. *)
Section only.
Context (allowed : host_cmd → Prop).

Definition only {A} (p : prog (Sg := host_sig) A) : Prop :=
  ∀ tr a, runs p tr a → Forall (λ e, allowed (cmd_of e)) tr.

Lemma only_Ret {A} (a : A) : only (Ret a).
Proof. intros tr b [-> _]. constructor. Qed.

Lemma only_Do c : allowed c → only (Do c).
Proof. intros H tr a ->%runs_did. by repeat constructor. Qed.

Lemma only_bind {A B} (p : prog A) (f : A → prog B) : only p → (∀ a, only (f a)) → only (bind p f).
Proof.
  intros Hp Hf tr b (a & tr1 & tr2 & -> & H1 & H2)%runs_bind.
  apply Forall_app. split; [by eapply Hp|by eapply Hf].
Qed.
End only.

Lemma only_mono (P Q : host_cmd → Prop) {A} (p : prog (Sg := host_sig) A) :
  (∀ c, P c → Q c) → only P p → only Q p.
Proof. intros HPQ Hp tr a Hr. eapply Forall_impl; [by eapply Hp|]. intros e. apply HPQ. Qed.

(** Take a program apart into its calls. *)
Ltac only_calls :=
  repeat match goal with
  | |- only _ (bind _ _) => apply only_bind; [|intros ?]
  | |- only _ (Ret _) => apply only_Ret
  | |- only _ (Do ?c) => refine (only_Do _ c _)
  | |- only _ (match ?x with _ => _ end) => destruct x
  end.

Ltac take_host :=
  repeat match goal with
  | H : runs (bind _ _) _ _ |- _ => apply runs_bind in H as (? & ? & ? & ? & ? & ?); subst
  | H : runs (Do _) _ _ |- _ => apply runs_did in H; subst
  | H : runs (Ret _) _ _ |- _ => destruct H as [? ?]; simplify_eq
  end.

(** A host that does what it is asked and has nothing to say, for examples to begin from. *)
Definition quiet (c : host_cmd) : host_resp c :=
  match c return host_resp c with
  | Now => 0
  | MkdirAll _ | RemoveAll _ | WriteFile _ _ => None
  | CreateFile _ => None
  | ReadFile _ | GetBlob _ => inr ""
  | PutBlob runID name _ => inr (runID +:+ "/" +:+ name)
  | Shell _ => mkShellRun [] [] WaitOK None 0
  | Spawn _ _ => mkProcess None None "" None "" WaitOK false 0 (λ _, 0)
  | HTTP _ => Answered 200 (inr "[]")
  | Search _ _ _ _ => (inr (mkFound [] "" "" "" 0), (false, false))
  | CreateRun _ | FinishRun _ | AddGatheredInput _ _ | AddRetrieval _ _ | AddToolCall _ _
  | AddRefusedAction _ _ | AddSinkOutcome _ _ | Fence | Release _ => None
  | GetRun _ => inl ErrNotFound
  | GatheredInputs _ => inr []
  | Retrievals _ => inr []
  | Admit _ _ _ _ _ => inl ErrUnavailable
  | HoldClaim _ | HoldDone | LogError _ => tt
  | StoppedFor => None
  end.
