(* ===== verification/AgentRun.v ===== *)
(** Running the agent: [agent.go], [receipt.go], [startup.go] and the decoding loop of
    [stream.go], in [src/runtime/internal/stage/agent]. *)
From S2P Require Import Prelude GoStr GoTime GoPath GoErr Config Playbook GoJson GoRunes Values GoMarshal AgentStage.
From S2P Require Import Guard Host.
From Stdlib Require Import QArith.
Open Scope Z_scope.

(** ** [receipt.go] *)

Definition ErrReceiptMismatch : gerror :=
  Sentinel "the agent process received a wider bound than the playbook declared".

Definition structuredOutputTool : string := "StructuredOutput".

(** [strings.Count] for a separator of two characters: no two counted overlap. *)
Fixpoint count_pairs (c : ascii) (s : string) : nat :=
  match s with
  | String a (String b rest as tail) =>
      if Ascii.eqb a c && Ascii.eqb b c then S (count_pairs c rest) else count_pairs c tail
  | _ => 0
  end.

Definition mcpToolsIn (allow : list string) : list string :=
  List.filter (λ entry, has_prefix entry "mcp__" && (2 <=? count_pairs "_" entry)%nat) allow.

Definition declaredTools (decl : Declaration) : gset string :=
  list_to_set (c_Tools decl) ∪ list_to_set (mcpToolsIn (c_Allow decl)) ∪
  match c_OutputSchema decl with ANil => ∅ | _ => {[structuredOutputTool]} end.
Definition declaredServers (decl : Declaration) : gset string := list_to_set (c_MCPServers decl).

Definition is_init (event : Event) : bool :=
  String.eqb (e_Type event) "system" && String.eqb (e_Subtype event) "init".

Definition beyond (declared : gset string) (names : list string) : list string :=
  List.filter (λ name, negb (bool_decide (name ∈ declared))) names.

Definition CheckReceipt (decl : Declaration) (event : Event) : option gerror :=
  if negb (is_init event) then None
  else
    let extraTools := beyond (declaredTools decl) (e_Tools event) in
    let extraServers := beyond (declaredServers decl) (map m_Name (e_MCPServers event)) in
    match extraTools, extraServers with
    | [], [] => None
    | _, _ =>
        let said :=
          match extraTools with
          | [] => [] | _ => ["tools not declared: " +:+ join (sort_strings extraTools) ", "] end ++
          match extraServers with
          | [] => [] | _ => ["MCP servers not declared: " +:+ join (sort_strings extraServers) ", "] end in
        Some (wrap_after ErrReceiptMismatch (": " +:+ join said "; "))
    end.

(** ** [Decode] *)

Record Stream := mkStream {
  s_Init : option Event; s_Result : option Event; s_ToolCalls : list ToolCall;
  s_Events : Z; s_Undecoded : Z; s_Raw : string }.

Definition maxLine : Z := Z.shiftl 8 20.

(** [RefusedByCallback] is what the callback refused with; anything else the stream's own. *)
Inductive decode_error :=
| Refused (inner : gerror)
| Unreadable (err : gerror).

Definition ErrTooLong : gerror := Sentinel "bufio.Scanner: token too long".

Fixpoint drop_cr (line : string) : string :=
  match line with
  | EmptyString => EmptyString
  | String c EmptyString => if byte_of c =? 13 then EmptyString else line
  | String c rest => String c (drop_cr rest)
  end.

(** The lines a scanner yields, less the carriage return that ends one, and whether it stopped
    at one its buffer does not hold; what follows the last newline is a line when it is not
    empty. *)
Fixpoint scan_lines (lines : list string) : list string * bool :=
  match lines with
  | [] | [""] => ([], false)
  | line :: lines =>
      if maxLine <=? Z.of_nat (String.length line) then ([], true)
      else
        let (rest, long) := scan_lines lines in
        (drop_cr line :: rest, long)
  end.

(** What a decode has so far; [now] is the clock at each line. *)
Record decoding := mkDecoding { d_stream : Stream; d_calls : collector }.

Definition empty_stream : Stream := mkStream None None [] 0 0 "".
Definition start_decoding : decoding := mkDecoding empty_stream newCollector.
Definition stream_of (d : decoding) : Stream :=
  let s := d_stream d in
  mkStream (s_Init s) (s_Result s) (calls (d_calls d)) (s_Events s) (s_Undecoded s) (s_Raw s).

Definition keep_line (line : string) (d : decoding) : decoding :=
  let s := d_stream d in
  mkDecoding (mkStream (s_Init s) (s_Result s) (s_ToolCalls s) (s_Events s) (s_Undecoded s)
                (s_Raw s +:+ line +:+ nl)) (d_calls d).

Definition count_undecoded (d : decoding) : decoding :=
  let s := d_stream d in
  mkDecoding (mkStream (s_Init s) (s_Result s) (s_ToolCalls s) (s_Events s) (s_Undecoded s + 1)
                (s_Raw s)) (d_calls d).

Definition take_event (event : Event) (at_ : Z) (d : decoding) : decoding :=
  let s := d_stream d in
  let observed :=
    if String.eqb (e_Type event) "assistant" || String.eqb (e_Type event) "user"
    then observe (e_Message event) at_ (d_calls d) else d_calls d in
  let held_init := is_init event && match s_Init s with None => true | Some _ => false end in
  mkDecoding
    (mkStream (if held_init then Some event else s_Init s)
       (if negb held_init && String.eqb (e_Type event) "result" then Some event else s_Result s)
       (s_ToolCalls s) (s_Events s + 1) (s_Undecoded s) (s_Raw s))
    observed.

Fixpoint decode_lines (onEvent : Event → option gerror) (now : nat → Z) (n : nat) (lines : list string)
    (d : decoding) : decoding * option gerror :=
  match lines with
  | [] => (d, None)
  | line :: lines =>
      let d := keep_line line d in
      match event_of line with
      | None => decode_lines onEvent now (S n) lines (count_undecoded d)
      | Some event =>
          let d := take_event event (now n) d in
          match onEvent event with
          | Some err => (d, Some err)
          | None => decode_lines onEvent now (S n) lines d
          end
      end
  end.

Definition Decode (onEvent : Event → option gerror) (now : nat → Z) (output : string)
    (read_err : option gerror) : Stream * option decode_error :=
  let (lines, long) := scan_lines (GoStr.split output nl) in
  let (d, refused) := decode_lines onEvent now 0 lines start_decoding in
  (stream_of d,
   match refused with
   | Some err => Some (Refused err)
   | None => if long then Some (Unreadable ErrTooLong) else Unreadable <$> read_err
   end).

(** ** [agent.go] *)

Definition agent_DefaultTimeout : Z := 30 * Minute.

Record Outcome := mkOutcome {
  o_Stream : Stream; o_TimedOut : bool; o_ExitCode : Z; o_Duration : Z; o_Stderr : string;
  o_Aborted : option gerror; o_DecodeErr : option gerror; o_ArgvUsed : list string }.

Definition ErrNoTerminalEvent : gerror := Sentinel "the agent process produced no terminal event".

(** What the decode's error is kept as: a refusal, or the stream's failure. *)
Definition aborted_of (err : option decode_error) : option gerror :=
  match err with Some (Refused inner) => Some inner | _ => None end.
Definition decode_err_of (err : option decode_error) : option gerror :=
  match err with Some (Unreadable err) => Some err | _ => None end.

(** [Run] once the child has started: the outcome, and an error beside it. *)
Definition run_child (child : process) (onEvent : Event → option gerror) (args : list string)
  : Outcome * option gerror :=
  let (stream, err) := Decode onEvent (p_Clock child) (p_Output child) (p_Read child) in
  let outcome timed_out code :=
    mkOutcome stream timed_out code (p_Duration child) (p_Stderr child) (aborted_of err)
      (decode_err_of err) args in
  if p_DeadlineExceeded child then (outcome true 0, None)
  else
    match p_Wait child with
    | WaitOK => (outcome false 0, None)
    | WaitExit code _ => (outcome false code, None)
    | WaitFailed wait_err =>
        match err with
        | Some _ => (outcome false (-1), None)
        | None => (outcome false 0, Some (wrap_before "the agent process" wait_err))
        end
    end.

Definition with_timeout (opts : Options) : Options :=
  if o_Timeout opts <=? 0 then
    mkOptions (o_Executable opts) (o_WorkDir opts) (o_Prompt opts) agent_DefaultTimeout (o_Env opts)
      (o_MCPServers opts)
  else opts.

Definition WriteMCPConfig (dir : string) (servers : list (string * any)) : prog (gerror + string) :=
  let path := mcpConfigPath dir in
  let! wrote := Do (WriteFile path (mcpDocument servers)) in
  Ret (match wrote with
       | Some err => inl (wrap_before "writing the MCP configuration" err)
       | None => inr path
       end).

Definition Run (decl : Declaration) (opts : Options) (onEvent : Event → option gerror)
  : prog (option Outcome * option gerror) :=
  let opts := with_timeout opts in
  let! wrote := WriteMCPConfig (o_WorkDir opts) (o_MCPServers opts) in
  match wrote with
  | inl err => Ret (None, Some err)
  | inr mcpConfig =>
      match BuildArgs decl mcpConfig with
      | inl err => Ret (None, Some err)
      | inr args =>
          let! child := Do (Spawn opts args) in
          Ret (match p_Pipe child, p_Start child with
               | Some err, _ => (None, Some (wrap_before "reading the agent's output" err))
               | None, Some err => (None, Some (wrap_before "starting the agent process" err))
               | None, None =>
                   let (outcome, err) := run_child child onEvent args in (Some outcome, err)
               end)
      end
  end.

Definition emptyJSON (raw : string) : bool :=
  let trimmed := TrimSpace raw in String.eqb trimmed "" || String.eqb trimmed "null".

Definition Report (stream : Stream) : gerror + string :=
  match s_Result stream with
  | None => inl ErrNoTerminalEvent
  | Some result =>
      if emptyJSON (e_StructuredOutput result) then inr (e_Result result)
      else inr (e_StructuredOutput result)
  end.

(** ** [startup.go] *)

Definition VersionFloor : string := "2.1.261".

Definition ErrBelowVersionFloor : gerror :=
  Sentinel "the agent executable is older than the version its bounding flags were confirmed on".
Definition ErrNoCredential : gerror := Sentinel "the agent process found no credential".
Definition ErrStartupProbeFailed : gerror :=
  Sentinel "the agent process could not complete a startup turn".
Definition CredentialProbeTimeout : Z := 60 * Second.
Definition CredentialSources : list string :=
  ["ANTHROPIC_API_KEY"; "an apiKeyHelper in a settings file"; "an OAuth session"; "a keychain entry";
   "a cloud provider's own credentials (Bedrock, Vertex, Foundry)"].
Definition SourceNotNamed : string := "not named by the agent".

(** [output] is what asking the executable for its version printed. *)
Definition Version (executable : string) (output : gerror + string) : gerror + string :=
  match output with
  | inl err => inl (wrap_before ("asking " +:+ executable +:+ " for its version") err)
  | inr out =>
      match Fields (TrimSpace out) with
      | [] => inl (Text (executable +:+ " reported no version"))
      | field :: _ => inr field
      end
  end.

Fixpoint all_numbers (fields : list string) : option (list Z) :=
  match fields with
  | [] => Some []
  | field :: fields =>
      match Atoi field with
      | Some number => cons number <$> all_numbers fields
      | None => None
      end
  end.

Definition before_sep (s sep : string) : string :=
  match cut s sep with Some (before, _) => before | None => s end.

Definition parts (version : string) : gerror + list Z :=
  let version := before_sep (before_sep version "-") "+" in
  match all_numbers (GoStr.split version ".") with
  | Some out => inr out
  | None => inl (Text (quote version +:+ " is not a version this runtime can compare"))
  end.

Definition at2 (values : list Z) (at_ : nat) : Z := default 0 (values !! at_).

Fixpoint below_from (got want : list Z) (indexes : list nat) : bool :=
  match indexes with
  | [] => false
  | at_ :: indexes =>
      let g := at2 got at_ in
      let w := at2 want at_ in
      if negb (g =? w) then g <? w else below_from got want indexes
  end.

Definition isBelow (version floor : string) : gerror + bool :=
  let* got := parts version in
  let* want := parts floor in
  inr (below_from got want (seq 0 (max (length got) (length want)))).

Definition RefuseBelowFloor (version : string) : option gerror :=
  match isBelow version VersionFloor with
  | inl err => Some err
  | inr true => Some (wrap_after ErrBelowVersionFloor (": " +:+ version +:+ ", and the floor is " +:+ VersionFloor))
  | inr false => None
  end.

(** The version beside the error that refuses it. *)
Definition CheckVersion (executable : string) (output : gerror + string) : string * option gerror :=
  match Version executable output with
  | inl err => ("", Some err)
  | inr version => (version, wrap_before executable <$> RefuseBelowFloor version)
  end.

Definition probe_declaration : Declaration := mkDeclaration "" true [] [] [] ANil.

Fixpoint trim_quotes_left (s : string) : string :=
  match s with String "034" rest => trim_quotes_left rest | _ => s end.
Fixpoint trim_quotes_right (s : string) : string :=
  match s with
  | EmptyString => EmptyString
  | String c rest =>
      match trim_quotes_right rest with
      | EmptyString => if Ascii.eqb c DQ then EmptyString else str c
      | kept => String c kept
      end
  end.

(** What the probe's outcome says of the credential. *)
Definition judge_probe (executable : string) (within : Z) (outcome : Outcome) : gerror + string :=
  let stream := o_Stream outcome in
  if o_TimedOut outcome then
    inl (wrap_after ErrStartupProbeFailed
           (": it did not finish one trivial turn within " +:+ Duration_String within
            +:+ ", which is most often a credential the API keeps refusing; it consults: "
            +:+ join CredentialSources ", "))
  else
    match s_Init stream, s_Result stream with
    | None, _ => inl (Text (executable +:+ " produced no startup event; its stderr was: "
                            +:+ TrimSpace (o_Stderr outcome)))
    | _, None => inl (Text (executable +:+ " produced no terminal event; its stderr was: "
                            +:+ TrimSpace (o_Stderr outcome)))
    | Some init, Some result =>
        if e_IsError result then
          let status := trim_quotes_right (trim_quotes_left (e_APIErrorStatus result)) in
          if String.eqb status "" || String.eqb status "null" || String.eqb status "401" then
            inl (wrap_after ErrNoCredential ("; it consults: " +:+ join CredentialSources ", "))
          else inl (wrap_after ErrStartupProbeFailed
                      (": the agent process answered with status " +:+ status))
        else if String.eqb (e_APIKeySource init) "" || String.eqb (e_APIKeySource init) "none"
        then inr SourceNotNamed
        else inr (e_APIKeySource init)
    end.

(** A run that gives no error gives an outcome. *)
Definition VerifyCredential (executable : string) (env : list string) (workDir : string) (within : Z)
  : prog (gerror + string) :=
  let within := if within <=? 0 then CredentialProbeTimeout else within in
  let! ran := Run probe_declaration (mkOptions executable workDir "hello" within env []) (λ _, None) in
  Ret (match ran with
       | (_, Some err) => inl err
       | (None, None) => inl (Text "no outcome")
       | (Some outcome, None) => judge_probe executable within outcome
       end).

Example versions_compare :
  map (λ v, isBelow v VersionFloor)
    ["2.1.9"; "2.1.261"; "2.1.261-beta.3"; "2.2"; "2.1"; "10"; "2.01.262+x"] =
  [inr true; inr false; inr false; inr false; inr true; inr false; inr false] ∧
  RefuseBelowFloor "2.1.9" ≠ None.
Proof. vm_compute. done. Qed.
