(* ===== verification/AgentSafe.v ===== *)
(** What holds of the agent stage: the vector reads back as the declaration it was built from,
    a child that reports more than was declared is refused at its report, and versions
    compare by their numbers. *)
From S2P Require Import Prelude GoStr GoTime GoPath GoErr Config Playbook GoJson Values GoMarshal AgentStage.
From S2P Require Import Guard Host AgentRun.
From Stdlib Require Import QArith.
Open Scope Z_scope.

(** ** The vector, read back *)

(** A parser of flags that take any number of values: a flag's values are what follows it up
    to the next argument that begins with a dash. *)
Definition is_flag (arg : string) : bool := has_prefix arg "-".

Fixpoint take_values (args : list string) : list string :=
  match args with
  | [] => []
  | arg :: args => if is_flag arg then [] else arg :: take_values args
  end.

Fixpoint read_args (args : list string) : list (string * list string) :=
  match args with
  | [] => []
  | arg :: args =>
      if is_flag arg then (arg, take_values args) :: read_args args else read_args args
  end.

Definition flag_values (flag : string) (args : list string) : option (list string) :=
  assoc flag (read_args args).

Definition flatten (groups : list (string * list string)) : list string :=
  concat (map (λ g, fst g :: snd g) groups).

Definition well_formed (group : string * list string) : Prop :=
  is_flag (fst group) = true ∧ Forall (λ v, is_flag v = false) (snd group).

Lemma take_values_group vs groups :
  Forall (λ v, is_flag v = false) vs → Forall well_formed groups →
  take_values (vs ++ flatten groups) = vs ∧ read_args (vs ++ flatten groups) = read_args (flatten groups).
Proof.
  intros Hvs Hg. induction Hvs as [|v vs Hv Hvs [IH1 IH2]]; simpl.
  - split; [|done]. destruct Hg as [|[f us] groups [Hf _] _]; [done|]. simpl in *. by rewrite Hf.
  - by rewrite Hv, IH1, IH2.
Qed.

Lemma read_args_flatten groups : Forall well_formed groups → read_args (flatten groups) = groups.
Proof.
  induction 1 as [|[f vs] groups [Hf Hvs] Hg IH]; [done|].
  unfold flatten in *. simpl in *. rewrite Hf.
  destruct (take_values_group vs groups Hvs Hg) as [H1 H2]. unfold flatten in *.
  by rewrite H1, H2, IH.
Qed.

(** The vector in groups, a flag and its values. *)
Definition groups_of (decl : Declaration) (path : string) : list (string * list string) :=
  [(flagPrint, []); (flagVerbose, []); (flagOutputFormat, ["stream-json"]);
   (flagSettingSources, [""]); (flagStrictMCP, []); (flagMCPConfig, [path]);
   (flagTools, match c_Tools decl with [] => [""] | tools => tools end)]
  ++ (if c_Restricted decl then [(flagRestricted, [])] else [])
  ++ (match c_Allow decl with [] => [] | allow => [(flagAllowedTools, allow)] end)
  ++ (if String.eqb (c_Model decl) "" then [] else [(flagModel, [c_Model decl])])
  ++ (match c_OutputSchema decl with ANil => [] | schema => [(flagJSONSchema, [Marshal schema])] end).

Lemma flatten_app a b : flatten (a ++ b) = flatten a ++ flatten b.
Proof. unfold flatten. by rewrite map_app, concat_app. Qed.

Lemma BuildArgs_groups decl path args :
  BuildArgs decl path = inr args → args = flatten (groups_of decl path).
Proof.
  unfold BuildArgs. destruct (check_entries _); [done|]. intros H. apply (inj inr) in H. subst args.
  unfold groups_of. rewrite !flatten_app.
  destruct (c_Tools decl), (c_Restricted decl), (c_Allow decl), (String.eqb (c_Model decl) ""),
    (c_OutputSchema decl); unfold flatten; cbn [map concat fst snd app];
    rewrite ?app_nil_r, <- ?app_assoc; done.
Qed.

Lemma check_entries_None entries :
  check_entries entries = None ↔
  Forall (λ e, contains_str e "," = false ∧ is_flag e = false) entries.
Proof.
  induction entries as [|e entries IH]; [by split|]. cbn [check_entries]. rewrite Forall_cons.
  unfold is_flag in *.
  destruct (contains_str e ","); [split; [done|naive_solver]|].
  destruct (has_prefix e "-"); [split; [done|naive_solver]|]. rewrite IH. naive_solver.
Qed.

(** A schema as a playbook holds one: none, or a mapping. *)
Definition schema_ok (schema : any) : Prop := schema = ANil ∨ ∃ entries, schema = AMap entries.

Lemma groups_of_well_formed decl path :
  check_entries (c_Tools decl ++ c_Allow decl) = None →
  is_flag path = false → is_flag (c_Model decl) = false → schema_ok (c_OutputSchema decl) →
  Forall well_formed (groups_of decl path).
Proof.
  intros [Ht Ha]%check_entries_None%Forall_app Hp Hm Hs.
  assert (∀ l, Forall (λ e, contains_str e "," = false ∧ is_flag e = false) l →
    Forall (λ v, is_flag v = false) l) as Hi by (intros l Hl; eapply Forall_impl; [exact Hl|naive_solver]).
  apply Hi in Ht, Ha. unfold groups_of. rewrite !Forall_app. split_and!.
  - repeat constructor; simpl; try done. by destruct (c_Tools decl); [repeat constructor|].
  - destruct (c_Restricted decl); repeat constructor.
  - destruct (c_Allow decl); repeat constructor; [by apply Forall_cons in Ha as []|].
    by apply Forall_cons in Ha as [].
  - destruct (String.eqb _ _); repeat constructor. done.
  - destruct Hs as [->|[entries ->]]; [constructor|]. repeat constructor.
Qed.

(** The vector a declaration is built into reads back as that declaration: parsed by flags
    whose values run to the next argument with a dash, the tool set, the allowlist, the
    restriction, the model and the schema are the declared ones and no others, an empty tool
    set is the empty name rather than no flag, the MCP configuration is the runtime's one file and
    strict, no settings source is read, and no flag comes twice. *)
Theorem BuildArgs_reads_back decl path args :
  BuildArgs decl path = inr args →
  is_flag path = false → is_flag (c_Model decl) = false → schema_ok (c_OutputSchema decl) →
  let declared flag := default [] (flag_values flag args) in
  NoDup (map fst (read_args args)) ∧
  declared flagTools = match c_Tools decl with [] => [""] | tools => tools end ∧
  declared flagAllowedTools = c_Allow decl ∧
  flag_values flagRestricted args = (if c_Restricted decl then Some [] else None) ∧
  declared flagModel = (if String.eqb (c_Model decl) "" then [] else [c_Model decl]) ∧
  declared flagJSONSchema = (match c_OutputSchema decl with ANil => [] | s => [Marshal s] end) ∧
  flag_values flagStrictMCP args = Some [] ∧ flag_values flagMCPConfig args = Some [path] ∧
  flag_values flagSettingSources args = Some [""].
Proof.
  intros Hb Hp Hm Hs declared. pose proof (BuildArgs_groups _ _ _ Hb) as ->.
  assert (check_entries (c_Tools decl ++ c_Allow decl) = None) as Hc.
  { unfold BuildArgs in Hb. by destruct (check_entries _). }
  unfold declared, flag_values.
  rewrite (read_args_flatten (groups_of decl path)) by by apply groups_of_well_formed.
  unfold groups_of.
  destruct (c_Restricted decl), (c_Allow decl), (String.eqb (c_Model decl) ""),
    (c_OutputSchema decl); split_and!;
    try reflexivity. all: cbn [map fst app]; apply (bool_decide_eq_true_1 _). all: vm_compute; reflexivity.
Qed.

Definition example_declaration : Declaration :=
  mkDeclaration "opus" true ["Read"; "Grep"] ["logs"] ["mcp__logs__query"; "Read(./**)"]
    (AMap [("type", AString "object")]).

Lemma BuildArgs_reads_back_witness :
  ∃ args, BuildArgs example_declaration "/work/r1/mcp.json" = inr args ∧
    flag_values flagTools args = Some ["Read"; "Grep"] ∧
    default [] (flag_values flagAllowedTools args) = ["mcp__logs__query"; "Read(./**)"].
Proof.
  assert (∃ args, BuildArgs example_declaration "/work/r1/mcp.json" = inr args) as [args Hb].
  { eexists. vm_compute. reflexivity. }
  exists args. split; [exact Hb|].
  pose proof (BuildArgs_reads_back example_declaration "/work/r1/mcp.json" args Hb eq_refl eq_refl
    (or_intror (ex_intro _ [("type", AString "object")] eq_refl))) as (_ & _ & Ha & _).
  split; [|exact Ha]. injection Hb as <-. reflexivity.
Defined.

(** ** The receipt *)

(** What a report may name: the declared tools, an allowed tool of an MCP server, and the tool
    a declared schema brings; and the declared servers. *)
Definition tool_declared (decl : Declaration) (tool : string) : Prop :=
  tool ∈ c_Tools decl ∨
  (tool ∈ c_Allow decl ∧ has_prefix tool "mcp__" = true ∧ (2 <= count_pairs "_" tool)%nat) ∨
  (tool = structuredOutputTool ∧ c_OutputSchema decl ≠ ANil).

Definition within (decl : Declaration) (event : Event) : Prop :=
  is_init event = true →
  (∀ tool, tool ∈ e_Tools event → tool_declared decl tool) ∧
  (∀ server, server ∈ e_MCPServers event → m_Name server ∈ c_MCPServers decl).

Lemma elem_of_declaredTools decl tool : tool ∈ declaredTools decl ↔ tool_declared decl tool.
Proof.
  unfold declaredTools, tool_declared, mcpToolsIn.
  rewrite !elem_of_union, !elem_of_list_to_set, (list_elem_of_In (List.filter _ (c_Allow decl))), filter_In,
    <- list_elem_of_In, andb_true_iff, Nat.leb_le.
  destruct (c_OutputSchema decl);
    rewrite ?elem_of_singleton, ?elem_of_empty; naive_solver.
Qed.

Lemma beyond_nil declared names : beyond declared names = [] ↔ ∀ name, name ∈ names → name ∈ declared.
Proof.
  unfold beyond. induction names as [|x names IH]; simpl; [by split; [intros _ ? ?%not_elem_of_nil|]|].
  case_bool_decide as Hx; simpl.
  - rewrite IH. setoid_rewrite elem_of_cons. naive_solver.
  - split; [done|]. intros H. destruct Hx. apply H. by left.
Qed.

Lemma CheckReceipt_exact decl event :
  match CheckReceipt decl event with
  | None => within decl event
  | Some err => ¬ within decl event ∧ errors_is err ErrReceiptMismatch = true
  end.
Proof.
  unfold CheckReceipt, within. destruct (is_init event); simpl; [|done].
  pose proof (beyond_nil (declaredTools decl) (e_Tools event)) as Ht.
  pose proof (beyond_nil (declaredServers decl) (map m_Name (e_MCPServers event))) as Hs.
  assert ((∀ name, name ∈ map m_Name (e_MCPServers event) → name ∈ declaredServers decl) ↔
          (∀ server, server ∈ e_MCPServers event → m_Name server ∈ c_MCPServers decl)) as Hm.
  { unfold declaredServers. setoid_rewrite elem_of_list_to_set. setoid_rewrite list_elem_of_fmap.
    naive_solver. }
  setoid_rewrite elem_of_declaredTools in Ht. rewrite Hm in Hs.
  destruct (beyond (declaredTools decl) _) as [|t ts], (beyond (declaredServers decl) _) as [|u us].
  all: try (split; [|reflexivity]; intros H; destruct (H eq_refl) as [H1 H2];
            first [by apply Hs in H2 | by apply Ht in H1]).
  intros _. split; [by apply Ht|by apply Hs].
Qed.

(** *** The decode, stopped or not *)

Definition no_check (_ : Event) : option gerror := None.
Definition passes (onEvent : Event → option gerror) (line : string) : Prop :=
  ∀ event, event_of line = Some event → onEvent event = None.

Lemma decode_lines_stops onEvent now : ∀ lines n d d' refused,
  decode_lines onEvent now n lines d = (d', refused) →
  match refused with
  | None => Forall (passes onEvent) lines ∧ d' = fst (decode_lines no_check now n lines d)
  | Some err => ∃ l1 line l2 event,
      lines = l1 ++ line :: l2 ∧ Forall (passes onEvent) l1 ∧ event_of line = Some event ∧
      onEvent event = Some err ∧ d' = fst (decode_lines no_check now n (l1 ++ [line]) d)
  end.
Proof.
  induction lines as [|line lines IH]; intros n d d' refused; simpl.
  { intros H. apply (inj2 pair) in H as [<- <-]. done. }
  destruct (event_of line) as [event|] eqn:Ee; [destruct (onEvent event) as [err|] eqn:Eo|].
  - intros H. simplify_eq. exists (@nil string), line, lines, event. simpl. by rewrite Ee.
  - intros H%IH. destruct refused as [err|].
    + destruct H as (l1 & line' & l2 & event' & -> & Hl & He & Ho & ->).
      exists (line :: l1), line', l2, event'. simpl. rewrite Ee. split_and!; try done.
      constructor; [|done]. intros ? ?. simplify_eq. done.
    + destruct H as [Hl ->]. split; [|done]. constructor; [|done]. intros ? ?. simplify_eq. done.
  - intros H%IH. destruct refused as [err|].
    + destruct H as (l1 & line' & l2 & event' & -> & Hl & He & Ho & ->).
      exists (line :: l1), line', l2, event'. simpl. rewrite Ee. split_and!; try done.
      constructor; [|done]. intros ? ?. congruence.
    + destruct H as [Hl ->]. split; [|done]. constructor; [|done]. intros ? ?. congruence.
Qed.

Lemma Run_child decl opts onEvent tr outcome err :
  runs (Run decl opts onEvent) tr (Some outcome, err) →
  ∃ path args child, BuildArgs decl path = inr args ∧ path = mcpConfigPath (o_WorkDir opts) ∧
    tr = [did (WriteFile path (mcpDocument (o_MCPServers opts))) None;
          did (Spawn (with_timeout opts) args) child] ∧
    run_child child onEvent args = (outcome, err).
Proof.
  assert (o_WorkDir (with_timeout opts) = o_WorkDir opts ∧
          o_MCPServers (with_timeout opts) = o_MCPServers opts) as [Hw Hm]
    by (unfold with_timeout; by destruct (_ <=? _)).
  unfold Run, WriteMCPConfig. rewrite Hw, Hm. intros H. take_host.
  match goal with H : runs (match _ with _ => _ end) _ _ |- _ => revert H end.
  match goal with |- context [did (WriteFile _ _) ?w] => destruct w end; intros H; take_host.
  destruct (BuildArgs _ _) as [|args] eqn:Eb; take_host.
  match goal with |- context [did (Spawn _ _) ?c] => rename c into child end.
  exists (mcpConfigPath (o_WorkDir opts)), args, child.
  destruct (p_Pipe child); [done|]. destruct (p_Start child); [done|].
  destruct (run_child _ _ _). by simplify_eq.
Qed.

Lemma run_child_stream child onEvent args outcome err :
  run_child child onEvent args = (outcome, err) →
  ∃ decode_err, Decode onEvent (p_Clock child) (p_Output child) (p_Read child) = (o_Stream outcome, decode_err) ∧
    o_Aborted outcome = aborted_of decode_err ∧ o_ArgvUsed outcome = args.
Proof.
  unfold run_child. destruct (Decode _ _ _ _) as [stream decode_err]. intros H. exists decode_err.
  destruct (p_DeadlineExceeded child), (p_Wait child), decode_err; by simplify_eq.
Qed.

(** What the lines of a child's output decode to, up to and with a given one. *)
Definition heard (child : process) (lines : list string) : Stream :=
  stream_of (fst (decode_lines no_check (p_Clock child) 0 lines start_decoding)).

(** C19: A child is bounded by its own report: run under the check of the declaration, with the
    vector built of it, a stage that was not aborted read no report, on any line of its output,
    of a tool or a server the declaration does not name; and one that was aborted stopped at
    the first report that did, with the mismatch as its reason, and took nothing in from any
    line after it. *)
Theorem an_agent_is_bounded decl opts tr outcome err :
  runs (Run decl opts (CheckReceipt decl)) tr (Some outcome, err) →
  ∃ path child, did (Spawn (with_timeout opts) (o_ArgvUsed outcome)) child ∈ tr ∧
  BuildArgs decl path = inr (o_ArgvUsed outcome) ∧
  let lines := fst (scan_lines (GoStr.split (p_Output child) nl)) in
  let bounded line := ∀ event, event_of line = Some event → within decl event in
  match o_Aborted outcome with
  | None => Forall bounded lines ∧ o_Stream outcome = heard child lines
  | Some refused =>
      errors_is refused ErrReceiptMismatch = true ∧
      ∃ before line after event, lines = before ++ line :: after ∧ Forall bounded before ∧
        event_of line = Some event ∧ ¬ within decl event ∧
        o_Stream outcome = heard child (before ++ [line])
  end.
Proof.
  intros (path & args & child & Hb & _ & -> & H)%Run_child. exists path, child.
  destruct (run_child_stream _ _ _ _ _ H) as (decode_err & Hd & Ha & ->). clear H.
  split; [by right; left|]. split; [done|]. cbv zeta. unfold Decode in Hd.
  destruct (scan_lines _) as [lines long]. cbn [fst].
  destruct (decode_lines _ _ _ _ _) as [d refused] eqn:E. apply decode_lines_stops in E.
  assert (∀ l, Forall (passes (CheckReceipt decl)) l →
    Forall (λ line, ∀ event, event_of line = Some event → within decl event) l) as Hp.
  { intros l Hl. eapply Forall_impl; [exact Hl|]. intros line Hline event He.
    pose proof (CheckReceipt_exact decl event) as Hc. by rewrite (Hline event He) in Hc. }
  apply (inj2 pair) in Hd as [<- <-]. destruct refused as [r|].
  - simpl in Ha. rewrite Ha. destruct E as (l1 & line & l2 & event & -> & Hl & He & Ho & ->).
    pose proof (CheckReceipt_exact decl event) as Hc. rewrite Ho in Hc. destruct Hc as [Hw Hm].
    split; [done|]. exists l1, line, l2, event. split_and!; auto.
  - assert (o_Aborted outcome = None) as -> by (rewrite Ha; destruct long, (p_Read child); done).
    destruct E as [Hl ->]. split; [auto|done].
Qed.

(** A child that says it has a tool nobody declared, then acts. *)
Definition wide_init : string :=
  replace_all "{'type':'system','subtype':'init','tools':['Read','Bash'],'mcp_servers':[]}" "'" dq.
Definition its_answer : string :=
  replace_all "{'type':'result','result':'done'}" "'" dq.
Definition wide_child : process :=
  mkProcess None None (wide_init +:+ nl +:+ its_answer +:+ nl) None "" (WaitExit (-1) ErrLost) false 0 (λ _, 0).
Definition example_options : Options := mkOptions "/usr/bin/agent" "/work/r1" "go" 0 [] [].

(** A host that starts that child. *)
Definition wide_host (c : host_cmd) (w : unit) : host_resp c * unit :=
  (match c return host_resp c with Spawn _ _ => wide_child | c => quiet c end, w).

Definition wide_run := Run example_declaration example_options (CheckReceipt example_declaration).

Lemma an_agent_is_bounded_witness :
  ∃ tr outcome err, runs wide_run tr (Some outcome, err) ∧
    s_Result (o_Stream outcome) = None ∧
    ∃ refused, o_Aborted outcome = Some refused ∧ errors_is refused ErrReceiptMismatch = true.
Proof.
  pose proof (exec_runs (Sg := host_sig) wide_host wide_run tt) as Hr.
  destruct (fst (exec (Sg := host_sig) wide_host wide_run tt)) as [[outcome|] err] eqn:E.
  2: { exfalso. revert E. vm_compute. discriminate. }
  eexists _, outcome, err. split; [exact Hr|].
  pose proof (an_agent_is_bounded example_declaration example_options _ _ _ Hr) as (path & child & _ & _ & Hb). cbv zeta in Hb.
  destruct (o_Aborted outcome) as [refused|] eqn:Ea.
  - destruct Hb as [Hm _]. split; [|by exists refused].
    revert E. clear. vm_compute. intros E. by injection E as <- <-.
  - exfalso. revert E Ea. clear. vm_compute. intros E Ea. injection E as <- <-. discriminate.
Defined.

(** ** Versions *)

Lemma below_from_spec got want n k :
  below_from got want (seq k n) = true ↔
  ∃ i, (k <= i < k + n)%nat ∧ at2 got i < at2 want i ∧
    ∀ j, (k <= j < i)%nat → at2 got j = at2 want j.
Proof.
  revert k. induction n as [|n IH]; intros k; simpl; [split; [done|intros (i & ? & _); lia]|].
  destruct (at2 got k =? at2 want k) eqn:E; simpl; bool_facts.
  - rewrite IH. split.
    + intros (i & Hi & Hlt & Hj). exists i. split_and!; [lia|lia|done|].
      intros j Hjk. destruct (decide (j = k)) as [->|]; [done|]. apply Hj. lia.
    + intros (i & Hi & Hlt & Hj). exists i. assert (i ≠ k) by (intros ->; lia).
      split_and!; [lia|lia|done|]. intros j Hjk. apply Hj. lia.
  - rewrite Z.ltb_lt. split.
    + intros Hlt. exists k. split_and!; [lia|lia|done|]. intros j ?. lia.
    + intros (i & Hi & Hlt & Hj). destruct (decide (i = k)) as [->|]; [done|].
      destruct E. apply Hj. lia.
Qed.

(** A version is below another when its number is the smaller at the first place they differ,
    a missing place being zero. *)
Lemma isBelow_is_numeric version floor got want :
  parts version = inr got → parts floor = inr want →
  ∃ below, isBelow version floor = inr below ∧
    (below = true ↔ ∃ i, at2 got i < at2 want i ∧ ∀ j, (j < i)%nat → at2 got j = at2 want j).
Proof.
  intros Hg Hw. unfold isBelow. rewrite Hg, Hw. eexists. split; [done|].
  rewrite below_from_spec. split.
  - intros (i & _ & Hlt & Hj). exists i. split; [done|]. intros j ?. apply Hj. lia.
  - intros (i & Hlt & Hj). exists i. split_and!; [lia| |done|intros j ?; apply Hj; lia].
    unfold at2 in Hlt. destruct (decide (i < max (length got) (length want))%nat); [lia|].
    rewrite !lookup_ge_None_2 in Hlt by lia. simpl in Hlt. lia.
Qed.
