(* ===== verification/Gather.v ===== *)
(** The gather stage: [src/runtime/internal/stage/gather/gather.go].

    Each step is one shell line whose output goes through a writer that stops at its limit;
    the stage stops at the first step that fails. *)
From S2P Require Import Prelude GoStr GoTime GoPath GoErr Playbook Records Store RunRecords.
From S2P Require Import Guard Host.

Definition DefaultMaxBytes : Z := Z.shiftl 1 20.
Definition DefaultStepTimeout : Z := 2 * Minute.

Record Result := mkResult {
  r_Name : string; r_Path : string; r_Bytes : Z; r_Truncated : bool; r_ExitCode : Z;
  r_Stderr : string; r_Duration : Z }.

Record Step := mkStep { s_Run : string; s_As : string; s_Env : list string }.

Record Options := mkOptions {
  o_WorkDir : string; o_MaxBytes : Z; o_StepTimeout : Z; o_Env : list string }.

Definition ErrStepFailed : gerror := Sentinel "a gather step failed".

(** The pattern of the package, which is the record's. *)
Definition safeName (name : string) : bool := RunRecords.safeName name.

(** ** [limitedWriter] *)

(** [kept] is what the writer it writes to was given and took. *)
Record limitedWriter := mkWriter { kept : string; remaining : Z; written : Z; truncated : bool }.

(** [Write(p)], the target's answer being how much of the chunk it took and its error. *)
Definition Write (answer : Z * option gerror) (p : string) (w : limitedWriter)
  : (Z * option gerror) * limitedWriter :=
  let over := remaining w <? Z.of_nat (String.length p) in
  let chunk := if over then str_take (Z.to_nat (Z.max (remaining w) 0)) p else p in
  let (took, err) := answer in
  let w' := mkWriter (kept w +:+ str_take (Z.to_nat took) chunk) (remaining w - took)
              (written w + took) (truncated w || over) in
  ((match err with Some _ => took | None => Z.of_nat (String.length p) end, err), w').

(** Copying a child's output into a writer ends with its first error. *)
Fixpoint copy_all (pieces : list (string * (Z * option gerror))) (w : limitedWriter) : limitedWriter :=
  match pieces with
  | [] => w
  | (p, answer) :: pieces =>
      match Write answer p w with
      | ((_, Some _), w) => w
      | ((_, None), w) => copy_all pieces w
      end
  end.

(** A [strings.Builder] takes all it is given. *)
Fixpoint build_all (pieces : list string) (w : limitedWriter) : limitedWriter :=
  match pieces with
  | [] => w
  | p :: pieces =>
      let length := Z.of_nat (String.length p) in
      build_all pieces (snd (Write (Z.max 0 (Z.min (remaining w) length), None) p w))
  end.

Definition new_writer (limit : Z) : limitedWriter := mkWriter "" limit 0 false.

(** ** A step *)

Definition no_result (name : string) : Result := mkResult name "" 0 false 0 "" 0.

Definition command_of (step : Step) (opts : Options) : command :=
  mkCommand (s_Run step) (o_WorkDir opts) (o_Env opts ++ s_Env step) (o_StepTimeout opts).

Definition failed_step (step : Step) (why : gerror) : gerror :=
  Wrap (Error ErrStepFailed +:+ ": " +:+ s_As step +:+ ": " +:+ Error why) [ErrStepFailed; why].

(** What a step's shell comes to. *)
Definition finish_step (step : Step) (path : string) (opts : Options) (ran : shellRun)
  : Result * option gerror :=
  let counter := copy_all (h_Stdout ran) (new_writer (o_MaxBytes opts)) in
  let stderr := kept (build_all (h_Stderr ran) (new_writer (o_MaxBytes opts))) in
  let result code :=
    mkResult (s_As step) path (written counter) (truncated counter) code stderr (h_Duration ran) in
  match h_Run ran with
  | WaitOK =>
      (result 0, match h_Ctx ran with Some err => Some (failed_step step err) | None => None end)
  | WaitExit code _ =>
      (result code, Some (wrap_after ErrStepFailed (": " +:+ s_As step +:+ " exited " +:+ show_Z code)))
  | WaitFailed err => (result (-1), Some (failed_step step err))
  end.

Definition runStep (step : Step) (opts : Options) : prog (Result * option gerror) :=
  if negb (safeName (s_As step)) then
    Ret (no_result (s_As step),
         Some (Text ("gather step writes " +:+ quote (s_As step) +:+ ", which is not a name it may write")))
  else
    let path := Join [o_WorkDir opts; s_As step] in
    let! created := Do (CreateFile path) in
    match created with
    | Some (true, _) =>
        Ret (mkResult (s_As step) path 0 false 0 "" 0,
             Some (Text ("two gather steps write " +:+ quote (s_As step))))
    | Some (false, err) =>
        Ret (mkResult (s_As step) path 0 false 0 "" 0,
             Some (wrap_before ("creating " +:+ s_As step) err))
    | None =>
        let! ran := Do (Shell (command_of step opts)) in
        Ret (finish_step step path opts ran)
    end.

Fixpoint run_steps (steps : list Step) (opts : Options) : prog (list Result * option gerror) :=
  match steps with
  | [] => Ret ([], None)
  | step :: steps =>
      let! (result, err) := runStep step opts in
      match err with
      | Some err => Ret ([result], Some err)
      | None =>
          let! (results, err) := run_steps steps opts in
          Ret (result :: results, err)
      end
  end.

Definition with_bounds (opts : Options) : Options :=
  mkOptions (o_WorkDir opts) (if o_MaxBytes opts <=? 0 then DefaultMaxBytes else o_MaxBytes opts)
    (if o_StepTimeout opts <=? 0 then DefaultStepTimeout else o_StepTimeout opts) (o_Env opts).

Definition Run (steps : list Step) (opts : Options) : prog (list Result * option gerror) :=
  run_steps steps (with_bounds opts).

(** ** The writer's bound *)

(** A target that takes no more than it is given, and all of it unless it fails. *)
Definition honest (offered : Z) (answer : Z * option gerror) : Prop :=
  0 <= fst answer <= offered ∧ (snd answer = None → fst answer = offered).

Definition offered (w : limitedWriter) (p : string) : Z :=
  Z.max 0 (Z.min (remaining w) (Z.of_nat (String.length p))).

Definition writer_ok (limit : Z) (w : limitedWriter) : Prop :=
  0 <= remaining w ∧ remaining w + written w = limit ∧ 0 <= written w ∧
  Z.of_nat (String.length (kept w)) = written w.

Lemma str_take_length n s : String.length (str_take n s) = Nat.min n (String.length s).
Proof. revert n. induction s as [|c s IH]; intros [|n]; simpl; [done..|]. by rewrite IH. Qed.

Lemma Write_ok limit w p answer r w' :
  writer_ok limit w → honest (offered w p) answer → Write answer p w = (r, w') →
  writer_ok limit w' ∧ (snd r = None → fst r = Z.of_nat (String.length p)).
Proof.
  unfold writer_ok, honest, offered, Write. destruct answer as [took err]. simpl fst. simpl snd.
  intros (Hr & Hs & Hw & Hk) [Ht Hf] H. apply (inj2 pair) in H as [<- <-]. cbn [fst snd remaining written kept].
  rewrite str_length_app, str_take_length. split; [|by destruct err].
  split_and!; [lia|lia|lia|].
  rewrite Nat2Z.inj_add, Hk, Nat2Z.inj_min, Z2Nat.id by lia.
  destruct (remaining w <? _) eqn:E; bool_facts; [rewrite str_take_length, Nat2Z.inj_min, Z2Nat.id by lia|]; lia.
Qed.

(** The pieces of an output, each answered by a target of its own. *)
Fixpoint honest_all (pieces : list (string * (Z * option gerror))) (w : limitedWriter) : Prop :=
  match pieces with
  | [] => True
  | (p, answer) :: pieces =>
      honest (offered w p) answer ∧
      (snd answer = None → honest_all pieces (snd (Write answer p w)))
  end.

Lemma copy_all_ok limit pieces w :
  writer_ok limit w → honest_all pieces w → writer_ok limit (copy_all pieces w).
Proof.
  revert w. induction pieces as [|[p answer] pieces IH]; intros w Hw Hh; [done|]. simpl in *.
  destruct Hh as [Ha Hh]. destruct (Write answer p w) as [[n err] w'] eqn:E.
  pose proof (Write_ok _ _ _ _ _ _ Hw Ha E) as [Hw' _].
  assert (err = snd answer) as -> by (unfold Write in E; destruct answer; by simplify_eq).
  destruct (snd answer) eqn:Es; [done|]. apply IH; [done|]. by apply Hh.
Qed.

(** What a writer keeps of a target that never fails is the beginning of what it was given, as
    much of it as the limit, and it says so when there was more. *)
Lemma copy_all_prefix pieces : ∀ limit w text,
  writer_ok limit w → honest_all pieces w → Forall (λ p, snd (snd p) = None) pieces →
  kept w = str_take (Z.to_nat limit) text → truncated w = (limit <? Z.of_nat (String.length text)) →
  let text' := text +:+ String.concat "" (map fst pieces) in
  let w' := copy_all pieces w in
  kept w' = str_take (Z.to_nat limit) text' ∧
  truncated w' = (limit <? Z.of_nat (String.length text')).
Proof.
  induction pieces as [|[p answer] pieces IH]; intros limit w text Hw Hh Hn Hk Ht; cbn zeta.
  { simpl. by rewrite str_app_nil_r. }
  apply Forall_cons in Hn as [Hn1 Hn]. simpl in Hn1.
  change (honest (offered w p) answer ∧
    (snd answer = None → honest_all pieces (snd (Write answer p w)))) in Hh. destruct Hh as [Ha Hh].
  cbn [copy_all]. destruct (Write answer p w) as [[n err] w'] eqn:E.
  pose proof (Write_ok _ _ _ _ _ _ Hw Ha E) as [Hw' _]. specialize (Hh Hn1).
  cbn [snd] in Hh. unfold Write in E. destruct answer as [took err']. simpl in Hn1. subst err'.
  apply (inj2 pair) in E as [E1 E2]. apply (inj2 pair) in E1 as [_ <-].
  assert (String.concat "" (map fst ((p, (took, None : option gerror)) :: pieces)) =
          p +:+ String.concat "" (map fst pieces)) as ->.
  { simpl. destruct pieces; simpl; [by rewrite str_app_nil_r|done]. }
  rewrite str_app_assoc. apply IH; [done..| |].
  all: destruct Ha as [Hb Hf]; specialize (Hf eq_refl); unfold offered in *; simpl in Hf, Hb;
    destruct Hw as (Hr & Hs & Hwr & Hl); rewrite <- E2; cbn [kept truncated]; clear IH Hh E2.
  - rewrite Hk in Hl. rewrite str_take_length in Hl.
    destruct (decide (Z.of_nat (String.length text) <= limit)) as [Hle|Hgt].
    + rewrite Hk, (str_take_all (Z.to_nat limit) text) in * by lia.
      assert (limit = Z.of_nat (String.length text) + remaining w) as Hlim by lia.
      replace (Z.to_nat limit) with (String.length text + Z.to_nat (remaining w))%nat by lia.
      rewrite str_take_add, str_take_app, str_drop_app. f_equal.
      destruct (remaining w <? Z.of_nat (String.length p)) eqn:E; bool_facts.
      * rewrite str_take_all; [f_equal; lia|]. rewrite str_take_length. lia.
      * rewrite !str_take_all; [done|lia|lia].
    + assert (remaining w = 0) as Hz by lia. assert (took = 0) as -> by lia.
      simpl. rewrite str_app_nil_r, Hk.
      replace (Z.to_nat limit) with (String.length (str_take (Z.to_nat limit) text)) at 2
        by (rewrite str_take_length; lia).
      rewrite <- (str_take_drop (Z.to_nat limit) text) at 3. by rewrite <- str_app_assoc, str_take_app.
  - rewrite str_length_app, Ht, Hk in *. rewrite str_take_length in Hl.
    destruct (limit <? Z.of_nat (String.length text)) eqn:E1, (remaining w <? _) eqn:E2'; simpl; bool_facts;
      symmetry; try (apply Z.ltb_lt; lia); try (apply Z.ltb_ge; lia).
Qed.

(** What a step's file holds is the beginning of what its command printed, as much of it as the
    stage's limit; the result counts exactly those bytes and says it is truncated exactly when
    there were more; and however the disk answers, no step writes past the limit. *)
Theorem a_step_keeps_the_beginning step path opts ran :
  0 <= o_MaxBytes opts →
  let limit := o_MaxBytes opts in
  honest_all (h_Stdout ran) (new_writer limit) →
  let file := kept (copy_all (h_Stdout ran) (new_writer limit)) in
  let result := fst (finish_step step path opts ran) in
  r_Bytes result = Z.of_nat (String.length file) ∧ r_Bytes result <= limit ∧
  (Forall (λ p, snd (snd p) = None) (h_Stdout ran) →
   let output := String.concat "" (map fst (h_Stdout ran)) in
   file = str_take (Z.to_nat limit) output ∧
   r_Truncated result = (limit <? Z.of_nat (String.length output))).
Proof.
  intros Hl limit Hh file result.
  assert (writer_ok limit (new_writer limit)) as Hw by (unfold writer_ok; simpl; lia).
  pose proof (copy_all_ok _ _ _ Hw Hh) as (Hr & Hs & Hwr & Hk).
  assert (r_Bytes result = written (copy_all (h_Stdout ran) (new_writer limit)) ∧
          r_Truncated result = truncated (copy_all (h_Stdout ran) (new_writer limit))) as [-> ->]
    by (unfold result, finish_step; by destruct (h_Run ran)).
  split; [by unfold file|]. split; [lia|]. intros Hn.
  apply (copy_all_prefix _ limit _ ""); [done..|simpl|simpl].
  - by destruct (Z.to_nat limit).
  - symmetry. apply Z.ltb_ge. lia.
Qed.

Definition loud_step : Step := mkStep "journalctl -u app" "log.txt" [].
Definition small : Options := mkOptions "/work/r1" 4 Second [].
Definition loud_run : shellRun := mkShellRun [("ab", (2, None)); ("cdef", (2, None)); ("gh", (0, None))] [] WaitOK None 0.

Lemma a_step_keeps_the_beginning_witness :
  kept (copy_all (h_Stdout loud_run) (new_writer 4)) = "abcd" ∧
  r_Bytes (fst (finish_step loud_step "/work/r1/log.txt" small loud_run)) <= 4.
Proof.
  split; [reflexivity|].
  refine (proj1 (proj2 (a_step_keeps_the_beginning loud_step "/work/r1/log.txt" small loud_run _ _))).
  - simpl. lia.
  - simpl. unfold honest, offered. simpl. repeat split; intros; lia.
Defined.

(** ** The stage, step by step *)

(** The shell lines of a trace. *)
Definition shell_of (e : event (Sg := host_sig)) : option command :=
  match cmd_of e with Shell c => Some c | _ => None end.
Definition shells (tr : trace) : list command := omap shell_of tr.

Lemma runStep_runs step opts tr result err :
  runs (runStep step opts) tr (result, err) →
  r_Name result = s_As step ∧
  ((shells tr = [command_of step opts] ∧ safeName (s_As step) = true ∧
    (err = None → r_ExitCode result = 0)) ∨ (shells tr = [] ∧ err ≠ None)).
Proof.
  unfold runStep. destruct (safeName (s_As step)) eqn:Es; simpl negb; cbn iota; intros H.
  2: { take_host. split; [done|]. by right. }
  apply runs_bind in H as (created & tr1 & tr2 & -> & H1%runs_did & H2). subst tr1.
  destruct created as [[[|] cerr]|]; take_host; [by split; [|right]..|].
  match goal with |- context [did (Shell _) ?r] => rename r into ran end.
  assert (finish_step step (Join [o_WorkDir opts; s_As step]) opts ran = (result, err)) as H by done.
  split; [unfold finish_step in H; destruct (h_Run ran); by simplify_eq|]. left. split; [done|].
  split; [done|]. intros ->. unfold finish_step in H. destruct (h_Run ran); [by simplify_eq|done|done].
Qed.

(** The stage runs its steps in order and stops at the first that fails: the results are of the
    steps from the first, each shell run is a step's own line, in the run's working directory,
    in the stage's environment and what the step alone was bound, under the step's timeout;
    with no error every step ran and exited zero, and with one only the last result is not. *)
Theorem gather_stops_at_a_failure steps opts tr results err :
  runs (Run steps opts) tr (results, err) →
  let commands := map (λ s, command_of s (with_bounds opts)) steps in
  map r_Name results = take (length results) (map s_As steps) ∧
  shells tr = take (length (shells tr)) commands ∧
  match err with
  | None => length results = length steps ∧ shells tr = commands ∧
            Forall (λ r, r_ExitCode r = 0) results
  | Some _ => ∃ before last, results = before ++ [last] ∧ Forall (λ r, r_ExitCode r = 0) before ∧
              (length before <= length (shells tr) <= length results)%nat
  end.
Proof.
  unfold Run. generalize (with_bounds opts). clear opts. intros opts.
  revert tr results err. induction steps as [|step steps IH]; intros tr results err H; cbn zeta.
  { simpl in H. take_host. done. }
  cbn [run_steps] in H. apply runs_bind in H as ([result e] & tr1 & tr2 & -> & H1 & H2).
  apply runStep_runs in H1 as [Hname Hs]. unfold shells in *. rewrite omap_app. destruct e as [e|].
  - take_host. rewrite app_nil_r. simpl. rewrite Hname. split; [done|].
    destruct Hs as [(-> & _ & _)|[-> _]]; simpl; (split; [done|]); exists [], result; simpl;
      (split; [done|split; [constructor|lia]]).
  - destruct Hs as [(-> & _ & Hx)|[_ []]]; [|done]. specialize (Hx eq_refl).
    apply runs_bind in H2 as ([results' err'] & tr3 & tr4 & -> & H3 & H4). take_host.
    rewrite app_nil_r. destruct (IH _ _ _ H3) as (Hn & Ht & He). clear IH H3. simpl.
    rewrite Hname, Hn. split; [done|]. split; [by rewrite <- Ht|]. destruct err as [err|].
    + destruct He as (before & last & -> & Hb & Hlen). exists (result :: before), last.
      split; [done|]. split; [by constructor|]. simpl. lia.
    + destruct He as (-> & -> & Hb). split; [done|]. split; [done|]. by constructor.
Qed.

Definition two_steps : list Step := [mkStep "cat a" "a.txt" ["GRONIN_CONFIG_X=1"]; mkStep "cat b" "b.txt" []].
Definition failing_host (c : host_cmd) (w : unit) : host_resp c * unit :=
  (match c return host_resp c with
   | Shell _ => mkShellRun [] [] (WaitExit 2 ErrUnavailable) None 0 | c => quiet c end, w).
Definition gathered := Run two_steps (mkOptions "/work/r1" 0 0 ["PATH=/bin"]).

Lemma gather_stops_at_a_failure_witness :
  ∃ tr results err, runs gathered tr (results, err) ∧ length results = 1%nat ∧
    shells tr = [mkCommand "cat a" "/work/r1" ["PATH=/bin"; "GRONIN_CONFIG_X=1"] DefaultStepTimeout] ∧
    map r_Name results = take (length results) ["a.txt"; "b.txt"].
Proof.
  pose proof (exec_runs (Sg := host_sig) failing_host gathered tt) as Hr.
  destruct (fst (exec (Sg := host_sig) failing_host gathered tt)) as [results err] eqn:E.
  eexists _, results, err. split; [exact Hr|].
  pose proof (gather_stops_at_a_failure two_steps _ _ _ _ Hr) as (Hn & _ & _).
  split; [|split; [|exact Hn]].
  - revert E. clear. vm_compute. intros E. injection E as <- <-. reflexivity.
  - vm_compute. reflexivity.
Defined.
