(* ===== verification/McpCatalog.v ===== *)
(** The deployment's MCP servers: [src/runtime/internal/mcpcatalog/mcpcatalog.go].

    Reading the file is an argument of [Load]; its JSON is decoded as the struct tags say. *)
From S2P Require Import Prelude GoStr GoTime GoErr Config Playbook GoJson GoMarshal.

Record Entry := mkEntry {
  e_Command : string; e_Args : list string; e_Env : gmap string string;
  e_URL : string; e_Headers : gmap string string }.
Definition empty_entry : Entry := mkEntry "" [] ∅ "" ∅.

Definition isStdio (e : Entry) : bool := negb (String.eqb (e_Command e) "").
Definition isHTTP (e : Entry) : bool := negb (String.eqb (e_URL e) "").

Definition validate (e : Entry) (name : string) : option gerror :=
  if isStdio e && isHTTP e then
    Some (Text ("mcp server " +:+ quote name
                +:+ " names both a command and a url; accepted: exactly one transport"))
  else if negb (isStdio e) && negb (isHTTP e) then
    Some (Text ("mcp server " +:+ quote name
                +:+ " names neither a command nor a url; accepted: a command (stdio) or a url (http)"))
  else None.

Record Catalog := mkCatalog { entries : gmap string Entry }.

Definition catalogFile : string := "mcp_servers.json".

(** ** Decoding *)

(** A map of strings: its members added to what it was, a null making it nil. *)
Definition decode_strings (raw : string) (old : gmap string string) : option (gmap string string) :=
  match Unmarshal raw with
  | Some (AMap _) =>
      match raw_members raw with
      | None => None
      | Some members =>
          foldl (λ acc m, match acc, decode_string (snd m) "" with
                          | Some acc, Some text => Some (<[fst m := text]> acc)
                          | _, _ => None
                          end) (Some old) members
      end
  | Some ANil => Some ∅
  | _ => None
  end.

Definition entry_of (raw : string) : option Entry :=
  match Unmarshal raw with
  | Some (AMap _) =>
      match raw_members raw with
      | None => None
      | Some ms =>
          match field decode_string "command" ms "",
                field (decode_list (λ raw, decode_string raw "")) "args" ms [],
                field decode_strings "env" ms ∅, field decode_string "url" ms "",
                field decode_strings "headers" ms ∅ with
          | Some command, Some args, Some env, Some url, Some headers =>
              Some (mkEntry command args env url headers)
          | _, _, _, _, _ => None
          end
      end
  | Some ANil => Some empty_entry
  | _ => None
  end.

Definition decode_entries (data : string) : option (gmap string Entry) :=
  match Unmarshal data with
  | Some (AMap _) =>
      match raw_members data with
      | None => None
      | Some members =>
          foldl (λ acc m, match acc, entry_of (snd m) with
                          | Some acc, Some e => Some (<[fst m := e]> acc)
                          | _, _ => None
                          end) (Some ∅) members
      end
  | Some ANil => Some ∅
  | _ => None
  end.

Definition entry_problems (entries : gmap string Entry) : list gerror :=
  omap (λ name, match entries !! name with Some e => validate e name | None => None end)
    (sorted_keys entries).

(** [read] is the file: absent, unreadable for a reason, or its content; the text of a decoding
    error is the library's. *)
Definition Load (read : option gerror + string) : gerror + Catalog :=
  match read with
  | inl None => inr (mkCatalog ∅)
  | inl (Some err) => inl (wrap_before "reading the MCP server catalogue" err)
  | inr data =>
      match decode_entries data with
      | None => inl (wrap_before "parsing the MCP server catalogue" (Text "json"))
      | Some entries =>
          match errors_join (entry_problems entries) with
          | Some err => inl err
          | None => inr (mkCatalog entries)
          end
      end
  end.

Definition Names (c : Catalog) : list string := sorted_keys (entries c).

(** ** Resolving *)

Section resolve.
Context (interpolate : string → gerror + string).

Fixpoint resolve_keys (server kind : string) (values : gmap string string) (keys : list string)
    (out : gmap string string) : gerror + gmap string string :=
  match keys with
  | [] => inr out
  | key :: keys =>
      match interpolate (default "" (values !! key)) with
      | inl err => inl (wrap_before ("mcp server " +:+ quote server +:+ ": " +:+ kind +:+ " " +:+ quote key) err)
      | inr resolved => resolve_keys server kind values keys (<[key := resolved]> out)
      end
  end.

Definition resolveAll (server kind : string) (values : gmap string string)
  : gerror + gmap string string := resolve_keys server kind values (sorted_keys values) ∅.

(** A map of strings as a value to be written down, its members in the order of their keys. *)
Definition strings_value (values : gmap string string) : any :=
  AMap (map (λ key, (key, AString (default "" (values !! key)))) (sorted_keys values)).

Definition Resolve (c : Catalog) (name : string) : gerror + any :=
  match entries c !! name with
  | None => inl (Text ("mcp server " +:+ quote name +:+ " is not in the catalogue"))
  | Some entry =>
      if isStdio entry then
        let* env := resolveAll name "env" (e_Env entry) in
        inr (AMap ([("command", AString (e_Command entry))]
                   ++ (match e_Args entry with [] => [] | args => [("args", AList (map AString args))] end)
                   ++ (if decide (env = ∅) then [] else [("env", strings_value env)])))
      else
        let* headers := resolveAll name "header" (e_Headers entry) in
        inr (AMap ([("type", AString "http"); ("url", AString (e_URL entry))]
                   ++ (if decide (headers = ∅) then [] else [("headers", strings_value headers)])))
  end.

Definition reference_problems (c : Catalog) (name : string) : list gerror :=
  let entry := default empty_entry (entries c !! name) in
  (match resolveAll name "env" (e_Env entry) with inl err => [err] | inr _ => [] end) ++
  (match resolveAll name "header" (e_Headers entry) with inl err => [err] | inr _ => [] end).

Definition CheckReferences (c : Catalog) : option gerror :=
  errors_join (concat (map (reference_problems c) (Names c))).

(** *** A catalogue that checks resolves *)

Lemma resolve_keys_spec server kind values keys out r :
  resolve_keys server kind values keys out = inr r →
  ∀ key, r !! key = if decide (key ∈ keys) then
                      match interpolate (default "" (values !! key)) with inr v => Some v | inl _ => None end
                    else out !! key.
Proof.
  revert out. induction keys as [|k keys IH]; intros out; cbn [resolve_keys].
  { intros [= ->] key. by rewrite decide_False by by intros ?%not_elem_of_nil. }
  destruct (interpolate _) as [|v] eqn:E; [done|]. intros H key. rewrite (IH _ H).
  destruct (decide (key ∈ keys)) as [Hk|Hk].
  - by rewrite decide_True by by right.
  - destruct (decide (key = k)) as [->|Hne].
    + rewrite decide_True, E by by left. by rewrite lookup_insert_eq.
    + rewrite decide_False, lookup_insert_ne by (done || by intros [->|?]%elem_of_cons). done.
Qed.

Lemma resolve_keys_fails server kind values keys out err :
  resolve_keys server kind values keys out = inl err →
  ∃ key err', key ∈ keys ∧ interpolate (default "" (values !! key)) = inl err'.
Proof.
  revert out. induction keys as [|k keys IH]; intros out; simpl; [done|].
  destruct (interpolate _) as [e|v] eqn:E.
  - intros _. exists k, e. split; [by left|done].
  - intros (key & e & Hk & He)%IH. exists key, e. split; [by right|done].
Qed.

Lemma resolve_keys_each server kind values keys out r :
  resolve_keys server kind values keys out = inr r →
  ∀ key, key ∈ keys → ∃ v, interpolate (default "" (values !! key)) = inr v.
Proof.
  revert out. induction keys as [|k keys IH]; intros out; cbn [resolve_keys].
  { intros _ key []%not_elem_of_nil. }
  destruct (interpolate _) as [|v] eqn:E; [done|]. intros H key [->|Hk]%elem_of_cons; eauto.
Qed.

Lemma resolveAll_each server kind values r key value :
  resolveAll server kind values = inr r → values !! key = Some value → ∃ v, interpolate value = inr v.
Proof.
  intros H Hk. destruct (resolve_keys_each _ _ _ _ _ _ H key) as [v Hv].
  { apply elem_of_sorted_keys. eauto. }
  rewrite Hk in Hv. eauto.
Qed.

Lemma resolveAll_total server kind values :
  (∀ key value, values !! key = Some value → ∃ r, interpolate value = inr r) →
  ∃ r, resolveAll server kind values = inr r.
Proof.
  intros H. unfold resolveAll. destruct (resolve_keys _ _ _ _ _) as [err|r] eqn:E; [|eauto].
  apply resolve_keys_fails in E as (key & err' & [v Hv]%elem_of_sorted_keys & He).
  rewrite Hv in He. simpl in He. destruct (H key v Hv) as [r Hr]. congruence.
Qed.

Lemma resolveAll_values server kind values r key :
  resolveAll server kind values = inr r →
  r !! key = match values !! key with
             | Some value => match interpolate value with inr v => Some v | inl _ => None end
             | None => None
             end.
Proof.
  intros H. unfold resolveAll in H. rewrite (resolve_keys_spec _ _ _ _ _ _ H key), lookup_empty.
  destruct (decide (key ∈ sorted_keys values)) as [Hk|Hk]; rewrite elem_of_sorted_keys in Hk.
  - destruct Hk as [v ->]. done.
  - by apply eq_None_not_Some in Hk as ->.
Qed.

End resolve.

(** ** Listing *)

Definition keysOf (label : string) (values : gmap string string) : string :=
  match sorted_keys values with
  | [] => ""
  | keys => " (" +:+ label +:+ ": " +:+ join keys ", " +:+ ")"
  end.

Definition Summary (c : Catalog) (name : string) : string :=
  match entries c !! name with
  | None => ""
  | Some entry =>
      if isStdio entry then
        let args := join (e_Args entry) " " in
        let args := if String.eqb args "" then args else " " +:+ args in
        "stdio  " +:+ e_Command entry +:+ args +:+ keysOf "env" (e_Env entry)
      else "http   " +:+ e_URL entry +:+ keysOf "headers" (e_Headers entry)
  end.

(** ** What holds of the catalogue *)

(** A catalogue whose references check has every server it names: each resolves, under the same
    resolver, to one transport, its command and arguments or its url as they were written,
    and exactly the environment or header values written resolved. *)
Theorem a_checked_catalogue_resolves read interpolate c name entry :
  Load read = inr c → CheckReferences interpolate c = None → entries c !! name = Some entry →
  name ∈ Names c ∧ isStdio entry = negb (isHTTP entry) ∧
  ∃ resolved,
    (∀ key, resolved !! key = match (if isStdio entry then e_Env entry else e_Headers entry) !! key with
                              | Some value => match interpolate value with inr v => Some v | inl _ => None end
                              | None => None
                              end) ∧
    (∀ key value, (if isStdio entry then e_Env entry else e_Headers entry) !! key = Some value →
       ∃ v, interpolate value = inr v) ∧
    Resolve interpolate c name =
      inr (AMap ((if isStdio entry
                  then ("command", AString (e_Command entry)) ::
                       (match e_Args entry with [] => [] | args => [("args", AList (map AString args))] end)
                  else [("type", AString "http"); ("url", AString (e_URL entry))])
                 ++ (if decide (resolved = ∅) then []
                     else [(if isStdio entry then "env" else "headers", strings_value resolved)]))).
Proof.
  intros Hl Hc He. assert (name ∈ Names c) as Hn by (apply elem_of_sorted_keys; eauto).
  split; [done|]. split.
  { unfold Load in Hl. destruct read as [[err|]|data]; [done| |].
    - injection Hl as <-. simpl in He. by rewrite lookup_empty in He.
    - destruct (decode_entries data) as [es|]; [|done].
      destruct (errors_join (entry_problems es)) eqn:Ej; [done|]. injection Hl as <-. simpl in *.
      assert (entry_problems es = []) as Hp by (by destruct (entry_problems es)).
      assert (validate entry name = None) as Hv.
      { destruct (validate entry name) as [err|] eqn:Ev; [|done]. exfalso.
        assert (err ∈ entry_problems es) as Hin; [|rewrite Hp in Hin; by apply not_elem_of_nil in Hin].
        unfold entry_problems. apply list_elem_of_omap. exists name. by rewrite He. }
      unfold validate in Hv. by destruct (isStdio entry), (isHTTP entry). }
  assert (reference_problems interpolate c name = []) as Hr.
  { unfold CheckReferences in Hc. destruct (concat _) as [|x l] eqn:E; [|done].
    apply concat_nil_Forall, Forall_map in E. rewrite Forall_forall in E. by apply E. }
  unfold reference_problems in Hr. rewrite He in Hr. simpl in Hr. apply app_eq_nil in Hr as [H1 H2].
  unfold Resolve. rewrite He. destruct (isStdio entry).
  - destruct (resolveAll _ _ "env" _) as [|env] eqn:E; [done|]. exists env.
    pose proof (λ key, resolveAll_values _ _ _ _ _ key E) as Hv. split; [exact Hv|].
    split; [intros key value; by apply (resolveAll_each _ _ _ _ _ _ _ E)|].
    by destruct (decide (env = ∅)).
  - destruct (resolveAll _ _ "header" _) as [|headers] eqn:E; [done|]. exists headers.
    pose proof (λ key, resolveAll_values _ _ _ _ _ key E) as Hv. split; [exact Hv|].
    split; [intros key value; by apply (resolveAll_each _ _ _ _ _ _ _ E)|].
    by destruct (decide (headers = ∅)).
Qed.

Definition example_document : string :=
  replace_all "{'netbox': {'command': 'netbox-mcp', 'args': ['-x'], 'env': {'TOKEN': '${config.t}'}},
                'grafana': {'url': 'https://g/mcp'}}" "'" dq.
Definition resolve_t (text : string) : gerror + string :=
  if String.eqb text "${config.t}" then inr "s3cret" else inl (Text "no").

Lemma a_checked_catalogue_resolves_witness :
  ∃ c entry, Load (inr example_document) = inr c ∧ Names c = ["grafana"; "netbox"] ∧
    entries c !! "netbox" = Some entry ∧ isStdio entry = negb (isHTTP entry) ∧
    Summary c "netbox" = "stdio  netbox-mcp -x (env: TOKEN)".
Proof.
  destruct (Load (inr example_document)) as [|c] eqn:E; [exfalso; revert E; vm_compute; discriminate|].
  assert (c = mkCatalog {["netbox" := mkEntry "netbox-mcp" ["-x"] {["TOKEN" := "${config.t}"]} "" ∅;
                          "grafana" := mkEntry "" [] ∅ "https://g/mcp" ∅]}) as ->.
  { revert E. vm_compute. intros E. by injection E as <-. }
  eexists _, _. split; [reflexivity|]. split; [vm_compute; reflexivity|]. split; [reflexivity|].
  split; [|vm_compute; reflexivity].
  refine (proj1 (proj2 (a_checked_catalogue_resolves _ resolve_t _ "netbox" _ E _ _))); reflexivity.
Defined.
