(* ===== verification/Collections.v ===== *)
(** The deployment's collections: [src/runtime/internal/collections/collections.go].

    Reading the file is an argument of [Load], and so is what [url.Parse] makes of an address:
    its scheme and whether it names a user. *)
From S2P Require Import Prelude GoStr GoTime GoPath GoErr Config Playbook GoJson GoRunes GoMarshal.

Definition Lexical : string := "lexical".
Definition Semantic : string := "semantic".
Definition DefaultRetrievalTimeout : Z := 2 * Minute.
Definition DefaultRequestTimeout : Z := 60 * Second.

Record Embeddings := mkEmbeddings {
  m_URL : string; m_Model : string; m_Credential : string; m_RequestTimeout : Z }.

(** [None] of [c_Reports] is a nil slice. *)
Record Collection := mkCollection {
  c_Name : string; c_Directory : string; c_Reports : option (list string);
  c_Embeddings : option Embeddings; c_RetrievalTimeout : Z }.

Definition Mode (c : Collection) : string :=
  match c_Embeddings c with Some _ => Semantic | None => Lexical end.

Definition Source (c : Collection) : string :=
  if String.eqb (c_Directory c) "" then "reports " +:+ join (default [] (c_Reports c)) ", "
  else "directory " +:+ c_Directory c.

Record Catalog := mkCatalog { entries : gmap string Collection }.
Definition catalogFile : string := "collections.json".

Definition Names (c : Catalog) : list string := sorted_keys (entries c).
Definition Get (c : Catalog) (name : string) : option Collection := entries c !! name.

(** ** What is written *)

Record embeddingsJSON := mkEmbeddingsJSON {
  j_URL : string; j_Model : string; j_Credential : string; j_RequestTimeout : string }.
Record entry := mkEntry {
  e_Directory : string; e_Reports : option (list string); e_Embeddings : option embeddingsJSON;
  e_RetrievalTimeout : string }.

(** Every member's key must name a field, whatever the case. *)
Definition known_fields (names : list string) (ms : list (string * string)) : bool :=
  forallb (λ m, existsb (λ n, String.eqb (lower_string (fst m)) (lower_string n)) names) ms.

Definition decode_reports (raw : string) (old : option (list string)) : option (option (list string)) :=
  match Unmarshal raw with
  | Some ANil => Some None
  | _ => Some <$> decode_list (λ raw, decode_string raw "") raw []
  end.

Definition decode_embeddings (raw : string) (old : option embeddingsJSON) : option (option embeddingsJSON) :=
  match Unmarshal raw with
  | Some ANil => Some None
  | Some (AMap _) =>
      match raw_members raw with
      | None => None
      | Some ms =>
          if negb (known_fields ["url"; "model"; "credential"; "request_timeout"] ms) then None
          else
            let old := default (mkEmbeddingsJSON "" "" "" "") old in
            match field decode_string "url" ms (j_URL old), field decode_string "model" ms (j_Model old),
                  field decode_string "credential" ms (j_Credential old),
                  field decode_string "request_timeout" ms (j_RequestTimeout old) with
            | Some url, Some model, Some credential, Some timeout =>
                Some (Some (mkEmbeddingsJSON url model credential timeout))
            | _, _, _, _ => None
            end
      end
  | _ => None
  end.

Definition decode_entry (raw : string) : option entry :=
  match Unmarshal raw with
  | Some ANil => Some (mkEntry "" None None "")
  | Some (AMap _) =>
      match raw_members raw with
      | None => None
      | Some ms =>
          if negb (known_fields ["directory"; "reports"; "embeddings"; "retrieval_timeout"] ms) then None
          else
            match field decode_string "directory" ms "", field decode_reports "reports" ms None,
                  field decode_embeddings "embeddings" ms None,
                  field decode_string "retrieval_timeout" ms "" with
            | Some directory, Some reports, Some embeddings, Some timeout =>
                Some (mkEntry directory reports embeddings timeout)
            | _, _, _, _ => None
            end
      end
  | _ => None
  end.

(** The first value of the file, whatever follows it. *)
Definition decode_catalogue (data : string) : option (gmap string entry) :=
  match raw_value data with
  | None => None
  | Some (raw, _) =>
      match Unmarshal raw with
      | Some ANil => Some ∅
      | Some (AMap _) =>
          match raw_members raw with
          | None => None
          | Some members =>
              foldl (λ acc m, match acc, decode_entry (snd m) with
                              | Some acc, Some e => Some (<[fst m := e]> acc)
                              | _, _ => None
                              end) (Some ∅) members
          end
      | _ => None
      end
  end.

(** ** Resolving an entry *)

Definition slug_first (c : ascii) : bool := is_lower c || is_digit c.
Definition slug (name : string) : bool :=
  match name with
  | String c rest =>
      slug_first c && str_all (λ c, slug_first c || Ascii.eqb c "-") rest && (String.length rest <=? 62)%nat
  | EmptyString => false
  end.

(** One configuration reference and nothing else. *)
Definition configReference (text : string) : bool :=
  match cut_prefix text "${config." with
  | None => false
  | Some rest =>
      let (key, rest) := span_str (λ c, negb (Ascii.eqb c "{" || Ascii.eqb c "}" || Ascii.eqb c ".")) rest in
      negb (String.eqb key "") && String.eqb rest "}"
  end.

Definition appliedSources : list string := ["directory"; "reports"].

Definition refuse (name field found accepted : string) : gerror :=
  Text ("collection " +:+ quote name +:+ ": " +:+ field +:+ " " +:+ found +:+ "; accepted: " +:+ accepted).

(** [duration]: what a declared bound is, and what is wrong with it. *)
Definition duration (name text field : string) : list gerror * option Z :=
  if String.eqb text "" then ([], None)
  else
    match ParseDuration text with
    | inl _ => ([refuse name field (quote text +:+ " is not a duration") "a duration such as 30s, 60s or 2m"], None)
    | inr parsed =>
        if parsed <=? 0 then
          ([refuse name field (quote text +:+ " is not positive")
              "a duration above zero; a bound of nothing refuses every retrieval"], None)
        else ([], Some parsed)
    end.

Definition source_problems (name : string) (e : entry) : list gerror :=
  let directory := negb (String.eqb (e_Directory e) "") in
  match e_Reports e with
  | Some (_ :: _) =>
      if directory then [refuse name "directory" "is given with reports" "exactly one source"] else []
  | Some [] =>
      [refuse name "reports" "is empty" "the reports of at least one playbook this deployment records"]
  | None =>
      if negb directory then
        [refuse name "the entry" "names neither a directory nor reports"
           "exactly one source: a directory, or the reports of named playbooks"]
      else if negb (IsAbs (e_Directory e)) then
        [refuse name "directory" (quote (e_Directory e) +:+ " is relative")
           "an absolute path; it is resolved on the host the runtime runs on"]
      else []
  end.

Fixpoint report_problems (name : string) (at_ : nat) (reports : list string) : list gerror :=
  match reports with
  | [] => []
  | playbook :: reports =>
      (if slug playbook then []
       else [refuse name ("reports[" +:+ show_nat at_ +:+ "]")
               (quote playbook +:+ " is not the shape of a playbook name") "letters, digits and hyphens"])
      ++ report_problems name (S at_) reports
  end.

Section load.
Context (parse_url : string → option (string * bool)).

Definition url_problems (name url : string) : list gerror :=
  match parse_url url with
  | Some (scheme, user) =>
      if negb (String.eqb scheme "http") && negb (String.eqb scheme "https") then
        [refuse name "embeddings.url" (quote url +:+ " is not an http or https URL")
           "the full URL of an OpenAI-compatible embeddings resource"]
      else if (user : bool) then
        [refuse name "embeddings.url" "carries user information"
           "the URL alone; a credential goes in `credential`, where the redactor knows it"]
      else []
  | None =>
      [refuse name "embeddings.url" (quote url +:+ " is not an http or https URL")
         "the full URL of an OpenAI-compatible embeddings resource"]
  end.

Definition resolve_embeddings (name : string) (e : embeddingsJSON) : list gerror * Embeddings :=
  let (late, timeout) := duration name (j_RequestTimeout e) "embeddings.request_timeout" in
  ((if existsb (String.eqb "embeddings") appliedSources then []
    else [refuse name "embeddings" "is declared, and this runtime does not search by meaning yet"
            "no embeddings block; a collection nothing can search reads as available"])
   ++ url_problems name (j_URL e)
   ++ (if String.eqb (TrimSpace (j_Model e)) "" then
         [refuse name "embeddings.model" "is empty" "the model name the endpoint expects"] else [])
   ++ (if negb (String.eqb (j_Credential e) "") && negb (configReference (j_Credential e)) then
         [refuse name "embeddings.credential" "is not a single ${config.x} reference"
            "${config.x} naming a value set with `gronin config set --secret`, never a literal"] else [])
   ++ late,
   mkEmbeddings (j_URL e) (j_Model e) (j_Credential e) (default DefaultRequestTimeout timeout)).

Definition resolve (name : string) (e : entry) : list gerror * Collection :=
  let (late, timeout) := duration name (e_RetrievalTimeout e) "retrieval_timeout" in
  let embedded := resolve_embeddings name <$> e_Embeddings e in
  ((if slug name then []
    else [refuse name "the name" "is not a lowercase slug"
            "letters, digits and hyphens, as a playbook name is"])
   ++ source_problems name e
   ++ (match e_Reports e with
       | Some ((_ :: _) as reports) =>
           (if existsb (String.eqb "reports") appliedSources then []
            else [refuse name "reports" "is declared, and this runtime does not search it yet"
                    "a directory; a collection nothing can search reads as available"])
           ++ report_problems name 0 reports
       | _ => []
       end)
   ++ late ++ (match embedded with Some (problems, _) => problems | None => [] end),
   mkCollection name (e_Directory e) (e_Reports e) (snd <$> embedded) (default DefaultRetrievalTimeout timeout)).

(** Every entry resolved, in the order of their names, and every refusal. *)
Fixpoint resolve_all (raw : gmap string entry) (names : list string) : list gerror * gmap string Collection :=
  match names with
  | [] => ([], ∅)
  | name :: names =>
      let (problems, rest) := resolve_all raw names in
      match raw !! name with
      | Some e =>
          let (found, collection) := resolve name e in (found ++ problems, <[name := collection]> rest)
      | None => (problems, rest)
      end
  end.

Definition Load (read : option gerror + string) : gerror + Catalog :=
  match read with
  | inl None => inr (mkCatalog ∅)
  | inl (Some err) => inl (wrap_before "reading the collection catalogue" err)
  | inr data =>
      match decode_catalogue data with
      | None => inl (wrap_before "parsing the collection catalogue" (Text "json"))
      | Some raw =>
          let (problems, entries) := resolve_all raw (sorted_keys raw) in
          match errors_join problems with
          | Some err => inl err
          | None => inr (mkCatalog entries)
          end
      end
  end.

(** ** What a loaded collection is *)

Lemma resolve_all_entry raw names name collection :
  snd (resolve_all raw names) !! name = Some collection → fst (resolve_all raw names) = [] →
  ∃ e, raw !! name = Some e ∧ resolve name e = ([], collection).
Proof.
  induction names as [|n names IH]; cbn [resolve_all]; [cbn [fst snd]; by rewrite lookup_empty|].
  destruct (resolve_all raw names) as [problems rest]. simpl in IH.
  destruct (raw !! n) as [e|] eqn:Ee; [|done].
  destruct (resolve n e) as [found c] eqn:Er. simpl. intros Hl [-> ->]%app_eq_nil.
  destruct (decide (n = name)) as [->|Hne].
  - rewrite lookup_insert_eq in Hl. simplify_eq. eauto.
  - rewrite lookup_insert_ne in Hl by done. auto.
Qed.

Lemma duration_bound name text field t :
  duration name text field = ([], Some t) → 0 < t.
Proof.
  unfold duration. destruct (String.eqb text ""); [done|].
  destruct (ParseDuration text); [done|]. destruct (_ <=? 0) eqn:E; [done|]. bool_facts. naive_solver.
Qed.

Lemma embeddings_refused name j : ∃ p ps, fst (resolve_embeddings name j) = p :: ps.
Proof. unfold resolve_embeddings. destruct (duration _ _ _) as [late timeout]. simpl. eauto. Qed.

(** C40: A catalogue that loads holds only what this runtime searches: each collection's name is a
    slug, which names the index's file, it is searched by its words, never by an endpoint, it
    has exactly one source, an absolute directory or the reports of at least one playbook, and
    its retrieval has a bound above zero. *)
Theorem a_loaded_collection_is_searchable read catalog name collection :
  Load read = inr catalog → Get catalog name = Some collection →
  c_Name collection = name ∧ slug name = true ∧ Mode collection = Lexical ∧
  0 < c_RetrievalTimeout collection ∧
  ((IsAbs (c_Directory collection) = true ∧ c_Reports collection = None) ∨
   (c_Directory collection = "" ∧ ∃ reports, c_Reports collection = Some reports ∧ reports ≠ [] ∧
      Forall (λ r, slug r = true) reports)).
Proof.
  unfold Load, Get. destruct read as [[err|]|data]; [done| |].
  { intros H. apply (inj inr) in H as <-. cbn [entries]. rewrite lookup_empty. done. }
  destruct (decode_catalogue data) as [raw|]; [|done].
  pose proof (resolve_all_entry raw (sorted_keys raw) name collection) as Hr.
  destruct (resolve_all raw (sorted_keys raw)) as [problems es]. simpl in Hr.
  destruct problems as [|p problems]; [|done]. simpl. intros H. apply (inj inr) in H as <-. simpl.
  intros Hl. destruct (Hr Hl eq_refl) as (e & _ & He). clear Hr Hl. unfold resolve in He.
  destruct (duration name (e_RetrievalTimeout e) "retrieval_timeout") as [late timeout] eqn:Ed.
  apply (inj2 pair) in He as [Hp <-]. cbn [c_Name c_Directory c_Reports c_RetrievalTimeout].
  apply app_eq_nil in Hp as [Hslug Hp]. apply app_eq_nil in Hp as [Hsource Hp].
  apply app_eq_nil in Hp as [Hreports Hp]. apply app_eq_nil in Hp as [-> Hemb].
  split; [done|]. split; [by destruct (slug name)|]. split.
  { unfold Mode. simpl. destruct (e_Embeddings e) as [j|]; [|done]. exfalso. cbn [fmap option_fmap option_map] in Hemb.
    pose proof (embeddings_refused name j) as (p & ps & Hf). destruct (resolve_embeddings name j).
    simpl in Hf. congruence. }
  split.
  { destruct timeout as [t|]; simpl; [by eapply duration_bound|]. done. }
  unfold source_problems in Hsource. destruct (e_Reports e) as [[|r rs]|].
  - done.
  - right. destruct (String.eqb (e_Directory e) "") eqn:E0; [|done]. bool_facts. split; [done|].
    exists (r :: rs). split; [done|]. split; [done|].
    change (report_problems name 0 (r :: rs) = []) in Hreports. clear -Hreports.
    revert Hreports. generalize 0%nat. generalize (r :: rs). intros l.
    induction l as [|x l IH]; intros n H; [constructor|]. simpl in H.
    apply app_eq_nil in H as [Hx H]. constructor; [by destruct (slug x)|by eapply IH].
  - left. destruct (String.eqb (e_Directory e) ""); [done|]. by destruct (IsAbs (e_Directory e)).
Qed.

End load.

Definition example_collections : string :=
  replace_all "{'runbooks': {'directory': '/srv/runbooks', 'retrieval_timeout': '30s'},
                'past': {'reports': ['triage']}}" "'" dq.

Lemma a_loaded_collection_is_searchable_witness :
  ∃ catalog collection, Load (λ _, None) (inr example_collections) = inr catalog ∧
    Names catalog = ["past"; "runbooks"] ∧ Get catalog "runbooks" = Some collection ∧
    Mode collection = Lexical ∧ c_RetrievalTimeout collection = 30 * Second.
Proof.
  destruct (Load (λ _, None) (inr example_collections)) as [|catalog] eqn:E;
    [exfalso; revert E; vm_compute; discriminate|].
  destruct (Get catalog "runbooks") as [collection|] eqn:Eg.
  - exists catalog, collection.
    pose proof (a_loaded_collection_is_searchable (λ _, None) _ _ _ _ E Eg) as (_ & _ & Hm & _).
    assert (Names catalog = ["past"; "runbooks"] ∧ c_RetrievalTimeout collection = 30 * Second) as [Hn Ht].
    { revert E Eg. clear. vm_compute. intros E. injection E as <-. intros Eg. injection Eg as <-. split; reflexivity. }
    exact (conj eq_refl (conj Hn (conj Eg (conj Hm Ht)))).
  - exfalso. revert E Eg. clear. vm_compute. intros E. injection E as <-. discriminate.
Defined.
