(* ===== verification/Sinks.v ===== *)
(** The sinks: [sink.go], [build.go], [webhook.go], [discord.go] and [slack.go] in
    [src/runtime/internal/sink], and the type of the sink of [github.go].

    A sink is what a declaration was built into; delivering is a program over the requests it
    makes. *)
From S2P Require Import Prelude GoStr GoTime GoErr Config Playbook GoJson GoRunes GoMarshal Records Store RunRecords.
From S2P Require Import Guard Host.

(** ** [sink.go] *)

Definition StatusDelivered : string := "delivered".
Definition StatusCreated : string := "created".
Definition StatusSkipped : string := "skipped".
Definition StatusCapped : string := "capped".
Definition StatusFailed : string := "failed".

(** A report, or why there is none; [Failure] set is what says which. *)
Record Delivery := mkDelivery {
  d_PlaybookName : string; d_RunID : string; d_Report : string; d_Failure : option gerror }.

Record Outcome := mkOutcome {
  o_Sink : string; o_Status : string; o_ItemsCreated : Z; o_ItemsSkipped : Z; o_Detail : string }.
Definition no_outcome : Outcome := mkOutcome "" "" 0 0 "".

Record webhook := mkWebhook { w_name : string; w_url : string; w_textField : string }.

Record GitHub := mkGitHub {
  g_repo : string; g_token : string; g_label : string; g_cap : Z; g_capSet : bool; g_api : string }.

Inductive Sink := Messaging (w : webhook) | Creating (g : GitHub).

Definition sink_Name (s : Sink) : string :=
  match s with Messaging w => w_name w | Creating _ => "github" end.
Definition Creates (s : Sink) : bool := match s with Messaging _ => false | Creating _ => true end.
Definition Cap (s : Sink) : Z * bool :=
  match s with Messaging _ => (0, false) | Creating g => (g_cap g, g_capSet g) end.

Definition ErrNoCap : gerror := Sentinel "a sink that creates things must declare a cap".
Definition ErrUnknownType : gerror := Sentinel "this deployment implements no sink of that type".

Definition not_a_ceiling (ceiling : Z) : gerror :=
  wrap_after ErrNoCap (": " +:+ show_Z ceiling +:+ " creates nothing, which is not a ceiling").

Definition CheckCap (one : Sink) : option gerror :=
  if negb (Creates one) then None
  else
    let (ceiling, declared) := Cap one in
    if negb declared then Some (wrap_after ErrNoCap "")
    else if ceiling <=? 0 then Some (not_a_ceiling ceiling)
    else None.

(** ** [build.go] *)

(** [None] is a nil configuration. *)
Record Declaration := mkDeclaration { l_Type : string; l_Config : option (list (string * any)) }.

(** [trigger_in] is the name of the first payload reference of a text. *)
Definition trigger_in (text : string) : option string :=
  match cut text "${trigger." with
  | Some (_, after) => fst <$> cut after "}"
  | None => None
  end.

(** The fields below one, each with the part of the path that names it; a list's by index. *)
Definition sort_fields (entries : list (string * any)) : list (string * any) :=
  order_by (λ a b, String.leb (fst a) (fst b)) entries.

(** The walk of a value: strings, maps in the order of their keys, lists.  A map of a named
    type, which a YAML mapping below a sink is, is none of these. *)
Fixpoint triggerReferenceIn (depth : nat) (field : string) (value : any) : option (string * string) :=
  match depth, value with
  | _, AString text => (λ name, (field, name)) <$> trigger_in text
  | S depth, AMap entries =>
      (fix go (l : list (string * any)) : option (string * string) :=
         match l with
         | [] => None
         | (key, v) :: l =>
             match triggerReferenceIn depth (field +:+ "." +:+ key) v with
             | Some found => Some found
             | None => go l
             end
         end) (sort_fields entries)
  | S depth, AList items =>
      (fix go (at_ : nat) (l : list any) : option (string * string) :=
         match l with
         | [] => None
         | v :: l =>
             match triggerReferenceIn depth (field +:+ "[" +:+ show_nat at_ +:+ "]") v with
             | Some found => Some found
             | None => go (S at_) l
             end
         end) 0%nat items
  | _, _ => None
  end.

(** How deep a value is, which is fuel enough to walk it. *)
Fixpoint depth_of (v : any) : nat :=
  match v with
  | AMap entries | ASink entries =>
      S (foldr Nat.max 0%nat (map (λ kv, depth_of (snd kv)) entries))
  | AList items => S (foldr Nat.max 0%nat (map depth_of items))
  | _ => 0
  end.

Definition Types : list string := ["discord"; "github"; "slack"].
Definition CreatingTypes : list string := ["github"].
Definition Marker : string := "gronin".
Definition DefaultGitHubAPI : string := "https://api.github.com".

Definition repo_part (s : string) : bool :=
  let inner c := is_alnum c || Ascii.eqb c "." || Ascii.eqb c "_" || Ascii.eqb c "-" in
  match s with
  | EmptyString => false
  | String c _ => is_alnum c && str_all inner s
                  && match rev (list_ascii_of_string s) with l :: _ => is_alnum l | [] => false end
  end.
(** The pattern of a repository's name: two parts and one slash. *)
Definition repoName (s : string) : bool :=
  match GoStr.split s "/" with [owner; name] => repo_part owner && repo_part name | _ => false end.

Definition string_at (config : list (string * any)) (key : string) : string :=
  match assoc key config with Some (AString text) => text | _ => "" end.

Section build.
Context (interpolate : string → gerror + string).

Definition webhookURL (typ : string) (config : list (string * any)) : gerror + string :=
  let raw := string_at config "webhook" in
  if String.eqb raw "" then
    inl (Text ("no webhook; accepted: a reference such as ${config." +:+ typ +:+ "_webhook}"))
  else
    let* resolved := interpolate raw in
    if String.eqb resolved "" then inl (Text "the webhook resolved to nothing") else inr resolved.

Definition resolved (config : list (string * any)) (key : string) : gerror + string :=
  let raw := string_at config key in
  if String.eqb raw "" then
    inl (Text ("no " +:+ key +:+ "; accepted: a value or a reference such as ${config." +:+ key +:+ "}"))
  else interpolate raw.

(** The integers a decoder gives; a number kept as its literal is neither of the types. *)
Definition capOf (config : list (string * any)) : Z * bool :=
  match assoc "cap" config with Some (AInt n) => (n, true) | _ => (0, false) end.

Definition token_of (config : list (string * any)) : gerror + string :=
  match assoc "token" config with
  | None => inr ""
  | Some _ =>
      let* token := resolved config "token" in
      if String.eqb token "" then
        inl (Text ("token resolves to nothing; accepted: a value, or "
                   +:+ "remove the field for a deployment whose runner carries its own"))
      else inr token
  end.

Definition label_of (config : list (string * any)) : gerror + string :=
  match assoc "label" config with
  | None => inr Marker
  | Some (AString text) =>
      if contains_str text "${trigger." then
        inl (Text ("label " +:+ quote text +:+ " resolves through the trigger, which would let what "
                   +:+ "fires the run choose the bucket its cap is counted against; accepted: a label "
                   +:+ "name, or ${config.x}"))
      else
        let* label := interpolate text in
        if String.eqb (TrimSpace label) "" then
          inl (Text ("label resolves to nothing; accepted: a label name, or remove the field to use "
                     +:+ "the default"))
        else if contains_str label "," then
          inl (Text ("label " +:+ quote label +:+ " holds a comma, which GitHub reads as two labels; "
                     +:+ "accepted: one label name"))
        else inr label
  | Some _ =>
      inl (Text ("label is not a string; accepted: a label name, e.g. " +:+ quote Marker))
  end.

(** [NewGitHub]: an empty api or label is the default. *)
Definition NewGitHub (repo token label : string) (ceiling : Z) (capSet : bool) (api : string) : GitHub :=
  mkGitHub repo token (if String.eqb label "" then Marker else label) ceiling capSet
    (if String.eqb api "" then DefaultGitHubAPI else api).

Definition buildGitHub (config : list (string * any)) : gerror + Sink :=
  let* repo := resolved config "repo" in
  if negb (repoName repo) then inl (Text ("repo " +:+ quote repo +:+ " is not owner/name"))
  else
    let* token := token_of config in
    let* label := label_of config in
    let (ceiling, declared) := capOf config in
    if declared && (ceiling <=? 0) then inl (not_a_ceiling ceiling)
    else
      let* api := interpolate (string_at config "api") in
      inr (Creating (NewGitHub repo token label ceiling declared api)).

Definition buildOne (typ : string) (config : list (string * any)) : gerror + Sink :=
  if String.eqb typ "discord" then
    let* url := webhookURL typ config in inr (Messaging (mkWebhook "discord" url "content"))
  else if String.eqb typ "slack" then
    let* url := webhookURL typ config in inr (Messaging (mkWebhook "slack" url "text"))
  else if String.eqb typ "github" then buildGitHub config
  else inl (wrap_after ErrUnknownType ("; accepted: " +:+ join Types ", ")).

Definition sinks_at (at_ : nat) : string := "sinks[" +:+ show_nat at_ +:+ "]".

(** One declaration, [refuse_reference] being set for a webhook playbook. *)
Definition build_decl (refuse_reference : bool) (at_ : nat) (decl : Declaration) : gerror + Sink :=
  if String.eqb (l_Type decl) "" then
    inl (Text (sinks_at at_ +:+ ": names no type; accepted: one key naming the sink, e.g. "
               +:+ default "" (head Types)))
  else
    match l_Config decl with
    | None =>
        inl (Text (sinks_at at_ +:+ "." +:+ l_Type decl +:+ ": its value is not a mapping; accepted: the "
                   +:+ "settings for that sink, e.g. webhook: ${config." +:+ l_Type decl +:+ "_webhook}"))
    | Some config =>
        match (if refuse_reference
               then triggerReferenceIn (depth_of (AMap config)) (l_Type decl) (AMap config) else None) with
        | Some (field, name) =>
            inl (Text (sinks_at at_ +:+ "." +:+ field +:+ ": references ${trigger." +:+ name
                       +:+ "}, and a webhook playbook's sinks may not; accepted: a destination, "
                       +:+ "credential or cap bucket the deployment names, not the trigger"))
        | None =>
            match buildOne (l_Type decl) config with
            | inl err => inl (wrap_before (sinks_at at_ +:+ "." +:+ l_Type decl) err)
            | inr built =>
                match CheckCap built with
                | Some err => inl (wrap_before (sinks_at at_ +:+ "." +:+ l_Type decl) err)
                | None => inr built
                end
            end
        end
    end.

Fixpoint build_from (refuse_reference : bool) (at_ : nat) (declared : list Declaration)
  : list Sink * list gerror :=
  match declared with
  | [] => ([], [])
  | decl :: declared =>
      let (sinks, problems) := build_from refuse_reference (S at_) declared in
      match build_decl refuse_reference at_ decl with
      | inr built => (built :: sinks, problems)
      | inl err => (sinks, err :: problems)
      end
  end.

Definition Build (refuse_reference : bool) (declared : list Declaration) : list Sink * list gerror :=
  build_from refuse_reference 0 declared.

End build.

(** ** [webhook.go] *)

Definition maxMessage : nat := 1800.
Definition truncation : string := nl +:+ "… truncated; the full report is in the run record.".

Definition truncate (text : string) : string :=
  if (String.length text <=? maxMessage)%nat then text
  else str_take (rune_start_before text maxMessage) text +:+ truncation.

Definition message (delivery : Delivery) : string :=
  let heading := d_PlaybookName delivery +:+ " — run " +:+ d_RunID delivery +:+ nl in
  match d_Failure delivery with
  | Some failure =>
      truncate (heading +:+ nl +:+ "The run produced no usable report:" +:+ nl +:+ Error failure)
  | None => truncate (heading +:+ nl +:+ d_Report delivery)
  end.

Definition webhook_request (w : webhook) (delivery : Delivery) : request :=
  mkRequest "POST" (w_url w) [("Content-Type", "application/json")]
    (Marshal (AMap [(w_textField w, AString (message delivery))])).

Definition webhook_Deliver (w : webhook) (delivery : Delivery) : prog (Outcome * option gerror) :=
  let! answer := Do (HTTP (webhook_request w delivery)) in
  Ret (match answer with
       | Unbuilt err => (no_outcome, Some (wrap_before "building the request" err))
       | Failed _ => (no_outcome, Some (Text ("posting to " +:+ w_name w +:+ ": the request failed")))
       | Answered status _ =>
           if (status <? 200) || (300 <=? status) then
             (mkOutcome "" "" 0 0 ("HTTP " +:+ show_Z status),
              Some (Text (w_name w +:+ " refused the message with HTTP " +:+ show_Z status)))
           else (mkOutcome "" StatusDelivered 0 0 "", None)
       end).

(** ** The message's bound *)

(** A message fits: at most the bound, or cut at a character and told so, never through one. *)
Lemma truncate_bound text :
  (String.length text <= maxMessage)%nat ∧ truncate text = text ∨
  ∃ kept, truncate text = kept +:+ truncation ∧ (String.length kept <= maxMessage)%nat ∧
    ∃ rest, text = kept +:+ rest ∧
      (kept = "" ∨ match rest with String c _ => RuneStart c = true | EmptyString => True end).
Proof.
  unfold truncate. destruct (_ <=? _)%nat eqn:E.
  - left. split; [by apply Nat.leb_le|done].
  - right. set (n := rune_start_before text maxMessage).
    pose proof (rune_start_before_le text maxMessage) as Hle. fold n in Hle.
    exists (str_take n text). split; [done|].
    assert (∀ m s, (String.length (str_take m s) <= m)%nat) as Hlen.
    { intros m s. revert m. induction s as [|c s IH]; intros [|m]; simpl; [lia..|]. specialize (IH m). lia. }
    split; [specialize (Hlen n text); lia|]. exists (str_drop n text). split; [by rewrite str_take_drop|].
    destruct (str_drop n text) as [|c r] eqn:Ed; [by right|].
    destruct (rune_start_before_spec _ _ _ _ Ed) as [H|H]; [by right|]. left. fold n in H. by rewrite H.
Qed.

(** A messaging sink posts one request, to the address it was built with, whose text is the
    report's or the refusal's under the bound. *)
Lemma webhook_posts_once w delivery tr outcome err :
  runs (webhook_Deliver w delivery) tr (outcome, err) →
  ∃ answer, tr = [did (HTTP (webhook_request w delivery)) answer].
Proof.
  unfold webhook_Deliver. intros (answer & tr1 & tr2 & -> & H1%runs_did & [-> _])%runs_bind. subst tr1.
  by exists answer.
Qed.

(** ** What a playbook's sinks are built into *)

(** The strings a walk of a value reaches. *)
Inductive reaches : any → string → Prop :=
| reaches_here text : reaches (AString text) text
| reaches_item items v text : v ∈ items → reaches v text → reaches (AList items) text
| reaches_member entries k v text : (k, v) ∈ entries → reaches v text → reaches (AMap entries) text.

Lemma foldr_max_le {A} (f : A → nat) l x : x ∈ l → (f x <= foldr Nat.max 0%nat (map f l))%nat.
Proof. induction 1; simpl; lia. Qed.

Lemma sort_fields_elem entries kv : kv ∈ sort_fields entries ↔ kv ∈ entries.
Proof. unfold sort_fields. by rewrite order_by_perm. Qed.

Lemma triggerReferenceIn_None depth : ∀ field v text,
  (depth_of v <= depth)%nat → triggerReferenceIn depth field v = None → reaches v text →
  trigger_in text = None.
Proof.
  induction depth as [|depth IH]; intros field v text Hd Hn Hr; destruct Hr as [text|items v text Hin Hr|entries k v text Hin Hr].
  1, 4: by simpl in Hn; destruct (trigger_in text).
  1, 2: simpl in Hd; lia.
  - simpl in Hd. assert (depth_of v <= depth)%nat as Hv by (pose proof (foldr_max_le depth_of items v Hin); lia).
    clear Hd. cbn [triggerReferenceIn] in Hn. revert Hn. generalize 0%nat as at_.
    induction items as [|x items IHi]; intros at_ Hn; [by apply not_elem_of_nil in Hin|].
    destruct (triggerReferenceIn depth _ x) eqn:Ex; [done|].
    apply elem_of_cons in Hin as [->|Hin]; [by eapply IH|by eapply IHi].
  - simpl in Hd.
    assert (depth_of v <= depth)%nat as Hv.
    { pose proof (foldr_max_le (λ kv, depth_of (snd kv)) entries (k, v) Hin). simpl in *. lia. }
    clear Hd. cbn [triggerReferenceIn] in Hn. apply sort_fields_elem in Hin. revert Hn Hin.
    generalize (sort_fields entries) as l.
    induction l as [|[k' x] l IHi]; intros Hn Hin; [by apply not_elem_of_nil in Hin|].
    destruct (triggerReferenceIn depth _ x) eqn:Ex; [done|].
    apply elem_of_cons in Hin as [[= -> ->]|Hin]; [by eapply IH|by eapply IHi].
Qed.

(** What a sink built of a declaration is. *)
Definition built_of (interpolate : string → gerror + string) (refuse_reference : bool)
    (decl : Declaration) (s : Sink) : Prop :=
  ∃ config, l_Config decl = Some config ∧ sink_Name s = l_Type decl ∧ l_Type decl ∈ Types ∧
    (refuse_reference = true → ∀ text, reaches (AMap config) text → trigger_in text = None) ∧
    match s with
    | Messaging w => w_url w ≠ "" ∧ interpolate (string_at config "webhook") = inr (w_url w)
    | Creating g => 0 < g_cap g ∧ assoc "cap" config = Some (AInt (g_cap g)) ∧
        contains_str (g_label g) "," = false ∧ interpolate (string_at config "repo") = inr (g_repo g) ∧
        repoName (g_repo g) = true
    end.

Lemma buildGitHub_spec interpolate config s :
  buildGitHub interpolate config = inr s → CheckCap s = None →
  ∃ g, s = Creating g ∧ 0 < g_cap g ∧ assoc "cap" config = Some (AInt (g_cap g)) ∧
    contains_str (g_label g) "," = false ∧ interpolate (string_at config "repo") = inr (g_repo g) ∧
    repoName (g_repo g) = true.
Proof.
  unfold buildGitHub, resolved. destruct (String.eqb (string_at config "repo") ""); [done|].
  destruct (interpolate (string_at config "repo")) as [|repo]; [done|].
  destruct (repoName repo) eqn:Er; [|done]. simpl negb. cbn iota.
  destruct (token_of _ _) as [|token]; [done|]. destruct (label_of _ _) as [|label] eqn:El; [done|].
  destruct (capOf config) as [ceiling declared] eqn:Ec. destruct (_ && _); [done|].
  destruct (interpolate (string_at config "api")) as [|api]; [done|].
  intros H Hc. apply (inj inr) in H as <-. eexists. split; [done|].
  unfold CheckCap in Hc. simpl in Hc. destruct declared; [|done]. simpl in Hc.
  destruct (ceiling <=? 0) eqn:Ez; [done|]. bool_facts. cbn [NewGitHub g_cap g_label g_repo].
  split; [lia|]. split.
  { unfold capOf in Ec. destruct (assoc "cap" config) as [[]|]; by simplify_eq. }
  split; [|done]. unfold label_of in El. destruct (String.eqb label "") eqn:E0; [done|].
  destruct (assoc "label" config) as [[]|]; simplify_eq; try done.
  destruct (contains_str s "${trigger."); [done|]. destruct (interpolate s) as [|l]; [done|].
  destruct (String.eqb (TrimSpace l) ""); [done|]. destruct (contains_str l ",") eqn:Ecomma; [done|]. by simplify_eq.
Qed.

Lemma build_decl_spec interpolate refuse_reference at_ decl s :
  build_decl interpolate refuse_reference at_ decl = inr s → built_of interpolate refuse_reference decl s.
Proof.
  unfold build_decl, built_of. destruct (String.eqb (l_Type decl) ""); [done|].
  destruct (l_Config decl) as [config|]; [|done].
  destruct (if refuse_reference then _ else _) as [[field name]|] eqn:Et; [done|].
  destruct (buildOne interpolate (l_Type decl) config) as [|built] eqn:Eb; [done|].
  destruct (CheckCap built) eqn:Ec; [done|]. intros H. apply (inj inr) in H as <-.
  exists config. split; [done|].
  assert (refuse_reference = true → ∀ text, reaches (AMap config) text → trigger_in text = None) as Hr.
  { intros ->. intros text. by eapply triggerReferenceIn_None. }
  unfold buildOne in Eb. unfold webhookURL in Eb.
  destruct (String.eqb (l_Type decl) "discord") eqn:E1; [|destruct (String.eqb (l_Type decl) "slack") eqn:E2].
  1, 2: destruct (String.eqb (string_at config "webhook") ""); [done|];
    destruct (interpolate _) as [|url]; [done|]; destruct (String.eqb url "") eqn:Eu; [done|];
    apply (inj inr) in Eb as <-; bool_facts; simpl; rewrite ?E1, ?E2;
    split; [done|]; split; [set_solver|]; split; [done|]; done.
  destruct (String.eqb (l_Type decl) "github") eqn:E3; [|done]. bool_facts.
  apply buildGitHub_spec in Eb as (g & -> & Hg); [|done]. rewrite E3. simpl.
  split; [done|]. split; [set_solver|]. split; done.
Qed.

(** A playbook's sinks are built whole or refused: with no problem reported there is a sink for
    each declaration in its order, of the type it names and this deployment implements, at an
    address its own field resolved to; every one that creates has a cap above zero, the one
    declared, and counts it against a single label; and for a webhook playbook no string a
    walk of its fields reaches holds a payload reference. *)
Theorem Build_is_whole interpolate refuse_reference declared sinks :
  Build interpolate refuse_reference declared = (sinks, []) →
  Forall2 (built_of interpolate refuse_reference) declared sinks.
Proof.
  unfold Build. generalize 0%nat as at_. revert sinks.
  induction declared as [|decl declared IH]; intros sinks at_; cbn [build_from].
  { intros [= <-]. constructor. }
  destruct (build_from _ _ _ declared) as [rest problems] eqn:Er.
  destruct (build_decl _ _ _ decl) as [|built] eqn:Eb; [done|]. intros H. simplify_eq.
  constructor; [by eapply build_decl_spec|by eapply IH].
Qed.

Definition as_written (text : string) : gerror + string := inr text.
Definition example_sinks : list Declaration :=
  [mkDeclaration "discord" (Some [("webhook", AString "https://hook")]);
   mkDeclaration "github" (Some [("repo", AString "acme/app"); ("cap", AInt 3)])].

Lemma Build_is_whole_witness :
  ∃ sinks, Build as_written true example_sinks = (sinks, []) ∧ map sink_Name sinks = ["discord"; "github"] ∧
    Forall2 (built_of as_written true) example_sinks sinks.
Proof.
  destruct (Build as_written true example_sinks) as [sinks problems] eqn:E.
  assert (problems = [] ∧ map sink_Name sinks = ["discord"; "github"]) as [-> Hn].
  { revert E. clear. vm_compute. intros E. injection E as <- <-. done. }
  exists sinks. split; [done|]. split; [done|]. exact (Build_is_whole as_written true example_sinks sinks E).
Defined.

(** A mapping inside a sink's configuration is of the type Sink, which the walk does not enter:
    a webhook playbook's sink that holds a payload reference there is built. *)
Lemma a_nested_mapping_is_not_walked :
  let decl := mkDeclaration "discord"
    (Some [("webhook", AString "https://hook"); ("extra", ASink [("to", AString "${trigger.channel}")])]) in
  snd (Build as_written true [decl]) = [] ∧ length (fst (Build as_written true [decl])) = 1%nat ∧
  trigger_in "${trigger.channel}" = Some "channel".
Proof. vm_compute. done. Qed.
