(* ===== verification/GitHubSink.v ===== *)
(** The sink that creates issues: [src/runtime/internal/sink/github.go]. *)
From S2P Require Import Prelude GoStr GoTime GoErr Config Playbook GoJson GoRunes GoMarshal Records Store RunRecords.
From S2P Require Import AgentStage Guard Host Sinks.

Record finding := mkFinding { f_Title : string; f_Body : string }.

Definition finding_fields (ms : list (string * string)) (old : finding) : option finding :=
  let? title := field decode_string "title" ms (f_Title old) in
  let? body := field decode_string "body" ms (f_Body old) in
  Some (mkFinding title body).

(** The findings of a report; [None] is a report of another shape. *)
Definition decode_report (report : string) : option (list finding) :=
  decode_struct (λ ms old,
    field (decode_list (λ raw, decode_struct finding_fields raw (mkFinding "" ""))) "findings" ms old)
    report [].

(** ** Requests *)

Definition hex_upper (n : Z) : ascii := byte_chr (if n <? 10 then 48 + n else 55 + n).

(** [url.QueryEscape] *)
Fixpoint QueryEscape (s : string) : string :=
  match s with
  | EmptyString => EmptyString
  | String c s =>
      (if is_alnum c || Ascii.eqb c "-" || Ascii.eqb c "_" || Ascii.eqb c "." || Ascii.eqb c "~" then str c
       else if Ascii.eqb c " " then "+"
       else String "%" (String (hex_upper (byte_of c / 16)) (str (hex_upper (byte_of c mod 16)))))
      +:+ QueryEscape s
  end.

(** What is kept of an answer. *)
Definition answer_limit : nat := Z.to_nat (Z.shiftl 1 20).

Definition github_headers (g : GitHub) (body : option string) : list (string * string) :=
  [("Accept", "application/vnd.github+json")]
  ++ (if String.eqb (g_token g) "" then [] else [("Authorization", "Bearer " +:+ g_token g)])
  ++ match body with Some _ => [("Content-Type", "application/json")] | None => [] end.

Definition do_ (g : GitHub) (method endpoint : string) (body : option string) : prog (gerror + string) :=
  let! answer := Do (HTTP (mkRequest method endpoint (github_headers g body) (default "" body))) in
  Ret (match answer with
       | Unbuilt err => inl (wrap_before "building the request" err)
       | Failed _ => inl (Text "the request to GitHub failed")
       | Answered status read =>
           match read with
           | inl err => inl (wrap_before "reading GitHub's answer" err)
           | inr body =>
               if (status <? 200) || (300 <=? status) then
                 inl (Text ("GitHub answered HTTP " +:+ show_Z status))
               else inr (str_take answer_limit body)
           end
       end).

(** ** Counting *)

Definition perPage : nat := 100.
Definition maxPages : nat := 20.
Definition ErrTooManyOpen : gerror := Sentinel "more open issues than this sink will count".

Record openSet := mkOpenSet { o_count : Z; o_titles : gset string }.

Definition titles_of (body : string) : option (list string) :=
  decode_list (λ raw, decode_struct (λ ms old, field decode_string "title" ms old) raw "") body [].

Definition listing_url (g : GitHub) (page : nat) : string :=
  g_api g +:+ "/repos/" +:+ g_repo g +:+ "/issues?state=open&labels=" +:+ QueryEscape (g_label g)
  +:+ "&per_page=" +:+ show_nat perPage +:+ "&page=" +:+ show_nat page.

Definition add_titles (titles : list string) (open : openSet) : openSet :=
  mkOpenSet (o_count open + Z.of_nat (length titles)) (list_to_set titles ∪ o_titles open).

(** The pages from [page], at most [pages] of them. *)
Fixpoint openIssues (g : GitHub) (pages page : nat) (open : openSet) : prog (gerror + openSet) :=
  match pages with
  | O =>
      Ret (inl (wrap_after ErrTooManyOpen
                  (": more than " +:+ show_nat ((maxPages + 1) * perPage)
                   +:+ " are open, so the cap cannot be checked")))
  | S pages =>
      let! answer := do_ g "GET" (listing_url g page) None in
      match answer with
      | inl err => Ret (inl err)
      | inr body =>
          match titles_of body with
          | None => Ret (inl (Text "listing open issues: the answer was not a list of issues"))
          | Some titles =>
              let open := add_titles titles open in
              if (length titles <? perPage)%nat then Ret (inr open)
              else openIssues g pages (S page) open
          end
      end
  end.

(** ** Creating *)

Definition issue_payload (g : GitHub) (title body : string) (delivery : Delivery) : string :=
  Marshal (AMap [("title", AString title);
                 ("body", AString (body +:+ nl +:+ nl +:+ "---" +:+ nl +:+ "Opened by the playbook `"
                                   +:+ d_PlaybookName delivery +:+ "`, run `" +:+ d_RunID delivery +:+ "`."));
                 ("labels", AList [AString (g_label g)])]).

Definition create (g : GitHub) (title body : string) (delivery : Delivery) : prog (option gerror) :=
  let! answer := do_ g "POST" (g_api g +:+ "/repos/" +:+ g_repo g +:+ "/issues")
                   (Some (issue_payload g title body delivery)) in
  Ret (match answer with inl err => Some err | inr _ => None end).

(** What the loop over the findings keeps. *)
Record creating := mkCreating {
  n_created : Z; n_skipped : Z; n_details : list string; n_capped : bool; n_titles : gset string }.

Definition skip_with (detail : list string) (capped : bool) (c : creating) : creating :=
  mkCreating (n_created c) (n_skipped c + 1) (n_details c ++ detail) (n_capped c || capped) (n_titles c).

Fixpoint create_all (g : GitHub) (delivery : Delivery) (room total : Z) (findings : list finding)
    (c : creating) : prog (creating + Outcome) :=
  match findings with
  | [] => Ret (inl c)
  | item :: findings =>
      let title := TrimSpace (f_Title item) in
      if String.eqb title "" then
        create_all g delivery room total findings (skip_with ["a finding with no title"] false c)
      else if decide (title ∈ n_titles c) then
        create_all g delivery room total findings
          (skip_with [quote title +:+ " is already open"] false c)
      else if room <=? n_created c then
        create_all g delivery room total findings (skip_with [] true c)
      else
        let! failed := create g title (f_Body item) delivery in
        match failed with
        | Some err =>
            Ret (inr (mkOutcome "" StatusFailed (n_created c) (total - n_created c)
                        (join (n_details c ++ [quote title +:+ " failed: " +:+ Error err]) "; ")))
        | None =>
            create_all g delivery room total findings
              (mkCreating (n_created c + 1) (n_skipped c) (n_details c) (n_capped c)
                 ({[title]} ∪ n_titles c))
        end
  end.

Definition created_outcome (g : GitHub) (c : creating) : Outcome :=
  mkOutcome "" (if n_created c =? 0 then StatusSkipped else StatusCreated) (n_created c) (n_skipped c)
    (join (n_details c ++ (if n_capped c then ["stopped at the cap of " +:+ show_Z (g_cap g)] else [])) "; ").

Definition Deliver (g : GitHub) (delivery : Delivery) : prog (Outcome * option gerror) :=
  match d_Failure delivery with
  | Some failure => Ret (mkOutcome "" StatusSkipped 0 0 ("no report: " +:+ Error failure), None)
  | None =>
      match decode_report (d_Report delivery) with
      | None =>
          Ret (no_outcome, Some (wrap_before "the report is not a shape this sink can create from" (Text "json")))
      | Some [] => Ret (mkOutcome "" StatusSkipped 0 0 "the report holds no findings", None)
      | Some findings =>
          let! open := openIssues g (S maxPages) 1 (mkOpenSet 0 ∅) in
          match open with
          | inl err => Ret (no_outcome, Some err)
          | inr open =>
              let room := g_cap g - o_count open in
              let total := Z.of_nat (length findings) in
              if room <=? 0 then
                Ret (mkOutcome "" StatusCapped 0 total
                       (show_Z (o_count open) +:+ " issue(s) already open against a cap of "
                        +:+ show_Z (g_cap g)), None)
              else
                let! done := create_all g delivery room total findings
                               (mkCreating 0 0 [] false (o_titles open)) in
                Ret (match done with inl c => created_outcome g c | inr failed => failed end, None)
          end
      end
  end.

(** ** The cap *)

(** The request for a page of the repository's open issues that bear the label, a hundred to a page. *)
Definition page_asked (g : GitHub) (page : nat) : host_cmd :=
  HTTP (mkRequest "GET"
          (g_api g +:+ "/repos/" +:+ g_repo g +:+ "/issues?state=open&labels=" +:+ QueryEscape (g_label g)
           +:+ "&per_page=100&page=" +:+ show_nat page)
          (github_headers g None) "").

(** A call answered in full by a page of issues, and the titles on it. *)
Definition page_read (e : event (Sg := host_sig)) (titles : list string) : Prop :=
  ∃ r status body, e = did (HTTP r) (Answered status (inr body)) ∧
    200 <= status < 300 ∧ titles_of (str_take answer_limit body) = Some titles.

(** Pages that are all there is: every one of a hundred but the last, which has fewer. *)
Definition all_pages (listed : list (list string)) : Prop :=
  ∃ full last, listed = full ++ [last] ∧ Forall (λ p, (100 <= length p)%nat) full ∧
    (length last < 100)%nat.

Definition post_of (g : GitHub) (delivery : Delivery) (issue : string * string) : host_cmd :=
  let payload := issue_payload g (fst issue) (snd issue) delivery in
  HTTP (mkRequest "POST" (g_api g +:+ "/repos/" +:+ g_repo g +:+ "/issues")
          (github_headers g (Some payload)) payload).

Lemma do_get g endpoint tr body :
  runs (do_ g "GET" endpoint None) tr (inr body) →
  ∃ e raw, tr = [e] ∧ body = str_take answer_limit raw ∧
    ∃ r status, e = did (HTTP r) (Answered status (inr raw)) ∧ 200 <= status < 300.
Proof.
  unfold do_. intros H. apply runs_bind in H as (answer & tr1 & tr2 & -> & H1%runs_did & H2). subst tr1.
  destruct answer as [err|err|status [err|raw]]; take_host.
  destruct (_ || _) eqn:E; simplify_eq. eexists _, raw. split; [done|]. split; [done|].
  eexists _, status. split; [done|]. bool_facts. lia.
Qed.

Lemma do_one g method endpoint body tr r :
  runs (do_ g method endpoint body) tr r →
  ∃ answer, tr = [did (HTTP (mkRequest method endpoint (github_headers g body) (default "" body))) answer].
Proof.
  unfold do_. intros H. apply runs_bind in H as (answer & tr1 & tr2 & -> & H1%runs_did & [-> _]). subst tr1.
  by exists answer.
Qed.

Lemma openIssues_gets g pages page open tr r :
  runs (openIssues g pages page open) tr r → cmds tr = map (page_asked g) (seq page (length tr)).
Proof.
  revert page open tr. induction pages as [|pages IH]; intros page open tr; cbn [openIssues].
  { by intros [-> _]. }
  intros (answer & tr1 & tr2 & -> & H1 & H2)%runs_bind.
  apply do_one in H1 as (raw & ->). rewrite cmds_app, length_app. cbn [length Nat.add seq map].
  change (page_asked g page :: cmds tr2 = page_asked g page :: map (page_asked g) (seq (S page) (length tr2))). f_equal.
  destruct answer as [err|body]; [by destruct H2 as [-> _]|].
  destruct (titles_of body) as [titles|]; [|by destruct H2 as [-> _]].
  destruct (_ <? _)%nat; [by destruct H2 as [-> _]|]. by eapply IH.
Qed.

Lemma openIssues_counts g pages page open tr open' :
  runs (openIssues g pages page open) tr (inr open') →
  ∃ listed, Forall2 page_read tr listed ∧ all_pages listed ∧
    o_count open' = o_count open + Z.of_nat (length (concat listed)) ∧
    ∀ title, title ∈ o_titles open' ↔ title ∈ concat listed ∨ title ∈ o_titles open.
Proof.
  revert page open tr. induction pages as [|pages IH]; intros page open tr; cbn [openIssues].
  { intros [_ H]. done. }
  intros (answer & tr1 & tr2 & -> & H1 & H2)%runs_bind.
  destruct answer as [err|body]; [by destruct H2 as [_ ?]|].
  apply do_get in H1 as (e & raw & -> & -> & r & status & -> & Hs).
  destruct (titles_of (str_take answer_limit raw)) as [titles|] eqn:Et; [|by destruct H2 as [_ ?]].
  assert (page_read (did (HTTP r) (Answered status (inr raw))) titles) as Hp by by exists r, status, raw.
  destruct (length titles <? perPage)%nat eqn:El.
  - destruct H2 as [-> H2]. apply (inj inr) in H2 as <-. exists [titles].
    split; [by repeat constructor|]. split.
    { exists [], titles. split; [done|]. split; [constructor|]. by apply Nat.ltb_lt. }
    cbn [concat add_titles o_count o_titles]. rewrite app_nil_r. split; [done|].
    intros title. by rewrite elem_of_union, elem_of_list_to_set.
  - destruct (IH _ _ _ H2) as (listed & Hl & (full & last & -> & Hf & Hlast) & Hc & Ht).
    exists (titles :: full ++ [last]). split; [by constructor|]. split.
    { exists (titles :: full), last. split; [done|]. split; [|done]. constructor; [|done].
      by apply Nat.ltb_ge. }
    cbn [concat add_titles o_count o_titles] in *. split; [rewrite length_app; lia|].
    intros title. rewrite Ht, elem_of_app, elem_of_union, elem_of_list_to_set. tauto.
Qed.

Lemma create_one g title body delivery tr r :
  runs (create g title body delivery) tr r → cmds tr = [post_of g delivery (title, body)].
Proof.
  unfold create. intros (answer & tr1 & tr2 & -> & H1 & [-> _])%runs_bind.
  apply do_one in H1 as (raw & ->). done.
Qed.

(** What the loop over the findings opens and how it counts. *)
Lemma create_all_runs g delivery room total findings : ∀ c tr r,
  n_created c <= room →
  runs (create_all g delivery room total findings c) tr r →
  ∃ created, cmds tr = map (post_of g delivery) created ∧
    Z.of_nat (length created) <= room - n_created c ∧ NoDup (map fst created) ∧
    (∀ title, title ∈ map fst created → title ∉ n_titles c) ∧
    match r with
    | inl c' => n_created c' + n_skipped c' = n_created c + n_skipped c + Z.of_nat (length findings)
    | inr o => o_ItemsCreated o + o_ItemsSkipped o = total
    end.
Proof.
  induction findings as [|item findings IH]; intros c tr r Hc; cbn [create_all].
  { intros [-> <-]. exists []. simpl. split; [done|]. split; [lia|]. split; [constructor|].
    split; [by intros ? ?%not_elem_of_nil|]. lia. }
  set (title := TrimSpace (f_Title item)).
  assert (∀ detail capped, runs (create_all g delivery room total findings (skip_with detail capped c)) tr r →
    ∃ created, cmds tr = map (post_of g delivery) created ∧
      Z.of_nat (length created) <= room - n_created c ∧ NoDup (map fst created) ∧
      (∀ title, title ∈ map fst created → title ∉ n_titles c) ∧
      match r with
      | inl c' => n_created c' + n_skipped c' = n_created c + n_skipped c + Z.of_nat (length (item :: findings))
      | inr o => o_ItemsCreated o + o_ItemsSkipped o = total
      end) as Hskip.
  { intros detail capped H. destruct (IH (skip_with detail capped c) tr r Hc H) as (created & H1 & H2 & H3 & H4 & H5).
    exists created. simpl in H2, H4. split_and!; try done. destruct r; [simpl in *; lia|done]. }
  destruct (String.eqb title ""); [apply Hskip|]. destruct (decide (title ∈ n_titles c)) as [Hin|Hnin]; [apply Hskip|].
  destruct (room <=? n_created c) eqn:Er; [apply Hskip|]. bool_facts. clear Hskip.
  intros (failed & tr1 & tr2 & -> & H1 & H2)%runs_bind. apply create_one in H1.
  rewrite cmds_app, H1. destruct failed as [err|].
  - destruct H2 as [-> <-]. exists [(title, f_Body item)]. simpl. split; [done|]. split; [lia|].
    split; [apply NoDup_singleton|]. split; [|lia]. intros t ->%list_elem_of_singleton. done.
  - apply IH in H2; [|simpl; lia]. destruct H2 as (created & H3 & H4 & H5 & H6 & H7).
    exists ((title, f_Body item) :: created). cbn [map fst length n_created n_titles] in *.
    split; [by rewrite H3|]. split; [lia|].
    split; [constructor; [|done]; intros Hin; apply H6 in Hin; set_solver|].
    split; [intros t [->|Ht]%elem_of_cons; [done|]; apply H6 in Ht; set_solver|].
    destruct r; [cbn [n_skipped] in H7; lia|done].
Qed.

(** The calls for the pages from the first on, in order. *)
Definition asks_pages (g : GitHub) (gets : trace) : Prop := cmds gets = map (page_asked g) (seq 1 (length gets)).

(** C21: The sink never opens more than its cap leaves: whatever it is answered, it first asks
    for the repository's open issues that bear its label, page after page of a hundred from the
    first, and only then opens any, and it opens nothing unless every page was read whole, to the
    first of fewer than a hundred; the issues it then asks to be opened, the failing one with them, are no more than
    the cap less all the issues listed, no two have one title and none has the title of one
    that is open; and what it created and skipped accounts for every finding. *)
Theorem a_sink_creates_within_its_cap g delivery tr outcome err :
  runs (Deliver g delivery) tr (outcome, err) →
  (∃ gets posts created, tr = gets ++ posts ∧ asks_pages g gets ∧
    cmds posts = map (post_of g delivery) created ∧
    (created ≠ [] → d_Failure delivery = None ∧
     ∃ listed, Forall2 page_read gets listed ∧ all_pages listed ∧
       Z.of_nat (length created) + Z.of_nat (length (concat listed)) <= g_cap g ∧
       NoDup (map fst created) ∧ ∀ title, title ∈ map fst created → title ∉ concat listed)) ∧
  ∀ findings, d_Failure delivery = None → decode_report (d_Report delivery) = Some findings → err = None →
    o_ItemsCreated outcome + o_ItemsSkipped outcome = Z.of_nat (length findings).
Proof.
  assert (∀ gets : trace, asks_pages g gets →
    ∃ gets' posts created, gets = gets' ++ posts ∧ asks_pages g gets' ∧
      cmds posts = map (post_of g delivery) created ∧
      (created ≠ [] → d_Failure delivery = None ∧
       ∃ listed, Forall2 page_read gets' listed ∧ all_pages listed ∧
         Z.of_nat (length created) + Z.of_nat (length (concat listed)) <= g_cap g ∧
         NoDup (map fst created) ∧ ∀ title, title ∈ map fst created → title ∉ concat listed)) as Hnone.
  { intros gets Hg. exists gets, [], []. rewrite app_nil_r. done. }
  unfold Deliver. destruct (d_Failure delivery) as [failure|] eqn:Ef.
  { intros [-> H]. split; [by apply Hnone|]. intros ? [=]. }
  destruct (decode_report (d_Report delivery)) as [findings|] eqn:Er.
  2: { intros [-> H]. split; [by apply Hnone|]. intros ? _ [=]. }
  destruct findings as [|item findings].
  { intros [-> H]. split; [by apply Hnone|]. intros ? _ [= <-] _. by simplify_eq. }
  intros (open & tr1 & tr2 & -> & H1 & H2)%runs_bind. pose proof (openIssues_gets _ _ _ _ _ _ H1) as Hg.
  destruct open as [e|open].
  { destruct H2 as [-> H2]. rewrite app_nil_r. split; [by apply Hnone|]. intros ? _ _ ->. done. }
  apply openIssues_counts in H1 as (listed & Hl & Hall & Hcount & Htitles). simpl in Hcount.
  destruct (_ <=? 0) eqn:E.
  { destruct H2 as [-> H2]. rewrite app_nil_r. split; [by apply Hnone|].
    intros fs _ Hfs _. apply (inj Some) in Hfs as <-. by simplify_eq. }
  bool_facts. apply runs_bind in H2 as (done_ & tr3 & tr4 & -> & H3 & [-> H4]). rewrite app_nil_r.
  apply create_all_runs in H3 as (created & Hc & Hlen & Hnd & Hdis & Hacc); [|simpl; lia].
  cbn [n_created n_titles n_skipped] in *. split.
  - exists tr1, tr3, created. split; [done|]. split; [done|]. split; [done|]. intros _. split; [done|].
    exists listed. split; [done|]. split; [done|]. split; [lia|]. split; [done|].
    intros title Ht Hin. apply (Hdis title Ht), Htitles. by left.
  - intros fs _ Hfs _. apply (inj Some) in Hfs as <-. destruct done_; simplify_eq; simpl in *; lia.
Qed.

Definition example_github : GitHub := mkGitHub "acme/app" "" "gronin" 2 true DefaultGitHubAPI.
Definition two_findings : Delivery :=
  mkDelivery "triage" "r1"
    (replace_all "{'findings':[{'title':'disk full'},{'title':' stale lease '},{'title':'disk full','body':'b'}]}" "'" dq)
    None.
Definition one_open (c : host_cmd) (w : unit) : host_resp c * unit :=
  (match c return host_resp c with
   | HTTP r => if String.eqb (r_Method r) "GET"
               then Answered 200 (inr (replace_all "[{'title':'stale lease','number':7}]" "'" dq))
               else Answered 201 (inr "{}")
   | c => quiet c
   end, w).

Lemma a_sink_creates_within_its_cap_witness :
  ∃ tr outcome err, runs (Deliver example_github two_findings) tr (outcome, err) ∧ err = None ∧
    o_ItemsCreated outcome = 1 ∧ o_ItemsCreated outcome + o_ItemsSkipped outcome = 3.
Proof.
  pose proof (exec_runs (Sg := host_sig) one_open (Deliver example_github two_findings) tt) as Hr.
  destruct (fst (exec (Sg := host_sig) one_open (Deliver example_github two_findings) tt)) as [outcome err] eqn:E.
  eexists _, outcome, err. split; [exact Hr|].
  assert (err = None ∧ o_ItemsCreated outcome = 1) as [-> H1].
  { revert E. clear. vm_compute. intros E. injection E as <- <-. done. }
  split; [done|]. split; [done|].
  destruct (decode_report (d_Report two_findings)) as [findings|] eqn:Ed; [|exfalso; revert Ed; vm_compute; discriminate].
  assert (Z.of_nat (length findings) = 3) as <-.
  { revert Ed. clear. vm_compute. intros Ed. injection Ed as <-. done. }
  exact (proj2 (a_sink_creates_within_its_cap example_github two_findings _ _ _ Hr) findings eq_refl Ed eq_refl).
Defined.

(** ** Delivering to every sink: [DeliverAll] of [src/runtime/internal/sink/sink.go]. *)

Definition deliver_to (s : Sink) (delivery : Delivery) : prog (Outcome * option gerror) :=
  match s with
  | Messaging w => webhook_Deliver w delivery
  | Creating g => Deliver g delivery
  end.

(** The outcome as it is kept: named, failed when there was an error, skipped when it says
    nothing. *)
Definition settle (s : Sink) (outcome : Outcome) (err : option gerror) : Outcome :=
  let detail :=
    match err with
    | None => o_Detail outcome
    | Some err =>
        if String.eqb (o_Detail outcome) "" then Error err else o_Detail outcome +:+ ": " +:+ Error err
    end in
  let status := match err with None => o_Status outcome | Some _ => StatusFailed end in
  mkOutcome (sink_Name s) (if String.eqb status "" then StatusSkipped else status)
    (o_ItemsCreated outcome) (o_ItemsSkipped outcome) detail.

(** [gate] is asked before each sink; [None] is no gate. *)
Fixpoint DeliverAll (sinks : list Sink) (delivery : Delivery) (gate : option (prog (option gerror)))
  : prog (list Outcome * option gerror) :=
  match sinks with
  | [] => Ret ([], None)
  | one :: sinks =>
      let! refused := match gate with Some gate => gate | None => Ret None end in
      match refused with
      | Some err => Ret ([], Some err)
      | None =>
          let! (outcome, err) := deliver_to one delivery in
          let! (outcomes, refused) := DeliverAll sinks delivery gate in
          Ret (settle one outcome err :: outcomes, refused)
      end
  end.

(** ** What delivering does *)

Definition is_http (c : host_cmd) : bool := match c with HTTP _ => true | _ => false end.
Definition http_only (tr : trace) : Prop := Forall (λ c, is_http c = true) (cmds tr).

Lemma http_only_app tr1 tr2 : http_only (tr1 ++ tr2) ↔ http_only tr1 ∧ http_only tr2.
Proof. unfold http_only. by rewrite cmds_app, Forall_app. Qed.

Lemma openIssues_http g pages : ∀ page open, only (λ c, is_http c = true) (openIssues g pages page open).
Proof. induction pages; intros page open; cbn [openIssues]; unfold do_; only_calls; auto. Qed.

Lemma create_all_http g delivery room total findings : ∀ c,
  only (λ c, is_http c = true) (create_all g delivery room total findings c).
Proof. induction findings; intros c; cbn [create_all]; unfold create, do_; only_calls; auto. Qed.

Lemma Deliver_http s delivery tr r : runs (deliver_to s delivery) tr r → http_only tr.
Proof.
  intros H. unfold http_only, cmds. apply Forall_map. revert tr r H.
  change (only (λ c, is_http c = true) (deliver_to s delivery)).
  pose proof openIssues_http. pose proof create_all_http.
  destruct s; simpl; unfold deliver_to, webhook_Deliver, Deliver; only_calls; auto.
Qed.

(** A part of a delivery: the fence passed, then one sink's requests. *)
Definition fenced (s : Sink) (delivery : Delivery) (tr : trace) (o : Outcome) : Prop :=
  ∃ requests outcome err, tr = did Fence None :: requests ∧ http_only requests ∧
    runs (deliver_to s delivery) requests (outcome, err) ∧ o = settle s outcome err.

Lemma DeliverAll_runs sinks delivery tr outcomes refused :
  runs (DeliverAll sinks delivery (Some (Do Fence))) tr (outcomes, refused) →
  ∃ parts rest, tr = concat parts ++ rest ∧
    Forall2 (λ part so, fenced (fst so) delivery part (snd so)) parts (zip (take (length outcomes) sinks) outcomes) ∧
    length parts = length outcomes ∧
    match refused with
    | None => rest = [] ∧ length outcomes = length sinks
    | Some err => rest = [did Fence (Some err)] ∧ (length outcomes < length sinks)%nat
    end.
Proof.
  revert tr outcomes refused. induction sinks as [|one sinks IH]; intros tr outcomes refused; cbn [DeliverAll].
  { intros [-> H]. simplify_eq. by exists [], []. }
  intros (gate & tr1 & tr2 & -> & H1%runs_did & H2)%runs_bind. subst tr1. destruct gate as [err|].
  { destruct H2 as [-> H2]. simplify_eq. exists [], [did Fence (Some err)]. simpl.
    split; [done|]. split; [constructor|]. split; [done|]. split; [done|lia]. }
  apply runs_bind in H2 as ([outcome err] & tr3 & tr4 & -> & H3 & H4).
  apply runs_bind in H4 as ([outcomes' refused'] & tr5 & tr6 & -> & H5 & [-> H6]). simplify_eq.
  rewrite app_nil_r. destruct (IH _ _ _ H5) as (parts & rest & -> & Hp & Hl & Hr).
  exists ((did Fence None :: tr3) :: parts), rest. cbn [concat length take zip].
  split; [by rewrite <- app_assoc|]. split.
  { constructor; [|done]. exists tr3, outcome, err. split; [done|].
    split; [by eapply Deliver_http|done]. }
  split; [lia|]. destruct refused as [e|]; [destruct Hr; split; [done|lia]|destruct Hr; split; [done|lia]].
Qed.
