(* ===== verification/Retrieve.v ===== *)
(** The retrieve stage: [query.go], [results.go] and [retrieve.go] in
    [src/runtime/internal/stage/retrieve], and the query's words of [lexical.go] in
    [src/runtime/internal/index].

    The index is searched by one call of the host.  Which characters are letters, numbers or
    private is Go's Unicode tables and a parameter; so is the redactor. *)
From S2P Require Import Prelude GoStr GoTime GoPath GoErr Config Playbook GoJson GoRunes GoMarshal Collections.
From S2P Require Import Records Store RunRecords Guard Host.
From Stdlib Require Import QArith.

Open Scope Z_scope.

(** ** [query.go] *)

Definition MaxQueryBytes : nat := 1024.

Definition emptyQuery (truncated : bool) : gerror :=
  if truncated then
    Text ("the query is empty once resolved: it holds no word the index can search after it was "
          +:+ "cut to 1,024 bytes, so nothing was searched")
  else Text ("the query is empty once resolved: it holds no word the index can search, so nothing was "
             +:+ "searched").

Definition cutQuery (query : string) : string * bool :=
  let query := TrimSpace query in
  if (String.length query <=? MaxQueryBytes)%nat then (query, false)
  else
    let end_ :=
      match LastSpace (str_take (S MaxQueryBytes) query) with
      | Some (S n) => S n
      | _ => rune_start_before query MaxQueryBytes
      end in
    (TrimRightSpace (str_take end_ query), true).

(** ** The words of a query *)

Section words.
Context (indexedRune : string → bool).

Fixpoint words_go (l : list string) (current : string) : list string :=
  let flush := if String.eqb current "" then [] else [current] in
  match l with
  | [] => flush
  | r :: l => if indexedRune r then words_go l (current +:+ r) else flush ++ words_go l ""
  end.

Definition plainQuery (query : string) : string :=
  join (map (λ word, dq +:+ replace_all word dq (dq +:+ dq) +:+ dq) (words_go (runes query) "")) " OR ".

Definition Searchable (query : string) : bool := negb (String.eqb (plainQuery query) "").
End words.

(** ** [results.go] *)

Definition nothingMatched : string := "Nothing in this collection matched the query.".

Definition capResults (hits : list Hit) (limit : nat) : list Hit * bool :=
  if (limit <? length hits)%nat then (take limit hits, true) else (hits, false).

Record heading := mkHeading {
  h_collection : string; h_mode : string; h_generation : string; h_query : string; h_reports : bool }.

Record written := mkWritten { w_rank : nat; w_hit : Hit; w_text : string }.
Record piece := mkPiece { p_head : string; p_body : string; p_rank : nat; p_hit : option Hit }.

Definition hex4_of (z : Z) : string := hex2 (z / 256) +:+ hex2 (z mod 256).

(** A character as [Printable] writes it. *)
Definition printable_rune (r : string) : string :=
  match r with
  | String c EmptyString =>
      if 128 <=? byte_of c then encode_rune replacement_char
      else if (byte_of c <? 32) || (byte_of c =? 127) then quote_char c else r
  | String a (String b EmptyString) =>
      if (byte_of a =? 194) && (byte_of b <? 160) then String BS "u" +:+ hex4_of (byte_of b) else r
  | _ =>
      if String.eqb r (encode_rune 8232) || String.eqb r (encode_rune 8233)
      then String BS "u" +:+ (if String.eqb r (encode_rune 8232) then "2028" else "2029") else r
  end.
Definition Printable (text : string) : string := unrunes (map printable_rune (runes text)).

Definition cutAt (text : string) (limit : nat) : nat :=
  if (String.length text <=? limit)%nat then String.length text else rune_start_before text limit.

(** [strings.TrimSuffix(text, "\n")] *)
Fixpoint trim_nl (text : string) : string :=
  match text with
  | EmptyString => EmptyString
  | String c EmptyString => if Ascii.eqb c NL then EmptyString else text
  | String c rest => String c (trim_nl rest)
  end.

Fixpoint fill (pieces : list piece) (budget : nat) (out : string) : string * list written :=
  match pieces with
  | [] => (out, [])
  | one :: pieces =>
      let full := p_head one +:+ p_body one in
      let room := (budget - String.length out)%nat in
      let keep := if (room <? String.length full)%nat then cutAt full room else String.length full in
      match p_hit one with
      | None =>
          let out := out +:+ str_take keep full in
          if (keep <? String.length full)%nat then (out, []) else fill pieces budget out
      | Some hit =>
          if (keep <=? String.length (p_head one))%nat then (out, [])
          else
            let out := out +:+ str_take keep full in
            let item := mkWritten (p_rank one) hit
                          (trim_nl (str_drop (String.length (p_head one)) (str_take keep full))) in
            if (keep <? String.length full)%nat then (out, [item])
            else let (out, items) := fill pieces budget out in (out, item :: items)
      end
  end.

(** [%.4f], halves to the even digit. *)
Definition format4 (q : Q) : string :=
  let num := Z.abs (Qnum q) * 10000 in
  let den := Z.pos (Qden q) in
  let down := num / den in
  let twice := 2 * (num mod den) in
  let n := if twice <? den then down
           else if den <? twice then down + 1
           else if Z.even down then down else down + 1 in
  (if Qnum q <? 0 then "-" else "") +:+ show_Z (n / 10000) +:+ "." +:+ pad_zeros 4 (show_Z (n mod 10000)).

Section retrieve.
Context (redact : string → string) (indexedRune : string → bool).

Definition heading_piece (head : heading) : piece :=
  mkPiece ("# Retrieved from " +:+ h_collection head +:+ " (" +:+ h_mode head +:+ ", generation "
           +:+ h_generation head +:+ ")" +:+ nl +:+ "# Query: "
           +:+ Printable (join (Fields (redact (h_query head))) " ") +:+ nl) "" 0 None.

Definition hit_piece (head : heading) (rank : nat) (hit : Hit) : piece :=
  let source := Printable (redact (h_Source hit)) in
  let source := if h_reports head then "run " +:+ source else source in
  mkPiece (nl +:+ "## " +:+ show_nat rank +:+ ". " +:+ source +:+ ", passage " +:+ show_Z (h_Ordinal hit)
           +:+ " (score " +:+ format4 (h_Score hit) +:+ ")" +:+ nl +:+ nl)
    (redact (h_Text hit) +:+ nl) rank (Some hit).

Definition pieces_of (head : heading) (hits : list Hit) : list piece :=
  [heading_piece head]
  ++ (match hits with [] => [mkPiece (nl +:+ nothingMatched +:+ nl) "" 0 None] | _ => [] end)
  ++ map (λ rh, hit_piece head (S (fst rh)) (snd rh)) (enumerate hits).

Definition total_of (pieces : list piece) : nat :=
  foldr (λ one total, String.length (p_head one) + String.length (p_body one) + total)%nat 0%nat pieces.

Definition trailer_of (maxBytes : nat) : string :=
  nl +:+ "(cut to fit " +:+ show_nat maxBytes +:+ " bytes)" +:+ nl.

Definition render (head : heading) (hits : list Hit) (maxBytes : nat) : string * list written * bool :=
  let pieces := pieces_of head hits in
  let total := total_of pieces in
  if (total <=? maxBytes)%nat then
    let (out, items) := fill pieces total "" in (out, items, false)
  else
    let trailer := trailer_of maxBytes in
    let (out, items) := fill pieces (maxBytes - String.length trailer) "" in
    let out := out +:+ trailer in
    let out := if (maxBytes <? String.length out)%nat then str_take (cutAt out maxBytes) out else out in
    (out, items, true).

(** ** [retrieve.go] *)

Record Stage := mkStage { s_Catalog : option Collections.Catalog; s_Config : option Config }.

Record Retrieved := mkRetrieved {
  v_Record : RunRecords.Retrieval; v_Results : option string; v_Contents : list string }.

(** [Refused.Error] and what it unwraps to. *)
Definition Refused (position : nat) (collection : string) (cause : gerror) : gerror :=
  Wrap ("retrieve[" +:+ show_nat position +:+ "] from " +:+ collection +:+ ": " +:+ Error cause) [cause].

Definition no_collection : Collection := mkCollection "" "" None None 0.

Definition collection_of (s : Stage) (name : string) : Collection * option gerror :=
  let undeclared := Text (quote name +:+ " is not a collection this deployment declares") in
  match s_Catalog s with
  | None => (no_collection, Some undeclared)
  | Some catalog =>
      match Collections.Get catalog name with
      | None => (no_collection, Some undeclared)
      | Some collection =>
          if String.eqb (Mode collection) Collections.Lexical then (collection, None)
          else (collection, Some (Text (quote name +:+ " is not a lexical collection, the only mode this "
                                        +:+ "runtime searches")))
      end
  end.

Definition problems_error (problems : list string) : gerror :=
  default (Text "") (errors_join (map Text problems)).

Definition resolveQuery (s : Stage) (workDir : string) (declared : Playbook.Retrieval)
    (trigger : gmap string string) : prog (gerror + string) :=
  if negb (String.eqb (QueryFrom declared) "") then
    let! data := Do (ReadFile (Join [workDir; Base (QueryFrom declared)])) in
    Ret (match data with
         | inl err => inl (wrap_before ("reading " +:+ QueryFrom declared
                             +:+ ", the gathered input the query is formed from") err)
         | inr data => inr data
         end)
  else
    Ret (match s_Config s with
         | None => inl (Text "this deployment has no configuration to resolve the query against")
         | Some cfg =>
             match Interpolate cfg (Query declared) trigger with
             | inl problems => inl (problems_error problems)
             | inr query => inr query
             end
         end).

(** The row of a retrieval that was refused, as far as it got. *)
Definition refused_row (at_ : nat) (declared : Playbook.Retrieval) (mode query : string)
    (truncated : bool) (err : gerror) : RunRecords.Retrieval :=
  mkRetrieval (Z.of_nat at_ + 1) (r_As declared) (Playbook.Collection declared) mode "" 0 "" query truncated
    RetrievalRefused "" 0 false false (Error err) [].

Definition item_row (item : written) : RetrievedItem :=
  mkRetrievedItem (Z.of_nat (w_rank item)) (h_Score (w_hit item)) (h_Source (w_hit item))
    (h_Ordinal (w_hit item)) (h_Offset (w_hit item)) "".

(** What the search found, written for the agent and for the record. *)
Definition deliver_found (workDir : string) (at_ : nat) (declared : Playbook.Retrieval)
    (collection : Collection) (query : string) (truncated : bool) (found : Found)
  : prog (Retrieved * option gerror) :=
  let (hits, countTruncated) := capResults (f_Hits found) (Z.to_nat (ResultCount declared)) in
  let '(file, items, bytesTruncated) :=
    render (mkHeading (c_Name collection) RetrievalLexical (f_Short found) query
              (String.eqb (c_Directory collection) "")) hits (Z.to_nat (ByteBound declared)) in
  let row outcome bytes cut_count cut_bytes failure items :=
    mkRetrieval (Z.of_nat at_ + 1) (r_As declared) (Playbook.Collection declared) RetrievalLexical
      (f_ID found) (f_BuiltAt found) (f_Identity found) query truncated outcome "" bytes cut_count
      cut_bytes failure items in
  let! wrote := Do (WriteFile (Join [workDir; Base (r_As declared)]) file) in
  Ret (match wrote with
       | Some err =>
           let err := wrap_before "writing the results into the working directory" err in
           (mkRetrieved (row RetrievalRefused 0 false false (Error err) []) None [], Some err)
       | None =>
           (mkRetrieved
              (row (match items with [] => RetrievalEmpty | _ => RetrievalFound end)
                 (Z.of_nat (String.length file)) countTruncated bytesTruncated "" (map item_row items))
              (Some file) (map w_text items), None)
       end).

Definition retrieve (s : Stage) (workDir : string) (at_ : nat) (declared : Playbook.Retrieval)
    (trigger : gmap string string) : prog (Retrieved * option gerror) :=
  let (collection, err) := collection_of s (Playbook.Collection declared) in
  let mode := if String.eqb (Mode collection) Semantic then RetrievalSemantic else RetrievalLexical in
  let refuse query truncated err :=
    Ret (mkRetrieved (refused_row at_ declared mode query truncated err) None [], Some err) in
  match err with
  | Some err => refuse "" false err
  | None =>
      let! resolved := resolveQuery s workDir declared trigger in
      match resolved with
      | inl err => refuse "" false err
      | inr resolved =>
          let (query, truncated) := cutQuery resolved in
          if negb (Searchable indexedRune query) then refuse query truncated (emptyQuery truncated)
          else
            let! (found, (late, over)) :=
              Do (Search (c_Name collection) query (ResultCount declared + 1) (c_RetrievalTimeout collection)) in
            match found with
            | inl err =>
                refuse query truncated
                  (if (late : bool) && negb over then
                     wrap_before ("it did not complete within " +:+ Duration_String (c_RetrievalTimeout collection)
                                  +:+ ", the collection's retrieval_timeout") err
                   else err)
            | inr found => deliver_found workDir at_ declared collection query truncated found
            end
      end
  end.

Fixpoint retrieve_all (s : Stage) (workDir : string) (at_ : nat) (retrievals : list Playbook.Retrieval)
    (trigger : gmap string string) : prog (list Retrieved * option gerror) :=
  match retrievals with
  | [] => Ret ([], None)
  | declared :: retrievals =>
      let! (one, err) := retrieve s workDir at_ declared trigger in
      match err with
      | Some err => Ret ([one], Some (Refused at_ (Playbook.Collection declared) err))
      | None =>
          let! (done_, err) := retrieve_all s workDir (S at_) retrievals trigger in
          Ret (one :: done_, err)
      end
  end.

Definition Run (s : Stage) (workDir : string) (retrievals : list Playbook.Retrieval)
    (trigger : gmap string string) : prog (list Retrieved * option gerror) :=
  retrieve_all s workDir 0 retrievals trigger.

End retrieve.

(** ** What holds of the retrieve stage: its query and its results file are within their bounds,
    what the record keeps of a result is what the file holds, and neither a query nor a
    source's name leaves its line. *)

Open Scope Z_scope.

(** ** The query *)

Lemma IsSpace_nonempty r : IsSpace r = true → (1 <= String.length r)%nat.
Proof. destruct r as [|c r]; [|simpl; lia]. vm_compute. done. Qed.

Lemma unrunes_length l : String.length (unrunes l) = foldr (λ r n, String.length r + n)%nat 0%nat l.
Proof. induction l as [|r l IH]; [done|]. rewrite unrunes_cons, str_length_app, IH. done. Qed.

Lemma last_space_go_bound l at_ found n :
  last_space_go l at_ found = Some n → found = Some n ∨ (n < at_ + String.length (unrunes l))%nat.
Proof.
  revert at_ found. induction l as [|r l IH]; intros at_ found; cbn [last_space_go]; [by left|].
  intros H%IH. rewrite unrunes_cons, str_length_app. destruct H as [H|H]; [|right; lia].
  destruct (IsSpace r) eqn:E; [|by left]. apply IsSpace_nonempty in E. simplify_eq. right. lia.
Qed.

Lemma LastSpace_bound s n : LastSpace s = Some n → (n < String.length s)%nat.
Proof. unfold LastSpace. intros H%last_space_go_bound. rewrite runes_concat in H. by destruct H as [|H]. Qed.

Lemma str_take_le n s : (String.length (str_take n s) <= n)%nat.
Proof. revert n. induction s as [|c s IH]; intros [|n]; simpl; [lia..|]. specialize (IH n). lia. Qed.

(** A query is bounded: whoever wrote it, what is searched is at most 1024 bytes, it is the
    beginning of the query without the white space around it, all of it unless that is
    longer, and it is said to be cut exactly then. *)
Theorem a_query_is_bounded raw :
  let (query, truncated) := cutQuery raw in
  (String.length query <= MaxQueryBytes)%nat ∧
  (∃ rest, TrimSpace raw = query +:+ rest) ∧
  (truncated = false → query = TrimSpace raw) ∧
  (truncated = true ↔ (MaxQueryBytes < String.length (TrimSpace raw))%nat).
Proof.
  unfold cutQuery. set (q := TrimSpace raw). destruct (String.length q <=? MaxQueryBytes)%nat eqn:E.
  { apply Nat.leb_le in E. split_and!; [done|exists ""; by rewrite str_app_nil_r|done|].
    split; [done|lia]. }
  apply Nat.leb_gt in E. set (n := match LastSpace _ with Some (S n) => S n | _ => _ end).
  assert (n <= MaxQueryBytes)%nat as Hn.
  { unfold n. pose proof (rune_start_before_le q MaxQueryBytes).
    destruct (LastSpace (str_take (S MaxQueryBytes) q)) as [[|m]|] eqn:El; [done| |done].
    apply LastSpace_bound in El. pose proof (str_take_le (S MaxQueryBytes) q). lia. }
  destruct (TrimRightSpace_prefix (str_take n q)) as [b Hb].
  split_and!; [|exists (b +:+ str_drop n q)|done|split; done].
  - pose proof (str_take_le n q) as Hl. rewrite Hb, str_length_app in Hl. lia.
  - by rewrite str_app_assoc, <- Hb, str_take_drop.
Qed.

(** ** The results file *)

Section render.
Context (redact : string → string).

Lemma cutAt_le text limit : (cutAt text limit <= limit)%nat ∧ (cutAt text limit <= String.length text)%nat.
Proof.
  unfold cutAt. destruct (_ <=? _)%nat eqn:E; [apply Nat.leb_le in E; lia|].
  apply Nat.leb_gt in E. pose proof (rune_start_before_le text limit). lia.
Qed.

(** An item, and the piece it was written from. *)
Definition item_of (out : string) (one : piece) (item : written) : Prop :=
  p_hit one = Some (w_hit item) ∧ p_rank one = w_rank item ∧
  (∃ k, w_text item = trim_nl (str_take k (p_body one))) ∧
  ∃ before after, out = before +:+ p_head one +:+ w_text item +:+ after.

Definition hit_pieces (pieces : list piece) : list piece :=
  List.filter (λ one, match p_hit one with Some _ => true | None => false end) pieces.

Lemma trim_nl_prefix text : ∃ rest, text = trim_nl text +:+ rest.
Proof.
  induction text as [|c text [rest IH]]; [by exists ""|]. cbn [trim_nl]. destruct text as [|d text].
  - destruct (Ascii.eqb c NL); [by exists (str c)|by exists ""].
  - exists rest. by rewrite IH at 1.
Qed.

Lemma str_take_prefix n m s : (n <= m)%nat → ∃ rest, str_take m s = str_take n s +:+ rest.
Proof. intros H. replace m with (n + (m - n))%nat by lia. rewrite str_take_add. eauto. Qed.

Lemma str_take_app_more n s t :
  (String.length s <= n)%nat → str_take n (s +:+ t) = s +:+ str_take (n - String.length s) t.
Proof.
  intros H. replace n with (String.length s + (n - String.length s))%nat at 1 by lia.
  by rewrite str_take_add, str_take_app, str_drop_app.
Qed.

Lemma item_of_more out more one item : item_of out one item → item_of (out +:+ more) one item.
Proof.
  intros (Hh & Hr & Hb & before & after & ->). split; [done|]. split; [done|]. split; [done|].
  exists before, (after +:+ more). by rewrite !str_app_assoc.
Qed.

(** What is written from a piece that has room for some of its passage. *)
Lemma fill_item one hit keep out :
  p_hit one = Some hit → (String.length (p_head one) < keep)%nat →
  item_of (out +:+ str_take keep (p_head one +:+ p_body one)) one
    (mkWritten (p_rank one) hit
       (trim_nl (str_drop (String.length (p_head one)) (str_take keep (p_head one +:+ p_body one))))).
Proof.
  intros Hh Hk. rewrite str_take_app_more, str_drop_app by lia.
  set (body := str_take _ (p_body one)). destruct (trim_nl_prefix body) as [rest Hrest].
  split; [done|]. split; [done|]. cbn [w_text]. split.
  - by exists (keep - String.length (p_head one))%nat.
  - exists out, rest. by rewrite <- Hrest.
Qed.

Lemma fill_spec pieces : ∀ budget out out' items,
  (String.length out <= budget)%nat → fill pieces budget out = (out', items) →
  (String.length out' <= budget)%nat ∧ (∃ more, out' = out +:+ more) ∧
  Forall2 (item_of out') (take (length items) (hit_pieces pieces)) items.
Proof.
  induction pieces as [|one pieces IH]; intros budget out out' items Hle; cbn [fill].
  { intros [= <- <-]. split; [done|]. split; [exists ""; by rewrite str_app_nil_r|constructor]. }
  set (full := p_head one +:+ p_body one). set (room := (budget - String.length out)%nat).
  set (keep := if (room <? String.length full)%nat then cutAt full room else String.length full).
  assert (keep <= room)%nat as Hkeep.
  { unfold keep. destruct (_ <? _)%nat eqn:E; [apply cutAt_le|]. apply Nat.ltb_ge in E. lia. }
  assert (String.length (out +:+ str_take keep full) <= budget)%nat as Hout.
  { rewrite str_length_app. pose proof (str_take_le keep full). unfold room in *. lia. }
  assert (∃ more, out +:+ str_take keep full = out +:+ more) as Hmore by eauto.
  destruct (p_hit one) as [hit|] eqn:Eh.
  - destruct (keep <=? _)%nat eqn:Ek.
    { intros [= <- <-]. split; [done|]. split; [exists ""; by rewrite str_app_nil_r|constructor]. }
    apply Nat.leb_gt in Ek. pose proof (fill_item one hit keep out Eh Ek) as Hitem. fold full in Hitem.
    assert (∀ tail, hit_pieces (one :: tail) = one :: hit_pieces tail) as Hcons
      by (intros tail; unfold hit_pieces; simpl; by rewrite Eh).
    rewrite Hcons. destruct (keep <? _)%nat.
    + intros [= <- <-]. split; [done|]. split; [done|]. cbn [length take].
      constructor; [exact Hitem|]. rewrite take_0. constructor.
    + destruct (fill pieces budget _) as [out2 items2] eqn:Ef. intros [= <- <-].
      destruct (IH _ _ _ _ Hout Ef) as (Hl & [more Hm] & Hi). split; [done|]. split.
      { exists (str_take keep full +:+ more). by rewrite str_app_assoc. }
      cbn [length take]. constructor; [|done]. rewrite Hm. by apply item_of_more.
  - assert (hit_pieces (one :: pieces) = hit_pieces pieces) as -> by (unfold hit_pieces; simpl; by rewrite Eh).
    destruct (keep <? _)%nat.
    + intros [= <- <-]. split; [done|]. split; [done|]. constructor.
    + intros Ef. destruct (IH _ _ _ _ Hout Ef) as (Hl & [more Hm] & Hi). split; [done|]. split; [|done].
      exists (str_take keep full +:+ more). by rewrite str_app_assoc.
Qed.

Lemma fill_all pieces : ∀ budget out,
  (String.length out + total_of pieces <= budget)%nat →
  Forall (λ one, p_hit one ≠ None → p_body one ≠ "") pieces →
  map (λ i, (w_rank i, w_hit i, w_text i)) (snd (fill pieces budget out)) =
  omap (λ one, (λ hit, (p_rank one, hit, trim_nl (p_body one))) <$> p_hit one) pieces.
Proof.
  induction pieces as [|one pieces IH]; intros budget out Hle Hb; [done|].
  apply Forall_cons in Hb as [Hone Hb]. cbn [fill total_of foldr] in *. fold (total_of pieces) in Hle.
  rewrite str_length_app. rewrite (proj2 (Nat.ltb_ge (budget - _) _)) by lia.
  rewrite (str_take_all _ (p_head one +:+ p_body one)) by by rewrite str_length_app.
  rewrite Nat.ltb_irrefl. cbn [omap list_omap].
  destruct (p_hit one) as [hit|]; cbn [fmap option_fmap option_map].
  - rewrite (proj2 (Nat.leb_gt _ _)).
    2: { specialize (Hone ltac:(done)). destruct (p_body one); [done|simpl; lia]. }
    destruct (fill pieces budget _) as [out2 items2] eqn:Ef. cbn [snd map w_rank w_hit w_text].
    rewrite str_drop_app. f_equal. change items2 with (snd (out2, items2)). rewrite <- Ef. apply IH; [|done].
    rewrite !str_length_app. lia.
  - apply IH; [|done]. rewrite !str_length_app. lia.
Qed.

Lemma trim_nl_app text : trim_nl (text +:+ nl) = text.
Proof.
  induction text as [|c text IH]; [done|]. change ((String c text) +:+ nl) with (String c (text +:+ nl)).
  cbn [trim_nl]. rewrite IH. by destruct text.
Qed.

Lemma hit_pieces_of head hits :
  hit_pieces (pieces_of redact head hits) =
  map (λ rh, hit_piece redact head (S (fst rh)) (snd rh)) (enumerate hits).
Proof.
  unfold pieces_of, hit_pieces. rewrite !List.filter_app. simpl.
  assert (∀ n l, List.filter (λ one, match p_hit one with Some _ => true | None => false end)
    (map (λ rh, hit_piece redact head (S (fst rh)) (snd rh)) (enumerate_from n l)) =
    map (λ rh, hit_piece redact head (S (fst rh)) (snd rh)) (enumerate_from n l)) as H.
  { intros n l. revert n. induction l as [|h l IH]; intros n; simpl; [done|]. by rewrite IH. }
  unfold enumerate. rewrite H. by destruct hits.
Qed.

Lemma enumerate_from_take {A} n k (l : list A) :
  take k (enumerate_from n l) = enumerate_from n (take k l).
Proof. revert n k. induction l as [|x l IH]; intros n [|k]; simpl; [done..|]. by rewrite IH. Qed.

Lemma enumerate_from_map {A B} (f : nat → A → B) n (l : list A) :
  map (λ rh, f (fst rh) (snd rh)) (enumerate_from n l) = imap (λ i x, f (n + i)%nat x) l.
Proof.
  revert n. induction l as [|x l IH]; intros n; [done|]. simpl. rewrite Nat.add_0_r, IH. f_equal.
  apply imap_ext. intros i y _. unfold compose. f_equal. lia.
Qed.

(** Where an item stands: rank from one, its hit, its passage redacted or the beginning of it,
    and the same text in the file under the heading that names it. *)
Definition item_written (head : heading) (file : string) (hit : Hit) (at_ : nat) (item : written) : Prop :=
  w_hit item = hit ∧ w_rank item = S at_ ∧ (∃ rest, redact (h_Text hit) = w_text item +:+ rest) ∧
  ∃ before after, file = before +:+ p_head (hit_piece redact head (S at_) hit) +:+ w_text item +:+ after.

Lemma trim_nl_take k text : ∃ rest, text = trim_nl (str_take k (text +:+ nl)) +:+ rest.
Proof.
  destruct (decide (k <= String.length text)%nat) as [Hk|Hk].
  - assert (str_take k (text +:+ nl) = str_take k text) as ->.
    { revert k Hk. induction text as [|c text IH]; intros [|k] Hk; simpl in *; [done|lia|done|].
      rewrite IH; [done|lia]. }
    destruct (trim_nl_prefix (str_take k text)) as [r Hr]. exists (r +:+ str_drop k text).
    by rewrite str_app_assoc, <- Hr, str_take_drop.
  - rewrite str_take_all by (rewrite str_length_app; simpl; lia). rewrite trim_nl_app.
    exists "". by rewrite str_app_nil_r.
Qed.

Lemma items_written head file hits items : ∀ n,
  Forall2 (item_of file)
    (take (length items) (map (λ rh, hit_piece redact head (S (fst rh)) (snd rh)) (enumerate_from n hits))) items →
  ∀ i item, items !! i = Some item →
    ∃ hit, hits !! i = Some hit ∧ item_written head file hit (n + i) item.
Proof.
  intros n H i item Hi. pose proof (Forall2_lookup_r _ _ _ _ _ H Hi) as (one & Hone & Hitem).
  apply lookup_take_Some in Hone as [Hone _]. rewrite list_lookup_fmap in Hone.
  apply fmap_Some in Hone as ([m hit] & Hm & ->).
  assert (∀ (l : list Hit) n, enumerate_from n l !! i = (λ x : Hit, ((n + i)%nat, x)) <$> (l !! i)) as He.
  { clear. induction i as [|i IH]; intros [|x l] n; simpl; [done|by rewrite Nat.add_0_r|done|].
    rewrite IH. by rewrite Nat.add_succ_r. }
  rewrite He in Hm. apply fmap_Some in Hm as (hit' & Hh & [= -> ->]). exists hit'. split; [done|].
  destruct Hitem as (Hw & Hr & (k & Ht) & Hf). cbn [hit_piece p_hit p_rank p_body fst snd] in *.
  split; [by injection Hw|]. split; [done|]. split; [|done]. rewrite Ht. apply trim_nl_take.
Qed.

(** The results file is bounded and honest: it is never larger than the bound; its items are the
    hits from the first, in their order, each with its rank, with its passage redacted or the
    beginning of that, and with that same text standing in the file under its own heading;
    and when nothing was cut every hit is there with its whole passage. *)
Theorem the_results_file_is_bounded head hits maxBytes file items cut :
  render redact head hits maxBytes = (file, items, cut) →
  (String.length file <= maxBytes)%nat ∧
  (∀ i item, items !! i = Some item →
     ∃ hit, hits !! i = Some hit ∧ item_written head file hit i item) ∧
  (cut = false → map (λ i, (w_rank i, w_hit i, w_text i)) items =
                 imap (λ i hit, (S i, hit, redact (h_Text hit))) hits).
Proof.
  unfold render. set (pieces := pieces_of redact head hits).
  destruct (total_of pieces <=? maxBytes)%nat eqn:Et.
  - apply Nat.leb_le in Et. destruct (fill pieces (total_of pieces) "") as [out its] eqn:Ef.
    intros H. simplify_eq. destruct (fill_spec _ _ "" _ _ (Nat.le_0_l _) Ef) as (Hl & _ & Hi).
    split; [lia|]. split; [|intros _].
    + unfold pieces in Hi. rewrite hit_pieces_of in Hi. intros i item.
      apply (items_written head file hits items 0 Hi i item).
    + assert (items = snd (fill pieces (total_of pieces) "")) as -> by by rewrite Ef.
      rewrite fill_all; [|simpl; lia|].
      * unfold pieces, pieces_of. cbn [omap list_omap app p_hit heading_piece fmap option_fmap option_map].
        rewrite omap_app.
        assert (omap (λ one, (λ hit, (p_rank one, hit, trim_nl (p_body one))) <$> p_hit one)
          (match hits with [] => [mkPiece (nl +:+ nothingMatched +:+ nl) "" 0 None] | _ => [] end) = []) as ->
          by by destruct hits.
        cbn [app]. unfold enumerate. rewrite <- (enumerate_from_map (λ i hit, (S i, hit, redact (h_Text hit))) 0).
        clear. generalize 0%nat as n. induction hits as [|h hits IH]; intros n; [done|].
        cbn [enumerate_from map omap list_omap p_hit hit_piece fmap option_fmap option_map p_rank p_body fst snd].
        by rewrite trim_nl_app, IH.
      * unfold pieces, pieces_of. rewrite !Forall_app.
        split; [constructor; [|constructor]; intros H; by destruct H|]. split.
        { destruct hits; [|constructor]. constructor; [|constructor]. intros H. by destruct H. }
        apply Forall_map, Forall_true. intros [n h] _. simpl. by destruct (redact (h_Text h)).
  - destruct (fill pieces (maxBytes - String.length (trailer_of maxBytes)) "") as [out its] eqn:Ef.
    intros H. apply (inj2 pair) in H as [H <-]. apply (inj2 pair) in H as [Hf <-].
    destruct (fill_spec _ _ "" _ _ (Nat.le_0_l _) Ef) as (Hl & _ & Hi). split; [|split; [|done]].
    + rewrite <- Hf. destruct (_ <? _)%nat eqn:E; [|by apply Nat.ltb_ge in E].
      pose proof (str_take_le (cutAt (out +:+ trailer_of maxBytes) maxBytes) (out +:+ trailer_of maxBytes)).
      pose proof (cutAt_le (out +:+ trailer_of maxBytes) maxBytes). lia.
    + destruct (decide (String.length (trailer_of maxBytes) <= maxBytes)%nat) as [Hr|Hr].
      * rewrite (proj2 (Nat.ltb_ge _ _)) in Hf by (rewrite str_length_app; lia). subst file.
        unfold pieces in Hi. rewrite hit_pieces_of in Hi. intros i item.
        apply (items_written head _ hits its 0). eapply Forall2_impl; [exact Hi|].
        intros one it. apply item_of_more.
      * replace (maxBytes - String.length (trailer_of maxBytes))%nat with 0%nat in * by lia.
        assert (its = []) as ->; [|by intros i item H].
        unfold pieces, pieces_of in Ef. cbn [app fill p_hit heading_piece String.length] in Ef.
        revert Ef. clear. rewrite str_app_nil_r. set (full := p_head (heading_piece redact head)).
        rewrite str_app_nil_r.
        assert (0 < String.length full)%nat as Hpos by (unfold full; simpl; lia).
        rewrite (proj2 (Nat.ltb_lt (0 - 0) (String.length full))) by lia.
        destruct (cutAt_le full (0 - 0)) as [Hc _].
        rewrite (proj2 (Nat.ltb_lt (cutAt full (0 - 0)) (String.length full))) by lia. by intros [= _ <-].
Qed.

End render.

Definition example_hits : list Hit :=
  [mkHit "runbooks/disk.md" 0 0 "Clear the journal first." (Qmake 12345 10000);
   mkHit ("evil" +:+ nl +:+ "## 9. forged") 3 100 "Second passage." (Qmake 1 3)].
Definition example_heading : heading := mkHeading "runbooks" "lexical" "abc" "disk full" false.

Lemma the_results_file_is_bounded_witness :
  ∃ file items, render (λ t, t) example_heading example_hits 200 = (file, items, true) ∧
    (String.length file <= 200)%nat ∧ map w_text items = ["Clear the journal first."].
Proof.
  destruct (render (λ t, t) example_heading example_hits 200) as [[file items] cut] eqn:E.
  pose proof (the_results_file_is_bounded (λ t, t) example_heading example_hits 200 file items cut E) as (Hl & _).
  assert (cut = true ∧ map w_text items = ["Clear the journal first."]) as [-> Ht].
  { revert E. clear. vm_compute. intros E. injection E as <- <- <-. done. }
  exists file, items. exact (conj eq_refl (conj Hl Ht)).
Defined.

(** ** One line stays one line *)

Definition control_char (c : ascii) : bool := (byte_of c <? 32) || (byte_of c =? 127).
Definition high (c : ascii) : bool := 128 <=? byte_of c.

Lemma high_not_control c : high c = true → negb (control_char c) = true.
Proof.
  unfold high, control_char. intros H. apply Z.leb_le in H. rewrite negb_true_iff, orb_false_iff.
  split; [apply Z.ltb_ge|apply Z.eqb_neq]; lia.
Qed.

Lemma in_range_high lo hi c : 128 <= lo → in_range lo hi c = true → high c = true.
Proof. unfold in_range, high. intros Hl H. bool_facts. apply Z.leb_le. lia. Qed.

(** A character is one byte, or two or more that are all above 127. *)
Definition rune_shape (r : string) : Prop := (∃ c, r = str c) ∨ str_all high r = true.

Lemma rune_shaped c s : rune_shape (str_take (default 1%nat (rune_width (String c s))) (String c s)).
Proof.
  unfold rune_shape, rune_width.
  destruct (byte_of c <? 128) eqn:Ec; [left; by exists c|].
  assert (high c = true) as Hc by (unfold high; apply Z.leb_le; apply Z.ltb_ge in Ec; lia).
  destruct s as [|b s]; [left; by exists c|].
  destruct (in_range 194 223 c).
  { destruct (in_range 128 191 b) eqn:Eb; [|left; by exists c]. right.
    apply in_range_high in Eb; [|lia]. simpl. by rewrite Hc, Eb. }
  destruct s as [|d s]; [left; by exists c|].
  destruct (in_range 224 239 c).
  { destruct (_ && _) eqn:Eb; [|left; by exists c]. right. apply andb_prop in Eb as [Eb Ed].
    apply in_range_high in Eb, Ed; [|lia|destruct (_ =? _); lia]. simpl. by rewrite Hc, Eb, Ed. }
  destruct (in_range 240 244 c); [|left; by exists c].
  destruct s as [|e s]; [left; by exists c|].
  destruct (_ && _) eqn:Eb; [|left; by exists c]. right.
  apply andb_prop in Eb as [Eb Ee]. apply andb_prop in Eb as [Eb Ed].
  apply in_range_high in Eb, Ed, Ee; [|lia..|destruct (_ =? _); lia]. simpl. by rewrite Hc, Eb, Ed, Ee.
Qed.

Lemma runes_shaped fuel s : Forall rune_shape (runes_fuel fuel s).
Proof.
  revert s. induction fuel as [|fuel IH]; intros s; [constructor|].
  destruct s as [|c s]; [constructor|]. cbn [runes_fuel]. constructor; [apply rune_shaped|apply IH].
Qed.

Definition plain_char (c : ascii) : bool := negb (control_char c).

Lemma str_all_unrunes p l : Forall (λ r, str_all p r = true) l → str_all p (unrunes l) = true.
Proof. induction 1 as [|r l Hr _ IH]; [done|]. by rewrite unrunes_cons, str_all_app, Hr, IH. Qed.

Lemma one_byte_plain c : str_all plain_char (printable_rune (str c)) = true.
Proof.
  apply (ascii_forall_spec (λ c, str_all plain_char (printable_rune (str c)))). vm_compute. done.
Qed.

Lemma hex_escape_plain b : str_all plain_char (String BS "u" +:+ hex4_of (byte_of b)) = true.
Proof.
  apply (ascii_forall_spec (λ b, str_all plain_char (String BS "u" +:+ hex4_of (byte_of b)))).
  vm_compute. done.
Qed.

Lemma printable_rune_plain r : rune_shape r → str_all plain_char (printable_rune r) = true.
Proof.
  intros [[c ->]|Hh]; [apply one_byte_plain|].
  assert (str_all plain_char r = true) as Hr by (eapply str_all_impl; [|exact Hh]; apply high_not_control).
  destruct r as [|a [|b [|d r]]]; [done|apply one_byte_plain| |].
  - cbn [printable_rune]. destruct (_ && _); [apply hex_escape_plain|done].
  - cbn [printable_rune]. destruct (_ || _); [|done]. by destruct (String.eqb _ _).
Qed.

(** Neither a query nor a source's name leaves its line: whatever bytes a text holds, what is
    written of it has no control character, no line break among them, so the lines of the
    results file that it stands on are the stage's own. *)
Theorem Printable_stays_on_its_line text : str_all plain_char (Printable text) = true.
Proof.
  unfold Printable. apply str_all_unrunes, Forall_map.
  eapply Forall_impl; [apply (runes_shaped (String.length text) text)|]. apply printable_rune_plain.
Qed.
