(* ===== verification/Executor.v ===== *)
(** A run from end to end: [execute.go], [replay.go] and the beginning and end of a run in
    [run.go], of [src/runtime/internal/run], with [validate.go] of the agent stage.

    The outcome and the problems a Go method fills in through pointers are threaded; what is
    deferred runs where the functions that defer it return.  The JSON of a playbook and the
    schema library are parameters, with the redactor and Go's character tables. *)
From S2P Require Import Parse.
From S2P Require Import Prelude GoStr GoTime GoPath GoErr Config Playbook GoJson GoRunes GoMarshal.
From S2P Require Import Records Store RunRecords AgentStage Guard Host AgentRun Gather McpCatalog.
From S2P Require Import Sinks GitHubSink Retrieve.
From Stdlib Require Import QArith.
Open Scope Z_scope.

(** ** The outcome, field by field *)

Definition no_run : Records.Run :=
  mkRun "" "" "" "" "" "" "" "" 0 0 0 0 "" "" "" "" 0 "" 0 "".

Definition with_status (status error : string) (r : Records.Run) : Records.Run :=
  mkRun (u_ID r) (u_PlaybookName r) (u_ResolvedPlaybookRef r) (u_ReportRef r) (u_PromptRef r)
    (u_TriggerKind r) (u_ParentRunID r) status (u_StartedAt r) (u_EndedAt r) (u_CostUSD r) (u_Tokens r)
    (u_AgentSessionID r) (u_CredentialSource r) error (u_WaitingTriggerID r) (u_WaitedMS r)
    (u_ClaimReach r) (u_ClaimToken r) (u_DeliveryID r).
Definition with_refs (resolved report prompt : string) (r : Records.Run) : Records.Run :=
  mkRun (u_ID r) (u_PlaybookName r) resolved report prompt
    (u_TriggerKind r) (u_ParentRunID r) (u_Status r) (u_StartedAt r) (u_EndedAt r) (u_CostUSD r) (u_Tokens r)
    (u_AgentSessionID r) (u_CredentialSource r) (u_Error r) (u_WaitingTriggerID r) (u_WaitedMS r)
    (u_ClaimReach r) (u_ClaimToken r) (u_DeliveryID r).
Definition with_agent (session source : string) (cost : Q) (tokens : Z) (r : Records.Run) : Records.Run :=
  mkRun (u_ID r) (u_PlaybookName r) (u_ResolvedPlaybookRef r) (u_ReportRef r) (u_PromptRef r)
    (u_TriggerKind r) (u_ParentRunID r) (u_Status r) (u_StartedAt r) (u_EndedAt r) cost tokens
    session source (u_Error r) (u_WaitingTriggerID r) (u_WaitedMS r)
    (u_ClaimReach r) (u_ClaimToken r) (u_DeliveryID r).
Definition with_end (id : string) (ended : Z) (r : Records.Run) : Records.Run :=
  mkRun id (u_PlaybookName r) (u_ResolvedPlaybookRef r) (u_ReportRef r) (u_PromptRef r)
    (u_TriggerKind r) (u_ParentRunID r) (u_Status r) (u_StartedAt r) ended (u_CostUSD r) (u_Tokens r)
    (u_AgentSessionID r) (u_CredentialSource r) (u_Error r) (u_WaitingTriggerID r) (u_WaitedMS r)
    (u_ClaimReach r) (u_ClaimToken r) (u_DeliveryID r).
Definition with_parent (parent : string) (r : Records.Run) : Records.Run :=
  mkRun (u_ID r) (u_PlaybookName r) (u_ResolvedPlaybookRef r) (u_ReportRef r) (u_PromptRef r)
    (u_TriggerKind r) parent (u_Status r) (u_StartedAt r) (u_EndedAt r) (u_CostUSD r) (u_Tokens r)
    (u_AgentSessionID r) (u_CredentialSource r) (u_Error r) (u_WaitingTriggerID r) (u_WaitedMS r)
    (u_ClaimReach r) (u_ClaimToken r) (u_DeliveryID r).

Definition with_resolved (ref : string) (r : Records.Run) : Records.Run :=
  with_refs ref (u_ReportRef r) (u_PromptRef r) r.
Definition with_report (ref : string) (r : Records.Run) : Records.Run :=
  with_refs (u_ResolvedPlaybookRef r) ref (u_PromptRef r) r.
Definition with_prompt (ref : string) (r : Records.Run) : Records.Run :=
  with_refs (u_ResolvedPlaybookRef r) (u_ReportRef r) ref r.

Definition refuse_with (error : string) : Records.Run → Records.Run := with_status StatusRefused error.
Definition fail_with (error : string) : Records.Run → Records.Run := with_status StatusFailed error.

(** ** What could not be written down *)

Definition problems : Type := list gerror.
Definition note (err : option gerror) (ps : problems) : problems :=
  match err with Some err => ps ++ [err] | None => ps end.

(** A blob put and what could not be, noted. *)
Definition put (runID name data : string) (ps : problems) : prog (string * problems) :=
  let! r := Do (PutBlob runID name data) in
  Ret (match r with inl err => ("", note (Some err) ps) | inr ref => (ref, ps) end).

Definition joinReasons (first second : string) : string :=
  if String.eqb first "" then second else first +:+ "; " +:+ second.

(** The run's outcome as [finished] leaves it, and the summary it returns. *)
Definition finished (runID : string) (outcome : Records.Run) (ps : problems)
  : Records.Run * Records.Run :=
  let outcome := with_end runID (u_EndedAt outcome) outcome in
  let outcome :=
    match errors_join ps with
    | None => outcome
    | Some err =>
        with_status (if String.eqb (u_Status outcome) StatusSucceeded then StatusFailed else u_Status outcome)
          (joinReasons (u_Error outcome) ("the record is incomplete: " +:+ Error err)) outcome
    end in
  (outcome, with_end runID 0 (with_status (u_Status outcome) (u_Error outcome) no_run)).

(** ** [run.go] *)

(** A run in progress. *)
Record InFlight := mkInFlight {
  n_ID : string; n_PlaybookName : string; n_WorkDir : string; n_claim : Claim }.

Record Executor := mkExecutor {
  e_workRoot : string; e_Config : Config.Config; e_Catalog : option McpCatalog.Catalog; e_AgentExecutable : string;
  e_AgentEnv : list string; e_StepEnv : list string; e_Retrieve : option Retrieve.Stage;
  e_GatherMaxBytes : Z }.

Definition Begin (e : Executor) (admitted : Admission) (name kind parent : string)
  : prog (gerror + InFlight) :=
  let! now := Do Now in
  let run := mkInFlight (m_RunID admitted) name (Join [e_workRoot e; m_RunID admitted]) (m_Claim admitted) in
  let! made := Do (MkdirAll (n_WorkDir run)) in
  match made with
  | Some err => Ret (inl (wrap_before "creating the working directory" err))
  | None =>
      let! recorded := Do (CreateRun
        (mkRun (n_ID run) name "" "" "" kind parent StatusRunning now 0 0 0 "" "" ""
           (m_WaitingTriggerID admitted) (m_Waited admitted / Millisecond) (m_Reach admitted)
           (Token (m_Claim admitted)) "")) in
      match recorded with
      | Some err => let! _ := Do (RemoveAll (n_WorkDir run)) in Ret (inl err)
      | None => Ret (inr run)
      end
  end.

Definition Finish (started : InFlight) (outcome : Records.Run) : prog (option gerror) :=
  let! ended := (if IsZero (u_EndedAt outcome) then Do Now else Ret (u_EndedAt outcome)) in
  let! recordErr := Do (FinishRun (with_end (n_ID started) ended outcome)) in
  let! removeErr := Do (RemoveAll (n_WorkDir started)) in
  let! releaseErr := Do (Release (n_claim started)) in
  Ret (errors_join (note releaseErr (note removeErr (note recordErr [])))).

(** The run's claim lost while it ran is its terminal state. *)
Definition stoppedByTheGuard (outcome : Records.Run) : prog Records.Run :=
  let! why := Do StoppedFor in
  Ret (match why with
       | None => outcome
       | Some reason => with_status StatusClaimLost (joinReasons (u_Error outcome) reason) outcome
       end).

(** What the functions below defer, in the order it runs. *)
Definition conclude (started : InFlight) (what : string) (outcome : Records.Run) : prog unit :=
  let! outcome := stoppedByTheGuard outcome in
  let! ended := Do Now in
  let! failed := Finish started (with_end (u_ID outcome) ended outcome) in
  let! _ := match failed with
            | Some err => Do (LogError (what +:+ "'s terminal state could not be recorded: " +:+ Error err))
            | None => Ret tt
            end in
  Do HoldDone.

(** ** The schema library of [validate.go] *)

(** What the JSON encoder, the library's decoder and its compiler answer: the two parameters of [ValidateReport]
    below are [schema_error] and [complaint] of these. *)
Section schema_library.
Context {document schema : Type} (Marshal : any → gerror + string) (UnmarshalJSON : string → gerror + document)
        (AddResource : document → option gerror) (Compile : document → gerror + schema)
        (Validate_ : schema → document → Parse.validation).

Definition compileSchema (declared : any) : gerror + schema :=
  match Marshal declared with
  | inl err => inl (wrap_before "the declared output schema cannot be encoded" err)
  | inr encoded =>
      match UnmarshalJSON encoded with
      | inl err => inl (wrap_before "the declared output schema is not JSON" err)
      | inr document =>
          match AddResource document with
          | Some err => inl (wrap_before "the declared output schema does not compile" err)
          | None =>
              match Compile document with
              | inl err => inl (wrap_before "the declared output schema does not compile" err)
              | inr compiled => inr compiled
              end
          end
      end
  end.
Definition schema_error (declared : any) : option gerror := match compileSchema declared with inl err => Some err | inr _ => None end.

Definition describe (error : string) (units : list (string * string)) : string :=
  let lines := map (λ u, nl +:+ "  " +:+ (if String.eqb (snd u) "" then "the report" else snd u) +:+ ": " +:+ fst u)
                 (List.filter (λ u, negb (Parse.restates (fst u))) units) in
  match lines with [] => " " +:+ error | _ => String.concat "" lines end.

Definition complaint (declared : any) (report : string) : option string :=
  match UnmarshalJSON report with
  | inl err => Some (": the answer is not JSON: " +:+ Error err)
  | inr document =>
      match compileSchema declared with
      | inl _ => None
      | inr compiled =>
          match Validate_ compiled document with
          | Parse.Valid => None
          | Parse.Invalid error units => Some (":" +:+ describe error units)
          | Parse.Unusable err => Some (": " +:+ Error err)
          end
      end
  end.
End schema_library.

Section executor.
Context (redact : string → string) (indexedRune : string → bool)
        (encode_book : Playbook.Playbook → gerror + string)
        (compile : any → option gerror) (check : any → string → option string).

(** ** [validate.go] *)

Definition ErrReportInvalid : gerror :=
  Sentinel "the agent report does not satisfy the declared output schema".

(** [check] is the library's complaint about a document, nothing when it has none. *)
Definition ValidateReport (report : string) (schema : any) : option gerror :=
  match schema with
  | ANil => None
  | _ =>
      match compile schema with
      | Some err => Some err
      | None =>
          if String.eqb (TrimSpace report) "" then
            Some (wrap_after ErrReportInvalid ": the agent answered with nothing")
          else wrap_after ErrReportInvalid <$> check schema report
      end
  end.

(** ** [execute.go] *)

Definition interpolator (e : Executor) (trigger : gmap string string) (text : string) : gerror + string :=
  match Interpolate (e_Config e) text trigger with
  | inl ps => inl (problems_error ps)
  | inr text => inr text
  end.

Definition storeResolved (runID : string) (book : Playbook.Playbook) : prog (gerror + string) :=
  match encode_book book with
  | inl err => Ret (inl err)
  | inr document => Do (PutBlob runID "playbook.json" document)
  end.

Definition TriggerDataFile : string := "trigger.json".

(** [json.MarshalIndent] of a map of strings. *)
Definition indent_strings (values : option (gmap string string)) : string :=
  match values with
  | None => "null"
  | Some values =>
      match sorted_keys values with
      | [] => "{}"
      | keys =>
          "{" +:+ nl
          +:+ join (map (λ k, "  " +:+ marshal_string k +:+ ": " +:+ marshal_string (default "" (values !! k))) keys)
                ("," +:+ nl)
          +:+ nl +:+ "}"
      end
  end.

Definition writeTriggerData (started : InFlight) (trigger : option (gmap string string)) (ps : problems)
  : prog problems :=
  let document := indent_strings trigger in
  let! wrote := Do (WriteFile (Join [n_WorkDir started; TriggerDataFile]) document) in
  let! (ref, ps) := put (n_ID started) TriggerDataFile document (note wrote ps) in
  let! added := Do (AddGatheredInput (n_ID started)
    (mkGatheredInput TriggerDataFile ref (Z.of_nat (String.length document)) false 0 "")) in
  Ret (note added ps).

Fixpoint bind_steps (e : Executor) (steps : list Playbook.Step) (trigger : gmap string string)
  : gerror + list Gather.Step :=
  match steps with
  | [] => inr []
  | step :: steps =>
      match BindShell (e_Config e) (Playbook.Run step) trigger with
      | inl ps => inl (wrap_before ("gather step " +:+ As step) (problems_error ps))
      | inr bound =>
          let* rest := bind_steps e steps trigger in
          inr (Gather.mkStep (Line bound) (As step) (Env bound) :: rest)
      end
  end.

(** One step's result, copied into the record while the working directory is there. *)
Definition record_input (runID : string) (result : Gather.Result) (ps : problems) : prog problems :=
  let! read := Do (ReadFile (Gather.r_Path result)) in
  let! (ref, ps) := match read with
                    | inl err => Ret ("", note (Some err) ps)
                    | inr data => put runID (Gather.r_Name result) data ps
                    end in
  let! (stderr, ps) := (if String.eqb (Gather.r_Stderr result) "" then Ret ("", ps)
                        else put runID (Gather.r_Name result +:+ ".stderr") (Gather.r_Stderr result) ps) in
  let! added := Do (AddGatheredInput runID
    (mkGatheredInput (Gather.r_Name result) ref (Gather.r_Bytes result) (Gather.r_Truncated result)
       (Gather.r_ExitCode result) stderr)) in
  Ret (note added ps).

Fixpoint record_inputs (runID : string) (results : list Gather.Result) (ps : problems) : prog problems :=
  match results with
  | [] => Ret ps
  | result :: results => let! ps := record_input runID result ps in record_inputs runID results ps
  end.

Definition is_webhook (book : Playbook.Playbook) : bool := String.eqb (t_Type (p_Trigger book)) "webhook".

Definition gather (e : Executor) (started : InFlight) (book : Playbook.Playbook)
    (trigger : option (gmap string string)) (ps : problems) : prog (problems * option gerror) :=
  let! ps := (if is_webhook book then writeTriggerData started trigger ps else Ret ps) in
  match bind_steps e (Playbook.Gather book) (values_of trigger) with
  | inl err => Ret (ps, Some err)
  | inr steps =>
      let! (results, err) :=
        Gather.Run steps (Gather.mkOptions (n_WorkDir started) (e_GatherMaxBytes e) 0 (e_StepEnv e)) in
      let! ps := record_inputs (n_ID started) results ps in
      Ret (ps, err)
  end.

(** *** Retrieval *)

Definition pad3 (z : Z) : string := pad_zeros 3 (show_Z z).

(** The items whose contents there are, each with its content put; the others as they are. *)
Fixpoint record_contents (runID : string) (sequence : Z) (items : list RetrievedItem)
    (contents : list string) (ps : problems) : prog (list RetrievedItem * problems) :=
  match items, contents with
  | item :: items, content :: contents =>
      let! (ref, ps) := put runID ("retrieval-" +:+ pad3 sequence +:+ "-result-" +:+ pad3 (j_Rank item) +:+ ".md")
                          content ps in
      let! (rest, ps) := record_contents runID sequence items contents ps in
      Ret (mkRetrievedItem (j_Rank item) (j_Score item) (j_Source item) (j_Ordinal item) (j_Offset item) ref
             :: rest, ps)
  | items, _ => Ret (items, ps)
  end.

Definition with_results (ref : string) (v : RunRecords.Retrieval) : RunRecords.Retrieval :=
  mkRetrieval (v_Sequence v) (v_AsName v) (v_Collection v) (v_Mode v) (v_Generation v)
    (v_GenerationBuiltAt v) (v_Identity v) (v_Query v) (v_QueryTruncated v) (v_Outcome v)
    ref (v_ResultsBytes v) (v_CountTruncated v) (v_BytesTruncated v) (v_Error v) (v_Items v).

Definition recordRetrieval (runID : string) (retrieved : Retrieved) (ps : problems) : prog problems :=
  let row := v_Record retrieved in
  let! (row, ps) :=
    match v_Results retrieved with
    | None => Ret (row, ps)
    | Some results =>
        let! (ref, ps) := put runID ("retrieval-" +:+ pad3 (v_Sequence row) +:+ "-results.md") results ps in
        Ret (with_results ref row, ps)
    end in
  let! (items, ps) := record_contents runID (v_Sequence row) (v_Items row) (v_Contents retrieved) ps in
  let! added := Do (AddRetrieval runID (with_items items row)) in
  Ret (note added ps).

Fixpoint record_retrievals (runID : string) (retrieved : list Retrieved) (ps : problems) : prog problems :=
  match retrieved with
  | [] => Ret ps
  | one :: retrieved => let! ps := recordRetrieval runID one ps in record_retrievals runID retrieved ps
  end.

Definition retrieve (e : Executor) (started : InFlight) (book : Playbook.Playbook)
    (trigger : gmap string string) (ps : problems) : prog (problems * option gerror) :=
  match Playbook.Retrieve book with
  | [] => Ret (ps, None)
  | retrievals =>
      match e_Retrieve e with
      | None =>
          Ret (ps, Some (Text "this playbook retrieves, and this deployment was given no retrieve stage"))
      | Some stage =>
          let! (retrieved, err) := Retrieve.Run redact indexedRune stage (n_WorkDir started) retrievals trigger in
          let! ps := record_retrievals (n_ID started) retrieved ps in
          Ret (ps, err)
      end
  end.

(** *** The prompt *)

Definition prompt (e : Executor) (started : InFlight) (book : Playbook.Playbook)
    (trigger : gmap string string) : prog (gerror + (string * string)) :=
  let! raw := Do (ReadFile (PromptPath book)) in
  match raw with
  | inl err => Ret (inl (wrap_before "reading the prompt" err))
  | inr raw =>
      match interpolator e trigger raw with
      | inl err => Ret (inl (wrap_before "resolving the prompt" err))
      | inr text =>
          let! ref := Do (PutBlob (n_ID started) "prompt.txt" text) in
          Ret (let* ref := ref in inr (text, ref))
      end
  end.

(** *** The agent stage, recorded *)

Definition declarationOf (book : Playbook.Playbook) : AgentStage.Declaration :=
  let agent := p_Agent book in
  AgentStage.mkDeclaration (Model agent) (IsRestricted agent) (Tools agent) (MCP agent) (Allow agent)
    (OutputSchema agent).

Definition declarationsOf (book : Playbook.Playbook) : list Sinks.Declaration :=
  map (λ one, let '(name, value, ok) := SinkType one in
              Sinks.mkDeclaration name (if (ok : bool) then Some value else None)) (Playbook.Sinks book).

Fixpoint servers_from (e : Executor) (catalog : McpCatalog.Catalog) (names : list string)
    (servers : list (string * any)) : gerror + list (string * any) :=
  match names with
  | [] => inr servers
  | name :: names =>
      let* resolved := McpCatalog.Resolve (interpolator e ∅) catalog name in
      servers_from e catalog names (assoc_set name resolved servers)
  end.

Definition serversOf (e : Executor) (book : Playbook.Playbook) : gerror + list (string * any) :=
  match e_Catalog e with
  | None => inr []
  | Some catalog => servers_from e catalog (MCP (p_Agent book)) []
  end.

Fixpoint record_denials (runID : string) (at_ : Z) (denials : list PermissionDenial) (ps : problems)
  : prog problems :=
  match denials with
  | [] => Ret ps
  | denial :: denials =>
      let! added := Do (AddRefusedAction runID (mkRefusedAction (at_ + 1) (n_Tool denial) (n_Input denial))) in
      record_denials runID (at_ + 1) denials (note added ps)
  end.

(** A blob of a tool call, when there is something to put. *)
Definition put_part (runID name data : string) (ps : problems) : prog (string * problems) :=
  if String.eqb data "" then Ret ("", ps) else put runID name data ps.

Fixpoint record_calls (runID : string) (at_ : Z) (calls : list ToolCall) (ps : problems) : prog problems :=
  match calls with
  | [] => Ret ps
  | call :: calls =>
      let! (input, ps) := put_part runID ("tool-" +:+ pad3 (at_ + 1) +:+ "-in.json") (l_Input call) ps in
      let! (output, ps) := put_part runID ("tool-" +:+ pad3 (at_ + 1) +:+ "-out.json") (l_Output call) ps in
      let! added := Do (AddToolCall runID
        (mkToolCallRow (at_ + 1) (l_Name call) input output (l_StartedAt call) 0 (l_Outcome call))) in
      record_calls runID (at_ + 1) calls (note added ps)
  end.

Definition recordStage (runID : string) (stage : AgentRun.Outcome) (outcome : Records.Run) (ps : problems)
  : prog (Records.Run * problems) :=
  let stream := o_Stream stage in
  let! (_, ps) := put_part runID "transcript.jsonl" (s_Raw stream) ps in
  let outcome :=
    match s_Init stream with
    | Some init =>
        with_agent (e_SessionID init) (e_APIKeySource init) (u_CostUSD outcome) (u_Tokens outcome) outcome
    | None => outcome
    end in
  let! (outcome, ps) :=
    match s_Result stream with
    | Some result =>
        let outcome :=
          with_agent (u_AgentSessionID outcome) (u_CredentialSource outcome) (e_TotalCostUSD result)
            (Total (e_Usage result)) outcome in
        let! ps := record_denials runID 0 (e_PermissionDenials result) ps in Ret (outcome, ps)
    | None => Ret (outcome, ps)
    end in
  let! ps := record_calls runID 0 (s_ToolCalls stream) ps in
  Ret (outcome, ps).

(** *** The sinks, and the half of a run a replay repeats *)

Definition sink_failed : string := "a sink failed; the report is in the record and the run can be resumed".

Fixpoint record_outcomes (runID : string) (delivered : list Sinks.Outcome) (outcome : Records.Run) (ps : problems)
  : prog (Records.Run * problems) :=
  match delivered with
  | [] => Ret (outcome, ps)
  | one :: delivered =>
      let! added := Do (AddSinkOutcome runID
        (mkSinkOutcome (Sinks.o_Sink one) (Sinks.o_Status one) (Sinks.o_ItemsCreated one)
           (Sinks.o_ItemsSkipped one) (Sinks.o_Detail one))) in
      let outcome :=
        if String.eqb (Sinks.o_Status one) Sinks.StatusFailed && String.eqb (u_Status outcome) StatusSucceeded
        then fail_with sink_failed outcome else outcome in
      record_outcomes runID delivered outcome (note added ps)
  end.

Definition deliver (runID : string) (sinks : list Sinks.Sink) (delivery : Sinks.Delivery)
    (outcome : Records.Run) (ps : problems) : prog (Records.Run * problems) :=
  let! (delivered, fenceErr) := DeliverAll sinks delivery (Some (Do Fence)) in
  let outcome :=
    match fenceErr with
    | Some err => with_status (u_Status outcome) (joinReasons (u_Error outcome) (Error err)) outcome
    | None => outcome
    end in
  record_outcomes runID delivered outcome ps.

(** What the stage reported, checked. *)
Definition judged (stage : AgentRun.Outcome) (schema : any) : gerror + string :=
  let report := AgentRun.Report (AgentRun.o_Stream stage) in
  match AgentRun.o_DecodeErr stage, s_Result (AgentRun.o_Stream stage) with
  | Some err, None => inl (wrap_before "the agent's output could not be read" err)
  | _, _ =>
      match report with
      | inl err => inl err
      | inr document => match ValidateReport document schema with Some err => inl err | None => inr document end
      end
  end.

Definition build_error (refusals : list gerror) : string :=
  match errors_join refusals with Some err => Error err | None => "" end.

(** From the report on: it is kept when there is one, and every sink is told. *)
Definition report_and_deliver (started : InFlight) (book : Playbook.Playbook) (sinks : list Sinks.Sink)
    (report : gerror + string) (outcome : Records.Run) (ps : problems) : prog (Records.Run * Records.Run) :=
  let! (outcome, ps) :=
    match report with
    | inl err => Ret (fail_with (Error err) outcome, ps)
    | inr document =>
        let! (ref, ps) := put (n_ID started) "report.json" document ps in
        Ret (with_report ref (with_status StatusSucceeded (u_Error outcome) outcome), ps)
    end in
  let! (outcome, ps) := deliver (n_ID started) sinks
    (match report with
     | inl err => mkDelivery (Name book) (n_ID started) "" (Some err)
     | inr document => mkDelivery (Name book) (n_ID started) document None
     end) outcome ps in
  let! outcome := stoppedByTheGuard outcome in
  Ret (finished (n_ID started) outcome ps).

Definition agentAndSinks (e : Executor) (started : InFlight) (book : Playbook.Playbook) (text : string)
    (outcome : Records.Run) (ps : problems) (trigger : gmap string string) : prog (Records.Run * Records.Run) :=
  let over (outcome : Records.Run) ps := Ret (finished (n_ID started) outcome ps) in
  let (sinks, refusals) := Build (interpolator e trigger) (is_webhook book) (declarationsOf book) in
  match refusals with
  | _ :: _ => over (refuse_with (build_error refusals) outcome) ps
  | [] =>
  match StageTimeout (p_Agent book) with
  | inl err => over (refuse_with err outcome) ps
  | inr timeout =>
  match serversOf e book with
  | inl err => over (refuse_with (Error err) outcome) ps
  | inr servers =>
      let! fence := Do Fence in
      match fence with
      | Some err => over (with_status (u_Status outcome) (Error err) outcome) ps
      | None =>
          let declaration := declarationOf book in
          let! (stage, err) := AgentRun.Run declaration
            (Host.mkOptions (e_AgentExecutable e) (n_WorkDir started) text timeout (e_AgentEnv e) servers)
            (CheckReceipt declaration) in
          match err, stage with
          | Some err, _ => over (with_status (u_Status outcome) (Error err) outcome) ps
          | None, None => over outcome ps
          | None, Some stage =>
              let! (outcome, ps) := recordStage (n_ID started) stage outcome ps in
              match o_Aborted stage, o_TimedOut stage with
              | Some err, _ => over (refuse_with (Error err) outcome) ps
              | None, true =>
                  over (with_status StatusTimedOut
                          ("the agent stage exceeded its " +:+ Duration_String timeout +:+ " timeout") outcome) ps
              | None, false =>
                  report_and_deliver started book sinks (judged stage (OutputSchema (p_Agent book))) outcome ps
              end
          end
      end
  end end end.

(** *** A run, from its trigger *)

(** What is held and begun, around the work: a claim taken is held, and whatever came of the
    work it is concluded. *)
Definition run_claimed (e : Executor) (admitted : Admission) (name kind parent what : string)
    (work : InFlight → prog (Records.Run * Records.Run)) : prog (gerror + Records.Run) :=
  let! _ := Do (HoldClaim admitted) in
  let! begun := Begin e admitted name kind parent in
  match begun with
  | inl err =>
      let! _ := Do (Release (m_Claim admitted)) in
      let! _ := Do HoldDone in
      Ret (inl err)
  | inr started =>
      let! (outcome, summary) := work started in
      let! _ := conclude started what outcome in
      Ret (inr summary)
  end.

Definition prompt_and_agent (e : Executor) (started : InFlight) (book : Playbook.Playbook)
    (trigger : gmap string string) (outcome : Records.Run) (ps : problems) : prog (Records.Run * Records.Run) :=
  let! asked := prompt e started book (if is_webhook book then ∅ else trigger) in
  match asked with
  | inl err => Ret (finished (n_ID started) (refuse_with (Error err) outcome) ps)
  | inr (text, ref) => agentAndSinks e started book text (with_prompt ref outcome) ps trigger
  end.

Definition execute_work (e : Executor) (book : Playbook.Playbook) (trigger : Trigger) (started : InFlight)
  : prog (Records.Run * Records.Run) :=
  let! stored := storeResolved (n_ID started) book in
  let '(ref, ps) := match stored with inl err => ("", [err]) | inr ref => (ref, []) end in
  let outcome := with_resolved ref (with_status StatusFailed "" no_run) in
  let! (ps, gatherErr) := gather e started book (t_Values trigger) ps in
  match gatherErr with
  | Some err => Ret (finished (n_ID started) (refuse_with (Error err) outcome) ps)
  | None =>
      let! (ps, retrieveErr) := retrieve e started book (values_of (t_Values trigger)) ps in
      match retrieveErr with
      | Some err => Ret (finished (n_ID started) (refuse_with (Error err) outcome) ps)
      | None => prompt_and_agent e started book (values_of (t_Values trigger)) outcome ps
      end
  end.

Definition Execute (e : Executor) (book : Playbook.Playbook) (trigger : Trigger) : prog (gerror + Records.Run) :=
  let! admitted := Do (Admit book (t_Kind trigger) (t_DueAt trigger) (t_Values trigger) (t_OnWait trigger)) in
  match admitted with
  | inl err => Ret (inl err)
  | inr admitted =>
      let book := m_Book admitted in
      run_claimed e admitted (Name book) (t_Kind trigger) "" "the run" (execute_work e book trigger)
  end.

(** ** [replay.go] *)

Definition ErrNotReplayable : gerror := Sentinel "this run cannot be replayed from its record".
Definition ErrPlaybookChanged : gerror := Sentinel "the playbook has changed since the run being replayed".
Definition ErrNotResumable : gerror := Sentinel "this run has no recorded report to resume from".

(** [fmt.Errorf("%w" + between + "%w", ...)] *)
Definition wrap_both (first : gerror) (between : string) (second : gerror) : gerror :=
  Wrap (Error first +:+ between +:+ Error second) [first; second].

Definition sameAsRecorded (parent : Records.Run) (book : Playbook.Playbook) : prog (option gerror) :=
  if String.eqb (u_ResolvedPlaybookRef parent) "" then
    Ret (Some (wrap_after ErrNotReplayable ": it recorded no copy of the playbook it ran"))
  else
    let! recorded := Do (GetBlob (u_ResolvedPlaybookRef parent)) in
    Ret (match recorded with
         | inl err => Some (wrap_both ErrNotReplayable ": " err)
         | inr recorded =>
             match encode_book book with
             | inl err => Some err
             | inr now =>
                 if String.eqb (TrimSpace recorded) (TrimSpace now) then None
                 else Some (wrap_after ErrPlaybookChanged
                   (": " +:+ Name book +:+ " no longer matches what run " +:+ u_ID parent
                    +:+ " used; read it with `gronin show " +:+ u_ID parent +:+ "`"))
             end
         end).

Definition input_error (name : string) (err : gerror) : gerror :=
  wrap_both ErrNotReplayable (": input " +:+ quote name +:+ ": ") err.
Definition retrieval_error (name : string) (err : gerror) : gerror :=
  wrap_both ErrNotReplayable (": retrieval " +:+ quote name +:+ ": ") err.

(** The recorded inputs, put back where the agent expects them; the error of the first that
    could not be. *)
Fixpoint restore_inputs (started : InFlight) (inputs : list GatheredInput) (ps : problems)
  : prog (problems * option gerror) :=
  match inputs with
  | [] => Ret (ps, None)
  | input :: inputs =>
      if String.eqb (i_BlobRef input) "" then restore_inputs started inputs ps
      else
        let! data := Do (GetBlob (i_BlobRef input)) in
        match data with
        | inl err => Ret (ps, Some (input_error (i_Name input) err))
        | inr data =>
            let! wrote := Do (WriteFile (Join [n_WorkDir started; Base (i_Name input)]) data) in
            match wrote with
            | Some err => Ret (ps, Some err)
            | None =>
                let! added := Do (AddGatheredInput (n_ID started) input) in
                restore_inputs started inputs (note added ps)
            end
        end
  end.

Definition without_content (item : RetrievedItem) : RetrievedItem :=
  mkRetrievedItem (j_Rank item) (j_Score item) (j_Source item) (j_Ordinal item) (j_Offset item) "".

Fixpoint read_contents (items : list RetrievedItem) : prog (gerror + list string) :=
  match items with
  | [] => Ret (inr [])
  | item :: items =>
      let! content := Do (GetBlob (j_ContentRef item)) in
      match content with
      | inl err => Ret (inl err)
      | inr content =>
          let! rest := read_contents items in
          Ret (let* rest := rest in inr (content :: rest))
      end
  end.

Definition restoredRetrieval (recorded : RunRecords.Retrieval) : prog (gerror + Retrieved) :=
  let! results := Do (GetBlob (v_ResultsRef recorded)) in
  match results with
  | inl err => Ret (inl err)
  | inr results =>
      let! contents := read_contents (v_Items recorded) in
      Ret (let* contents := contents in
           inr (mkRetrieved (with_items (map without_content (v_Items recorded)) (with_results "" recorded))
                  (Some results) contents))
  end.

Fixpoint restore_retrievals (started : InFlight) (retrievals : list RunRecords.Retrieval) (ps : problems)
  : prog (problems * option gerror) :=
  match retrievals with
  | [] => Ret (ps, None)
  | retrieval :: retrievals =>
      if String.eqb (v_ResultsRef retrieval) "" then restore_retrievals started retrievals ps
      else
        let! restored := restoredRetrieval retrieval in
        match restored with
        | inl err => Ret (ps, Some (retrieval_error (v_AsName retrieval) err))
        | inr restored =>
            let! wrote := Do (WriteFile (Join [n_WorkDir started; Base (v_AsName retrieval)])
                                (default "" (v_Results restored))) in
            match wrote with
            | Some err => Ret (ps, Some err)
            | None =>
                let! ps := recordRetrieval (n_ID started) restored ps in
                restore_retrievals started retrievals ps
            end
        end
  end.

Definition replay_work (e : Executor) (book : Playbook.Playbook) (parentID text : string)
    (inputs : list GatheredInput) (retrievals : list RunRecords.Retrieval) (started : InFlight)
  : prog (Records.Run * Records.Run) :=
  let outcome := with_parent parentID (with_status StatusFailed "" no_run) in
  let! (ps, inputErr) := restore_inputs started inputs [] in
  match inputErr with
  | Some err => Ret (finished (n_ID started) (refuse_with (Error err) outcome) ps)
  | None =>
      let! (ps, retrievalErr) := restore_retrievals started retrievals ps in
      match retrievalErr with
      | Some err => Ret (finished (n_ID started) (refuse_with (Error err) outcome) ps)
      | None =>
          let! (ref, ps) := put (n_ID started) "prompt.txt" text ps in
          let! resolved := storeResolved (n_ID started) book in
          let outcome := with_prompt ref outcome in
          let outcome := match resolved with inr resolved => with_resolved resolved outcome | inl _ => outcome end in
          agentAndSinks e started book text outcome ps ∅
      end
  end.

Definition Replay (e : Executor) (parentID : string) (book : Playbook.Playbook) : prog (gerror + Records.Run) :=
  let! parent := Do (GetRun parentID) in
  match parent with
  | inl err => Ret (inl err)
  | inr parent =>
  let! inputs := Do (GatheredInputs parentID) in
  match inputs with
  | inl err => Ret (inl err)
  | inr inputs =>
  let! retrievals := Do (Retrievals parentID) in
  match retrievals with
  | inl err => Ret (inl err)
  | inr retrievals =>
  if String.eqb (u_PromptRef parent) "" then
    Ret (inl (wrap_after ErrNotReplayable ": it recorded no prompt"))
  else
  let! changed := sameAsRecorded parent book in
  match changed with
  | Some err => Ret (inl err)
  | None =>
  let! text := Do (GetBlob (u_PromptRef parent)) in
  match text with
  | inl err => Ret (inl (wrap_both ErrNotReplayable ": " err))
  | inr text =>
  let! admitted := Do (Admit book TriggerReplay 0 None false) in
  match admitted with
  | inl err => Ret (inl err)
  | inr admitted =>
      run_claimed e admitted (Name book) TriggerReplay parentID "the replay"
        (replay_work e book parentID text inputs retrievals)
  end end end end end end.

Definition resume_work (e : Executor) (book : Playbook.Playbook) (parentID report : string) (started : InFlight)
  : prog (Records.Run * Records.Run) :=
  let outcome := with_parent parentID (with_status StatusFailed "" no_run) in
  let (sinks, refusals) := Build (interpolator e ∅) (is_webhook book) (declarationsOf book) in
  match refusals with
  | _ :: _ => Ret (finished (n_ID started) (refuse_with (build_error refusals) outcome) [])
  | [] =>
      let! (ref, ps) := put (n_ID started) "report.json" report [] in
      let! (outcome, ps) := deliver (n_ID started) sinks (mkDelivery (Name book) (n_ID started) report None)
        (with_status StatusSucceeded "" (with_report ref outcome)) ps in
      Ret (finished (n_ID started) outcome ps)
  end.

Definition Resume (e : Executor) (parentID : string) (book : Playbook.Playbook) : prog (gerror + Records.Run) :=
  let! parent := Do (GetRun parentID) in
  match parent with
  | inl err => Ret (inl err)
  | inr parent =>
  if String.eqb (u_ReportRef parent) "" then
    Ret (inl (wrap_after ErrNotResumable ": it produced none"))
  else
  let! report := Do (GetBlob (u_ReportRef parent)) in
  match report with
  | inl err => Ret (inl (wrap_both ErrNotResumable ": " err))
  | inr report =>
  let! changed := sameAsRecorded parent book in
  match changed with
  | Some err => Ret (inl err)
  | None =>
  let! admitted := Do (Admit book TriggerResume 0 None false) in
  match admitted with
  | inl err => Ret (inl err)
  | inr admitted =>
      run_claimed e admitted (Name book) TriggerResume parentID "the resume"
        (resume_work e book parentID report)
  end end end end.

End executor.

(** ** Reports that are accepted *)

(** An agent's answer that is let through to the sinks, when a schema was declared, is not blank, is JSON, and
    is what the declared schema, compiled, says nothing against. *)
Lemma an_accepted_report_is_valid {document schema : Type} Marshal UnmarshalJSON AddResource Compile
    (Validate_ : schema → document → Parse.validation) report declared :
  ValidateReport (schema_error Marshal UnmarshalJSON AddResource Compile) (complaint Marshal UnmarshalJSON AddResource Compile Validate_) report declared = None →
  declared = ANil ∨
  ∃ compiled decoded, compileSchema Marshal UnmarshalJSON AddResource Compile declared = inr compiled ∧ TrimSpace report ≠ "" ∧
    UnmarshalJSON report = inr decoded ∧ Validate_ compiled decoded = Parse.Valid.
Proof.
  intros H. assert (declared = ANil ∨ declared ≠ ANil) as [->|Hn] by (destruct declared; by (left + right)); [by left|right].
  unfold ValidateReport, schema_error, complaint in H. replace (match declared with ANil => None | _ => _ end) with
    (match compileSchema Marshal UnmarshalJSON AddResource Compile declared with
     | inl err => Some err
     | inr compiled =>
         if String.eqb (TrimSpace report) "" then Some (wrap_after ErrReportInvalid ": the agent answered with nothing")
         else wrap_after ErrReportInvalid <$> complaint Marshal UnmarshalJSON AddResource Compile Validate_ declared report
     end) in H.
  2: { unfold complaint. by destruct declared, (compileSchema _ _ _ _ _). }
  unfold complaint in H. destruct (compileSchema _ _ _ _ declared) as [|compiled]; [done|]. destruct (String.eqb _ "") eqn:E; [done|]. bool_facts.
  destruct (UnmarshalJSON report) as [|decoded]; [done|]. exists compiled, decoded. split_and!; try done. by destruct (Validate_ compiled decoded).
Qed.
