(* ===== verification/ExecutorCalls.v ===== *)
(** What the parts of the executor may call: which of them only write, and which run a stage. *)
From S2P Require Import Prelude GoStr GoTime GoPath GoErr Config Playbook GoJson GoRunes GoMarshal.
From S2P Require Import Records Store RunRecords AgentStage Guard Host AgentRun Gather McpCatalog.
From S2P Require Import Sinks GitHubSink Retrieve Executor.
Open Scope Z_scope.

(** ** What only writes *)

(** The commands that write in the working directory or the record, or read them back. *)
Definition writes (c : host_cmd) : Prop :=
  match c with
  | ReadFile _ | WriteFile _ _ | CreateFile _ | PutBlob _ _ _ | GetBlob _ | AddGatheredInput _ _
  | AddRetrieval _ _ | AddToolCall _ _ | AddRefusedAction _ _ | AddSinkOutcome _ _ => True
  | _ => False
  end.

Create HintDb writes.
Ltac writes_calls := only_calls; simpl; eauto with writes.


Lemma put_writes runID name data ps : only writes (put runID name data ps).
Proof. unfold put. by writes_calls. Qed.
#[export] Hint Resolve put_writes : writes.

Lemma put_part_writes runID name data ps : only writes (put_part runID name data ps).
Proof. unfold put_part. by writes_calls. Qed.
#[export] Hint Resolve put_part_writes : writes.

Lemma writeTriggerData_writes started trigger ps : only writes (writeTriggerData started trigger ps).
Proof. unfold writeTriggerData. by writes_calls. Qed.
Lemma record_input_writes runID result ps : only writes (record_input runID result ps).
Proof. unfold record_input. by writes_calls. Qed.
#[export] Hint Resolve writeTriggerData_writes record_input_writes : writes.

Lemma record_inputs_writes runID results : ∀ ps, only writes (record_inputs runID results ps).
Proof. induction results; intros ps; cbn [record_inputs]; by writes_calls. Qed.
Lemma record_contents_writes runID sequence items :
  ∀ contents ps, only writes (record_contents runID sequence items contents ps).
Proof. induction items; intros [|? ?] ps; cbn [record_contents]; by writes_calls. Qed.
#[export] Hint Resolve record_inputs_writes record_contents_writes : writes.

Lemma recordRetrieval_writes runID retrieved ps : only writes (recordRetrieval runID retrieved ps).
Proof. unfold recordRetrieval. by writes_calls. Qed.
#[export] Hint Resolve recordRetrieval_writes : writes.

Lemma record_retrievals_writes runID retrieved : ∀ ps, only writes (record_retrievals runID retrieved ps).
Proof. induction retrieved; intros ps; cbn [record_retrievals]; by writes_calls. Qed.
Lemma record_denials_writes runID denials : ∀ at_ ps, only writes (record_denials runID at_ denials ps).
Proof. induction denials; intros at_ ps; cbn [record_denials]; by writes_calls. Qed.
Lemma record_calls_writes runID calls : ∀ at_ ps, only writes (record_calls runID at_ calls ps).
Proof. induction calls; intros at_ ps; cbn [record_calls]; by writes_calls. Qed.
Lemma record_outcomes_writes runID delivered :
  ∀ outcome ps, only writes (record_outcomes runID delivered outcome ps).
Proof. induction delivered; intros outcome ps; cbn [record_outcomes]; by writes_calls. Qed.
#[export] Hint Resolve record_retrievals_writes record_denials_writes record_calls_writes
  record_outcomes_writes : writes.

Lemma recordStage_writes runID stage outcome ps : only writes (recordStage runID stage outcome ps).
Proof. unfold recordStage. by writes_calls. Qed.
#[export] Hint Resolve recordStage_writes : writes.


Lemma restore_inputs_writes started inputs : ∀ ps, only writes (restore_inputs started inputs ps).
Proof. induction inputs; intros ps; cbn [restore_inputs]; by writes_calls. Qed.
Lemma read_contents_writes items : only writes (read_contents items).
Proof. induction items; cbn [read_contents]; by writes_calls. Qed.
#[export] Hint Resolve restore_inputs_writes read_contents_writes : writes.
Lemma restoredRetrieval_writes recorded : only writes (restoredRetrieval recorded).
Proof. unfold restoredRetrieval. by writes_calls. Qed.
#[export] Hint Resolve restoredRetrieval_writes : writes.
Lemma restore_retrievals_writes started retrievals :
  ∀ ps, only writes (restore_retrievals started retrievals ps).
Proof. induction retrievals; intros ps; cbn [restore_retrievals]; by writes_calls. Qed.
#[export] Hint Resolve restore_retrievals_writes : writes.


Lemma resolveQuery_writes s workDir declared trigger : only writes (resolveQuery s workDir declared trigger).
Proof. unfold resolveQuery. by writes_calls. Qed.
Lemma deliver_found_writes redact workDir at_ declared collection query truncated found :
  only writes (deliver_found redact workDir at_ declared collection query truncated found).
Proof. unfold deliver_found. by writes_calls. Qed.
Lemma prompt_writes e started book trigger : only writes (prompt e started book trigger).
Proof. unfold prompt. by writes_calls. Qed.
Lemma storeResolved_writes encode_book runID book : only writes (storeResolved encode_book runID book).
Proof. unfold storeResolved. by writes_calls. Qed.
Lemma sameAsRecorded_writes encode_book parent book : only writes (sameAsRecorded encode_book parent book).
Proof. unfold sameAsRecorded. by writes_calls. Qed.
Lemma WriteMCPConfig_writes dir servers : only writes (WriteMCPConfig dir servers).
Proof. unfold WriteMCPConfig. by writes_calls. Qed.
#[export] Hint Resolve resolveQuery_writes deliver_found_writes prompt_writes storeResolved_writes
  sameAsRecorded_writes WriteMCPConfig_writes : writes.

(** ** What runs a stage *)

(** The commands of a run's own work: neither its beginning nor its end, and not the question
    whether its claim was lost. *)
Definition works (c : host_cmd) : Prop :=
  writes c ∨ match c with Shell _ | Search _ _ _ _ | Spawn _ _ | HTTP _ | Fence => True | _ => False end.

Create HintDb works.
Ltac works_calls := only_calls; simpl; eauto with works writes.

Lemma writes_works {A} (p : prog (Sg := host_sig) A) : only writes p → only works p.
Proof. apply only_mono. by left. Qed.
#[export] Hint Resolve writes_works : works.
#[export] Hint Extern 1 (works _) => (first [left; exact I | right; exact I]) : works.

Lemma Gather_works steps opts : only works (Gather.Run steps opts).
Proof.
  unfold Gather.Run. generalize (with_bounds opts). clear opts. intros opts.
  induction steps; cbn [run_steps]; unfold runStep; by works_calls.
Qed.
#[export] Hint Resolve Gather_works : works.
Lemma gather_works e started book trigger ps : only works (gather e started book trigger ps).
Proof. unfold gather. by works_calls. Qed.
Lemma retrieve_works redact indexedRune e started book trigger ps :
  only works (retrieve redact indexedRune e started book trigger ps).
Proof.
  unfold retrieve. destruct (Playbook.Retrieve book) as [|one rest] eqn:E; [apply only_Ret|]. rewrite <- E.
  destruct (e_Retrieve e) as [stage|]; [|apply only_Ret]. apply only_bind; [|intros []; by works_calls].
  unfold Retrieve.Run. generalize 0%nat as at_. generalize (Playbook.Retrieve book). clear.
  intros retrievals. induction retrievals; intros at_; cbn [retrieve_all]; unfold Retrieve.retrieve; by works_calls.
Qed.
Lemma Run_works decl opts onEvent : only works (AgentRun.Run decl opts onEvent).
Proof. unfold AgentRun.Run. by works_calls. Qed.
#[export] Hint Resolve gather_works retrieve_works Run_works : works.

Lemma Deliver_works s delivery : only works (deliver_to s delivery).
Proof.
  intros tr r H%Deliver_http. unfold http_only, cmds in H. apply Forall_map in H.
  eapply Forall_impl; [exact H|]. intros e He. simpl in He. destruct (cmd_of e); try done. by right.
Qed.
#[export] Hint Resolve Deliver_works : works.
Lemma DeliverAll_works sinks delivery : only works (DeliverAll sinks delivery (Some (Do Fence))).
Proof. induction sinks; cbn [DeliverAll]; by works_calls. Qed.
#[export] Hint Resolve DeliverAll_works : works.
Lemma deliver_works runID sinks delivery outcome ps : only works (deliver runID sinks delivery outcome ps).
Proof. unfold deliver. by works_calls. Qed.
#[export] Hint Resolve deliver_works : works.
