(* ===== verification/ExecutorSafe.v ===== *)
(** What a run may spend, and when: a monitor over what the executor asks of its host. *)
From S2P Require Import Prelude GoStr GoTime GoPath GoErr Config Playbook GoJson GoRunes GoMarshal.
From S2P Require Import Records Store RunRecords AgentStage Guard Host AgentRun Gather McpCatalog.
From S2P Require Import Sinks GitHubSink Retrieve Executor ExecutorCalls.
From Stdlib Require Import QArith.
Open Scope Z_scope.

(** ** The monitor *)

(** How far a run has gone, from nothing spent to sinks told: 0 while its gather steps run, 1 in
    its searches, 2 when both are over, 3 from its one agent on. [n_fenced] says the last fence passed and nothing was started on
    it since; [n_failed] that a step or a search failed. *)
Record monitor := mkMonitor { n_stage : nat; n_fenced : bool; n_failed : bool }.

Definition step_failed (ran : shellRun) : bool :=
  match h_Run ran, h_Ctx ran with WaitOK, None => false | _, _ => true end.

(** The state after an event, [None] where it is out of its order. *)
Definition watch (m : monitor) (c : host_cmd) : host_resp c → option monitor :=
  match c return host_resp c → option monitor with
  | Shell _ => λ ran,
      if (n_stage m =? 0)%nat && negb (n_failed m)
      then Some (mkMonitor 0 (n_fenced m) (step_failed ran)) else None
  | Search _ _ _ _ => λ found,
      if (n_stage m <=? 1)%nat && negb (n_failed m)
      then Some (mkMonitor 1 (n_fenced m) (match fst found with inl _ => true | inr _ => false end)) else None
  | Fence => λ err, Some (mkMonitor (n_stage m) (match err with None => true | Some _ => false end) (n_failed m))
  | Spawn _ _ => λ _,
      if (n_stage m <=? 2)%nat && n_fenced m && negb (n_failed m)
      then Some (mkMonitor 3 false false) else None
  | HTTP _ => λ _,
      if (3 <=? n_stage m)%nat && n_fenced m then Some m else None
  | _ => λ _, Some m
  end.

Fixpoint watched (m : monitor) (tr : trace) : option monitor :=
  match tr with
  | [] => Some m
  | existT c x :: tr => match watch m c x with Some m => watched m tr | None => None end
  end.

Lemma watched_app tr1 tr2 m :
  watched m (tr1 ++ tr2) = match watched m tr1 with Some m => watched m tr2 | None => None end.
Proof.
  revert m. induction tr1 as [|[c x] tr1 IH]; intros m; [done|]. simpl.
  destruct (watch m c x); [apply IH|done].
Qed.

(** ** Programs under the monitor *)

(** From every state [pre] allows, a run of [p] is watched to a state its result allows. *)
Definition under {A} (pre : monitor → Prop) (p : prog (Sg := host_sig) A) (post : A → monitor → Prop) : Prop :=
  ∀ m tr a, pre m → runs p tr a → ∃ m', watched m tr = Some m' ∧ post a m'.

Lemma under_bind {A B} pre (p : prog A) mid (k : A → prog B) post :
  under pre p mid → (∀ a, under (mid a) (k a) post) → under pre (bind p k) post.
Proof.
  intros Hp Hk m tr b Hm (a & tr1 & tr2 & -> & H1 & H2)%runs_bind.
  destruct (Hp _ _ _ Hm H1) as (m1 & E1 & Hm1). destruct (Hk a _ _ _ Hm1 H2) as (m2 & E2 & Hm2).
  exists m2. by rewrite watched_app, E1.
Qed.

Lemma under_Ret {A} pre (a : A) (post : A → monitor → Prop) :
  (∀ m, pre m → post a m) → under pre (Ret a) post.
Proof. intros H m tr b Hm [-> <-]. exists m. by split; [|apply H]. Qed.

Lemma under_Do pre c (post : host_resp c → monitor → Prop) :
  (∀ m x, pre m → ∃ m', watch m c x = Some m' ∧ post x m') → under pre (Do c) post.
Proof.
  intros H m tr a Hm ->%runs_did. destruct (H m a Hm) as (m' & E & Hp). exists m'.
  split; [|done]. simpl. by rewrite E.
Qed.

Lemma under_mono {A} (pre pre' : monitor → Prop) (p : prog A) (post post' : A → monitor → Prop) :
  (∀ m, pre m → pre' m) → (∀ a m, post' a m → post a m) → under pre' p post' → under pre p post.
Proof. intros H1 H2 H m tr a Hm Hr. destruct (H m tr a (H1 m Hm) Hr) as (m' & ? & ?). eauto. Qed.

(** The commands the monitor does not look at. *)
Definition unwatched (c : host_cmd) : Prop :=
  match c with Shell _ | Search _ _ _ _ | Fence | Spawn _ _ | HTTP _ => False | _ => True end.

Lemma unwatched_under {A} pre (p : prog A) : only unwatched p → under pre p (λ _, pre).
Proof.
  intros Ho m tr a Hm Hr. exists m. split; [|done]. specialize (Ho tr a Hr). clear Hr.
  induction Ho as [|[c x] tr Hc _ IH]; [done|]. simpl in *. unfold cmd_of in Hc. simpl in Hc.
  by destruct c.
Qed.

(** An unwatched program followed by the rest. *)
Lemma under_then {A B} pre (p : prog A) (k : A → prog B) post :
  only unwatched p → (∀ a, under pre (k a) post) → under pre (bind p k) post.
Proof. intros Ho Hk. eapply under_bind; [by apply unwatched_under|done]. Qed.

(** ** What the monitor does not look at *)

Create HintDb unwatched.
Ltac unwatched_calls := only_calls; simpl; eauto with unwatched writes.

Lemma writes_unwatched {A} (p : prog (Sg := host_sig) A) : only writes p → only unwatched p.
Proof. apply only_mono. by intros []. Qed.
#[export] Hint Resolve writes_unwatched : unwatched.

Lemma stoppedByTheGuard_unwatched outcome : only unwatched (stoppedByTheGuard outcome).
Proof. unfold stoppedByTheGuard. by unwatched_calls. Qed.
Lemma Begin_unwatched e admitted name kind parent : only unwatched (Begin e admitted name kind parent).
Proof. unfold Begin. by unwatched_calls. Qed.
Lemma Finish_unwatched started outcome : only unwatched (Finish started outcome).
Proof. unfold Finish. by unwatched_calls. Qed.
#[export] Hint Resolve stoppedByTheGuard_unwatched Begin_unwatched Finish_unwatched : unwatched.
Lemma conclude_unwatched started what outcome : only unwatched (conclude started what outcome).
Proof. unfold conclude. by unwatched_calls. Qed.
#[export] Hint Resolve conclude_unwatched : unwatched.

(** ** The stages under the monitor *)

Definition gathering (m : monitor) : Prop := n_stage m = 0%nat ∧ n_failed m = false.
Definition searching (m : monitor) : Prop := (n_stage m <= 1)%nat ∧ n_failed m = false.
Definition asking (m : monitor) : Prop := (n_stage m <= 2)%nat ∧ n_failed m = false.
Definition delivering (m : monitor) : Prop := n_stage m = 3%nat.
Definition whatever (_ : monitor) : Prop := True.

(** Where a stage that may fail leaves the monitor. *)
Definition unless {E} (err : option E) (good bad : monitor → Prop) (m : monitor) : Prop :=
  match err with None => good m | Some _ => bad m end.

Lemma runStep_under step opts :
  under gathering (runStep step opts) (λ r, unless (snd r) gathering whatever).
Proof.
  unfold runStep. destruct (negb _). { by apply under_Ret. }
  apply under_then; [by unwatched_calls|]. intros [[[|] err]|]; [by apply under_Ret..|].
  eapply (under_bind _ _ (λ ran m, n_stage m = 0%nat ∧ n_failed m = step_failed ran)).
  { apply (under_Do _ (Shell (command_of step opts))). intros [stage fenced failed] ran [Hs Hf]. simpl in *. subst. by eexists. }
  intros ran. apply under_Ret. intros m [Hs Hf]. unfold finish_step, step_failed in *.
  destruct (h_Run ran) as [| |]; [|done..]. by destruct (h_Ctx ran).
Qed.

Lemma Gather_under steps opts :
  under gathering (Gather.Run steps opts) (λ r, unless (snd r) gathering whatever).
Proof.
  unfold Gather.Run. generalize (with_bounds opts). clear opts. intros opts.
  induction steps as [|step steps IH]; cbn [run_steps]; [by apply under_Ret|].
  eapply under_bind; [apply runStep_under|]. intros [result [err|]]; [by apply under_Ret|].
  eapply under_bind; [exact IH|]. intros [results err]. by apply under_Ret.
Qed.

Section stages.
Context (redact : string → string) (indexedRune : string → bool)
        (encode_book : Playbook.Playbook → gerror + string)
        (compile : any → option gerror) (check : any → string → option string).

Lemma gather_under e started book trigger ps :
  under gathering (gather e started book trigger ps) (λ r, unless (snd r) gathering whatever).
Proof.
  unfold gather. apply under_then; [destruct (is_webhook book); by unwatched_calls|]. intros ps'.
  destruct (bind_steps _ _ _) as [err|steps]; [by apply under_Ret|].
  eapply under_bind; [apply Gather_under|]. intros [results err].
  apply under_then; [by unwatched_calls|]. intros ps''. by apply under_Ret.
Qed.

Lemma retrieve_one_under s workDir at_ declared trigger :
  under searching (Retrieve.retrieve redact indexedRune s workDir at_ declared trigger)
    (λ r, unless (snd r) searching whatever).
Proof.
  unfold Retrieve.retrieve. destruct (collection_of s _) as [collection [err|]]; [by apply under_Ret|].
  apply under_then; [by unwatched_calls|]. intros [err|resolved]; [by apply under_Ret|].
  destruct (cutQuery resolved) as [query truncated]. destruct (negb _); [by apply under_Ret|].
  eapply (under_bind _ _ (λ found m, (n_stage m <= 1)%nat ∧
            n_failed m = match fst found with inl _ => true | inr _ => false end)).
  { apply (under_Do _ (Search _ _ _ _)). intros [stage fenced failed] found [Hs Hf]. simpl in *. subst.
    assert ((stage <=? 1)%nat = true) as -> by (apply Nat.leb_le; lia). eexists. split; [done|]. simpl.
    split; [lia|done]. }
  intros [[err|found] [late over]]; [by apply under_Ret|].
  unfold deliver_found. destruct (capResults _ _) as [hits cut]. destruct (render _ _ _ _) as [[file items] more].
  apply under_then; [by unwatched_calls|]. intros [err|]; apply under_Ret; [done|].
  intros m [Hs Hf]. by split.
Qed.

Lemma retrieve_under e started book trigger ps :
  under searching (retrieve redact indexedRune e started book trigger ps)
    (λ r, unless (snd r) searching whatever).
Proof.
  unfold retrieve. destruct (Playbook.Retrieve book) as [|one rest] eqn:E; [by apply under_Ret|]. rewrite <- E.
  destruct (e_Retrieve e) as [stage|]; [|by apply under_Ret].
  eapply (under_bind _ _ (λ r, unless (snd r) searching whatever)).
  { unfold Retrieve.Run. generalize 0%nat as at_. generalize (Playbook.Retrieve book) as retrievals. clear.
    induction retrievals as [|declared retrievals IH]; intros at_; cbn [retrieve_all]; [by apply under_Ret|].
    eapply under_bind; [apply retrieve_one_under|]. intros [done_ [err|]]; [by apply under_Ret|].
    eapply under_bind; [apply IH|]. intros [rest err]. by apply under_Ret. }
  intros [retrieved err]. apply under_then; [by unwatched_calls|]. intros ps'. by apply under_Ret.
Qed.

Lemma http_watched m tr : delivering m → n_fenced m = true → http_only tr → watched m tr = Some m.
Proof.
  intros Hs Hf H. unfold http_only, cmds in H. apply Forall_map in H.
  induction H as [|[c x] tr Hc _ IH]; [done|]. unfold cmd_of in Hc. simpl in Hc. destruct c; try done.
  simpl. rewrite Hs, Hf. exact IH.
Qed.

Lemma DeliverAll_under sinks delivery :
  under delivering (DeliverAll sinks delivery (Some (Do Fence))) (λ _, delivering).
Proof.
  induction sinks as [|one sinks IH]; cbn [DeliverAll]; [by apply under_Ret|].
  eapply (under_bind _ _ (λ err m, delivering m ∧ (err = None → n_fenced m = true))).
  { apply (under_Do _ Fence). intros [stage fenced failed] err Hs. eexists. split; [done|]. split; [done|]. by intros ->. }
  intros [err|]. { apply under_Ret. by intros m []. }
  eapply (under_bind _ _ (λ _, delivering)).
  { intros m tr a [Hm Hf] Hr. exists m. split; [|done].
    apply http_watched; [done|by apply Hf|by eapply Deliver_http]. }
  intros [outcome err]. eapply under_bind; [exact IH|]. intros [outcomes refused]. by apply under_Ret.
Qed.

Lemma deliver_under runID sinks delivery outcome ps :
  under delivering (deliver runID sinks delivery outcome ps) (λ _, delivering).
Proof.
  unfold deliver. eapply under_bind; [apply DeliverAll_under|]. intros [delivered fenceErr].
  apply unwatched_under. by unwatched_calls.
Qed.

Lemma report_and_deliver_under started book sinks report outcome ps :
  under delivering (report_and_deliver started book sinks report outcome ps) (λ _, whatever).
Proof.
  unfold report_and_deliver. apply under_then; [by unwatched_calls|]. intros [outcome' ps'].
  eapply under_bind; [apply deliver_under|]. intros [outcome'' ps''].
  apply under_then; [by unwatched_calls|]. intros o. by apply under_Ret.
Qed.

Lemma Run_under decl opts onEvent :
  under (λ m, asking m ∧ n_fenced m = true) (AgentRun.Run decl opts onEvent)
    (λ r m, snd r = None → fst r ≠ None → delivering m).
Proof.
  unfold AgentRun.Run, WriteMCPConfig. apply under_then; [by unwatched_calls|].
  intros [err|mcpConfig]; [by apply under_Ret|]. destruct (BuildArgs _ _) as [err|args]; [by apply under_Ret|].
  eapply (under_bind _ _ (λ _, delivering)).
  { apply (under_Do _ (Spawn _ _)). intros [stage fenced failed] child [[Hs Hf] Hp]. simpl in *. subst.
    assert ((stage <=? 2)%nat = true) as -> by (apply Nat.leb_le; lia). by eexists. }
  intros child. apply under_Ret. intros m Hm _ _. exact Hm.
Qed.

Lemma agentAndSinks_under e started book text outcome ps trigger :
  under asking (agentAndSinks compile check e started book text outcome ps trigger) (λ _, whatever).
Proof.
  unfold agentAndSinks. destruct (Build _ _ _) as [sinks [|refusal refusals]]; [|by apply under_Ret].
  destruct (StageTimeout _) as [err|timeout]; [by apply under_Ret|].
  destruct (serversOf e book) as [err|servers]; [by apply under_Ret|].
  eapply (under_bind _ _ (λ err m, asking m ∧ (err = None → n_fenced m = true))).
  { apply (under_Do _ Fence). intros m err Hm. eexists. split; [done|]. split; [done|]. by intros ->. }
  intros [err|]; [by apply under_Ret|].
  eapply under_bind.
  { eapply under_mono; [|intros a m Hm; exact Hm|apply Run_under]. intros m [Hm Hf]. split; [done|by apply Hf]. }
  intros [stage err]. simpl. destruct err as [err|]; [by apply under_Ret|].
  destruct stage as [stage|]; [|by apply under_Ret].
  eapply (under_mono _ delivering); [intros m Hm; by apply Hm|intros a m Hm; exact Hm|].
  apply under_then; [by unwatched_calls|]. intros [outcome' ps'].
  destruct (o_Aborted stage); [by apply under_Ret|]. destruct (o_TimedOut stage); [by apply under_Ret|].
  apply report_and_deliver_under.
Qed.

Lemma run_claimed_under pre e admitted name kind parent what work :
  (∀ started, under pre (work started) (λ _, whatever)) →
  under pre (run_claimed e admitted name kind parent what work) (λ _, whatever).
Proof.
  intros Hw. unfold run_claimed. apply under_then; [by unwatched_calls|]. intros _.
  apply under_then; [by unwatched_calls|]. intros [err|started].
  { eapply under_mono; [intros m Hm; exact Hm| |apply unwatched_under; by unwatched_calls]. done. }
  eapply under_bind; [apply Hw|]. intros [outcome summary].
  apply under_then; [by unwatched_calls|]. intros _. by apply under_Ret.
Qed.

Lemma execute_work_under e book trigger started :
  under gathering (execute_work redact indexedRune encode_book compile check e book trigger started)
    (λ _, whatever).
Proof.
  unfold execute_work. apply under_then; [by unwatched_calls|]. intros stored. destruct (match stored with inl err => _ | inr ref => _ end) as [ref ps].
  eapply under_bind; [apply gather_under|]. intros [ps' [err|]]; [by apply under_Ret|].
  eapply under_bind.
  { eapply under_mono; [|intros a m Hm; exact Hm|apply retrieve_under]. intros m [Hs Hf]. by split; [lia|]. }
  intros [ps'' [err|]]; [by apply under_Ret|]. unfold prompt_and_agent, prompt.
  apply under_then; [by unwatched_calls|]. intros [err|[text pref]]; [by apply under_Ret|].
  eapply under_mono; [|intros a m Hm; exact Hm|apply agentAndSinks_under]. intros m [Hs Hf]. split; [lia|done].
Qed.

Lemma replay_work_under e book parentID text inputs retrievals started :
  under asking (replay_work encode_book compile check e book parentID text inputs retrievals started)
    (λ _, whatever).
Proof.
  unfold replay_work. apply under_then; [by unwatched_calls|]. intros [ps [err|]]; [by apply under_Ret|].
  apply under_then; [by unwatched_calls|]. intros [ps' [err|]]; [by apply under_Ret|].
  apply under_then; [by unwatched_calls|]. intros [ref ps''].
  apply under_then; [by unwatched_calls|]. intros resolved. apply agentAndSinks_under.
Qed.

Lemma resume_work_under e book parentID report started :
  under delivering (resume_work e book parentID report started) (λ _, whatever).
Proof.
  unfold resume_work. destruct (Build _ _ _) as [sinks [|refusal refusals]]; [|by apply under_Ret].
  apply under_then; [by unwatched_calls|]. intros [ref ps].
  eapply under_bind; [apply deliver_under|]. intros [outcome ps']. by apply under_Ret.
Qed.

(** C3: A run spends in order and stops at a failure, whatever its host answers.  Execute runs its
    gather steps, then its searches, then one agent at most, then tells its sinks: a step or a
    search that fails is the last of its kind and no agent and no request comes after it; the
    agent is started on a fence that passed and nothing else was started on, and every request
    is made after a fence that passed later than the agent began.  A replay runs no gather step
    and searches nothing before its one agent, and a resume runs no agent at all. *)
Theorem a_run_spends_in_order e book trigger parentID tr :
  let start stage := mkMonitor stage false false in
  (∀ r, runs (Execute redact indexedRune encode_book compile check e book trigger) tr r →
        watched (start 0%nat) tr ≠ None) ∧
  (∀ r, runs (Replay encode_book compile check e parentID book) tr r →
        watched (start 2%nat) tr ≠ None) ∧
  (∀ r, runs (Resume encode_book e parentID book) tr r →
        watched (start 3%nat) tr ≠ None).
Proof.
  intros start. split_and!; intros r H.
  - assert (under gathering (Execute redact indexedRune encode_book compile check e book trigger)
              (λ _, whatever)) as Hu; [|by destruct (Hu (start 0%nat) _ _ (conj eq_refl eq_refl) H) as (m & -> & _)].
    unfold Execute. apply under_then; [by unwatched_calls|]. intros [err|admitted]; [by apply under_Ret|].
    apply run_claimed_under. intros started. apply execute_work_under.
  - assert (under asking (Replay encode_book compile check e parentID book) (λ _, whatever)) as Hu;
      [|by destruct (Hu (start 2%nat) _ _ (conj (le_n _) eq_refl) H) as (m & -> & _)].
    unfold Replay. apply under_then; [by unwatched_calls|]. intros [err|parent]; [by apply under_Ret|].
    apply under_then; [by unwatched_calls|]. intros [err|inputs]; [by apply under_Ret|].
    apply under_then; [by unwatched_calls|]. intros [err|retrievals]; [by apply under_Ret|].
    destruct (String.eqb _ _); [by apply under_Ret|].
    apply under_then; [by unwatched_calls|]. intros [err|]; [by apply under_Ret|].
    apply under_then; [by unwatched_calls|]. intros [err|text]; [by apply under_Ret|].
    apply under_then; [by unwatched_calls|]. intros [err|admitted]; [by apply under_Ret|].
    apply run_claimed_under. intros started. apply replay_work_under.
  - assert (under delivering (Resume encode_book e parentID book) (λ _, whatever)) as Hu;
      [|by destruct (Hu (start 3%nat) _ _ eq_refl H) as (m & -> & _)].
    unfold Resume. apply under_then; [by unwatched_calls|]. intros [err|parent]; [by apply under_Ret|].
    destruct (String.eqb _ _); [by apply under_Ret|].
    apply under_then; [by unwatched_calls|]. intros [err|report]; [by apply under_Ret|].
    apply under_then; [by unwatched_calls|]. intros [err|]; [by apply under_Ret|].
    apply under_then; [by unwatched_calls|]. intros [err|admitted]; [by apply under_Ret|].
    apply run_claimed_under. intros started. apply resume_work_under.
Qed.
End stages.
