(* ===== verification/ExecutorDone.v ===== *)
(** How a run ends: every run that began is concluded, in order and once, with the status its
    work came to. *)
From S2P Require Import Prelude GoStr GoTime GoPath GoErr Config Playbook GoJson GoRunes GoMarshal.
From S2P Require Import Records Store RunRecords AgentStage Guard Host AgentRun Gather McpCatalog.
From S2P Require Import Sinks GitHubSink Retrieve Executor ExecutorCalls.
From Stdlib Require Import QArith.
Open Scope Z_scope.

(** ** What a run's work comes to *)

(** The statuses work ends in, and whether it was told the run's claim was lost. *)
Definition worked : list string := [StatusSucceeded; StatusFailed; StatusRefused; StatusTimedOut].
Definition lost (tr : trace) : Prop := ∃ why, did StoppedFor (Some why) ∈ tr.

(** What a question about the claim was answered, and what creating a row was. *)
Definition why_of (e : event (Sg := host_sig)) : option (option string) :=
  match e with existT c x =>
    match c return host_resp c → option (option string) with StoppedFor => λ x, Some x | _ => λ _, None end x end.
Definition created_of (e : event (Sg := host_sig)) : option (option gerror) :=
  match e with existT c x =>
    match c return host_resp c → option (option gerror) with CreateRun _ => λ x, Some x | _ => λ _, None end x end.

Definition during (c : host_cmd) : Prop := works c ∨ c = StoppedFor.

Definition comes_to (tr : trace) (outcome summary : Records.Run) : Prop :=
  Forall (λ e, during (cmd_of e)) tr ∧ u_Status summary = u_Status outcome ∧
  ((u_Status outcome ∈ worked ∧ ¬ lost tr) ∨ (u_Status outcome = StatusClaimLost ∧ lost tr)).

Definition settled (p : prog (Records.Run * Records.Run)) : Prop :=
  ∀ tr outcome summary, runs p tr (outcome, summary) → comes_to tr outcome summary.

Lemma works_not_lost tr : Forall (λ e, works (cmd_of e)) tr → ¬ lost tr.
Proof.
  intros H [why Hin]. rewrite Forall_forall in H. destruct (H _ Hin) as [[]|[]].
Qed.

Lemma lost_app tr1 tr2 : lost (tr1 ++ tr2) ↔ lost tr1 ∨ lost tr2.
Proof. unfold lost. setoid_rewrite elem_of_app. naive_solver. Qed.

Lemma settled_bind {A} (p : prog A) (k : A → prog (Records.Run * Records.Run)) :
  only works p → (∀ tr a, runs p tr a → settled (k a)) → settled (bind p k).
Proof.
  intros Hp Hk tr outcome summary (a & tr1 & tr2 & -> & H1 & H2)%runs_bind.
  pose proof (Hp _ _ H1) as Hw. destruct (Hk _ _ H1 _ _ _ H2) as (Hd & Hs & Hc).
  split; [apply Forall_app; split; [|done]; eapply Forall_impl; [exact Hw|]; intros e; by left|].
  split; [done|]. rewrite lost_app. pose proof (works_not_lost _ Hw). naive_solver.
Qed.

Lemma settled_then {A} (p : prog A) (k : A → prog (Records.Run * Records.Run)) :
  only works p → (∀ a, settled (k a)) → settled (bind p k).
Proof. intros Hp Hk. apply settled_bind; [done|]. intros tr a _. apply Hk. Qed.

Lemma finished_status runID outcome ps o s :
  finished runID outcome ps = (o, s) →
  u_Status s = u_Status o ∧
  u_Status o = (if String.eqb (u_Status outcome) StatusSucceeded && negb (bool_decide (ps = []))
                then StatusFailed else u_Status outcome).
Proof.
  unfold finished. intros H. apply (inj2 pair) in H as [<- <-].
  destruct ps as [|p ps]; [split; [done|by destruct (String.eqb _ _)]|].
  cbn [errors_join u_Status with_status with_end]. split; [done|]. destruct (String.eqb _ _); reflexivity.
Qed.

Lemma settled_Ret runID outcome ps : u_Status outcome ∈ worked → settled (Ret (finished runID outcome ps)).
Proof.
  intros Hw tr o s [-> H]. apply finished_status in H as [Hs Ho].
  split; [constructor|]. split; [done|]. left. split; [|by intros [why []%elem_of_nil]]. rewrite Ho.
  destruct (_ && _); [right; left|done].
Qed.

Lemma recordStage_status runID stage outcome ps tr r :
  runs (recordStage runID stage outcome ps) tr r → u_Status (fst r) = u_Status outcome.
Proof.
  unfold recordStage. intros ([_1 ps1] & tr1 & tr2 & -> & _ & H)%runs_bind.
  apply runs_bind in H as ([outcome2 ps2] & tr3 & tr4 & -> & H2 & H).
  apply runs_bind in H as (ps3 & tr5 & tr6 & -> & _ & [-> <-]). simpl.
  destruct (s_Result _).
  - apply runs_bind in H2 as (? & ? & ? & -> & _ & [-> H2]). simplify_eq. by destruct (s_Init _).
  - destruct H2 as [_ H2]. simplify_eq. by destruct (s_Init _).
Qed.

Lemma record_outcomes_status runID delivered : ∀ outcome ps tr r,
  runs (record_outcomes runID delivered outcome ps) tr r →
  u_Status (fst r) = u_Status outcome ∨ (u_Status outcome = StatusSucceeded ∧ u_Status (fst r) = StatusFailed).
Proof.
  induction delivered as [|one delivered IH]; intros outcome ps tr r; cbn [record_outcomes].
  { intros [-> <-]. by left. }
  intros (added & tr1 & tr2 & -> & _ & H)%runs_bind. apply IH in H.
  destruct (_ && String.eqb _ _) eqn:E; [|done]. bool_facts. destruct H as [H|[H _]]; [|done]. by right.
Qed.

Lemma deliver_status runID sinks delivery outcome ps tr r :
  runs (deliver runID sinks delivery outcome ps) tr r → u_Status outcome ∈ worked → u_Status (fst r) ∈ worked.
Proof.
  unfold deliver. intros ([delivered fenceErr] & tr1 & tr2 & -> & _ & H)%runs_bind Hw.
  apply record_outcomes_status in H.
  destruct fenceErr; simpl in H; destruct H as [->|[_ ->]]; [done|right; left|done|right; left].
Qed.

(** ** Each kind of work *)

Section works.
Context (redact : string → string) (indexedRune : string → bool)
        (encode_book : Playbook.Playbook → gerror + string)
        (compile : any → option gerror) (check : any → string → option string).

Lemma report_and_deliver_settled started book sinks report outcome ps :
  settled (report_and_deliver started book sinks report outcome ps).
Proof.
  unfold report_and_deliver. apply settled_bind; [by works_calls|]. intros tr1 [o1 ps1] H1.
  assert (u_Status o1 ∈ worked) as Hw.
  { destruct report as [err|document]; [|apply runs_bind in H1 as ([? ?] & ? & ? & -> & _ & H1)];
      destruct H1 as [_ H1]; simplify_eq; cbn; [right; left|left]. }
  apply settled_bind; [by works_calls|]. intros tr2 [o2 ps2] H2. apply deliver_status in H2; [|done].
  intros tr o s (o3 & tr3 & tr4 & -> & H3 & [-> H4])%runs_bind. apply finished_status in H4 as [Hs Ho].
  unfold stoppedByTheGuard in H3. apply runs_bind in H3 as (why & tr5 & tr6 & -> & ->%runs_did & [-> <-]).
  rewrite !app_nil_r. split; [repeat constructor; by right|]. split; [done|]. rewrite Ho.
  destruct why as [why|]; simpl in *.
  - right. split; [done|]. exists why. left.
  - left. split; [destruct (_ && _); [right; left|done]|].
    intros [why Hin%list_elem_of_singleton]. by apply (f_equal why_of) in Hin.
Qed.

Lemma agentAndSinks_settled e started book text outcome ps trigger :
  u_Status outcome = StatusFailed →
  settled (agentAndSinks compile check e started book text outcome ps trigger).
Proof.
  intros Hf. unfold agentAndSinks.
  assert (StatusFailed ∈ worked ∧ StatusRefused ∈ worked ∧ StatusTimedOut ∈ worked) as (W1 & W2 & W3).
  { split_and!; [right; left|do 2 right; left|do 3 right; left]. }
  destruct (Build _ _ _) as [sinks [|refusal refusals]]; [|by apply settled_Ret].
  destruct (StageTimeout _) as [err|timeout]; [by apply settled_Ret|].
  destruct (serversOf e book) as [err|servers]; [by apply settled_Ret|].
  apply settled_then; [by works_calls|]. intros [err|]; [apply settled_Ret; by rewrite <- Hf in W1|].
  apply settled_then; [by works_calls|]. intros [stage [err|]]; [apply settled_Ret; by rewrite <- Hf in W1|].
  destruct stage as [stage|]; [|apply settled_Ret; by rewrite Hf].
  apply settled_bind; [by works_calls|]. intros tr [outcome' ps'] H%recordStage_status. simpl in H.
  destruct (o_Aborted stage); [by apply settled_Ret|]. destruct (o_TimedOut stage); [by apply settled_Ret|].
  apply report_and_deliver_settled.
Qed.

Lemma execute_work_settled e book trigger started :
  settled (execute_work redact indexedRune encode_book compile check e book trigger started).
Proof.
  unfold execute_work. apply settled_then; [by works_calls|]. intros stored.
  destruct (match stored with inl err => _ | inr ref => _ end) as [ref ps].
  assert (StatusRefused ∈ worked) by (do 2 right; left).
  apply settled_then; [by works_calls|]. intros [ps' [err|]]; [by apply settled_Ret|].
  apply settled_then; [by works_calls|]. intros [ps'' [err|]]; [by apply settled_Ret|].
  apply settled_then; [by works_calls|]. intros [err|[text pref]]; [by apply settled_Ret|].
  by apply agentAndSinks_settled.
Qed.

Lemma replay_work_settled e book parentID text inputs retrievals started :
  settled (replay_work encode_book compile check e book parentID text inputs retrievals started).
Proof.
  unfold replay_work. assert (StatusRefused ∈ worked) by (do 2 right; left).
  apply settled_then; [by works_calls|]. intros [ps [err|]]; [by apply settled_Ret|].
  apply settled_then; [by works_calls|]. intros [ps' [err|]]; [by apply settled_Ret|].
  apply settled_then; [by works_calls|]. intros [ref ps''].
  apply settled_then; [by works_calls|]. intros [err|resolved]; by apply agentAndSinks_settled.
Qed.

Lemma resume_work_settled e book parentID report started :
  settled (resume_work e book parentID report started).
Proof.
  unfold resume_work. assert (StatusRefused ∈ worked) by (do 2 right; left).
  destruct (Build _ _ _) as [sinks [|refusal refusals]]; [|by apply settled_Ret].
  apply settled_then; [by works_calls|]. intros [ref ps].
  apply settled_bind; [by works_calls|]. intros tr [outcome ps'] Hd%deliver_status; [by apply settled_Ret|left].
Qed.

(** ** What is concluded *)

Definition is_now (e : event (Sg := host_sig)) : Prop := cmd_of e = Now.
Definition is_log (e : event (Sg := host_sig)) : Prop := match cmd_of e with LogError _ => True | _ => False end.

(** A run's end: whether its claim was lost is asked, its row is finished, its directory goes,
    its claim is released, an error in any of the three is logged, and its hold is over. *)
Definition ending (started : InFlight) (why : option string) (final : Records.Run) (tr : trace) : Prop :=
  ∃ nows recordErr removeErr releaseErr logged, Forall is_now nows ∧ Forall is_log logged ∧
    (logged = [] ↔ recordErr = None ∧ removeErr = None ∧ releaseErr = None) ∧
    tr = did StoppedFor why :: nows ++
         [did (FinishRun final) recordErr; did (RemoveAll (n_WorkDir started)) removeErr;
          did (Release (n_claim started)) releaseErr] ++ logged ++ [did HoldDone tt].

(** A trace from a claim held on: a run that could not begin gives its claim back and leaves no
    row; one that did is worked on and ends, and its row says what its work came to. *)
Definition concluded (e : Executor) (admitted : Admission) (kind parent : string) (tr : trace)
    (r : gerror + Records.Run) : Prop :=
  (∃ err before released, r = inl err ∧
     tr = did (HoldClaim admitted) tt :: before ++ [did (Release (m_Claim admitted)) released; did HoldDone tt] ∧
     ∀ run, did (CreateRun run) None ∉ before) ∨
  (∃ started row at_ work why final summary ended, r = inr summary ∧
     tr = did (HoldClaim admitted) tt :: did Now at_ :: did (MkdirAll (n_WorkDir started)) None
          :: did (CreateRun row) None :: work ++ ended ∧
     Forall (λ e, during (cmd_of e)) work ∧ ending started why final ended ∧
     n_WorkDir started = Join [e_workRoot e; m_RunID admitted] ∧ n_claim started = m_Claim admitted ∧
     u_ID row = m_RunID admitted ∧ u_Status row = StatusRunning ∧ u_TriggerKind row = kind ∧
     u_ParentRunID row = parent ∧ u_ID final = m_RunID admitted ∧
     (u_Status final = StatusClaimLost ↔ lost work ∨ why ≠ None) ∧
     (u_Status final = StatusClaimLost ∨ u_Status final ∈ worked) ∧
     (why = None → u_Status summary = u_Status final)).

Lemma conclude_ends started what outcome tr u :
  runs (conclude started what outcome) tr u →
  ∃ why final, ending started why final tr ∧ u_ID final = n_ID started ∧ u_ReportRef final = u_ReportRef outcome ∧
    u_Status final = match why with None => u_Status outcome | Some _ => StatusClaimLost end.
Proof.
  unfold conclude, stoppedByTheGuard, Finish.
  intros (o & tr1 & tr2 & -> & (why & tr3 & tr4 & -> & ->%runs_did & [-> <-])%runs_bind & H)%runs_bind.
  apply runs_bind in H as (at_ & tr5 & tr6 & -> & ->%runs_did & H).
  apply runs_bind in H as (failed & tr7 & tr8 & -> & H1 & H2).
  apply runs_bind in H1 as (ended & tr9 & tr10 & -> & Hn & H1).
  assert (Forall is_now tr9) as Hnow.
  { destruct (IsZero _); [apply runs_did in Hn as ->; by repeat constructor|destruct Hn as [-> _]; constructor]. }
  apply runs_bind in H1 as (e1 & tr11 & tr12 & -> & ->%runs_did & H1).
  apply runs_bind in H1 as (e2 & tr13 & tr14 & -> & ->%runs_did & H1).
  apply runs_bind in H1 as (e3 & tr15 & tr16 & -> & ->%runs_did & [-> <-]).
  apply runs_bind in H2 as (u' & logged & tr18 & -> & H2 & ->%runs_did).
  set (final := with_end (n_ID started) ended _) in *. exists why, final.
  split; [|split; [reflexivity|split; by destruct why]].
  exists (did Now at_ :: tr9), e1, e2, e3, logged. split; [by constructor|].
  destruct u, u'. simpl app. rewrite <- !app_assoc. cbn [app].
  destruct e1, e2, e3; simpl in H2; first [apply (runs_did (LogError _)) in H2; subst logged | destruct H2 as [-> _]];
    (split; [first [by constructor | apply Forall_singleton; exact I]|split; [naive_solver|reflexivity]]).
Qed.

Lemma run_claimed_concluded e admitted name kind parent what work tr r :
  (∀ started, settled (work started)) →
  runs (run_claimed e admitted name kind parent what work) tr r →
  concluded e admitted kind parent tr r.
Proof.
  intros Hw. unfold run_claimed, Begin.
  intros ([] & tr1 & tr2 & -> & ->%runs_did & (begun & tr3 & tr4 & -> & H1 & H2)%runs_bind)%runs_bind.
  apply runs_bind in H1 as (at_ & tr5 & tr6 & -> & ->%runs_did & H1).
  apply runs_bind in H1 as (made & tr7 & tr8 & -> & ->%runs_did & H1). cbn [app n_WorkDir] in *.
  destruct made as [err|].
  { destruct H1 as [-> <-]. left. take_host. repeat match goal with u : unit |- _ => destruct u | u : host_resp HoldDone |- _ => destruct u end.
    set (dir := Join _). eexists _, [did Now at_; did (MkdirAll dir) (Some err)], _.
    split; [done|]. cbn [app]. split; [reflexivity|]. intros run. rewrite !elem_of_cons, elem_of_nil.
    intros [H|[H|[]]]; by apply (f_equal created_of) in H. }
  apply runs_bind in H1 as (recorded & tr9 & tr10 & -> & ->%runs_did & H1). destruct recorded as [err|].
  - left. take_host. repeat match goal with u : host_resp HoldDone |- _ => destruct u end.
    match goal with |- context [did (RemoveAll ?d) ?x] =>
      match goal with |- context [did (CreateRun ?row) ?y] =>
        eexists _, [did Now at_; did (MkdirAll d) None; did (CreateRun row) y; did (RemoveAll d) x], _
      end end.
    split; [done|]. cbn [app]. split; [reflexivity|].
    intros run. rewrite !elem_of_cons, elem_of_nil.
    intros [H|[H|[H|[H|[]]]]]; by apply (f_equal created_of) in H.
  - right. destruct H1 as [-> <-].
    apply runs_bind in H2 as ([outcome summary] & work_tr & tr12 & -> & H2 & H3).
    apply runs_bind in H3 as (u & ended & tr14 & -> & H3 & [-> <-]).
    apply Hw in H2 as (Hd & Hs & Hc). apply conclude_ends in H3 as (why & final & He & Hid & _ & Hst).
    eexists (mkInFlight (m_RunID admitted) name (Join [e_workRoot e; m_RunID admitted]) (m_Claim admitted)),
      _, at_, work_tr, why, final, summary, ended. split; [done|]. cbn [app]. rewrite app_nil_r.
    split; [reflexivity|]. split; [done|]. split; [exact He|]. repeat (split; [done|]).
    assert (StatusClaimLost ∉ worked) as Hn by (unfold worked; rewrite !elem_of_cons, elem_of_nil; naive_solver).
    destruct why as [why|]; rewrite Hst.
    + split; [naive_solver|]. split; [by left|done].
    + split; [|naive_solver]. destruct Hc as [[Hin Hl]|[Hc Hl]]; [|naive_solver]. split; [|naive_solver].
      intros Heq. by rewrite Heq in Hin.
Qed.

(** What is read of the record before the guard is asked. *)
Definition reads (c : host_cmd) : Prop :=
  match c with GetRun _ | GatheredInputs _ | Retrievals _ | GetBlob _ => True | _ => False end.

(** A run from what is asked of it: refused from its record, refused by the guard, or held and
    concluded. *)
Definition accounted (e : Executor) (book : Playbook.Playbook) (kind : string) (due : Z)
    (values : option (gmap string string)) (on_wait : bool) (parent : string) (tr : trace)
    (r : gerror + Records.Run) : Prop :=
  ∃ before, Forall (λ ev, reads (cmd_of ev)) before ∧
    ((∃ err, tr = before ∧ r = inl err) ∨
     (∃ err, tr = before ++ [did (Admit book kind due values on_wait) (inl err)] ∧ r = inl err) ∨
     (∃ admitted rest, tr = before ++ did (Admit book kind due values on_wait) (inr admitted) :: rest ∧
        concluded e admitted kind parent rest r)).

Lemma accounted_refused e book kind due values on_wait parent err :
  accounted e book kind due values on_wait parent [] (inl err).
Proof. exists []. split; [constructor|]. left. by exists err. Qed.

Lemma accounted_reads e book kind due values on_wait parent {A} (p : prog A) k tr r :
  only reads p →
  (∀ a tr, runs (k a) tr r → accounted e book kind due values on_wait parent tr r) →
  runs (bind p k) tr r → accounted e book kind due values on_wait parent tr r.
Proof.
  intros Hp Hk (a & tr1 & tr2 & -> & H1 & H2)%runs_bind. destruct (Hk a tr2 H2) as (before & Hb & H).
  exists (tr1 ++ before). split; [apply Forall_app; split; [by eapply Hp|done]|].
  destruct H as [(err & -> & ->)|[(err & -> & ->)|(admitted & rest & -> & Hc)]].
  - left. by exists err.
  - right; left. exists err. by rewrite <- app_assoc.
  - right; right. exists admitted, rest. by rewrite <- app_assoc.
Qed.

Lemma accounted_admits e book kind due values on_wait parent k tr r :
  (∀ err, k (inl err) = Ret (inl err)) →
  (∀ admitted tr, runs (k (inr admitted)) tr r → concluded e admitted kind parent tr r) →
  runs (bind (Do (Admit book kind due values on_wait)) k) tr r →
  accounted e book kind due values on_wait parent tr r.
Proof.
  intros Hr Hk (a & tr1 & tr2 & -> & ->%runs_did & H2)%runs_bind. exists []. split; [constructor|]. right.
  destruct a as [err|admitted].
  - rewrite Hr in H2. destruct H2 as [-> <-]. left. by exists err.
  - right. exists admitted, tr2. split; [done|by apply Hk].
Qed.

Lemma sameAsRecorded_reads parent book : only reads (sameAsRecorded encode_book parent book).
Proof. unfold sameAsRecorded. by only_calls. Qed.

(** Take a program that reads the record first apart, up to what it asks the guard. *)
Ltac reads_first :=
  repeat (first
    [ match goal with |- runs (Ret _) _ _ → _ => intros [-> <-]; apply accounted_refused end
    | apply accounted_reads; [first [apply sameAsRecorded_reads|by only_calls]|];
      intros [] ?
    | match goal with |- runs (if ?b then _ else _) _ _ → _ => destruct b end ]).

(** C2: Every run that is held is concluded, whatever its host answers and however it ends.  A
    trigger, a replay and a resume alike are refused before anything is held; or, when the run
    cannot begin, give the claim back and leave no row; or leave a row that begins as running
    and is finished once, after the last of the work, with the status the work came to -
    claim_lost exactly when the hold said the claim was lost, and otherwise succeeded, failed,
    refused or timed_out - and then the run's directory is removed, its claim released and its
    hold over, an error in any of these being logged. *)
Theorem every_run_is_concluded e book trigger parentID :
  (∀ tr r, runs (Execute redact indexedRune encode_book compile check e book trigger) tr r →
     accounted e book (t_Kind trigger) (t_DueAt trigger) (t_Values trigger) (t_OnWait trigger) "" tr r) ∧
  (∀ tr r, runs (Replay encode_book compile check e parentID book) tr r →
     accounted e book TriggerReplay 0 None false parentID tr r) ∧
  (∀ tr r, runs (Resume encode_book e parentID book) tr r →
     accounted e book TriggerResume 0 None false parentID tr r).
Proof.
  split_and!; intros tr r.
  - unfold Execute. apply accounted_admits; [done|]. intros admitted tr'. apply run_claimed_concluded.
    intros started. apply execute_work_settled.
  - unfold Replay. reads_first.
    all: apply accounted_admits; [done|]. all: intros admitted tr'; apply run_claimed_concluded.
    all: intros started; apply replay_work_settled.
  - unfold Resume. reads_first.
    all: apply accounted_admits; [done|]; intros admitted tr'; apply run_claimed_concluded.
    all: intros started; apply resume_work_settled.
Qed.
End works.
