(* ===== verification/ExecutorWhole.v ===== *)
(** What a run reported as succeeded is worth: its record is whole and its sinks were told. *)
From S2P Require Import Prelude GoStr GoTime GoPath GoErr Config Playbook GoJson GoRunes GoMarshal.
From S2P Require Import Records Store RunRecords AgentStage Guard Host AgentRun Gather McpCatalog.
From S2P Require Import Sinks GitHubSink Retrieve Executor ExecutorCalls ExecutorDone.
From Stdlib Require Import QArith.
Open Scope Z_scope.

(** ** Records that were kept *)

(** A write to the record, but for the run's last, that was answered without an error. *)
Definition kept (e : event (Sg := host_sig)) : Prop :=
  match e with existT c x =>
    match c return host_resp c → Prop with
    | PutBlob _ _ _ => λ r, ∃ ref, r = inr ref
    | CreateRun _ | AddGatheredInput _ _ | AddRetrieval _ _ | AddToolCall _ _ | AddRefusedAction _ _
    | AddSinkOutcome _ _ => λ err, err = None
    | _ => λ _, True
    end x
  end.

(** The commands that write nothing to the record, or only the run's last row. *)
Definition unrecorded (c : host_cmd) : Prop :=
  match c with
  | PutBlob _ _ _ | CreateRun _ | AddGatheredInput _ _ | AddRetrieval _ _ | AddToolCall _ _ | AddRefusedAction _ _
  | AddSinkOutcome _ _ => False
  | _ => True
  end.

Lemma unrecorded_kept tr : Forall (λ e, unrecorded (cmd_of e)) tr → Forall kept tr.
Proof. intros H. eapply Forall_impl; [exact H|]. intros [c x]. unfold cmd_of. simpl. by destruct c. Qed.

(** With no problem noted at its end a program noted none, and every write it made was kept. *)
Definition careful {A} (f : A → problems) (ps : problems) (p : prog (Sg := host_sig) A) : Prop :=
  ∀ tr a, runs p tr a → f a = [] → ps = [] ∧ Forall kept tr.

Lemma careful_Ret {A} (f : A → problems) ps a : (f a = [] → ps = []) → careful f ps (Ret a).
Proof. intros H tr b [-> <-] Hf. split; [by apply H|constructor]. Qed.

Lemma careful_bind {A B} (f : A → problems) (g : B → problems) ps (p : prog A) (k : A → prog B) :
  careful f ps p → (∀ a, careful g (f a) (k a)) → careful g ps (bind p k).
Proof.
  intros Hp Hk tr b (a & tr1 & tr2 & -> & H1 & H2)%runs_bind Hb.
  destruct (Hk _ _ _ H2 Hb) as [Ha Ht2]. destruct (Hp _ _ H1 Ha) as [-> Ht1].
  split; [done|]. by apply Forall_app.
Qed.

Lemma careful_skip {A B} (g : B → problems) ps (p : prog A) (k : A → prog B) :
  only unrecorded p → (∀ a, careful g ps (k a)) → careful g ps (bind p k).
Proof.
  intros Hp Hk. apply (careful_bind (λ _, ps)); [|done]. intros tr a Hr Ha. split; [done|].
  apply unrecorded_kept. by eapply Hp.
Qed.

Lemma note_nil err ps : note err ps = [] → err = None ∧ ps = [].
Proof. destruct err; simpl; [|done]. by destruct ps. Qed.

(** A row added, its error noted in the problems [k] goes on with. *)
Lemma careful_add {B} (g : B → problems) ps c (to_err : host_resp c → option gerror) (k : host_resp c → prog B) :
  (∀ x, to_err x = None → kept (did c x)) → (∀ x, careful g (note (to_err x) ps) (k x)) →
  careful g ps (bind (Do c) k).
Proof.
  intros Hc Hk. apply (careful_bind (λ x, note (to_err x) ps)); [|done].
  intros tr x ->%runs_did [Hx ->]%note_nil. split; [done|]. apply Forall_singleton. by apply Hc.
Qed.

Create HintDb careful.

Lemma put_careful runID name data ps : careful snd ps (put runID name data ps).
Proof.
  unfold put. apply (careful_add _ _ (PutBlob runID name data) (λ r, match r with inl e => Some e | inr _ => None end)).
  - intros [e|ref] H; [done|by exists ref].
  - intros [e|ref]; by apply careful_Ret.
Qed.
Lemma put_part_careful runID name data ps : careful snd ps (put_part runID name data ps).
Proof. unfold put_part. destruct (String.eqb _ _); [by apply careful_Ret|apply put_careful]. Qed.
#[export] Hint Resolve put_careful put_part_careful : careful.

(** Take a careful program apart; the rows it adds are of [Add] commands. *)
Ltac careful_step :=
  match goal with
  | |- careful _ _ (Ret _) => apply careful_Ret; simpl; first [done | intros ?%note_nil; tauto]
  | |- careful _ ?ps (bind (put ?r ?n ?d ?ps) _) => apply (careful_bind snd); [apply put_careful|intros []; cbn [snd]]
  | |- careful _ ?ps (bind (put_part ?r ?n ?d ?ps) _) =>
      apply (careful_bind snd); [apply put_part_careful|intros []; cbn [snd]]
  | |- careful _ ?ps (bind (Do ?c) _) =>
      first [ apply (careful_add _ _ c (λ err, err)); [intros ? ?; assumption|intros ?]
            | apply careful_skip; [by only_calls|intros ?] ]
  end.

Lemma writeTriggerData_careful started trigger ps : careful id ps (writeTriggerData started trigger ps).
Proof.
  unfold writeTriggerData. apply (careful_bind (λ wrote, note wrote ps)).
  { intros tr x ->%runs_did [Hx ->]%note_nil. split; [done|]. by apply Forall_singleton. }
  intros wrote. repeat careful_step.
Qed.

Lemma record_input_careful runID result ps : careful id ps (record_input runID result ps).
Proof.
  unfold record_input. apply careful_skip; [by only_calls|]. intros read.
  apply (careful_bind snd).
  { destruct read as [err|data]; [apply careful_Ret; simpl; by intros [? _]%(note_nil (Some err))|apply put_careful]. }
  intros [ref ps1]. cbn [snd]. apply (careful_bind snd).
  { destruct (String.eqb _ _); [by apply careful_Ret|apply put_careful]. }
  intros [stderr ps2]. cbn [snd]. repeat careful_step.
Qed.

Lemma record_inputs_careful runID results : ∀ ps, careful id ps (record_inputs runID results ps).
Proof.
  induction results as [|result results IH]; intros ps; cbn [record_inputs]; [by apply careful_Ret|].
  apply (careful_bind id); [apply record_input_careful|]. intros ps'. apply IH.
Qed.

Lemma Gather_unrecorded steps opts : only unrecorded (Gather.Run steps opts).
Proof.
  unfold Gather.Run. generalize (with_bounds opts). clear opts. intros opts.
  induction steps; cbn [run_steps]; unfold runStep; by only_calls.
Qed.
Lemma retrieve_all_unrecorded redact indexedRune s workDir trigger retrievals : ∀ at_,
  only unrecorded (retrieve_all redact indexedRune s workDir at_ retrievals trigger).
Proof.
  induction retrievals; intros at_; cbn [retrieve_all];
    unfold Retrieve.retrieve, resolveQuery, deliver_found; by only_calls.
Qed.

Lemma gather_careful e started book trigger ps : careful fst ps (gather e started book trigger ps).
Proof.
  unfold gather. apply (careful_bind id).
  { destruct (is_webhook book); [apply writeTriggerData_careful|by apply careful_Ret]. }
  intros ps1. destruct (bind_steps _ _ _) as [err|steps]; [by apply careful_Ret|].
  apply careful_skip.
  { apply Gather_unrecorded. }
  intros [results err]. apply (careful_bind id); [apply record_inputs_careful|]. intros ps2. by apply careful_Ret.
Qed.

Lemma record_contents_careful runID sequence items : ∀ contents ps,
  careful snd ps (record_contents runID sequence items contents ps).
Proof.
  induction items as [|item items IH]; intros [|content contents] ps; cbn [record_contents];
    [by apply careful_Ret..|].
  careful_step. apply (careful_bind snd); [apply IH|]. intros [rest ps']. by apply careful_Ret.
Qed.

Lemma recordRetrieval_careful runID retrieved ps : careful id ps (recordRetrieval runID retrieved ps).
Proof.
  unfold recordRetrieval. apply (careful_bind snd).
  { destruct (v_Results retrieved); [|by apply careful_Ret]. careful_step. by apply careful_Ret. }
  intros [row ps1]. cbn [snd]. apply (careful_bind snd); [apply record_contents_careful|].
  intros [items ps2]. cbn [snd]. repeat careful_step.
Qed.

Lemma record_retrievals_careful runID retrieved : ∀ ps, careful id ps (record_retrievals runID retrieved ps).
Proof.
  induction retrieved as [|one retrieved IH]; intros ps; cbn [record_retrievals]; [by apply careful_Ret|].
  apply (careful_bind id); [apply recordRetrieval_careful|]. intros ps'. apply IH.
Qed.

Lemma record_denials_careful runID denials : ∀ at_ ps, careful id ps (record_denials runID at_ denials ps).
Proof.
  induction denials as [|one denials IH]; intros at_ ps; cbn [record_denials]; [by apply careful_Ret|].
  careful_step. apply IH.
Qed.

Lemma record_calls_careful runID calls : ∀ at_ ps, careful id ps (record_calls runID at_ calls ps).
Proof.
  induction calls as [|one calls IH]; intros at_ ps; cbn [record_calls]; [by apply careful_Ret|].
  do 3 careful_step. apply IH.
Qed.

Lemma recordStage_careful runID stage outcome ps : careful snd ps (recordStage runID stage outcome ps).
Proof.
  unfold recordStage. careful_step. apply (careful_bind snd).
  { destruct (s_Result _); [|by apply careful_Ret].
    apply (careful_bind id); [apply record_denials_careful|]. intros ps'. by apply careful_Ret. }
  intros [outcome' ps']. cbn [snd]. apply (careful_bind id); [apply record_calls_careful|].
  intros ps''. by apply careful_Ret.
Qed.

Lemma record_outcomes_careful runID delivered : ∀ outcome ps,
  careful snd ps (record_outcomes runID delivered outcome ps).
Proof.
  induction delivered as [|one delivered IH]; intros outcome ps; cbn [record_outcomes]; [by apply careful_Ret|].
  careful_step. apply IH.
Qed.

(** ** Sinks that were told *)

Definition row_of (o : Sinks.Outcome) : SinkOutcome :=
  mkSinkOutcome (Sinks.o_Sink o) (Sinks.o_Status o) (Sinks.o_ItemsCreated o) (Sinks.o_ItemsSkipped o)
    (Sinks.o_Detail o).

Definition inside (part tr : trace) : Prop := ∃ a b, tr = a ++ part ++ b.

(** A sink asked on a fence of its own that passed, what it answered kept, and not as a failure. *)
Definition told (runID : string) (delivery : Sinks.Delivery) (tr : trace) (s : Sinks.Sink) (o : Sinks.Outcome)
  : Prop :=
  Sinks.o_Status o ≠ Sinks.StatusFailed ∧ did (AddSinkOutcome runID (row_of o)) None ∈ tr ∧
  ∃ part, inside part tr ∧ fenced s delivery part o.

Lemma inside_more part tr a b : inside part tr → inside part (a ++ tr ++ b).
Proof. intros (c & d & ->). exists (a ++ c), (d ++ b). by rewrite <- !app_assoc. Qed.

Lemma told_more runID delivery tr a b s o : told runID delivery tr s o → told runID delivery (a ++ tr ++ b) s o.
Proof.
  intros (Hs & Hin & part & Hp & Hf). split; [done|]. split; [rewrite !elem_of_app; tauto|].
  exists part. split; [by apply inside_more|done].
Qed.

Lemma record_outcomes_told runID delivered : ∀ outcome ps tr r,
  runs (record_outcomes runID delivered outcome ps) tr r → u_Status (fst r) = StatusSucceeded → Forall kept tr →
  u_Status outcome = StatusSucceeded ∧
  Forall (λ o, Sinks.o_Status o ≠ Sinks.StatusFailed ∧ did (AddSinkOutcome runID (row_of o)) None ∈ tr) delivered.
Proof.
  induction delivered as [|one delivered IH]; intros outcome ps tr r; cbn [record_outcomes].
  { intros [-> <-] Hs _. split; [done|constructor]. }
  intros (added & tr1 & tr2 & -> & ->%runs_did & H)%runs_bind Hs [Hk Hks]%Forall_cons.
  apply IH in H as [Hst Hd]; [|done..]. simpl in Hk. subst added.
  destruct (String.eqb (Sinks.o_Status one) Sinks.StatusFailed && String.eqb (u_Status outcome) StatusSucceeded) eqn:E;
    [done|].
  split; [done|]. constructor.
  - split; [|left]. intros Hf. rewrite Hf, Hst in E. done.
  - eapply Forall_impl; [exact Hd|]. intros o [Ho Hin]. split; [done|by right].
Qed.

Lemma inside_parts (parts : list trace) rest part : part ∈ parts → inside part (concat parts ++ rest).
Proof.
  intros (a & b & ->)%list_elem_of_split. exists (concat a), (concat b ++ rest).
  rewrite concat_app. simpl. by rewrite <- !app_assoc.
Qed.

Lemma DeliverAll_asks sinks delivery :
  only (λ c, match c with Fence | HTTP _ => True | _ => False end) (DeliverAll sinks delivery (Some (Do Fence))).
Proof.
  induction sinks as [|s sinks IH]; cbn [DeliverAll]; only_calls; try done; try exact IH.
  intros tr r H%Deliver_http. unfold http_only, cmds in H. apply Forall_map in H.
  eapply Forall_impl; [exact H|]. intros e. simpl. by destruct (cmd_of e).
Qed.

Lemma deliver_told runID sinks delivery outcome ps tr o ps' :
  runs (deliver runID sinks delivery outcome ps) tr (o, ps') → u_Status o = StatusSucceeded → ps' = [] →
  ps = [] ∧ Forall kept tr ∧ u_Status outcome = StatusSucceeded ∧
  ((∃ err, did Fence (Some err) ∈ tr) ∨ ∃ outcomes, Forall2 (told runID delivery tr) sinks outcomes).
Proof.
  unfold deliver. intros ([delivered fenceErr] & tr1 & tr2 & -> & H1 & H2)%runs_bind Hs ->.
  destruct (record_outcomes_careful _ _ _ _ _ _ H2 eq_refl) as [-> Hk2].
  apply record_outcomes_told in H2 as [Hst Hd]; [|done..].
  assert (Forall kept tr1) as Hk1.
  { apply unrecorded_kept. apply (DeliverAll_asks sinks delivery) in H1. eapply Forall_impl; [exact H1|].
    intros e. simpl. by destruct (cmd_of e). }
  split; [done|]. split; [by apply Forall_app|]. split; [by destruct fenceErr|].
  apply DeliverAll_runs in H1 as (parts & rest & -> & Hp & Hl & Hr). destruct fenceErr as [err|].
  { left. exists err. destruct Hr as [-> _]. rewrite !elem_of_app. left; right. left. }
  right. exists delivered. destruct Hr as [-> Hlen]. rewrite Hlen, take_ge in Hp by done.
  assert (Forall (λ part, inside part ((concat parts ++ []) ++ tr2)) parts) as Hin.
  { apply Forall_forall. intros part Hpart. apply (inside_parts parts []) in Hpart.
    by apply (inside_more _ _ [] tr2) in Hpart. }
  revert Hp Hin Hd Hlen Hl. generalize (concat parts ++ []) as tr1. clear. intros tr1 Hp.
  revert parts Hp. revert delivered. induction sinks as [|s sinks IH]; intros [|o delivered] parts; try done.
  intros Hp Hin Hd Hlen Hl. simpl in Hp. apply Forall2_cons_inv_r in Hp as (part & parts' & Hf & Hp & ->).
  apply Forall_cons in Hin as [Hin1 Hin]. apply Forall_cons in Hd as [[Ho Hi] Hd]. constructor.
  - split; [done|]. split; [rewrite elem_of_app; by right|]. by exists part.
  - eapply IH; [exact Hp|done|done|simpl in Hlen; lia|simpl in Hl; lia].
Qed.

(** ** A run that succeeded *)

(** What a hold promises: once a fence has failed, it says the run was stopped. *)
Definition stops_on_a_failed_fence (tr : trace) : Prop :=
  ∀ before after err why, tr = before ++ did Fence (Some err) :: after →
    did StoppedFor why ∈ after → why ≠ None.

Lemma stops_within a tr b : stops_on_a_failed_fence (a ++ tr ++ b) → stops_on_a_failed_fence tr.
Proof.
  intros H before after err why -> Hin. apply (H (a ++ before) (after ++ b) err why).
  - by rewrite <- !app_assoc.
  - rewrite elem_of_app. by left.
Qed.
Lemma stops_after a tr : stops_on_a_failed_fence (a ++ tr) → stops_on_a_failed_fence tr.
Proof. intros H. apply (stops_within a tr []). by rewrite app_nil_r. Qed.

(** A run's whole record kept, its report in it, and every sink told of that report. *)
Definition delivered_whole (runID name : string) (sinks : list Sinks.Sink) (document ref : string) (tr : trace)
  : Prop :=
  Forall kept tr ∧ did (PutBlob runID "report.json" document) (inr ref) ∈ tr ∧
  ∃ outcomes, Forall2 (told runID (mkDelivery name runID document None) tr) sinks outcomes.

Lemma finished_succeeded runID outcome ps o s :
  finished runID outcome ps = (o, s) → u_Status s = StatusSucceeded → u_Status outcome = StatusSucceeded ∧ ps = [].
Proof.
  intros [Hs Ho]%finished_status H. rewrite Hs, Ho in H. destruct ps; [|by destruct (String.eqb _ _) eqn:E; bool_facts].
  split; [|done]. by destruct (String.eqb _ _).
Qed.

Lemma Ret_finished_succeeded runID outcome ps tr o s :
  runs (Ret (finished runID outcome ps)) tr (o, s) → u_Status s = StatusSucceeded →
  u_Status outcome = StatusSucceeded ∧ ps = [].
Proof. intros [_ H] Hs. by eapply finished_succeeded. Qed.

Lemma finished_ref runID outcome ps o s : finished runID outcome ps = (o, s) → u_ReportRef o = u_ReportRef outcome.
Proof. unfold finished. intros [= <- _]. by destruct (errors_join ps). Qed.
Lemma record_outcomes_ref runID delivered : ∀ outcome ps tr o ps',
  runs (record_outcomes runID delivered outcome ps) tr (o, ps') → u_ReportRef o = u_ReportRef outcome.
Proof.
  induction delivered as [|one delivered IH]; intros outcome ps tr o ps'; cbn [record_outcomes]; [by intros [_ [= <- _]]|].
  intros (added & tr1 & tr2 & -> & _ & H)%runs_bind. apply IH in H as ->. by destruct (_ && _).
Qed.
Lemma deliver_ref runID sinks delivery outcome ps tr o ps' :
  runs (deliver runID sinks delivery outcome ps) tr (o, ps') → u_ReportRef o = u_ReportRef outcome.
Proof.
  unfold deliver. intros ([delivered fenceErr] & tr1 & tr2 & -> & _ & H)%runs_bind. apply record_outcomes_ref in H as ->.
  by destruct fenceErr.
Qed.

Lemma Run_unrecorded decl opts onEvent : only unrecorded (AgentRun.Run decl opts onEvent).
Proof. unfold AgentRun.Run, WriteMCPConfig. by only_calls. Qed.

Section whole.
Context (redact : string → string) (indexedRune : string → bool)
        (encode_book : Playbook.Playbook → gerror + string)
        (compile : any → option gerror) (check : any → string → option string).

Lemma report_and_deliver_whole started book sinks report outcome ps tr o s :
  runs (report_and_deliver started book sinks report outcome ps) tr (o, s) →
  stops_on_a_failed_fence tr → u_Status s = StatusSucceeded →
  ps = [] ∧ ∃ document, report = inr document ∧ delivered_whole (n_ID started) (Name book) sinks document (u_ReportRef o) tr.
Proof.
  unfold report_and_deliver. intros ([o1 ps1] & tr1 & tr2 & -> & H1 & H2)%runs_bind Hp Hs.
  apply runs_bind in H2 as ([o2 ps2] & tr3 & tr4 & -> & H2 & H3).
  unfold stoppedByTheGuard in H3.
  apply runs_bind in H3 as (o3 & tr5 & tr6 & -> & (why & tr7 & tr8 & -> & ->%runs_did & [-> <-])%runs_bind & [-> H3]).
  pose proof (finished_ref _ _ _ _ _ H3) as Hout. apply finished_succeeded in H3 as [Hst ->]; [|done].
  destruct why as [why|]; [done|]. rewrite (deliver_ref _ _ _ _ _ _ _ _ H2) in Hout.
  apply deliver_told in H2 as (-> & Hk & Hst1 & Hd); [|done..].
  destruct report as [err|document]; [by destruct H1 as [_ H1]; simplify_eq|].
  apply runs_bind in H1 as ([ref ps3] & tr9 & tr10 & -> & H1 & [-> H4]). simplify_eq.
  destruct (put_careful _ _ _ _ _ _ H1 eq_refl) as [-> Hk1].
  split; [done|]. exists document. split; [done|].
  unfold put in H1. apply runs_bind in H1 as (put_ & tr11 & tr12 & -> & ->%runs_did & [-> H1]).
  destruct put_ as [e|ref']; [by simplify_eq|]. simplify_eq. rewrite app_nil_r in *. cbn [app] in *.
  split.
  { apply Forall_cons. split; [by exists ref|]. apply Forall_app. split; [done|]. by repeat constructor. }
  split; [rewrite Hout; left|]. destruct Hd as [(err & (a & b & ->)%list_elem_of_split)|(outcomes & Ho)].
  { exfalso. refine (Hp (_ :: a) (b ++ [did StoppedFor None]) err None _ _ eq_refl).
    - cbn [app]. by rewrite <- app_assoc.
    - rewrite elem_of_app. right. left. }
  exists outcomes. eapply Forall2_impl; [exact Ho|]. intros s' o'.
  by apply (told_more _ _ _ [_] [did StoppedFor None]).
Qed.

(** From what a part of a run left behind it to the whole of the run. *)
Lemma delivered_whole_more runID name sinks document ref tr before :
  Forall kept before → delivered_whole runID name sinks document ref tr →
  delivered_whole runID name sinks document ref (before ++ tr).
Proof.
  intros Hk (Hk' & Hr & outcomes & Ho). split; [by apply Forall_app|].
  split; [rewrite elem_of_app; by right|]. exists outcomes.
  eapply Forall2_impl; [exact Ho|]. intros s o Ht. apply (told_more _ _ _ before []) in Ht. by rewrite app_nil_r in Ht.
Qed.

Lemma delivered_whole_then runID name sinks document ref tr after :
  Forall kept after → delivered_whole runID name sinks document ref tr →
  delivered_whole runID name sinks document ref (tr ++ after).
Proof.
  intros Hk (Hk' & Hr & outcomes & Ho). split; [by apply Forall_app|].
  split; [rewrite elem_of_app; by left|]. exists outcomes.
  eapply Forall2_impl; [exact Ho|]. intros s o Ht. by apply (told_more _ _ _ [] after) in Ht.
Qed.

Lemma conclude_unrecorded started what outcome : only unrecorded (conclude started what outcome).
Proof. unfold conclude, stoppedByTheGuard, Finish. by only_calls. Qed.
Lemma Begin_kept e admitted name kind parent tr started :
  runs (Begin e admitted name kind parent) tr (inr started) → n_ID started = m_RunID admitted ∧ Forall kept tr.
Proof.
  unfold Begin. intros (at_ & tr1 & tr2 & -> & ->%runs_did & (made & tr3 & tr4 & -> & ->%runs_did & H)%runs_bind)%runs_bind.
  destruct made; [by destruct H as [_ H]|]. apply runs_bind in H as (recorded & tr5 & tr6 & -> & ->%runs_did & H).
  destruct recorded; [by take_host|]. destruct H as [-> H]. simplify_eq. split; [done|]. by repeat constructor.
Qed.

(** A run's last row: what its outcome says, or that its claim was lost if the hold says so at the very end; the
    database may refuse it, and then that is logged. *)
Definition last_row (runID ref status : string) (tr : trace) : Prop :=
  ∃ final recordErr, did (FinishRun final) recordErr ∈ tr ∧ u_ID final = runID ∧ u_ReportRef final = ref ∧
    (u_Status final = status ∨ u_Status final = StatusClaimLost ∧ lost tr) ∧
    (recordErr = None ∨ ∃ text, did (LogError text) tt ∈ tr).

Lemma last_row_more runID ref status before tr : last_row runID ref status tr → last_row runID ref status (before ++ tr).
Proof.
  intros (final & err & Hin & Hid & Href & Hst & Hl). exists final, err. split; [apply elem_of_app; by right|]. split; [done|].
  split; [done|]. split; [destruct Hst as [?|[? ?]]; [by left|right; split; [done|apply lost_app; by right]]|].
  destruct Hl as [?|[text Ht]]; [by left|right]. exists text. apply elem_of_app. by right.
Qed.

Lemma conclude_row started what outcome tr u :
  runs (conclude started what outcome) tr u → last_row (n_ID started) (u_ReportRef outcome) (u_Status outcome) tr.
Proof.
  intros H. apply (conclude_ends redact indexedRune) in H as (why & final & (nows & recordErr & e2 & e3 & logged & _ & Hlog & Hiff & ->) & Hid & Href & Hst).
  exists final, recordErr. rewrite Href. split; [rewrite elem_of_cons, !elem_of_app; right; right; left; by left|].
  split; [done|]. split; [done|]. split.
  - destruct why as [why|]; [|by left]. right. split; [done|]. exists why. by left.
  - destruct recordErr as [err|]; [right|by left]. destruct logged as [|[c x] logged]; [by destruct (proj1 Hiff eq_refl)|].
    apply Forall_cons in Hlog as [Hl _]. destruct c; try done. destruct x. eexists.
    rewrite elem_of_cons, !elem_of_app. right; right; right. left; by left.
Qed.

(** The sinks the playbook declares, built, and a document its schema accepts delivered to them. *)
Definition succeeded (e : Executor) (runID : string) (book : Playbook.Playbook) (trigger : gmap string string)
    (ref : string) (tr : trace) : Prop :=
  ∃ sinks document,
    Build (interpolator e trigger) (is_webhook book) (declarationsOf book) = (sinks, []) ∧
    ValidateReport compile check document (OutputSchema (p_Agent book)) = None ∧
    delivered_whole runID (Name book) sinks document ref tr.

Lemma judged_valid stage schema document :
  judged compile check stage schema = inr document → ValidateReport compile check document schema = None.
Proof.
  unfold judged. destruct (AgentRun.Report _) as [err|d].
  - by destruct (AgentRun.o_DecodeErr stage), (s_Result (AgentRun.o_Stream stage)).
  - destruct (ValidateReport _ _ d schema) eqn:E; destruct (AgentRun.o_DecodeErr stage), (s_Result (AgentRun.o_Stream stage));
      intros; by simplify_eq.
Qed.

Lemma agentAndSinks_succeeded e started book text outcome ps trigger tr o s :
  runs (agentAndSinks compile check e started book text outcome ps trigger) tr (o, s) →
  u_Status outcome = StatusFailed → stops_on_a_failed_fence tr → u_Status s = StatusSucceeded →
  ps = [] ∧ succeeded e (n_ID started) book trigger (u_ReportRef o) tr.
Proof.
  unfold agentAndSinks. intros H Hf Hp Hs.
  destruct (Build _ _ _) as [sinks [|refusal refusals]] eqn:Eb; [|by destruct (Ret_finished_succeeded _ _ _ _ _ _ H Hs)].
  destruct (StageTimeout _) as [err|timeout]; [by destruct (Ret_finished_succeeded _ _ _ _ _ _ H Hs)|].
  destruct (serversOf e book) as [err|servers]; [by destruct (Ret_finished_succeeded _ _ _ _ _ _ H Hs)|].
  apply runs_bind in H as ([err|] & tr1 & tr2 & -> & H1%runs_did & H). all: subst tr1.
  { destruct (Ret_finished_succeeded _ _ _ _ _ _ H Hs) as [Ho _]. simpl in Ho. by rewrite Hf in Ho. }
  apply runs_bind in H as ([stage err] & tr3 & tr4 & -> & H2 & H).
  assert (Forall kept tr3) as Hk3.
  { apply unrecorded_kept. apply (Run_unrecorded _ _ _) in H2. exact H2. }
  destruct err as [err|].
  { destruct (Ret_finished_succeeded _ _ _ _ _ _ H Hs) as [Ho _]. simpl in Ho. by rewrite Hf in Ho. }
  destruct stage as [stage|]; [|by destruct (Ret_finished_succeeded _ _ _ _ _ _ H Hs) as [Ho _]; rewrite Hf in Ho].
  apply runs_bind in H as ([o1 ps1] & tr5 & tr6 & -> & H3 & H).
  destruct (o_Aborted stage); [by destruct (Ret_finished_succeeded _ _ _ _ _ _ H Hs)|].
  destruct (o_TimedOut stage); [by destruct (Ret_finished_succeeded _ _ _ _ _ _ H Hs)|].
  apply report_and_deliver_whole in H as (-> & document & Hj & Hd); [|by do 3 apply stops_after in Hp|done].
  destruct (recordStage_careful _ _ _ _ _ _ H3 eq_refl) as [-> Hk5]. split; [done|].
  exists sinks, document. split; [exact Eb|]. split; [by apply judged_valid in Hj|].
  apply delivered_whole_more; [by apply Forall_singleton|].
  apply delivered_whole_more; [done|]. by apply delivered_whole_more.
Qed.

Lemma retrieve_careful e started book trigger ps :
  careful fst ps (retrieve redact indexedRune e started book trigger ps).
Proof.
  unfold retrieve. destruct (Playbook.Retrieve book) as [|one rest] eqn:E; [by apply careful_Ret|]. rewrite <- E.
  destruct (e_Retrieve e) as [stage|]; [|by apply careful_Ret].
  apply careful_skip; [apply retrieve_all_unrecorded|]. intros [retrieved err].
  apply (careful_bind id); [apply record_retrievals_careful|]. intros ps'. by apply careful_Ret.
Qed.

Lemma prompt_kept e started book trigger tr text ref :
  runs (prompt e started book trigger) tr (inr (text, ref)) → Forall kept tr.
Proof.
  unfold prompt. intros (raw & tr1 & tr2 & -> & ->%runs_did & H)%runs_bind.
  destruct raw as [err|raw]; [by destruct H as [_ H]|].
  destruct (interpolator _ _ _) as [err|text']; [by destruct H as [_ H]|].
  apply runs_bind in H as (put_ & tr3 & tr4 & -> & ->%runs_did & [-> H]).
  destruct put_ as [err|ref']; [done|]. repeat constructor. by exists ref'.
Qed.

Lemma execute_work_succeeded e book trigger started tr o s :
  runs (execute_work redact indexedRune encode_book compile check e book trigger started) tr (o, s) →
  stops_on_a_failed_fence tr → u_Status s = StatusSucceeded →
  succeeded e (n_ID started) book (values_of (t_Values trigger)) (u_ReportRef o) tr.
Proof.
  unfold execute_work. intros (stored & tr1 & tr2 & -> & H1 & H)%runs_bind Hp Hs.
  destruct (match stored with inl err => ("", [err]) | inr ref => (ref, []) end) as [ref ps] eqn:Est.
  apply runs_bind in H as ([ps1 [err|]] & tr3 & tr4 & -> & H2 & H);
    [by destruct (Ret_finished_succeeded _ _ _ _ _ _ H Hs)|].
  apply runs_bind in H as ([ps2 [err|]] & tr5 & tr6 & -> & H3 & H);
    [by destruct (Ret_finished_succeeded _ _ _ _ _ _ H Hs)|].
  unfold prompt_and_agent in H. apply runs_bind in H as ([err|[text pref]] & tr7 & tr8 & -> & H4 & H);
    [by destruct (Ret_finished_succeeded _ _ _ _ _ _ H Hs)|].
  apply agentAndSinks_succeeded in H as [-> Hd]; [|done|by do 4 apply stops_after in Hp|done].
  destruct (retrieve_careful _ _ _ _ _ _ _ H3 eq_refl) as [-> Hk3].
  destruct (gather_careful _ _ _ _ _ _ _ H2 eq_refl) as [-> Hk2].
  assert (Forall kept tr1) as Hk1.
  { unfold storeResolved in H1. destruct (encode_book book) as [err|document].
    - destruct H1 as [-> <-]. by simplify_eq.
    - apply runs_did in H1 as ->. destruct stored as [err|ref']; [by simplify_eq|]. repeat constructor. by exists ref'. }
  destruct Hd as (sinks & document & Hb & Hv & Hd). exists sinks, document. split; [done|]. split; [done|].
  do 3 (apply delivered_whole_more; [done|]).
  apply delivered_whole_more; [by eapply prompt_kept|done].
Qed.

(** C1: What a run reported as succeeded is worth: every sink its playbook declares was built and
    told, on a fence of its own that passed, of one document the playbook's schema accepts, none
    of them failed, the document is in the run's record, and so is every row and blob the run
    tried to write while it was in flight, the row it began with included.  Its last row, which
    is written after the answer is settled, carries the document's reference and says succeeded,
    or that the claim was lost if the hold says so only then; a database that refuses that row
    does not change the answer, and is logged.  The playbook is the one the guard let in, as its
    file stood then.  A hold is relied on for one thing, [stops_on_a_failed_fence]: that it says
    the run was stopped once a fence has failed. *)
Theorem a_run_that_succeeded_is_whole e book trigger tr summary :
  runs (Execute redact indexedRune encode_book compile check e book trigger) tr (inr summary) →
  stops_on_a_failed_fence tr → u_Status summary = StatusSucceeded →
  ∃ admitted rest sinks document ref,
    tr = did (Admit book (t_Kind trigger) (t_DueAt trigger) (t_Values trigger) (t_OnWait trigger)) (inr admitted)
         :: rest ∧
    Build (interpolator e (values_of (t_Values trigger))) (is_webhook (m_Book admitted))
      (declarationsOf (m_Book admitted)) = (sinks, []) ∧
    ValidateReport compile check document (OutputSchema (p_Agent (m_Book admitted))) = None ∧
    delivered_whole (m_RunID admitted) (Name (m_Book admitted)) sinks document ref tr ∧
    last_row (m_RunID admitted) ref StatusSucceeded tr.
Proof.
  unfold Execute, run_claimed. intros (a & tr1 & rest & -> & ->%runs_did & H)%runs_bind Hp Hs.
  destruct a as [err|admitted]; [by destruct H as [_ H]|]. exists admitted, rest.
  apply runs_bind in H as (u & tr2 & tr3 & -> & ->%runs_did & H).
  apply runs_bind in H as ([err|started] & tr4 & tr5 & -> & H1 & H); [by take_host|].
  apply runs_bind in H as ([outcome s] & tr6 & tr7 & -> & H2 & H).
  apply runs_bind in H as (u' & tr8 & tr9 & -> & H3 & [-> H4]). simplify_eq.
  apply Begin_kept in H1 as [Hid Hk4].
  assert (Forall kept tr8) as Hk8 by (apply unrecorded_kept; by eapply conclude_unrecorded).
  rewrite app_nil_r in *. destruct (execute_work_settled _ _ _ _ _ _ _ _ _ _ _ _ H2) as (_ & Ho & _).
  apply conclude_row in H3.
  apply execute_work_succeeded in H2 as (sinks & document & Hb & Hv & Hd); [| |done].
  2: { do 3 apply stops_after in Hp. by apply (stops_within [] tr6 tr8) in Hp. }
  exists sinks, document, (u_ReportRef outcome). rewrite Hid in *. rewrite <- Ho, Hs in H3.
  split; [done|]. split; [done|]. split; [done|]. split.
  - apply delivered_whole_more; [by apply Forall_singleton|].
    apply delivered_whole_more; [by apply Forall_singleton|]. apply delivered_whole_more; [done|].
    by apply delivered_whole_then.
  - by do 4 apply last_row_more.
Qed.
End whole.
