(* ===== verification/ExecutorWorld.v ===== *)
(** The executor on a host that keeps its record as the store does: runs seen from end to end,
    and what a second run makes of a first one's record. *)
From S2P Require Import Prelude GoStr GoTime GoPath GoErr Config Playbook GoJson GoRunes GoMarshal.
From S2P Require Import Records Store RunRecords AgentStage Guard Host AgentRun Gather McpCatalog.
From S2P Require Import Sinks GitHubSink Retrieve Executor ExecutorCalls ExecutorSafe.
From S2P Require Import ExecutorDone ExecutorWhole.
From Stdlib Require Import QArith.
Open Scope Z_scope.

(** ** A host with a record *)

(** Its tables, its blobs, its runs, and how many fences it lets pass before the claim is lost. *)
Record world := mkWorld {
  w_tables : tables; w_files : gmap string string; w_runs : gmap string Records.Run;
  w_begun : nat; w_fences : option nat }.

Section world.
Context (redact : string → string).

Definition blobs : Blobs := mkBlobs "/var/gronin/blobs" redact.

Definition with_tables (r : option gerror * tables) (w : world) : option gerror * world :=
  (fst r, mkWorld (snd r) (w_files w) (w_runs w) (w_begun w) (w_fences w)).
Definition with_run (run : Records.Run) (w : world) : option gerror * world :=
  (None, mkWorld (w_tables w) (w_files w) (<[u_ID run := run]> (w_runs w)) (w_begun w) (w_fences w)).
Definition known_run (w : world) (id : string) : bool := bool_decide (is_Some (w_runs w !! id)).

(** An agent that was given what it asked for and answers at once. *)
Definition well_init : string :=
  replace_all "{'type':'system','subtype':'init','session_id':'s1','apiKeySource':'ANTHROPIC_API_KEY','tools':['Read'],'mcp_servers':[]}" "'" dq.
Definition well_result : string :=
  replace_all "{'type':'result','subtype':'success','result':'{}','structured_output':{'ok':true}}" "'" dq.
Definition well_child : process :=
  mkProcess None None (well_init +:+ nl +:+ well_result +:+ nl) None "" WaitOK false 0 (λ _, 0).

Definition world_host (c : host_cmd) (w : world) : host_resp c * world :=
  match c return host_resp c * world with
  | Now => (1, w)
  | ReadFile _ => (inr "Look at the input.", w)
  | Spawn _ _ => (well_child, w)
  | HTTP _ => (Answered 204 (inr ""), w)
  | PutBlob runID name data =>
      let (r, files) := RunRecords.Put blobs (None, None) runID name data (w_files w) in
      (r, mkWorld (w_tables w) files (w_runs w) (w_begun w) (w_fences w))
  | GetBlob ref => (RunRecords.Get "/" blobs ref (w_files w), w)
  | CreateRun run | FinishRun run => with_run run w
  | AddGatheredInput id x => with_tables (RunRecords.AddGatheredInput redact (known_run w) id x (w_tables w)) w
  | AddRetrieval id x => with_tables (RunRecords.AddRetrieval redact (known_run w) id x (w_tables w)) w
  | AddToolCall id x => with_tables (RunRecords.AddToolCall redact (known_run w) id x (w_tables w)) w
  | AddRefusedAction id x => with_tables (RunRecords.AddRefusedAction redact (known_run w) id x (w_tables w)) w
  | AddSinkOutcome id x => with_tables (RunRecords.AddSinkOutcome redact (known_run w) id x (w_tables w)) w
  | GetRun id => (match w_runs w !! id with Some run => inr run | None => inl ErrNotFound end, w)
  | GatheredInputs id => (inr (RunRecords.GatheredInputs id (w_tables w)), w)
  | Retrievals id => (inr (RunRecords.Retrievals id (w_tables w)), w)
  | Admit book _ _ _ _ =>
      (inr (mkAdmission (mkClaim 0 1 0) "host" ("r" +:+ show_nat (S (w_begun w))) book "" 0 0),
       mkWorld (w_tables w) (w_files w) (w_runs w) (S (w_begun w)) (w_fences w))
  | Fence =>
      match w_fences w with
      | None => (None, w)
      | Some 0%nat => (Some ErrLost, w)
      | Some (S n) => (None, mkWorld (w_tables w) (w_files w) (w_runs w) (w_begun w) (Some n))
      end
  | StoppedFor => (match w_fences w with Some 0%nat => Some "the claim could not be fenced: claim lost" | _ => None end, w)
  | c => (quiet c, w)
  end.
End world.

Definition new_world (fences : option nat) : world := mkWorld empty_tables ∅ ∅ 0 fences.

(** ** Playbooks and a deployment *)

Definition discord (url : string) : Playbook.Sink := [("discord", AMap [("webhook", AString url)])].
Definition small_book (sinks : list Playbook.Sink) : Playbook.Playbook :=
  mkPlaybook "disk" "Says what fills the disk." (Playbook.mkTrigger "schedule" "@daily" "" ∅)
    [Playbook.mkStep "df -h" "df.txt"] (mkAgent "" "disk.md" None ["Read"] [] [] ANil "") sinks None []
    "playbooks/disk.yaml".
Definition small_executor : Executor :=
  mkExecutor "/var/gronin/work" (mkConfig "" ∅) None "/usr/bin/agent" [] [] None 0.
Definition as_described (book : Playbook.Playbook) : gerror + string :=
  inr (Name book +:+ nl +:+ Description book).
Definition no_schema (_ : any) : option gerror := None.
Definition no_complaint (_ : any) (_ : string) : option string := None.
Definition nothing_hidden (text : string) : string := text.
Definition any_rune (_ : string) : bool := true.

Definition daily : Trigger := mkTrigger TriggerSchedule 1 None false.
Definition execute_small (sinks : list Playbook.Sink) : prog (gerror + Records.Run) :=
  Execute nothing_hidden any_rune as_described no_schema no_complaint small_executor (small_book sinks) daily.

(** What came of a program, and what the record says of a run. *)
Definition came_of (redact : string → string) {A} (p : prog A) (w : world) : A * world :=
  exec (Sg := host_sig) (world_host redact) p w.
Definition status_of (r : gerror + Records.Run) : string :=
  match r with inl err => "refused: " +:+ Error err | inr run => u_Status run end.
Definition recorded_status (id : string) (w : world) : option string := u_Status <$> w_runs w !! id.

Example runs_of_one_sink_and_two :
  let one := came_of nothing_hidden (execute_small [discord "https://a"]) (new_world None) in
  let two := came_of nothing_hidden (execute_small [discord "https://a"; discord "https://b"]) (new_world None) in
  (status_of (fst one), recorded_status "r1" (snd one)) = ("succeeded", Some "succeeded") ∧
  (status_of (fst two), recorded_status "r1" (snd two)) = ("failed", Some "failed").
Proof. vm_compute. split; reflexivity. Qed.

(** ** Witnesses *)

Definition fence_passed (e : event (Sg := host_sig)) : bool :=
  match e with existT c x =>
    match c return host_resp c → bool with
    | Fence => λ err, match err with None => true | Some _ => false end
    | _ => λ _, true
    end x
  end.

Lemma all_fences_passed tr : forallb fence_passed tr = true → stops_on_a_failed_fence tr.
Proof.
  rewrite forallb_forall. intros H before after err why -> _.
  specialize (H (did Fence (Some err))). rewrite in_app_iff in H. specialize (H (or_intror (or_introl eq_refl))). done.
Qed.

Definition one_sink : prog (gerror + Records.Run) := execute_small [discord "https://a"].
Definition one_sink_trace : trace :=
  trace_of (Sg := host_sig) (world_host nothing_hidden) one_sink (new_world None).

Lemma a_run_that_succeeded_is_whole_witness :
  ∃ summary, runs one_sink one_sink_trace (inr summary) ∧ u_Status summary = StatusSucceeded ∧
    ∃ sinks document ref, length sinks = 1%nat ∧ delivered_whole "r1" "disk" sinks document ref one_sink_trace.
Proof.
  pose proof (exec_runs (Sg := host_sig) (world_host nothing_hidden) one_sink (new_world None)) as Hr.
  destruct (fst (exec (Sg := host_sig) (world_host nothing_hidden) one_sink (new_world None))) as [err|summary] eqn:E.
  { exfalso. revert E. clear. vm_compute. discriminate. }
  assert (u_Status summary = StatusSucceeded) as Hs.
  { revert E. clear. vm_compute. intros E. injection E as <-. reflexivity. }
  exists summary. split; [exact Hr|]. split; [exact Hs|].
  pose proof (a_run_that_succeeded_is_whole nothing_hidden any_rune as_described no_schema no_complaint
    small_executor (small_book [discord "https://a"]) daily _ summary Hr
    (all_fences_passed one_sink_trace ltac:(vm_compute; reflexivity)) Hs)
    as (admitted & rest & sinks & document & ref & Ht & Hb & _ & Hd & _).
  assert (admitted = mkAdmission (mkClaim 0 1 0) "host" "r1" (small_book [discord "https://a"]) "" 0 0) as ->.
  { apply (f_equal (λ tr, match tr with existT c x :: _ =>
      match c return host_resp c → option Admission with Admit _ _ _ _ _ => λ r, match r with inr a => Some a | _ => None end
      | _ => λ _, None end x | [] => None end)) in Ht.
    revert Ht. clear. vm_compute. intros Ht. injection Ht as <-. reflexivity. }
  exists sinks, document, ref. split; [|exact Hd].
  revert Hb. clear. vm_compute. intros Hb. injection Hb as <-. reflexivity.
Defined.

(** ** A second run of a first one's record *)

Definition again (p : string → Playbook.Playbook → prog (gerror + Records.Run)) : prog (gerror + Records.Run) :=
  p "r1" (small_book [discord "https://a"]).
Definition replay_small : prog (gerror + Records.Run) :=
  again (Replay as_described no_schema no_complaint small_executor).
Definition resume_small : prog (gerror + Records.Run) := again (Resume as_described small_executor).
Definition hides_disk (text : string) : string := replace_all text "disk" "[redacted]".
Definition after_one (redact : string → string) (fences : option nat) : world :=
  let w := snd (came_of redact one_sink (new_world None)) in
  mkWorld (w_tables w) (w_files w) (w_runs w) (w_begun w) fences.

(** A run is replayed and resumed from its record; one whose playbook holds what the redactor
    hides is not, though its playbook has not changed. *)
Example second_runs :
  status_of (fst (came_of nothing_hidden replay_small (after_one nothing_hidden None))) = "succeeded" ∧
  status_of (fst (came_of nothing_hidden resume_small (after_one nothing_hidden None))) = "succeeded" ∧
  has_prefix (status_of (fst (came_of hides_disk replay_small (after_one hides_disk None))))
    ("refused: " +:+ Error ErrPlaybookChanged) = true.
Proof. vm_compute. repeat split; reflexivity. Qed.

(** A resume whose claim is lost before its sink is told says it succeeded, and is recorded as
    having lost its claim with nothing delivered; an execution says why twice. *)
Example a_lost_claim_resumed :
  let r := came_of nothing_hidden resume_small (after_one nothing_hidden (Some 0%nat)) in
  status_of (fst r) = "succeeded" ∧ recorded_status "r2" (snd r) = Some "claim_lost" ∧
  RunRecords.SinkOutcomes "r2" (w_tables (snd r)) = [] ∧
  u_Error <$> w_runs (snd (came_of nothing_hidden one_sink (new_world (Some 1%nat)))) !! "r1" =
    Some ("claim lost; the claim could not be fenced: claim lost; " +:+
          "the claim could not be fenced: claim lost").
Proof. vm_compute. repeat split; reflexivity. Qed.
