(* ===== verification/ExecutorReplay.v ===== *)
(** What a replay asks its agent: the recorded run's prompt, over its recorded inputs. *)
From S2P Require Import Prelude GoStr GoTime GoPath GoErr Config Playbook GoJson GoRunes GoMarshal.
From S2P Require Import Records Store RunRecords AgentStage Guard Host AgentRun Gather McpCatalog.
From S2P Require Import Sinks GitHubSink Retrieve Executor ExecutorCalls ExecutorWhole.
From S2P Require Import ExecutorWorld.
From Stdlib Require Import QArith.
Open Scope Z_scope.

(** ** Where an agent is started *)

Definition is_spawn (c : host_cmd) : bool := match c with Spawn _ _ => true | _ => false end.
Definition unspawned (c : host_cmd) : Prop := is_spawn c = false.

Lemma writes_unspawned {A} (p : prog (Sg := host_sig) A) : only writes p → only unspawned p.
Proof. apply only_mono. by intros []. Qed.

Lemma unspawned_no_spawn {A} (p : prog (Sg := host_sig) A) tr a opts args child :
  only unspawned p → runs p tr a → did (Spawn opts args) child ∉ tr.
Proof. intros Ho Hr Hin. specialize (Ho _ _ Hr). rewrite Forall_forall in Ho. by specialize (Ho _ Hin). Qed.

(** Where an event is in two parts of a trace. *)
Lemma split_later {A} (s : A) tr1 tr2 before after :
  tr1 ++ tr2 = before ++ s :: after → s ∉ tr1 → ∃ mid, before = tr1 ++ mid ∧ tr2 = mid ++ s :: after.
Proof.
  revert before. induction tr1 as [|e tr1 IH]; intros before; [by exists before|]. cbn [app].
  intros H [Hne Hn]%not_elem_of_cons. destruct before as [|b before]; cbn [app] in H; injection H as -> H; [done|].
  destruct (IH _ H Hn) as (mid & -> & ->). by exists mid.
Qed.
Lemma split_sooner {A} (s : A) tr1 tr2 before after :
  tr1 ++ tr2 = before ++ s :: after → s ∉ tr2 → ∃ rest, tr1 = before ++ s :: rest.
Proof.
  revert before. induction tr1 as [|e tr1 IH]; intros before; cbn [app].
  - intros -> []. rewrite elem_of_app. right; left.
  - destruct before as [|b before]; cbn [app]; intros [= -> H] Hn; [by exists tr1|].
    destruct (IH _ H Hn) as (rest & ->). by exists rest.
Qed.

(** A spawn in a trace is in the part after a program that makes none. *)
Lemma spawn_later {A B} (p : prog (Sg := host_sig) A) (k : A → prog B) before after r opts args child :
  runs (bind p k) (before ++ did (Spawn opts args) child :: after) r → only unspawned p →
  ∃ a tr1 mid, before = tr1 ++ mid ∧ runs p tr1 a ∧ runs (k a) (mid ++ did (Spawn opts args) child :: after) r.
Proof.
  intros (a & tr1 & tr2 & Heq & H1 & H2)%runs_bind Ho.
  destruct (split_later _ _ _ _ _ (eq_sym Heq) (unspawned_no_spawn _ _ _ opts args child Ho H1)) as (mid & -> & ->).
  by exists a, tr1, mid.
Qed.

Lemma no_spawn_Ret {A} (a r : A) before after s : runs (Sg := host_sig) (Ret a) (before ++ s :: after) r → False.
Proof. intros [H _]. by destruct before. Qed.

Ltac unspawned_calls := first [by only_calls | apply writes_unspawned; by writes_calls].

Lemma deliver_unspawned runID sinks delivery outcome ps : only unspawned (deliver runID sinks delivery outcome ps).
Proof.
  unfold deliver. apply only_bind.
  - induction sinks as [|s sinks IH]; cbn [DeliverAll]; only_calls; try done; try exact IH.
    intros tr r H%Deliver_http. unfold http_only, cmds in H. apply Forall_map in H.
    eapply Forall_impl; [exact H|]. intros e. unfold unspawned. by destruct (cmd_of e).
  - intros []. apply writes_unspawned. by writes_calls.
Qed.

Lemma report_and_deliver_unspawned started book sinks report outcome ps :
  only unspawned (report_and_deliver started book sinks report outcome ps).
Proof.
  unfold report_and_deliver. apply only_bind; [apply writes_unspawned; by writes_calls|]. intros [].
  apply only_bind; [apply deliver_unspawned|]. intros []. unfold stoppedByTheGuard. by only_calls.
Qed.

Section replay.
Context (encode_book : Playbook.Playbook → gerror + string)
        (compile : any → option gerror) (check : any → string → option string).

(** What a child was started with: the arguments and the server file of a declaration. *)
Definition bounded_by (decl : AgentStage.Declaration) (servers : list (string * any)) (opts : Host.Options) (args : list string)
    (before : trace) : Prop :=
  BuildArgs decl (mcpConfigPath (Host.o_WorkDir opts)) = inr args ∧ o_MCPServers opts = servers ∧
  did (WriteFile (mcpConfigPath (Host.o_WorkDir opts)) (mcpDocument servers)) None ∈ before.

Lemma Run_spawns decl given onEvent before after r opts args child :
  runs (AgentRun.Run decl given onEvent) (before ++ did (Spawn opts args) child :: after) r →
  opts = with_timeout given ∧ bounded_by decl (o_MCPServers given) opts args before.
Proof.
  unfold AgentRun.Run, WriteMCPConfig. intros H.
  destruct (spawn_later _ _ _ _ _ _ _ _ H ltac:(by only_calls)) as (wrote & t1 & m1 & -> & H1 & H2).
  apply runs_bind in H1 as (err & t2 & t3 & -> & ->%runs_did & [-> <-]). destruct err as [err|]; [by apply no_spawn_Ret in H2|].
  destruct (BuildArgs _ _) as [err|args'] eqn:Eb; [by apply no_spawn_Ret in H2|].
  apply runs_bind in H2 as (child' & t4 & t5 & Heq & ->%runs_did & [-> _]). rewrite app_nil_r in Heq.
  destruct m1 as [|e m1]; [|by injection Heq as _ H'; destruct m1]. cbn [app] in Heq. apply (f_equal (λ l, cmd_of <$> head l)) in Heq.
  cbv [head cmd_of did ev projT1 fmap option_fmap option_map] in Heq. injection Heq as -> ->.
  split; [done|]. assert (Host.o_WorkDir (with_timeout given) = Host.o_WorkDir given ∧ o_MCPServers (with_timeout given) = o_MCPServers given) as [Ew Es]
    by (unfold with_timeout; by destruct (_ <=? _)).
  unfold bounded_by. rewrite Ew in *. rewrite Es in *. split; [done|]. split; [done|]. left.
Qed.

Lemma agentAndSinks_spawns e started book text outcome ps trigger before after r opts args child :
  runs (agentAndSinks compile check e started book text outcome ps trigger) (before ++ did (Spawn opts args) child :: after) r →
  Host.o_WorkDir opts = n_WorkDir started ∧ o_Prompt opts = text ∧
  ∃ timeout servers, StageTimeout (p_Agent book) = inr timeout ∧ serversOf e book = inr servers ∧
    o_Timeout opts = (if timeout <=? 0 then agent_DefaultTimeout else timeout) ∧
    bounded_by (declarationOf book) servers opts args before.
Proof.
  unfold agentAndSinks. intros H. destruct (Build _ _ _) as [sinks [|refusal refusals]]; [|by apply no_spawn_Ret in H].
  destruct (StageTimeout _) as [err|timeout]; [by apply no_spawn_Ret in H|].
  destruct (serversOf e book) as [err|servers]; [by apply no_spawn_Ret in H|].
  destruct (spawn_later _ _ _ _ _ _ _ _ H ltac:(by only_calls)) as (fence & t1 & m1 & -> & _ & H1).
  destruct fence as [err|]; [by apply no_spawn_Ret in H1|].
  apply runs_bind in H1 as (ran & t3 & t4 & Heq & H2 & H3).
  assert (did (Spawn opts args) child ∉ t4) as Hn.
  { eapply unspawned_no_spawn; [|exact H3]. destruct ran as [stage err].
    destruct err as [err|]; [apply only_Ret|]. destruct stage as [stage|]; [|apply only_Ret].
    apply only_bind; [apply writes_unspawned; by writes_calls|]. intros [outcome' ps'].
    destruct (o_Aborted stage); [apply only_Ret|]. destruct (o_TimedOut stage); [apply only_Ret|].
    apply report_and_deliver_unspawned. }
  destruct (split_sooner _ _ _ _ _ (eq_sym Heq) Hn) as (rest & ->).
  destruct (Run_spawns _ _ _ _ _ _ _ _ _ H2) as [Ho Hb].
  split; [rewrite Ho; unfold with_timeout; by destruct (_ <=? _)|]. split; [rewrite Ho; unfold with_timeout; by destruct (_ <=? _)|].
  exists timeout, servers. split; [done|]. split; [done|].
  split; [rewrite Ho; unfold with_timeout; cbn [o_Timeout]; by destruct (_ <=? _)|].
  destruct Hb as (Ha & Hs & Hw). split; [done|]. split; [done|]. apply elem_of_app. by right.
Qed.

(** ** What is put back *)

(** A recorded file, read and written again into a run's directory. *)
Definition put_back (dir name ref : string) (tr : trace) : Prop :=
  ∃ data, did (GetBlob ref) (inr data) ∈ tr ∧ did (WriteFile (Join [dir; Base name]) data) None ∈ tr.

Lemma put_back_app dir name ref tr1 tr2 :
  put_back dir name ref tr1 ∨ put_back dir name ref tr2 → put_back dir name ref (tr1 ++ tr2).
Proof. unfold put_back. setoid_rewrite elem_of_app. naive_solver. Qed.

Lemma restore_inputs_restores started inputs : ∀ ps tr ps',
  runs (restore_inputs started inputs ps) tr (ps', None) →
  ∀ input, input ∈ inputs → i_BlobRef input ≠ "" →
    put_back (n_WorkDir started) (i_Name input) (i_BlobRef input) tr.
Proof.
  induction inputs as [|one inputs IH]; intros ps tr ps' H input Hin Href; [by apply elem_of_nil in Hin|].
  cbn [restore_inputs] in H. destruct (String.eqb (i_BlobRef one) "") eqn:E; bool_facts.
  { apply elem_of_cons in Hin as [->|Hin]; [done|]. by eapply IH. }
  apply runs_bind in H as (data & tr1 & tr2 & -> & ->%runs_did & H). destruct data as [err|data]; [by destruct H|].
  apply runs_bind in H as (wrote & tr3 & tr4 & -> & ->%runs_did & H). destruct wrote as [err|]; [by destruct H|].
  apply runs_bind in H as (added & tr5 & tr6 & -> & ->%runs_did & H).
  apply elem_of_cons in Hin as [->|Hin].
  - exists data. cbn [app]. split; [left|right; left].
  - do 3 (apply put_back_app; right). by eapply IH.
Qed.

Lemma restore_retrievals_restores started retrievals : ∀ ps tr ps',
  runs (restore_retrievals started retrievals ps) tr (ps', None) →
  ∀ v, v ∈ retrievals → v_ResultsRef v ≠ "" → put_back (n_WorkDir started) (v_AsName v) (v_ResultsRef v) tr.
Proof.
  induction retrievals as [|one retrievals IH]; intros ps tr ps' H v Hin Href; [by apply elem_of_nil in Hin|].
  cbn [restore_retrievals] in H. destruct (String.eqb (v_ResultsRef one) "") eqn:E; bool_facts.
  { apply elem_of_cons in Hin as [->|Hin]; [done|]. by eapply IH. }
  apply runs_bind in H as (restored & tr1 & tr2 & -> & H1 & H).
  destruct restored as [err|restored]; [by destruct H|].
  apply runs_bind in H as (wrote & tr3 & tr4 & -> & ->%runs_did & H). destruct wrote as [err|]; [by destruct H|].
  apply runs_bind in H as (ps1 & tr5 & tr6 & -> & H2 & H).
  apply elem_of_cons in Hin as [->|Hin]; [|do 3 (apply put_back_app; right); by eapply IH].
  unfold restoredRetrieval in H1. apply runs_bind in H1 as (results & tr7 & tr8 & -> & ->%runs_did & H1).
  destruct results as [err|results]; [by destruct H1|].
  apply runs_bind in H1 as (contents & tr9 & tr10 & -> & _ & [-> H1]).
  destruct contents as [err|contents]; [done|]. simpl in H1. simplify_eq.
  exists results. cbn [app v_Results default]. split; [left|].
  repeat (rewrite elem_of_cons || rewrite elem_of_app). tauto.
Qed.

(** ** A replay *)

Lemma run_claimed_spawns e admitted name kind parent what work before after r opts args child :
  runs (run_claimed e admitted name kind parent what work) (before ++ did (Spawn opts args) child :: after) r →
  ∃ started pre mid rest o, before = pre ++ mid ∧ runs (work started) (mid ++ did (Spawn opts args) child :: rest) o.
Proof.
  unfold run_claimed. intros H.
  destruct (spawn_later _ _ _ _ _ _ _ _ H ltac:(by only_calls)) as ([] & t1 & m1 & -> & _ & H1).
  assert (only unspawned (Begin e admitted name kind parent)) as Hb by (unfold Begin; by only_calls).
  destruct (spawn_later _ _ _ _ _ _ _ _ H1 Hb) as ([err|started] & t2 & m2 & -> & _ & H2).
  { exfalso. eapply unspawned_no_spawn; [|exact H2|apply elem_of_app; right; left]. by only_calls. }
  apply runs_bind in H2 as ([outcome summary] & part & after' & Heq & H2 & H3).
  assert (did (Spawn opts args) child ∉ after') as Hn.
  { eapply unspawned_no_spawn; [|exact H3]. unfold conclude, stoppedByTheGuard, Finish. by only_calls. }
  destruct (split_sooner _ _ _ _ _ (eq_sym Heq) Hn) as (rest & ->).
  exists started, (t1 ++ t2), m2, rest, (outcome, summary). by rewrite <- app_assoc.
Qed.

(** What an agent that is started is given: the prompt, the files back in its directory, and its bounds. *)
Definition given (e : Executor) (book : Playbook.Playbook) (text : string) (inputs : list GatheredInput) (retrievals : list Retrieval)
    (opts : Host.Options) (args : list string) (before : trace) : Prop :=
  o_Prompt opts = text ∧
  (∀ input, input ∈ inputs → i_BlobRef input ≠ "" →
     put_back (Host.o_WorkDir opts) (i_Name input) (i_BlobRef input) before) ∧
  (∀ v, v ∈ retrievals → v_ResultsRef v ≠ "" →
     put_back (Host.o_WorkDir opts) (v_AsName v) (v_ResultsRef v) before) ∧
  ∃ timeout servers, StageTimeout (p_Agent book) = inr timeout ∧ serversOf e book = inr servers ∧
    o_Timeout opts = (if timeout <=? 0 then agent_DefaultTimeout else timeout) ∧
    bounded_by (declarationOf book) servers opts args before.

Lemma given_more e book text inputs retrievals opts args pre before :
  given e book text inputs retrievals opts args before → given e book text inputs retrievals opts args (pre ++ before).
Proof.
  intros (Hp & Hi & Hv & timeout & servers & Ht & Hs & Ho & Ha & Hm & Hw). split; [done|].
  split; [intros; apply put_back_app; right; by apply Hi|]. split; [intros; apply put_back_app; right; by apply Hv|].
  exists timeout, servers. do 3 (split; [done|]). split; [done|]. split; [done|]. apply elem_of_app. by right.
Qed.

Lemma replay_work_asks e book parentID text inputs retrievals started before after r opts args child :
  runs (replay_work encode_book compile check e book parentID text inputs retrievals started)
    (before ++ did (Spawn opts args) child :: after) r →
  given e book text inputs retrievals opts args before.
Proof.
  unfold replay_work. intros H.
  destruct (spawn_later _ _ _ _ _ _ _ _ H ltac:(unspawned_calls)) as ([ps1 [err|]] & t1 & m1 & -> & H1 & H');
    [by apply no_spawn_Ret in H'|].
  destruct (spawn_later _ _ _ _ _ _ _ _ H' ltac:(unspawned_calls)) as ([ps2 [err|]] & t3 & m3 & -> & H2 & H'');
    [by apply no_spawn_Ret in H''|].
  destruct (spawn_later _ _ _ _ _ _ _ _ H'' ltac:(unspawned_calls)) as ([ref ps3] & t5 & m5 & -> & _ & H3).
  destruct (spawn_later _ _ _ _ _ _ _ _ H3 ltac:(unspawned_calls)) as (resolved & t7 & m7 & -> & _ & H4).
  apply agentAndSinks_spawns in H4 as (Hw & Hp & timeout & servers & Ht & Hs & Ho & Ha & Hm & Hf).
  split; [done|]. rewrite Hw. split; [|split].
  - intros input Hi Href. apply put_back_app. left. by eapply restore_inputs_restores.
  - intros v Hv Href. apply put_back_app. right. apply put_back_app. left. by eapply restore_retrievals_restores.
  - exists timeout, servers. do 3 (split; [done|]). split; [done|]. split; [done|]. rewrite !elem_of_app. by do 4 right.
Qed.

(** The playbook is, but for the space around it, the text the recorded run kept of its own. *)
Definition same_playbook (parent : Records.Run) (book : Playbook.Playbook) (tr : trace) : Prop :=
  ∃ recorded now, did (GetBlob (u_ResolvedPlaybookRef parent)) (inr recorded) ∈ tr ∧
    encode_book book = inr now ∧ TrimSpace recorded = TrimSpace now.

Lemma sameAsRecorded_same parent book tr :
  runs (sameAsRecorded encode_book parent book) tr None → same_playbook parent book tr.
Proof.
  unfold sameAsRecorded. destruct (String.eqb _ _); [by intros [_ H]|].
  intros (recorded & tr1 & tr2 & -> & ->%runs_did & [-> H])%runs_bind.
  destruct recorded as [err|recorded]; [done|]. destruct (encode_book book) as [err|now] eqn:E; [done|].
  destruct (String.eqb _ _) eqn:Es; bool_facts; [|done]. exists recorded, now. split; [left|done].
Qed.

(** C4: A replay asks what was asked.  Whatever its host answers, by the time an agent is started
    the prompt it is given was read from the recorded run; every input the record kept, and
    every retrieval's results, were written back into its directory as they were read from the
    record; and what bounds it - its arguments, its servers and their file, its timeout - is
    what the playbook declares whose JSON, but for the space around it, the record kept. *)
Theorem a_replay_asks_what_was_asked e parentID book before after r opts args child :
  runs (Replay encode_book compile check e parentID book) (before ++ did (Spawn opts args) child :: after) r →
  ∃ parent inputs retrievals text,
    did (GetRun parentID) (inr parent) ∈ before ∧ did (GatheredInputs parentID) (inr inputs) ∈ before ∧
    did (Retrievals parentID) (inr retrievals) ∈ before ∧
    same_playbook parent book before ∧
    did (GetBlob (u_PromptRef parent)) (inr text) ∈ before ∧
    given e book text inputs retrievals opts args before.
Proof.
  unfold Replay. intros H.
  destruct (spawn_later _ _ _ _ _ _ _ _ H ltac:(unspawned_calls)) as ([err|parent] & t1 & m1 & -> & ->%runs_did & H1);
    [by apply no_spawn_Ret in H1|].
  destruct (spawn_later _ _ _ _ _ _ _ _ H1 ltac:(unspawned_calls)) as ([err|inputs] & t3 & m3 & -> & ->%runs_did & H2);
    [by apply no_spawn_Ret in H2|].
  destruct (spawn_later _ _ _ _ _ _ _ _ H2 ltac:(unspawned_calls)) as ([err|retrievals] & t5 & m5 & -> & ->%runs_did & H3);
    [by apply no_spawn_Ret in H3|].
  destruct (String.eqb _ _); [by apply no_spawn_Ret in H3|].
  destruct (spawn_later _ _ _ _ _ _ _ _ H3 ltac:(unspawned_calls)) as ([err|] & t7 & m7 & -> & Hs & H4);
    [by apply no_spawn_Ret in H4|].
  destruct (spawn_later _ _ _ _ _ _ _ _ H4 ltac:(unspawned_calls)) as ([err|text] & t9 & m9 & -> & ->%runs_did & H5);
    [by apply no_spawn_Ret in H5|].
  destruct (spawn_later _ _ _ _ _ _ _ _ H5 ltac:(unspawned_calls)) as ([err|admitted] & t11 & m11 & -> & ->%runs_did & H6);
    [by apply no_spawn_Ret in H6|].
  apply run_claimed_spawns in H6 as (started & pre & mid & rest & o & -> & H7). apply replay_work_asks in H7.
  apply sameAsRecorded_same in Hs as (recorded & now & Hr & He & Ht).
  exists parent, inputs, retrievals, text.
  split; [left|]. split; [cbn; right; left|]. split; [cbn; right; right; left|].
  split. { exists recorded, now. split; [|done]. rewrite !elem_of_app. tauto. }
  split. { rewrite !elem_of_app. do 4 right. left. left. }
  by do 7 apply given_more.
Qed.
End replay.

Definition replay_trace : trace :=
  trace_of (Sg := host_sig) (world_host nothing_hidden) replay_small (after_one nothing_hidden None).
(** The prompt of [ExecutorWorld]'s first run, over the file it gathered. *)
Fixpoint to_spawn (seen tr : trace) : option (trace * Host.Options * list string * trace) :=
  match tr with
  | [] => None
  | e :: tr =>
      match cmd_of e with
      | Spawn opts args => Some (rev seen, opts, args, tr)
      | _ => to_spawn (e :: seen) tr
      end
  end.
Lemma to_spawn_splits tr : ∀ seen before opts args after, to_spawn seen tr = Some (before, opts, args, after) →
  ∃ child, rev seen ++ tr = before ++ did (Spawn opts args) child :: after.
Proof.
  induction tr as [|[c x] tr IH]; intros seen before opts args after; [done|]. cbn [to_spawn]. unfold cmd_of at 1. cbn [projT1].
  destruct c; intros H; try (apply IH in H as (child & Heq); exists child; rewrite <- Heq; cbn [rev]; by rewrite <- app_assoc).
  injection H as <- <- <- <-. by exists x.
Qed.

Lemma a_replay_asks_what_was_asked_witness :
  ∃ before opts args after, to_spawn [] replay_trace = Some (before, opts, args, after) ∧ o_Prompt opts = "Look at the input." ∧
    ∃ parent text, did (GetRun "r1") (inr parent) ∈ before ∧ did (GetBlob (u_PromptRef parent)) (inr text) ∈ before ∧
      BuildArgs (declarationOf (small_book [discord "https://a"])) (mcpConfigPath (Host.o_WorkDir opts)) = inr args.
Proof.
  pose proof (exec_runs (Sg := host_sig) (world_host nothing_hidden) replay_small (after_one nothing_hidden None)) as Hr.
  fold replay_trace in Hr.
  destruct (to_spawn [] replay_trace) as [[[[before opts] args] after]|] eqn:E; [|exfalso; revert E; clear; vm_compute; discriminate].
  assert (o_Prompt opts = "Look at the input.") as Hp.
  { revert E. clear. vm_compute. intros E. injection E as <- <- <- <-. reflexivity. }
  exists before, opts, args, after. split; [reflexivity|]. split; [exact Hp|].
  destruct (to_spawn_splits _ _ _ _ _ _ E) as (child & Heq). cbn [rev app] in Heq. rewrite Heq in Hr.
  destruct (a_replay_asks_what_was_asked as_described no_schema no_complaint small_executor "r1"
    (small_book [discord "https://a"]) before after _ opts args child Hr)
    as (parent & _ & _ & text & Hg & _ & _ & _ & Hb & _ & _ & _ & _ & servers & _ & _ & _ & Ha & _).
  exists parent, text. split; [exact Hg|]. split; [exact Hb|exact Ha].
Defined.
