(* ===== verification/IndexPassage.v ===== *)
(** Passages: how a text document is cut, [passage.go] of [src/runtime/internal/index].

    A position is a byte's index in the document. *)
From S2P Require Import Prelude GoStr GoTime GoJson GoRunes.

Definition PassageBytes : nat := 1024.
Definition PassageRule : string := "text-1".

Record Passage := mkPassage { s_Source : string; s_Ordinal : nat; s_Offset : nat; s_Text : string }.

(** A stretch of a document's bytes, and whether it begins with a heading. *)
Record span := mkSpan { sp_start : nat; sp_end : nat; sp_heading : bool }.

(** [strings.TrimLeftFunc(s, unicode.IsSpace)] *)
Definition TrimLeftSpace (s : string) : string := unrunes (drop_while IsSpace (runes s)).

(** [^#{1,6} ] *)
Fixpoint hashes_then_space (room : nat) (s : string) : bool :=
  match s with
  | String c rest =>
      if Ascii.eqb c "#" then match room with O => false | S room => hashes_then_space room rest end
      else Ascii.eqb c " "
  | EmptyString => false
  end.
Definition atxHeading (line : string) : bool :=
  match line with
  | String c rest => Ascii.eqb c "#" && hashes_then_space 5 rest
  | EmptyString => false
  end.

(** ** Blocks *)

Record pending := mkPending { c_start : option nat; c_end : nat; c_heading : bool }.
Definition nothing : pending := mkPending None 0 false.

Definition flush (cur : pending) : list span :=
  match c_start cur with Some start => [mkSpan start (c_end cur) (c_heading cur)] | None => [] end.

(** The lines from the one at [at_] on.  The empty line after a last newline, where the loop has
    ended, is blank and flushes what the end flushes. *)
Fixpoint blocks_from (lines : list string) (at_ : nat) (cur : pending) : list span :=
  match lines with
  | [] => flush cur
  | line :: lines =>
      let next := (at_ + String.length line + 1)%nat in
      if String.eqb (TrimSpace line) "" then flush cur ++ blocks_from lines next nothing
      else
        let heads := atxHeading line in
        let before := if heads then flush cur else [] in
        let cur := if heads then mkPending None 0 true else cur in
        let start := default (at_ + (String.length line - String.length (TrimLeftSpace line)))%nat (c_start cur) in
        before ++ blocks_from lines next
          (mkPending (Some start) (at_ + String.length (TrimRightSpace line)) (c_heading cur))
  end.

Definition blocks (text : string) : list span := blocks_from (GoStr.split text nl) 0 nothing.

(** ** Cutting a block *)

Definition boundary (text : string) (limit : nat) : nat :=
  if (String.length text <=? limit)%nat then String.length text else rune_start_before text limit.

Definition dark (r : string) : bool := negb (IsSpace r).

Definition lastWhitespaceRun (window : string) : nat :=
  match drop_while dark (rev (runes window)) with
  | [] => 0
  | run => String.length (unrunes (rev (drop_while IsSpace run)))
  end.

(** [None] is a loop still going when the fuel is spent. *)
Fixpoint cut (fuel : nat) (text : string) (block : span) : option (list span) :=
  if (sp_end block - sp_start block <=? PassageBytes)%nat then Some [block]
  else
    match fuel with
    | O => None
    | S fuel =>
        let start := sp_start block in
        let window := slice text start (start + PassageBytes + 1) in
        let end_ :=
          (start + match lastWhitespaceRun window with
                   | O => boundary (str_drop start text) PassageBytes
                   | space => space
                   end)%nat in
        let rest := slice text end_ (sp_end block) in
        let resume := (end_ + (String.length rest - String.length (TrimLeftSpace rest)))%nat in
        cons (mkSpan start end_ (sp_heading block)) <$> cut fuel text (mkSpan resume (sp_end block) false)
    end.

Fixpoint cut_all (text : string) (spans : list span) : option (list span) :=
  match spans with
  | [] => Some []
  | block :: spans =>
      match cut (S (String.length text)) text block, cut_all text spans with
      | Some pieces, Some rest => Some (pieces ++ rest)
      | _, _ => None
      end
  end.

(** ** Packing *)

(** The open passage, when there is one, and how many were emitted before it. *)
Fixpoint pack_from (source text : string) (pieces : list span) (open : option (nat * nat)) (emitted : nat)
  : list Passage :=
  let emit start end_ := mkPassage source (emitted + 1) start (slice text start end_) in
  match pieces with
  | [] => match open with Some (start, end_) => [emit start end_] | None => [] end
  | piece :: pieces =>
      match open with
      | None => pack_from source text pieces (Some (sp_start piece, sp_end piece)) emitted
      | Some (start, end_) =>
          if sp_heading piece || (PassageBytes <? sp_end piece - start)%nat
          then emit start end_
                 :: pack_from source text pieces (Some (sp_start piece, sp_end piece)) (S emitted)
          else pack_from source text pieces (Some (start, sp_end piece)) emitted
      end
  end.

Definition pack (source text : string) (spans : list span) : option (list Passage) :=
  (λ pieces, pack_from source text pieces None 0) <$> cut_all text spans.

Definition TextPassages (source content : string) : option (list Passage) :=
  pack source content (blocks content).

Example two_passages :
  let text := "# a" +:+ nl +:+ " one " +:+ nl +:+ nl +:+ "two" +:+ nl +:+ "# b" +:+ nl in
  map (λ p, (s_Ordinal p, s_Offset p, s_Text p)) (default [] (TextPassages "doc" text)) =
  [(1%nat, 0%nat, "# a" +:+ nl +:+ " one " +:+ nl +:+ nl +:+ "two"); (2%nat, 15%nat, "# b")].
Proof. vm_compute. reflexivity. Qed.

(** ** What holds of a text document's passages: each is its document's own bytes, within the cap,
    and nothing but white space is left out. *)

(** ** Stretches of white space *)

Definition white (text : string) (a b : nat) : Prop :=
  (a <= b)%nat ∧ ∃ l, slice text a b = unrunes l ∧ Forall (λ r, IsSpace r = true) l.

Lemma white_nil text a : white text a a.
Proof. split; [done|]. exists []. split; [|constructor]. unfold slice. by rewrite Nat.sub_diag. Qed.

Lemma white_app text a b c : white text a b → white text b c → white text a c.
Proof.
  intros (Hab & l & Hl & Fl) (Hbc & m & Hm & Fm). split; [lia|]. exists (l ++ m).
  rewrite (slice_split text a b c), Hl, Hm, unrunes_app by lia. split; [done|]. by apply Forall_app.
Qed.

(** A white text at a position of the document. *)
Lemma white_at text a s l :
  has_prefix (str_drop a text) s = true → s = unrunes l → Forall (λ r, IsSpace r = true) l →
  white text a (a + String.length s).
Proof.
  intros [t Ht]%has_prefix_spec Hs Hl. split; [lia|]. exists l. split; [|done].
  unfold slice. replace (a + String.length s - a)%nat with (String.length s) by lia.
  by rewrite Ht, str_take_app.
Qed.

(** Spans in order from [a] to [b], with only white space between them. *)
Fixpoint covers (text : string) (a : nat) (spans : list (nat * nat)) (b : nat) : Prop :=
  match spans with
  | [] => white text a b
  | (s, e) :: spans => white text a s ∧ (s <= e)%nat ∧ covers text e spans b
  end.

Lemma covers_app text a spans1 b spans2 c :
  covers text a spans1 b → covers text b spans2 c → covers text a (spans1 ++ spans2) c.
Proof.
  revert a. induction spans1 as [|[s e] spans1 IH]; intros a; simpl.
  - intros Hw H. destruct spans2 as [|[s e] spans2]; simpl in *; [by eapply white_app|].
    destruct H as [Hs H]. split; [by eapply white_app|done].
  - intros (Hs & He & H1) H2. split; [done|]. split; [done|by apply IH].
Qed.

Lemma covers_le text a spans b : covers text a spans b → (a <= b)%nat.
Proof.
  revert a. induction spans as [|[s e] spans IH]; intros a; simpl; [by intros []|].
  intros ((? & _) & ? & Hc%IH). lia.
Qed.

Definition bounds (s : span) : nat * nat := (sp_start s, sp_end s).

(** ** A line *)

Lemma runes_nonempty_fuel fuel s : Forall (λ r, r ≠ "") (runes_fuel fuel s).
Proof.
  revert s. induction fuel as [|fuel IH]; intros s; [constructor|]. destruct s as [|c s]; [constructor|].
  cbn [runes_fuel]. constructor; [|apply IH].
  destruct (rune_width (String c s)) as [w|] eqn:E; simpl; [|done]. apply rune_width_pos in E.
  by destruct w; [lia|].
Qed.

Lemma TrimLeftSpace_suffix s : ∃ l, s = unrunes l +:+ TrimLeftSpace s ∧ Forall (λ r, IsSpace r = true) l.
Proof.
  unfold TrimLeftSpace. destruct (drop_while_suffix IsSpace (runes s)) as (d & Hd & Hs). exists d.
  split; [|done]. rewrite <- unrunes_app, <- Hd. symmetry. apply runes_concat.
Qed.

Lemma TrimRightSpace_white s : ∃ l, s = TrimRightSpace s +:+ unrunes l ∧ Forall (λ r, IsSpace r = true) l.
Proof.
  unfold TrimRightSpace. destruct (drop_while_suffix IsSpace (rev (runes s))) as (e & He & Hs).
  exists (rev e). split; [|by apply Forall_rev].
  rewrite <- unrunes_app. apply (f_equal (@rev string)) in He. rewrite rev_involutive, rev_app_distr in He.
  rewrite <- He. symmetry. apply runes_concat.
Qed.

Lemma drop_while_cases p l :
  (drop_while p l = [] ∧ Forall (λ r, p r = true) l) ∨
  ∃ d x m, l = d ++ x :: m ∧ drop_while p l = x :: m ∧ p x = false ∧ Forall (λ r, p r = true) d.
Proof.
  induction l as [|r l IH]; simpl; [by left|]. destruct (p r) eqn:E.
  - destruct IH as [[-> H]|(d & x & m & -> & -> & Hx & Hd)]; [left|right].
    + split; [done|by constructor].
    + exists (r :: d), x, m. split_and!; [done|done|done|by constructor].
  - right. by exists [], r, l.
Qed.

Lemma drop_while_stops p l1 x l2 : p x = false → ∃ k, drop_while p (l1 ++ x :: l2) = k ++ x :: l2.
Proof.
  intros Hx. induction l1 as [|r l1 [k IH]]; simpl; [by rewrite Hx; exists []|].
  destruct (p r); [by exists k|by exists (r :: l1)].
Qed.

(** A line is blank, or holds a character that is not white space and is the first of what
    trimming leaves on the left and within what it leaves on the right. *)
Lemma blank_or_dark line :
  (TrimSpace line = "" ∧ ∃ l, line = unrunes l ∧ Forall (λ r, IsSpace r = true) l) ∨
  (TrimSpace line ≠ "" ∧
   (String.length line - String.length (TrimLeftSpace line) < String.length (TrimRightSpace line))%nat).
Proof.
  assert (Forall (λ r, r ≠ "") (runes line)) as Hne by apply runes_nonempty_fuel.
  destruct (drop_while_cases IsSpace (runes line)) as [[E H]|(d & x & m & Hr & E & Hx & Hd)].
  { left. unfold TrimSpace. rewrite E. split; [done|]. exists (runes line). split; [|done].
    symmetry. apply runes_concat. }
  right. unfold TrimSpace, TrimRightSpace, TrimLeftSpace. rewrite E, Hr in *. clear E.
  apply Forall_app in Hne as [_ [Hxn Hm]%Forall_cons].
  assert (1 <= String.length x)%nat as Hlx by (destruct x; [done|simpl; lia]).
  assert (∀ pre, ∃ n, drop_while IsSpace (rev (pre ++ x :: m)) = rev (pre ++ x :: n)) as Hdrop.
  { intros pre. rewrite rev_app_distr. simpl. rewrite <- app_assoc. cbn [app].
    destruct (drop_while_stops IsSpace (rev m) x (rev pre) Hx) as [k Hk]. exists (rev k).
    rewrite Hk, rev_app_distr. simpl. by rewrite rev_involutive, <- app_assoc. }
  split.
  - destruct (Hdrop []) as [n Hn]. cbn [app] in Hn. rewrite Hn, rev_involutive, unrunes_cons. by destruct x.
  - destruct (Hdrop d) as [n Hn]. rewrite Hn, rev_involutive.
    rewrite <- (runes_concat line), Hr, !unrunes_app, !unrunes_cons, !str_length_app. lia.
Qed.

(** ** Blocks *)

Definition covers_spans (text : string) (a : nat) (spans : list span) (b : nat) : Prop :=
  covers text a (map bounds spans) b.

(** What is pending between two lines: nothing, or a block whose end is followed by white space. *)
Definition pending_at (text : string) (a : nat) (cur : pending) (at_ : nat) : Prop :=
  match c_start cur with
  | None => white text a at_
  | Some start => white text a start ∧ (start < c_end cur)%nat ∧ white text (c_end cur) at_
  end.

Lemma flush_covers text a cur at_ : pending_at text a cur at_ → covers_spans text a (flush cur) at_.
Proof.
  unfold pending_at, flush, covers_spans. destruct (c_start cur) as [start|]; simpl; [|done].
  intros (Hs & He & Hw). split; [done|]. split; [lia|done].
Qed.

Lemma white_slice text a at_ b l :
  (a <= at_)%nat → (at_ <= b)%nat → slice text at_ b = unrunes l → Forall (λ r, IsSpace r = true) l →
  white text at_ b.
Proof. intros _ Hb Hs Hl. split; [done|]. by exists l. Qed.

Lemma slice_at text at_ s t n : str_drop at_ text = s +:+ t → String.length s = n → slice text at_ (at_ + n) = s.
Proof.
  intros H <-. unfold slice. replace (at_ + String.length s - at_)%nat with (String.length s) by lia.
  by rewrite H, str_take_app.
Qed.

Lemma str_drop_at text at_ s t : str_drop at_ text = s +:+ t → str_drop (at_ + String.length s) text = t.
Proof. intros H. by rewrite <- str_drop_drop, H, str_drop_app. Qed.

(** A line at a position: where its white space ends and begins. *)
Lemma line_white text at_ line rest :
  str_drop at_ text = line +:+ rest →
  white text at_ (at_ + (String.length line - String.length (TrimLeftSpace line))) ∧
  white text (at_ + String.length (TrimRightSpace line)) (at_ + String.length line) ∧
  (TrimSpace line = "" → white text at_ (at_ + String.length line)).
Proof.
  intros H. destruct (TrimLeftSpace_suffix line) as (l & Hl & Fl).
  destruct (TrimRightSpace_white line) as (m & Hm & Fm).
  assert (String.length line - String.length (TrimLeftSpace line) = String.length (unrunes l))%nat as ->.
  { rewrite Hl at 1. rewrite str_length_app. lia. }
  split_and!.
  - split; [lia|]. exists l. split; [|done]. apply (slice_at _ _ _ (TrimLeftSpace line +:+ rest)); [|done].
    by rewrite str_app_assoc, <- Hl.
  - set (at' := (at_ + String.length (TrimRightSpace line))%nat).
    assert (str_drop at' text = unrunes m +:+ rest) as Hd.
    { apply str_drop_at. by rewrite str_app_assoc, <- Hm. }
    replace (at_ + String.length line)%nat with (at' + String.length (unrunes m))%nat.
    + split; [lia|]. exists m. split; [by apply (slice_at _ _ _ rest)|done].
    + unfold at'. rewrite Hm at 2. rewrite str_length_app. lia.
  - intros Hb. destruct (blank_or_dark line) as [(_ & k & Hk & Fk)|[? _]]; [|done].
    split; [lia|]. exists k. split; [|done]. rewrite <- Hk. by apply (slice_at _ _ _ rest).
Qed.

(** One line of the loop: the blocks it ends, and what is pending after it. *)
Lemma line_step text a cur at_ line rest lines :
  pending_at text a cur at_ → str_drop at_ text = line +:+ rest →
  ∃ out cur' b, blocks_from (line :: lines) at_ cur = out ++ blocks_from lines (at_ + String.length line + 1) cur' ∧
    covers_spans text a out b ∧ pending_at text b cur' (at_ + String.length line).
Proof.
  intros Hp Hd. destruct (line_white _ _ _ _ Hd) as (Hl & Hr & Hb). cbn [blocks_from].
  destruct (blank_or_dark line) as [[E _]|[E Hlt]].
  { rewrite E. exists (flush cur), nothing, at_. split; [done|]. split; [by apply flush_covers|]. by apply Hb. }
  apply String.eqb_neq in E. rewrite E. destruct (atxHeading line).
  - eexists (flush cur), _, at_. split; [reflexivity|]. split; [by apply flush_covers|].
    unfold pending_at. simpl. split; [done|]. split; [lia|done].
  - eexists [], _, a. split; [reflexivity|]. unfold pending_at in *.
    destruct (c_start cur) as [start|]; simpl in *.
    + destruct Hp as (Hs & He & Hw). split; [apply white_nil|]. split; [done|]. split; [|done].
      destruct Hw as [Hw _]. lia.
    + split; [apply white_nil|]. split; [by eapply white_app|]. split; [lia|done].
Qed.

Lemma blocks_from_covers text lines : ∀ a cur at_,
  lines ≠ [] → str_drop at_ text = join lines nl → (at_ <= String.length text)%nat → pending_at text a cur at_ →
  covers_spans text a (blocks_from lines at_ cur) (String.length text).
Proof.
  induction lines as [|line lines IH]; intros a cur at_ Hne Hd Hle Hp; [done|].
  assert (String.length text = at_ + String.length (join (line :: lines) nl))%nat as Hlen.
  { rewrite <- Hd, str_drop_length. lia. }
  destruct lines as [|line' lines].
  - simpl in Hd, Hlen. destruct (line_step text a cur at_ line "" [] Hp) as (out & cur' & b & -> & Hc & Hp').
    { by rewrite str_app_nil_r. }
    unfold covers_spans. rewrite map_app, Hlen. eapply covers_app; [exact Hc|]. by apply flush_covers.
  - rewrite join_cons in Hd, Hlen. rewrite !str_length_app in Hlen. simpl (String.length nl) in Hlen.
    destruct (line_step text a cur at_ line _ (line' :: lines) Hp Hd) as (out & cur' & b & -> & Hc & Hp').
    apply str_drop_at in Hd as Hn. apply str_drop_at in Hn as Hd'. simpl (String.length nl) in Hd'.
    unfold covers_spans. rewrite map_app. eapply covers_app; [exact Hc|]. apply IH; [done|done|lia|].
    assert (white text (at_ + String.length line) (at_ + String.length line + 1)) as Hnl.
    { split; [lia|]. exists [nl]. split; [|by repeat constructor]. by apply (slice_at _ _ _ _ 1 Hn). }
    unfold pending_at in *. destruct (c_start cur').
    + destruct Hp' as (? & ? & ?). split; [done|]. split; [done|by eapply white_app].
    + by eapply white_app.
Qed.

Lemma join_split_nl text : join (GoStr.split text nl) nl = text.
Proof.
  change nl with (str NL). rewrite split_str. induction text as [|c text IH]; [done|]. simpl.
  pose proof (split_on_ne NL text) as Hne. destruct (Ascii.eqb_spec c NL) as [->|Hc].
  - destruct (split_on NL text) as [|h t]; [done|]. rewrite join_cons, IH. done.
  - destruct (split_on NL text) as [|h t]; [done|].
    destruct t as [|h' t]; [simpl in *; by rewrite IH|]. rewrite join_cons in *. cbn [String.append]. by rewrite IH.
Qed.

Lemma blocks_cover text : covers_spans text 0 (blocks text) (String.length text).
Proof.
  apply blocks_from_covers; [|by rewrite join_split_nl|lia|apply white_nil].
  change nl with (str NL). rewrite split_str. apply split_on_ne.
Qed.

(** ** Cutting *)

Lemma str_take_len n s : (n <= String.length s)%nat → String.length (str_take n s) = n.
Proof. revert n. induction s as [|c s IH]; intros [|n] H; simpl in *; [done|lia|done|]. rewrite IH; lia. Qed.

Lemma slice_length text a b : (b <= String.length text)%nat → String.length (slice text a b) = (b - a)%nat.
Proof.
  intros H. unfold slice. destruct (decide (a <= b)%nat); [apply str_take_len; rewrite str_drop_length; lia|].
  replace (b - a)%nat with 0%nat by lia. done.
Qed.

Lemma str_drop_slice text a b : (a <= b)%nat → str_drop a text = slice text a b +:+ str_drop b text.
Proof.
  intros H. unfold slice. replace (str_drop b text) with (str_drop (b - a) (str_drop a text)).
  - symmetry. apply str_take_drop.
  - rewrite str_drop_drop. f_equal. lia.
Qed.

Lemma lastWhitespaceRun_inside window :
  lastWhitespaceRun window ≠ 0%nat → (lastWhitespaceRun window < String.length window)%nat.
Proof.
  unfold lastWhitespaceRun. destruct (drop_while_cases dark (rev (runes window))) as [[-> _]|(d & x & m & Hr & -> & Hx & _)];
    [done|]. intros _.
  assert (IsSpace x = true) as Hs by (unfold dark in Hx; by apply negb_false_iff).
  simpl. rewrite Hs. destruct (drop_while_suffix IsSpace m) as (e & He & _).
  pose proof (runes_nonempty_fuel (String.length window) window) as Hne. fold (runes window) in Hne.
  apply (f_equal (@rev string)) in Hr. rewrite rev_involutive, rev_app_distr in Hr. simpl in Hr.
  set (kept := drop_while IsSpace m) in *. rewrite He, rev_app_distr in Hr.
  apply (f_equal unrunes) in Hr as Hw. rewrite runes_concat, !unrunes_app in Hw.
  apply (f_equal String.length) in Hw. rewrite !str_length_app in Hw. rewrite Hr in Hne.
  assert (x ≠ "") as Hxn. { rewrite Forall_forall in Hne. apply Hne. set_solver. }
  assert (1 <= String.length (unrunes [x]))%nat; [|lia].
  unfold unrunes. simpl. destruct x; [done|simpl; lia].
Qed.

Definition fits (s : span) : Prop := (sp_end s - sp_start s <= PassageBytes)%nat.

(** Where a round of [cut] cuts, and where it goes on. *)
Definition cut_at (text : string) (start : nat) : nat :=
  (start + match lastWhitespaceRun (slice text start (start + PassageBytes + 1)) with
           | O => boundary (str_drop start text) PassageBytes
           | space => space
           end)%nat.
Definition cut_resume (text : string) (end_ stop : nat) : nat :=
  let rest := slice text end_ stop in
  (end_ + (String.length rest - String.length (TrimLeftSpace rest)))%nat.

Lemma cut_at_bounds text start stop :
  (PassageBytes < stop - start)%nat → (stop <= String.length text)%nat →
  (start <= cut_at text start <= start + PassageBytes)%nat.
Proof.
  intros Hlen Hle. unfold cut_at. split; [lia|].
  set (window := slice text start (start + PassageBytes + 1)).
  assert (String.length window <= PassageBytes + 1)%nat as Hw.
  { unfold window. rewrite slice_length; lia. }
  pose proof (lastWhitespaceRun_inside window) as Hin. destruct (lastWhitespaceRun window) as [|n]; [|lia].
  unfold boundary. rewrite str_drop_length.
  destruct (_ <=? _)%nat eqn:E; [apply Nat.leb_le in E; lia|].
  pose proof (rune_start_before_le (str_drop start text) PassageBytes). lia.
Qed.

Lemma cut_resume_white text end_ stop :
  (end_ <= stop)%nat → (stop <= String.length text)%nat →
  white text end_ (cut_resume text end_ stop) ∧ (cut_resume text end_ stop <= stop)%nat.
Proof.
  intros H1 H2. unfold cut_resume. set (rest := slice text end_ stop).
  destruct (line_white text end_ rest (str_drop stop text)) as (Hl & _); [by apply str_drop_slice|].
  split; [exact Hl|]. assert (String.length rest = stop - end_)%nat by by apply slice_length. lia.
Qed.

Lemma cut_step fuel text block :
  IndexPassage.cut (S fuel) text block =
  if (sp_end block - sp_start block <=? PassageBytes)%nat then Some [block]
  else
    let end_ := cut_at text (sp_start block) in
    cons (mkSpan (sp_start block) end_ (sp_heading block)) <$>
      IndexPassage.cut fuel text (mkSpan (cut_resume text end_ (sp_end block)) (sp_end block) false).
Proof. reflexivity. Qed.

Lemma cut_covers text fuel : ∀ block pieces,
  IndexPassage.cut fuel text block = Some pieces →
  (sp_start block <= sp_end block)%nat → (sp_end block <= String.length text)%nat →
  covers_spans text (sp_start block) pieces (sp_end block) ∧ Forall fits pieces.
Proof.
  induction fuel as [|fuel IH]; intros block pieces H Hs He.
  all: destruct (sp_end block - sp_start block <=? PassageBytes)%nat eqn:E.
  1, 3: simpl in H; rewrite E in H; simplify_eq; split;
    [split; [apply white_nil|split; [done|apply white_nil]]|apply Forall_singleton; by apply Nat.leb_le].
  { simpl in H. by rewrite E in H. }
  rewrite cut_step, E in H. cbv zeta in H. apply Nat.leb_gt in E.
  set (end_ := cut_at text (sp_start block)) in *.
  pose proof (cut_at_bounds text (sp_start block) (sp_end block) E He) as Hb. fold end_ in Hb.
  destruct (cut_resume_white text end_ (sp_end block)) as [Hw Hr]; [lia|done|].
  apply fmap_Some in H as (pieces' & H & ->). apply IH in H as [Hc Hf]; [|done..]. cbn [sp_start sp_end] in Hc.
  split; [|constructor; [unfold fits; simpl; lia|done]].
  unfold covers_spans in *. simpl. split; [apply white_nil|]. split; [lia|].
  change (covers text end_ ([] ++ map bounds pieces') (sp_end block)). by eapply covers_app.
Qed.

Lemma cut_all_covers text spans : ∀ a pieces,
  cut_all text spans = Some pieces → covers_spans text a spans (String.length text) →
  covers_spans text a pieces (String.length text) ∧ Forall fits pieces.
Proof.
  induction spans as [|block spans IH]; intros a pieces H Hc; cbn [cut_all] in H; [by simplify_eq|].
  destruct (IndexPassage.cut _ text block) as [first|] eqn:E1; [|done].
  destruct (cut_all text spans) as [rest|] eqn:E2; [|done]. simplify_eq.
  destruct Hc as (Hw & He & Hc). fold (map bounds) in Hc. pose proof (covers_le _ _ _ _ Hc) as Hle.
  apply cut_covers in E1 as [Hc1 Hf1]; [|done..].
  destruct (IH _ _ eq_refl Hc) as [Hc2 Hf2]. split; [|by apply Forall_app].
  unfold covers_spans. rewrite map_app. eapply covers_app; [|exact Hc2].
  change (covers text a ([] ++ map bounds first) (sp_end block)). by eapply covers_app.
Qed.

(** ** Packing *)

Definition extent (p : Passage) : nat * nat := (s_Offset p, s_Offset p + String.length (s_Text p))%nat.
Definition exact_passage (source text : string) (p : Passage) : Prop :=
  s_Source p = source ∧ (String.length (s_Text p) <= PassageBytes)%nat ∧
  s_Text p = slice text (s_Offset p) (s_Offset p + String.length (s_Text p)).

Lemma pack_from_covers source text pieces : ∀ open emitted a stop,
  (stop <= String.length text)%nat → Forall fits pieces →
  match open with
  | None => covers_spans text a pieces stop
  | Some (start, end_) => white text a start ∧ (start <= end_)%nat ∧ (end_ - start <= PassageBytes)%nat ∧
                          covers_spans text end_ pieces stop
  end →
  let passages := pack_from source text pieces open emitted in
  covers text a (map extent passages) stop ∧ Forall (exact_passage source text) passages ∧
  map s_Ordinal passages = seq (S emitted) (length passages).
Proof.
  assert (∀ n start end_, (start <= end_)%nat → (end_ - start <= PassageBytes)%nat → (end_ <= String.length text)%nat →
    let p := mkPassage source n start (slice text start end_) in
    extent p = (start, end_) ∧ exact_passage source text p) as Hemit.
  { intros n start end_ Hs Hf He p. unfold extent, exact_passage. simpl.
    rewrite slice_length by done. replace (start + (end_ - start))%nat with end_ by lia. done. }
  induction pieces as [|piece pieces IH]; intros open emitted a stop Hstop Hf Ho; cbn [pack_from]; cbv zeta.
  - destruct open as [[start end_]|]; [|by split_and!].
    destruct Ho as (Hw & Hs & Hb & Hc). apply covers_le in Hc as Hle.
    destruct (Hemit (emitted + 1)%nat start end_ Hs Hb) as [He Hx]; [lia|]. cbn [map length seq]. rewrite He, Nat.add_1_r.
    split; [exact (conj Hw (conj Hs Hc))|]. split; [by constructor|done].
  - apply Forall_cons in Hf as [Hf1 Hf]. destruct open as [[start end_]|].
    + destruct Ho as (Hw & Hs & Hb & (Hwp & Hep & Hc)). fold (map bounds) in Hc. cbn [bounds fst snd] in *.
      apply covers_le in Hc as Hle. destruct Hwp as [Hwp1 Hwp2]. destruct (_ || _) eqn:E.
      * destruct (Hemit (emitted + 1)%nat start end_ Hs Hb) as [He Hx]; [lia|].
        destruct (IH (Some (sp_start piece, sp_end piece)) (S emitted) end_ stop Hstop Hf) as (Hc' & Hx' & Ho').
        { by repeat split. }
        cbn [map length seq]. rewrite He, Ho', Nat.add_1_r.
        split; [exact (conj Hw (conj Hs Hc'))|]. split; [by constructor|done].
      * bool_facts. apply Nat.ltb_ge in H0.
        apply (IH (Some (start, sp_end piece)) emitted a stop Hstop Hf). split; [done|]. split; [lia|done].
    + destruct Ho as (Hw & Hs & Hc). fold (map bounds) in Hc. cbn [bounds] in *.
      by apply (IH (Some (sp_start piece, sp_end piece)) emitted a stop Hstop Hf).
Qed.

(** ** A cut that ends *)

(** Among any four bytes one begins a character. *)
Definition synced (text : string) : Prop :=
  ∀ n, (n + 4 <= String.length text)%nat →
    ∃ k c r, (n <= k < n + 4)%nat ∧ str_drop k text = String c r ∧ RuneStart c = true.

Lemma rune_width_start c s w :
  rune_width (String c s) = Some w → RuneStart c = true ∧ (w <= 4)%nat ∧ (w <= String.length (String c s))%nat.
Proof.
  assert (∀ lo hi, (lo = 0 ∧ hi = 127) ∨ (194 <= lo ∧ hi <= 244) → in_range lo hi c = true → RuneStart c = true) as Hstart.
  { intros lo hi Hr H. unfold in_range in H. apply andb_prop in H as [H1 H2]. apply Z.leb_le in H1, H2.
    assert (implb ((byte_of c <? 128) || (194 <=? byte_of c)) (RuneStart c) = true) as Hall.
    { apply (ascii_forall_spec (λ c, implb ((byte_of c <? 128) || (194 <=? byte_of c)) (RuneStart c)) c).
      vm_compute. reflexivity. }
    destruct (RuneStart c); [done|]. rewrite implb_false_r in Hall. apply negb_true_iff, orb_false_iff in Hall as [Ha Hb].
    apply Z.ltb_ge in Ha. apply Z.leb_gt in Hb. lia. }
  unfold rune_width. destruct (byte_of c <? 128) eqn:E.
  { intros [= <-]. split; [|simpl; lia]. apply (Hstart 0 127); [by left|]. unfold in_range.
    apply andb_true_intro. split; apply Z.leb_le; [|apply Z.ltb_lt in E; lia].
    unfold byte_of. lia. }
  destruct s as [|b s]; [done|]. destruct (in_range 194 223 c) eqn:E2.
  { destruct (in_range 128 191 b); [|done]. intros [= <-]. split; [apply (Hstart 194 223); [lia|done]|simpl; lia]. }
  destruct s as [|d s]; [done|]. destruct (in_range 224 239 c) eqn:E3.
  { destruct (_ && _); [|done]. intros [= <-]. split; [apply (Hstart 224 239); [lia|done]|simpl; lia]. }
  destruct (in_range 240 244 c) eqn:E4; [|done]. destruct s as [|e s]; [done|].
  destruct (_ && _); [|done]. intros [= <-]. split; [apply (Hstart 240 244); [lia|done]|simpl; lia].
Qed.

Lemma valid_synced fuel : ∀ text, valid_fuel fuel text = true → synced text.
Proof.
  induction fuel as [|fuel IH]; intros text H n Hn; (destruct text as [|c s]; [simpl in Hn; lia|]); [done|].
  cbn [valid_fuel] in H. destruct (rune_width (String c s)) as [w|] eqn:E; [|done].
  pose proof (rune_width_pos _ _ E) as Hpos. destruct (rune_width_start _ _ _ E) as (Hc & Hw & Hlen).
  destruct (decide (n = 0)%nat) as [->|Hn0]; [exists 0%nat, c, s; split; [lia|done]|].
  destruct (decide (n < w)%nat).
  - assert (0 < String.length (str_drop w (String c s)))%nat as Hl.
    { rewrite str_drop_length. simpl in *. lia. }
    destruct (str_drop w (String c s)) as [|d t] eqn:Ed; [simpl in Hl; lia|].
    assert (∃ w', rune_width (String d t) = Some w') as [w' Ew'].
    { destruct fuel; [done|]. cbn [valid_fuel] in H. destruct (rune_width (String d t)); [by eexists|done]. }
    apply rune_width_start in Ew' as [Hd _]. exists w, d, t. split; [lia|done].
  - destruct (IH _ H (n - w)%nat) as (k & d & t & Hk & Hd & Hs).
    { rewrite str_drop_length. simpl in *. lia. }
    exists (k + w)%nat, d, t. split; [lia|]. rewrite str_drop_drop in Hd. by rewrite Nat.add_comm.
Qed.

Lemma rune_start_before_ge text limit k c r :
  (k <= limit)%nat → str_drop k text = String c r → RuneStart c = true → (k <= rune_start_before text limit)%nat.
Proof.
  intros Hk Hd Hc. induction limit as [|limit IH]; [lia|]. cbn [rune_start_before].
  destruct (decide (k = S limit)) as [->|]; [by rewrite Hd, Hc|].
  destruct (str_drop (S limit) text) as [|d t]; [done|]. destruct (RuneStart d); [lia|]. apply IH. lia.
Qed.

Lemma cut_total text : synced text → ∀ fuel block,
  (sp_end block <= String.length text)%nat → (sp_end block - sp_start block <= fuel)%nat →
  is_Some (IndexPassage.cut fuel text block).
Proof.
  intros Hsync. induction fuel as [|fuel IH]; intros block He Hf.
  { simpl. assert ((sp_end block - sp_start block <=? PassageBytes)%nat = true) as -> by (apply Nat.leb_le; unfold PassageBytes; lia).
    done. }
  rewrite cut_step. destruct (_ <=? _)%nat eqn:E; [done|]. apply Nat.leb_gt in E. cbv zeta.
  apply fmap_is_Some, IH; [done|]. cbn [sp_start sp_end].
  assert (sp_start block < cut_at text (sp_start block))%nat as Hp.
  { unfold cut_at. destruct (lastWhitespaceRun _) as [|n]; [|lia]. unfold boundary.
    rewrite str_drop_length. destruct (_ <=? _)%nat eqn:El; [apply Nat.leb_le in El; unfold PassageBytes in *; lia|].
    destruct (Hsync (sp_start block + 1020)%nat) as (k & c & r & Hk & Hd & Hc); [unfold PassageBytes in *; lia|].
    assert (1 <= rune_start_before (str_drop (sp_start block) text) PassageBytes)%nat; [|lia].
    transitivity (k - sp_start block)%nat; [lia|].
    apply (rune_start_before_ge _ _ _ c r); [unfold PassageBytes; lia| |done].
    rewrite str_drop_drop. by replace (sp_start block + (k - sp_start block))%nat with k by lia. }
  unfold cut_resume. lia.
Qed.

Lemma cut_all_total text spans : synced text → ∀ a, covers_spans text a spans (String.length text) →
  is_Some (cut_all text spans).
Proof.
  intros Hsync. induction spans as [|block spans IH]; intros a Hc; [done|]. destruct Hc as (_ & He & Hc).
  fold (map bounds) in Hc. apply covers_le in Hc as Hle. cbn [cut_all].
  destruct (cut_total text Hsync (S (String.length text)) block) as [pieces ->]; [done|simpl in *; lia|].
  by destruct (IH _ Hc) as [rest ->].
Qed.

(** ** A document's passages *)

(** C26: A text document is cut into passages, whatever text it holds: each is its document's own
    bytes at its offset, at most 1024 of them; they are numbered from one and stand in order
    without overlapping; and what lies before, between and after them is white space and
    nothing else, so that no word of the document is left out of the index. *)
Theorem a_document_is_cut_whole source content :
  Valid content = true →
  ∃ passages, TextPassages source content = Some passages ∧
    Forall (exact_passage source content) passages ∧
    map s_Ordinal passages = seq 1 (length passages) ∧
    covers content 0 (map extent passages) (String.length content).
Proof.
  intros Hv. unfold TextPassages, pack. pose proof (blocks_cover content) as Hb.
  destruct (cut_all_total content (blocks content) (valid_synced _ _ Hv) 0 Hb) as [pieces Hp]. rewrite Hp.
  apply cut_all_covers with (a := 0%nat) in Hp as [Hc Hf]; [|done].
  eexists. split; [reflexivity|].
  destruct (pack_from_covers source content pieces None 0 0 (String.length content) (le_n _) Hf Hc) as (H1 & H2 & H3).
  split; [exact H2|]. split; [exact H3|exact H1].
Qed.

Lemma a_document_is_cut_whole_witness :
  let text := "# fans" +:+ nl +:+ " one " +:+ nl +:+ nl +:+ "two" +:+ nl in
  ∃ passages, TextPassages "fans.md" text = Some passages ∧ length passages = 1%nat ∧
    covers text 0 (map extent passages) (String.length text).
Proof.
  intros text. destruct (a_document_is_cut_whole "fans.md" text) as (passages & Hp & _ & _ & Hc).
  { vm_compute. reflexivity. }
  exists passages. split; [exact Hp|]. split; [|exact Hc].
  revert Hp. clear. vm_compute. intros Hp. injection Hp as <-. reflexivity.
Defined.
