(* ===== verification/GoJsonRead.v ===== *)
(** [encoding/json] reads back what it wrote: a string, and an object whose members are
    strings. *)
From S2P Require Import Prelude GoStr GoTime Playbook Gate GoJson GoMarshal.

(** What [Marshal] keeps of a string: its invalid bytes become the replacement character. *)
Fixpoint kept_text (fuel : nat) (s : string) : string :=
  match fuel, s with
  | O, _ | _, EmptyString => ""
  | S fuel, String c rest =>
      if byte_of c <? 128 then String c (kept_text fuel rest)
      else
        match rune_width s with
        | None => encode_rune replacement_char +:+ kept_text fuel rest
        | Some n => str_take n s +:+ kept_text fuel (str_drop n s)
        end
  end.
Definition kept (s : string) : string := kept_text (String.length s) s.

Definition then_read (prefix : string) (r : option (string * string)) : option (string * string) :=
  match r with Some (t, rest) => Some (prefix +:+ t, rest) | None => None end.

Lemma marshal_char_reads c tail fuel :
  (byte_of c <? 128) = true → json_string (S fuel) (marshal_char c +:+ tail) = then_read (str c) (json_string fuel tail).
Proof. destruct c as [[] [] [] [] [] [] [] []]; (discriminate || (intros _; reflexivity)). Qed.

Lemma marshal_char_length c : (1 <= String.length (marshal_char c))%nat.
Proof. unfold marshal_char. repeat case_match; simpl; lia. Qed.

Lemma rune_width_prefix s n tail :
  rune_width s = Some n → rune_width (str_take n s +:+ tail) = Some n ∧ String.length (str_take n s) = n.
Proof.
  destruct s as [|a s]; [discriminate|]. cbn [rune_width]. destruct (byte_of a <? 128) eqn:Ea.
  { intros [= <-]. simpl. by rewrite Ea. }
  destruct s as [|b s]; [discriminate|]. destruct (in_range 194 223 a) eqn:E2.
  { destruct (in_range 128 191 b) eqn:Eb; [|discriminate]. intros [= <-].
    cbn [str_take String.append rune_width String.length]. by rewrite Ea, E2, Eb. }
  destruct s as [|d s]; [discriminate|]. destruct (in_range 224 239 a) eqn:E3.
  { destruct (_ && _) eqn:Eb; [|discriminate]. intros [= <-].
    cbn [str_take String.append rune_width String.length]. by rewrite Ea, E2, E3, Eb. }
  destruct (in_range 240 244 a) eqn:E4; [|discriminate]. destruct s as [|e s]; [discriminate|].
  destruct (_ && _) eqn:Eb; [|discriminate]. intros [= <-].
  cbn [str_take String.append rune_width String.length]. by rewrite Ea, E2, E3, E4, Eb.
Qed.

(** A rune past ASCII is no quote, no backslash and no control. *)
Lemma wide_byte c : (byte_of c <? 128) = false →
  Ascii.eqb c DQ = false ∧ Ascii.eqb c BS = false ∧ (byte_of c <? 32) = false.
Proof. destruct c as [[] [] [] [] [] [] [] []]; (discriminate || (intros _; done)). Qed.

Lemma rune_reads s n tail fuel :
  match s with String c _ => (byte_of c <? 128) = false | EmptyString => False end →
  rune_width s = Some n → json_string (S fuel) (str_take n s +:+ tail) = then_read (str_take n s) (json_string fuel tail).
Proof.
  destruct s as [|c s]; [done|]. intros Hc Hw. destruct (rune_width_prefix _ _ tail Hw) as [Hp Hl].
  destruct (wide_byte c Hc) as (H1 & H2 & H3). destruct n as [|n]; [cbn [str_take String.append rune_width] in Hp; destruct tail; [done|]|].
  - exfalso. cbn [rune_width] in Hw. rewrite Hc in Hw. repeat case_match; discriminate.
  - cbn [str_take String.append] in *. cbn [json_string]. rewrite H1, H2, H3, Hp.
    assert (str_take (S n) (String c (str_take n s +:+ tail)) = String c (str_take n s)) as ->.
    { rewrite <- Hl at 1. exact (str_take_app (String c (str_take n s)) tail). }
    assert (str_drop (S n) (String c (str_take n s +:+ tail)) = tail) as ->.
    { rewrite <- Hl at 1. exact (str_drop_app (String c (str_take n s)) tail). }
    done.
Qed.

Lemma escape_reads (e : string) (t : string) tail fuel :
  (e = "ufffd" ∧ t = encode_rune replacement_char) ∨ (e = "u2028" ∧ t = line_separator) ∨ (e = "u2029" ∧ t = paragraph_separator) →
  json_string (S fuel) (String BS e +:+ tail) = then_read t (json_string fuel tail).
Proof. by intros [[-> ->]|[[-> ->]|[-> ->]]]. Qed.

Lemma json_string_reads n : ∀ s rest fuel,
  (String.length s <= n)%nat → (String.length (marshal_text n s) < fuel)%nat →
  json_string fuel (marshal_text n s +:+ String DQ rest) = Some (kept_text n s, rest).
Proof.
  induction n as [|n IH]; intros s rest fuel Hs Hf.
  { destruct s; [|simpl in Hs; lia]. destruct fuel; [simpl in Hf; lia|]. done. }
  destruct s as [|c s]; [destruct fuel; [simpl in Hf; lia|done]|].
  assert (∀ (piece kept_ : string) s', (1 <= String.length piece)%nat → (String.length s' <= n)%nat →
    (∀ tail fuel, json_string (S fuel) (piece +:+ tail) = then_read kept_ (json_string fuel tail)) →
    (String.length (piece +:+ marshal_text n s') < fuel)%nat →
    json_string fuel ((piece +:+ marshal_text n s') +:+ String DQ rest) = Some (kept_ +:+ kept_text n s', rest)) as Hstep.
  { intros piece kept_ s' Hp Hs' Hr Hl. destruct fuel as [|fuel]; [lia|]. rewrite <- str_app_assoc, Hr, IH; [done|done|].
    rewrite str_length_app in Hl. lia. }
  cbn [marshal_text kept_text] in *. simpl in Hs. destruct (byte_of c <? 128) eqn:Ec.
  - apply (Hstep _ (str c)); [apply marshal_char_length|lia|by intros; apply marshal_char_reads|done].
  - destruct (rune_width (String c s)) as [w|] eqn:Ew.
    + assert (w ≠ 0%nat) as Hw0.
      { intros ->. cbn [rune_width] in Ew. rewrite Ec in Ew. repeat case_match; discriminate. }
      destruct (rune_width_prefix _ _ "" Ew) as [_ Hwl].
      assert (String.length (str_drop w (String c s)) <= n)%nat.
      { pose proof (f_equal String.length (str_take_drop w (String c s))) as Hl.
        rewrite str_length_app, Hwl in Hl. simpl String.length in Hl. lia. }
      destruct (String.eqb_spec (str_take w (String c s)) line_separator) as [->|];
        [|destruct (String.eqb_spec (str_take w (String c s)) paragraph_separator) as [->|]].
      * apply (Hstep (String BS "u2028")); [simpl; lia|done|intros; apply escape_reads; auto|done].
      * apply (Hstep (String BS "u2029")); [simpl; lia|done|intros; apply escape_reads; auto|done].
      * apply (Hstep _ (str_take w (String c s))); [rewrite Hwl; lia|done|intros; by apply rune_reads|done].
    + apply (Hstep (String BS "ufffd")); [simpl; lia|lia|intros; apply escape_reads; auto|done].
Qed.

Lemma marshal_string_eq s : marshal_string s = String DQ (marshal_text (String.length s) s +:+ dq).
Proof. done. Qed.

Lemma json_value_string fuel depth s rest :
  (String.length (marshal_text (String.length s) s) < fuel)%nat →
  json_value (S fuel) depth (marshal_string s +:+ rest) = Some (AString (kept s), rest).
Proof.
  intros Hf. rewrite marshal_string_eq. cbn [String.append json_value].
  assert (∀ x, skip_space (String DQ x) = String DQ x) as -> by done.
  rewrite <- str_app_assoc. change (dq +:+ rest) with (String DQ rest). unfold DQ at 1. cbv beta iota.
  by rewrite json_string_reads.
Qed.

Lemma marshal_string_length s : String.length (marshal_string s) = S (S (String.length (marshal_text (String.length s) s))).
Proof. rewrite marshal_string_eq. simpl. rewrite str_length_app. simpl. lia. Qed.

Lemma raw_value_string s rest : raw_value (marshal_string s +:+ rest) = Some (marshal_string s, rest).
Proof.
  unfold raw_value. assert (skip_space (marshal_string s +:+ rest) = marshal_string s +:+ rest) as -> by done.
  rewrite json_value_string by (rewrite str_length_app, marshal_string_length; lia).
  rewrite str_length_app. replace (_ + _ - _)%nat with (String.length (marshal_string s)) by lia.
  by rewrite str_take_app.
Qed.

Lemma Unmarshal_string s : Unmarshal (marshal_string s) = Some (AString (kept s)).
Proof.
  unfold Unmarshal. rewrite <- (str_app_nil_r (marshal_string s)) at 2.
  rewrite json_value_string by (rewrite marshal_string_length; lia). done.
Qed.

Lemma decode_string_reads s old : decode_string (marshal_string s) old = Some (kept s).
Proof. unfold decode_string. by rewrite Unmarshal_string. Qed.

(** ** An object of strings *)

Definition member_text (m : string * string) : string := marshal_string (fst m) +:+ ":" +:+ marshal_string (snd m).
Definition object_text (l : list (string * string)) : string := "{" +:+ join (map member_text l) "," +:+ "}".

Lemma raw_members_go_reads l : ∀ fuel rest,
  l ≠ [] → (length l <= fuel)%nat →
  raw_members_go fuel (join (map member_text l) "," +:+ String "}" rest) =
  Some (map (λ m, (kept (fst m), marshal_string (snd m))) l, rest).
Proof.
  induction l as [|[k v] l IH]; intros fuel rest Hl Hf; [done|]. destruct fuel as [|fuel]; [simpl in Hf; lia|].
  assert (∀ tail, json_string (S (String.length ((marshal_text (String.length k) k +:+ dq) +:+ tail)))
    ((marshal_text (String.length k) k +:+ dq) +:+ tail) = Some (kept k, tail)) as Hkey.
  { intros tail. rewrite <- str_app_assoc. change (dq +:+ tail) with (String DQ tail). apply json_string_reads; [done|].
    rewrite str_length_app. lia. }
  assert (∀ tail, member_text (k, v) +:+ tail =
    String DQ ((marshal_text (String.length k) k +:+ dq) +:+ String ":" (marshal_string v +:+ tail))) as Hm.
  { intros tail. unfold member_text. cbn [fst snd]. rewrite marshal_string_eq. cbn [String.append]. f_equal.
    rewrite <- !str_app_assoc. done. }
  destruct l as [|m l].
  - cbn [map join String.concat fst snd]. rewrite Hm. cbn [raw_members_go].
    assert (∀ x, skip_space (String DQ x) = String DQ x) as -> by done. unfold DQ at 1. cbv beta iota.
    rewrite Hkey. cbv beta iota. assert (∀ x, skip_space (String ":" x) = String ":" x) as -> by done. cbv beta iota.
    by rewrite raw_value_string.
  - cbn [map]. rewrite join_cons. replace ((member_text (k, v) +:+ "," +:+ join (member_text m :: map member_text l) ",") +:+ String "}" rest)
      with (member_text (k, v) +:+ String "," (join (map member_text (m :: l)) "," +:+ String "}" rest))
      by (rewrite <- !str_app_assoc; done).
    rewrite Hm. cbn [raw_members_go].
    assert (∀ x, skip_space (String DQ x) = String DQ x) as -> by done. unfold DQ at 1. cbv beta iota.
    rewrite Hkey. cbv beta iota. assert (∀ x, skip_space (String ":" x) = String ":" x) as -> by done. cbv beta iota.
    rewrite raw_value_string. cbv beta iota. assert (∀ x, skip_space (String "," x) = String "," x) as -> by done. cbv beta iota.
    rewrite IH; [done|done|simpl in *; lia].
Qed.

Lemma members_quoted l tail : l ≠ [] → ∃ x, join (map member_text l) "," +:+ tail = String DQ x.
Proof.
  destruct l as [|[k v] [|m l]]; [done| |]; intros _; cbn [map]; rewrite ?join_cons; unfold member_text at 1;
    rewrite marshal_string_eq; eexists; reflexivity.
Qed.

Lemma members_length l : (length l <= String.length (join (map member_text l) ","))%nat.
Proof.
  induction l as [|m l IH]; [simpl; lia|]. assert (1 <= String.length (member_text m))%nat.
  { unfold member_text. rewrite marshal_string_eq. simpl. lia. }
  destruct l as [|m' l]; [simpl in *; lia|]. cbn [map]. rewrite join_cons, !str_length_app. simpl in *. lia.
Qed.

Lemma object_reads l : l ≠ [] →
  raw_members (object_text l) = Some (map (λ m, (kept (fst m), marshal_string (snd m))) l).
Proof.
  intros Hl. unfold raw_members, object_text.
  assert (∀ x, skip_space ("{" +:+ x) = "{" +:+ x) as -> by done. cbn [String.append].
  pose proof (raw_members_go_reads l (String.length (String "{" (join (map member_text l) "," +:+ "}"))) "" Hl) as Hg.
  destruct (members_quoted l "}" Hl) as [x Hx]. change (String "}" "") with "}" in Hg. rewrite Hx in *.
  assert (skip_space (String DQ x) = String DQ x) as -> by done. unfold DQ at 1. cbv beta iota.
  rewrite Hg; [done|]. pose proof (members_length l) as Hm. rewrite <- Hx. simpl. rewrite str_length_app. lia.
Qed.

(** An object's text is one value. *)
Lemma json_value_object l fuel depth rest :
  l ≠ [] → (maxNestingDepth <? depth + 1) = false →
  (S (String.length (object_text l)) <= fuel)%nat →
  ∃ entries, json_value fuel depth (object_text l +:+ rest) = Some (AMap entries, rest).
Proof.
  intros Hl Hd Hf. assert (String.length (object_text l) = S (S (String.length (join (map member_text l) ",")))) as Hol.
  { unfold object_text. simpl. rewrite str_length_app. simpl. lia. }
  rewrite Hol in Hf. destruct fuel as [|[|fuel]]; [lia..|]. unfold object_text.
  replace (("{" +:+ join (map member_text l) "," +:+ "}") +:+ rest)
    with (String "{" (join (map member_text l) "," +:+ String "}" rest)) by (cbn [String.append]; by rewrite <- str_app_assoc).
  remember (S fuel) as fuel1 eqn:Ef. cbn [json_value].
  assert (∀ x, skip_space (String "{" x) = String "{" x) as -> by done. cbv beta iota. rewrite Hd.
  destruct (members_quoted l (String "}" rest) Hl) as [x Hx].
  assert (skip_space (join (map member_text l) "," +:+ String "}" rest) = join (map member_text l) "," +:+ String "}" rest) as Hsk
    by (by rewrite Hx).
  match goal with |- context [match skip_space _ with EmptyString => ?F _ _ _ | _ => _ end] => set (M := F) end.
  assert (match skip_space (join (map member_text l) "," +:+ String "}" rest) with
    | String "}" rest' => Some (AMap [], rest')
    | _ => M fuel1 [] (join (map member_text l) "," +:+ String "}" rest)
    end = M fuel1 [] (join (map member_text l) "," +:+ String "}" rest)) as ->.
  { rewrite Hsk, Hx. done. }
  assert (String.length (join (map member_text l) ",") <= fuel)%nat as Hlen by lia.
  clear Hsk Hx x Hf Hol. pose proof (members_length l) as Hn.
  assert (∀ l n acc, l ≠ [] → (length l <= n)%nat → (String.length (join (map member_text l) ",") <= fuel)%nat →
    ∃ entries, M n acc (join (map member_text l) "," +:+ String "}" rest) = Some (AMap entries, rest)) as HM;
    [|apply HM; [done|lia|done]].
  clear l Hl Hlen Hn. induction l as [|[k v] l IH]; intros n acc Hl Hn Hlen; [done|].
  destruct n as [|n]; [simpl in Hn; lia|].
  assert (∀ tail, member_text (k, v) +:+ tail =
    String DQ ((marshal_text (String.length k) k +:+ dq) +:+ String ":" (marshal_string v +:+ tail))) as Hm.
  { intros tail. unfold member_text. cbn [fst snd]. rewrite marshal_string_eq. cbn [String.append]. f_equal.
    rewrite <- !str_app_assoc. done. }
  assert (String.length (member_text (k, v)) <= fuel)%nat as Hml.
  { destruct l; [done|]. cbn [map] in Hlen. rewrite join_cons, str_length_app in Hlen. lia. }
  assert (∀ tail, json_string fuel1 ((marshal_text (String.length k) k +:+ dq) +:+ tail) = Some (kept k, tail)) as Hkey.
  { intros tail. rewrite <- str_app_assoc. change (dq +:+ tail) with (String DQ tail). apply json_string_reads; [done|].
    unfold member_text in Hml. cbn [fst snd] in Hml. rewrite !str_length_app, marshal_string_length in Hml. lia. }
  assert (∀ tail, json_value fuel1 (depth + 1) (marshal_string v +:+ tail) = Some (AString (kept v), tail)) as Hval.
  { intros tail. rewrite Ef. apply json_value_string.
    unfold member_text in Hml. cbn [fst snd] in Hml. rewrite !str_length_app, !marshal_string_length in Hml. lia. }
  destruct l as [|m l].
  - cbn [map join String.concat]. rewrite Hm. unfold M. cbn iota.
    assert (∀ x, skip_space (String DQ x) = String DQ x) as -> by done. unfold DQ at 1. cbv beta iota.
    rewrite Hkey. cbv beta iota. assert (∀ x, skip_space (String ":" x) = String ":" x) as -> by done. cbv beta iota.
    rewrite Hval. eexists. reflexivity.
  - cbn [map] in Hlen. rewrite join_cons, !str_length_app in Hlen.
    edestruct (IH n) as [entries He]; [done|simpl in *; lia|cbn [map]; lia|].
    exists entries. rewrite <- He. cbn [map]. rewrite join_cons.
    replace ((member_text (k, v) +:+ "," +:+ join (member_text m :: map member_text l) ",") +:+ String "}" rest)
      with (member_text (k, v) +:+ String "," (join (member_text m :: map member_text l) "," +:+ String "}" rest))
      by (rewrite <- !str_app_assoc; done).
    rewrite Hm. unfold M at 1. cbn iota.
    assert (∀ x, skip_space (String DQ x) = String DQ x) as -> by done. unfold DQ at 1. cbv beta iota.
    rewrite Hkey. cbv beta iota. assert (∀ x, skip_space (String ":" x) = String ":" x) as -> by done. cbv beta iota.
    rewrite Hval. cbv beta iota. assert (∀ x, skip_space (String "," x) = String "," x) as -> by done. cbv beta iota.
    reflexivity.
Qed.

Lemma Unmarshal_object l : l ≠ [] → ∃ entries, Unmarshal (object_text l) = Some (AMap entries).
Proof.
  intros Hl. unfold Unmarshal. destruct (json_value_object l (S (String.length (object_text l))) 0 "" Hl) as [entries He];
    [done|lia|]. rewrite str_app_nil_r in He. exists entries. by rewrite He.
Qed.

(** ** Text that needs no escape *)

Definition unescaped (c : ascii) : bool := String.eqb (marshal_char c) (str c) && (byte_of c <? 128).

Lemma marshal_text_plain n : ∀ s, (String.length s <= n)%nat → str_all unescaped s = true → marshal_text n s = s.
Proof.
  induction n as [|n IH]; intros s Hs Hp; [by destruct s; [|simpl in Hs; lia]|].
  destruct s as [|c s]; [done|]. cbn [str_all] in Hp. apply andb_prop in Hp as [Hc Hp].
  apply andb_prop in Hc as [Hc%String.eqb_eq Hb]. cbn [marshal_text]. rewrite Hb, Hc, IH; [done|simpl in Hs; lia|done].
Qed.

Lemma marshal_string_plain s : str_all unescaped s = true → marshal_string s = dq +:+ s +:+ dq.
Proof. intros H. unfold marshal_string. by rewrite marshal_text_plain. Qed.
