(* ===== verification/GoJsonTokens.v ===== *)
(** [encoding/json] read token by token: [Decoder.Token] with [UseNumber].

    A document's grammar is [json_text]; the tokens of a text of it are those of its tree. *)
From S2P Require Import Prelude GoStr GoTime Playbook GoJson GoRunes.
From S2P Require Import GoMarshal GoJsonRead.

(** [Token]'s answers; a boolean and null are one case for who reads neither. *)
Inductive token :=
| TDelim (c : ascii) | TString (s : string) | TNumber (literal : string) | TOther.

Inductive tokenState :=
| tokenTopValue | tokenArrayStart | tokenArrayValue | tokenArrayComma
| tokenObjectStart | tokenObjectKey | tokenObjectColon | tokenObjectValue | tokenObjectComma.

Record decoder := mkDecoder { d_state : tokenState; d_stack : list tokenState; d_unread : string }.

Definition NewDecoder (text : string) : decoder := mkDecoder tokenTopValue [] text.

Definition tokenValueAllowed (state : tokenState) : bool :=
  match state with
  | tokenTopValue | tokenArrayStart | tokenArrayValue | tokenObjectValue => true
  | _ => false
  end.

Definition tokenValueEnd (state : tokenState) : tokenState :=
  match state with
  | tokenArrayStart | tokenArrayValue => tokenArrayComma
  | tokenObjectValue => tokenObjectComma
  | state => state
  end.

(** [Decode] of a value that begins with neither a bracket nor a brace. *)
Definition plain (s : string) : option (token * string) :=
  match cut_prefix s "true", cut_prefix s "false", cut_prefix s "null" with
  | Some rest, _, _ | _, Some rest, _ | _, _, Some rest => Some (TOther, rest)
  | _, _, _ => match json_number s with Some (n, rest) => Some (TNumber n, rest) | None => None end
  end.
Definition scalar (s : string) : option (token * string) :=
  match s with
  | String "034" rest =>
      match json_string (S (String.length rest)) rest with
      | Some (t, rest) => Some (TString t, rest)
      | None => None
      end
  | s => plain s
  end.

(** [None] is an error, the end of the text among them.  A comma and a colon are read and the
    loop goes round once more. *)
Fixpoint Token_go (fuel : nat) (dec : decoder) : option (token * decoder) :=
  match fuel with
  | O => None
  | S fuel =>
      let '(mkDecoder state stack unread) := dec in
      match skip_space unread with
      | EmptyString => None
      | String c rest =>
          if Ascii.eqb c "[" then
            if tokenValueAllowed state
            then Some (TDelim c, mkDecoder tokenArrayStart (state :: stack) rest) else None
          else if Ascii.eqb c "]" then
            match state, stack with
            | (tokenArrayStart | tokenArrayComma), outer :: stack =>
                Some (TDelim c, mkDecoder (tokenValueEnd outer) stack rest)
            | _, _ => None
            end
          else if Ascii.eqb c "{" then
            if tokenValueAllowed state
            then Some (TDelim c, mkDecoder tokenObjectStart (state :: stack) rest) else None
          else if Ascii.eqb c "}" then
            match state, stack with
            | (tokenObjectStart | tokenObjectComma), outer :: stack =>
                Some (TDelim c, mkDecoder (tokenValueEnd outer) stack rest)
            | _, _ => None
            end
          else if Ascii.eqb c ":" then
            match state with
            | tokenObjectColon => Token_go fuel (mkDecoder tokenObjectValue stack rest)
            | _ => None
            end
          else if Ascii.eqb c "," then
            match state with
            | tokenArrayComma => Token_go fuel (mkDecoder tokenArrayValue stack rest)
            | tokenObjectComma => Token_go fuel (mkDecoder tokenObjectKey stack rest)
            | _ => None
            end
          else
            match state with
            | tokenObjectStart | tokenObjectKey =>
                if Ascii.eqb c DQ then
                  match scalar (String c rest) with
                  | Some (t, rest) => Some (t, mkDecoder tokenObjectColon stack rest)
                  | None => None
                  end
                else None
            | state =>
                if tokenValueAllowed state then
                  match scalar (String c rest) with
                  | Some (t, rest) => Some (t, mkDecoder (tokenValueEnd state) stack rest)
                  | None => None
                  end
                else None
            end
      end
  end.

(** A comma or a colon is never followed by another, so that the second round answers. *)
Definition Token (dec : decoder) : option (token * decoder) := Token_go 2 dec.

(** Every token up to the end of the text or an error. *)
Fixpoint all_tokens (fuel : nat) (dec : decoder) : list token :=
  match fuel with
  | O => []
  | S fuel => match Token dec with Some (t, dec) => t :: all_tokens fuel dec | None => [] end
  end.

Example tokens_of_a_document :
  let text := "{" +:+ json_quote "a" +:+ ": [1.5, {}, true], " +:+ json_quote "b" +:+ ": " +:+ json_quote "x" +:+ "} 2" in
  all_tokens 100 (NewDecoder text) =
    [TDelim "{"; TString "a"; TDelim "["; TNumber "1.5"; TDelim "{"; TDelim "}"; TOther; TDelim "]";
     TString "b"; TString "x"; TDelim "}"; TNumber "2"].
Proof. vm_compute. reflexivity. Qed.

Example tokens_up_to_an_error :
  map (λ s, all_tokens 100 (NewDecoder s)) ["[1,]"; "[1 2]"; "]"; "{1:2}"; "[,"; "[tru]"] =
  [[TDelim "["; TNumber "1"]; [TDelim "["; TNumber "1"]; []; [TDelim "{"]; [TDelim "["]; [TDelim "["]].
Proof. vm_compute. reflexivity. Qed.

(** ** A document and its tokens *)

(** A value with everything in the order it is written, a key met twice among it. *)
Inductive tree := TLeaf (t : token) | TArray (items : list tree) | TObject (members : list (string * tree)).

Section TreeInd.
Context (P : tree → Prop) (Hleaf : ∀ t, P (TLeaf t)) (Harray : ∀ items, Forall P items → P (TArray items))
  (Hobject : ∀ members, Forall (λ m, P (snd m)) members → P (TObject members)).
Fixpoint tree_nested_ind (t : tree) : P t :=
  match t with
  | TLeaf t => Hleaf t
  | TArray items =>
      Harray items ((fix go l : Forall P l :=
                       match l with [] => Forall_nil_2 P | t :: l => Forall_cons_2 P t l (tree_nested_ind t) (go l) end) items)
  | TObject members =>
      Hobject members ((fix go l : Forall (λ m, P (snd m)) l :=
                          match l with
                          | [] => Forall_nil_2 _
                          | m :: l => Forall_cons_2 (λ m, P (snd m)) m l (tree_nested_ind (snd m)) (go l)
                          end) members)
  end.
End TreeInd.

Fixpoint flat (t : tree) : list token :=
  match t with
  | TLeaf t => [t]
  | TArray items => TDelim "[" :: concat (map flat items) ++ [TDelim "]"]
  | TObject members => TDelim "{" :: concat (map (λ '(key, t), TString key :: flat t) members) ++ [TDelim "}"]
  end.

(** The value a text begins with, and what follows it. *)
Inductive json_text : string → tree → string → Prop :=
| text_scalar s t rest : scalar (skip_space s) = Some (t, rest) → json_text s (TLeaf t) rest
| text_array_empty s r rest :
    skip_space s = String "[" r → skip_space r = String "]" rest → json_text s (TArray []) rest
| text_array s r items rest : skip_space s = String "[" r → items_text r items rest → json_text s (TArray items) rest
| text_object_empty s r rest :
    skip_space s = String "{" r → skip_space r = String "}" rest → json_text s (TObject []) rest
| text_object s r members rest :
    skip_space s = String "{" r → members_text r members rest → json_text s (TObject members) rest
with items_text : string → list tree → string → Prop :=
| items_last s t r rest : json_text s t r → skip_space r = String "]" rest → items_text s [t] rest
| items_more s t r r' items rest :
    json_text s t r → skip_space r = String "," r' → items_text r' items rest → items_text s (t :: items) rest
with members_text : string → list (string * tree) → string → Prop :=
| members_last s r key k r' t v rest :
    skip_space s = String DQ r → json_string (S (String.length r)) r = Some (key, k) →
    skip_space k = String ":" r' → json_text r' t v → skip_space v = String "}" rest →
    members_text s [(key, t)] rest
| members_more s r key k r' t v v' members rest :
    skip_space s = String DQ r → json_string (S (String.length r)) r = Some (key, k) →
    skip_space k = String ":" r' → json_text r' t v → skip_space v = String "," v' → members_text v' members rest →
    members_text s ((key, t) :: members) rest.

Scheme json_text_mut := Minimality for json_text Sort Prop
with items_text_mut := Minimality for items_text Sort Prop
with members_text_mut := Minimality for members_text Sort Prop.
Combined Scheme json_text_mutind from json_text_mut, items_text_mut, members_text_mut.

(** [Token] called again and again. *)
Inductive tokens : decoder → list token → decoder → Prop :=
| tokens_none dec : tokens dec [] dec
| tokens_one dec t dec' l dec'' : Token dec = Some (t, dec') → tokens dec' l dec'' → tokens dec (t :: l) dec''.

Lemma tokens_app dec1 l1 dec2 l2 dec3 : tokens dec1 l1 dec2 → tokens dec2 l2 dec3 → tokens dec1 (l1 ++ l2) dec3.
Proof. induction 1; [done|]. intros H2. simpl. econstructor; [done|auto]. Qed.

Lemma tokens_from dec dec' t l dec'' : Token dec = Token dec' → tokens dec' (t :: l) dec'' → tokens dec (t :: l) dec''.
Proof. intros He H. inversion H; subst. econstructor; [by rewrite He|done]. Qed.

(** What begins a value is no separator and no end. *)
Lemma scalar_head c rest x : scalar (String c rest) = Some x →
  Ascii.eqb c "[" = false ∧ Ascii.eqb c "]" = false ∧ Ascii.eqb c "{" = false ∧ Ascii.eqb c "}" = false ∧
  Ascii.eqb c ":" = false ∧ Ascii.eqb c "," = false.
Proof. intros H. repeat split; apply Ascii.eqb_neq; intros ->; discriminate. Qed.

Lemma Token_scalar state stack s t rest :
  tokenValueAllowed state = true → scalar (skip_space s) = Some (t, rest) →
  Token (mkDecoder state stack s) = Some (t, mkDecoder (tokenValueEnd state) stack rest).
Proof.
  intros Ha Hs. unfold Token. cbn [Token_go]. destruct (skip_space s) as [|c r]; [discriminate|].
  destruct (scalar_head c r _ Hs) as (-> & -> & -> & -> & -> & ->). rewrite Hs. by destruct state.
Qed.

Lemma Token_key state stack s r key rest :
  state = tokenObjectStart ∨ state = tokenObjectKey →
  skip_space s = String DQ r → json_string (S (String.length r)) r = Some (key, rest) →
  Token (mkDecoder state stack s) = Some (TString key, mkDecoder tokenObjectColon stack rest).
Proof.
  intros Ha Hs Hj. unfold Token. cbn [Token_go]. rewrite Hs.
  assert (scalar (String DQ r) = Some (TString key, rest)) as Hq by (unfold scalar, DQ; by rewrite Hj).
  destruct (scalar_head _ _ _ Hq) as (-> & -> & -> & -> & -> & ->). rewrite Ascii.eqb_refl, Hq.
  by destruct Ha as [-> | ->].
Qed.

(** The separators: the token after one is the token of the state it leads to. *)
Lemma Token_comma stack s rest : skip_space s = String "," rest →
  Token (mkDecoder tokenArrayComma stack s) = Token (mkDecoder tokenArrayValue stack rest).
Proof. intros Hs. unfold Token. cbn [Token_go]. rewrite Hs. cbn. by destruct (skip_space rest). Qed.
Lemma Token_member stack s rest : skip_space s = String "," rest →
  Token (mkDecoder tokenObjectComma stack s) = Token (mkDecoder tokenObjectKey stack rest).
Proof. intros Hs. unfold Token. cbn [Token_go]. rewrite Hs. cbn. by destruct (skip_space rest). Qed.
Lemma Token_colon stack s rest : skip_space s = String ":" rest →
  Token (mkDecoder tokenObjectColon stack s) = Token (mkDecoder tokenObjectValue stack rest).
Proof. intros Hs. unfold Token. cbn [Token_go]. rewrite Hs. cbn. by destruct (skip_space rest). Qed.

(** More rounds than two make no difference. *)
Lemma Token_rounds n dec : Token_go (S (S n)) dec = Token dec.
Proof.
  destruct dec as [state stack s]. unfold Token. cbn [Token_go]. destruct (skip_space s) as [|c r]; [done|].
  repeat (case_match; try done).
Qed.

Lemma flat_head t : ∃ k l, flat t = k :: l.
Proof. destruct t; simpl; eauto. Qed.

(** The tokens of a text are those of its tree. *)
Lemma text_tokens :
  (∀ s t rest, json_text s t rest → ∀ state stack, tokenValueAllowed state = true →
     tokens (mkDecoder state stack s) (flat t) (mkDecoder (tokenValueEnd state) stack rest)) ∧
  (∀ s items rest, items_text s items rest → ∀ state outer stack, state = tokenArrayStart ∨ state = tokenArrayValue →
     tokens (mkDecoder state (outer :: stack) s) (concat (map flat items) ++ [TDelim "]"])
       (mkDecoder (tokenValueEnd outer) stack rest)) ∧
  (∀ s members rest, members_text s members rest → ∀ state outer stack, state = tokenObjectStart ∨ state = tokenObjectKey →
     tokens (mkDecoder state (outer :: stack) s)
       (concat (map (λ '(key, t), TString key :: flat t) members) ++ [TDelim "}"])
       (mkDecoder (tokenValueEnd outer) stack rest)).
Proof.
  assert (∀ state outer stack s c rest, (c = "]"%char ∧ (state = tokenArrayStart ∨ state = tokenArrayComma)) ∨
      (c = "}"%char ∧ (state = tokenObjectStart ∨ state = tokenObjectComma)) →
    skip_space s = String c rest →
    tokens (mkDecoder state (outer :: stack) s) [TDelim c] (mkDecoder (tokenValueEnd outer) stack rest)) as Hclose.
  { intros state outer stack s c rest Hc Hs. econstructor; [|constructor]. unfold Token. cbn [Token_go]. rewrite Hs.
    by destruct Hc as [[-> [-> | ->]]|[-> [-> | ->]]]. }
  assert (∀ state stack s c rest, c = "["%char ∨ c = "{"%char → tokenValueAllowed state = true → skip_space s = String c rest →
    Token (mkDecoder state stack s) =
      Some (TDelim c, mkDecoder (if Ascii.eqb c "[" then tokenArrayStart else tokenObjectStart) (state :: stack) rest)) as Hopen.
  { intros state stack s c rest Hc Ha Hs. unfold Token. cbn [Token_go]. rewrite Hs. by destruct Hc as [-> | ->]; cbn; rewrite Ha. }
  apply json_text_mutind.
  - intros s t rest Hs state stack Ha. econstructor; [by apply Token_scalar|constructor].
  - intros s r rest Hs Hr state stack Ha. econstructor; [by apply Hopen; [left|..]|]. apply Hclose; auto.
  - intros s r items rest Hs _ IH state stack Ha. econstructor; [by apply Hopen; [left|..]|]. apply IH. by left.
  - intros s r rest Hs Hr state stack Ha. econstructor; [by apply Hopen; [right|..]|]. apply Hclose; auto.
  - intros s r members rest Hs _ IH state stack Ha. econstructor; [by apply Hopen; [right|..]|]. apply IH. by left.
  - intros s t r rest _ IH Hr state outer stack Hst. cbn [map concat]. rewrite app_nil_r.
    eapply tokens_app; [apply IH; by destruct Hst as [-> | ->]|]. apply Hclose; [|done]. left. destruct Hst as [-> | ->]; auto.
  - intros s t r r' items rest _ IH Hr Hi IHi state outer stack Hst. cbn [map concat]. rewrite <- app_assoc.
    eapply tokens_app; [apply IH; by destruct Hst as [-> | ->]|].
    replace (tokenValueEnd state) with tokenArrayComma by (by destruct Hst as [-> | ->]).
    specialize (IHi tokenArrayValue outer stack (or_intror eq_refl)).
    destruct items as [|t' items]; [by inversion Hi|]. destruct (flat_head t') as (k & l & Hl).
    cbn [map concat] in *. rewrite Hl in *. eapply tokens_from; [by apply Token_comma|exact IHi].
  - intros s r key k r' t v rest Hs Hj Hk _ IH Hv state outer stack Hst. cbn [map concat]. rewrite app_nil_r.
    econstructor; [by apply (Token_key _ _ _ r)|]. eapply tokens_app; [|by apply Hclose; [right; split; [|right]|]].
    destruct (flat_head t) as (k' & l & Hl). specialize (IH tokenObjectValue (outer :: stack) eq_refl). rewrite Hl in *.
    eapply tokens_from; [by apply Token_colon|exact IH].
  - intros s r key k r' t v v' members rest Hs Hj Hk _ IH Hv Hm' IHm state outer stack Hst. cbn [map concat].
    cbn [app]. rewrite <- app_assoc. econstructor; [by apply (Token_key _ _ _ r)|].
    specialize (IHm tokenObjectKey outer stack (or_intror eq_refl)).
    assert (tokens (mkDecoder tokenObjectComma (outer :: stack) v)
      (concat (map (λ '(key, t), TString key :: flat t) members) ++ [TDelim "}"]) (mkDecoder (tokenValueEnd outer) stack rest)) as Hm.
    { destruct members as [|[key' t'] members]; [by inversion Hm'|]. cbn [map concat app] in *.
      eapply tokens_from; [by apply Token_member|exact IHm]. }
    eapply tokens_app; [|exact Hm].
    destruct (flat_head t) as (k' & l & Hl). specialize (IH tokenObjectValue (outer :: stack) eq_refl). rewrite Hl in *.
    eapply tokens_from; [by apply Token_colon|exact IH].
Qed.

(** ** What the decoder reads has a tree *)

Lemma hex4_shorter s r rest : hex4 s = Some (r, rest) → (String.length rest < String.length s)%nat.
Proof.
  unfold hex4. destruct s as [|a [|b [|c [|d s]]]]; try discriminate.
  repeat case_match; try discriminate. intros [= <- <-]. simpl. lia.
Qed.

Lemma unicode_escape_shorter s t rest : unicode_escape s = Some (t, rest) → (String.length rest < String.length s)%nat.
Proof.
  unfold unicode_escape. destruct (hex4 s) as [[r rest1]|] eqn:E; [|discriminate]. apply hex4_shorter in E.
  destruct (_ && _); [|intros [= <- <-]; done].
  assert (Some (encode_rune replacement_char, rest1) = Some (t, rest) → (String.length rest < String.length s)%nat) as Halone
    by (by intros [= <- <-]).
  destruct rest1 as [|a rest1]; [exact Halone|].
  destruct a as [[] [] [] [] [] [] [] []]; try exact Halone. destruct rest1 as [|b rest1]; [exact Halone|].
  destruct b as [[] [] [] [] [] [] [] []]; try exact Halone.
  destruct (hex4 rest1) as [[r' rest2]|] eqn:E2; [|exact Halone]. apply hex4_shorter in E2.
  destruct (_ && _); [|exact Halone]. intros [= <- <-]. simpl in E. lia.
Qed.

Lemma json_string_fuel f : ∀ s x f', json_string f s = Some x → (String.length s < f')%nat → json_string f' s = Some x.
Proof.
  induction f as [|f IH]; [done|]. intros s x f' H Hf. destruct f' as [|f']; [lia|]. destruct s as [|c s]; [done|].
  cbn [json_string] in *. simpl in Hf. destruct (Ascii.eqb c DQ); [done|].
  assert (∀ p r x, match json_string f r with Some (t, rest) => Some (p +:+ t, rest) | None => None end = Some x →
    (String.length r < f')%nat → match json_string f' r with Some (t, rest) => Some (p +:+ t, rest) | None => None end = Some x) as Hm.
  { intros p r y Hy Hr. destruct (json_string f r) as [z|] eqn:E; [|done]. by rewrite (IH _ _ f' E Hr). }
  destruct (Ascii.eqb c BS).
  - destruct s as [|e s]; [done|]. simpl in Hf. destruct (Ascii.eqb e "u").
    + destruct (unicode_escape s) as [[t r]|] eqn:E; [|done]. apply unicode_escape_shorter in E. apply Hm; [done|lia].
    + destruct (simple_escape e); [|done]. apply Hm; [done|lia].
  - destruct (byte_of c <? 32); [done|]. destruct (rune_width (String c s)) as [n|] eqn:E.
    + apply Hm; [done|]. assert (1 <= n)%nat.
      { revert E. cbn [rune_width]. repeat case_match; intros [= <-]; lia. }
      rewrite str_drop_length. simpl. lia.
    + apply Hm; [done|lia].
Qed.

Lemma json_string_enough f s x : json_string f s = Some x → json_string (S (String.length s)) s = Some x.
Proof. intros H. apply (json_string_fuel f); [done|lia]. Qed.

Lemma json_value_text fuel : ∀ depth s v rest,
  json_value fuel depth s = Some (v, rest) → ∃ t, json_text s t rest.
Proof.
  induction fuel as [|fuel IH]; [done|]. intros depth s v rest. cbn [json_value].
  match goal with |- context [match skip_space _ with EmptyString => ?F _ (@nil any) _ | _ => _ end] => set (I := F) end.
  match goal with |- context [match skip_space _ with EmptyString => ?F _ (@nil (string * any)) _ | _ => _ end] => set (M := F) end.
  assert (∀ n acc s v rest, I n acc s = Some (v, rest) → ∃ l, items_text s l rest) as HI.
  { clear s v rest. induction n as [|n IHn]; [done|]. intros acc s v rest. cbn. fold I.
    destruct (json_value fuel (depth + 1) s) as [[w r]|] eqn:E; [|done]. apply IH in E as [t Ht].
    destruct (skip_space r) as [|c r'] eqn:Hr; [done|]. destruct c as [[] [] [] [] [] [] [] []]; try discriminate.
    - intros [= _ <-]. eexists. by eapply items_last.
    - intros [l Hl]%IHn. eexists. by eapply items_more. }
  assert (∀ n acc s v rest, M n acc s = Some (v, rest) → ∃ l, members_text s l rest) as HM.
  { clear s v rest. induction n as [|n IHn]; [done|]. intros acc s v rest. cbn. fold M.
    destruct (skip_space s) as [|c r] eqn:Hs; [done|]. destruct c as [[] [] [] [] [] [] [] []]; try discriminate.
    destruct (json_string fuel r) as [[key k]|] eqn:Hk; [|done]. apply json_string_enough in Hk.
    destruct (skip_space k) as [|c r'] eqn:Hc; [done|]. destruct c as [[] [] [] [] [] [] [] []]; try discriminate.
    destruct (json_value fuel (depth + 1) r') as [[w u]|] eqn:E; [|done]. apply IH in E as [t Ht].
    destruct (skip_space u) as [|c u'] eqn:Hu; [done|]. destruct c as [[] [] [] [] [] [] [] []]; try discriminate.
    - intros [= _ <-]. eexists. by eapply members_last.
    - intros [l Hl]%IHn. eexists. by eapply members_more. }
  assert (∀ s', match cut_prefix s' "true", cut_prefix s' "false", cut_prefix s' "null" with
      | Some rest, _, _ => Some (ABool true, rest)
      | _, Some rest, _ => Some (ABool false, rest)
      | _, _, Some rest => Some (ANil, rest)
      | _, _, _ => match json_number s' with Some (n, rest) => Some (ANumber n, rest) | None => None end
      end = Some (v, rest) → ∃ t, plain s' = Some (t, rest)) as Hplain.
  { intros s'. unfold plain. repeat case_match; intros [= _ <-]; eauto. }
  assert (∀ s' t, skip_space s = s' → scalar s' = Some (t, rest) → ∃ t, json_text s t rest) as Hscalar.
  { intros s' t <- Ht. exists (TLeaf t). by apply text_scalar. }
  destruct (skip_space s) as [|c r] eqn:Hs; [by intros [t Ht]%Hplain; apply (Hscalar _ t eq_refl)|].
  destruct c as [[] [] [] [] [] [] [] []];
    try (intros [t Ht]%Hplain; by apply (Hscalar _ t eq_refl));
    (destruct (_ <? _); [discriminate|]) || idtac.
  - intros H. destruct (skip_space r) as [|c r'] eqn:Hr; [by apply HM in H as [l Hl]; eexists; eapply text_object|].
    destruct c as [[] [] [] [] [] [] [] []];
      try (apply HM in H as [l Hl]; eexists; by eapply text_object). simplify_eq. eexists. by eapply text_object_empty.
  - intros H. destruct (skip_space r) as [|c r'] eqn:Hr; [by apply HI in H as [l Hl]; eexists; eapply text_array|].
    destruct c as [[] [] [] [] [] [] [] []];
      try (apply HI in H as [l Hl]; eexists; by eapply text_array). simplify_eq. eexists. by eapply text_array_empty.
  - intros H. destruct (json_string fuel r) as [[t r']|] eqn:Hj; [|done]. simplify_eq.
    apply json_string_enough in Hj. apply (Hscalar _ (TString t) eq_refl). unfold scalar. by rewrite Hj.
Qed.

(** ** Each token takes some of the text *)

Lemma span_str_length p s : (String.length (snd (span_str p s)) <= String.length s)%nat.
Proof.
  induction s as [|c s IH]; [done|]. cbn [span_str]. destruct (p c); [|done].
  destruct (span_str p s) as [a b]. simpl in *. lia.
Qed.

Lemma skip_space_length s : (String.length (skip_space s) <= String.length s)%nat.
Proof. apply span_str_length. Qed.

Lemma json_string_shorter f : ∀ s t rest, json_string f s = Some (t, rest) → (String.length rest < String.length s)%nat.
Proof.
  induction f as [|f IH]; [done|]. intros s t rest. destruct s as [|c s]; [done|]. cbn [json_string].
  destruct (Ascii.eqb c DQ); [intros [= _ <-]; simpl; lia|].
  assert (∀ p r, (String.length r <= String.length s)%nat →
    match json_string f r with Some (t, rest) => Some (p +:+ t, rest) | None => None end = Some (t, rest) →
    (String.length rest < String.length (String c s))%nat) as Hm.
  { intros p r Hr H. destruct (json_string f r) as [[t' r']|] eqn:E; [|done]. apply IH in E. simplify_eq. simpl. lia. }
  destruct (Ascii.eqb c BS).
  - destruct s as [|e s]; [done|]. destruct (Ascii.eqb e "u").
    + destruct (unicode_escape s) as [[u r]|] eqn:E; [|done]. apply unicode_escape_shorter in E. apply Hm. simpl. lia.
    + destruct (simple_escape e); [|done]. apply Hm. simpl. lia.
  - destruct (byte_of c <? 32); [done|]. destruct (rune_width (String c s)) as [n|] eqn:E; [|by apply Hm].
    apply rune_width_pos in E. apply Hm. rewrite str_drop_length. simpl. lia.
Qed.

Lemma digits1_shorter s d rest : digits1 s = Some (d, rest) → (String.length rest <= String.length s)%nat.
Proof.
  unfold digits1. pose proof (span_str_length is_digit s) as H. destruct (span_str is_digit s) as [[|c ds] r]; [done|].
  by intros [= _ <-].
Qed.

Lemma cut_prefix_shorter s p rest : (0 < String.length p)%nat → cut_prefix s p = Some rest →
  (String.length rest < String.length s)%nat.
Proof.
  unfold cut_prefix. intros Hp. destruct (has_prefix s p) eqn:E; [|done]. intros [= <-].
  apply has_prefix_spec in E as [t ->]. rewrite str_drop_app, str_length_app. lia.
Qed.

Definition ascii_only (s : string) : bool := str_all (λ c, byte_of c <? 128) s.

Lemma ascii_only_app a b : ascii_only (a +:+ b) = ascii_only a && ascii_only b.
Proof. apply str_all_app. Qed.

(** A step of a number's grammar: what it reads is ASCII and stands before the rest. *)
Definition reads_ascii (s a rest : string) : Prop := s = a +:+ rest ∧ ascii_only a = true.

Lemma digits1_ascii s d rest : digits1 s = Some (d, rest) → reads_ascii s d rest ∧ d ≠ "".
Proof.
  unfold digits1. intros H. assert (∀ s a b, span_str is_digit s = (a, b) → reads_ascii s a b) as Hs.
  { clear. intros s. induction s as [|c s IH]; intros a b; cbn [span_str]; [by intros [= <- <-]|].
    destruct (is_digit c) eqn:Ec; [|by intros [= <- <-]]. destruct (span_str is_digit s) as [x y]. intros [= <- <-].
    destruct (IH _ _ eq_refl) as [-> Ha]. split; [done|]. unfold ascii_only in *. simpl. rewrite Ha, andb_true_r.
    revert Ec. destruct c as [[] [] [] [] [] [] [] []]; (discriminate || reflexivity). }
  destruct (span_str is_digit s) as [[|c ds] r] eqn:E; [done|]. simplify_eq. by split; [apply Hs|].
Qed.

Ltac char_cases c := destruct c as [[] [] [] [] [] [] [] []].

Lemma json_number_ascii s n rest : json_number s = Some (n, rest) → reads_ascii s n rest ∧ n ≠ "".
Proof.
  unfold json_number.
  assert (∃ sign s1, match s with String "-" s => ("-", s) | _ => ("", s) end = (sign, s1) ∧ reads_ascii s sign s1)
    as (sign & s1 & -> & [-> Hs]).
  { destruct s as [|c s]; [by exists "", ""|].
    char_cases c; solve [eexists _, _; split; [reflexivity|by split]]. }
  assert (∀ i s2, match s1 with String "0" rest => Some ("0", rest) | _ => digits1 s1 end = Some (i, s2) →
    reads_ascii s1 i s2 ∧ i ≠ "") as Hint.
  { intros i s2. destruct s1 as [|c s1]; [apply digits1_ascii|].
    char_cases c; try apply digits1_ascii. by intros [= <- <-]. }
  cbv beta iota. destruct (match s1 with String "0" _ => _ | _ => _ end) as [[i s2]|]; [|done].
  destruct (Hint _ _ eq_refl) as [[-> Hi] Hne].
  assert (∀ f s3, match s2 with
      | String "." rest => match digits1 rest with Some (d, rest) => Some ("." +:+ d, rest) | None => None end
      | _ => Some ("", s2) end = Some (f, s3) → reads_ascii s2 f s3) as Hfrac.
  { clear. intros f s3. destruct s2 as [|c s2]; [by intros [= <- <-]|].
    char_cases c; try (intros [= <- <-]; by split).
    destruct (digits1 s2) as [[d r]|] eqn:E; [|done]. intros [= <- <-]. by apply digits1_ascii in E as [[-> Hd] _]. }
  destruct (match s2 with String "." _ => _ | _ => _ end) as [[f s3]|]; [|done].
  destruct (Hfrac _ _ eq_refl) as [-> Hf]. clear Hint Hfrac.
  assert (∀ e s4, match s3 with
      | String e rest =>
          if Ascii.eqb e "e" || Ascii.eqb e "E" then
            let '(sg, rest) := match rest with String "+" r => ("+", r) | String "-" r => ("-", r) | _ => ("", rest) end in
            match digits1 rest with Some (d, rest) => Some (str e +:+ sg +:+ d, rest) | None => None end
          else Some ("", s3)
      | EmptyString => Some ("", s3) end = Some (e, s4) → reads_ascii s3 e s4) as Hexp.
  { clear. intros e s4. destruct s3 as [|c s3]; [by intros [= <- <-]|].
    destruct (Ascii.eqb c "e" || Ascii.eqb c "E") eqn:Ec; [|by intros [= <- <-]].
    assert (∃ sg r, match s3 with String "+" r => ("+", r) | String "-" r => ("-", r) | _ => ("", s3) end = (sg, r) ∧
      reads_ascii s3 sg r) as (sg & r & -> & [-> Hg]).
    { destruct s3 as [|d s3]; [by exists "", ""|]. char_cases d; solve [eexists _, _; split; [reflexivity|by split]]. }
    destruct (digits1 r) as [[d r']|] eqn:E; [|done]. apply digits1_ascii in E as [[-> Hd] _].
    intros [= <- <-]. split; [cbn [String.append str]; by rewrite <- str_app_assoc|].
    change (String c (sg +:+ d)) with (str c +:+ (sg +:+ d)).
    rewrite !ascii_only_app, Hg, Hd, !andb_true_r. apply orb_prop in Ec as [->%Ascii.eqb_eq| ->%Ascii.eqb_eq]; done. }
  destruct (match s3 with EmptyString => _ | String _ _ => _ end) as [[e s4]|]; [|done].
  destruct (Hexp _ _ eq_refl) as [-> He]. intros [= <- <-]. split; [split|].
  - by rewrite !str_app_assoc.
  - by rewrite !ascii_only_app, Hs, Hi, Hf, He.
  - destruct i; [done|]. by destruct sign.
Qed.

Lemma scalar_shorter s t rest : scalar s = Some (t, rest) → (String.length rest < String.length s)%nat.
Proof.
  assert (plain s = Some (t, rest) → (String.length rest < String.length s)%nat) as Hplain.
  { unfold plain. destruct (cut_prefix s "true") eqn:E1; [intros [= _ <-]; eapply cut_prefix_shorter; [|done]; simpl; lia|].
    destruct (cut_prefix s "false") eqn:E2; [intros [= _ <-]; eapply cut_prefix_shorter; [|done]; simpl; lia|].
    destruct (cut_prefix s "null") eqn:E3; [intros [= _ <-]; eapply cut_prefix_shorter; [|done]; simpl; lia|].
    destruct (json_number s) as [[n r]|] eqn:E; [|done]. intros [= _ <-].
    apply json_number_ascii in E as [[-> _] Hn]. destruct n; [done|]. rewrite str_length_app. simpl. lia. }
  destruct s as [|c s]; [exact Hplain|]. char_cases c; try exact Hplain. unfold scalar.
  destruct (json_string _ s) as [[u r]|] eqn:E; [|done]. intros [= _ <-]. apply json_string_shorter in E. simpl. lia.
Qed.

Lemma Token_go_shorter n : ∀ dec t dec', Token_go n dec = Some (t, dec') →
  (String.length (d_unread dec') < String.length (d_unread dec))%nat.
Proof.
  induction n as [|n IH]; [done|]. intros [state stack s] t dec'. cbn [Token_go d_unread].
  pose proof (skip_space_length s) as Hs. destruct (skip_space s) as [|c r]; [done|]. simpl in Hs.
  repeat (case_match; try done); intros; simplify_eq; simpl; try lia;
    try (match goal with H : Token_go _ _ = _ |- _ => apply IH in H; simpl in H; lia end);
    try (match goal with H : scalar _ = _ |- _ => apply scalar_shorter in H; simpl in H; lia end).
Qed.

Lemma tokens_length dec l dec' : tokens dec l dec' →
  (length l + String.length (d_unread dec') <= String.length (d_unread dec))%nat.
Proof. induction 1 as [|dec t dec1 l dec2 Ht _ IH]; [done|]. apply Token_go_shorter in Ht. simpl. lia. Qed.

(** ** What the JSON decoder reads is UTF-8, whatever the text: a string's invalid bytes and lone
    surrogates are the replacement character, and a number is ASCII. *)

Inductive utf8 : string → Prop :=
| utf8_nil : utf8 ""
| utf8_rune r s : rune_width r = Some (String.length r) → utf8 s → utf8 (r +:+ s).

Lemma utf8_app a b : utf8 a → utf8 b → utf8 (a +:+ b).
Proof. induction 1 as [|r s Hr _ IH]; intros Hb; [done|]. rewrite <- str_app_assoc. constructor; [done|auto]. Qed.

Lemma utf8_one r : rune_width r = Some (String.length r) → utf8 r.
Proof. intros H. rewrite <- (str_app_nil_r r). by constructor; [|constructor]. Qed.

Lemma ascii_only_utf8 s : ascii_only s = true → utf8 s.
Proof.
  unfold ascii_only. induction s as [|c s IH]; [constructor|]. cbn [str_all]. intros [Hc Hs]%andb_prop.
  change (String c s) with (str c +:+ s). constructor; [|auto]. simpl. by rewrite Hc.
Qed.

Lemma utf8_valid fuel s : utf8 s → (String.length s <= fuel)%nat → valid_fuel fuel s = true.
Proof.
  intros H. revert fuel. induction H as [|r s Hr _ IH]; intros fuel Hf; [by destruct fuel|].
  rewrite str_length_app in Hf. pose proof (rune_width_pos _ _ Hr) as Hp. destruct fuel as [|fuel]; [lia|].
  destruct (rune_width_prefix r _ s Hr) as [Hw _]. rewrite str_take_all in Hw by done.
  destruct (r +:+ s) as [|c t] eqn:E; [done|]. cbn [valid_fuel]. rewrite Hw, <- E, str_drop_app. apply IH. lia.
Qed.

(** ** The encoding of a code point *)

Lemma byte_chr_of z : 0 <= z < 256 → byte_of (byte_chr z) = z.
Proof.
  intros H. unfold byte_of, byte_chr. rewrite N_ascii_embedding; [lia|]. change 256%N with (Z.to_N 256). lia.
Qed.

Lemma low_bits z : Z.land z 63 = z mod 64.
Proof. change 63 with (Z.ones 6). by rewrite Z.land_ones. Qed.

Definition scalar_value (r : Z) : Prop := 0 <= r < 55296 ∨ 57344 <= r < 1114112.

(** Settle the tests of integers the hypotheses decide. *)
Ltac settle_tests :=
  repeat match goal with
  | |- context [(?a <? ?b)%Z] => first [replace (a <? b)%Z with true by (symmetry; apply Z.ltb_lt; lia)
                                      | replace (a <? b)%Z with false by (symmetry; apply Z.ltb_ge; lia)]
  | |- context [(?a <=? ?b)%Z] => first [replace (a <=? b)%Z with true by (symmetry; apply Z.leb_le; lia)
                                       | replace (a <=? b)%Z with false by (symmetry; apply Z.leb_gt; lia)]
  end.

(** A code point's six bits at a time. *)
Lemma code_bits r : 0 <= r → ∃ a b c d, r = ((a * 64 + b) * 64 + c) * 64 + d ∧ 0 <= a ∧ 0 <= b < 64 ∧ 0 <= c < 64 ∧ 0 <= d < 64 ∧
  r / 262144 = a ∧ r / 4096 = a * 64 + b ∧ r / 64 = (a * 64 + b) * 64 + c ∧
  (r / 4096) mod 64 = b ∧ (r / 64) mod 64 = c ∧ r mod 64 = d.
Proof.
  intros Hr. exists (r / 262144), ((r / 4096) mod 64), ((r / 64) mod 64), (r mod 64).
  Z.to_euclidean_division_equations. lia.
Qed.

Lemma encode_rune_utf8 r : scalar_value r → utf8 (encode_rune r).
Proof.
  intros Hr. apply utf8_one. unfold encode_rune. rewrite !low_bits, !Z.shiftr_div_pow2 by lia.
  change (2 ^ 6) with 64. change (2 ^ 12) with 4096. change (2 ^ 18) with 262144. change (2 ^ 0) with 1. rewrite Z.div_1_r.
  destruct (code_bits r) as (a & b & c & d & Hrr & Ha & Hb & Hc & Hd & -> & -> & -> & -> & -> & ->); [destruct Hr; lia|].
  assert (∀ lo hi x, 0 <= x < 256 → in_range lo hi (byte_chr x) = (lo <=? x) && (x <=? hi)) as Hin
    by (intros; unfold in_range; by rewrite byte_chr_of).
  unfold scalar_value in Hr. destruct (Z.ltb_spec r 128); [cbn [rune_width str]; rewrite byte_chr_of by lia; by settle_tests|].
  destruct (Z.ltb_spec r 2048).
  { cbn [rune_width str]. rewrite !byte_chr_of, !Hin by lia. by settle_tests. }
  destruct (Z.ltb_spec r 65536).
  - cbn [rune_width str]. rewrite !byte_chr_of, !Hin by lia. settle_tests. cbn [andb].
    destruct (Z.eqb_spec (224 + (a * 64 + b)) 224), (Z.eqb_spec (224 + (a * 64 + b)) 237); settle_tests; cbn [andb]; done || lia.
  - cbn [rune_width str]. rewrite !byte_chr_of, !Hin by lia. settle_tests. cbn [andb].
    destruct (Z.eqb_spec (240 + a) 240), (Z.eqb_spec (240 + a) 244); settle_tests; cbn [andb]; done || lia.
Qed.

(** ** Strings, numbers and tokens *)

Lemma hex_value_range c v : hex_value c = Some v → 0 <= v < 16.
Proof. char_cases c; (discriminate || (intros [= <-]; vm_compute; done)). Qed.

Lemma hex4_range s r rest : hex4 s = Some (r, rest) → 0 <= r < 65536.
Proof.
  unfold hex4. destruct s as [|a [|b [|c [|d s]]]]; try discriminate.
  destruct (hex_value a) eqn:Ea, (hex_value b) eqn:Eb, (hex_value c) eqn:Ec, (hex_value d) eqn:Ed; try discriminate.
  apply hex_value_range in Ea, Eb, Ec, Ed. intros [= <- _]. lia.
Qed.

Lemma replacement_utf8 : utf8 (encode_rune replacement_char).
Proof. apply encode_rune_utf8. unfold scalar_value, replacement_char. lia. Qed.

Lemma unicode_escape_utf8 s t rest : unicode_escape s = Some (t, rest) → utf8 t.
Proof.
  unfold unicode_escape. destruct (hex4 s) as [[r rest1]|] eqn:E; [|discriminate]. apply hex4_range in E.
  destruct (_ && _) eqn:Es; bool_facts.
  - assert (Some (encode_rune replacement_char, rest1) = Some (t, rest) → utf8 t) as Halone
      by (intros [= <- _]; apply replacement_utf8).
    destruct rest1 as [|a rest1]; [exact Halone|].
    char_cases a; try exact Halone. destruct rest1 as [|b rest1]; [exact Halone|].
    char_cases b; try exact Halone.
    destruct (hex4 rest1) as [[r' rest2]|] eqn:E2; [|exact Halone]. apply hex4_range in E2.
    destruct (_ && _) eqn:Es2; [|exact Halone]. bool_facts. intros [= <- _]. apply encode_rune_utf8. right. lia.
  - intros [= <- _]. apply encode_rune_utf8. unfold scalar_value. apply andb_false_iff in Es as [?%Z.leb_gt|?%Z.ltb_ge]; lia.
Qed.

Lemma simple_escape_utf8 c d : simple_escape c = Some d → utf8 (str d).
Proof.
  unfold simple_escape. intros H. apply ascii_only_utf8.
  repeat (case_match; [simplify_eq; vm_compute; done|]). discriminate.
Qed.

Lemma json_string_utf8 f : ∀ s t rest, json_string f s = Some (t, rest) → utf8 t.
Proof.
  induction f as [|f IH]; [done|]. intros s t rest. destruct s as [|c s]; [done|]. cbn [json_string].
  destruct (Ascii.eqb c DQ); [intros [= <- _]; constructor|].
  assert (∀ p r, utf8 p → match json_string f r with Some (t, rest) => Some (p +:+ t, rest) | None => None end = Some (t, rest) →
    utf8 t) as Hm.
  { intros p r Hp H. destruct (json_string f r) as [[t' r']|] eqn:E; [|done]. apply IH in E. simplify_eq. by apply utf8_app. }
  destruct (Ascii.eqb c BS).
  - destruct s as [|e s]; [done|]. destruct (Ascii.eqb e "u").
    + destruct (unicode_escape s) as [[u r]|] eqn:E; [|done]. apply unicode_escape_utf8 in E. by apply Hm.
    + destruct (simple_escape e) eqn:E; [|done]. apply simple_escape_utf8 in E. by apply Hm.
  - destruct (byte_of c <? 32); [done|]. destruct (rune_width (String c s)) as [n|] eqn:E; [|apply Hm, replacement_utf8].
    apply Hm, utf8_one. destruct (rune_width_prefix _ _ "" E) as [Hw Hl]. rewrite str_app_nil_r in Hw. by rewrite Hw, Hl.
Qed.

Definition token_utf8 (t : token) : Prop :=
  match t with TString s | TNumber s => utf8 s | _ => True end.

Lemma scalar_utf8 s t rest : scalar s = Some (t, rest) → token_utf8 t.
Proof.
  assert (plain s = Some (t, rest) → token_utf8 t) as Hplain.
  { unfold plain. destruct (cut_prefix s "true"); [by intros [= <- _]|]. destruct (cut_prefix s "false"); [by intros [= <- _]|].
    destruct (cut_prefix s "null"); [by intros [= <- _]|]. destruct (json_number s) as [[n r]|] eqn:E; [|done].
    intros [= <- _]. apply json_number_ascii in E as [[_ Hn] _]. by apply ascii_only_utf8. }
  destruct s as [|c s]; [exact Hplain|]. char_cases c; try exact Hplain. unfold scalar.
  destruct (json_string _ s) as [[u r]|] eqn:E; [|done]. intros [= <- _]. by eapply json_string_utf8.
Qed.

Lemma Token_utf8 dec t dec' : Token dec = Some (t, dec') → token_utf8 t.
Proof.
  unfold Token. generalize 2%nat as n. intros n. revert dec t dec'. induction n as [|n IH]; [done|].
  intros [state stack s] t dec'. cbn [Token_go]. destruct (skip_space s) as [|c r]; [done|].
  repeat (case_match; try done); intros; simplify_eq; try done;
    (by eapply scalar_utf8) || (by eapply IH).
Qed.

(** ** A text of the grammar is read *)

Fixpoint height (t : tree) : Z :=
  match t with
  | TLeaf _ => 0
  | TArray items => 1 + foldr Z.max 0 (map height items)
  | TObject members => 1 + foldr Z.max 0 (map (λ m, height (snd m)) members)
  end.

(** A value that an object's text gives is a map. *)
Definition is_map (v : any) : bool := match v with AMap _ => true | _ => false end.
Definition is_object (t : tree) : bool := match t with TObject _ => true | _ => false end.

Lemma json_text_shorter :
  (∀ s t rest, json_text s t rest → (String.length rest < String.length s)%nat) ∧
  (∀ s l rest, items_text s l rest → (String.length rest < String.length s)%nat) ∧
  (∀ s l rest, members_text s l rest → (String.length rest < String.length s)%nat).
Proof.
  assert (∀ s c r, skip_space s = String c r → (String.length r < String.length s)%nat) as Hsk.
  { intros s c r H. pose proof (skip_space_length s) as Hl. rewrite H in Hl. simpl in Hl. lia. }
  apply json_text_mutind; intros;
    repeat match goal with
    | H : skip_space ?s = String ?c ?r |- _ => apply Hsk in H
    | H : json_string _ _ = Some _ |- _ => apply json_string_shorter in H
    end; try lia.
  match goal with H : scalar _ = Some _ |- _ => apply scalar_shorter in H end. pose proof (skip_space_length s). lia.
Qed.

(** The two loops of a value, over what reads the value inside. *)
Definition items_loop (value : string → option (any * string)) :=
  fix items (n : nat) (acc : list any) (s : string) : option (any * string) :=
  match n with
  | O => None
  | S n =>
      match value s with
      | None => None
      | Some (v, rest) =>
          match skip_space rest with
          | String "," rest => items n (acc ++ [v]) rest
          | String "]" rest => Some (AList (acc ++ [v]), rest)
          | _ => None
          end
      end
  end.
Definition members_loop (key : string → option (string * string)) (value : string → option (any * string)) :=
  fix members (n : nat) (acc : list (string * any)) (s : string) : option (any * string) :=
  match n, skip_space s with
  | S n, String "034" rest =>
      match key rest with
      | None => None
      | Some (key_, rest) =>
          match skip_space rest with
          | String ":" rest =>
              match value rest with
              | None => None
              | Some (v, rest) =>
                  match skip_space rest with
                  | String "," rest => members n (assoc_set key_ v acc) rest
                  | String "}" rest => Some (AMap (assoc_set key_ v acc), rest)
                  | _ => None
                  end
              end
          | _ => None
          end
      end
  | _, _ => None
  end.

Lemma json_value_eq fuel depth s :
  json_value (S fuel) depth s =
  match skip_space s with
  | String "034" rest => match json_string fuel rest with Some (t, rest) => Some (AString t, rest) | None => None end
  | String "[" rest =>
      if maxNestingDepth <? depth + 1 then None
      else match skip_space rest with
           | String "]" rest' => Some (AList [], rest')
           | _ => items_loop (json_value fuel (depth + 1)) fuel [] rest
           end
  | String "{" rest =>
      if maxNestingDepth <? depth + 1 then None
      else match skip_space rest with
           | String "}" rest' => Some (AMap [], rest')
           | _ => members_loop (json_string fuel) (json_value fuel (depth + 1)) fuel [] rest
           end
  | s =>
      match cut_prefix s "true", cut_prefix s "false", cut_prefix s "null" with
      | Some rest, _, _ => Some (ABool true, rest)
      | _, Some rest, _ => Some (ABool false, rest)
      | _, _, Some rest => Some (ANil, rest)
      | _, _, _ => match json_number s with Some (n, rest) => Some (ANumber n, rest) | None => None end
      end
  end.
Proof. reflexivity. Qed.

Lemma skip_shorter s c r : skip_space s = String c r → (String.length r < String.length s)%nat.
Proof. intros H. pose proof (skip_space_length s) as Hl. rewrite H in Hl. simpl in Hl. lia. Qed.

Lemma highest_le (l : list Z) x : x ∈ l → x ≤ foldr Z.max 0 l.
Proof. induction l as [|y l IH]; [by intros ?%elem_of_nil|]. intros [->|Hin]%elem_of_cons; simpl; [lia|]. specialize (IH Hin). lia. Qed.

(** A first byte is none of the brackets a container begins with. *)
Lemma plain_value_reads fuel depth s t rest : scalar (skip_space s) = Some (t, rest) → (String.length s < S fuel)%nat →
  ∃ v, json_value (S fuel) depth s = Some (v, rest) ∧ is_map v = false.
Proof.
  rewrite json_value_eq. intros Hs Hf.
  assert (∀ s', plain s' = Some (t, rest) → ∃ v, match cut_prefix s' "true", cut_prefix s' "false", cut_prefix s' "null" with
      | Some rest, _, _ => Some (ABool true, rest)
      | _, Some rest, _ => Some (ABool false, rest)
      | _, _, Some rest => Some (ANil, rest)
      | _, _, _ => match json_number s' with Some (n, rest) => Some (ANumber n, rest) | None => None end
      end = Some (v, rest) ∧ is_map v = false) as Hplain.
  { intros s'. unfold plain. repeat case_match; intros; simplify_eq; eauto. }
  pose proof (skip_space_length s) as Hl. destruct (skip_space s) as [|c r]; [by apply Hplain|].
  destruct c as [[] [] [] [] [] [] [] []]; try (by apply Hplain); try discriminate.
  simpl in Hl. unfold scalar in Hs. destruct (json_string (S (String.length r)) r) as [[u r']|] eqn:E; [|done]. simplify_eq.
  rewrite (json_string_fuel _ _ _ fuel E) by lia. eauto.
Qed.

Lemma text_value :
  (∀ s t rest, json_text s t rest → ∀ fuel depth, (String.length s < fuel)%nat → depth + height t ≤ maxNestingDepth →
     ∃ v, json_value fuel depth s = Some (v, rest) ∧ is_map v = is_object t) ∧
  (∀ s l rest, items_text s l rest → ∀ fuel n depth acc, (String.length s < fuel)%nat → (String.length s ≤ n)%nat →
     depth + 1 + foldr Z.max 0 (map height l) ≤ maxNestingDepth →
     ∃ items, items_loop (json_value fuel (depth + 1)) n acc s = Some (AList items, rest)) ∧
  (∀ s l rest, members_text s l rest → ∀ fuel n depth acc, (String.length s < fuel)%nat → (String.length s ≤ n)%nat →
     depth + 1 + foldr Z.max 0 (map (λ m, height (snd m)) l) ≤ maxNestingDepth →
     ∃ entries, members_loop (json_string fuel) (json_value fuel (depth + 1)) n acc s = Some (AMap entries, rest)).
Proof.
  apply json_text_mutind.
  - intros s t rest Hs [|fuel] depth Hf _; [lia|]. exact (plain_value_reads fuel depth s t rest Hs Hf).
  - intros s r rest Hs Hr [|fuel] depth Hf Hd; [lia|]. rewrite json_value_eq, Hs. simpl in Hd.
    rewrite (proj2 (Z.ltb_ge _ _)) by lia. rewrite Hr. eauto.
  - intros s r items rest Hs Hr IH [|fuel] depth Hf Hd; [lia|]. rewrite json_value_eq, Hs. apply skip_shorter in Hs.
    cbn [height] in Hd. pose proof (highest_le (map height items)) as Hm.
    assert (0 ≤ foldr Z.max 0 (map height items)) by (clear; induction items; simpl; lia).
    rewrite (proj2 (Z.ltb_ge _ _)) by lia. destruct (IH fuel fuel depth []) as [l Hl]; [lia..|].
    exists (AList l). split; [|done]. destruct (skip_space r) as [|c r'] eqn:Hc; [exact Hl|].
    destruct c as [[] [] [] [] [] [] [] []]; try exact Hl. exfalso.
    inversion Hr as [? ? ? ? Ht|? ? ? ? ? ? Ht]; subst; inversion Ht as [? ? ? Hsc|? ? ? Hsc|? ? ? ? Hsc|? ? ? Hsc|? ? ? ? Hsc]; subst;
      rewrite Hc in Hsc; discriminate.
  - intros s r rest Hs Hr [|fuel] depth Hf Hd; [lia|]. rewrite json_value_eq, Hs. simpl in Hd.
    rewrite (proj2 (Z.ltb_ge _ _)) by lia. rewrite Hr. eauto.
  - intros s r members rest Hs Hr IH [|fuel] depth Hf Hd; [lia|]. rewrite json_value_eq, Hs. apply skip_shorter in Hs.
    cbn [height] in Hd.
    assert (0 ≤ foldr Z.max 0 (map (λ m, height (snd m)) members)) by (clear; induction members; simpl; lia).
    rewrite (proj2 (Z.ltb_ge _ _)) by lia. destruct (IH fuel fuel depth []) as [l Hl]; [lia..|].
    exists (AMap l). split; [|done]. destruct (skip_space r) as [|c r'] eqn:Hc; [exact Hl|].
    destruct c as [[] [] [] [] [] [] [] []]; try exact Hl. exfalso.
    inversion Hr as [? ? ? ? ? ? ? ? Hq|? ? ? ? ? ? ? ? ? ? Hq]; subst; rewrite Hc in Hq; discriminate.
  - intros s t r rest Ht IH Hr fuel [|n] depth acc Hf Hn Hd; [pose proof (proj1 json_text_shorter _ _ _ Ht); lia|].
    cbn [foldr map] in Hd. destruct (IH fuel (depth + 1)) as (v & Hv & _); [lia..|].
    cbn. rewrite Hv, Hr. eauto.
  - intros s t r r' items rest Ht IH Hr _ IHs fuel [|n] depth acc Hf Hn Hd; pose proof (proj1 json_text_shorter _ _ _ Ht); [lia|].
    cbn [foldr map] in Hd. destruct (IH fuel (depth + 1)) as (v & Hv & _); [lia..|]. apply skip_shorter in Hr as Hl.
    destruct (IHs fuel n depth (acc ++ [v])) as [l Hi]; [lia..|]. exists l. cbn. rewrite Hv, Hr. exact Hi.
  - intros s r key k r' t v rest Hs Hk Hc Ht IH Hv fuel [|n] depth acc Hf Hn Hd; apply skip_shorter in Hs as Hl1; [lia|].
    cbn [foldr map snd] in Hd. apply json_string_shorter in Hk as Hl2. apply skip_shorter in Hc as Hl3.
    destruct (IH fuel (depth + 1)) as (x & Hx & _); [lia..|]. exists (assoc_set key x acc). cbn.
    rewrite Hs, (json_string_fuel _ _ _ fuel Hk), Hc, Hx, Hv by lia. done.
  - intros s r key k r' t v v' members rest Hs Hk Hc Ht IH Hv _ IHs fuel [|n] depth acc Hf Hn Hd; apply skip_shorter in Hs as Hl1; [lia|].
    cbn [foldr map snd] in Hd. apply json_string_shorter in Hk as Hl2. apply skip_shorter in Hc as Hl3.
    pose proof (proj1 json_text_shorter _ _ _ Ht). apply skip_shorter in Hv as Hl4.
    destruct (IH fuel (depth + 1)) as (x & Hx & _); [lia..|].
    destruct (IHs fuel n depth (assoc_set key x acc)) as [l Hm]; [lia..|]. exists l. cbn.
    rewrite Hs, (json_string_fuel _ _ _ fuel Hk), Hc, Hx, Hv by lia. exact Hm.
Qed.

(** A value of the grammar is one raw value. *)
Lemma raw_value_text s raw rest t : skip_space s = raw +:+ rest → json_text (skip_space s) t rest →
  1 + height t ≤ maxNestingDepth → raw_value s = Some (raw, rest).
Proof.
  intros Hs Ht Hh. unfold raw_value.
  destruct (proj1 text_value _ _ _ Ht (S (String.length (skip_space s))) 1) as (v & Hv & _); [lia..|]. rewrite Hv, Hs.
  rewrite str_length_app. replace (_ + _ - _)%nat with (String.length raw) by lia. by rewrite str_take_app.
Qed.

(** What is text is kept as it is. *)
Lemma kept_valid n : ∀ s, valid_fuel n s = true → kept_text n s = s.
Proof.
  induction n as [|n IH]; intros s Hv; [by destruct s|]. destruct s as [|c s]; [done|].
  cbn [valid_fuel] in Hv. cbn [kept_text]. destruct (rune_width (String c s)) as [w|] eqn:Ew; [|discriminate].
  destruct (byte_of c <? 128) eqn:Ec.
  - cbn [rune_width] in Ew. rewrite Ec in Ew. injection Ew as <-. by rewrite IH.
  - rewrite IH by done. apply str_take_drop.
Qed.
