(* ===== verification/ConfigFile.v ===== *)
(** The configuration's file: [Load] and [save] of [config.go] of [src/runtime/internal/config], as
    the text [encoding/json] writes and reads.

    Reading a file is an argument: what the file holds, nothing where there is none, or the
    error of reading it. *)
From S2P Require Import Prelude GoStr GoErr GoTime GoPath Playbook Gate GoJson GoRunes GoMarshal GoJsonRead GoJsonTokens.
From S2P Require Import Config.

(** ** [config.go] *)

Definition configFile : string := "config.json".

(** One entry: a null leaves it empty, an object sets what it names, and anything else is refused. *)
Definition decode_Value (raw : string) : option Value :=
  match Unmarshal raw, raw_members raw with
  | Some ANil, _ => Some (mkValue "" false)
  | Some (AMap _), Some members =>
      match field decode_string "value" members "", field decode_bool "secret" members false with
      | Some value, Some secret => Some (mkValue value secret)
      | _, _ => None
      end
  | _, _ => None
  end.

Fixpoint decode_entries (members : list (string * string)) (values : gmap string Value) : option (gmap string Value) :=
  match members with
  | [] => Some values
  | (key, raw) :: members =>
      match decode_Value raw with Some value => decode_entries members (<[key := value]> values) | None => None end
  end.

(** [json.Unmarshal] into the map: a null makes the map nil. *)
Definition decode_values (text : string) : option (option (gmap string Value)) :=
  match Unmarshal text, raw_members text with
  | Some ANil, _ => Some None
  | Some (AMap _), Some members => Some <$> decode_entries members ∅
  | _, _ => None
  end.

(** [malformed] is the decoder's error of a text it refuses.  The boolean says the configuration has
    a map to set a value in. *)
Definition Load (malformed : string → gerror) (stateDir : string) (file : gerror + option string) : gerror + (Config * bool) :=
  match file with
  | inl err => inl (wrap_before "reading configuration" err)
  | inr None => inr (mkConfig stateDir ∅, true)
  | inr (Some text) =>
      match decode_values text with
      | None => inl (wrap_before "parsing configuration" (malformed text))
      | Some None => inr (mkConfig stateDir ∅, false)
      | Some (Some values) => inr (mkConfig stateDir values, true)
      end
  end.

(** [json.MarshalIndent] of the map, two spaces to a level. *)
Definition value_object (v : Value) : string :=
  "{" +:+ nl +:+ "    " +:+ json_quote "value" +:+ ": " +:+ marshal_string (value_text v)
  +:+ (if Secret v then "," +:+ nl +:+ "    " +:+ json_quote "secret" +:+ ": true" else "") +:+ nl +:+ "  }".
Definition entry_line (e : string * Value) : string := "  " +:+ marshal_string (fst e) +:+ ": " +:+ value_object (snd e).
Definition entries (c : Config) : list (string * Value) := omap (λ key, (λ v, (key, v)) <$> values c !! key) (Keys c).
Definition encoded (c : Config) : string :=
  match entries c with
  | [] => "{}"
  | entries => "{" +:+ nl +:+ join (map entry_line entries) ("," +:+ nl) +:+ nl +:+ "}"
  end.

Definition save_text (c : Config) : string := encoded c +:+ nl.

(** [save]: what making the directory and writing the file answer are arguments. *)
Definition save (mkdir : string → option gerror) (write : string → string → option gerror) (c : Config) : option gerror :=
  match mkdir (stateDir c) with
  | Some err => Some (wrap_before "creating the state directory" err)
  | None => write (Join [stateDir c; configFile]) (save_text c)
  end.

(** *** What is written is read *)

Lemma skip_quoted (s : string) : skip_space (nl +:+ "    " +:+ String DQ s) = String DQ s.
Proof. reflexivity. Qed.

Lemma quoted_key key n rest : str_all unescaped key = true → (String.length key < n)%nat →
  json_string n (key +:+ String DQ rest) = Some (kept_text (String.length key) key, rest).
Proof.
  intros Hk Hn. rewrite <- (marshal_text_plain (String.length key) key) at 1 by done.
  apply json_string_reads; [done|]. by rewrite marshal_text_plain.
Qed.

Definition secret_text (secret : bool) : string := if secret then "," +:+ nl +:+ "    " +:+ json_quote "secret" +:+ ": true" else "".

Lemma value_object_eq v rest : value_object v +:+ rest =
  String "{" (nl +:+ "    " +:+ String DQ ("value" +:+ String DQ (": " +:+ marshal_string (value_text v) +:+
    secret_text (Secret v) +:+ nl +:+ "  " +:+ String "}" rest))).
Proof. unfold value_object, json_quote, secret_text. destruct (Secret v); by rewrite <- ?str_app_assoc. Qed.

Lemma string_scalar v rest : scalar (skip_space (" " +:+ marshal_string v +:+ rest)) = Some (TString (kept v), rest).
Proof.
  assert (skip_space (" " +:+ marshal_string v +:+ rest) = String DQ (marshal_text (String.length v) v +:+ String DQ rest)) as ->.
  { rewrite marshal_string_eq. cbn [String.append]. change (skip_space (String " " (String DQ ?x))) with (String DQ x).
    by rewrite <- str_app_assoc. }
  unfold scalar, DQ at 1. cbv beta iota. rewrite json_string_reads; [done|done|]. rewrite str_length_app. simpl. lia.
Qed.

Lemma value_object_text v rest : ∃ members, json_text (value_object v +:+ rest) (TObject members) rest ∧ height (TObject members) = 1.
Proof.
  rewrite value_object_eq. unfold secret_text. destruct (Secret v).
  - exists [("value", TLeaf (TString (kept (value_text v)))); ("secret", TLeaf TOther)]. split; [|done].
    eapply text_object; [reflexivity|]. eapply members_more; [apply skip_quoted|apply quoted_key; [done|simpl; lia]|reflexivity|..].
    + apply text_scalar, string_scalar.
    + reflexivity.
    + eapply members_last; [reflexivity|apply (quoted_key "secret"); [done|simpl; lia]|reflexivity|apply text_scalar; reflexivity|reflexivity].
  - exists [("value", TLeaf (TString (kept (value_text v))))]. split; [|done].
    eapply text_object; [reflexivity|]. eapply members_last; [apply skip_quoted|apply quoted_key; [done|simpl; lia]|reflexivity|..].
    + apply text_scalar, string_scalar.
    + reflexivity.
Qed.

Lemma object_spaced s members rest : json_text s (TObject members) rest → json_text (" " +:+ s) (TObject members) rest.
Proof.
  assert (skip_space (" " +:+ s) = skip_space s) as Hsk.
  { unfold skip_space. cbn [String.append span_str]. change (json_space " ") with true. cbv beta iota. by destruct (span_str json_space s). }
  inversion 1 as [| | |? r ? H1 H2|? r ? ? H1 H2]; subst; rewrite <- Hsk in H1.
  - exact (text_object_empty _ r rest H1 H2).
  - exact (text_object _ r members rest H1 H2).
Qed.

Lemma value_object_raw v rest : raw_value (" " +:+ value_object v +:+ rest) = Some (value_object v, rest).
Proof.
  destruct (value_object_text v rest) as (members & Ht & Hh).
  assert (skip_space (" " +:+ value_object v +:+ rest) = value_object v +:+ rest) as Hs by (rewrite value_object_eq; reflexivity).
  apply (raw_value_text _ _ _ (TObject members)); [exact Hs|by rewrite Hs|by rewrite Hh].
Qed.

Lemma raw_string v rest : raw_value (" " +:+ marshal_string v +:+ rest) = Some (marshal_string v, rest).
Proof. rewrite <- (raw_value_string v rest). unfold raw_value. done. Qed.

(** The members of an entry's object, and the entry it is decoded to. *)
Lemma value_object_members v :
  raw_members (value_object v) = Some (("value", marshal_string (value_text v)) :: if Secret v then [("secret", "true")] else []).
Proof.
  rewrite <- (str_app_nil_r (value_object v)), value_object_eq. unfold raw_members.
  match goal with |- context [skip_space (String "{" ?x)] => change (skip_space (String "{" x)) with (String "{" x) end. cbv beta iota.
  rewrite skip_quoted. unfold DQ at 1. cbv beta iota. remember (String.length _) as n eqn:En.
  assert (2 ≤ n)%nat as Hn by (rewrite En; simpl; lia). clear En. destruct n as [|[|n]]; [lia..|].
  remember (S n) as n1. cbn [raw_members_go]. rewrite skip_quoted. unfold DQ at 1. cbv beta iota.
  rewrite quoted_key by (done || (rewrite !str_length_app; simpl; lia)). cbv beta iota.
  match goal with |- context [skip_space (": " +:+ ?x)] => change (skip_space (": " +:+ x)) with (String ":" (" " +:+ x)) end. cbv beta iota.
  rewrite raw_string. unfold secret_text. destruct (Secret v); [|reflexivity]. subst n1. reflexivity.
Qed.

Lemma decode_value_object v : decode_Value (value_object v) = Some (mkValue (kept (value_text v)) (Secret v)).
Proof.
  unfold decode_Value. rewrite value_object_members.
  destruct (value_object_text v "") as (members & Ht & Hh). rewrite str_app_nil_r in Ht.
  destruct (proj1 text_value _ _ _ Ht (S (String.length (value_object v))) 0) as (x & Hx & Hm); [lia|by rewrite Hh|].
  unfold Unmarshal. rewrite Hx. destruct x; try done. cbn [skip_space].
  change (String.eqb (skip_space "") "") with true. cbv beta iota.
  cbn [field lower_string]. rewrite decode_string_reads. by destruct (Secret v).
Qed.

Lemma entry_line_eq e rest : nl +:+ entry_line e +:+ rest =
  nl +:+ "  " +:+ String DQ (marshal_text (String.length (fst e)) (fst e) +:+ String DQ (": " +:+ value_object (snd e) +:+ rest)).
Proof. unfold entry_line. rewrite marshal_string_eq. cbn [String.append]. rewrite <- !str_app_assoc. reflexivity. Qed.

Lemma skip_entry e rest : skip_space (nl +:+ entry_line e +:+ rest) =
  String DQ (marshal_text (String.length (fst e)) (fst e) +:+ String DQ (": " +:+ value_object (snd e) +:+ rest)).
Proof. by rewrite entry_line_eq. Qed.

Lemma entry_key (e : string * Value) rest :
  json_string (S (String.length (marshal_text (String.length (fst e)) (fst e) +:+ String DQ rest)))
    (marshal_text (String.length (fst e)) (fst e) +:+ String DQ rest) = Some (kept (fst e), rest).
Proof. apply json_string_reads; [done|]. rewrite str_length_app. lia. Qed.

Definition lines (l : list (string * Value)) : string := nl +:+ join (map entry_line l) ("," +:+ nl).

Lemma lines_one e : lines [e] = nl +:+ entry_line e.
Proof. done. Qed.
Lemma lines_more (e e' : string * Value) l rest : lines (e :: e' :: l) +:+ rest = nl +:+ entry_line e +:+ String "," (lines (e' :: l) +:+ rest).
Proof. unfold lines. cbn [map]. rewrite join_cons. by rewrite <- !str_app_assoc. Qed.

Lemma lines_text rest : ∀ l, l ≠ [] → ∃ members,
  members_text (lines l +:+ nl +:+ String "}" rest) members rest ∧ foldr Z.max 0 (map (λ m, height (snd m)) members) = 1.
Proof.
  induction l as [|e [|e' l] IH]; [done|intros _..].
  - destruct (value_object_text (snd e) (nl +:+ String "}" rest)) as (ms & Ht & Hh). exists [(kept (fst e), TObject ms)].
    rewrite lines_one, <- str_app_assoc. split; [|cbn [map foldr snd]; by rewrite Hh].
    eapply members_last; [apply skip_entry|apply entry_key|reflexivity|..].
    + apply object_spaced, Ht.
    + reflexivity.
  - destruct IH as (members & Hm & Hd); [done|].
    destruct (value_object_text (snd e) (String "," (lines (e' :: l) +:+ nl +:+ String "}" rest))) as (ms & Ht & Hh).
    exists ((kept (fst e), TObject ms) :: members). rewrite lines_more.
    split; [|cbn [map foldr snd]; by rewrite Hh, Hd].
    eapply members_more; [apply skip_entry|apply entry_key|reflexivity|..].
    + apply object_spaced, Ht.
    + reflexivity.
    + exact Hm.
Qed.

Lemma lines_raw rest : ∀ l fuel, l ≠ [] → (length l ≤ fuel)%nat →
  raw_members_go fuel (lines l +:+ nl +:+ String "}" rest) = Some (map (λ e, (kept (fst e), value_object (snd e))) l, rest).
Proof.
  induction l as [|e [|e' l] IH]; intros [|fuel] Hl Hf; try done; try (simpl in Hf; lia).
  - rewrite lines_one, <- str_app_assoc. cbn [raw_members_go]. rewrite skip_entry. unfold DQ at 1. cbv beta iota.
    rewrite entry_key. cbv beta iota.
    match goal with |- context [skip_space (": " +:+ ?x)] => change (skip_space (": " +:+ x)) with (String ":" (" " +:+ x)) end. cbv beta iota.
    rewrite value_object_raw. reflexivity.
  - rewrite lines_more. cbn [raw_members_go]. rewrite skip_entry. unfold DQ at 1. cbv beta iota.
    rewrite entry_key. cbv beta iota.
    match goal with |- context [skip_space (": " +:+ ?x)] => change (skip_space (": " +:+ x)) with (String ":" (" " +:+ x)) end. cbv beta iota.
    rewrite value_object_raw. cbv beta iota.
    match goal with |- context [skip_space (String "," ?x)] => change (skip_space (String "," x)) with (String "," x) end. cbv beta iota.
    rewrite IH; [done|done|simpl in *; lia].
Qed.

Lemma decode_lines : ∀ l values, (∀ key v, (key, v) ∈ l → kept key = key ∧ kept (value_text v) = value_text v) →
  decode_entries (map (λ e, (kept (fst e), value_object (snd e))) l) values = Some (foldl (λ m e, <[fst e := snd e]> m) values l).
Proof.
  induction l as [|[key v] l IH]; intros values Hk; [done|]. cbn [map fst snd decode_entries foldl].
  rewrite decode_value_object. destruct (Hk key v (list_elem_of_here _ _)) as [-> ->].
  assert (mkValue (value_text v) (Secret v) = v) as -> by by destruct v.
  apply IH. intros key' v' Hin. apply Hk. by apply list_elem_of_further.
Qed.

Lemma foldl_insert_lookup (l : list (string * Value)) : ∀ (m : gmap string Value) (key : string), NoDup (map fst l) →
  foldl (λ m e, <[fst e := snd e]> m) m l !! key =
  match list_to_map (M := gmap string Value) l !! key with Some v => Some v | None => m !! key end.
Proof.
  induction l as [|[k v] l IH]; intros m key Hn; [done|]. cbn [map fst] in Hn. apply NoDup_cons in Hn as [Hk Hn].
  cbn [foldl fst snd list_to_map foldr curry]. rewrite IH by done. destruct (decide (k = key)) as [->|Hne].
  - simpl. rewrite !lookup_insert_eq. by rewrite (not_elem_of_list_to_map_1 (M := gmap string) l key).
  - simpl. by rewrite !lookup_insert_ne.
Qed.

Lemma elem_of_entries c key v : (key, v) ∈ entries c ↔ values c !! key = Some v.
Proof.
  unfold entries. rewrite list_elem_of_omap. split.
  - intros (k & _ & Hk). destruct (values c !! k) as [w|] eqn:E; [|done]. by injection Hk as -> ->.
  - intros Hv. exists key. rewrite Hv. split; [|done]. apply elem_of_sorted_keys. by rewrite Hv.
Qed.

Lemma entries_keys c : map fst (entries c) = Keys c.
Proof.
  unfold entries. assert (∀ key, key ∈ Keys c → is_Some (values c !! key)) as H by (intros key; apply elem_of_sorted_keys).
  induction (Keys c) as [|key keys IH]; [done|]. destruct (H key (list_elem_of_here _ _)) as [v Hv]. cbn [omap list_omap].
  rewrite Hv. cbn. f_equal. apply IH. intros k Hk. apply H. by apply list_elem_of_further.
Qed.

Lemma entries_back c : foldl (λ m e, <[fst e := snd e]> m) ∅ (entries c) = values c.
Proof.
  assert (NoDup (map fst (entries c))) as Hn by (rewrite entries_keys; apply sorted_keys_NoDup).
  apply map_eq. intros key. rewrite foldl_insert_lookup by done. destruct (values c !! key) as [v|] eqn:Hv.
  - by rewrite (elem_of_list_to_map_1 (M := gmap string) _ key v Hn (proj2 (elem_of_entries c key v) Hv)).
  - destruct (list_to_map (M := gmap string Value) (entries c) !! key) as [v|] eqn:E; [|done].
    apply elem_of_list_to_map_2 in E. apply elem_of_entries in E. congruence.
Qed.

Lemma encoded_decodes c : (∀ key v, values c !! key = Some v → kept key = key ∧ kept (value_text v) = value_text v) →
  decode_values (encoded c +:+ nl) = Some (Some (values c)).
Proof.
  intros Hk. unfold encoded. destruct (entries c) as [|e l] eqn:El.
  { assert (values c = ∅) as ->; [|reflexivity]. by rewrite <- entries_back, El. }
  assert (("{" +:+ nl +:+ join (map entry_line (e :: l)) ("," +:+ nl) +:+ nl +:+ "}") +:+ nl =
          String "{" (lines (e :: l) +:+ nl +:+ String "}" nl)) as ->.
  { unfold lines. cbn [String.append]. rewrite <- !str_app_assoc. reflexivity. }
  destruct (lines_text nl (e :: l)) as (members & Hm & Hh); [done|].
  set (text := String "{" _).
  assert (json_text text (TObject members) nl) as Ht by (eapply text_object; [reflexivity|exact Hm]).
  destruct (proj1 text_value _ _ _ Ht (S (String.length text)) 0) as (x & Hx & Ho); [lia|cbn [height]; rewrite Hh; done|].
  unfold decode_values, Unmarshal. rewrite Hx. destruct x; try done. change (String.eqb (skip_space nl) "") with true. cbv beta iota.
  unfold raw_members. change (skip_space text) with text. unfold text at 1. cbv beta iota.
  assert (∃ y, skip_space (lines (e :: l) +:+ nl +:+ String "}" nl) = String DQ y) as [y Hy].
  { destruct l as [|e' l]; [rewrite lines_one, <- str_app_assoc|rewrite lines_more]; rewrite skip_entry; eauto. }
  rewrite Hy. unfold DQ at 1. cbv beta iota.
  rewrite lines_raw; [|done|].
  - cbn [fmap option_fmap option_map fst]. rewrite decode_lines; [by rewrite <- El, entries_back|].
    intros key v Hin. apply Hk, elem_of_entries. by rewrite El.
  - unfold text. cbn [String.length]. rewrite str_length_app. cut (length (e :: l) ≤ String.length (lines (e :: l)))%nat; [lia|].
    clear. induction (e :: l) as [|e0 [|e' l'] IH]; [simpl; lia|unfold lines; simpl; lia|].
    pose proof (f_equal String.length (lines_more e0 e' l' "")) as Hl. rewrite !str_app_nil_r in Hl. rewrite Hl.
    rewrite !str_length_app. cbn [length String.length] in *. lia.
Qed.

(** C18: A saved configuration loads back: whatever keys and values the process holds, as long as they are
    text, the file save writes is read by Load as the same keys, the same values to the byte
    and the same marks of which are secret — quotes, newlines, control characters and what HTML
    would take for markup included. *)
Theorem a_saved_configuration_loads_back malformed c :
  map_Forall (λ key v, Valid key = true ∧ Valid (value_text v) = true) (values c) →
  Load malformed (stateDir c) (inr (Some (save_text c))) = inr (c, true).
Proof.
  intros Hv. unfold Load, save_text. rewrite encoded_decodes; [by destruct c|].
  intros key v Hl. destruct (Hv key v Hl) as [H1 H2]. unfold kept. by rewrite !kept_valid.
Qed.

Definition a_configuration : Config :=
  mkConfig "/srv/gronin" {["api_token" := mkValue ("s3" +:+ dq +:+ nl +:+ "<&>") true; "checkout" := mkValue "/srv/é" false]}.

Lemma a_saved_configuration_loads_back_witness :
  map_Forall (λ key v, Valid key = true ∧ Valid (value_text v) = true) (values a_configuration) ∧
  Load Text "/srv/gronin" (inr (Some (save_text a_configuration))) = inr (a_configuration, true).
Proof.
  assert (map_Forall (λ key v, Valid key = true ∧ Valid (value_text v) = true) (values a_configuration)) as Hv.
  { apply map_Forall_to_list. vm_compute. repeat constructor. }
  split; [exact Hv|]. exact (a_saved_configuration_loads_back Text a_configuration Hv).
Defined.

(** What is no object is refused, but for a null, which leaves no map to set a value in. *)
Example other_files :
  map (λ text, Load Text "/srv/gronin" (inr (Some text))) ["[]"; "null"; "{}"; "{" +:+ json_quote "k" +:+ ": 1}"] =
  [inl (wrap_before "parsing configuration" (Text "[]")); inr (mkConfig "/srv/gronin" ∅, false); inr (mkConfig "/srv/gronin" ∅, true);
   inl (wrap_before "parsing configuration" (Text ("{" +:+ json_quote "k" +:+ ": 1}")))].
Proof. vm_compute. reflexivity. Qed.

(** A value that is not UTF-8 is not the one that is read back. *)
Example bytes_are_replaced :
  let c := mkConfig "/srv/gronin" {["k" := mkValue (str (byte_chr 255)) true]} in
  Load Text "/srv/gronin" (inr (Some (save_text c))) = inr (mkConfig "/srv/gronin" {["k" := mkValue (encode_rune replacement_char) true]}, true).
Proof. vm_compute. reflexivity. Qed.
