(* ===== verification/IndexReports.v ===== *)
(** A report's passages, [ReportPassages] of [passage.go] of [src/runtime/internal/index]: its
    string and number values in the order it writes them, read from the decoder's tokens. *)
From S2P Require Import Prelude GoStr GoTime Playbook GoJson GoRunes GoJsonTokens IndexPassage.
From S2P Require Import GoMarshal GoJsonRead GoJsonTokens IndexPassage.

(** An open object or array; [f_expectingKey] is an object's. *)
Record frame := mkFrame { f_array : bool; f_expectingKey : bool }.

(** The stack's top is its first element. *)
Record reading := mkReading {
  r_stack : list frame; r_headsNext : bool; r_joined : string; r_spans : list span }.
Definition unread_yet : reading := mkReading [] false "" [].

(** The closure [value], on the flag, the text and the spans. *)
Definition value (literal : string) (headsNext : bool) (joined : string) (spans : list span)
  : bool * string * list span :=
  let joined := if (0 <? String.length joined)%nat then joined +:+ nl +:+ nl else joined in
  let start := String.length joined in
  let joined := joined +:+ literal in
  (false, joined, spans ++ [mkSpan start (String.length joined) headsNext]).

Definition filledValueSlot (stack : list frame) : list frame :=
  match stack with mkFrame false _ :: stack => mkFrame false true :: stack | stack => stack end.

Definition isKey (stack : list frame) : bool :=
  match stack with mkFrame false expecting :: _ => expecting | _ => false end.

Definition keyRead (stack : list frame) : list frame :=
  match stack with mkFrame array _ :: stack => mkFrame array false :: stack | [] => [] end.

Definition parentIsArray (stack : list frame) : bool :=
  match stack with mkFrame array _ :: _ => array | [] => false end.

Definition add_value (literal : string) (r : reading) : reading :=
  let '(headsNext, joined, spans) := value literal (r_headsNext r) (r_joined r) (r_spans r) in
  mkReading (filledValueSlot (r_stack r)) headsNext joined spans.

Definition with_stack (stack : list frame) (r : reading) : reading :=
  mkReading stack (r_headsNext r) (r_joined r) (r_spans r).

(** One token; [None] is a closing delimiter with nothing open, at which the slice is out of
    bounds. *)
Definition take_token (t : token) (r : reading) : option reading :=
  match t with
  | TDelim c =>
      if Ascii.eqb c "{" || Ascii.eqb c "[" then
        let array := Ascii.eqb c "[" in
        Some (mkReading (mkFrame array (negb array) :: filledValueSlot (r_stack r))
                (if negb array && parentIsArray (r_stack r) then true else r_headsNext r)
                (r_joined r) (r_spans r))
      else match r_stack r with
           | [] => None
           | _ :: stack => Some (with_stack (filledValueSlot stack) r)
           end
  | TString s => if isKey (r_stack r) then Some (with_stack (keyRead (r_stack r)) r) else Some (add_value s r)
  | TNumber literal => Some (add_value literal r)
  | TOther =>
      if isKey (r_stack r) then Some (with_stack (keyRead (r_stack r)) r)
      else Some (with_stack (filledValueSlot (r_stack r)) r)
  end.

(** The loop to the end of the report or an error in it; [None] is the panic of a token, or a
    loop still going when the fuel is spent. *)
Fixpoint read_report (fuel : nat) (dec : decoder) (r : reading) : option reading :=
  match fuel with
  | O => None
  | S fuel =>
      match Token dec with
      | None => Some r
      | Some (t, dec) => match take_token t r with Some r => read_report fuel dec r | None => None end
      end
  end.

Definition ReportPassages (source report : string) : option (list Passage) :=
  match read_report (S (String.length report)) (NewDecoder report) unread_yet with
  | Some r => pack source (r_joined r) (r_spans r)
  | None => None
  end.

Example report_rules :
  let q := json_quote in
  map (λ report, map (λ p, (s_Ordinal p, s_Text p)) (default [] (ReportPassages "run-1" report)))
    ["{" +:+ q "disk" +:+ ": " +:+ q "the value, not the key" +:+ "}";
     "{" +:+ q "ok" +:+ ": true, " +:+ q "note" +:+ ": null, " +:+ q "kept" +:+ ":" +:+ q "the only value" +:+ "}";
     "{" +:+ q "b" +:+ ":" +:+ q "second" +:+ "," +:+ q "a" +:+ ":" +:+ q "first" +:+ "}";
     "{" +:+ q "findings" +:+ ": [{" +:+ q "title" +:+ ":" +:+ q "one" +:+ "," +:+ q "n" +:+ ": 1.5}, {" +:+
       q "title" +:+ ":" +:+ q "two" +:+ "}]}";
     "{" +:+ q "ok" +:+ ": true, " +:+ q "tags" +:+ ": []}"] =
  [[(1%nat, "the value, not the key")]; [(1%nat, "the only value")]; [(1%nat, "second" +:+ nl +:+ nl +:+ "first")];
   [(1%nat, "one" +:+ nl +:+ nl +:+ "1.5"); (2%nat, "two")]; []].
Proof. vm_compute. reflexivity. Qed.

(** ** What holds of a report's passages: they are its values, in the order its document holds
    them, cut as a text is. *)

(** ** What a report says, from its tree *)

(** A value, or the beginning of an object in an array. *)
Inductive mark := MObject | MValue (literal : string).

Fixpoint marks (t : tree) : list mark :=
  match t with
  | TLeaf (TString s) => [MValue s]
  | TLeaf (TNumber literal) => [MValue literal]
  | TLeaf _ => []
  | TArray items => concat (map (λ t, match t with TObject _ => MObject :: marks t | _ => marks t end) items)
  | TObject members => concat (map (λ '(_, t), marks t) members)
  end.

Definition laid := (bool * string * list span)%type.

(** A value stands two lines below the one before it; the first of an object heads a passage. *)
Definition lay (m : mark) (l : laid) : laid :=
  let '(heads, text, spans) := l in
  match m with
  | MObject => (true, text, spans)
  | MValue literal => value literal heads text spans
  end.
Definition lay_all (ms : list mark) (l : laid) : laid := fold_left (λ l m, lay m l) ms l.

(** A document's text and its blocks. *)
Definition report_text (t : tree) : string * list span :=
  let '(_, text, spans) := lay_all (marks t) (false, "", []) in (text, spans).

(** ** The tokens of a tree lay what the tree says *)

Definition laid_of (r : reading) : laid := (r_headsNext r, r_joined r, r_spans r).
Definition reading_of (stack : list frame) (l : laid) : reading := mkReading stack (fst (fst l)) (snd (fst l)) (snd l).

Fixpoint take_tokens (ts : list token) (r : reading) : option reading :=
  match ts with
  | [] => Some r
  | t :: ts => match take_token t r with Some r => take_tokens ts r | None => None end
  end.

Lemma take_tokens_app ts1 ts2 r r1 : take_tokens ts1 r = Some r1 → take_tokens (ts1 ++ ts2) r = take_tokens ts2 r1.
Proof.
  revert r. induction ts1 as [|t ts1 IH]; intros r; simpl; [congruence|].
  destruct (take_token t r); [apply IH|done].
Qed.

Lemma lay_all_app ms1 ms2 l : lay_all (ms1 ++ ms2) l = lay_all ms2 (lay_all ms1 l).
Proof. apply fold_left_app. Qed.

Definition marks_in (stack : list frame) (t : tree) : list mark :=
  match t with TObject _ => if parentIsArray stack then MObject :: marks t else marks t | _ => marks t end.

Lemma filled_array stack : filledValueSlot (mkFrame true false :: stack) = mkFrame true false :: stack.
Proof. done. Qed.

Lemma filled_twice stack : filledValueSlot (filledValueSlot stack) = filledValueSlot stack.
Proof. by destruct stack as [|[[] e] stack]. Qed.

Lemma add_value_laid literal stack l : add_value literal (reading_of stack l) =
  reading_of (filledValueSlot stack) (lay (MValue literal) l).
Proof. by destruct l as [[heads text] spans]. Qed.

(** [TDelim] of another character is no token of a tree. *)
Fixpoint proper (t : tree) : Prop :=
  match t with
  | TLeaf (TDelim _) => False
  | TLeaf _ => True
  | TArray items => fold_right (λ t P, proper t ∧ P) True items
  | TObject members => fold_right (λ '(_, t) P, proper t ∧ P) True members
  end.

Lemma tree_laid t : proper t → ∀ stack l, isKey stack = false →
  take_tokens (flat t) (reading_of stack l) = Some (reading_of (filledValueSlot stack) (lay_all (marks_in stack t) l)).
Proof.
  induction t as [tok|items IH|members IH] using tree_nested_ind; intros Hp stack l Hk.
  - destruct tok as [c|s|literal|]; [done| | |]; cbn [flat take_tokens take_token r_stack reading_of].
    + rewrite Hk. by destruct l as [[heads text] spans].
    + by destruct l as [[heads text] spans].
    + rewrite Hk. by destruct l as [[heads text] spans].
  - cbn [flat take_tokens]. change (take_token (TDelim "[") (reading_of stack l)) with
      (Some (reading_of (mkFrame true false :: filledValueSlot stack) l)). cbv beta iota.
    assert (∀ l, take_tokens (concat (map flat items)) (reading_of (mkFrame true false :: filledValueSlot stack) l) =
      Some (reading_of (mkFrame true false :: filledValueSlot stack) (lay_all (marks (TArray items)) l))) as Hi.
    { clear l. induction items as [|t items IHi]; intros l; [done|]. destruct Hp as [Hp1 Hp2].
      apply Forall_cons in IH as [Ht IH]. cbn [map concat]. erewrite take_tokens_app; [|by apply Ht].
      rewrite filled_array, IHi by done. cbn [marks map concat]. rewrite lay_all_app. by destruct t. }
    erewrite take_tokens_app; [|apply Hi]. cbn. by rewrite filled_twice.
  - cbn [flat take_tokens]. assert (take_token (TDelim "{") (reading_of stack l) =
      Some (reading_of (mkFrame false true :: filledValueSlot stack)
        (lay_all (if parentIsArray stack then [MObject] else []) l))) as ->.
    { destruct l as [[heads text] spans]. cbn. by destruct (parentIsArray stack). }
    assert (∀ l, take_tokens (concat (map (λ '(key, t), TString key :: flat t) members))
        (reading_of (mkFrame false true :: filledValueSlot stack) l) =
      Some (reading_of (mkFrame false true :: filledValueSlot stack) (lay_all (marks (TObject members)) l))) as Hm.
    { clear l. induction members as [|[key t] members IHm]; intros l; [done|]. destruct Hp as [Hp1 Hp2].
      apply Forall_cons in IH as [Ht IH]. cbn [map concat app take_tokens].
      change (take_token (TString key) (reading_of (mkFrame false true :: filledValueSlot stack) l)) with
        (Some (reading_of (mkFrame false false :: filledValueSlot stack) l)). cbv beta iota.
      erewrite take_tokens_app; [|by apply Ht].
      change (filledValueSlot (mkFrame false false :: filledValueSlot stack)) with (mkFrame false true :: filledValueSlot stack).
      rewrite IHm by done. cbn [marks map concat]. rewrite lay_all_app.
      cbn [snd]. replace (marks_in (mkFrame false false :: filledValueSlot stack) t) with (marks t) by (by destruct t). done. }
    erewrite take_tokens_app; [|apply Hm]. rewrite <- lay_all_app. cbn [take_tokens].
    replace (marks_in stack (TObject members)) with ((if parentIsArray stack then [MObject] else []) ++ marks (TObject members))
      by (unfold marks_in; by destruct (parentIsArray stack)).
    cbn -[filledValueSlot lay_all marks]. unfold with_stack. rewrite filled_twice. done.
Qed.

(** ** The loop reads a document to its end *)

Lemma read_report_tokens dec l dec' : tokens dec l dec' → ∀ n r r',
  take_tokens l r = Some r' → read_report (length l + n) dec r = read_report n dec' r'.
Proof.
  induction 1 as [|dec t dec1 l dec2 Ht _ IH]; intros n r r'; simpl; [by intros [= ->]|].
  rewrite Ht. destruct (take_token t r); [apply IH|done].
Qed.

Lemma json_text_proper :
  (∀ s t rest, json_text s t rest → proper t) ∧
  (∀ s items rest, items_text s items rest → proper (TArray items)) ∧
  (∀ s members rest, members_text s members rest → proper (TObject members)).
Proof.
  apply json_text_mutind; simpl; try done.
  intros s t rest. unfold scalar, plain. repeat (case_match; try (by intros [= <- _]); try done).
Qed.

Lemma read_report_document report v : Unmarshal report = Some v →
  ∃ t rest, json_text report t rest ∧ skip_space rest = "" ∧
    read_report (S (String.length report)) (NewDecoder report) unread_yet =
      Some (reading_of [] (lay_all (marks t) (false, "", []))).
Proof.
  unfold Unmarshal. destruct (json_value _ 0 report) as [[w rest]|] eqn:E; [|done].
  destruct (String.eqb_spec (skip_space rest) "") as [Hr|]; [|done]. intros _.
  apply json_value_text in E as [t Ht]. exists t, rest. split; [done|]. split; [done|].
  pose proof (proj1 text_tokens _ _ _ Ht tokenTopValue [] eq_refl) as Hk. pose proof (tokens_length _ _ _ Hk) as Hl.
  simpl in Hl. replace (S (String.length report)) with (length (flat t) + S (String.length report - length (flat t)))%nat by lia.
  rewrite (read_report_tokens _ _ _ Hk _ _ _ (tree_laid t (proj1 json_text_proper _ _ _ Ht) [] (false, "", []) eq_refl)).
  cbn [read_report]. unfold Token. cbn [Token_go]. rewrite Hr. by destruct t.
Qed.

(** ** Whatever the report, the loop ends with a text covered by its blocks *)

Lemma str_drop_app_le n s t : (n <= String.length s)%nat → str_drop n (s +:+ t) = str_drop n s +:+ t.
Proof. revert n. induction s as [|c s IH]; intros [|n] Hn; simpl in *; [done|lia|done|apply IH; lia]. Qed.

Lemma str_take_app_le n s t : (n <= String.length s)%nat → str_take n (s +:+ t) = str_take n s.
Proof. revert n. induction s as [|c s IH]; intros [|n] Hn; simpl in *; [by destruct t|lia|done|rewrite IH by lia; done]. Qed.

Lemma slice_app_l text more a b : (b <= String.length text)%nat → slice (text +:+ more) a b = slice text a b.
Proof.
  intros Hb. unfold slice. destruct (decide (a <= b)%nat); [|by replace (b - a)%nat with 0%nat by lia; destruct (str_drop _ _), (str_drop _ _)].
  rewrite str_drop_app_le by lia. apply str_take_app_le. rewrite str_drop_length. lia.
Qed.

Lemma covers_more text more a spans b : (b <= String.length text)%nat →
  covers text a spans b → covers (text +:+ more) a spans b.
Proof.
  intros Hb. assert (∀ a b, (b <= String.length text)%nat → white text a b → white (text +:+ more) a b) as Hw.
  { clear. intros a b Hb (Hab & l & Hl & Hf). split; [done|]. exists l. by rewrite slice_app_l. }
  revert a. induction spans as [|[s e] spans IH]; intros a; simpl; [by apply Hw|]. intros (H1 & H2 & H3).
  apply covers_le in H3 as Hle. split; [apply Hw; [lia|done]|]. by split; [|apply IH].
Qed.

Definition laid_well (l : laid) : Prop :=
  let '(_, text, spans) := l in utf8 text ∧ covers_spans text 0 spans (String.length text).

Lemma lay_well literal l : utf8 literal → laid_well l → laid_well (lay (MValue literal) l).
Proof.
  destruct l as [[heads text] spans]. intros Hu [Ht Hc]. unfold lay, value, laid_well.
  set (gap := if (0 <? String.length text)%nat then nl +:+ nl else "").
  replace (if (0 <? String.length text)%nat then text +:+ nl +:+ nl else text) with (text +:+ gap)
    by (unfold gap; destruct (0 <? _)%nat; [done|apply str_app_nil_r]).
  assert (utf8 gap) as Hg by (unfold gap; destruct (0 <? _)%nat; apply ascii_only_utf8; reflexivity).
  split; [by apply utf8_app; [apply utf8_app|]|]. unfold covers_spans. rewrite map_app.
  apply covers_app with (b := String.length text).
  { rewrite <- str_app_assoc. apply covers_more; [done|exact Hc]. }
  simpl. split; [|split; [rewrite !str_length_app; lia|apply white_nil]].
  rewrite <- str_app_assoc, str_length_app. apply white_at with (l := if (0 <? String.length text)%nat then [nl; nl] else []).
  - rewrite str_drop_app. apply has_prefix_spec. by exists literal.
  - unfold gap. by destruct (0 <? _)%nat.
  - destruct (0 <? _)%nat; repeat constructor.
Qed.

Lemma take_token_well t r r' : token_utf8 t → take_token t r = Some r' → laid_well (laid_of r) → laid_well (laid_of r').
Proof.
  intros Hu. destruct r as [stack heads text spans]. unfold laid_of. destruct t as [c|s|literal|]; simpl.
  - destruct (_ || _); [by intros [= <-]|]. destruct stack; [done|]. by intros [= <-].
  - destruct (isKey stack); intros [= <-]; [done|]. apply (lay_well _ (heads, text, spans)), Hu.
  - intros [= <-]. apply (lay_well _ (heads, text, spans)), Hu.
  - destruct (isKey stack); by intros [= <-].
Qed.

Lemma filled_length stack : length (filledValueSlot stack) = length stack.
Proof. by destruct stack as [|[[] e] stack]. Qed.

(** A closing delimiter always has something to close. *)
Lemma take_token_goes dec t dec' r : Token dec = Some (t, dec') → length (r_stack r) = length (d_stack dec) →
  ∃ r', take_token t r = Some r' ∧ length (r_stack r') = length (d_stack dec').
Proof.
  unfold Token. generalize 2%nat as n. intros n. revert dec. induction n as [|n IH]; [done|].
  intros [state stack s]. cbn [Token_go d_stack]. destruct (skip_space s) as [|c rest]; [done|].
  assert (∀ s t rest state', scalar s = Some (t, rest) → length (r_stack r) = length stack →
    ∃ r', take_token t r = Some r' ∧ length (r_stack r') = length (d_stack (mkDecoder state' stack rest))) as Hs.
  { clear. intros s t rest state' Hs Hl. destruct r as [rs heads text spans]. simpl in Hl. destruct t as [c|u|literal|].
    - exfalso. revert Hs. unfold scalar, plain. repeat (case_match; try done).
    - simpl. destruct (isKey rs); eexists; (split; [reflexivity|]); simpl; [by destruct rs as [|[] rs]|by rewrite filled_length].
    - eexists. split; [reflexivity|]. simpl. by rewrite filled_length.
    - simpl. destruct (isKey rs); eexists; (split; [reflexivity|]); simpl; [by destruct rs as [|[] rs]|by rewrite filled_length]. }
  destruct (Ascii.eqb_spec c "[") as [->|]; [|destruct (Ascii.eqb_spec c "]") as [->|]; [|destruct (Ascii.eqb_spec c "{") as [->|];
    [|destruct (Ascii.eqb_spec c "}") as [->|]]]].
  1, 3: destruct (tokenValueAllowed state); [|done]; intros [= <- <-] Hl; eexists; split; [reflexivity|]; simpl; by rewrite filled_length, Hl.
  1, 2: destruct state; try done; (destruct stack as [|outer stack]; [done|]); intros [= <- <-] Hl;
    destruct (r_stack r) as [|f rs] eqn:Er; try done; eexists; simpl; rewrite Er; (split; [reflexivity|]); simpl; rewrite filled_length;
    simpl in Hl; lia.
  destruct (Ascii.eqb c ":"); [destruct state; try done; intros H Hl; exact (IH _ H Hl)|].
  destruct (Ascii.eqb c ","); [destruct state; try done; intros H Hl; exact (IH _ H Hl)|].
  destruct state; cbn [tokenValueAllowed d_stack]; try done;
    try (destruct (Ascii.eqb c DQ); [|done]);
    (destruct (scalar (String c rest)) as [[u r2]|] eqn:E; [|done]); intros [= <- <-] Hl; exact (Hs _ _ _ tokenTopValue E Hl).
Qed.

Lemma read_report_ends fuel : ∀ dec r, (String.length (d_unread dec) < fuel)%nat →
  length (r_stack r) = length (d_stack dec) → laid_well (laid_of r) →
  ∃ r', read_report fuel dec r = Some r' ∧ laid_well (laid_of r').
Proof.
  induction fuel as [|fuel IH]; intros dec r Hf Hl Hw; [lia|]. cbn [read_report].
  destruct (Token dec) as [[t dec']|] eqn:E; [|eauto]. destruct (take_token_goes _ _ _ _ E Hl) as (r' & Hr & Hl').
  rewrite Hr. apply IH; [apply Token_go_shorter in E; lia|done|]. apply (take_token_well t r); [by eapply Token_utf8|done|done].
Qed.

(** ** The passages *)

(** A report is cut as it says: whatever bytes a run recorded, its passages are stretches of
    one text, each its own bytes at its offset and at most 1024 of them, numbered from one, in
    order, with nothing but white space left out; and where the bytes are a JSON document, that
    text is its strings and its numbers in the order the document holds them, whatever its keys,
    its booleans and its nulls, and the first value of each object in an array begins a block
    that heads a passage. *)
Theorem a_report_is_cut_as_it_says source report :
  ∃ text spans passages,
    ReportPassages source report = Some passages ∧ pack source text spans = Some passages ∧
    Forall (exact_passage source text) passages ∧ map s_Ordinal passages = seq 1 (length passages) ∧
    covers text 0 (map extent passages) (String.length text) ∧
    ∀ v, Unmarshal report = Some v → ∃ t rest, json_text report t rest ∧ skip_space rest = "" ∧ report_text t = (text, spans).
Proof.
  destruct (read_report_ends (S (String.length report)) (NewDecoder report) unread_yet) as (r & Hr & Hw); [simpl; lia|done| |].
  { split; [constructor|apply white_nil]. }
  destruct r as [stack heads text spans]. destruct Hw as [Hu Hc].
  destruct (cut_all_total text spans (valid_synced (String.length text) _ (utf8_valid _ _ Hu (le_n _))) 0 Hc) as [pieces Hp].
  exists text, spans, (pack_from source text pieces None 0). unfold ReportPassages. rewrite Hr. cbn [r_joined r_spans].
  assert (pack source text spans = Some (pack_from source text pieces None 0)) as Hpack by (unfold pack; by rewrite Hp).
  apply cut_all_covers with (a := 0%nat) in Hp as [Hcp Hf]; [|done].
  destruct (pack_from_covers source text pieces None 0 0 (String.length text) (le_n _) Hf Hcp) as (H1 & H2 & H3).
  do 5 (split; [done|]). intros v Hv. destruct (read_report_document _ _ Hv) as (t & rest & Ht & Hrest & Hread).
  exists t, rest. split; [done|]. split; [done|]. rewrite Hr in Hread. unfold report_text.
  destruct (lay_all _ _) as [[h x] sp]. by injection Hread as _ _ -> ->.
Qed.

Lemma a_report_is_cut_as_it_says_witness :
  let report := "{" +:+ json_quote "findings" +:+ ": [{" +:+ json_quote "title" +:+ ": " +:+ json_quote "disk" +:+
    ", " +:+ json_quote "n" +:+ ": 1.5}, {" +:+ json_quote "title" +:+ ": " +:+ json_quote "swap" +:+ "}]}" in
  ∃ passages t rest, ReportPassages "run-1" report = Some passages ∧ map s_Ordinal passages = [1%nat; 2%nat] ∧
    json_text report t rest ∧ pack "run-1" (fst (report_text t)) (snd (report_text t)) = Some passages.
Proof.
  intros report. destruct (a_report_is_cut_as_it_says "run-1" report) as (text & spans & passages & Hr & Hp & _ & Ho & _ & Hv).
  destruct (Hv (AMap [("findings", AList [AMap [("title", AString "disk"); ("n", ANumber "1.5")];
    AMap [("title", AString "swap")]])])) as (t & rest & Ht & _ & Htext); [vm_compute; reflexivity|].
  exists passages, t, rest. rewrite Htext. split; [exact Hr|]. split; [|split; [exact Ht|exact Hp]].
  revert Hr. clear. vm_compute. intros Hr. injection Hr as <-. reflexivity.
Defined.
