(* ===== verification/Index.v ===== *)
(** A collection's index: [walk.go], [reports.go] and [index.go] of
    [src/runtime/internal/index], and [reports.go] of the retrieve stage.

    What a directory lists and what reading a file gives are arguments.  The database is its
    three tables; a transaction is a function from the tables it begins with to the tables it
    leaves, the failures SQLite may add being arguments. *)
From S2P Require Import Prelude GoStr GoTime GoPath GoErr Playbook GoJson GoRunes GoMarshal Sha256.
From S2P Require Import Records RunRecords Collections IndexPassage IndexReports.

Definition sha256_hex (content : string) : string := EncodeToString (sha256 (bytes_of content)).

(** ** [walk.go] *)

Definition MaxDocumentBytes : nat := Z.to_nat (Z.shiftl 1 20).

Definition ReasonSymlink : string := "symbolic link, not followed".
Definition ReasonTooLarge : string := "larger than 1 MiB".
Definition ReasonNotText : string := "not text".
Definition ReasonNotRegular : string := "not a regular file".

Record Document := mkDocument { d_Source : string; d_Digest : string; d_Bytes : Z }.
Record Skipped := mkSkipped { k_Source : string; k_Reason : string }.

(** [held] is a reports source's content, in hand; a directory's is read again under [root]. *)
Record Walk := mkWalk {
  w_Documents : list Document; w_Skipped : list Skipped; w_root : string;
  w_held : option (gmap string string); w_passages : string → string → list Passage }.

(** A directory's passages; its documents are text, of which [TextPassages] always makes some. *)
Definition text_passages (source content : string) : list Passage := default [] (TextPassages source content).

(** What a walk of a directory is given of an entry: its path in it, the error of listing it,
    what kind of file it is with its size, and what reading it up to a byte past the bound
    gives. *)
Inductive file_kind := Symlink | Directory | Regular (size : Z) | Irregular.
Record entry := mkEntry {
  e_Path : string; e_Source : string; e_Listed : option gerror; e_Context : option gerror;
  e_Info : gerror + file_kind; e_Content : gerror + string }.

Definition errGrew : gerror := Sentinel "it grew past the document bound while it was read".

Definition readDocument (file : gerror + string) : gerror + string :=
  match file with
  | inl err => inl err
  | inr content => if (MaxDocumentBytes <? String.length content)%nat then inl errGrew else inr content
  end.

Fixpoint holds_nul (s : string) : bool :=
  match s with EmptyString => false | String c s => (byte_of c =? 0) || holds_nul s end.

Definition is_text (content : string) : bool := negb (holds_nul content) && Valid content.

Definition document_of (source content : string) : Document :=
  mkDocument source (sha256_hex content) (Z.of_nat (String.length content)).

(** The function the walk calls on an entry below its root. *)
Definition walk_entry (e : entry) (w : Walk) : gerror + Walk :=
  let skip reason :=
    inr (mkWalk (w_Documents w) (w_Skipped w ++ [mkSkipped (e_Source e) reason]) (w_root w) (w_held w) (w_passages w)) in
  match e_Listed e, e_Context e with
  | Some err, _ => inl (wrap_before ("reading " +:+ e_Path e) err)
  | None, Some err => inl err
  | None, None =>
      match e_Info e with
      | inl err => inl (wrap_before ("reading " +:+ e_Path e) err)
      | inr Symlink => skip ReasonSymlink
      | inr Directory => inr w
      | inr Irregular => skip ReasonNotRegular
      | inr (Regular size) =>
          if Z.of_nat MaxDocumentBytes <? size then skip ReasonTooLarge
          else
            match readDocument (e_Content e) with
            | inl err => inl (wrap_before ("reading " +:+ e_Path e) err)
            | inr content =>
                if negb (is_text content) then skip ReasonNotText
                else inr (mkWalk (w_Documents w ++ [document_of (e_Source e) content]) (w_Skipped w)
                            (w_root w) (w_held w) (w_passages w))
            end
      end
  end.

Fixpoint walk_entries (entries : list entry) (w : Walk) : gerror + Walk :=
  match entries with
  | [] => inr w
  | e :: entries => let* w := walk_entry e w in walk_entries entries w
  end.

(** [root] is what resolving and examining the directory gives. *)
Definition WalkDirectory (dir : string) (root : gerror + (string * bool)) (entries : list entry) : gerror + Walk :=
  match root with
  | inl err => inl (wrap_before ("the collection's directory " +:+ dir +:+ " cannot be read") err)
  | inr (_, false) => inl (Text ("the collection's directory " +:+ dir +:+ " is not a directory"))
  | inr (root, true) => walk_entries entries (mkWalk [] [] root None text_passages)
  end.

(** ** [reports.go] *)

Record Report := mkReport { r_Source : string; r_Content : string }.

(** A report always has passages, if only none ([a_report_is_cut_as_it_says]). *)
Definition report_passages (source content : string) : list Passage := default [] (ReportPassages source content).

Definition reportsWalkOf (reports : list Report) : Walk :=
  mkWalk (map (λ r, document_of (r_Source r) (r_Content r)) reports) [] ""
    (Some (foldl (λ held r, <[r_Source r := r_Content r]> held) ∅ reports)) report_passages.

Definition ReportsWalk (fetched : gerror + list Report) : gerror + Walk :=
  match fetched with inl err => inl err | inr reports => inr (reportsWalkOf reports) end.

(** [ReportsOf] of the retrieve stage, over what the record gives of the runs and their blobs. *)
Fixpoint read_reports (get : string → gerror + string) (indexable : list IndexableReport) : gerror + list Report :=
  match indexable with
  | [] => inr []
  | one :: indexable =>
      match get (x_ReportRef one) with
      | inl err => inl (wrap_before ("reading the report of run " +:+ x_RunID one) err)
      | inr content => let* rest := read_reports get indexable in inr (mkReport (x_RunID one) content :: rest)
      end
  end.
Definition ReportsOf (store : option ((gerror + list IndexableReport) * (string → gerror + string)))
  : gerror + list Report :=
  match store with
  | None => inl (Text "this deployment was given no record store to read reports from")
  | Some (inl err, _) => inl err
  | Some (inr indexable, get) => read_reports get indexable
  end.

(** ** What an index was built from *)

Definition Tokenizer : string := "unicode61".

Record Configuration := mkConfiguration { c_SourceKind : string; c_Source : string }.
Definition DirectoryConfiguration (dir : string) : Configuration := mkConfiguration "directory" dir.
Definition ReportsConfiguration (playbooks : list string) : Configuration :=
  mkConfiguration "reports" (join playbooks ",").

(** [SourceWalk] of the retrieve stage: the walk and the configuration of a collection, over what
    resolving and listing a directory gives, and what the record gives. *)
Definition SourceWalk (listed : string → (gerror + (string * bool)) * list entry)
    (store : option ((gerror + list IndexableReport) * (string → gerror + string))) (collection : Collection)
  : (gerror + Walk) * Configuration :=
  let dir := Collections.c_Directory collection in
  if negb (String.eqb dir "") then
    (let '(root, entries) := listed dir in WalkDirectory dir root entries, DirectoryConfiguration dir)
  else
    (ReportsWalk (ReportsOf store), ReportsConfiguration (default [] (c_Reports collection))).

Definition json_field (key value : string) : string := marshal_string key +:+ ":" +:+ marshal_string value.
Definition Identity (c : Configuration) : string :=
  sha256_hex ("{" +:+ json_field "passage_rule" PassageRule +:+ "," +:+ json_field "tokenizer" Tokenizer
              +:+ "," +:+ json_field "source_kind" (c_SourceKind c)
              +:+ "," +:+ json_field "source" (c_Source c) +:+ "}").

(** The zero Generation is that of an index that holds none. *)
Record Generation := mkGeneration { g_ID : string; g_Identity : string; g_BuiltAt : Z }.
Definition no_generation : Generation := mkGeneration "" "" 0.
Definition Short (g : Generation) : string :=
  if (String.length (g_ID g) <? 12)%nat then g_ID g else str_take 12 (g_ID g).

Definition NUL : ascii := "000".
Definition pair_text (p : string * string) : string := nl +:+ fst p +:+ String NUL (snd p).
Definition generation_text (identity : string) (pairs : list (string * string)) : string :=
  identity +:+ String.concat "" (map pair_text (order_by (λ a b, String.leb (fst a) (fst b)) pairs)).
Definition generationOfPairs (identity : string) (pairs : list (string * string)) : string :=
  sha256_hex (generation_text identity pairs).
Definition pairs_of (documents : list Document) : list (string * string) :=
  map (λ d, (d_Source d, d_Digest d)) documents.
Definition GenerationOf (identity : string) (documents : list Document) : string :=
  generationOfPairs identity (pairs_of documents).

(** ** The database *)

(** The tables; [documents] is keyed by source. *)
Record tables := mkTables {
  t_generation : option Generation; t_documents : gmap string (string * Z); t_passages : list Passage }.
Definition no_tables : tables := mkTables None ∅ [].

(** [StoredDocument] has a Document's fields. *)
Record Stored := mkStored { s_Generation : Generation; s_Documents : list Document }.

Definition readGeneration (t : tables) : Generation := default no_generation (t_generation t).

Definition readStored (t : tables) : Stored :=
  mkStored (readGeneration t)
    (map (λ source, let '(digest, bytes) := default ("", 0) (t_documents t !! source) in
                    mkDocument source digest bytes) (sorted_keys (t_documents t))).

(** *** [Compare] *)

Record Comparison := mkComparison {
  p_Target : string; p_Changed : bool; p_Added : Z; p_Modified : Z; p_Removed : list string;
  p_marks : gmap string string; p_indexed : bool }.

Definition Mark (c : Comparison) (source : string) : string :=
  if negb (p_indexed c) then "not indexed" else default "" (p_marks c !! source).

Definition held_digests (documents : list Document) : gmap string string :=
  foldl (λ held d, <[d_Source d := d_Digest d]> held) ∅ documents.

Definition mark_one (held : gmap string string) (d : Document) (c : Comparison) : Comparison :=
  let marked mark added modified :=
    mkComparison (p_Target c) (p_Changed c) (p_Added c + added) (p_Modified c + modified) (p_Removed c)
      (<[d_Source d := mark]> (p_marks c)) (p_indexed c) in
  match held !! d_Source d with
  | None => marked "added" 1 0
  | Some digest => if String.eqb digest (d_Digest d) then marked "unchanged" 0 0 else marked "changed" 0 1
  end.

Definition Compare (cfg : Configuration) (stored : Stored) (walk : Walk) : Comparison :=
  let identity := Identity cfg in
  let target := GenerationOf identity (w_Documents walk) in
  let same := String.eqb (g_Identity (s_Generation stored)) identity in
  let held := if same then held_digests (s_Documents stored) else ∅ in
  let c := foldl (λ c d, mark_one held d c)
             (mkComparison target (negb (String.eqb target (g_ID (s_Generation stored)))) 0 0 [] ∅
                (negb (String.eqb (g_ID (s_Generation stored)) ""))) (w_Documents walk) in
  let present := map d_Source (w_Documents walk) in
  mkComparison (p_Target c) (p_Changed c) (p_Added c) (p_Modified c)
    (map d_Source (List.filter (λ d, negb (bool_decide (d_Source d ∈ present)) || negb same) (s_Documents stored)))
    (p_marks c) (p_indexed c).

(** ** Failures *)

(** What an operation on the index fails with: a transaction that could not begin, COMMIT giving
    up on a reader, a document that changed while it was indexed, another update committed
    first, or anything else; [busy] is whether SQLite said the database is held. *)
Inductive failure :=
| Fails (err : gerror) (busy : bool)
| BeginFails (err : gerror) (busy : bool)
| CommitBusy (wait : Z) (err : gerror)
| Changed (source : string)
| Moved.

Definition ErrHeld : gerror := Sentinel "the index is held by another connection".
Definition errMoved : gerror := Sentinel "another update committed a generation since this one read it".
Definition errNoRoot : gerror :=
  Sentinel "this walk was not made by WalkDirectory, so its documents cannot be read again".

Definition failure_error (f : failure) : gerror :=
  match f with
  | Fails err _ | BeginFails err _ => err
  | CommitBusy wait err =>
      Wrap ("COMMIT waited " +:+ Duration_String wait +:+ " for a reader to let go of the index and gave up; "
            +:+ "the previous generation stays in place: " +:+ Error err) [err]
  | Changed source => Text (source +:+ " changed while it was being indexed")
  | Moved => errMoved
  end.
Definition isBusy (f : failure) : bool :=
  match f with Fails _ busy | BeginFails _ busy => busy | CommitBusy _ _ => true | Changed _ | Moved => false end.
Definition isBegin (f : failure) : bool := match f with BeginFails _ _ => true | _ => false end.

(** How a context ended. *)
Inductive ctx_end := DeadlineExceeded | Canceled.
Definition ctx_error (c : ctx_end) : gerror :=
  match c with
  | DeadlineExceeded => Sentinel "context deadline exceeded"
  | Canceled => Sentinel "context canceled"
  end.

(** An error of a transaction that never took its lock, given how the context had ended. *)
Definition beginFailure (ctx : option ctx_end) (f : failure) : failure :=
  match f with
  | BeginFails _ _ => f
  | _ =>
      let ended := match ctx with
                   | Some c => errors_is (failure_error f) (ctx_error c)
                   | None => false
                   end in
      if isBusy f || ended then BeginFails (failure_error f) (isBusy f) else f
  end.

(** What a wait for a held index ends with: the operation's own failure, or the context's end
    with what the operation last came to. *)
Inductive settled := Own (f : failure) | AtBound (held : bool) (c : ctx_end) (last : option failure).

Definition joined (c : ctx_end) (last : option failure) : gerror :=
  default (ctx_error c)
    (errors_join (ctx_error c :: match last with Some f => [failure_error f] | None => [] end)).
Definition settled_error (s : settled) : gerror :=
  match s with
  | Own f => failure_error f
  | AtBound true c last => Wrap (Error ErrHeld +:+ ": " +:+ Error (joined c last)) [ErrHeld; joined c last]
  | AtBound false c last => joined c last
  end.

Definition heldAtBound (c : ctx_end) (last : option failure) : settled :=
  let held := match c, last with DeadlineExceeded, Some f => isBegin f | _, _ => false end in
  AtBound held c last.

(** A try of the operation: what it came to, and how the context had ended after it and after
    the pause that follows one that found the index held. *)
Record try A := mkTry {
  y_result : failure + A; y_after : option ctx_end; y_paused : option ctx_end }.
Arguments mkTry {A} _ _ _. Arguments y_result {A} _. Arguments y_after {A} _. Arguments y_paused {A} _.

(** [None] is a loop still going when the tries are spent. *)
Fixpoint retryBusy {A} (held : bool) (tries : list (try A)) : option (settled + A) :=
  match tries with
  | [] => None
  | y :: tries =>
      let last := match y_result y with inl f => Some f | inr _ => None end in
      match y_result y with
      | inl (CommitBusy wait err) => Some (inl (Own (CommitBusy wait err)))
      | result =>
          match held, y_after y with
          | true, Some c => Some (inl (heldAtBound c last))
          | _, _ =>
              match result with
              | inr a => Some (inr a)
              | inl f =>
                  if negb (isBusy f) then Some (inl (Own f))
                  else match y_paused y with
                       | Some c => Some (inl (heldAtBound c (Some f)))
                       | None => retryBusy true tries
                       end
              end
          end
      end
  end.

(** ** Updating *)

Record change := mkChange {
  h_everything : bool; h_remove : list string; h_add : list Document; h_walk : Walk }.

Definition difference (identity : string) (read : Stored) (walk : Walk) (rebuild : bool) : change :=
  if rebuild || negb (String.eqb (g_Identity (s_Generation read)) identity) then
    mkChange true [] (w_Documents walk) walk
  else
    let held := held_digests (s_Documents read) in
    let differs d := match held !! d_Source d with
                     | None => true | Some digest => negb (String.eqb digest (d_Digest d)) end in
    let modified d := match held !! d_Source d with
                      | None => false | Some digest => negb (String.eqb digest (d_Digest d)) end in
    let present := map d_Source (w_Documents walk) in
    mkChange false
      (map d_Source (List.filter modified (w_Documents walk)) ++
       map d_Source (List.filter (λ d, negb (bool_decide (d_Source d ∈ present))) (s_Documents read)))
      (List.filter differs (w_Documents walk)) walk.

(** [disk] is what reading a path gives, when the document is indexed. *)
Definition contentOf (disk : string → gerror + string) (w : Walk) (d : Document) : failure + string :=
  let digested content := if String.eqb (sha256_hex content) (d_Digest d) then inr content else inl (Changed (d_Source d)) in
  match w_held w with
  | Some held =>
      match held !! d_Source d with
      | None => inl (Fails (Text (d_Source d +:+ " is not among this walk's documents")) false)
      | Some content => digested content
      end
  | None =>
      if String.eqb (w_root w) "" then inl (Fails errNoRoot false)
      else
        match readDocument (disk (Join [w_root w; d_Source d])) with
        | inl err => inl (Fails (wrap_before ("reading " +:+ d_Source d) err) false)
        | inr content => digested content
        end
  end.

(** [DELETE FROM passages WHERE source = ?] and the document's row. *)
Definition remove_source (t : tables) (source : string) : tables :=
  mkTables (t_generation t) (delete source (t_documents t))
    (List.filter (λ p, negb (String.eqb (s_Source p) source)) (t_passages t)).

(** [insert] is what SQLite fails a source's insertions with, other than the source being there. *)
Definition add_document (disk : string → gerror + string) (insert : string → option (gerror * bool))
    (w : Walk) (t : tables) (d : Document) : failure + tables :=
  let* content := contentOf disk w d in
  match t_documents t !! d_Source d, insert (d_Source d) with
  | Some _, _ =>
      inl (Fails (wrap_before ("indexing " +:+ d_Source d)
                    (Text "constraint failed: UNIQUE constraint failed: documents.source")) false)
  | None, Some (err, busy) => inl (Fails (wrap_before ("indexing " +:+ d_Source d) err) busy)
  | None, None =>
      inr (mkTables (t_generation t) (<[d_Source d := (d_Digest d, d_Bytes d)]> (t_documents t))
             (t_passages t ++ w_passages w (d_Source d) content))
  end.

Fixpoint add_all (disk : string → gerror + string) (insert : string → option (gerror * bool))
    (w : Walk) (t : tables) (add : list Document) : failure + tables :=
  match add with
  | [] => inr t
  | d :: add => let* t := add_document disk insert w t d in add_all disk insert w t add
  end.

(** What SQLite adds to a transaction: that it cannot begin, that reading the generation, a
    deletion or a source's insertions fail, that a statement fails once its documents were
    applied, and COMMIT's own failure with how long it waited. *)
Record sqlite := mkSqlite {
  q_begin : option (gerror * bool); q_read : option (gerror * bool); q_delete : option (gerror * bool);
  q_insert : string → option (gerror * bool); q_statement : option (gerror * bool);
  q_commit : option (Z * gerror * bool) }.

Definition deletes (c : change) : bool := h_everything c || negb (bool_decide (h_remove c = [])).

Definition apply (disk : string → gerror + string) (q : sqlite) (c : change) (t : tables) : failure + tables :=
  match q_delete q, deletes c with
  | Some (err, busy), true => inl (Fails err busy)
  | _, _ =>
      let t := if h_everything c then mkTables (t_generation t) ∅ [] else t in
      add_all disk (q_insert q) (h_walk c) (foldl remove_source t (h_remove c)) (h_add c)
  end.

(** The transaction: what it came to, the tables after it - those it found unless it committed -
    and whether every document it adds was read unchanged. *)
Definition commit (identity : string) (now : Z) (disk : string → gerror + string) (q : sqlite)
    (readID : string) (diff : change) (target : string) (t : tables) : (failure + Generation) * tables * bool :=
  match q_begin q with
  | Some (err, busy) => (inl (BeginFails err busy), t, false)
  | None =>
      match q_read q with Some (err, busy) => (inl (Fails err busy), t, false) | None =>
      if negb (String.eqb (g_ID (readGeneration t)) readID) then (inl Moved, t, false)
      else
        match apply disk q diff t with
        | inl f => (inl f, t, false)
        | inr applied =>
            let next := mkGeneration target identity now in
            match q_statement q, q_commit q with
            | Some (err, busy), _ => (inl (Fails err busy), t, true)
            | None, Some (wait, err, true) => (inl (CommitBusy wait err), t, true)
            | None, Some (_, err, false) => (inl (Fails err false), t, true)
            | None, None => (inr next, mkTables (Some next) (t_documents applied) (t_passages applied), true)
            end
        end
      end
  end.

(** *** The loop of an update *)

Definition maxRewalks : nat := 10.

(** A round of the loop: how the context had ended at its top, what reading the stored generation
    came to, what committing a change came to with whether a try of it read every document it
    adds unchanged, whether the caller set a bound, what walking the sources again gives, and
    how the context had ended when the round failed. *)
Record round := mkRound {
  n_top : option ctx_end; n_read : settled + Stored;
  n_commit : string → change → string → (settled + Generation) * bool;
  n_bounded : bool; n_rewalk : gerror + Walk; n_failed : option ctx_end }.

Definition inner (s : settled) : option failure := match s with Own f => Some f | AtBound _ _ last => last end.
Definition as_changed (s : settled) : bool := match inner s with Some (Changed _) => true | _ => false end.
Definition is_moved (s : settled) : bool := match inner s with Some Moved => true | _ => false end.

(** The error of a failed update, with the file that kept it from finishing. *)
Definition fail (changed : option gerror) (ctx : option ctx_end) (err : gerror) : gerror :=
  match changed, ctx with
  | Some file, Some _ => if errors_is err ErrHeld then err else default err (errors_join [err; file])
  | _, _ => err
  end.

Fixpoint write (identity : string) (rebuild : bool) (rounds : list round) (walk : Walk)
    (changed : option gerror) (rewalks : nat) : option (gerror + Generation) :=
  match rounds with
  | [] => None
  | n :: rounds =>
      match n_top n with
      | Some c => Some (inl (fail changed (Some c) (ctx_error c)))
      | None =>
          let target := GenerationOf identity (w_Documents walk) in
          match n_read n with
          | inl err => Some (inl (fail changed (n_failed n) (settled_error err)))
          | inr read =>
              if negb rebuild && String.eqb (g_ID (s_Generation read)) target then Some (inr (s_Generation read))
              else
                let (result, unchanged) :=
                  n_commit n (g_ID (s_Generation read)) (difference identity read walk rebuild) target in
                let changed := if (unchanged : bool) then None else changed in
                match result with
                | inr generation => Some (inr generation)
                | inl err =>
                    if as_changed err then
                      let rewalks := S rewalks in
                      if negb (n_bounded n) && (maxRewalks <=? rewalks)%nat then
                        Some (inl (wrap_after (settled_error err)
                                     (" again on each of " +:+ show_nat rewalks +:+ " walks")))
                      else
                        match n_rewalk n with
                        | inl err' => Some (inl (fail (Some (settled_error err)) (n_failed n) err'))
                        | inr walk => write identity rebuild rounds walk (Some (settled_error err)) rewalks
                        end
                    else if is_moved err then write identity rebuild rounds walk changed rewalks
                    else Some (inl (fail changed (n_failed n) (settled_error err)))
                end
          end
      end
  end.

Definition Update (identity : string) (rounds : list round) (walk : Walk) : option (gerror + Generation) :=
  write identity false rounds walk None 0.
Definition Rebuild (identity : string) (rounds : list round) (walk : Walk) : option (gerror + Generation) :=
  write identity true rounds walk None 0.
