(* ===== verification/IndexSafe.v ===== *)
(** What holds of a collection's index: a walk accounts for every entry, and an index always
    holds the whole of one walk of its sources, whichever way it came to. *)
From S2P Require Import Prelude GoStr GoTime GoPath GoErr Playbook GoJson GoRunes GoMarshal Sha256.
From S2P Require Import Records RunRecords Collections IndexPassage Index.

(** ** Contents and the tables built of them *)

(** Evaluating a digest settles nothing here. *)
#[local] Opaque sha256_hex.

Section holds.
Context (p : string → string → list Passage) (labelled : ∀ s c, Forall (λ x, s_Source x = s) (p s c)).

Definition row (c : string) : string * Z := (sha256_hex c, Z.of_nat (String.length c)).

(** The tables hold exactly the documents of [C], by source, and their passages. *)
Definition holds (C : gmap string string) (t : tables) : Prop :=
  t_documents t = row <$> C ∧
  t_passages t ≡ₚ (map_to_list C ≫= λ sc, p (fst sc) (snd sc)).

Lemma filter_passages_keep s (l : list (string * string)) :
  (∀ sc, sc ∈ l → fst sc ≠ s) →
  List.filter (λ x, negb (String.eqb (s_Source x) s)) (l ≫= λ sc, p (fst sc) (snd sc)) =
  (l ≫= λ sc, p (fst sc) (snd sc)).
Proof.
  intros H. induction l as [|[s' c] l IH]; [done|]. cbn [mbind list_bind]. rewrite List.filter_app, IH.
  - f_equal. specialize (H (s', c) ltac:(left)). simpl in *. pose proof (labelled s' c) as Hl.
    induction Hl as [|x m Hx _ IHm]; [done|]. simpl. rewrite Hx, IHm.
    by apply String.eqb_neq in H as ->.
  - intros sc Hin. apply H. by right.
Qed.

Lemma filter_passages_drop s c : List.filter (λ x, negb (String.eqb (s_Source x) s)) (p s c) = [].
Proof. induction (labelled s c) as [|x m Hx _ IH]; [done|]. simpl. by rewrite Hx, String.eqb_refl. Qed.

Lemma filter_perm {A} (f : A → bool) l l' : l ≡ₚ l' → List.filter f l ≡ₚ List.filter f l'.
Proof.
  induction 1 as [|x l l' _ IH|x y l|l1 l2 l3 _ IH1 _ IH2]; simpl; [done| | |by rewrite IH1].
  - destruct (f x); by rewrite IH.
  - destruct (f x), (f y); try done. apply Permutation_swap.
Qed.

Lemma bind_perm l l' : l ≡ₚ l' →
  (l ≫= λ sc : string * string, p (fst sc) (snd sc)) ≡ₚ (l' ≫= λ sc, p (fst sc) (snd sc)).
Proof. intros H. by rewrite H. Qed.

Lemma remove_holds C t s : holds C t → holds (delete s C) (remove_source t s).
Proof.
  intros [Hd Hp]. split; simpl; [by rewrite Hd, fmap_delete|].
  rewrite (filter_perm _ _ _ Hp). destruct (C !! s) as [c|] eqn:E.
  - rewrite (filter_perm _ _ _ (bind_perm _ _ (symmetry (map_to_list_delete C s c E)))).
    cbn [mbind list_bind fst snd]. rewrite List.filter_app, filter_passages_drop, filter_passages_keep; [done|].
    intros [s' c'] Hin%elem_of_map_to_list He. simpl in *. subst. by rewrite lookup_delete_eq in Hin.
  - rewrite delete_id by done. rewrite filter_passages_keep; [done|].
    intros [s' c'] Hin%elem_of_map_to_list He. simpl in *. congruence.
Qed.

Lemma remove_all_holds R : ∀ C t, holds C t → holds (foldl (λ C s, delete s C) C R) (foldl remove_source t R).
Proof. induction R as [|s R IH]; intros C t H; [done|]. simpl. apply IH. by apply remove_holds. Qed.

Lemma lookup_remove_all R : ∀ (C : gmap string string) s,
  foldl (λ C s, delete s C) C R !! s = if decide (s ∈ R) then None else C !! s.
Proof.
  induction R as [|r R IH]; intros C s; simpl; [done|]. rewrite IH.
  destruct (decide (s ∈ R)), (decide (s ∈ r :: R)) as [H|H]; try set_solver.
  - apply elem_of_cons in H as [->|]; [apply lookup_delete_eq|done].
  - apply lookup_delete_ne. set_solver.
Qed.

(** Documents to be added, with their contents, as the walk's reader gives them. *)
Definition docs (L : list (string * string)) : list Document := map (λ sc, document_of (fst sc) (snd sc)) L.
Definition reads (disk : string → gerror + string) (w : Walk) (L : list (string * string)) : Prop :=
  Forall (λ sc, contentOf disk w (document_of (fst sc) (snd sc)) = inr (snd sc)) L.

Lemma add_all_holds disk w L : ∀ C t,
  w_passages w = p → reads disk w L → NoDup (L.*1) → (∀ s, s ∈ L.*1 → C !! s = None) → holds C t →
  ∃ t', add_all disk (λ _, None) w t (docs L) = inr t' ∧ holds (list_to_map L ∪ C) t' ∧ t_generation t' = t_generation t.
Proof.
  induction L as [|[s c] L IH]; intros C t Hw Hr Hn Hc Ht.
  { exists t. cbn [docs map add_all]. split; [done|]. simpl. by rewrite (left_id_L ∅ (∪)). }
  apply Forall_cons in Hr as [Hr1 Hr]. apply NoDup_cons in Hn as [Hn1 Hn]. cbn [docs map add_all].
  unfold add_document. rewrite Hr1. cbn [fst snd] in *. destruct Ht as [Hd Hp].
  assert (C !! s = None) as Hs by (apply Hc; left).
  change (d_Source (document_of s c)) with s. rewrite Hd, lookup_fmap, Hs. simpl.
  destruct (IH (<[s:=c]> C) (mkTables (t_generation t)
      (<[s:=(d_Digest (document_of s c), d_Bytes (document_of s c))]> (row <$> C)) (t_passages t ++ w_passages w s c))
    Hw Hr Hn) as (t' & Ha & Hh & Hg).
  - intros s' Hs'. rewrite lookup_insert_ne; [apply Hc; by right|]. intros ->. done.
  - split; simpl; [by rewrite fmap_insert|].
    rewrite Hp, (bind_perm _ _ (map_to_list_insert C s c Hs)), Hw. cbn [mbind list_bind fst snd].
    by rewrite Permutation_app_comm.
  - exists t'. split; [exact Ha|]. split; [|exact Hg]. simpl.
    rewrite <- insert_union_l, insert_union_r; [done|]. by apply not_elem_of_list_to_map_1.
Qed.

(** ** The difference *)

Lemma held_digests_lookup (f : string → Document) keys s :
  (∀ k, d_Source (f k) = k) →
  held_digests (map f keys) !! s = if decide (s ∈ keys) then Some (d_Digest (f s)) else None.
Proof.
  intros Hf. unfold held_digests.
  assert (∀ (acc : gmap string string), foldl (λ held d, <[d_Source d := d_Digest d]> held) acc (map f keys) !! s =
    if decide (s ∈ keys) then Some (d_Digest (f s)) else acc !! s) as H; [|by rewrite H].
  induction keys as [|k keys IH]; intros acc; simpl; [done|]. rewrite IH, Hf.
  destruct (decide (s ∈ keys)), (decide (s ∈ k :: keys)); try set_solver.
  - assert (s = k) as -> by set_solver. apply lookup_insert_eq.
  - apply lookup_insert_ne. set_solver.
Qed.

Definition stored_document (t : tables) (source : string) : Document :=
  let '(digest, bytes) := default ("", 0) (t_documents t !! source) in mkDocument source digest bytes.

Lemma stored_source t s : d_Source (stored_document t s) = s.
Proof. unfold stored_document. by destruct (default _ _). Qed.

Lemma held_stored C t s :
  holds C t → held_digests (s_Documents (readStored t)) !! s = sha256_hex <$> C !! s.
Proof.
  intros [Hd _]. change (s_Documents (readStored t)) with (map (stored_document t) (sorted_keys (t_documents t))).
  rewrite held_digests_lookup by apply stored_source. unfold stored_document. rewrite Hd, lookup_fmap.
  destruct (decide (s ∈ sorted_keys (row <$> C))) as [H|H].
  - apply elem_of_sorted_keys in H as [x Hx]. rewrite lookup_fmap in Hx. by destruct (C !! s).
  - destruct (C !! s) as [c|] eqn:E; [|done]. destruct H. apply elem_of_sorted_keys.
    exists (row c). by rewrite lookup_fmap, E.
Qed.

Lemma stored_sources C t s : holds C t → s ∈ map d_Source (s_Documents (readStored t)) ↔ is_Some (C !! s).
Proof.
  intros [Hd _]. change (s_Documents (readStored t)) with (map (stored_document t) (sorted_keys (t_documents t))).
  rewrite map_map, (map_ext _ id), map_id by apply stored_source.
  rewrite elem_of_sorted_keys, Hd, lookup_fmap. by rewrite fmap_is_Some.
Qed.

Lemma filter_docs (f : Document → bool) L :
  List.filter f (docs L) = docs (List.filter (λ sc, f (document_of (fst sc) (snd sc))) L).
Proof. induction L as [|sc L IH]; [done|]. simpl. rewrite IH. by destruct (f _). Qed.

Lemma docs_sources L : map d_Source (docs L) = L.*1.
Proof. unfold docs. by rewrite map_map. Qed.

Lemma NoDup_fst_filter {A B} (f : A * B → bool) (L : list (A * B)) : NoDup (L.*1) → NoDup ((List.filter f L).*1).
Proof.
  induction L as [|sc L IH]; simpl; [done|]. intros [Hn H]%NoDup_cons. destruct (f sc); [|auto].
  simpl. apply NoDup_cons. split; [|auto]. intros (x & Hx & Hin)%list_elem_of_fmap. apply Hn.
  rewrite Hx. apply list_elem_of_fmap. exists x. split; [done|]. apply list_elem_of_In, filter_In in Hin as [Hin _].
  by apply list_elem_of_In.
Qed.

(** What the sources held when a walk was taken, as a walk of them gives it. *)
Definition walked (w : Walk) (L : list (string * string)) : Prop :=
  w_passages w = p ∧ w_Documents w = docs L ∧ NoDup (L.*1).

(** No two contents at hand, of one source, have one digest. *)
Definition distinguished (C : gmap string string) (L : list (string * string)) : Prop :=
  ∀ s c c', C !! s = Some c → (s, c') ∈ L → sha256_hex c = sha256_hex c' → c = c'.

(** A change that SQLite fails nowhere. *)
Definition add_change (disk : string → gerror + string) (c : change) (t : tables) : failure + tables :=
  let t := if h_everything c then mkTables (t_generation t) ∅ [] else t in
  add_all disk (λ _, None) (h_walk c) (foldl remove_source t (h_remove c)) (h_add c).

Lemma everything_holds disk w L t g :
  walked w L → reads disk w L →
  ∃ t', add_change disk (mkChange true [] (docs L) w) (mkTables g (t_documents t) (t_passages t)) = inr t' ∧
        holds (list_to_map L) t' ∧ t_generation t' = g.
Proof.
  intros (Hw & _ & Hn) Hr.
  destruct (add_all_holds disk w L ∅ (mkTables g ∅ []) Hw Hr Hn) as (t' & Ha & Hh & Hg); [done| |].
  - split; [|done]. simpl. by rewrite fmap_empty.
  - exists t'. split; [exact Ha|]. by rewrite (right_id_L ∅ (∪)) in Hh.
Qed.

Lemma apply_difference_holds identity disk w L C old t rebuild :
  walked w L →
  (rebuild = false → g_Identity (readGeneration old) = identity → holds C old ∧ holds C t ∧ distinguished C L) →
  (∀ A, (∀ sc, sc ∈ A → sc ∈ L) → h_add (difference identity (readStored old) w rebuild) = docs A → reads disk w A) →
  ∃ t', add_change disk (difference identity (readStored old) w rebuild) t = inr t' ∧
        holds (list_to_map L) t' ∧ t_generation t' = t_generation t.
Proof.
  intros Hwalk Hsame. unfold difference. pose proof Hwalk as (Hw & Hd & Hn). rewrite Hd.
  change (s_Generation (readStored old)) with (readGeneration old). destruct (_ || _) eqn:Eall.
  { intros Hr. destruct t as [g ds ps]. apply (everything_holds disk w L (mkTables g ds ps) g Hwalk). by apply Hr. }
  apply orb_false_iff in Eall as [-> Ei]. apply negb_false_iff, String.eqb_eq in Ei.
  destruct (Hsame eq_refl Ei) as (Ho & Ht & Hx). clear Hsame. cbn [h_add].
  set (held := held_digests _).
  set (differs := λ d, match held !! d_Source d with None => true | Some x => negb (String.eqb x (d_Digest d)) end).
  set (modified := λ d, match held !! d_Source d with None => false | Some x => negb (String.eqb x (d_Digest d)) end).
  rewrite docs_sources, !filter_docs, docs_sources. intros Hr.
  set (R := _ ++ _). set (A := List.filter _ L).
  set (C' := foldl (λ C s, delete s C) C R).
  assert (∀ s, C' !! s = if decide (s ∈ R) then None else C !! s) as HC' by apply lookup_remove_all.
  assert (∀ s c, (s, c) ∈ L → (s, c) ∈ A ↔ C !! s ≠ Some c) as HA.
  { intros s c Hin. unfold A. rewrite list_elem_of_In, filter_In, <- list_elem_of_In. unfold differs. cbn [fst snd].
    change (d_Source (document_of s c)) with s. change (d_Digest (document_of s c)) with (sha256_hex c).
    unfold held. rewrite (held_stored C old s Ho). destruct (C !! s) as [c0|] eqn:E; simpl; [|by split].
    rewrite negb_true_iff, String.eqb_neq. split.
    - intros [_ Hne] [= ->]. done.
    - intros Hne. split; [done|]. intros He. apply Hne. f_equal. by eapply Hx. }
  assert (∀ s, s ∈ R ↔ is_Some (C !! s) ∧ ∀ c, (s, c) ∈ L → C !! s ≠ Some c) as HR.
  { intros s. unfold R. rewrite elem_of_app. split.
    - intros [H|H].
      + apply list_elem_of_fmap in H as ([s' c] & -> & H). apply list_elem_of_In, filter_In in H as [Hin H].
        apply list_elem_of_In in Hin. unfold modified in H. cbn [fst snd] in *.
        change (d_Source (document_of s' c)) with s' in H. unfold held in H. rewrite (held_stored C old s' Ho) in H.
        destruct (C !! s') as [c0|]; [|done]. split; [done|]. intros c' Hc' [= ->]. simpl in H.
        apply negb_true_iff, String.eqb_neq in H. apply H. f_equal.
        clear -Hn Hin Hc'. apply elem_of_list_to_map_1 in Hin, Hc'; [|done..]. congruence.
      + apply list_elem_of_fmap in H as (d & -> & H). apply list_elem_of_In, filter_In in H as [Hin H].
        apply negb_true_iff, bool_decide_eq_false in H. apply list_elem_of_In in Hin. split.
        * apply (stored_sources C old); [done|]. apply list_elem_of_fmap. by exists d.
        * intros c Hc _. apply H. apply list_elem_of_fmap. by exists (d_Source d, c).
    - intros [[c0 Hc0] Hne]. destruct (decide (s ∈ L.*1)) as [Hin|Hin].
      + left. apply list_elem_of_fmap in Hin as ([s' c] & -> & Hin). apply list_elem_of_fmap. exists (s', c).
        split; [done|]. apply list_elem_of_In, filter_In. split; [by apply list_elem_of_In|].
        unfold modified. cbn [fst snd] in *. change (d_Source (document_of s' c)) with s'. unfold held.
        rewrite (held_stored C old s' Ho), Hc0. simpl. apply negb_true_iff, String.eqb_neq. intros He.
        apply (Hne c Hin). rewrite Hc0. f_equal. by eapply Hx.
      + right. assert (s ∈ map d_Source (s_Documents (readStored old))) as Hs
          by (apply (stored_sources C old); [done|by exists c0]).
        apply list_elem_of_fmap in Hs as (d & -> & Hd'). apply list_elem_of_fmap. exists d. split; [done|].
        apply list_elem_of_In, filter_In. split; [by apply list_elem_of_In|]. by rewrite bool_decide_eq_false_2. }
  destruct (add_all_holds disk w A C' (foldl remove_source t R)) as (t' & Ha & Hh & Hg).
  - done.
  - apply Hr; [|done]. intros sc Hin. apply list_elem_of_In, filter_In in Hin as [Hin _]. by apply list_elem_of_In.
  - by apply NoDup_fst_filter.
  - intros s (sc & -> & Hin)%list_elem_of_fmap. destruct sc as [s c]. cbn [fst]. rewrite HC'.
    assert ((s, c) ∈ L) as HinL. { apply list_elem_of_In, filter_In in Hin as [Hin _]. by apply list_elem_of_In. }
    apply (HA s c HinL) in Hin. destruct (decide (s ∈ R)) as [|Hs]; [done|].
    destruct (C !! s) as [c0|] eqn:E; [|done]. destruct Hs. apply HR. rewrite E. split; [done|].
    intros c' Hc'. assert (c' = c) as ->; [|done].
    apply elem_of_list_to_map_1 in HinL, Hc'; [|done..]. congruence.
  - by apply remove_all_holds.
  - exists t'. split; [exact Ha|]. split.
    + replace (list_to_map L) with (list_to_map A ∪ C' : gmap string string); [exact Hh|].
      apply map_eq. intros s. rewrite lookup_union, HC'.
      assert (NoDup (A.*1)) as HnA by by apply NoDup_fst_filter.
      destruct (list_to_map L !! s) as [c|] eqn:E.
      * apply elem_of_list_to_map_2 in E. destruct (decide (C !! s = Some c)) as [Hc|Hc].
        -- destruct (list_to_map A !! s) as [c'|] eqn:EA.
           ++ exfalso. apply elem_of_list_to_map_2 in EA.
              assert ((s, c') ∈ L) as HinL. { apply list_elem_of_In, filter_In in EA as [Hin _]. by apply list_elem_of_In. }
              apply (HA s c' HinL) in EA. apply elem_of_list_to_map_1 in E, HinL; [|done..]. congruence.
           ++ rewrite decide_False; [by rewrite Hc|]. intros [_ H]%HR. by apply (H c).
        -- apply (HA s c E) in Hc. apply (elem_of_list_to_map_1 A) in Hc; [|done]. rewrite Hc. by apply union_Some_l.
      * assert (s ∉ L.*1) as HnL by by apply not_elem_of_list_to_map_2.
        assert (list_to_map A !! s = (None : option string)) as ->.
        { apply not_elem_of_list_to_map_1. intros (sc & -> & Hin)%list_elem_of_fmap. apply HnL.
          apply list_elem_of_fmap. exists sc. split; [done|]. apply list_elem_of_In, filter_In in Hin as [Hin _]. by apply list_elem_of_In. }
        destruct (decide (s ∈ R)) as [|Hs]; [done|]. destruct (C !! s) as [c|] eqn:EC; [|done].
        destruct Hs. apply HR. rewrite EC. split; [done|]. intros c' Hc'. destruct HnL. apply list_elem_of_fmap. by exists (s, c').
    + rewrite Hg. generalize R. clear. intros R. revert t. induction R as [|r R IH]; intros t; [done|]. simpl. by rewrite IH.
Qed.
End holds.

(** ** The loop of an update *)

(** A round whose commit does not lose to another update's. *)
Definition steady (n : round) : Prop :=
  ∀ id c target err u, n_commit n id c target = (inl err, u) → is_moved err = false.

Section updating.
Context (identity : string) (rebuild : bool).

(** A round that commits the difference of a walk, and what the commit came to. *)
Definition commits (n : round) (walk : Walk) (result : settled + Generation) : Prop :=
  n_top n = None ∧ ∃ read unchanged,
    n_read n = inr read ∧ (rebuild = true ∨ g_ID (s_Generation read) ≠ GenerationOf identity (w_Documents walk)) ∧
    n_commit n (g_ID (s_Generation read)) (difference identity read walk rebuild) (GenerationOf identity (w_Documents walk)) =
      (result, unchanged).

(** Rounds that decide nothing, from one walk to another: [changes] of them found a file changed
    since its walk, and their sources were walked again; the others lost to another update. *)
Inductive goes_on : list round → Walk → nat → Walk → Prop :=
| goes_none walk : goes_on [] walk 0 walk
| goes_changed n l walk err walk' changes last :
    commits n walk (inl err) → as_changed err = true → n_rewalk n = inr walk' →
    goes_on l walk' changes last → goes_on (n :: l) walk (S changes) last
| goes_lost n l walk err changes last :
    commits n walk (inl err) → as_changed err = false → is_moved err = true →
    goes_on l walk changes last → goes_on (n :: l) walk changes last.

(** What a round decides that is not one of those, [changes] of the walks before its own having changed. *)
Inductive decides (n : round) (walk : Walk) (changes : nat) : gerror + Generation → Prop :=
| decides_ended c file : n_top n = Some c → decides n walk changes (inl (fail file (Some c) (ctx_error c)))
| decides_unread err file : n_top n = None → n_read n = inl err → decides n walk changes (inl (fail file (n_failed n) (settled_error err)))
| decides_current read : n_top n = None → n_read n = inr read → rebuild = false →
    g_ID (s_Generation read) = GenerationOf identity (w_Documents walk) → decides n walk changes (inr (s_Generation read))
| decides_committed g : commits n walk (inr g) → decides n walk changes (inr g)
| decides_failed err file : commits n walk (inl err) → as_changed err = false → is_moved err = false →
    decides n walk changes (inl (fail file (n_failed n) (settled_error err)))
| decides_unwalked err err' : commits n walk (inl err) → as_changed err = true → n_rewalk n = inl err' →
    decides n walk changes (inl (fail (Some (settled_error err)) (n_failed n) err'))
(** The tenth walk that changed, itself. *)
| decides_to_give_up err : commits n walk (inl err) → as_changed err = true → changes = 9%nat →
    decides n walk changes (inl (wrap_after (settled_error err) " again on each of 10 walks")).

Definition ends (rounds : list round) (walk : Walk) (found : nat) (r : option (gerror + Generation)) : Prop :=
  ∃ before n after changes last result, rounds = before ++ n :: after ∧ goes_on before walk changes last ∧
    (found + changes < 10)%nat ∧ r = Some result ∧ decides n last (found + changes) result.

Lemma ends_now n rounds walk found result : (found < 10)%nat → decides n walk found result → ends (n :: rounds) walk found (Some result).
Proof. intros Hk Hd. exists [], n, rounds, 0%nat, walk, result. rewrite Nat.add_0_r. split_and!; [done|constructor|done..]. Qed.

Lemma ends_changed n rounds walk found err walk' r : commits n walk (inl err) → as_changed err = true → n_rewalk n = inr walk' →
  ends rounds walk' (S found) r → ends (n :: rounds) walk found r.
Proof.
  intros Hc Ha Hw (before & m & after & changes & last & result & -> & Hg & Hk & -> & Hd).
  exists (n :: before), m, after, (S changes), last, result. rewrite Nat.add_succ_r. split_and!; [done| |exact Hk|done|exact Hd].
  by eapply goes_changed.
Qed.

Lemma ends_lost n rounds walk found err r : commits n walk (inl err) → as_changed err = false → is_moved err = true →
  ends rounds walk found r → ends (n :: rounds) walk found r.
Proof.
  intros Hc Ha Hm (before & m & after & changes & last & result & -> & Hg & Hk & -> & Hd).
  exists (n :: before), m, after, changes, last, result. split_and!; [done| |exact Hk|done|exact Hd]. by eapply goes_lost.
Qed.

(** A round and those after it, which are taken when it decides nothing. *)
Lemma write_round n rounds walk changed found : (found < 10)%nat → n_bounded n = false →
  (∀ walk' changed', (S found < 10)%nat → ends rounds walk' (S found) (write identity rebuild rounds walk' changed' (S found))) →
  (steady n ∨ ∀ changed', ends rounds walk found (write identity rebuild rounds walk changed' found)) →
  ends (n :: rounds) walk found (write identity rebuild (n :: rounds) walk changed found).
Proof.
  intros Hk Hb Hchanged Hlost. cbn [write]. destruct (n_top n) as [c|] eqn:Et; [by apply ends_now, decides_ended|].
  destruct (n_read n) as [err|read] eqn:Er; [by apply ends_now, decides_unread|].
  destruct (negb rebuild && _) eqn:Ec.
  { apply andb_prop in Ec as [H1%negb_true_iff H2%String.eqb_eq]. by apply ends_now, decides_current. }
  destruct (n_commit n _ _ _) as [result unchanged] eqn:En.
  assert (commits n walk result) as Hc.
  { split; [done|]. exists read, unchanged. split; [done|]. split; [|exact En]. apply andb_false_iff in Ec as [H|H].
    - left. by apply negb_false_iff.
    - right. by apply String.eqb_neq. }
  destruct result as [err|g]; [|by apply ends_now, decides_committed].
  rewrite Hb. cbn [negb andb]. destruct (as_changed err) eqn:Ea.
  - destruct (Nat.leb_spec maxRewalks (S found)) as [Hle|Hlt]; unfold maxRewalks in *.
    + assert (found = 9%nat) as -> by lia. apply ends_now; [done|]. by apply decides_to_give_up.
    + destruct (n_rewalk n) as [err'|walk'] eqn:Ew; [by apply ends_now, decides_unwalked|]. eapply ends_changed; [done..|]. by apply Hchanged.
  - destruct (is_moved err) eqn:Em; [|by apply ends_now, decides_failed].
    eapply ends_lost; [done..|]. destruct Hlost as [Hs|Hlost]; [|apply Hlost]. by rewrite (Hs _ _ _ _ _ En) in Em.
Qed.

Lemma write_ends sub rounds : sublist sub rounds →
  Forall steady sub → Forall (λ n, n_bounded n = false) rounds →
  ∀ walk changed found, (found < 10)%nat → (10 - found <= length sub)%nat →
  ends rounds walk found (write identity rebuild rounds walk changed found).
Proof.
  induction 1 as [|n sub rounds Hsub IH|n sub rounds Hsub IH];
    intros Hs Hb walk changed found Hk Hl; [simpl in Hl; lia| |].
  - apply Forall_cons in Hs as [Hn Hs], Hb as [Hb1 Hb]. simpl in Hl. apply write_round; [done..| |by left].
    intros walk' changed' Hlt. apply IH; [done..|lia].
  - apply Forall_cons in Hb as [Hb1 Hb]. apply write_round; [done..| |right].
    + intros walk' changed' Hlt. apply IH; [done..|lia].
    + intros changed'. by apply IH.
Qed.

(** C25: An update whose caller set no bound ends, whatever its sources do meanwhile, when ten of its
    commits at least are not lost to another update's: it goes on past a commit that found a file
    changed since its walk, with the sources walked again, and past one lost to another update,
    and past nothing else; the round it ends with is decided, by the end of its context, by a
    read, a walk or a commit that failed, by the generation being there or being committed; or it
    gives up, at the tenth walk that changed and not before. *)
Theorem an_unbounded_update_ends sub rounds walk :
  sublist sub rounds → Forall steady sub → (10 <= length sub)%nat →
  Forall (λ n, n_bounded n = false) rounds →
  ends rounds walk 0 (write identity rebuild rounds walk None 0).
Proof. intros Hsub Hs Hl Hb. apply (write_ends sub); [done..|lia|lia]. Qed.
End updating.

(** A file that changes under every walk. *)
Definition changing_round : round :=
  mkRound None (inr (mkStored no_generation [])) (λ _ _ _, (inl (Own (Changed "a.log")), false)) false
    (inr (mkWalk [] [] "/srv" None text_passages)) None.

Lemma an_unbounded_update_ends_witness :
  let walk := mkWalk [] [] "/srv" None text_passages in
  ends "i" true (repeat changing_round 10) walk 0 (write "i" true (repeat changing_round 10) walk None 0) ∧
  write "i" true (repeat changing_round 9) walk None 0 = None.
Proof.
  intros walk. split; [|vm_compute; reflexivity].
  apply (an_unbounded_update_ends "i" true (repeat changing_round 10)).
  - reflexivity.
  - apply Forall_forall. intros n ->%list_elem_of_In%repeat_spec id c target err u H. by injection H as <- _.
  - vm_compute. lia.
  - apply Forall_forall. intros n ->%list_elem_of_In%repeat_spec. reflexivity.
Defined.
