(* ===== verification/IndexSearch.v ===== *)
(** A search of a collection's index: [lexical.go] of [src/runtime/internal/index], over the
    tables of an index and SQLite's ranking, which is an argument. *)
From S2P Require Import Prelude GoStr GoTime GoPath GoErr Playbook GoJson GoRunes GoMarshal Sha256.
From S2P Require Import Records RunRecords Collections Host Retrieve IndexPassage Index.
From Stdlib Require Import QArith.
Open Scope Z_scope.

Definition ErrNoWords : gerror := Sentinel "the query holds no word the index can search".

Section search.
Context (indexedRune : string → bool).
(** [bm25 passages match passage] is the score of a passage that [passages MATCH match] selects:
    a number of the counts of words in it and in all of them. *)
Context (bm25 : list Passage → string → Passage → option Q).

Definition hit_of (score : Q) (p : Passage) : Hit :=
  mkHit (s_Source p) (Z.of_nat (s_Ordinal p)) (Z.of_nat (s_Offset p)) (s_Text p) score.

(** [ORDER BY bm25(passages), source, ordinal]. *)
Definition ranked (a b : Hit) : bool :=
  match Qcompare (h_Score a) (h_Score b) with
  | Lt => true
  | Gt => false
  | Eq => match String.compare (h_Source a) (h_Source b) with
          | Lt => true | Gt => false | Eq => h_Ordinal a <=? h_Ordinal b end
  end.

Definition matching (passages : list Passage) (match_ : string) : list Hit :=
  omap (λ p, (λ score, hit_of score p) <$> bm25 passages match_ p) passages.

(** [LIMIT]; SQLite takes a negative one for none. *)
Definition limited (limit : Z) (hits : list Hit) : list Hit := if limit <? 0 then hits else take (Z.to_nat limit) hits.

Definition search_hits (passages : list Passage) (query : string) (limit : Z) : list Hit :=
  limited limit (order_by ranked (matching passages (plainQuery indexedRune query))).

(** What SQLite fails a search with: its BEGIN, reading the generation, the query, and its rows;
    each with whether it said the database is held, and how the context had ended by then. *)
Record search_sql := mkSearchSql {
  z_begin : option (gerror * bool); z_read : option (gerror * bool); z_query : option (gerror * bool);
  z_rows : option (gerror * bool); z_ctx : option ctx_end }.

Definition found_in (t : tables) (hits : list Hit) : Found :=
  let g := readGeneration t in mkFound hits (g_ID g) (Short g) (g_Identity g) (g_BuiltAt g).

(** What a search found, and its failure if it had one. *)
Definition search (z : search_sql) (t : tables) (query : string) (limit : Z) : Found * option failure :=
  let nothing := mkFound [] "" "" "" 0 in
  match z_begin z with
  | Some (err, busy) => (nothing, Some (beginFailure (z_ctx z) (Fails err busy)))
  | None =>
  match z_read z with
  | Some (err, busy) => (nothing, Some (beginFailure (z_ctx z) (Fails err busy)))
  | None =>
      if negb (Searchable indexedRune query) then (found_in t [], Some (Fails ErrNoWords false))
      else
        match z_query z with
        | Some (err, busy) => (nothing, Some (Fails err busy))
        | None =>
            (found_in t (search_hits (t_passages t) query limit), (λ e, Fails (fst e) (snd e)) <$> z_rows z)
        end
  end end.

(** ** The order of the hits *)

Definition ranks (a b : Hit) : Prop := ranked a b = true.

Lemma ranks_total a b : ranks a b ∨ ranks b a.
Proof.
  unfold ranks, ranked. rewrite <- (Qcompare_antisym (h_Score b) (h_Score a)).
  destruct (Qcompare (h_Score b) (h_Score a)); simpl; [|auto..].
  rewrite (String.compare_antisym (h_Source a) (h_Source b)).
  destruct (String.compare (h_Source b) (h_Source a)); simpl; [|auto..].
  destruct (Z.leb_spec (h_Ordinal a) (h_Ordinal b)); [auto|right]. apply Z.leb_le. lia.
Qed.

Lemma compare_lt_le a b : String.compare a b = Lt → String.le a b.
Proof. unfold String.le, String.leb. by intros ->. Qed.

Lemma compare_lt_trans a b c : String.compare a b = Lt → String.compare b c = Lt → String.compare a c = Lt.
Proof.
  intros H1 H2. pose proof (transitivity (compare_lt_le _ _ H1) (compare_lt_le _ _ H2)) as H.
  unfold String.le, String.leb in H. destruct (String.compare a c) eqn:E; [|done..].
  apply String.compare_eq_iff in E as <-. rewrite String.compare_antisym, H1 in H2. discriminate.
Qed.

#[export] Instance ranks_trans : Transitive ranks.
Proof.
  intros a b c. unfold ranks, ranked.
  destruct (Qcompare_spec (h_Score a) (h_Score b)) as [E1|E1|E1]; [|intros _|discriminate].
  - rewrite (Qcompare_comp _ _ E1 _ _ (Qeq_refl (h_Score c))).
    destruct (Qcompare (h_Score b) (h_Score c)); [|done..].
    destruct (String.compare (h_Source a) (h_Source b)) eqn:E2; [|intros _|discriminate].
    + apply String.compare_eq_iff in E2 as ->. destruct (String.compare _ _); [|done..].
      intros H1%Z.leb_le H2%Z.leb_le. apply Z.leb_le. lia.
    + destruct (String.compare (h_Source b) (h_Source c)) eqn:E3; [intros _|intros _|discriminate].
      * apply String.compare_eq_iff in E3 as <-. by rewrite E2.
      * by rewrite (compare_lt_trans _ _ _ E2 E3).
  - destruct (Qcompare_spec (h_Score b) (h_Score c)) as [E2|E2|E2]; [intros _|intros _|discriminate].
    + rewrite E2 in E1. by rewrite (proj1 (Qlt_alt _ _) E1).
    + by rewrite (proj1 (Qlt_alt _ _) (Qlt_trans _ _ _ E1 E2)).
Qed.

(** A passage's place, which no other passage of an index has. *)
Definition place (p : Passage) : string * nat := (s_Source p, s_Ordinal p).

(** The score of a passage is not of the order the rows are in. *)
Definition of_counts : Prop := ∀ ps ps' m x, ps ≡ₚ ps' → bm25 ps m x = bm25 ps' m x.

Lemma ranks_place qa qb x y : ranks (hit_of qa x) (hit_of qb y) → ranks (hit_of qb y) (hit_of qa x) → place x = place y.
Proof.
  unfold ranks, ranked, hit_of, place. cbn [h_Score h_Source h_Ordinal].
  rewrite <- (Qcompare_antisym qa qb), (String.compare_antisym (s_Source y) (s_Source x)).
  destruct (Qcompare qa qb); [|done..]. destruct (String.compare _ _) eqn:E; [|done..].
  apply String.compare_eq_iff in E. intros H1%Z.leb_le H2%Z.leb_le. f_equal; [done|lia].
Qed.

Lemma place_inj ps x y : NoDup (map place ps) → x ∈ ps → y ∈ ps → place x = place y → x = y.
Proof.
  induction ps as [|z ps IH]; intros Hn Hx Hy He; [by apply elem_of_nil in Hx|].
  apply NoDup_cons in Hn as [Hz Hn].
  apply elem_of_cons in Hx as [->|Hx], Hy as [->|Hy]; [done| | |by apply IH].
  - destruct Hz. rewrite He. by apply list_elem_of_fmap_2.
  - destruct Hz. rewrite <- He. by apply list_elem_of_fmap_2.
Qed.

Lemma search_hits_perm ps ps' query limit :
  of_counts → NoDup (map place ps) → ps ≡ₚ ps' → search_hits ps query limit = search_hits ps' query limit.
Proof.
  intros Hb Hn Hp. unfold search_hits. f_equal. set (m := plainQuery _ _).
  apply (order_by_unique ranked); [apply ranks_total| |].
  - intros a b Ha Hb' H1 H2. unfold matching in *.
    apply list_elem_of_omap in Ha as (x & Hx & Ea), Hb' as (y & Hy & Eb).
    apply fmap_Some in Ea as (qa & Ea & ->), Eb as (qb & Eb & ->).
    assert (place x = place y) as He by by eapply ranks_place.
    assert (x = y) as <- by by eapply place_inj. congruence.
  - unfold matching. transitivity (omap (λ x, (λ score, hit_of score x) <$> bm25 ps' m x) ps); [|by rewrite Hp].
    apply reflexive_eq, list_omap_ext, Forall_Forall2_diag, Forall_forall. intros x _. by rewrite (Hb ps ps').
Qed.
End search.
