(* ===== verification/IndexWhole.v ===== *)
(** A collection's index across its updates: what a generation's name says, and that whichever
    way and in whichever order updates commit, the tables hold one whole walk of the sources. *)
From S2P Require Import Prelude GoStr GoTime GoPath GoErr Playbook GoJson GoRunes GoMarshal Sha256.
From S2P Require Import Records RunRecords Collections Host IndexPassage Index IndexSafe IndexSearch.
From Stdlib Require Import QArith.
Open Scope Z_scope.

(** ** A generation's name *)

Definition lacks (c : ascii) (s : string) : bool := str_all (λ x, negb (Ascii.eqb x c)) s.

Lemma lacks_cut c a b x y :
  lacks c a = true → lacks c b = true → a +:+ String c x = b +:+ String c y → a = b ∧ x = y.
Proof.
  revert b. induction a as [|d a IH]; intros [|e b] Ha Hb H.
  - injection H. done.
  - injection H as <- _. unfold lacks in Hb. simpl in Hb. by rewrite Ascii.eqb_refl in Hb.
  - injection H as -> _. unfold lacks in Ha. simpl in Ha. by rewrite Ascii.eqb_refl in Ha.
  - injection H as -> H. unfold lacks in *. simpl in Ha, Hb. apply andb_prop in Ha as [_ Ha], Hb as [_ Hb].
    by destruct (IH b Ha Hb H) as [-> ->].
Qed.

Lemma lacks_cons c a x y : lacks c a = true → a ≠ x +:+ String c y.
Proof.
  revert x. induction a as [|d a IH]; intros [|e x] Ha H; try discriminate.
  - injection H as -> _. unfold lacks in Ha. simpl in Ha. by rewrite Ascii.eqb_refl in Ha.
  - injection H as -> H. unfold lacks in Ha. simpl in Ha. apply andb_prop in Ha as [_ Ha]. by eapply IH.
Qed.

(** A document's source is a path or a run's identifier, and no path holds a NUL; its digest is
    written in hexadecimal. *)
Definition plain (p : string * string) : Prop := lacks NUL (fst p) = true ∧ lacks NL (snd p) = true.

Definition tail_text (l : list (string * string)) : string := String.concat "" (map pair_text l).

Lemma tail_text_cons s d l : tail_text ((s, d) :: l) = String NL (s +:+ String NUL (d +:+ tail_text l)).
Proof.
  unfold tail_text. cbn [map]. unfold pair_text at 1. cbn [fst snd].
  transitivity ((nl +:+ s +:+ String NUL d) +:+ String.concat "" (map pair_text l)).
  - destruct (map pair_text l); simpl; [by rewrite str_app_nil_r|done].
  - simpl. f_equal. by rewrite <- str_app_assoc.
Qed.

Lemma tail_text_inj l : ∀ l' a b,
  lacks NL a = true → lacks NL b = true → Forall plain l → Forall plain l' →
  a +:+ tail_text l = b +:+ tail_text l' → a = b ∧ l = l'.
Proof.
  induction l as [|[s d] l IH]; intros [|[s' d'] l'] a b Ha Hb Hl Hl' H.
  - unfold tail_text in H. cbn [map String.concat] in H. by rewrite !str_app_nil_r in H.
  - exfalso. rewrite tail_text_cons in H. unfold tail_text in H at 1. cbn [map String.concat] in H. rewrite str_app_nil_r in H.
    by apply (lacks_cons NL a b _ Ha) in H.
  - exfalso. rewrite tail_text_cons in H. unfold tail_text in H at 2. cbn [map String.concat] in H. rewrite str_app_nil_r in H.
    symmetry in H. by apply (lacks_cons NL b a _ Hb) in H.
  - rewrite !tail_text_cons in H. apply lacks_cut in H as [-> H]; [|done..].
    apply Forall_cons in Hl as [[Hs Hd] Hl], Hl' as [[Hs' Hd'] Hl'].
    apply lacks_cut in H as [Hss H]; [|done..]. cbn [fst snd] in *. subst s'.
    by destruct (IH l' d d' Hd Hd' Hl Hl' H) as [-> ->].
Qed.

Definition by_source (a b : string * string) : bool := String.leb (fst a) (fst b).

Lemma generation_text_eq identity pairs : generation_text identity pairs = identity +:+ tail_text (order_by by_source pairs).
Proof. done. Qed.

Lemma generation_text_inj i i' l l' :
  lacks NL i = true → lacks NL i' = true → Forall plain l → Forall plain l' →
  generation_text i l = generation_text i' l' → i = i' ∧ l ≡ₚ l'.
Proof.
  intros Hi Hi' Hl Hl' H. rewrite !generation_text_eq in H.
  apply tail_text_inj in H as [-> H]; [|done|done|by rewrite order_by_perm..].
  split; [done|]. by rewrite <- (order_by_perm by_source l), H, order_by_perm.
Qed.

Definition before (a b : string * string) : Prop := String.le (fst a) (fst b).

#[export] Instance before_trans : Transitive before.
Proof. intros a b c. unfold before. apply transitivity. Qed.

Lemma by_source_before a b : by_source a b = true ↔ before a b.
Proof. unfold by_source, before, String.le. symmetry. apply Is_true_true. Qed.

Lemma pairs_in_order l l' : NoDup (l.*1) → l ≡ₚ l' → order_by by_source l = order_by by_source l'.
Proof.
  intros Hn Hp. apply order_by_unique; [intros a b c; rewrite !by_source_before; apply transitivity| | |done].
  - intros a b. unfold by_source. destruct (String.leb_total (fst a) (fst b)); auto.
  - intros [s d] [s' d'] H H' H1%by_source_before H2%by_source_before.
    unfold before in H1, H2. cbn [fst] in *. assert (s = s') as <- by by apply (anti_symm String.le).
    f_equal. apply elem_of_list_to_map_1 in H, H'; [|done..]. congruence.
Qed.

Lemma GenerationOf_perm identity ds ds' :
  NoDup (map d_Source ds) → ds ≡ₚ ds' → GenerationOf identity ds = GenerationOf identity ds'.
Proof.
  intros Hn Hp. unfold GenerationOf, generationOfPairs. rewrite !generation_text_eq. do 2 f_equal.
  f_equal. apply pairs_in_order; [|unfold pairs_of; by rewrite Hp].
  unfold pairs_of. by rewrite <- list_fmap_compose.
Qed.

Lemma sha256_hex_lacks c : lacks NL (sha256_hex c) = true.
Proof.
  eapply (str_all_impl safe_char); [|apply encoded_safe, sha256_bytes].
  intros x Hx. destruct (Ascii.eqb_spec x NL) as [->|]; [discriminate|done].
Qed.

Lemma sha256_hex_ne c : sha256_hex c ≠ "".
Proof.
  unfold sha256_hex. pose proof (sha256_length (bytes_of c)) as H.
  destruct (sha256 (bytes_of c)); [discriminate|done].
Qed.

(** Evaluating a digest settles nothing from here. *)
#[local] Opaque sha256_hex.

(** ** What the tables hold *)

(** No two of the texts at hand have one digest. *)
Definition no_collision (U : string → Prop) : Prop := ∀ a b, U a → U b → sha256_hex a = sha256_hex b → a = b.

(** No two passages of one index have one place. *)
Lemma places_differ (p : string → string → list Passage) C t :
  (∀ s c, Forall (λ x, s_Source x = s) (p s c)) → (∀ s c, NoDup (map s_Ordinal (p s c))) →
  holds p C t → NoDup (map place (t_passages t)).
Proof.
  intros Hl Hn [_ Hp]. rewrite Hp. clear Hp. pose proof (NoDup_fst_map_to_list C) as H.
  induction (map_to_list C) as [|[s c] l IH]; [constructor|]. apply NoDup_cons in H as [Hs H].
  cbn [mbind list_bind]. rewrite map_app. apply NoDup_app. split; [|split; [|by apply IH]].
  - apply (NoDup_fmap_1 snd). rewrite <- list_fmap_compose. apply Hn.
  - intros y (x & -> & Hx)%list_elem_of_fmap (x' & He & Hx')%list_elem_of_fmap.
    apply list_elem_of_bind in Hx' as ([s' c'] & Hx' & Hin). specialize (Hl s c) as H1. specialize (Hl s' c') as H2.
    rewrite Forall_forall in H1. rewrite Forall_forall in H2. apply H1 in Hx. apply H2 in Hx'. cbn [fst] in *.
    injection He as He _. apply Hs. apply list_elem_of_fmap. exists (s', c'). split; [simpl; congruence|done].
Qed.

Section updates.
(** [pass identity] cuts the documents of the configurations with that identity. *)
Context (pass : string → string → string → list Passage)
  (labelled : ∀ i s c, Forall (λ x, s_Source x = s) (pass i s c)) (U : string → Prop).

Definition sourced (identity : string) (L : list (string * string)) : Prop :=
  NoDup (L.*1) ∧ Forall (λ sc, lacks NUL (fst sc) = true ∧ U (snd sc)) L ∧
  U (generation_text identity (pairs_of (docs L))).

(** The tables hold the documents of one walk under the configuration the generation names, all
    of them and nothing else; without a generation they hold nothing. *)
Definition whole (t : tables) : Prop :=
  match t_generation t with
  | None => t_documents t = ∅ ∧ t_passages t = []
  | Some g =>
      ∃ L cfg, g_Identity g = Identity cfg ∧ sourced (g_Identity g) L ∧
        g_ID g = GenerationOf (g_Identity g) (docs L) ∧ holds (pass (g_Identity g)) (list_to_map L) t
  end.

(** [L] is what the sources held when [w] was taken, and what they hold when it is indexed is
    among the texts at hand. *)
Definition taken (identity : string) (disk : string → gerror + string) (w : Walk) (L : list (string * string)) : Prop :=
  walked (pass identity) w L ∧ sourced identity L ∧
  ∀ s c c', (s, c) ∈ L → contentOf disk w (document_of s c) = inr c' → U c'.

Lemma plain_pairs L : Forall (λ sc, lacks NUL (fst sc) = true ∧ U (snd sc)) L → Forall plain (pairs_of (docs L)).
Proof.
  intros H. unfold pairs_of, docs. rewrite map_map. apply Forall_map. eapply Forall_impl; [exact H|].
  intros [s c] [Hs _]. split; [exact Hs|apply sha256_hex_lacks].
Qed.

Lemma elem_of_pairs s x L : (s, x) ∈ pairs_of (docs L) ↔ ∃ c, (s, c) ∈ L ∧ x = sha256_hex c.
Proof.
  unfold pairs_of, docs. rewrite map_map. split.
  - intros ([s' c] & [= -> ->] & H)%list_elem_of_fmap. by exists c.
  - intros (c & H & ->). apply list_elem_of_fmap. by exists (s, c).
Qed.

(** One name, one identity and one set of contents. *)
Lemma one_name i i' L L' :
  no_collision U → lacks NL i = true → lacks NL i' = true → sourced i L → sourced i' L' →
  GenerationOf i (docs L) = GenerationOf i' (docs L') →
  i = i' ∧ (list_to_map L : gmap string string) = list_to_map L'.
Proof.
  intros HU Hi Hi' (Hn & Hf & Hu) (Hn' & Hf' & Hu') He.
  apply HU in He; [|done..].
  apply generation_text_inj in He as [-> Hp]; [|done|done|by apply plain_pairs..].
  split; [done|]. apply map_eq. intros s. rewrite Forall_forall in Hf. rewrite Forall_forall in Hf'.
  assert (∀ A B, (∀ sc, sc ∈ A → lacks NUL (fst sc) = true ∧ U (snd sc)) →
    (∀ sc, sc ∈ B → lacks NUL (fst sc) = true ∧ U (snd sc)) → NoDup (A.*1) → NoDup (B.*1) →
    pairs_of (docs A) ≡ₚ pairs_of (docs B) → ∀ c, (list_to_map A : gmap string string) !! s = Some c →
    (list_to_map B : gmap string string) !! s = Some c) as H.
  { intros A B HA HB HnA HnB HAB c Hc. apply elem_of_list_to_map_2 in Hc.
    assert ((s, sha256_hex c) ∈ pairs_of (docs B)) as Hin by (rewrite <- HAB; apply elem_of_pairs; eauto).
    apply elem_of_pairs in Hin as (c' & Hc' & Hd). apply HU in Hd; [|by apply (HA _ Hc)|by apply (HB _ Hc')].
    subst c'. by apply elem_of_list_to_map_1. }
  apply option_eq. intros c. split; [by apply H|apply H; [done..|by symmetry]].
Qed.

(** ** A commit *)

Lemma contentOf_digest disk w d c : contentOf disk w d = inr c → sha256_hex c = d_Digest d.
Proof.
  unfold contentOf. intros H. assert (∀ c', (if String.eqb (sha256_hex c') (d_Digest d) then inr c'
    else inl (Changed (d_Source d))) = inr c → sha256_hex c = d_Digest d) as Hd.
  { intros c' Hc. destruct (String.eqb_spec (sha256_hex c') (d_Digest d)); [congruence|discriminate]. }
  destruct (w_held w) as [held|]; [destruct (held !! d_Source d); [by eapply Hd|discriminate]|].
  destruct (String.eqb (w_root w) ""); [discriminate|].
  destruct (readDocument _); [discriminate|by eapply Hd].
Qed.

(** Documents that were all indexed were all read as the walk had read them. *)
Lemma indexed_reads disk ins w A : ∀ t t',
  no_collision U → (∀ s c, (s, c) ∈ A → U c ∧ ∀ c', contentOf disk w (document_of s c) = inr c' → U c') →
  add_all disk ins w t (docs A) = inr t' → reads disk w A ∧ add_all disk (λ _, None) w t (docs A) = inr t'.
Proof.
  induction A as [|[s c] A IH]; intros t t' HU HA H; [by split; [constructor|]|].
  cbn [docs map add_all] in *. unfold add_document in *. cbn [fst snd] in *.
  destruct (contentOf disk w (document_of s c)) as [f|c'] eqn:E; [discriminate|].
  assert (c' = c) as ->.
  { destruct (HA s c) as [Hc Hr]; [left|]. apply HU; [by apply Hr|done|].
    by rewrite (contentOf_digest _ _ _ _ E). }
  destruct (t_documents t !! _); [discriminate|].
  destruct (ins _) as [[err busy]|]; [discriminate|].
  apply IH in H as [Hr H]; [|done|intros s' c' Hin; apply HA; by right].
  split; [by constructor|exact H].
Qed.

(** What an update read is still what its transaction finds, when the generation is. *)
Lemma read_again cfg L old t :
  no_collision U → whole old → whole t → sourced (Identity cfg) L →
  g_ID (readGeneration t) = g_ID (readGeneration old) →
  ∃ C, g_Identity (readGeneration old) = Identity cfg →
       holds (pass (Identity cfg)) C old ∧ holds (pass (Identity cfg)) C t ∧ distinguished C L.
Proof.
  intros HU Ho Ht Hs Hid. unfold whole, readGeneration in *.
  destruct (t_generation old) as [g|]; simpl in *; [|exists ∅; intros H; symmetry in H; by apply sha256_hex_ne in H].
  destruct Ho as (Lo & co & Hco & Hso & Hgo & Hho). exists (list_to_map Lo). intros Hi.
  destruct (t_generation t) as [g'|]; simpl in *;
    [|rewrite Hgo in Hid; symmetry in Hid; by apply sha256_hex_ne in Hid].
  destruct Ht as (Lt & ct & Hct & Hst & Hgt & Hht).
  destruct (one_name (g_Identity g) (g_Identity g') Lo Lt) as [Hg HL]; [done|..|congruence|].
  - rewrite Hco. apply sha256_hex_lacks.
  - rewrite Hct. apply sha256_hex_lacks.
  - done.
  - done.
  - rewrite <- Hg, Hi in Hht. rewrite Hi in Hho. rewrite <- HL in Hht. split; [done|]. split; [done|].
    intros s c c' Hc Hc' He. apply elem_of_list_to_map_2 in Hc.
    destruct Hso as (_ & Hfo & _), Hs as (_ & Hf & _). rewrite Forall_forall in Hfo. rewrite Forall_forall in Hf.
    apply HU; [by apply (Hfo _ Hc)|by apply (Hf _ Hc')|done].
Qed.

Lemma difference_adds identity old w L rebuild :
  w_Documents w = docs L →
  ∃ A, (∀ sc, sc ∈ A → sc ∈ L) ∧ h_add (difference identity old w rebuild) = docs A ∧
       h_walk (difference identity old w rebuild) = w.
Proof.
  intros Hd. unfold difference. rewrite Hd. destruct (_ || _); [by exists L|]. cbn [h_add h_walk].
  rewrite filter_docs. eexists. split; [|done]. intros sc H.
  apply list_elem_of_In, filter_In in H as [H _]. by apply list_elem_of_In.
Qed.

(** A change that was applied was applied to documents read as the walk had read them. *)
Lemma applied_reads identity disk q w L old t rebuild applied :
  no_collision U → taken identity disk w L → apply disk q (difference identity old w rebuild) t = inr applied →
  add_change disk (difference identity old w rebuild) t = inr applied ∧
  ∀ A, (∀ sc, sc ∈ A → sc ∈ L) → h_add (difference identity old w rebuild) = docs A → reads disk w A.
Proof.
  intros HU ((Hw & Hd & Hn) & (_ & Hf & _) & Hr) E. rewrite Forall_forall in Hf.
  assert (∀ A, (∀ sc, sc ∈ A → sc ∈ L) → h_add (difference identity old w rebuild) = docs A →
    reads disk w A ∧ add_change disk (difference identity old w rebuild) t = inr applied) as H.
  { intros A HA He. destruct (difference_adds identity old w L rebuild Hd) as (_ & _ & _ & Hwk).
    unfold apply in E. unfold add_change. rewrite He, Hwk in *.
    eapply indexed_reads; [exact HU| |].
    - intros s c Hin%HA. split; [by apply (Hf _ Hin)|]. intros c'. by apply Hr.
    - destruct (q_delete q) as [[err busy]|]; [destruct (deletes _); [discriminate E|]|]; exact E. }
  destruct (difference_adds identity old w L rebuild Hd) as (A & HA & He & _).
  split; [by apply (H A)|]. intros A' HA' He'. by apply (H A').
Qed.

Lemma commit_whole cfg now disk q w rebuild L old t r t' u :
  no_collision U → whole old → whole t → taken (Identity cfg) disk w L →
  commit (Identity cfg) now disk q (g_ID (readGeneration old))
    (difference (Identity cfg) (readStored old) w rebuild)
    (GenerationOf (Identity cfg) (w_Documents w)) t = (r, t', u) →
  match r with
  | inl _ => t' = t
  | inr g =>
      t_generation t' = Some g ∧ g = mkGeneration (GenerationOf (Identity cfg) (docs L)) (Identity cfg) now ∧
      holds (pass (Identity cfg)) (list_to_map L) t'
  end ∧ whole t'.
Proof.
  intros HU Ho Ht Htaken H. pose proof Htaken as (Hwalk & Hs & _). unfold commit in H.
  destruct (q_begin q) as [[err busy]|]; [by injection H as <- <- <-|].
  destruct (q_read q) as [[err busy]|]; [by injection H as <- <- <-|].
  destruct (String.eqb_spec (g_ID (readGeneration t)) (g_ID (readGeneration old))) as [Hid|];
    [|by injection H as <- <- <-]. cbn [negb] in H.
  destruct (apply _ _ _ _) as [f|applied] eqn:E; [by injection H as <- <- <-|].
  destruct (q_statement q) as [[err busy]|]; [by injection H as <- <- <-|].
  destruct (q_commit q) as [[[wait err] [|]]|]; [by injection H as <- <- <-..|].
  injection H as <- <- <-. destruct Hwalk as (Hw & Hd & Hn). rewrite Hd.
  enough (holds (pass (Identity cfg)) (list_to_map L) applied) as [H1 H2].
  { split; [by split_and!|]. exists L, cfg. by split_and!. }
  apply (applied_reads _ _ _ _ L) in E as [Ea Hr]; [|done|done].
  destruct (read_again cfg L old t) as [C HC]; [done..|].
  destruct (apply_difference_holds (pass (Identity cfg)) (labelled _) (Identity cfg) disk w L C old t rebuild)
    as (t' & Ha & Hh & _); [by split_and!|intros _; exact HC|exact Hr|].
  rewrite Ea in Ha. by injection Ha as ->.
Qed.

(** ** Every moment of an index *)

(** What the tables have been, the latest first: a transaction of any process, under any
    configuration, of an update that read them at any moment before. *)
Inductive held : list tables → Prop :=
| held_created : held [no_tables]
| held_commit h t old cfg now disk q w rebuild L r t' u :
    held (t :: h) → old ∈ t :: h → taken (Identity cfg) disk w L →
    commit (Identity cfg) now disk q (g_ID (readGeneration old))
      (difference (Identity cfg) (readStored old) w rebuild)
      (GenerationOf (Identity cfg) (w_Documents w)) t = (r, t', u) →
    held (t' :: t :: h).

Lemma held_whole h : no_collision U → held h → Forall whole h.
Proof.
  intros HU. induction 1 as [|h t old cfg now disk q w rebuild L r t' u Hh IH Hold Htaken Hc].
  - apply Forall_singleton. done.
  - pose proof IH as [Ht _]%Forall_cons. rewrite Forall_forall in IH.
    apply (commit_whole _ _ _ _ _ _ L) in Hc as [_ H]; [|done|by apply IH|done|done].
    constructor; [done|]. by apply Forall_forall.
Qed.

(** C23: However many updates and rebuilds interleave, of processes with whatever configurations and
    each working from a generation it read at any moment before, the index holds one whole walk
    of the sources under the configuration its generation names. A transaction that fails, at
    whatever statement or at its commit, leaves what it found; one that commits leaves exactly
    the walk it was given, never a part of it, nothing of what was there before, and no document
    whose content changed since it was walked. *)
Theorem an_index_is_always_whole h t old cfg now disk q w rebuild L r t' u :
  no_collision U → held (t :: h) → old ∈ t :: h → taken (Identity cfg) disk w L →
  commit (Identity cfg) now disk q (g_ID (readGeneration old))
    (difference (Identity cfg) (readStored old) w rebuild)
    (GenerationOf (Identity cfg) (w_Documents w)) t = (r, t', u) →
  whole t ∧ whole t' ∧
  match r with
  | inl _ => t' = t
  | inr g =>
      t_generation t' = Some g ∧ g = mkGeneration (GenerationOf (Identity cfg) (docs L)) (Identity cfg) now ∧
      holds (pass (Identity cfg)) (list_to_map L) t'
  end.
Proof.
  intros HU Hh Hold Htaken Hc. apply held_whole in Hh; [|done]. pose proof Hh as [Ht _]%Forall_cons.
  rewrite Forall_forall in Hh. split; [done|].
  apply (commit_whole _ _ _ _ _ _ L) in Hc as [Hr Hw]; [done|done|by apply Hh|done|done].
Qed.

(** C24: An update builds what a rebuild builds: two transactions that commit walks of the same
    contents under one configuration, in whatever order the walks found them and whatever each
    index held before, leave the same generation's name, the same documents and the same
    passages, and every search finds the same hits in the same order in either, whatever order
    its rows are in. *)
Theorem an_update_builds_what_a_rebuild_builds cfg
    h1 t1 old1 now1 disk1 q1 w1 rebuild1 L1 g1 t1' u1 h2 t2 old2 now2 disk2 q2 w2 rebuild2 L2 g2 t2' u2 :
  no_collision U → (∀ i s c, NoDup (map s_Ordinal (pass i s c))) → L1 ≡ₚ L2 →
  held (t1 :: h1) → old1 ∈ t1 :: h1 → taken (Identity cfg) disk1 w1 L1 →
  commit (Identity cfg) now1 disk1 q1 (g_ID (readGeneration old1))
    (difference (Identity cfg) (readStored old1) w1 rebuild1)
    (GenerationOf (Identity cfg) (w_Documents w1)) t1 = (inr g1, t1', u1) →
  held (t2 :: h2) → old2 ∈ t2 :: h2 → taken (Identity cfg) disk2 w2 L2 →
  commit (Identity cfg) now2 disk2 q2 (g_ID (readGeneration old2))
    (difference (Identity cfg) (readStored old2) w2 rebuild2)
    (GenerationOf (Identity cfg) (w_Documents w2)) t2 = (inr g2, t2', u2) →
  g_ID g1 = g_ID g2 ∧ t_documents t1' = t_documents t2' ∧ t_passages t1' ≡ₚ t_passages t2' ∧
  ∀ indexedRune bm25 query limit, of_counts bm25 →
    search_hits indexedRune bm25 (t_passages t1') query limit =
    search_hits indexedRune bm25 (t_passages t2') query limit.
Proof.
  intros HU Hnum HL Hh1 Ho1 Ht1 Hc1 Hh2 Ho2 Ht2 Hc2.
  apply held_whole in Hh1; [|done]. apply held_whole in Hh2; [|done].
  pose proof Hh1 as [Hw1 _]%Forall_cons. pose proof Hh2 as [Hw2 _]%Forall_cons.
  rewrite Forall_forall in Hh1. rewrite Forall_forall in Hh2.
  apply (commit_whole _ _ _ _ _ _ L1) in Hc1 as [(_ & -> & Hh1') _]; [|done|by apply Hh1|done|done].
  apply (commit_whole _ _ _ _ _ _ L2) in Hc2 as [(_ & -> & Hh2') _]; [|done|by apply Hh2|done|done].
  destruct Ht1 as (_ & (Hn & _) & _). cbn [g_ID].
  assert ((list_to_map L1 : gmap string string) = list_to_map L2) as Hm by by apply list_to_map_proper.
  rewrite <- Hm in *. pose proof Hh1' as [Hd1 Hp1]. pose proof Hh2' as [Hd2 Hp2]. rewrite <- Hp2 in Hp1.
  split; [apply GenerationOf_perm; [by rewrite docs_sources|]; unfold docs; by rewrite HL|].
  split; [by rewrite Hd1, Hd2|]. split; [done|]. intros indexedRune bm25 query limit Hb.
  apply search_hits_perm; [done| |done]. by eapply places_differ.
Qed.
End updates.

Lemma pack_from_labelled source text pieces : ∀ open n,
  Forall (λ x, s_Source x = source) (pack_from source text pieces open n).
Proof.
  induction pieces as [|piece pieces IH]; intros open n; simpl.
  - destruct open as [[start end_]|]; by repeat constructor.
  - destruct open as [[start end_]|]; [|apply IH]. destruct (_ || _); [|apply IH]. constructor; [done|apply IH].
Qed.

Lemma text_passages_labelled source content : Forall (λ x, s_Source x = source) (text_passages source content).
Proof.
  unfold text_passages, TextPassages, pack. destruct (cut_all _ _); simpl; [apply pack_from_labelled|constructor].
Qed.

Lemma pack_from_numbered source text pieces : ∀ open n,
  map s_Ordinal (pack_from source text pieces open n) = seq (S n) (length (pack_from source text pieces open n)).
Proof.
  induction pieces as [|piece pieces IH]; intros open n; simpl.
  - destruct open as [[start end_]|]; simpl; [|done]. by rewrite Nat.add_comm.
  - destruct open as [[start end_]|]; [|apply IH]. destruct (_ || _); [|apply IH]. simpl.
    by rewrite IH, Nat.add_comm.
Qed.

Lemma text_passages_numbered source content : NoDup (map s_Ordinal (text_passages source content)).
Proof.
  unfold text_passages, TextPassages, pack. destruct (cut_all _ _); simpl; [|constructor].
  rewrite pack_from_numbered. apply NoDup_seq.
Qed.

(** ** An index of two notes, updated and rebuilt *)

#[local] Transparent sha256_hex.

Definition among (l : list string) (x : string) : Prop := existsb (String.eqb x) l = true.

Definition told_apart (ds : list (string * string)) : bool :=
  forallb (λ a, forallb (λ b, implb (String.eqb (snd a) (snd b)) (String.eqb (fst a) (fst b))) ds) ds.

Lemma no_collision_list l : told_apart (map (λ x, (x, sha256_hex x)) l) = true → no_collision (among l).
Proof.
  intros H a b (x & Ha & ->%String.eqb_eq)%existsb_exists (y & Hb & ->%String.eqb_eq)%existsb_exists He.
  unfold told_apart in H. rewrite forallb_forall in H.
  specialize (H (x, sha256_hex x) ltac:(by apply (in_map (λ x, (x, sha256_hex x))))).
  rewrite forallb_forall in H. specialize (H (y, sha256_hex y) ltac:(by apply (in_map (λ x, (x, sha256_hex x))))).
  cbn [fst snd] in H. rewrite He, String.eqb_refl in H. by apply String.eqb_eq.
Qed.

Definition notes : Configuration := DirectoryConfiguration "/srv/notes".
Definition notes_walk (L : list (string * string)) : Walk := mkWalk (docs L) [] "/srv/notes" None text_passages.
Definition notes_disk (path : string) : gerror + string :=
  if String.eqb path "/srv/notes/a.md" then inr "# fans"
  else if String.eqb path "/srv/notes/b.md" then inr "a cold aisle"
  else if String.eqb path "/srv/notes/c.md" then inr "pumps" else inl (Text "no such file").
Definition notes_first : list (string * string) := [("a.md", "# fans"); ("b.md", "a cold aisle")].
Definition notes_then : list (string * string) := [("a.md", "# fans"); ("c.md", "pumps")].
Definition notes_again : list (string * string) := [("c.md", "pumps"); ("a.md", "# fans")].
Definition notes_texts : list string :=
  ["# fans"; "a cold aisle"; "pumps"] ++
  map (λ L, generation_text (Identity notes) (pairs_of (docs L))) [notes_first; notes_then; notes_again].
Definition notes_U : string → Prop := among notes_texts.
Definition calm : sqlite := mkSqlite None None None (λ _, None) None None.
Definition notes_commit (old : tables) (L : list (string * string)) (rebuild : bool) (q : sqlite) (t : tables) :=
  commit (Identity notes) 7 notes_disk q (g_ID (readGeneration old))
    (difference (Identity notes) (readStored old) (notes_walk L) rebuild)
    (GenerationOf (Identity notes) (w_Documents (notes_walk L))) t.
Definition notes_pass : string → string → string → list Passage := λ _, text_passages.
Definition notes_tables : tables := snd (fst (notes_commit no_tables notes_first false calm no_tables)).

(** A ranking by how many passages there are, of those whose text is the query's one word. *)
Definition notes_bm25 (ps : list Passage) (m : string) (x : Passage) : option Q :=
  if String.eqb m (dq +:+ s_Text x +:+ dq) then Some (inject_Z (- Z.of_nat (length ps))) else None.

Lemma notes_apart : no_collision notes_U.
Proof. apply no_collision_list. vm_compute. reflexivity. Qed.

Lemma notes_sourced L : L ∈ [notes_first; notes_then; notes_again] → sourced notes_U (Identity notes) L.
Proof.
  intros [<-|[<-|[<-|[]]]]%list_elem_of_In.
  all: split; [apply (bool_decide_unpack _); vm_compute; exact I|split; [|vm_compute; reflexivity]].
  all: apply Forall_cons; split; [split; vm_compute; reflexivity|].
  all: apply Forall_singleton; split; vm_compute; reflexivity.
Qed.

Lemma notes_taken L : L ∈ [notes_first; notes_then; notes_again] →
  taken notes_pass notes_U (Identity notes) notes_disk (notes_walk L) L.
Proof.
  intros HL%notes_sourced. split; [split; [done|split; [done|apply HL]]|]. split; [done|]. intros s c c' Hin Hc.
  unfold contentOf in Hc. cbn [notes_walk w_held w_root String.eqb] in Hc.
  destruct (readDocument _) as [|c0] eqn:E; [discriminate|]. destruct (String.eqb _ _); [|discriminate].
  injection Hc as <-. unfold readDocument in E. destruct (notes_disk _) as [|c1] eqn:Ed; [discriminate|].
  assert (c1 = c0) as -> by (destruct (_ <? _)%nat; congruence). unfold notes_disk in Ed.
  repeat (destruct (String.eqb _ _); [injection Ed as <-; vm_compute; reflexivity|]). discriminate.
Qed.

(** A commit that evaluates to a success. *)
Definition notes_committed (old : tables) (L : list (string * string)) (rebuild : bool) (t : tables) : tables :=
  snd (fst (notes_commit old L rebuild calm t)).

Lemma notes_held_commit h t old L rebuild q r t' u :
  held notes_pass notes_U (t :: h) → old ∈ t :: h → L ∈ [notes_first; notes_then; notes_again] →
  notes_commit old L rebuild q t = (r, t', u) → held notes_pass notes_U (t' :: t :: h).
Proof.
  intros Hh Ho HL Hc. unfold notes_commit in Hc.
  eapply (held_commit _ _ h t old notes 7 notes_disk q (notes_walk L) rebuild L); [done..|by apply notes_taken|exact Hc].
Qed.

Lemma notes_held : held notes_pass notes_U [notes_tables; no_tables].
Proof.
  unfold notes_tables. destruct (notes_commit no_tables notes_first false calm no_tables) as [[r t'] u] eqn:E.
  cbn [fst snd]. eapply notes_held_commit; [constructor|left|left|exact E].
Qed.

Lemma an_index_is_always_whole_witness :
  let busy := mkSqlite None None None (λ _, None) None (Some (5000000000, Text "database is locked", true)) in
  whole notes_pass notes_U notes_tables ∧
  whole notes_pass notes_U (notes_committed notes_tables notes_then false notes_tables) ∧
  snd (fst (notes_commit notes_tables notes_then false busy notes_tables)) = notes_tables.
Proof.
  intros busy.
  destruct (an_index_is_always_whole notes_pass (λ _, text_passages_labelled) notes_U [no_tables] notes_tables
    notes_tables notes 7 notes_disk calm (notes_walk notes_then) false notes_then
    (fst (fst (notes_commit notes_tables notes_then false calm notes_tables)))
    (notes_committed notes_tables notes_then false notes_tables)
    (snd (notes_commit notes_tables notes_then false calm notes_tables))) as (H1 & H2 & _).
  - exact notes_apart.
  - apply notes_held.
  - left.
  - apply notes_taken. right. left.
  - vm_compute. reflexivity.
  - split; [exact H1|]. split; [exact H2|]. vm_compute. reflexivity.
Defined.

Lemma an_update_builds_what_a_rebuild_builds_witness :
  let updated := notes_committed notes_tables notes_then false notes_tables in
  let rebuilt := notes_committed no_tables notes_again true no_tables in
  g_ID (readGeneration updated) = g_ID (readGeneration rebuilt) ∧
  t_documents updated = t_documents rebuilt ∧ t_passages updated ≡ₚ t_passages rebuilt ∧
  map h_Source (search_hits (λ _, true) notes_bm25 (t_passages rebuilt) "pumps" 5) = ["c.md"] ∧
  search_hits (λ _, true) notes_bm25 (t_passages updated) "pumps" 5 =
  search_hits (λ _, true) notes_bm25 (t_passages rebuilt) "pumps" 5.
Proof.
  intros updated rebuilt.
  destruct (an_update_builds_what_a_rebuild_builds notes_pass (λ _, text_passages_labelled) notes_U notes
    [no_tables] notes_tables notes_tables 7 notes_disk calm (notes_walk notes_then) false notes_then
    (readGeneration updated) updated true
    [] no_tables no_tables 7 notes_disk calm (notes_walk notes_again) true notes_again
    (readGeneration rebuilt) rebuilt true) as (H1 & H2 & H3 & H4).
  - exact notes_apart.
  - exact (λ _, text_passages_numbered).
  - apply Permutation_swap.
  - apply notes_held.
  - left.
  - apply notes_taken. right. left.
  - vm_compute. reflexivity.
  - constructor.
  - left.
  - apply notes_taken. right. right. left.
  - vm_compute. reflexivity.
  - split; [exact H1|]. split; [exact H2|]. split; [exact H3|]. split; [vm_compute; reflexivity|].
    apply H4. intros ps ps' m x Hp. unfold notes_bm25. by rewrite Hp.
Defined.
