(* ===== verification/IndexFile.v ===== *)
(** The file of a collection's index: its name, its mode, opening it and reading what it holds
    without indexing it, of [index.go] in [src/runtime/internal/index].

    What the file system and SQLite answer are arguments.  A file's mode is its permission
    bits. *)
From S2P Require Import Prelude GoStr GoTime GoPath GoErr Playbook GoJson GoRunes GoMarshal Sha256.
From S2P Require Import Records FileLock Collections IndexPassage Index.

(** [path]; [name] is the pattern of a playbook's name. *)
Definition path (dir collection : string) : gerror + string :=
  if negb (playbookNamePattern collection)
  then inl (Text ("collection name " +:+ quote collection +:+ " cannot name an index file"))
  else inr (Join [dir; collection +:+ ".db"]).

(** [%o]. *)
Fixpoint octal_fuel (fuel : nat) (n : N) (acc : string) : string :=
  match fuel with
  | O => acc
  | S fuel =>
      let acc := String (chr (48 + N.to_nat (n mod 8))) acc in
      if (n <? 8)%N then acc else octal_fuel fuel (n / 8) acc
  end.
Definition show_octal (z : Z) : string := octal_fuel (S (N.to_nat (N.log2 (Z.to_N z)))) (Z.to_N z) "".

Example octal_modes : map show_octal [0; 7; 8; 384; 420] = ["0"; "7"; "10"; "600"; "644"].
Proof. reflexivity. Qed.

(** ** [private] *)

(** 0600, and the permission bits that are wider. *)
Definition owner_only : Z := 384.
Definition wider : Z := 127.

Inductive stat_answer := Missing (err : gerror) | StatFails (err : gerror) | Info (owner mode : Z).
(** Creating a file that must not be there: it is there, or another failure. *)
Inductive create_answer := Created (close : option gerror) | Exists | CreateFails (err : gerror).

Record file_io := mkFileIo {
  v_uid : Z; v_stat : stat_answer; v_create : create_answer; v_again : stat_answer;
  v_chmod : option gerror; v_writable : option gerror }.

(** What [private] does with a file that is there, and the mode it leaves. *)
Definition narrow (file : string) (io : file_io) (info : stat_answer) : option gerror * Z :=
  match info with
  | Missing err => (Some err, 0)
  | StatFails err => (Some err, 0)
  | Info owner mode =>
      let wide := negb (Z.land mode wider =? 0) in
      if wide && negb (owner =? v_uid io) then
        (Some (Text (file +:+ " belongs to uid " +:+ show_Z owner +:+ " at mode " +:+ show_octal mode
                     +:+ ", wider than 600, and this process, uid " +:+ show_Z (v_uid io) +:+ ", "
                     +:+ "cannot narrow it; an index holds the collection's text unredacted, so "
                     +:+ "gronin collections has to run as the deployment's user")), mode)
      else
        match wide, v_chmod io with
        | true, Some err => (Some err, mode)
        | _, _ =>
            let mode := if wide then owner_only else mode in
            match v_writable io with
            | Some err =>
                (Some (wrap_before (file +:+ " belongs to uid " +:+ show_Z owner +:+ " and this process, uid "
                         +:+ show_Z (v_uid io) +:+ ", cannot write it; "
                         +:+ "gronin collections has to run as the deployment's user") err), mode)
            | None => (None, mode)
            end
        end
  end.

Definition private (file : string) (io : file_io) : option gerror * Z :=
  match v_stat io with
  | Missing _ =>
      match v_create io with
      | Created close => (close, owner_only)
      | CreateFails err => (Some err, 0)
      | Exists => narrow file io (v_again io)
      end
  | info => narrow file io info
  end.

Lemma owner_only_narrow : Z.land owner_only wider = 0.
Proof. reflexivity. Qed.

(** An index file that is used is its owner's alone: it was created so, found so, or narrowed
    by its owner. *)
Lemma private_is_private file io mode : private file io = (None, mode) → Z.land mode wider = 0.
Proof.
  assert (∀ info, narrow file io info = (None, mode) → Z.land mode wider = 0) as Hn.
  { intros [err|err|owner m] H; [discriminate..|]. unfold narrow in H.
    destruct (Z.eqb_spec (Z.land m wider) 0) as [E|E]; cbn [negb andb] in H.
    - destruct (v_writable io); [discriminate|]. by injection H as <-.
    - destruct (owner =? v_uid io); cbn [negb] in H; [|discriminate].
      destruct (v_chmod io); [discriminate|]. destruct (v_writable io); [discriminate|]. by injection H as <-. }
  unfold private. destruct (v_stat io); [|apply Hn..]. destruct (v_create io); [|apply Hn|discriminate].
  intros H. by injection H as -> <-.
Qed.

(** ** [Open] *)

(** What opening a database gives, and the tries of its schema. *)
Record open_io := mkOpenIo {
  o_mkdir : option gerror; o_file : file_io; o_open : option gerror; o_schema : list (try unit) }.

(** The identity of the configuration it was opened with, which is what an [Index] keeps. *)
Definition Open (dir collection : string) (cfg : Configuration) (io : open_io) : option (gerror + string) :=
  let opening err := wrap_before ("opening the index of " +:+ collection) err in
  match path dir collection with
  | inl err => Some (inl err)
  | inr file =>
      match o_mkdir io, fst (private file (o_file io)), o_open io with
      | Some err, _, _ => Some (inl (wrap_before "creating the index directory" err))
      | None, Some err, _ => Some (inl (opening err))
      | None, None, Some err => Some (inl (opening err))
      | None, None, None =>
          match retryBusy false (o_schema io) with
          | None => None
          | Some (inl err) => Some (inl (opening (settled_error err)))
          | Some (inr _) => Some (inr (Identity cfg))
          end
      end
  end.

(** ** [ReadStored] *)

(** What SQLite fails the transaction of [readStored] with, whether the database has its tables,
    and how the context had ended when its first statement failed. *)
Record stored_sql := mkStoredSql {
  b_begin : option (gerror * bool); b_tables : option (gerror * bool); b_present : bool;
  b_generation : option (gerror * bool); b_rows : option (gerror * bool); b_ctx : option ctx_end }.

Definition readStored_tx (b : stored_sql) (t : tables) : failure + Stored :=
  match b_begin b, b_tables b with
  | Some (err, busy), _ | None, Some (err, busy) => inl (beginFailure (b_ctx b) (Fails err busy))
  | None, None =>
      if negb (b_present b) then inr (mkStored no_generation [])
      else
        match b_generation b, b_rows b with
        | Some (err, busy), _ | None, Some (err, busy) => inl (Fails err busy)
        | None, None => inr (readStored t)
        end
  end.

(** A try of it: the answers it had, and the tables as they stood. *)
Record stored_try := mkStoredTry {
  j_sql : stored_sql; j_tables : tables; j_after : option ctx_end; j_paused : option ctx_end }.
Definition try_stored (j : stored_try) : try Stored :=
  mkTry (readStored_tx (j_sql j) (j_tables j)) (j_after j) (j_paused j).

(** Whether an index exists, and what it holds or why it could not be read. *)
Definition ReadStored (dir collection : string) (missing : bool) (opened : option gerror) (tries : list stored_try)
  : option (bool * (gerror + Stored)) :=
  match path dir collection with
  | inl err => Some (false, inl err)
  | inr _ =>
      if missing then Some (false, inr (mkStored no_generation []))
      else
        match opened with
        | Some err => Some (false, inl err)
        | None =>
            match retryBusy false (map try_stored tries) with
            | None => None
            | Some (inl err) => Some (true, inl (wrap_before ("reading the index of " +:+ collection) (settled_error err)))
            | Some (inr stored) => Some (true, inr stored)
            end
        end
  end.

(** Listing a collection reads what one committed transaction left, whole: what is read is what
    the tables held at one try, or nothing when there were no tables yet. *)
Lemma retryBusy_result {A} (tries : list (try A)) : ∀ held a,
  retryBusy held tries = Some (inr a) → ∃ y, y ∈ tries ∧ y_result y = inr a.
Proof.
  induction tries as [|y tries IH]; intros held a H; [discriminate|]. cbn [retryBusy] in H.
  destruct (y_result y) as [f|b] eqn:E.
  - destruct f as [err busy|err busy|wait err|source|]; try discriminate.
    all: destruct held, (y_after y); try discriminate; cbn [isBusy] in H.
    all: try (destruct busy; cbn [negb] in H; [|discriminate]).
    all: destruct (y_paused y); try discriminate; apply IH in H as (z & Hz & Hr); exists z; (split; [by right|done]).
  - destruct held, (y_after y); try discriminate; injection H as ->; exists y; (split; [left|done]).
Qed.

Lemma ReadStored_reads dir collection missing opened tries stored :
  ReadStored dir collection missing opened tries = Some (true, inr stored) →
  ∃ j, j ∈ tries ∧ (stored = readStored (j_tables j) ∨ b_present (j_sql j) = false ∧ stored = mkStored no_generation []).
Proof.
  unfold ReadStored. destruct (path _ _); [discriminate|]. destruct missing; [discriminate|].
  destruct opened; [discriminate|]. destruct (retryBusy _ _) as [[|read]|] eqn:E; [discriminate| |discriminate].
  intros H. injection H as ->. apply retryBusy_result in E as (y & (j & -> & Hj)%list_elem_of_fmap & Hr).
  exists j. split; [done|]. unfold try_stored, readStored_tx in Hr. cbn [y_result] in Hr.
  destruct (b_begin _) as [[]|]; [discriminate|]. destruct (b_tables _) as [[]|]; [discriminate|].
  destruct (b_present _) eqn:Ep; cbn [negb] in Hr; [|right; split; [done|congruence]].
  destruct (b_generation _) as [[]|]; [discriminate|]. destruct (b_rows _) as [[]|]; [discriminate|].
  left. congruence.
Qed.
