(* ===== verification/GoNum.v ===== *)
(** Reading numbers back: what [strconv] writes of a number says which number it is. *)
From S2P Require Import Prelude GoStr.
From S2P Require Import GoTime.

Definition digit_value (c : ascii) : N := N_of_ascii c - 48.

(** The number a text of digits says, after [acc]. *)
Fixpoint digits_value (s : string) (acc : N) : N :=
  match s with EmptyString => acc | String c s => digits_value s (acc * 10 + digit_value c) end.

Lemma digit_value_of d : (d < 10)%N → digit_value (ascii_of_N (48 + d)) = d.
Proof. intros H. unfold digit_value. rewrite N_ascii_embedding by lia. lia. Qed.

Lemma digits_value_app s t acc : digits_value (s +:+ t) acc = digits_value t (digits_value s acc).
Proof. revert acc. induction s as [|c s IH]; intros acc; simpl; [done|]. apply IH. Qed.

Lemma digits_fuel_value fuel : ∀ n acc, (n < 10 ^ N.of_nat fuel)%N →
  digits_value (digits_fuel fuel n acc) 0%N = digits_value acc n.
Proof.
  induction fuel as [|fuel IH]; intros n acc Hn.
  - simpl in *. by replace n with 0%N by lia.
  - rewrite Nat2N.inj_succ, N.pow_succ_r' in Hn. cbn [digits_fuel].
    pose proof (N.div_mod n 10 ltac:(lia)) as Hd. pose proof (N.mod_lt n 10 ltac:(lia)) as Hm.
    destruct (N.ltb_spec n 10).
    + cbn [digits_value]. rewrite digit_value_of by done. by rewrite N.mod_small by done.
    + rewrite IH by (apply N.Div0.div_lt_upper_bound; lia). cbn [digits_value].
      rewrite digit_value_of by done. f_equal. lia.
Qed.

Lemma show_N_value n : digits_value (show_N n) 0%N = n.
Proof.
  unfold show_N. rewrite digits_fuel_value; [done|].
  rewrite Nat2N.inj_succ, N2Nat.id. destruct (N.eq_dec n 0%N) as [->|Hn]; [done|].
  pose proof (N.log2_spec n ltac:(lia)) as [_ H]. eapply N.lt_le_trans; [exact H|].
  apply N.pow_le_mono_l. lia.
Qed.

#[export] Instance show_N_inj : Inj (=) (=) show_N.
Proof. intros a b H. by rewrite <- (show_N_value a), H, show_N_value. Qed.

#[export] Instance show_nat_inj : Inj (=) (=) show_nat.
Proof. intros a b H. unfold show_nat in H. apply (inj show_N) in H. lia. Qed.

Lemma join_split_on c s : join (split_on c s) (str c) = s.
Proof.
  induction s as [|d s IH]; [done|]. cbn [split_on]. destruct (Ascii.eqb_spec d c) as [->|].
  - pose proof (split_on_ne c s). destruct (split_on c s) as [|x l]; [done|]. rewrite join_cons, IH. done.
  - pose proof (split_on_ne c s). destruct (split_on c s) as [|x l]; [done|].
    rewrite <- IH. destruct l; [done|]. by rewrite !join_cons.
Qed.

(** What stands before and after the last separator of a text. *)
Lemma last_separator c a b x y :
  str_all (λ d, negb (Ascii.eqb d c)) x = true → str_all (λ d, negb (Ascii.eqb d c)) y = true →
  a +:+ String c x = b +:+ String c y → a = b ∧ x = y.
Proof.
  intros Hx Hy H. apply (f_equal (split_on c)) in H. rewrite !split_on_app_sep, (split_on_none _ x), (split_on_none _ y) in H by done.
  apply app_inj_tail in H as [H ->]. split; [|done]. by rewrite <- (join_split_on c a), H, join_split_on.
Qed.

Lemma show_nat_digits n : str_all is_digit (show_nat n) = true.
Proof.
  unfold show_nat, show_N. generalize (S (N.to_nat (N.log2 (N.of_nat n)))) as fuel, (N.of_nat n) as m.
  assert (∀ fuel m acc, str_all is_digit acc = true → str_all is_digit (digits_fuel fuel m acc) = true) as H;
    [|intros; by apply H].
  induction fuel as [|fuel IH]; intros m acc Ha; simpl; [done|].
  assert (is_digit (ascii_of_N (48 + m mod 10)) = true) as Hd.
  { pose proof (N.mod_lt m 10 ltac:(lia)) as Hm. unfold is_digit, nat_of_ascii.
    revert Hm. generalize (m mod 10)%N. intros d Hd. rewrite N_ascii_embedding by lia.
    apply andb_true_intro; split; apply Nat.leb_le; lia. }
  destruct (m <? 10)%N; [|apply IH]; simpl; by rewrite Hd.
Qed.

Lemma show_nat_lacks c n : is_digit c = false → str_all (λ d, negb (Ascii.eqb d c)) (show_nat n) = true.
Proof.
  intros Hc. eapply str_all_impl; [|apply show_nat_digits]. intros d Hd.
  destruct (Ascii.eqb_spec d c) as [->|]; [congruence|done].
Qed.

(** ** [time.Time]'s text read back: the dates of the calendar, and the parser of RFC 3339 that
    [encoding/json] uses, with the proof that an instant's text says which instant it is. *)

(** ** Every number of a range *)

Definition all_from (start : Z) (n : positive) (p : Z → bool) : bool :=
  snd (Pos.iter (λ s, (fst s + 1, snd s && p (fst s))) (start, true) n).

Lemma all_from_spec start n p : all_from start n p = true → ∀ z, start ≤ z < start + Zpos n → p z = true.
Proof.
  unfold all_from. set (step := λ s : Z * bool, (fst s + 1, snd s && p (fst s))).
  assert (fst (Pos.iter step (start, true) n) = start + Zpos n ∧
    (snd (Pos.iter step (start, true) n) = true → ∀ z, start ≤ z < start + Zpos n → p z = true)) as [_ H]; [|exact H].
  induction n as [|n [IH1 IH2]] using Pos.peano_ind.
  - simpl. split; [lia|]. intros Hp z Hz. by replace z with start by lia.
  - rewrite Pos.iter_succ. unfold step at 1 3. cbn [fst snd]. rewrite IH1. split; [lia|].
    intros [Ho Hp]%andb_prop z Hz. destruct (decide (z = start + Zpos n)) as [->|]; [done|]. apply IH2; [done|lia].
Qed.

(** ** Dates *)

Definition leap (y : Z) : bool := (y mod 4 =? 0) && (negb (y mod 100 =? 0) || (y mod 400 =? 0)).
Definition daysIn (m y : Z) : Z :=
  if m =? 2 then (if leap y then 29 else 28)
  else if (m =? 4) || (m =? 6) || (m =? 9) || (m =? 11) then 30 else 31.

(** The days from 0001-01-01 to a date. *)
Definition days_of (y m d : Z) : Z :=
  let y := y - (if m <=? 2 then 1 else 0) in
  let yoe := y mod 400 in
  let doy := (153 * (if m <=? 2 then m + 9 else m - 3) + 2) / 5 + d - 1 in
  y / 400 * 146097 + (yoe * 365 + yoe / 4 - yoe / 100 + doy) - 306.

Definition dated (days : Z) : bool :=
  let '(y, m, d) := civil days in
  (1 <=? m) && (m <=? 12) && (1 <=? d) && (d <=? daysIn m y) && (days_of y m d =? days).

Lemma dated_cycle : all_from (-306) 146097 dated = true.
Proof. vm_cast_no_check (eq_refl true). Qed.

Lemma civil_shift days k : civil (days + 146097 * k) = let '(y, m, d) := civil days in (y + 400 * k, m, d).
Proof.
  unfold civil. replace (days + 146097 * k + 306) with (days + 306 + k * 146097) by lia.
  rewrite Z.div_add, Z.mod_add by lia. f_equal. f_equal. lia.
Qed.

Lemma leap_shift y k : leap (y + 400 * k) = leap y.
Proof.
  unfold leap. replace (y + 400 * k) with (y + k * 100 * 4) at 1 by lia.
  replace (y + 400 * k) with (y + k * 4 * 100) at 1 by lia.
  replace (y + 400 * k) with (y + k * 400) by lia. by rewrite !Z.mod_add by lia.
Qed.

Lemma days_of_shift y m d k : days_of (y + 400 * k) m d = days_of y m d + 146097 * k.
Proof.
  unfold days_of. set (b := if m <=? 2 then 1 else 0).
  replace (y + 400 * k - b) with (y - b + k * 400) by lia. rewrite Z.div_add, Z.mod_add by lia. lia.
Qed.

(** Every day has a date of the calendar, and the date says which day it is. *)
Lemma civil_dated days y m d :
  civil days = (y, m, d) → 1 ≤ m ≤ 12 ∧ 1 ≤ d ≤ daysIn m y ∧ days_of y m d = days.
Proof.
  intros Hc. set (k := (days + 306) / 146097). set (day := days - 146097 * k).
  assert (-306 ≤ day < 145791) as Hday.
  { unfold day, k. pose proof (Z.div_mod (days + 306) 146097 ltac:(lia)).
    pose proof (Z.mod_pos_bound (days + 306) 146097 ltac:(lia)). lia. }
  replace days with (day + 146097 * k) in * by (unfold day; lia). rewrite civil_shift in Hc.
  pose proof (all_from_spec _ _ _ dated_cycle day ltac:(lia)) as Hall. unfold dated in Hall.
  destruct (civil day) as [[y0 m0] d0]. injection Hc as <- <- <-. rewrite days_of_shift.
  unfold daysIn in *. rewrite leap_shift. lia.
Qed.

(** ** Parsing *)

Definition parse_uint (s : string) (lo hi : Z) : option Z :=
  if negb (str_all is_digit s) then None
  else let x := Z.of_N (digits_value s 0) in if (lo <=? x) && (x <=? hi) then Some x else None.

(** The fraction of a second that follows a dot, of which nine digits count. *)
Definition nanoseconds (digits : string) : Z :=
  let ds := str_take 9 digits in
  Z.of_N (digits_value ds 0) * 10 ^ (9 - Z.of_nat (String.length ds)).
Definition fraction (s : string) : Z * string :=
  match s with
  | String "." rest =>
      match span_str is_digit rest with
      | (EmptyString, _) => (0, s)
      | (digits, rest) => (nanoseconds digits, rest)
      end
  | _ => (0, s)
  end.

(** The offset of a zone, in seconds. *)
Definition zone (s : string) : option Z :=
  match s with
  | String "Z" EmptyString => Some 0
  | String sign (String h1 (String h2 (String ":" (String m1 (String m2 EmptyString))))) =>
      match parse_uint (String h1 (str h2)) 0 23, parse_uint (String m1 (str m2)) 0 59 with
      | Some h, Some m =>
          if Ascii.eqb sign "-" then Some (- ((h * 60 + m) * 60))
          else if Ascii.eqb sign "+" then Some ((h * 60 + m) * 60) else None
      | _, _ => None
      end
  | _ => None
  end.

Definition at_ (s : string) (n : nat) (c : ascii) : bool :=
  match String.get n s with Some d => Ascii.eqb d c | None => false end.

(** [parseRFC3339]. *)
Definition parseRFC3339 (s : string) : option Z :=
  if (String.length s <? 19)%nat then None
  else
    match parse_uint (slice s 0 4) 0 9999, parse_uint (slice s 5 7) 1 12 with
    | Some y, Some m =>
        match parse_uint (slice s 8 10) 1 (daysIn m y), parse_uint (slice s 11 13) 0 23,
              parse_uint (slice s 14 16) 0 59, parse_uint (slice s 17 19) 0 59 with
        | Some d, Some hour, Some minute, Some second =>
            if at_ s 4 "-" && at_ s 7 "-" && at_ s 10 "T" && at_ s 13 ":" && at_ s 16 ":" then
              let '(nsec, rest) := fraction (str_drop 19 s) in
              match zone rest with
              | Some offset =>
                  Some ((days_of y m d * 86400 + hour * 3600 + minute * 60 + second - offset) * Second + nsec)
              | None => None
              end
            else None
        | _, _, _, _ => None
        end
    | _, _ => None
    end.

Example parse_times : map parseRFC3339
    ["1970-01-01T00:00:00Z"; "1970-01-01T01:00:00.5+01:00"; "2023-02-29T00:00:00Z"; "1970-01-01 00:00:00Z"] =
  [Some (62135596800 * Second); Some (62135596800 * Second + 500 * Millisecond); None; None].
Proof. vm_compute. reflexivity. Qed.

(** ** An instant reads back *)

Definition dig (d : Z) : ascii := ascii_of_N (48 + Z.to_N d).
Definition digits2 (z : Z) : string := String (dig (z / 10)) (str (dig (z mod 10))).
Definition digits4 (z : Z) : string :=
  String (dig (z / 1000)) (String (dig (z / 100 mod 10)) (String (dig (z / 10 mod 10)) (str (dig (z mod 10))))).

Lemma two_digits z : 0 ≤ z < 100 → two z = digits2 z.
Proof.
  intros Hz. assert (all_from 0 100 (λ z, String.eqb (two z) (digits2 z)) = true) as Ha by (vm_compute; reflexivity).
  apply String.eqb_eq, (all_from_spec _ _ _ Ha). lia.
Qed.

Lemma four_digits z : 0 ≤ z < 10000 → pad_zeros 4 (show_Z z) = digits4 z.
Proof.
  intros Hz. assert (all_from 0 10000 (λ z, String.eqb (pad_zeros 4 (show_Z z)) (digits4 z)) = true) as Ha
    by (vm_compute; reflexivity).
  apply String.eqb_eq, (all_from_spec _ _ _ Ha). lia.
Qed.

Lemma parse_two z lo hi : 0 ≤ z < 100 → lo ≤ z ≤ hi → parse_uint (digits2 z) lo hi = Some z.
Proof.
  intros Hz Hb. assert (all_from 0 100 (λ z, str_all is_digit (digits2 z) && (Z.of_N (digits_value (digits2 z) 0) =? z)) = true)
    as Ha by (vm_compute; reflexivity).
  apply all_from_spec with (z := z) in Ha; [|lia].
  apply andb_prop in Ha as [Hd Hv%Z.eqb_eq]. unfold parse_uint. rewrite Hd, Hv. cbn [negb].
  by rewrite (proj2 (Z.leb_le _ _) (proj1 Hb)), (proj2 (Z.leb_le _ _) (proj2 Hb)).
Qed.

Lemma parse_four z : 0 ≤ z < 10000 → parse_uint (digits4 z) 0 9999 = Some z.
Proof.
  intros Hz. assert (all_from 0 10000 (λ z, str_all is_digit (digits4 z) && (Z.of_N (digits_value (digits4 z) 0) =? z)) = true)
    as Ha by (vm_compute; reflexivity).
  apply all_from_spec with (z := z) in Ha; [|lia].
  apply andb_prop in Ha as [Hd Hv%Z.eqb_eq]. unfold parse_uint. rewrite Hd, Hv. cbn [negb].
  by rewrite (proj2 (Z.leb_le 0 z) ltac:(lia)), (proj2 (Z.leb_le z 9999) ltac:(lia)).
Qed.

Lemma dig_digit d : 0 ≤ d < 10 → is_digit (dig d) = true ∧ Z.of_N (digit_value (dig d)) = d ∧ show_Z d = str (dig d).
Proof.
  intros Hd. assert (d ∈ seqZ 0 10) as Hin by (apply elem_of_seqZ; lia). vm_compute seqZ in Hin.
  repeat (apply elem_of_cons in Hin as [->|Hin]; [done|]). by apply elem_of_nil in Hin.
Qed.

Lemma digits_value_acc s acc : Z.of_N (digits_value s acc) = Z.of_N acc * 10 ^ Z.of_nat (String.length s) + Z.of_N (digits_value s 0).
Proof.
  revert acc. induction s as [|c s IH]; intros acc; cbn [digits_value String.length]; [simpl; lia|].
  rewrite IH, (IH (0 * 10 + digit_value c)%N). rewrite Nat2Z.inj_succ, Z.pow_succ_r by lia. lia.
Qed.

(** What is written of a fraction of [prec] digits: nothing for none, or a dot and its digits. *)
Lemma fmt_frac_true prec : ∀ v acc, 0 ≤ v < 10 ^ Z.of_nat prec → str_all is_digit acc = true →
  ∃ ds, fmt_frac prec v acc true = "." +:+ ds ∧ str_all is_digit ds = true ∧
    String.length ds = (prec + String.length acc)%nat ∧
    Z.of_N (digits_value ds 0) = v * 10 ^ Z.of_nat (String.length acc) + Z.of_N (digits_value acc 0).
Proof.
  induction prec as [|prec IH]; intros v acc Hv Ha.
  - exists acc. simpl in *. split_and!; [done..|]. replace v with 0 by lia. lia.
  - rewrite Nat2Z.inj_succ, Z.pow_succ_r in Hv by lia. cbn [fmt_frac orb].
    pose proof (Z.div_mod v 10 ltac:(lia)) as Hdm. pose proof (Z.mod_pos_bound v 10 ltac:(lia)) as Hm.
    destruct (dig_digit (v mod 10) Hm) as (Hd & Hval & Hs).
    destruct (IH (v / 10) (show_Z (v mod 10) +:+ acc)) as (ds & E & Hds & Hl & Hvs).
    { split; [apply Z.div_pos; lia|apply Z.div_lt_upper_bound; lia]. }
    { rewrite Hs. cbn [str String.append str_all]. by rewrite Hd. }
    exists ds. rewrite E. split; [done|]. split; [done|]. rewrite Hl, Hvs, Hs. cbn [str String.append String.length digits_value].
    split; [lia|]. rewrite (digits_value_acc acc (0 * 10 + _)). rewrite Nat2Z.inj_succ, Z.pow_succ_r by lia.
    rewrite N2Z.inj_add. simpl (Z.of_N (0 * 10)). rewrite Hval. lia.
Qed.

Lemma fmt_frac_reads prec v : 0 ≤ v < 10 ^ Z.of_nat prec →
  (v = 0 ∧ fmt_frac prec v "" false = "") ∨
  ∃ ds, fmt_frac prec v "" false = "." +:+ ds ∧ str_all is_digit ds = true ∧
    (0 < String.length ds <= prec)%nat ∧
    Z.of_N (digits_value ds 0) * 10 ^ (Z.of_nat prec - Z.of_nat (String.length ds)) = v.
Proof.
  revert v. induction prec as [|prec IH]; intros v Hv; [left; simpl in *; split; [lia|done]|].
  rewrite Nat2Z.inj_succ, Z.pow_succ_r in Hv by lia. cbn [fmt_frac orb].
  pose proof (Z.div_mod v 10 ltac:(lia)) as Hdm. pose proof (Z.mod_pos_bound v 10 ltac:(lia)) as Hm.
  assert (0 ≤ v / 10 < 10 ^ Z.of_nat prec) as Hv'.
  { split; [apply Z.div_pos; lia|apply Z.div_lt_upper_bound; lia]. }
  destruct (Z.eqb_spec (v mod 10) 0) as [E|E]; cbn [negb].
  - destruct (IH (v / 10) Hv') as [[E0 ->]|(ds & -> & Hd & Hl & Hval)]; [left; split; [lia|done]|].
    right. exists ds. split; [done|]. split; [done|]. split; [lia|].
    rewrite Nat2Z.inj_succ. replace (Z.succ (Z.of_nat prec) - Z.of_nat (String.length ds))
      with (Z.succ (Z.of_nat prec - Z.of_nat (String.length ds))) by lia.
    rewrite Z.pow_succ_r by lia. lia.
  - right. destruct (dig_digit (v mod 10) Hm) as (Hd & Hval & Hs).
    destruct (fmt_frac_true prec (v / 10) (show_Z (v mod 10) +:+ "") Hv') as (ds & -> & Hds & Hl & Hvs).
    { rewrite Hs. cbn [str String.append str_all]. by rewrite Hd. }
    exists ds. split; [done|]. split; [done|]. rewrite Hs in *. cbn [str String.append String.length digits_value] in *.
    split; [lia|]. rewrite Hl, Hvs. rewrite N2Z.inj_add. simpl (Z.of_N (0 * 10)). rewrite Hval.
    replace (Z.of_nat (S prec) - Z.of_nat (prec + 1)) with 0 by lia. simpl (10 ^ Z.of_nat 1). lia.
Qed.

Lemma span_digits ds rest : str_all is_digit ds = true →
  match rest with String c _ => is_digit c = false | EmptyString => True end →
  span_str is_digit (ds +:+ rest) = (ds, rest).
Proof.
  intros Hd Hr. induction ds as [|c ds IH]; simpl in *.
  - destruct rest as [|c rest]; [done|]. simpl. by rewrite Hr.
  - apply andb_prop in Hd as [Hc Hd]. by rewrite Hc, IH.
Qed.

Lemma fraction_reads v : 0 ≤ v < Second → fraction (fmt_frac 9 v "" false +:+ "Z") = (v, "Z").
Proof.
  intros Hv. destruct (fmt_frac_reads 9 v Hv) as [[-> ->]|(ds & -> & Hd & Hl & Hval)]; [done|].
  cbn [String.append fraction]. rewrite span_digits by done. destruct ds as [|c ds]; [simpl in Hl; lia|].
  unfold nanoseconds. rewrite str_take_all by lia. change 9 with (Z.of_nat 9). by rewrite Hval.
Qed.

(** The instants [time.Time] can write: those of the years 0 to 9999. *)
Definition year_of (t : Z) : Z := fst (fst (civil (t / Second / 86400))).

Lemma drop_last_char_app s c : drop_last_char (s +:+ str c) = s.
Proof. induction s as [|d s IH]; [done|]. cbn [String.append drop_last_char]. rewrite IH. by destruct s. Qed.

(** An instant's text, to the nanosecond, says which instant it is. *)
Lemma rfc3339_nano_reads t : 0 ≤ year_of t < 10000 → parseRFC3339 (rfc3339_nano t) = Some t.
Proof.
  unfold year_of, rfc3339_nano, rfc3339. set (s := t / Second). intros Hy.
  destruct (civil (s / 86400)) as [[y m] d] eqn:Ec. cbn [fst] in Hy.
  destruct (civil_dated _ _ _ _ Ec) as (Hm & Hd & Hdays).
  assert (daysIn m y ≤ 31) as H31 by (unfold daysIn; repeat case_match; lia).
  pose proof (Z.mod_pos_bound (s / 3600) 24 ltac:(lia)) as Hh.
  pose proof (Z.mod_pos_bound (s / 60) 60 ltac:(lia)) as Hmi. pose proof (Z.mod_pos_bound s 60 ltac:(lia)) as Hs.
  rewrite four_digits, !two_digits by lia.
  replace (digits4 y +:+ _) with ((digits4 y +:+ "-" +:+ digits2 m +:+ "-" +:+ digits2 d +:+ "T" +:+
    digits2 (s / 3600 mod 24) +:+ ":" +:+ digits2 (s / 60 mod 60) +:+ ":" +:+ digits2 (s mod 60)) +:+ str "Z") by done.
  rewrite drop_last_char_app. unfold parseRFC3339. rewrite str_length_app.
  assert (∀ rest, slice (digits4 y +:+ rest) 0 4 = digits4 y) as Hsl by done.
  cbn [String.append digits2 digits4 str String.length Nat.add Nat.ltb Nat.leb slice str_take str_drop Nat.sub at_ String.get].
  change (String (dig (y / 1000)) (String (dig (y / 100 mod 10)) (String (dig (y / 10 mod 10)) (String (dig (y mod 10)) ""))))
    with (digits4 y).
  repeat match goal with |- context [String (dig (?z / 10)) (String (dig (?z mod 10)) "")] =>
    change (String (dig (z / 10)) (String (dig (z mod 10)) "")) with (digits2 z) end.
  rewrite parse_four, !parse_two by lia. cbn [Ascii.eqb andb].
  rewrite fraction_reads by (apply Z.mod_pos_bound; unfold Second; lia). cbn [zone].
  f_equal. rewrite Hdays. subst s. unfold Second in *. clear. Z.to_euclidean_division_equations. lia.
Qed.
