(* ===== verification/Etcd.v ===== *)
(** The coordinator a deployment configures: [etcd.go] of [src/runtime/internal/guard/etcd].

    An operation is a program over the calls it makes to the etcd client, to its clock and to
    its context; what each call answers, its own failure among the answers, is the world's.
    How [encoding/json] writes and reads the two values the adapter keeps is an interface,
    [Codec]. *)
From S2P Require Import Prelude GoStr GoTime GoErr GuardConfig Eff.

(** ** The client's calls *)

(** A key as the server returns it; a lease of none is a key that outlives its writer. *)
Record kv := mkKv { v_Value : string; v_CreateRevision : Z; v_ModRevision : Z; v_Lease : option Z }.

Inductive compare := CreateRevisionIs (key : string) (revision : Z) | ModRevisionIs (key : string) (revision : Z).
Inductive op := OpGet (key : string) | OpPut (key value : string) (lease : option Z).
Record txn := mkTxn { x_If : list compare; x_Then : list op; x_Else : list op }.
(** The responses are those of the branch taken; a write's is none. *)
Record committed := mkCommitted { m_Succeeded : bool; m_Revision : Z; m_Responses : list (option kv) }.

(** What receiving from a watch gives: changes, of which the deletions are told apart, the
    error a change carries, or the end of the channel. *)
Inductive change := Events (deletes : list bool) | ChangeErr (err : gerror) | Closed.

Inductive etcd_cmd :=
| CtxErr                              (** [ctx.Err()] *)
| Wall                                (** the clock, which only stamps a claim *)
| Seam (name : string) | Watching (name : string)
| Grant (seconds : Z)                 (** a lease's identifier and its time to live *)
| Revoke (lease : Z)
| RevokeLater (lease : Z)             (** the revocation left to a context of its own *)
| Txn (t : txn)
| Get (key : string)                  (** the key and the revision it was read at *)
| Watch (key : string) (revision : Z) | Receive
| KeepAliveOnce (lease : Z).

Definition etcd_resp (c : etcd_cmd) : Type :=
  match c with
  | CtxErr | Revoke _ | KeepAliveOnce _ => option gerror
  | Wall => Z
  | Seam _ | Watching _ | RevokeLater _ | Watch _ _ => unit
  | Grant _ => gerror + (Z * Z)
  | Txn _ => gerror + committed
  | Get _ => gerror + (option kv * Z)
  | Receive => change
  end.

#[export] Instance etcd_sig : Signature := {| cmd := etcd_cmd; resp := etcd_resp |}.

Definition Do (c : etcd_cmd) : prog (etcd_resp c) := call (Sg := etcd_sig) c.

(** ** The values the adapter keeps *)

Record holderValue := mkHolderValue { o_Host : string; o_Instance : string; o_RunID : string; o_Taken : Z }.
Record tickValue := mkTickValue { t_DueAt : Z; t_Host : string; t_Instance : string; t_RunID : string }.

Definition holder (t : tickValue) : Holder := mkHolder (t_Host t) (t_Instance t) (t_RunID t).
Definition holderOf (v : holderValue) : Holder := mkHolder (o_Host v) (o_Instance v) (o_RunID v).

(** The JSON of the two values; what is promised of it is that the instant a tick was due at is
    read back. *)
Class Codec := {
  encode_holder : holderValue → gerror + string;
  decode_holder : string → gerror + holderValue;
  encode_tick : tickValue → gerror + string;
  decode_tick : string → gerror + tickValue;
  due_reads_back t s : encode_tick t = inr s → ∃ t', decode_tick s = inr t' ∧ t_DueAt t' = t_DueAt t }.

(** ** Options *)

(** The deployment's prefix, and whether the two functions only the contract suite sets are. *)
Record Options := mkOptions { p_Prefix : string; p_Seam : bool; p_Watching : bool }.

Definition TrimSuffix (s suffix : string) : string :=
  let kept := (String.length s - String.length suffix)%nat in
  if String.eqb (str_drop kept s) suffix && (String.length suffix <=? String.length s)%nat then str_take kept s else s.

Record Coordinator := mkCoordinator { c_prefix : string; c_seam : bool; c_watching : bool }.

Definition New (opts : Options) : Coordinator :=
  mkCoordinator (TrimSuffix (p_Prefix opts) "/" +:+ "/") (p_Seam opts) (p_Watching opts).

Definition unavailable (what : string) (err : gerror) : gerror :=
  Wrap (Error ErrUnavailable +:+ ": " +:+ what +:+ ": " +:+ Error err) [ErrUnavailable; err].

(** A server grants at least what it always grants, whatever it is asked. *)
Definition CheckGrant (asked granted : Z) : option gerror :=
  if granted <? asked then
    Some (wrap_after ErrUnavailable (": the backend granted an expiry of " +:+ Duration_String granted
            +:+ ", less than the " +:+ Duration_String asked +:+ " asked for"))
  else None.

(** [rpctypes.ErrLeaseNotFound]. *)
Definition ErrLeaseNotFound : gerror := Sentinel "etcdserver: requested lease not found".
Definition lost (err : gerror) : bool :=
  errors_is err ErrLeaseNotFound || contains_str (Error err) "requested lease not found".

Record Claim := mkClaim { k_Name : string; k_Lease : Z; k_Token : Z; k_Granted : Z }.

Section coordinator.
Context {C : Codec} (c : Coordinator).

Definition Reach : string := ReachCrossHost.

Definition claimKey (name : string) : string := c_prefix c +:+ "claims/" +:+ name.
Definition tickKey (name : string) : string := c_prefix c +:+ "ticks/" +:+ name.
Definition rateKey (name : string) (i : nat) : string :=
  c_prefix c +:+ "rate/" +:+ name +:+ "/" +:+ show_nat i.

Definition due (req : AcquireRequest) : Z := GuardConfig.t_DueAt (a_Trigger req).
Definition scheduled (req : AcquireRequest) : bool := String.eqb (t_Kind (a_Trigger req)) KindSchedule.
Definition slots (req : AcquireRequest) : nat :=
  match a_Rate req with None => 0 | Some limit => Z.to_nat (l_Runs limit) end.

Definition ops (req : AcquireRequest) : list op :=
  OpGet (claimKey (a_Name req)) ::
  (if scheduled req then [OpGet (tickKey (a_Name req))] else []) ++
  map (λ i, OpGet (rateKey (a_Name req) i)) (seq 0 (slots req)).

Record state := mkState {
  s_holder : option holderValue; s_tick : option tickValue; s_tickRev : Z; s_slotFree : list bool }.

(** The tick's response, when one was asked for, and those of the slots. *)
Definition stateOf (responses : list (option kv)) (req : AcquireRequest) : gerror + state :=
  let* holder :=
    match responses with
    | Some found :: _ =>
        match decode_holder (v_Value found) with
        | inl err => inl (wrap_before "reading the holder of a claim" err)
        | inr value => inr (Some value)
        end
    | _ => inr None
    end in
  let rest := drop 1 responses in
  let* read :=
    if scheduled req then
      match rest with
      | Some found :: _ =>
          match decode_tick (v_Value found) with
          | inl err => inl (wrap_before "reading a recorded tick" err)
          | inr value => inr (Some value, v_ModRevision found)
          end
      | _ => inr (None, 0)
      end
    else inr (None, 0) in
  let rest := if scheduled req then drop 1 rest else rest in
  inr (mkState holder (fst read) (snd read)
         (map (λ i, match rest !! i with Some (Some _) => false | _ => true end) (seq 0 (slots req)))).

Definition read (req : AcquireRequest) : prog (gerror + state) :=
  let! resp := Do (Txn (mkTxn [] (ops req) [])) in
  Ret (match resp with
       | inl err => inl (unavailable "reading the claim" err)
       | inr resp => stateOf (m_Responses resp) req
       end).

Definition tickRan (req : AcquireRequest) (recorded : option tickValue) : bool :=
  scheduled req &&
  match recorded with
  | None => false
  | Some recorded => negb (After (due req) (t_DueAt recorded))
  end.

Fixpoint freeSlot_from (i : nat) (slotFree : list bool) : option nat :=
  match slotFree with
  | [] => None
  | free :: slotFree => if (free : bool) then Some i else freeSlot_from (S i) slotFree
  end.
Definition freeSlot : list bool → option nat := freeSlot_from 0.

(** The transaction that takes the claim, the tick and a rate slot in one step. *)
Definition taking (req : AcquireRequest) (holder tick : string) (lease rateLease tickRev : Z) (slot : option nat) : txn :=
  let name := a_Name req in
  mkTxn
    (CreateRevisionIs (claimKey name) 0 ::
     (if scheduled req then [ModRevisionIs (tickKey name) tickRev] else []) ++
     match slot with Some i => [CreateRevisionIs (rateKey name i) 0] | None => [] end)
    (OpPut (claimKey name) holder (Some lease) ::
     (if scheduled req then [OpPut (tickKey name) tick None] else []) ++
     match slot with
     | Some i => [OpPut (rateKey name i) (h_RunID (a_Holder req)) (Some rateLease)]
     | None => []
     end)
    (ops req).

(** A round of [take]: a decision, or none when another host was ahead and has since let go. *)
Definition refusal_of (req : AcquireRequest) (at_ : state) : option gerror :=
  match s_holder at_ with
  | Some value => Some (HeldBy (holderOf value))
  | None =>
      match s_tick at_ with
      | Some value => if tickRan req (Some value) then Some (TickRanAs (t_DueAt value) (holder value)) else None
      | None => None
      end
  end.

Definition attempt (req : AcquireRequest) (holder tick : string) (lease granted rateLease : Z)
    (at_ : state) : prog (option (gerror + Claim)) :=
  if tickRan req (s_tick at_) then
    Ret (option_map inl (refusal_of req at_))
  else
    match a_Rate req, freeSlot (s_slotFree at_) with
    | Some limit, None => Ret (Some (inl (RateLimitedBy limit)))
    | _, slot =>
        let! _ := if scheduled req && c_seam c then Do (Seam (a_Name req)) else Ret tt in
        let! answer := Do (Txn (taking req holder tick lease rateLease (s_tickRev at_) slot)) in
        Ret (match answer with
             | inl err => Some (inl (unavailable "taking the claim" err))
             | inr done =>
                 if m_Succeeded done then Some (inr (mkClaim (a_Name req) lease (m_Revision done) granted))
                 else match stateOf (m_Responses done) req with
                      | inl err => Some (inl err)
                      | inr fresh => option_map inl (refusal_of req fresh)
                      end
             end)
    end.

(** The rounds end with the context's bound; [None] is one more round than [fuel]. *)
Fixpoint rounds (fuel : nat) (req : AcquireRequest) (holder tick : string) (lease granted rateLease : Z)
  : prog (option (gerror + Claim)) :=
  match fuel with
  | O => Ret None
  | S fuel =>
      let! ended := Do CtxErr in
      match ended with
      | Some err => Ret (Some (inl (unavailable "deciding" err)))
      | None =>
          let! at_ := read req in
          match at_ with
          | inl err => Ret (Some (inl err))
          | inr at_ =>
              let! decided := attempt req holder tick lease granted rateLease at_ in
              match decided with
              | Some decision => Ret (Some decision)
              | None => rounds fuel req holder tick lease granted rateLease
              end
          end
      end
  end.

Definition take (fuel : nat) (req : AcquireRequest) (lease granted rateLease : Z) : prog (option (gerror + Claim)) :=
  let! wall := Do Wall in
  let by_ := a_Holder req in
  match encode_holder (mkHolderValue (h_Host by_) (h_Instance by_) (h_RunID by_) wall) with
  | inl err => Ret (Some (inl err))
  | inr value =>
      match encode_tick (mkTickValue (due req) (h_Host by_) (h_Instance by_) (h_RunID by_)) with
      | inl err => Ret (Some (inl err))
      | inr tick => rounds fuel req value tick lease granted rateLease
      end
  end.

Definition revoke (lease : Z) : prog unit :=
  let! ended := Do CtxErr in
  match ended with
  | Some _ => Do (RevokeLater lease)
  | None =>
      let! failed := Do (Revoke lease) in
      match failed with Some _ => Do (RevokeLater lease) | None => Ret tt end
  end.

Definition give_back (lease : Z) (rateLease : option Z) (err : gerror) : prog (option (gerror + Claim)) :=
  let! _ := revoke lease in
  let! _ := match rateLease with Some rateLease => revoke rateLease | None => Ret tt end in
  Ret (Some (inl err)).

Definition Acquire (fuel : nat) (req : AcquireRequest) : prog (option (gerror + Claim)) :=
  match AcquireRequest_Check req with
  | Some err => Ret (Some (inl err))
  | None =>
      if (a_Expiry req <=? 0) || negb (Z.rem (a_Expiry req) Second =? 0) then
        Ret (Some (inl (Text ("a claim expiry of " +:+ Duration_String (a_Expiry req)
                              +:+ " is not a whole number of seconds"))))
      else
        let! lease := Do (Grant (Z.quot (a_Expiry req) Second)) in
        match lease with
        | inl err => Ret (Some (inl (unavailable "granting a lease" err)))
        | inr (lease, ttl) =>
            let granted := i64 (ttl * Second) in
            match CheckGrant (a_Expiry req) granted with
            | Some err => give_back lease None err
            | None =>
                let! rateLease :=
                  match a_Rate req with
                  | None => Ret (inr None)
                  | Some limit =>
                      let! rate := Do (Grant (Z.quot (l_Per limit) Second)) in
                      Ret (match rate with inl err => inl err | inr (id, _) => inr (Some id) end)
                  end in
                match rateLease with
                | inl err => give_back lease None (unavailable "granting a rate slot's lease" err)
                | inr rateLease =>
                    let! claim := take fuel req lease granted (default 0 rateLease) in
                    match claim with
                    | Some (inl err) => give_back lease rateLease err
                    | claim => Ret claim
                    end
                end
            end
        end
  end.

(** ** A claim that was taken *)

Definition Renew (k : Claim) : prog (option gerror) :=
  let! failed := Do (KeepAliveOnce (k_Lease k)) in
  Ret (match failed with
       | None => None
       | Some err =>
           if lost err then
             Some (Wrap (Error ErrLost +:+ ": the lease of " +:+ k_Name k +:+ " is gone: " +:+ Error err) [ErrLost; err])
           else Some (unavailable ("renewing the claim on " +:+ k_Name k) err)
       end).

Definition Fence (k : Claim) : prog (option gerror) :=
  let key := claimKey (k_Name k) in
  let! answer := Do (Txn (mkTxn [CreateRevisionIs key (k_Token k)] [OpGet key] [])) in
  Ret (match answer with
       | inl err => Some (unavailable ("fencing on the claim of " +:+ k_Name k) err)
       | inr done =>
           if m_Succeeded done then None
           else Some (wrap_after ErrLost (": " +:+ k_Name k +:+ " is no longer held under token " +:+ show_Z (k_Token k)))
       end).

Definition Release (k : Claim) : prog (option gerror) :=
  let! failed := Do (Revoke (k_Lease k)) in
  Ret (match failed with
       | None => None
       | Some err => if lost err then None else Some (unavailable ("releasing the claim on " +:+ k_Name k) err)
       end).

(** ** Waiting for a claim *)

(** [None] is a watch still going after [fuel] changes. *)
Fixpoint watch (fuel : nat) : prog (option (option gerror)) :=
  match fuel with
  | O => Ret None
  | S fuel =>
      let! next := Do Receive in
      match next with
      | Closed =>
          let! ended := Do CtxErr in
          Ret (Some (Some (unavailable "watching the claim" (default (Text "%!w(<nil>)") ended))))
      | ChangeErr err => Ret (Some (Some (unavailable "watching the claim" err)))
      | Events deletes => if existsb id deletes then Ret (Some None) else watch fuel
      end
  end.

Definition Released (fuel : nat) (name : string) : prog (option (option gerror)) :=
  let key := claimKey name in
  let! current := Do (Get key) in
  match current with
  | inl err => Ret (Some (Some (unavailable "reading the claim" err)))
  | inr (None, _) => Ret (Some None)
  | inr (Some _, revision) =>
      let! _ := Do (Watch key (i64 (revision + 1))) in
      let! _ := if c_watching c then Do (Watching name) else Ret tt in
      watch fuel
  end.
End coordinator.

(** ** [client.go] *)

(** What the file system and the X.509 parsers say of the files a deployment names. *)
Record tls_io := mkTlsIo {
  tls_read_CA : gerror + string; tls_is_authority : string → bool; tls_load_pair : option gerror }.
(** The transport: the authority whose certificates it trusts when it is not the system's, and
    whether it presents a certificate of its own. *)
Record transport := mkTransport { tr_authority : option string; tr_certificate : bool }.

Definition clientTLS (io : tls_io) (files : TLSFiles) : gerror + transport :=
  let* authority :=
    if String.eqb (CA files) "" then inr None
    else
      match tls_read_CA io with
      | inl err => inl (wrap_before "reading the etcd certificate authority" err)
      | inr pem => if tls_is_authority io pem then inr (Some pem) else inl (Text (CA files +:+ " holds no certificate"))
      end in
  if String.eqb (Cert files) "" && String.eqb (Key files) "" then inr (mkTransport authority false)
  else
    match tls_load_pair io with
    | Some err => inl (wrap_before "reading the etcd client certificate" err)
    | None => inr (mkTransport authority true)
    end.

Definition dialBound : Z := 5 * Second.

(** The options a client is made with. *)
Record client_options := mkClientOptions {
  o_Endpoints : list string; o_DialTimeout : Z; o_Username : string; o_Password : string; o_TLS : option transport }.

(** [made] is the client library's own failure; [%v] writes the endpoints between brackets. *)
Definition NewClient (io : tls_io) (made : client_options → option gerror) (cfg : EtcdConfig) : gerror + client_options :=
  let* transport :=
    match e_TLS cfg with None => inr None | Some files => let* t := clientTLS io files in inr (Some t) end in
  let options := mkClientOptions (Endpoints cfg) dialBound (Username cfg) (Password cfg) transport in
  match made options with
  | Some err =>
      inl (Wrap (Error ErrUnavailable +:+ ": connecting to etcd at [" +:+ join (Endpoints cfg) " " +:+ "]: " +:+ Error err)
             [ErrUnavailable; err])
  | None => inr options
  end.
