(* ===== verification/EtcdStore.v ===== *)
(** The store the coordinator's calls reach, and the clients that share it.

    The store is an interface: what it answers and keeps, with the laws etcd's documentation
    states of transactions, revisions and leases, and an instance that has them.  Clients are
    programs that take their calls to it in any order; an answer can be lost after the store has
    acted, and a lease can end at any moment. *)
From S2P Require Import Prelude GoStr GoTime GoErr GuardConfig Eff Etcd.

(** ** The laws of a store *)

Definition created (found : option kv) : Z := match found with Some found => v_CreateRevision found | None => 0 end.
Definition modified (found : option kv) : Z := match found with Some found => v_ModRevision found | None => 0 end.

Definition is_get (o : op) : bool := match o with OpGet _ => true | OpPut _ _ _ => false end.

(** What a branch leaves under a key, when it writes it. *)
Fixpoint put_of (branch : list op) (key : string) (acc : option (string * option Z)) : option (string * option Z) :=
  match branch with
  | [] => acc
  | OpGet _ :: branch => put_of branch key acc
  | OpPut key' value lease :: branch => put_of branch key (if String.eqb key key' then Some (value, lease) else acc)
  end.

Class Store (St : Type) := {
  lookup_key : St → string → option kv;
  revision : St → Z;
  leases : St → gset Z;           (* granted and not ended *)
  issued : St → gset Z;           (* ever granted *)
  commit : txn → St → (gerror + committed) * St;
  grant : Z → St → (gerror + (Z * Z)) * St;
  end_lease : Z → St → St }.

Definition compare_holds `{Store St} (s : St) (c : compare) : bool :=
  match c with
  | CreateRevisionIs key r => created (lookup_key s key) =? r
  | ModRevisionIs key r => modified (lookup_key s key) =? r
  end.

Definition branch_of (t : txn) (d : committed) : list op := if m_Succeeded d then x_Then t else x_Else t.
Definition response `{Store St} (s : St) (o : op) : option kv :=
  match o with OpGet key => lookup_key s key | OpPut _ _ _ => None end.

Definition same_store `{Store St} (s s' : St) : Prop :=
  (∀ key, lookup_key s' key = lookup_key s key) ∧ revision s' = revision s ∧
  leases s' = leases s ∧ issued s' = issued s.

Class StoreLaws (St : Type) `{Store St} := {
  (** A key's revisions are those of transactions that were made, and its lease has not ended. *)
  revised s key found : lookup_key s key = Some found →
    1 ≤ v_CreateRevision found ≤ v_ModRevision found ∧ v_ModRevision found ≤ revision s;
  leased s key found lease : lookup_key s key = Some found → v_Lease found = Some lease → lease ∈ leases s;
  leases_issued (s : St) : leases s ⊆ issued s;
  (** A transaction the server refuses changes nothing. *)
  commit_refused t s err s' : commit t s = (inl err, s') → same_store s s';
  commit_compares t s d s' : commit t s = (inr d, s') → m_Succeeded d = forallb (compare_holds s) (x_If t);
  (** One that only reads answers from the store as it stands. *)
  commit_reads t s d s' : commit t s = (inr d, s') → forallb is_get (branch_of t d) = true →
    same_store s s' ∧ m_Responses d = map (response s) (branch_of t d);
  (** One that writes makes a revision of its own. *)
  commit_writes t s d s' : commit t s = (inr d, s') → forallb is_get (branch_of t d) = false →
    revision s' = revision s + 1 ∧ m_Revision d = revision s' ∧ leases s' = leases s ∧ issued s' = issued s ∧
    ∀ key, lookup_key s' key =
      match put_of (branch_of t d) key None with
      | None => lookup_key s key
      | Some (value, lease) =>
          Some (mkKv value (match lookup_key s key with Some old => v_CreateRevision old | None => revision s' end)
                  (revision s') lease)
      end;
  grant_refused n s err s' : grant n s = (inl err, s') → same_store s s';
  granted n s id ttl s' : grant n s = (inr (id, ttl), s') →
    id ∉ issued s ∧ leases s' = {[id]} ∪ leases s ∧ issued s' = {[id]} ∪ issued s ∧ revision s' = revision s ∧
    ∀ key, lookup_key s' key = lookup_key s key;
  (** A lease that ends, revoked or expired, takes its keys with it. *)
  ended id s : leases (end_lease id s) = leases s ∖ {[id]} ∧ issued (end_lease id s) = issued s ∧
    revision s ≤ revision (end_lease id s) ∧
    ∀ key, lookup_key (end_lease id s) key =
      match lookup_key s key with
      | Some found => if decide (v_Lease found = Some id) then None else Some found
      | None => None
      end }.

(** ** Clients *)

Section clients.
Context `{StoreLaws St}.

(** A transaction that wrote: the client's it was, its revision and what it wrote. *)
Record write := mkWrite { e_Client : nat; e_Revision : Z; e_Ops : list op }.

(** The store, the transactions that wrote to it, the latest first, and the leases it granted, each
    with the seconds it was asked for. *)
Record history := mkHistory { h_store : St; h_log : list write; h_granted : list (Z * Z) }.

Section client.
Context (who : nat).

Definition logged (t : txn) (d : committed) (s' : St) (log : list write) : list write :=
  if forallb is_get (branch_of t d) then log else mkWrite who (revision s') (branch_of t d) :: log.

(** What the store does for a transaction, refused or not. *)
Definition transacted (t : txn) (h : history) : (gerror + committed) * history :=
  match commit t (h_store h) with
  | (inl err, s') => (inl err, mkHistory s' (h_log h) (h_granted h))
  | (inr d, s') => (inr d, mkHistory s' (logged t d s' (h_log h)) (h_granted h))
  end.

Definition with_store (s : St) (h : history) : history := mkHistory s (h_log h) (h_granted h).
(** The store after a lease was asked of it. *)
Definition with_lease (seconds : Z) (x : gerror + (Z * Z)) (s : St) (h : history) : history :=
  mkHistory s (h_log h) (match x with inr (id, _) => (id, seconds) :: h_granted h | inl _ => h_granted h end).

(** A call and its answer, and what became of the store: an answer is the store's, or the
    client's own failure whether or not the store had acted. *)
Inductive served (h : history) : ∀ c : etcd_cmd, etcd_resp c → history → Prop :=
| served_txn t x h' : transacted t h = (x, h') → served h (Txn t) x h'
| lost_txn t x h' err : transacted t h = (x, h') → served h (Txn t) (inl err) h'
| unsent_txn t err : served h (Txn t) (inl err) h
| served_grant n x s' : grant n (h_store h) = (x, s') → served h (Grant n) x (with_lease n x s' h)
| lost_grant n x s' err : grant n (h_store h) = (x, s') → served h (Grant n) (inl err) (with_lease n x s' h)
| unsent_grant n err : served h (Grant n) (inl err) h
| served_revoke id : id ∈ leases (h_store h) → served h (Revoke id) None (with_store (end_lease id (h_store h)) h)
| refused_revoke id : id ∉ leases (h_store h) → served h (Revoke id) (Some ErrLeaseNotFound) h
| lost_revoke id err : served h (Revoke id) (Some err) (with_store (end_lease id (h_store h)) h)
| unsent_revoke id err : served h (Revoke id) (Some err) h
| served_keepalive id : id ∈ leases (h_store h) → served h (KeepAliveOnce id) None h
| refused_keepalive id : id ∉ leases (h_store h) → served h (KeepAliveOnce id) (Some ErrLeaseNotFound) h
| unsent_keepalive id err : served h (KeepAliveOnce id) (Some err) h
| served_get key : served h (Get key) (inr (lookup_key (h_store h) key, revision (h_store h))) h
| unsent_get key err : served h (Get key) (inl err) h
| served_ctx x : served h CtxErr x h
| served_wall x : served h Wall x h
| served_seam name x : served h (Seam name) x h
| served_watching name x : served h (Watching name) x h
| served_later id x : served h (RevokeLater id) x h
| served_watch key r x : served h (Watch key r) x h
| served_receive x : served h Receive x h.

Lemma served_grant_inv h n id ttl h' : served h (Grant n) (inr (id, ttl)) h' → (id, n) ∈ h_granted h'.
Proof.
  intros Hv. enough (∀ c y, served h c y h' → match c as c return etcd_resp c → Prop with
    | Grant n => λ x, ∀ p, x = inr p → (fst p, n) ∈ h_granted h'
    | _ => λ _, True end y) as Hi by by apply (Hi _ _ Hv (id, ttl)).
  destruct 1; try done. intros [id' ttl'] ->. left.
Qed.

Lemma served_txn_inv h t x h' : served h (Txn t) x h' →
  (∃ y, transacted t h = (y, h') ∧ (x = y ∨ ∃ err, x = inl err)) ∨ (h' = h ∧ ∃ err, x = inl err).
Proof.
  intros Hv. enough (∀ c y, served h c y h' → match c as c return etcd_resp c → Prop with
    | Txn t => λ x, (∃ y, transacted t h = (y, h') ∧ (x = y ∨ ∃ err, x = inl err)) ∨ (h' = h ∧ ∃ err, x = inl err)
    | _ => λ _, True end y) as Hi by by apply (Hi _ _ Hv).
  destruct 1; eauto 6.
Qed.

(** What a transaction comes to that was answered: it took its branch, and one that writes is
    logged at the revision it made. *)
Lemma answered_txn h t d h' : served h (Txn t) (inr d) h' →
  ∃ s', commit t (h_store h) = (inr d, s') ∧ h' = mkHistory s' (logged t d s' (h_log h)) (h_granted h).
Proof.
  intros [(y & Ht & [<-|[err He]])|[_ [err He]]]%served_txn_inv; [|discriminate..].
  unfold transacted in Ht. destruct (commit t (h_store h)) as [[err|d'] s']; [discriminate|].
  injection Ht as -> <-. by exists s'.
Qed.

(** *** Programs among others *)

(** What the others may do between two calls of a client: nothing of an earlier revision comes
    back or changes, and what was logged stays logged. *)
Record later (h h' : history) : Prop := {
  later_revision : revision (h_store h) ≤ revision (h_store h');
  later_keeps key found : lookup_key (h_store h') key = Some found →
    v_ModRevision found ≤ revision (h_store h) → lookup_key (h_store h) key = Some found;
  later_log : suffix (h_log h) (h_log h');
  later_granted : suffix (h_granted h) (h_granted h') }.

Lemma later_refl h : later h h.
Proof. by split. Qed.

Lemma later_trans h1 h2 h3 : later h1 h2 → later h2 h3 → later h1 h3.
Proof.
  intros [r12 k12 l12 g12] [r23 k23 l23 g23]. split; [lia| |by transitivity (h_log h2)|by transitivity (h_granted h2)].
  intros key found Hf Hm. apply k12; [apply k23; [done|lia]|done].
Qed.

Lemma later_same h s' : same_store (h_store h) s' → later h (with_store s' h).
Proof.
  intros (Hk & Hr & _). split; simpl; [lia| |done|done]. intros key found. by rewrite Hk.
Qed.

Lemma later_ended h id : later h (with_store (end_lease id (h_store h)) h).
Proof.
  destruct (ended id (h_store h)) as (_ & _ & Hr & Hk). split; simpl; [done| |done|done].
  intros key found. rewrite Hk. destruct (lookup_key _ key); [|done]. by destruct (decide _).
Qed.

Lemma later_grant h n x s' : grant n (h_store h) = (x, s') → later h (with_lease n x s' h).
Proof.
  destruct x as [err|[id ttl]]; intros Hg; [by eapply (later_same h s'), grant_refused|].
  apply granted in Hg as (_ & _ & _ & Hr & Hk). split; simpl; [lia| |done|by apply suffix_cons_r].
  intros key found. by rewrite Hk.
Qed.

Lemma later_txn h t x h' : transacted t h = (x, h') → later h h'.
Proof.
  unfold transacted. destruct (commit t (h_store h)) as [[err|d] s'] eqn:E; intros Ht; injection Ht as <- <-.
  - by eapply (later_same h s'), commit_refused.
  - unfold logged. destruct (forallb is_get (branch_of t d)) eqn:Eg.
    + by eapply (later_same h s'), commit_reads.
    + apply commit_writes in E as (Hr & _ & _ & _ & Hk); [|done]. split; simpl; [lia| |by apply suffix_cons_r|done].
      intros key found. rewrite Hk. destruct (put_of _ _ _) as [[value lease]|]; [|done].
      intros He. injection He as <-. simpl. lia.
Qed.

Lemma served_later_history h c x h' : served h c x h' → later h h'.
Proof.
  destruct 1; eauto using later_refl, later_ended, later_grant, later_txn.
Qed.

Section safe.
(** [promise s entry] is what a client promises of every transaction it writes, of the store it
    finds. *)
Context (promise : St → write → Prop).

Definition keeps_promise (h h' : history) : Prop :=
  h_log h' = h_log h ∨ ∃ entry, h_log h' = entry :: h_log h ∧ promise (h_store h) entry.

(** A transaction that writes in its first branch alone keeps a promise its conditions give. *)
Lemma txn_step t h x h' :
  forallb is_get (x_Then t) = false → forallb is_get (x_Else t) = true → served h (Txn t) x h' →
  (∀ e, forallb (compare_holds (h_store h)) (x_If t) = true → e_Ops e = x_Then t → promise (h_store h) e) →
  keeps_promise h h' ∧
  ∀ d, x = inr d → m_Succeeded d = true → mkWrite who (m_Revision d) (x_Then t) ∈ h_log h'.
Proof.
  intros Hthen Helse Hv Hp. apply served_txn_inv in Hv as [(y & Ht & Hx)|[-> [err ->]]]; [|by split; [left|]].
  unfold transacted in Ht. destruct (commit t (h_store h)) as [[err|d] s'] eqn:Ec.
  - injection Ht as <- <-. split; [by left|]. intros d -> _. destruct Hx as [[=]|[err' [=]]].
  - injection Ht as <- <-. unfold logged. destruct (m_Succeeded d) eqn:Ed.
    + assert (branch_of t d = x_Then t) as Hb by (unfold branch_of; by rewrite Ed). rewrite Hb, Hthen. split.
      * right. eexists. split; [done|]. apply Hp; [|done]. by rewrite <- (commit_compares _ _ _ _ Ec).
      * intros d' -> Hd'. destruct Hx as [[= <-]|[err' [=]]]. simpl.
        apply commit_writes in Ec as (_ & -> & _); [left|by rewrite Hb].
    + assert (branch_of t d = x_Else t) as Hb by (unfold branch_of; by rewrite Ed). rewrite Hb, Helse. split; [by left|].
      intros d' -> Hd'. destruct Hx as [[= <-]|[err' [=]]]. congruence.
Qed.

(** A client that keeps its promise at every call, whatever the others do between them, and then
    gives what [Q] says. *)
Fixpoint safe {A} (Q : A → history → Prop) (p : prog (Sg := etcd_sig) A) (h : history) : Prop :=
  match p with
  | Ret a => Q a h
  | Call c k => ∀ h1 x h2, later h h1 → served h1 c x h2 → keeps_promise h1 h2 ∧ safe Q (k x) h2
  end.

Definition stable {A} (Q : A → history → Prop) : Prop := ∀ a h h', later h h' → Q a h → Q a h'.

Lemma safe_later {A} (Q : A → history → Prop) (p : prog A) h h' : stable Q → later h h' → safe Q p h → safe Q p h'.
Proof.
  intros HQ Hl. destruct p as [a|c k]; simpl; [by apply HQ|]. intros Hs h1 x h2 Hl' Hv.
  apply (Hs h1); [by eapply later_trans|done].
Qed.

(** Where a client ends is later than where it began. *)
Lemma safe_from {A} (Q : A → history → Prop) (p : prog A) h0 h :
  later h0 h → safe Q p h → safe (λ a h', Q a h' ∧ later h0 h') p h.
Proof.
  revert h. induction p as [a|c k IH]; intros h Hl; simpl; [done|]. intros Hs h1 x h2 Hl1 Hv.
  destruct (Hs h1 x h2 Hl1 Hv) as [Hk Hq]. split; [done|]. apply IH; [|done].
  eapply later_trans; [exact Hl|]. eapply later_trans; [exact Hl1|by eapply served_later_history].
Qed.

Lemma safe_bind {A B} (P : A → history → Prop) (Q : B → history → Prop) (p : prog A) (f : A → prog B) h :
  safe P p h → (∀ a h', P a h' → safe Q (f a) h') → safe Q (bind p f) h.
Proof.
  revert h. induction p as [a|c k IH]; intros h Hp Hf; simpl in *; [by apply Hf|].
  unfold bind. fold (@bind etcd_sig A B). intros h1 x h2 Hl Hv. destruct (Hp h1 x h2 Hl Hv) as [Hk Hs].
  split; [done|]. by apply IH.
Qed.

Lemma safe_do {B} (Q : B → history → Prop) c (f : etcd_resp c → prog B) h :
  (∀ h1 x h2, later h h1 → served h1 c x h2 → keeps_promise h1 h2 ∧ safe Q (f x) h2) → safe Q (bind (Do c) f) h.
Proof. intros Hf. exact Hf. Qed.

(** A call that writes nothing. *)
Definition quiet (c : etcd_cmd) : bool :=
  match c with Txn t => forallb is_get (x_Then t) && forallb is_get (x_Else t) | _ => true end.

Lemma quiet_keeps h c x h' : quiet c = true → served h c x h' → h_log h' = h_log h.
Proof.
  assert (∀ t x h', forallb is_get (x_Then t) && forallb is_get (x_Else t) = true →
    transacted t h = (x, h') → h_log h' = h_log h) as Ht.
  { intros t x' h'' [H1 H2]%andb_prop. unfold transacted.
    destruct (commit t (h_store h)) as [[err|d] s']; intros He; injection He as <- <-; [done|].
    unfold logged, branch_of. simpl. destruct (m_Succeeded d); by rewrite ?H1, ?H2. }
  intros Hq. destruct 1; try done; by eapply Ht.
Qed.

Lemma safe_quiet {B} (Q : B → history → Prop) c (f : etcd_resp c → prog B) h :
  quiet c = true → (∀ h1 x h2, later h h1 → served h1 c x h2 → later h h2 → safe Q (f x) h2) →
  safe Q (bind (Do c) f) h.
Proof.
  intros Hq Hf. apply safe_do. intros h1 x h2 Hl Hv. split; [left; by eapply quiet_keeps|].
  apply (Hf h1); [done..|]. eapply later_trans; [exact Hl|by eapply served_later_history].
Qed.
End safe.
End client.
End clients.
