(* ===== verification/EtcdSafe.v ===== *)
(** What every client of the coordination store promises, whatever the others do and whichever
    answers are lost. *)
From S2P Require Import Prelude GoStr GoTime GoErr GuardConfig Eff Etcd EtcdStore.

Section safety.
Context `{StoreLaws St} {C : Codec} (c : Coordinator) (asked : AcquireRequest → Prop).

(** ** What a client writes *)

Definition tick_of (req : AcquireRequest) : tickValue :=
  let by_ := a_Holder req in mkTickValue (due req) (h_Host by_) (h_Instance by_) (h_RunID by_).

(** The writes of a claim for [req], under these leases and in this rate slot. *)
Definition writes_claim (req : AcquireRequest) (lease rateLease : Z) (slot : option nat) (branch : list op) : Prop :=
  (∃ holder tick, encode_tick (tick_of req) = inr tick ∧
     branch = x_Then (taking c req holder tick lease rateLease 0 slot)) ∧
  match slot with Some i => (i < slots req)%nat | None => a_Rate req = None end.

(** The recorded tick, if there is one, is of an earlier instant. *)
Definition after_recorded (s : St) (req : AcquireRequest) : Prop :=
  ∀ found, lookup_key s (tickKey c (a_Name req)) = Some found →
    ∃ t, decode_tick (v_Value found) = inr t ∧ t_DueAt t < due req.

(** A client writes to the store only to take a claim nobody holds, for a tick later than the
    recorded one and in a slot nobody is in. *)
Definition promise (s : St) (e : write) : Prop :=
  ∃ req lease rateLease slot, asked req ∧ writes_claim req lease rateLease slot (e_Ops e) ∧
    lookup_key s (claimKey c (a_Name req)) = None ∧
    (scheduled req = true → after_recorded s req) ∧
    (∀ i, slot = Some i → lookup_key s (rateKey c (a_Name req) i) = None).

(** ** Reading a name's state *)

Definition read_at (req : AcquireRequest) (s : St) (at_ : state) : Prop :=
  (scheduled req = true →
   match lookup_key s (tickKey c (a_Name req)) with
   | None => s_tick at_ = None ∧ s_tickRev at_ = 0
   | Some found => ∃ t, decode_tick (v_Value found) = inr t ∧ s_tick at_ = Some t ∧ s_tickRev at_ = v_ModRevision found
   end) ∧ length (s_slotFree at_) = slots req.

Lemma stateOf_reads req s at_ : stateOf (map (response s) (ops c req)) req = inr at_ → read_at req s at_.
Proof.
  unfold stateOf, ops. cbn [map response]. intros Hs.
  destruct (match lookup_key s (claimKey c (a_Name req)) with Some _ => _ | None => _ end) as [err|hold]; [discriminate|].
  unfold read_at. destruct (scheduled req); cbn [app map response drop] in Hs.
  - destruct (lookup_key s (tickKey c (a_Name req))) as [found|].
    + destruct (decode_tick (v_Value found)) as [err|t] eqn:Et; [discriminate|]. injection Hs as <-. simpl.
      split; [by exists t|]. by rewrite length_map, length_seq.
    + injection Hs as <-. simpl. split; [done|]. by rewrite length_map, length_seq.
  - injection Hs as <-. simpl. split; [done|]. by rewrite length_map, length_seq.
Qed.

Lemma ops_gets req : forallb is_get (ops c req) = true.
Proof.
  unfold ops. cbn [forallb is_get]. rewrite forallb_app. destruct (scheduled req); cbn [forallb is_get andb].
  all: induction (seq 0 (slots req)); simpl; done.
Qed.

Lemma taking_writes req hv tick lease rateLease rev slot :
  forallb is_get (x_Then (taking c req hv tick lease rateLease rev slot)) = false.
Proof. done. Qed.

Lemma created_None s key : created (lookup_key s key) = 0 → lookup_key s key = None.
Proof.
  destruct (lookup_key s key) as [found|] eqn:E; [|done]. simpl. apply revised in E. lia.
Qed.

(** What was read of a tick is still so when the store has it at the revision it was read at. *)
Lemma read_stays req h h1 at_ :
  scheduled req = true → read_at req (h_store h) at_ → later h h1 → tickRan req (s_tick at_) = false →
  compare_holds (h_store h1) (ModRevisionIs (tickKey c (a_Name req)) (s_tickRev at_)) = true →
  after_recorded (h_store h1) req.
Proof.
  intros Hsch [Hr _] Hl Hran Hc found Hf. specialize (Hr Hsch). simpl in Hc. rewrite Hf in Hc. simpl in Hc.
  apply Z.eqb_eq in Hc. pose proof (revised _ _ _ Hf) as Hm.
  destruct (lookup_key (h_store h) _) as [old|] eqn:Eo.
  - destruct Hr as (t & Hd & Ht & Hv). pose proof (revised _ _ _ Eo) as Hmo.
    assert (Some found = Some old) as He by (rewrite <- Eo; symmetry; eapply later_keeps; [done..|lia]).
    injection He as <-. exists t. split; [done|].
    unfold tickRan in Hran. rewrite Hsch, Ht in Hran. simpl in Hran. apply negb_false_iff, Z.ltb_lt in Hran. done.
  - destruct Hr as [_ Hr]. lia.
Qed.

Lemma freeSlot_from_bound l : ∀ n i, freeSlot_from n l = Some i → (n ≤ i < n + length l)%nat.
Proof.
  induction l as [|free l IH]; intros n i; simpl; [done|]. destruct free; [intros [= <-]; lia|].
  intros Hi%IH. lia.
Qed.

(** ** Clients keep the promise *)

Context (who : nat).
Let keeps {A} (Q : A → history (St := St) → Prop) (p : prog A) (h : history) : Prop := safe who promise Q p h.

(** The lease of a rate slot was asked for the limit's window. *)
Definition window_asked (req : AcquireRequest) (rateLease : Z) (h : history (St := St)) : Prop :=
  ∀ limit, a_Rate req = Some limit → (rateLease, Z.quot (l_Per limit) Second) ∈ h_granted h.

Lemma window_later req rateLease h h' : later h h' → window_asked req rateLease h → window_asked req rateLease h'.
Proof. intros Hl Hw limit E. eapply elem_of_suffix; [by apply Hw|apply Hl]. Qed.

(** A claim that was returned is the client's own transaction's, in a slot of its limit if it has
    one. *)
Definition returned (req : AcquireRequest) (r : option (gerror + Claim)) (h : history (St := St)) : Prop :=
  match r with
  | Some (inr k) =>
      k_Name k = a_Name req ∧
      ∃ e rateLease slot, e ∈ h_log h ∧ e_Client e = who ∧ e_Revision e = k_Token k ∧
        writes_claim req (k_Lease k) rateLease slot (e_Ops e) ∧ window_asked req rateLease h
  | _ => True
  end.

Lemma returned_stable req : stable (returned req).
Proof.
  intros r h h' Hl. destruct r as [[err|k]|]; [done| |done]. intros (Hn & e & rl & slot & He & Hw & Ht & Hr & Hg).
  split; [done|]. exists e, rl, slot. split; [eapply elem_of_suffix; [exact He|apply Hl]|]. split_and!; [done..|].
  by eapply window_later.
Qed.

Definition anything {A} (_ : A) (_ : history (St := St)) : Prop := True.

Lemma read_safe req h : keeps (λ r h', match r with inr at_ => read_at req (h_store h') at_ | inl _ => True end) (read c req) h.
Proof.
  unfold read. apply safe_do. intros h1 x h2 Hl Hv. split; [left; eapply quiet_keeps; [|exact Hv]; unfold quiet; cbn [x_Then x_Else]; by rewrite ops_gets|].
  simpl. destruct x as [err|d]; [done|]. destruct (stateOf _ _) as [err|at_] eqn:Es; [done|].
  apply answered_txn in Hv as (s' & Hc & ->). pose proof Hc as Hb.
  apply commit_reads in Hc as [(Hk & _) Hresp]; [|unfold branch_of; cbn [x_Then x_Else]; destruct (m_Succeeded d); by rewrite ?ops_gets].
  assert (m_Succeeded d = true) as Hd by by rewrite (commit_compares _ _ _ _ Hb).
  unfold branch_of in Hresp. rewrite Hd in Hresp. cbn [x_Then] in Hresp. rewrite Hresp in Es.
  apply stateOf_reads in Es. unfold read_at in *. simpl. by rewrite Hk.
Qed.

Lemma attempt_safe req hv tick lease granted_ rateLease at_ h :
  asked req → encode_tick (tick_of req) = inr tick → read_at req (h_store h) at_ → window_asked req rateLease h →
  keeps (returned req) (attempt c req hv tick lease granted_ rateLease at_) h.
Proof.
  intros Ha Htick Hr Hwindow. unfold attempt. destruct (tickRan req (s_tick at_)) eqn:Eran; [by destruct (refusal_of _ _)|].
  pose proof Hr as [_ Hlen].
  assert (∀ slot, freeSlot (s_slotFree at_) = slot →
    match slot with Some i => (i < slots req)%nat | None => a_Rate req = None end →
    keeps (returned req)
      (let! _ := if scheduled req && c_seam c then Do (Seam (a_Name req)) else Ret tt in
       let! answer := Do (Txn (taking c req hv tick lease rateLease (s_tickRev at_) slot)) in
       Ret (match answer with
            | inl err => Some (inl (unavailable "taking the claim" err))
            | inr done =>
                if m_Succeeded done then Some (inr (mkClaim (a_Name req) lease (m_Revision done) granted_))
                else match stateOf (m_Responses done) req with
                     | inl err => Some (inl err)
                     | inr fresh => option_map inl (refusal_of req fresh)
                     end
            end)) h) as Htake.
  { intros slot _ Hslot. apply (safe_bind _ _ (λ _ h', later h h')).
    - destruct (_ && _); [|apply later_refl]. apply safe_quiet; [done|]. by intros.
    - intros _ h' Hl. apply safe_do. intros h1 x h2 Hl1 Hv.
      assert (later h h1) as Hl' by by eapply later_trans.
      destruct (txn_step who promise (taking c req hv tick lease rateLease (s_tickRev at_) slot) h1 x h2)
        as [Hk Hin]; [apply taking_writes|apply ops_gets|exact Hv| |].
      + intros e Hc He. exists req, lease, rateLease, slot. split; [done|]. split; [split; [by exists hv, tick|done]|].
        cbn [taking x_If forallb] in Hc. apply andb_prop in Hc as [Hc1 Hc]. rewrite forallb_app in Hc.
        apply andb_prop in Hc as [Hc2 Hc3]. split; [by apply created_None, Z.eqb_eq|]. split.
        * intros Hs. rewrite Hs in Hc2. cbn [forallb] in Hc2. apply andb_prop in Hc2 as [Hc2 _]. by eapply read_stays.
        * intros i ->. cbn [forallb] in Hc3. apply andb_prop in Hc3 as [Hc3 _]. by apply created_None, Z.eqb_eq.
      + split; [exact Hk|]. destruct x as [err|d]; [done|]. cbn [safe].
        destruct (m_Succeeded d) eqn:Ed.
        * split; [done|]. eexists _, rateLease, slot. split; [by apply Hin|]. split; [done|]. split; [done|].
          split; [split; [by exists hv, tick|done]|]. eapply window_later; [|exact Hwindow].
          eapply later_trans; [exact Hl'|by eapply served_later_history].
        * destruct (stateOf _ _); [done|]. by destruct (refusal_of _ _). }
  destruct (a_Rate req) as [limit|] eqn:Er.
  - destruct (freeSlot (s_slotFree at_)) as [i|] eqn:Ef; [|done]. apply Htake; [done|].
    apply freeSlot_from_bound in Ef. simpl in *. lia.
  - assert (freeSlot (s_slotFree at_) = None) as Hf.
    { destruct (s_slotFree at_); [done|]. unfold slots in Hlen. by rewrite Er in Hlen. }
    destruct (freeSlot (s_slotFree at_)); [done|]. by apply Htake.
Qed.

Lemma rounds_safe fuel req hv tick lease granted_ rateLease h :
  asked req → encode_tick (tick_of req) = inr tick → window_asked req rateLease h →
  keeps (returned req) (rounds c fuel req hv tick lease granted_ rateLease) h.
Proof.
  intros Ha Htick. revert h. induction fuel as [|fuel IH]; intros h Hw; [done|]. cbn [rounds].
  apply safe_quiet; [done|]. intros h1 x h2 Hl1 Hs Hl. destruct x; [done|].
  eapply safe_bind; [apply safe_from; [apply later_refl|apply read_safe]|]. intros [err|at_] h' [Hr Hl']; [done|].
  assert (window_asked req rateLease h') as Hw' by (do 2 (eapply window_later; [done|]); exact Hw).
  eapply safe_bind; [apply safe_from; [apply later_refl|by apply attempt_safe]|]. intros [decision|] h'' [Hd Hl'']; [exact Hd|].
  apply IH. by eapply window_later.
Qed.

Lemma take_safe fuel req lease granted_ rateLease h :
  asked req → window_asked req rateLease h → keeps (returned req) (take c fuel req lease granted_ rateLease) h.
Proof.
  intros Ha Hw. unfold take. apply safe_quiet; [done|]. intros h1 x h2 _ _ Hl.
  destruct (encode_holder _); [done|]. destruct (encode_tick _) eqn:E; [done|]. apply rounds_safe; [done..|].
  by eapply window_later.
Qed.

Lemma revoke_safe lease h : keeps anything (revoke lease) h.
Proof.
  unfold revoke. apply safe_quiet; [done|]. intros h1 x h2 _ _ _. destruct x.
  - apply safe_quiet; [done|]. by intros.
  - apply safe_quiet; [done|]. intros h3 y h4 _ _ _. destruct y; [|done]. apply safe_quiet; [done|]. by intros.
Qed.

Lemma give_back_safe req lease rateLease err h : keeps (returned req) (give_back lease rateLease err) h.
Proof.
  unfold give_back. eapply safe_bind; [apply revoke_safe|]. intros _ h1 _.
  eapply (safe_bind _ _ anything); [destruct rateLease; [apply revoke_safe|done]|]. by intros _ h2 _.
Qed.

Lemma Acquire_safe fuel req h : asked req → keeps (returned req) (Acquire c fuel req) h.
Proof.
  intros Ha. unfold Acquire. destruct (AcquireRequest_Check req); [done|]. destruct (_ || _); [done|].
  apply safe_quiet; [done|]. intros h1 x h2 _ _ _. destruct x as [err|[lease ttl]]; [done|].
  destruct (CheckGrant _ _); [apply give_back_safe|].
  eapply (safe_bind _ _ (λ r h', match r with inr rateLease => window_asked req (default 0 rateLease) h' | inl _ => True end)).
  { destruct (a_Rate req) as [limit|] eqn:Er; [|intros limit; rewrite Er; discriminate].
    apply safe_quiet; [done|]. intros h3 y h4 _ Hy _. destruct y as [err|[id ttl']]; [done|].
    intros limit' E. rewrite Er in E. injection E as <-. by eapply served_grant_inv. }
  intros [err|rateLease] h3 Hw; [apply give_back_safe|].
  eapply safe_bind; [by apply take_safe|]. intros [[err|k]|] h4 Hk; [apply give_back_safe|exact Hk|done].
Qed.

Lemma Renew_safe k h : keeps anything (Renew k) h.
Proof. unfold Renew. apply safe_quiet; [done|]. by intros. Qed.
Lemma Fence_safe k h : keeps anything (Fence c k) h.
Proof. unfold Fence. apply safe_quiet; [done|]. by intros. Qed.
Lemma Release_safe k h : keeps anything (Release k) h.
Proof. unfold Release. apply safe_quiet; [done|]. by intros. Qed.

Lemma watch_safe fuel h : keeps anything (watch fuel) h.
Proof.
  revert h. induction fuel as [|fuel IH]; intros h; [done|]. cbn [watch]. apply safe_quiet; [done|].
  intros h1 x h2 _ _ _. destruct x; [destruct (existsb _ _); [done|apply IH]|done|].
  apply safe_quiet; [done|]. by intros.
Qed.

Lemma Released_safe fuel name h : keeps anything (Released c fuel name) h.
Proof.
  unfold Released. apply safe_quiet; [done|]. intros h1 x h2 _ _ _. destruct x as [err|[[found|] r]]; [done| |done].
  apply safe_quiet; [done|]. intros h3 y h4 _ _ _.
  eapply (safe_bind _ _ anything); [destruct (c_watching c); [apply safe_quiet; [done|by intros]|done]|].
  intros _ h5 _. apply watch_safe.
Qed.
End safety.
