(* ===== verification/EtcdWorld.v ===== *)
(** Any number of clients of one coordination store: what holds of every claim they were given,
    in every order their calls can be served. *)
From S2P Require Import Prelude GoStr GoTime GoNum GoErr GuardConfig Eff Etcd EtcdStore EtcdSafe.

(** ** The adapter's keys *)

Section keys.
Context (c : Coordinator).

Lemma str_app_inj (a x y : string) : a +:+ x = a +:+ y → x = y.
Proof. induction a as [|d a IH]; intros H; [exact H|]. injection H as H. by apply IH. Qed.

Lemma claimKey_inj n n' : claimKey c n = claimKey c n' → n = n'.
Proof. unfold claimKey. intros H%str_app_inj%str_app_inj. done. Qed.
Lemma tickKey_inj n n' : tickKey c n = tickKey c n' → n = n'.
Proof. unfold tickKey. intros H%str_app_inj%str_app_inj. done. Qed.
Lemma rateKey_inj n i n' i' : rateKey c n i = rateKey c n' i' → n = n' ∧ i = i'.
Proof.
  unfold rateKey. intros H%str_app_inj%str_app_inj.
  change (n +:+ String "/" (show_nat i) = n' +:+ String "/" (show_nat i')) in H.
  apply last_separator in H as [-> H]; [|by apply show_nat_lacks..]. split; [done|]. by apply (inj show_nat).
Qed.
Lemma claim_not_tick n n' : claimKey c n ≠ tickKey c n'.
Proof. unfold claimKey, tickKey. intros H%str_app_inj. discriminate. Qed.
Lemma claim_not_rate n n' i : claimKey c n ≠ rateKey c n' i.
Proof. unfold claimKey, rateKey. intros H%str_app_inj. discriminate. Qed.
Lemma tick_not_rate n n' i : tickKey c n ≠ rateKey c n' i.
Proof. unfold tickKey, rateKey. intros H%str_app_inj. discriminate. Qed.
End keys.

Section world.
Context `{StoreLaws St} {C : Codec} (c : Coordinator) (asked : AcquireRequest → Prop).
Notation writes := (writes_claim c).

(** ** What a claim's transaction leaves *)

Lemma puts_claim req l rl sl b n :
  writes req l rl sl b →
  if decide (n = a_Name req) then ∃ v, put_of b (claimKey c n) None = Some (v, Some l)
  else put_of b (claimKey c n) None = None.
Proof.
  intros [(hv & tick & _ & ->) _]. cbn [taking x_Then put_of].
  assert (∀ acc, put_of ((if scheduled req then [OpPut (tickKey c (a_Name req)) tick None] else []) ++
    match sl with Some i => [OpPut (rateKey c (a_Name req) i) (h_RunID (a_Holder req)) (Some rl)] | None => [] end)
    (claimKey c n) acc = acc) as ->.
  { intros acc. destruct (scheduled req), sl as [i|]; cbn [app put_of]; try done.
    all: rewrite ?(proj2 (String.eqb_neq _ _) (claim_not_tick c n (a_Name req))).
    all: try by rewrite (proj2 (String.eqb_neq _ _) (claim_not_rate c n (a_Name req) _)). all: done. }
  destruct (decide (n = a_Name req)) as [->|Hne]; [rewrite String.eqb_refl; eauto|].
  destruct (String.eqb_spec (claimKey c n) (claimKey c (a_Name req))) as [E|]; [|done].
  by apply claimKey_inj in E.
Qed.

Lemma puts_tick req l rl sl b n :
  writes req l rl sl b →
  if decide (n = a_Name req ∧ scheduled req = true)
  then ∃ v, encode_tick (tick_of req) = inr v ∧ put_of b (tickKey c n) None = Some (v, None)
  else put_of b (tickKey c n) None = None.
Proof.
  intros [(hv & tick & Ht & ->) _]. cbn [taking x_Then put_of].
  rewrite (proj2 (String.eqb_neq _ _) (not_eq_sym (claim_not_tick c (a_Name req) n))).
  assert (∀ acc, put_of match sl with Some i => [OpPut (rateKey c (a_Name req) i) (h_RunID (a_Holder req)) (Some rl)] | None => [] end
    (tickKey c n) acc = acc) as Hsl.
  { intros acc. destruct sl as [i|]; cbn [put_of]; [|done].
    by rewrite (proj2 (String.eqb_neq _ _) (tick_not_rate c n (a_Name req) i)). }
  destruct (scheduled req) eqn:Es; cbn [app put_of]; rewrite Hsl.
  - destruct (decide (n = a_Name req ∧ true = true)) as [[-> _]|Hne]; [rewrite String.eqb_refl; eauto|].
    destruct (String.eqb_spec (tickKey c n) (tickKey c (a_Name req))) as [E|]; [|done].
    apply tickKey_inj in E. naive_solver.
  - by rewrite decide_False by naive_solver.
Qed.

Lemma puts_rate req l rl sl b n i :
  writes req l rl sl b →
  if decide (n = a_Name req ∧ sl = Some i) then ∃ v, put_of b (rateKey c n i) None = Some (v, Some rl)
  else put_of b (rateKey c n i) None = None.
Proof.
  intros [(hv & tick & _ & ->) _]. cbn [taking x_Then put_of].
  rewrite (proj2 (String.eqb_neq _ _) (not_eq_sym (claim_not_rate c (a_Name req) n i))).
  assert (∀ acc rest, put_of ((if scheduled req then [OpPut (tickKey c (a_Name req)) tick None] else []) ++ rest)
    (rateKey c n i) acc = put_of rest (rateKey c n i) acc) as ->.
  { intros acc rest. destruct (scheduled req); cbn [app put_of]; [|done].
    by rewrite (proj2 (String.eqb_neq _ _) (not_eq_sym (tick_not_rate c (a_Name req) n i))). }
  destruct sl as [j|]; cbn [put_of]; [|by rewrite decide_False by naive_solver].
  destruct (String.eqb_spec (rateKey c n i) (rateKey c (a_Name req) j)) as [E|E].
  - apply rateKey_inj in E as [-> ->]. rewrite decide_True by done. eauto.
  - rewrite decide_False; [done|]. intros [-> [= ->]]. done.
Qed.

(** A transaction says whose claim it was, for which tick and in which slot. *)
Lemma writes_one req l rl sl req' l' rl' sl' b :
  writes req l rl sl b → writes req' l' rl' sl' b →
  a_Name req = a_Name req' ∧ scheduled req = scheduled req' ∧ (scheduled req = true → due req = due req') ∧
  l = l' ∧ sl = sl' ∧ (sl ≠ None → rl = rl').
Proof.
  intros H1 H2. pose proof (puts_claim _ _ _ _ _ (a_Name req) H1) as P1.
  pose proof (puts_claim _ _ _ _ _ (a_Name req) H2) as P2.
  rewrite decide_True in P1 by done. destruct P1 as [v P1].
  destruct (decide (a_Name req = a_Name req')) as [Hn|]; [|congruence]. destruct P2 as [v' P2].
  split; [done|]. pose proof (puts_tick _ _ _ _ _ (a_Name req) H1) as T1.
  pose proof (puts_tick _ _ _ _ _ (a_Name req) H2) as T2.
  assert (scheduled req = scheduled req' ∧ (scheduled req = true → due req = due req')) as [Hs Hd].
  { destruct (scheduled req), (scheduled req'); try done; rewrite ?decide_True in T1 by done;
      rewrite ?decide_True in T2 by done; rewrite ?decide_False in T1 by naive_solver;
      rewrite ?decide_False in T2 by naive_solver.
    - split; [done|]. intros _. destruct T1 as (x & E1 & T1), T2 as (y & E2 & T2).
      rewrite T1 in T2. injection T2 as <-. apply due_reads_back in E1 as (t1 & D1 & U1), E2 as (t2 & D2 & U2).
      rewrite D1 in D2. injection D2 as <-. unfold tick_of in *. simpl in *. congruence.
    - destruct T1 as (x & _ & T1). congruence.
    - destruct T2 as (x & _ & T2). congruence. }
  split; [done|]. split; [done|]. split; [congruence|].
  destruct sl as [i|].
  - pose proof (puts_rate _ _ _ _ _ (a_Name req) i H1) as R1. pose proof (puts_rate _ _ _ _ _ (a_Name req) i H2) as R2.
    rewrite decide_True in R1 by done. destruct R1 as [x R1].
    destruct (decide (a_Name req = a_Name req' ∧ sl' = Some i)) as [[_ ->]|]; [|congruence].
    destruct R2 as [y R2]. split; [done|]. intros _. congruence.
  - destruct sl' as [i|]; [|done]. pose proof (puts_rate _ _ _ _ _ (a_Name req) i H1) as R1.
    pose proof (puts_rate _ _ _ _ _ (a_Name req) i H2) as R2. rewrite decide_True in R2 by done.
    rewrite decide_False in R1 by naive_solver. destruct R2 as [y R2]. congruence.
Qed.

(** ** The invariant *)

Record valid (h : history (St := St)) : Prop := {
  valid_order : StronglySorted (λ e e', e_Revision e' < e_Revision e) (h_log h);
  valid_now e : e ∈ h_log h → 1 ≤ e_Revision e ≤ revision (h_store h);
  (** Everything written took a claim. *)
  valid_form e : e ∈ h_log h → ∃ req l rl sl, asked req ∧ writes req l rl sl (e_Ops e) ∧ (sl ≠ None → rl ∈ issued (h_store h));
  (** A claim that stands is the latest of its name. *)
  valid_claim name found e req l rl sl : lookup_key (h_store h) (claimKey c name) = Some found →
    e ∈ h_log h → writes req l rl sl (e_Ops e) → a_Name req = name → e_Revision e ≤ v_CreateRevision found;
  (** The recorded tick is the latest that was taken. *)
  valid_tick e req l rl sl : e ∈ h_log h → writes req l rl sl (e_Ops e) → scheduled req = true →
    ∃ found t, lookup_key (h_store h) (tickKey c (a_Name req)) = Some found ∧ v_Lease found = None ∧
      decode_tick (v_Value found) = inr t ∧ due req ≤ t_DueAt t;
  valid_due e e' req l rl sl req' l' rl' sl' : e ∈ h_log h → e' ∈ h_log h →
    writes req l rl sl (e_Ops e) → writes req' l' rl' sl' (e_Ops e') → a_Name req = a_Name req' →
    scheduled req = true → scheduled req' = true → e_Revision e < e_Revision e' → due req < due req';
  (** A start whose window has not ended is in its slot. *)
  valid_slot e req l rl i : e ∈ h_log h → writes req l rl (Some i) (e_Ops e) → rl ∈ leases (h_store h) →
    ∃ found, lookup_key (h_store h) (rateKey c (a_Name req) i) = Some found ∧
      v_CreateRevision found = e_Revision e ∧ v_Lease found = Some rl }.

(** What a step that writes nothing can do to the store: keys go only with their leases. *)
Record calm (s s' : St) : Prop := {
  calm_revision : revision s ≤ revision s';
  calm_from key found : lookup_key s' key = Some found → lookup_key s key = Some found;
  calm_kept key found : lookup_key s key = Some found →
    match v_Lease found with None => True | Some l => l ∈ leases s' end → lookup_key s' key = Some found;
  calm_leases l : l ∈ issued s → l ∈ leases s' → l ∈ leases s;
  calm_issued : issued s ⊆ issued s' }.

Lemma calm_same s s' : same_store s s' → calm s s'.
Proof.
  intros (Hk & Hr & Hl & Hi). split.
  - by rewrite Hr.
  - intros key found. by rewrite Hk.
  - intros key found Hf _. by rewrite Hk.
  - intros l _. by rewrite Hl.
  - by rewrite Hi.
Qed.

Lemma calm_ended s id : calm s (end_lease id s).
Proof.
  destruct (ended id s) as (Hl & Hi & Hr & Hk). split.
  - done.
  - intros key found. rewrite Hk. destruct (lookup_key s key); [|done]. by destruct (decide _).
  - intros key found Hf Hle. rewrite Hk, Hf. destruct (decide _) as [E|]; [|done].
    rewrite E, Hl in Hle. set_solver.
  - intros l _. rewrite Hl. set_solver.
  - by rewrite Hi.
Qed.

Lemma calm_grant n s x s' : grant n s = (x, s') → calm s s'.
Proof.
  destruct x as [err|[id ttl]]; intros Hg; [by eapply calm_same, grant_refused|].
  apply granted in Hg as (Hn & Hl & Hi & Hr & Hk). split.
  - by rewrite Hr.
  - intros key found. by rewrite Hk.
  - intros key found Hf _. by rewrite Hk.
  - intros l Hin. rewrite Hl. set_solver.
  - rewrite Hi. set_solver.
Qed.

Lemma valid_calm h h' : valid h → h_log h' = h_log h → calm (h_store h) (h_store h') → valid h'.
Proof.
  destruct h' as [s' log granted]. simpl. intros Hv -> Hc. revert Hv Hc.
  intros [Vo Vn Vf Vc Vt Vd Vs] [Cr Cf Ck Cl Ci]. split; simpl.
  - done.
  - intros e He. specialize (Vn e He). lia.
  - intros e He. destruct (Vf e He) as (req & l & rl & sl & Ha & Hw & Hi). exists req, l, rl, sl.
    split; [done|]. split; [done|]. intros Hs. apply Ci, Hi, Hs.
  - intros name found e req l rl sl Hf. apply Cf in Hf. by eapply Vc.
  - intros e req l rl sl He Hw Hs. destruct (Vt e req l rl sl He Hw Hs) as (found & t & Hf & Hl & Ht).
    exists found, t. split; [apply Ck; [done|by rewrite Hl]|done].
  - exact Vd.
  - intros e req l rl i He Hw Hrl. destruct (Vf e He) as (req' & l' & rl' & sl' & _ & Hw' & Hi).
    destruct (writes_one _ _ _ _ _ _ _ _ _ Hw Hw') as (_ & _ & _ & _ & <- & Hrr).
    rewrite <- Hrr in Hi by done. specialize (Hi ltac:(done)).
    destruct (Vs e req l rl i He Hw) as (found & Hf & Hcr & Hle); [by apply Cl|].
    exists found. split; [apply Ck; [done|by rewrite Hle]|done].
Qed.

(** A transaction that kept its client's promise. *)
Lemma valid_write who t h d s' :
  valid h → commit t (h_store h) = (inr d, s') → forallb is_get (branch_of t d) = false →
  promise c asked (h_store h) (mkWrite who (revision s') (branch_of t d)) →
  valid (mkHistory s' (mkWrite who (revision s') (branch_of t d) :: h_log h) (h_granted h)).
Proof.
  intros [Vo Vn Vf Vc Vt Vd Vs] Hc Hg (req & l & rl & sl & Ha & Hw & Hclaim & Htick & Hslot).
  apply commit_writes in Hc as (Hr & _ & Hl & Hi & Hk); [|done]. cbn [e_Ops] in Hw.
  set (b := branch_of t d) in *.
  assert (∀ e, e ∈ h_log h → e_Revision e < revision s') as Hnew by (intros e He; specialize (Vn e He); lia).
  assert (∀ key found, lookup_key (h_store h) key = Some found → v_CreateRevision found ≤ revision (h_store h)) as Hold.
  { intros key found Hf. pose proof (revised _ _ _ Hf). lia. }
  split; cbn [h_log h_store].
  - constructor; [done|]. apply Forall_forall. intros e He. simpl. by apply Hnew.
  - intros e [->|He]%elem_of_cons; [|specialize (Hnew e He); specialize (Vn e He); lia]. simpl.
    pose proof (puts_claim _ _ _ _ _ (a_Name req) Hw) as P. rewrite decide_True in P by done. destruct P as [v P].
    specialize (Hk (claimKey c (a_Name req))). rewrite P, Hclaim in Hk. apply revised in Hk. simpl in Hk. lia.
  - intros e [->|He]%elem_of_cons.
    + exists req, l, rl, sl. split; [done|]. split; [done|]. intros Hs. destruct sl as [i|]; [|done].
      apply leases_issued. pose proof (puts_rate _ _ _ _ _ (a_Name req) i Hw) as P. rewrite decide_True in P by done.
      destruct P as [v P]. specialize (Hk (rateKey c (a_Name req) i)). rewrite P in Hk.
      by eapply leased; [exact Hk|].
    + destruct (Vf e He) as (req' & l' & rl' & sl' & ?). exists req', l', rl', sl'. by rewrite Hi.
  - intros name found e req' l' rl' sl' Hf He Hw' Hn. specialize (Hk (claimKey c name)). rewrite Hf in Hk.
    pose proof (puts_claim _ _ _ _ _ name Hw) as P. destruct (decide (name = a_Name req)) as [->|Hne].
    + destruct P as [v P]. rewrite P, Hclaim in Hk. injection Hk as ->. simpl.
      apply elem_of_cons in He as [->|He]; [done|]. specialize (Hnew e He). lia.
    + rewrite P in Hk. symmetry in Hk. apply elem_of_cons in He as [->|He]; [|by eapply Vc].
      cbn [e_Ops] in Hw'. destruct (writes_one _ _ _ _ _ _ _ _ _ Hw Hw') as [Hnn _]. congruence.
  - intros e req' l' rl' sl' He Hw' Hs'. specialize (Hk (tickKey c (a_Name req'))).
    pose proof (puts_tick _ _ _ _ _ (a_Name req') Hw) as P.
    destruct (decide (a_Name req' = a_Name req ∧ scheduled req = true)) as [[Hn Hs]|Hne].
    + destruct P as (v & Hv & P). rewrite P in Hk. apply due_reads_back in Hv as (t0 & Hd & Hu).
      eexists _, t0. split; [exact Hk|]. split; [done|]. split; [done|]. rewrite Hu. simpl.
      apply elem_of_cons in He as [->|He].
      * cbn [e_Ops] in Hw'. destruct (writes_one _ _ _ _ _ _ _ _ _ Hw Hw') as (_ & _ & Hdue & _). rewrite Hdue by done. done.
      * destruct (Vt e req' l' rl' sl' He Hw' Hs') as (found & t1 & Hf & _ & Hd1 & Hu1). rewrite Hn in Hf.
        destruct (Htick Hs found Hf) as (t2 & Hd2 & Hu2). rewrite Hd1 in Hd2. injection Hd2 as <-. lia.
    + rewrite P in Hk. apply elem_of_cons in He as [->|He].
      * cbn [e_Ops] in Hw'. destruct (writes_one _ _ _ _ _ _ _ _ _ Hw Hw') as (? & ? & _). naive_solver congruence.
      * rewrite Hk. by eapply Vt.
  - intros e e' q1 a1 b1 s1 q2 a2 b2 s2 He He' Hw1 Hw2 Hn Hs1 Hs2 Hlt.
    apply elem_of_cons in He as [->|He]; apply elem_of_cons in He' as [->|He'].
    + simpl in Hlt. lia.
    + simpl in Hlt. specialize (Hnew e' He'). lia.
    + cbn [e_Ops] in Hw2. destruct (writes_one _ _ _ _ _ _ _ _ _ Hw Hw2) as (Hn2 & Hs & Hdue & _).
      rewrite Hs2 in Hs. rewrite <- Hdue by done.
      destruct (Vt e q1 a1 b1 s1 He Hw1 Hs1) as (found & t1 & Hf & _ & Hd1 & Hu1). rewrite Hn, <- Hn2 in Hf.
      destruct (Htick Hs found Hf) as (t2 & Hd2 & Hu2). rewrite Hd1 in Hd2. injection Hd2 as <-. lia.
    + by eapply (Vd e e').
  - intros e q a r i He Hw' Hr'. rewrite Hl in Hr'. specialize (Hk (rateKey c (a_Name q) i)).
    pose proof (puts_rate _ _ _ _ _ (a_Name q) i Hw) as P.
    apply elem_of_cons in He as [->|He].
    + cbn [e_Ops e_Revision] in *. destruct (writes_one _ _ _ _ _ _ _ _ _ Hw Hw') as (Hn & _ & _ & _ & -> & Hrr).
      rewrite decide_True in P by done. destruct P as [v P]. rewrite P, <- Hn, (Hslot i eq_refl) in Hk. rewrite <- Hn.
      eexists. split; [exact Hk|]. simpl. split; [done|]. by rewrite Hrr.
    + destruct (Vs e q a r i He Hw' Hr') as (found & Hf & Hcr & Hle).
      destruct (decide (a_Name q = a_Name req ∧ sl = Some i)) as [[Hn ->]|Hne].
      * rewrite Hn, (Hslot i eq_refl) in Hf. discriminate.
      * rewrite P in Hk. exists found. by rewrite Hk.
Qed.

(** ** Every order of calls *)

(** What a client's program came to: an acquisition's answer, a fence's, or another operation's end. *)
Inductive outcome :=
| Acquired (req : AcquireRequest) (r : option (gerror + Claim))
| Fenced (k : Claim) (r : option gerror)
| Ended.

Definition fencing (k : Claim) : prog (Sg := etcd_sig) outcome := let! r := Fence c k in Ret (Fenced k r).

Inductive operation : prog (Sg := etcd_sig) outcome → Prop :=
| op_acquire fuel req : asked req → operation (let! r := Acquire c fuel req in Ret (Acquired req r))
| op_renew k : operation (let! _ := Renew k in Ret Ended)
| op_fence k : operation (fencing k)
| op_release k : operation (let! _ := Release k in Ret Ended)
| op_released fuel name : operation (let! _ := Released c fuel name in Ret Ended).

(** A store and its clients: one starts, one makes its next call and is answered, or a lease
    ends. *)
Inductive reach : history (St := St) → list (prog (Sg := etcd_sig) outcome) → Prop :=
| reach_start s : (∀ key, lookup_key s key = None) → reach (mkHistory s [] []) []
| reach_spawn h ps p : reach h ps → operation p → reach h (ps ++ [p])
| reach_call h ps who cmd k x h' :
    reach h ps → ps !! who = Some (Call cmd k) → served who h cmd x h' → reach h' (<[who := k x]> ps)
| reach_lease h ps id : reach h ps → reach (with_store (end_lease id (h_store h)) h) ps.

Definition outcome_kept (who : nat) (o : outcome) (h : history (St := St)) : Prop :=
  match o with Acquired req r => asked req ∧ returned c who req r h | Fenced _ _ | Ended => True end.

Lemma outcome_stable who : stable (outcome_kept who).
Proof. intros [req r|k r|] h h' Hl; [|done..]. intros [Ha Hr]. split; [done|]. by eapply returned_stable. Qed.

Lemma operation_safe who p h : operation p → safe who (promise c asked) (outcome_kept who) p h.
Proof.
  destruct 1 as [fuel req Ha|k|k|k|fuel name].
  - eapply safe_bind; [by apply Acquire_safe|]. by intros r h' Hr.
  - eapply safe_bind; [apply Renew_safe|]. by intros.
  - eapply safe_bind; [apply Fence_safe|]. by intros.
  - eapply safe_bind; [apply Release_safe|]. by intros.
  - eapply safe_bind; [apply Released_safe|]. by intros.
Qed.

(** A call either writes nothing, or is a transaction that wrote. *)
Lemma served_effect who h cmd x h' :
  served who h cmd x h' →
  (h_log h' = h_log h ∧ calm (h_store h) (h_store h')) ∨
  ∃ t d s', commit t (h_store h) = (inr d, s') ∧ forallb is_get (branch_of t d) = false ∧
    h' = mkHistory s' (mkWrite who (revision s') (branch_of t d) :: h_log h) (h_granted h).
Proof.
  assert (∀ t x h', transacted who t h = (x, h') →
    (h_log h' = h_log h ∧ calm (h_store h) (h_store h')) ∨
    ∃ t d s', commit t (h_store h) = (inr d, s') ∧ forallb is_get (branch_of t d) = false ∧
      h' = mkHistory s' (mkWrite who (revision s') (branch_of t d) :: h_log h) (h_granted h)) as Ht.
  { intros t x0 h0. unfold transacted. destruct (commit t (h_store h)) as [[err|d] s'] eqn:E; intros He; injection He as <- <-.
    - left. split; [done|]. by eapply calm_same, commit_refused.
    - unfold logged. destruct (forallb is_get (branch_of t d)) eqn:Eg.
      + left. split; [done|]. by eapply calm_same, commit_reads.
      + right. by exists t, d, s'. }
  assert (same_store (h_store h) (h_store h)) as Hsame by done.
  destruct 1; try (by eapply Ht); left; (split; [done|]); simpl; eauto using calm_ended, calm_grant, calm_same.
Qed.

Lemma reach_valid h ps :
  reach h ps → valid h ∧ ∀ who p, ps !! who = Some p → safe who (promise c asked) (outcome_kept who) p h.
Proof.
  induction 1 as [s Hs|h ps p _ [Hv Hp] Ho|h ps who cmd k x h' _ [Hv Hp] Hw Hx|h ps id _ [Hv Hp]].
  - split; [|done].
    split; simpl; intros; try (match goal with Hin : _ ∈ [] |- _ => by apply elem_of_nil in Hin end). constructor.
  - split; [done|]. intros who q Hq. destruct (decide (who < length ps)%nat) as [Hl|Hl].
    + apply Hp. by rewrite lookup_app_l in Hq.
    + rewrite lookup_app_r in Hq by lia. apply list_lookup_singleton_Some in Hq as [_ <-]. by apply operation_safe.
  - destruct (Hp who _ Hw h x h' (later_refl h) Hx) as [Hk Hs]. split.
    + destruct (served_effect _ _ _ _ _ Hx) as [[Hlog Hc]|(t & d & s' & Hc & Hg & ->)].
      * by apply (valid_calm h).
      * apply valid_write; [done..|]. destruct Hk as [Hk|(e & Hk & Hpr)]; [apply (f_equal length) in Hk; simpl in Hk; lia|].
        injection Hk as <-. exact Hpr.
    + intros who' q Hq. destruct (decide (who' = who)) as [->|Hne].
      * rewrite list_lookup_insert_eq in Hq by (by eapply lookup_lt_Some). by injection Hq as <-.
      * rewrite list_lookup_insert_ne in Hq by done. eapply safe_later; [apply outcome_stable| |by apply Hp].
        by eapply served_later_history.
  - split; [by apply (valid_calm h); [done..|apply calm_ended]|]. intros who q Hq.
    eapply safe_later; [apply outcome_stable|apply later_ended|by apply Hp].
Qed.

(** ** What clients were given *)

(** A client that holds a claim, and the transaction that took it. *)
Definition holds_claim (ps : list (prog (Sg := etcd_sig) outcome)) (who : nat) (req : AcquireRequest) (k : Claim) : Prop :=
  ps !! who = Some (Ret (Acquired req (Some (inr k)))).

Lemma holds_claim_write h ps who req k :
  reach h ps → holds_claim ps who req k →
  asked req ∧ k_Name k = a_Name req ∧ ∃ e rl sl, e ∈ h_log h ∧ e_Client e = who ∧ e_Revision e = k_Token k ∧
    writes req (k_Lease k) rl sl (e_Ops e) ∧ window_asked req rl h.
Proof. intros [_ Hp]%reach_valid Hc. apply Hp in Hc as [Ha [Hn Hw]]. by split_and!. Qed.

Lemma same_revision h e e' :
  valid h → e ∈ h_log h → e' ∈ h_log h → e_Revision e = e_Revision e' → e = e'.
Proof.
  intros [Vo _ _ _ _ _ _]. induction Vo as [|x l Hs IH Hx]; intros He He' Hr; [by apply elem_of_nil in He|].
  rewrite Forall_forall in Hx. apply elem_of_cons in He as [->|He], He' as [->|He']; [done| | |by apply IH].
  - specialize (Hx e' He'). simpl in Hx. lia.
  - specialize (Hx e He). simpl in Hx. lia.
Qed.

(** A client served to its end with no other's call in between. *)
Fixpoint served_alone (who : nat) (h : history (St := St)) {A} (p : prog (Sg := etcd_sig) A) (a : A) : Prop :=
  match p with
  | Ret b => b = a
  | Call cmd k => ∃ x h', served who h cmd x h' ∧ served_alone who h' (k x) a
  end.

(** A client about to fence on a claim, and what its fence may answer then. *)
Definition fences (h : history (St := St)) (ps : list (prog (Sg := etcd_sig) outcome)) (who : nat) (k : Claim) (r : option gerror) : Prop :=
  ps !! who = Some (fencing k) ∧ served_alone who h (fencing k) (Fenced k r).

(** The revision the key of a name's claim was made at, none when nobody holds it. *)
Definition standing (h : history (St := St)) (name : string) : Z := created (lookup_key (h_store h) (claimKey c name)).

Lemma fences_answer h ps who k r : fences h ps who k r →
  match r with
  | None => standing h (k_Name k) = k_Token k
  | Some err => errors_is err ErrUnavailable = true ∨ errors_is err ErrLost = true ∧ standing h (k_Name k) ≠ k_Token k
  end.
Proof.
  intros (_ & x & h' & Hs & Hr). cbv beta in Hr. destruct x as [err|d].
  - injection Hr as <-. by left.
  - apply answered_txn in Hs as (s' & Hc & _). apply commit_compares in Hc. cbn [x_If forallb compare_holds] in Hc.
    rewrite andb_true_r in Hc. unfold standing. injection Hr as <-.
    destruct (m_Succeeded d); [by apply Z.eqb_eq|]. right. split; [done|]. by apply Z.eqb_neq.
Qed.

(** Two clients' claims of one name. *)
Lemma given_tokens h ps i j req req' k k' :
  reach h ps → holds_claim ps i req k → holds_claim ps j req' k' → i ≠ j → a_Name req = a_Name req' →
  k_Token k ≠ k_Token k' ∧ k_Name k = a_Name req ∧ k_Name k' = a_Name req ∧
  (standing h (a_Name req) = k_Token k → k_Token k' < k_Token k) ∧ (standing h (a_Name req) = k_Token k' → k_Token k < k_Token k').
Proof.
  intros Hr Hk Hk' Hne Hn. pose proof (reach_valid _ _ Hr) as [Hv _].
  apply (holds_claim_write h) in Hk as (_ & Hkn & e & rl & sl & He & Hi & Ht & Hw & _); [|done].
  apply (holds_claim_write h) in Hk' as (_ & Hkn' & e' & rl' & sl' & He' & Hj & Ht' & Hw' & _); [|done].
  assert (k_Token k ≠ k_Token k') as Htok.
  { intros E. assert (e = e') by (apply (same_revision h); [done..|congruence]). congruence. }
  split; [done|]. split; [done|]. split; [congruence|]. unfold standing.
  pose proof (valid_now h Hv e He). pose proof (valid_now h Hv e' He').
  destruct (lookup_key (h_store h) (claimKey c (a_Name req))) as [found|] eqn:El; simpl; [|lia].
  pose proof (valid_claim h Hv _ _ e _ _ _ _ El He Hw eq_refl). pose proof (valid_claim h Hv _ _ e' _ _ _ _ El He' Hw' (eq_sym Hn)).
  lia.
Qed.

(** C14: Of all the claims ever given for a name, no two carry one token, and a fence passes only the
    latest of them: whatever clients did meanwhile, whichever of their answers were lost and
    whichever leases ended, Fence answers nothing but a failure for a claim another one of its name
    has come after; it passes at most one claim of a name from one moment on; it passes only while
    the store holds the key that claim's transaction made, and it says that a claim is lost only
    when the store does not. *)
Theorem a_fence_passes_one_claim h ps i j req req' k k' :
  reach h ps → holds_claim ps i req k → holds_claim ps j req' k' → i ≠ j → a_Name req = a_Name req' →
  k_Token k ≠ k_Token k' ∧
  (∀ who, fences h ps who k None → k_Token k' < k_Token k ∧ ∀ who' r, fences h ps who' k' r → is_Some r) ∧
  (k_Token k < k_Token k' → ∀ who r, fences h ps who k r → is_Some r) ∧
  (∀ who r, fences h ps who k r →
     match r with
     | None => standing h (a_Name req) = k_Token k
     | Some err => errors_is err ErrUnavailable = true ∨ errors_is err ErrLost = true ∧ standing h (a_Name req) ≠ k_Token k
     end).
Proof.
  intros Hr Hk Hk' Hne Hn.
  destruct (given_tokens h ps i j req req' k k' Hr Hk Hk' Hne Hn) as (Htok & Hkn & Hkn' & Hlast & Hlast').
  rewrite <- Hkn in Hlast at 1. rewrite <- Hkn' in Hlast' at 1. split; [done|]. split; [|split].
  - intros who Hf%fences_answer. split; [by apply Hlast|]. intros who' r Hf'%fences_answer. destruct r; [done|].
    apply Hlast in Hf. apply Hlast' in Hf'. lia.
  - intros Hlt who r Hf%fences_answer. destruct r; [done|]. apply Hlast in Hf. lia.
  - intros who r Hf%fences_answer. rewrite <- Hkn. exact Hf.
Qed.

(** C15: A tick is taken once: of two claims given for scheduled triggers of one name, the later one
    is for a strictly later instant. *)
Theorem a_tick_is_taken_once h ps i j req req' k k' :
  reach h ps → holds_claim ps i req k → holds_claim ps j req' k' → a_Name req = a_Name req' →
  scheduled req = true → scheduled req' = true → k_Token k < k_Token k' → due req < due req'.
Proof.
  intros Hr Hk Hk' Hn Hs Hs' Hlt. pose proof (reach_valid _ _ Hr) as [Hv _].
  apply (holds_claim_write h) in Hk as (_ & _ & e & rl & sl & He & _ & Ht & Hw & _); [|done].
  apply (holds_claim_write h) in Hk' as (_ & _ & e' & rl' & sl' & He' & _ & Ht' & Hw' & _); [|done].
  eapply (valid_due h Hv e e'); [done..|lia].
Qed.

(** A client whose claim counts against its playbook's limit: the lease of its slot has not ended. *)
Definition counted (h : history (St := St)) (ps : list (prog (Sg := etcd_sig) outcome)) (name : string) (who : nat) : Prop :=
  ∃ req k e rl i, holds_claim ps who req k ∧ a_Name req = name ∧ e ∈ h_log h ∧ e_Revision e = k_Token k ∧
    writes req (k_Lease k) rl (Some i) (e_Ops e) ∧ rl ∈ leases (h_store h).

Lemma counted_slot h ps name R whos :
  reach h ps → (∀ req, asked req → a_Name req = name → (slots req <= R)%nat) →
  NoDup whos → Forall (counted h ps name) whos →
  ∃ ns, length ns = length whos ∧ NoDup ns ∧ Forall (λ i, (i < R)%nat) ns ∧
    Forall (λ i, ∃ who e rl req l, who ∈ whos ∧ e ∈ h_log h ∧ e_Client e = who ∧ a_Name req = name ∧
      writes req l rl (Some i) (e_Ops e) ∧ rl ∈ leases (h_store h)) ns.
Proof.
  intros Hr HR. pose proof (reach_valid _ _ Hr) as [Hv _].
  induction whos as [|who whos IH]; intros Hn Hc; [by exists []|].
  apply NoDup_cons in Hn as [Hnw Hn]. apply Forall_cons in Hc as [Hw Hc].
  destruct (IH Hn Hc) as (ns & Hl & Hnd & Hb & Hi).
  destruct Hw as (req & k & e & rl & i & Hk & Hname & He & Ht & Hwr & Hrl).
  apply (holds_claim_write h) in Hk as (Ha & _ & e' & rl' & sl' & He' & Hwho & Ht' & _); [|done].
  assert (e = e') as <- by (apply (same_revision h); [done..|congruence]).
  exists (i :: ns). split; [simpl; lia|]. split; [|split].
  - apply NoDup_cons. split; [|done]. intros Hin. rewrite Forall_forall in Hi.
    destruct (Hi i Hin) as (who' & e2 & rl2 & req2 & l2 & Hwin & He2 & Hc2 & Hn2 & Hw2 & Hrl2).
    destruct (valid_slot h Hv e req _ rl i He Hwr Hrl) as (f1 & F1 & C1 & _).
    destruct (valid_slot h Hv e2 req2 _ rl2 i He2 Hw2 Hrl2) as (f2 & F2 & C2 & _).
    rewrite Hname in F1. rewrite Hn2, F1 in F2. injection F2 as <-.
    assert (e = e2) as <- by (apply (same_revision h); [done..|congruence]). congruence.
  - constructor; [|done]. destruct Hwr as [_ Hlt]. specialize (HR req Ha Hname). lia.
  - constructor; [exists who, e, rl, req, (k_Lease k); split_and!; (left || done)|].
    eapply Forall_impl; [exact Hi|]. intros x (w & H'). exists w. destruct H' as (e0 & r0 & q0 & l0 & Hin & H').
    exists e0, r0, q0, l0. split; [by right|done].
Qed.

(** C16: No more starts of a playbook are in its window than its limit allows: at every moment, every
    claim given under a limit is in a slot of that limit, under a lease that was asked for exactly
    the limit's window, and of the clients with such a claim, those whose window has not ended, the
    lease of their slot still standing, are at most the limit's runs. *)
Theorem no_window_holds_more_than_the_rate h ps name R whos :
  reach h ps →
  (∀ who req k limit, holds_claim ps who req k → a_Rate req = Some limit →
     ∃ e rl i, e ∈ h_log h ∧ e_Revision e = k_Token k ∧ writes req (k_Lease k) rl (Some i) (e_Ops e) ∧
       (rl, Z.quot (l_Per limit) Second) ∈ h_granted h) ∧
  ((∀ req, asked req → a_Name req = name → (slots req <= R)%nat) →
   NoDup whos → Forall (counted h ps name) whos → (length whos <= R)%nat).
Proof.
  intros Hr. split.
  - intros who req k limit Hk Hlimit. apply (holds_claim_write h) in Hk as (_ & _ & e & rl & sl & He & _ & Ht & Hw & Hg); [|done].
    destruct sl as [i|]; [|destruct Hw as [_ Hw]; congruence]. exists e, rl, i. split_and!; [done..|by apply Hg].
  - intros HR Hn Hc. destruct (counted_slot h ps name R whos Hr HR Hn Hc) as (ns & <- & Hnd & Hb & _).
    rewrite <- (length_seq R 0). apply NoDup_incl_length; [by apply NoDup_ListNoDup|].
    intros i Hi%list_elem_of_In. rewrite Forall_forall in Hb. apply in_seq. specialize (Hb i Hi). lia.
Qed.
End world.
