(* ===== verification/EtcdRef.v ===== *)
(** A store with the laws of the coordination store, kept in memory: one map of keys, a
    revision and the leases. *)
From S2P Require Import Prelude GoStr GoTime GoErr GuardConfig Eff Etcd EtcdStore.

Record memory := mkMemory { y_keys : gmap string kv; y_revision : Z; y_leases : gset Z; y_issued : gset Z }.

Record sound (m : memory) : Prop := {
  sound_revised key found : y_keys m !! key = Some found →
    1 ≤ v_CreateRevision found ≤ v_ModRevision found ∧ v_ModRevision found ≤ y_revision m;
  sound_leased key found lease : y_keys m !! key = Some found → v_Lease found = Some lease → lease ∈ y_leases m;
  sound_issued : y_leases m ⊆ y_issued m;
  sound_revision : 0 ≤ y_revision m }.

Definition memory_store : Type := {m : memory | sound m}.

Definition compare_memory (m : memory) (c : compare) : bool :=
  match c with
  | CreateRevisionIs key r => created (y_keys m !! key) =? r
  | ModRevisionIs key r => modified (y_keys m !! key) =? r
  end.
Definition respond (m : memory) (o : op) : option kv :=
  match o with OpGet key => y_keys m !! key | OpPut _ _ _ => None end.

Definition put (r : Z) (m0 : gmap string kv) (keys : gmap string kv) (o : op) : gmap string kv :=
  match o with
  | OpGet _ => keys
  | OpPut key value lease =>
      <[key := mkKv value (match m0 !! key with Some old => v_CreateRevision old | None => r end) r lease]> keys
  end.

Definition leased_ops (m : memory) (branch : list op) : bool :=
  forallb (λ o, match o with OpPut _ _ (Some l) => bool_decide (l ∈ y_leases m) | _ => true end) branch.

Definition put_all (branch : list op) (m : memory) : memory :=
  mkMemory (foldl (put (y_revision m + 1) (y_keys m)) (y_keys m) branch) (y_revision m + 1) (y_leases m) (y_issued m).

Definition commit_memory (t : txn) (m : memory) : (gerror + committed) * memory :=
  let succeeded := forallb (compare_memory m) (x_If t) in
  let branch := if succeeded then x_Then t else x_Else t in
  if negb (leased_ops m branch) then (inl ErrLeaseNotFound, m)
  else if forallb is_get branch then (inr (mkCommitted succeeded (y_revision m) (map (respond m) branch)), m)
  else (inr (mkCommitted succeeded (y_revision m + 1) (map (respond m) branch)), put_all branch m).

(** The lowest identifier above every one issued. *)
Definition fresh_lease (m : memory) : Z := foldr Z.max 0 (elements (y_issued m)) + 1.
Definition grant_memory (seconds : Z) (m : memory) : (gerror + (Z * Z)) * memory :=
  let id := fresh_lease m in
  (inr (id, seconds), mkMemory (y_keys m) (y_revision m) ({[id]} ∪ y_leases m) ({[id]} ∪ y_issued m)).

Definition end_memory (id : Z) (m : memory) : memory :=
  mkMemory (omap (λ found, if decide (v_Lease found = Some id) then None else Some found) (y_keys m))
    (y_revision m + 1) (y_leases m ∖ {[id]}) (y_issued m).

(** ** It keeps itself sound *)

Lemma put_lookup r m0 branch : ∀ keys key acc,
  keys !! key = match acc with
                | Some (value, lease) =>
                    Some (mkKv value (match m0 !! key with Some old => v_CreateRevision old | None => r end) r lease)
                | None => m0 !! key
                end →
  foldl (put r m0) keys branch !! key =
    match put_of branch key acc with
    | Some (value, lease) =>
        Some (mkKv value (match m0 !! key with Some old => v_CreateRevision old | None => r end) r lease)
    | None => m0 !! key
    end.
Proof.
  induction branch as [|[k|k value lease] branch IH]; intros keys key acc Hk; simpl; [exact Hk|by apply IH|].
  apply IH. destruct (String.eqb_spec key k) as [->|Hne]; [apply lookup_insert_eq|].
  by rewrite lookup_insert_ne.
Qed.

Lemma put_of_in branch key value lease : ∀ acc,
  put_of branch key acc = Some (value, lease) → acc = Some (value, lease) ∨ OpPut key value lease ∈ branch.
Proof.
  induction branch as [|[k|k v l] branch IH]; intros acc Hp; simpl in Hp; [by left| |].
  - apply IH in Hp as [Hp|Hp]; [by left|right; by right].
  - apply IH in Hp as [Hp|Hp]; [|right; by right].
    destruct (String.eqb_spec key k) as [->|]; [|by left]. injection Hp as -> ->. right. left.
Qed.

Lemma put_all_sound branch m : sound m → leased_ops m branch = true → sound (put_all branch m).
Proof.
  intros [Hr Hl Hi H0] Hb.
  assert (∀ key, y_keys (put_all branch m) !! key =
    match put_of branch key None with
    | Some (value, lease) =>
        Some (mkKv value (match y_keys m !! key with Some old => v_CreateRevision old | None => y_revision m + 1 end)
                (y_revision m + 1) lease)
    | None => y_keys m !! key
    end) as Hk by (intros key; by apply put_lookup).
  split; simpl; [| |done|lia].
  - intros key found. rewrite Hk. destruct (put_of branch key None) as [[value lease]|].
    + intros [= <-]. simpl. destruct (y_keys m !! key) as [old|] eqn:E; [apply Hr in E|]; lia.
    + intros Hf%Hr. lia.
  - intros key found lease. rewrite Hk. destruct (put_of branch key None) as [[value l]|] eqn:Ep; [|apply Hl].
    intros [= <-] [= ->]. apply put_of_in in Ep as [[=]|Hin]. unfold leased_ops in Hb. rewrite forallb_forall in Hb.
    apply list_elem_of_In, Hb, bool_decide_eq_true in Hin. done.
Qed.

Lemma commit_sound t m : sound m → sound (snd (commit_memory t m)).
Proof.
  intros Hs. unfold commit_memory. destruct (leased_ops m _) eqn:E; simpl; [|done].
  destruct (forallb is_get _); simpl; [done|]. by apply put_all_sound.
Qed.

Lemma fresh_not_issued m : fresh_lease m ∉ y_issued m.
Proof.
  unfold fresh_lease. rewrite <- elem_of_elements. intros Hin.
  assert (∀ l x, x ∈ l → x ≤ foldr Z.max 0 l) as Hle.
  { intros l x. induction 1; simpl; lia. }
  apply Hle in Hin. lia.
Qed.

Lemma grant_sound n m : sound m → sound (snd (grant_memory n m)).
Proof. intros [Hr Hl Hi H0]. split; simpl; [done| |set_solver|done]. intros key found lease Hf Hle. set_solver. Qed.

Lemma end_sound id m : sound m → sound (end_memory id m).
Proof.
  intros [Hr Hl Hi H0]. split; simpl; [| |set_solver|lia].
  - intros key found. rewrite lookup_omap. intros (x & Hx & Hd)%bind_Some. apply Hr in Hx.
    destruct (decide _); simplify_eq. lia.
  - intros key found lease. rewrite lookup_omap. intros (x & Hx & Hd)%bind_Some Hle. destruct (decide _) as [|Hne]; simplify_eq.
    pose proof (Hl _ _ _ Hx Hle). assert (lease ≠ id) by congruence. set_solver.
Qed.

#[export] Instance memory_is_store : Store memory_store := {
  lookup_key s key := y_keys (`s) !! key;
  revision s := y_revision (`s);
  leases s := y_leases (`s);
  issued s := y_issued (`s);
  commit t s := (fst (commit_memory t (`s)), snd (commit_memory t (`s)) ↾ commit_sound t (`s) (proj2_sig s));
  grant n s := (fst (grant_memory n (`s)), snd (grant_memory n (`s)) ↾ grant_sound n (`s) (proj2_sig s));
  end_lease id s := end_memory id (`s) ↾ end_sound id (`s) (proj2_sig s) }.

Lemma compare_memory_holds (s : memory_store) cs : forallb (compare_holds s) cs = forallb (compare_memory (`s)) cs.
Proof. induction cs as [|[key r|key r] cs IH]; simpl; [done|by rewrite IH..]. Qed.

#[export] Instance memory_has_the_laws : StoreLaws memory_store.
Proof.
  split.
  - intros s key found. apply (sound_revised _ (proj2_sig s)).
  - intros s key found lease. apply (sound_leased _ (proj2_sig s)).
  - intros s. apply (sound_issued _ (proj2_sig s)).
  - intros t s err s' Hc. simpl in Hc. injection Hc as Hf <-. unfold same_store. simpl.
    unfold commit_memory in *. destruct (leased_ops _ _); simpl in *; [|done]. by destruct (forallb is_get _).
  - intros t s d s' Hc. simpl in Hc. injection Hc as Hf _. rewrite compare_memory_holds.
    unfold commit_memory in Hf. destruct (leased_ops _ _); [|discriminate].
    destruct (forallb is_get _); simpl in Hf; by injection Hf as <-.
  - intros t s d s' Hc Hg. simpl in Hc. injection Hc as Hf <-. unfold same_store. simpl. unfold commit_memory in *.
    destruct (leased_ops _ _); [|discriminate]. simpl in *.
    destruct (forallb is_get (if forallb _ _ then _ else _)) eqn:E; injection Hf as <-; [done|].
    unfold branch_of in Hg. simpl in Hg. congruence.
  - intros t s d s' Hc Hg. simpl in Hc. injection Hc as Hf <-. simpl. unfold commit_memory in *.
    destruct (leased_ops _ _); [|discriminate]. simpl in *.
    destruct (forallb is_get (if forallb _ _ then _ else _)) eqn:E; injection Hf as <-;
      [unfold branch_of in Hg; simpl in Hg; congruence|].
    simpl. split_and!; try done. intros key. unfold branch_of. simpl. by apply put_lookup.
  - done.
  - intros n s id ttl s' Hg. simpl in Hg. injection Hg as <- _ <-. simpl. split_and!; try done. apply fresh_not_issued.
  - intros id s. simpl. split_and!; try done; [lia|]. intros key. rewrite lookup_omap.
    by destruct (y_keys (`s) !! key).
Qed.

Definition empty_memory : memory := mkMemory ∅ 1 ∅ ∅.
Lemma empty_sound : sound empty_memory.
Proof. split; simpl; [| |done|lia]; intros key found; by rewrite lookup_empty. Qed.
Definition empty_store : memory_store := empty_memory ↾ empty_sound.
