(* ===== verification/EtcdJson.v ===== *)
(** The JSON of the two values the coordination adapter keeps, and the interface [Codec] it
    gives: an instant a tick was due at is read back. *)
From S2P Require Import Prelude GoStr GoTime GoNum GoErr GuardConfig Playbook Gate GoJson GoRunes GoMarshal GoJsonRead.
From S2P Require Import GoJsonTokens AgentStage Eff Etcd.

(** What [time.Time] writes of an instant: its text in quotes, or an error outside the years of
    RFC 3339. *)
Definition year_error : gerror :=
  Text "json: error calling MarshalJSON for type time.Time: Time.MarshalJSON: year outside of range [0,9999]".
Definition in_years (t : Z) : bool := (0 <=? year_of t) && (year_of t <? 10000).

Section json.
(** The instants its parser takes that RFC 3339 does not have, and what [Unmarshal] says of a
    text it refuses. *)
Context (lenient : string → option Z) (malformed : string → gerror).

Definition decode_time (raw : string) (old : Z) : option Z :=
  if String.eqb raw "null" then Some old
  else if has_prefix raw dq && at_ raw (String.length raw - 1) DQ && (2 <=? String.length raw)%nat then
    let text := str_take (String.length raw - 2) (str_drop 1 raw) in
    match parseRFC3339 text with Some t => Some t | None => lenient text end
  else None.

Definition encode_time (t : Z) (members : string → list (string * string)) : gerror + string :=
  if in_years t then inr (object_text (members (rfc3339_nano t))) else inl year_error.

(** A time's text is plain, so quoting it is what quoting any string does. *)
Definition write_holder (v : holderValue) : gerror + string :=
  encode_time (o_Taken v) (λ taken,
    [("host", o_Host v); ("instance", o_Instance v); ("run", o_RunID v); ("taken", taken)]).
Definition write_tick (t : tickValue) : gerror + string :=
  encode_time (t_DueAt t) (λ due,
    [("due_at", due); ("host", t_Host t); ("instance", t_Instance t); ("run", t_RunID t)]).

Definition holder_fields (ms : list (string * string)) (old : holderValue) : option holderValue :=
  let? host := field decode_string "host" ms (o_Host old) in
  let? instance := field decode_string "instance" ms (o_Instance old) in
  let? run := field decode_string "run" ms (o_RunID old) in
  let? taken := field decode_time "taken" ms (o_Taken old) in
  Some (mkHolderValue host instance run taken).
Definition tick_fields (ms : list (string * string)) (old : tickValue) : option tickValue :=
  let? due := field decode_time "due_at" ms (t_DueAt old) in
  let? host := field decode_string "host" ms (t_Host old) in
  let? instance := field decode_string "instance" ms (t_Instance old) in
  let? run := field decode_string "run" ms (t_RunID old) in
  Some (mkTickValue due host instance run).

Definition read_holder (text : string) : gerror + holderValue :=
  match decode_struct holder_fields text (mkHolderValue "" "" "" 0) with
  | Some v => inr v
  | None => inl (malformed text)
  end.
Definition read_tick (text : string) : gerror + tickValue :=
  match decode_struct tick_fields text (mkTickValue 0 "" "" "") with
  | Some t => inr t
  | None => inl (malformed text)
  end.

(** ** They read back *)

Lemma digits2_plain z : 0 ≤ z < 100 → str_all unescaped (digits2 z) = true.
Proof.
  intros Hz. assert (all_from 0 100 (λ z, str_all unescaped (digits2 z)) = true) as Ha by (vm_compute; reflexivity).
  apply (all_from_spec _ _ _ Ha). lia.
Qed.
Lemma digits4_plain z : 0 ≤ z < 10000 → str_all unescaped (digits4 z) = true.
Proof.
  intros Hz. assert (all_from 0 10000 (λ z, str_all unescaped (digits4 z)) = true) as Ha by (vm_compute; reflexivity).
  apply (all_from_spec _ _ _ Ha). lia.
Qed.

Lemma digit_unescaped c : is_digit c = true → unescaped c = true.
Proof. destruct c as [[] [] [] [] [] [] [] []]; (discriminate || (intros _; reflexivity)). Qed.

Lemma rfc3339_nano_plain t : in_years t = true → str_all unescaped (rfc3339_nano t) = true.
Proof.
  unfold in_years, year_of, rfc3339_nano, rfc3339. set (s := t / Second).
  destruct (civil (s / 86400)) as [[y m] d] eqn:Ec. cbn [fst]. intros Hy.
  destruct (civil_dated _ _ _ _ Ec) as (Hm & Hd & _).
  assert (daysIn m y ≤ 31) as H31 by (unfold daysIn; repeat case_match; lia).
  pose proof (Z.mod_pos_bound (s / 3600) 24 ltac:(lia)) as Hh.
  pose proof (Z.mod_pos_bound (s / 60) 60 ltac:(lia)) as Hmi. pose proof (Z.mod_pos_bound s 60 ltac:(lia)) as Hs.
  rewrite four_digits, !two_digits by lia.
  replace (digits4 y +:+ _) with ((digits4 y +:+ "-" +:+ digits2 m +:+ "-" +:+ digits2 d +:+ "T" +:+
    digits2 (s / 3600 mod 24) +:+ ":" +:+ digits2 (s / 60 mod 60) +:+ ":" +:+ digits2 (s mod 60)) +:+ str "Z") by done.
  rewrite drop_last_char_app, !str_all_app, digits4_plain, !digits2_plain by lia.
  assert (str_all unescaped (fmt_frac 9 (t mod Second) "" false) = true) as ->; [|done].
  destruct (fmt_frac_reads 9 (t mod Second)) as [[_ ->]|(ds & -> & Hds & _)]; [apply Z.mod_pos_bound; unfold Second; lia|done|].
  rewrite str_all_app. cbn [str_all]. eapply str_all_impl; [apply digit_unescaped|done].
Qed.

Lemma decode_time_reads t old : in_years t = true → decode_time (marshal_string (rfc3339_nano t)) old = Some t.
Proof.
  intros Ht. rewrite marshal_string_plain by by apply rfc3339_nano_plain. unfold decode_time.
  set (text := rfc3339_nano t). rewrite !str_length_app. simpl String.length.
  assert (String.eqb (dq +:+ text +:+ dq) "null" = false) as -> by done.
  assert (at_ (dq +:+ text +:+ dq) (1 + (String.length text + 1) - 1) DQ = true) as ->.
  { unfold at_. replace (1 + (String.length text + 1) - 1)%nat with (S (String.length text)) by lia.
    cbn [dq str String.append String.get]. clear. induction text as [|c text IH]; [done|exact IH]. }
  assert (has_prefix (dq +:+ text +:+ dq) dq = true) as -> by done.
  rewrite (proj2 (Nat.leb_le 2 _)) by lia. cbn [andb].
  replace (1 + (String.length text + 1) - 2)%nat with (String.length text) by lia.
  cbn [dq str String.append str_drop]. rewrite str_take_app. unfold text.
  rewrite rfc3339_nano_reads; [done|]. unfold in_years in Ht. lia.
Qed.

Lemma write_tick_reads t s : write_tick t = inr s →
  read_tick s = inr (mkTickValue (t_DueAt t) (kept (t_Host t)) (kept (t_Instance t)) (kept (t_RunID t))).
Proof.
  unfold write_tick, encode_time. destruct (in_years (t_DueAt t)) eqn:Ey; [|discriminate]. intros [= <-].
  unfold read_tick, decode_struct.
  set (l := [("due_at", rfc3339_nano (t_DueAt t)); ("host", t_Host t); ("instance", t_Instance t); ("run", t_RunID t)]).
  destruct (Unmarshal_object l) as [entries ->]; [done|]. rewrite object_reads by done. cbn [l map fst snd].
  change (kept "due_at") with "due_at". change (kept "host") with "host".
  change (kept "instance") with "instance". change (kept "run") with "run".
  unfold tick_fields. cbn [field]. simpl (String.eqb (lower_string _) (lower_string _)). cbv iota.
  rewrite decode_time_reads by done. rewrite !decode_string_reads. done.
Qed.

Lemma write_holder_reads v s : write_holder v = inr s →
  read_holder s = inr (mkHolderValue (kept (o_Host v)) (kept (o_Instance v)) (kept (o_RunID v)) (o_Taken v)).
Proof.
  unfold write_holder, encode_time. destruct (in_years (o_Taken v)) eqn:Ey; [|discriminate]. intros [= <-].
  unfold read_holder, decode_struct.
  set (l := [("host", o_Host v); ("instance", o_Instance v); ("run", o_RunID v); ("taken", rfc3339_nano (o_Taken v))]).
  destruct (Unmarshal_object l) as [entries ->]; [done|]. rewrite object_reads by done. cbn [l map fst snd].
  change (kept "taken") with "taken". change (kept "host") with "host".
  change (kept "instance") with "instance". change (kept "run") with "run".
  unfold holder_fields. cbn [field]. simpl (String.eqb (lower_string _) (lower_string _)). cbv iota.
  rewrite decode_time_reads by done. rewrite !decode_string_reads. done.
Qed.
End json.

Lemma write_tick_due lenient malformed t s :
  write_tick t = inr s → ∃ t', read_tick lenient malformed s = inr t' ∧ t_DueAt t' = t_DueAt t.
Proof. intros H. eexists. split; [by apply write_tick_reads|]. done. Qed.

#[export] Instance json_codec (lenient : string → option Z) (malformed : string → gerror) : Codec := {
  encode_holder := write_holder;
  decode_holder := read_holder lenient malformed;
  encode_tick := write_tick;
  decode_tick := read_tick lenient malformed;
  due_reads_back := write_tick_due lenient malformed }.

(** ** A whole value *)

(** What is written of a tick is the tick that is read: its instant to the nanosecond, whatever
    the calendar makes of it, and the holder it names. *)
Theorem a_tick_reads_back lenient malformed t s :
  Valid (t_Host t) = true → Valid (t_Instance t) = true → Valid (t_RunID t) = true →
  write_tick t = inr s → read_tick lenient malformed s = inr t.
Proof.
  intros Hh Hi Hr Hw. rewrite (write_tick_reads _ _ _ _ Hw). unfold kept. rewrite !kept_valid by done. by destruct t.
Qed.

Definition a_tick : tickValue := mkTickValue (63839782800 * Second + 250 * Millisecond) "rack-<2>" ("a" +:+ dq +:+ "b") "r1".
Lemma a_tick_reads_back_witness :
  let text := replace_all "{'due_at':'2024-01-02T09:00:00.25Z','host':'rack-\u003c2\u003e','instance':'a\'b','run':'r1'}" "'" dq in
  write_tick a_tick = inr text ∧ read_tick (λ _, None) Text text = inr a_tick.
Proof.
  intros text. assert (write_tick a_tick = inr text) as Hw by (vm_compute; reflexivity).
  split; [exact Hw|]. apply (a_tick_reads_back (λ _, None) Text a_tick text); [reflexivity..|exact Hw].
Defined.
