(* ===== verification/EtcdCalls.v ===== *)
(** What one acquisition comes to, whatever its calls are answered: why it was refused, and what
    becomes of the leases it was granted. *)
From S2P Require Import Prelude GoStr GoTime GoErr GuardConfig Eff Etcd EtcdJson.

Definition trace : Type := list (event (Sg := etcd_sig)).
Definition did (cmd : etcd_cmd) (x : etcd_resp cmd) : event (Sg := etcd_sig) := ev (Sg := etcd_sig) cmd x.

Lemma runs_did_call cmd tr (x : etcd_resp cmd) : runs (Do cmd) tr x ↔ tr = [did cmd x].
Proof. apply (runs_call (Sg := etcd_sig)). Qed.

Ltac take_etcd :=
  repeat match goal with
  | H : runs (bind _ _) _ _ |- _ => apply runs_bind in H as (? & ? & ? & ? & ? & ?); subst
  | H : runs (Do _) _ _ |- _ => apply runs_did_call in H; subst
  | H : runs (Ret _) _ _ |- _ => destruct H as [? ?]; simplify_eq
  end.

Section calls.
Context {C : Codec} (c : Coordinator).

(** ** Why an acquisition fails *)

Lemma freeSlot_from_none (f : nat → bool) n : ∀ start first, freeSlot_from first (map f (seq start n)) = None →
  ∀ i, (i < n)%nat → f (start + i)%nat = false.
Proof.
  induction n as [|n IH]; intros start first; cbn [seq map freeSlot_from]; [lia|]. destruct (f start) eqn:E; [discriminate|].
  intros H [|i] Hi; [by rewrite Nat.add_0_r|]. rewrite Nat.add_succ_r, <- Nat.add_succ_l. apply (IH (S start) (S first)); [done|lia].
Qed.
Lemma freeSlot_none (f : nat → bool) n : freeSlot (map f (seq 0 n)) = None → ∀ i, (i < n)%nat → f i = false.
Proof. intros H i Hi. exact (freeSlot_from_none f n 0 0 H i Hi). Qed.

(** A call that failed, or the context's end. *)
Inductive failed (tr : trace) (err : gerror) : Prop :=
| failed_txn t : did (Txn t) (inl err) ∈ tr → failed tr err
| failed_grant n : did (Grant n) (inl err) ∈ tr → failed tr err
| failed_ctx : did CtxErr (Some err) ∈ tr → failed tr err.

(** A transaction's answer for a key it read, in whichever of its branches. *)
Definition answer_at (t : txn) (d : committed) (key : string) (found : option kv) : Prop :=
  ∃ i, (x_Then t !! i = Some (OpGet key) ∨ x_Else t !! i = Some (OpGet key)) ∧ m_Responses d !! i = Some found.
Definition answered (tr : trace) (key : string) (found : option kv) : Prop :=
  ∃ t d, did (Txn t) (inr d) ∈ tr ∧ answer_at t d key found.

Inductive explained (tr : trace) (req : AcquireRequest) : gerror → Prop :=
| malformed_request err : AcquireRequest_Check req = Some err → explained tr req err
| malformed_expiry text : a_Expiry req ≤ 0 ∨ Z.rem (a_Expiry req) Second ≠ 0 → explained tr req (Text text)
(** The store granted the claim's lease for less than was asked. *)
| short_expiry id ttl err :
    did (Grant (Z.quot (a_Expiry req) Second)) (inr (id, ttl)) ∈ tr → i64 (ttl * Second) < a_Expiry req →
    errors_is err ErrUnavailable = true → explained tr req err
| unavailable_call what err : failed tr err → explained tr req (unavailable what err)
| unwritten err : (∃ v, encode_holder v = inl err) ∨ (∃ t, encode_tick t = inl err) → explained tr req err
| unread_holder found err : answered tr (claimKey c (a_Name req)) (Some found) → decode_holder (v_Value found) = inl err →
    explained tr req (wrap_before "reading the holder of a claim" err)
| unread_tick found err : answered tr (tickKey c (a_Name req)) (Some found) → scheduled req = true →
    decode_tick (v_Value found) = inl err → explained tr req (wrap_before "reading a recorded tick" err)
(** The store answered that the claim is held, that the tick ran, or that every slot is taken. *)
| held_claim found v : answered tr (claimKey c (a_Name req)) (Some found) → decode_holder (v_Value found) = inr v →
    explained tr req (HeldBy (holderOf v))
| ran_tick found t : answered tr (tickKey c (a_Name req)) (Some found) → scheduled req = true →
    decode_tick (v_Value found) = inr t → due req ≤ t_DueAt t →
    explained tr req (TickRanAs (t_DueAt t) (holder t))
| full_window limit t d : a_Rate req = Some limit → did (Txn t) (inr d) ∈ tr →
    (∀ i, (i < Z.to_nat (l_Runs limit))%nat → ∃ found, answer_at t d (rateKey c (a_Name req) i) (Some found)) →
    explained tr req (RateLimitedBy limit).

Lemma explained_mono tr tr' req err : (∀ e, e ∈ tr → e ∈ tr') → explained tr req err → explained tr' req err.
Proof.
  intros Hs. assert (∀ key found, answered tr key found → answered tr' key found) as Ha
    by (intros key found (t & d & H & He); exists t, d; auto).
  assert (∀ err, failed tr err → failed tr' err) as Hf.
  { intros e [t H|n H|H]; [by eapply failed_txn, Hs|by eapply failed_grant, Hs|by apply failed_ctx, Hs]. }
  destruct 1; [eapply malformed_request|eapply malformed_expiry|eapply short_expiry|eapply unavailable_call|eapply unwritten
    |eapply unread_holder|eapply unread_tick|eapply held_claim|eapply ran_tick|eapply full_window]; eauto.
Qed.

(** A transaction that reads the name's state when it takes one of its branches. *)
Definition asks (req : AcquireRequest) (t : txn) : Prop := x_Then t = ops c req ∨ x_Else t = ops c req.

Lemma asks_at req t d i key found : asks req t → ops c req !! i = Some (OpGet key) → m_Responses d !! i = Some found →
  answer_at t d key found.
Proof. intros Ht Hi Hd. exists i. split; [|done]. destruct Ht as [-> | ->]; auto. Qed.

(** What a state was read from: the tick's response, when one was asked for, and those of the slots. *)
Lemma stateOf_parts responses req : stateOf responses req =
  let* holder :=
    match responses with
    | Some found :: _ =>
        match decode_holder (v_Value found) with
        | inl err => inl (wrap_before "reading the holder of a claim" err)
        | inr value => inr (Some value)
        end
    | _ => inr None
    end in
  let* read :=
    if scheduled req then
      match responses !! 1%nat with
      | Some (Some found) =>
          match decode_tick (v_Value found) with
          | inl err => inl (wrap_before "reading a recorded tick" err)
          | inr value => inr (Some value, v_ModRevision found)
          end
      | _ => inr (None, 0)
      end
    else inr (None, 0) in
  inr (mkState holder (fst read) (snd read)
         (map (λ i, match responses !! ((if scheduled req then 2 else 1) + i)%nat with Some (Some _) => false | _ => true end)
            (seq 0 (slots req)))).
Proof.
  unfold stateOf. destruct responses as [|first rest]; [by destruct (scheduled req)|].
  destruct (match first with Some found => _ | None => _ end) as [err|hold]; [done|].
  destruct (scheduled req); [|done]. destruct rest as [|[found|] rest]; [done| |done].
  cbn [drop lookup list_lookup]. by destruct (decode_tick _).
Qed.

Lemma ops_at_claim req : ops c req !! 0%nat = Some (OpGet (claimKey c (a_Name req))).
Proof. done. Qed.
Lemma ops_at_tick req : scheduled req = true → ops c req !! 1%nat = Some (OpGet (tickKey c (a_Name req))).
Proof. intros Hs. unfold ops. by rewrite Hs. Qed.
Lemma ops_at_slot req i : (i < slots req)%nat →
  ops c req !! ((if scheduled req then 2 else 1) + i)%nat = Some (OpGet (rateKey c (a_Name req) i)).
Proof.
  intros Hi. unfold ops.
  assert (map (λ i, OpGet (rateKey c (a_Name req) i)) (seq 0 (slots req)) !! i = Some (OpGet (rateKey c (a_Name req) i))) as H.
  { apply list_lookup_fmap_Some. exists i. split; [done|]. by apply lookup_seq. }
  destruct (scheduled req); exact H.
Qed.

Lemma stateOf_fails t d req err tr : did (Txn t) (inr d) ∈ tr → asks req t →
  stateOf (m_Responses d) req = inl err → explained tr req err.
Proof.
  intros Hin Ht. rewrite stateOf_parts.
  assert (∀ hold : gerror + option holderValue, (∀ e, hold = inl e → explained tr req e) →
    (let* holder := hold in
     let* read :=
       if scheduled req then
         match m_Responses d !! 1%nat with
         | Some (Some found) => match decode_tick (v_Value found) with
             | inl err => inl (wrap_before "reading a recorded tick" err) | inr value => inr (Some value, v_ModRevision found) end
         | _ => inr (None, 0) end
       else inr (None, 0) in
     inr (mkState holder (fst read) (snd read)
       (map (λ i, match m_Responses d !! ((if scheduled req then 2 else 1) + i)%nat with Some (Some _) => false | _ => true end)
          (seq 0 (slots req))))) = inl err → explained tr req err) as Hrest.
  { intros [e|hold] He; [intros [= ->]; by apply He|]. destruct (scheduled req) eqn:Es; [|discriminate].
    destruct (m_Responses d !! 1%nat) as [[found|]|] eqn:E1; [|discriminate..].
    destruct (decode_tick _) as [e|] eqn:Ed; [|discriminate]. intros [= <-].
    apply unread_tick with found; [|done|done]. exists t, d. split; [done|]. apply (asks_at req _ _ 1%nat); [done|by apply ops_at_tick|done]. }
  apply Hrest. intros e. destruct (m_Responses d) as [|[found|] rest] eqn:E; [discriminate| |discriminate].
  destruct (decode_holder _) as [e'|] eqn:Ed; [|discriminate]. intros [= <-]. apply unread_holder with found; [|done].
  exists t, d. split; [done|]. apply (asks_at req _ _ 0%nat); [done|apply ops_at_claim|by rewrite E].
Qed.

Lemma stateOf_read t d req at_ : asks req t → stateOf (m_Responses d) req = inr at_ →
  (∀ v, s_holder at_ = Some v → ∃ found, answer_at t d (claimKey c (a_Name req)) (Some found) ∧ decode_holder (v_Value found) = inr v) ∧
  (∀ u, s_tick at_ = Some u → scheduled req = true ∧
     ∃ found, answer_at t d (tickKey c (a_Name req)) (Some found) ∧ decode_tick (v_Value found) = inr u) ∧
  (freeSlot (s_slotFree at_) = None → ∀ i, (i < slots req)%nat →
     ∃ found, answer_at t d (rateKey c (a_Name req) i) (Some found)).
Proof.
  intros Ht. rewrite stateOf_parts. intros Hs.
  match type of Hs with (match ?x with _ => _ end) = _ => destruct x as [e|hold] eqn:Eh; [discriminate|] end.
  match type of Hs with (match ?x with _ => _ end) = _ => destruct x as [e|[tick rev]] eqn:Er; [discriminate|] end.
  injection Hs as <-. cbn [s_holder s_tick s_slotFree fst snd]. split_and!.
  - intros v ->. destruct (m_Responses d) as [|[found|] rest] eqn:E; [discriminate| |discriminate].
    destruct (decode_holder _) as [e|v'] eqn:Ed; [discriminate|]. injection Eh as ->. exists found. split; [|done].
    apply (asks_at req _ _ 0%nat); [done|apply ops_at_claim|by rewrite E].
  - intros u ->. destruct (scheduled req) eqn:Es; [|discriminate]. split; [done|].
    destruct (m_Responses d !! 1%nat) as [[found|]|] eqn:E1; [|discriminate..].
    destruct (decode_tick _) as [e|u'] eqn:Ed; [discriminate|]. injection Er as -> _. exists found. split; [|done].
    apply (asks_at req _ _ 1%nat); [done|by apply ops_at_tick|done].
  - intros Hfull i Hi. apply (freeSlot_none _ _ Hfull i) in Hi as Hfree. cbv beta in Hfree.
    destruct (m_Responses d !! ((if scheduled req then 2 else 1) + i)%nat) as [[found|]|] eqn:E; [|discriminate..]. exists found.
    eapply (asks_at req); [done|by apply ops_at_slot|exact E].
Qed.

Lemma refusal_explained t d req at_ err tr : did (Txn t) (inr d) ∈ tr → asks req t →
  stateOf (m_Responses d) req = inr at_ → refusal_of req at_ = Some err → explained tr req err.
Proof.
  intros Hin Ht (Hh & Hk & _)%(stateOf_read t) Hr; [|done]. unfold refusal_of in Hr. destruct (s_holder at_) as [v|].
  - injection Hr as <-. destruct (Hh v eq_refl) as (found & Ha & Hd). apply held_claim with found; [by exists t, d|done].
  - destruct (s_tick at_) as [u|]; [|discriminate]. destruct (tickRan req (Some u)) eqn:Er; [|discriminate].
    injection Hr as <-. destruct (Hk u eq_refl) as (Hs & found & Ha & Hd).
    eapply ran_tick; [by exists t, d|done..|]. unfold tickRan in Er. rewrite Hs in Er. simpl in Er.
    apply negb_true_iff, Z.ltb_ge in Er. done.
Qed.

(** ** A decision *)

(** A decision's claim is the one its own transaction made, under these leases; its refusal is
    explained. *)
Definition decided (tr : trace) (req : AcquireRequest) (lease granted rateLease : Z) (r : option (gerror + Claim)) : Prop :=
  match r with
  | None => True
  | Some (inl err) => explained tr req err
  | Some (inr k) => k_Name k = a_Name req ∧ k_Lease k = lease ∧ k_Granted k = granted ∧
      ∃ holder tick rev slot d, did (Txn (taking c req holder tick lease rateLease rev slot)) (inr d) ∈ tr ∧
        m_Succeeded d = true ∧ k_Token k = m_Revision d ∧ (slot = None → a_Rate req = None)
  end.

Lemma decided_mono tr tr' req lease granted rateLease r :
  (∀ e, e ∈ tr → e ∈ tr') → decided tr req lease granted rateLease r → decided tr' req lease granted rateLease r.
Proof.
  intros Hs. destruct r as [[err|k]|]; [by apply explained_mono| |done].
  intros (Hn & Hl & Hg & hv & tick & rev & slot & d & Hin & Hd). split_and!; [done..|].
  exists hv, tick, rev, slot, d. split; [auto|done].
Qed.

Lemma read_decides req tr r :
  runs (read c req) tr r →
  match r with
  | inl err => explained tr req err
  | inr at_ => ∃ t d, did (Txn t) (inr d) ∈ tr ∧ asks req t ∧ stateOf (m_Responses d) req = inr at_
  end.
Proof.
  unfold read. intros Hr. take_etcd. destruct x as [err|d].
  - apply unavailable_call. eapply failed_txn. apply elem_of_app. left. left.
  - assert (did (Txn (mkTxn [] (ops c req) [])) (inr d) ∈ [did (Txn (mkTxn [] (ops c req) [])) (inr d)] ++ []) as Hin by left.
    assert (asks req (mkTxn [] (ops c req) [])) as Ht by by left.
    destruct (stateOf _ _) eqn:E; [by eapply stateOf_fails|by exists (mkTxn [] (ops c req) []), d].
Qed.

Lemma attempt_decides req hv tick lease granted rateLease at_ tr0 tr r t0 d0 :
  did (Txn t0) (inr d0) ∈ tr0 → asks req t0 → stateOf (m_Responses d0) req = inr at_ →
  runs (attempt c req hv tick lease granted rateLease at_) tr r → decided (tr0 ++ tr) req lease granted rateLease r.
Proof.
  intros Hin0 Ht0 Hs. assert (∀ tr', did (Txn t0) (inr d0) ∈ tr0 ++ tr') as Hleft by (intros tr'; apply elem_of_app; by left).
  unfold attempt. destruct (tickRan req (s_tick at_)).
  - intros Hr. take_etcd. destruct (refusal_of req at_) eqn:Er; [|done]. by eapply refusal_explained.
  - assert (∀ slot, (slot = None → a_Rate req = None) → runs
      (let! _ := if scheduled req && c_seam c then Do (Seam (a_Name req)) else Ret tt in
       let! answer := Do (Txn (taking c req hv tick lease rateLease (s_tickRev at_) slot)) in
       Ret (match answer with
            | inl err => Some (inl (unavailable "taking the claim" err))
            | inr done =>
                if m_Succeeded done then Some (inr (mkClaim (a_Name req) lease (m_Revision done) granted))
                else match stateOf (m_Responses done) req with
                     | inl err => Some (inl err)
                     | inr fresh => option_map inl (refusal_of req fresh)
                     end
            end)) tr r → decided (tr0 ++ tr) req lease granted rateLease r) as Htake.
    { intros slot Hslot (u & tr1 & tr2 & -> & _ & Hr)%runs_bind. apply runs_bind in Hr as (x & tr3 & tr4 & -> & Hx & Hr).
      apply runs_did_call in Hx as ->. destruct Hr as [-> <-]. rewrite app_nil_r.
      assert (did (Txn (taking c req hv tick lease rateLease (s_tickRev at_) slot)) x ∈
        tr0 ++ tr1 ++ [did (Txn (taking c req hv tick lease rateLease (s_tickRev at_) slot)) x]) as Hin.
      { apply elem_of_app. right. apply elem_of_app. right. left. }
      assert (asks req (taking c req hv tick lease rateLease (s_tickRev at_) slot)) as Ht by by right.
      destruct x as [err|d]; [apply unavailable_call; by eapply failed_txn|].
      destruct (m_Succeeded d) eqn:Ed; [split_and!; [done..|]; exists hv, tick, (s_tickRev at_), slot, d; done|].
      destruct (stateOf (m_Responses d) req) eqn:Es; [by eapply stateOf_fails|].
      destruct (refusal_of req s) eqn:Er; [|done]. by eapply refusal_explained. }
    destruct (a_Rate req) as [limit|] eqn:El; [|by apply Htake].
    destruct (freeSlot (s_slotFree at_)) as [i|] eqn:Ef; [by apply Htake|].
    intros Hr. take_etcd. apply (stateOf_read t0) in Hs as (_ & _ & Hfull); [|done].
    eapply full_window; [done|apply Hleft|]. unfold slots in Hfull. rewrite El in Hfull. by apply Hfull.
Qed.

Lemma rounds_decides fuel req hv tick lease granted rateLease : ∀ tr r,
  runs (rounds c fuel req hv tick lease granted rateLease) tr r → decided tr req lease granted rateLease r.
Proof.
  induction fuel as [|fuel IH]; intros tr r Hr; cbn [rounds] in Hr; [by take_etcd|].
  apply runs_bind in Hr as (x & tr1 & tr2 & -> & Hx & Hr). apply runs_did_call in Hx as ->. destruct x as [err|].
  - take_etcd. apply unavailable_call, failed_ctx. left.
  - apply runs_bind in Hr as (a & tr3 & tr4 & -> & Ha & Hr). apply read_decides in Ha. destruct a as [err|at_].
    + take_etcd. eapply explained_mono; [|exact Ha]. intros e He. set_solver.
    + destruct Ha as (t & d' & Ha & Ht & Hs). apply runs_bind in Hr as (d & tr5 & tr6 & -> & Hd & Hr).
      eapply attempt_decides in Hd; [|done..]. destruct d as [d|].
      * take_etcd. eapply decided_mono; [|exact Hd]. intros e He. set_solver.
      * apply IH in Hr. eapply decided_mono; [|exact Hr]. intros e He. set_solver.
Qed.

Lemma take_decides fuel req lease granted rateLease tr r :
  runs (take c fuel req lease granted rateLease) tr r → decided tr req lease granted rateLease r.
Proof.
  unfold take. intros (wall & tr1 & tr2 & -> & Hx & Hr)%runs_bind. apply runs_did_call in Hx as ->.
  destruct (encode_holder _) eqn:E1; [take_etcd; apply unwritten; eauto|].
  destruct (encode_tick _) eqn:E2; [take_etcd; apply unwritten; eauto|].
  apply rounds_decides in Hr. eapply decided_mono; [|exact Hr]. intros e He. apply elem_of_app. by right.
Qed.

(** ** Leases *)

Definition given_back (tr : trace) (lease : Z) : Prop :=
  did (Revoke lease) None ∈ tr ∨ did (RevokeLater lease) tt ∈ tr.

(** A part of an acquisition that is granted nothing. *)
Definition grantless (tr : trace) : Prop := Forall (λ e, match projT1 e with Grant _ => False | _ => True end) tr.
Definition ungranted {A} (p : prog (Sg := etcd_sig) A) : Prop := ∀ tr a, runs p tr a → grantless tr.

Lemma ungranted_Ret {A} (a : A) : ungranted (Ret a).
Proof. intros tr b [-> _]. constructor. Qed.
Lemma ungranted_Do cmd : (match cmd with Grant _ => False | _ => True end) → ungranted (Do cmd).
Proof. intros H tr x ->%runs_did_call. by apply Forall_singleton. Qed.
Lemma ungranted_bind {A B} (p : prog A) (f : A → prog B) : ungranted p → (∀ a, ungranted (f a)) → ungranted (bind p f).
Proof. intros Hp Hf tr b (a & tr1 & tr2 & -> & H1 & H2)%runs_bind. apply Forall_app. split; [by eapply Hp|by eapply Hf]. Qed.

Ltac no_grant :=
  repeat match goal with
  | |- ungranted (bind _ _) => apply ungranted_bind; [|intros ?]
  | |- ungranted (Ret _) => apply ungranted_Ret
  | |- ungranted (Do ?cmd) => exact (ungranted_Do cmd I)
  | |- ungranted (match ?x with _ => _ end) => destruct x
  end.

Lemma rounds_ungranted fuel req hv tick lease granted rateLease :
  ungranted (rounds c fuel req hv tick lease granted rateLease).
Proof.
  induction fuel as [|fuel IH]; cbn [rounds]; [no_grant|]. unfold read, attempt. no_grant. all: exact IH.
Qed.

Lemma take_ungranted fuel req lease granted rateLease : ungranted (take c fuel req lease granted rateLease).
Proof. unfold take. no_grant. apply rounds_ungranted. Qed.

Lemma revoke_ungranted lease : ungranted (revoke lease).
Proof. unfold revoke. no_grant. Qed.

Lemma revoke_gives_back lease tr u : runs (revoke lease) tr u → given_back tr lease.
Proof.
  unfold revoke. intros (x & tr1 & tr2 & -> & Hx & Hr)%runs_bind. apply runs_did_call in Hx as ->. destruct x as [err|].
  - apply runs_did_call in Hr as ->. destruct u. right. right. left.
  - apply runs_bind in Hr as (y & tr3 & tr4 & -> & Hy & Hr). apply runs_did_call in Hy as ->. destruct y as [err|].
    + apply runs_did_call in Hr as ->. destruct u. right. right. right. left.
    + left. right. left.
Qed.

Lemma give_back_gives lease rateLease err tr r :
  runs (give_back lease rateLease err) tr r →
  r = Some (inl err) ∧ grantless tr ∧ given_back tr lease ∧ ∀ id, rateLease = Some id → given_back tr id.
Proof.
  unfold give_back. intros (u & tr1 & tr2 & -> & H1 & (v & tr3 & tr4 & -> & H2 & [-> <-])%runs_bind)%runs_bind.
  assert (∀ tr tr' id, given_back tr id → given_back (tr ++ tr') id) as Hl by (intros ??? [?|?]; [left|right]; set_solver).
  assert (∀ tr tr' id, given_back tr' id → given_back (tr ++ tr') id) as Hr by (intros ??? [?|?]; [left|right]; set_solver).
  split; [done|]. rewrite app_nil_r. split; [|split].
  - apply Forall_app. split; [by eapply revoke_ungranted|]. destruct rateLease as [id|]; [by eapply revoke_ungranted|].
    destruct H2 as [-> _]. constructor.
  - apply Hl. by eapply revoke_gives_back.
  - intros id ->. apply Hr. by eapply revoke_gives_back.
Qed.

Lemma grantless_grant tr n x : grantless tr → did (Grant n) x ∉ tr.
Proof. intros H Hin. unfold grantless in H. rewrite Forall_forall in H. exact (H _ Hin). Qed.

Definition lease_of (e : event (Sg := etcd_sig)) : option (Z * Z) :=
  match e with existT (Grant _) (inr p) => Some p | _ => None end.

Lemma grant_only n x n' id ttl : did (Grant n) x = did (Grant n') (inr (id, ttl)) → x = inr (id, ttl).
Proof.
  intros H. apply (f_equal lease_of) in H. simpl in H. destruct x as [err|p]; [discriminate|]. by injection H as ->.
Qed.

(** Nothing is given back. *)
Definition keeping (tr : trace) : Prop := Forall (λ e, match projT1 e with Revoke _ | RevokeLater _ => False | _ => True end) tr.
Definition keeps {A} (p : prog (Sg := etcd_sig) A) : Prop := ∀ tr a, runs p tr a → keeping tr.

Lemma keeps_Ret {A} (a : A) : keeps (Ret a).
Proof. intros tr b [-> _]. constructor. Qed.
Lemma keeps_Do cmd : (match cmd with Revoke _ | RevokeLater _ => False | _ => True end) → keeps (Do cmd).
Proof. intros H tr x ->%runs_did_call. by apply Forall_singleton. Qed.
Lemma keeps_bind {A B} (p : prog A) (f : A → prog B) : keeps p → (∀ a, keeps (f a)) → keeps (bind p f).
Proof. intros Hp Hf tr b (a & tr1 & tr2 & -> & H1 & H2)%runs_bind. apply Forall_app. split; [by eapply Hp|by eapply Hf]. Qed.

Ltac no_revoke :=
  repeat match goal with
  | |- keeps (bind _ _) => apply keeps_bind; [|intros ?]
  | |- keeps (Ret _) => apply keeps_Ret
  | |- keeps (Do ?cmd) => exact (keeps_Do cmd I)
  | |- keeps (match ?x with _ => _ end) => destruct x
  end.

Lemma take_keeps fuel req lease granted rateLease : keeps (take c fuel req lease granted rateLease).
Proof.
  unfold take. no_revoke. induction fuel as [|fuel IH]; cbn [rounds]; [no_revoke|]. unfold read, attempt. no_revoke. all: exact IH.
Qed.

(** The lease a rate slot is kept under was granted for the limit's window. *)
Definition window_granted (tr : trace) (req : AcquireRequest) (rateLease : Z) : Prop :=
  ∀ limit, a_Rate req = Some limit → ∃ ttl, did (Grant (Z.quot (l_Per limit) Second)) (inr (rateLease, ttl)) ∈ tr.

(** Asking for the slot's lease, when there is a limit. *)
Lemma slot_leased req tr rate :
  runs (match a_Rate req with
        | None => Ret (inr None)
        | Some limit =>
            let! rate := Do (Grant (Z.quot (l_Per limit) Second)) in
            Ret (match rate with inl err => inl err | inr (id, _) => inr (Some id) end)
        end) tr rate →
  (∀ n id ttl, did (Grant n) (inr (id, ttl)) ∈ tr → rate = inr (Some id)) ∧ keeping tr ∧
  match rate with
  | inl err => ∃ n, did (Grant n) (inl err) ∈ tr
  | inr rateLease => ∀ limit, a_Rate req = Some limit →
      ∃ rl ttl, rateLease = Some rl ∧ did (Grant (Z.quot (l_Per limit) Second)) (inr (rl, ttl)) ∈ tr
  end.
Proof.
  destruct (a_Rate req) as [limit|]; intros Hr.
  - take_etcd. rewrite app_nil_r. split_and!.
    + intros n id ttl Hin%list_elem_of_singleton. symmetry in Hin. by apply grant_only in Hin as ->.
    + by apply Forall_singleton.
    + destruct x as [err|[id ttl]]; [eexists; left|]. intros limit' [= <-]. exists id, ttl. split; [done|left].
  - take_etcd. split_and!; [|constructor|discriminate]. intros n id ttl Hin. by apply elem_of_nil in Hin.
Qed.

End calls.
