(* ===== verification/EtcdScene.v ===== *)
(** The coordination adapter over a store kept in memory: two ticks of one playbook, by clients
    of two hosts, and what the theorems of its clients say there. *)
From S2P Require Import Prelude GoStr GoTime GoErr GuardConfig Eff Etcd EtcdStore EtcdSafe EtcdWorld EtcdRef EtcdJson EtcdCalls.

Section scene.
Context `{StoreLaws St}.

(** A store that answers every call, and a context that does not end. *)
Definition serve (who : nat) (cmd : etcd_cmd) (h : history (St := St)) : etcd_resp cmd * history :=
  match cmd with
  | CtxErr => (None, h)
  | Wall => (62135596800 * Second, h)
  | Seam _ | Watching _ | RevokeLater _ | Watch _ _ => (tt, h)
  | Grant n => let (x, s') := grant n (h_store h) in (x, with_lease n x s' h)
  | Revoke id =>
      if decide (id ∈ leases (h_store h)) then (None, with_store (end_lease id (h_store h)) h)
      else (Some ErrLeaseNotFound, h)
  | Txn t => transacted who t h
  | Get key => (inr (lookup_key (h_store h) key, revision (h_store h)), h)
  | Receive => (Closed, h)
  | KeepAliveOnce id => if decide (id ∈ leases (h_store h)) then (None, h) else (Some ErrLeaseNotFound, h)
  end.

Lemma serve_served who cmd h : served who h cmd (fst (serve who cmd h)) (snd (serve who cmd h)).
Proof.
  destruct cmd; cbn [serve fst snd]; try constructor.
  - destruct (grant _ _) as [x s'] eqn:E. by constructor.
  - destruct (decide _); by constructor.
  - by destruct (transacted _ _ _).
  - destruct (decide _); by constructor.
Qed.

(** A program served with nothing in between. *)
Lemma exec_alone who {A} (p : prog (Sg := etcd_sig) A) : ∀ h, served_alone who h p (fst (exec (Sg := etcd_sig) (serve who) p h)).
Proof.
  induction p as [a|cmd k IH]; intros h; cbn [exec served_alone]; [done|].
  pose proof (serve_served who cmd h) as Hs. destruct (serve who cmd h) as [x h'] eqn:E. cbn [fst snd] in Hs. by exists x, h'.
Qed.

Context {C : Codec} (c : Coordinator) (asked : AcquireRequest → Prop).

(** A client that is served to its end. *)
Lemma client_exec (p : prog (Sg := etcd_sig) outcome) : ∀ h ps who,
  reach c asked h ps → ps !! who = Some p →
  reach c asked (snd (exec (Sg := etcd_sig) (serve who) p h))
    (<[who := Ret (fst (exec (Sg := etcd_sig) (serve who) p h))]> ps).
Proof.
  induction p as [o|cmd k IH]; intros h ps who Hr Hp; cbn [exec].
  - by rewrite list_insert_id.
  - pose proof (serve_served who cmd h) as Hs. destruct (serve who cmd h) as [x h'] eqn:E. cbn [fst snd] in Hs.
    assert (<[who := Ret (fst (exec (Sg := etcd_sig) (serve who) (k x) h'))]> ps =
      <[who := Ret (fst (exec (Sg := etcd_sig) (serve who) (k x) h'))]> (<[who := k x]> ps)) as ->
      by by rewrite list_insert_insert_eq.
    apply IH; [by eapply reach_call|]. apply list_lookup_insert_eq. by eapply lookup_lt_Some.
Qed.

Definition served_to (p : prog (Sg := etcd_sig) outcome) (w : history (St := St) * list (prog (Sg := etcd_sig) outcome)) :=
  let who := length (snd w) in
  let r := exec (Sg := etcd_sig) (serve who) p (fst w) in (snd r, snd w ++ [Ret (fst r)]).

Lemma reach_served p w : operation c asked p → reach c asked (fst w) (snd w) →
  reach c asked (fst (served_to p w)) (snd (served_to p w)).
Proof.
  intros Ho Hr. destruct w as [h ps]. cbn [fst snd served_to] in *.
  pose proof (client_exec p h (ps ++ [p]) (length ps) (reach_spawn _ _ _ _ _ Hr Ho)) as Hx.
  rewrite lookup_app_r, Nat.sub_diag in Hx by done. specialize (Hx eq_refl).
  by rewrite insert_app_r_alt, Nat.sub_diag in Hx by done.
Qed.
End scene.

(** ** Two ticks, a minute apart *)

#[local] Existing Instance json_codec.
Definition scene_codec : Codec := json_codec (λ _, None) Text.
#[local] Existing Instance scene_codec.

Definition fans : Coordinator := New (mkOptions "/gronin/" false false).
Definition tick_at (t : Z) (host : string) : AcquireRequest :=
  mkAcquireRequest "fans" (mkHolder host "i" "r") (30 * Second) (Some (mkRateLimit 2 Hour)) (mkTriggerRef KindSchedule t).
Definition noon : Z := 63839782800 * Second.
Definition scene_asked (req : AcquireRequest) : Prop := req = tick_at noon "a" ∨ req = tick_at (noon + Minute) "b".

Definition acquire (req : AcquireRequest) : prog (Sg := etcd_sig) outcome :=
  let! r := Acquire fans 3 req in Ret (Acquired req r).
Definition scene0 : history (St := memory_store) * list (prog (Sg := etcd_sig) outcome) := (mkHistory empty_store [] [], []).
Definition scene1 := served_to (acquire (tick_at noon "a")) scene0.
Definition claim_of (o : option (prog (Sg := etcd_sig) outcome)) : Claim :=
  match o with Some (Ret (Acquired _ (Some (inr k)))) => k | _ => mkClaim "" 0 0 0 end.
Definition first_claim : Claim := claim_of (snd scene1 !! 0%nat).
Definition scene2 := served_to (let! _ := Release first_claim in Ret Ended) scene1.
Definition scene3 := served_to (acquire (tick_at (noon + Minute) "b")) scene2.
Definition second_claim : Claim := claim_of (snd scene3 !! 2%nat).

Lemma scene_reach : reach fans scene_asked (fst scene3) (snd scene3).
Proof.
  apply reach_served; [by constructor; right|]. apply reach_served; [constructor|].
  apply reach_served; [by constructor; left|]. by constructor.
Qed.

Lemma scene_claims :
  holds_claim (snd scene3) 0 (tick_at noon "a") first_claim ∧
  holds_claim (snd scene3) 2 (tick_at (noon + Minute) "b") second_claim.
Proof. split; vm_compute; reflexivity. Qed.

(** Both hosts fence, the first one late. *)
Definition scene_fencing : list (prog (Sg := etcd_sig) outcome) := snd scene3 ++ [fencing fans second_claim; fencing fans first_claim].

Lemma scene_fencing_reach : reach fans scene_asked (fst scene3) scene_fencing.
Proof.
  unfold scene_fencing. change (snd scene3 ++ [fencing fans second_claim; fencing fans first_claim])
    with (snd scene3 ++ [fencing fans second_claim] ++ [fencing fans first_claim]).
  rewrite app_assoc. do 2 (apply reach_spawn; [|constructor]). apply scene_reach.
Qed.

Definition lost_claim : gerror := wrap_after ErrLost (": fans is no longer held under token 2").

Lemma a_fence_passes_one_claim_witness :
  (fences fans (fst scene3) scene_fencing 3 second_claim None ∧
   fences fans (fst scene3) scene_fencing 4 first_claim (Some lost_claim)) ∧
  k_Token first_claim < k_Token second_claim ∧ is_Some (Some lost_claim) ∧ standing fans (fst scene3) "fans" = k_Token second_claim.
Proof.
  assert (fences fans (fst scene3) scene_fencing 3 second_claim None) as H2.
  { split; [vm_compute; reflexivity|].
    assert (fst (exec (Sg := etcd_sig) (serve 3) (fencing fans second_claim) (fst scene3)) = Fenced second_claim None) as <-
      by (vm_compute; reflexivity). apply exec_alone. }
  assert (fences fans (fst scene3) scene_fencing 4 first_claim (Some lost_claim)) as H1.
  { split; [vm_compute; reflexivity|].
    assert (fst (exec (Sg := etcd_sig) (serve 4) (fencing fans first_claim) (fst scene3)) = Fenced first_claim (Some lost_claim)) as <-
      by (vm_compute; reflexivity). apply exec_alone. }
  destruct (a_fence_passes_one_claim fans scene_asked (fst scene3) scene_fencing 2 0 (tick_at (noon + Minute) "b") (tick_at noon "a")
    second_claim first_claim) as (Hne & Hpass & _ & Hsays).
  - apply scene_fencing_reach.
  - vm_compute. reflexivity.
  - vm_compute. reflexivity.
  - done.
  - reflexivity.
  - split; [by split|]. destruct (Hpass 3%nat H2) as [Hlt Hlate]. split; [exact Hlt|].
    split; [exact (Hlate 4%nat _ H1)|]. exact (Hsays 3%nat None H2).
Defined.

Lemma a_tick_is_taken_once_witness :
  k_Token first_claim < k_Token second_claim ∧ noon < noon + Minute.
Proof.
  assert (k_Token first_claim < k_Token second_claim) as Hlt by (vm_compute; reflexivity). split; [exact Hlt|].
  apply (a_tick_is_taken_once fans scene_asked (fst scene3) (snd scene3) 0 2 (tick_at noon "a") (tick_at (noon + Minute) "b")
    first_claim second_claim).
  - apply scene_reach.
  - apply scene_claims.
  - apply scene_claims.
  - reflexivity.
  - reflexivity.
  - reflexivity.
  - exact Hlt.
Defined.

Definition entry (n : nat) : write := default (mkWrite 0 0 []) (h_log (fst scene3) !! n).
Definition text_of (o : option op) : string := match o with Some (OpPut _ value _) => value | _ => "" end.

Lemma scene_log : h_log (fst scene3) = [entry 0; entry 1].
Proof. vm_compute. reflexivity. Qed.

(** The claim given up is still a start of its window. *)
Lemma scene_counted who : who ∈ [2; 0]%nat → counted fans (fst scene3) (snd scene3) "fans" who.
Proof.
  intros [<-|[<-|[]]]%list_elem_of_In.
  - exists (tick_at (noon + Minute) "b"), second_claim, (entry 0), 4, 1%nat. split; [apply scene_claims|].
    split; [done|]. split; [rewrite scene_log; left|]. split; [vm_compute; reflexivity|]. split; [|by apply (bool_decide_unpack _); vm_compute].
    split; [|vm_compute; lia]. exists (text_of (e_Ops (entry 0) !! 0%nat)), (text_of (e_Ops (entry 0) !! 1%nat)).
    split; vm_compute; reflexivity.
  - exists (tick_at noon "a"), first_claim, (entry 1), 2, 0%nat. split; [apply scene_claims|].
    split; [done|]. split; [rewrite scene_log; right; left|]. split; [vm_compute; reflexivity|]. split; [|by apply (bool_decide_unpack _); vm_compute].
    split; [|vm_compute; lia]. exists (text_of (e_Ops (entry 1) !! 0%nat)), (text_of (e_Ops (entry 1) !! 1%nat)).
    split; vm_compute; reflexivity.
Qed.

Lemma no_window_holds_more_than_the_rate_witness :
  (Forall (counted fans (fst scene3) (snd scene3) "fans") [2; 0]%nat ∧ (length [2; 0] <= 2)%nat) ∧
  ∃ rl, (rl, 3600) ∈ h_granted (fst scene3).
Proof.
  assert (Forall (counted fans (fst scene3) (snd scene3) "fans") [2; 0]%nat) as Hc
    by (apply Forall_forall; intros who; apply scene_counted).
  destruct (no_window_holds_more_than_the_rate fans scene_asked (fst scene3) (snd scene3) "fans" 2 [2; 0]%nat) as [Hwindow Hrate].
  - apply scene_reach.
  - split; [split; [exact Hc|]|].
    + apply Hrate; [intros req [->| ->] _; vm_compute; lia|apply (bool_decide_unpack _); vm_compute; exact I|exact Hc].
    + destruct (Hwindow 0%nat (tick_at noon "a") first_claim (mkRateLimit 2 Hour)) as (e & rl & i & _ & _ & _ & Hin);
        [apply scene_claims|reflexivity|]. exists rl. exact Hin.
Defined.

(** Another host's next tick, while the first one's run holds the claim. *)
Definition refused_acquire : prog (Sg := etcd_sig) (option (gerror + Claim)) :=
  Acquire fans 3 (tick_at (noon + Minute) "b").
Definition refused_trace : trace := trace_of (Sg := etcd_sig) (serve 1) refused_acquire (fst scene1).

