(* ===== verification/Api.v ===== *)
(** The local HTTP API: [src/runtime/internal/api/api.go], with what it uses of [net] and of
    [net/http]'s routes.

    A request's handler is a program over what the API reads of the record.  A response's body
    is the document it encodes, a cost in it being the number the record holds. *)
From S2P Require Import Prelude GoStr GoTime GoErr GoJson GoRunes Records Store RunRecords Sources Ingress Eff.
From Stdlib Require Import QArith.

Open Scope Z_scope.

(** ** [net.ParseIP] *)

(** Octets apart by dots, read from the left: [val] and [digits] are of the octet at hand. *)
Fixpoint ipv4_fields (s : string) (val : Z) (digits : nat) (done_ : list Z) : option (list Z) :=
  match s with
  | EmptyString => if (length done_ =? 3)%nat && (0 <? digits)%nat then Some (done_ ++ [val]) else None
  | String c s =>
      if is_digit c then
        if (digits =? 1)%nat && (val =? 0) then None
        else
          let val := val * 10 + (byte_of c - 48) in
          if 255 <? val then None else ipv4_fields s val (S digits) done_
      else if Ascii.eqb c "." then
        if (digits =? 0)%nat || String.eqb s "" then None
        else if (length done_ =? 3)%nat then None
        else ipv4_fields s 0 0 (done_ ++ [val])
      else None
  end.
Definition parseIPv4 (s : string) : option (list Z) := ipv4_fields s 0 0 [].

(** A group of at most four hexadecimal digits, and what follows it. *)
Fixpoint hex_group (s : string) (acc : Z) (off : nat) : option (Z * nat * string) :=
  match s with
  | String c rest =>
      match hex_value c with
      | Some v => if (3 <? off)%nat then None else hex_group rest (acc * 16 + v) (S off)
      | None => Some (acc, off, s)
      end
  | EmptyString => Some (acc, off, s)
  end.

(** The groups of an address; [ip] holds the bytes so far and [ellipsis] where the two colons
    stood.  At most eight groups fit, so that nine rounds are enough. *)
Fixpoint ipv6_groups (fuel : nat) (s : string) (ip : list Z) (ellipsis : option nat) : option (list Z * option nat) :=
  match fuel with
  | O => None
  | S fuel =>
      if (length ip <? 16)%nat then
        match hex_group s 0 0 with
        | None | Some (_, O, _) => None
        | Some (acc, _, rest) =>
            if has_prefix rest "." then
              if (match ellipsis with None => negb (length ip =? 12)%nat | Some _ => false end) || (16 <? length ip + 4)%nat then None
              else match parseIPv4 s with Some four => Some (ip ++ four, ellipsis) | None => None end
            else
              let ip := ip ++ [acc / 256; acc mod 256] in
              match rest with
              | EmptyString => Some (ip, ellipsis)
              | String ":" EmptyString => None
              | String ":" (String ":" more) =>
                  match ellipsis with
                  | Some _ => None
                  | None =>
                      if String.eqb more "" then Some (ip, Some (length ip)) else ipv6_groups fuel more ip (Some (length ip))
                  end
              | String ":" more => ipv6_groups fuel more ip ellipsis
              | _ => None
              end
        end
      else None
  end.

Definition parseIPv6 (s : string) : option (list Z) :=
  let '(s, ellipsis, only) :=
    match s with
    | String ":" (String ":" more) => (more, Some 0%nat, String.eqb more "")
    | _ => (s, None, false)
    end in
  if only then Some (repeat 0 16)
  else
    match ipv6_groups 9 s [] ellipsis with
    | None => None
    | Some (ip, ellipsis) =>
        if (length ip <? 16)%nat then
          match ellipsis with
          | None => None
          | Some at_ => Some (take at_ ip ++ repeat 0 (16 - length ip) ++ drop at_ ip)
          end
        else match ellipsis with None => Some ip | Some _ => None end
    end.

(** The sixteen bytes of an address, an IPv4 one mapped; a zone is refused. *)
Fixpoint parse_addr (at_ : string) (s : string) : option (list Z) :=
  match at_ with
  | EmptyString => None
  | String c at_ =>
      if Ascii.eqb c "." then (λ four, repeat 0 10 ++ [255; 255] ++ four) <$> parseIPv4 s
      else if Ascii.eqb c ":" then if has_char "%" s then None else parseIPv6 s
      else if Ascii.eqb c "%" then None
      else parse_addr at_ s
  end.
Definition ParseIP (s : string) : option (list Z) := parse_addr s s.

Definition IsLoopback (ip : list Z) : bool :=
  if bool_decide (take 12 ip = repeat 0 10 ++ [255; 255]) then bool_decide (nth_error ip 12 = Some 127)
  else bool_decide (ip = repeat 0 15 ++ [1]).

Example addresses : map (λ s, IsLoopback <$> ParseIP s)
  ["127.0.0.1"; "127.8.9.10"; "128.0.0.1"; "::1"; "::ffff:127.0.0.1"; "::"; "0:0:0:0:0:0:0:1"; "1::1"; "fe80::1%lo"; "127.0.0.01";
   "127.0.1"; "localhost"; "::1::"; "1:2:3:4:5:6:7:8:9"; "1:2:3:4:5:6:7::"] =
  [Some true; Some true; Some false; Some true; Some true; Some false; Some true; Some false; None; None;
   None; None; None; None; Some false].
Proof. vm_compute. reflexivity. Qed.

(** ** Where it may be bound *)

Definition ErrRemoteWithoutCredential : gerror :=
  Sentinel "binding the API anywhere but loopback requires a credential to be configured first".

(** [strings.EqualFold] with a lower-case ASCII word: the long s is the one other character that
    folds to a letter of it. *)
Definition fold_rune (r : string) : string :=
  if String.eqb r (encode_rune 383) then "s"
  else match r with String c EmptyString => str (lower_char c) | _ => r end.
Definition EqualFold (s word : string) : bool := String.eqb (unrunes (map fold_rune (runes s))) word.

Definition isLoopback (host : string) : bool :=
  if String.eqb host "" || String.eqb host "0.0.0.0" || String.eqb host "::" then false
  else if EqualFold host "localhost" then true
  else match ParseIP host with Some parsed => IsLoopback parsed | None => false end.

(** The text of [SplitHostPort]'s own error is [refused]'s. *)
Definition CheckAddress (refused : string → gerror) (address token : string) : option gerror :=
  if String.eqb address "" then Some (Text "no address to bind")
  else
    match SplitHost address with
    | None => Some (wrap_before (quote address +:+ " is not an address to bind") (refused address))
    | Some host =>
        if isLoopback host then None
        else if String.eqb token "" then
          Some (wrap_after ErrRemoteWithoutCredential ("; " +:+ quote host +:+ " is not loopback"))
        else None
    end.

(** ** Reading the record *)

Inductive api_cmd :=
| ListRuns (limit : Z) | GetRun (id : string) | GatheredInputs (id : string) | SinkOutcomes (id : string)
| RefusedActions (id : string) | ToolCalls (id : string).

Definition api_resp (c : api_cmd) : Type :=
  match c with
  | ListRuns _ => gerror + list Run
  | GetRun _ => gerror + Run
  | GatheredInputs _ => gerror + list GatheredInput
  | SinkOutcomes _ => gerror + list SinkOutcome
  | RefusedActions _ => gerror + list RefusedAction
  | ToolCalls _ => gerror + list ToolCallRow
  end.
#[export] Instance api_sig : Signature := {| cmd := api_cmd; resp := api_resp |}.
Definition Do (c : api_cmd) : prog (Sg := api_sig) (api_resp c) := call (Sg := api_sig) c.
#[global] Arguments Do : simpl never.

(** ** Responses *)

Inductive field := FText (s : string) | FCost (q : Q) | FCount (z : Z).

Definition optional (fields : list (string * string)) : list (string * field) :=
  omap (λ '(key, value), if String.eqb value "" then None else Some (key, FText value)) fields.

(** A map, whose members are encoded in the order of their keys. *)
Definition summary (one : Run) : list (string * field) :=
  [("id", FText (u_ID one)); ("playbook", FText (u_PlaybookName one)); ("status", FText (u_Status one));
   ("trigger", FText (u_TriggerKind one)); ("started_at", FText (rfc3339_nano (u_StartedAt one)));
   ("cost_usd", FCost (u_CostUSD one)); ("tokens", FCount (u_Tokens one))] ++
  (if IsZero (u_EndedAt one) then [] else [("ended_at", FText (rfc3339_nano (u_EndedAt one)))]) ++
  optional [("parent_run_id", u_ParentRunID one); ("error", u_Error one);
            ("credential_source", u_CredentialSource one); ("report_ref", u_ReportRef one);
            ("prompt_ref", u_PromptRef one); ("resolved_playbook_ref", u_ResolvedPlaybookRef one)].

Definition summaries (runs : list Run) : list (list (string * field)) := map summary runs.

Inductive document :=
| RunsDocument (runs : list (list (string * field)))
| RunDocument (run : list (string * field)) (inputs : list GatheredInput) (calls : list ToolCallRow)
    (refused : list RefusedAction) (outcomes : list SinkOutcome).

(** [http.Error]'s text, or a document as JSON; [Elsewhere] is an answer of the routes' own, to a
    path or a method they do not serve. *)
Inductive answer := Failure (status : Z) (text : string) (headers : list (string * string)) | Success (body : document) | Elsewhere.

Definition unread : answer := Failure 500 "the record could not be read" [].

Definition listRuns : prog (Sg := api_sig) answer :=
  let! runs := Do (ListRuns 50) in
  Ret match runs with inl _ => unread | inr runs => Success (RunsDocument (summaries runs)) end.

(** A section that could not be read ends the handler. *)
Definition section {A} (p : prog (Sg := api_sig) (gerror + A)) (k : A → prog (Sg := api_sig) answer) : prog (Sg := api_sig) answer :=
  let! read := p in match read with inl _ => Ret unread | inr x => k x end.

Definition showRun (id : string) : prog (Sg := api_sig) answer :=
  let! one := Do (GetRun id) in
  match one with
  | inl err => Ret (if errors_is err ErrNotFound then Failure 404 "no such run" [] else unread)
  | inr one =>
      section (Do (GatheredInputs id)) (λ inputs,
      section (Do (SinkOutcomes id)) (λ outcomes,
      section (Do (RefusedActions id)) (λ refused,
      section (Do (ToolCalls id)) (λ calls,
        Ret (Success (RunDocument (summary one) inputs calls refused outcomes))))))
  end.

(** ** Routes *)

(** What the routes and the handlers read of a request, its path clean and still escaped. *)
Record request := mkRequest { r_Method : string; r_Path : string; r_Header : Header }.

(** [url.PathUnescape], the segment itself where it is not escaped as it should be. *)
Fixpoint unescaped_go (fuel : nat) (s : string) : option string :=
  match fuel, s with
  | O, _ | _, EmptyString => Some ""
  | S fuel, String c rest =>
      if Ascii.eqb c "%" then
        match rest with
        | String a (String b rest) =>
            match hex_value a, hex_value b with
            | Some a, Some b => String (byte_chr (a * 16 + b)) <$> unescaped_go fuel rest
            | _, _ => None
            end
        | _ => None
        end
      else String c <$> unescaped_go fuel rest
  end.
Definition PathUnescape (s : string) : string := default s (unescaped_go (String.length s) s).

(** The routes [GET /runs] and [GET /runs/{id}], of which HEAD is a GET; a segment is not empty. *)
Inductive route := ListRoute | ShowRoute (id : string) | NoRoute.
Definition routed (r : request) : route :=
  if String.eqb (r_Method r) "GET" || String.eqb (r_Method r) "HEAD" then
    if String.eqb (r_Path r) "/runs" then ListRoute
    else match cut_prefix (r_Path r) "/runs/" with
         | Some segment => if String.eqb segment "" || has_char "/" segment then NoRoute else ShowRoute (PathUnescape segment)
         | None => NoRoute
         end
  else NoRoute.

Definition mux (r : request) : prog (Sg := api_sig) answer :=
  match routed r with ListRoute => listRuns | ShowRoute id => showRun id | NoRoute => Ret Elsewhere end.

(** [Header.Get] *)
Definition Header_Get (h : Header) (name : string) : string := default "" (head (Header_Values h name)).

Definition unauthorized : answer := Failure 401 "unauthorized" [("WWW-Authenticate", "Bearer")].

Definition authenticated (token : string) (inner : request → prog (Sg := api_sig) answer) (r : request) : prog (Sg := api_sig) answer :=
  if String.eqb token "" then inner r
  else
    let offered := trim_prefix (Header_Get (r_Header r) "Authorization") "Bearer " in
    if String.eqb offered "" || negb (String.eqb offered token) then Ret unauthorized else inner r.

Definition Handler (token : string) : request → prog (Sg := api_sig) answer := authenticated token mux.

(** ** What holds of the HTTP API: who is answered, with what, and from which reads. *)

(** The token a request offers. *)
Definition offered (r : request) : string := trim_prefix (Header_Get (r_Header r) "Authorization") "Bearer ".

(** The reads a document is made of: all of them, each of the run asked for, and each answered. *)
Definition document_of (route : route) (tr : list (event (Sg := api_sig))) (body : document) : Prop :=
  match route with
  | ListRoute => ∃ runs, tr = [ev (ListRuns 50) (inr runs)] ∧ body = RunsDocument (summaries runs)
  | ShowRoute id =>
      ∃ one inputs outcomes refused calls,
        tr = [ev (GetRun id) (inr one); ev (GatheredInputs id) (inr inputs); ev (SinkOutcomes id) (inr outcomes);
              ev (RefusedActions id) (inr refused); ev (ToolCalls id) (inr calls)] ∧
        body = RunDocument (summary one) inputs calls refused outcomes
  | NoRoute => False
  end.

(** What stands for a document when there is none: a read failed, the first one because there is no
    such run, or the request is for no route, which reads nothing. *)
Definition refusal_of (route : route) (tr : list (event (Sg := api_sig))) (a : answer) : Prop :=
  match route with
  | NoRoute => tr = [] ∧ a = Elsewhere
  | ListRoute => ∃ err, tr = [ev (ListRuns 50) (inl err)] ∧ a = unread
  | ShowRoute id =>
      (∃ err, tr = [ev (GetRun id) (inl err)] ∧ errors_is err ErrNotFound = true ∧ a = Failure 404 "no such run" []) ∨
      (∃ before c (err : gerror) x, tr = before ++ [ev (Sg := api_sig) c x] ∧ a = unread ∧
         match c as c return resp (Signature := api_sig) c → Prop with
         | ListRuns _ => λ _, False
         | GetRun id' => λ x, id' = id ∧ x = inl err ∧ errors_is err ErrNotFound = false
         | GatheredInputs id' => λ x, id' = id ∧ x = inl err
         | SinkOutcomes id' => λ x, id' = id ∧ x = inl err
         | RefusedActions id' => λ x, id' = id ∧ x = inl err
         | ToolCalls id' => λ x, id' = id ∧ x = inl err
         end x)
  end.

Lemma runs_read {A} c (k : api_resp c → prog (Sg := api_sig) A) tr a :
  runs (bind (Do c) k) tr a → ∃ x tr', tr = ev (Sg := api_sig) c x :: tr' ∧ runs (k x) tr' a.
Proof. intros (x & tr' & -> & Hr). by exists x, tr'. Qed.

(** What the routes answer, of a request let through. *)
Lemma mux_answers r tr a : runs (mux r) tr a → (∃ body, a = Success body ∧ document_of (routed r) tr body) ∨ refusal_of (routed r) tr a.
Proof.
  unfold mux. destruct (routed r) as [|id|]; cbn [document_of refusal_of]; [..|by intros [-> ->]; right].
  - unfold listRuns. intros Hr.
    apply (runs_read (ListRuns 50)) in Hr as (x & tr' & -> & [-> <-]). destruct x as [err|runs]; [right|left]; eauto.
  - unfold showRun, section. intros Hr. apply (runs_read (GetRun id)) in Hr as (x & tr' & -> & Hr).
    destruct x as [err|one].
    { right. destruct Hr as [-> <-]. destruct (errors_is err ErrNotFound) eqn:E; [by left; eauto|].
      right. by eexists [], (GetRun id), err, _. }
    apply (runs_read (GatheredInputs id)) in Hr as (x & tr1 & -> & Hr).
    destruct x as [err|inputs]; [destruct Hr as [-> <-]; right; right; by eexists [_], (GatheredInputs id), err, _|].
    apply (runs_read (SinkOutcomes id)) in Hr as (x & tr2 & -> & Hr).
    destruct x as [err|outcomes]; [destruct Hr as [-> <-]; right; right; by eexists [_; _], (SinkOutcomes id), err, _|].
    apply (runs_read (RefusedActions id)) in Hr as (x & tr3 & -> & Hr).
    destruct x as [err|refused]; [destruct Hr as [-> <-]; right; right; by eexists [_; _; _], (RefusedActions id), err, _|].
    apply (runs_read (ToolCalls id)) in Hr as (x & tr4 & -> & Hr).
    destruct x as [err|calls]; [destruct Hr as [-> <-]; right; right; by eexists [_; _; _; _], (ToolCalls id), err, _|].
    destruct Hr as [-> <-]. left. eexists. split; [done|]. do 5 eexists. split; reflexivity.
Qed.

(** What a request let through and one turned away come to. *)
Lemma Handler_answers token r tr a : runs (Handler token r) tr a →
  (token ≠ "" ∧ offered r ≠ token ∧ tr = [] ∧ a = unauthorized) ∨ ((token = "" ∨ offered r = token) ∧ runs (mux r) tr a).
Proof.
  unfold Handler, authenticated. fold (offered r). destruct (String.eqb_spec token "") as [->|Ht]; [by right; auto|].
  destruct (String.eqb_spec (offered r) "") as [Ho|Ho]; cbn [orb].
  - intros [-> <-]. left. split_and!; try done. by rewrite Ho.
  - destruct (String.eqb_spec (offered r) token) as [He|He]; cbn [negb]; [by right; auto|]. intros [-> <-]. by left.
Qed.

(** A host that is this machine and no other, told by its bytes: an address of 127.0.0.0/8, as it is
    or mapped into IPv6, or the address ::1; or the name of the local host, whatever its case. *)
Definition this_machine (host : string) : Prop :=
  (∃ ip, ParseIP host = Some ip ∧ (ip = repeat 0 15 ++ [1] ∨ ∃ rest, ip = repeat 0 10 ++ [255; 255; 127] ++ rest)) ∨
  EqualFold host "localhost" = true.

Lemma isLoopback_spec host : isLoopback host = true → this_machine host.
Proof.
  unfold isLoopback. destruct (_ || _)%bool; [done|]. destruct (EqualFold host "localhost") eqn:E; [by right|].
  destruct (ParseIP host) as [ip|] eqn:Ei; [|done]. unfold IsLoopback. intros H. left. exists ip. split; [done|].
  destruct (bool_decide (take 12 ip = _)) eqn:Et.
  - right. apply bool_decide_eq_true in Et. apply bool_decide_eq_true in H.
    exists (drop 13 ip). rewrite <- (take_drop 12 ip) at 1. rewrite Et.
    enough (drop 12 ip = 127 :: drop 13 ip) as -> by done. clear Et Ei. revert H. generalize 12%nat.
    induction ip as [|x ip IH]; intros [|n]; simpl; try done; [by intros [= ->]|apply IH].
  - left. by apply bool_decide_eq_true in H.
Qed.

(** The spellings of every interface are none of this machine's. *)
Example every_interface : Forall (λ host, ¬ this_machine host) [""; "0.0.0.0"; "::"; "0:0::0"; "192.168.1.7"; "example.org"].
Proof.
  repeat constructor; (intros [(ip & Hip & Hk)|H]; [|by vm_compute in H]); vm_compute in Hip; try done;
    injection Hip as <-; destruct Hk as [Hk|[rest Hk]]; done.
Qed.

(** C34: An API that can be reached from elsewhere answers nobody without its token: when the address is
    one CheckAddress lets the API be bound at, then either its host is this machine's alone (an
    address of 127.0.0.0/8, ::1, or the name localhost in any case) or a token is set, and
    whatever the record answers, a request that does not offer the token that is set is answered
    unauthorized without anything being read, while any other is answered from the reads it asks
    for and from nothing else — a document only when every read of it succeeded, each being of the
    one run the path names, not found when the record has no such run, and otherwise an error that
    says nothing of what was read. *)
Theorem the_api_answers_who_may_ask refused address token r tr a :
  CheckAddress refused address token = None → runs (Handler token r) tr a →
  ((∃ host, SplitHost address = Some host ∧ this_machine host) ∨ token ≠ "") ∧
  ((token ≠ "" ∧ offered r ≠ token ∧ tr = [] ∧ a = unauthorized) ∨
   ((token = "" ∨ offered r = token) ∧
    ((∃ body, a = Success body ∧ document_of (routed r) tr body) ∨ refusal_of (routed r) tr a))).
Proof.
  intros Hc Hr. split.
  - revert Hc. unfold CheckAddress. destruct (String.eqb address ""); [done|]. destruct (SplitHost address) as [host|]; [|done].
    destruct (isLoopback host) eqn:Hl; [intros _; left; eauto using isLoopback_spec|]. destruct (String.eqb_spec token ""); [done|]. by right.
  - destruct (Handler_answers _ _ _ _ Hr) as [|[Ha Hm]]; [by left|]. right. split; [done|]. by apply mux_answers.
Qed.

(** A listing asked for with the token, from an API bound to every address. *)
Definition no_runs (c : api_cmd) : option (api_resp c) :=
  match c with ListRuns _ => Some (inr []) | _ => None end.
Definition listing : request := mkRequest "GET" "/runs" {["Authorization" := ["Bearer s3cret"]]}.

Lemma the_api_answers_who_may_ask_witness :
  (runs (Handler "s3cret" listing) [ev (ListRuns 50) (inr [])] (Success (RunsDocument [])) ∧
   CheckAddress (λ _, Text "no port") "0.0.0.0:7717" "s3cret" = None) ∧
  (((∃ host, SplitHost "0.0.0.0:7717" = Some host ∧ this_machine host) ∨ "s3cret" ≠ "") ∧
   (("s3cret" ≠ "" ∧ offered listing ≠ "s3cret" ∧ [ev (ListRuns 50) (inr [])] = [] ∧ Success (RunsDocument []) = unauthorized) ∨
    (("s3cret" = "" ∨ offered listing = "s3cret") ∧
     ((∃ body, Success (RunsDocument []) = Success body ∧ document_of (routed listing) [ev (ListRuns 50) (inr [])] body) ∨
      refusal_of (routed listing) [ev (ListRuns 50) (inr [])] (Success (RunsDocument [])))))).
Proof.
  assert (runs (Handler "s3cret" listing) [ev (ListRuns 50) (inr [])] (Success (RunsDocument []))) as Hr.
  { apply (play_runs (Sg := api_sig) no_runs). vm_compute. reflexivity. }
  assert (CheckAddress (λ _, Text "no port") "0.0.0.0:7717" "s3cret" = None) as Hc by (vm_compute; reflexivity).
  split; [split; [exact Hr|exact Hc]|]. exact (the_api_answers_who_may_ask _ _ _ _ _ _ Hc Hr).
Defined.
