(* ===== verification/Cli.v ===== *)
(** The command line's deployment: [deployment.go], [coordination.go] and what of [root.go] and
    [main.go] the commands share, in [src/runtime/cmd/gronin].

    A command is a program over the packages it wires together: opening the deployment's files,
    asking its record, its agent and its backend, running a playbook, and printing.  What those
    packages do is the matter of the files that model them; here a call is answered with what
    they may give. *)
From S2P Require Import Prelude GoStr GoTime GoErr GoPath Config Schedule Playbook Gate Loader.
From S2P Require Import Records RunRecords Sources Eff.
From S2P Require McpCatalog Collections GuardConfig Sinks Host Index.

(** ** Flags *)

Record flags := mkFlags {
  f_stateDir : string; f_playbooks : string; f_agent : string; f_apiAddress : string; f_limit : Z;
  f_trigger : option (gmap string string); f_retrieval : string; f_secret : bool }.

(** ** The deployment *)

Record coordination := mkCoordination { k_config : GuardConfig.Config; k_configured : bool }.

(** [d_instance]: the instance lock is held; [d_slot]: what a waiting trigger's playbook is read
    again under; [d_retrieve]: the collections the retrieve stage is over. *)
Record deployment := mkDeployed {
  d_config : Config; d_catalog : McpCatalog.Catalog; d_coordination : coordination;
  d_agent : string; d_agentEnv : list string; d_stepEnv : list string; d_host : string;
  d_instanceID : string; d_instance : bool; d_slot : option Deployment;
  d_retrieve : option Collections.Catalog }.

(** ** Calls *)

Inductive cli_cmd :=
(** the deployment's files *)
| OpenConfig | OpenCatalog | OpenCollections | OpenSources (cfg : Config)
| LoadDirectory (dir : string) (dep : Deployment)
| LoadCoordination (cfg : Config)
| SetConfig (key : string) (value : Value)
| ReadValue
(** what is opened and closed *)
| OpenRecord (secrets : list string) | CloseRecord
| DialEtcd (cfg : GuardConfig.EtcdConfig) | CloseEtcd
| HoldInstance (instance : string) | CloseInstance
| StartAPI (token : string) | StopAPI
(** the process *)
| LookupEnv (name : string) | Hostname | RandomSuffix | Now
(** a line to the standard output, one to the standard error, one to the log, and bytes as they are *)
| Say (line : string) | Complain (line : string) | Warn (line : string) | Write (data : string)
| Panic
(** the backend and the agent *)
| AskEtcd (key : string) (within : Z)
| CheckAgent (executable : string)
| ProbeCredential (executable : string) (env : list string) (dir : string)
(** the record *)
| MarkRunningAsInterrupted | Reconcile
| ListRuns (limit : Z) | ListRefusals (limit : Z) | GetRun (id : string) | GatheredInputs (id : string)
| Retrievals (id : string) | ToolCalls (id : string) | RefusedActions (id : string) | SinkOutcomes (id : string)
| GetBlob (ref : string)
(** the executor and the scheduler *)
| Execute (d : deployment) (book : Playbook) (trigger : Host.Trigger)
| Replay (d : deployment) (parent : string) (book : Playbook)
| Resume (d : deployment) (parent : string) (book : Playbook)
| ParseSchedule (text : string)
| Listen (address : string)
| RunScheduler (d : deployment) (loaded : Loaded) (armed : gmap string Schedule.entry)
(** the collections *)
| WalkSources (store : bool) (collection : Collections.Collection)
| ReadStored (name : string) (within : Z)
| OpenIndex (name : string) (cfg : Index.Configuration) | RebuildIndex (walk : Index.Walk) | CloseIndex.

Definition cli_resp (c : cli_cmd) : Type :=
  match c with
  | OpenConfig => gerror + Config
  | OpenCatalog => gerror + McpCatalog.Catalog
  | OpenCollections => gerror + Collections.Catalog
  | OpenSources _ => gerror + Catalog
  | LoadDirectory _ _ => gerror + Loaded
  | LoadCoordination _ => gerror + (GuardConfig.Config * bool)
  | SetConfig _ _ | OpenRecord _ | DialEtcd _ | HoldInstance _ | AskEtcd _ _ | OpenIndex _ _ | Write _ => option gerror
  | ReadValue => gerror + string
  | CloseRecord | CloseEtcd | CloseInstance | StartAPI _ | StopAPI | Say _ | Complain _ | Warn _ | CloseIndex => unit
  | LookupEnv _ | RandomSuffix => option string
  | Hostname | CheckAgent _ | ProbeCredential _ _ _ | Listen _ => gerror + string
  | Now => Z
  | Panic => Empty_set
  | MarkRunningAsInterrupted | Reconcile => gerror + Z
  | ListRuns _ => gerror + list Run
  | ListRefusals _ => gerror + list Records.Refusal
  | GetRun _ | Execute _ _ _ | Replay _ _ _ | Resume _ _ _ => gerror + Run
  | GatheredInputs _ => gerror + list GatheredInput
  | Retrievals _ => gerror + list RunRecords.Retrieval
  | ToolCalls _ => gerror + list ToolCallRow
  | RefusedActions _ => gerror + list RefusedAction
  | SinkOutcomes _ => gerror + list SinkOutcome
  | GetBlob _ => gerror + string
  | ParseSchedule _ => gerror + (Z → Z)
  | RunScheduler _ _ _ => gerror
  | WalkSources _ _ => (gerror + Index.Walk) * Index.Configuration
  | ReadStored _ _ => gerror + Index.Stored
  | RebuildIndex _ => gerror + Index.Generation
  end.

#[export] Instance cli_sig : Signature := {| cmd := cli_cmd; resp := cli_resp |}.
Definition Do (c : cli_cmd) : prog (Sg := cli_sig) (cli_resp c) := call (Sg := cli_sig) c.
#[global] Arguments Do : simpl never.
Notation cli A := (prog (Sg := cli_sig) A).
Definition did (c : cli_cmd) (x : cli_resp c) : event (Sg := cli_sig) := ev (Sg := cli_sig) c x.

(** A panic ends the process: nothing follows it. *)
Definition panic {A} : cli A := Call (Sg := cli_sig) Panic (λ x : Empty_set, match x with end).

(** ** How a command ends *)

(** [errSilent] is an error whose refusal is printed already. *)
Inductive failure := Loud (err : gerror) | Silent (err : gerror).
Definition failed (f : failure) : gerror := match f with Loud err | Silent err => err end.

(** [let?] is a call followed by the return of its error. *)
Notation "'let?' x ':=' p 'in' k" :=
  (let! r_ := p in match r_ with inl err => Ret (Some (Loud err)) | inr x => k end)
  (at level 10, x pattern, p at level 100, k at level 200) : gronin_scope.

(** [main], and the status the process exits with. *)
Definition main (command : cli (option failure)) : cli Z :=
  let! ended := command in
  match ended with
  | None => Ret 0
  | Some (Silent _) => Ret 1
  | Some (Loud err) => let! _ := Do (Complain ("gronin: " +:+ Error err)) in Ret 1
  end.

(** A process ends with [main]'s status, or with the 2 of a panic. *)
Definition exits (process : cli Z) (tr : list (event (Sg := cli_sig))) (status : Z) : Prop :=
  runs process tr status ∨ reaches process tr Panic ∧ status = 2.

(** [errors.As] for a refusal of the guard. *)
Fixpoint as_refused (e : gerror) : option (string * string) :=
  match e with
  | RefusedError mechanism detail => Some (mechanism, detail)
  | Wrap _ causes =>
      (fix go (l : list gerror) :=
         match l with [] => None | c :: l => match as_refused c with Some r => Some r | None => go l end end) causes
  | _ => None
  end.

(** ** [coordination.go] *)

(** A configuration that names no etcd has no endpoints to dial: its pointer is nil. *)
Definition openCoordination (cfg : Config) : cli (gerror + coordination) :=
  let! loaded := Do (LoadCoordination cfg) in
  match loaded with
  | inl err => Ret (inl err)
  | inr (declared, false) => Ret (inr (mkCoordination declared false))
  | inr (declared, true) =>
      match GuardConfig.Etcd declared with
      | None => panic
      | Some etcd =>
          let! dialled := Do (DialEtcd etcd) in
          Ret match dialled with Some err => inl err | None => inr (mkCoordination declared true) end
      end
  end.

Definition endpoints (c : coordination) : list string :=
  match GuardConfig.Etcd (k_config c) with Some etcd => GuardConfig.Endpoints etcd | None => [] end.
Definition prefix (c : coordination) : string :=
  match GuardConfig.Etcd (k_config c) with Some etcd => GuardConfig.Prefix etcd | None => "" end.

Definition coordination_close (c : coordination) : cli unit := if k_configured c then Do CloseEtcd else Ret tt.

Definition describe (c : coordination) : string :=
  if negb (k_configured c) then
    "guard: single-host — no coordination backend is configured, so two hosts running these playbooks would each run them"
  else "guard: cross-host, etcd at " +:+ show_nat (length (endpoints c)) +:+ " endpoint(s) under prefix " +:+ prefix c
       +:+ ", claim expiry " +:+ Duration_String (GuardConfig.ClaimExpiry (k_config c)).

Definition backend_name (c : coordination) : string :=
  if negb (k_configured c) then "" else "etcd at " +:+ join (endpoints c) ", ".

Definition reachable (c : coordination) : cli (option gerror) :=
  if negb (k_configured c) then Ret None else Do (AskEtcd (prefix c) (GuardConfig.DecisionBound (k_config c))).

Definition unreachable (c : coordination) (err : gerror) : string :=
  "guard: cross-host, etcd at " +:+ show_nat (length (endpoints c)) +:+ " endpoint(s) — NOT reachable at startup ("
  +:+ GoRunes.TrimSpace (Error err) +:+ "); every trigger will be refused until it answers".

Definition hostName : cli string :=
  let! name := Do Hostname in
  Ret match name with inr name => if String.eqb name "" then "unknown-host" else name | inl _ => "unknown-host" end.

Definition instanceID : cli string :=
  let! suffix := Do RandomSuffix in Ret (default "unknown-instance" suffix).

(** ** [deployment.go] *)

Definition agentEnvVars : list string :=
  ["PATH"; "HOME"; "TMPDIR"; "LANG"; "ANTHROPIC_API_KEY"; "ANTHROPIC_AUTH_TOKEN"; "ANTHROPIC_BASE_URL";
   "CLAUDE_CODE_USE_BEDROCK"; "CLAUDE_CODE_USE_VERTEX"; "AWS_REGION"; "AWS_PROFILE"; "GOOGLE_CLOUD_PROJECT"].
Definition stepEnvVars : list string := ["PATH"; "HOME"; "TMPDIR"; "LANG"].

Fixpoint inheritedEnv (names : list string) : cli (list string) :=
  match names with
  | [] => Ret []
  | name :: names =>
      let! value := Do (LookupEnv name) in
      let! env := inheritedEnv names in
      Ret match value with Some value => (name +:+ "=" +:+ value) :: env | None => env end
  end.

Definition openDeployment (f : flags) (cfg : Config) (catalog : McpCatalog.Catalog) : cli (gerror + deployment) :=
  let! opened := Do (OpenRecord (Secrets cfg)) in
  match opened with
  | Some err => Ret (inl err)
  | None =>
      let executable := if String.eqb (f_agent f) "" then "claude" else f_agent f in
      let! backend := openCoordination cfg in
      match backend with
      | inl err => let! _ := Do CloseRecord in Ret (inl err)
      | inr backend =>
          let! host := hostName in
          let! instance := instanceID in
          let! agentEnv := inheritedEnv agentEnvVars in
          let! stepEnv := inheritedEnv stepEnvVars in
          Ret (inr (mkDeployed cfg catalog backend executable agentEnv stepEnv host instance false None None))
      end
  end.

Definition close (d : deployment) : cli unit :=
  let! _ := if d_instance d then Do CloseInstance else Ret tt in
  let! _ := coordination_close (d_coordination d) in
  Do CloseRecord.

(** What is deferred until the function returns. *)
Definition deferring {A} (later : cli unit) (p : cli A) : cli A := let! a := p in let! _ := later in Ret a.

(** Every command that has a configuration has it non-nil, and so its catalogues. *)
Definition capabilities (cfg : Config) (catalog : McpCatalog.Catalog) (declared : Collections.Catalog) (srcs : Catalog) : Deployment :=
  mkDeployment (McpCatalog.Names catalog) Sinks.Types Sinks.CreatingTypes (Collections.Names declared) (Keys cfg) (Sources.Names srcs).

Definition acceptWaiting (d : deployment) (cfg : Config) (catalog : McpCatalog.Catalog) (declared : Collections.Catalog) (srcs : Catalog)
  : cli (gerror + deployment) :=
  let! held := Do (HoldInstance (d_instanceID d)) in
  Ret match held with
      | Some err => inl err
      | None =>
          inr (mkDeployed (d_config d) (d_catalog d) (d_coordination d) (d_agent d) (d_agentEnv d) (d_stepEnv d) (d_host d)
                 (d_instanceID d) true (Some (capabilities cfg catalog declared srcs)) (d_retrieve d))
      end.

Definition retrieving (declared : Collections.Catalog) (d : deployment) : deployment :=
  mkDeployed (d_config d) (d_catalog d) (d_coordination d) (d_agent d) (d_agentEnv d) (d_stepEnv d) (d_host d)
    (d_instanceID d) (d_instance d) (d_slot d) (Some declared).

Definition playbooksDir (f : flags) : string :=
  if String.eqb (f_playbooks f) "" then Join [f_stateDir f; "playbooks"] else f_playbooks f.

Fixpoint complain_all (lines : list string) : cli unit :=
  match lines with [] => Ret tt | line :: lines => let! _ := Do (Complain line) in complain_all lines end.

Definition refusal_lines (refusal : Loader.Refusal) : list string :=
  ["refused: " +:+ Base (Loader.r_Path refusal)] ++
  match Reason refusal with Some reason => ["  " +:+ reason] | None => [] end ++
  map (λ problem, "  " +:+ Problem_Error problem) (Problems refusal) ++ [""].

Definition counted_refusals (loaded : Loaded) : string := show_nat (length (Refusals loaded)) +:+ " playbook(s) refused".

Definition loadPlaybooks (f : flags) (cfg : Config) (catalog : McpCatalog.Catalog) (declared : Collections.Catalog) (srcs : Catalog)
  : cli (gerror + Loaded) :=
  let! loaded := Do (LoadDirectory (playbooksDir f) (capabilities cfg catalog declared srcs)) in
  match loaded with
  | inl err => Ret (inl err)
  | inr loaded =>
      if OK loaded then Ret (inr loaded)
      else
        let! _ := complain_all (concat (map refusal_lines (Refusals loaded))) in
        let! _ := Do (Complain (counted_refusals loaded +:+ ", " +:+ show_nat (length (Playbooks loaded))
                                +:+ " accepted. Nothing was armed.")) in
        Ret (inl (Text (counted_refusals loaded)))
  end.

Definition interpolator (cfg : Config) (text : string) : gerror + string :=
  match Interpolate cfg text ∅ with inl problems => inl (Text (join problems nl)) | inr text => inr text end.

Definition openResolvableCatalog (cfg : Config) : cli (gerror + McpCatalog.Catalog) :=
  let! catalog := Do OpenCatalog in
  Ret match catalog with
      | inl err => inl err
      | inr catalog =>
          match McpCatalog.CheckReferences (interpolator cfg) catalog with Some err => inl err | None => inr catalog end
      end.
