(* ===== verification/Serve.v ===== *)
(** [gronin serve] and what the scheduler calls of it: [serve_cmd.go] of
    [src/runtime/cmd/gronin]. *)
From S2P Require Import Prelude GoStr GoTime GoErr GoPath Config Schedule Playbook Gate Loader.
From S2P Require Import Records Sources Eff Cli.
From S2P Require Api Host AgentRun.
From S2P Require McpCatalog Collections.

Definition firstWebhookPlaybook (loaded : Loaded) : option string :=
  (λ book, Base (p_Path book)) <$> List.find (λ book, String.eqb (t_Type (p_Trigger book)) "webhook") (Playbooks loaded).

(** What the scheduler is told of an occurrence: the error it records as missed. *)
Definition scheduledOutcome (finished : gerror + Run) : option gerror :=
  match finished with
  | inl err => match as_refused err with Some _ => None | None => Some err end
  | inr finished =>
      if String.eqb (u_ID finished) "" then Some (Text "the occurrence produced no run and no error") else None
  end.

Definition status_of (finished : gerror + Run) : string := match finished with inr run => u_Status run | inl _ => "" end.

Definition fire (d : deployment) (loaded : Loaded) (name : string) (dueAt : Z) : cli (option gerror) :=
  match Find loaded name with
  | None => Ret (Some (Text ("no playbook named " +:+ quote name)))
  | Some book =>
      let! finished := Do (Execute d book (Host.mkTrigger TriggerSchedule dueAt None false)) in
      match scheduledOutcome finished with
      | Some err => Ret (Some err)
      | None =>
          let! _ := if negb (String.eqb (status_of finished) StatusSucceeded)
                    then Do (Warn "a scheduled run did not succeed") else Ret tt in
          Ret None
      end
  end.

(** The schedules armed, each from the instant it is added at. *)
Fixpoint arm (books : list Playbook) (armed : gmap string Schedule.entry) : cli (gerror + gmap string Schedule.entry) :=
  match books with
  | [] => Ret (inr armed)
  | book :: books =>
      if negb (String.eqb (t_Type (p_Trigger book)) "cron") then arm books armed
      else
        let! parsed := Do (ParseSchedule (t_Schedule (p_Trigger book))) in
        match parsed with
        | inl err => Ret (inl (wrap_before (Name book) err))
        | inr next => let! now := Do Now in arm books (Add (Name book) next now armed)
        end
  end.

Definition cron_playbooks (loaded : Loaded) : list Playbook :=
  List.filter (λ book, String.eqb (t_Type (p_Trigger book)) "cron") (Playbooks loaded).

Definition say_if (b : bool) (line : string) : cli unit := if b then Do (Say line) else Ret tt.

Definition canceled : gerror := Sentinel "context canceled".

Section serve.
(** The text of an address [net.SplitHostPort] refuses. *)
Context (refused : string → gerror).

Definition api_token (cfg : Config) : string := match Get cfg "api_token" with Some value => value_text value | None => "" end.

(** What follows the arming: the API bound and served beside the scheduler's loop. *)
Definition listening (f : flags) (d : deployment) (loaded : Loaded) (armed : gmap string Schedule.entry) : cli (option failure) :=
  let token := api_token (d_config d) in
  match Api.CheckAddress refused (f_apiAddress f) token with
  | Some err => Ret (Some (Loud err))
  | None =>
      let! listener := Do (Listen (f_apiAddress f)) in
      match listener with
      | inl err => Ret (Some (Loud (wrap_before "binding the API" err)))
      | inr address =>
          let! _ := Do (StartAPI token) in
          deferring (Do StopAPI)
            (let! _ := Do (Say ("API on " +:+ address)) in
             let! err := Do (RunScheduler d loaded armed) in
             if errors_is err canceled then
               let! _ := Do (Say "stopping; runs in flight are marked interrupted on the next start") in Ret None
             else Ret (Some (Loud err)))
      end
  end.

(** What follows opening the deployment. *)
Definition serving (f : flags) (d : deployment) (loaded : Loaded) : cli (option failure) :=
  let! _ := Do (Say (describe (d_coordination d))) in
  let! asked := reachable (d_coordination d) in
  let! _ := match asked with Some err => Do (Say (unreachable (d_coordination d) err)) | None => Ret tt end in
  let? version := Do (CheckAgent (d_agent d)) in
  let? source := Do (ProbeCredential (d_agent d) (d_agentEnv d) (f_stateDir f)) in
  let! _ := Do (Say (if String.eqb source AgentRun.SourceNotNamed
                     then "agent " +:+ version +:+ ", authenticated; the agent named no credential source"
                     else "agent " +:+ version +:+ ", credential from " +:+ source)) in
  let? interrupted := Do MarkRunningAsInterrupted in
  let! _ := say_if (0 <? interrupted) ("marked " +:+ show_Z interrupted +:+ " interrupted run(s) from a previous process") in
  let? dropped := Do Reconcile in
  let! _ := say_if (0 <? dropped)
              ("marked " +:+ show_Z dropped +:+ " waiting trigger(s) dropped: their process ended before they ran") in
  let? armed := arm (Playbooks loaded) ∅ in
  let! _ := Do (Say ("armed " +:+ show_nat (length (cron_playbooks loaded)) +:+ " schedule(s) of "
                     +:+ show_nat (length (Playbooks loaded)) +:+ " playbook(s) from " +:+ playbooksDir f)) in
  listening f d loaded armed.

Definition serve (f : flags) : cli (option failure) :=
  let? cfg := Do OpenConfig in
  let? catalog := openResolvableCatalog cfg in
  let? declared := Do OpenCollections in
  let? srcs := Do (OpenSources cfg) in
  let? loaded := loadPlaybooks f cfg catalog declared srcs in
  match firstWebhookPlaybook loaded with
  | Some name =>
      let err := Text ("refused: " +:+ name +:+ " has a webhook trigger, and no ingress exists yet") in
      let! _ := Do (Complain (Error err)) in
      let! _ := Do (Complain "Nothing was armed.") in
      Ret (Some (Silent err))
  | None =>
      let! opened := openDeployment f cfg catalog in
      match opened with
      | inl err =>
          let! _ := Do (Complain (Error err)) in
          let! _ := Do (Complain "Nothing was armed.") in
          Ret (Some (Silent err))
      | inr d => deferring (close d) (serving f (retrieving declared d) loaded)
      end
  end.
End serve.

(** ** What holds of [gronin serve]: nothing is bound and no schedule is armed before everything it
    is armed with has been loaded, accepted and checked. *)

(** ** What a serving process has established *)

Record progress := mkProgress {
  g_config : option Config; g_catalog : option McpCatalog.Catalog; g_collections : option Collections.Catalog;
  g_sources : option Sources.Catalog; g_loaded : option (Deployment * Loaded);
  g_record : bool; g_agent : bool; g_credential : bool; g_interrupted : bool; g_reconciled : bool;
  g_parsed : list (string * (Z → Z)); g_bound : option string }.

Definition nothing_yet : progress := mkProgress None None None None None false false false false false [] None.

Definition got {A B} (x : A + B) : option B := match x with inr b => Some b | inl _ => None end.
Definition went {A B} (x : A + B) : bool := match x with inr _ => true | inl _ => false end.

(** What each answer adds. *)
Definition learned (g : progress) (e : event (Sg := cli_sig)) : progress :=
  let '(mkProgress config catalog collections sources loaded record agent credential interrupted reconciled parsed bound) := g in
  (match projT1 e as c return cli_resp c → progress with
   | OpenConfig => λ x, mkProgress (got x) catalog collections sources loaded record agent credential interrupted reconciled parsed bound
   | OpenCatalog => λ x, mkProgress config (got x) collections sources loaded record agent credential interrupted reconciled parsed bound
   | OpenCollections => λ x, mkProgress config catalog (got x) sources loaded record agent credential interrupted reconciled parsed bound
   | OpenSources _ => λ x, mkProgress config catalog collections (got x) loaded record agent credential interrupted reconciled parsed bound
   | LoadDirectory _ dep =>
       λ x, mkProgress config catalog collections sources (pair dep <$> got x) record agent credential interrupted reconciled parsed bound
   | OpenRecord _ =>
       λ x, mkProgress config catalog collections sources loaded match x with None => true | Some _ => false end
              agent credential interrupted reconciled parsed bound
   | CheckAgent _ => λ x, mkProgress config catalog collections sources loaded record (went x) credential interrupted reconciled parsed bound
   | ProbeCredential _ _ _ => λ x, mkProgress config catalog collections sources loaded record agent (went x) interrupted reconciled parsed bound
   | MarkRunningAsInterrupted => λ x, mkProgress config catalog collections sources loaded record agent credential (went x) reconciled parsed bound
   | Reconcile => λ x, mkProgress config catalog collections sources loaded record agent credential interrupted (went x) parsed bound
   | ParseSchedule text =>
       λ x, mkProgress config catalog collections sources loaded record agent credential interrupted reconciled
              (parsed ++ match x with inr next => [(text, next)] | inl _ => [] end) bound
   | Listen address =>
       λ x, mkProgress config catalog collections sources loaded record agent credential interrupted reconciled parsed
              (if went x then Some address else bound)
   | _ => λ _, g
   end) (projT2 e).

(** Every file the deployment names was read and accepted, its playbooks under exactly the
    capabilities those files give, and none of them waits for a webhook. *)
Definition accepted (g : progress) (cfg : Config) (declared : Collections.Catalog) (loaded : Loaded) : Prop :=
  ∃ catalog srcs,
    g_config g = Some cfg ∧ g_catalog g = Some catalog ∧ McpCatalog.CheckReferences (interpolator cfg) catalog = None ∧
    g_collections g = Some declared ∧ g_sources g = Some srcs ∧
    g_loaded g = Some (capabilities cfg catalog declared srcs, loaded) ∧ OK loaded = true ∧
    Forall (λ book, t_Type (p_Trigger book) ≠ "webhook") (Playbooks loaded).

(** Then the record was opened, the agent checked, and the record put in order. *)
Definition ready (g : progress) (d : deployment) (loaded : Loaded) : Prop :=
  ∃ declared, accepted g (d_config d) declared loaded ∧ d_retrieve d = Some declared ∧ g_record g = true ∧
    g_agent g = true ∧ g_credential g = true ∧ g_interrupted g = true ∧ g_reconciled g = true.

(** The schedules armed are those of the playbooks with one, each as it was parsed. *)
Definition arms (g : progress) (loaded : Loaded) (armed : gmap string Schedule.entry) : Prop :=
  (∀ book, book ∈ cron_playbooks loaded → is_Some (armed !! Name book)) ∧
  ∀ name e, armed !! name = Some e → e_name e = name ∧
    ∃ book, book ∈ cron_playbooks loaded ∧ Name book = name ∧ (t_Schedule (p_Trigger book), e_next e) ∈ g_parsed g.

Section serve.
Context (refused : string → gerror) (f : flags).

Definition may (g : progress) (c : cli_cmd) : Prop :=
  match c with
  | OpenRecord secrets => ∃ cfg declared loaded, accepted g cfg declared loaded ∧ secrets = Secrets cfg
  | DialEtcd _ => g_record g = true
  | MarkRunningAsInterrupted | Reconcile => g_record g = true ∧ g_agent g = true ∧ g_credential g = true
  | Listen address =>
      address = f_apiAddress f ∧
      ∃ d loaded, ready g d loaded ∧ Api.CheckAddress refused address (api_token (d_config d)) = None
  | StartAPI token =>
      g_bound g = Some (f_apiAddress f) ∧
      ∃ d loaded, ready g d loaded ∧ token = api_token (d_config d) ∧ Api.CheckAddress refused (f_apiAddress f) token = None
  | RunScheduler d loaded armed => ready g d loaded ∧ arms g loaded armed
  | Execute _ _ _ | Replay _ _ _ | Resume _ _ _ => False
  | _ => True
  end.

Definition learns {A} (p : cli A) (g : progress) (Q : A → progress → Prop) : Prop := monitored (Sg := cli_sig) may learned p g Q.

Lemma learns_bind {A B} (p : cli A) (k : A → cli B) g Q : learns p g (λ a g, learns (k a) g Q) → learns (bind p k) g Q.
Proof. apply (monitored_bind (Sg := cli_sig)). Qed.
Lemma learns_ret {A} (a : A) g (Q : A → progress → Prop) : Q a g → learns (Ret a) g Q.
Proof. done. Qed.
Lemma learns_do c g (Q : cli_resp c → progress → Prop) : may g c → (∀ x, Q x (learned g (did c x))) → learns (Do c) g Q.
Proof. apply (monitored_call (Sg := cli_sig)). Qed.
Lemma learns_impl {A} (p : cli A) g (Q Q' : A → progress → Prop) : learns p g Q → (∀ a g, Q a g → Q' a g) → learns p g Q'.
Proof. apply (monitored_impl (Sg := cli_sig)). Qed.

Ltac one_call :=
  match goal with
  | |- learns (bind _ _) _ _ => apply learns_bind
  | |- learns (Ret _) _ _ => apply learns_ret
  | |- learns (Do _) _ _ => apply learns_do; [by repeat split|intros ?]; cbn [learned did ev projT1 projT2 got went]
  end.
Ltac calls := repeat first [progress cbv beta iota | one_call].
Ltac answered := match goal with x : cli_resp _ |- _ => destruct x as [?|?] end; calls; [done|].

(** *** Parts that establish nothing more *)

Definition idle {A} (p : cli A) : Prop := ∀ g (Q : A → progress → Prop), (∀ a, Q a g) → learns p g Q.

Lemma idle_complain_all lines : idle (complain_all lines).
Proof.
  intros g Q HQ. induction lines as [|line lines IH]; cbn [complain_all]; [by apply learns_ret|]. destruct g. by calls.
Qed.

Lemma idle_inheritedEnv names : idle (inheritedEnv names).
Proof.
  intros g Q HQ. revert Q HQ. induction names as [|name names IH]; intros Q HQ; cbn [inheritedEnv]; [by apply learns_ret|].
  destruct g. calls. apply IH. intros env. by calls.
Qed.

Lemma idle_openCoordination cfg g (Q : gerror + coordination → progress → Prop) : g_record g = true →
  (∀ a, Q a g) → learns (openCoordination cfg) g Q.
Proof.
  intros Hg HQ. unfold openCoordination. destruct g. simpl in Hg. subst. calls.
  destruct x as [err|[declared [|]]]; calls; [done| |done].
  destruct (GuardConfig.Etcd declared); [|by split]. by calls.
Qed.

Lemma idle_close d : idle (close d).
Proof.
  intros g Q HQ. unfold close, coordination_close. destruct g, (d_instance d), (k_configured (d_coordination d)); by calls.
Qed.

Definition opened (g : progress) (secrets : list string) : progress := learned g (did (OpenRecord secrets) None).

(** The deployment's configuration is the one it was opened with. *)
Lemma learns_openDeployment cfg catalog declared loaded g (Q : gerror + deployment → progress → Prop) : accepted g cfg declared loaded →
  (∀ err g', Q (inl err) g') → (∀ d, d_config d = cfg → Q (inr d) (opened g (Secrets cfg))) → learns (openDeployment f cfg catalog) g Q.
Proof.
  intros Ha Hl Hr. unfold openDeployment. apply learns_bind, learns_do; [by exists cfg, declared, loaded|].
  intros [err|]; [by calls|]. apply learns_bind. unfold opened in Hr. destruct g. cbn [learned did ev projT1 projT2] in *.
  apply idle_openCoordination; [done|]. intros [err|backend]; calls; [done|]. unfold hostName, instanceID. calls.
  apply idle_inheritedEnv. intros agentEnv. calls. apply idle_inheritedEnv. intros stepEnv. calls. by apply Hr.
Qed.

Lemma learns_openResolvableCatalog cfg g (Q : gerror + McpCatalog.Catalog → progress → Prop) :
  (∀ err g', Q (inl err) g') →
  (∀ catalog, McpCatalog.CheckReferences (interpolator cfg) catalog = None → Q (inr catalog) (learned g (did OpenCatalog (inr catalog)))) →
  learns (openResolvableCatalog cfg) g Q.
Proof.
  intros Hl Hr. unfold openResolvableCatalog. destruct g. calls. destruct x as [err|catalog]; [done|].
  destruct (McpCatalog.CheckReferences _ _) eqn:E; [done|]. by apply Hr.
Qed.

Lemma learns_loadPlaybooks cfg catalog declared srcs g (Q : gerror + Loaded → progress → Prop) :
  (∀ err g', Q (inl err) g') →
  (∀ loaded, OK loaded = true →
     Q (inr loaded) (learned g (did (LoadDirectory (playbooksDir f) (capabilities cfg catalog declared srcs)) (inr loaded)))) →
  learns (loadPlaybooks f cfg catalog declared srcs) g Q.
Proof.
  intros Hl Hr. unfold loadPlaybooks. destruct g. calls. destruct x as [err|loaded]; calls; [done|].
  destruct (OK loaded) eqn:E; calls; [by apply Hr|]. apply idle_complain_all. intros _. calls. done.
Qed.

(** *** Arming *)

Definition parsed_more (g : progress) (parsed : list (string * (Z → Z))) : progress :=
  mkProgress (g_config g) (g_catalog g) (g_collections g) (g_sources g) (g_loaded g) (g_record g) (g_agent g)
    (g_credential g) (g_interrupted g) (g_reconciled g) parsed (g_bound g).

Lemma learns_arm books : ∀ armed g (Q : gerror + gmap string Schedule.entry → progress → Prop) (before : list Playbook),
  (∀ book, book ∈ before → is_Some (armed !! Name book)) →
  (∀ name e, armed !! name = Some e → e_name e = name ∧
     ∃ book, book ∈ before ∧ Name book = name ∧ (t_Schedule (p_Trigger book), e_next e) ∈ g_parsed g) →
  (∀ err g', Q (inl err) g') →
  (∀ armed' parsed,
     let all := before ++ List.filter (λ book, String.eqb (t_Type (p_Trigger book)) "cron") books in
     (∀ book, book ∈ all → is_Some (armed' !! Name book)) →
     (∀ name e, armed' !! name = Some e → e_name e = name ∧
        ∃ book, book ∈ all ∧ Name book = name ∧ (t_Schedule (p_Trigger book), e_next e) ∈ parsed) →
     Q (inr armed') (parsed_more g parsed)) →
  learns (arm books armed) g Q.
Proof.
  induction books as [|book books IH]; intros armed g Q before Hb Ha Hl Hr; cbn [arm].
  { apply learns_ret. specialize (Hr armed (g_parsed g)). cbn [List.filter] in Hr. rewrite app_nil_r in Hr.
    destruct g. by apply Hr. }
  cbn [List.filter] in Hr. destruct (String.eqb _ _) eqn:E; cbn [negb]; [|by apply (IH armed g Q before)].
  destruct g. calls. destruct x as [err|next]; calls; [done|]. apply (IH _ _ Q (before ++ [book])).
  - intros b [Hb'|Hb'%list_elem_of_singleton]%elem_of_app; unfold Add; [|subst; by rewrite lookup_insert_eq].
    destruct (decide (Name book = Name b)) as [->|]; [by rewrite lookup_insert_eq|]. rewrite lookup_insert_ne by done. by apply Hb.
  - intros name e. unfold Add. cbn [g_parsed]. destruct (decide (Name book = name)) as [<-|Hne].
    + rewrite lookup_insert_eq. clear Ha. intros [= <-]. split; [done|]. exists book. set_solver.
    + rewrite lookup_insert_ne by done. intros He. destruct (Ha _ _ He) as (Hn & b & Hin & Hname & Hp). split; [done|].
      exists b. cbn [g_parsed] in Hp. set_solver.
  - done.
  - intros armed' parsed all H1 H2. unfold parsed_more. cbn. revert H1 H2. unfold all. rewrite <- app_assoc. apply Hr.
Qed.

(** *** The whole *)

Lemma learns_listening d loaded armed g : ready g d loaded → arms g loaded armed →
  learns (listening refused f d loaded armed) g (λ _ _, True).
Proof.
  intros Hr Ha. unfold listening. destruct (Api.CheckAddress _ _ _) as [err|] eqn:Ec; [by apply learns_ret|].
  apply learns_bind, learns_do; [split; [done|]; by exists d, loaded|]. intros [err|address]; [by apply learns_ret|].
  apply learns_bind, learns_do.
  { destruct g. split; [done|]. exists d, loaded. split; [exact Hr|done]. }
  intros started. unfold deferring. apply learns_bind, learns_bind, learns_do; [done|]. intros said.
  apply learns_bind, learns_do; [by destruct g|]. intros err. destruct started, said.
  destruct (errors_is err canceled); by calls.
Qed.

Lemma learns_serving d loaded g : g_parsed g = [] → g_record g = true →
  (∃ declared, accepted g (d_config d) declared loaded ∧ d_retrieve d = Some declared) →
  learns (serving refused f d loaded) g (λ _ _, True).
Proof.
  intros Hp Hrec Hr. unfold serving. destruct g as [config catalog collections sources loaded' record agent credential interrupted reconciled parsed bound].
  simpl in Hp, Hrec. subst. calls.
  assert (idle (reachable (d_coordination d))) as Hreach.
  { intros g Q HQ. unfold reachable. destruct g, (negb _); by calls. }
  apply Hreach. intros asked. calls.
  assert (idle (match asked with Some err => Do (Say (unreachable (d_coordination d) err)) | None => Ret tt end)) as Hasked.
  { intros g Q HQ. destruct g, asked; by calls. }
  assert (∀ b line, idle (say_if b line)) as Hsay.
  { intros b line g Q HQ. unfold say_if. destruct g, b; by calls. }
  apply Hasked. intros _. calls. answered. answered. answered. apply Hsay. intros _. calls. answered.
  apply Hsay. intros _. calls. apply (learns_arm _ _ _ _ []).
  - by intros book ?%elem_of_nil.
  - by intros name e; rewrite lookup_empty.
  - intros err g'. by calls.
  - intros armed parsed all H1 H2. unfold parsed_more. calls. apply learns_listening; [|by split].
    destruct Hr as (declared & Ha & Hd). exists declared. by split.
Qed.

Lemma learns_serve : learns (serve refused f) nothing_yet (λ _ _, True).
Proof.
  unfold serve, nothing_yet. calls. destruct x as [err|cfg]; calls; [done|].
  apply learns_openResolvableCatalog; [intros err g; by calls|]. intros catalog Hcat. calls.
  destruct x as [err|declared]; calls; [done|]. destruct x as [err|srcs]; calls; [done|].
  apply learns_loadPlaybooks; [intros err g; by calls|]. intros loaded Hok. calls.
  unfold firstWebhookPlaybook. destruct (List.find _ (Playbooks loaded)) as [book|] eqn:Ew; [by calls|]. cbn [fmap option_fmap option_map].
  match goal with |- learns _ ?g _ => assert (accepted g cfg declared loaded) as Hacc end.
  { exists catalog, srcs. split_and!; try done. apply Forall_forall. intros b Hb Hweb. apply list_elem_of_In in Hb.
    apply (find_none _ _ Ew) in Hb. by rewrite Hweb in Hb. }
  apply learns_bind, (learns_openDeployment cfg catalog declared loaded); [exact Hacc|intros err [] ; by calls|].
  intros d Hd. unfold deferring. apply learns_bind.
  eapply learns_impl; [apply learns_serving|].
  - done.
  - done.
  - exists declared. cbn. rewrite Hd. split; [exact Hacc|done].
  - intros a g _. apply learns_bind, idle_close. intros _. by apply learns_ret.
Qed.

End serve.
