(* ===== verification/Commands.v ===== *)
(** The commands that run a playbook, read the record and keep the configuration: [run_cmd.go],
    [records_cmd.go], [refusals_cmd.go], [validate_cmd.go], [config_cmd.go], [mcp_cmd.go] and
    [sources_cmd.go], with [statedir.go], [statedir_cmd.go] and [version.go], of [src/runtime/cmd/gronin]. *)
From S2P Require Import Prelude GoStr GoTime GoErr GoPath GoJson GoRunes Config Schedule Playbook Gate Values Loader.
From S2P Require Import Redact Records Store RunRecords Sources Eff Cli.
From S2P Require McpCatalog Collections Host Retrieve Guard GuardConfig AgentRun.
From Stdlib Require QArith.

(** ** Printing *)

(** [%-30s] and [%8s]: spaces up to a width counted in characters. *)
Definition spaces_to (width : Z) (s : string) : string := String.concat "" (repeat " " (Z.to_nat (width - rune_count s))).
Definition padded (width : Z) (s : string) : string := s +:+ spaces_to width s.
Definition padded_left (width : Z) (s : string) : string := spaces_to width s +:+ s.

Definition duration (one : Run) : string :=
  if IsZero (u_EndedAt one) then "-"
  else Duration_String (round_to (time_sub (u_EndedAt one) (u_StartedAt one)) Millisecond).

Definition waitedFor (one : Run) : string := HumanDuration (i64 (u_WaitedMS one * Millisecond)).

Definition cost (one : Run) : string :=
  if QArith_base.Qeq_bool (u_CostUSD one) (QArith_base.inject_Z 0) then "$0" else "$" +:+ Retrieve.format4 (u_CostUSD one).

Definition run_line (one : Run) : string :=
  padded 30 (u_ID one) +:+ " " +:+ padded 12 (u_PlaybookName one) +:+ " " +:+ padded 9 (u_Status one) +:+ " "
  +:+ padded 8 (u_TriggerKind one) +:+ " " +:+ padded_left 8 (duration one) +:+ "  " +:+ cost one.

Definition refusal_line (one : Records.Refusal) : string :=
  rfc3339 (f_RefusedAt one) +:+ "  " +:+ padded 12 (f_PlaybookName one) +:+ " " +:+ padded 8 (f_TriggerKind one) +:+ " "
  +:+ padded 19 (f_Mechanism one) +:+ " " +:+ f_Detail one.

Fixpoint say_all (lines : list string) : cli unit :=
  match lines with [] => Ret tt | line :: lines => let! _ := Do (Say line) in say_all lines end.

(** ** What every command begins with *)

(** The configuration, the catalogue as it is, and the deployment around them, closed when the
    command ends. *)
Definition with_deployment (f : flags) (k : Config → McpCatalog.Catalog → deployment → cli (option failure)) : cli (option failure) :=
  let? cfg := Do OpenConfig in
  let? catalog := Do OpenCatalog in
  let? d := openDeployment f cfg catalog in
  deferring (close d) (k cfg catalog d).

(** The files a playbook is loaded against. *)
Definition with_playbooks (f : flags) (refused : gerror → failure)
    (k : Config → McpCatalog.Catalog → Collections.Catalog → Catalog → Loaded → cli (option failure)) : cli (option failure) :=
  let? cfg := Do OpenConfig in
  let? catalog := openResolvableCatalog cfg in
  let? declared := Do OpenCollections in
  let? srcs := Do (OpenSources cfg) in
  let! loaded := loadPlaybooks f cfg catalog declared srcs in
  match loaded with inl err => Ret (Some (refused err)) | inr loaded => k cfg catalog declared srcs loaded end.

(** ** [run_cmd.go] *)

Definition unnamedHolder : string := "held by another process".

Definition waitingLine (playbookName : string) (holder : option Holder) (upTo : Z) : string :=
  playbookName +:+ " is running (" +:+ match holder with Some holder => Holder_String holder | None => unnamedHolder end
  +:+ "); waiting up to " +:+ HumanDuration upTo.

Definition errNotSucceeded (status : string) : gerror := Text ("the run " +:+ status).

(** [check] is the check a delivery's values go through. *)
Definition checkedManualValues (check : Playbook → gmap string any → list ValueRefusal + gmap string string)
    (book : Playbook) (values : gmap string string) : gerror + gmap string string :=
  let declared := t_Values (p_Trigger book) in
  let accepted :=
    match sorted_keys declared with [] => "nothing; this trigger declares no values" | names => join names ", " end in
  match List.find (λ name, negb (bool_decide (is_Some (declared !! name)))) (sorted_keys values) with
  | Some name => inl (Text ("--trigger " +:+ name +:+ ": not a declared value; accepted: " +:+ accepted))
  | None =>
      match check book (AString <$> values) with
      | inl (refusal :: _) => inl (Text (Problem_Error (v_Problem refusal)))
      | inl [] => inr ∅
      | inr checked => inr checked
      end
  end.

(** The values a manual trigger is given, and the line a refusal of the guard is printed as. *)
Definition not_run (book : Playbook) (refused : string * string) : list string :=
  [Name book +:+ " was not run: " +:+ fst refused; "  " +:+ snd refused].

Definition finished_failure (finished : Run) : option failure :=
  if String.eqb (u_Status finished) StatusSucceeded then None else Some (Loud (errNotSucceeded (u_Status finished))).

Definition finished_lines (finished : Run) (waited : string) : list string :=
  (u_ID finished +:+ " " +:+ u_Status finished +:+ waited)
    :: (if String.eqb (u_Error finished) "" then [] else ["  " +:+ u_Error finished]).

(** What is said of a run that was asked for; [waited] is said of one that finished. *)
Definition concluded (book : Playbook) (finished : gerror + Run) (waited : Run → cli string) : cli (option failure) :=
  match finished with
  | inl err =>
      match as_refused err with
      | Some refused => let! _ := say_all (not_run book refused) in Ret (Some (Silent err))
      | None => Ret (Some (Loud err))
      end
  | inr finished =>
      let! waited := waited finished in
      let! _ := say_all (finished_lines finished waited) in
      Ret (finished_failure finished)
  end.

Definition said_waited (finished : Run) : cli string :=
  let! recorded := Do (GetRun (u_ID finished)) in
  match recorded with
  | inl err => let! _ := Do (Warn "the run could not be read back to say whether it waited") in Ret ""
  | inr recorded => Ret (if String.eqb (u_WaitingTriggerID recorded) "" then "" else " (waited " +:+ waitedFor recorded +:+ ")")
  end.

(** The playbook run by hand, once its values are known. *)
Definition run_book (f : flags) (cfg : Config) (catalog : McpCatalog.Catalog) (declared : Collections.Catalog) (srcs : Catalog)
    (book : Playbook) (values : option (gmap string string)) : cli (option failure) :=
  let? d := openDeployment f cfg catalog in
  let! accepting := acceptWaiting d cfg catalog declared srcs in
  match accepting with
  | inl err => deferring (close d) (Ret (Some (Loud err)))
  | inr d =>
      let d := retrieving declared d in
      deferring (close d)
        (let! finished := Do (Execute d book (Host.mkTrigger TriggerManual 0 values true)) in
         concluded book finished said_waited)
  end.

Definition run (check : Playbook → gmap string any → list ValueRefusal + gmap string string) (f : flags) (name : string)
  : cli (option failure) :=
  with_playbooks f Loud (λ cfg catalog declared srcs loaded,
    match Find loaded name with
    | None =>
        Ret (Some (Loud (Text ("no playbook named " +:+ quote name +:+ "; loaded: [" +:+ join (Loader.Names loaded) " " +:+ "]"))))
    | Some book =>
        if String.eqb (t_Type (p_Trigger book)) "webhook" then
          match checkedManualValues check book (default ∅ (f_trigger f)) with
          | inl err => let! _ := Do (Complain (Error err)) in Ret (Some (Silent err))
          | inr checked => run_book f cfg catalog declared srcs book (Some checked)
          end
        else run_book f cfg catalog declared srcs book (f_trigger f)
    end).

(** ** [validate_cmd.go] *)

Definition validate (f : flags) (dir : option string) : cli (option failure) :=
  let f := mkFlags (f_stateDir f) (default (f_playbooks f) dir) (f_agent f) (f_apiAddress f) (f_limit f) (f_trigger f)
             (f_retrieval f) (f_secret f) in
  with_playbooks f Silent (λ _ _ _ _ loaded,
    let! _ := Do (Say (show_nat (length (Playbooks loaded)) +:+ " playbook(s) accepted from " +:+ playbooksDir f +:+ ".")) in Ret None).

(** ** [records_cmd.go] *)

Definition runs_ (f : flags) : cli (option failure) :=
  with_deployment f (λ _ _ _,
    let? runs := Do (ListRuns (f_limit f)) in
    let! _ := say_all (match runs with [] => ["no runs recorded"] | _ => map run_line runs end) in Ret None).

Definition outcome_text (retrieval : RunRecords.Retrieval) : string :=
  if String.eqb (v_Outcome retrieval) RetrievalFound then "found " +:+ show_nat (length (v_Items retrieval))
  else if String.eqb (v_Outcome retrieval) RetrievalRefused then "refused — " +:+ v_Error retrieval
  else v_Outcome retrieval.

Definition retrieval_lines (retrieval : RunRecords.Retrieval) : list string :=
  let searched :=
    if String.eqb (v_Generation retrieval) "" then ""
    else " generation " +:+ str_take 12 (v_Generation retrieval) +:+ " built " +:+ rfc3339 (v_GenerationBuiltAt retrieval) in
  let cut :=
    (if v_QueryTruncated retrieval then ["the query"] else []) ++
    (if v_CountTruncated retrieval then ["the result count"] else []) ++
    (if v_BytesTruncated retrieval then ["the bytes"] else []) in
  ["retrieved " +:+ v_AsName retrieval +:+ " from " +:+ v_Collection retrieval +:+ " (" +:+ v_Mode retrieval +:+ ")"
   +:+ searched +:+ ": " +:+ outcome_text retrieval] ++
  (if String.eqb (v_Query retrieval) "" then []
   else ["  query     " +:+ Retrieve.Printable (join (Fields (v_Query retrieval)) " ")]) ++
  (match cut with [] => [] | _ => ["  cut       " +:+ join cut ", "] end) ++
  map (λ item, "  result    " +:+ show_Z (j_Rank item) +:+ "  " +:+ Retrieve.format4 (j_Score item) +:+ "  " +:+ j_Source item
               +:+ "#" +:+ show_Z (j_Ordinal item)) (v_Items retrieval).

Fixpoint write_retrieval (runID name : string) (retrievals : list RunRecords.Retrieval) : cli (option failure) :=
  match retrievals with
  | [] => Ret (Some (Loud (Text ("run " +:+ runID +:+ " has no retrieval named " +:+ quote name))))
  | retrieval :: retrievals =>
      if negb (String.eqb (v_AsName retrieval) name) then write_retrieval runID name retrievals
      else if String.eqb (v_ResultsRef retrieval) "" then
        Ret (Some (Loud (Text ("run " +:+ runID +:+ "'s retrieval " +:+ name +:+ " was refused and handed the agent nothing: "
                               +:+ v_Error retrieval))))
      else let? data := Do (GetBlob (v_ResultsRef retrieval)) in let! err := Do (Write data) in Ret (Loud <$> err)
  end.
Definition writeRetrieval (runID name : string) : cli (option failure) :=
  let? retrievals := Do (Retrievals runID) in write_retrieval runID name retrievals.

Definition line_if (shown : bool) (line : string) : list string := if shown then [line] else [].
Definition some_text (s : string) : bool := negb (String.eqb s "").

Definition head_lines (one : Run) : list string :=
  ["run       " +:+ u_ID one; "playbook  " +:+ u_PlaybookName one; "status    " +:+ u_Status one;
   "trigger   " +:+ u_TriggerKind one] ++
  line_if (some_text (u_WaitingTriggerID one)) ("waited    " +:+ waitedFor one) ++
  line_if (some_text (u_ClaimReach one)) ("guarantee " +:+ u_ClaimReach one) ++
  line_if (some_text (u_ParentRunID one)) ("derives   " +:+ u_ParentRunID one) ++
  ["started   " +:+ rfc3339 (u_StartedAt one)] ++
  line_if (negb (IsZero (u_EndedAt one))) ("took      " +:+ duration one) ++
  ["cost      " +:+ cost one +:+ " over " +:+ show_Z (u_Tokens one) +:+ " tokens"] ++
  line_if (some_text (u_CredentialSource one)) ("credential " +:+ u_CredentialSource one) ++
  line_if (some_text (u_Error one)) ("error     " +:+ u_Error one).

(** The blobs, which a map holds and so in any order; [refs] is one. *)
Definition ref_lines (one : Run) : list string :=
  concat (map (λ '(label, ref), line_if (some_text ref) (padded 9 label +:+ " " +:+ ref))
    [("prompt", u_PromptRef one); ("report", u_ReportRef one); ("playbook-as-run", u_ResolvedPlaybookRef one)]).

Definition show (f : flags) (id : string) : cli (option failure) :=
  with_deployment f (λ _ _ _,
    let? one := Do (GetRun id) in
    if some_text (f_retrieval f) then writeRetrieval (u_ID one) (f_retrieval f)
    else
      let! _ := say_all (head_lines one) in
      let? inputs := Do (GatheredInputs (u_ID one)) in
      let! _ := say_all (map (λ input, "gathered  " +:+ i_Name input +:+ " " +:+ show_Z (i_Bytes input) +:+ " bytes exit "
                                       +:+ show_Z (i_ExitCode input) +:+ (if i_Truncated input then " (truncated)" else "")) inputs) in
      let? retrievals := Do (Retrievals (u_ID one)) in
      let! _ := say_all (concat (map retrieval_lines retrievals)) in
      let? calls := Do (ToolCalls (u_ID one)) in
      let! _ := say_all (map (λ call, "tool      " +:+ show_Z (t_Sequence call) +:+ " " +:+ t_Name call +:+ " " +:+ t_Outcome call) calls) in
      let? refused := Do (RefusedActions (u_ID one)) in
      let! _ := say_all (map (λ action, "refused   " +:+ a_Tool action +:+ ": " +:+ a_Asked action) refused) in
      let? outcomes := Do (SinkOutcomes (u_ID one)) in
      let! _ := say_all (map (λ outcome, "sink      " +:+ k_Sink outcome +:+ " " +:+ k_Status outcome
                                         +:+ (if some_text (k_Detail outcome) then " — " +:+ k_Detail outcome else "")) outcomes) in
      let! _ := say_all (ref_lines one) in
      Ret None).

(** [replay] and [resume], which differ in [ask]. *)
Definition fromRecord (f : flags) (ask : deployment → string → Playbook → cli (gerror + Run)) (id : string) : cli (option failure) :=
  with_deployment f (λ cfg catalog d,
    let? parent := Do (GetRun id) in
    let? declared := Do OpenCollections in
    let? srcs := Do (OpenSources cfg) in
    let! loaded := loadPlaybooks f cfg catalog declared srcs in
    match loaded with
    | inl err => Ret (Some (Silent err))
    | inr loaded =>
        match Find loaded (u_PlaybookName parent) with
        | None =>
            Ret (Some (Loud (Text ("run " +:+ u_ID parent +:+ " ran the playbook " +:+ quote (u_PlaybookName parent)
                                   +:+ ", which is not loaded now"))))
        | Some book =>
            let! finished := ask (retrieving declared d) (u_ID parent) book in
            concluded book finished (λ _, Ret "")
        end
    end).
Definition replay (f : flags) : string → cli (option failure) := fromRecord f (λ d id book, Do (Replay d id book)).
Definition resume (f : flags) : string → cli (option failure) := fromRecord f (λ d id book, Do (Resume d id book)).

(** ** [refusals_cmd.go] *)

Definition refusals_ (f : flags) : cli (option failure) :=
  with_deployment f (λ _ _ _,
    let? _ := Do Reconcile in
    let? refusals := Do (ListRefusals (f_limit f)) in
    let! _ := say_all (match refusals with [] => ["no refusals recorded"] | _ => map refusal_line refusals end) in Ret None).

(** ** [config_cmd.go], [mcp_cmd.go] and [sources_cmd.go] *)

Definition has_suffix (s suffix : string) : bool :=
  (String.length suffix <=? String.length s)%nat && String.eqb (str_drop (String.length s - String.length suffix) s) suffix.

Definition stripOneTrailingNewline (s : string) : string :=
  if has_suffix s (String "013" nl) then str_take (String.length s - 2) s
  else if has_suffix s nl then str_take (String.length s - 1) s else s.

Definition setArgs (args : list string) : option gerror :=
  match args with
  | [] => Some (Text "accepts 1 arg(s), the key, received 0")
  | [_] => None
  | key :: _ =>
      Some (Text ("the value must not be given on the command line; accepted: `printf '%s' " +:+ quote "$VALUE"
                  +:+ " | gronin config set " +:+ key +:+ "` or `gronin config set " +:+ key +:+ " < file`"))
  end.

(** [Set] of the configuration; [ReadValue] is a terminal's answer or the whole of the standard
    input, its newline stripped. *)
Definition config_set (f : flags) (args : list string) : cli (option failure) :=
  match setArgs args with
  | Some err => Ret (Some (Loud err))
  | None =>
      let key := default "" (head args) in
      match ValidKey key with
      | Some problem => Ret (Some (Loud (Text problem)))
      | None =>
          with_deployment f (λ _ _ _,
            let? value := Do ReadValue in
            let! set := Do (SetConfig key (mkValue value (f_secret f))) in
            match set with
            | Some err => Ret (Some (Loud err))
            | None => let! _ := Do (Say ("set " +:+ key)) in Ret None
            end)
      end
  end.

Definition config_line (cfg : Config) (key : string) : string :=
  padded 24 key +:+ " " +:+ match Config.Get cfg key with
                            | Some value => if Secret value then Placeholder else value_text value
                            | None => ""
                            end.

Definition config_list (f : flags) : cli (option failure) :=
  with_deployment f (λ _ _ d,
    let! _ := say_all (match Keys (d_config d) with
                       | [] => ["no configuration values in " +:+ f_stateDir f]
                       | keys => map (config_line (d_config d)) keys
                       end) in Ret None).

Definition mcp_list (f : flags) : cli (option failure) :=
  let? cfg := Do OpenConfig in
  let? catalog := openResolvableCatalog cfg in
  let? d := openDeployment f cfg catalog in
  deferring (close d)
    (let! _ := say_all (match McpCatalog.Names (d_catalog d) with
                        | [] => ["no MCP servers configured in " +:+ f_stateDir f]
                        | names => map (λ name, padded 24 name +:+ " " +:+ McpCatalog.Summary (d_catalog d) name) names
                        end) in Ret None).

(** The rows, whose columns a writer of the standard library aligns as they are printed. *)
Fixpoint source_rows (srcs : Catalog) (names : list string) : gerror + list (list string) :=
  match names with
  | [] => inr []
  | name :: names =>
      match Cells srcs name with
      | None => inl (Text (quote name +:+ " is in Names() but not in Cells()"))
      | Some cells => let* rows := source_rows srcs names in inr ((name :: cells) :: rows)
      end
  end.

Definition sources_list (f : flags) : cli (option failure) :=
  let? cfg := Do OpenConfig in
  let? srcs := Do (OpenSources cfg) in
  match Sources.Names srcs with
  | [] => let! _ := Do (Say ("no sources configured in " +:+ f_stateDir f)) in Ret None
  | names =>
      match source_rows srcs names with
      | inl err => Ret (Some (Loud err))
      | inr rows => let! _ := say_all (map (λ row, join row (String "009" EmptyString)) rows) in Ret None
      end
  end.

(** ** [statedir.go], [statedir_cmd.go] and [version.go] *)

(** The environment, the home directory if the system knows one, and where it keeps temporary files. *)
Definition defaultStateDir (Getenv : string → string) (home : gerror + string) (TempDir : string) : string :=
  if negb (String.eqb (Getenv "GRONIN_STATE_DIR") "") then Getenv "GRONIN_STATE_DIR"
  else if negb (String.eqb (Getenv "XDG_STATE_HOME") "") then Join [Getenv "XDG_STATE_HOME"; "gronin"]
  else
    match home with
    | inr home => if negb (String.eqb home "") then Join [home; ".local"; "state"; "gronin"] else Join [TempDir; "gronin"]
    | inl _ => Join [TempDir; "gronin"]
    end.
(** The flag, nothing when it cannot be read. *)
Definition stateDirOf (flag : option string) (default_ : string) : string :=
  match flag with Some dir => if String.eqb dir "" then default_ else dir | None => default_ end.
Definition state_dir (flag : option string) (default_ : string) : cli (option failure) :=
  let! _ := Do (Say (stateDirOf flag default_)) in Ret None.

(** [version]: set as the executable was linked; [built]: the module's version, of one built from a module. *)
Definition resolveVersion (version : string) (built : option string) : string :=
  if negb (String.eqb version "") then version
  else match built with Some built => if negb (String.eqb built "") then built else "unknown" | None => "unknown" end.

(** [output]: what the agent prints of its version. *)
Definition version_ (version : string) (built : option string) (agent : string) (output : string → gerror + string) : cli (option failure) :=
  let! _ := Do (Say (resolveVersion version built)) in
  let executable := if String.eqb agent "" then "claude" else agent in
  let '(found, err) := AgentRun.CheckVersion executable (output executable) in
  if String.eqb found "" then
    let! _ := Do (Say ("agent " +:+ executable +:+ ": not found")) in Ret (Silent <$> err)
  else
    match err with
    | Some err => let! _ := Do (Say ("agent " +:+ executable +:+ ": " +:+ found)) in Ret (Some (Silent err))
    | None => let! _ := Do (Say ("agent " +:+ executable +:+ ": " +:+ found +:+ " (floor " +:+ AgentRun.VersionFloor +:+ ")")) in Ret None
    end.
