(* ===== verification/CollectionsCmd.v ===== *)
(** [gronin collections]: [collections_cmd.go] of [src/runtime/cmd/gronin].

    The record is opened at most once in a command, and only when a collection of reports is met:
    a program here carries whether it has been, and what it came to. *)
From S2P Require Import Prelude GoStr GoTime GoErr Config Collections Index.
From S2P Require Import Eff Cli Commands.

(** [reportsStore]: [None] before it is opened. *)
Definition reportsStore := option (option gerror).

Definition reports_open (r : reportsStore) : cli (option gerror * reportsStore) :=
  match r with
  | Some err => Ret (err, r)
  | None =>
      let! cfg := Do OpenConfig in
      match cfg with
      | inl err => Ret (Some err, Some (Some err))
      | inr cfg => let! err := Do (OpenRecord (Secrets cfg)) in Ret (err, Some err)
      end
  end.

Definition reports_close (r : reportsStore) : cli unit :=
  match r with Some None => Do CloseRecord | _ => Ret tt end.

(** The store a collection is walked with: none for a directory's. *)
Definition opened_for (r : reportsStore) (collection : Collection) : cli ((gerror + bool) * reportsStore) :=
  if String.eqb (c_Directory collection) "" then
    let! (opened, r) := reports_open r in
    Ret (match opened with Some err => inl err | None => inr true end, r)
  else Ret (inr false, r).

Record inspection := mkInspection {
  n_collection : Collection; n_walk : Walk; n_stored : Stored; n_comparison : Comparison }.

Definition listingWait : Z := 3 * Second.

(** A listing writes nothing: it walks, reads what is stored and compares. *)
Definition inspect (r : reportsStore) (collection : Collection) : cli ((gerror + inspection) * reportsStore) :=
  let! (store, r) := opened_for r collection in
  match store with
  | inl err => Ret (inl err, r)
  | inr store =>
      let! (walked, cfg) := Do (WalkSources store collection) in
      match walked with
      | inl err => Ret (inl err, r)
      | inr walk =>
          let! stored := Do (ReadStored (c_Name collection) listingWait) in
          match stored with
          | inl err =>
              Ret (inl (if errors_is err ErrHeld then wrap_after ErrHeld (" for more than " +:+ Duration_String listingWait) else err), r)
          | inr stored => Ret (inr (mkInspection collection walk stored (Compare cfg stored walk)), r)
          end
      end
  end.

Definition list_line (collection : Collection) (found : gerror + inspection) : string :=
  let line := padded 15 (c_Name collection) +:+ " " +:+ padded 9 (Mode collection) +:+ " " +:+ padded 25 (Source collection) +:+ " " in
  match found with
  | inl err => line +:+ "cannot be listed: " +:+ Error err
  | inr found =>
      let generation := s_Generation (n_stored found) in
      if String.eqb (g_ID generation) "" then line +:+ "not indexed yet"
      else line +:+ "generation " +:+ Short generation +:+ " built " +:+ rfc3339 (g_BuiltAt generation) +:+ "  "
           +:+ (if p_Changed (n_comparison found) then "changed since" else "unchanged")
  end.

Definition listLine (r : reportsStore) (collection : Collection) : cli (string * reportsStore) :=
  let! (found, r) := inspect r collection in Ret (list_line collection found, r).

Fixpoint list_lines (r : reportsStore) (declared : Catalog) (names : list string) : cli reportsStore :=
  match names with
  | [] => Ret r
  | name :: names =>
      match Get declared name with
      | None => list_lines r declared names
      | Some collection =>
          let! (line, r) := listLine r collection in
          let! _ := Do (Say line) in
          list_lines r declared names
      end
  end.

Definition collections_list (f : flags) : cli (option failure) :=
  let? declared := Do OpenCollections in
  match Names declared with
  | [] => let! _ := Do (Say ("no collections declared in " +:+ f_stateDir f)) in Ret None
  | names =>
      let! r := list_lines None declared names in
      let! _ := reports_close r in Ret None
  end.

Definition declaredCollection (name : string) : cli (gerror + Collection) :=
  let! declared := Do OpenCollections in
  Ret match declared with
      | inl err => inl err
      | inr declared =>
          match Get declared name with
          | Some collection => inr collection
          | None => inl (Text ("no collection named " +:+ quote name +:+ "; declared: " +:+ join (Names declared) ", "))
          end
      end.

Definition inspection_lines (found : inspection) : list string :=
  let collection := n_collection found in
  let generation := s_Generation (n_stored found) in
  let comparison := n_comparison found in
  let indexed := negb (String.eqb (g_ID generation) "") in
  ["collection  " +:+ c_Name collection; "mode        " +:+ Mode collection; "source      " +:+ Source collection] ++
  (if indexed then
     ["generation  " +:+ Short generation +:+ " built " +:+ rfc3339 (g_BuiltAt generation) +:+ " under identity "
      +:+ str_take 4 (g_Identity generation) +:+ "…"]
   else ["generation  not indexed yet"]) ++
  (if negb indexed then ["changed     not indexed yet"]
   else if p_Changed comparison then
     ["changed     yes — " +:+ show_Z (p_Added comparison) +:+ " added, " +:+ show_Z (p_Modified comparison) +:+ " changed, "
      +:+ show_nat (length (p_Removed comparison)) +:+ " removed"]
   else ["changed     no"]) ++ [""] ++
  map (λ document, "document    " +:+ padded 21 (d_Source document) +:+ " " +:+ padded_left 4 (show_Z (d_Bytes document)) +:+ " bytes  "
                   +:+ Mark comparison (d_Source document)) (w_Documents (n_walk found)) ++
  map (λ source, "removed     " +:+ source) (p_Removed comparison) ++
  map (λ skipped, "skipped     " +:+ padded 21 (k_Source skipped) +:+ " " +:+ k_Reason skipped) (w_Skipped (n_walk found)).

Definition collections_show (name : string) : cli (option failure) :=
  let? collection := declaredCollection name in
  let! (found, r) := inspect None collection in
  deferring (reports_close r)
    match found with
    | inl err => Ret (Some (Loud err))
    | inr found => let! _ := say_all (inspection_lines found) in Ret None
    end.

Definition rebuild (r : reportsStore) (collection : Collection) : cli ((gerror + Generation * nat) * reportsStore) :=
  let! (store, r) := opened_for r collection in
  match store with
  | inl err => Ret (inl err, r)
  | inr store =>
      let! (walked, cfg) := Do (WalkSources store collection) in
      match walked with
      | inl err => Ret (inl err, r)
      | inr walk =>
          let! opened := Do (OpenIndex (c_Name collection) cfg) in
          match opened with
          | Some err => Ret (inl err, r)
          | None =>
              let! generation := Do (RebuildIndex walk) in
              let! _ := Do CloseIndex in
              Ret (match generation with
                   | inl err => inl err
                   | inr generation => inr (generation, length (w_Documents walk))
                   end, r)
          end
      end
  end.

Definition collections_rebuild (name : string) : cli (option failure) :=
  let? collection := declaredCollection name in
  let! (rebuilt, r) := rebuild None collection in
  deferring (reports_close r)
    match rebuilt with
    | inl err => Ret (Some (Loud (wrap_before ("rebuilding " +:+ c_Name collection) err)))
    | inr (generation, documents) =>
        let! _ := Do (Say ("rebuilt " +:+ c_Name collection +:+ ": generation " +:+ Short generation +:+ " built "
                           +:+ rfc3339 (g_BuiltAt generation) +:+ " from " +:+ show_nat documents +:+ " document(s)")) in
        Ret None
    end.
