(* ===== verification/CliSafe.v ===== *)
(** What holds of every command: what it opens it closes, and it asks nothing of what is not open;
    and what its exit status says of the run it was asked for. *)
From S2P Require Import Prelude GoStr GoErr Config Gate Loader Values Playbook Records Sources.
From S2P Require Import Collections Index Eff Cli Serve Commands CollectionsCmd.
From S2P Require McpCatalog AgentRun.

(** ** What is open *)

(** [h_blank]: a coordination.json that names no backend was loaded as one that does. *)
Record held := mkHeld { h_record : bool; h_etcd : bool; h_instance : bool; h_api : bool; h_index : bool; h_blank : bool }.
Definition nothing_held : held := mkHeld false false false false false false.
(** What a panic leaves: the record open, and nothing else. *)
Definition record_left : held := mkHeld true false false false false true.

(** The calls that need the record open. *)
Definition needs_record (c : cli_cmd) : bool :=
  match c with
  | CloseRecord | HoldInstance _ | MarkRunningAsInterrupted | Reconcile | ListRuns _ | ListRefusals _ | GetRun _
  | GatheredInputs _ | Retrievals _ | ToolCalls _ | RefusedActions _ | SinkOutcomes _ | GetBlob _ | Execute _ _ _
  | Replay _ _ _ | Resume _ _ _ | RunScheduler _ _ _ | StartAPI _ => true
  | WalkSources store _ => store
  | _ => false
  end.

Definition allowed (h : held) (c : cli_cmd) : Prop :=
  (needs_record c = true → h_record h = true) ∧
  match c with
  | OpenRecord _ => h_record h = false
  | DialEtcd _ => h_etcd h = false
  | CloseEtcd => h_etcd h = true
  | HoldInstance _ => h_instance h = false
  | CloseInstance => h_instance h = true
  | StartAPI _ => h_api h = false
  | StopAPI => h_api h = true
  | OpenIndex _ _ => h_index h = false
  | RebuildIndex _ | CloseIndex => h_index h = true
  | Panic => h = record_left
  | _ => True
  end.

Definition opened_ (err : option gerror) (b : bool) : bool := match err with None => true | Some _ => b end.

(** A configuration that says there is a backend and does not say which. *)
Definition names_nothing (x : gerror + (GuardConfig.Config * bool)) : bool :=
  match x with inr (declared, true) => match GuardConfig.Etcd declared with None => true | Some _ => false end | _ => false end.

Definition moved (h : held) (e : event (Sg := cli_sig)) : held :=
  let '(mkHeld record etcd instance api index blank) := h in
  (match projT1 e as c return cli_resp c → held with
   | LoadCoordination _ => λ x, mkHeld record etcd instance api index (blank || names_nothing x)
   | OpenRecord _ => λ x, mkHeld (opened_ x record) etcd instance api index blank
   | CloseRecord => λ _, mkHeld false etcd instance api index blank
   | DialEtcd _ => λ x, mkHeld record (opened_ x etcd) instance api index blank
   | CloseEtcd => λ _, mkHeld record false instance api index blank
   | HoldInstance _ => λ x, mkHeld record etcd (opened_ x instance) api index blank
   | CloseInstance => λ _, mkHeld record etcd false api index blank
   | StartAPI _ => λ _, mkHeld record etcd instance true index blank
   | StopAPI => λ _, mkHeld record etcd instance false index blank
   | OpenIndex _ _ => λ x, mkHeld record etcd instance api (opened_ x index) blank
   | CloseIndex => λ _, mkHeld record etcd instance api false blank
   | _ => λ _, h
   end) (projT2 e).

Definition goes {A} (p : cli A) (h : held) (Q : A → held → Prop) : Prop := monitored (Sg := cli_sig) allowed moved p h Q.

Lemma goes_bind {A B} (p : cli A) (f : A → cli B) h Q : goes p h (λ a h, goes (f a) h Q) → goes (bind p f) h Q.
Proof. apply (monitored_bind (Sg := cli_sig)). Qed.

Lemma goes_ret {A} (a : A) h (Q : A → held → Prop) : Q a h → goes (Ret a) h Q.
Proof. done. Qed.

Lemma goes_do c h (Q : cli_resp c → held → Prop) : allowed h c → (∀ x, Q x (moved h (did c x))) → goes (Do c) h Q.
Proof. apply (monitored_call (Sg := cli_sig)). Qed.

Lemma goes_impl {A} (p : cli A) h (Q Q' : A → held → Prop) : goes p h Q → (∀ a h, Q a h → Q' a h) → goes p h Q'.
Proof. apply (monitored_impl (Sg := cli_sig)). Qed.

(** A call that needs nothing and opens nothing. *)
Lemma goes_free c (Q : cli_resp c → held → Prop) h :
  (∀ h, allowed h c) → (∀ h x, moved h (did c x) = h) → (∀ x, Q x h) → goes (Do c) h Q.
Proof. intros Ha Hm HQ. apply goes_do; [done|]. intros x. by rewrite Hm. Qed.

Ltac allowed_now := by split; [done || intros _; reflexivity|].
Ltac one_call :=
  match goal with
  | |- goes (bind _ _) _ _ => apply goes_bind
  | |- goes (Ret _) _ _ => apply goes_ret
  | |- goes (Do _) _ _ => apply goes_do; [by split|intros ?]; cbn [moved did ev projT1 projT2 opened_]
  end.
Ltac calls := repeat first [progress cbv beta iota | one_call].

(** The last answer: an error, or what was asked for. *)
Ltac answered := match goal with x : cli_resp _ |- _ => destruct x as [?|?] end; calls; [done|].

(** ** The parts *)

Lemma goes_complain_all lines h (Q : unit → held → Prop) : Q tt h → goes (complain_all lines) h Q.
Proof. intros HQ. induction lines as [|line lines IH]; cbn [complain_all]; [done|]. destruct h. by calls. Qed.

Lemma goes_say_all lines h (Q : unit → held → Prop) : Q tt h → goes (say_all lines) h Q.
Proof. intros HQ. induction lines as [|line lines IH]; cbn [say_all]; [done|]. destruct h. by calls. Qed.

Lemma goes_inheritedEnv names h (Q : list string → held → Prop) : (∀ env, Q env h) → goes (inheritedEnv names) h Q.
Proof.
  revert Q. induction names as [|name names IH]; intros Q HQ; cbn [inheritedEnv]; [by calls|]. destruct h. calls.
  apply IH. intros env. calls. by destruct x.
Qed.

Lemma goes_openCoordination cfg h (Q : gerror + coordination → held → Prop) : h = mkHeld true false false false false false →
  (∀ err, Q (inl err) h) →
  (∀ c, Q (inr c) (mkHeld true (k_configured c) false false false false)) →
  goes (openCoordination cfg) h Q.
Proof.
  intros -> Hl Hr. unfold openCoordination. calls.
  destruct x as [err|[declared [|]]]; cbn [names_nothing]; calls; [apply Hl| |exact (Hr (mkCoordination declared false))].
  destruct (GuardConfig.Etcd declared) as [etcd|]; [|by split; [split|intros []]]. calls.
  destruct x; calls; [apply Hl|exact (Hr (mkCoordination declared true))].
Qed.

(** What an open deployment holds. *)
Definition holds (d : deployment) : held := mkHeld true (k_configured (d_coordination d)) (d_instance d) false false false.

Lemma goes_openDeployment f cfg catalog (Q : gerror + deployment → held → Prop) :
  (∀ err, Q (inl err) nothing_held) → (∀ d, d_instance d = false → Q (inr d) (holds d)) →
  goes (openDeployment f cfg catalog) nothing_held Q.
Proof.
  intros Hl Hr. unfold openDeployment, nothing_held. calls. destruct x as [err|]; calls; [apply Hl|].
  apply goes_openCoordination; [done| |].
  - intros err. calls. apply Hl.
  - intros backend. calls. unfold hostName, instanceID. calls. apply goes_inheritedEnv. intros agentEnv. calls.
    apply goes_inheritedEnv. intros stepEnv. calls. by apply Hr.
Qed.

Lemma goes_close d (Q : unit → held → Prop) : Q tt nothing_held → goes (close d) (holds d) Q.
Proof.
  intros HQ. unfold close, coordination_close, holds. destruct (d_instance d), (k_configured (d_coordination d)); calls;
    repeat match goal with u : cli_resp _ |- _ => destruct u end; exact HQ.
Qed.

(** A body that leaves the deployment as open as it found it. *)
Definition stays {A} (p : cli A) (h : held) : Prop := goes p h (λ _ h', h' = h).

Lemma goes_deferring {A} (later : cli unit) (p : cli A) h (Q : A → held → Prop) :
  stays p h → (∀ a, goes later h (λ _, Q a)) → goes (deferring later p) h Q.
Proof.
  intros Hp Hl. unfold deferring. apply goes_bind. eapply goes_impl; [exact Hp|]. intros a h' ->.
  apply goes_bind. eapply goes_impl; [apply Hl|]. intros [] h' HQ. by apply goes_ret.
Qed.

Definition releases (p : cli (option failure)) : Prop := goes p nothing_held (λ _ h, h = nothing_held).

Lemma releases_ends p tr a : releases p → runs p tr a → foldl moved nothing_held tr = nothing_held.
Proof. intros H Hr. exact (proj1 (monitored_runs (Sg := cli_sig) _ _ p _ _ tr a H Hr)). Qed.

Lemma releases_reaches p tr c : releases p → reaches p tr c → allowed (foldl moved nothing_held tr) c.
Proof. apply (monitored_reaches (Sg := cli_sig)). Qed.

Lemma goes_deployed d (p : cli (option failure)) : stays p (holds d) →
  goes (deferring (close d) p) (holds d) (λ _ h, h = nothing_held).
Proof. intros Hp. apply goes_deferring; [done|]. intros a. by apply goes_close. Qed.

Lemma releases_with_deployment f k : (∀ cfg catalog d, d_instance d = false → stays (k cfg catalog d) (holds d)) →
  releases (with_deployment f k).
Proof.
  intros Hk. unfold releases, with_deployment, nothing_held. calls. destruct x as [err|cfg]; calls; [done|].
  destruct x as [err|catalog]; calls; [done|]. apply goes_openDeployment; [intros err; by calls|].
  intros d Hd. apply goes_deployed. by apply Hk.
Qed.

Lemma goes_loadPlaybooks f cfg catalog declared srcs h (Q : gerror + Loaded → held → Prop) :
  (∀ x, Q x h) → goes (loadPlaybooks f cfg catalog declared srcs) h Q.
Proof.
  intros HQ. unfold loadPlaybooks. destruct h. calls. destruct x as [err|loaded]; calls; [done|].
  destruct (OK loaded); calls; [done|]. apply goes_complain_all. by calls.
Qed.

Lemma goes_openResolvableCatalog cfg h (Q : gerror + McpCatalog.Catalog → held → Prop) :
  (∀ x, Q x h) → goes (openResolvableCatalog cfg) h Q.
Proof. intros HQ. unfold openResolvableCatalog. destruct h. calls. apply HQ. Qed.

Lemma releases_with_playbooks f refused k : (∀ cfg catalog declared srcs loaded, releases (k cfg catalog declared srcs loaded)) →
  releases (with_playbooks f refused k).
Proof.
  intros Hk. unfold releases, with_playbooks, nothing_held. calls. destruct x as [err|cfg]; calls; [done|].
  apply goes_openResolvableCatalog. intros [err|catalog]; calls; [done|].
  destruct x as [err|declared]; calls; [done|]. destruct x as [err|srcs]; calls; [done|].
  apply goes_loadPlaybooks. intros [err|loaded]; calls; [done|]. apply Hk.
Qed.

(** Calls on a record that is open, and lines printed between them. *)
Ltac said := first [apply goes_say_all | apply goes_complain_all]; calls.
Ltac staying :=
  unfold stays; repeat first [progress calls | said | progress (repeat case_match; subst) | reflexivity | done].

Lemma stays_concluded book finished waited h : h_record h = true → (∀ run, stays (waited run) h) → stays (concluded book finished waited) h.
Proof.
  intros Hh Hw. unfold stays, concluded. destruct finished as [err|run].
  - destruct (as_refused err) as [r|]; calls; [|done]. apply goes_say_all. by calls.
  - calls. eapply goes_impl; [apply Hw|]. intros line h' ->. calls. apply goes_say_all. by calls.
Qed.

Lemma stays_said_waited run h : h_record h = true → stays (said_waited run) h.
Proof. intros Hh. unfold stays, said_waited. destruct h. simpl in Hh. subst. calls. destruct x as [err|recorded]; calls; done. Qed.

(** ** The commands *)

Lemma stays_writeRetrieval id name d : stays (writeRetrieval id name) (holds d).
Proof.
  unfold stays, writeRetrieval, holds. calls. destruct x as [err|retrievals]; calls; [done|].
  induction retrievals as [|retrieval retrievals IH]; cbn [write_retrieval]; [by calls|].
  destruct (negb _); [exact IH|]. destruct (String.eqb _ _); calls; [done|]. answered. done.
Qed.

Lemma releases_show f id : releases (show f id).
Proof.
  apply releases_with_deployment. intros _ _ d _. unfold stays, holds. calls. answered.
  destruct (some_text _); [apply stays_writeRetrieval|]. calls. said.
  do 5 (answered; said). said. done.
Qed.

Lemma releases_fromRecord f ask id : (∀ d id book h, h_record h = true → stays (ask d id book) h) → releases (fromRecord f ask id).
Proof.
  intros Hask. apply releases_with_deployment. intros cfg catalog d Hd. unfold stays, holds. calls.
  answered. answered.
  answered. apply goes_loadPlaybooks. intros [err|loaded]; calls; [done|].
  destruct (Find _ _) as [book|]; calls; [|done]. eapply goes_impl; [by apply Hask|]. intros finished h ->.
  apply stays_concluded; [done|]. intros run. by apply goes_ret.
Qed.

Lemma goes_arm books : ∀ armed h (Q : gerror + gmap string Schedule.entry → held → Prop), (∀ x, Q x h) → goes (arm books armed) h Q.
Proof.
  induction books as [|book books IH]; intros armed h Q HQ; cbn [arm]; [by calls|].
  destruct (negb _); [by apply IH|]. destruct h. calls. answered. by apply IH.
Qed.

Lemma stays_listening refused f d loaded armed : stays (listening refused f d loaded armed) (holds d).
Proof.
  unfold stays, listening. destruct (Api.CheckAddress _ _ _) as [err|]; [by calls|]. unfold holds. calls.
  answered. apply goes_deferring.
  - unfold stays. calls. destruct (errors_is _ _); by calls.
  - intros a. by calls.
Qed.

Lemma stays_serving refused f d loaded : stays (serving refused f d loaded) (holds d).
Proof.
  unfold stays, serving, holds. calls.
  assert (∀ Q : option gerror → held → Prop, (∀ x, Q x (holds d)) → goes (reachable (d_coordination d)) (holds d) Q) as Hreach.
  { intros Q HQ. unfold reachable, holds. destruct (negb _); calls; apply HQ. }
  apply Hreach. intros asked. calls.
  assert (∀ (b : bool) line (Q : unit → held → Prop), (∀ x, Q x (holds d)) → goes (say_if b line) (holds d) Q) as Hsay.
  { intros [] line Q HQ; unfold say_if, holds; calls; apply HQ. }
  assert (∀ (Q : unit → held → Prop), (∀ x, Q x (holds d)) →
    goes (match asked with Some err => Do (Say (unreachable (d_coordination d) err)) | None => Ret tt end) (holds d) Q) as Hasked.
  { intros Q HQ. unfold holds. destruct asked; calls; apply HQ. }
  apply Hasked. intros _. unfold holds. calls. answered.
  answered. answered.
  apply Hsay. intros _. unfold holds. calls. answered.
  apply Hsay. intros _. calls. apply goes_arm. intros [err|armed]; calls; [done|]. unfold holds. calls. apply stays_listening.
Qed.

Lemma releases_serve refused f : releases (serve refused f).
Proof.
  unfold releases, serve, nothing_held. calls. answered.
  apply goes_openResolvableCatalog. intros [err|catalog]; calls; [done|].
  answered. answered.
  apply goes_loadPlaybooks. intros [err|loaded]; calls; [done|]. destruct (firstWebhookPlaybook loaded); calls; [done|].
  apply goes_openDeployment.
  - intros err. unfold nothing_held. by calls.
  - intros d Hd. apply goes_deployed. exact (stays_serving refused f (retrieving _ d) loaded).
Qed.

Lemma releases_run check f name : releases (run check f name).
Proof.
  apply releases_with_playbooks. intros cfg catalog declared srcs loaded.
  assert (∀ book values, releases (run_book f cfg catalog declared srcs book values)) as Hbook.
  { intros book values. unfold releases, run_book. calls. apply goes_openDeployment; [intros err; by calls|].
    intros d Hd. unfold acceptWaiting, holds. rewrite Hd. calls. destruct x as [err|]; calls.
    - match goal with |- goes _ ?h _ => replace h with (holds d) by (unfold holds; by rewrite Hd) end. apply goes_deployed. by apply goes_ret.
    - match goal with |- goes (deferring (close ?d') _) ?h _ => change h with (holds d') end. apply goes_deployed. unfold stays, holds. calls.
      apply stays_concluded; [done|]. intros finished. by apply stays_said_waited. }
  destruct (Find loaded name) as [book|]; [|by apply goes_ret]. destruct (String.eqb _ _); [|apply Hbook].
  destruct (checkedManualValues _ _ _); [|apply Hbook]. unfold releases, nothing_held. by calls.
Qed.

(** The record, as a listing's store has it. *)
Definition keeps (r : reportsStore) : held := mkHeld (match r with Some None => true | _ => false end) false false false false false.

Lemma goes_reports_close r (Q : unit → held → Prop) : Q tt nothing_held → goes (reports_close r) (keeps r) Q.
Proof. intros HQ. destruct r as [[err|]|]; unfold reports_close, keeps; calls; [done| |done]. by destruct x. Qed.

Lemma goes_opened_for r collection (Q : (gerror + bool) * reportsStore → held → Prop) :
  (∀ err r', Q (inl err, r') (keeps r')) → (∀ store r', (store = true → h_record (keeps r') = true) → Q (inr store, r') (keeps r')) →
  goes (opened_for r collection) (keeps r) Q.
Proof.
  intros Hl Hr. unfold opened_for. destruct (String.eqb _ _); [|apply goes_ret, Hr; done]. apply goes_bind. unfold reports_open.
  destruct r as [[err|]|]; [apply goes_ret; calls; apply Hl|apply goes_ret; calls; by apply Hr|]. unfold keeps at 1. calls.
  destruct x as [err|cfg]; calls; [apply (Hl err (Some (Some err)))|].
  destruct x as [err|]; calls; [apply (Hl err (Some (Some err)))|by apply (Hr true (Some None))].
Qed.

Lemma goes_inspect r collection (Q : (gerror + inspection) * reportsStore → held → Prop) :
  (∀ x r', Q (x, r') (keeps r')) → goes (inspect r collection) (keeps r) Q.
Proof.
  intros HQ. unfold inspect. apply goes_bind. apply goes_opened_for; [intros err r'; calls; apply HQ|].
  intros store r' Hs. cbv beta iota. apply goes_bind, goes_do.
  { split; [|done]. destruct store; [|done]. intros _. by apply Hs. }
  intros [walked cfg]. unfold keeps at 1. cbn [moved did ev projT1 projT2]. destruct walked as [err|walk]; calls; [apply HQ|].
  destruct x as [err|stored]; calls; apply HQ.
Qed.

Lemma goes_rebuild r collection (Q : (gerror + Generation * nat) * reportsStore → held → Prop) :
  (∀ x r', Q (x, r') (keeps r')) → goes (rebuild r collection) (keeps r) Q.
Proof.
  intros HQ. unfold rebuild. apply goes_bind. apply goes_opened_for; [intros err r'; calls; apply HQ|].
  intros store r' Hs. cbv beta iota. apply goes_bind, goes_do.
  { split; [|done]. destruct store; [|done]. intros _. by apply Hs. }
  intros [walked cfg]. unfold keeps at 1. cbn [moved did ev projT1 projT2]. destruct walked as [err|walk]; calls; [apply HQ|].
  destruct x as [err|]; calls; apply HQ.
Qed.

Lemma goes_list_lines declared names : ∀ r (Q : reportsStore → held → Prop), (∀ r', Q r' (keeps r')) →
  goes (list_lines r declared names) (keeps r) Q.
Proof.
  induction names as [|name names IH]; intros r Q HQ; cbn [list_lines]; [by apply goes_ret|].
  destruct (Get declared name) as [collection|]; [|by apply IH]. apply goes_bind. unfold listLine. apply goes_bind.
  apply goes_inspect. intros found r'. calls. unfold keeps at 1. calls. by apply IH.
Qed.

Lemma releases_collections_list f : releases (collections_list f).
Proof.
  unfold releases, collections_list, nothing_held. calls. destruct x as [err|declared]; calls; [done|].
  destruct (Names declared); calls; [done|]. apply (goes_list_lines _ _ None). intros r. calls.
  apply goes_reports_close. by calls.
Qed.

Lemma releases_of_collection {B} (name : string) (work : Collection → cli (B * reportsStore)) (tell : Collection → B → cli (option failure)) :
  (∀ collection (Q : B * reportsStore → held → Prop), (∀ x r', Q (x, r') (keeps r')) → goes (work collection) (keeps None) Q) →
  (∀ collection x r, stays (tell collection x) (keeps r)) →
  releases (let? collection := declaredCollection name in
            let! (x, r) := work collection in deferring (reports_close r) (tell collection x)).
Proof.
  intros Hw Ht. unfold releases, declaredCollection, nothing_held. calls. destruct x as [err|declared]; calls; [done|].
  destruct (Get declared name) as [collection|]; calls; [|done]. apply Hw. intros x r. calls.
  apply goes_deferring; [apply Ht|]. intros a. by apply goes_reports_close.
Qed.

Lemma releases_collections_show name : releases (collections_show name).
Proof.
  apply (releases_of_collection name (inspect None)); [intros collection Q; apply goes_inspect|].
  intros collection [err|found] r; unfold stays, keeps; calls; [done|]. by said.
Qed.

Lemma releases_collections_rebuild name : releases (collections_rebuild name).
Proof.
  apply (releases_of_collection name (rebuild None)
    (λ collection rebuilt, match rebuilt with
      | inl err => Ret (Some (Loud (wrap_before ("rebuilding " +:+ c_Name collection) err)))
      | inr (generation, documents) => _ end)); [intros collection Q; apply goes_rebuild|].
  intros collection [err|[generation documents]] r; unfold stays, keeps; by calls.
Qed.

(** ** Every command *)

(** The program's commands, under any flags and arguments. *)
Inductive command (refused : string → gerror) (check : Playbook → gmap string any → list ValueRefusal + gmap string string) (f : flags)
  : cli (option failure) → Prop :=
| command_version version built agent output : command refused check f (version_ version built agent output)
| command_state_dir flag default_ : command refused check f (state_dir flag default_)
| command_serve : command refused check f (serve refused f)
| command_run name : command refused check f (run check f name)
| command_validate dir : command refused check f (validate f dir)
| command_runs : command refused check f (runs_ f)
| command_show id : command refused check f (show f id)
| command_replay id : command refused check f (replay f id)
| command_resume id : command refused check f (resume f id)
| command_refusals : command refused check f (refusals_ f)
| command_config_set args : command refused check f (config_set f args)
| command_config_list : command refused check f (config_list f)
| command_mcp_list : command refused check f (mcp_list f)
| command_sources_list : command refused check f (sources_list f)
| command_collections_list : command refused check f (collections_list f)
| command_collections_show name : command refused check f (collections_show name)
| command_collections_rebuild name : command refused check f (collections_rebuild name).

Lemma releases_command refused check f p : command refused check f p → releases p.
Proof.
  destruct 1.
  - unfold releases, version_, nothing_held. calls. destruct (AgentRun.CheckVersion _ _) as [found err]. destruct (String.eqb _ _); calls; [done|].
    destruct err; by calls.
  - unfold releases, state_dir, nothing_held. by calls.
  - apply releases_serve.
  - apply releases_run.
  - unfold validate. apply releases_with_playbooks. intros. unfold releases, nothing_held. by calls.
  - unfold runs_. apply releases_with_deployment. intros _ _ d _. unfold stays, holds. calls. answered. by said.
  - apply releases_show.
  - unfold replay. apply releases_fromRecord. intros d id' book h Hh. unfold stays. destruct h. simpl in Hh. subst. by calls.
  - unfold resume. apply releases_fromRecord. intros d id' book h Hh. unfold stays. destruct h. simpl in Hh. subst. by calls.
  - unfold refusals_. apply releases_with_deployment. intros _ _ d _. unfold stays, holds. calls. answered. answered. by said.
  - unfold config_set. destruct (setArgs args); [by apply goes_ret|]. destruct (ValidKey _); [by apply goes_ret|].
    apply releases_with_deployment. intros _ _ d _. unfold stays, holds. calls. answered.
    match goal with x : cli_resp (SetConfig _ _) |- _ => destruct x end; by calls.
  - unfold config_list. apply releases_with_deployment. intros _ _ d _. unfold stays, holds. calls. by said.
  - unfold releases, mcp_list, nothing_held. calls. answered. apply goes_openResolvableCatalog. intros [err|catalog]; calls; [done|].
    apply goes_openDeployment; [intros err; by calls|]. intros d Hd. apply goes_deployed. unfold stays, holds. calls. by said.
  - unfold releases, sources_list, nothing_held. calls. answered. answered. case_match; [by calls|].
    case_match; [by calls|]. calls. by said.
  - apply releases_collections_list.
  - apply releases_collections_show.
  - apply releases_collections_rebuild.
Qed.

(** C33: A command asks nothing of what is not open and closes what it opens: whatever its files, its
    record, its backend, its agent and its index answer, every command calls the record and runs
    playbooks only while the record is open, opens the record, the backend's client, the instance
    lock, the API and an index at most once at a time and closes only what is open, and when it
    returns it has left nothing open.  The one other way to end is the panic of a coordination.json
    that is read as naming a backend and names none: there the record is open, and nothing else. *)
Theorem every_command_is_tidy refused check f p : command refused check f p →
  (∀ tr a, runs p tr a → foldl moved nothing_held tr = nothing_held) ∧
  (∀ tr c, reaches p tr c → allowed (foldl moved nothing_held tr) c) ∧
  (∀ tr, reaches p tr Panic → foldl moved nothing_held tr = record_left).
Proof.
  intros Hp. apply releases_command in Hp. split_and!.
  - intros tr a Hr. exact (releases_ends p tr a Hp Hr).
  - intros tr c Hr. exact (releases_reaches p tr c Hp Hr).
  - intros tr Hr. exact (proj2 (releases_reaches p tr Panic Hp Hr)).
Qed.

(** ** What the exit status of [gronin run], [replay] and [resume] says of the run that was asked for. *)

(** ** The runs a trace asked for *)

Definition asked_of (e : event (Sg := cli_sig)) : list (gerror + Records.Run) :=
  (match projT1 e as c return cli_resp c → list (gerror + Records.Run) with
   | Execute _ _ _ | Replay _ _ _ | Resume _ _ _ => λ x, [x]
   | _ => λ _, []
   end) (projT2 e).
Definition asked (tr : list (event (Sg := cli_sig))) : list (gerror + Records.Run) := concat (map asked_of tr).

Lemma asked_app tr1 tr2 : asked (tr1 ++ tr2) = asked tr1 ++ asked tr2.
Proof. unfold asked. by rewrite map_app, concat_app. Qed.

(** What never panics. *)
Definition calm {A} (p : cli A) : Prop := ∀ tr, ¬ reaches p tr Panic.

Lemma calm_ret {A} (a : A) : calm (Ret a).
Proof. intros tr []. Qed.
Lemma calm_bind {A B} (p : cli A) (k : A → cli B) : calm p → (∀ a, calm (k a)) → calm (bind p k).
Proof. intros Hp Hk tr [H|(a & tr1 & tr2 & -> & _ & H)]%reaches_bind; [by apply Hp in H|by apply Hk in H]. Qed.
Lemma calm_do c : c ≠ Panic → calm (Do c).
Proof. by intros Hc tr [[_ ?]|(x & tr' & _ & [])]. Qed.
Create HintDb calm.
(** A program whose calls are all other ones. *)
Ltac calmly :=
  repeat (cbv beta iota; first
    [ by eauto with calm
    | match goal with
      | |- calm (bind _ _) => apply calm_bind; [|intros ?]
      | |- calm (Do _) => by apply calm_do
      | |- calm (Ret _) => apply calm_ret
      | |- calm (match ?x with _ => _ end) => destruct x
      end ]).

(** [told p Q]: whatever [p] is answered, [Q] holds of the runs it asked for and of what it gives;
    and it panics, if it does, before it asks for any. *)
Definition told {A} (p : cli A) (Q : list (gerror + Records.Run) → A → Prop) : Prop :=
  (∀ tr a, runs p tr a → Q (asked tr) a) ∧ ∀ tr, reaches p tr Panic → asked tr = [].
Definition quiet {A} (p : cli A) : Prop := told p (λ l _, l = []).

Lemma told_ret {A} (a : A) (Q : list (gerror + Records.Run) → A → Prop) : Q [] a → told (Ret a) Q.
Proof. intros HQ. split; [by intros tr b [-> <-]|intros tr []]. Qed.

Lemma told_bind {A B} (p : cli A) (k : A → cli B) Q : quiet p → (∀ a, told (k a) Q) → told (bind p k) Q.
Proof.
  intros [Hp Hpanic] Hk. split.
  - intros tr b (a & tr1 & tr2 & -> & H1 & H2)%runs_bind. rewrite asked_app, (Hp _ _ H1). by apply (Hk a).
  - intros tr [H|(a & tr1 & tr2 & -> & H1 & H2)]%reaches_bind; [by apply Hpanic|].
    rewrite asked_app, (Hp _ _ H1). by apply (Hk a).
Qed.

Lemma told_panic {A} (Q : list (gerror + Records.Run) → A → Prop) : told (@panic A) Q.
Proof. split; [by intros tr a ([] & _)|]. by intros tr [[-> _]|([] & _)]. Qed.

Lemma told_asking {B} c (k : cli_resp c → cli B) Q : c ≠ Panic → (∀ x, calm (k x)) →
  (∀ x, told (k x) (λ l b, Q (asked_of (did c x) ++ l) b)) → told (bind (Do c) k) Q.
Proof.
  intros Hc Hcalm Hk. split.
  - intros tr b (x & tr' & -> & Hr). by apply (Hk x).
  - intros tr H. exfalso. revert tr H. apply calm_bind; [by apply calm_do|exact Hcalm].
Qed.

Lemma quiet_do c : (∀ x, asked_of (did c x) = []) → quiet (Do c).
Proof.
  intros Hc. split.
  - intros tr a (x & tr' & -> & -> & ->). unfold asked. cbn [map concat]. by rewrite app_nil_r.
  - by intros tr [[-> _]|(x & tr' & _ & [])].
Qed.

Lemma told_deferring {A} (later : cli unit) (p : cli A) Q : told p Q → quiet later → calm later → told (deferring later p) Q.
Proof.
  intros [Hp Hpanic] [Hl _] Hcalm. split.
  - intros tr a (b & tr1 & tr2 & -> & H1 & (u & tr3 & tr4 & -> & H2 & [-> <-])%runs_bind)%runs_bind.
    rewrite !asked_app, (Hl _ _ H2). cbn [app]. rewrite !app_nil_r. by apply Hp.
  - intros tr [H|(b & tr1 & tr2 & -> & _ & H)]%reaches_bind; [by apply Hpanic|].
    exfalso. revert tr2 H. apply calm_bind; [exact Hcalm|]. intros []. apply calm_ret.
Qed.

Create HintDb quiet.
#[export] Hint Resolve told_panic : quiet.
(** A program whose every call is quiet. *)
Ltac quietly :=
  repeat (cbv beta iota; first
    [ by eauto with quiet
    | match goal with
      | |- quiet (bind _ _) => apply told_bind; [|intros ?]
      | |- told (bind _ _) _ => apply told_bind; [quietly_alone|intros ?]
      | |- quiet (Do ?c) => apply (quiet_do c); by intros ?
      | |- told (Do ?c) _ => apply (quiet_do c); by intros ?
      | |- quiet (Ret _) => by apply told_ret
      | |- told (Ret _) _ => apply told_ret
      | |- quiet (match ?x with _ => _ end) => destruct x
      | |- told (match ?x with _ => _ end) _ => destruct x
      end ])
with quietly_alone := solve [quietly].

Lemma quiet_say_all lines : quiet (say_all lines).
Proof. induction lines; cbn [say_all]; quietly. Qed.
Lemma quiet_complain_all lines : quiet (complain_all lines).
Proof. induction lines; cbn [complain_all]; quietly. Qed.
Lemma quiet_inheritedEnv names : quiet (inheritedEnv names).
Proof. induction names; cbn [inheritedEnv]; quietly. Qed.
#[export] Hint Resolve quiet_say_all quiet_complain_all quiet_inheritedEnv : quiet.
Lemma quiet_openCoordination cfg : quiet (openCoordination cfg).
Proof. unfold openCoordination. quietly. Qed.
#[export] Hint Resolve quiet_openCoordination : quiet.
Lemma quiet_openDeployment f cfg catalog : quiet (openDeployment f cfg catalog).
Proof. unfold openDeployment, hostName, instanceID. quietly. Qed.
Lemma quiet_close d : quiet (close d).
Proof. unfold close, coordination_close. quietly. Qed.
Lemma quiet_acceptWaiting d cfg catalog declared srcs : quiet (acceptWaiting d cfg catalog declared srcs).
Proof. unfold acceptWaiting. quietly. Qed.
Lemma quiet_loadPlaybooks f cfg catalog declared srcs : quiet (loadPlaybooks f cfg catalog declared srcs).
Proof. unfold loadPlaybooks. quietly. Qed.
Lemma quiet_openResolvableCatalog cfg : quiet (openResolvableCatalog cfg).
Proof. unfold openResolvableCatalog. quietly. Qed.
Lemma quiet_said_waited finished : quiet (said_waited finished).
Proof. unfold said_waited. quietly. Qed.
Lemma calm_say_all lines : calm (say_all lines).
Proof. induction lines; cbn [say_all]; calmly. Qed.
#[export] Hint Resolve calm_say_all : calm.
Lemma calm_close d : calm (close d).
Proof. unfold close, coordination_close. calmly. Qed.
Lemma calm_said_waited finished : calm (said_waited finished).
Proof. unfold said_waited. calmly. Qed.
#[export] Hint Resolve calm_close calm_said_waited : calm.
#[export] Hint Resolve quiet_openDeployment quiet_close quiet_acceptWaiting quiet_loadPlaybooks quiet_openResolvableCatalog
  quiet_said_waited : quiet.

(** ** The commands that ask for a run *)

Definition is_success (x : gerror + Records.Run) : Prop := match x with inr finished => u_Status finished = StatusSucceeded | inl _ => False end.

(** What ended without a failure asked for one run, and it succeeded; what ended with one asked for
    none, or for one that did not. *)
Definition tells (l : list (gerror + Records.Run)) (ended : option failure) : Prop :=
  match ended with
  | None => ∃ x, l = [x] ∧ is_success x
  | Some _ => l = [] ∨ ∃ x, l = [x] ∧ ¬ is_success x
  end.

Lemma told_concluded book x waited : (∀ run, quiet (waited run)) →
  told (concluded book x waited) (λ l ended, tells ([x] ++ l) ended).
Proof.
  intros Hw. unfold concluded. destruct x as [err|finished].
  - destruct (as_refused err) as [refused|]; quietly; right; exists (inl err); (split; [done|by intros []]).
  - apply told_bind; [apply Hw|]. intros line. apply told_bind; [apply quiet_say_all|]. intros []. apply told_ret.
    unfold finished_failure. destruct (String.eqb_spec (u_Status finished) StatusSucceeded) as [He|He]; cbn [tells];
      [by exists (inr finished)|right; by exists (inr finished)].
Qed.

Lemma calm_concluded book x waited : (∀ run, calm (waited run)) → calm (concluded book x waited).
Proof. intros Hw. unfold concluded. calmly. Qed.

(** A command's own errors come before it asks for a run. *)
Lemma tells_none err : tells [] (Some err).
Proof. by left. Qed.
#[export] Hint Resolve tells_none : quiet.

Lemma told_run_book f cfg catalog declared srcs book values : told (run_book f cfg catalog declared srcs book values) tells.
Proof.
  unfold run_book. quietly; (apply told_deferring; [|apply quiet_close|apply calm_close]); [quietly|]. apply told_asking; [done|intros x..].
  - apply calm_concluded, calm_said_waited.
  - apply told_concluded, quiet_said_waited.
Qed.

Lemma told_run check f name : told (run check f name) tells.
Proof.
  unfold run, with_playbooks. quietly; apply told_run_book.
Qed.

Lemma told_fromRecord f ask id : (∀ d id book (k : gerror + Records.Run → cli (option failure)) Q,
    (∀ x, calm (k x)) → (∀ x, told (k x) (λ l, Q ([x] ++ l))) → told (bind (ask d id book) k) Q) →
  told (fromRecord f ask id) tells.
Proof.
  intros Hask. unfold fromRecord, with_deployment. quietly. apply told_deferring; [|apply quiet_close|apply calm_close]. quietly.
  apply Hask; intros x; [apply calm_concluded; intros finished; apply calm_ret|]. apply told_concluded. intros finished. by apply told_ret.
Qed.

(** A command that runs a playbook, by hand or again. *)
Inductive run_command check (f : flags) : cli (option failure) → Prop :=
| run_command_run name : run_command check f (run check f name)
| run_command_replay id : run_command check f (replay f id)
| run_command_resume id : run_command check f (resume f id).

Lemma told_run_command check f p : run_command check f p → told p tells.
Proof.
  destruct 1 as [name|id|id]; [apply told_run|unfold replay|unfold resume]; apply told_fromRecord; cbv beta;
    intros d id' book k Q Hcalm Hk.
  - apply (told_asking (Replay d id' book) k Q); [done|exact Hcalm|exact Hk].
  - apply (told_asking (Resume d id' book) k Q); [done|exact Hcalm|exact Hk].
Qed.

Lemma run_command_command refused check f p : run_command check f p → command refused check f p.
Proof. destruct 1; constructor. Qed.

(** [main] panics where its command does. *)
Lemma main_panics p tr : reaches (main p) tr Panic → reaches p tr Panic.
Proof.
  intros [H|(ended & tr1 & tr2 & -> & _ & H)]%reaches_bind; [done|]. exfalso. revert tr2 H. change (calm
    match ended with None => Ret 0 | Some (Silent _) => Ret 1 | Some (Loud err) => let! _ := Do (Complain ("gronin: " +:+ Error err)) in Ret 1 end).
  calmly.
Qed.

(** C32: The exit status tells the run: whatever the files, the record, the guard and the run itself
    answer, gronin run, replay and resume ask for at most one run; the process exits with 0 only
    when exactly one was asked for and came back succeeded, with 1 when none was, when the guard
    refused it, when it could not be started or when it ended in any other way, and with 2 when it
    panicked, which it does only before it has asked for one, with the record open and nothing else,
    because coordination.json was read as naming a backend and names none. *)
Theorem the_exit_status_tells_the_run check f p tr status : run_command check f p → exits (main p) tr status →
  (status = 0 ∧ ∃ x, asked tr = [x] ∧ is_success x) ∨
  (status = 1 ∧ (asked tr = [] ∨ ∃ x, asked tr = [x] ∧ ¬ is_success x)) ∨
  (status = 2 ∧ asked tr = [] ∧ foldl moved nothing_held tr = record_left).
Proof.
  intros Hp [(ended & tr1 & tr2 & -> & H1 & H2)%runs_bind|[H%main_panics ->]].
  - apply (told_run_command _ _ _ Hp) in H1. rewrite asked_app.
    assert (asked tr2 = [] ∧ status = match ended with None => 0 | Some _ => 1 end) as [-> ->].
    { destruct ended as [[err|err]|]; [|by destruct H2 as [-> <-]..].
      destruct H2 as (x & tr' & -> & -> & <-). by split. }
    rewrite app_nil_r. destruct ended; [by right; left|by left].
  - right; right. apply (run_command_command (λ _, Text "")) in Hp as Hc. apply releases_command in Hc.
    split; [done|]. split; [by apply (told_run_command _ _ _ Hp)|]. exact (proj2 (releases_reaches p tr Panic Hc H)).
Qed.
