(* ===== verification/CliScene.v ===== *)
(** The commands in one small world: a deployment of one scheduled playbook on one host, whose
    agent and record answer well.  The theorems over every trace are applied to its traces, and
    the cases the code does not expect are shown there. *)
From S2P Require Import Prelude GoStr GoTime GoErr GoJson Config Schedule Playbook Gate Loader.
From S2P Require Import Values Records Sources Eff Cli Commands Serve CliSafe.
From S2P Require McpCatalog Collections GuardConfig Host.

(** ** The deployment's files *)

Definition scene_config : Config := mkConfig "/srv/gronin" {["api_token" := mkValue "s3cret" true]}.
Definition scene_book (trigger : Trigger) : Playbook :=
  mkPlaybook "nightly" "" trigger [] (mkAgent "" "nightly.md" None [] [] [] ANil "") [] None [] "/srv/gronin/playbooks/nightly.yaml".
Definition scheduled : Playbook := scene_book (mkTrigger "cron" "0 3 * * *" "" ∅).
Definition delivered : Playbook := scene_book (mkTrigger "webhook" "" "github" ∅).
Definition scene_flags : flags := mkFlags "/srv/gronin" "" "" "127.0.0.1:7717" 20 None "" false.
Definition scene_run (status : string) : Records.Run :=
  mkRun "run-1" "nightly" "" "" "" "manual" "" status 1 2 (QArith_base.inject_Z 0) 0 "" "" "" "" 0 "" 0 "".

(** ** The world *)

(** What differs between scenes: the playbooks, the coordination and how a run ends. *)
Section scene.
Context (books : list Playbook) (coordination : gerror + (GuardConfig.Config * bool)) (finished : gerror + Records.Run).

Definition answers (c : cli_cmd) : option (cli_resp c) :=
  match c with
  | OpenConfig => Some (inr scene_config)
  | OpenCatalog => Some (inr (McpCatalog.mkCatalog ∅))
  | OpenCollections => Some (inr (Collections.mkCatalog ∅))
  | OpenSources cfg => Some (inr (Sources.mkCatalog ∅ cfg))
  | LoadDirectory _ _ => Some (inr (mkLoaded books []))
  | LoadCoordination _ => Some coordination
  | SetConfig _ _ | OpenRecord _ | DialEtcd _ | HoldInstance _ | AskEtcd _ _ | OpenIndex _ _ => Some None
  | CloseRecord | CloseEtcd | CloseInstance | StartAPI _ | StopAPI | Say _ | Complain _ | Warn _ | CloseIndex => Some tt
  | LookupEnv _ => Some None
  | RandomSuffix => Some (Some "instance-1")
  | Hostname => Some (inr "host-1")
  | CheckAgent _ => Some (inr "2.1.0")
  | ProbeCredential _ _ _ => Some (inr "ANTHROPIC_API_KEY")
  | Listen address => Some (inr address)
  | Now => Some 1
  | MarkRunningAsInterrupted | Reconcile => Some (inr 0)
  | GetRun _ | Execute _ _ _ | Replay _ _ _ | Resume _ _ _ => Some finished
  | ParseSchedule _ => Some (inr (λ t, t + Hour))
  | RunScheduler _ _ _ => Some canceled
  | _ => None
  end.

Definition played (p : cli (option failure)) : option (list (event (Sg := cli_sig)) * option failure) := play (Sg := cli_sig) answers p.
Definition trace_in (p : cli (option failure)) : list (event (Sg := cli_sig)) :=
  match played p with Some (tr, _) => tr | None => [] end.
Definition end_in (p : cli (option failure)) : option failure := match played p with Some (_, a) => a | None => None end.

(** The calls made before the one that is not answered: a panic's. *)
Definition halted (p : cli (option failure)) : option (list (event (Sg := cli_sig)) * cli_cmd) := halt (Sg := cli_sig) answers p.

Lemma played_runs p : is_Some (played p) → runs p (trace_in p) (end_in p).
Proof.
  intros [[tr a] Hp]. unfold trace_in, end_in. rewrite Hp. by apply (play_runs (Sg := cli_sig) answers).
Qed.
End scene.

Definition single_host : gerror + (GuardConfig.Config * bool) := inr (GuardConfig.DefaultConfig, false).
Definition succeeded : gerror + Records.Run := inr (scene_run StatusSucceeded).
Definition bad_address (address : string) : gerror := Text "no port".
Definition no_values (book : Playbook) (values : gmap string any) : list ValueRefusal + gmap string string := inr ∅.
Definition serving_scene : cli (option failure) := serve bad_address scene_flags.
Definition running_scene : cli (option failure) := run no_values scene_flags "nightly".

(** ** The theorems there *)

(** A coordination.json that is read as naming a backend, and names none. *)
Definition no_backend : gerror + (GuardConfig.Config * bool) := inr (GuardConfig.DefaultConfig, true).
Definition panicking_trace : list (event (Sg := cli_sig)) :=
  match halted [scheduled] no_backend succeeded running_scene with Some (tr, _) => tr | None => [] end.

Lemma running_panics : reaches running_scene panicking_trace Panic.
Proof. apply (halt_reaches (Sg := cli_sig) (answers [scheduled] no_backend succeeded)). vm_compute. reflexivity. Qed.

Lemma every_command_is_tidy_witness :
  (command bad_address no_values scene_flags running_scene ∧
   runs running_scene (trace_in [scheduled] single_host succeeded running_scene) (end_in [scheduled] single_host succeeded running_scene) ∧
   reaches running_scene panicking_trace Panic) ∧
  foldl moved nothing_held (trace_in [scheduled] single_host succeeded running_scene) = nothing_held ∧
  foldl moved nothing_held panicking_trace = record_left.
Proof.
  assert (command bad_address no_values scene_flags running_scene) as Hc by apply command_run.
  assert (runs running_scene (trace_in [scheduled] single_host succeeded running_scene)
            (end_in [scheduled] single_host succeeded running_scene)) as Hr.
  { apply played_runs. vm_compute. by eexists. }
  destruct (every_command_is_tidy bad_address no_values scene_flags running_scene Hc) as (Hends & _ & Hpanics).
  split; [split_and!; [exact Hc|exact Hr|exact running_panics]|].
  split; [exact (Hends _ _ Hr)|exact (Hpanics _ running_panics)].
Defined.

(** Up to the scheduler, and up to the record. *)
Definition serving_trace : list (event (Sg := cli_sig)) := trace_in [scheduled] single_host succeeded serving_scene.


(** The run came back failed. *)
Definition failed_ : gerror + Records.Run := inr (scene_run StatusFailed).
Definition main_trace (finished : gerror + Records.Run) : option (list (event (Sg := cli_sig)) * Z) :=
  play (Sg := cli_sig) (answers [scheduled] single_host finished) (main running_scene).

Lemma main_running_panics : reaches (main running_scene) panicking_trace Panic.
Proof.
  apply (halt_reaches (Sg := cli_sig) (answers [scheduled] no_backend succeeded)). vm_compute. reflexivity.
Qed.

Lemma the_exit_status_tells_the_run_witness :
  ∃ tr,
    (run_command no_values scene_flags running_scene ∧ exits (main running_scene) tr 1 ∧ exits (main running_scene) panicking_trace 2) ∧
    (asked tr = [] ∨ ∃ x, asked tr = [x] ∧ ¬ is_success x) ∧
    asked panicking_trace = [] ∧ foldl moved nothing_held panicking_trace = record_left.
Proof.
  assert (∃ tr, main_trace failed_ = Some (tr, 1)) as [tr Htr] by (vm_compute; by eexists).
  assert (run_command no_values scene_flags running_scene) as Hc by apply run_command_run.
  assert (exits (main running_scene) tr 1) as Hr by (left; by apply (play_runs (Sg := cli_sig) _ _ _ _ Htr)).
  assert (exits (main running_scene) panicking_trace 2) as Hp by (right; split; [apply main_running_panics|done]).
  exists tr. split; [by split_and!|].
  destruct (the_exit_status_tells_the_run no_values scene_flags running_scene tr 1 Hc Hr) as [[? _]|[[_ H]|[? _]]]; [done| |done].
  split; [exact H|].
  by destruct (the_exit_status_tells_the_run no_values scene_flags running_scene panicking_trace 2 Hc Hp) as [[? _]|[[? _]|(_ & H1 & H2)]].
Defined.

Example exit_statuses :
  (snd <$> main_trace succeeded, snd <$> main_trace failed_, snd <$> main_trace (inl (RefusedError "already_running" "")))
  = (Some 0, Some 1, Some 1).
Proof. vm_compute. reflexivity. Qed.

(** A playbook that waits for a webhook is refused before anything is opened. *)
Example a_webhook_is_not_armed :
  map (λ e, match projT1 e with OpenRecord _ | Listen _ | RunScheduler _ _ _ => true | _ => false end)
    (trace_in [delivered] single_host succeeded serving_scene) = repeat false 7 ∧
  is_Some (end_in [delivered] single_host succeeded serving_scene).
Proof. split; [vm_compute; reflexivity|]. vm_compute. by eexists. Qed.

(** A coordination file that names no etcd is accepted as one that does: its pointer is nil, and
    opening it ends the process. *)
Example coordination_without_etcd :
  GuardConfig.document_config (λ text, inr text) (GuardConfig.mkDocument None "" "" "" "" "") = (GuardConfig.DefaultConfig, None) ∧
  GuardConfig.Config_Check GuardConfig.DefaultConfig = None ∧
  ∀ tr a, ¬ runs (openCoordination scene_config) (did (LoadCoordination scene_config) (inr (GuardConfig.DefaultConfig, true)) :: tr) a.
Proof.
  split_and!; [vm_compute; reflexivity..|]. intros tr a (x & tr' & Heq & Hr).
  apply (f_equal (λ l : list (event (Sg := cli_sig)), match head l with
    | Some (existT (LoadCoordination _) y) => Some y | _ => None end)) in Heq.
  injection Heq as Heq. subst x. by destruct Hr as ([] & _).
Qed.
