(* ===== verification/Rows.v ===== *)
(** The rows behind the record store: how [src/runtime/internal/record] writes a value in a
    column and reads it back, nulls and times included ([store.go], [runs.go], [refusals.go],
    [waiting.go]).

    [Store] keeps values; SQLite keeps columns.  An absent value is a null, an instant is a
    text, and the database orders and compares the texts.  The theorems say that what [Store]
    computes on values is what the statements compute on the columns. *)
From S2P Require Import Prelude GoStr GoTime GoErr GoNum Records.
From S2P Require Store.
From Stdlib Require Import QArith.
Open Scope Z_scope.

(** ** Instants as text *)

(** [sortableTime]: nine digits of fraction, trailing zeros and all. *)
Definition sortable (t : Z) : string := drop_last_char (rfc3339 t) +:+ fmt_frac 9 (t mod Second) "" true +:+ "Z".

Definition nullTime (t : Z) (text : string) : option string := if IsZero t then None else Some text.
Definition formatTime (t : Z) : option string := nullTime t (rfc3339_nano t).
Definition parseTime (value : option string) : Z := default 0 (text ← value; parseRFC3339 text).

Example sortable_keeps_zeros : sortable (62135596800 * Second + 500 * Millisecond) = "1970-01-01T00:00:00.500000000Z".
Proof. vm_compute. reflexivity. Qed.

Definition writable (t : Z) : Prop := 0 ≤ year_of t < 10000.

(** *** Its parts *)

Definition date_text (y m d h mi s : Z) : string :=
  digits4 y +:+ "-" +:+ digits2 m +:+ "-" +:+ digits2 d +:+ "T" +:+ digits2 h +:+ ":" +:+ digits2 mi +:+ ":" +:+ digits2 s.

Lemma sortable_text t : writable t → ∃ y m d ds,
  civil (t / Second / 86400) = (y, m, d) ∧ 0 ≤ y < 10000 ∧ 1 ≤ m ≤ 12 ∧ 1 ≤ d ≤ 31 ∧
  sortable t = date_text y m d (t / Second / 3600 mod 24) (t / Second / 60 mod 60) (t / Second mod 60) +:+ "." +:+ ds +:+ "Z" ∧
  rfc3339_nano t = date_text y m d (t / Second / 3600 mod 24) (t / Second / 60 mod 60) (t / Second mod 60)
    +:+ fmt_frac 9 (t mod Second) "" false +:+ "Z" ∧
  str_all is_digit ds = true ∧ String.length ds = 9%nat ∧ Z.of_N (digits_value ds 0) = t mod Second.
Proof.
  unfold writable, year_of, sortable, rfc3339_nano, rfc3339. intros Hy. set (s := t / Second) in *.
  destruct (civil (s / 86400)) as [[y m] d] eqn:Ec. cbn [fst] in Hy.
  destruct (civil_dated _ _ _ _ Ec) as (Hm & Hd & _).
  assert (daysIn m y ≤ 31) as H31 by (unfold daysIn; repeat case_match; lia).
  pose proof (Z.mod_pos_bound (s / 3600) 24 ltac:(lia)). pose proof (Z.mod_pos_bound (s / 60) 60 ltac:(lia)).
  pose proof (Z.mod_pos_bound s 60 ltac:(lia)). pose proof (Z.mod_pos_bound t Second ltac:(done)).
  destruct (fmt_frac_true 9 (t mod Second) "") as (ds & E & Hds & Hl & Hv); [done..|].
  exists y, m, d, ds. rewrite E, four_digits, !two_digits by lia.
  replace (digits4 y +:+ _) with (date_text y m d (s / 3600 mod 24) (s / 60 mod 60) (s mod 60) +:+ str "Z")
    by (unfold date_text; by rewrite !str_app_assoc).
  rewrite drop_last_char_app. simpl in Hv. split_and!; (done || lia).
Qed.

(** *** The order of texts of one width *)

Lemma compare_app a a' b b' : String.length a = String.length a' →
  String.compare (a +:+ b) (a' +:+ b') = match String.compare a a' with Eq => String.compare b b' | c => c end.
Proof.
  revert a'. induction a as [|c a IH]; intros [|c' a'] Hl; simpl in Hl; try lia; [done|].
  cbn [String.append String.compare]. destruct (Ascii.compare c c'); [|done..]. apply IH. lia.
Qed.

(** The characters a number is written with compare as the number's digits. *)
Lemma compare_digit c c' : is_digit c = true → is_digit c' = true → Ascii.compare c c' = (digit_value c ?= digit_value c')%N.
Proof.
  unfold is_digit, digit_value, Ascii.compare. intros [H _]%andb_prop [H' _]%andb_prop.
  apply Nat.leb_le in H, H'. unfold nat_of_ascii in H, H'. destruct (N.compare_spec (N_of_ascii c) (N_of_ascii c')); symmetry.
  - apply N.compare_eq_iff. lia.
  - apply N.compare_lt_iff. lia.
  - apply N.compare_gt_iff. lia.
Qed.
Lemma digit_value_bound c : is_digit c = true → (digit_value c < 10)%N.
Proof. unfold is_digit, digit_value. intros [_ H%Nat.leb_le]%andb_prop. unfold nat_of_ascii in H. lia. Qed.

Lemma digits_value_bound ds : str_all is_digit ds = true → Z.of_N (digits_value ds 0) < 10 ^ Z.of_nat (String.length ds).
Proof.
  induction ds as [|c ds IH]; [done|]. cbn [str_all String.length digits_value]. intros [Hc Hd]%andb_prop.
  rewrite digits_value_acc, Nat2Z.inj_succ, Z.pow_succ_r by lia. pose proof (digit_value_bound c Hc). specialize (IH Hd).
  assert (Z.of_N (0 * 10 + digit_value c) ≤ 9) by lia. nia.
Qed.

(** Texts of digits of one length compare as the numbers they say. *)
Lemma compare_digits ds ds' : String.length ds = String.length ds' → str_all is_digit ds = true → str_all is_digit ds' = true →
  String.compare ds ds' = (Z.of_N (digits_value ds 0) ?= Z.of_N (digits_value ds' 0)).
Proof.
  revert ds'. induction ds as [|c ds IH]; intros [|c' ds'] Hl; simpl in Hl; try lia; [done|].
  cbn [str_all String.compare digits_value]. intros [Hc Hd]%andb_prop [Hc' Hd']%andb_prop.
  rewrite compare_digit, !(digits_value_acc _ (0 * 10 + _)) by done.
  pose proof (digits_value_bound ds Hd). pose proof (digits_value_bound ds' Hd'). injection Hl as Hl. rewrite Hl in *.
  set (p := 10 ^ Z.of_nat (String.length ds')) in *. rewrite !N.add_0_l.
  destruct (N.compare_spec (digit_value c) (digit_value c')) as [E|E|E]; symmetry.
  - rewrite IH, E by done. destruct (Z.compare_spec (Z.of_N (digits_value ds 0)) (Z.of_N (digits_value ds' 0)));
      [apply Z.compare_eq_iff|apply Z.compare_lt_iff|apply Z.compare_gt_iff]; nia.
  - apply Z.compare_lt_iff. nia.
  - apply Z.compare_gt_iff. nia.
Qed.

Lemma digits2_digits z : 0 ≤ z < 100 → str_all is_digit (digits2 z) = true ∧ Z.of_N (digits_value (digits2 z) 0) = z.
Proof. intros Hz. pose proof (parse_two z z z Hz ltac:(lia)) as Hp. unfold parse_uint in Hp. repeat case_match; simplify_eq. split; [by destruct (str_all _ _)|done]. Qed.
Lemma digits4_digits z : 0 ≤ z < 10000 → str_all is_digit (digits4 z) = true ∧ Z.of_N (digits_value (digits4 z) 0) = z.
Proof. intros Hz. pose proof (parse_four z Hz) as Hp. unfold parse_uint in Hp. repeat case_match; simplify_eq. split; [by destruct (str_all _ _)|done]. Qed.

Lemma compare_two z z' : 0 ≤ z < 100 → 0 ≤ z' < 100 → String.compare (digits2 z) (digits2 z') = (z ?= z').
Proof.
  intros Hz Hz'. destruct (digits2_digits z Hz) as [Hd Hv], (digits2_digits z' Hz') as [Hd' Hv'].
  rewrite compare_digits by done. by rewrite Hv, Hv'.
Qed.
Lemma compare_four z z' : 0 ≤ z < 10000 → 0 ≤ z' < 10000 → String.compare (digits4 z) (digits4 z') = (z ?= z').
Proof.
  intros Hz Hz'. destruct (digits4_digits z Hz) as [Hd Hv], (digits4_digits z' Hz') as [Hd' Hv'].
  rewrite compare_digits by done. by rewrite Hv, Hv'.
Qed.

(** ** Dates follow one another *)

Definition date_key (days : Z) : Z := let '(y, m, d) := civil days in (y * 12 + m) * 31 + d.

Lemma date_key_shift days k : date_key (days + 146097 * k) = date_key days + 148800 * k.
Proof. unfold date_key. rewrite civil_shift. destruct (civil days) as [[y m] d]. lia. Qed.

Lemma key_cycle : all_from (-306) 146097 (λ days, date_key days <? date_key (days + 1)) = true.
Proof. vm_cast_no_check (eq_refl true). Qed.

Lemma date_key_next days : date_key days < date_key (days + 1).
Proof.
  set (k := (days + 306) / 146097). set (day := days - 146097 * k).
  assert (-306 ≤ day < 145791) as Hday.
  { unfold day, k. pose proof (Z.div_mod (days + 306) 146097 ltac:(lia)).
    pose proof (Z.mod_pos_bound (days + 306) 146097 ltac:(lia)). lia. }
  replace days with (day + 146097 * k) by (unfold day; lia). replace (day + 146097 * k + 1) with (day + 1 + 146097 * k) by lia.
  rewrite !date_key_shift. pose proof (all_from_spec _ _ _ key_cycle day ltac:(lia)) as H. cbv beta in H. lia.
Qed.

Lemma date_key_later days n : date_key days + Z.of_nat n ≤ date_key (days + Z.of_nat n).
Proof.
  induction n as [|n IH]; [rewrite !Z.add_0_r; lia|]. pose proof (date_key_next (days + Z.of_nat n)).
  replace (days + Z.of_nat (S n)) with (days + Z.of_nat n + 1) by lia. lia.
Qed.

Lemma date_key_mono days days' : days < days' → date_key days < date_key days'.
Proof. intros H. pose proof (date_key_later days (Z.to_nat (days' - days))) as Hl. rewrite Z2Nat.id in Hl by lia. replace (days + (days' - days)) with days' in Hl by lia. lia. Qed.

(** ** The order of instants is that of their texts *)

(** What a text of fixed width says of an instant, as one number. *)
Definition instant_key (t : Z) : Z :=
  (((date_key (t / Second / 86400) * 24 + t / Second / 3600 mod 24) * 60 + t / Second / 60 mod 60) * 60 + t / Second mod 60) * Second + t mod Second.

Lemma instant_key_mono t t' : t < t' → instant_key t < instant_key t'.
Proof.
  intros H. unfold instant_key.
  assert (t / Second / 86400 < t' / Second / 86400 ∨ t / Second / 86400 = t' / Second / 86400) as [Hd|Hd].
  { pose proof (Z.div_le_mono t t' Second ltac:(done) ltac:(lia)) as H1.
    pose proof (Z.div_le_mono _ _ 86400 ltac:(done) H1). lia. }
  - apply date_key_mono in Hd. unfold Second in *. Z.to_euclidean_division_equations. lia.
  - rewrite Hd. unfold Second in *. Z.to_euclidean_division_equations. lia.
Qed.

Lemma instant_key_compare t t' : (instant_key t ?= instant_key t') = (t ?= t').
Proof.
  destruct (Z.compare_spec t t') as [->|H|H]; [by rewrite Z.compare_refl|..]; apply instant_key_mono in H;
    [by apply Z.compare_lt_iff|by apply Z.compare_gt_iff].
Qed.

Lemma compare_date y m d h mi s y' m' d' h' mi' s' tail tail' :
  0 ≤ y < 10000 → 0 ≤ y' < 10000 → 0 ≤ m < 100 → 0 ≤ m' < 100 → 0 ≤ d < 100 → 0 ≤ d' < 100 → 0 ≤ h < 100 → 0 ≤ h' < 100 →
  0 ≤ mi < 100 → 0 ≤ mi' < 100 → 0 ≤ s < 100 → 0 ≤ s' < 100 →
  String.compare (date_text y m d h mi s +:+ tail) (date_text y' m' d' h' mi' s' +:+ tail') =
  match y ?= y' with Eq => match m ?= m' with Eq => match d ?= d' with Eq => match h ?= h' with Eq =>
  match mi ?= mi' with Eq => match s ?= s' with Eq => String.compare tail tail' | c => c end | c => c end | c => c end | c => c end | c => c end | c => c end.
Proof.
  intros. unfold date_text. rewrite <- !str_app_assoc.
  assert (∀ c a b, String.compare (str c +:+ a) (str c +:+ b) = String.compare a b) as Hsep.
  { intros c a b. cbn [str String.append String.compare]. unfold Ascii.compare. by rewrite N.compare_refl. }
  change "-" with (str "-"). change "T" with (str "T"). change ":" with (str ":").
  repeat (rewrite compare_app, ?compare_four, ?compare_two, ?Hsep by (done || lia)). done.
Qed.

(** A number and a digit below it. *)
Lemma compare_radix lo n a a' b b' : lo ≤ b < lo + n → lo ≤ b' < lo + n →
  (a * n + b ?= a' * n + b') = match a ?= a' with Eq => b ?= b' | c => c end.
Proof.
  intros Hb Hb'. destruct (Z.compare_spec a a') as [->|H|H].
  - destruct (Z.compare_spec b b'); [apply Z.compare_eq_iff|apply Z.compare_lt_iff|apply Z.compare_gt_iff]; lia.
  - apply Z.compare_lt_iff. nia.
  - apply Z.compare_gt_iff. nia.
Qed.

(** The order of the fixed-width texts is the order of the instants. *)
Lemma sortable_compare t t' : writable t → writable t' → String.compare (sortable t) (sortable t') = (t ?= t').
Proof.
  intros Hw Hw'. destruct (sortable_text t Hw) as (y & m & d & ds & Ec & Hy & Hm & Hd & -> & _ & Hds & Hl & Hv).
  destruct (sortable_text t' Hw') as (y' & m' & d' & ds' & Ec' & Hy' & Hm' & Hd' & -> & _ & Hds' & Hl' & Hv').
  pose proof (Z.mod_pos_bound (t / Second / 3600) 24 ltac:(lia)). pose proof (Z.mod_pos_bound (t' / Second / 3600) 24 ltac:(lia)).
  pose proof (Z.mod_pos_bound (t / Second / 60) 60 ltac:(lia)). pose proof (Z.mod_pos_bound (t' / Second / 60) 60 ltac:(lia)).
  pose proof (Z.mod_pos_bound (t / Second) 60 ltac:(lia)). pose proof (Z.mod_pos_bound (t' / Second) 60 ltac:(lia)).
  pose proof (Z.mod_pos_bound t Second ltac:(done)). pose proof (Z.mod_pos_bound t' Second ltac:(done)).
  rewrite compare_date by lia. cbn [String.append String.compare]. change (Ascii.compare "." ".") with Eq. cbv iota.
  rewrite compare_app, compare_digits, Hv, Hv' by (done || lia). change (String.compare "Z" "Z") with Eq.
  rewrite <- (instant_key_compare t t'). unfold instant_key, date_key. rewrite Ec, Ec'.
  rewrite (compare_radix 0 Second), !(compare_radix 0 60), (compare_radix 0 24), (compare_radix 1 31), (compare_radix 1 12) by lia.
  by repeat match goal with |- context [match ?x with _ => _ end] => destruct x end.
Qed.

Corollary sortable_leb t t' : writable t → writable t' → String.leb (sortable t) (sortable t') = (t <=? t').
Proof. intros. unfold String.leb. by rewrite sortable_compare. Qed.

Lemma parse_date y m d h mi s tail : 0 ≤ y < 10000 → 1 ≤ m ≤ 12 → 1 ≤ d ≤ daysIn m y → 0 ≤ h < 24 → 0 ≤ mi < 60 → 0 ≤ s < 60 →
  parseRFC3339 (date_text y m d h mi s +:+ tail) =
  let '(nsec, rest) := fraction tail in
  match zone rest with
  | Some offset => Some ((days_of y m d * 86400 + h * 3600 + mi * 60 + s - offset) * Second + nsec)
  | None => None
  end.
Proof.
  intros Hy Hm Hd Hh Hmi Hs. assert (daysIn m y ≤ 31) as H31 by (unfold daysIn; repeat case_match; lia).
  unfold date_text, parseRFC3339. rewrite <- !str_app_assoc, !str_length_app.
  cbn [String.append digits2 digits4 str String.length Nat.add Nat.ltb Nat.leb slice str_take str_drop Nat.sub at_ String.get].
  change (String (dig (y / 1000)) (String (dig (y / 100 mod 10)) (String (dig (y / 10 mod 10)) (String (dig (y mod 10)) ""))))
    with (digits4 y).
  repeat match goal with |- context [String (dig (?z / 10)) (String (dig (?z mod 10)) "")] =>
    change (String (dig (z / 10)) (String (dig (z mod 10)) "")) with (digits2 z) end.
  rewrite parse_four, !parse_two by lia. done.
Qed.

(** An instant written with all its digits reads back. *)
Lemma sortable_reads t : writable t → parseRFC3339 (sortable t) = Some t.
Proof.
  intros Hw. destruct (sortable_text t Hw) as (y & m & d & ds & Ec & Hy & Hm & _ & -> & _ & Hds & Hl & Hv).
  destruct (civil_dated _ _ _ _ Ec) as (_ & Hd & Hdays).
  rewrite parse_date by (done || apply Z.mod_pos_bound; done). cbn [String.append fraction].
  rewrite span_digits by done. destruct ds as [|c ds]; [done|]. unfold nanoseconds.
  rewrite str_take_all by lia. rewrite Hl, Hv. change (zone "Z") with (Some 0). cbv iota. f_equal. rewrite Hdays.
  change (10 ^ (9 - Z.of_nat 9)) with 1. unfold Second in *. clear. Z.to_euclidean_division_equations. lia.
Qed.

Lemma formatTime_reads t : writable t → parseTime (formatTime t) = t.
Proof.
  intros Hw. unfold parseTime, formatTime, nullTime. destruct (IsZero t) eqn:E; [by apply Z.eqb_eq in E|].
  cbn [mbind option_bind]. by rewrite rfc3339_nano_reads.
Qed.
Lemma sortable_time t : writable t → parseTime (Some (sortable t)) = t.
Proof. intros Hw. unfold parseTime. cbn [mbind option_bind]. by rewrite sortable_reads. Qed.
Lemma nullable_time t : writable t → parseTime (nullTime t (sortable t)) = t.
Proof. intros Hw. unfold nullTime. destruct (IsZero t) eqn:E; [by apply Z.eqb_eq in E|by apply sortable_time]. Qed.

(** ** Columns *)

(** An absent text or number is a null; what a null is read as. *)
Definition nullable (value : string) : option string := if String.eqb value "" then None else Some value.
Definition nullableInt (value : Z) : option Z := if value =? 0 then None else Some value.
Definition nullableFloat (value : Q) : option Q := if Qeq_bool value 0 then None else Some value.
Definition waited (run : Run) : option Z := if String.eqb (u_WaitingTriggerID run) "" then None else Some (u_WaitedMS run).
Definition text (column : option string) : string := match column with Some value => value | None => "" end.
Definition coalesce {A} (value column : option A) : option A := match value with Some _ => value | None => column end.

Record run_row := mkRunRow {
  r_id : string; r_playbook_name : string; r_resolved_playbook_ref : option string; r_report_ref : option string;
  r_prompt_ref : option string; r_trigger_kind : string; r_parent_run_id : option string; r_status : string;
  r_started_at : option string; r_ended_at : option string; r_cost_usd : option Q; r_tokens : option Z;
  r_agent_session_id : option string; r_credential_source : option string; r_error : option string;
  r_waiting_trigger_id : option string; r_waited_ms : option Z; r_claim_reach : option string; r_claim_token : option Z;
  r_delivery_id : option string }.
Record refusal_row := mkRefusalRow {
  e_id : string; e_playbook_name : string; e_trigger_kind : string; e_due_at : option string; e_waiting_trigger_id : option string;
  e_mechanism : string; e_detail : string; e_refused_at : string; e_delivery_id : option string }.
Record trigger_row := mkTriggerRow {
  t_id : string; t_playbook_name : string; t_playbook_path : string; t_trigger_kind : string; t_trigger_ref : option string;
  t_accepted_at : string; t_expires_at : string; t_instance : string; t_outcome : string; t_outcome_at : option string;
  t_run_id : option string; t_delivery_id : option string }.
Record rate_row := mkRateRow { q_playbook_name : string; q_run_id : string; q_started_at : string }.

Definition scanRun (r : run_row) : Run :=
  mkRun (r_id r) (r_playbook_name r) (text (r_resolved_playbook_ref r)) (text (r_report_ref r)) (text (r_prompt_ref r)) (r_trigger_kind r)
    (text (r_parent_run_id r)) (r_status r) (parseTime (r_started_at r)) (parseTime (r_ended_at r)) (default 0%Q (r_cost_usd r))
    (default 0 (r_tokens r)) (text (r_agent_session_id r)) (text (r_credential_source r)) (text (r_error r))
    (text (r_waiting_trigger_id r)) (default 0 (r_waited_ms r)) (text (r_claim_reach r)) (default 0 (r_claim_token r)) (text (r_delivery_id r)).
Definition scanRefusal (e : refusal_row) : Refusal :=
  mkRefusal (e_id e) (e_playbook_name e) (e_trigger_kind e) (parseTime (e_due_at e)) (text (e_waiting_trigger_id e)) (e_mechanism e)
    (e_detail e) (parseTime (Some (e_refused_at e))) (text (e_delivery_id e)).
Definition scanWaiting (t : trigger_row) : WaitingTrigger :=
  mkWaitingTrigger (t_id t) (t_playbook_name t) (t_playbook_path t) (t_trigger_kind t) (text (t_trigger_ref t))
    (parseTime (Some (t_accepted_at t))) (parseTime (Some (t_expires_at t))) (t_instance t) (t_outcome t) (parseTime (t_outcome_at t))
    (text (t_run_id t)) (text (t_delivery_id t)).
Definition scanRate (q : rate_row) : RateStart := mkRateStart (q_playbook_name q) (q_run_id q) (parseTime (Some (q_started_at q))).

(** The tables of this file as the database has them; [c_rest] is the tables that are elsewhere. *)
Record columns := mkColumns {
  c_runs : list run_row; c_refusals : list refusal_row; c_waiting : list trigger_row; c_rates : list rate_row; c_rest : db }.
Definition no_columns : columns := mkColumns [] [] [] [] empty_db.

Definition values_of (c : columns) : db :=
  mkDb (map scanRun (c_runs c)) (map scanRefusal (c_refusals c)) (map scanWaiting (c_waiting c)) (last_ticks (c_rest c))
    (map scanRate (c_rates c)) (missed_occurrences (c_rest c)) (deliveries (c_rest c)) (delivery_identities (c_rest c))
    (handoffs (c_rest c)) (delivery_refusals (c_rest c)) (ingress_refusal_counts (c_rest c)).

Definition with_runs (rows : list run_row) (c : columns) : columns := mkColumns rows (c_refusals c) (c_waiting c) (c_rates c) (c_rest c).
Definition with_refusals (rows : list refusal_row) (c : columns) : columns := mkColumns (c_runs c) rows (c_waiting c) (c_rates c) (c_rest c).
Definition with_waiting (rows : list trigger_row) (c : columns) : columns := mkColumns (c_runs c) (c_refusals c) rows (c_rates c) (c_rest c).
Definition with_rates (rows : list rate_row) (c : columns) : columns := mkColumns (c_runs c) (c_refusals c) (c_waiting c) rows (c_rest c).

(** [REFERENCES]: a null refers to nothing. *)
Definition references {A} (id_of : A → string) (column : option string) (rows : list A) : bool :=
  match column with None => true | Some id => Store.has_id id_of id rows end.
(** [column = ?]: a null equals nothing. *)
Definition equals (column : option string) (value : string) : bool := match column with Some v => String.eqb v value | None => false end.

(** [waitingColumns]: the run the row names, or the run that names the row. *)
Definition waitingColumns (c : columns) (t : trigger_row) : trigger_row :=
  mkTriggerRow (t_id t) (t_playbook_name t) (t_playbook_path t) (t_trigger_kind t) (t_trigger_ref t) (t_accepted_at t) (t_expires_at t)
    (t_instance t) (t_outcome t) (t_outcome_at t)
    (coalesce (t_run_id t) (r_id <$> List.find (λ r, equals (r_waiting_trigger_id r) (t_id t)) (c_runs c))) (t_delivery_id t).
Definition is_waiting (t : trigger_row) : bool := String.eqb (t_outcome t) WaitWaiting.
Definition live_for (name : string) (t : trigger_row) : bool := String.eqb (t_playbook_name t) name && is_waiting t.
Definition waitingFor (name : string) (c : columns) : gerror + WaitingTrigger :=
  match List.find (live_for name) (c_waiting c) with
  | Some t => inr (scanWaiting (waitingColumns c t))
  | None => inl (Sentinel "sql: no rows in result set")
  end.

Section statements.
Context (redact : string → string).

(** ** The statements *)

Definition insertRefusal (new_id : gerror + string) (refusal : Refusal) (c : columns) : option gerror * columns :=
  match (if String.eqb (f_ID refusal) "" then new_id else inr (f_ID refusal)) with
  | inl err => (Some err, c)
  | inr id =>
      if IsZero (f_RefusedAt refusal) then (Some (Text ("refusal " +:+ id +:+ ": no time it was refused at")), c)
      else
        let row := mkRefusalRow id (redact (f_PlaybookName refusal)) (f_TriggerKind refusal)
                     (nullTime (f_DueAt refusal) (sortable (f_DueAt refusal))) (nullable (f_WaitingTriggerID refusal)) (f_Mechanism refusal)
                     (redact (f_Detail refusal)) (sortable (f_RefusedAt refusal)) (nullable (f_DeliveryID refusal)) in
        if Store.has_id e_id id (c_refusals c) then
          (Some (wrap_before ("recording refusal " +:+ id) (Store.unique_failed "refusals")), c)
        else if negb (references d_ID (e_delivery_id row) (deliveries (c_rest c))) then
          (Some (wrap_before ("recording refusal " +:+ id) Store.foreign_failed), c)
        else (None, with_refusals (c_refusals c ++ [row]) c)
  end.

Definition end_columns (outcome : string) (at_ : Z) (run_id : option string) (t : trigger_row) : trigger_row :=
  mkTriggerRow (t_id t) (t_playbook_name t) (t_playbook_path t) (t_trigger_kind t) (t_trigger_ref t) (t_accepted_at t) (t_expires_at t)
    (t_instance t) outcome (Some (sortable at_)) run_id (t_delivery_id t).

(** [put] is what the blob store answers when the trigger carries values. *)
Definition AcceptWaiting (new_id : gerror + string) (put : string → gerror + string) (trigger : WaitingTrigger) (carried : gmap string string)
    (c : columns) : WaitingTrigger * option gerror * columns :=
  if IsZero (w_AcceptedAt trigger) || IsZero (w_ExpiresAt trigger) then
    (Store.no_waiting, Some (Text "a waiting trigger with no acceptance or expiry time"), c)
  else
    match new_id with
    | inl err => (Store.no_waiting, Some err, c)
    | inr id =>
        match (if decide (carried = ∅) then inr (w_TriggerRef trigger) else put id) with
        | inl err => (Store.no_waiting, Some err, c)
        | inr ref =>
            let name := redact (w_PlaybookName trigger) in
            let row :=
              mkTriggerRow id name (redact (w_PlaybookPath trigger)) (w_TriggerKind trigger) (nullable ref) (sortable (w_AcceptedAt trigger))
                (sortable (w_ExpiresAt trigger)) (redact (w_Instance trigger)) WaitWaiting None None (nullable (w_DeliveryID trigger)) in
            if existsb (live_for name) (c_waiting c) then
              match waitingFor name c with
              | inl err =>
                  (Store.no_waiting,
                   Some (Wrap (Error Store.ErrWaitingSlotFull +:+ "; and reading which one: " +:+ Error err) [Store.ErrWaitingSlotFull; err]), c)
              | inr occupant => (occupant, Some (wrap_after Store.ErrWaitingSlotFull (": " +:+ w_ID occupant)), c)
              end
            else if Store.has_id t_id id (c_waiting c) then
              (Store.no_waiting, Some (wrap_before ("accepting a waiting trigger of " +:+ name) (Store.unique_failed "waiting_triggers")), c)
            else if negb (references d_ID (t_delivery_id row) (deliveries (c_rest c))) then
              (Store.no_waiting, Some (wrap_before ("accepting a waiting trigger of " +:+ name) Store.foreign_failed), c)
            else
              (mkWaitingTrigger id name (w_PlaybookPath trigger) (w_TriggerKind trigger) ref (w_AcceptedAt trigger) (w_ExpiresAt trigger)
                 (w_Instance trigger) WaitWaiting (w_OutcomeAt trigger) (w_RunID trigger) (w_DeliveryID trigger), None,
               with_waiting (c_waiting c ++ [row]) c)
        end
    end.

Definition CreateRun (now : Z) (run : Run) (c : columns) : option gerror * columns :=
  let started := if IsZero (u_StartedAt run) then now else u_StartedAt run in
  let row :=
    mkRunRow (u_ID run) (redact (u_PlaybookName run)) (nullable (u_ResolvedPlaybookRef run)) (nullable (u_ReportRef run))
      (nullable (u_PromptRef run)) (u_TriggerKind run) (nullable (u_ParentRunID run)) (u_Status run) (formatTime started) None None None
      None None None (nullable (u_WaitingTriggerID run)) (waited run) (nullable (u_ClaimReach run)) (nullableInt (u_ClaimToken run))
      (nullable (u_DeliveryID run)) in
  if Store.has_id r_id (u_ID run) (c_runs c) then (Some (wrap_before ("recording run " +:+ u_ID run) (Store.unique_failed "runs")), c)
  else if negb (references r_id (r_parent_run_id row) (c_runs c) && references t_id (r_waiting_trigger_id row) (c_waiting c)
                && references d_ID (r_delivery_id row) (deliveries (c_rest c))) then
    (Some (wrap_before ("recording run " +:+ u_ID run) Store.foreign_failed), c)
  else
    let c' := with_runs (c_runs c ++ [row]) c in
    if String.eqb (u_WaitingTriggerID run) "" then (None, c')
    else
      let '(rows, ended) :=
        update_where (λ t, String.eqb (t_id t) (u_WaitingTriggerID run) && is_waiting t)
          (end_columns WaitRan started (Some (u_ID run))) (c_waiting c) in
      if (ended =? 0)%nat then
        (Some (Text ("run " +:+ u_ID run +:+ ": its wait had already ended (waiting trigger " +:+ u_WaitingTriggerID run +:+ ")")), c)
      else (None, with_waiting rows c').

Definition finish_columns (run : Run) (r : run_row) : run_row :=
  mkRunRow (r_id r) (r_playbook_name r) (coalesce (nullable (u_ResolvedPlaybookRef run)) (r_resolved_playbook_ref r))
    (coalesce (nullable (u_ReportRef run)) (r_report_ref r)) (coalesce (nullable (u_PromptRef run)) (r_prompt_ref r)) (r_trigger_kind r)
    (r_parent_run_id r) (u_Status run) (r_started_at r) (formatTime (u_EndedAt run))
    (coalesce (nullableFloat (u_CostUSD run)) (r_cost_usd r)) (coalesce (nullableInt (u_Tokens run)) (r_tokens r))
    (coalesce (nullable (u_AgentSessionID run)) (r_agent_session_id r))
    (coalesce (nullable (u_CredentialSource run)) (r_credential_source r)) (nullable (redact (u_Error run)))
    (coalesce (nullable (u_WaitingTriggerID run)) (r_waiting_trigger_id r)) (coalesce (waited run) (r_waited_ms r))
    (coalesce (nullable (u_ClaimReach run)) (r_claim_reach r)) (coalesce (nullableInt (u_ClaimToken run)) (r_claim_token r)) (r_delivery_id r).

Definition oneRowChanged (changed : nat) (id : string) : option gerror :=
  if (changed =? 0)%nat then Some (wrap_after Store.ErrNotFound (": " +:+ id)) else None.

Definition FinishRun (run : Run) (c : columns) : option gerror * columns :=
  let '(rows, changed) := update_where (λ r, String.eqb (r_id r) (u_ID run)) (finish_columns run) (c_runs c) in
  if (0 <? changed)%nat && negb (references t_id (nullable (u_WaitingTriggerID run)) (c_waiting c)) then
    (Some (wrap_before ("finishing run " +:+ u_ID run) Store.foreign_failed), c)
  else (oneRowChanged changed (u_ID run), with_runs rows c).

Definition interrupt_columns (now : Z) (r : run_row) : run_row :=
  mkRunRow (r_id r) (r_playbook_name r) (r_resolved_playbook_ref r) (r_report_ref r) (r_prompt_ref r) (r_trigger_kind r) (r_parent_run_id r)
    StatusInterrupted (r_started_at r) (Some (rfc3339_nano now)) (r_cost_usd r) (r_tokens r) (r_agent_session_id r) (r_credential_source r)
    (Some "the runtime stopped while this run was in flight") (r_waiting_trigger_id r) (r_waited_ms r) (r_claim_reach r) (r_claim_token r)
    (r_delivery_id r).
Definition MarkRunningAsInterrupted (now : Z) (c : columns) : Z * columns :=
  let '(rows, changed) := update_where (λ r, String.eqb (r_status r) StatusRunning) (interrupt_columns now) (c_runs c) in
  (Z.of_nat changed, with_runs rows c).

Definition EndWait (new_id : gerror + string) (id : string) (end_ : WaitEnd) (c : columns) : (gerror + bool) * columns :=
  if String.eqb (n_Outcome end_) WaitWaiting || IsZero (n_At end_) then
    (inl (Text ("waiting trigger " +:+ id +:+ ": an end with no outcome or no time")), c)
  else
    let '(rows, changed) :=
      update_where (λ t, String.eqb (t_id t) id && is_waiting t)
        (end_columns (n_Outcome end_) (n_At end_) (nullable (n_RunID end_))) (c_waiting c) in
    if (0 <? changed)%nat && negb (references r_id (nullable (n_RunID end_)) (c_runs c)) then
      (inl (wrap_before ("ending waiting trigger " +:+ id) Store.foreign_failed), c)
    else if (changed =? 0)%nat then (inr false, c)
    else
      let c' := with_waiting rows c in
      match n_Refusal end_ with
      | None => (inr true, c')
      | Some refusal =>
          match insertRefusal new_id refusal c' with (Some err, _) => (inl err, c) | (None, c'') => (inr true, c'') end
      end.

Definition RecordRateStart (name run_id : string) (started_at : Z) (c : columns) : columns :=
  with_rates (c_rates c ++ [mkRateRow (redact name) run_id (sortable started_at)]) c.
Definition CountRateStarts (name : string) (since : Z) (c : columns) : Z :=
  Z.of_nat (length (List.filter (λ q, String.eqb (q_playbook_name q) (redact name) && String.leb (sortable since) (q_started_at q)) (c_rates c))).
End statements.

(** ** The queries *)

Definition GetRun (id : string) (c : columns) : gerror + Run :=
  match List.find (λ r, String.eqb (r_id r) id) (c_runs c) with
  | Some row => inr (scanRun row)
  | None => inl (wrap_after Store.ErrNotFound (": " +:+ id))
  end.

(** [ORDER BY started_at DESC, id DESC], by the columns' text. *)
Definition run_before (a b : run_row) : bool :=
  let ka := text (r_started_at a) in let kb := text (r_started_at b) in
  if String.eqb ka kb then String.leb (r_id b) (r_id a) else String.leb kb ka.
Definition ListRuns (limit : Z) (c : columns) : list Run := map scanRun (page limit (order_by run_before (c_runs c))).

Definition ListRefusals (limit : Z) (c : columns) : list Refusal :=
  map scanRefusal (page limit (order_by (λ a b, String.leb (e_refused_at b) (e_refused_at a)) (rev (c_refusals c)))).

Definition StillWaiting (c : columns) : list WaitingTrigger :=
  map (scanWaiting ∘ waitingColumns c) (order_by (λ a b, String.leb (t_accepted_at a) (t_accepted_at b)) (List.filter is_waiting (c_waiting c))).
Definition GetWaitingTrigger (id : string) (c : columns) : gerror + WaitingTrigger :=
  match List.find (λ t, String.eqb (t_id t) id) (c_waiting c) with
  | Some t => inr (scanWaiting (waitingColumns c t))
  | None => inl (Text ("no waiting trigger " +:+ id))
  end.

(** ** Statements, one after another *)

Inductive statement :=
| SAccept (new_id : gerror + string) (put : string → gerror + string) (trigger : WaitingTrigger) (carried : gmap string string)
| SEnd (new_id : gerror + string) (id : string) (end_ : WaitEnd)
| SCreate (now : Z) (run : Run)
| SFinish (run : Run)
| SInterrupt (now : Z)
| SRefuse (new_id : gerror + string) (refusal : Refusal)
| SRate (name run_id : string) (started_at : Z).
Inductive answer :=
| Accepted (trigger : WaitingTrigger) (err : option gerror) | Ended (r : gerror + bool) | Wrote (err : option gerror) | Changed (n : Z).

Definition on_columns (redact : string → string) (st : statement) (c : columns) : answer * columns :=
  match st with
  | SAccept new_id put trigger carried => let '(row, err, c) := AcceptWaiting redact new_id put trigger carried c in (Accepted row err, c)
  | SEnd new_id id end_ => let '(r, c) := EndWait redact new_id id end_ c in (Ended r, c)
  | SCreate now run => let '(err, c) := CreateRun redact now run c in (Wrote err, c)
  | SFinish run => let '(err, c) := FinishRun redact run c in (Wrote err, c)
  | SInterrupt now => let '(n, c) := MarkRunningAsInterrupted now c in (Changed n, c)
  | SRefuse new_id refusal => let '(err, c) := insertRefusal redact new_id refusal c in (Wrote err, c)
  | SRate name run_id started_at => (Wrote None, RecordRateStart redact name run_id started_at c)
  end.
Definition on_values (redact : string → string) (st : statement) (s : db) : answer * db :=
  match st with
  | SAccept new_id put trigger carried => let '(row, err, s) := Store.AcceptWaiting redact new_id put trigger carried s in (Accepted row err, s)
  | SEnd new_id id end_ => let '(r, s) := Store.EndWait redact new_id id end_ s in (Ended r, s)
  | SCreate now run => let '(err, s) := Store.CreateRun redact now run s in (Wrote err, s)
  | SFinish run => let '(err, s) := Store.FinishRun redact run s in (Wrote err, s)
  | SInterrupt now => let '(n, s) := Store.MarkRunningAsInterrupted now s in (Changed n, s)
  | SRefuse new_id refusal => let '(err, s) := Store.RecordRefusal redact new_id refusal s in (Wrote err, s)
  | SRate name run_id started_at => (Wrote None, Store.RecordRateStart redact name run_id started_at s)
  end.

Fixpoint all_of {S} (exec : statement → S → answer * S) (l : list statement) (s : S) : list answer * S :=
  match l with
  | [] => ([], s)
  | st :: l => let '(a, s) := exec st s in let '(answers, s) := all_of exec l s in (a :: answers, s)
  end.

(** What a statement is given: instants a time can write, a clock that has been set, identifiers. *)
Definition refusal_fits (r : Refusal) : Prop := writable (f_DueAt r) ∧ writable (f_RefusedAt r).
Definition fits (st : statement) : Prop :=
  match st with
  | SAccept new_id put trigger carried => writable (w_AcceptedAt trigger) ∧ writable (w_ExpiresAt trigger) ∧ new_id ≠ inr ""
  | SEnd new_id id end_ => writable (n_At end_) ∧ match n_Refusal end_ with Some r => refusal_fits r | None => True end
  | SCreate now run => writable now ∧ now ≠ 0 ∧ writable (u_StartedAt run) ∧ u_ID run ≠ ""
  | SFinish run => writable (u_EndedAt run)
  | SInterrupt now => writable now
  | SRefuse new_id refusal => refusal_fits refusal
  | SRate name run_id started_at => writable started_at
  end.

(** What every table of these columns keeps. *)
Record columns_ok (c : columns) : Prop := {
  ok_runs : Forall (λ r, ∃ t, writable t ∧ t ≠ 0 ∧ r_started_at r = formatTime t) (c_runs c);
  ok_refusals : Forall (λ e, ∃ t, writable t ∧ e_refused_at e = sortable t) (c_refusals c);
  ok_waiting : Forall (λ t, t_id t ≠ "" ∧ t_run_id t ≠ Some "" ∧ ∃ u, writable u ∧ t_accepted_at t = sortable u) (c_waiting c);
  ok_rates : Forall (λ q, ∃ t, writable t ∧ q_started_at q = sortable t) (c_rates c) }.

(** ** What is read of columns *)

#[local] Arguments text : simpl never.
#[local] Arguments nullable : simpl never.
#[local] Arguments nullableInt : simpl never.
#[local] Arguments parseTime : simpl never.
#[local] Arguments formatTime : simpl never.
#[local] Arguments nullTime : simpl never.
#[local] Arguments sortable : simpl never.
#[local] Arguments rfc3339_nano : simpl never.

Lemma text_nullable value : text (nullable value) = value.
Proof. unfold nullable. by destruct (String.eqb_spec value "") as [->|]. Qed.
Lemma text_coalesce value column : text (coalesce (nullable value) column) = Store.coalesce value (text column).
Proof. unfold nullable, Store.coalesce. by destruct (String.eqb_spec value ""). Qed.
Lemma int_nullable value : default 0 (nullableInt value) = value.
Proof. unfold nullableInt. by destruct (Z.eqb_spec value 0) as [->|]. Qed.
Lemma int_coalesce value column : default 0 (coalesce (nullableInt value) column) = Store.coalesce_int value (default 0 column).
Proof. unfold nullableInt, Store.coalesce_int. by destruct (Z.eqb_spec value 0). Qed.

Lemma scan_finish redact run r : writable (u_EndedAt run) → scanRun (finish_columns redact run r) = Store.finish_row redact run (scanRun r).
Proof.
  intros Hw. unfold scanRun, finish_columns, Store.finish_row, nullableFloat, waited.
  cbn [r_id r_playbook_name r_resolved_playbook_ref r_report_ref r_prompt_ref r_trigger_kind r_parent_run_id r_status r_started_at r_ended_at
    r_cost_usd r_tokens r_agent_session_id r_credential_source r_error r_waiting_trigger_id r_waited_ms r_claim_reach r_claim_token r_delivery_id].
  rewrite !text_coalesce, !int_coalesce, text_nullable, formatTime_reads by done.
  f_equal; [by destruct (Qeq_bool _ _)|by destruct (String.eqb _ _)].
Qed.
Lemma scan_interrupt now r : writable now → scanRun (interrupt_columns now r) = Store.interrupt_row now (scanRun r).
Proof.
  intros Hw. unfold scanRun, interrupt_columns, Store.interrupt_row. cbn -[parseTime rfc3339_nano].
  f_equal. unfold parseTime. cbn [mbind option_bind]. by rewrite rfc3339_nano_reads.
Qed.
Lemma scan_end outcome at_ run_id t : writable at_ →
  scanWaiting (end_columns outcome at_ run_id t) = Store.end_row outcome at_ (text run_id) (scanWaiting t).
Proof. intros Hw. unfold scanWaiting, end_columns, Store.end_row. cbn -[parseTime sortable]. by rewrite (sortable_time at_). Qed.

(** ** Tables of columns and tables of values *)

Section tables.
Context {A B : Type} (f : A → B).

Lemma has_id_map (id_of : A → string) (id_of' : B → string) id l :
  (∀ x, id_of' (f x) = id_of x) → Store.has_id id_of' id (map f l) = Store.has_id id_of id l.
Proof. intros H. unfold Store.has_id. induction l as [|x l IH]; [done|]. simpl. by rewrite H, IH. Qed.
Lemma refers_map (id_of : A → string) (id_of' : B → string) v l :
  (∀ x, id_of' (f x) = id_of x) → Store.refers id_of' v (map f l) = references id_of (nullable v) l.
Proof. intros H. unfold Store.refers, references, nullable. destruct (String.eqb v ""); [done|]. by apply has_id_map. Qed.

Lemma update_where_map (p : A → bool) (p' : B → bool) g g' l :
  (∀ x, p' (f x) = p x) → (∀ x, f (g x) = g' (f x)) →
  update_where p' g' (map f l) = (map f (fst (update_where p g l)), snd (update_where p g l)).
Proof.
  intros Hp Hg. unfold update_where. cbn [fst snd]. f_equal.
  - rewrite !List.map_map. apply List.map_ext. intros x. rewrite Hp. by destruct (p x).
  - induction l as [|x l IH]; [done|]. simpl. rewrite Hp. destruct (p x); simpl; by rewrite IH.
Qed.

Lemma find_map_in (p : A → bool) (p' : B → bool) l : Forall (λ x, p' (f x) = p x) l → List.find p' (map f l) = f <$> List.find p l.
Proof. induction 1 as [|x l H _ IH]; [done|]. simpl. rewrite H. by destruct (p x). Qed.
Lemma filter_map_in (p : A → bool) (p' : B → bool) l : Forall (λ x, p' (f x) = p x) l → List.filter p' (map f l) = map f (List.filter p l).
Proof. induction 1 as [|x l H _ IH]; [done|]. simpl. rewrite H, IH. by destruct (p x). Qed.

Lemma order_by_map (le : A → A → bool) (le' : B → B → bool) (P : A → Prop) l :
  (∀ x y, P x → P y → le' (f x) (f y) = le x y) → Forall P l → order_by le' (map f l) = map f (order_by le l).
Proof.
  intros Hle. induction 1 as [|x l Hx Hl IH]; [done|]. unfold order_by in *. cbn [map foldr]. rewrite IH.
  assert (Forall P (foldr (insert_by le) [] l)) as HP by (change (Forall P (order_by le l)); by rewrite order_by_perm).
  clear IH Hl. revert HP. generalize (foldr (insert_by le) [] l) as m. induction 1 as [|y m Hy _ IH]; [done|].
  cbn [map insert_by]. rewrite Hle by done. destruct (le x y); [done|]. cbn [map]. by rewrite IH.
Qed.
End tables.

Lemma page_map {A B} (f : A → B) limit l : page limit (map f l) = map f (page limit l).
Proof. unfold page. apply firstn_map. Qed.
Lemma unchanged {A} (p : A → bool) g l : snd (update_where p g l) = 0%nat → fst (update_where p g l) = l.
Proof.
  unfold update_where. cbn [fst snd]. induction l as [|x l IH]; [done|]. simpl. destruct (p x); [done|]. intros H. by rewrite IH.
Qed.

(** ** The statements write what [Store] computes *)

Lemma ref_deliveries v l : Store.refers d_ID v l = references d_ID (nullable v) l.
Proof. rewrite <- (List.map_id l) at 1. by apply refers_map. Qed.

Lemma insertRefusal_writes redact new_id refusal c : refusal_fits refusal → columns_ok c →
  Store.insertRefusal redact new_id refusal (values_of c) = (fst (insertRefusal redact new_id refusal c), values_of (snd (insertRefusal redact new_id refusal c)))
  ∧ columns_ok (snd (insertRefusal redact new_id refusal c)).
Proof.
  intros [Hd Hr] [H1 H2 H3 H4]. unfold insertRefusal, Store.insertRefusal.
  destruct (if String.eqb (f_ID refusal) "" then new_id else inr (f_ID refusal)) as [err|id]; [done|].
  destruct (IsZero (f_RefusedAt refusal)); [done|]. cbn [refusals values_of].
  rewrite (has_id_map scanRefusal e_id) by done. destruct (Store.has_id e_id id (c_refusals c)); [done|].
  cbn [deliveries values_of e_delivery_id]. rewrite ref_deliveries. destruct (negb _); [done|]. cbn [fst snd]. split.
  - unfold values_of, set_refusals. cbn. rewrite map_app. cbn [map].
    unfold scanRefusal at 3, Store.redacted_refusal. cbn -[scanRefusal]. by rewrite !text_nullable, nullable_time, (sortable_time (f_RefusedAt refusal)).
  - split; cbn; try done. apply Forall_app. split; [done|]. constructor; [|done]. by exists (f_RefusedAt refusal).
Qed.

Lemma waiting_columns_scan c t : columns_ok c → t_id t ≠ "" → t_run_id t ≠ Some "" →
  Store.waiting_columns (values_of c) (scanWaiting t) = scanWaiting (waitingColumns c t).
Proof.
  intros _ Hid Hrun. unfold Store.waiting_columns, waitingColumns, scanWaiting. cbn -[parseTime]. f_equal.
  destruct (t_run_id t) as [run|]; unfold text.
  - cbn [coalesce]. by destruct (String.eqb_spec run "") as [->|].
  - cbn [coalesce String.eqb negb].
    rewrite (find_map_in scanRun (λ r, equals (r_waiting_trigger_id r) (t_id t))).
    + by destruct (List.find _ _).
    + apply Forall_forall. intros r _. unfold equals, text. cbn. destruct (r_waiting_trigger_id r); [done|].
      by apply String.eqb_neq.
Qed.

Lemma waitingFor_writes name c : columns_ok c → Store.waitingFor name (values_of c) = waitingFor name c.
Proof.
  intros Hok. unfold Store.waitingFor, waitingFor. cbn [waiting_triggers values_of].
  rewrite (find_map_in scanWaiting (live_for name)) by (apply Forall_forall; done).
  destruct (List.find (live_for name) (c_waiting c)) as [t|] eqn:E; [|done]. cbn. f_equal.
  apply List.find_some in E as [Hin _]. apply list_elem_of_In in Hin.
  destruct (proj1 (Forall_forall _ _) (ok_waiting c Hok) t Hin) as (? & ? & _). by apply waiting_columns_scan.
Qed.

Lemma AcceptWaiting_writes redact new_id put trigger carried c : fits (SAccept new_id put trigger carried) → columns_ok c →
  let '(row, err, c') := AcceptWaiting redact new_id put trigger carried c in
  Store.AcceptWaiting redact new_id put trigger carried (values_of c) = (row, err, values_of c') ∧ columns_ok c'.
Proof.
  intros (Ha & He & Hid) Hok. unfold AcceptWaiting, Store.AcceptWaiting.
  destruct (IsZero (w_AcceptedAt trigger) || IsZero (w_ExpiresAt trigger)); [done|]. destruct new_id as [err|id]; [done|].
  destruct (if decide (carried = ∅) then _ else _) as [err|ref]; [done|]. cbn [waiting_triggers values_of].
  replace (existsb (Store.live_for (redact (w_PlaybookName trigger))) (map scanWaiting (c_waiting c)))
    with (existsb (live_for (redact (w_PlaybookName trigger))) (c_waiting c))
    by (induction (c_waiting c) as [|t l IH]; [done|]; simpl; by rewrite IH).
  destruct (existsb _ _).
  { rewrite waitingFor_writes by done. by destruct (waitingFor _ c). }
  rewrite (has_id_map scanWaiting t_id) by done. destruct (Store.has_id t_id id (c_waiting c)); [done|].
  cbn [deliveries values_of t_delivery_id]. rewrite ref_deliveries. destruct (negb _); [done|]. split.
  - unfold values_of, set_waiting. cbn. rewrite map_app. cbn [map].
    unfold scanWaiting at 3. cbn -[scanWaiting]. by rewrite !text_nullable, (sortable_time (w_AcceptedAt trigger)), (sortable_time (w_ExpiresAt trigger)).
  - destruct Hok as [H1 H2 H3 H4]. split; cbn; try done. apply Forall_app. split; [done|]. constructor; [|done]. cbn.
    split; [congruence|]. split; [done|]. by exists (w_AcceptedAt trigger).
Qed.

Lemma waiting_ok_end c outcome at_ run_id p : columns_ok c → run_id ≠ Some "" →
  columns_ok (with_waiting (fst (update_where p (end_columns outcome at_ run_id) (c_waiting c))) c).
Proof.
  intros [H1 H2 H3 H4] Hr. split; cbn; try done. apply Forall_map. eapply Forall_impl; [exact H3|].
  intros t (Hid & Hrun & Hu). by destruct (p t).
Qed.

Lemma waiting_update outcome at_ run_id id l : writable at_ →
  update_where (Store.waiting_row id) (Store.end_row outcome at_ (text run_id)) (map scanWaiting l) =
  (map scanWaiting (fst (update_where (λ t, String.eqb (t_id t) id && is_waiting t) (end_columns outcome at_ run_id) l)),
   snd (update_where (λ t, String.eqb (t_id t) id && is_waiting t) (end_columns outcome at_ run_id) l)).
Proof. intros Hw. apply update_where_map; [done|]. intros t. by apply scan_end. Qed.

Lemma nullable_some v : nullable v ≠ Some "".
Proof. unfold nullable. by destruct (String.eqb_spec v ""); [|intros [=]]. Qed.

Lemma EndWait_writes redact new_id id end_ c : fits (SEnd new_id id end_) → columns_ok c →
  let '(r, c') := EndWait redact new_id id end_ c in
  Store.EndWait redact new_id id end_ (values_of c) = (r, values_of c') ∧ columns_ok c'.
Proof.
  intros (Ha & Hf) Hok. unfold EndWait, Store.EndWait. destruct (String.eqb _ _ || IsZero _); [done|].
  cbn [waiting_triggers values_of]. pose proof (waiting_update (n_Outcome end_) (n_At end_) (nullable (n_RunID end_)) id (c_waiting c) Ha) as Hu.
  rewrite text_nullable in Hu. rewrite Hu. clear Hu.
  set (p := λ t, String.eqb (t_id t) id && is_waiting t). set (g := end_columns _ _ _).
  pose proof (waiting_ok_end c (n_Outcome end_) (n_At end_) (nullable (n_RunID end_)) p Hok (nullable_some _)) as Hok'. fold g in Hok'.
  destruct (update_where p g (c_waiting c)) as [rows changed]. cbn [fst snd] in *.
  cbn [runs values_of]. rewrite (refers_map scanRun r_id) by done. destruct (_ && _); [done|]. destruct (changed =? 0)%nat; [done|].
  destruct (n_Refusal end_) as [refusal|]; [|done].
  destruct (insertRefusal_writes redact new_id refusal (with_waiting rows c) Hf Hok') as [E Hok''].
  change (set_waiting (map scanWaiting rows) (values_of c)) with (values_of (with_waiting rows c)). rewrite E.
  by destruct (insertRefusal redact new_id refusal (with_waiting rows c)) as [[err|] c''].
Qed.

Lemma runs_ok_update c p g : columns_ok c → (∀ r, r_started_at (g r) = r_started_at r) →
  columns_ok (with_runs (fst (update_where p g (c_runs c))) c).
Proof.
  intros [H1 H2 H3 H4] Hg. split; cbn; try done. apply Forall_map. eapply Forall_impl; [exact H1|].
  intros r Hr. cbn beta. destruct (p r); [|done]. by rewrite Hg.
Qed.

Lemma CreateRun_writes redact now run c : fits (SCreate now run) → columns_ok c →
  let '(err, c') := CreateRun redact now run c in
  Store.CreateRun redact now run (values_of c) = (err, values_of c') ∧ columns_ok c'.
Proof.
  intros (Hn & Hz & Hs & Hid) Hok. unfold CreateRun, Store.CreateRun. cbn [runs waiting_triggers deliveries values_of].
  set (started := if IsZero (u_StartedAt run) then now else u_StartedAt run).
  assert (writable started ∧ started ≠ 0) as [Hw Hw0].
  { unfold started, IsZero. by destruct (Z.eqb_spec (u_StartedAt run) 0). }
  rewrite (has_id_map scanRun r_id) by done. destruct (Store.has_id r_id (u_ID run) (c_runs c)); [done|].
  rewrite (refers_map scanRun r_id), (refers_map scanWaiting t_id), ref_deliveries by done.
  cbn [r_parent_run_id r_waiting_trigger_id r_delivery_id]. destruct (negb _); [done|].
  set (row := mkRunRow _ _ _ _ _ _ _ _ _ _ _ _ _ _ _ _ _ _ _ _).
  set (value := mkRun _ _ _ _ _ _ _ _ _ _ _ _ _ _ _ _ _ _ _ _).
  assert (scanRun row = value) as Hrow.
  { unfold scanRun, row, value, Store.waited, waited. cbn. rewrite !text_nullable, int_nullable, formatTime_reads by done. f_equal. by destruct (String.eqb _ _). }
  assert (values_of (with_runs (c_runs c ++ [row]) c) = set_runs (map scanRun (c_runs c) ++ [value]) (values_of c)) as Hv.
  { unfold values_of, set_runs. cbn -[scanRun row]. rewrite map_app. cbn [map]. by rewrite Hrow. }
  assert (columns_ok (with_runs (c_runs c ++ [row]) c)) as Hok'.
  { destruct Hok as [H1 H2 H3 H4]. split; cbn; try done. apply Forall_app. split; [done|]. constructor; [|done]. by exists started. }
  destruct (String.eqb (u_WaitingTriggerID run) ""); [by rewrite <- Hv|].
  pose proof (waiting_update WaitRan started (Some (u_ID run)) (u_WaitingTriggerID run) (c_waiting c) Hw) as Hu.
  change (text (Some (u_ID run))) with (u_ID run) in Hu. rewrite Hu. clear Hu.
  pose proof (waiting_ok_end _ WaitRan started (Some (u_ID run)) (λ t, String.eqb (t_id t) (u_WaitingTriggerID run) && is_waiting t) Hok'
    ltac:(congruence)) as Hok''. cbn [c_waiting with_runs] in Hok''.
  destruct (update_where _ (end_columns _ _ _) _) as [rows ended]. cbn [fst snd] in *. destruct (ended =? 0)%nat; [done|].
  split; [|done]. rewrite <- Hv. done.
Qed.

Lemma FinishRun_writes redact run c : fits (SFinish run) → columns_ok c →
  let '(err, c') := FinishRun redact run c in
  Store.FinishRun redact run (values_of c) = (err, values_of c') ∧ columns_ok c'.
Proof.
  intros Hf Hok. unfold FinishRun, Store.FinishRun. cbn [runs waiting_triggers values_of].
  rewrite (update_where_map scanRun (λ r, String.eqb (r_id r) (u_ID run)) _ (finish_columns redact run)) by (done || (intros r; by apply scan_finish)).
  pose proof (runs_ok_update c (λ r, String.eqb (r_id r) (u_ID run)) (finish_columns redact run) Hok ltac:(done)) as Hok'.
  pose proof (unchanged (λ r, String.eqb (r_id r) (u_ID run)) (finish_columns redact run) (c_runs c)) as Hu.
  destruct (update_where _ _ (c_runs c)) as [rows changed]. cbn [fst snd] in *.
  rewrite (refers_map scanWaiting t_id) by done. destruct (_ && _); [done|]. unfold oneRowChanged.
  destruct (Nat.eqb_spec changed 0) as [E|E]; [|done]. rewrite Hu in * by done. split; [|done]. by destruct c.
Qed.

Lemma Interrupt_writes now c : fits (SInterrupt now) → columns_ok c →
  let '(n, c') := MarkRunningAsInterrupted now c in
  Store.MarkRunningAsInterrupted now (values_of c) = (n, values_of c') ∧ columns_ok c'.
Proof.
  intros Hf Hok. unfold MarkRunningAsInterrupted, Store.MarkRunningAsInterrupted. cbn [runs values_of].
  rewrite (update_where_map scanRun (λ r, String.eqb (r_status r) StatusRunning) _ (interrupt_columns now)) by (done || (intros r; by apply scan_interrupt)).
  pose proof (runs_ok_update c (λ r, String.eqb (r_status r) StatusRunning) (interrupt_columns now) Hok ltac:(done)) as Hok'.
  by destruct (update_where _ _ (c_runs c)).
Qed.

Lemma Rate_writes redact name run_id at_ c : writable at_ → columns_ok c →
  Store.RecordRateStart redact name run_id at_ (values_of c) = values_of (RecordRateStart redact name run_id at_ c) ∧
  columns_ok (RecordRateStart redact name run_id at_ c).
Proof.
  intros Hw [H1 H2 H3 H4]. split.
  - unfold Store.RecordRateStart, RecordRateStart, values_of, set_rate_starts. cbn -[scanRate]. rewrite map_app. cbn [map].
    unfold scanRate at 3. cbn -[scanRate]. by rewrite sortable_time.
  - split; cbn; try done. apply Forall_app. split; [done|]. constructor; [|done]. by exists at_.
Qed.

Lemma a_statement_writes redact st c : fits st → columns_ok c →
  on_values redact st (values_of c) = (fst (on_columns redact st c), values_of (snd (on_columns redact st c))) ∧
  columns_ok (snd (on_columns redact st c)).
Proof.
  intros Hf Hok. destruct st as [new_id put trigger carried|new_id id end_|now run|run|now|new_id refusal|name run_id at_]; cbn [on_values on_columns].
  - pose proof (AcceptWaiting_writes redact _ put _ carried c Hf Hok) as H. destruct (AcceptWaiting _ _ _ _ _ _) as [[row err] c'].
    by destruct H as [-> ?].
  - pose proof (EndWait_writes redact _ _ _ c Hf Hok) as H. destruct (EndWait _ _ _ _ _). by destruct H as [-> ?].
  - pose proof (CreateRun_writes redact _ _ c Hf Hok) as H. destruct (CreateRun _ _ _ _). by destruct H as [-> ?].
  - pose proof (FinishRun_writes redact _ c Hf Hok) as H. destruct (FinishRun _ _ _). by destruct H as [-> ?].
  - pose proof (Interrupt_writes _ c Hf Hok) as H. destruct (MarkRunningAsInterrupted _ _). by destruct H as [-> ?].
  - unfold Store.RecordRefusal. destruct (insertRefusal_writes redact new_id refusal c Hf Hok) as [-> ?]. by destruct (insertRefusal _ _ _ _).
  - destruct (Rate_writes redact name run_id at_ c Hf Hok) as [-> ?]. done.
Qed.

Lemma statements_write redact l c : Forall fits l → columns_ok c →
  all_of (on_values redact) l (values_of c) = (fst (all_of (on_columns redact) l c), values_of (snd (all_of (on_columns redact) l c))) ∧
  columns_ok (snd (all_of (on_columns redact) l c)).
Proof.
  intros Hl. revert c. induction Hl as [|st l Hst Hl IH]; intros c Hok; [done|]. cbn [all_of].
  destruct (a_statement_writes redact st c Hst Hok) as [-> Hok']. destruct (on_columns redact st c) as [a c']. cbn [fst snd] in *.
  destruct (IH c' Hok') as [-> Hok'']. by destruct (all_of (on_columns redact) l c').
Qed.

(** ** The queries read what [Store] reads *)

Lemma GetRun_reads id c : Store.GetRun id (values_of c) = GetRun id c.
Proof.
  unfold Store.GetRun, GetRun. cbn [runs values_of]. rewrite (find_map_in scanRun (λ r, String.eqb (r_id r) id)) by (apply Forall_forall; done).
  by destruct (List.find _ _).
Qed.

Lemma ListRuns_reads limit c : columns_ok c → Store.ListRuns limit (values_of c) = ListRuns limit c.
Proof.
  intros Hok. unfold Store.ListRuns, ListRuns. cbn [runs values_of]. rewrite <- page_map. f_equal.
  eapply (order_by_map scanRun run_before Store.run_before); [|exact (ok_runs c Hok)].
  intros a b (ta & Ha & Ha0 & Ea) (tb & Hb & Hb0 & Eb). unfold Store.run_before, run_before. cbn. rewrite Ea, Eb, !formatTime_reads by done.
  unfold formatTime, nullTime, IsZero, text. by rewrite !(proj2 (Z.eqb_neq _ _)).
Qed.

Lemma ListRefusals_reads limit c : columns_ok c → Store.ListRefusals limit (values_of c) = ListRefusals limit c.
Proof.
  intros Hok. unfold Store.ListRefusals, ListRefusals. cbn [refusals values_of]. rewrite <- page_map, <- map_rev. f_equal.
  eapply (order_by_map scanRefusal (λ a b, String.leb (e_refused_at b) (e_refused_at a))); [|exact (List.Forall_rev (ok_refusals c Hok))].
  intros a b (ta & Ha & Ea) (tb & Hb & Eb). cbn. by rewrite Ea, Eb, !sortable_time, sortable_leb.
Qed.

Lemma CountRateStarts_reads redact name since c : writable since → columns_ok c →
  Store.CountRateStarts redact name since (values_of c) = CountRateStarts redact name since c.
Proof.
  intros Hw Hok. unfold Store.CountRateStarts, CountRateStarts. cbn [rate_starts values_of].
  rewrite (filter_map_in scanRate (λ q, String.eqb (q_playbook_name q) (redact name) && String.leb (sortable since) (q_started_at q)));
    [by rewrite length_map|].
  eapply Forall_impl; [exact (ok_rates c Hok)|]. intros q (t & Ht & Et). cbn. by rewrite Et, sortable_time, sortable_leb.
Qed.

Lemma StillWaiting_reads c : columns_ok c → Store.StillWaiting (values_of c) = StillWaiting c.
Proof.
  intros Hok. unfold Store.StillWaiting, StillWaiting. cbn [waiting_triggers values_of].
  rewrite (filter_map_in scanWaiting is_waiting) by (apply Forall_forall; done).
  assert (Forall (λ t, t_id t ≠ "" ∧ t_run_id t ≠ Some "" ∧ ∃ u, writable u ∧ t_accepted_at t = sortable u) (List.filter is_waiting (c_waiting c))) as Hl.
  { apply Forall_forall. intros t Ht%list_elem_of_In. apply filter_In in Ht as [Ht _]. apply (proj1 (Forall_forall _ _) (ok_waiting c Hok)). by apply list_elem_of_In. }
  rewrite (order_by_map scanWaiting (λ a b, String.leb (t_accepted_at a) (t_accepted_at b)) _
    (λ t, t_id t ≠ "" ∧ t_run_id t ≠ Some "" ∧ ∃ u, writable u ∧ t_accepted_at t = sortable u)); [|..|exact Hl].
  - rewrite map_map. apply List.map_ext_in. intros t Ht%list_elem_of_In. rewrite order_by_perm in Ht.
    destruct (proj1 (Forall_forall _ _) Hl t Ht) as (? & ? & _). by apply waiting_columns_scan.
  - intros a b (_ & _ & ua & Ha & Ea) (_ & _ & ub & Hb & Eb). cbn. by rewrite Ea, Eb, !sortable_time, sortable_leb.
Qed.

Lemma GetWaitingTrigger_reads id c : columns_ok c → Store.GetWaitingTrigger id (values_of c) = GetWaitingTrigger id c.
Proof.
  intros Hok. unfold Store.GetWaitingTrigger, GetWaitingTrigger. cbn [waiting_triggers values_of].
  rewrite (find_map_in scanWaiting (λ t, String.eqb (t_id t) id)) by (apply Forall_forall; done).
  destruct (List.find _ (c_waiting c)) as [t|] eqn:E; [|done]. cbn. f_equal.
  apply find_some in E as [Hin%list_elem_of_In _].
  destruct (proj1 (Forall_forall _ _) (ok_waiting c Hok) t Hin) as (? & ? & _). by apply waiting_columns_scan.
Qed.

(** ** The columns hold the values *)

Lemma no_columns_ok : columns_ok no_columns.
Proof. by split. Qed.

(** C20: The columns SQLite keeps, nulls and texts of time included, hold what [Store] computes on
    values: every sequence of statements whose instants are ones a time can write, whose runs have an
    identifier and are created by a clock that has been set, and whose waits are given an identifier
    that is not empty, answers the same on either; and afterwards every query of the runs, the
    refusals, the waits and the starts that count against a rate, with its ordering and its bounds
    evaluated on the columns' texts, reads what [Store]'s reads. *)
Theorem the_columns_hold_the_values redact l answers c :
  Forall fits l → all_of (on_columns redact) l no_columns = (answers, c) →
  ∃ s, all_of (on_values redact) l empty_db = (answers, s) ∧ values_of c = s ∧
    (∀ id, GetRun id c = Store.GetRun id s) ∧ (∀ limit, ListRuns limit c = Store.ListRuns limit s) ∧
    (∀ limit, ListRefusals limit c = Store.ListRefusals limit s) ∧ StillWaiting c = Store.StillWaiting s ∧
    (∀ id, GetWaitingTrigger id c = Store.GetWaitingTrigger id s) ∧
    (∀ name since, writable since → CountRateStarts redact name since c = Store.CountRateStarts redact name since s).
Proof.
  intros Hl E. destruct (statements_write redact l no_columns Hl no_columns_ok) as [Ev Hok]. rewrite E in *. cbn [fst snd] in *.
  exists (values_of c). split; [done|]. split; [done|].
  split; [intros; symmetry; apply GetRun_reads|]. split; [intros; symmetry; by apply ListRuns_reads|].
  split; [intros; symmetry; by apply ListRefusals_reads|]. split; [symmetry; by apply StillWaiting_reads|].
  split; [intros; symmetry; by apply GetWaitingTrigger_reads|].
  intros; symmetry; by apply CountRateStarts_reads.
Qed.

(** The order the texts of [sortableTime] are for: RFC 3339 with its trailing zeros dropped, which
    [started_at] is written with, puts half a second past before the second. *)
Example the_dropped_zeros_do_not_sort :
  let t := 62135596800 * Second in
  String.leb (rfc3339_nano t) (rfc3339_nano (t + 500 * Millisecond)) = false ∧ String.leb (sortable t) (sortable (t + 500 * Millisecond)) = true.
Proof. vm_compute. done. Qed.

(** A wait accepted, a run started from it and finished, another interrupted, and a refusal. *)
Definition at_second (n : Z) : Z := (62135596800 + n) * Second.
Definition a_run (id waiting status : string) : Run :=
  mkRun id "triage" "" "" "" TriggerManual "" status 0 (at_second 9) (1 # 4) 12 "" "" "" waiting 40 "" 0 "".
Definition some_statements : list statement :=
  [SAccept (inr "w1") inr (mkWaitingTrigger "" "triage" "/p.yaml" TriggerManual "" (at_second 1) (at_second 60) "i1" "" 0 "" "") ∅;
   SCreate (at_second 2) (a_run "r1" "w1" StatusRunning); SFinish (a_run "r1" "w1" StatusSucceeded);
   SCreate (at_second 3 + 500 * Millisecond) (a_run "r2" "" StatusRunning); SCreate (at_second 3) (a_run "r3" "" StatusRunning);
   SInterrupt (at_second 4); SFinish (a_run "r9" "" StatusFailed);
   SRefuse (inr "x1") (mkRefusal "" "triage" TriggerSchedule 0 "" MechanismClaimHeld "held" (at_second 5) "");
   SRate "triage" "r1" (at_second 2)].

Example the_columns_list_the_runs : let c := snd (all_of (on_columns id) some_statements no_columns) in
  (map u_ID (ListRuns 0 c), map (λ r, (u_Status r, u_WaitedMS r)) (ListRuns 0 c), map f_ID (ListRefusals 0 c), CountRateStarts id "triage" (at_second 2) c) =
  (["r3"; "r2"; "r1"], [(StatusInterrupted, 0); (StatusInterrupted, 0); (StatusSucceeded, 40)], ["x1"], 1).
Proof. vm_compute. reflexivity. Qed.

Lemma the_columns_hold_the_values_witness :
  ∃ c s, Forall fits some_statements ∧ snd (all_of (on_columns id) some_statements no_columns) = c ∧ values_of c = s ∧
    ListRuns 0 c = Store.ListRuns 0 s.
Proof.
  assert (Forall fits some_statements) as Hf.
  { unfold some_statements. repeat (constructor; [cbn; repeat split; try (vm_compute; done); done|]). constructor. }
  destruct (all_of (on_columns id) some_statements no_columns) as [answers c] eqn:E.
  destruct (the_columns_hold_the_values id some_statements answers c Hf E) as (s & _ & Hv & _ & Hlist & _).
  exists c, s. split; [exact Hf|]. split; [reflexivity|]. split; [exact Hv|apply Hlist].
Defined.
